(* ===== verification/_CoqProject ===== *)
-Q . S2P
Prelude.v
RingBuffer.v
Mailbox.v
ControlAwareMailbox.v
PriorityMailbox.v
Json.v
Crdt.v
GCounter.v
Counters.v
LWW.v
GSet.v
ORSet.v
ORMap.v
MVRegister.v
Delivery.v
ProducerController.v
ConsumerController.v
ReliableDelivery.v
Float.v
Backoff.v
CircuitBreaker.v
Member.v
FailureDetector.v
Downing.v
StabilityWindow.v
Lease.v
Text.v
LeaseMajority.v
Cluster.v
ClusterInvariants.v
ClusterGossip.v
ClusterDetector.v
BidirectionalMap.v
MapContents.v
Utf8.v
Double.v
Cbor.v
CborRoundTrip.v
CborTheorems.v
CborBounds.v
ShardAllocation.v
ShardCoordinator.v
ShardCoordinatorBooks.v
ShardCoordinatorTheorems.v
ShardRebalance.v
ShardAllocator.v
Passivation.v
PassivationTheorems.v
Shard.v
ShardTheorems.v
ShardRegion.v
ShardRegionTheorems.v
ShardRegionOwnership.v
ShardRegionFindings.v
Singleton.v
SingletonTheorems.v
SingletonProxy.v
Journal.v
JournalTheorems.v
Replay.v
ReplayTheorems.v
PersistentActor.v
PersistentActorTheorems.v
RecoveryPermits.v
DurableState.v
DurableStateTheorems.v
Supervision.v
TokenBucket.v
ActorMailbox.v
ActorMailboxes.v
ActorCell.v
ActorCellInvariants.v
ActorCellLifecycle.v
ActorCellTheorems.v
