(* ===== verification/Prelude.v ===== *)
(** * actor-ts, verified

    A library of models and theorems for the core of actor-ts, an actor
    framework written in TypeScript.  File names in brackets are paths from
    the root of the repository.  Eleven parts of the framework are
    modelled; they are the ones whose correctness rests on data structures and
    protocols rather than on the host runtime:

    - the mailboxes an actor receives through ([src/internal/Mailbox.ts],
      [src/mailbox/], [src/util/RingBuffer.ts]);
    - the actor cell ([src/internal/ActorCell.ts]): turns, lifecycle,
      supervision ([src/Supervision.ts]), death watch, stash and throttle
      ([src/util/TokenBucket.ts]);
    - the replicated data types of [src/crdt/], with the decoders their
      gossiped frames go through;
    - at-least-once delivery with deduplication, [src/delivery/];
    - backoff, retry and the circuit breaker of [src/pattern/];
    - cluster membership: one node's view and all of its handlers
      ([src/cluster/Cluster.ts]), the failure detector, and the split-brain
      resolvers of [src/cluster/downing/] with their stability window;
    - leases ([src/coordination/]) and the resolver that arbitrates with one;
    - cluster sharding ([src/cluster/sharding/]): the allocation strategies,
      the coordinator, the region on each node, the shard actor that hosts
      entities, and the strategies that passivate them;
    - the cluster singleton ([src/cluster/singleton/]): the manager that hosts
      the one instance, and the proxy that sends to it;
    - persistence ([src/persistence/]): the reference journal and snapshot
      store, replay, event-sourced and durable-state actors;
    - the binary codec of [src/serialization/], with the bidirectional maps of
      [src/util/] that it carries.

    They meet at their edges: the cell is verified against the interface of
    its mailbox ([CellMailbox]), which the plain, the bounded, the control-aware
    and the priority mailbox are shown to keep, but for a priority mailbox that
    rejects over a capacity, whose replay may refuse half of a batch; a producer's [tell] may throw because the
    consumer's mailbox is bounded (the [accepts] argument of the producer);
    the cluster is verified against the
    interface of its detector and contains the stability window, whose
    consultation asks a resolver; and the lease resolver is verified against
    what any lease backend promises ([LeaseWorld]), which the in-memory store
    is shown to keep.  The shard coordinator sees the membership through the
    records of [Member], takes a lease, and is verified against any allocation
    strategy, of which the two built-in ones are instances.  A region talks to
    the coordinator and to its shards in frames and commands, which its
    effects list; the composite strategy that caps its entities is verified
    against the interface of a replacement region, which the three built-in
    ones keep.  The singleton manager and its proxy read the membership the
    same way, and the manager may hold a lease too.  A persistent actor is
    verified against what any journal and any snapshot store promise
    ([JournalLaws], [SnapshotLaws]), which the in-memory ones are shown to
    keep.

    ** Conventions

    A class is a [Record] of its fields, a method a [Definition] that returns
    the new record.  A method that may throw returns [result] (below), or the
    state it leaves behind together with an optional error where a caller can
    observe both.  JavaScript numbers are [Z] where the code keeps them
    integral; where a caller may pass anything they are the type [number] of
    [Prelude] (an integer, NaN or an infinity; fractions are left out, except
    as a tag the decoders refuse); the delays of [Float] are rationals that
    every operation rounds to the nearest double, with NaN, infinities,
    overflow and underflow; the numbers of [Double] and of the codec are IEEE
    754 patterns, arithmetic and rounding included.  [Map] and [Set] are [gmap] and [gset]
    where the order of iteration does not show, and association lists where it
    does (the deduplication windows, the sends in flight).  Effects on the
    outside (reports of dropped messages, calls of callbacks, deliveries on
    the wire, warnings) are logs kept in the state, so that a theorem can say
    how often and in which order they happen.  Code outside the repository
    is an argument: identity functions, predicates, callbacks, the clock and
    the source of random tags; a handler reads the clock once.  What the host
    decides is a class with the laws the code relies on: [localeCompare] is a
    total order ([LocaleCompare]), the parsers of regular expressions, URLs and
    dates are [Host].  Lines that only log, and sends that change no state of
    the sender, are left out of a handler.

    A handler of the coordinator is a function from a state to a state and a
    [bool]: [false] is a throw that leaves the writes made so far, after which
    the supervisor restarts the actor when it happened on one of its turns.
    What a handler reads besides its state (the clock, the members, the
    strategy, the answers of lease and stores) is its [View]; a timer is an
    event that may always fire.  The options are the ones their builders let
    through: an integer absolute limit, a relative one between 0 and 1 as an
    IEEE number.

    The cells of an actor system are one array, and an event is one step of
    one cell's turn, up to the next [await] or call of user code, or a call
    from outside, so every interleaving the event loop allows is a sequence of
    events.  User code is arbitrary: how it ends is part of the event, and at
    any time it may call the methods of any context.  Each cell carries a
    [Ledger] of what became of its messages, which nothing reads but the
    theorems.

    ** The files

    - [Prelude]: this header, [result] and its bind, [number], notations, the
      lemmas on lists, maps and sorting shared by the rest, the hint database
      [actor].
    - [RingBuffer]: the class of [src/util/RingBuffer.ts] slot by slot, with
      masked indices and growth, and the interface [Fifo]/[FifoLaws] its
      clients are verified against; the ring buffer and the plain list are its
      two instances.
    - [Mailbox]: Module [Mailbox] ([src/internal/Mailbox.ts], both lanes and
      the two eviction walks), Module [DroppingMailbox]
      ([src/mailbox/DroppingMailbox.ts], counter and reports), Module
      [BoundedMailbox] ([src/mailbox/BoundedMailbox.ts], the three overflow
      policies on arrival and on replay).
    - [ControlAwareMailbox]: [src/mailbox/ControlAwareMailbox.ts], a control
      class in front of a bounded ordinary class.
    - [PriorityMailbox]: [src/mailbox/PriorityMailbox.ts], binary-search
      insertion and the bound by priority; Module [Unstash] is [unstashAll]
      of [src/internal/ActorCell.ts] against the two bounded mailboxes.
    - [Json]: JSON values and the checks of [src/crdt/CrdtWireValidation.ts].
    - [Crdt]: the interface of [src/crdt/Crdt.ts] as the classes [Crdt] and
      [CrdtLaws], the join order they induce, and what a replica that merged
      a list of states holds, whatever its order and repetitions.
    - [GCounter], [Counters] (Modules [PNCounter], [GCounterMap]), [LWW]
      (Modules [LWWRegister], [LWWMap]), [GSet], [ORSet], [ORMap],
      [MVRegister]: one type of [src/crdt/] each, with every method,
      [toJSON] and [fromJSON] included, and an instance of the interface.
      [ORSet] also holds the bounded redraw of
      [src/util/RandomString.ts]; [ORMap] is generic in its value type.
    - [Delivery]: messages, constants and paced warnings of [src/delivery/].
    - [ProducerController], [ConsumerController]: the two actors.  [turn] is
      the handling of one message, timer or lifecycle event, [run] a sequence
      of them.
    - [ReliableDelivery]: both actors and the network as a step relation,
      with restarts, evictions and forged messages.

    - [Float]: the arithmetic of delays.  [Backoff] (Modules [Backoff],
      [Retry]) and [CircuitBreaker]: the three files of [src/pattern/]; a
      breaker's call has two halves, so calls in flight overlap.
    - [Member]: addresses, statuses and gossiped records
      ([src/cluster/NodeAddress.ts], [src/cluster/Member.ts]) with their
      decoder.  [FailureDetector]: the interface [FailureDetectorLike] and
      the elapsed-time detector.
    - [Downing]: the stateless strategies of [src/cluster/downing/], one
      Module each, and [Strategy], any of them.  [StabilityWindow]: the state
      machine in front of them, specified by the history of ticks.
    - [Lease]: the store, the lease objects and their renewal
      ([src/coordination/]), and the interface [LeaseWorld].  [LeaseMajority]:
      the resolver with a lease, one step per callback, then two of them over
      one store.  [Text]: strings with separators, for its fingerprints.
    - [Cluster]: the record of a node, [setMember] and the other operations on
      the member map, one handler per frame, timer and operator call; [step]
      collects them.  [ClusterInvariants], [ClusterGossip],
      [ClusterDetector]: its theorems.
    - [BidirectionalMap]: Modules [BidirectionalMap] and
      [BidirectionalMultiMap], over JavaScript's insertion-ordered [Map].
    - [Utf8], [Double]: texts and numbers as bytes.  [Cbor]: the encoder of
      [src/serialization/CborCodec.ts] and [RichTypes.ts] over a heap, where
      sharing and cycles are visible, and the decoder.  [CborRoundTrip],
      [CborTheorems], [CborBounds]: its theorems.
    - [ShardAllocation]: JavaScript's ordered sets and maps, and
      [src/cluster/sharding/AllocationStrategy.ts]: the interface as a class
      and Modules [HashAllocationStrategy], [LeastShardAllocationStrategy].
      [ShardCoordinator]: the actor of [ShardCoordinator.ts], every frame,
      timer, answer and cluster event; [step] collects them.
      [ShardCoordinatorBooks]: its invariant and what is reachable.
      [ShardCoordinatorTheorems], [ShardRebalance]: its theorems.
    - [MapContents]: what the values of a map hold together.
      [ShardAllocator]: the hashes of [ShardAllocator.ts] and of
      [src/cluster/router/ConsistentHashing.ts], and the two stateless
      allocators.  [Passivation]: [PassivationStrategy.ts], one Module per
      replacement region, the sketch and the composite; the interface is the
      class [ReplacementRegion] with its laws.  [PassivationTheorems]: the
      instances of the laws and what the composite does.
    - [Shard]: the actor of [Shard.ts], every message, timer and lifecycle
      event; [turn] and [run] collect them.  [ShardTheorems]: its invariant,
      and where its messages go.
    - [ShardRegion]: the actor of [ShardRegion.ts], one definition per method;
      [handle] is one message, timer or cluster event, [run] a sequence of
      them from [preStart] on.  [ShardRegionTheorems]: where the messages go.
      [ShardRegionOwnership]: who hosts what, and when a hand-off is over.
      [ShardRegionFindings]: runs of a concrete region.
    - [Singleton]: the actor of [ClusterSingletonManager.ts], every frame,
      timer, answer and cluster event; [handle] is one of them, [run] a
      sequence of them from [preStart] on.  [SingletonTheorems]: its
      theorems.  [SingletonProxy]: the ref of [ClusterSingletonProxy.ts], its
      steps and theorems.
    - [Journal]: ids, tags, events, envelopes, [InMemoryJournal.ts] and
      [InMemorySnapshotStore.ts], and the interfaces in front of them;
      [JournalTheorems]: the instances, and the pages of ids.  [Replay]: the
      phases of [Replay.ts]; [ReplayTheorems]: what they accept and compute.
      [PersistentActor]: the actor of [PersistentActor.ts], a definition per
      stretch between two awaits, then all its instances with the stores and
      the calls under way; [step] is one event of that world, [run] a sequence
      of them.  [PersistentActorTheorems]: its theorems and runs.
      [RecoveryPermits]: the semaphore of [RecoveryPermits.ts].
      [DurableState], [DurableStateTheorems]: [DurableStateActor.ts] and its
      in-memory store, in the same way.
    - [Supervision]: strategies, directives and the restart budget.
      [TokenBucket]: [src/util/TokenBucket.ts] over the rationals.
      [ActorMailbox]: what a cell asks of its mailbox; [ActorMailboxes]: the
      plain, the bounded, the control-aware and the priority mailbox behind
      that interface.
      [ActorCell]: the cell, one definition per method and one per stretch
      between two awaits; [step] collects them.  [ActorCellInvariants]: turns
      and ledger in every reachable state.  [ActorCellLifecycle]: states,
      children, identities.  [ActorCellTheorems]: what follows, and the runs
      on concrete systems.

    ** What the theorems show

    Mailboxes.  Each ring-buffer operation is the list operation it stands
    for, through wrap-around and growth ([ringbuffer_refines_list]).  A bounded
    mailbox follows its policy on every branch, and every message it does not
    keep is reported ([bounded_enqueue_conserves], [bounded_replay_conserves]);
    its droppable load stays within the capacity in every reachable state and
    the drop counter is exact ([bounded_reachable_within_capacity]).  Control
    messages go first and are bounded by nothing ([control_messages_first],
    [control_class_exempt]).  The priority queue is ordered by rank, then by
    arrival ([priority_delivery_order]), and sheds from the back
    ([priority_bound]).  A stash replayed into a bounded mailbox is left in
    exactly one place ([bounded_unstash_exactly_once]); into a priority
    mailbox under reject it is not ([priority_unstash_duplicates]).

    Replicated types.  Every type obeys the semilattice laws up to its own
    [equals], on the states its [ok] predicate describes (what the operations
    build, and for a register no two writes with one stamp), so merging the
    same states in any order and number gives equal ones ([joined_same]).
    Beside the laws, each type has the theorem that says what it computes: exact sums
    within the safe integers ([gcounter_sum_exact]), the bounded merge of
    untrusted tables ([gcounter_merge_bounded]), add wins and the tombstoned
    tags of a key stay dead for it ([orset_add_wins], [orset_no_resurrection]), the map over a set
    of keys ([ormap_contract]), last writer wins ([lww_latest_write],
    [lwwmap_latest_wins]), the causally maximal entries
    ([mvregister_merge_maximal]).  The round-trip theorems say that a type's
    own encoding is accepted by its decoder and gives the state back, and
    state the size limits under which that holds;
    [gcounter_increment_outgrows_decoder] is a state the API builds past such
    a limit, [lww_same_stamp_diverges] two registers no merge reconciles.

    Delivery.  The callback of every send is settled exactly once or is still
    owed, and a stop settles all of them ([producer_settles_once]); the window
    holds and everything in flight has one armed timer ([producer_window]).
    A consumer handles each number of a window once ([consumer_handles_once]),
    within both of its bounds ([consumer_bounded_and_sound]); its idle sweep,
    which stops at the first live window, drops exactly the idle ones
    ([consumer_sweep_exact]).  Across the network a confirmation told to the
    sender means that the consumer handled that very body
    ([confirmed_implies_handled]).  [consumer_lost_window_stalls] is the price
    of a window lost while its producer lives.

    Patterns.  A retry settles, with the first success or the last error,
    after at most its attempts; it waits between any two of them where the
    factor is at least one and the first delay is positive ([retry_settles]),
    and below one a delay may underflow to none
    ([shrinking_delay_is_not_waited]).  A breaker opens exactly on
    the configured streak of failures, in whatever order overlapping calls
    settle ([breaker_opens_on_streak]), and always probes again
    ([breaker_probes_again]).

    Membership.  The member map, the tombstone count and the per-peer tables
    agree in every reachable state, and the announced leader is the leader
    ([cluster_books_balance]).  No peer moves a node's own status
    ([own_status_out_of_reach]) or takes an entry back to an older version
    ([frames_never_go_back]), gossip respects the caps ([gossip_within_caps]),
    and the live records of one run of a third node merge to the same version
    in any order, and to the same status where those of that version agree
    ([merge_order_independent]).  A detector round does to each member what
    the table in its theorem says ([detector_round_exact]).  A record is
    believed only within its limits ([member_decode]).

    Partitions.  At most one side of a split survives, for the stateless
    strategies that arbitrate ([downing_one_survivor]: a static quorum above
    half, a referee that is a candidate) and for the lease, as long as it does
    not change hands in an even split ([lease_split_one_survivor]); an even split is settled once the backend
    answers ([lease_even_split_settled]), and one attempt at most is under way
    ([lease_attempts_never_overlap]).  The resolver is consulted exactly when
    the history of ticks says so ([window_consults_exactly]), and gives up on
    the cluster only after a long churn ([escalation_ends_a_long_churn]).  A
    lease that says it is alive has no rival ([lease_single_holder]).
    [keep_oldest_crash], [fencing_token_repeats], [leave_ignores_cap] and
    [recovery_skips_threshold] are behaviours that differ from what the
    comments promise.

    Codec.  What the encoder writes, the decoder reads, as the tree the value
    stands for but for times and byte-order marks, which it says what becomes
    of ([cbor_encoded_is_decoded]); the encoder stops on every heap, cycles
    included ([cbor_encoder_stops]); the decoder stops on every input and
    builds nothing larger than what it read, up to the factor by which the
    host's own [new URL] and [new RegExp] lengthen a text
    ([cbor_decoder_bounded]).
    [date_loses_a_millisecond] and [mark_is_lost] are values that do not come
    back as they were.  The bidirectional maps are one-to-one relations, and
    relations, seen from both ends ([bidirectional_map_refines],
    [bidirectional_multi_map_refines]).

    Sharding.  In a coordinator that loads no stored state and whose strategy
    answers, the homes, the listings of the regions, the hand-offs and the
    waiting queries agree in every reachable state ([coordinator_books_balance]);
    a frame of a peer takes no shard from a region of another node unless it
    makes the handler throw over an address ([no_peer_takes_a_shard]); a shard
    is placed only where it may be ([shards_go_where_they_may]); the shards on the move stay within the
    ceiling whatever the strategy proposes ([handoffs_within_ceiling]) and
    leave their owners in turn ([owners_give_in_turn]).  The hash strategy
    moves exactly the shards it would place elsewhere
    ([hash_rebalance_exact]), and the other one allocates to the least loaded
    ([least_strategy_sound]).  [malformed_address_restarts] is a frame that
    costs the coordinator its state, and [loaded_listing_takes_a_shard] a
    stored state that takes a shard from its owner.

    The region accounts for every message it is given, through hand-offs,
    evictions and failures of shards, and its buffer stays within its size
    ([region_accounts_for_every_message]).  Only frames of the coordinator
    move shards ([only_the_coordinator_moves_shards]); a hand-off is answered
    once per request at most ([handoffs_answered_once]), and only when every
    actor the region started for the shard has ended
    ([handoff_completes_after_shard_is_gone]).  A shard
    accounts for every message in the order of each entity
    ([shard_accounts_for_every_message]) and keeps a failed entity down for
    its backoff ([backoff_is_respected]); child names are injective
    ([entityName_injective]).  The passivation strategies keep the cap under
    every policy ([entity_cap_kept]) and give up the entity their names
    promise ([lru_victim_is_oldest], [protected_entities_are_safe],
    [lfu_victim_is_least]); the sketch counts no access short
    ([sketch_never_underrates]).  A member that leaves moves its own shards
    only ([rendezvous_minimal_movement], [pickRendezvous_stable]).
    [second_passivation_loses_messages],
    [stopping_shard_loses_passivation_buffer], [cap_of_one_has_no_filter],
    [replaced_shard_feeds_a_stopping_actor],
    [handoff_behind_a_release_is_lost] and
    [entity_outlives_its_handed_off_shard] are runs that break a promise of
    the comments.

    Singletons.  A manager runs one instance at a time, and answers a peer or
    releases its lease only when none runs ([one_instance_at_a_time]); it does
    not host past a peer that has not answered, but for the restart of an
    instance that died ([unanswered_peer_blocks_hosting]).  Manager and proxy
    account for every message ([singleton_messages_accounted],
    [proxy_messages_accounted]).  [restart_hosts_past_a_hand_over],
    [overflow_overtakes_the_hand_over_buffer],
    [lease_given_back_under_a_live_instance], [late_role_strands_the_buffer]
    and [stopped_proxy_keeps_its_buffer] are runs that break a promise of the
    comments.

    Persistence.  The state of every instance, and of every snapshot, is the
    fold of the events up to its sequence number, whatever overlaps and
    whatever fails; the exceptions are the recoveries that found nothing behind
    a head above zero, which the model records ([recovered_state_is_the_history]).
    An append is accepted only from an instance at the head of the log, whose
    state is the fold of every event, or of every one since such a recovery
    ([accepted_writer_has_seen_everything]).  A recovery that nobody disturbs
    is the replay of the time-travel panel
    ([undisturbed_recovery_is_replayState]), which accepts exactly contiguous
    histories ([history_accepted_exactly]), never ends in a state that the
    events did not lead to ([replay_never_invents]) and reaches the fold of all
    of them whatever snapshot it starts from ([replay_reconstructs]).  Durable
    state loses no update as long as no record is deleted
    ([durable_writer_saw_the_latest]).  Recoveries stay within their cap, in
    order ([permits_cap_recoveries]), and the pages of ids visit each one once
    ([pages_visit_every_id_once]).  The runs at the ends of
    [PersistentActorTheorems] and [DurableStateTheorems], from
    [non_holder_recovers_and_serves] to [recreated_record_is_overwritten],
    leave what the comments promise.

    Actors.  Over mailboxes that keep the laws of their interface nothing a
    cell is handed is lost or handled twice, and a stopped cell holds nothing
    ([messages_accounted_for]).  A cell has one turn at a
    time, and one whenever there is work for it ([one_turn_and_awake]), in
    which commands go first ([commands_first]).  Its state moves along the
    edges of the life cycle, in its own turn only ([lifecycle]); once stopped
    and without a turn it stays so ([stopped_stays_stopped]).  Actors form a
    tree with distinct sibling names and uids ([actors_form_a_tree]), to which
    a spawn adds one cell or nothing ([spawn_all_or_nothing]).  A failure is
    told to the parent alone ([failure_reported]), whose directive is one
    command for each child it affects ([directive_obeyed]), within a restart
    budget that is exact for one strategy object ([budget_per_strategy_object],
    [restart_budget_exact]).  A death is told to every live watcher
    ([watchers_told]).  A token bucket keeps its rate ([bucket_rate_bounded])
    and names a delay that suffices ([bucket_wait_suffices]).  The examples at
    the end of [ActorCellTheorems] are runs that leave the documented path:
    [stopped_actor_revived], [stop_lost_in_restart], [old_instance_reads_on],
    [never_created_stays], [second_incarnation_unwatched],
    [stopping_cell_spins], [fresh_object_never_limits]; and
    [slow_rate_never_gives] is a rate that lets nothing through.

    ** Bounds and fuel

    - [double_until] (ring growth) has the requested capacity as fuel: the
      capacity at least doubles per round, and [double_until_spec] shows that
      it reaches any request up to 2^31; the theorems on the ring buffer hold
      below that size, where the 32-bit [&] of the source does not truncate.
    - [oldest_loop], [newest_loop] have one more than the length of the queue:
      each round takes one element off it.  [search] has one more than the
      length of the array: the interval shrinks every round.  [slide] has the
      number of marks above the window: every round removes one.  In each case
      the specification lemma is proved for that fuel, so the loop of the
      source ends and computes what is stated.
    - The redraw of a tag is bounded by the source itself
      ([MAXIMUM_DRAW_ATTEMPTS], 1000); running out is its exception.
    - [MAX_CRDT_ENTRIES] (4096), [MAX_COUNTER_SLOT] and the string and array
      limits of the decoders are the values of [src/crdt/Constants.ts]; the
      limits of the controllers are those of [src/delivery/Constants.ts].

    - [retry] has one unit per attempt and one more; [retry_settles] is stated
      for any larger fuel too.
    - The encoder has three calls per level of nesting and the decoder the
      maximum number of levels plus two ([maxNestingDepth], an option);
      [cbor_encoder_stops] and [cbor_decoder_bounded] say that neither runs out.
    - [rounds] has one more than the number of shards: a round that takes none
      is the last, and [owners_give_in_turn] is proved for that fuel.
    - [widen] (the width of the sketch) has the capacity as fuel, and
      [nextPowerOfTwo_spec] shows that it reaches it; [demote] has the length
      of the protected segment, [walk] the distance between the two counts
      its loop runs over.

    ** Assumptions

    Text produced by [JSON.stringify] for a key type is the class [JsonText],
    with its round trip as law.  Tags drawn by different replicas are distinct
    where a theorem says so.  Observers of drops and warning hooks do not
    throw.  Strings compare by code point and their length counts bytes, where
    JavaScript uses UTF-16 units.  An incarnation token is not guessed
    ([ReliableDelivery.v]); everything else in a forged message is arbitrary.

    The transport refuses a peer that claims this node's own address.  The
    member map of [Cluster] has no order, so the order in which one handler
    reports changes of several members is not stated, and listeners do not
    call back into the cluster.  What a resolver answers is an argument of the
    tick that asks it, and its own Module says what it may be.  A
    strategy answers when it is asked with a candidate, and [reachable] of the
    coordinator starts without a state store.  The turn of a singleton manager
    that awaits its lease is one step.  What goes into a store through an
    adapter and the payload codec comes out as it was ([Codec]); a subclass of
    a persistent actor persists only after its recovery.  Competing
    leases read one clock and have distinct owners.  A mailbox factory makes a
    new, empty mailbox ([fresh_event]), and the door for signals does not
    throw.  A value with a [toJSON]
    method is the value that method returns.

    ** Not modelled

    The host side: scheduler, sockets, stores, brokers, runtimes, worker
    threads, HTTP and observability.  Of the cell: display names, the explain
    plan, inspection, the timers of [CellTimerScheduler], the development check
    of message boundaries, and remote death watch beyond the ref it registers.
    Of sharding: the extension that starts its actors, metrics, and malformed
    addresses in a region's frames.  Still open: the replicator over the interface of [Crdt.v] ([src/crdt/DistributedData.ts]);
    the other back ends, queries, projections and the replicated actor of
    [src/persistence/]; the in-memory cache; the durations and sizes of
    [src/config/]; the JSON tree codec; the phi-accrual detector. *)

From stdpp Require Export base gmap sets list strings fin_maps sorting.
From Stdlib Require Export ZArith Lia.

(** ** Scopes, hint databases *)

Declare Scope actor_scope.
Delimit Scope actor_scope with actor.
Open Scope actor_scope.

Create HintDb actor.

(** ** Errors as values

    A JavaScript [throw] is the [Err] branch of [result]; the sequencing of
    statements that may throw is the monadic bind. *)

Inductive result (E A : Type) : Type :=
| Ok (a : A)
| Err (e : E).
Arguments Ok {E A} a.
Arguments Err {E A} e.

Definition is_ok {E A} (r : result E A) : bool :=
  match r with Ok _ => true | Err _ => false end.

#[export] Instance result_ret {E} : MRet (result E) := λ A a, Ok a.
#[export] Instance result_bind {E} : MBind (result E) := λ A B f m,
  match m with Ok a => f a | Err e => Err e end.
#[export] Instance result_fmap {E} : FMap (result E) := λ A B f m,
  match m with Ok a => Ok (f a) | Err e => Err e end.

(** [throw_if b e; k] : [if (b) throw e; k]. *)
Definition throw_if {E} (b : bool) (e : E) : result E unit :=
  if b then Err e else Ok ().

Lemma result_bind_Ok {E A B} (f : A → result E B) (m : result E A) (b : B) :
  m ≫= f = Ok b ↔ ∃ a, m = Ok a ∧ f a = Ok b.
Proof.
  destruct m as [a|e]; simpl; split.
  - by exists a.
  - by intros (? & [= <-] & ?).
  - done.
  - by intros (? & ? & ?).
Qed.

Lemma throw_if_Ok {E} (b : bool) (e : E) u : throw_if b e = Ok u ↔ b = false.
Proof. by destruct b, u. Qed.

(** Splits every [Ok] obtained from a sequence of throwing statements. *)
Ltac unbind :=
  repeat match goal with
  | H : (_ ≫= _) = Ok _ |- _ =>
      apply result_bind_Ok in H;
      let a := fresh "a" in let H1 := fresh "Hok" in destruct H as (a & H1 & H)
  | H : throw_if _ _ = Ok _ |- _ => apply throw_if_Ok in H
  | H : Ok _ = Ok _ |- _ => injection H as H
  | H : Err _ = Ok _ |- _ => discriminate H
  end.

(** Turns the guards that a run did not throw on into inequalities. *)
Ltac guards :=
  repeat match goal with
  | H : (_ || _)%bool = false |- _ => apply orb_false_iff in H as [? ?]
  | H : (_ <? _)%Z = false |- _ => apply Z.ltb_ge in H
  | H : (_ >? _)%Z = false |- _ => rewrite Z.gtb_ltb in H
  | H : (_ >=? _)%Z = false |- _ => rewrite Z.geb_leb in H
  | H : (_ <=? _)%Z = false |- _ => apply Z.leb_gt in H
  end.

(** ** JavaScript numbers

    Finite numbers are taken at integer values: every arithmetic operation of
    the modelled code stays below [MAX_SAFE_INTEGER] on its successful paths,
    where float64 addition and comparison of integers are exact. *)

Inductive number : Type :=
| NaN
| PosInfinity
| NegInfinity
| Num (z : Z).

Definition MAX_SAFE_INTEGER : Z := 2 ^ 53 - 1.

#[export] Instance number_eq_dec : EqDecision number.
Proof. solve_decision. Defined.

Definition Number_isFinite (n : number) : bool :=
  match n with Num _ => true | _ => false end.

Definition Number_isSafeInteger (n : number) : bool :=
  match n with
  | Num z => (- MAX_SAFE_INTEGER <=? z)%Z && (z <=? MAX_SAFE_INTEGER)%Z
  | _ => false
  end.

(** The [<] operator: false as soon as one side is [NaN]. *)
Definition number_lt (a b : number) : bool :=
  match a, b with
  | NaN, _ | _, NaN => false
  | Num x, Num y => (x <? y)%Z
  | NegInfinity, NegInfinity => false
  | NegInfinity, _ => true
  | _, NegInfinity => false
  | PosInfinity, _ => false
  | _, PosInfinity => true
  end.

(** The [===] operator on numbers: [NaN !== NaN]. *)
Definition number_eqb (a b : number) : bool :=
  match a with NaN => false | _ => bool_decide (a = b) end.

Definition number_le (a b : number) : bool := number_lt a b || number_eqb a b.

(** ** 32-bit conversion done by the bitwise operators *)

Definition to_int32 (x : Z) : Z :=
  let y := (x mod 2 ^ 32)%Z in if (y <? 2 ^ 31)%Z then y else (y - 2 ^ 32)%Z.

(** The [&] operator. *)
Definition js_and (x y : Z) : Z := to_int32 (Z.land (to_int32 x) (to_int32 y)).

Lemma to_int32_mod x : (to_int32 x mod 2 ^ 32 = x mod 2 ^ 32)%Z.
Proof.
  unfold to_int32. case_match; [by rewrite Z.mod_mod|].
  rewrite <-(Z.mod_add _ 1) by done.
  replace (x mod 2 ^ 32 - 2 ^ 32 + 1 * 2 ^ 32)%Z with (x mod 2 ^ 32)%Z by lia.
  by rewrite Z.mod_mod.
Qed.

Lemma to_int32_small x : (0 ≤ x < 2 ^ 31)%Z → to_int32 x = x.
Proof.
  intros ?. unfold to_int32. rewrite Z.mod_small by lia.
  destruct (Z.ltb_spec x (2 ^ 31)); lia.
Qed.

(** Masking with [2^k - 1] is the remainder modulo [2^k], for negative
    operands too, as long as the mask is a positive 32-bit integer. *)
Lemma js_and_mask x k : (0 ≤ k ≤ 31)%Z → js_and x (2 ^ k - 1) = (x mod 2 ^ k)%Z.
Proof.
  intros Hk. unfold js_and.
  assert (0 < 2 ^ k ≤ 2 ^ 31)%Z as Hp.
  { split; [apply Z.pow_pos_nonneg; lia|]. apply Z.pow_le_mono_r; lia. }
  rewrite (to_int32_small (2 ^ k - 1)) by lia.
  replace (2 ^ k - 1)%Z with (Z.ones k) by (rewrite Z.ones_equiv; lia).
  rewrite Z.land_ones by lia.
  assert (to_int32 x mod 2 ^ k = x mod 2 ^ k)%Z as ->.
  { assert ((2 ^ k | 2 ^ 32))%Z as Hdiv.
    { exists (2 ^ (32 - k))%Z. rewrite <-Z.pow_add_r by lia. f_equal. lia. }
    rewrite <-(Z.mod_mod_divide (to_int32 x) (2 ^ 32)) by done.
    by rewrite to_int32_mod, Z.mod_mod_divide. }
  apply to_int32_small. pose proof (Z.mod_pos_bound x (2 ^ k)). lia.
Qed.

(** ** Arithmetic of wrapped indices *)

Lemma mod_shift_inj h i j n :
  (0 ≤ i < n)%Z → (0 ≤ j < n)%Z → ((h + i) mod n = (h + j) mod n)%Z → i = j.
Proof.
  intros Hi Hj Heq.
  assert ((i - j) mod n = 0)%Z as Hz.
  { replace (i - j)%Z with ((h + i) - (h + j))%Z by lia.
    rewrite Zminus_mod, Heq, Z.sub_diag. by apply Z.mod_0_l; lia. }
  apply Z.mod_divide in Hz as [c Hc]; [|lia].
  assert (c = 0)%Z by nia. nia.
Qed.

Lemma mod_index_range h j n : (0 < n)%Z → (0 ≤ (h + j) mod n < n)%Z.
Proof. intros. by apply Z.mod_pos_bound. Qed.

(** ** Arrays

    [arr[i]] reads [undefined] out of range; [arr[i] = v] past the end extends
    the array with holes. *)

Definition array_get {A} (a : list (option A)) (i : Z) : option A :=
  if (i <? 0)%Z then None else mjoin (a !! Z.to_nat i).

Definition array_set {A} (a : list (option A)) (i : Z) (v : option A) : list (option A) :=
  if (i <? 0)%Z then a
  else if (Z.to_nat i <? length a)%nat then <[Z.to_nat i := v]> a
  else a ++ replicate (Z.to_nat i - length a) None ++ [v].

Lemma array_get_in {A} (a : list (option A)) i v :
  (0 ≤ i)%Z → a !! Z.to_nat i = Some v → array_get a i = v.
Proof.
  intros ? Ha. unfold array_get. destruct (Z.ltb_spec i 0); [lia|]. by rewrite Ha.
Qed.

Lemma array_set_in {A} (a : list (option A)) i v :
  (0 ≤ i < Z.of_nat (length a))%Z → array_set a i v = <[Z.to_nat i := v]> a.
Proof.
  intros ?. unfold array_set. destruct (Z.ltb_spec i 0); [lia|].
  destruct (Nat.ltb_spec (Z.to_nat i) (length a)); [done|lia].
Qed.

(** ** Sublists *)

Lemma sublist_rev {A} (l k : list A) : sublist l k → sublist (rev l) (rev k).
Proof.
  induction 1 as [|x l k _ IH|x l k _ IH]; simpl; [done| |].
  - by apply sublist_app.
  - by apply sublist_inserts_r.
Qed.

Lemma sublist_full {A} (l k : list A) : sublist l k → length k ≤ length l → l = k.
Proof.
  induction 1 as [|x l k Hs IH|x l k Hs IH]; simpl; intros Hlen; [done| |].
  - f_equal. apply IH. lia.
  - apply sublist_length in Hs. lia.
Qed.

Lemma sublist_filter {A} (P : A → Prop) `{!∀ x, Decision (P x)} (l k : list A) :
  sublist l k → sublist (filter P l) (filter P k).
Proof.
  induction 1 as [|x l k _ IH|x l k _ IH]; [done| |]; rewrite ?filter_cons; case_decide;
    try done; by constructor.
Qed.

Lemma sublist_Forall {A} (P : A → Prop) (l k : list A) : sublist l k → Forall P k → Forall P l.
Proof.
  induction 1 as [|x l k _ IH|x l k _ IH]; intros Hk; [done| |]; apply Forall_cons in Hk as [? ?].
  - constructor; [done|by apply IH].
  - by apply IH.
Qed.

Lemma filter_all {A} (P : A → Prop) `{!∀ x, Decision (P x)} (l : list A) :
  (∀ x, x ∈ l → P x) → filter P l = l.
Proof.
  induction l as [|x l IH]; intros Hall; [done|]. rewrite filter_cons_True by (apply Hall; by left).
  f_equal. apply IH. intros y Hy. apply Hall. by right.
Qed.

Lemma StronglySorted_sublist {A} (R : relation A) (l k : list A) :
  sublist l k → StronglySorted R k → StronglySorted R l.
Proof.
  induction 1 as [|x l k Hs IH|x l k Hs IH]; intros Hk; [done| |]; inversion Hk; subst.
  - constructor; [by apply IH|]. by eapply sublist_Forall.
  - by apply IH.
Qed.

(** ** Updates by index *)

Lemma alter_Some {A} (f : A → A) (l : list A) i x : l !! i = Some x → alter f i l = <[i := f x]> l.
Proof. intros Hi. rewrite list_insert_alter. apply list_alter_ext; [|done]. intros y Hy. congruence. Qed.

Lemma alter_None {A} (f : A → A) (l : list A) i : l !! i = None → alter f i l = l.
Proof. revert i. induction l as [|x l IH]; intros [|i]; cbn; try done. intros Hi. f_equal. by apply IH. Qed.

(** ** Maps

    A [Map<string, _>] is a finite map; the order of its entries is left out,
    so a loop over the entries is a fold over [map_to_list]. *)

(** The comparison every [equals] of a map makes: same size, and every entry
    has a partner. *)
Definition map_equals {A B} (f : A → B → bool) (m1 : gmap string A) (m2 : gmap string B) : bool :=
  (size m1 =? size m2)%nat &&
  forallb (λ e, match m2 !! e.1 with Some y => f e.2 y | None => false end) (map_to_list m1).

Lemma map_equals_spec {A B} (f : A → B → bool) (m1 : gmap string A) (m2 : gmap string B) :
  map_equals f m1 m2 = true ↔ ∀ i, option_Forall2 (λ x y, f x y = true) (m1 !! i) (m2 !! i).
Proof.
  unfold map_equals. rewrite andb_true_iff, Nat.eqb_eq, forallb_forall. split.
  - intros [Hsize Hall] i.
    assert (∀ k x, m1 !! k = Some x → ∃ y, m2 !! k = Some y ∧ f x y = true) as Hin.
    { intros k x Hk. specialize (Hall (k, x)). cbn in Hall.
      specialize (Hall ltac:(by apply list_elem_of_In, elem_of_map_to_list)).
      destruct (m2 !! k) as [y|]; [by exists y|done]. }
    assert (dom m1 = dom m2) as Hdom.
    { apply set_subseteq_size_eq; [|by rewrite !size_dom, Hsize].
      intros k [x Hk]%elem_of_dom. apply elem_of_dom.
      destruct (Hin k x Hk) as (y & -> & _). by eexists. }
    destruct (m1 !! i) as [x|] eqn:E1.
    + destruct (Hin i x E1) as (y & -> & ?). by constructor.
    + apply not_elem_of_dom in E1. rewrite Hdom in E1. apply not_elem_of_dom in E1.
      rewrite E1. constructor.
  - intros Hall. split.
    + rewrite <-!size_dom. f_equal. apply set_eq. intros i. rewrite !elem_of_dom.
      specialize (Hall i). split; intros [x Hx]; rewrite Hx in Hall; inversion Hall; by eexists.
    + intros [k x] Hin%list_elem_of_In%elem_of_map_to_list. cbn.
      specialize (Hall k). rewrite Hin in Hall. inversion Hall; by subst.
Qed.

Lemma map_equals_eq {A} (f : A → A → bool) (m1 m2 : gmap string A) :
  (∀ x y, f x y = true ↔ x = y) → map_equals f m1 m2 = true ↔ m1 = m2.
Proof.
  intros Hf. rewrite map_equals_spec. split.
  - intros Hall. apply map_eq. intros i. destruct (Hall i) as [x y Hxy|]; [|done].
    f_equal. by apply Hf.
  - intros <- i. destruct (m1 !! i); constructor. by apply Hf.
Qed.

(** A loop over [m2] that updates only the entry it stands at. *)
Lemma map_loop_lookup {A B} (h : option A → B → option A) (m : gmap string A) (m2 : gmap string B) i :
  foldl (λ next e, partial_alter (λ o, h o e.2) e.1 next) m (map_to_list m2) !! i =
    match m2 !! i with Some y => h (m !! i) y | None => m !! i end.
Proof.
  rewrite <-(list_to_map_to_list m2) at 2. pose proof (NoDup_fst_map_to_list m2) as Hnd.
  revert m Hnd. generalize (map_to_list m2) as l. intros l.
  induction l as [|[k y] l IH]; intros m Hnd; cbn; [by rewrite lookup_empty|].
  apply NoDup_cons in Hnd as [Hk Hnd]. rewrite IH by done.
  destruct (decide (k = i)) as [->|Hne].
  - rewrite lookup_insert_eq, lookup_partial_alter_eq.
    by rewrite (not_elem_of_list_to_map_1 l i Hk).
  - by rewrite lookup_insert_ne, lookup_partial_alter_ne by done.
Qed.
