(* ===== verification/RingBuffer.v ===== *)
(** * The circular FIFO queue of [src/util/RingBuffer.ts]

    [RingBuffer] is modelled slot by slot: the backing array, the [head] index,
    the live [count] and the cached [mask], with the 32-bit [&] of the source.
    The refinement says that each operation implements the list operation it
    stands for, and [Fifo] is the interface through which the mailboxes use
    it. *)

From S2P Require Import Prelude.

Local Open Scope Z_scope.

(** ** What a queue promises its clients *)

(** The operations of a double-ended FIFO, and the list they implement.  The
    laws hold while the queue stays within [fifo_max] elements. *)
Class Fifo (Q : Type → Type) := {
  fifo_empty : ∀ {A}, Q A;
  fifo_length : ∀ {A}, Q A → Z;
  fifo_push : ∀ {A}, A → Q A → Q A;
  fifo_shift : ∀ {A}, Q A → option A * Q A;
  fifo_pop : ∀ {A}, Q A → option A * Q A;
  fifo_unshiftAll : ∀ {A}, list A → Q A → Q A;
  fifo_drain : ∀ {A}, Q A → list A * Q A;
}.

Class FifoLaws (Q : Type → Type) `{!Fifo Q} := {
  fifo_view : ∀ {A}, Q A → list A;
  fifo_wf : ∀ {A}, Q A → Prop;
  fifo_max : Z;
  fifo_empty_ok : ∀ A, fifo_wf (fifo_empty : Q A) ∧ fifo_view (fifo_empty : Q A) = [];
  fifo_length_ok : ∀ A (q : Q A), fifo_wf q → fifo_length q = Z.of_nat (length (fifo_view q));
  fifo_push_ok : ∀ A (x : A) (q : Q A), fifo_wf q →
    Z.of_nat (length (fifo_view q)) + 1 ≤ fifo_max →
    fifo_wf (fifo_push x q) ∧ fifo_view (fifo_push x q) = fifo_view q ++ [x];
  fifo_shift_ok : ∀ A (q : Q A), fifo_wf q →
    (fifo_shift q).1 = head (fifo_view q) ∧
    fifo_wf (fifo_shift q).2 ∧ fifo_view (fifo_shift q).2 = tail (fifo_view q);
  fifo_pop_ok : ∀ A (q : Q A), fifo_wf q →
    (fifo_pop q).1 = last (fifo_view q) ∧
    fifo_wf (fifo_pop q).2 ∧
    fifo_view (fifo_pop q).2 = take (length (fifo_view q) - 1) (fifo_view q);
  fifo_unshiftAll_ok : ∀ A (l : list A) (q : Q A), fifo_wf q →
    Z.of_nat (length l) + Z.of_nat (length (fifo_view q)) ≤ fifo_max →
    fifo_wf (fifo_unshiftAll l q) ∧ fifo_view (fifo_unshiftAll l q) = l ++ fifo_view q;
  fifo_drain_ok : ∀ A (q : Q A), fifo_wf q →
    (fifo_drain q).1 = fifo_view q ∧
    fifo_wf (fifo_drain q).2 ∧ fifo_view (fifo_drain q).2 = [];
}.

(** ** The ring *)

Module RingBuffer.

Definition INITIAL_RING_CAPACITY : Z := 8.

Record RingBuffer (T : Type) := mkRing {
  slots : list (option T);
  head : Z;
  count : Z;
  mask : Z;
}.
Arguments mkRing {T}.
Arguments slots {T}.
Arguments head {T}.
Arguments count {T}.
Arguments mask {T}.

Section ops.
Context {T : Type}.
Implicit Types r : RingBuffer T.

Definition empty : RingBuffer T := mkRing [] 0 0 (-1).

Definition length_ r : Z := count r.

(** [while (capacity < minimumCapacity) capacity *= 2]; each round doubles, so
    [minimumCapacity] rounds are more than enough (see [double_until_spec]). *)
Fixpoint double_until (fuel : nat) (capacity minimum : Z) : Z :=
  match fuel with
  | O => capacity
  | S fuel => if capacity <? minimum then double_until fuel (capacity * 2) minimum else capacity
  end.

(** The copy loop of [grow] and [drain]: [slots[(head + i) & mask]] for
    [i = 0 .. count - 1]. *)
Definition unrolled r : list (option T) :=
  (λ i, array_get (slots r) (js_and (head r + Z.of_nat i) (mask r)))
    <$> seq 0 (Z.to_nat (count r)).

Definition grow (minimumCapacity : Z) r : RingBuffer T :=
  let start := if Z.of_nat (length (slots r)) =? 0
               then INITIAL_RING_CAPACITY else Z.of_nat (length (slots r)) * 2 in
  let capacity := double_until (Z.to_nat minimumCapacity) start minimumCapacity in
  let grown := unrolled r ++ replicate (Z.to_nat (capacity - count r)) None in
  mkRing grown 0 (count r) (capacity - 1).

Definition push (item : T) r : RingBuffer T :=
  let r := if count r =? Z.of_nat (length (slots r)) then grow (count r + 1) r else r in
  mkRing (array_set (slots r) (js_and (head r + count r) (mask r)) (Some item))
         (head r) (count r + 1) (mask r).

Definition shift r : option T * RingBuffer T :=
  if count r =? 0 then (None, r)
  else (array_get (slots r) (head r),
        mkRing (array_set (slots r) (head r) None)
               (js_and (head r + 1) (mask r)) (count r - 1) (mask r)).

Definition pop r : option T * RingBuffer T :=
  if count r =? 0 then (None, r)
  else let index := js_and (head r + count r - 1) (mask r) in
       (array_get (slots r) index,
        mkRing (array_set (slots r) index None) (head r) (count r - 1) (mask r)).

(** The write loop of [unshiftAll]. *)
Fixpoint write_from (h m : Z) (i : Z) (items : list T) (a : list (option T)) : list (option T) :=
  match items with
  | [] => a
  | x :: items => write_from h m (i + 1) items (array_set a (js_and (h + i) m) (Some x))
  end.

Definition unshiftAll (items : list T) r : RingBuffer T :=
  match items with
  | [] => r
  | _ =>
      let n := Z.of_nat (length items) in
      let r := if count r + n >? Z.of_nat (length (slots r)) then grow (count r + n) r else r in
      let h := js_and (head r - n) (mask r) in
      mkRing (write_from h (mask r) 0 items (slots r)) h (count r + n) (mask r)
  end.

(** The [as T] cast of the source drops no element: [drain_ok] shows that every
    slot read is defined. *)
Definition drain r : list T * RingBuffer T := (omap id (unrolled r), empty).

(** ** Representation *)

(** [rep r l]: the ring [r] holds the queue [l].  Either nothing was ever
    allocated, or the array has [2^k] slots, and slot [(head + j) mod 2^k]
    holds the [j]-th element, [undefined] beyond the last one. *)
Definition rep r (l : list T) : Prop :=
  (r = empty ∧ l = []) ∨
  (∃ k, 0 ≤ k ≤ 31 ∧ Z.of_nat (length (slots r)) = 2 ^ k ∧ mask r = 2 ^ k - 1 ∧
     0 ≤ head r < 2 ^ k ∧ count r = Z.of_nat (length l) ∧ count r ≤ 2 ^ k ∧
     ∀ j, 0 ≤ j < 2 ^ k →
       slots r !! Z.to_nat ((head r + j) mod 2 ^ k) = Some (l !! Z.to_nat j)).

Lemma rep_empty : rep empty [].
Proof. by left. Qed.

Lemma rep_count r l : rep r l → count r = Z.of_nat (length l).
Proof. intros [[-> ->]|(k & ? & ? & ? & ? & ? & ? & ?)]; done. Qed.

Lemma rep_unrolled r l : rep r l → unrolled r = Some <$> l.
Proof.
  intros [[-> ->]|(k & Hk & Hlen & Hmask & Hh & Hc & Hle & Hslot)]; [done|].
  unfold unrolled. rewrite Hc, Nat2Z.id, Hmask.
  apply list_eq. intros i. rewrite !list_lookup_fmap.
  destruct (decide (i < length l)%nat) as [Hi|Hi].
  - rewrite (lookup_seq_lt 0 (length l) i) by done. simpl.
    destruct (lookup_lt_is_Some_2 l i Hi) as [x Hx]. rewrite Hx. simpl. f_equal.
    rewrite js_and_mask by lia. apply array_get_in.
    + apply Z.mod_pos_bound. lia.
    + rewrite Hslot by lia. by rewrite Nat2Z.id, Hx.
  - rewrite lookup_seq_ge, (lookup_ge_None_2 l i) by lia. done.
Qed.

Lemma double_until_spec fuel a m :
  0 ≤ a ≤ 31 → m ≤ 2 ^ 31 → m ≤ 2 ^ a + Z.of_nat fuel →
  ∃ b, a ≤ b ≤ 31 ∧ double_until fuel (2 ^ a) m = 2 ^ b ∧ m ≤ 2 ^ b.
Proof.
  revert a. induction fuel as [|fuel IH]; intros a Ha Hm Hf; simpl.
  - exists a. split_and!; [lia|lia|done|lia].
  - destruct (Z.ltb_spec (2 ^ a) m) as [Hlt|Hge].
    + assert (a < 31).
      { destruct (decide (a = 31)) as [->|]; lia. }
      rewrite Z.mul_comm, <-Z.pow_succ_r by lia.
      destruct (IH (Z.succ a)) as (b & ? & ? & ?); [lia|lia| |].
      { rewrite Z.pow_succ_r by lia. assert (0 < 2 ^ a) by (apply Z.pow_pos_nonneg; lia). lia. }
      exists b. split_and!; [lia|lia|done|lia].
    + exists a. split_and!; [lia|lia|done|lia].
Qed.

(** The array [grow] lays out, element by element. *)
Lemma front_aligned_lookup (l : list T) (n : Z) j :
  Z.of_nat (length l) ≤ n → 0 ≤ j < n →
  ((Some <$> l) ++ replicate (Z.to_nat (n - Z.of_nat (length l))) None) !! Z.to_nat j
    = Some (l !! Z.to_nat j).
Proof.
  intros Hn Hj. rewrite lookup_app, list_lookup_fmap.
  destruct (l !! Z.to_nat j) as [x|] eqn:Hx; simpl; [done|].
  apply lookup_ge_None in Hx. rewrite length_fmap.
  by rewrite lookup_replicate_2 by lia.
Qed.

(** [grow] keeps the queue and makes room for [minimum] elements. *)
Lemma grow_rep r l m :
  rep r l → Z.of_nat (length (slots r)) < m → m ≤ 2 ^ 31 → count r ≤ m →
  rep (grow m r) l ∧ m ≤ Z.of_nat (length (slots (grow m r))).
Proof.
  intros Hrep Hlt Hm Hcm.
  assert (∃ b, 0 ≤ b ≤ 31 ∧ m ≤ 2 ^ b ∧
    grow m r = mkRing ((Some <$> l) ++ replicate (Z.to_nat (2 ^ b - count r)) None)
                      0 (count r) (2 ^ b - 1)) as (b & Hb & Hmb & ->).
  { unfold grow. rewrite (rep_unrolled r l Hrep).
    destruct Hrep as [[-> ->]|(k & Hk & Hlen & _)].
    - destruct (double_until_spec (Z.to_nat m) 3 m) as (b & ? & E & ?); [lia|lia|lia|].
      exists b. split_and!; [lia|lia|done|]. by rewrite <-E.
    - destruct (Z.eqb_spec (Z.of_nat (length (slots r))) 0); [lia|].
      rewrite Hlen, Z.mul_comm, <-Z.pow_succ_r by lia.
      assert (k < 31). { destruct (decide (k = 31)) as [->|]; lia. }
      destruct (double_until_spec (Z.to_nat m) (Z.succ k) m) as (b & ? & E & ?);
        [lia|lia| |].
      { assert (0 < 2 ^ Z.succ k) by (apply Z.pow_pos_nonneg; lia). lia. }
      exists b. rewrite E. split_and!; [lia|lia|done|done]. }
  rewrite (rep_count r l Hrep) in *. simpl. split.
  - right. exists b. simpl. split_and!; try lia.
    + rewrite length_app, length_fmap, length_replicate. lia.
    + intros j Hj. rewrite Z.add_0_l, Z.mod_small by lia.
      apply front_aligned_lookup; lia.
  - rewrite length_app, length_fmap, length_replicate. lia.
Qed.

(** Writing slot [(h + i) mod 2^k] touches no other logical position. *)
Lemma slot_update (a : list (option T)) h i j n v :
  0 < n → Z.of_nat (length a) = n → 0 ≤ i < n → 0 ≤ j < n →
  array_set a ((h + i) mod n) v !! Z.to_nat ((h + j) mod n)
    = if decide (i = j) then Some v else a !! Z.to_nat ((h + j) mod n).
Proof.
  intros Hn Hlen Hi Hj.
  pose proof (mod_index_range h i n Hn). pose proof (mod_index_range h j n Hn).
  rewrite array_set_in by lia. case_decide as Hij.
  - subst j. apply list_lookup_insert_eq. lia.
  - apply list_lookup_insert_ne. intros Heq. apply Hij, (mod_shift_inj h i j n); lia.
Qed.

Lemma array_set_length (a : list (option T)) i v :
  0 ≤ i < Z.of_nat (length a) → length (array_set a i v) = length a.
Proof. intros ?. rewrite array_set_in by done. apply length_insert. Qed.

(** [push] appends. *)
Lemma push_rep x r l :
  rep r l → Z.of_nat (length l) + 1 ≤ 2 ^ 31 → rep (push x r) (l ++ [x]).
Proof.
  intros Hrep Hmax. unfold push.
  set (r' := if count r =? _ then _ else _).
  assert (rep r' l ∧ count r' < Z.of_nat (length (slots r'))) as [Hrep' Hroom].
  { subst r'. pose proof (rep_count r l Hrep) as Hc.
    destruct (Z.eqb_spec (count r) (Z.of_nat (length (slots r)))) as [He|Hne].
    - destruct (grow_rep r l (count r + 1)) as [Hg Hcap]; [done|lia|lia|lia|].
      split; [done|]. rewrite (rep_count _ _ Hg). lia.
    - split; [done|]. destruct Hrep as [[-> ->]|(k & ? & ? & ? & ? & ? & ? & ?)]; [done|lia]. }
  clearbody r'. clear r Hrep.
  destruct Hrep' as [[-> ->]|(k & Hk & Hlen & Hmask & Hh & Hc & Hle & Hslot)]; [done|].
  right. exists k. simpl.
  pose proof (mod_index_range (head r') (count r') (2 ^ k)).
  rewrite Hmask, js_and_mask by lia. split_and!; try lia.
  - rewrite array_set_length by lia. done.
  - rewrite length_app. simpl. lia.
  - intros j Hj. rewrite slot_update by lia. case_decide as Hij.
    + subst j. rewrite lookup_app_r, Hc, Nat2Z.id, Nat.sub_diag by lia. done.
    + rewrite Hslot by done. f_equal.
      destruct (decide (j < count r')) as [?|?].
      * by rewrite lookup_app_l by lia.
      * rewrite !lookup_ge_None_2; [done|rewrite length_app; simpl; lia|lia].
Qed.

(** [shift] removes the front. *)
Lemma shift_rep r l :
  rep r l → (shift r).1 = hd_error l ∧ rep (shift r).2 (tail l).
Proof.
  intros Hrep. pose proof (rep_count r l Hrep) as Hc. unfold shift.
  destruct (Z.eqb_spec (count r) 0) as [Hz|Hnz].
  { assert (l = []) as -> by (destruct l; simpl in *; [done|lia]). done. }
  destruct Hrep as [[-> ->]|(k & Hk & Hlen & Hmask & Hh & _ & Hle & Hslot)]; [done|].
  destruct l as [|x l]; [simpl in *; lia|]. simpl in *.
  assert (slots r !! Z.to_nat (head r) = Some (Some x)) as Hx.
  { specialize (Hslot 0). rewrite Z.add_0_r, Z.mod_small in Hslot by lia.
    rewrite Hslot by lia. done. }
  split; [by apply array_get_in; [lia|]|].
  right. exists k. simpl. rewrite Hmask, js_and_mask by lia.
  pose proof (mod_index_range (head r) 1 (2 ^ k)).
  split_and!; try lia.
  - rewrite array_set_length by lia. done.
  - intros j Hj. rewrite Zplus_mod_idemp_l.
    replace (array_set (slots r) (head r) None)
      with (array_set (slots r) ((head r + 0) mod 2 ^ k) None)
      by (rewrite Z.add_0_r, Z.mod_small by lia; done).
    destruct (decide (j = 2 ^ k - 1)) as [->|Hj'].
    + replace (head r + 1 + (2 ^ k - 1)) with (head r + 0 + 1 * 2 ^ k) by lia.
      rewrite Z.mod_add, slot_update, decide_True by lia || done.
      rewrite lookup_ge_None_2 by lia. done.
    + replace (head r + 1 + j) with (head r + (j + 1)) by lia.
      rewrite slot_update, decide_False by lia. rewrite Hslot by lia.
      by replace (Z.to_nat (j + 1)) with (S (Z.to_nat j)) by lia.
Qed.

(** [pop] removes the back. *)
Lemma pop_rep r l :
  rep r l → (pop r).1 = last l ∧ rep (pop r).2 (take (length l - 1) l).
Proof.
  intros Hrep. pose proof (rep_count r l Hrep) as Hc. unfold pop.
  destruct (Z.eqb_spec (count r) 0) as [Hz|Hnz].
  { assert (l = []) as -> by (destruct l; simpl in *; [done|lia]). done. }
  destruct Hrep as [[-> ->]|(k & Hk & Hlen & Hmask & Hh & _ & Hle & Hslot)]; [done|].
  simpl. replace (head r + count r - 1) with (head r + (count r - 1)) by lia.
  rewrite Hmask, js_and_mask by lia.
  pose proof (mod_index_range (head r) (count r - 1) (2 ^ k)).
  split.
  - rewrite last_lookup. apply array_get_in; [lia|]. rewrite Hslot by lia.
    do 2 f_equal. lia.
  - right. exists k. simpl. split_and!; try lia.
    + rewrite array_set_length by lia. done.
    + rewrite length_take. lia.
    + intros j Hj. rewrite slot_update by lia. case_decide as Hij.
      * subst j. rewrite lookup_take_ge by lia. done.
      * rewrite Hslot by done. f_equal. destruct (decide (j < count r)).
        -- rewrite lookup_take_lt by lia. done.
        -- rewrite lookup_take_ge, lookup_ge_None_2 by lia. done.
Qed.

Lemma write_from_length k h i items (a : list (option T)) :
  0 ≤ k ≤ 31 → Z.of_nat (length a) = 2 ^ k →
  length (write_from h (2 ^ k - 1) i items a) = length a.
Proof.
  intros Hk. revert i a. induction items as [|x items IH]; intros i a Ha; simpl; [done|].
  pose proof (mod_index_range h i (2 ^ k)).
  rewrite IH; rewrite js_and_mask by lia; rewrite array_set_length by lia; done.
Qed.

Lemma write_from_lookup k h i items (a : list (option T)) j :
  0 ≤ k ≤ 31 → Z.of_nat (length a) = 2 ^ k →
  0 ≤ i → i + Z.of_nat (length items) ≤ 2 ^ k → 0 ≤ j < 2 ^ k →
  write_from h (2 ^ k - 1) i items a !! Z.to_nat ((h + j) mod 2 ^ k)
    = if decide (i ≤ j < i + Z.of_nat (length items))
      then Some (items !! Z.to_nat (j - i)) else a !! Z.to_nat ((h + j) mod 2 ^ k).
Proof.
  intros Hk. revert i a. induction items as [|x items IH]; intros i a Ha Hi Hlen Hj; simpl in *.
  { case_decide; [lia|done]. }
  pose proof (mod_index_range h i (2 ^ k)).
  rewrite js_and_mask by lia. rewrite IH; [|rewrite array_set_length by lia; lia|lia|lia|lia].
  destruct (decide (j = i)) as [->|Hne].
  - rewrite decide_False by lia. rewrite slot_update, !decide_True by lia.
    by rewrite Z.sub_diag.
  - destruct (decide (i + 1 ≤ j < i + 1 + Z.of_nat (length items))).
    + rewrite decide_True by lia.
      by replace (Z.to_nat (j - i)) with (S (Z.to_nat (j - (i + 1)))) by lia.
    + rewrite slot_update, !decide_False by lia. done.
Qed.

(** [unshiftAll] prepends, keeping the order of the items. *)
Lemma unshiftAll_rep items r l :
  rep r l → Z.of_nat (length items) + Z.of_nat (length l) ≤ 2 ^ 31 →
  rep (unshiftAll items r) (items ++ l).
Proof.
  intros Hrep Hmax. unfold unshiftAll. destruct items as [|x items']; [done|].
  set (items := x :: items') in *. set (n := Z.of_nat (length items)).
  assert (0 < n) by (subst n items; simpl; lia).
  set (r' := if count r + n >? _ then _ else _).
  assert (rep r' l ∧ count r' + n ≤ Z.of_nat (length (slots r'))) as [Hrep' Hroom].
  { subst r'. pose proof (rep_count r l Hrep) as Hc. rewrite Z.gtb_ltb.
    destruct (Z.ltb_spec (Z.of_nat (length (slots r))) (count r + n)); [|split; [done|lia]].
    destruct (grow_rep r l (count r + n)) as [Hg Hcap]; [done|lia|lia|lia|].
    split; [done|]. rewrite (rep_count _ _ Hg). lia. }
  clearbody r'. clear r Hrep. clearbody items.
  destruct Hrep' as [[-> ->]|(k & Hk & Hlen & Hmask & Hh & Hc & Hle & Hslot)].
  { simpl in Hroom. lia. }
  right. exists k. simpl. rewrite Hmask, js_and_mask by lia.
  pose proof (mod_index_range (head r') (- n) (2 ^ k)) as Hr.
  rewrite Z.add_opp_r in Hr. split_and!; try lia.
  - rewrite write_from_length by lia. done.
  - rewrite length_app. lia.
  - intros j Hj. rewrite write_from_lookup by lia.
    rewrite Z.sub_0_r, Z.add_0_l. fold n. case_decide as Hin.
    + rewrite lookup_app_l by lia. done.
    + rewrite Zplus_mod_idemp_l.
      replace (head r' - n + j) with (head r' + (j - n)) by lia.
      rewrite Hslot by lia. rewrite lookup_app_r by lia. do 2 f_equal. lia.
Qed.

Lemma omap_id_Some (l : list T) : omap id (Some <$> l) = l.
Proof. induction l as [|x l IH]; [done|]. simpl. by f_equal. Qed.

(** [drain] returns the queue in order. *)
Lemma drain_rep r l : rep r l → (drain r).1 = l ∧ rep (drain r).2 [].
Proof.
  intros Hrep. unfold drain. simpl. rewrite (rep_unrolled r l Hrep), omap_id_Some.
  split; [done|apply rep_empty].
Qed.

(** ** The ring as a [Fifo] *)

Definition view r : list T := (drain r).1.
Definition wf r : Prop := rep r (view r).

Lemma rep_wf r l : rep r l → wf r ∧ view r = l.
Proof.
  intros Hrep. pose proof (proj1 (drain_rep r l Hrep)) as E. unfold wf, view. by rewrite E.
Qed.

End ops.

(** C40. The ring buffer refines a list: each operation returns what the list
    operation returns and the ring it leaves represents the resulting list,
    through wrap-around and growth, while the queue holds at most [2^31]
    elements. *)
Theorem ringbuffer_refines_list (T : Type) (x : T) (items : list T) (r : RingBuffer T) (l : list T) :
  rep r l → Z.of_nat (length items) + Z.of_nat (length l) + 1 ≤ 2 ^ 31 →
  rep empty ([] : list T) ∧
  length_ r = Z.of_nat (length l) ∧
  rep (push x r) (l ++ [x]) ∧
  ((shift r).1 = hd_error l ∧ rep (shift r).2 (tail l)) ∧
  ((pop r).1 = last l ∧ rep (pop r).2 (take (length l - 1) l)) ∧
  rep (unshiftAll items r) (items ++ l) ∧
  ((drain r).1 = l ∧ rep (drain r).2 ([] : list T)).
Proof.
  intros Hrep Hmax. split_and!; [apply rep_empty|by apply rep_count|..].
  - apply push_rep; [done|lia].
  - apply (shift_rep r l Hrep).
  - apply (shift_rep r l Hrep).
  - apply (pop_rep r l Hrep).
  - apply (pop_rep r l Hrep).
  - apply unshiftAll_rep; [done|lia].
  - apply (drain_rep r l Hrep).
  - apply (drain_rep r l Hrep).
Qed.

(** A ring that has wrapped: three pushes after two shifts force a growth with
    the front away from slot 0. *)
Definition wrapped_example : RingBuffer nat :=
  fold_right push (shift (shift (fold_right push empty (rev (seq 0 8)))).2).2 (rev (seq 8 3)).

Lemma ringbuffer_refines_list_witness :
  view wrapped_example = seq 2 9 ∧
  rep (push 99%nat wrapped_example) (seq 2 9 ++ [99%nat]).
Proof.
  split; [reflexivity|].
  refine (proj1 (proj2 (proj2 (ringbuffer_refines_list nat 99%nat [7%nat] wrapped_example (seq 2 9) _ _)))).
  - right. exists 4. split_and!; try (vm_compute; congruence).
    intros j Hj. change (2 ^ 4) with 16 in *.
    assert (∃ i : nat, (i < 16)%nat ∧ j = Z.of_nat i) as (i & Hi & ->).
    { exists (Z.to_nat j). lia. }
    do 16 (destruct i as [|i]; [reflexivity|]). lia.
  - vm_compute. congruence.
Defined.

End RingBuffer.

#[export] Instance RingBuffer_fifo : Fifo RingBuffer.RingBuffer := {|
  fifo_empty A := RingBuffer.empty;
  fifo_length A := RingBuffer.length_;
  fifo_push A := RingBuffer.push;
  fifo_shift A := RingBuffer.shift;
  fifo_pop A := RingBuffer.pop;
  fifo_unshiftAll A := RingBuffer.unshiftAll;
  fifo_drain A := RingBuffer.drain;
|}.

(** The implementation discharges the interface. *)
#[export] Instance RingBuffer_fifo_laws : FifoLaws RingBuffer.RingBuffer.
Proof.
  refine {| fifo_view A := RingBuffer.view; fifo_wf A := RingBuffer.wf; fifo_max := 2 ^ 31 |};
    intros; simpl.
  - split; [apply RingBuffer.rep_empty|reflexivity].
  - by apply RingBuffer.rep_count.
  - apply RingBuffer.rep_wf, RingBuffer.push_rep; done.
  - destruct (RingBuffer.shift_rep q (RingBuffer.view q)) as [? Hr]; [done|].
    split; [done|]. by apply RingBuffer.rep_wf.
  - destruct (RingBuffer.pop_rep q (RingBuffer.view q)) as [? Hr]; [done|].
    split; [done|]. by apply RingBuffer.rep_wf.
  - apply RingBuffer.rep_wf, RingBuffer.unshiftAll_rep; done.
  - split; [done|]. apply RingBuffer.rep_wf, RingBuffer.rep_empty.
Defined.

(** The list itself is the reference queue; it has no size limit of its own,
    and satisfies the laws at the ring's. *)
#[export] Instance list_fifo : Fifo list := {|
  fifo_empty A := [];
  fifo_length A l := Z.of_nat (length l);
  fifo_push A x l := l ++ [x];
  fifo_shift A l := (hd_error l, tail l);
  fifo_pop A l := (last l, take (length l - 1) l);
  fifo_unshiftAll A items l := items ++ l;
  fifo_drain A l := (l, []);
|}.

#[export] Instance list_fifo_laws : FifoLaws list.
Proof. by refine {| fifo_view A l := l; fifo_wf A l := True; fifo_max := 2 ^ 31 |}. Defined.
