(* ===== verification/Mailbox.v ===== *)
(** * The mailboxes: [src/internal/Mailbox.ts] and the FIFO bounds of [src/mailbox/]

    [Mailbox] is the two-lane queue every actor owns.  [DroppingMailbox] adds
    the accounting of discarded messages, [BoundedMailbox] a capacity with its
    three overflow policies.  All of them are written against the [Fifo]
    interface, as the sources are written against [RingBuffer]. *)

From S2P Require Import Prelude RingBuffer.

Local Open Scope Z_scope.

(** ** Envelopes *)

(** [Envelope]: the message, its sender and the two markers the queues read.
    The logging and tracing payload ([context], [trace], [enqueuedAtMs]) is
    carried along unread by every queue and is left out. *)
Record Envelope (T : Type) := mkEnvelope {
  message : T;
  sender : option string;
  replayed : bool;
  undroppable : bool;
}.
Arguments mkEnvelope {T}.
Arguments message {T}.
Arguments sender {T}.
Arguments replayed {T}.
Arguments undroppable {T}.

#[export] Instance Envelope_eq_dec {T} `{EqDecision T} : EqDecision (Envelope T).
Proof. solve_decision. Defined.

Inductive MailboxDropReason := drop_head | drop_new.
Inductive BoundedMailboxOverflow := OverflowDropHead | OverflowDropNew | OverflowReject.

(** [MailboxFullError(capacity)]. *)
Inductive MailboxError := MailboxFullError (capacity : Z).

(** A call either returns or throws; either way it leaves a state. *)
Definition call (S : Type) : Type := S * option MailboxError.

(** ** What an eviction removes *)

(** Reference for [removeOldest]: the first droppable element, everything else
    in place. *)
Fixpoint take_first_droppable {T} (l : list (Envelope T)) : option (Envelope T) * list (Envelope T) :=
  match l with
  | [] => (None, [])
  | e :: l =>
      if undroppable e
      then ((take_first_droppable l).1, e :: (take_first_droppable l).2)
      else (Some e, l)
  end.

(** Reference for [removeNewest]. *)
Definition take_last_droppable {T} (l : list (Envelope T)) : option (Envelope T) * list (Envelope T) :=
  ((take_first_droppable (rev l)).1, rev (take_first_droppable (rev l)).2).

Definition signals {T} (l : list (Envelope T)) : list (Envelope T) :=
  filter (λ e, undroppable e = true) l.
Definition droppables {T} (l : list (Envelope T)) : list (Envelope T) :=
  filter (λ e, undroppable e = false) l.

(** ** The base mailbox *)

Module Mailbox.

Record Mailbox (Q : Type → Type) (T : Type) := mkMailbox {
  userQueue : Q (Envelope T);
  systemQueue : Q (Envelope T);
  suspended : bool;
}.
Arguments mkMailbox {Q T}.
Arguments userQueue {Q T}.
Arguments systemQueue {Q T}.
Arguments suspended {Q T}.

Section ops.
Context {Q : Type → Type} `{!Fifo Q} {T : Type}.
Implicit Types m : Mailbox Q T.

Definition empty : Mailbox Q T := mkMailbox fifo_empty fifo_empty false.

Definition with_user m q := mkMailbox q (systemQueue m) (suspended m).
Definition with_system m q := mkMailbox (userQueue m) q (suspended m).

Definition enqueue (env : Envelope T) m : Mailbox Q T :=
  with_user m (fifo_push env (userQueue m)).

Definition enqueueSignal (env : Envelope T) m : Mailbox Q T := enqueue env m.

Definition prependUser (envs : list (Envelope T)) m : Mailbox Q T :=
  with_user m (fifo_unshiftAll envs (userQueue m)).

Definition enqueueSystem (env : Envelope T) m : Mailbox Q T :=
  with_system m (fifo_push env (systemQueue m)).

Definition dequeueUser m : option (Envelope T) * Mailbox Q T :=
  if suspended m then (None, m)
  else ((fifo_shift (userQueue m)).1, with_user m (fifo_shift (userQueue m)).2).

(** The [for (;;)] loop of [removeOldest]: [held] is what was stepped over.
    Each round removes one element, so [length + 1] rounds reach the
    [undefined] that ends it. *)
Fixpoint oldest_loop (fuel : nat) (held : list (Envelope T)) (q : Q (Envelope T))
    : option (Envelope T) * Q (Envelope T) :=
  match fuel with
  | O => (None, fifo_unshiftAll held q)
  | S fuel =>
      match fifo_shift q with
      | (None, q) => (None, fifo_unshiftAll held q)
      | (Some candidate, q) =>
          if undroppable candidate then oldest_loop fuel (held ++ [candidate]) q
          else (Some candidate, fifo_unshiftAll held q)
      end
  end.

Definition removeOldest m : option (Envelope T) * Mailbox Q T :=
  let '(c, q) := oldest_loop (S (Z.to_nat (fifo_length (userQueue m)))) [] (userQueue m) in
  (c, with_user m q).

(** [for (let i = held.length - 1; i >= 0; i--) userQueue.push(held[i])]. *)
Definition push_back_reversed (held : list (Envelope T)) (q : Q (Envelope T)) : Q (Envelope T) :=
  fold_right fifo_push q held.

Fixpoint newest_loop (fuel : nat) (held : list (Envelope T)) (q : Q (Envelope T))
    : option (Envelope T) * Q (Envelope T) :=
  match fuel with
  | O => (None, push_back_reversed held q)
  | S fuel =>
      match fifo_pop q with
      | (None, q) => (None, push_back_reversed held q)
      | (Some candidate, q) =>
          if undroppable candidate then newest_loop fuel (held ++ [candidate]) q
          else (Some candidate, push_back_reversed held q)
      end
  end.

Definition removeNewest m : option (Envelope T) * Mailbox Q T :=
  let '(c, q) := newest_loop (S (Z.to_nat (fifo_length (userQueue m)))) [] (userQueue m) in
  (c, with_user m q).

Definition dequeueSystem m : option (Envelope T) * Mailbox Q T :=
  ((fifo_shift (systemQueue m)).1, with_system m (fifo_shift (systemQueue m)).2).

Definition hasSystemMessages m : bool := fifo_length (systemQueue m) >? 0.
Definition hasUserMessages m : bool := fifo_length (userQueue m) >? 0.
Definition hasMessages m : bool :=
  hasSystemMessages m || (negb (suspended m) && hasUserMessages m).

Definition size m : Z := fifo_length (userQueue m).

Definition suspend m : Mailbox Q T := mkMailbox (userQueue m) (systemQueue m) true.
Definition resume m : Mailbox Q T := mkMailbox (userQueue m) (systemQueue m) false.

Definition drainUser m : list (Envelope T) * Mailbox Q T :=
  ((fifo_drain (userQueue m)).1, with_user m (fifo_drain (userQueue m)).2).
Definition drainSystem m : list (Envelope T) * Mailbox Q T :=
  ((fifo_drain (systemQueue m)).1, with_system m (fifo_drain (systemQueue m)).2).

End ops.

Section laws.
Context {Q : Type → Type} `{!Fifo Q, !FifoLaws Q} {T : Type}.
Implicit Types m : Mailbox Q T.

(** The queued user messages in delivery order, and the state invariant. *)
Definition users m : list (Envelope T) := fifo_view (userQueue m).
Definition systems m : list (Envelope T) := fifo_view (systemQueue m).
Definition wf m : Prop := fifo_wf (userQueue m) ∧ fifo_wf (systemQueue m).

(** Room for [n] more user messages before the queue's own limit. *)
Definition fits (n : Z) m : Prop := Z.of_nat (length (users m)) + n ≤ fifo_max.

Lemma empty_wf : wf empty ∧ users empty = [] ∧ systems empty = [].
Proof. unfold wf, users, systems. simpl. split_and!; apply fifo_empty_ok. Qed.

Lemma size_users m : wf m → size m = Z.of_nat (length (users m)).
Proof. intros [? _]. by apply fifo_length_ok. Qed.

Lemma enqueue_users env m :
  wf m → fits 1 m → wf (enqueue env m) ∧ users (enqueue env m) = users m ++ [env].
Proof.
  intros [Hu Hs] Hfit. destruct (fifo_push_ok _ env (userQueue m) Hu Hfit) as [? ?].
  split; [by split|done].
Qed.

Lemma prepend_users envs m :
  wf m → fits (Z.of_nat (length envs)) m →
  wf (prependUser envs m) ∧ users (prependUser envs m) = envs ++ users m.
Proof.
  intros [Hu Hs] Hfit. unfold fits, users in Hfit.
  destruct (fifo_unshiftAll_ok _ envs (userQueue m) Hu) as [? ?]; [lia|].
  split; [by split|done].
Qed.

Lemma oldest_loop_spec fuel held (q : Q (Envelope T)) :
  fifo_wf q → Z.of_nat (length held) + Z.of_nat (length (fifo_view q)) ≤ fifo_max →
  (length (fifo_view q) < fuel)%nat →
  (oldest_loop fuel held q).1 = (take_first_droppable (fifo_view q)).1 ∧
  fifo_wf (oldest_loop fuel held q).2 ∧
  fifo_view (oldest_loop fuel held q).2 = held ++ (take_first_droppable (fifo_view q)).2.
Proof.
  revert held q. induction fuel as [|fuel IH]; intros held q Hq Hmax Hf; [lia|]. simpl.
  destruct (fifo_shift_ok _ q Hq) as (Hc & Hwf & Hv).
  destruct (fifo_shift q) as [c q'] eqn:Eq. simpl in *.
  destruct (fifo_view q) as [|e l] eqn:El; simpl in *; subst c.
  - destruct (fifo_unshiftAll_ok _ held q' Hwf) as [? Hv']; [rewrite Hv; simpl; lia|].
    simpl. by rewrite Hv', Hv.
  - destruct (undroppable e) eqn:Ee.
    + destruct (IH (held ++ [e]) q') as (-> & ? & ->);
        [done|rewrite Hv, length_app; simpl; lia|rewrite Hv; lia|].
      rewrite Hv. by rewrite <-(assoc_L (++)).
    + destruct (fifo_unshiftAll_ok _ held q' Hwf) as [? Hv']; [rewrite Hv; lia|].
      simpl. by rewrite Hv', Hv.
Qed.

Lemma removeOldest_users m :
  wf m → fits 0 m →
  (removeOldest m).1 = (take_first_droppable (users m)).1 ∧
  wf (removeOldest m).2 ∧
  users (removeOldest m).2 = (take_first_droppable (users m)).2 ∧
  systems (removeOldest m).2 = systems m.
Proof.
  intros [Hu Hs] Hfit. unfold fits, users in *.
  destruct (oldest_loop_spec (S (Z.to_nat (fifo_length (userQueue m)))) [] (userQueue m))
    as (Hc & ? & ?); [done|simpl; lia|rewrite fifo_length_ok by done; lia|].
  unfold removeOldest. destruct (oldest_loop _ _ _) as [c q]. simpl in *.
  by split_and!.
Qed.

Lemma push_back_reversed_spec held (q : Q (Envelope T)) :
  fifo_wf q → Z.of_nat (length held) + Z.of_nat (length (fifo_view q)) ≤ fifo_max →
  fifo_wf (push_back_reversed held q) ∧
  fifo_view (push_back_reversed held q) = fifo_view q ++ rev held.
Proof.
  intros Hq. induction held as [|e held IH]; intros Hmax; simpl in *.
  { by rewrite app_nil_r. }
  destruct IH as [Hwf Hv]; [lia|].
  destruct (fifo_push_ok _ e _ Hwf) as [? Hv'].
  { rewrite Hv, length_app, length_rev. lia. }
  split; [done|]. by rewrite Hv', Hv, <-(assoc_L (++)).
Qed.

Lemma newest_loop_spec fuel held (q : Q (Envelope T)) :
  fifo_wf q → Z.of_nat (length held) + Z.of_nat (length (fifo_view q)) ≤ fifo_max →
  (length (fifo_view q) < fuel)%nat →
  (newest_loop fuel held q).1 = (take_last_droppable (fifo_view q)).1 ∧
  fifo_wf (newest_loop fuel held q).2 ∧
  fifo_view (newest_loop fuel held q).2 = (take_last_droppable (fifo_view q)).2 ++ rev held.
Proof.
  revert held q. induction fuel as [|fuel IH]; intros held q Hq Hmax Hf; [lia|]. simpl.
  destruct (fifo_pop_ok _ q Hq) as (Hc & Hwf & Hv).
  destruct (fifo_pop q) as [c q'] eqn:Eq. simpl in *.
  destruct (fifo_view q) as [|e l _] eqn:El using rev_ind.
  { simpl in *. subst c. destruct (push_back_reversed_spec held q' Hwf) as [? Hv'];
      [rewrite Hv; simpl; lia|]. simpl. by rewrite Hv', Hv. }
  rewrite last_snoc in Hc. subst c. rewrite length_app in *. simpl in *.
  rewrite Nat.add_sub, take_app_length in Hv.
  unfold take_last_droppable. rewrite rev_unit. simpl.
  destruct (undroppable e) eqn:Ee; simpl.
  - destruct (IH (held ++ [e]) q') as (-> & ? & ->);
      [done|rewrite Hv, length_app; simpl; lia|rewrite Hv; lia|].
    unfold take_last_droppable. rewrite Hv, rev_unit. simpl.
    split_and!; [done|done|]. by rewrite <-(assoc_L (++)).
  - destruct (push_back_reversed_spec held q' Hwf) as [? Hv']; [rewrite Hv; lia|].
    simpl. rewrite Hv', Hv, rev_involutive. done.
Qed.

Lemma removeNewest_users m :
  wf m → fits 0 m →
  (removeNewest m).1 = (take_last_droppable (users m)).1 ∧
  wf (removeNewest m).2 ∧
  users (removeNewest m).2 = (take_last_droppable (users m)).2 ∧
  systems (removeNewest m).2 = systems m.
Proof.
  intros [Hu Hs] Hfit. unfold fits, users in *.
  destruct (newest_loop_spec (S (Z.to_nat (fifo_length (userQueue m)))) [] (userQueue m))
    as (Hc & ? & Hv); [done|simpl; lia|rewrite fifo_length_ok by done; lia|].
  unfold removeNewest. destruct (newest_loop _ _ _) as [c q]. simpl in *.
  rewrite app_nil_r in Hv. by split_and!.
Qed.

End laws.
End Mailbox.

(** ** Facts about evictions *)

Section evictions.
Context {T : Type}.
Implicit Types l : list (Envelope T).

Lemma take_first_droppable_Some l e :
  (take_first_droppable l).1 = Some e →
  undroppable e = false ∧ l ≡ₚ e :: (take_first_droppable l).2 ∧
  sublist (take_first_droppable l).2 l.
Proof.
  induction l as [|x l IH]; simpl; [done|].
  destruct (undroppable x) eqn:Ex; simpl.
  - intros He. destruct (IH He) as (? & Hp & ?). split_and!; [done| |by apply sublist_skip].
    rewrite Hp at 1. apply Permutation_swap.
  - intros [= ->]. split_and!; [done|done|by apply sublist_cons].
Qed.

Lemma take_first_droppable_None l :
  (take_first_droppable l).1 = None → droppables l = [] ∧ (take_first_droppable l).2 = l.
Proof.
  induction l as [|x l IH]; simpl; [done|]. unfold droppables in *.
  destruct (undroppable x) eqn:Ex; simpl; [|done].
  intros Hn. destruct (IH Hn) as [? ->]. split; [|done].
  rewrite filter_cons_False; [done|congruence].
Qed.

Lemma take_last_droppable_Some l e :
  (take_last_droppable l).1 = Some e →
  undroppable e = false ∧ l ≡ₚ e :: (take_last_droppable l).2 ∧
  sublist (take_last_droppable l).2 l.
Proof.
  unfold take_last_droppable. simpl. intros He.
  destruct (take_first_droppable_Some (rev l) e He) as (? & Hp & Hs).
  split_and!; [done| |].
  - etrans; [apply Permutation_rev|]. etrans; [exact Hp|]. apply perm_skip, Permutation_rev.
  - rewrite <-(rev_involutive l) at 2. by apply sublist_rev.
Qed.

Lemma take_last_droppable_None l :
  (take_last_droppable l).1 = None → droppables l = [] ∧ (take_last_droppable l).2 = l.
Proof.
  unfold take_last_droppable. simpl. intros Hn.
  destruct (take_first_droppable_None (rev l) Hn) as [Hd ->]. rewrite rev_involutive.
  split; [|done]. unfold droppables in *. apply Permutation_nil.
  rewrite <-Hd. by rewrite <-Permutation_rev.
Qed.

Lemma droppables_signals_length l :
  length l = (length (droppables l) + length (signals l))%nat.
Proof.
  unfold droppables, signals. induction l as [|e l IH]; [done|].
  rewrite !filter_cons. destruct (undroppable e); simpl; lia.
Qed.

Lemma droppables_le l : (length (droppables l) ≤ length l)%nat.
Proof. rewrite (droppables_signals_length l). lia. Qed.

(** Losing only droppable messages leaves the signals untouched, in order. *)
Lemma signals_kept kept l lost :
  sublist kept l → l ≡ₚ kept ++ lost → Forall (λ e, undroppable e = false) lost →
  signals kept = signals l.
Proof.
  intros Hsub Hp Hlost. unfold signals.
  apply sublist_full; [by apply sublist_filter|].
  rewrite Hp, filter_app, length_app. clear Hp Hsub.
  assert (filter (λ e, undroppable e = true) lost = []) as ->.
  { induction Hlost as [|e lost He _ IH]; [done|]. rewrite filter_cons_False; [done|congruence]. }
  simpl. lia.
Qed.

End evictions.

(** ** [DroppingMailbox]: the accounting *)

Module DroppingMailbox.

(** [drops] is the history of [reportDrop] calls; [notified] what each
    registered observer was called with. *)
Record DroppingMailbox (Q : Type → Type) (T : Type) := mkDropping {
  base : Mailbox.Mailbox Q T;
  dropObservers : list nat;
  droppedCount : Z;
  drops : list (MailboxDropReason * Envelope T);
  notified : list (nat * MailboxDropReason * Envelope T);
  deadLetterDrops : bool;
}.
Arguments mkDropping {Q T}.
Arguments base {Q T}.
Arguments dropObservers {Q T}.
Arguments droppedCount {Q T}.
Arguments drops {Q T}.
Arguments notified {Q T}.
Arguments deadLetterDrops {Q T}.

Section ops.
Context {Q : Type → Type} `{!Fifo Q} {T : Type}.
Implicit Types d : DroppingMailbox Q T.

Definition empty (deadLetters : option bool) : DroppingMailbox Q T :=
  mkDropping Mailbox.empty [] 0 [] [] (default false deadLetters).

Definition with_base d b : DroppingMailbox Q T :=
  mkDropping b (dropObservers d) (droppedCount d) (drops d) (notified d) (deadLetterDrops d).

Definition observeDrops (observer : nat) d : DroppingMailbox Q T :=
  mkDropping (base d) (dropObservers d ++ [observer]) (droppedCount d) (drops d) (notified d)
             (deadLetterDrops d).

Definition reportDrop (reason : MailboxDropReason) (env : Envelope T) d : DroppingMailbox Q T :=
  mkDropping (base d) (dropObservers d) (droppedCount d + 1) (drops d ++ [(reason, env)])
             (notified d ++ ((λ o, (o, reason, env)) <$> dropObservers d)) (deadLetterDrops d).

(** The accounting agrees with itself: the counter counts the reports, and an
    observer registered at construction saw every one. *)
Definition accounted d : Prop := droppedCount d = Z.of_nat (length (drops d)).

Lemma reportDrop_accounted reason env d : accounted d → accounted (reportDrop reason env d).
Proof. unfold accounted. simpl. rewrite length_app. simpl. lia. Qed.

End ops.
End DroppingMailbox.

(** ** [BoundedMailbox] *)

Module BoundedMailbox.
Import DroppingMailbox.

Record BoundedMailbox (Q : Type → Type) (T : Type) := mkBounded {
  dropping : DroppingMailbox Q T;
  capacity : Z;
  overflow : BoundedMailboxOverflow;
}.
Arguments mkBounded {Q T}.
Arguments dropping {Q T}.
Arguments capacity {Q T}.
Arguments overflow {Q T}.

Section ops.
Context {Q : Type → Type} `{!Fifo Q} {T : Type}.
Implicit Types m : BoundedMailbox Q T.

(** The constructor: [overflow] defaults to [reject], a caller's [onDrop] is
    the first observer.  Validation demands a positive integer capacity. *)
Definition construct (cap : Z) (ovf : option BoundedMailboxOverflow) (onDrop : option nat)
    (deadLetters : option bool) : BoundedMailbox Q T :=
  let d := DroppingMailbox.empty deadLetters in
  mkBounded (match onDrop with Some o => observeDrops o d | None => d end) cap
            (default OverflowReject ovf).

Definition with_dropping m d : BoundedMailbox Q T := mkBounded d (capacity m) (overflow m).
Definition base_of m : Mailbox.Mailbox Q T := base (dropping m).
Definition size m : Z := Mailbox.size (base_of m).

(** [super.enqueue(env)]. *)
Definition super_enqueue (env : Envelope T) (d : DroppingMailbox Q T) : DroppingMailbox Q T :=
  with_base d (Mailbox.enqueue env (base d)).

Definition enqueue (env : Envelope T) m : call (BoundedMailbox Q T) :=
  if size m >=? capacity m then
    match overflow m with
    | OverflowDropHead =>
        let '(dropped, b) := Mailbox.removeOldest (base_of m) in
        let d := with_base (dropping m) b in
        let d := match dropped with Some e => reportDrop drop_head e d | None => d end in
        (with_dropping m (super_enqueue env d), None)
    | OverflowDropNew => (with_dropping m (reportDrop drop_new env (dropping m)), None)
    | OverflowReject => (m, Some (MailboxFullError (capacity m)))
    end
  else (with_dropping m (super_enqueue env (dropping m)), None).

Definition enqueueSignal (env : Envelope T) m : BoundedMailbox Q T :=
  with_dropping m (super_enqueue env (dropping m)).

(** The loop of [prependUser] over the batch. *)
Fixpoint replay_loop (cap : Z) (ovf : BoundedMailboxOverflow) (envelopes admitted : list (Envelope T))
    (d : DroppingMailbox Q T) : list (Envelope T) * call (DroppingMailbox Q T) :=
  match envelopes with
  | [] => (admitted, (d, None))
  | e :: rest =>
      if undroppable e || (Mailbox.size (base d) + Z.of_nat (length admitted) <? cap)
      then replay_loop cap ovf rest (admitted ++ [e]) d
      else match ovf with
           | OverflowDropHead =>
               match Mailbox.removeNewest (base d) with
               | (None, b) => replay_loop cap ovf rest admitted (reportDrop drop_new e (with_base d b))
               | (Some evicted, b) =>
                   replay_loop cap ovf rest (admitted ++ [e])
                     (reportDrop drop_head evicted (with_base d b))
               end
           | OverflowDropNew => replay_loop cap ovf rest admitted (reportDrop drop_new e d)
           | OverflowReject => (admitted, (d, Some (MailboxFullError cap)))
           end
  end.

(** [droppable > Math.max(0, capacity - size)]: the test under [reject]. *)
Definition replay_refused (cap sz : Z) (envelopes : list (Envelope T)) : bool :=
  Z.of_nat (length (droppables envelopes)) >? Z.max 0 (cap - sz).

Definition prependUser (envelopes : list (Envelope T)) m : call (BoundedMailbox Q T) :=
  match envelopes with
  | [] => (m, None)
  | _ =>
      match overflow m with
      | OverflowReject =>
          if replay_refused (capacity m) (size m) envelopes
          then (m, Some (MailboxFullError (capacity m)))
          else (with_dropping m (with_base (dropping m) (Mailbox.prependUser envelopes (base_of m))), None)
      | ovf =>
          match replay_loop (capacity m) ovf envelopes [] (dropping m) with
          | (admitted, (d, None)) => (with_dropping m (with_base d (Mailbox.prependUser admitted (base d))), None)
          | (_, (d, Some e)) => (with_dropping m d, Some e)
          end
      end
  end.

Definition dequeueUser m : option (Envelope T) * BoundedMailbox Q T :=
  let '(e, b) := Mailbox.dequeueUser (base_of m) in (e, with_dropping m (with_base (dropping m) b)).

Definition drainUser m : list (Envelope T) * BoundedMailbox Q T :=
  let '(l, b) := Mailbox.drainUser (base_of m) in (l, with_dropping m (with_base (dropping m) b)).

End ops.

Section laws.
Context {Q : Type → Type} `{!Fifo Q, !FifoLaws Q} {T : Type}.
Implicit Types m : BoundedMailbox Q T.
Implicit Types d : DroppingMailbox Q T.

Definition users m : list (Envelope T) := Mailbox.users (base_of m).
Definition wf m : Prop := Mailbox.wf (base_of m) ∧ accounted (dropping m).

(** The bound: [capacity] counts the messages that may be shed; signals ride on
    top of it. *)
Definition load (l : list (Envelope T)) : Z := Z.of_nat (length (droppables l)).
Definition within_capacity m : Prop := load (users m) ≤ capacity m.

(** What a replay may do to the queue it meets: [envs] becomes [admitted], the
    queue [old] becomes [new], and [log] is reported; each lost message is
    droppable, reported once, and under the reason that says which side it was
    lost from. *)
Definition replay_step (envs admitted old new : list (Envelope T))
    (log : list (MailboxDropReason * Envelope T)) : Prop :=
  ∃ lost_new lost_old,
    sublist admitted envs ∧ envs ≡ₚ admitted ++ lost_new ∧
    sublist new old ∧ old ≡ₚ new ++ lost_old ∧
    Forall (λ e, undroppable e = false) (lost_new ++ lost_old) ∧
    log ≡ₚ (pair drop_new <$> lost_new) ++ (pair drop_head <$> lost_old).

Lemma replay_step_signals envs admitted old new log :
  replay_step envs admitted old new log →
  signals admitted = signals envs ∧ signals new = signals old.
Proof.
  intros (ln & lo & ? & ? & ? & ? & [? ?]%Forall_app & _).
  split; by eapply signals_kept.
Qed.

Lemma replay_step_nil old : replay_step [] [] old old [].
Proof. exists [], []. by rewrite !app_nil_r. Qed.

(** One more arrival admitted in front of a step. *)
Lemma replay_step_admit e envs admitted old new log :
  replay_step envs admitted old new log → replay_step (e :: envs) (e :: admitted) old new log.
Proof.
  intros (ln & lo & ? & Hp & ? & ? & ? & ?). exists ln, lo. split_and!; try done.
  - by apply sublist_skip.
  - simpl. by f_equiv.
Qed.

(** One more arrival lost in front of a step. *)
Lemma replay_step_lose e envs admitted old new log :
  undroppable e = false → replay_step envs admitted old new log →
  replay_step (e :: envs) admitted old new ((drop_new, e) :: log).
Proof.
  intros He (ln & lo & ? & Hp & ? & ? & Hd & Hl). exists (e :: ln), lo. split_and!; try done.
  - by apply sublist_cons.
  - rewrite Hp. by rewrite <-Permutation_middle.
  - simpl. by constructor.
  - simpl. by f_equiv.
Qed.

(** One more eviction in front of a step. *)
Lemma replay_step_evict e envs admitted old old' new log :
  undroppable e = false → old ≡ₚ e :: old' → sublist old' old →
  replay_step envs admitted old' new log → replay_step envs admitted old new ((drop_head, e) :: log).
Proof.
  intros He Hold Hsub (ln & lo & ? & ? & ? & Hp & Hd & Hl). exists ln, (e :: lo).
  split_and!; try done.
  - by trans old'.
  - rewrite Hold, Hp. by rewrite <-Permutation_middle.
  - apply Forall_app in Hd as [? ?]. apply Forall_app. split; [done|by constructor].
  - simpl. rewrite Hl. by rewrite <-Permutation_middle.
Qed.

Lemma load_app l k : load (l ++ k) = load l + load k.
Proof. unfold load, droppables. rewrite filter_app, length_app. lia. Qed.

Lemma load_le l : load l ≤ Z.of_nat (length l).
Proof. unfold load. pose proof (droppables_le l). lia. Qed.

Lemma load_singleton e : 0 ≤ load [e] ≤ 1.
Proof. unfold load, droppables. rewrite filter_cons. case_decide; simpl; lia. Qed.

Lemma load_signal e : undroppable e = true → load [e] = 0.
Proof. unfold load, droppables. rewrite filter_cons. intros ->. by case_decide. Qed.

Lemma load_evict e l k : undroppable e = false → l ≡ₚ e :: k → load l = load k + 1.
Proof.
  intros He Hp. unfold load, droppables. rewrite Hp, filter_cons_True by done. simpl. lia.
Qed.

(** What the loop returns from the arrivals [envs], having admitted [admitted]
    so far: it realises a [replay_step] and never raises the load above the
    capacity. *)
Definition replay_result cap envs admitted d
    (r : list (Envelope T) * (DroppingMailbox Q T * option MailboxError)) : Prop :=
  ∃ adm d' log,
    r = (admitted ++ adm, (d', None)) ∧
    Mailbox.wf (base d') ∧ accounted d' ∧ drops d' = drops d ++ log ∧
    replay_step envs adm (Mailbox.users (base d)) (Mailbox.users (base d')) log ∧
    (load admitted + load (Mailbox.users (base d)) ≤ cap →
     load (admitted ++ adm) + load (Mailbox.users (base d')) ≤ cap).

(** The arrival is admitted as there is room for it. *)
Lemma replay_result_admit cap e envs admitted d r :
  (load admitted + load (Mailbox.users (base d)) ≤ cap →
   load (admitted ++ [e]) + load (Mailbox.users (base d)) ≤ cap) →
  replay_result cap envs (admitted ++ [e]) d r → replay_result cap (e :: envs) admitted d r.
Proof.
  intros Hroom (adm & d' & log & -> & ? & ? & ? & Hstep & Hload).
  exists (e :: adm), d', log. rewrite <-(assoc_L (++)) in *. split_and!; try done.
  - by apply replay_step_admit.
  - intros Hle. by apply Hload, Hroom.
Qed.

(** The arrival is admitted in the place of an evicted message. *)
Lemma replay_result_evict cap e ev envs admitted d d1 r :
  undroppable ev = false → Mailbox.users (base d) ≡ₚ ev :: Mailbox.users (base d1) →
  sublist (Mailbox.users (base d1)) (Mailbox.users (base d)) →
  drops d1 = drops d ++ [(drop_head, ev)] →
  replay_result cap envs (admitted ++ [e]) d1 r → replay_result cap (e :: envs) admitted d r.
Proof.
  intros Hev Hp Hsub Hd1 (adm & d' & log & -> & ? & ? & Hd & Hstep & Hload).
  exists (e :: adm), d', ((drop_head, ev) :: log). rewrite <-(assoc_L (++)) in *. split_and!; try done.
  - by rewrite Hd, Hd1, <-(assoc_L (++)).
  - eapply replay_step_evict; [done..|]. by apply replay_step_admit.
  - intros Hle. apply Hload. rewrite load_app. rewrite (load_evict ev _ _ Hev Hp) in Hle.
    pose proof (load_singleton e). lia.
Qed.

(** The arrival is dropped. *)
Lemma replay_result_lose cap e envs admitted d d1 r :
  undroppable e = false → Mailbox.users (base d1) = Mailbox.users (base d) →
  drops d1 = drops d ++ [(drop_new, e)] →
  replay_result cap envs admitted d1 r → replay_result cap (e :: envs) admitted d r.
Proof.
  intros He Hu Hd1 (adm & d' & log & -> & ? & ? & Hd & Hstep & Hload). rewrite Hu in *.
  exists adm, d', ((drop_new, e) :: log). split_and!; try done.
  - by rewrite Hd, Hd1, <-(assoc_L (++)).
  - by apply replay_step_lose.
Qed.

Lemma replay_loop_spec cap ovf envs admitted d :
  ovf ≠ OverflowReject → Mailbox.wf (base d) → Mailbox.fits 0 (base d) → accounted d →
  replay_result cap envs admitted d (replay_loop cap ovf envs admitted d).
Proof.
  intros Hovf. revert admitted d.
  induction envs as [|e envs IH]; intros admitted d Hwf Hfit Hacc; simpl.
  { exists [], d, []. rewrite !app_nil_r. split_and!; try done. apply replay_step_nil. }
  destruct (undroppable e || _) eqn:Eroom.
  { apply replay_result_admit; [|by apply IH]. rewrite load_app.
    apply orb_prop in Eroom as [Hs|Hlt%Z.ltb_lt]; [rewrite load_signal by done; lia|].
    rewrite Mailbox.size_users in Hlt by done.
    pose proof (load_le admitted). pose proof (load_le (Mailbox.users (base d))).
    pose proof (load_singleton e). lia. }
  apply orb_false_iff in Eroom as [He _]. destruct ovf; [| |done].
  - destruct (Mailbox.removeNewest_users (base d) Hwf Hfit) as (Hc & Hwf' & Hu & _).
    destruct (Mailbox.removeNewest (base d)) as [[ev|] b];
      cbn [fst snd] in Hc, Hwf', Hu; symmetry in Hc.
    + destruct (take_last_droppable_Some _ _ Hc) as (Hev & Hp & Hsub).
      rewrite <-Hu in Hp, Hsub. pose proof (Permutation_length Hp) as Hlen. simpl in Hlen.
      apply (replay_result_evict _ _ ev _ _ _ (reportDrop drop_head ev (with_base d b))); [done..|].
      apply IH; [done|unfold Mailbox.fits in *; simpl; lia|by apply reportDrop_accounted].
    + destruct (take_last_droppable_None _ Hc) as [_ Hsame]. rewrite Hsame in Hu.
      apply (replay_result_lose _ _ _ _ _ (reportDrop drop_new e (with_base d b))); [done|exact Hu|done|].
      apply IH; [done|unfold Mailbox.fits in *; simpl; rewrite Hu; done|by apply reportDrop_accounted].
  - apply (replay_result_lose _ _ _ _ _ (reportDrop drop_new e d)); [done..|].
    apply IH; [done|done|by apply reportDrop_accounted].
Qed.

(** The replay loop followed by the re-insertion of what it admitted. *)
Lemma replay_then_prepend ovf envs m :
  ovf ≠ OverflowReject → wf m → Mailbox.fits (Z.of_nat (length envs)) (base_of m) →
  match replay_loop (capacity m) ovf envs [] (dropping m) with
  | (admitted, (d, None)) =>
    ∃ kept log, let m' := with_dropping m (with_base d (Mailbox.prependUser admitted (base d))) in
      wf m' ∧ users m' = admitted ++ kept ∧ drops (dropping m') = drops (dropping m) ++ log ∧
      replay_step envs admitted (users m) kept log ∧ (within_capacity m → within_capacity m')
  | (_, (_, Some _)) => False
  end.
Proof.
  intros Hovf [Hwf Hacc] Hfit.
  destruct (replay_loop_spec (capacity m) ovf envs [] (dropping m))
    as (adm & d' & log & -> & Hwf' & ? & ? & Hstep & Hload);
    [done|done|unfold Mailbox.fits, base_of in *; lia|done|].
  exists (Mailbox.users (base d')), log.
  pose proof Hstep as (_ & _ & Hs1 & _ & Hs2 & _).
  apply sublist_length in Hs1, Hs2.
  destruct (Mailbox.prepend_users adm (base d')) as [? Hu];
    [done|unfold Mailbox.fits, base_of in *; lia|].
  split_and!; [by split|done|done|done|].
  intros Hle. unfold within_capacity.
  replace (users _) with (adm ++ Mailbox.users (base d')) by done.
  rewrite load_app. by apply Hload.
Qed.

(** [prependUser] on every branch. *)
Lemma prependUser_spec envs m :
  wf m → Mailbox.fits (Z.of_nat (length envs)) (base_of m) →
  match prependUser envs m with
  | (m', Some (MailboxFullError c)) =>
      m' = m ∧ c = capacity m ∧ overflow m = OverflowReject ∧
      load envs > Z.max 0 (capacity m - size m)
  | (m', None) =>
      ∃ admitted kept log,
        wf m' ∧ users m' = admitted ++ kept ∧ capacity m' = capacity m ∧
        drops (dropping m') = drops (dropping m) ++ log ∧
        replay_step envs admitted (users m) kept log ∧
        (overflow m = OverflowReject → admitted = envs ∧ kept = users m) ∧
        (within_capacity m → within_capacity m')
  end.
Proof.
  intros [Hwf Hacc] Hfit. unfold prependUser.
  destruct envs as [|e0 envs0].
  { exists [], (users m), []. rewrite app_nil_r. split_and!; try done. apply replay_step_nil. }
  set (envs := e0 :: envs0) in *. clearbody envs.
  pose proof (λ ovf Hovf, replay_then_prepend ovf envs m Hovf (conj Hwf Hacc) Hfit) as Hloop.
  destruct (overflow m) eqn:Eovf.
  - specialize (Hloop OverflowDropHead ltac:(done)).
    destruct (replay_loop _ _ _ _ _) as [adm [d [?|]]]; [done|].
    destruct Hloop as (kept & log & ? & ? & ? & ? & ?). by exists adm, kept, log.
  - specialize (Hloop OverflowDropNew ltac:(done)).
    destruct (replay_loop _ _ _ _ _) as [adm [d [?|]]]; [done|].
    destruct Hloop as (kept & log & ? & ? & ? & ? & ?). by exists adm, kept, log.
  - unfold replay_refused. destruct (Z.gtb_spec (Z.of_nat (length (droppables envs)))
      (Z.max 0 (capacity m - size m))) as [Hgt|Hle]; [unfold load; split_and!; [done..|lia]|].
    exists envs, (users m), [].
    destruct (Mailbox.prepend_users envs (base_of m)) as [? Hu]; [done|done|].
    split_and!; [by split|done|done|by rewrite app_nil_r| |done|].
    + exists [], []. by rewrite !app_nil_r.
    + intros Hcap. unfold within_capacity in *.
      replace (users _) with (envs ++ users m) by done. rewrite load_app. simpl.
      fold (load envs) in Hle. unfold size in Hle. rewrite Mailbox.size_users in Hle by done.
      fold (users m) in Hle. pose proof (load_le (users m)). lia.
Qed.

(** Reference for [enqueue]: the three policies on a plain list and a log. *)
Definition enqueue_ref (cap : Z) (ovf : BoundedMailboxOverflow) (env : Envelope T)
    (l : list (Envelope T)) : list (Envelope T) * list (MailboxDropReason * Envelope T) * option MailboxError :=
  if Z.of_nat (length l) >=? cap then
    match ovf with
    | OverflowDropHead =>
        ((take_first_droppable l).2 ++ [env],
         match (take_first_droppable l).1 with Some e => [(drop_head, e)] | None => [] end, None)
    | OverflowDropNew => (l, [(drop_new, env)], None)
    | OverflowReject => (l, [], Some (MailboxFullError cap))
    end
  else (l ++ [env], [], None).

Lemma enqueue_spec env m :
  wf m → Mailbox.fits 1 (base_of m) →
  let '(m', err) := enqueue env m in
  let '(l, log, err_ref) := enqueue_ref (capacity m) (overflow m) env (users m) in
  wf m' ∧ users m' = l ∧ drops (dropping m') = drops (dropping m) ++ log ∧ err = err_ref ∧
  capacity m' = capacity m ∧ overflow m' = overflow m.
Proof.
  intros [Hwf Hacc] Hfit. unfold enqueue, enqueue_ref, size.
  rewrite Mailbox.size_users by done. fold (users m).
  assert (∀ d : DroppingMailbox Q T, Mailbox.wf (base d) → Mailbox.fits 1 (base d) →
    Mailbox.wf (base (super_enqueue env d)) ∧
    Mailbox.users (base (super_enqueue env d)) = Mailbox.users (base d) ++ [env]) as Hsuper.
  { intros d. apply Mailbox.enqueue_users. }
  destruct (_ >=? _).
  - destruct (overflow m) eqn:Eovf.
    + destruct (Mailbox.removeOldest_users (base_of m)) as (Hc & Hwf' & Hu & _);
        [done|unfold Mailbox.fits in *; lia|].
      destruct (Mailbox.removeOldest (base_of m)) as [c b]. cbn [fst snd] in *.
      fold (users m) in Hc, Hu. rewrite <-Hc, <-Hu.
      assert (Mailbox.fits 1 b).
      { unfold Mailbox.fits in *. rewrite Hu. destruct c as [e|]; symmetry in Hc.
        - destruct (take_first_droppable_Some _ _ Hc) as (_ & _ & Hs%sublist_length).
          unfold users in *. lia.
        - destruct (take_first_droppable_None _ Hc) as [_ ->]. done. }
      destruct c as [e|]; simpl.
      * destruct (Hsuper (reportDrop drop_head e (with_base (dropping m) b))) as [? ?];
          [done|done|]. split_and!; try done. split; [done|]. by apply reportDrop_accounted.
      * destruct (Hsuper (with_base (dropping m) b)) as [? ?]; [done|done|].
        rewrite app_nil_r. split_and!; try done; by split.
    + split_and!; try done. split; [done|]. by apply reportDrop_accounted.
    + rewrite app_nil_r. split_and!; try done; by split.
  - destruct (Hsuper (dropping m)) as [? ?]; [done|done|].
    rewrite app_nil_r. split_and!; try done; by split.
Qed.

(** The reference keeps the load within a positive capacity. *)
Lemma enqueue_ref_load cap ovf env l :
  0 < cap → load l ≤ cap → load (enqueue_ref cap ovf env l).1.1 ≤ cap.
Proof.
  intros Hcap Hl. unfold enqueue_ref. pose proof (load_singleton env).
  destruct (Z.geb_spec (Z.of_nat (length l)) cap) as [Hge|Hlt]; simpl.
  - destruct ovf; simpl; [|done|done]. rewrite load_app.
    destruct (take_first_droppable l).1 as [e|] eqn:Ee.
    + destruct (take_first_droppable_Some l e Ee) as (? & Hp & _).
      rewrite (load_evict e l _) in Hl by done. lia.
    + destruct (take_first_droppable_None l Ee) as [Hd ->].
      unfold load at 1. rewrite Hd. simpl. lia.
  - rewrite load_app. pose proof (load_le l). lia.
Qed.

(** ** Reachable states *)

(** Everything that can happen to a bounded mailbox.  [enqueueSignal] is the
    door of [ActorCell.postSignalEnvelope], which marks what it posts. *)
Inductive step : BoundedMailbox Q T → BoundedMailbox Q T → Prop :=
| step_enqueue env m : Mailbox.fits 1 (base_of m) → step m (enqueue env m).1
| step_signal env m : Mailbox.fits 1 (base_of m) → undroppable env = true →
    step m (enqueueSignal env m)
| step_prepend envs m : Mailbox.fits (Z.of_nat (length envs)) (base_of m) →
    step m (prependUser envs m).1
| step_dequeue m : step m (dequeueUser m).2
| step_suspend m : step m (with_dropping m (with_base (dropping m) (Mailbox.suspend (base_of m))))
| step_resume m : step m (with_dropping m (with_base (dropping m) (Mailbox.resume (base_of m))))
| step_drain m : step m (drainUser m).2.

Lemma dequeueUser_spec m :
  wf m →
  wf (dequeueUser m).2 ∧
  (dequeueUser m).1 = (if Mailbox.suspended (base_of m) then None else hd_error (users m)) ∧
  users (dequeueUser m).2 = (if Mailbox.suspended (base_of m) then users m else tail (users m)) ∧
  capacity (dequeueUser m).2 = capacity m.
Proof.
  intros [[Hu Hs] Hacc]. unfold dequeueUser, Mailbox.dequeueUser.
  destruct (Mailbox.suspended (base_of m)); [done|]. simpl.
  destruct (fifo_shift_ok _ _ Hu) as (? & ? & ?). split_and!; try done; by split.
Qed.

Lemma load_tail l : load (tail l) ≤ load l.
Proof.
  destruct l as [|e l]; [done|]. change (e :: l) with ([e] ++ l).
  rewrite load_app. simpl. pose proof (load_singleton e). lia.
Qed.

Lemma step_invariant m m' :
  step m m' → 0 < capacity m → wf m → within_capacity m →
  capacity m' = capacity m ∧ wf m' ∧ within_capacity m'.
Proof.
  intros Hstep Hcap Hwf Hin. unfold within_capacity in *.
  destruct Hstep as [env m Hf|env m Hf He|envs m Hf|m|m|m|m].
  - pose proof (enqueue_spec env m Hwf Hf) as Hs. destruct (enqueue env m) as [m' err].
    pose proof (enqueue_ref_load (capacity m) (overflow m) env (users m) Hcap Hin) as Hl.
    destruct (enqueue_ref _ _ _ _) as [[l log] er]. destruct Hs as (? & Hu & ? & ? & Hc & ?).
    simpl in *. by rewrite Hu, Hc.
  - destruct (Mailbox.enqueue_users env (base_of m)) as [? Hu]; [apply Hwf|done|].
    split_and!; [done|by split; [|apply Hwf]|].
    replace (users _) with (users m ++ [env]) by done. rewrite load_app, load_signal by done.
    simpl. lia.
  - pose proof (prependUser_spec envs m Hwf Hf) as Hs.
    destruct (prependUser envs m) as [m' [[c]|]]; simpl.
    + destruct Hs as (-> & _). done.
    + destruct Hs as (adm & kept & log & ? & ? & ? & ? & ? & ? & Hcap'). split_and!; [done..|by apply Hcap'].
  - destruct (dequeueUser_spec m Hwf) as (? & _ & Hu & Hc). split_and!; [done|done|].
    rewrite Hu, Hc. case_match; [done|]. pose proof (load_tail (users m)). lia.
  - done.
  - done.
  - destruct Hwf as [[Hu Hs] Hacc]. destruct (fifo_drain_ok _ _ Hu) as (? & ? & Hd).
    unfold drainUser, Mailbox.drainUser. simpl. split_and!; [done|by split|].
    replace (users _) with ([] : list (Envelope T)) by done. unfold load. simpl. lia.
Qed.

Lemma enqueue_ref_conserves cap ovf env l :
  let '(l', log, err) := enqueue_ref cap ovf env l in
  match err with
  | Some _ => ovf = OverflowReject ∧ cap ≤ Z.of_nat (length l) ∧ l' = l ∧ log = []
  | None => l ++ [env] ≡ₚ l' ++ (snd <$> log) ∧
            (log = [(drop_new, env)] ∨
             Forall (λ p, undroppable (snd p) = false) log ∧
             signals l' = signals l ++ signals [env])
  end.
Proof.
  unfold enqueue_ref. destruct (Z.geb_spec (Z.of_nat (length l)) cap) as [Hge|Hlt].
  - destruct ovf; simpl.
    + destruct (take_first_droppable l).1 as [e|] eqn:Ee; simpl.
      * destruct (take_first_droppable_Some l e Ee) as (He & Hp & Hs). split.
        -- etrans; [apply Permutation_app_tail, Hp|].
           apply (Permutation_cons_append (_ ++ [env]) e).
        -- right. split; [by constructor|]. unfold signals at 1. rewrite filter_app. f_equal.
           apply (signals_kept _ l [e]); [done| |by constructor].
           etrans; [exact Hp|]. apply Permutation_cons_append.
      * destruct (take_first_droppable_None l Ee) as [_ ->]. rewrite app_nil_r.
        split; [done|]. right. split; [done|]. unfold signals. by rewrite filter_app.
    + split; [done|]. by left.
    + done.
  - simpl. rewrite app_nil_r. split; [done|]. right. split; [done|].
    unfold signals. by rewrite filter_app.
Qed.

(** [BoundedMailbox.enqueue] does what its overflow policy says, on every
    branch: it leaves exactly the queue and the drop reports of the reference
    on lists; it throws only under [reject] on a full queue and then changes
    nothing; otherwise no message disappears unreported, and a queued
    undroppable envelope is never the one evicted. *)
Theorem bounded_enqueue_conserves (env : Envelope T) (m : BoundedMailbox Q T) :
  wf m → Mailbox.fits 1 (base_of m) →
  let '(m', err) := enqueue env m in
  (∃ log, drops (dropping m') = drops (dropping m) ++ log ∧
     (users m', log, err) = enqueue_ref (capacity m) (overflow m) env (users m) ∧
     match err with
     | Some _ => overflow m = OverflowReject ∧ capacity m ≤ Z.of_nat (length (users m)) ∧
                 users m' = users m ∧ log = []
     | None => users m ++ [env] ≡ₚ users m' ++ (snd <$> log) ∧
               (log = [(drop_new, env)] ∨
                Forall (λ p, undroppable (snd p) = false) log ∧
                signals (users m') = signals (users m) ++ signals [env])
     end) ∧
  wf m' ∧ capacity m' = capacity m.
Proof.
  intros Hwf Hfit. pose proof (enqueue_spec env m Hwf Hfit) as Hspec.
  pose proof (enqueue_ref_conserves (capacity m) (overflow m) env (users m)) as Hc.
  destruct (enqueue env m) as [m' err]. destruct (enqueue_ref _ _ _ _) as [[l log] er] eqn:E.
  destruct Hspec as (? & Hu & Hd & Herr & ? & ?). subst l er.
  split; [|done]. exists log. split_and!; [done|done|by destruct err].
Qed.

(** Replaying a stash into a [BoundedMailbox]: a refusal throws before
    anything is admitted and leaves the mailbox as it was; a replay that
    returns puts the admitted envelopes, in order, ahead of the queue, reports
    every lost message once with the right reason, loses no undroppable one,
    and does not push the droppable load past the capacity. *)
Theorem bounded_replay_conserves (envs : list (Envelope T)) (m : BoundedMailbox Q T) :
  wf m → Mailbox.fits (Z.of_nat (length envs)) (base_of m) →
  match prependUser envs m with
  | (m', Some _) =>
      m' = m ∧ overflow m = OverflowReject ∧ load envs > Z.max 0 (capacity m - size m)
  | (m', None) =>
      (∃ admitted kept lost_new lost_old log,
        users m' = admitted ++ kept ∧
        sublist admitted envs ∧ envs ≡ₚ admitted ++ lost_new ∧
        sublist kept (users m) ∧ users m ≡ₚ kept ++ lost_old ∧
        drops (dropping m') = drops (dropping m) ++ log ∧
        log ≡ₚ (pair drop_new <$> lost_new) ++ (pair drop_head <$> lost_old)) ∧
      signals (users m') = signals envs ++ signals (users m) ∧
      (within_capacity m → within_capacity m') ∧ wf m'
  end.
Proof.
  intros Hwf Hfit. pose proof (prependUser_spec envs m Hwf Hfit) as Hspec.
  destruct (prependUser envs m) as [m' [[c]|]].
  - by destruct Hspec as (? & _ & ? & ?).
  - destruct Hspec as (adm & kept & log & ? & Hu & ? & ? & Hstep & _ & ?).
    destruct (replay_step_signals _ _ _ _ _ Hstep) as [<- <-].
    destruct Hstep as (ln & lo & ? & ? & ? & ? & ? & ?).
    split_and!; [by exists adm, kept, ln, lo, log|..|done|done].
    rewrite Hu. unfold signals. by rewrite filter_app.
Qed.

(** The bound is an invariant: in every state reachable from a mailbox of
    positive capacity through arrivals, signals, replays, deliveries,
    suspension and draining, at most [capacity] droppable messages are queued
    (so the queue exceeds the capacity by its undroppable envelopes only), and
    the drop counter equals the number of reported drops. *)
Theorem bounded_reachable_within_capacity (cap : Z) (ovf : option BoundedMailboxOverflow)
    (onDrop : option nat) (dl : option bool) (m : BoundedMailbox Q T) :
  0 < cap → rtc step (construct cap ovf onDrop dl) m →
  Z.of_nat (length (users m)) ≤ cap + Z.of_nat (length (signals (users m))) ∧
  droppedCount (dropping m) = Z.of_nat (length (drops (dropping m))).
Proof.
  intros Hcap Hreach.
  assert (capacity m = cap ∧ wf m ∧ within_capacity m) as (Hc & [_ Hacc] & Hin).
  { assert (wf (construct cap ovf onDrop dl) ∧
            within_capacity (construct cap ovf onDrop dl)) as [Hwf0 Hin0].
    { unfold wf, within_capacity, users, base_of, construct.
      destruct onDrop; simpl; destruct (Mailbox.empty_wf (Q:=Q) (T:=T)) as (? & -> & _);
        (split; [by split|unfold load; simpl; lia]). }
    assert (capacity (construct (Q:=Q) (T:=T) cap ovf onDrop dl) = cap) as Hc0 by done.
    revert Hwf0 Hin0 Hc0. generalize (construct (Q:=Q) (T:=T) cap ovf onDrop dl) as m0, Hreach.
    intros m0. induction 1 as [|m0 m1 m2 Hstep _ IH]; intros; [done|].
    destruct (step_invariant m0 m1 Hstep) as (? & ? & ?); [lia|done|done|].
    apply IH; congruence. }
  split; [|done]. rewrite (droppables_signals_length (users m)).
  unfold within_capacity, load in Hin. lia.
Qed.

End laws.

(** Concrete envelopes for the examples below. *)
Definition user_env (n : nat) : Envelope nat := mkEnvelope n None false false.
Definition signal_env (n : nat) : Envelope nat := mkEnvelope n None false true.

(** A ring-backed mailbox of capacity 2, filled to the brim. *)
Definition full_example (ovf : BoundedMailboxOverflow) : BoundedMailbox RingBuffer.RingBuffer nat :=
  (enqueue (user_env 2) (enqueueSignal (signal_env 1)
     (construct 2 (Some ovf) None None))).1.

Lemma full_example_wf ovf : wf (full_example ovf).
Proof.
  unfold full_example.
  assert (wf (construct (Q:=RingBuffer.RingBuffer) (T:=nat) 2 (Some ovf) None None)) as H0.
  { split; [|done]. apply (proj1 Mailbox.empty_wf). }
  assert (wf (enqueueSignal (signal_env 1) (construct (Q:=RingBuffer.RingBuffer) 2 (Some ovf) None None)))
    as H1.
  { split; [|done]. apply (Mailbox.enqueue_users (signal_env 1) _ (proj1 H0)).
    vm_compute. congruence. }
  pose proof (enqueue_spec (user_env 2) _ H1) as Hs.
  destruct (enqueue (user_env 2) _) as [m' err]. destruct (enqueue_ref _ _ _ _) as [[l log] er].
  apply Hs. vm_compute. congruence.
Qed.

Lemma bounded_enqueue_conserves_witness :
  users (full_example OverflowDropHead) = [signal_env 1; user_env 2] ∧
  users (enqueue (user_env 3) (full_example OverflowDropHead)).1 = [signal_env 1; user_env 3] ∧
  wf (enqueue (user_env 3) (full_example OverflowDropHead)).1.
Proof.
  split_and!; [vm_compute; reflexivity|vm_compute; reflexivity|].
  pose proof (bounded_enqueue_conserves (user_env 3) (full_example OverflowDropHead)
    (full_example_wf _) ltac:(vm_compute; congruence)) as H.
  destruct (enqueue (user_env 3) (full_example OverflowDropHead)) as [m' err]. apply H.
Defined.

Lemma bounded_replay_conserves_witness :
  users (prependUser [user_env 4; signal_env 5] (full_example OverflowDropHead)).1
    = [user_env 4; signal_env 5; signal_env 1] ∧
  wf (prependUser [user_env 4; signal_env 5] (full_example OverflowDropHead)).1.
Proof.
  split; [vm_compute; reflexivity|].
  pose proof (bounded_replay_conserves [user_env 4; signal_env 5] (full_example OverflowDropHead)
    (full_example_wf _) ltac:(vm_compute; congruence)) as H.
  destruct (prependUser _ (full_example OverflowDropHead)) as [m' [e|]]; [|apply H].
  destruct H as (-> & _). apply full_example_wf.
Defined.

Lemma bounded_reachable_within_capacity_witness :
  0 < 2 ∧
  Z.of_nat (length (users (full_example OverflowReject)))
    ≤ 2 + Z.of_nat (length (signals (users (full_example OverflowReject)))).
Proof.
  split; [lia|].
  apply (bounded_reachable_within_capacity (Q:=RingBuffer.RingBuffer) 2 (Some OverflowReject) None None).
  - lia.
  - eapply rtc_l; [apply (step_signal (signal_env 1)); [vm_compute; congruence|reflexivity]|].
    eapply rtc_l; [apply (step_enqueue (user_env 2)); vm_compute; congruence|]. apply rtc_refl.
Defined.

End BoundedMailbox.
