(* ===== verification/ControlAwareMailbox.v ===== *)
(** * The two-class mailbox of [src/mailbox/ControlAwareMailbox.ts]

    The ordinary class is the base user queue, the control class a queue of
    its own that no bound reaches.  The predicate runs at every door and is
    contained there. *)

From S2P Require Import Prelude RingBuffer Mailbox.

Local Open Scope Z_scope.

(** What a user predicate can do when it is called. *)
Inductive predicate_answer :=
| Threw
| Answered (is_true : bool).

Module ControlAwareMailbox.
Import DroppingMailbox.

Record ControlAwareMailbox (Q : Type → Type) (T : Type) := mkControl {
  dropping : DroppingMailbox Q T;
  controlQueue : Q (Envelope T);
  isControl : T → predicate_answer;
  capacity : option Z;
  overflow : BoundedMailboxOverflow;
  controlErrors : list T;
}.
Arguments mkControl {Q T}.
Arguments dropping {Q T}.
Arguments controlQueue {Q T}.
Arguments isControl {Q T}.
Arguments capacity {Q T}.
Arguments overflow {Q T}.
Arguments controlErrors {Q T}.

Section ops.
Context {Q : Type → Type} `{!Fifo Q} {T : Type}.
Implicit Types m : ControlAwareMailbox Q T.

Definition construct (pred : T → predicate_answer) (cap : option Z)
    (ovf : option BoundedMailboxOverflow) (onDrop : option nat) (deadLetters : option bool)
    : ControlAwareMailbox Q T :=
  let d := DroppingMailbox.empty deadLetters in
  mkControl (match onDrop with Some o => observeDrops o d | None => d end) fifo_empty pred cap
            (default OverflowReject ovf) [].

Definition with_dropping m d : ControlAwareMailbox Q T :=
  mkControl d (controlQueue m) (isControl m) (capacity m) (overflow m) (controlErrors m).
Definition with_control m q : ControlAwareMailbox Q T :=
  mkControl (dropping m) q (isControl m) (capacity m) (overflow m) (controlErrors m).
Definition with_errors m errs : ControlAwareMailbox Q T :=
  mkControl (dropping m) (controlQueue m) (isControl m) (capacity m) (overflow m) errs.

Definition base_of m : Mailbox.Mailbox Q T := base (dropping m).
(** [super.size]: the ordinary class alone. *)
Definition super_size m : Z := Mailbox.size (base_of m).

(** The class of a message: only the answer [true] is control. *)
Definition is_control m (x : T) : bool :=
  match isControl m x with Answered true => true | _ => false end.

(** [classesAsControl]: a throw goes to [onControlError]. *)
Definition classesAsControl (x : T) m : bool * ControlAwareMailbox Q T :=
  match isControl m x with
  | Answered b => (b, m)
  | Threw => (false, with_errors m (controlErrors m ++ [x]))
  end.

Definition push_control (env : Envelope T) m : ControlAwareMailbox Q T :=
  with_control m (fifo_push env (controlQueue m)).
Definition super_enqueue (env : Envelope T) m : ControlAwareMailbox Q T :=
  with_dropping m (BoundedMailbox.super_enqueue env (dropping m)).

Definition enqueue (env : Envelope T) m : call (ControlAwareMailbox Q T) :=
  let '(control, m) := classesAsControl (message env) m in
  if control then (push_control env m, None)
  else match capacity m with
       | Some cap =>
           if super_size m >=? cap then
             match overflow m with
             | OverflowDropHead =>
                 let '(dropped, b) := Mailbox.removeOldest (base_of m) in
                 let d := with_base (dropping m) b in
                 let d := match dropped with Some e => reportDrop drop_head e d | None => d end in
                 (with_dropping m (BoundedMailbox.super_enqueue env d), None)
             | OverflowDropNew => (with_dropping m (reportDrop drop_new env (dropping m)), None)
             | OverflowReject => (m, Some (MailboxFullError cap))
             end
           else (super_enqueue env m, None)
       | None => (super_enqueue env m, None)
       end.

Definition enqueueSignal (env : Envelope T) m : ControlAwareMailbox Q T :=
  let '(control, m) := classesAsControl (message env) m in
  if control then push_control env m else super_enqueue env m.

(** The classification loop of [prependUser]. *)
Fixpoint split_classes (envelopes control ordinary : list (Envelope T)) m
    : list (Envelope T) * list (Envelope T) * ControlAwareMailbox Q T :=
  match envelopes with
  | [] => (control, ordinary, m)
  | e :: rest =>
      let '(c, m) := classesAsControl (message e) m in
      if c then split_classes rest (control ++ [e]) ordinary m
      else split_classes rest control (ordinary ++ [e]) m
  end.

(** The ordinary half of a replay; [inr] is the throw. *)
Definition admitOrdinaryReplay (envelopes : list (Envelope T)) m
    : list (Envelope T) * call (ControlAwareMailbox Q T) :=
  match capacity m, envelopes with
  | None, _ | _, [] => (envelopes, (m, None))
  | Some cap, _ =>
      match overflow m with
      | OverflowReject =>
          if BoundedMailbox.replay_refused cap (super_size m) envelopes
          then ([], (m, Some (MailboxFullError cap)))
          else (envelopes, (m, None))
      | ovf =>
          let '(admitted, (d, err)) := BoundedMailbox.replay_loop cap ovf envelopes [] (dropping m) in
          (admitted, (with_dropping m d, err))
      end
  end.

Definition prependUser (envelopes : list (Envelope T)) m : call (ControlAwareMailbox Q T) :=
  match envelopes with
  | [] => (m, None)
  | _ =>
      let '(control, ordinary, m) := split_classes envelopes [] [] m in
      match admitOrdinaryReplay ordinary m with
      | (_, (m, Some err)) => (m, Some err)
      | (admitted, (m, None)) =>
          let m := with_control m (fifo_unshiftAll control (controlQueue m)) in
          (with_dropping m (with_base (dropping m) (Mailbox.prependUser admitted (base_of m))), None)
      end
  end.

Definition dequeueUser m : option (Envelope T) * ControlAwareMailbox Q T :=
  if Mailbox.suspended (base_of m) then (None, m)
  else match fifo_shift (controlQueue m) with
       | (Some e, q) => (Some e, with_control m q)
       | (None, q) =>
           let '(e, b) := Mailbox.dequeueUser (base_of m) in
           (e, with_dropping (with_control m q) (with_base (dropping m) b))
       end.

Definition size m : Z := fifo_length (controlQueue m) + super_size m.
Definition hasUserMessages m : bool :=
  (fifo_length (controlQueue m) >? 0) || Mailbox.hasUserMessages (base_of m).
Definition hasMessages m : bool :=
  Mailbox.hasMessages (base_of m) ||
  (negb (Mailbox.suspended (base_of m)) && (fifo_length (controlQueue m) >? 0)).

Definition drainUser m : list (Envelope T) * ControlAwareMailbox Q T :=
  let '(control, q) := fifo_drain (controlQueue m) in
  let '(ordinary, b) := Mailbox.drainUser (base_of m) in
  (control ++ ordinary, with_dropping (with_control m q) (with_base (dropping m) b)).

End ops.

Section laws.
Context {Q : Type → Type} `{!Fifo Q, !FifoLaws Q} {T : Type}.
Implicit Types m : ControlAwareMailbox Q T.

Definition controls m : list (Envelope T) := fifo_view (controlQueue m).
Definition ordinaries m : list (Envelope T) := Mailbox.users (base_of m).
(** Delivery order. *)
Definition users m : list (Envelope T) := controls m ++ ordinaries m.

(** Every queued control message classifies as control and every ordinary one
    as ordinary, and the ordinary class respects the bound. *)
Definition classified m : Prop :=
  Forall (λ e, is_control m (message e) = true) (controls m) ∧
  Forall (λ e, is_control m (message e) = false) (ordinaries m).

Definition wf m : Prop :=
  fifo_wf (controlQueue m) ∧ Mailbox.wf (base_of m) ∧ accounted (dropping m) ∧ classified m.

Definition within_capacity m : Prop :=
  match capacity m with
  | None => True
  | Some cap => BoundedMailbox.load (ordinaries m) ≤ cap
  end.

(** Room for [n] more messages in either class. *)
Definition fits (n : Z) m : Prop :=
  Z.of_nat (length (controls m)) + n ≤ fifo_max ∧ Mailbox.fits n (base_of m).

(** The bounded mailbox the ordinary class is, when there is a bound. *)
Definition as_bounded (cap : Z) m : BoundedMailbox.BoundedMailbox Q T :=
  BoundedMailbox.mkBounded (dropping m) cap (overflow m).

Lemma classesAsControl_spec x m :
  (classesAsControl x m).1 = is_control m x ∧
  ∃ errs, (classesAsControl x m).2 = with_errors m errs.
Proof.
  unfold classesAsControl, is_control. destruct (isControl m x) as [|b]; simpl.
  - by eauto.
  - split; [by destruct b|]. exists (controlErrors m). by destruct m.
Qed.

(** Logging a predicate failure changes no queue. *)
Lemma with_errors_inert m errs :
  (wf (with_errors m errs) ↔ wf m) ∧ users (with_errors m errs) = users m ∧
  (fits 1 (with_errors m errs) ↔ fits 1 m).
Proof. done. Qed.

Lemma split_classes_spec envs control ordinary m :
  ∃ errs, split_classes envs control ordinary m =
    (control ++ filter (λ e, is_control m (message e) = true) envs,
     ordinary ++ filter (λ e, is_control m (message e) = false) envs, with_errors m errs).
Proof.
  revert control ordinary m. induction envs as [|e envs IH]; intros control ordinary m; simpl.
  { exists (controlErrors m). rewrite !app_nil_r. by destruct m. }
  destruct (classesAsControl_spec (message e) m) as [Hc [errs Hm]].
  destruct (classesAsControl (message e) m) as [c m']. simpl in *. subst c m'.
  rewrite !filter_cons.
  destruct (is_control m (message e)) eqn:Ec; simpl;
    edestruct IH as [errs' ->]; exists errs'; by rewrite <-(assoc_L (++)).
Qed.

Lemma classes_partition m (envs : list (Envelope T)) :
  envs ≡ₚ filter (λ e, is_control m (message e) = true) envs ++
          filter (λ e, is_control m (message e) = false) envs.
Proof.
  induction envs as [|e envs IH]; [done|]. rewrite !filter_cons.
  destruct (is_control m (message e)); simpl; [by f_equiv|].
  rewrite <-Permutation_middle. by f_equiv.
Qed.

(** An ordinary arrival under a bound is an arrival at the bounded mailbox the
    ordinary class forms. *)
Lemma enqueue_ordinary env m cap :
  is_control m (message env) = false → capacity m = Some cap →
  ∃ errs, enqueue env m =
    (with_dropping (with_errors m errs)
       (BoundedMailbox.dropping (BoundedMailbox.enqueue env (as_bounded cap m)).1),
     (BoundedMailbox.enqueue env (as_bounded cap m)).2).
Proof.
  intros Hc Hcap. destruct (classesAsControl_spec (message env) m) as [Hb [errs Hm]].
  exists errs. unfold enqueue. destruct (classesAsControl (message env) m) as [c m'].
  simpl in *. subst c m'. rewrite Hc. simpl. rewrite Hcap.
  unfold BoundedMailbox.enqueue, BoundedMailbox.size, super_size, BoundedMailbox.base_of, base_of.
  simpl. destruct (_ >=? _); [|done]. destruct (overflow m); [|done|by destruct m].
  by destruct (Mailbox.removeOldest _).
Qed.

(** Likewise for the ordinary half of a replay. *)
Lemma admitOrdinaryReplay_spec envs m :
  fifo_wf (controlQueue m) → Mailbox.wf (base_of m) → accounted (dropping m) →
  Mailbox.fits (Z.of_nat (length envs)) (base_of m) →
  match admitOrdinaryReplay envs m with
  | (_, (m', Some _)) => m' = m ∧ overflow m = OverflowReject
  | (admitted, (m', None)) =>
      ∃ d' log, m' = with_dropping m d' ∧ Mailbox.wf (base d') ∧ accounted d' ∧
        drops d' = drops (dropping m) ++ log ∧
        BoundedMailbox.replay_step envs admitted (ordinaries m) (Mailbox.users (base d')) log ∧
        (within_capacity m →
         match capacity m with
         | None => True
         | Some cap => BoundedMailbox.load (admitted ++ Mailbox.users (base d')) ≤ cap
         end)
  end.
Proof.
  intros Hq Hwf Hacc Hfit. unfold admitOrdinaryReplay, within_capacity.
  assert (BoundedMailbox.replay_step envs envs (ordinaries m) (ordinaries m) []) as Hall.
  { exists [], []. by rewrite !app_nil_r. }
  destruct (capacity m) as [cap|] eqn:Ecap.
  2:{ exists (dropping m), []. rewrite app_nil_r. split_and!; try done. by destruct m. }
  destruct envs as [|e0 envs0].
  { exists (dropping m), []. rewrite app_nil_r. split_and!; try done. by destruct m. }
  set (envs := e0 :: envs0) in *. clearbody envs.
  assert (∀ ovf, ovf ≠ OverflowReject → ∃ adm d' log,
    BoundedMailbox.replay_loop cap ovf envs [] (dropping m) = (adm, (d', None)) ∧
    Mailbox.wf (base d') ∧ accounted d' ∧ drops d' = drops (dropping m) ++ log ∧
    BoundedMailbox.replay_step envs adm (ordinaries m) (Mailbox.users (base d')) log ∧
    (BoundedMailbox.load (ordinaries m) ≤ cap →
     BoundedMailbox.load (adm ++ Mailbox.users (base d')) ≤ cap)) as Hloop.
  { intros ovf Hovf.
    destruct (BoundedMailbox.replay_loop_spec cap ovf envs [] (dropping m))
      as (adm & d' & log & ? & ? & ? & ? & ? & Hload);
      [done|done|unfold Mailbox.fits, base_of in *; lia|done|].
    exists adm, d', log. rewrite BoundedMailbox.load_app. by split_and!. }
  destruct (overflow m) eqn:Eovf.
  - destruct (Hloop OverflowDropHead) as (adm & d' & log & -> & ?); [done|]. by exists d', log.
  - destruct (Hloop OverflowDropNew) as (adm & d' & log & -> & ?); [done|]. by exists d', log.
  - unfold BoundedMailbox.replay_refused. fold (BoundedMailbox.load envs).
    destruct (Z.gtb_spec (BoundedMailbox.load envs) (Z.max 0 (cap - super_size m))) as [?|Hle];
      [done|].
    exists (dropping m), []. rewrite app_nil_r. split_and!; try done; [by destruct m|].
    intros Hin. rewrite BoundedMailbox.load_app. unfold super_size in Hle.
    rewrite Mailbox.size_users in Hle by done. fold (ordinaries m) in Hle |- *.
    pose proof (BoundedMailbox.load_le (ordinaries m)). change (Mailbox.users (base (dropping m))) with (ordinaries m). lia.
Qed.

(** Control messages overtake: as long as the mailbox is not suspended,
    [dequeueUser] hands out the control messages first, in arrival order, and
    reaches the ordinary class only once no control message is queued; draining
    uses the same order, and delivery removes exactly what it hands out. *)
Theorem control_messages_first (m : ControlAwareMailbox Q T) :
  wf m → Mailbox.suspended (base_of m) = false →
  (dequeueUser m).1 = hd_error (controls m ++ ordinaries m) ∧
  users (dequeueUser m).2 = tail (controls m ++ ordinaries m) ∧
  wf (dequeueUser m).2 ∧
  (∀ e, (dequeueUser m).1 = Some e → is_control m (message e) = false → controls m = []) ∧
  (drainUser m).1 = controls m ++ ordinaries m ∧
  hasUserMessages m = negb (bool_decide (controls m ++ ordinaries m = [])).
Proof.
  intros (Hq & Hwf & Hacc & Hcl & Hol) Hsus.
  destruct (fifo_shift_ok _ _ Hq) as (Hc & Hwfq & Hv).
  destruct (fifo_shift_ok _ _ (proj1 Hwf)) as (Hc' & Hwfo & Hv').
  assert ((drainUser m).1 = controls m ++ ordinaries m) as Hdrain.
  { unfold drainUser, Mailbox.drainUser.
    destruct (fifo_drain_ok _ _ Hq) as (E1 & _), (fifo_drain_ok _ _ (proj1 Hwf)) as (E2 & _).
    destruct (fifo_drain (controlQueue m)) as [l q]. simpl in *. by rewrite E1, E2. }
  assert (hasUserMessages m = negb (bool_decide (controls m ++ ordinaries m = []))) as Hhas.
  { unfold hasUserMessages, Mailbox.hasUserMessages. rewrite !fifo_length_ok by (done || apply Hwf).
    fold (controls m). change (fifo_view (Mailbox.userQueue (base_of m))) with (ordinaries m).
    by destruct (controls m), (ordinaries m). }
  unfold dequeueUser. rewrite Hsus. fold (controls m) in Hc, Hv.
  destruct (fifo_shift (controlQueue m)) as [c q]. cbn [fst snd] in *.
  destruct (controls m) as [|e l] eqn:El; simpl in Hc; subst c.
  - unfold Mailbox.dequeueUser. rewrite Hsus. simpl.
    split_and!; try done.
    + unfold users, controls, ordinaries, Mailbox.users. simpl. rewrite Hv. simpl. done.
    + split_and!; try done; [by split; [|apply Hwf]|]. split; simpl.
      * change (controls _) with (fifo_view q). by rewrite Hv.
      * change (ordinaries _) with (fifo_view (fifo_shift (Mailbox.userQueue (base_of m))).2).
        rewrite Hv'. change (fifo_view (Mailbox.userQueue (base_of m))) with (ordinaries m).
        destruct (ordinaries m); [done|]. by apply Forall_cons in Hol as [_ ?].
  - apply Forall_cons in Hcl as [He Hcl]. simpl. split_and!; try done.
    + change (fifo_view q ++ ordinaries m = l ++ ordinaries m). by rewrite Hv.
    + split_and!; try done. split; [|done]. change (controls _) with (fifo_view q). by rewrite Hv.
    + intros ? [= <-]. by rewrite He.
Qed.

(** No bound reaches the control class.  A control arrival is queued at the
    tail of its class whatever the depth, throws nothing and reports no drop; an
    ordinary arrival under a capacity does to the ordinary class exactly what
    [BoundedMailbox.enqueue] does.  A replay either throws, and then neither
    class has changed, or puts every control envelope back at the head of the
    control class and the admitted ordinary ones ahead of the ordinary class,
    losing droppable ordinary messages only and staying within the bound. *)
Theorem control_class_exempt (env : Envelope T) (envs : list (Envelope T)) (m : ControlAwareMailbox Q T) :
  wf m → fits (1 + Z.of_nat (length envs)) m →
  (is_control m (message env) = true →
     controls (enqueue env m).1 = controls m ++ [env] ∧ (enqueue env m).2 = None ∧
     ordinaries (enqueue env m).1 = ordinaries m ∧
     drops (dropping (enqueue env m).1) = drops (dropping m)) ∧
  (∀ cap, is_control m (message env) = false → capacity m = Some cap →
     controls (enqueue env m).1 = controls m ∧
     ordinaries (enqueue env m).1 = BoundedMailbox.users (BoundedMailbox.enqueue env (as_bounded cap m)).1 ∧
     (enqueue env m).2 = (BoundedMailbox.enqueue env (as_bounded cap m)).2) ∧
  match prependUser envs m with
  | (m', Some _) => users m' = users m ∧ drops (dropping m') = drops (dropping m) ∧
                    overflow m = OverflowReject
  | (m', None) =>
      controls m' = filter (λ e, is_control m (message e) = true) envs ++ controls m ∧
      signals (ordinaries m')
        = signals (filter (λ e, is_control m (message e) = false) envs) ++ signals (ordinaries m) ∧
      (within_capacity m → within_capacity m')
  end.
Proof.
  intros Hm [Hfc Hfo]. pose proof Hm as (Hq & Hwf & Hacc & _). split_and!.
  - intros Hc. unfold enqueue.
    destruct (classesAsControl_spec (message env) m) as [Hb [errs Hm']].
    destruct (classesAsControl (message env) m) as [c m']. simpl in *. subst c m'. rewrite Hc. simpl.
    destruct (fifo_push_ok _ env (controlQueue m)) as [_ Hv]; [done|unfold controls in *; lia|]. done.
  - intros cap Hc Hcap. by destruct (enqueue_ordinary env m cap Hc Hcap) as [errs ->].
  - unfold prependUser. destruct envs as [|e0 envs0]; [done|].
    set (envs := e0 :: envs0) in *. clearbody envs.
    destruct (split_classes_spec envs [] [] m) as [errs ->]. simpl.
    set (ctl := filter (λ e, is_control m (message e) = true) envs). set (ord := filter (λ e, is_control m (message e) = false) envs).
    assert (length ctl + length ord = length envs)%nat as Hlen.
    { rewrite <-length_app. symmetry. apply Permutation_length, classes_partition. }
    assert (Mailbox.fits (Z.of_nat (length ord)) (base_of m)) as Hfit
      by (unfold Mailbox.fits in *; lia).
    pose proof (admitOrdinaryReplay_spec ord (with_errors m errs) Hq Hwf Hacc Hfit) as Hadm.
    destruct (admitOrdinaryReplay ord (with_errors m errs)) as [adm [m' [err|]]].
    + by destruct Hadm as [-> ?].
    + destruct Hadm as (d' & log & -> & Hwf' & _ & _ & Hstep & Hload). simpl.
      destruct (BoundedMailbox.replay_step_signals _ _ _ _ _ Hstep) as [Hs1 Hs2].
      destruct (fifo_unshiftAll_ok _ ctl (controlQueue m) Hq) as [_ Hv];
        [unfold controls in *; lia|].
      destruct Hstep as (? & ? & Hl1%sublist_length & _ & Hl2%sublist_length & _).
      change (ordinaries (with_errors m errs)) with (ordinaries m) in *.
      destruct (Mailbox.prepend_users adm (base d')) as [_ Hu];
        [done|unfold Mailbox.fits, ordinaries, Mailbox.users in *; lia|].
      split_and!; [done| |].
      * enough (signals (Mailbox.users (Mailbox.prependUser adm (base d')))
                  = signals ord ++ signals (ordinaries m)) by done.
        rewrite Hu. unfold signals at 1. rewrite filter_app. fold (signals adm).
        by rewrite Hs1, <-Hs2.
      * intros Hin. specialize (Hload Hin). rewrite <-Hu in Hload. exact Hload.
Qed.

End laws.

(** A mailbox over rings where even numbers are control; the predicate throws
    on 7. *)
Definition even_control : ControlAwareMailbox RingBuffer.RingBuffer nat :=
  construct (λ n, if Nat.eqb n 7 then Threw else Answered (Nat.even n)) (Some 1)
            (Some OverflowReject) None None.

Definition control_example : ControlAwareMailbox RingBuffer.RingBuffer nat :=
  (enqueue (BoundedMailbox.user_env 4) (enqueue (BoundedMailbox.user_env 7) even_control).1).1.

Lemma control_example_wf : wf control_example.
Proof.
  assert (fifo_wf (fifo_empty : RingBuffer.RingBuffer (Envelope nat))) as H0
    by apply RingBuffer.rep_empty.
  unfold wf. split_and!.
  - apply (fifo_push_ok _ (BoundedMailbox.user_env 4) _ H0). vm_compute. congruence.
  - split; [|done]. apply (fifo_push_ok _ (BoundedMailbox.user_env 7) _ H0). vm_compute. congruence.
  - done.
  - split; vm_compute; repeat constructor.
Qed.

Lemma control_messages_first_witness :
  (dequeueUser control_example).1 = Some (BoundedMailbox.user_env 4) ∧
  (drainUser control_example).1 = [BoundedMailbox.user_env 4; BoundedMailbox.user_env 7].
Proof.
  destruct (control_messages_first control_example control_example_wf) as (-> & _ & _ & _ & -> & _);
    [reflexivity|]. split; vm_compute; reflexivity.
Defined.

Lemma control_class_exempt_witness :
  wf control_example ∧
  controls (enqueue (BoundedMailbox.user_env 6) control_example).1
    = [BoundedMailbox.user_env 4; BoundedMailbox.user_env 6].
Proof.
  split; [apply control_example_wf|].
  destruct (control_class_exempt (BoundedMailbox.user_env 6) [] control_example control_example_wf)
    as [H _].
  - split; vm_compute; congruence.
  - rewrite (proj1 (H eq_refl)). vm_compute. reflexivity.
Defined.

End ControlAwareMailbox.
