(* ===== verification/PriorityMailbox.v ===== *)
(** * The priority queue of [src/mailbox/PriorityMailbox.ts], and the stash replay

    User messages live in an array ordered by (priority, arrival number) and
    are placed by binary search.  The last part of the file is the replay of an
    actor's stash ([Unstash.unstashAll]) into each mailbox. *)

From S2P Require Import Prelude RingBuffer Mailbox.

Local Open Scope Z_scope.

(** What [priorityFor] can do when it is called: throw, return something that
    is not of type number, or return a number. *)
Inductive priority_answer :=
| PriorityThrew
| NotANumber
| Priority (n : number).

Inductive PriorityMailboxOverflow := DropLowestPriority | DropNew | Reject.

Module PriorityMailbox.

Definition UNRANKABLE_PRIORITY : number := Num MAX_SAFE_INTEGER.

Record PriorityEntry (T : Type) := mkEntry {
  envelope : Envelope T;
  priority : number;
  sequence : Z;
}.
Arguments mkEntry {T}.
Arguments envelope {T}.
Arguments priority {T}.
Arguments sequence {T}.

(** The fields of the class and of the base classes it uses: the messages are
    in [ordered], the inherited user queue stays empty. *)
Record PriorityMailbox (T : Type) := mkPriority {
  priorityFor : T → priority_answer;
  capacity : option Z;
  overflow : PriorityMailboxOverflow;
  nextSequence : Z;
  ordered : list (PriorityEntry T);
  suspended : bool;
  droppedCount : Z;
  drops : list (MailboxDropReason * Envelope T);
  priorityErrors : list T;
}.
Arguments mkPriority {T}.
Arguments priorityFor {T}.
Arguments capacity {T}.
Arguments overflow {T}.
Arguments nextSequence {T}.
Arguments ordered {T}.
Arguments suspended {T}.
Arguments droppedCount {T}.
Arguments drops {T}.
Arguments priorityErrors {T}.

Section ops.
Context {T : Type}.
Implicit Types m : PriorityMailbox T.

Definition construct (pf : T → priority_answer) (cap : option Z)
    (ovf : option PriorityMailboxOverflow) : PriorityMailbox T :=
  mkPriority pf cap (default Reject ovf) 0 [] false 0 [] [].

Definition with_ordered m l : PriorityMailbox T :=
  mkPriority (priorityFor m) (capacity m) (overflow m) (nextSequence m) l (suspended m)
             (droppedCount m) (drops m) (priorityErrors m).

Definition reportDrop (reason : MailboxDropReason) (env : Envelope T) m : PriorityMailbox T :=
  mkPriority (priorityFor m) (capacity m) (overflow m) (nextSequence m) (ordered m) (suspended m)
             (droppedCount m + 1) (drops m ++ [(reason, env)]) (priorityErrors m).

(** The number a message is sorted by. *)
Definition rank m (x : T) : number :=
  match priorityFor m x with
  | Priority NaN | PriorityThrew | NotANumber => UNRANKABLE_PRIORITY
  | Priority n => n
  end.

(** [priorityOf]: the rank, with [onPriorityError] told about a failure. *)
Definition priorityOf (x : T) m : number * PriorityMailbox T :=
  let failed := mkPriority (priorityFor m) (capacity m) (overflow m) (nextSequence m) (ordered m)
                  (suspended m) (droppedCount m) (drops m) (priorityErrors m ++ [x]) in
  match priorityFor m x with
  | PriorityThrew | NotANumber | Priority NaN => (UNRANKABLE_PRIORITY, failed)
  | Priority n => (n, m)
  end.

(** The comparison of the search loop: [item] goes before [entry]. *)
Definition goes_before (item entry : PriorityEntry T) : bool :=
  number_lt (priority item) (priority entry) ||
  (number_eqb (priority item) (priority entry) && (sequence item <? sequence entry)).

(** [while (low < high) { ... }]; the interval shrinks every round, so
    [length + 1] rounds are enough ([search_spec]). *)
Fixpoint search (fuel : nat) (entry : PriorityEntry T) (l : list (PriorityEntry T)) (low high : nat) : nat :=
  match fuel with
  | O => low
  | S fuel =>
      if (low <? high)%nat then
        let middle := Nat.div2 (low + high) in
        match l !! middle with
        | Some item =>
            if goes_before item entry then search fuel entry l (middle + 1) high
            else search fuel entry l low middle
        | None => low
        end
      else low
  end.

Definition insert (env : Envelope T) m : PriorityMailbox T :=
  let '(p, m) := priorityOf (message env) m in
  let entry := mkEntry env p (nextSequence m) in
  let low := search (S (length (ordered m))) entry (ordered m) 0 (length (ordered m)) in
  mkPriority (priorityFor m) (capacity m) (overflow m) (nextSequence m + 1)
    (take low (ordered m) ++ [entry] ++ drop low (ordered m))
    (suspended m) (droppedCount m) (drops m) (priorityErrors m).

Definition enqueueSignal (env : Envelope T) m : PriorityMailbox T := insert env m.

(** The scan from the tail of [removeOldest]: the last droppable entry. *)
Fixpoint splice_last_droppable (l : list (PriorityEntry T))
    : option (PriorityEntry T) * list (PriorityEntry T) :=
  match l with
  | [] => (None, [])
  | e :: l =>
      match splice_last_droppable l with
      | (Some x, l') => (Some x, e :: l')
      | (None, l') => if undroppable (envelope e) then (None, e :: l') else (Some e, l')
      end
  end.

Definition removeOldest m : option (PriorityEntry T) * PriorityMailbox T :=
  let '(e, l) := splice_last_droppable (ordered m) in (e, with_ordered m l).

(** [shed === envelope] compares object identities; the arrival number stands
    for the identity of the queued object. *)
Definition shedLeastImportant (env : Envelope T) m : PriorityMailbox T :=
  let arrival := nextSequence m in
  let '(shed, m) := removeOldest (insert env m) in
  match shed with
  | Some e => reportDrop (if sequence e =? arrival then drop_new else drop_head) (envelope e) m
  | None => m
  end.

Definition enqueue (env : Envelope T) m : call (PriorityMailbox T) :=
  match capacity m with
  | Some cap =>
      if Z.of_nat (length (ordered m)) >=? cap then
        match overflow m with
        | DropLowestPriority => (shedLeastImportant env m, None)
        | DropNew => (reportDrop drop_new env m, None)
        | Reject => (m, Some (MailboxFullError cap))
        end
      else (insert env m, None)
  | None => (insert env m, None)
  end.

Definition dequeueUser m : option (Envelope T) * PriorityMailbox T :=
  if suspended m then (None, m)
  else match ordered m with
       | [] => (None, m)
       | e :: l => (Some (envelope e), with_ordered m l)
       end.

Definition size m : Z := Z.of_nat (length (ordered m)).
Definition hasUserMessages m : bool := (0 <? length (ordered m))%nat.
Definition drainUser m : list (Envelope T) * PriorityMailbox T :=
  (envelope <$> ordered m, with_ordered m []).

(** [prependUser] re-enters [enqueue] envelope by envelope; a throw leaves what
    was admitted before it in the queue. *)
Fixpoint prependUser (envelopes : list (Envelope T)) m : call (PriorityMailbox T) :=
  match envelopes with
  | [] => (m, None)
  | e :: rest =>
      if undroppable e then prependUser rest (enqueueSignal e m)
      else match enqueue e m with
           | (m, None) => prependUser rest m
           | (m, Some err) => (m, Some err)
           end
  end.

Definition removeNewest m : option (PriorityEntry T) * PriorityMailbox T := removeOldest m.

(** ** The order *)

Definition before (a b : PriorityEntry T) : Prop := goes_before a b = true.

Lemma number_lt_trans a b c : number_lt a b = true → number_lt b c = true → number_lt a c = true.
Proof.
  destruct a, b, c; simpl; try done.
  rewrite !Z.ltb_lt. lia.
Qed.

Lemma number_total a b :
  a ≠ NaN → b ≠ NaN → number_lt a b = true ∨ a = b ∨ number_lt b a = true.
Proof.
  destruct a as [| | |x], b as [| | |y]; simpl; try done; auto.
  intros _ _. rewrite !Z.ltb_lt. destruct (Z.lt_trichotomy x y) as [?|[->|?]]; auto.
Qed.

Lemma number_lt_irrefl a b : number_lt a b = true → number_lt b a = true → False.
Proof. destruct a, b; simpl; try done. rewrite !Z.ltb_lt. lia. Qed.

Lemma number_eqb_eq a b : number_eqb a b = true → a = b.
Proof. unfold number_eqb. destruct a; [done|..]; apply bool_decide_eq_true_1. Qed.

Lemma number_eqb_refl a : a ≠ NaN → number_eqb a a = true.
Proof. unfold number_eqb. destruct a; [done|..]; intros _; by apply bool_decide_eq_true_2. Qed.

Lemma before_spec a b :
  before a b ↔ number_lt (priority a) (priority b) = true ∨
    (number_eqb (priority a) (priority b) = true ∧ sequence a < sequence b).
Proof. unfold before, goes_before. rewrite orb_true_iff, andb_true_iff, Z.ltb_lt. done. Qed.

Lemma before_trans a b c : before a b → before b c → before a c.
Proof.
  rewrite !before_spec. intros [H1|[H1 H2]] [H3|[H3 H4]].
  - left. by eapply number_lt_trans.
  - left. apply number_eqb_eq in H3. by rewrite <-H3.
  - left. apply number_eqb_eq in H1. by rewrite H1.
  - right. split; [|lia]. apply number_eqb_eq in H1. by rewrite H1.
Qed.

(** ** Insertion *)

(** Reference: walk past everything that goes before. *)
Fixpoint insert_ref (entry : PriorityEntry T) (l : list (PriorityEntry T)) : list (PriorityEntry T) :=
  match l with
  | [] => [entry]
  | x :: l => if goes_before x entry then x :: insert_ref entry l else entry :: x :: l
  end.

(** [k] separates the entries that go before [entry] from the others. *)
Definition separates (entry : PriorityEntry T) (l : list (PriorityEntry T)) (k : nat) : Prop :=
  (k ≤ length l)%nat ∧
  (∀ i x, (i < k)%nat → l !! i = Some x → before x entry) ∧
  (∀ i x, (k ≤ i)%nat → l !! i = Some x → ¬ before x entry).

Lemma search_spec fuel entry l low high :
  StronglySorted before l → (high - low < fuel)%nat → (low ≤ high ≤ length l)%nat →
  (∀ i x, (i < low)%nat → l !! i = Some x → before x entry) →
  (∀ i x, (high ≤ i)%nat → l !! i = Some x → ¬ before x entry) →
  separates entry l (search fuel entry l low high).
Proof.
  intros Hs. revert low high.
  induction fuel as [|fuel IH]; intros low high Hf Hb Hlo Hhi; [lia|]. simpl.
  destruct (Nat.ltb_spec low high) as [Hlt|Hge].
  2:{ assert (low = high) as <- by lia. split_and!; [lia|done|done]. }
  rewrite Nat.div2_div.
  assert (low ≤ (low + high) / 2 < high)%nat as Hmid.
  { split; [apply Nat.div_le_lower_bound; lia|apply Nat.Div0.div_lt_upper_bound; lia]. }
  set (mid := ((low + high) / 2)%nat) in *. clearbody mid.
  destruct (lookup_lt_is_Some_2 l mid) as [item Hi]; [lia|]. rewrite Hi.
  assert (∀ i j x y, (i < j)%nat → l !! i = Some x → l !! j = Some y → before x y) as Hord.
  { clear -Hs. induction Hs as [|a l _ IH Hall]; intros i j x y Hij Hx Hy; [done|].
    destruct j as [|j]; [lia|]. destruct i as [|i]; simpl in *.
    - injection Hx as <-. rewrite Forall_forall in Hall. apply Hall.
      by eapply list_elem_of_lookup_2.
    - apply (IH i j); [lia|done|done]. }
  destruct (goes_before item entry) eqn:Eb.
  - apply IH; [lia|lia| |done]. intros i x Hlt' Hx.
    destruct (decide (i = mid)) as [->|]; [by simplify_eq|].
    eapply before_trans; [apply (Hord i mid x item); [lia|done|done]|done].
  - apply IH; [lia|lia|done|]. intros i x Hge Hx Hbx.
    destruct (decide (i = mid)) as [->|]; [unfold before in Hbx; simplify_eq; congruence|].
    assert (before item entry) as Hc.
    { eapply before_trans; [apply (Hord mid i item x); [lia|done|done]|done]. }
    unfold before in Hc. congruence.
Qed.

Lemma separates_insert entry l k :
  separates entry l k → take k l ++ [entry] ++ drop k l = insert_ref entry l.
Proof.
  revert k. induction l as [|x l IH]; intros k (Hk & Hlo & Hhi).
  { by destruct k. }
  destruct k as [|k]; simpl.
  - destruct (goes_before x entry) eqn:Eb; [|done].
    destruct (Hhi 0%nat x); [lia|done|done].
  - rewrite (Hlo 0%nat x) by (lia || done). f_equal. apply IH. split_and!.
    + simpl in Hk. lia.
    + intros i y Hi Hy. apply (Hlo (S i)); [lia|done].
    + intros i y Hi Hy. apply (Hhi (S i)); [lia|done].
Qed.

Lemma insert_ref_Permutation entry l : insert_ref entry l ≡ₚ entry :: l.
Proof.
  induction l as [|x l IH]; simpl; [done|]. destruct (goes_before x entry); [|done].
  rewrite IH. apply Permutation_swap.
Qed.

(** An entry that arrived later and does not go after [x] goes before it. *)
Lemma not_before x entry :
  priority x ≠ NaN → priority entry ≠ NaN → sequence x < sequence entry →
  goes_before x entry = false → before entry x.
Proof.
  intros Hx He Hseq Hn. apply before_spec. left.
  destruct (number_total _ _ Hx He) as [H|[H|H]]; [| |done]; exfalso;
    apply not_true_iff_false in Hn; apply Hn; apply before_spec; [by left|right].
  rewrite H. split; [by apply number_eqb_refl|done].
Qed.

Lemma insert_ref_sorted entry l :
  StronglySorted before l → priority entry ≠ NaN →
  Forall (λ x, priority x ≠ NaN ∧ sequence x < sequence entry) l →
  StronglySorted before (insert_ref entry l).
Proof.
  intros Hs He Hall. induction Hs as [|x l Hs IH Hx]; simpl; [by repeat constructor|].
  apply Forall_cons in Hall as [[Hp Hq] Hall].
  destruct (goes_before x entry) eqn:Eb.
  - constructor; [by apply IH|]. rewrite insert_ref_Permutation. by constructor.
  - pose proof (not_before x entry Hp He Hq Eb) as Hb.
    constructor; [by constructor|]. constructor; [done|].
    eapply Forall_impl; [exact Hx|]. intros y. by apply before_trans.
Qed.

(** ** The state invariant *)

Definition envelopes m : list (Envelope T) := envelope <$> ordered m.

Definition wf m : Prop :=
  StronglySorted before (ordered m) ∧
  Forall (λ x, priority x ≠ NaN ∧ sequence x < nextSequence m ∧
               priority x = rank m (message (envelope x))) (ordered m) ∧
  droppedCount m = Z.of_nat (length (drops m)).

Lemma priorityOf_spec x m :
  (priorityOf x m).1 = rank m x ∧ rank m x ≠ NaN ∧
  ordered (priorityOf x m).2 = ordered m ∧ nextSequence (priorityOf x m).2 = nextSequence m ∧
  priorityFor (priorityOf x m).2 = priorityFor m ∧ drops (priorityOf x m).2 = drops m ∧
  droppedCount (priorityOf x m).2 = droppedCount m ∧ capacity (priorityOf x m).2 = capacity m ∧
  overflow (priorityOf x m).2 = overflow m ∧ suspended (priorityOf x m).2 = suspended m.
Proof. unfold priorityOf, rank. by destruct (priorityFor m x) as [| |[]]. Qed.

(** [insert] is the reference insertion of an entry with the next arrival
    number. *)
Lemma insert_spec env m :
  wf m →
  ordered (insert env m) =
    insert_ref (mkEntry env (rank m (message env)) (nextSequence m)) (ordered m) ∧
  wf (insert env m) ∧ nextSequence (insert env m) = nextSequence m + 1 ∧
  priorityFor (insert env m) = priorityFor m ∧ capacity (insert env m) = capacity m ∧
  overflow (insert env m) = overflow m ∧ drops (insert env m) = drops m.
Proof.
  intros (Hs & Hall & Hcount). unfold insert.
  destruct (priorityOf_spec (message env) m)
    as (Hp & Hnan & Ho & Hn & Hf & Hd & Hdc & Hcap & Hovf & _).
  destruct (priorityOf (message env) m) as [p m']. simpl in *. subst p.
  set (entry := mkEntry env (rank m (message env)) (nextSequence m')).
  assert (take (search (S (length (ordered m'))) entry (ordered m') 0 (length (ordered m'))) (ordered m')
    ++ [entry] ++ drop (search (S (length (ordered m'))) entry (ordered m') 0 (length (ordered m'))) (ordered m')
    = insert_ref entry (ordered m)) as Heq.
  { rewrite Ho. apply separates_insert, search_spec; [done|lia|lia|lia|].
    intros i x Hi Hx. apply lookup_lt_Some in Hx. lia. }
  simpl in Heq. rewrite Heq. unfold wf. simpl. subst entry. rewrite Hn, Hf, Hcap, Hovf, Hd, Hdc.
  split_and!; try done.
  - apply insert_ref_sorted; [done|done|]. eapply Forall_impl; [exact Hall|]. simpl. by intros x (? & ? & _).
  - rewrite insert_ref_Permutation. constructor; simpl.
    + by split_and!; [|lia|].
    + eapply Forall_impl; [exact Hall|]. simpl. intros x (? & ? & Hr).
      by split_and!; [|lia|].
Qed.

Lemma splice_spec l :
  match splice_last_droppable l with
  | (Some e, l') => undroppable (envelope e) = false ∧ l ≡ₚ e :: l' ∧ sublist l' l ∧
      ∃ l1 l2, l = l1 ++ e :: l2 ∧ l' = l1 ++ l2 ∧ Forall (λ x, undroppable (envelope x) = true) l2
  | (None, l') => l' = l ∧ Forall (λ x, undroppable (envelope x) = true) l
  end.
Proof.
  induction l as [|x l IH]; simpl; [done|].
  destruct (splice_last_droppable l) as [[e|] l'].
  - destruct IH as (He & Hp & Hs & l1 & l2 & -> & -> & Hall). split_and!.
    + done.
    + rewrite Hp. apply Permutation_swap.
    + by apply sublist_skip.
    + by exists (x :: l1), l2.
  - destruct IH as [-> Hall]. destruct (undroppable (envelope x)) eqn:Ex.
    + split; [done|by constructor].
    + split_and!; [done|done|by apply sublist_cons|]. by exists [], l.
Qed.

Lemma wf_sublist m l : wf m → sublist l (ordered m) → wf (with_ordered m l).
Proof.
  intros (Hs & Hall & ?) Hl. split_and!; simpl; [by eapply StronglySorted_sublist| |done].
  by eapply sublist_Forall.
Qed.

Definition load (l : list (PriorityEntry T)) : Z :=
  Z.of_nat (length (droppables (envelope <$> l))).

Lemma load_cons e l :
  load (e :: l) = (if undroppable (envelope e) then 0 else 1) + load l.
Proof.
  unfold load, droppables. rewrite fmap_cons, filter_cons.
  destruct (undroppable (envelope e)); simpl; lia.
Qed.

Lemma load_Permutation l k : l ≡ₚ k → load l = load k.
Proof. intros Hp. unfold load, droppables. by rewrite Hp. Qed.

Lemma load_zero l : Forall (λ x, undroppable (envelope x) = true) l → load l = 0.
Proof. induction 1 as [|x l Hx _ IH]; [done|]. rewrite load_cons, Hx. lia. Qed.

Definition within_capacity m : Prop :=
  match capacity m with Some cap => load (ordered m) ≤ cap | None => True end.

(** What one arrival at a full mailbox sheds. *)
Lemma shed_spec env m :
  wf m →
  let m' := shedLeastImportant env m in
  wf m' ∧ capacity m' = capacity m ∧ overflow m' = overflow m ∧
  priorityFor m' = priorityFor m ∧ nextSequence m' = nextSequence m + 1 ∧
  let entry := mkEntry env (rank m (message env)) (nextSequence m) in
  ((∃ shed, ordered (insert env m) ≡ₚ shed :: ordered m' ∧ sublist (ordered m') (ordered (insert env m)) ∧
      undroppable (envelope shed) = false ∧
      Forall (λ x, undroppable (envelope x) = true ∨ before x shed) (ordered m') ∧
      drops m' = drops m ++ [(if sequence shed =? nextSequence m then drop_new else drop_head,
                              envelope shed)]) ∨
   (ordered m' = ordered (insert env m) ∧ drops m' = drops m ∧
    Forall (λ x, undroppable (envelope x) = true) (entry :: ordered m))).
Proof.
  intros Hwf. destruct (insert_spec env m Hwf) as (Hord & Hwf1 & Hnext & Hpf & Hcap & Hovf & Hdr).
  unfold shedLeastImportant, removeOldest. pose proof (splice_spec (ordered (insert env m))) as Hsp.
  destruct (splice_last_droppable (ordered (insert env m))) as [[shed|] l'].
  - destruct Hsp as (Hd & Hp & Hs & l1 & l2 & Heq & -> & Hl2).
    pose proof (wf_sublist _ _ Hwf1 Hs) as (? & ? & Hc). simpl in *.
    split_and!; try done.
    + split_and!; simpl; [done|done|]. rewrite length_app, Hc. simpl. lia.
    + left. exists shed. split_and!; try done; [|by rewrite Hdr].
      destruct Hwf1 as (Hsorted & _). rewrite Heq in Hsorted.
      apply Forall_app. split.
      * clear -Hsorted. induction l1 as [|x l1 IH]; [constructor|].
        simpl in Hsorted. inversion Hsorted as [|? ? ? Hx]; subst. constructor; [|by apply IH].
        right. rewrite Forall_forall in Hx. apply Hx. set_solver.
      * eapply Forall_impl; [exact Hl2|]. by left.
  - destruct Hsp as [-> Hall]. destruct (insert env m) eqn:Ei. simpl in *. subst.
    split_and!; try done. right. split_and!; [done|done|].
    by rewrite <-insert_ref_Permutation.
Qed.

Lemma shed_load env m cap :
  wf m → 0 ≤ cap → load (ordered m) ≤ cap → load (ordered (shedLeastImportant env m)) ≤ cap.
Proof.
  intros Hwf Hcap Hl. destruct (insert_spec env m Hwf) as (Hord & _).
  destruct (shed_spec env m Hwf) as (_ & _ & _ & _ & _ & [(shed & Hp & _ & Hu & _)|(Heq & _ & Hall)]).
  - apply load_Permutation in Hp. rewrite load_cons, Hu, Hord in Hp.
    rewrite (load_Permutation _ _ (insert_ref_Permutation _ _)), load_cons in Hp.
    case_match; lia.
  - rewrite Heq, Hord, (load_Permutation _ _ (insert_ref_Permutation _ _)).
    rewrite load_zero; done.
Qed.

(** ** Reachable states *)

Inductive step : PriorityMailbox T → PriorityMailbox T → Prop :=
| step_enqueue env m : step m (enqueue env m).1
| step_signal env m : undroppable env = true → step m (enqueueSignal env m)
| step_dequeue m : step m (dequeueUser m).2
| step_suspended b m : step m (mkPriority (priorityFor m) (capacity m) (overflow m) (nextSequence m)
    (ordered m) b (droppedCount m) (drops m) (priorityErrors m))
| step_drain m : step m (drainUser m).2.

Definition positive_capacity m : Prop :=
  match capacity m with Some cap => 0 < cap | None => True end.

Definition invariant m : Prop := wf m ∧ within_capacity m ∧ positive_capacity m.

Lemma insert_invariant env m :
  invariant m →
  undroppable env = true ∨ (∀ cap, capacity m = Some cap → Z.of_nat (length (ordered m)) < cap) →
  invariant (insert env m).
Proof.
  intros (Hwf & Hin & Hpos) Hroom.
  destruct (insert_spec env m Hwf) as (Hord & ? & _ & _ & Hcap & _).
  unfold invariant, within_capacity, positive_capacity in *. rewrite Hcap. split_and!; [done| |done].
  destruct (capacity m) as [cap|]; [|done].
  rewrite Hord, (load_Permutation _ _ (insert_ref_Permutation _ _)), load_cons. simpl.
  destruct Hroom as [->|Hroom]; [lia|]. specialize (Hroom cap eq_refl).
  assert (load (ordered m) ≤ Z.of_nat (length (ordered m))).
  { unfold load. pose proof (droppables_le (envelope <$> ordered m)) as Hle.
    rewrite length_fmap in Hle. lia. }
  case_match; lia.
Qed.

Lemma enqueue_invariant env m : invariant m → invariant (enqueue env m).1.
Proof.
  intros Hinv. pose proof Hinv as (Hwf & Hin & Hpos). unfold enqueue.
  destruct (capacity m) as [cap|] eqn:Ecap.
  2:{ apply insert_invariant; [done|]. right. congruence. }
  destruct (Z.geb_spec (Z.of_nat (length (ordered m))) cap).
  2:{ apply insert_invariant; [done|]. right. intros ??. simplify_eq. lia. }
  destruct (overflow m); simpl; [| |done].
  - destruct (shed_spec env m Hwf) as (? & Hc & _).
    unfold invariant, within_capacity, positive_capacity in *. rewrite Hc, Ecap in *.
    split_and!; [done| |done]. apply shed_load; [done|lia|done].
  - unfold invariant, within_capacity, positive_capacity in *. simpl. split_and!; [|done|done].
    destruct Hwf as (? & ? & Hd). split_and!; simpl; [done|done|]. rewrite length_app, Hd. simpl. lia.
Qed.

Lemma sublist_invariant m l : invariant m → sublist l (ordered m) → invariant (with_ordered m l).
Proof.
  intros (Hwf & Hin & Hpos) Hl. split_and!; [by apply wf_sublist| |done].
  unfold within_capacity in *. simpl. destruct (capacity m); [|done].
  etrans; [|exact Hin]. unfold load, droppables. apply Nat2Z.inj_le, sublist_length, sublist_filter.
  clear -Hl. induction Hl; simpl; by constructor.
Qed.

Lemma priority_step_invariant m m' : step m m' → invariant m → invariant m'.
Proof.
  intros Hstep Hinv. destruct Hstep as [env m|env m He|m|b m|m].
  - by apply enqueue_invariant.
  - apply insert_invariant; [done|by left].
  - unfold dequeueUser. destruct (suspended m); [done|].
    destruct (ordered m) as [|e l] eqn:E; [done|]. simpl.
    apply sublist_invariant; [done|]. rewrite E. by apply sublist_cons.
  - done.
  - apply sublist_invariant; [done|]. apply sublist_nil_l.
Qed.

Lemma construct_invariant pf cap ovf :
  match cap with Some c => 0 < c | None => True end → invariant (construct pf cap ovf).
Proof.
  intros Hc. split_and!; [split_and!; [constructor|constructor|done]| |by destruct cap].
  unfold within_capacity. destruct cap as [c|]; [|done]. unfold load. simpl. lia.
Qed.

Lemma reachable_invariant pf cap ovf m :
  match cap with Some c => 0 < c | None => True end →
  rtc step (construct pf cap ovf) m → invariant m.
Proof.
  intros Hc Hreach. pose proof (construct_invariant pf cap ovf Hc) as H0. revert H0 Hreach.
  generalize (construct pf cap ovf). intros m0 H0 Hreach.
  induction Hreach as [|m0 m1 m2 Hs _ IH]; [done|]. by eapply IH, priority_step_invariant.
Qed.

(** The reachable capacity is the configured one. *)
Lemma step_capacity m m' : step m m' → invariant m → capacity m' = capacity m.
Proof.
  intros Hstep (Hwf & _). destruct Hstep as [env m|env m He|m|b m|m]; try done.
  - unfold enqueue. destruct (insert_spec env m Hwf) as (_ & _ & _ & _ & Hc & _).
    destruct (capacity m) as [cap|] eqn:E; [|done]. case_match; [|done].
    destruct (overflow m); simpl; [|done|done]. by destruct (shed_spec env m Hwf) as (_ & -> & _).
  - by destruct (insert_spec env m Hwf) as (_ & _ & _ & _ & Hc & _).
  - unfold dequeueUser. destruct (suspended m); [done|]. by destruct (ordered m).
Qed.

Lemma reachable_capacity pf cap ovf m :
  match cap with Some c => 0 < c | None => True end →
  rtc step (construct pf cap ovf) m → capacity m = cap.
Proof.
  intros Hc Hreach. pose proof (construct_invariant pf cap ovf Hc) as H0.
  assert (capacity (construct pf cap ovf) = cap) as Hc0 by done. revert H0 Hc0 Hreach.
  generalize (construct pf cap ovf). intros m0 H0 Hc0 Hr.
  induction Hr as [|m0 m1 m2 Hs _ IH]; [done|].
  apply IH; [by eapply priority_step_invariant|]. by rewrite (step_capacity m0 m1 Hs).
Qed.

(** Filling a queue that has [length pre] free places. *)
Lemma prepend_fits pre rest m cap :
  wf m → capacity m = Some cap → overflow m = Reject →
  Forall (λ e, undroppable e = false) pre →
  Z.of_nat (length (ordered m) + length pre) ≤ cap →
  ∃ m', prependUser (pre ++ rest) m = prependUser rest m' ∧ wf m' ∧
        capacity m' = Some cap ∧ overflow m' = Reject ∧
        envelopes m' ≡ₚ envelopes m ++ pre ∧ drops m' = drops m.
Proof.
  intros Hwf Hcap Hovf Hpre. revert m Hwf Hcap Hovf.
  induction Hpre as [|e pre He _ IH]; intros m Hwf Hcap Hovf Hroom; simpl in *.
  { exists m. split_and!; try done. by rewrite app_nil_r. }
  rewrite He. unfold enqueue at 1. rewrite Hcap.
  destruct (Z.geb_spec (Z.of_nat (length (ordered m))) cap); [lia|].
  destruct (insert_spec e m Hwf) as (Hord & Hwf' & _ & _ & Hcap' & Hovf' & Hd).
  destruct (IH (insert e m)) as (m' & ? & ? & ? & ? & Hp & Hd'); [done|congruence|congruence| |].
  { rewrite Hord, (Permutation_length (insert_ref_Permutation _ _)). simpl. lia. }
  exists m'. split_and!; try done; [|congruence].
  rewrite Hp. unfold envelopes. rewrite Hord, insert_ref_Permutation. simpl.
  by rewrite <-Permutation_middle.
Qed.

Lemma envelopes_length m : length (envelopes m) = length (ordered m).
Proof. apply length_fmap. Qed.

(** In every reachable state of a priority mailbox, whatever its priority
    function throws or returns, the binary search places an arrival exactly
    where the reference walk does, and the delivered message is one with no
    smaller rank queued, the first to arrive among its equals; a message that
    cannot be ranked gets the lowest rank. *)
Theorem priority_delivery_order (pf : T → priority_answer) (cap : option Z)
    (ovf : option PriorityMailboxOverflow) (m : PriorityMailbox T) (env : Envelope T) :
  match cap with Some c => 0 < c | None => True end →
  rtc step (construct pf cap ovf) m →
  ordered (insert env m)
    = insert_ref (mkEntry env (rank m (message env)) (nextSequence m)) (ordered m) ∧
  (suspended m = true → dequeueUser m = (None, m)) ∧
  (suspended m = false → ordered m = [] → dequeueUser m = (None, m)) ∧
  (suspended m = false → ∀ e rest, ordered m = e :: rest →
     dequeueUser m = (Some (envelope e), with_ordered m rest) ∧
     Forall (λ x, number_lt (rank m (message (envelope e))) (rank m (message (envelope x))) = true ∨
                  (rank m (message (envelope e)) = rank m (message (envelope x)) ∧
                   sequence e < sequence x)) rest) ∧
  (∀ x, priorityFor m x = PriorityThrew ∨ priorityFor m x = NotANumber ∨ priorityFor m x = Priority NaN →
     rank m x = Num MAX_SAFE_INTEGER).
Proof.
  intros Hc Hreach. pose proof (reachable_invariant pf cap ovf m Hc Hreach) as (Hwf & _).
  split_and!.
  - by destruct (insert_spec env m Hwf) as (? & _).
  - intros Hs. unfold dequeueUser. by rewrite Hs.
  - intros Hs Ho. unfold dequeueUser. by rewrite Hs, Ho.
  - intros Hs e rest Ho. unfold dequeueUser. rewrite Hs, Ho. split; [done|].
    destruct Hwf as (Hsorted & Hall & _). rewrite Ho in *.
    inversion Hsorted as [|? ? _ Hbefore]; subst.
    apply Forall_cons in Hall as [(_ & _ & He) Hall].
    rewrite Forall_forall in *. intros x Hx. destruct (Hall x Hx) as (_ & _ & Hr).
    rewrite <-He, <-Hr. destruct (proj1 (before_spec e x) (Hbefore x Hx)) as [?|[Heq ?]]; [by left|].
    right. split; [by apply number_eqb_eq|done].
  - unfold rank, UNRANKABLE_PRIORITY. by intros x [->|[->| ->]].
Qed.

(** The optional bound of the priority mailbox holds in every reachable
    state, up to undroppable envelopes, and what [drop-lowest-priority] sheds
    is a droppable message that no remaining droppable message ranks behind,
    reported as [drop-new] exactly when it is the arrival. *)
Theorem priority_bound (pf : T → priority_answer) (c : Z)
    (ovf : option PriorityMailboxOverflow) (m : PriorityMailbox T) (env : Envelope T) :
  0 < c → rtc step (construct pf (Some c) ovf) m →
  Z.of_nat (length (envelopes m)) ≤ c + Z.of_nat (length (signals (envelopes m))) ∧
  droppedCount m = Z.of_nat (length (drops m)) ∧
  ∀ reason shed, drops (shedLeastImportant env m) = drops m ++ [(reason, shed)] →
    ∃ e, envelope e = shed ∧ undroppable shed = false ∧
      e :: ordered (shedLeastImportant env m) ≡ₚ
        mkEntry env (rank m (message env)) (nextSequence m) :: ordered m ∧
      (reason = drop_new ↔ sequence e = nextSequence m) ∧
      Forall (λ x, undroppable (envelope x) = true ∨ before x e) (ordered (shedLeastImportant env m)).
Proof.
  intros Hc Hreach.
  pose proof (reachable_invariant pf (Some c) ovf m Hc Hreach) as (Hwf & Hin & _).
  pose proof (reachable_capacity pf (Some c) ovf m Hc Hreach) as Hcap.
  unfold within_capacity in Hin. rewrite Hcap in Hin. split_and!.
  - rewrite (droppables_signals_length (envelopes m)). unfold load in Hin. fold (envelopes m) in Hin. lia.
  - by destruct Hwf as (_ & _ & ?).
  - intros reason shed Hdrops. destruct (insert_spec env m Hwf) as (Hord & _).
    destruct (shed_spec env m Hwf) as (_ & _ & _ & _ & _ & [(e & Hp & _ & Hu & Hall & Hd)|(_ & Hd & _)]).
    + rewrite Hd in Hdrops. apply app_inv_head in Hdrops as [= <- <-].
      exists e. split_and!; try done.
      * by rewrite <-Hp, Hord, insert_ref_Permutation.
      * destruct (Z.eqb_spec (sequence e) (nextSequence m)); naive_solver.
    + rewrite Hd in Hdrops. apply (f_equal length) in Hdrops.
      rewrite length_app in Hdrops. simpl in Hdrops. lia.
Qed.

End ops.

(** A mailbox of capacity 2 ranking a number by itself; 9 cannot be ranked. *)
Definition rank_self (n : nat) : priority_answer :=
  if Nat.eqb n 9 then PriorityThrew else Priority (Num (Z.of_nat n)).

Definition priority_example (ovf : PriorityMailboxOverflow) : PriorityMailbox nat :=
  (enqueue (BoundedMailbox.user_env 3)
    (enqueue (BoundedMailbox.user_env 9) (construct rank_self (Some 2) (Some ovf))).1).1.

Lemma priority_example_reachable ovf :
  rtc step (construct rank_self (Some 2) (Some ovf)) (priority_example ovf).
Proof.
  eapply rtc_l; [apply (step_enqueue (BoundedMailbox.user_env 9))|].
  eapply rtc_l; [apply (step_enqueue (BoundedMailbox.user_env 3))|]. apply rtc_refl.
Qed.

Lemma priority_delivery_order_witness :
  (dequeueUser (priority_example Reject)).1 = Some (BoundedMailbox.user_env 3) ∧
  rank (priority_example Reject) 9%nat = Num MAX_SAFE_INTEGER.
Proof.
  destruct (priority_delivery_order rank_self (Some 2) (Some Reject) (priority_example Reject)
    (BoundedMailbox.user_env 1)) as (_ & _ & _ & Hd & Hr);
    [done|apply priority_example_reachable|].
  split; [|by apply Hr; left].
  destruct (Hd eq_refl (mkEntry (BoundedMailbox.user_env 3) (Num 3) 1)
    [mkEntry (BoundedMailbox.user_env 9) UNRANKABLE_PRIORITY 0]) as [-> _]; reflexivity.
Defined.

Lemma priority_bound_witness :
  envelopes (shedLeastImportant (BoundedMailbox.user_env 5) (priority_example DropLowestPriority))
    = [BoundedMailbox.user_env 3; BoundedMailbox.user_env 5] ∧
  ∃ e, envelope e = BoundedMailbox.user_env 9 ∧ undroppable (envelope e) = false.
Proof.
  split; [vm_compute; reflexivity|].
  destruct (priority_bound rank_self 2 (Some DropLowestPriority) (priority_example DropLowestPriority)
    (BoundedMailbox.user_env 5)) as (_ & _ & H); [done|apply priority_example_reachable|].
  destruct (H drop_head (BoundedMailbox.user_env 9)) as (e & He & Hu & _); [vm_compute; reflexivity|].
  exists e. split; [done|]. by rewrite He.
Defined.

End PriorityMailbox.

(** ** Replaying a stash *)

Module Unstash.

Section unstash.
Context {MB T : Type}.
Variable prepend : list (Envelope T) → MB → call MB.

(** The part of the cell [unstashAll] works on. *)
Record StashingCell := mkCell {
  stashBuffer : list (Envelope T);
  mailbox : MB;
}.

(** [{ ...env, replayed: true }]. *)
Definition mark_replayed (e : Envelope T) : Envelope T :=
  mkEnvelope (message e) (sender e) true (undroppable e).

(** [unstashAll]: on a throw the whole batch goes back to the stash. *)
Definition unstashAll (c : StashingCell) : call StashingCell :=
  match stashBuffer c with
  | [] => (c, None)
  | drained =>
      match prepend (mark_replayed <$> drained) (mailbox c) with
      | (mb, None) => (mkCell [] mb, None)
      | (mb, Some cause) => (mkCell drained mb, Some cause)
      end
  end.
End unstash.

Arguments mkCell {MB T}.
Arguments stashBuffer {MB T}.
Arguments mailbox {MB T}.

(** With a [BoundedMailbox], [unstashAll] never duplicates or loses a
    message: after it, every stashed envelope is in exactly one place, still in
    the stash (it threw), or in the queue, or among the reported drops. *)
Theorem bounded_unstash_exactly_once {Q : Type → Type} `{!Fifo Q, !FifoLaws Q} {T : Type}
    (c : StashingCell (MB:=BoundedMailbox.BoundedMailbox Q T) (T:=T)) :
  BoundedMailbox.wf (mailbox c) →
  Mailbox.fits (Z.of_nat (length (stashBuffer c))) (BoundedMailbox.base_of (mailbox c)) →
  let '(c', err) := unstashAll BoundedMailbox.prependUser c in
  match err with
  | Some _ => c' = c
  | None => stashBuffer c' = [] ∧ ∃ log,
      DroppingMailbox.drops (BoundedMailbox.dropping (mailbox c'))
        = DroppingMailbox.drops (BoundedMailbox.dropping (mailbox c)) ++ log ∧
      (mark_replayed <$> stashBuffer c) ++ BoundedMailbox.users (mailbox c)
        ≡ₚ BoundedMailbox.users (mailbox c') ++ (snd <$> log)
  end.
Proof.
  intros Hwf Hfit. unfold unstashAll. destruct c as [[|e stash] mb]; cbn [stashBuffer mailbox] in *.
  { split; [done|]. exists []. by rewrite !app_nil_r. }
  pose proof (BoundedMailbox.prependUser_spec (mark_replayed <$> e :: stash) mb Hwf) as Hspec.
  rewrite length_fmap in Hspec. specialize (Hspec Hfit).
  destruct (BoundedMailbox.prependUser (mark_replayed <$> e :: stash) mb) as [mb' [[cap]|]].
  - by destruct Hspec as (-> & _).
  - destruct Hspec as (adm & kept & log & _ & Hu & _ & Hd & Hstep & _). split; [done|].
    exists log. split; [done|]. cbn [stashBuffer mailbox]. rewrite Hu.
    destruct Hstep as (ln & lo & _ & Hp1 & _ & Hp2 & _ & Hlog).
    rewrite Hp1, Hp2, Hlog, fmap_app, <-!list_fmap_compose.
    assert (∀ (r : MailboxDropReason) (l : list (Envelope T)), snd ∘ pair r <$> l = l) as Hid.
    { intros r l. induction l as [|x l IH]; [done|]. rewrite fmap_cons, IH. done. }
    rewrite !Hid, <-!(assoc_L (++)). f_equiv. rewrite !(assoc_L (++)). f_equiv. apply Permutation_app_comm.
Qed.

(** With a full-sized [PriorityMailbox] under [reject] it is not so: when
    the queue has room for a proper, nonempty part of the stash, [unstashAll]
    throws after admitting that part and puts the whole batch back into the
    stash, so the admitted messages are queued and stashed at once. *)
Theorem priority_unstash_duplicates {T : Type} (c : StashingCell (MB:=PriorityMailbox.PriorityMailbox T) (T:=T))
    (cap : Z) (room : nat) :
  PriorityMailbox.wf (mailbox c) →
  PriorityMailbox.capacity (mailbox c) = Some cap →
  PriorityMailbox.overflow (mailbox c) = Reject →
  Forall (λ e, undroppable e = false) (stashBuffer c) →
  PriorityMailbox.size (mailbox c) + Z.of_nat room = cap →
  (0 < room < length (stashBuffer c))%nat →
  let '(c', err) := unstashAll PriorityMailbox.prependUser c in
  err = Some (MailboxFullError cap) ∧ stashBuffer c' = stashBuffer c ∧
  PriorityMailbox.envelopes (mailbox c')
    ≡ₚ PriorityMailbox.envelopes (mailbox c) ++ (mark_replayed <$> take room (stashBuffer c)).
Proof.
  intros Hwf Hcap Hovf Hdrop Hsize Hroom. unfold unstashAll. destruct c as [stash mb]. cbn [stashBuffer mailbox] in *.
  assert (prepend_eq : ∀ l : list (Envelope T), mark_replayed <$> l = mark_replayed <$> take room l ++ drop room l)
    by (intros l; by rewrite take_drop).
  destruct stash as [|e0 stash0]; [cbn [length] in *; lia|].
  set (stash := e0 :: stash0) in *. clearbody stash.
  rewrite (prepend_eq stash), fmap_app.
  destruct (PriorityMailbox.prepend_fits (mark_replayed <$> take room stash)
    (mark_replayed <$> drop room stash) mb cap) as (mb' & -> & Hwf' & Hcap' & Hovf' & Hp & _);
    [done..| |rewrite length_fmap, length_take; unfold PriorityMailbox.size in Hsize; lia|].
  { apply Forall_fmap. apply Forall_take. done. }
  destruct (drop room stash) as [|e rest] eqn:Edrop.
  { apply (f_equal length) in Edrop. rewrite length_drop in Edrop. simpl in Edrop. lia. }
  simpl. assert (undroppable e = false) as ->.
  { apply (Forall_drop _ room) in Hdrop. rewrite Edrop in Hdrop. by inversion Hdrop. }
  unfold PriorityMailbox.enqueue. rewrite Hcap'.
  assert (length (PriorityMailbox.ordered mb') = length (PriorityMailbox.ordered mb) + room)%nat as ->.
  { rewrite <-!PriorityMailbox.envelopes_length, (Permutation_length Hp), length_app, length_fmap,
      length_take. lia. }
  unfold PriorityMailbox.size in Hsize.
  destruct (Z.geb_spec (Z.of_nat (length (PriorityMailbox.ordered mb) + room)) cap); [|lia].
  by rewrite Hovf'.
Qed.

Lemma bounded_unstash_exactly_once_witness :
  stashBuffer (unstashAll BoundedMailbox.prependUser
    (mkCell [BoundedMailbox.user_env 8; BoundedMailbox.user_env 9]
       (BoundedMailbox.full_example OverflowReject))).1
    = [BoundedMailbox.user_env 8; BoundedMailbox.user_env 9].
Proof.
  pose proof (bounded_unstash_exactly_once
    (mkCell [BoundedMailbox.user_env 8; BoundedMailbox.user_env 9]
       (BoundedMailbox.full_example OverflowReject))
    (BoundedMailbox.full_example_wf OverflowReject) ltac:(vm_compute; congruence)) as H.
  assert ((unstashAll BoundedMailbox.prependUser
    (mkCell [BoundedMailbox.user_env 8; BoundedMailbox.user_env 9]
       (BoundedMailbox.full_example OverflowReject))).2 = Some (MailboxFullError 2)) as E
    by (vm_compute; reflexivity).
  destruct (unstashAll _ _) as [c' err]. cbn [fst snd] in *. subst err. by rewrite H.
Defined.

(** One free place, two stashed messages. *)
Lemma priority_unstash_duplicates_witness :
  let m := (PriorityMailbox.enqueue (BoundedMailbox.user_env 3)
    (PriorityMailbox.construct PriorityMailbox.rank_self (Some 2) (Some Reject))).1 in
  let stash := [BoundedMailbox.user_env 4; BoundedMailbox.user_env 5] in
  stashBuffer (unstashAll PriorityMailbox.prependUser (mkCell stash m)).1 = stash ∧
  PriorityMailbox.envelopes (mailbox (unstashAll PriorityMailbox.prependUser (mkCell stash m)).1)
    ≡ₚ [BoundedMailbox.user_env 3; mark_replayed (BoundedMailbox.user_env 4)].
Proof.
  intros m stash.
  assert (PriorityMailbox.wf m) as Hwf.
  { apply (PriorityMailbox.reachable_invariant PriorityMailbox.rank_self (Some 2) (Some Reject)); [done|].
    eapply rtc_l; [apply (PriorityMailbox.step_enqueue (BoundedMailbox.user_env 3))|]. apply rtc_refl. }
  pose proof (priority_unstash_duplicates (mkCell stash m) 2 1 Hwf eq_refl eq_refl
    ltac:(repeat constructor) ltac:(vm_compute; reflexivity) ltac:(cbn; lia)) as H.
  destruct (unstashAll PriorityMailbox.prependUser (mkCell stash m)) as [c' err].
  cbn [fst snd] in *. destruct H as (_ & ? & ?). split; [assumption|assumption].
Defined.

End Unstash.
