(* ===== verification/Json.v ===== *)
(** * JSON values and the wire checks of [src/crdt/CrdtWireValidation.ts]

    A frame that came off the wire is a [json] value; every check either
    returns the value at its type or throws.  The texts of the error messages
    are left out, their kinds are kept. *)

From S2P Require Import Prelude.
From stdpp Require Import sorting.
From Stdlib Require Import Ascii.

Local Open Scope Z_scope.

Set Warnings "-register-all".

(** The fields of an object, in the order [Object.entries] lists them. *)
Inductive json : Type :=
| JNull
| JBool (b : bool)
| JNumber (n : number)
| JString (s : string)
| JArray (l : list json)
| JObject (fields : list (string * json)).

(** What a decoder throws: its own error, a plain [Error] for a wrong [kind],
    or the [TypeError] of a property read on [null]. *)
Inductive CrdtError := CrdtDecodeError | UnexpectedKind | TypeError | SyntaxError.

(** ** [src/crdt/Constants.ts] *)

Definition MAX_CRDT_ENTRIES : Z := 4096.
Definition MAX_COUNTER_SLOT : Z := MAX_SAFE_INTEGER / MAX_CRDT_ENTRIES.
Definition MAX_MV_REGISTER_ENTRIES : Z := 256.
Definition MAX_TIMESTAMP_SKEW_MS : Z := 5 * 60000.

(** ** Reading an object *)

Fixpoint find_field (name : string) (fields : list (string * json)) : option json :=
  match fields with
  | [] => None
  | (k, v) :: fields => if bool_decide (k = name) then Some v else find_field name fields
  end.

(** [value.name]: [undefined] (here [None]) for a missing property or a
    primitive, a [TypeError] on [null] and [undefined]. *)
Definition get_property (value : option json) (name : string) : result CrdtError (option json) :=
  match value with
  | None | Some JNull => Err TypeError
  | Some (JObject fields) => Ok (find_field name fields)
  | Some _ => Ok None
  end.

(** [if (json.kind !== kind) throw]. *)
Definition expect_kind (kind : string) (value : option json) : result CrdtError unit :=
  k ← get_property value "kind";
  throw_if (negb (match k with Some (JString s) => bool_decide (s = kind) | _ => false end)) UnexpectedKind.

(** ** The assertions *)

Definition assertPlainObject (value : option json) : result CrdtError (list (string * json)) :=
  match value with
  | Some (JObject fields) => Ok fields
  | _ => Err CrdtDecodeError
  end.

Definition safeEntries (source : list (string * json)) : result CrdtError (list (string * json)) :=
  _ ← throw_if (Z.of_nat (length source) >? MAX_CRDT_ENTRIES) CrdtDecodeError;
  _ ← throw_if (existsb (λ e, bool_decide (e.1 = "__proto__")) source) CrdtDecodeError;
  Ok source.

Definition assertFiniteNumber (value : option json) : result CrdtError number :=
  match value with
  | Some (JNumber n) => _ ← throw_if (negb (Number_isFinite n)) CrdtDecodeError; Ok n
  | _ => Err CrdtDecodeError
  end.

Definition assertCounterValue (value : option json) : result CrdtError Z :=
  n ← assertFiniteNumber value;
  match n with
  | Num z =>
      _ ← throw_if (negb (Number_isSafeInteger n) || (z <? 0)) CrdtDecodeError;
      _ ← throw_if (z >? MAX_COUNTER_SLOT) CrdtDecodeError;
      Ok z
  | _ => Err CrdtDecodeError
  end.

Definition assertString (value : option json) : result CrdtError string :=
  match value with Some (JString s) => Ok s | _ => Err CrdtDecodeError end.

(** Every entry, or none: the [findIndex] over the entries. *)
Fixpoint all_strings (l : list json) : option (list string) :=
  match l with
  | [] => Some []
  | JString s :: l => match all_strings l with Some ss => Some (s :: ss) | None => None end
  | _ => None
  end.

Definition assertBoundedArray (value : option json) (limit : Z) : result CrdtError (list json) :=
  match value with
  | Some (JArray l) => _ ← throw_if (Z.of_nat (length l) >? limit) CrdtDecodeError; Ok l
  | _ => Err CrdtDecodeError
  end.

Definition assertStringArray (value : option json) : result CrdtError (list string) :=
  match value with
  | Some (JArray l) =>
      _ ← throw_if (Z.of_nat (length l) >? MAX_CRDT_ENTRIES) CrdtDecodeError;
      match all_strings l with Some ss => Ok ss | None => Err CrdtDecodeError end
  | _ => Err CrdtDecodeError
  end.

Definition assertPlausibleTimestamp (value : option json) (now : Z) : result CrdtError Z :=
  n ← assertFiniteNumber value;
  match n with
  | Num z =>
      _ ← throw_if (z <? 0) CrdtDecodeError;
      _ ← throw_if (z >? now + MAX_TIMESTAMP_SKEW_MS) CrdtDecodeError;
      Ok z
  | _ => Err CrdtDecodeError
  end.

(** ** Loops that may throw *)

(** [for (const x of xs) state = f(state, x)]. *)
Fixpoint for_of {E S X : Type} (f : S → X → result E S) (xs : list X) (state : S) : result E S :=
  match xs with
  | [] => Ok state
  | x :: xs => s ← f state x; for_of f xs s
  end.

(** An invariant of the body is an invariant of the loop. *)
Lemma for_of_invariant {E S X} (f : S → X → result E S) (P : S → Prop) xs s s' :
  (∀ s x s', P s → x ∈ xs → f s x = Ok s' → P s') → P s → for_of f xs s = Ok s' → P s'.
Proof.
  revert s. induction xs as [|x xs IH]; intros s Hf Hs Hloop; cbn in Hloop; unbind; [by subst|].
  eapply IH; [|eapply Hf; [exact Hs|by left|exact Hok]|exact Hloop].
  intros. eapply Hf; [done|by right|done].
Qed.

Lemma for_of_fmap {E S X Y} (f : S → Y → result E S) (g : X → Y) xs s :
  for_of f (g <$> xs) s = for_of (λ s x, f s (g x)) xs s.
Proof.
  revert s. induction xs as [|x xs IH]; intros s; [done|]. rewrite fmap_cons. cbn.
  destruct (f s (g x)); [apply IH|done].
Qed.

(** A loop whose body cannot throw is a fold. *)
Lemma for_of_foldl {E S X} (f : S → X → result E S) (g : S → X → S) xs s :
  (∀ s x, x ∈ xs → f s x = Ok (g s x)) → for_of f xs s = Ok (foldl g s xs).
Proof.
  revert s. induction xs as [|x xs IH]; intros s Hf; cbn; [done|].
  rewrite Hf by (by left). cbn. apply IH. intros. apply Hf. by right.
Qed.

(** A loop one of whose rounds throws [e], and none anything else, throws [e]. *)
Lemma for_of_error {E S X} (f : S → X → result E S) (e : E) xs s :
  (∀ s x, x ∈ xs → f s x = Err e ∨ ∃ s', f s x = Ok s') →
  (∃ x, x ∈ xs ∧ ∀ s, f s x = Err e) → for_of f xs s = Err e.
Proof.
  revert s. induction xs as [|x xs IH]; intros s Hf (y & Hy & Herr); cbn; [by apply elem_of_nil in Hy|].
  destruct (Hf s x) as [->|[s' Hs']]; [by left|done|]. rewrite Hs'. cbn. apply IH.
  - intros. apply Hf. by right.
  - apply elem_of_cons in Hy as [->|Hy]; [by rewrite Herr in Hs'|]. by exists y.
Qed.

(** ** Facts about the checks *)

Lemma assertCounterValue_Ok v z :
  assertCounterValue v = Ok z ↔ v = Some (JNumber (Num z)) ∧ 0 ≤ z ≤ MAX_COUNTER_SLOT.
Proof.
  unfold assertCounterValue, assertFiniteNumber. split.
  - intros H. destruct v as [[| |[| | |x]| | |]|]; try done. unbind. subst. unbind. subst.
    guards. split; [done|lia].
  - intros [-> Hz]. cbn. unfold MAX_COUNTER_SLOT in *.
    assert (MAX_SAFE_INTEGER / MAX_CRDT_ENTRIES ≤ MAX_SAFE_INTEGER) as Hle by (vm_compute; congruence).
    destruct (Z.leb_spec (- MAX_SAFE_INTEGER) z); [|unfold MAX_SAFE_INTEGER in *; lia].
    destruct (Z.leb_spec z MAX_SAFE_INTEGER); [|lia].
    destruct (Z.ltb_spec z 0); [lia|]. cbn.
    destruct (Z.gtb_spec z (MAX_SAFE_INTEGER / MAX_CRDT_ENTRIES)); [lia|done].
Qed.

Lemma assertPlausibleTimestamp_Ok v now z :
  assertPlausibleTimestamp v now = Ok z ↔
    v = Some (JNumber (Num z)) ∧ 0 ≤ z ≤ now + MAX_TIMESTAMP_SKEW_MS.
Proof.
  unfold assertPlausibleTimestamp, assertFiniteNumber. split.
  - intros H. destruct v as [[| |[| | |x]| | |]|]; try done. unbind. subst. unbind. subst. guards.
    split; [done|lia].
  - intros [-> Hz]. cbn. destruct (Z.ltb_spec z 0); [lia|]. cbn.
    destruct (Z.gtb_spec z (now + MAX_TIMESTAMP_SKEW_MS)); [lia|done].
Qed.

Lemma safeEntries_Ok es es' :
  safeEntries es = Ok es' ↔
    es' = es ∧ Z.of_nat (length es) ≤ MAX_CRDT_ENTRIES ∧ "__proto__" ∉ es.*1.
Proof.
  unfold safeEntries.
  assert (existsb (λ e : string * json, bool_decide (e.1 = "__proto__")) es = false
          ↔ "__proto__" ∉ es.*1) as Hproto.
  { rewrite <-not_true_iff_false, existsb_exists. split.
    - intros Hn ([k v] & Hk & Hin)%list_elem_of_fmap. apply Hn. exists (k, v). cbn in *.
      split; [by apply list_elem_of_In|]. apply bool_decide_eq_true. done.
    - intros Hn ([k v] & Hin & Hk). apply bool_decide_eq_true in Hk. apply Hn.
      apply list_elem_of_fmap. exists (k, v). split; [done|by apply list_elem_of_In]. }
  split.
  - intros H. unbind. subst. guards.
    split_and!; [done|lia|by apply Hproto].
  - intros (-> & Hlen & Hp). apply Hproto in Hp. rewrite Hp.
    destruct (Z.gtb_spec (Z.of_nat (length es)) MAX_CRDT_ENTRIES); [lia|done].
Qed.

Lemma all_strings_fmap ss : all_strings (JString <$> ss) = Some ss.
Proof. induction ss as [|s ss IH]; [done|]. rewrite fmap_cons. cbn. by rewrite IH. Qed.

Lemma assertStringArray_strings ss :
  Z.of_nat (length ss) ≤ MAX_CRDT_ENTRIES →
  assertStringArray (Some (JArray (JString <$> ss))) = Ok ss.
Proof.
  intros Hlen. unfold assertStringArray. rewrite length_fmap, all_strings_fmap.
  destruct (Z.gtb_spec (Z.of_nat (length ss)) MAX_CRDT_ENTRIES); [lia|done].
Qed.

(** ** [JSON.stringify] and [JSON.parse] on the elements of a collection

    Elements and keys travel as JSON text.  What the code relies on is that
    parsing undoes stringifying; [text_of] is the string conversion
    [JSON.parse] applies to an argument that is not a string. *)

Class JsonText (K : Type) := {
  stringify : K → string;
  parse : string → option K;
  text_of : json → string;
  parse_stringify k : parse (stringify k) = Some k;
  text_of_string s : text_of (JString s) = s;
}.

Definition JSON_parse `{!JsonText K} (text : json) : result CrdtError K :=
  match parse (text_of text) with Some k => Ok k | None => Err SyntaxError end.

Lemma JSON_parse_stringify `{!JsonText K} (k : K) : JSON_parse (JString (stringify k)) = Ok k.
Proof. unfold JSON_parse. by rewrite text_of_string, parse_stringify. Qed.

(** [json.keyValues?.[id]]: absent when either is. *)
Definition optional_entry (table : option json) (id : string) : option json :=
  match table with Some (JObject fields) => find_field id fields | _ => None end.

(** The key of an entry: its own text, or the id when no text was sent. *)
Definition entry_key `{!JsonText K} (keyValues : option json) (wireId : string) : result CrdtError K :=
  JSON_parse (default (JString wireId) (optional_entry keyValues wireId)).

(** A table built by [Object.fromEntries] from a map. *)
Definition table {A} (f : A → json) (m : gmap string A) : json :=
  JObject ((λ e, (e.1, f e.2)) <$> map_to_list m).

Lemma find_field_here name v fields : find_field name ((name, v) :: fields) = Some v.
Proof. cbn. by rewrite bool_decide_true. Qed.

Lemma find_field_there name k v fields : k ≠ name → find_field name ((k, v) :: fields) = find_field name fields.
Proof. intros ?. cbn. by rewrite bool_decide_false. Qed.

Lemma find_field_nil name : find_field name [] = None.
Proof. done. Qed.

Lemma find_field_app name l k :
  find_field name (l ++ k) = match find_field name l with Some v => Some v | None => find_field name k end.
Proof. induction l as [|[n v] l IH]; [done|]. cbn. by case_bool_decide. Qed.

Lemma find_field_fmap {A} (f : A → json) (l : list (string * A)) i :
  find_field i ((λ e, (e.1, f e.2)) <$> l) = f <$> (list_to_map l : gmap string A) !! i.
Proof.
  induction l as [|[k x] l IH]; cbn; [done|]. case_bool_decide as Hk.
  - subst. by rewrite lookup_insert_eq.
  - by rewrite lookup_insert_ne.
Qed.

Lemma optional_entry_table {A} (f : A → json) (m : gmap string A) i :
  optional_entry (Some (table f m)) i = f <$> m !! i.
Proof. cbn. by rewrite find_field_fmap, list_to_map_to_list. Qed.

Lemma entry_key_table {A} `{!JsonText K} (f : A → K) (m : gmap string A) i x :
  m !! i = Some x →
  entry_key (Some (table (λ y, JString (stringify (f y))) m)) i = Ok (f x).
Proof.
  intros Hi. unfold entry_key. rewrite optional_entry_table, Hi. cbn. apply JSON_parse_stringify.
Qed.

(** The entries of an encoded map pass the check exactly when they fit. *)
Lemma safeEntries_table {A} (f : A → json) (m : gmap string A) :
  safeEntries ((λ e, (e.1, f e.2)) <$> map_to_list m) =
    if decide (Z.of_nat (size m) ≤ MAX_CRDT_ENTRIES ∧ "__proto__" ∉ dom m)
    then Ok ((λ e, (e.1, f e.2)) <$> map_to_list m) else Err CrdtDecodeError.
Proof.
  set (es := (λ e, (e.1, f e.2)) <$> map_to_list m).
  assert (es.*1 = (map_to_list m).*1) as Hfst.
  { unfold es. rewrite <-list_fmap_compose. by apply list_fmap_ext. }
  assert (length es = size m) as Hlen by (unfold es; by rewrite length_fmap, length_map_to_list).
  assert ("__proto__" ∈ es.*1 ↔ "__proto__" ∈ dom m) as Hproto.
  { rewrite Hfst, list_elem_of_fmap, elem_of_dom. split.
    - intros ([i x] & -> & Hi%elem_of_map_to_list). by exists x.
    - intros [x Hx]. exists ("__proto__", x). by rewrite elem_of_map_to_list. }
  case_decide as Hdec.
  - apply safeEntries_Ok. rewrite Hlen, Hproto. done.
  - destruct (safeEntries es) as [es'|[]] eqn:E; [|done|..].
    + apply safeEntries_Ok in E as (-> & Hle & Hp). rewrite Hlen in Hle. tauto.
    + exfalso. revert E. unfold safeEntries, throw_if. by repeat case_match.
    + exfalso. revert E. unfold safeEntries, throw_if. by repeat case_match.
    + exfalso. revert E. unfold safeEntries, throw_if. by repeat case_match.
Qed.

(** Strings as elements, between quotes. *)
Definition quote (s : string) : string :=
  String "034"%char (s +:+ String "034"%char EmptyString).

Fixpoint unquote_tail (s : string) : option string :=
  match s with
  | EmptyString => None
  | String c EmptyString => if bool_decide (c = "034"%char) then Some EmptyString else None
  | String c s => String c <$> unquote_tail s
  end.

Definition unquote (s : string) : option string :=
  match s with
  | String c s => if bool_decide (c = "034"%char) then unquote_tail s else None
  | EmptyString => None
  end.

Lemma unquote_quote s : unquote (quote s) = Some s.
Proof.
  unfold quote, unquote. rewrite bool_decide_true by done.
  change (unquote_tail (s +:+ String "034"%char EmptyString) = Some s).
  induction s as [|c s IH]; [done|]. change (unquote_tail (String c (s +:+ String "034"%char EmptyString))
    = Some (String c s)).
  assert (∃ d r, s +:+ String "034"%char EmptyString = String d r) as (d & r & E)
    by (destruct s; by do 2 eexists).
  rewrite E in *. change (String c <$> unquote_tail (String d r) = Some (String c s)). by rewrite IH.
Qed.

#[export] Instance string_text : JsonText string := {|
  stringify := quote;
  parse := unquote;
  text_of v := match v with JString s => s | _ => EmptyString end;
  parse_stringify := unquote_quote;
  text_of_string s := eq_refl;
|}.

(** ** [JSON.stringify(a) === JSON.stringify(b)]

    The comparison of two values by their texts: numbers that are not finite
    are printed as [null], fields are compared in order. *)
Fixpoint text_eqb (a b : json) : bool :=
  match a, b with
  | JArray l, JArray k =>
      (fix go (l k : list json) : bool :=
         match l, k with
         | [], [] => true
         | x :: l, y :: k => text_eqb x y && go l k
         | _, _ => false
         end) l k
  | JObject l, JObject k =>
      (fix go (l k : list (string * json)) : bool :=
         match l, k with
         | [], [] => true
         | (i, x) :: l, (j, y) :: k => bool_decide (i = j) && text_eqb x y && go l k
         | _, _ => false
         end) l k
  | JBool x, JBool y => Bool.eqb x y
  | JString x, JString y => bool_decide (x = y)
  | JNumber (Num x), JNumber (Num y) => x =? y
  | JNumber (Num _), _ | _, JNumber (Num _) => false
  | (JNull | JNumber _), (JNull | JNumber _) => true
  | _, _ => false
  end.

(** Induction that reaches into arrays and objects. *)
Section json_ind.
Variable P : json → Prop.
Hypothesis Hnull : P JNull.
Hypothesis Hbool : ∀ b, P (JBool b).
Hypothesis Hnumber : ∀ n, P (JNumber n).
Hypothesis Hstring : ∀ s, P (JString s).
Hypothesis Harray : ∀ l, Forall P l → P (JArray l).
Hypothesis Hobject : ∀ l, Forall (λ e, P e.2) l → P (JObject l).

Fixpoint json_nested_ind (j : json) : P j :=
  match j with
  | JNull => Hnull
  | JBool b => Hbool b
  | JNumber n => Hnumber n
  | JString s => Hstring s
  | JArray l => Harray l ((fix go l : Forall P l :=
      match l with [] => Forall_nil_2 _ | x :: l => Forall_cons_2 _ _ _ (json_nested_ind x) (go l) end) l)
  | JObject l => Hobject l ((fix go l : Forall (λ e, P e.2) l :=
      match l with [] => Forall_nil_2 _ | e :: l => Forall_cons_2 _ _ _ (json_nested_ind e.2) (go l) end) l)
  end.
End json_ind.

Lemma text_eqb_refl a : text_eqb a a = true.
Proof.
  induction a as [|[]|[]|s|l IH|l IH] using json_nested_ind; cbn; try done.
  - apply Z.eqb_refl.
  - by apply bool_decide_true.
  - induction IH as [|x l Hx _ IH]; [done|]. by rewrite Hx, IH.
  - induction IH as [|[i x] l Hx _ IH]; [done|]. cbn in Hx.
    rewrite bool_decide_true by done. by rewrite Hx, IH.
Qed.

Lemma text_eqb_sym a b : text_eqb a b = text_eqb b a.
Proof.
  revert b. induction a as [|x|n|s|l IH|l IH] using json_nested_ind; intros b.
  - by destruct b as [| |[]| | |].
  - destruct b as [|y|[]| | |]; try done. cbn. by destruct x, y.
  - destruct n, b as [| |[]| | |]; try done. cbn. apply Z.eqb_sym.
  - destruct b as [| |[]|t| |]; try done. cbn. by apply bool_decide_ext.
  - destruct b as [| |[]| |k|]; try done. cbn. revert k.
    induction IH as [|x l Hx _ IH]; intros [|y k]; try done. by rewrite Hx, IH.
  - destruct b as [| |[]| | |k]; try done. cbn. revert k.
    induction IH as [|[i x] l Hx _ IH]; intros [|[j y] k]; try done. cbn in Hx. rewrite Hx, IH.
    do 2 f_equal. by apply bool_decide_ext.
Qed.

Lemma text_eqb_trans a b c : text_eqb a b = true → text_eqb b c = true → text_eqb a c = true.
Proof.
  revert b c. induction a as [|x|n|s|l IH|l IH] using json_nested_ind; intros b c.
  - by destruct b as [| |[]| | |], c as [| |[]| | |].
  - destruct b as [|y|[]| | |], c as [|b3|[]| | |]; try done. by destruct x, y, b3.
  - destruct n, b as [| |[]| | |], c as [| |[]| | |]; try done. cbn. rewrite !Z.eqb_eq. lia.
  - destruct b as [| |[]|t| |], c as [| |[]|u| |]; try done. cbn. rewrite !bool_decide_eq_true. congruence.
  - destruct b as [| |[]| |k|], c as [| |[]| |m|]; try done. cbn. revert k m.
    induction IH as [|x l Hx _ IH]; intros [|y k] [|w m]; try done.
    rewrite !andb_true_iff. intros [??] [??]. split; [by eapply Hx|by eapply IH].
  - destruct b as [| |[]| | |k], c as [| |[]| | |m]; try done. cbn. revert k m.
    induction IH as [|[i x] l Hx _ IH]; intros [|[j y] k] [|[h w] m]; try done. cbn in Hx.
    rewrite !andb_true_iff, !bool_decide_eq_true. intros [[-> ?] ?] [[-> ?] ?].
    split_and!; [done|by eapply Hx|by eapply IH].
Qed.

(** A value that may be [undefined]; [JSON.stringify(undefined)] is [undefined]. *)
Definition optional_text_eqb (a b : option json) : bool :=
  match a, b with Some x, Some y => text_eqb x y | None, None => true | _, _ => false end.

Lemma optional_text_eqb_refl a : optional_text_eqb a a = true.
Proof. destruct a; [apply text_eqb_refl|done]. Qed.
Lemma optional_text_eqb_sym a b : optional_text_eqb a b = true → optional_text_eqb b a = true.
Proof. destruct a, b; try done. cbn. by rewrite text_eqb_sym. Qed.
Lemma optional_text_eqb_trans a b c :
  optional_text_eqb a b = true → optional_text_eqb b c = true → optional_text_eqb a c = true.
Proof. destruct a, b, c; try done. apply text_eqb_trans. Qed.
