(* ===== verification/Crdt.v ===== *)
(** * The contract of [src/crdt/Crdt.ts]

    [Crdt] is the interface every replicated type implements: [merge], and the
    [equals] replicas are compared with.  [CrdtLaws] states the three laws the
    interface's comment requires, on the states [ok] accepts and up to
    [equals], which is coarser than equality.  They make the states a
    semilattice, so that what a replica holds depends on the set of states it
    merged only ([joined]). *)

From S2P Require Import Prelude Json.

Local Open Scope Z_scope.

Class Crdt (A : Type) := {
  crdt_merge : A → A → A;
  crdt_equals : A → A → bool;
}.

(** The laws, relative to the states [ok] a deployment produces. *)
Class CrdtLaws (A : Type) `{!Crdt A} (ok : A → Prop) := {
  crdt_equals_refl a : ok a → crdt_equals a a = true;
  crdt_equals_sym a b : ok a → ok b → crdt_equals a b = true → crdt_equals b a = true;
  crdt_equals_trans a b c : ok a → ok b → ok c →
    crdt_equals a b = true → crdt_equals b c = true → crdt_equals a c = true;
  crdt_merge_ok a b : ok a → ok b → ok (crdt_merge a b);
  crdt_merge_equals a a' b b' : ok a → ok a' → ok b → ok b' →
    crdt_equals a a' = true → crdt_equals b b' = true →
    crdt_equals (crdt_merge a b) (crdt_merge a' b') = true;
  crdt_idempotent a : ok a → crdt_equals (crdt_merge a a) a = true;
  crdt_commutative a b : ok a → ok b → crdt_equals (crdt_merge a b) (crdt_merge b a) = true;
  crdt_associative a b c : ok a → ok b → ok c →
    crdt_equals (crdt_merge (crdt_merge a b) c) (crdt_merge a (crdt_merge b c)) = true;
}.

(** When [equals] decides equality the laws are plain equations. *)
Lemma crdt_laws_of_eq {A} `{!Crdt A} (ok : A → Prop) :
  (∀ a b, crdt_equals a b = true ↔ a = b) →
  (∀ a b, ok a → ok b → ok (crdt_merge a b)) →
  (∀ a, ok a → crdt_merge a a = a) →
  (∀ a b, ok a → ok b → crdt_merge a b = crdt_merge b a) →
  (∀ a b c, ok a → ok b → ok c → crdt_merge (crdt_merge a b) c = crdt_merge a (crdt_merge b c)) →
  CrdtLaws A ok.
Proof.
  intros Heq Hok Hidem Hcomm Hassoc. split; try (intros; rewrite ?Heq in *); try (by subst); auto.
Qed.

(** Closes a goal that is one of the laws. *)
Ltac crdt_law :=
  first [assumption | apply crdt_equals_refl; first [done | by apply crdt_merge_ok] | by apply crdt_equals_sym
    | by eapply crdt_equals_trans; [..|eassumption|eassumption] | by apply crdt_merge_ok
    | by apply crdt_merge_equals | by apply crdt_idempotent | by apply crdt_commutative
    | by apply crdt_associative].

(** A type represented by another one inherits its laws. *)
Lemma crdt_laws_via {A B} `{!Crdt A, !Crdt B} (f : B → A) (ok : A → Prop) :
  CrdtLaws A ok →
  (∀ x y, f (crdt_merge x y) = crdt_merge (f x) (f y)) →
  (∀ x y, crdt_equals x y = crdt_equals (f x) (f y)) →
  CrdtLaws B (λ x, ok (f x)).
Proof.
  intros HA Hm He. split; intros; rewrite ?He, ?Hm in *.
  all: crdt_law.
Qed.

(** Two replicated values side by side. *)
#[export] Instance prod_crdt {A B} `{!Crdt A, !Crdt B} : Crdt (A * B) := {|
  crdt_merge x y := (crdt_merge x.1 y.1, crdt_merge x.2 y.2);
  crdt_equals x y := crdt_equals x.1 y.1 && crdt_equals x.2 y.2;
|}.

#[export] Instance prod_crdt_laws {A B} `{!Crdt A, !Crdt B} (okA : A → Prop) (okB : B → Prop) :
  CrdtLaws A okA → CrdtLaws B okB → CrdtLaws (A * B) (λ x, okA x.1 ∧ okB x.2).
Proof.
  intros HA HB. split; intros; destruct_and?; cbn in *; rewrite ?andb_true_iff in *; destruct_and?; split.
  all: crdt_law.
Qed.

(** ** Maps of replicated values

    The map types keep, under an identity string, the caller's key and a
    replicated value; [merge] keeps its own key and merges the values. *)

Section entries.
Context {K A : Type} `{!Crdt A}.

Definition merge_entry (ours : option (K * A)) (theirs : K * A) : option (K * A) :=
  match ours with
  | None => Some theirs
  | Some (key, value) => Some (key, crdt_merge value theirs.2)
  end.

Definition merge_entries (ours theirs : gmap string (K * A)) : gmap string (K * A) :=
  foldl (λ next e, partial_alter (λ o, merge_entry o e.2) e.1 next) ours (map_to_list theirs).

Definition equals_entries (ours theirs : gmap string (K * A)) : bool :=
  map_equals (λ x y, crdt_equals x.2 y.2) ours theirs.

Definition entries_ok (ok : string → A → Prop) (m : gmap string (K * A)) : Prop :=
  ∀ i e, m !! i = Some e → ok i e.2.

#[export] Instance entries_crdt : Crdt (gmap string (K * A)) := {|
  crdt_merge := merge_entries;
  crdt_equals := equals_entries;
|}.

Lemma merge_entries_lookup m1 m2 i :
  merge_entries m1 m2 !! i =
    match m2 !! i with Some e => merge_entry (m1 !! i) e | None => m1 !! i end.
Proof. apply map_loop_lookup. Qed.

Lemma equals_entries_spec m1 m2 :
  equals_entries m1 m2 = true ↔
    ∀ i, option_Forall2 (λ x y : K * A, crdt_equals x.2 y.2 = true) (m1 !! i) (m2 !! i).
Proof. apply map_equals_spec. Qed.

(** Reads two maps at one identity. *)
Ltac at_identity i :=
  rewrite ?equals_entries_spec in *; rewrite ?merge_entries_lookup in *;
  repeat match goal with
  | H : ∀ _, option_Forall2 _ _ _ |- _ => specialize (H i)
  | H : ∀ _ _, _ = Some _ → _ |- _ => specialize (H i)
  end;
  repeat match goal with H : context [?m !! i] |- _ => revert H end;
  repeat match goal with |- context [?m !! i] => destruct (m !! i) as [[? ?]|] end;
  intros;
  repeat match goal with
  | H : ∀ _, Some _ = Some _ → _ |- _ => specialize (H _ eq_refl); cbn in H
  | H : ∀ _, None = Some _ → _ |- _ => clear H
  | H : option_Forall2 _ _ _ |- _ => inversion H; subst; clear H
  end; cbn in *; simplify_eq/=.

(** The laws of the values, taken at every identity. *)
#[export] Instance entries_crdt_laws (ok : string → A → Prop) :
  (∀ i, CrdtLaws A (ok i)) → CrdtLaws (gmap string (K * A)) (entries_ok ok).
Proof.
  intros HA. split; cbn; unfold entries_ok;
    [intros; apply equals_entries_spec; intros i; at_identity i
    |intros; apply equals_entries_spec; intros i; at_identity i
    |intros; apply equals_entries_spec; intros i; at_identity i
    |intros a b Ha Hb i e He; at_identity i
    |intros; apply equals_entries_spec; intros i; at_identity i..];
    try done; (apply Some_Forall2 || apply None_Forall2 || idtac); cbn; crdt_law.
Qed.

(** ** Decoding an encoded map

    [f] is the body of a decoder's loop; when it files every encoded entry of
    [m] back under its id, or rejects it, the loop rebuilds [m] or throws. *)
Lemma decode_encoded_entries (f : gmap string (K * A) → string * json → result CrdtError (gmap string (K * A)))
    (enc : K * A → json) (P : K * A → Prop) `{!∀ e, Decision (P e)} (m : gmap string (K * A)) :
  (∀ acc id e, m !! id = Some e → f acc (id, enc e) =
     if decide (P e) then Ok (partial_alter (λ o, merge_entry o e) id acc) else Err CrdtDecodeError) →
  (wire ← safeEntries ((λ e, (e.1, enc e.2)) <$> map_to_list m); for_of f wire ∅) =
    if decide ((Z.of_nat (size m) ≤ MAX_CRDT_ENTRIES ∧ "__proto__" ∉ dom m) ∧ map_Forall (λ _, P) m)
    then Ok m else Err CrdtDecodeError.
Proof.
  intros Hf. rewrite safeEntries_table.
  assert (∀ acc e, e ∈ map_to_list m → f acc (e.1, enc e.2) =
     if decide (P e.2) then Ok (partial_alter (λ o, merge_entry o e.2) e.1 acc) else Err CrdtDecodeError)
    as Hround by (intros acc [id e] Hid%elem_of_map_to_list; by apply Hf).
  destruct (decide (_ ∧ map_Forall _ _)) as [[Hsize Hall]|Hfits].
  - rewrite decide_True by done. cbn [mbind result_bind]. rewrite for_of_fmap.
    rewrite (for_of_foldl _ (λ acc e, partial_alter (λ o, merge_entry o e.2) e.1 acc)).
    + f_equal. apply map_eq. intros i. transitivity (merge_entries ∅ m !! i); [done|].
      rewrite merge_entries_lookup, lookup_empty. by destruct (m !! i).
    + intros acc [id e] He. rewrite Hround by done. rewrite decide_True; [done|].
      apply elem_of_map_to_list in He. by apply (Hall id e).
  - case_decide as Hsize; [|done]. cbn [mbind result_bind]. rewrite for_of_fmap.
    apply for_of_error.
    + intros acc e He. rewrite Hround by done. case_decide; [right; by eexists|by left].
    + assert (¬ map_Forall (λ _, P) m) as Hn by tauto.
      apply map_not_Forall in Hn as (id & e & Hid & Hn); [|apply _].
      exists (id, e). split; [by apply elem_of_map_to_list|].
      intros acc. rewrite Hround by by apply elem_of_map_to_list. by rewrite decide_False.
Qed.
End entries.

(** ** Replicas as a semilattice

    The states that satisfy [ok], with [equals] as their equivalence. *)

Section semilattice.
Context {A : Type} `{!Crdt A} {ok : A → Prop} `{!CrdtLaws A ok}.

Definition state : Type := { a : A | ok a }.
Implicit Types s t u : state.

#[export] Instance state_equiv : Equiv state := λ s t, crdt_equals (`s) (`t) = true.

#[export] Instance state_equivalence : Equivalence (≡@{state}).
Proof.
  split.
  - intros [a Ha]. by apply crdt_equals_refl.
  - intros [a Ha] [b Hb]. by apply crdt_equals_sym.
  - intros [a Ha] [b Hb] [c Hc]. by apply crdt_equals_trans.
Qed.

Definition merge s t : state :=
  exist _ (crdt_merge (`s) (`t)) (crdt_merge_ok _ _ (proj2_sig s) (proj2_sig t)).

#[export] Instance merge_proper : Proper ((≡) ==> (≡) ==> (≡)) merge.
Proof. intros [] [] ? [] [] ?. by apply crdt_merge_equals. Qed.
#[export] Instance merge_comm : Comm (≡) merge.
Proof. intros [] []. by apply crdt_commutative. Qed.
#[export] Instance merge_assoc : Assoc (≡) merge.
Proof. intros [] [] []. symmetry. by apply crdt_associative. Qed.
#[export] Instance merge_idemp : IdemP (≡) merge.
Proof. intros []. by apply crdt_idempotent. Qed.

(** The order of the semilattice: [t] has seen everything [s] has. *)
Definition below s t : Prop := merge s t ≡ t.

#[export] Instance below_proper : Proper ((≡) ==> (≡) ==> iff) below.
Proof. intros s s' Hs t t' Ht. unfold below. by rewrite Hs, Ht. Qed.

#[export] Instance below_preorder : PreOrder below.
Proof.
  split.
  - intros s. apply (idemp merge).
  - intros s t u Hst Htu. unfold below in *. by rewrite <-Htu, (assoc merge), Hst.
Qed.

Lemma below_antisym s t : below s t → below t s → s ≡ t.
Proof. unfold below. intros Hst Hts. by rewrite <-Hst, (comm merge), Hts. Qed.

Lemma below_merge_l s t : below s (merge s t).
Proof. unfold below. by rewrite (assoc merge), (idemp merge). Qed.

Lemma below_merge_r s t : below t (merge s t).
Proof. rewrite (comm merge). apply below_merge_l. Qed.

Lemma merge_least s t u : below s u → below t u → below (merge s t) u.
Proof. unfold below. intros Hs Ht. by rewrite <-(assoc merge), Ht. Qed.

(** The state of a replica that started in [s] and merged [l] in order. *)
Definition joined (s : state) (l : list state) : state := foldl merge s l.

Lemma joined_snoc s l t : joined s (l ++ [t]) = merge (joined s l) t.
Proof. unfold joined. by rewrite foldl_app. Qed.

Lemma joined_start s l : below s (joined s l).
Proof.
  unfold joined. revert s. induction l as [|t l IH]; intros s; [done|].
  cbn. transitivity (merge s t); [apply below_merge_l|apply IH].
Qed.

Lemma joined_member s l t : t ∈ l → below t (joined s l).
Proof.
  unfold joined. revert s. induction l as [|x l IH]; intros s Ht; [by apply elem_of_nil in Ht|].
  cbn. apply elem_of_cons in Ht as [->|Ht]; [|by apply IH].
  transitivity (merge s x); [apply below_merge_r|apply joined_start].
Qed.

Lemma joined_least s l u : below s u → (∀ t, t ∈ l → below t u) → below (joined s l) u.
Proof.
  unfold joined. revert s. induction l as [|x l IH]; intros s Hs Hl; [done|].
  cbn. apply IH; [apply merge_least; [done|]|]; set_solver.
Qed.

(** Order, duplication and grouping of what was merged do not matter. *)
Lemma joined_subset s l k : l ⊆ k → below (joined s l) (joined s k).
Proof.
  intros Hlk. apply joined_least; [apply joined_start|]. intros t Ht. apply joined_member, Hlk, Ht.
Qed.

Lemma joined_same s l k : l ⊆ k → k ⊆ l → joined s l ≡ joined s k.
Proof. intros ??. by apply below_antisym; apply joined_subset. Qed.

Lemma joined_merge s l k : merge (joined s l) (joined s k) ≡ joined s (l ++ k).
Proof.
  apply below_antisym.
  - apply merge_least; apply joined_subset; set_solver.
  - apply joined_least.
    + transitivity (joined s l); [apply joined_start|apply below_merge_l].
    + intros t [Ht|Ht]%elem_of_app.
      * transitivity (joined s l); [by apply joined_member|apply below_merge_l].
      * transitivity (joined s k); [by apply joined_member|apply below_merge_r].
Qed.

End semilattice.
Arguments state {A} ok.
