(* ===== verification/GCounter.v ===== *)
(** * The grow-only counter of [src/crdt/GCounter.ts]

    A counter is a finite map from replica ids to counts.  The counts are
    exact integers: below [MAX_COUNTER_SLOT] the float64 arithmetic of the code
    is, and [gcounter_sum_exact] bounds the sum. *)

From S2P Require Import Prelude Json Crdt.
From stdpp Require Import sorting pretty.

Local Open Scope Z_scope.
Set Warnings "-clear-no-such-hyp".

Module GCounter.

Record GCounter := mkGCounter { state : gmap string Z }.

Inductive IncrementError := NegativeDelta | NonFiniteDelta | SlotOverCeiling (replica : string) (count : Z).

Definition empty : GCounter := mkGCounter ∅.

Definition increment (replica : string) (delta : number) (c : GCounter) : result IncrementError GCounter :=
  _ ← throw_if (number_lt delta (Num 0)) NegativeDelta;
  match delta with
  | Num d =>
      let count := default 0 (state c !! replica) + d in
      _ ← throw_if (count >? MAX_COUNTER_SLOT) (SlotOverCeiling replica count);
      Ok (mkGCounter (<[replica := count]> (state c)))
  | _ => Err NonFiniteDelta
  end.

Definition value (c : GCounter) : Z := map_fold (λ _ count total, total + count) 0 (state c).

(** The body of the first loop of [merge]. *)
Definition merge_slot (acc : gmap string Z * list string) (e : string * Z) : gmap string Z * list string :=
  let '(next, newcomers) := acc in
  match next !! e.1 with
  | None => (next, newcomers ++ [e.1])
  | Some ours => (if e.2 >? ours then <[e.1 := e.2]> next else next, newcomers)
  end.

(** The second loop: newcomers in order, while there is room. *)
Fixpoint admit_newcomers (theirs : gmap string Z) (newcomers : list string) (next : gmap string Z)
    : gmap string Z :=
  match newcomers with
  | [] => next
  | replica :: newcomers =>
      if Z.of_nat (size next) >=? MAX_CRDT_ENTRIES then next
      else admit_newcomers theirs newcomers (<[replica := default 0 (theirs !! replica)]> next)
  end.

Definition merge (ours theirs : GCounter) : GCounter :=
  let '(next, newcomers) := foldl merge_slot (state ours, []) (map_to_list (state theirs)) in
  mkGCounter (admit_newcomers (state theirs) (merge_sort String.le newcomers) next).

Definition toJSON (c : GCounter) : json :=
  JObject [("kind", JString "GCounter");
           ("state", table (λ count, JNumber (Num count)) (state c))].

Definition fromJSON (value : option json) : result CrdtError GCounter :=
  _ ← expect_kind "GCounter" value;
  st ← get_property value "state";
  fields ← assertPlainObject st;
  entries ← safeEntries fields;
  slots ← for_of (λ slots e, count ← assertCounterValue (Some e.2); Ok (<[e.1 := count]> slots)) entries ∅;
  Ok (mkGCounter slots).

Definition equals (ours theirs : GCounter) : bool := map_equals Z.eqb (state ours) (state theirs).

(** ** The merge, slot by slot *)

Implicit Types (m : gmap string Z).

(** The per-slot maximum on two maps. *)
Definition slot_max m1 m2 : gmap string Z := union_with (λ x y, Some (Z.max x y)) m1 m2.

(** The ids only the other counter has, in the order they are admitted. *)
Definition newcomers_of m1 m2 : list string :=
  merge_sort String.le (filter (λ id, m1 !! id = None) (map_to_list m2).*1).

Definition held_max m1 m2 : gmap string Z :=
  map_imap (λ id x, Some (Z.max x (default x (m2 !! id)))) m1.

Lemma first_loop_spec m l newcomers :
  NoDup l.*1 →
  foldl merge_slot (m, newcomers) l =
    (map_imap (λ id x, Some (Z.max x (default x ((list_to_map l : gmap string Z) !! id)))) m,
     newcomers ++ filter (λ id, m !! id = None) l.*1).
Proof.
  revert m newcomers. induction l as [|[id x] l IH]; intros m newcomers Hnd; cbn.
  - rewrite app_nil_r. f_equal. apply map_eq. intros i. rewrite map_lookup_imap.
    destruct (m !! i); cbn; [|done]. rewrite lookup_empty. cbn. f_equal. lia.
  - apply NoDup_cons in Hnd as [Hid Hnd]. destruct (m !! id) as [ours|] eqn:E.
    + rewrite IH by done. rewrite decide_False by congruence. f_equal.
      * apply map_eq. intros i. rewrite !map_lookup_imap. destruct (decide (i = id)) as [->|Hne].
        -- rewrite lookup_insert_eq, (not_elem_of_list_to_map_1 l id Hid).
           destruct (Z.gtb_spec x ours); rewrite ?lookup_insert_eq, ?E; cbn; f_equal; lia.
        -- rewrite (lookup_insert_ne (list_to_map l)) by done.
           destruct (x >? ours); by rewrite ?lookup_insert_ne by done.
      * f_equal. apply list_filter_iff. intros i. destruct (x >? ours); [|done].
        destruct (decide (i = id)) as [->|]; [rewrite lookup_insert_eq, E; done|].
        by rewrite lookup_insert_ne.
    + rewrite IH by done. rewrite decide_True by done. f_equal.
      * apply map_eq. intros i. rewrite !map_lookup_imap. destruct (m !! i) eqn:Ei; [|done].
        rewrite lookup_insert_ne by congruence. done.
      * by rewrite <-(assoc_L (++)).
Qed.

Lemma merge_unfold c1 c2 :
  state (merge c1 c2) =
    admit_newcomers (state c2) (newcomers_of (state c1) (state c2)) (held_max (state c1) (state c2)).
Proof.
  unfold merge. rewrite first_loop_spec by apply NoDup_fst_map_to_list. cbn. unfold newcomers_of, held_max.
  f_equal. apply map_eq. intros i. rewrite !map_lookup_imap. by rewrite list_to_map_to_list.
Qed.

Lemma newcomers_elem m1 m2 id : id ∈ newcomers_of m1 m2 ↔ m1 !! id = None ∧ is_Some (m2 !! id).
Proof.
  unfold newcomers_of. rewrite merge_sort_Permutation, list_elem_of_filter. f_equiv.
  rewrite list_elem_of_fmap. split.
  - intros ([k x] & -> & Hk%elem_of_map_to_list). by exists x.
  - intros [x Hx]. exists (id, x). by rewrite elem_of_map_to_list.
Qed.

Lemma newcomers_NoDup m1 m2 : NoDup (newcomers_of m1 m2).
Proof.
  unfold newcomers_of. rewrite merge_sort_Permutation. apply NoDup_filter, NoDup_fst_map_to_list.
Qed.
Definition room (next : gmap string Z) : nat := Z.to_nat (MAX_CRDT_ENTRIES - Z.of_nat (size next)).

Lemma admit_spec (theirs : gmap string Z) l next :
  NoDup l → (∀ id, id ∈ l → next !! id = None ∧ is_Some (theirs !! id)) →
  (∀ i, admit_newcomers theirs l next !! i =
     if decide (i ∈ take (room next) l) then theirs !! i else next !! i) ∧
  size (admit_newcomers theirs l next) = (size next + min (room next) (length l))%nat.
Proof.
  intros Hnd. revert next. induction Hnd as [|id l Hid Hnd IH]; intros next Hl; cbn.
  { rewrite take_nil. split; [|lia]. intros i. case_decide as Hi; [by apply elem_of_nil in Hi|done]. }
  destruct (Z.geb_spec (Z.of_nat (size next)) MAX_CRDT_ENTRIES) as [Hfull|Hroom].
  { assert (room next = 0%nat) as -> by (unfold room; lia). cbn. split; [|lia].
    intros i. case_decide as Hi; [by apply elem_of_nil in Hi|done]. }
  destruct (Hl id) as [Hnone [x Hx]]; [by left|]. rewrite Hx. cbn.
  assert (size (<[id:=x]> next) = S (size next)) as Hsize by by apply map_size_insert_None.
  assert (room next = S (room (<[id:=x]> next))) as Hr by (unfold room; rewrite Hsize; lia).
  destruct (IH (<[id:=x]> next)) as [Hlk Hsz].
  { intros i Hi. rewrite lookup_insert_ne by congruence. apply Hl. by right. }
  rewrite Hr. cbn. split; [|rewrite Hsz, Hsize; lia].
  intros i. rewrite Hlk. destruct (decide (i = id)) as [->|Hne].
  - rewrite lookup_insert_eq, Hx. rewrite (decide_True (P:=id ∈ id :: _)) by (by left). by case_decide.
  - rewrite lookup_insert_ne by done.
    assert (i ∈ id :: take (room (<[id:=x]> next)) l ↔ i ∈ take (room (<[id:=x]> next)) l) as Hiff
      by (rewrite elem_of_cons; tauto).
    by repeat case_decide; try tauto.
Qed.

Lemma held_max_lookup m1 m2 i :
  held_max m1 m2 !! i = (λ x, Z.max x (default x (m2 !! i))) <$> m1 !! i.
Proof. unfold held_max. rewrite map_lookup_imap. by destruct (m1 !! i). Qed.

Lemma held_max_size m1 m2 : size (held_max m1 m2) = size m1.
Proof.
  rewrite <-!size_dom. f_equal. apply set_eq. intros i.
  by rewrite !elem_of_dom, held_max_lookup, fmap_is_Some.
Qed.

Lemma held_max_room m1 m2 : room (held_max m1 m2) = room m1.
Proof. unfold room. by rewrite held_max_size. Qed.

(** [merge] on every input: held slots take the maximum; of the newcomers, the
    first ids in order are admitted until [MAX_CRDT_ENTRIES] slots are held. *)
Lemma g_merge_lookup c1 c2 i :
  state (merge c1 c2) !! i =
    match state c1 !! i with
    | Some x => Some (Z.max x (default x (state c2 !! i)))
    | None => if decide (i ∈ take (room (state c1)) (newcomers_of (state c1) (state c2)))
              then state c2 !! i else None
    end.
Proof.
  rewrite merge_unfold.
  destruct (admit_spec (state c2) (newcomers_of (state c1) (state c2)) (held_max (state c1) (state c2)))
    as [-> _].
  - apply newcomers_NoDup.
  - intros id [Hn ?]%newcomers_elem. split; [|done]. by rewrite held_max_lookup, Hn.
  - rewrite held_max_room, held_max_lookup.
    destruct (state c1 !! i) as [x|] eqn:E; cbn; [|done].
    case_decide as Hi; [|done]. exfalso. apply elem_of_take in Hi as (j & Hj & _).
    apply list_elem_of_lookup_2, newcomers_elem in Hj as [Hj _]. congruence.
Qed.

Lemma merge_size c1 c2 :
  size (state (merge c1 c2)) =
    (size (state c1) + min (room (state c1)) (length (newcomers_of (state c1) (state c2))))%nat.
Proof.
  rewrite merge_unfold.
  destruct (admit_spec (state c2) (newcomers_of (state c1) (state c2)) (held_max (state c1) (state c2)))
    as [_ ->].
  - apply newcomers_NoDup.
  - intros id [Hn ?]%newcomers_elem. split; [|done]. by rewrite held_max_lookup, Hn.
  - by rewrite held_max_room, held_max_size.
Qed.

Lemma newcomers_length m1 m2 : length (newcomers_of m1 m2) = size (dom m2 ∖ dom m1).
Proof.
  rewrite <-(size_list_to_set (C:=gset string)) by apply newcomers_NoDup. f_equal.
  apply set_eq. intros i. rewrite elem_of_list_to_set, newcomers_elem, elem_of_difference.
  rewrite not_elem_of_dom, elem_of_dom. tauto.
Qed.

(** Without overflow the merge is the per-slot maximum. *)
Lemma merge_slot_max c1 c2 :
  Z.of_nat (size (dom (state c1) ∪ dom (state c2))) ≤ MAX_CRDT_ENTRIES →
  state (merge c1 c2) = slot_max (state c1) (state c2).
Proof.
  intros Hsize. apply map_eq. intros i. rewrite g_merge_lookup. unfold slot_max. rewrite lookup_union_with.
  rewrite take_ge.
  2:{ rewrite size_union_alt in Hsize. rewrite newcomers_length. unfold room.
      rewrite !size_dom in *. lia. }
  destruct (state c1 !! i) as [x|] eqn:E1, (state c2 !! i) as [y|] eqn:E2; cbn; try done.
  - by rewrite Z.max_id.
  - case_decide as Hi; [done|]. rewrite newcomers_elem in Hi. naive_solver.
  - by case_decide.
Qed.

(** ** The contract *)

Lemma equals_eq c1 c2 : equals c1 c2 = true ↔ c1 = c2.
Proof.
  destruct c1 as [m1], c2 as [m2]. unfold equals. cbn. rewrite map_equals_eq by apply Z.eqb_eq.
  split; [by intros ->|by intros [= ->]].
Qed.

#[global] Instance GCounter_crdt : Crdt GCounter := {| crdt_merge := merge; crdt_equals := equals |}.

(** The deployments with at most [MAX_CRDT_ENTRIES] replica ids. *)
Definition within (ids : gset string) (c : GCounter) : Prop :=
  dom (state c) ⊆ ids ∧ Z.of_nat (size ids) ≤ MAX_CRDT_ENTRIES.

Lemma within_union ids c1 c2 :
  within ids c1 → within ids c2 → Z.of_nat (size (dom (state c1) ∪ dom (state c2))) ≤ MAX_CRDT_ENTRIES.
Proof.
  intros [H1 Hids] [H2 _]. assert (dom (state c1) ∪ dom (state c2) ⊆ ids) as Hsub%subseteq_size by (by apply union_least).
  lia.
Qed.

Lemma within_merge ids c1 c2 :
  within ids c1 → within ids c2 → state (merge c1 c2) = slot_max (state c1) (state c2).
Proof. intros H1 H2. apply merge_slot_max. by eapply within_union. Qed.

Lemma slot_max_lookup m1 m2 i :
  slot_max m1 m2 !! i = union_with (λ x y, Some (Z.max x y)) (m1 !! i) (m2 !! i).
Proof. apply lookup_union_with. Qed.

Lemma slot_max_dom m1 m2 : dom (slot_max m1 m2) = dom m1 ∪ dom m2.
Proof.
  apply set_eq. intros i. rewrite elem_of_union, !elem_of_dom, slot_max_lookup.
  destruct (m1 !! i), (m2 !! i); cbn; rewrite ?is_Some_alt; tauto.
Qed.

Lemma state_inj c1 c2 : state c1 = state c2 → c1 = c2.
Proof. destruct c1, c2. cbn. by intros ->. Qed.

#[global] Instance GCounter_laws ids : CrdtLaws GCounter (within ids).
Proof.
  apply crdt_laws_of_eq; cbn; [apply equals_eq| | | |].
  - intros a b Ha Hb. split; [|apply Ha]. rewrite (within_merge ids), slot_max_dom by done.
    destruct Ha, Hb. by apply union_least.
  - intros a Ha. apply state_inj. rewrite (within_merge ids) by done. apply map_eq. intros i.
    rewrite slot_max_lookup. destruct (state a !! i); cbn; [|done]. by rewrite Z.max_id.
  - intros a b Ha Hb. apply state_inj. rewrite !(within_merge ids) by done. apply map_eq. intros i.
    rewrite !slot_max_lookup. destruct (state a !! i), (state b !! i); cbn; [|done..]. by rewrite Z.max_comm.
  - intros a b c Ha Hb Hc. assert (within ids (merge a b)) as Hab.
    { split; [|apply Ha]. rewrite (within_merge ids), slot_max_dom by done. destruct Ha, Hb. by apply union_least. }
    assert (within ids (merge b c)) as Hbc.
    { split; [|apply Ha]. rewrite (within_merge ids), slot_max_dom by done. destruct Hb, Hc. by apply union_least. }
    apply state_inj. rewrite !(within_merge ids) by done. apply map_eq. intros i. rewrite !slot_max_lookup.
    destruct (state a !! i), (state b !! i), (state c !! i); cbn; try done. by rewrite Z.max_assoc.
Qed.

(** ** Counters the API and the decoder can produce *)

Inductive built : GCounter → Prop :=
| built_empty : built empty
| built_increment r d c c' : built c → increment r d c = Ok c' → built c'
| built_merge c1 c2 : built c1 → built c2 → built (merge c1 c2)
| built_decoded v c : fromJSON v = Ok c → built c.

Definition slots_ok (m : gmap string Z) : Prop := map_Forall (λ _ x, 0 ≤ x ≤ MAX_COUNTER_SLOT) m.

Lemma g_increment_Ok r d c c' :
  increment r d c = Ok c' ↔ ∃ z, d = Num z ∧ 0 ≤ z ∧ default 0 (state c !! r) + z ≤ MAX_COUNTER_SLOT ∧
    c' = mkGCounter (<[r := default 0 (state c !! r) + z]> (state c)).
Proof.
  unfold increment. split.
  - intros H. unbind. destruct d as [| | |z]; try done. cbn in Hok. unbind. guards.
    exists z. split_and!; [done|lia|lia|done].
  - intros (z & -> & Hz & Hle & ->). cbn.
    destruct (Z.ltb_spec z 0); [lia|]. cbn.
    destruct (Z.gtb_spec (default 0 (state c !! r) + z) MAX_COUNTER_SLOT); [lia|done].
Qed.

Lemma fromJSON_slots v c : fromJSON v = Ok c → slots_ok (state c).
Proof.
  unfold fromJSON. intros H. unbind. subst c. cbn.
  eapply (for_of_invariant _ slots_ok); [|apply map_Forall_empty|exact Hok3].
  intros s x s' Hs _ Hx. cbv beta in Hx. unbind. subst s'. apply assertCounterValue_Ok in Hok4 as [_ ?].
  by apply map_Forall_insert_2.
Qed.

Lemma built_slots c : built c → slots_ok (state c).
Proof.
  induction 1 as [|r d c c' _ IH Hinc|c1 c2 _ IH1 _ IH2|v c Hdec].
  - apply map_Forall_empty.
  - apply g_increment_Ok in Hinc as (z & _ & ? & ? & ->). cbn. apply map_Forall_insert_2; [|done].
    destruct (state c !! r) as [x|] eqn:E; cbn in *; [|lia]. specialize (IH _ _ E). cbn in IH. lia.
  - intros i x Hi. rewrite g_merge_lookup in Hi.
    destruct (state c1 !! i) as [x1|] eqn:E1; [|case_decide; [by apply (IH2 i)|done]].
    specialize (IH1 _ _ E1). cbn in IH1. injection Hi as <-.
    destruct (state c2 !! i) as [x2|] eqn:E2; cbn; [|lia]. specialize (IH2 _ _ E2). cbn in IH2. lia.
  - by eapply fromJSON_slots.
Qed.

(** ** The sum *)

Lemma value_empty : value empty = 0.
Proof. apply map_fold_empty. Qed.

Lemma value_insert m r x :
  value (mkGCounter (<[r := x]> m)) = value (mkGCounter m) - default 0 (m !! r) + x.
Proof.
  assert (∀ (m : gmap string Z) x, m !! r = None →
    value (mkGCounter (<[r := x]> m)) = value (mkGCounter m) + x) as Hnew.
  { intros m' y Hn. unfold value. cbn. rewrite map_fold_insert_L; [done|intros; lia|done]. }
  destruct (m !! r) as [y|] eqn:E; cbn; [|rewrite Hnew by done; lia].
  rewrite <-insert_delete_eq, Hnew by apply lookup_delete_eq.
  rewrite <-(insert_id m r y E) at 2. rewrite <-insert_delete_eq, Hnew by apply lookup_delete_eq. lia.
Qed.

Lemma value_bounds m b :
  map_Forall (λ _ x, 0 ≤ x ≤ b) m → 0 ≤ value (mkGCounter m) ≤ Z.of_nat (size m) * b.
Proof.
  induction m as [|i x m Hn IH] using map_ind.
  - intros _. rewrite map_size_empty. pose proof value_empty. unfold empty in *. lia.
  - intros [Hx Hm]%map_Forall_insert; [|done]. specialize (IH Hm).
    rewrite value_insert, Hn, map_size_insert_None by done. cbn. lia.
Qed.

Lemma value_mono m1 m2 :
  slots_ok m2 → (∀ i, default 0 (m1 !! i) ≤ default 0 (m2 !! i)) →
  value (mkGCounter m1) ≤ value (mkGCounter m2).
Proof.
  revert m2. induction m1 as [|i x m1 Hn IH] using map_ind; intros m2 H2 Hle.
  - pose proof (value_bounds m2 MAX_COUNTER_SLOT H2). pose proof value_empty. unfold empty in *. lia.
  - rewrite value_insert, Hn. cbn. specialize (IH (delete i m2)).
    assert (value (mkGCounter m2) = value (mkGCounter (delete i m2)) + default 0 (m2 !! i)) as ->.
    { destruct (m2 !! i) as [y|] eqn:E; cbn; [|rewrite delete_id by done; lia].
      rewrite <-(insert_id m2 i y E) at 1. rewrite <-insert_delete_eq, value_insert, lookup_delete_eq. cbn. lia. }
    pose proof (Hle i) as Hi. rewrite lookup_insert_eq in Hi. cbn in Hi.
    enough (value (mkGCounter m1) ≤ value (mkGCounter (delete i m2))) by lia.
    apply IH; [by apply map_Forall_delete|].
    intros j. specialize (Hle j). destruct (decide (i = j)) as [->|Hne].
    + rewrite lookup_delete_eq, Hn. done.
    + rewrite lookup_delete_ne by done. by rewrite lookup_insert_ne in Hle by done.
Qed.

(** Below the slot bound the sum is a safe integer. *)
Lemma built_value_bounds c :
  built c → Z.of_nat (size (state c)) ≤ MAX_CRDT_ENTRIES → 0 ≤ value c ≤ MAX_SAFE_INTEGER.
Proof.
  intros Hb Hsize. pose proof (value_bounds (state c) MAX_COUNTER_SLOT (built_slots c Hb)) as Hv.
  assert (MAX_CRDT_ENTRIES * MAX_COUNTER_SLOT ≤ MAX_SAFE_INTEGER) by (vm_compute; congruence).
  assert (0 ≤ MAX_COUNTER_SLOT) by (vm_compute; congruence). destruct c. cbn [state] in *. nia.
Qed.

(** A merge never lowers the value. *)
Lemma value_merge_l c c2 : built c → built c2 → value c ≤ value (merge c c2).
Proof.
  intros Hb Hb2. pose proof (built_slots _ (built_merge c c2 Hb Hb2)) as Hm.
  destruct c as [m1], (merge (mkGCounter m1) c2) as [m] eqn:Em. apply value_mono; [done|].
  intros i. pose proof (g_merge_lookup (mkGCounter m1) c2 i) as Hl. rewrite Em in Hl. cbn [state] in *.
  rewrite Hl. destruct (m1 !! i) as [x|] eqn:E; cbn; [lia|].
  case_decide; cbn; [|lia]. destruct (state c2 !! i) as [y|] eqn:E2; cbn; [|lia].
  apply built_slots in Hb2. specialize (Hb2 _ _ E2). cbn in Hb2. lia.
Qed.

(** ** The wire *)

Definition decode_slots (es : list (string * json)) : result CrdtError (gmap string Z) :=
  for_of (λ slots e, count ← assertCounterValue (Some e.2); Ok (<[e.1 := count]> slots)) es ∅.

Lemma decode_slots_encoded m :
  slots_ok m → decode_slots ((λ e, (e.1, JNumber (Num e.2))) <$> map_to_list m) = Ok m.
Proof.
  intros Hm. unfold decode_slots.
  rewrite (for_of_foldl _ (λ slots e,
    match e.2 with JNumber (Num z) => <[e.1 := z]> slots | _ => slots end)).
  - f_equal. rewrite foldl_fmap. cbn. apply map_eq. intros i.
    rewrite (map_loop_lookup (λ _ y, Some y) ∅ m i). destruct (m !! i); [done|apply lookup_empty].
  - intros slots e ([i x] & -> & Hi%elem_of_map_to_list)%list_elem_of_fmap. cbn beta iota delta [fst snd].
    by rewrite (proj2 (assertCounterValue_Ok (Some (JNumber (Num x))) x) (conj eq_refl (Hm i x Hi))).
Qed.

Lemma g_fromJSON_toJSON c :
  fromJSON (Some (toJSON c)) =
    (entries ← safeEntries ((λ e, (e.1, JNumber (Num e.2))) <$> map_to_list (state c));
     slots ← decode_slots entries; Ok (mkGCounter slots)).
Proof. done. Qed.

Lemma encoded_entries c :
  slots_ok (state c) →
  fromJSON (Some (toJSON c)) =
    if decide (Z.of_nat (size (state c)) ≤ MAX_CRDT_ENTRIES ∧ "__proto__" ∉ dom (state c))
    then Ok c else Err CrdtDecodeError.
Proof.
  intros Hslots. rewrite g_fromJSON_toJSON, (safeEntries_table (λ x, JNumber (Num x))).
  case_decide; [|done]. cbn. rewrite decode_slots_encoded by done. cbn. by destruct c.
Qed.

(** A counter with [n] slots, one per [increment]. *)
Fixpoint many (n : nat) : GCounter :=
  match n with
  | O => empty
  | S n => mkGCounter (<[pretty n := 1]> (state (many n)))
  end.

Lemma many_fresh n k : (n ≤ k)%nat → state (many n) !! pretty k = None.
Proof.
  induction n as [|n IH]; intros Hk; [done|]. cbn [many state].
  rewrite lookup_insert_ne; [apply IH; lia|]. intros Heq%(inj pretty). lia.
Qed.

Lemma many_built n : built (many n) ∧ size (state (many n)) = n.
Proof.
  induction n as [|n [IHb IHs]]; [split; [constructor|done]|]. cbn [many state]. split.
  - apply (built_increment (pretty n) (Num 1) (many n)); [done|].
    apply g_increment_Ok. exists 1. rewrite many_fresh by done. cbn.
    split_and!; [done|lia|by vm_compute|done].
  - rewrite map_size_insert_None by by apply many_fresh. lia.
Qed.

(** [GCounter.merge] on any two counters, past the slot bound included:
    a held slot takes the maximum and is never lost or lowered, the number of
    slots stays within [MAX_CRDT_ENTRIES] (or what was already held), the
    newcomers left out are the last ones in id order, and while the ids of both
    sides fit, the result is the per-slot maximum of both. *)
Theorem gcounter_merge_bounded (c1 c2 : GCounter) :
  let m := state (merge c1 c2) in
  (∀ i x, state c1 !! i = Some x → m !! i = Some (Z.max x (default x (state c2 !! i)))) ∧
  Z.of_nat (size m) ≤ Z.max (Z.of_nat (size (state c1))) MAX_CRDT_ENTRIES ∧
  (∀ i, state c1 !! i = None → is_Some (m !! i) → m !! i = state c2 !! i) ∧
  (∀ i j, state c1 !! i = None → state c1 !! j = None → is_Some (state c2 !! j) →
     is_Some (m !! i) → m !! j = None → String.le i j) ∧
  (Z.of_nat (size (dom (state c1) ∪ dom (state c2))) ≤ MAX_CRDT_ENTRIES →
     m = slot_max (state c1) (state c2)).
Proof.
  cbn zeta. split_and!.
  - intros i x Hi. by rewrite g_merge_lookup, Hi.
  - rewrite merge_size. unfold room. lia.
  - intros i Hi Hsome. rewrite g_merge_lookup, Hi in *. case_decide; [done|by destruct Hsome].
  - intros i j Hi Hj Hsome Hini. rewrite g_merge_lookup, Hi in Hini. rewrite g_merge_lookup, Hj.
    case_decide as Hti; [|by destruct Hini].
    case_decide as Htj; intros Hnj; [by rewrite Hnj in Hsome; destruct Hsome|].
    assert (j ∈ newcomers_of (state c1) (state c2)) as Hjn by by apply newcomers_elem.
    pose proof (StronglySorted_merge_sort String.le
      (filter (λ id, state c1 !! id = None) (map_to_list (state c2)).*1)) as Hs.
    fold (newcomers_of (state c1) (state c2)) in Hs.
    rewrite <-(take_drop (room (state c1)) (newcomers_of (state c1) (state c2))) in Hjn, Hs.
    apply elem_of_app in Hjn as [?|Hjn]; [done|].
    by apply (StronglySorted_app_1_elem_of _ _ _ i j Hs).
  - apply merge_slot_max.
Qed.

(** The value of a counter is exact: on every counter the API and the
    decoder can produce that holds at most [MAX_CRDT_ENTRIES] slots, the sum
    stays a non-negative safe integer; an increment adds its delta to it, and a
    merge never lowers it below either side. *)
Theorem gcounter_sum_exact (c : GCounter) :
  built c →
  (Z.of_nat (size (state c)) ≤ MAX_CRDT_ENTRIES → 0 ≤ value c ≤ MAX_SAFE_INTEGER) ∧
  (∀ r d c', increment r d c = Ok c' → ∃ z, d = Num z ∧ 0 ≤ z ∧ value c' = value c + z) ∧
  (∀ c2, built c2 → value c ≤ value (merge c c2)) ∧
  (∀ c2, built c2 → Z.of_nat (size (dom (state c) ∪ dom (state c2))) ≤ MAX_CRDT_ENTRIES →
     value c2 ≤ value (merge c c2)).
Proof.
  intros Hb. pose proof (built_slots c Hb) as Hs. split_and!.
  - by apply built_value_bounds.
  - intros r d c' (z & -> & Hz & _ & ->)%g_increment_Ok. exists z. split_and!; [done|done|].
    rewrite value_insert. destruct c. cbn [state]. lia.
  - intros c2 Hb2. by apply value_merge_l.
  - intros c2 Hb2 Hfit. pose proof (built_slots _ (built_merge c c2 Hb Hb2)) as Hm.
    destruct c2 as [m2], (merge c (mkGCounter m2)) as [m] eqn:Em. apply value_mono; [done|].
    intros i. pose proof (merge_slot_max c (mkGCounter m2) Hfit) as Hl. rewrite Em in Hl. cbn [state] in *.
    rewrite Hl, slot_max_lookup. destruct (state c !! i) as [x|] eqn:E, (m2 !! i); cbn; try lia.
    specialize (Hs _ _ E). cbn in Hs. lia.
Qed.

(** The wire: whatever the API, merges and the decoder produced, decoding
    an encoded counter gives the counter back exactly when it holds at most
    [MAX_CRDT_ENTRIES] slots and none is named [__proto__], and is a decode
    error otherwise. *)
Theorem gcounter_roundtrip (c : GCounter) :
  built c →
  fromJSON (Some (toJSON c)) =
    if decide (Z.of_nat (size (state c)) ≤ MAX_CRDT_ENTRIES ∧ "__proto__" ∉ dom (state c))
    then Ok c else Err CrdtDecodeError.
Proof. intros Hb. by apply encoded_entries, built_slots. Qed.

(** The slot bound is kept by [merge] but not by [increment]: on a full
    counter an increment by a new replica succeeds and yields a counter no
    decoder accepts. *)
Theorem gcounter_increment_outgrows_decoder (c : GCounter) (replica : string) :
  built c → Z.of_nat (size (state c)) = MAX_CRDT_ENTRIES → state c !! replica = None →
  ∃ c', increment replica (Num 1) c = Ok c' ∧ built c' ∧
        fromJSON (Some (toJSON c')) = Err CrdtDecodeError.
Proof.
  intros Hb Hsize Hnew. assert (increment replica (Num 1) c
    = Ok (mkGCounter (<[replica := default 0 (state c !! replica) + 1]> (state c)))) as Hinc.
  { apply g_increment_Ok. exists 1. rewrite Hnew. cbn. split_and!; [done|lia|by vm_compute|done]. }
  pose proof (built_increment _ _ _ _ Hb Hinc) as Hb'. eexists. split_and!; [done|done|].
  rewrite encoded_entries by by apply built_slots. rewrite decide_False; [done|].
  cbn [state]. rewrite map_size_insert_None by done. intros [? _]. lia.
Qed.

(** ** Concrete counters *)

Definition two_replicas : gset string := {["a"; "b"]}.

Definition counter_a : GCounter := mkGCounter {["a" := 3]}.
Definition counter_b : GCounter := mkGCounter {["b" := 5]}.

Lemma counters_built : built counter_a ∧ built counter_b.
Proof.
  split.
  - by apply (built_increment "a" (Num 3) empty); [constructor|vm_compute].
  - by apply (built_increment "b" (Num 5) empty); [constructor|vm_compute].
Qed.

Lemma gcounter_sum_exact_witness :
  value (merge counter_a counter_b) = 8 ∧ value counter_a ≤ value (merge counter_a counter_b) ∧
  0 ≤ value counter_a ≤ MAX_SAFE_INTEGER.
Proof.
  split; [vm_compute; reflexivity|].
  destruct (gcounter_sum_exact counter_a (proj1 counters_built)) as (Hv & _ & Hm & _).
  split; [apply Hm, counters_built|apply Hv; vm_compute; congruence].
Defined.

Lemma gcounter_roundtrip_witness : fromJSON (Some (toJSON counter_a)) = Ok counter_a.
Proof. rewrite (gcounter_roundtrip counter_a (proj1 counters_built)). vm_compute. reflexivity. Defined.

Lemma counter_of_size (n : Z) :
  0 ≤ n → ∃ c replica, built c ∧ Z.of_nat (size (state c)) = n ∧ state c !! replica = None.
Proof.
  intros Hn. exists (many (Z.to_nat n)), (pretty (Z.to_nat n)).
  destruct (many_built (Z.to_nat n)) as [? ->]. split_and!; [done|lia|by apply many_fresh].
Qed.

Lemma gcounter_increment_outgrows_decoder_witness :
  ∃ c replica c', Z.of_nat (size (state c)) = 4096 ∧ increment replica (Num 1) c = Ok c' ∧
    fromJSON (Some (toJSON c')) = Err CrdtDecodeError.
Proof.
  destruct (counter_of_size MAX_CRDT_ENTRIES) as (c & replica & Hb & Hsize & Hnew);
    [unfold MAX_CRDT_ENTRIES; lia|].
  destruct (gcounter_increment_outgrows_decoder c replica Hb Hsize Hnew) as (c' & ? & _ & ?).
  exists c, replica, c'. split; [assumption|split; assumption].
Defined.

End GCounter.
