(* ===== verification/Counters.v ===== *)
(** * [src/crdt/PNCounter.ts] and [src/crdt/GCounterMap.ts]

    The two types built from grow-only counters: a pair of them, and a map of
    them under the caller's keys. *)

From S2P Require Import Prelude Json Crdt GCounter.

Local Open Scope Z_scope.
Set Warnings "-clear-no-such-hyp".

Module PNCounter.
Import GCounter.

Record PNCounter := mkPNCounter { p : GCounter; n : GCounter }.

Definition empty : PNCounter := mkPNCounter GCounter.empty GCounter.empty.

Definition increment (replica : string) (delta : number) (c : PNCounter) : result IncrementError PNCounter :=
  _ ← throw_if (number_lt delta (Num 0)) NegativeDelta;
  p' ← GCounter.increment replica delta (p c);
  Ok (mkPNCounter p' (n c)).

Definition decrement (replica : string) (delta : number) (c : PNCounter) : result IncrementError PNCounter :=
  _ ← throw_if (number_lt delta (Num 0)) NegativeDelta;
  n' ← GCounter.increment replica delta (n c);
  Ok (mkPNCounter (p c) n').

Definition value (c : PNCounter) : Z := GCounter.value (p c) - GCounter.value (n c).

Definition merge (ours theirs : PNCounter) : PNCounter :=
  mkPNCounter (GCounter.merge (p ours) (p theirs)) (GCounter.merge (n ours) (n theirs)).

Definition toJSON (c : PNCounter) : json :=
  JObject [("kind", JString "PNCounter"); ("p", GCounter.toJSON (p c)); ("n", GCounter.toJSON (n c))].

Definition fromJSON (v : option json) : result CrdtError PNCounter :=
  _ ← expect_kind "PNCounter" v;
  pj ← get_property v "p";
  pc ← GCounter.fromJSON pj;
  nj ← get_property v "n";
  nc ← GCounter.fromJSON nj;
  Ok (mkPNCounter pc nc).

Definition equals (ours theirs : PNCounter) : bool :=
  GCounter.equals (p ours) (p theirs) && GCounter.equals (n ours) (n theirs).

#[global] Instance PNCounter_crdt : Crdt PNCounter := {| crdt_merge := merge; crdt_equals := equals |}.

Definition within (ids : gset string) (c : PNCounter) : Prop :=
  GCounter.within ids (p c) ∧ GCounter.within ids (n c).

#[global] Instance PNCounter_laws ids : CrdtLaws PNCounter (within ids).
Proof.
  apply (crdt_laws_via (λ c, (p c, n c)) (λ x, GCounter.within ids x.1 ∧ GCounter.within ids x.2));
    [apply prod_crdt_laws; apply GCounter_laws|done|done].
Qed.

Lemma pn_fromJSON_toJSON c :
  fromJSON (Some (toJSON c)) =
    (pc ← GCounter.fromJSON (Some (GCounter.toJSON (p c)));
     nc ← GCounter.fromJSON (Some (GCounter.toJSON (n c)));
     Ok (mkPNCounter pc nc)).
Proof. done. Qed.

(** A positive/negative counter counts: on every counter whose halves the
    API and the decoder can produce, an increment by an accepted delta raises
    the value by it and a decrement lowers it; both reject exactly the negative
    and non-finite deltas and those that would push their own half of the
    replica's slot over the ceiling; with at most [MAX_CRDT_ENTRIES] slots a
    side the value is exact; and the wire gives the counter back. *)
Theorem pncounter_counts (c : PNCounter) (r : string) :
  built (p c) → built (n c) →
  (∀ z, 0 ≤ z → default 0 (state (p c) !! r) + z ≤ MAX_COUNTER_SLOT →
     ∃ c', increment r (Num z) c = Ok c' ∧ value c' = value c + z ∧ n c' = n c) ∧
  (∀ z, 0 ≤ z → default 0 (state (n c) !! r) + z ≤ MAX_COUNTER_SLOT →
     ∃ c', decrement r (Num z) c = Ok c' ∧ value c' = value c - z ∧ p c' = p c) ∧
  (∀ d c', increment r d c = Ok c' ∨ decrement r d c = Ok c' → ∃ z, d = Num z ∧ 0 ≤ z) ∧
  (Z.of_nat (size (state (p c))) ≤ MAX_CRDT_ENTRIES → Z.of_nat (size (state (n c))) ≤ MAX_CRDT_ENTRIES →
     - MAX_SAFE_INTEGER ≤ value c ≤ MAX_SAFE_INTEGER) ∧
  (Z.of_nat (size (state (p c))) ≤ MAX_CRDT_ENTRIES → Z.of_nat (size (state (n c))) ≤ MAX_CRDT_ENTRIES →
     "__proto__" ∉ dom (state (p c)) → "__proto__" ∉ dom (state (n c)) →
     fromJSON (Some (toJSON c)) = Ok c).
Proof.
  intros Hp Hn.
  assert (∀ g z, 0 ≤ z → default 0 (state g !! r) + z ≤ MAX_COUNTER_SLOT →
    ∃ g', GCounter.increment r (Num z) g = Ok g' ∧ GCounter.value g' = GCounter.value g + z) as Hinc.
  { intros g z Hz Hle. eexists. split; [apply g_increment_Ok; by exists z|].
    rewrite value_insert. destruct g. cbn [state]. lia. }
  assert (∀ g, built g → Z.of_nat (size (state g)) ≤ MAX_CRDT_ENTRIES →
    0 ≤ GCounter.value g ≤ MAX_SAFE_INTEGER) as Hbound by apply built_value_bounds.
  split_and!.
  - intros z Hz Hle. destruct (Hinc (p c) z Hz Hle) as (g & Hg & Hv). unfold increment.
    rewrite (proj2 (throw_if_Ok _ _ ()) (proj2 (Z.ltb_ge z 0) Hz)). cbn -[GCounter.increment].
    rewrite Hg. eexists. split; [done|]. unfold value. cbn. split; [lia|done].
  - intros z Hz Hle. destruct (Hinc (n c) z Hz Hle) as (g & Hg & Hv). unfold decrement.
    rewrite (proj2 (throw_if_Ok _ _ ()) (proj2 (Z.ltb_ge z 0) Hz)). cbn -[GCounter.increment].
    rewrite Hg. eexists. split; [done|]. unfold value. cbn. split; [lia|done].
  - intros d c' [H|H]; unfold increment, decrement in H; unbind;
      apply g_increment_Ok in Hok0 as (z & ? & ? & _); by exists z.
  - intros H1%(Hbound _ Hp) H2%(Hbound _ Hn). unfold value. lia.
  - intros H1 H2 H3 H4. rewrite pn_fromJSON_toJSON.
    rewrite !encoded_entries by by apply built_slots. rewrite !decide_True by done. cbn. by destruct c.
Qed.

Lemma pncounter_counts_witness :
  let c := mkPNCounter counter_a counter_b in
  value c = -2 ∧ (∃ c', increment "a" (Num 4) c = Ok c' ∧ value c' = 2) ∧
  fromJSON (Some (toJSON c)) = Ok c.
Proof.
  intros c. destruct (pncounter_counts c "a") as (Hi & _ & _ & _ & Hw); [apply counters_built..|].
  split; [vm_compute; reflexivity|split].
  - destruct (Hi 4) as (c' & ? & Hv & _); [lia|vm_compute; congruence|]. exists c'. split; [assumption|].
    rewrite Hv. vm_compute. reflexivity.
  - apply Hw; vm_compute; congruence.
Defined.

End PNCounter.

Module GCounterMap.
Import GCounter.

Record GCounterMap (K : Type) := mkGCounterMap {
  entries : gmap string (K * GCounter);
  customIdentity : option (K → string);
}.
Arguments mkGCounterMap {K}.
Arguments entries {K}.
Arguments customIdentity {K}.

Section ops.
Context {K : Type} `{!JsonText K}.
Implicit Types m : GCounterMap K.

Definition empty (identity : option (K → string)) : GCounterMap K := mkGCounterMap ∅ identity.

(** [this.identity]: the configured one, [JSON.stringify] by default. *)
Definition identity m (key : K) : string := default stringify (customIdentity m) key.

Definition increment (replica : string) (key : K) (delta : number) m
    : result IncrementError (GCounterMap K) :=
  _ ← throw_if (number_lt delta (Num 0)) NegativeDelta;
  _ ← throw_if (negb (Number_isFinite delta)) NonFiniteDelta;
  let id := identity m key in
  let existing := entries m !! id in
  counter ← GCounter.increment replica delta (default GCounter.empty (snd <$> existing));
  Ok (mkGCounterMap (<[id := (default key (fst <$> existing), counter)]> (entries m)) (customIdentity m)).

Definition value (key : K) m : Z :=
  default 0 ((λ e, GCounter.value e.2) <$> entries m !! identity m key).

Definition total m : Z := map_fold (λ _ e total, total + GCounter.value e.2) 0 (entries m).
Definition keys m : list K := (λ e, e.2.1) <$> map_to_list (entries m).
Definition pairs m : list (K * Z) := (λ e, (e.2.1, GCounter.value e.2.2)) <$> map_to_list (entries m).
Definition has (key : K) m : bool := bool_decide (is_Some (entries m !! identity m key)).
Definition size m : nat := base.size (entries m).

Definition merge m1 m2 : GCounterMap K :=
  mkGCounterMap (merge_entries (entries m1) (entries m2)) (customIdentity m1).

Definition toJSON m : json :=
  JObject [("kind", JString "GCounterMap");
           ("counters", table (λ e, GCounter.toJSON e.2) (entries m));
           ("keyValues", table (λ e, JString (stringify e.1)) (entries m))].

(** One round of the loop of [fromJSON]. *)
Definition decode_entry (keyValues : option json) (custom : option (K → string))
    (entries : gmap string (K * GCounter)) (e : string * json) : result CrdtError (gmap string (K * GCounter)) :=
  let '(wireId, counterJson) := e in
  key ← entry_key keyValues wireId;
  _ ← assertPlainObject (Some counterJson);
  counter ← GCounter.fromJSON (Some counterJson);
  let id := match custom with None => wireId | Some f => f key end in
  Ok (partial_alter (λ existing, merge_entry existing (key, counter)) id entries).

Definition fromJSON (v : option json) (custom : option (K → string)) : result CrdtError (GCounterMap K) :=
  _ ← expect_kind "GCounterMap" v;
  counters ← get_property v "counters";
  fields ← assertPlainObject counters;
  wire ← safeEntries fields;
  keyValues ← get_property v "keyValues";
  es ← for_of (decode_entry keyValues custom) wire ∅;
  Ok (mkGCounterMap es custom).

Definition equals m1 m2 : bool := equals_entries (entries m1) (entries m2).

#[global] Instance GCounterMap_crdt : Crdt (GCounterMap K) := {| crdt_merge := merge; crdt_equals := equals |}.

Definition within (ids : gset string) m : Prop := entries_ok (λ _, GCounter.within ids) (entries m).

#[global] Instance GCounterMap_laws ids : CrdtLaws (GCounterMap K) (within ids).
Proof. by apply (crdt_laws_via entries (entries_ok (λ _, GCounter.within ids))); [apply _|..]. Qed.

(** Maps the API can produce under one identity function. *)
Inductive built (custom : option (K → string)) : GCounterMap K → Prop :=
| built_empty : built custom (empty custom)
| built_increment r k d m m' : built custom m → increment r k d m = Ok m' → built custom m'
| built_merge m1 m2 : built custom m1 → built custom m2 → built custom (merge m1 m2).

(** Every entry is filed under the identity of its key. *)
Definition filed (custom : option (K → string)) m : Prop :=
  customIdentity m = custom ∧
  ∀ id e, entries m !! id = Some e → id = identity m e.1 ∧ GCounter.built e.2.

Lemma gmap_increment_Ok r k d m m' :
  increment r k d m = Ok m' ↔ ∃ c,
    GCounter.increment r d (default GCounter.empty (snd <$> entries m !! identity m k)) = Ok c ∧
    m' = mkGCounterMap (<[identity m k := (default k (fst <$> entries m !! identity m k), c)]> (entries m))
           (customIdentity m).
Proof.
  unfold increment. split.
  - intros H. unbind. by exists a1.
  - intros (c & Hc & ->). pose proof Hc as (z & -> & Hz & _)%GCounter.g_increment_Ok. cbn.
    destruct (Z.ltb_spec z 0); [lia|]. cbn. by rewrite Hc.
Qed.

Lemma gmap_built_filed custom m : built custom m → filed custom m.
Proof.
  induction 1 as [|r k d m m' _ [Hc IH] (c & Hinc & ->)%gmap_increment_Ok|m1 m2 _ [Hc1 IH1] _ [Hc2 IH2]].
  - split; [done|]. cbn [entries empty]. intros id e He. by rewrite lookup_empty in He.
  - split; [done|]. cbn [entries]. intros id e [[<- <-]|[_ He]]%lookup_insert_Some; [|by apply IH].
    unfold identity. cbn [customIdentity fst snd]. fold (identity m k).
    destruct (entries m !! identity m k) as [[k0 c0]|] eqn:E; cbn in *.
    + apply IH in E as [Hid Hb]. cbn in Hid. unfold identity in Hid at 2. split; [done|].
      by eapply GCounter.built_increment.
    + split; [done|]. eapply GCounter.built_increment; [constructor|done].
  - split; [done|]. cbn [entries merge]. intros id e He. rewrite merge_entries_lookup in He.
    destruct (entries m2 !! id) as [[k2 c2]|] eqn:E2; [|by apply IH1].
    destruct (entries m1 !! id) as [[k1 c1]|] eqn:E1; cbn in He; injection He as <-.
    + apply IH1 in E1 as [-> ?]. apply IH2 in E2 as [_ ?]. split; [done|]. by apply GCounter.built_merge.
    + apply IH2 in E2 as [-> ?]. split; [|done]. unfold identity. cbn. by rewrite Hc1, Hc2.
Qed.

(** ** The wire *)

Definition counter_fits (c : GCounter) : Prop :=
  Z.of_nat (base.size (state c)) ≤ MAX_CRDT_ENTRIES ∧ "__proto__" ∉ dom (state c).

Definition fits m : Prop :=
  (Z.of_nat (size m) ≤ MAX_CRDT_ENTRIES ∧ "__proto__" ∉ dom (entries m)) ∧
  map_Forall (λ _ e, counter_fits e.2) (entries m).

#[export] Instance counter_fits_dec c : Decision (counter_fits c) := _.
#[export] Instance fits_dec m : Decision (fits m) := _.

Definition key_texts m : json := table (λ e, JString (stringify e.1)) (entries m).

Lemma gmap_fromJSON_toJSON m custom :
  fromJSON (Some (toJSON m)) custom =
    (es ← (wire ← safeEntries ((λ e, (e.1, GCounter.toJSON e.2.2)) <$> map_to_list (entries m));
           for_of (decode_entry (Some (key_texts m)) custom) wire ∅);
     Ok (mkGCounterMap es custom)).
Proof.
  transitivity (wire ← safeEntries ((λ e, (e.1, GCounter.toJSON e.2.2)) <$> map_to_list (entries m));
    es ← for_of (decode_entry (Some (key_texts m)) custom) wire ∅; Ok (mkGCounterMap es custom)); [done|].
  by destruct (safeEntries _).
Qed.

Lemma gmap_decode_entry_encoded custom m acc id k c :
  filed custom m → entries m !! id = Some (k, c) →
  decode_entry (Some (key_texts m)) custom acc (id, GCounter.toJSON c) =
    if decide (counter_fits c)
    then Ok (partial_alter (λ o, merge_entry o (k, c)) id acc) else Err CrdtDecodeError.
Proof.
  intros [Hcustom Hfiled] Hid. destruct (Hfiled _ _ Hid) as [Hk Hb]. cbn in Hk.
  unfold decode_entry, key_texts. rewrite (entry_key_table fst (entries m) id (k, c) Hid).
  change (assertPlainObject (Some (GCounter.toJSON c)))
    with (Ok (E:=CrdtError) [("kind", JString "GCounter");
                             ("state", table (λ count, JNumber (Num count)) (state c))]).
  cbn [mbind result_bind fst]. rewrite encoded_entries by by apply built_slots.
  destruct (decide (counter_fits c)) as [Hc|Hc];
    [rewrite decide_True by exact Hc|by rewrite decide_False by exact Hc]. cbn [mbind result_bind].
  replace (match custom with None => id | Some f => f k end) with id; [done|].
  rewrite Hk. unfold identity. rewrite Hcustom. by destruct custom.
Qed.

Lemma gmap_decode_encoded custom m :
  filed custom m →
  fromJSON (Some (toJSON m)) custom = if decide (fits m) then Ok m else Err CrdtDecodeError.
Proof.
  intros Hm. rewrite gmap_fromJSON_toJSON.
  rewrite (decode_encoded_entries _ (λ e, GCounter.toJSON e.2) (λ e, counter_fits e.2))
    by (intros acc id [k c]; by apply gmap_decode_entry_encoded).
  destruct (decide (fits m)) as [Hf|Hf]; [rewrite decide_True by exact Hf|by rewrite decide_False by exact Hf].
  destruct m as [es cu], Hm as [Hcu _]. cbn in Hcu. by subst cu.
Qed.

(** A map of counters on the wire: every map the API produces under an
    identity function decodes, under the same function, to itself exactly when
    the map and each of its counters fit the decoder's bounds, and to a decode
    error otherwise. *)
Theorem gcountermap_roundtrip (custom : option (K → string)) m :
  built custom m →
  fromJSON (Some (toJSON m)) custom = if decide (fits m) then Ok m else Err CrdtDecodeError.
Proof. intros Hm. by apply gmap_decode_encoded, gmap_built_filed. Qed.

(** The keys of a counter map are independent: an increment raises the
    value under its key by the delta and leaves every key of another identity
    alone; a merge holds, under each identity, the merge of the two counters
    kept there, so no counter is lost and none goes down. *)
Theorem gcountermap_keys_independent (custom : option (K → string)) m m2 (k k' : K) :
  built custom m → built custom m2 →
  (∀ r d m', increment r k d m = Ok m' →
     (∃ z, d = Num z ∧ 0 ≤ z ∧ value k m' = value k m + z) ∧
     (identity m k' ≠ identity m k → value k' m' = value k' m)) ∧
  entries (merge m m2) !! identity m k =
    match entries m !! identity m k, entries m2 !! identity m k with
    | Some (key, c), Some (_, c2) => Some (key, GCounter.merge c c2)
    | Some e, None | None, Some e => Some e
    | None, None => None
    end ∧
  value k m ≤ value k (merge m m2).
Proof.
  intros Hm Hm2. pose proof (gmap_built_filed _ _ Hm) as [_ Hfiled]. pose proof (gmap_built_filed _ _ Hm2) as [_ Hfiled2].
  assert (entries (merge m m2) !! identity m k =
    match entries m !! identity m k, entries m2 !! identity m k with
    | Some (key, c), Some (_, c2) => Some (key, GCounter.merge c c2)
    | Some e, None | None, Some e => Some e
    | None, None => None
    end) as Hmerge.
  { cbn [entries merge]. rewrite merge_entries_lookup.
    by destruct (entries m !! identity m k) as [[? ?]|], (entries m2 !! identity m k) as [[? ?]|]. }
  split_and!; [|done|].
  - intros r d m' (c & Hinc & ->)%gmap_increment_Ok. split.
    + apply GCounter.g_increment_Ok in Hinc as (z & -> & Hz & _ & ->). exists z. split_and!; [done|done|].
      unfold value, identity. cbn [entries customIdentity]. fold (identity m k). rewrite lookup_insert_eq.
      cbn [option_fmap option_map default fmap snd]. rewrite value_insert.
      destruct (entries m !! identity m k) as [[? []]|]; cbn; [lia|].
      pose proof value_empty as Hv. unfold GCounter.empty in Hv. rewrite lookup_empty. cbn. lia.
    + intros Hne. unfold value, identity in *. cbn [entries customIdentity] in *. by rewrite lookup_insert_ne.
  - unfold value. change (identity (merge m m2) k) with (identity m k). rewrite Hmerge.
    destruct (entries m !! identity m k) as [[key c]|] eqn:E1; cbn.
    + apply Hfiled in E1 as [_ Hb]. destruct (entries m2 !! identity m k) as [[k2 c2]|] eqn:E2; cbn; [|lia].
      apply Hfiled2 in E2 as [_ Hb2]. by apply value_merge_l.
    + destruct (entries m2 !! identity m k) as [[k2 c2]|] eqn:E2; cbn; [|lia].
      apply Hfiled2 in E2 as [_ Hb2]. cbn in Hb2. destruct c2.
      apply (value_bounds _ MAX_COUNTER_SLOT), (built_slots _ Hb2).
Qed.

End ops.

(** A map over string keys, filed under the keys themselves. *)
Definition by_name : option (string → string) := Some id.

Definition page_views : GCounterMap string :=
  mkGCounterMap {["views" := ("views", mkGCounter {["a" := 5]})]} by_name.
Definition clicks : GCounterMap string :=
  mkGCounterMap {["clicks" := ("clicks", mkGCounter {["b" := 1]})]} by_name.

Lemma examples_built : built by_name page_views ∧ built by_name clicks.
Proof.
  split.
  - apply (built_increment _ "a" "views" (Num 5) (empty by_name)); [constructor|by vm_compute].
  - apply (built_increment _ "b" "clicks" (Num 1) (empty by_name)); [constructor|by vm_compute].
Qed.

Lemma gcountermap_roundtrip_witness : fromJSON (Some (toJSON page_views)) by_name = Ok page_views.
Proof. rewrite (gcountermap_roundtrip by_name page_views (proj1 examples_built)). vm_compute. reflexivity. Defined.

Lemma gcountermap_keys_independent_witness :
  value "views" (merge page_views clicks) = 5 ∧
  value "views" page_views ≤ value "views" (merge page_views clicks) ∧
  ∃ m', increment "a" "views" (Num 2) page_views = Ok m' ∧ value "clicks" m' = value "clicks" page_views.
Proof.
  destruct (gcountermap_keys_independent by_name page_views clicks "views" "clicks") as (Hi & _ & Hm);
    [apply examples_built..|].
  split; [vm_compute; reflexivity|split; [exact Hm|]].
  destruct (increment "a" "views" (Num 2) page_views) as [m'|e] eqn:E; [|vm_compute in E; discriminate].
  exists m'. split; [reflexivity|]. apply (Hi _ _ _ E). vm_compute. congruence.
Defined.

End GCounterMap.
