(* ===== verification/LWW.v ===== *)
(** * [src/crdt/LWWRegister.ts] and [src/crdt/LWWMap.ts]

    Last writer wins.  Values are JSON values ([None] is [undefined], which a
    decoded frame without a [value] field leaves behind), timestamps are whole
    milliseconds, replica ids are strings compared as the code compares them. *)

From S2P Require Import Prelude Json Crdt.

Local Open Scope Z_scope.
Set Warnings "-clear-no-such-hyp".

Module LWWRegister.

Record LWWRegister := mkLWWRegister {
  value_ : option json;
  timestamp : Z;
  replica : string;
}.

Definition empty : LWWRegister := mkLWWRegister (Some JNull) 0 EmptyString.

Definition assign (rep : string) (v : option json) (ts : Z) (r : LWWRegister) : LWWRegister :=
  mkLWWRegister v ts rep.

Definition value (r : LWWRegister) : option json := value_ r.

(** The [>] operator on strings. *)
Definition string_gt (a b : string) : bool := negb (String.leb a b).

Definition merge (ours theirs : LWWRegister) : LWWRegister :=
  if timestamp ours =? 0 then theirs
  else if timestamp theirs =? 0 then ours
  else if timestamp theirs >? timestamp ours then theirs
  else if timestamp theirs <? timestamp ours then ours
  else if string_gt (replica theirs) (replica ours) then theirs else ours.

Definition toJSON (r : LWWRegister) : json :=
  JObject ([("kind", JString "LWWRegister")] ++
           match value_ r with Some v => [("value", v)] | None => [] end ++
           [("timestamp", JNumber (Num (timestamp r))); ("replica", JString (replica r))]).

Definition fromJSON (now : Z) (v : option json) : result CrdtError LWWRegister :=
  _ ← expect_kind "LWWRegister" v;
  tsj ← get_property v "timestamp";
  ts ← assertPlausibleTimestamp tsj now;
  repj ← get_property v "replica";
  rep ← assertString repj;
  val ← get_property v "value";
  Ok (mkLWWRegister val ts rep).

Definition equals (ours theirs : LWWRegister) : bool :=
  (timestamp ours =? timestamp theirs) && bool_decide (replica ours = replica theirs) &&
  optional_text_eqb (value_ ours) (value_ theirs).

#[global] Instance LWWRegister_crdt : Crdt LWWRegister := {| crdt_merge := merge; crdt_equals := equals |}.

(** ** The order of writes *)

Implicit Types r : LWWRegister.

(** [r1] was written before [r2]: by time, then by replica; the empty register
    is before every write. *)
Definition before r1 r2 : Prop :=
  timestamp r2 ≠ 0 ∧ (timestamp r1 = 0 ∨ timestamp r1 < timestamp r2 ∨
    timestamp r1 = timestamp r2 ∧ string_gt (replica r2) (replica r1) = true).

Definition same_stamp r1 r2 : Prop :=
  timestamp r1 = timestamp r2 ∧ (timestamp r1 = 0 ∨ replica r1 = replica r2).

Definition no_later r1 r2 : Prop := ¬ before r2 r1.

Lemma string_gt_trans a b c : string_gt a b = true → string_gt b c = true → string_gt a c = true.
Proof.
  unfold string_gt. rewrite !negb_true_iff. intros Hab Hbc.
  destruct (String.leb a c) eqn:Hac; [|done]. exfalso.
  destruct (String.leb_total b c) as [H|H]; [congruence|].
  assert (String.le a b) as Hle; [|unfold String.le in Hle; rewrite Hab in Hle; done].
  transitivity c; unfold String.le; [by rewrite Hac|by rewrite H].
Qed.

Lemma string_gt_irrefl a : string_gt a a = false.
Proof. unfold string_gt. destruct (String.leb_total a a) as [->| ->]; done. Qed.

Lemma string_gt_total a b : string_gt a b = true ∨ a = b ∨ string_gt b a = true.
Proof.
  unfold string_gt. destruct (String.leb a b) eqn:E1, (String.leb b a) eqn:E2; auto.
  right. left. by apply String.leb_antisym.
Qed.

Lemma stamp_trichotomy r1 r2 : before r1 r2 ∨ same_stamp r1 r2 ∨ before r2 r1.
Proof.
  unfold before, same_stamp.
  destruct (Z.eq_dec (timestamp r1) 0), (Z.eq_dec (timestamp r2) 0); try (intuition lia).
  destruct (Z.lt_trichotomy (timestamp r1) (timestamp r2)) as [?|[?|?]]; try (intuition lia).
  destruct (string_gt_total (replica r1) (replica r2)) as [?|[?|?]]; intuition lia.
Qed.

Lemma lww_before_trans r1 r2 r3 : before r1 r2 → before r2 r3 → before r1 r3.
Proof.
  unfold before. intros [Hn [H0|[Hlt|[Heq Hgt]]]] [Hn' [H0'|[Hlt'|[Heq' Hgt']]]]; try lia.
  split; [done|]. right. right. split; [lia|]. by eapply string_gt_trans.
Qed.

Lemma before_irrefl r1 r2 : before r1 r2 → same_stamp r1 r2 → False.
Proof.
  unfold before, same_stamp. intros [Hn H] [Heq [H0|Hrep]]; [lia|].
  destruct H as [?|[?|[_ Hgt]]]; [lia|lia|]. by rewrite Hrep, string_gt_irrefl in Hgt.
Qed.

Lemma same_stamp_sym r1 r2 : same_stamp r1 r2 → same_stamp r2 r1.
Proof. unfold same_stamp. intros [-> [?|?]]; auto. Qed.

Lemma same_stamp_before_l r1 r2 r3 : same_stamp r1 r2 → before r2 r3 → before r1 r3.
Proof.
  unfold same_stamp, before. intros [Ht Hr] [Hn H]. split; [done|]. rewrite Ht.
  destruct H as [?|[?|[Heq Hgt]]]; auto. destruct Hr as [H0| ->]; [left; lia|auto].
Qed.

Lemma same_stamp_before_r r1 r2 r3 : before r1 r2 → same_stamp r2 r3 → before r1 r3.
Proof.
  unfold same_stamp, before. intros [Hn H] [Ht Hr]. rewrite <-Ht. split; [done|].
  destruct Hr as [?| <-]; [lia|]. done.
Qed.

Lemma no_later_refl r : no_later r r.
Proof. intros H. eapply before_irrefl; [exact H|]. unfold same_stamp. auto. Qed.

Lemma no_later_trans r1 r2 r3 : no_later r1 r2 → no_later r2 r3 → no_later r1 r3.
Proof.
  unfold no_later. intros H12 H23 H31.
  destruct (stamp_trichotomy r1 r2) as [H|[H|H]]; [| |done].
  - apply H23. by eapply lww_before_trans.
  - apply H23. by eapply same_stamp_before_r.
Qed.

Lemma no_later_antisym r1 r2 : no_later r1 r2 → no_later r2 r1 → same_stamp r1 r2.
Proof. unfold no_later. intros ??. destruct (stamp_trichotomy r1 r2) as [?|[?|?]]; done. Qed.

(** [merge] keeps the later of the two writes, its own on a tie. *)
Lemma merge_before r1 r2 : before r1 r2 → merge r1 r2 = r2 ∧ merge r2 r1 = r2.
Proof.
  intros Hb. assert (¬ before r2 r1) as Hnb.
  { intros H. apply (no_later_refl r1). by eapply lww_before_trans. }
  unfold before in *. unfold merge.
  destruct (Z.eqb_spec (timestamp r1) 0), (Z.eqb_spec (timestamp r2) 0); try lia; try done.
  destruct (Z.gtb_spec (timestamp r2) (timestamp r1)), (Z.gtb_spec (timestamp r1) (timestamp r2)),
    (Z.ltb_spec (timestamp r2) (timestamp r1)), (Z.ltb_spec (timestamp r1) (timestamp r2));
    try lia; try done.
  destruct Hb as [_ [?|[?|[_ Hgt]]]]; [lia|lia|]. rewrite Hgt. split; [done|].
  destruct (string_gt (replica r1) (replica r2)) eqn:E; [|done].
  pose proof (string_gt_trans _ _ _ Hgt E) as Hbad. by rewrite string_gt_irrefl in Hbad.
Qed.

Lemma merge_same r1 r2 :
  same_stamp r1 r2 → merge r1 r2 = if timestamp r1 =? 0 then r2 else r1.
Proof.
  intros [Ht Hr]. unfold merge. destruct (Z.eqb_spec (timestamp r1) 0); [done|].
  destruct (Z.eqb_spec (timestamp r2) 0); [lia|]. rewrite Ht, Z.gtb_ltb, Z.ltb_irrefl.
  destruct Hr as [?|Hr]; [lia|]. by rewrite Hr, string_gt_irrefl.
Qed.

Lemma merge_choice r1 r2 : merge r1 r2 = r1 ∨ merge r1 r2 = r2.
Proof. unfold merge. repeat case_match; auto. Qed.

Lemma merge_upper r1 r2 : no_later r1 (merge r1 r2) ∧ no_later r2 (merge r1 r2).
Proof.
  destruct (stamp_trichotomy r1 r2) as [H|[H|H]].
  - destruct (merge_before r1 r2 H) as [-> _]. split; [|apply no_later_refl].
    intros H'. apply (no_later_refl r1). by eapply lww_before_trans.
  - assert (∀ r, no_later r1 r ↔ no_later r2 r) as Hiff.
    { intros r. unfold no_later. pose proof (same_stamp_sym _ _ H) as H'.
      split; intros Hn Hb; apply Hn; by eapply same_stamp_before_r. }
    destruct (merge_choice r1 r2) as [->| ->]; split; try apply no_later_refl;
      apply Hiff; apply no_later_refl.
  - destruct (merge_before r2 r1 H) as [_ ->]. split; [apply no_later_refl|].
    intros H'. apply (no_later_refl r1). by eapply lww_before_trans.
Qed.

(** ** The contract

    What makes last-writer-wins converge: a stamp determines what was written.
    [written ts replica] is the value the replica wrote at [ts]. *)

Definition stamped (written : Z → string → option json) r : Prop :=
  if timestamp r =? 0 then equals r empty = true
  else optional_text_eqb (value_ r) (written (timestamp r) (replica r)) = true.

Lemma equals_refl r : equals r r = true.
Proof. unfold equals. by rewrite Z.eqb_refl, bool_decide_true, optional_text_eqb_refl. Qed.

Lemma lww_equals_spec r1 r2 :
  equals r1 r2 = true ↔ timestamp r1 = timestamp r2 ∧ replica r1 = replica r2 ∧
    optional_text_eqb (value_ r1) (value_ r2) = true.
Proof. unfold equals. rewrite !andb_true_iff, Z.eqb_eq, bool_decide_eq_true. tauto. Qed.

Lemma equals_sym r1 r2 : equals r1 r2 = true → equals r2 r1 = true.
Proof. rewrite !lww_equals_spec. intros (-> & -> & ?). split_and!; [done|done|by apply optional_text_eqb_sym]. Qed.

Lemma equals_trans r1 r2 r3 : equals r1 r2 = true → equals r2 r3 = true → equals r1 r3 = true.
Proof.
  rewrite !lww_equals_spec. intros (-> & -> & ?) (-> & -> & ?).
  split_and!; [done|done|by eapply optional_text_eqb_trans].
Qed.

Lemma equals_same_stamp r1 r2 : equals r1 r2 = true → same_stamp r1 r2.
Proof. rewrite lww_equals_spec. intros (? & ? & _). split; auto. Qed.

Lemma same_stamp_equals written r1 r2 :
  stamped written r1 → stamped written r2 → same_stamp r1 r2 → equals r1 r2 = true.
Proof.
  unfold stamped. intros H1 H2 [Ht Hr]. rewrite <-Ht in H2.
  destruct (Z.eqb_spec (timestamp r1) 0).
  - eapply equals_trans; [exact H1|by apply equals_sym].
  - destruct Hr as [?|Hr]; [lia|]. rewrite Ht, Hr in H1. apply lww_equals_spec. split_and!; [done|done|].
    eapply optional_text_eqb_trans; [exact H1|]. rewrite <-Ht. by apply optional_text_eqb_sym.
Qed.

(** Two results that are both latest among the same writes are equal. *)
Lemma latest_equal written r1 r2 :
  stamped written r1 → stamped written r2 → no_later r1 r2 → no_later r2 r1 → equals r1 r2 = true.
Proof. intros ????. eapply same_stamp_equals; [done|done|]. by apply no_later_antisym. Qed.

Lemma stamped_merge written r1 r2 : stamped written r1 → stamped written r2 → stamped written (merge r1 r2).
Proof. by destruct (merge_choice r1 r2) as [->| ->]. Qed.

Lemma merge_least_upper r1 r2 r : no_later r1 r → no_later r2 r → no_later (merge r1 r2) r.
Proof. by destruct (merge_choice r1 r2) as [->| ->]. Qed.

Lemma equals_no_later r1 r2 : equals r1 r2 = true → no_later r1 r2.
Proof. intros Heq%equals_same_stamp Hb. apply same_stamp_sym in Heq. by eapply before_irrefl. Qed.

#[global] Instance LWWRegister_laws written : CrdtLaws LWWRegister (stamped written).
Proof.
  split; cbn.
  - intros r _. apply equals_refl.
  - intros r1 r2 _ _. apply equals_sym.
  - intros r1 r2 r3 _ _ _. apply equals_trans.
  - apply stamped_merge.
  - intros a a' b b' ???? Ha Hb. destruct (merge_upper a b), (merge_upper a' b').
    pose proof (equals_no_later _ _ Ha). pose proof (equals_no_later _ _ Hb).
    pose proof (equals_no_later _ _ (equals_sym _ _ Ha)). pose proof (equals_no_later _ _ (equals_sym _ _ Hb)).
    eapply latest_equal; [by apply stamped_merge..| |]; apply merge_least_upper; by eapply no_later_trans.
  - intros a _. destruct (merge_choice a a) as [->| ->]; apply equals_refl.
  - intros a b ??. destruct (merge_upper a b), (merge_upper b a).
    eapply latest_equal; [by apply stamped_merge..| |]; by apply merge_least_upper.
  - intros a b c ???. destruct (merge_upper a b), (merge_upper b c), (merge_upper (merge a b) c),
      (merge_upper a (merge b c)).
    eapply latest_equal; [by repeat apply stamped_merge..| |];
      repeat apply merge_least_upper; try done; eauto using no_later_trans.
Qed.

(** The register converges to the latest write when stamps determine
    values: [merge] returns one of its two sides, whichever was not written
    before the other, by time and then by replica id, and is idempotent,
    commutative and associative up to [equals], on decoded states too. *)
Theorem lww_latest_write (written : Z → string → option json) (a b c : LWWRegister) :
  stamped written a → stamped written b → stamped written c →
  (merge a b = a ∨ merge a b = b) ∧ no_later a (merge a b) ∧ no_later b (merge a b) ∧
  (before a b → merge a b = b ∧ merge b a = b) ∧
  equals (merge a a) a = true ∧
  equals (merge a b) (merge b a) = true ∧
  equals (merge (merge a b) c) (merge a (merge b c)) = true.
Proof.
  intros Ha Hb Hc. destruct (merge_upper a b). split_and!; [apply merge_choice|done|done|apply merge_before|..].
  - exact (crdt_idempotent (ok:=stamped written) a Ha).
  - exact (crdt_commutative (ok:=stamped written) a b Ha Hb).
  - exact (crdt_associative (ok:=stamped written) a b c Ha Hb Hc).
Qed.

(** Without that assumption it does not: two writes of one replica in the
    same millisecond leave every pair of replicas that hold them apart.  Each
    side keeps its own value through any number of merges with the other. *)
Theorem lww_same_stamp_diverges (rep : string) (ts : Z) (v1 v2 : option json) (rounds : nat) :
  ts ≠ 0 → optional_text_eqb v1 v2 = false →
  let a := assign rep v1 ts empty in
  let b := assign rep v2 ts empty in
  Nat.iter rounds (λ ab, (merge ab.1 ab.2, merge ab.2 ab.1)) (a, b) = (a, b) ∧
  equals a b = false ∧ equals (merge a b) (merge b a) = false.
Proof.
  intros Hts Hv a b.
  assert (merge a b = a ∧ merge b a = b) as [Hab Hba].
  { unfold a, b, assign. rewrite !merge_same by (split; [done|by right]). cbn [timestamp].
    destruct (Z.eqb_spec ts 0); [lia|done]. }
  assert (equals a b = false) as Hne.
  { unfold equals. cbn. by rewrite Hv, andb_false_r. }
  split_and!; [|done|by rewrite Hab, Hba].
  induction rounds as [|rounds IH]; [done|]. rewrite Nat.iter_succ, IH. cbn [fst snd]. by rewrite Hab, Hba.
Qed.

Lemma fromJSON_encoded now r :
  fromJSON now (Some (toJSON r)) =
    if decide (0 ≤ timestamp r ≤ now + MAX_TIMESTAMP_SKEW_MS) then Ok r else Err CrdtDecodeError.
Proof.
  destruct r as [v ts rep].
  assert (fromJSON now (Some (toJSON (mkLWWRegister v ts rep))) =
    (t ← assertPlausibleTimestamp (Some (JNumber (Num ts))) now; Ok (mkLWWRegister v t rep))) as ->
    by (by destruct v).
  cbn [timestamp]. case_decide as Hts.
  - by rewrite (proj2 (assertPlausibleTimestamp_Ok _ _ ts) (conj eq_refl Hts)).
  - destruct (assertPlausibleTimestamp (Some (JNumber (Num ts))) now) as [t|e] eqn:E.
    + apply assertPlausibleTimestamp_Ok in E as [[= <-] ?]. done.
    + cbn. revert E. unfold assertPlausibleTimestamp, throw_if. cbn. by repeat case_match; intros [= <-].
Qed.

(** The decoder of a register: an encoded register is accepted, unchanged,
    exactly when its timestamp is not negative and at most the skew allowance
    ahead of the clock; whatever frame is accepted satisfies that bound. *)
Theorem lww_decode (now : Z) (r : LWWRegister) (frame : option json) (r' : LWWRegister) :
  fromJSON now (Some (toJSON r)) =
    (if decide (0 ≤ timestamp r ≤ now + MAX_TIMESTAMP_SKEW_MS) then Ok r else Err CrdtDecodeError) ∧
  (fromJSON now frame = Ok r' → 0 ≤ timestamp r' ≤ now + MAX_TIMESTAMP_SKEW_MS).
Proof.
  split.
  - apply fromJSON_encoded.
  - unfold fromJSON. intros H. unbind. subst r'. cbn. by apply assertPlausibleTimestamp_Ok in Hok1 as [_ ?].
Qed.

(** ** Concrete registers *)

Definition red : LWWRegister := mkLWWRegister (Some (JString "red")) 100 "a".
Definition blue : LWWRegister := mkLWWRegister (Some (JString "blue")) 100 "b".

Definition colours (ts : Z) (rep : string) : option json :=
  Some (JString (if bool_decide (rep = "a") then "red" else "blue")).

Lemma lww_latest_write_witness :
  merge red blue = blue ∧ merge blue red = blue ∧
  equals (merge (merge red blue) empty) (merge red (merge blue empty)) = true.
Proof.
  destruct (lww_latest_write colours red blue empty) as (_ & _ & _ & Hb & _ & _ & Ha); [reflexivity..|].
  destruct Hb as [? ?]; [split; [vm_compute; congruence|right; right; split; reflexivity]|].
  split; [assumption|split; assumption].
Defined.

Lemma lww_same_stamp_diverges_witness :
  let a := assign "a" (Some (JString "red")) 100 empty in
  let b := assign "a" (Some (JString "blue")) 100 empty in
  equals (merge a b) (merge b a) = false.
Proof.
  apply (lww_same_stamp_diverges "a" 100 (Some (JString "red")) (Some (JString "blue")) 1);
    [lia|reflexivity].
Defined.

End LWWRegister.

Module LWWMap.
Import LWWRegister.

Record LWWMap (K : Type) := mkLWWMap {
  entries : gmap string (K * LWWRegister);
  customIdentity : option (K → string);
}.
Arguments mkLWWMap {K}.
Arguments entries {K}.
Arguments customIdentity {K}.

Section ops.
Context {K : Type} `{!JsonText K}.
Implicit Types m : LWWMap K.

Definition empty (custom : option (K → string)) : LWWMap K := mkLWWMap ∅ custom.

Definition identity m (key : K) : string := default stringify (customIdentity m) key.

Definition put (rep : string) (key : K) (v : option json) (ts : Z) m : LWWMap K :=
  let id := identity m key in
  let existing := entries m !! id in
  let register := assign rep v ts (default LWWRegister.empty (snd <$> existing)) in
  mkLWWMap (<[id := (default key (fst <$> existing), register)]> (entries m)) (customIdentity m).

(** A removal writes [null]. *)
Definition remove (rep : string) (key : K) (ts : Z) m : LWWMap K :=
  let id := identity m key in
  let existing := entries m !! id in
  let register := assign rep (Some JNull) ts (default LWWRegister.empty (snd <$> existing)) in
  mkLWWMap (<[id := (default key (fst <$> existing), register)]> (entries m)) (customIdentity m).

(** [value !== null]. *)
Definition live (r : LWWRegister) : bool :=
  match value r with Some JNull => false | _ => true end.

Definition get (key : K) m : option json :=
  match entries m !! identity m key with
  | None => None
  | Some (_, r) => if live r then value r else None
  end.

Definition has (key : K) m : bool := match get key m with None => false | Some _ => true end.

Definition live_entries m : list (string * (K * LWWRegister)) :=
  filter (λ e, live e.2.2 = true) (map_to_list (entries m)).
Definition keys m : list K := (λ e, e.2.1) <$> live_entries m.
Definition entriesArray m : list (K * option json) := (λ e, (e.2.1, value e.2.2)) <$> live_entries m.
Definition size m : nat := length (live_entries m).

Definition merge m1 m2 : LWWMap K :=
  mkLWWMap (merge_entries (entries m1) (entries m2)) (customIdentity m1).

Definition toJSON m : json :=
  JObject [("kind", JString "LWWMap");
           ("registers", table (λ e, LWWRegister.toJSON e.2) (entries m));
           ("keyValues", table (λ e, JString (stringify e.1)) (entries m))].

Definition decode_entry (now : Z) (keyValues : option json) (custom : option (K → string))
    (entries : gmap string (K * LWWRegister)) (e : string * json)
    : result CrdtError (gmap string (K * LWWRegister)) :=
  let '(wireId, registerJson) := e in
  key ← entry_key keyValues wireId;
  _ ← assertPlainObject (Some registerJson);
  register ← LWWRegister.fromJSON now (Some registerJson);
  let id := match custom with None => wireId | Some f => f key end in
  Ok (partial_alter (λ existing, merge_entry existing (key, register)) id entries).

Definition fromJSON (now : Z) (v : option json) (custom : option (K → string))
    : result CrdtError (LWWMap K) :=
  _ ← expect_kind "LWWMap" v;
  registers ← get_property v "registers";
  fields ← assertPlainObject registers;
  wire ← safeEntries fields;
  keyValues ← get_property v "keyValues";
  es ← for_of (decode_entry now keyValues custom) wire ∅;
  Ok (mkLWWMap es custom).

Definition equals m1 m2 : bool := equals_entries (entries m1) (entries m2).

#[global] Instance LWWMap_crdt : Crdt (LWWMap K) := {| crdt_merge := merge; crdt_equals := equals |}.

(** A stamp determines what was written under each identity. *)
Definition stamped_entries (written : string → Z → string → option json) m : Prop :=
  entries_ok (λ id, stamped (written id)) (entries m).

#[global] Instance LWWMap_laws written : CrdtLaws (LWWMap K) (stamped_entries written).
Proof. by apply (crdt_laws_via entries (entries_ok (λ id, stamped (written id)))); [apply _|..]. Qed.

Lemma lwwmap_merge_lookup m1 m2 id :
  entries (merge m1 m2) !! id =
    match entries m1 !! id, entries m2 !! id with
    | Some (key, r1), Some (_, r2) => Some (key, LWWRegister.merge r1 r2)
    | Some e, None | None, Some e => Some e
    | None, None => None
    end.
Proof.
  cbn [entries merge]. rewrite merge_entries_lookup.
  by destruct (entries m1 !! id) as [[? ?]|], (entries m2 !! id) as [[? ?]|].
Qed.

(** Everything the replica knows about [key] was written before stamp [r]. *)
Definition older (r : LWWRegister) (id : string) m : Prop :=
  ∀ e, entries m !! id = Some e → before e.2 r.

Lemma merge_with_latest m1 m2 id e :
  entries m1 !! id = Some e → older e.2 id m2 →
  (∃ k, entries (merge m1 m2) !! id = Some (k, e.2)) ∧ ∃ k, entries (merge m2 m1) !! id = Some (k, e.2).
Proof.
  destruct e as [k r]. cbn [snd]. intros Hid Hold. rewrite !lwwmap_merge_lookup, Hid.
  destruct (entries m2 !! id) as [[k2 r2]|] eqn:E; [|by split; eexists].
  destruct (merge_before r2 r (Hold _ E)) as [H1 H2]. rewrite H1, H2. by split; eexists.
Qed.

(** The map holds the latest write of every key, removals included: a
    read after a [put] or [remove] sees it and other keys are untouched; and
    after a merge, in either direction, with a replica that only knows older
    writes of the key, a removed key stays removed and a put value stays. *)
Theorem lwwmap_latest_wins (m m2 : LWWMap K) (rep : string) (key key' : K) (v : json) (ts : Z) :
  customIdentity m2 = customIdentity m → v ≠ JNull →
  let id := identity m key in
  let put' := put rep key (Some v) ts m in
  let removed := remove rep key ts m in
  get key put' = Some v ∧ get key removed = None ∧
  (identity m key' ≠ id → get key' put' = get key' m ∧ get key' removed = get key' m) ∧
  (older (mkLWWRegister (Some v) ts rep) id m2 →
     get key (merge put' m2) = Some v ∧ get key (merge m2 put') = Some v) ∧
  (older (mkLWWRegister (Some JNull) ts rep) id m2 →
     get key (merge removed m2) = None ∧ get key (merge m2 removed) = None).
Proof.
  intros Hcustom Hv id put' removed.
  assert (∀ mm : LWWMap K, customIdentity mm = customIdentity m → identity mm key = id) as Hid.
  { intros mm Hmm. unfold id, identity. by rewrite Hmm. }
  assert (∀ r k (mm : LWWMap K), customIdentity mm = customIdentity m → entries mm !! id = Some (k, r) →
    get key mm = if live r then value r else None) as Hget.
  { intros r k mm Hmm He. unfold get. by rewrite (Hid mm Hmm), He. }
  assert (∃ k, entries put' !! id = Some (k, mkLWWRegister (Some v) ts rep)) as [kp Hp].
  { eexists. apply lookup_insert_eq. }
  assert (∃ k, entries removed !! id = Some (k, mkLWWRegister (Some JNull) ts rep)) as [kr Hr].
  { eexists. apply lookup_insert_eq. }
  assert (live (mkLWWRegister (Some v) ts rep) = true) as Hlive by (by destruct v).
  split_and!.
  - rewrite (Hget _ _ put' eq_refl Hp), Hlive. done.
  - by rewrite (Hget _ _ removed eq_refl Hr).
  - intros Hne. unfold get, identity in *. cbn [entries customIdentity put' removed put remove] in *.
    by rewrite !lookup_insert_ne.
  - intros Hold. destruct (merge_with_latest put' m2 id _ Hp Hold) as [[k1 H1] [k2 H2]]. cbn [snd] in *.
    by rewrite (Hget _ _ (merge put' m2) eq_refl H1), (Hget _ _ (merge m2 put') Hcustom H2), Hlive.
  - intros Hold. destruct (merge_with_latest removed m2 id _ Hr Hold) as [[k1 H1] [k2 H2]]. cbn [snd] in *.
    by rewrite (Hget _ _ (merge removed m2) eq_refl H1), (Hget _ _ (merge m2 removed) Hcustom H2).
Qed.

(** ** The wire *)

Definition register_fits (now : Z) (r : LWWRegister) : Prop :=
  0 ≤ timestamp r ≤ now + MAX_TIMESTAMP_SKEW_MS.

Definition fits (now : Z) m : Prop :=
  (Z.of_nat (base.size (entries m)) ≤ MAX_CRDT_ENTRIES ∧ "__proto__" ∉ dom (entries m)) ∧
  map_Forall (λ _ e, register_fits now e.2) (entries m).

#[export] Instance register_fits_dec now r : Decision (register_fits now r) := _.
#[export] Instance fits_dec now m : Decision (fits now m) := _.

(** Every entry is filed under the identity of its key, as every operation
    that starts from [empty] files it. *)
Definition filed (custom : option (K → string)) m : Prop :=
  customIdentity m = custom ∧ ∀ id e, entries m !! id = Some e → id = default stringify custom e.1.

Lemma lwwmap_filed_empty custom : filed custom (empty custom).
Proof. split; [done|]. cbn [entries empty]. intros id e He. by rewrite lookup_empty in He. Qed.

Lemma filed_put custom rep key v ts m : filed custom m → filed custom (put rep key v ts m).
Proof.
  intros [Hc Hm]. split; [done|]. cbn [entries put]. intros id e [[<- <-]|[_ He]]%lookup_insert_Some; [|by apply Hm].
  unfold identity. rewrite Hc. cbn [fst].
  destruct (entries m !! default stringify custom key) as [[k0 r0]|] eqn:E; cbn; [|done].
  by apply Hm in E.
Qed.

Lemma lwwmap_filed_merge custom m1 m2 : filed custom m1 → filed custom m2 → filed custom (merge m1 m2).
Proof.
  intros [Hc1 H1] [Hc2 H2]. split; [done|]. intros id e. rewrite lwwmap_merge_lookup.
  destruct (entries m1 !! id) as [[k1 r1]|] eqn:E1, (entries m2 !! id) as [[k2 r2]|] eqn:E2;
    intros [= <-]; cbn; [by apply H1 in E1|by apply H1 in E1|by apply H2 in E2].
Qed.

Definition key_texts m : json := table (λ e, JString (stringify e.1)) (entries m).

Lemma lwwmap_fromJSON_toJSON now m custom :
  fromJSON now (Some (toJSON m)) custom =
    (es ← (wire ← safeEntries ((λ e, (e.1, LWWRegister.toJSON e.2.2)) <$> map_to_list (entries m));
           for_of (decode_entry now (Some (key_texts m)) custom) wire ∅);
     Ok (mkLWWMap es custom)).
Proof.
  transitivity (wire ← safeEntries ((λ e, (e.1, LWWRegister.toJSON e.2.2)) <$> map_to_list (entries m));
    es ← for_of (decode_entry now (Some (key_texts m)) custom) wire ∅; Ok (mkLWWMap es custom)); [done|].
  by destruct (safeEntries _).
Qed.

Lemma lwwmap_decode_entry_encoded now custom m acc id k r :
  filed custom m → entries m !! id = Some (k, r) →
  decode_entry now (Some (key_texts m)) custom acc (id, LWWRegister.toJSON r) =
    if decide (register_fits now r)
    then Ok (partial_alter (λ o, merge_entry o (k, r)) id acc) else Err CrdtDecodeError.
Proof.
  intros [_ Hfiled] Hid. pose proof (Hfiled _ _ Hid) as Hk. cbn in Hk.
  unfold decode_entry, key_texts. rewrite (entry_key_table fst (entries m) id (k, r) Hid).
  cbn [mbind result_bind fst]. change (assertPlainObject (Some (LWWRegister.toJSON r)))
    with (Ok (E:=CrdtError) ([("kind", JString "LWWRegister")] ++
      match value_ r with Some v => [("value", v)] | None => [] end ++
      [("timestamp", JNumber (Num (timestamp r))); ("replica", JString (replica r))])).
  cbn [mbind result_bind]. rewrite fromJSON_encoded.
  destruct (decide (register_fits now r)) as [Hr|Hr];
    [rewrite decide_True by exact Hr|by rewrite decide_False by exact Hr]. cbn [mbind result_bind].
  replace (match custom with None => id | Some f => f k end) with id; [done|].
  rewrite Hk. by destruct custom.
Qed.

(** A map of registers on the wire: a map whose entries are filed under
    the identity of their keys, as every operation files them, decodes under
    the same identity to itself exactly when it fits the decoder's bounds and
    every timestamp is plausible at the decoder's clock. *)
Theorem lwwmap_roundtrip (now : Z) (custom : option (K → string)) m :
  filed custom m →
  fromJSON now (Some (toJSON m)) custom = if decide (fits now m) then Ok m else Err CrdtDecodeError.
Proof.
  intros Hm. rewrite lwwmap_fromJSON_toJSON.
  rewrite (decode_encoded_entries _ (λ e, LWWRegister.toJSON e.2) (λ e, register_fits now e.2))
    by (intros acc id [k r]; by apply lwwmap_decode_entry_encoded).
  destruct (decide (fits now m)) as [Hf|Hf]; [rewrite decide_True by exact Hf|by rewrite decide_False by exact Hf].
  destruct m as [es cu], Hm as [Hcu _]. cbn in Hcu. by subst cu.
Qed.

End ops.

(** ** Concrete maps *)

Definition dark : LWWMap string := put "a" "theme" (Some (JString "dark")) 100 (empty (Some id)).

Lemma lwwmap_latest_wins_witness :
  let m2 := put "b" "theme" (Some (JString "light")) 50 (empty (Some id)) in
  get "theme" (merge dark m2) = Some (JString "dark") ∧
  get "theme" (merge m2 (remove "a" "theme" 100 (empty (Some id)))) = None.
Proof.
  intros m2.
  destruct (lwwmap_latest_wins (empty (Some id)) m2 "a" "theme" "other" (JString "dark") 100)
    as (_ & _ & _ & Hp & Hr); [reflexivity|discriminate|].
  split.
  - apply Hp. intros e [= <-]. split; [discriminate|right; left; reflexivity].
  - apply Hr. intros e [= <-]. split; [discriminate|right; left; reflexivity].
Defined.

Lemma lwwmap_roundtrip_witness : fromJSON 0 (Some (toJSON dark)) (Some id) = Ok dark.
Proof.
  rewrite (lwwmap_roundtrip 0 (Some id) dark).
  - vm_compute. reflexivity.
  - apply filed_put, lwwmap_filed_empty.
Defined.

End LWWMap.
