(* ===== verification/GSet.v ===== *)
(** * [src/crdt/GSet.ts]

    The grow-only set: elements under their identity strings. *)

From S2P Require Import Prelude Json Crdt.

Local Open Scope Z_scope.
Set Warnings "-clear-no-such-hyp".

Module GSet.

Record GSet (E : Type) := mkGSet {
  elements : gmap string E;
  customIdentity : option (E → string);
}.
Arguments mkGSet {E}.
Arguments elements {E}.
Arguments customIdentity {E}.

Section ops.
Context {E : Type} `{!JsonText E}.
Implicit Types s : GSet E.

Definition empty (custom : option (E → string)) : GSet E := mkGSet ∅ custom.

Definition identity s (element : E) : string := default stringify (customIdentity s) element.

Definition has (element : E) s : bool := bool_decide (is_Some (elements s !! identity s element)).

Definition add (element : E) s : GSet E :=
  if has element s then s
  else mkGSet (<[identity s element := element]> (elements s)) (customIdentity s).

Definition value s : list E := snd <$> map_to_list (elements s).
Definition size s : nat := base.size (elements s).

(** The loop sets an element only when its key is absent. *)
Definition merge s1 s2 : GSet E :=
  if (size s2 =? 0)%nat then s1
  else if (size s1 =? 0)%nat then s2
  else mkGSet
    (foldl (λ next e, partial_alter (λ o, match o with None => Some e.2 | Some x => Some x end) e.1 next)
       (elements s1) (map_to_list (elements s2)))
    (customIdentity s1).

Definition toJSON s : json :=
  JObject [("kind", JString "GSet"); ("elements", JArray ((λ e, JString (stringify e)) <$> value s))].

Definition fromJSON (v : option json) (custom : option (E → string)) : result CrdtError (GSet E) :=
  _ ← expect_kind "GSet" v;
  arr ← get_property v "elements";
  texts ← assertStringArray arr;
  es ← for_of (λ es text, element ← JSON_parse (JString text);
                          Ok (<[default stringify custom element := element]> es)) texts ∅;
  Ok (mkGSet es custom).

Definition equals s1 s2 : bool := map_equals (λ _ _, true) (elements s1) (elements s2).

#[global] Instance GSet_crdt : Crdt (GSet E) := {| crdt_merge := merge; crdt_equals := equals |}.

Lemma equals_dom s1 s2 : equals s1 s2 = true ↔ dom (elements s1) = dom (elements s2).
Proof.
  unfold equals. rewrite map_equals_spec. split.
  - intros Hall. apply set_eq. intros i. rewrite !elem_of_dom.
    destruct (Hall i) as [x y _|]; [split; by eexists|done].
  - intros Hdom i. assert (i ∈ dom (elements s1) ↔ i ∈ dom (elements s2)) as Hi by (by rewrite Hdom).
    rewrite !elem_of_dom in Hi. destruct (elements s1 !! i), (elements s2 !! i); try constructor; try done.
    + destruct Hi as [Hi _]. by destruct Hi.
    + destruct Hi as [_ Hi]. by destruct Hi.
Qed.

Lemma merge_dom s1 s2 : dom (elements (merge s1 s2)) = dom (elements s1) ∪ dom (elements s2).
Proof.
  unfold merge, size. destruct (Nat.eqb_spec (base.size (elements s2)) 0) as [H2|_].
  { apply map_size_empty_inv in H2. rewrite H2. set_solver. }
  destruct (Nat.eqb_spec (base.size (elements s1)) 0) as [H1|_].
  { apply map_size_empty_inv in H1. rewrite H1. set_solver. }
  cbn [elements]. apply set_eq. intros i. rewrite elem_of_union, !elem_of_dom.
  rewrite (map_loop_lookup (λ o y, match o with None => Some y | Some x => Some x end)).
  destruct (elements s1 !! i), (elements s2 !! i); rewrite ?is_Some_alt; tauto.
Qed.

(** An element this replica already held is kept as this replica holds it. *)
Lemma merge_keeps_ours s1 s2 i e : elements s1 !! i = Some e → elements (merge s1 s2) !! i = Some e.
Proof.
  intros Hi. unfold merge. destruct (_ =? 0)%nat; [done|].
  destruct (Nat.eqb_spec (size s1) 0) as [H1|_].
  { apply map_size_empty_inv in H1. by rewrite H1 in Hi. }
  cbn [elements]. rewrite (map_loop_lookup (λ o y, match o with None => Some y | Some x => Some x end)), Hi.
  by destruct (elements s2 !! i).
Qed.

#[global] Instance GSet_laws : CrdtLaws (GSet E) (λ _, True).
Proof.
  split; cbn; intros; rewrite ?equals_dom, ?merge_dom in *; try done; try congruence; set_solver.
Qed.

(** Every element is filed under its identity. *)
Definition filed (custom : option (E → string)) s : Prop :=
  customIdentity s = custom ∧ ∀ i e, elements s !! i = Some e → i = default stringify custom e.

Inductive built (custom : option (E → string)) : GSet E → Prop :=
| built_empty : built custom (empty custom)
| built_add e s : built custom s → built custom (add e s)
| built_merge s1 s2 : built custom s1 → built custom s2 → built custom (merge s1 s2)
| built_decoded v s : fromJSON v custom = Ok s → built custom s.

Lemma gset_built_filed custom s : built custom s → filed custom s.
Proof.
  induction 1 as [|e s _ [Hc IH]|s1 s2 _ [Hc1 IH1] _ [Hc2 IH2]|v s Hdec].
  - split; [done|]. cbn [elements empty]. intros i e He. by rewrite lookup_empty in He.
  - unfold add. destruct (has e s); [done|]. split; [done|]. cbn [elements].
    intros i x [[<- <-]|[_ Hx]]%lookup_insert_Some; [|by apply IH]. unfold identity. by rewrite Hc.
  - unfold merge. destruct (_ =? 0)%nat; [done|]. destruct (_ =? 0)%nat; [done|].
    split; [done|]. cbn [elements]. intros i x.
    rewrite (map_loop_lookup (λ o y, match o with None => Some y | Some x => Some x end)).
    destruct (elements s2 !! i) eqn:E2, (elements s1 !! i) eqn:E1; intros [= <-];
      [by apply IH1|by apply IH2|by apply IH1].
  - unfold fromJSON in Hdec. unbind. subst s. split; [done|]. cbn [elements].
    eapply (for_of_invariant _ (λ es : gmap string E, ∀ i e, es !! i = Some e → i = default stringify custom e));
      [| |exact Hok2].
    + intros es x es' Hes _ Hx. cbv beta in Hx. unbind. subst es'.
      intros i e [[<- <-]|[_ He]]%lookup_insert_Some; [done|by apply Hes].
    + intros i e He. by rewrite lookup_empty in He.
Qed.

(** Filing the elements of a set one by one rebuilds it. *)
Lemma refile custom s :
  filed custom s →
  foldl (λ es e, <[default stringify custom e := e]> es) ∅ (value s) = elements s.
Proof.
  intros [_ Hs]. unfold value. rewrite foldl_fmap.
  transitivity (foldl (λ next e, partial_alter (λ o, Some e.2) e.1 next) (∅ : gmap string E)
    (map_to_list (elements s))).
  - assert (∀ l (acc : gmap string E), (∀ e, e ∈ l → elements s !! e.1 = Some e.2) →
      foldl (λ es e, <[default stringify custom e.2 := e.2]> es) acc l =
      foldl (λ next e, partial_alter (λ o, Some e.2) e.1 next) acc l) as Hloop.
    { intros l. induction l as [|[i e] l IH]; intros acc Hl; [done|]. cbn.
      assert (i = default stringify custom e) as <- by (apply Hs, (Hl (i, e)); by left).
      apply IH. intros. apply Hl. by right. }
    apply Hloop. intros [i e] Hi%elem_of_map_to_list. done.
  - apply map_eq. intros i. rewrite (map_loop_lookup (λ _ y, Some y)).
    destruct (elements s !! i); [done|apply lookup_empty].
Qed.

Lemma gset_fromJSON_toJSON custom s :
  filed custom s →
  fromJSON (Some (toJSON s)) custom =
    if decide (Z.of_nat (size s) ≤ MAX_CRDT_ENTRIES) then Ok s else Err CrdtDecodeError.
Proof.
  intros Hs. transitivity (texts ← assertStringArray (Some (JArray (JString <$> (stringify <$> value s))));
    es ← for_of (λ es text, element ← JSON_parse (JString text);
                            Ok (<[default stringify custom element := element]> es)) texts ∅;
    Ok (mkGSet es custom)).
  { unfold fromJSON, toJSON. rewrite <-list_fmap_compose. done. }
  assert (length (value s) = size s) as Hlen.
  { unfold value, size. by rewrite length_fmap, length_map_to_list. }
  case_decide as Hsize.
  - rewrite assertStringArray_strings by (by rewrite length_fmap, Hlen). cbn [mbind result_bind].
    rewrite for_of_fmap, (for_of_foldl _ (λ es e, <[default stringify custom e := e]> es))
      by (intros; by rewrite JSON_parse_stringify).
    cbn [mbind result_bind]. rewrite refile by done. destruct s, Hs as [Hc _]. cbn in Hc. by subst.
  - unfold assertStringArray. rewrite !length_fmap, Hlen.
    destruct (Z.gtb_spec (Z.of_nat (size s)) MAX_CRDT_ENTRIES); [done|lia].
Qed.

Lemma has_elem e s : has e s = bool_decide (identity s e ∈ dom (elements s)).
Proof. unfold has. apply bool_decide_ext. by rewrite elem_of_dom. Qed.

Lemma has_merge e s1 s2 :
  customIdentity s1 = customIdentity s2 → has e (merge s1 s2) = has e s1 || has e s2.
Proof.
  intros Hid. rewrite !has_elem, merge_dom.
  assert (identity (merge s1 s2) e = identity s1 e) as ->.
  { unfold merge, identity. destruct (size s2 =? 0)%nat, (size s1 =? 0)%nat; cbn [customIdentity]; by rewrite ?Hid. }
  assert (identity s2 e = identity s1 e) as -> by (unfold identity; by rewrite Hid).
  do 3 case_bool_decide; try done; set_solver.
Qed.

(** The grow-only set only grows: an added element is present and no
    other element's presence changes, a merge holds exactly the union, whatever
    was built encodes to a frame that decodes, under the same identity, to the
    same set exactly when it holds at most [MAX_CRDT_ENTRIES] elements. *)
Theorem gset_union (custom : option (E → string)) (s1 s2 : GSet E) (e x : E) :
  built custom s1 → built custom s2 →
  has e (add e s1) = true ∧
  (identity s1 x ≠ identity s1 e → has x (add e s1) = has x s1) ∧
  (has x s1 = true → has x (add e s1) = true) ∧
  has x (merge s1 s2) = has x s1 || has x s2 ∧
  equals (merge s1 s2) (merge s2 s1) = true ∧
  fromJSON (Some (toJSON (merge s1 s2))) custom =
    (if decide (Z.of_nat (size (merge s1 s2)) ≤ MAX_CRDT_ENTRIES)
     then Ok (merge s1 s2) else Err CrdtDecodeError).
Proof.
  intros H1 H2. pose proof (gset_built_filed _ _ H1) as [Hc1 _]. pose proof (gset_built_filed _ _ H2) as [Hc2 _].
  assert (∀ y, has y (add e s1) = bool_decide (identity s1 y = identity s1 e) || has y s1) as Hadd.
  { intros y. unfold add. destruct (has e s1) eqn:He.
    - case_bool_decide as Hy; [|done]. rewrite has_elem in *. by rewrite Hy.
    - rewrite !has_elem. cbn [elements]. rewrite dom_insert_L.
      change (identity (mkGSet _ (customIdentity s1)) y) with (identity s1 y).
      do 3 case_bool_decide; try done; set_solver. }
  split_and!.
  - by rewrite Hadd, bool_decide_true.
  - intros Hne. by rewrite Hadd, bool_decide_false.
  - intros Hx. by rewrite Hadd, Hx, orb_true_r.
  - apply has_merge. congruence.
  - apply equals_dom. rewrite !merge_dom. set_solver.
  - by apply gset_fromJSON_toJSON, gset_built_filed, built_merge.
Qed.

End ops.

Lemma gset_union_witness :
  let s1 := add "apple" (empty (Some id)) in
  let s2 := add "pear" (empty (Some id)) in
  has "pear" (merge s1 s2) = true ∧ has "apple" (merge s1 s2) = has "apple" s1 || has "apple" s2 ∧
  fromJSON (Some (toJSON (merge s1 s2))) (Some id) = Ok (merge s1 s2).
Proof.
  intros s1 s2.
  assert (built (Some id) s1 ∧ built (Some id) s2) as [H1 H2] by (split; apply built_add, built_empty).
  destruct (gset_union (Some id) s1 s2 "apple" "apple" H1 H2) as (_ & _ & _ & Hm & _ & Hw).
  split; [vm_compute; reflexivity|split; [exact Hm|]]. rewrite Hw. vm_compute. reflexivity.
Defined.

End GSet.
