(* ===== verification/ORSet.v ===== *)
(** * [src/crdt/ORSet.ts]

    The observed-remove set: every add stamps its element with a fresh tag, a
    remove moves the tags it has seen to the tombstones, and a merge keeps the
    tags nobody has tombstoned. *)

From S2P Require Import Prelude Json Crdt.

Local Open Scope Z_scope.
Set Warnings "-clear-no-such-hyp".

(** [src/util/RandomString.ts]: [draws] is what the generator produces. *)
Definition MAXIMUM_DRAW_ATTEMPTS : nat := Z.to_nat 1000.

Fixpoint drawUntilFree (attempts : nat) (draws : nat → string) (exists_ : string → bool) : option string :=
  match attempts with
  | O => None
  | S attempts =>
      let candidate := draws 0%nat in
      if exists_ candidate then drawUntilFree attempts (λ i, draws (S i)) exists_ else Some candidate
  end.

Module ORSet.

Abbreviation tags := (gset string).

Record ORSet (E : Type) := mkORSet {
  elements : gmap string (E * tags);
  tombstones : gmap string tags;
  customIdentity : option (E → string);
}.
Arguments mkORSet {E}.
Arguments elements {E}.
Arguments tombstones {E}.
Arguments customIdentity {E}.

(** ** The helpers on maps of sets *)

Definition flattenMapOfSets (m : gmap string tags) : tags := ⋃ (snd <$> map_to_list m).

Definition unionMapOfSets (ours theirs : gmap string tags) : gmap string tags :=
  base.merge (λ o t, let merged := default ∅ o ∪ default ∅ t in
                     if (0 <? size merged)%nat then Some merged else None) ours theirs.

Definition mapOfSetsEqual (ours theirs : gmap string tags) : bool :=
  map_equals (λ a b, bool_decide (a = b)) ours theirs.

Definition set_text (t : tags) : json := JArray (JString <$> base.elements t).

Definition mapOfSetsToObject (m : gmap string tags) : json := table set_text m.

(** [objectToMapOfSets]: buckets move to the key their element now has. *)
Definition objectToMapOfSets (obj : list (string * list string)) (localKeys : gmap string string)
    : gmap string tags :=
  foldl (λ out e, partial_alter (λ bucket, Some (default ∅ bucket ∪ list_to_set e.2))
                    (default e.1 (localKeys !! e.1)) out) ∅ obj.

Section ops.
Context {E : Type} `{!JsonText E}.
Implicit Types s : ORSet E.

Definition empty (custom : option (E → string)) : ORSet E := mkORSet ∅ ∅ custom.

Definition identity s (element : E) : string := default stringify (customIdentity s) element.

(** The tags of an element-key, none when it has no entry. *)
Definition live_tags s (key : string) : tags := default ∅ (snd <$> elements s !! key).
Definition removed_tags s (key : string) : tags := default ∅ (tombstones s !! key).

(** [add]: [None] when no free tag was drawn. *)
Definition add (replica : string) (element : E) (draws : nat → string) s : option (ORSet E) :=
  let key := identity s element in
  let taken suffix := let candidate := (replica +:+ "#" +:+ suffix) in
    bool_decide (candidate ∈ live_tags s key) || bool_decide (candidate ∈ removed_tags s key) in
  match drawUntilFree MAXIMUM_DRAW_ATTEMPTS draws taken with
  | None => None
  | Some suffix =>
      let tag := (replica +:+ "#" +:+ suffix) in
      Some (mkORSet (<[key := (element, live_tags s key ∪ {[tag]})]> (elements s))
                    (tombstones s) (customIdentity s))
  end.

Definition remove (element : E) s : ORSet E :=
  let key := identity s element in
  match elements s !! key with
  | None => s
  | Some (_, ts) =>
      if (size ts =? 0)%nat then s
      else mkORSet (delete key (elements s))
                   (<[key := removed_tags s key ∪ ts]> (tombstones s)) (customIdentity s)
  end.

Definition has (element : E) s : bool := (0 <? size (live_tags s (identity s element)))%nat.

Definition shown (e : string * (E * tags)) : Prop := (0 < size e.2.2)%nat.
Definition value s : list E := (λ e, e.2.1) <$> filter shown (map_to_list (elements s)).
Definition size_ s : nat := length (filter shown (map_to_list (elements s))).

(** The merged entry of one key. *)
Definition merge_key (vetoed : tags) (ours theirs : option (E * tags)) : option (E * tags) :=
  let merged := (default ∅ (snd <$> ours) ∪ default ∅ (snd <$> theirs)) ∖ vetoed in
  if (0 <? size merged)%nat then
    match ours, theirs with
    | Some (e, _), _ | None, Some (e, _) => Some (e, merged)
    | None, None => None
    end
  else None.

Definition merge s1 s2 : ORSet E :=
  let mergedTombstones := unionMapOfSets (tombstones s1) (tombstones s2) in
  let vetoed := flattenMapOfSets mergedTombstones in
  mkORSet (base.merge (merge_key vetoed) (elements s1) (elements s2)) mergedTombstones (customIdentity s1).

Definition toJSON s : json :=
  JObject [("kind", JString "ORSet");
           ("elements", table (λ e, set_text e.2) (elements s));
           ("elementValues", table (λ e, JString (stringify e.1)) (elements s));
           ("tombstones", mapOfSetsToObject (tombstones s))].

(** The loop over [json.elements]: the state is [elements] and [localKeys]. *)
Definition decode_element (elementValues : option json) (custom : option (E → string))
    (acc : gmap string (E * tags) * gmap string string) (e : string * json)
    : result CrdtError (gmap string (E * tags) * gmap string string) :=
  let '(es, localKeys) := acc in
  let '(wireKey, tagsJson) := e in
  ts ← assertStringArray (Some tagsJson);
  element ← entry_key elementValues wireKey;
  let key := match custom with None => wireKey | Some f => f element end in
  let localKeys := if bool_decide (key = wireKey) then localKeys else <[wireKey := key]> localKeys in
  let entry := match es !! key with
               | None => (element, list_to_set ts)
               | Some (el, existing) => (el, existing ∪ list_to_set ts)
               end in
  Ok (<[key := entry]> es, localKeys).

Definition fromJSON (v : option json) (custom : option (E → string)) : result CrdtError (ORSet E) :=
  _ ← expect_kind "ORSet" v;
  elementsJson ← get_property v "elements";
  elementFields ← assertPlainObject elementsJson;
  tombstonesJson ← get_property v "tombstones";
  tombstoneFields ← assertPlainObject tombstonesJson;
  tombstoneEntries ← safeEntries tombstoneFields;
  buckets ← for_of (λ bs e, ts ← assertStringArray (Some e.2); Ok (bs ++ [(e.1, ts)])) tombstoneEntries [];
  elementEntries ← safeEntries elementFields;
  elementValues ← get_property v "elementValues";
  acc ← for_of (decode_element elementValues custom) elementEntries (∅, ∅);
  Ok (mkORSet acc.1 (objectToMapOfSets buckets acc.2) custom).

Definition equals s1 s2 : bool :=
  map_equals (λ x y, bool_decide (x.2 = y.2)) (elements s1) (elements s2) &&
  mapOfSetsEqual (tombstones s1) (tombstones s2).

#[global] Instance ORSet_crdt : Crdt (ORSet E) := {| crdt_merge := merge; crdt_equals := equals |}.

(** ** Tags *)

(** Every tag the set has tombstoned, under whatever key. *)
Definition vetoed s : tags := flattenMapOfSets (tombstones s).

Lemma flatten_elem (m : gmap string tags) t :
  t ∈ flattenMapOfSets m ↔ ∃ key, t ∈ default ∅ (m !! key).
Proof.
  unfold flattenMapOfSets. rewrite elem_of_union_list. split.
  - intros (X & HX%list_elem_of_fmap & Ht). destruct HX as ([key Y] & -> & Hin%elem_of_map_to_list).
    exists key. cbn in *. by rewrite Hin.
  - intros [key Ht]. destruct (m !! key) as [X|] eqn:Hk; [|set_solver].
    exists X. split; [|done]. apply list_elem_of_fmap. exists (key, X). by rewrite elem_of_map_to_list.
Qed.

Lemma size_pos_nonempty (X : tags) : (0 <? size X)%nat = true ↔ X ≠ ∅.
Proof.
  rewrite Nat.ltb_lt. split.
  - intros Hs ->. rewrite size_empty in Hs. lia.
  - intros Hne. destruct (decide (size X = 0%nat)) as [Hz|]; [|lia].
    exfalso. by apply Hne, leibniz_equiv, size_empty_inv.
Qed.

Lemma size_pos_false (X : tags) : (0 <? size X)%nat = false → X = ∅.
Proof.
  intros Hs. destruct (decide (X = ∅)) as [|Hne]; [done|]. apply size_pos_nonempty in Hne. congruence.
Qed.

Lemma union_removed m1 m2 key :
  default ∅ (unionMapOfSets m1 m2 !! key) = default ∅ (m1 !! key) ∪ default ∅ (m2 !! key).
Proof.
  unfold unionMapOfSets. rewrite lookup_merge. unfold diag_None.
  assert (∀ X : tags, default ∅ (if (0 <? size X)%nat then Some X else None) = X) as Hdef.
  { intros X. destruct (0 <? size X)%nat eqn:Hs; [done|]. by rewrite (size_pos_false X Hs). }
  destruct (m1 !! key), (m2 !! key); [apply Hdef..|]. cbn. set_solver.
Qed.

Lemma merge_removed s1 s2 key :
  removed_tags (merge s1 s2) key = removed_tags s1 key ∪ removed_tags s2 key.
Proof. apply union_removed. Qed.

Lemma vetoed_elem s t : t ∈ vetoed s ↔ ∃ key, t ∈ removed_tags s key.
Proof. apply flatten_elem. Qed.

Lemma merge_vetoed s1 s2 : vetoed (merge s1 s2) = vetoed s1 ∪ vetoed s2.
Proof.
  apply set_eq. intros t. rewrite elem_of_union, !vetoed_elem. setoid_rewrite merge_removed.
  set_solver.
Qed.

Lemma merge_key_tags (veto : tags) (ours theirs : option (E * tags)) :
  default ∅ (snd <$> merge_key veto ours theirs) =
    (default ∅ (snd <$> ours) ∪ default ∅ (snd <$> theirs)) ∖ veto.
Proof.
  unfold merge_key. set (merged := (_ ∪ _) ∖ _).
  destruct (0 <? size merged)%nat eqn:Hs; [|by rewrite (size_pos_false merged Hs)].
  destruct ours as [[e1 X]|], theirs as [[e2 Y]|]; [done..|]. unfold merged. cbn. set_solver.
Qed.

Lemma merge_elements s1 s2 key :
  elements (merge s1 s2) !! key = merge_key (vetoed (merge s1 s2)) (elements s1 !! key) (elements s2 !! key).
Proof.
  unfold vetoed. cbn [elements merge tombstones]. rewrite lookup_merge. unfold diag_None.
  destruct (elements s1 !! key), (elements s2 !! key); try done.
  unfold merge_key. cbn [fmap option_fmap option_map default]. by case_match.
Qed.

Lemma merge_live s1 s2 key :
  live_tags (merge s1 s2) key = (live_tags s1 key ∪ live_tags s2 key) ∖ (vetoed s1 ∪ vetoed s2).
Proof. unfold live_tags. by rewrite merge_elements, merge_key_tags, merge_vetoed. Qed.

(** ** Well-formed sets

    No entry and no bucket is empty, and no tag is live and tombstoned at once. *)
Definition wf s : Prop :=
  (∀ key e, elements s !! key = Some e → e.2 ≠ ∅) ∧
  (∀ key X, tombstones s !! key = Some X → X ≠ ∅) ∧
  ∀ key, live_tags s key ## vetoed s.

Lemma wf_empty custom : wf (empty custom).
Proof.
  split_and!; cbn [elements tombstones empty]; [intros key e He; by rewrite lookup_empty in He..|].
  intros key. unfold live_tags. cbn [elements empty]. rewrite lookup_empty. cbn. set_solver.
Qed.

Lemma wf_merge s1 s2 : wf (merge s1 s2) ↔ True.
Proof.
  split; [done|]. intros _. split_and!.
  - intros key e. rewrite merge_elements. unfold merge_key. set (merged := (_ ∪ _) ∖ _).
    destruct (0 <? size merged)%nat eqn:Hs; [|done]. apply size_pos_nonempty in Hs.
    destruct (elements s1 !! key) as [[e1 X]|], (elements s2 !! key) as [[e2 Y]|]; by intros [= <-].
  - intros key X. cbn [tombstones merge]. unfold unionMapOfSets. rewrite lookup_merge. unfold diag_None.
    destruct (tombstones s1 !! key), (tombstones s2 !! key); [..|done].
    all: case_match eqn:Hs; [|done]; intros [= <-]; by apply size_pos_nonempty.
  - intros key. rewrite merge_live, merge_vetoed. set_solver.
Qed.

(** The loop of [add] returns a candidate that is free. *)
Lemma drawUntilFree_free n draws taken suffix :
  drawUntilFree n draws taken = Some suffix → taken suffix = false.
Proof.
  revert draws. induction n as [|n IH]; intros draws; cbn; [done|].
  destruct (taken (draws 0%nat)) eqn:Hd; [apply IH|]. by intros [= <-].
Qed.

(** Adding: one new tag under the element's key, nothing else. *)
Lemma add_spec replica e draws s s' :
  add replica e draws s = Some s' →
  ∃ tag, (tag ∉ live_tags s (identity s e)) ∧ (tag ∉ removed_tags s (identity s e)) ∧
    (∀ key, live_tags s' key = if bool_decide (key = identity s e)
                               then live_tags s key ∪ {[tag]} else live_tags s key) ∧
    tombstones s' = tombstones s ∧ customIdentity s' = customIdentity s ∧
    elements s' !! identity s e = Some (e, live_tags s (identity s e) ∪ {[tag]}) ∧
    (∀ key, key ≠ identity s e → elements s' !! key = elements s !! key).
Proof.
  unfold add. case_match eqn:Hdraw; [|done]. intros [= <-].
  apply drawUntilFree_free, orb_false_iff in Hdraw as [H1%bool_decide_eq_false H2%bool_decide_eq_false].
  eexists. split_and!; [exact H1|exact H2| |done|done|apply lookup_insert_eq|].
  - intros key. unfold live_tags. cbn [elements]. case_bool_decide as Hk.
    + subst key. by rewrite lookup_insert_eq.
    + by rewrite lookup_insert_ne.
  - intros key Hk. cbn [elements]. by rewrite lookup_insert_ne.
Qed.

(** Removing: the live tags of the key become tombstones. *)
Lemma remove_spec e s :
  (∀ key, live_tags (remove e s) key = if bool_decide (key = identity s e) then ∅ else live_tags s key) ∧
  (∀ key, removed_tags (remove e s) key = if bool_decide (key = identity s e)
                                          then removed_tags s key ∪ live_tags s key else removed_tags s key) ∧
  customIdentity (remove e s) = customIdentity s.
Proof.
  unfold remove, live_tags, removed_tags.
  destruct (elements s !! identity s e) as [[el X]|] eqn:He.
  - destruct (Nat.eqb_spec (size X) 0) as [Hz|_].
    { apply size_empty_inv, leibniz_equiv in Hz as ->. split_and!; [intros key..|done]; case_bool_decide as Hk;
        try done; subst key; rewrite He; cbn; set_solver. }
    cbn [elements tombstones customIdentity]. split_and!; [intros key..|done]; case_bool_decide as Hk.
    + subst key. by rewrite lookup_delete_eq.
    + by rewrite lookup_delete_ne.
    + subst key. by rewrite lookup_insert_eq, He.
    + by rewrite lookup_insert_ne.
  - split_and!; [intros key..|done]; case_bool_decide as Hk; try done; subst key; rewrite He; cbn; set_solver.
Qed.

Lemma remove_vetoed e s : vetoed (remove e s) = vetoed s ∪ live_tags s (identity s e).
Proof.
  destruct (remove_spec e s) as (_ & Hr & _). apply set_eq. intros t.
  rewrite elem_of_union, !vetoed_elem. split.
  - intros [key Ht]. rewrite Hr in Ht. case_bool_decide as Hk; [subst key|]; set_solver.
  - intros [[key Ht]|Ht].
    + exists key. rewrite Hr. case_bool_decide; set_solver.
    + exists (identity s e). rewrite Hr, bool_decide_true by done. set_solver.
Qed.

Lemma wf_remove e s :
  wf s → (∀ k1 k2, k1 ≠ k2 → live_tags s k1 ## live_tags s k2) → wf (remove e s).
Proof.
  intros (Hel & Htomb & Hdisj) Huniq. split_and!.
  - intros key x. unfold remove. destruct (elements s !! identity s e) as [[el X]|]; [|apply Hel].
    destruct (size X =? 0)%nat; [apply Hel|]. cbn [elements]. intros [_ Hx]%lookup_delete_Some. by eapply Hel.
  - intros key X. unfold remove. destruct (elements s !! identity s e) as [[el Y]|] eqn:He; [|apply Htomb].
    destruct (size Y =? 0)%nat eqn:Hs; [apply Htomb|]. cbn [tombstones].
    intros [[<- <-]|[_ HX]]%lookup_insert_Some; [|by eapply Htomb].
    apply Hel in He. cbn in He. set_solver.
  - intros key. destruct (remove_spec e s) as (Hl & _ & _). rewrite Hl, remove_vetoed.
    case_bool_decide as Hk; [set_solver|]. specialize (Hdisj key). specialize (Huniq _ _ Hk). set_solver.
Qed.

(** ** The contract *)

Lemma orset_equals_spec s1 s2 :
  wf s1 → wf s2 → equals s1 s2 = true ↔
    ∀ key, live_tags s1 key = live_tags s2 key ∧ removed_tags s1 key = removed_tags s2 key.
Proof.
  intros (He1 & Ht1 & _) (He2 & Ht2 & _). unfold equals, mapOfSetsEqual.
  rewrite andb_true_iff, !map_equals_spec. split.
  - intros [Hel Htomb] key. unfold live_tags, removed_tags. split.
    + destruct (Hel key) as [x y Hxy|]; [|done]. apply bool_decide_eq_true in Hxy. done.
    + destruct (Htomb key) as [x y Hxy|]; [|done]. by apply bool_decide_eq_true in Hxy.
  - intros Hall. split; intros key; destruct (Hall key) as [Hl Hr]; unfold live_tags, removed_tags in *.
    + destruct (elements s1 !! key) as [x|] eqn:E1, (elements s2 !! key) as [y|] eqn:E2;
        constructor || (exfalso; cbn in Hl); try by apply bool_decide_true.
      * by apply (He1 key x).
      * by apply (He2 key y).
    + destruct (tombstones s1 !! key) as [x|] eqn:E1, (tombstones s2 !! key) as [y|] eqn:E2;
        constructor || (exfalso; cbn in Hr); try by apply bool_decide_true.
      * by apply (Ht1 key x).
      * by apply (Ht2 key y).
Qed.

Lemma vetoed_ext s1 s2 :
  (∀ key, removed_tags s1 key = removed_tags s2 key) → vetoed s1 = vetoed s2.
Proof. intros Hr. apply set_eq. intros t. rewrite !vetoed_elem. by setoid_rewrite Hr. Qed.

#[global] Instance ORSet_laws : CrdtLaws (ORSet E) wf.
Proof.
  assert (∀ a b, wf (merge a b)) as Hm by (intros; by apply wf_merge).
  split; cbn [crdt_merge crdt_equals ORSet_crdt].
  - intros a Ha. by apply orset_equals_spec.
  - intros a b Ha Hb. rewrite !orset_equals_spec by done. intros H key. by destruct (H key).
  - intros a b c Ha Hb Hc. rewrite !orset_equals_spec by done. intros H1 H2 key.
    destruct (H1 key), (H2 key). split; congruence.
  - intros a b _ _. apply Hm.
  - intros a a' b b' Ha Ha' Hb Hb' H1 H2. rewrite orset_equals_spec in H1 by done.
    rewrite orset_equals_spec in H2 by done. apply orset_equals_spec; [done..|]. intros key.
    rewrite !merge_live, !merge_removed.
    rewrite (vetoed_ext a a') by apply H1. rewrite (vetoed_ext b b') by apply H2.
    destruct (H1 key) as [-> ->], (H2 key) as [-> ->]. done.
  - intros a Ha. apply orset_equals_spec; [done..|]. intros key. rewrite merge_live, merge_removed.
    destruct Ha as (_ & _ & Hd). specialize (Hd key). set_solver.
  - intros a b Ha Hb. apply orset_equals_spec; [done..|]. intros key. rewrite !merge_live, !merge_removed. set_solver.
  - intros a b c Ha Hb Hc. apply orset_equals_spec; [done..|]. intros key.
    rewrite !merge_live, !merge_removed, !merge_vetoed. set_solver.
Qed.

(** ** What the operations mean *)

Lemma has_spec e s : has e s = true ↔ live_tags s (identity s e) ≠ ∅.
Proof. apply size_pos_nonempty. Qed.

(** Observed remove, add wins: a remove hides the element where it runs,
    and after a merge with any other replica, in either direction, the element
    is present exactly when that replica holds a tag of it which the remover had
    neither live nor tombstoned when it removed.  So a concurrent [add], whose
    tag is fresh, survives the remove, and an add the remover had seen does
    not. *)
Theorem orset_add_wins (a b : ORSet E) (e : E) :
  wf a → wf b → customIdentity b = customIdentity a →
  let key := identity a e in
  let a' := remove e a in
  has e a' = false ∧
  (has e (merge a' b) = true ↔ ∃ t, t ∈ live_tags b key ∧ t ∉ live_tags a key ∪ vetoed a) ∧
  (has e (merge b a') = true ↔ ∃ t, t ∈ live_tags b key ∧ t ∉ live_tags a key ∪ vetoed a) ∧
  (∀ replica draws b', add replica e draws b = Some b' →
     (∀ t, t ∈ live_tags b' key → t ∉ live_tags b key → t ∉ live_tags a key ∪ vetoed a ∪ vetoed b) →
     has e (merge a' b') = true).
Proof.
  intros (_ & _ & Hda) (_ & _ & Hdb) Hid key a'.
  destruct (remove_spec e a) as (Hl & _ & Hcustom). fold a' in Hl, Hcustom. fold key in Hl.
  assert (identity a' e = key ∧ identity b e = key) as [Hka Hkb]
    by (unfold key, identity; by rewrite Hcustom, Hid).
  assert (∀ c, (∃ t, t ∈ live_tags c key ∖ (vetoed a ∪ live_tags a key ∪ vetoed c)) ↔
    live_tags (merge a' c) key ≠ ∅) as Hmerge.
  { intros c. rewrite merge_live. unfold a'. rewrite remove_vetoed. fold a' key. rewrite Hl, bool_decide_true by done.
    rewrite (left_id_L ∅ (∪)). split; [set_solver|apply set_choose_L]. }
  specialize (Hdb key). split_and!.
  - apply not_true_iff_false. rewrite has_spec, Hka, Hl, bool_decide_true by done. by intros [].
  - rewrite has_spec. change (identity (merge a' b) e) with (identity a' e). rewrite Hka, <-Hmerge.
    split; intros [t Ht]; exists t; set_solver.
  - rewrite has_spec. change (identity (merge b a') e) with (identity b e). rewrite Hkb.
    assert (live_tags (merge b a') key = live_tags (merge a' b) key) as -> by (rewrite !merge_live; set_solver).
    rewrite <-Hmerge. split; intros [t Ht]; exists t; set_solver.
  - intros replica draws b' (tag & Hnew & _ & Hlb & Htomb & _)%add_spec Hfresh.
    rewrite Hkb in Hnew, Hlb. rewrite has_spec. change (identity (merge a' b') e) with (identity a' e).
    rewrite Hka. apply Hmerge. exists tag. specialize (Hlb key). rewrite bool_decide_true in Hlb by done.
    specialize (Hfresh tag). rewrite Hlb in *.
    assert (vetoed b' = vetoed b) as -> by (unfold vetoed; by rewrite Htomb). set_solver.
Qed.

(** ** Reachable states

    A tag is minted for one element-key, its [owner]: under that key it is
    live, and under that key it is tombstoned.  Nothing else is asked of the
    tags; that an add does not draw one it has removed is its own check. *)

Record owned (owner : string → string) s : Prop := {
  owned_live key t : t ∈ live_tags s key → owner t = key;
  owned_removed key t : t ∈ removed_tags s key → owner t = key;
}.

Inductive step (owner : string → string) : ORSet E → ORSet E → Prop :=
| step_add replica e draws s s' : add replica e draws s = Some s' → owned owner s' → step owner s s'
| step_remove e s : step owner s (remove e s)
| step_merge o s : wf o → owned owner o → step owner s (merge s o).

Lemma owned_empty owner custom : owned owner (empty custom).
Proof. split; intros key t; unfold live_tags, removed_tags; cbn; rewrite lookup_empty; cbn; set_solver. Qed.

Lemma owned_remove owner e s : owned owner s → owned owner (remove e s).
Proof.
  intros [Hl Hr]. destruct (remove_spec e s) as (Hl' & Hr' & _). split; intros key t.
  - rewrite Hl'. case_bool_decide; [set_solver|apply Hl].
  - rewrite Hr'. case_bool_decide; [|apply Hr]. intros [?|?]%elem_of_union; auto.
Qed.

Lemma owned_merge owner s o : owned owner s → owned owner o → owned owner (merge s o).
Proof.
  intros [Hl Hr] [Hl' Hr']. split; intros key t.
  - rewrite merge_live. intros [[?|?]%elem_of_union _]%elem_of_difference; auto.
  - rewrite merge_removed. intros [?|?]%elem_of_union; auto.
Qed.

(** The tag an add mints is none it has removed: not under its own key, by
    the check, nor under another one, by its owner. *)
Lemma add_not_vetoed owner replica e draws s s' :
  add replica e draws s = Some s' → owned owner s' → wf s → live_tags s' (identity s e) ## vetoed s.
Proof.
  intros (tag & _ & Hfree & Hlive & Htomb & _)%add_spec [Hl Hr] (_ & _ & Hd).
  assert (owner tag = identity s e) as Htag.
  { apply Hl. rewrite Hlive, bool_decide_true by done. set_solver. }
  rewrite Hlive, bool_decide_true by done. specialize (Hd (identity s e)).
  assert (tag ∉ vetoed s); [|set_solver]. rewrite vetoed_elem. intros [key Hk].
  assert (owner tag = key) as Hkey by (apply Hr; unfold removed_tags; by rewrite Htomb).
  apply Hfree. by rewrite <-Htag, Hkey.
Qed.

Lemma wf_add replica e draws s s' :
  wf s → add replica e draws s = Some s' → live_tags s' (identity s e) ## vetoed s → wf s' ∧ vetoed s' = vetoed s.
Proof.
  intros (He & Ht & Hd) Hadd Hfresh.
  destruct (add_spec replica e draws s s' Hadd) as (tag & _ & _ & Hlive & Htomb & _ & Hkey & Hother).
  assert (vetoed s' = vetoed s) as Hv by (unfold vetoed; by rewrite Htomb).
  split; [|done]. unfold wf. rewrite Hv, Htomb. split_and!; [|done|].
  - intros key x Hx. destruct (decide (key = identity s e)) as [->|Hne].
    + rewrite Hkey in Hx. injection Hx as <-. cbn. set_solver.
    + rewrite Hother in Hx by done. by apply (He key x).
  - intros key. destruct (decide (key = identity s e)) as [->|Hne]; [done|].
    rewrite Hlive, bool_decide_false by done. apply Hd.
Qed.

Lemma orset_step_wf owner s s' :
  step owner s s' → wf s → owned owner s → wf s' ∧ owned owner s' ∧ vetoed s ⊆ vetoed s'.
Proof.
  intros Hstep Hwf Hown. destruct Hstep as [replica e draws s s' Hadd Hown'|e s|o s Ho Howno].
  - destruct (wf_add _ _ _ _ _ Hwf Hadd (add_not_vetoed _ _ _ _ _ _ Hadd Hown' Hwf)) as [? ->]. done.
  - split_and!; [|by apply owned_remove|rewrite remove_vetoed; set_solver].
    apply wf_remove; [done|]. intros k1 k2 Hne t H1%(owned_live _ _ Hown) H2%(owned_live _ _ Hown). congruence.
  - split_and!; [by apply wf_merge|by apply owned_merge|rewrite merge_vetoed; set_solver].
Qed.

(** C32. No resurrection, as long as a tag is minted for one element-key: a tag,
    once tombstoned, stays tombstoned and is never live again under any key,
    through any sequence of adds, removes and merges with any replicas, late
    ones that still hold it included; and an add never draws it again. *)
Theorem orset_no_resurrection (owner : string → string) (s s' : ORSet E) (t : string) :
  wf s → owned owner s → rtc (step owner) s s' → t ∈ vetoed s →
  wf s' ∧ t ∈ vetoed s' ∧ ∀ key, t ∉ live_tags s' key.
Proof.
  intros Hwf Hown Hsteps. revert Hwf Hown.
  induction Hsteps as [s|s s1 s2 Hstep _ IH]; intros Hwf Hown Ht.
  - split_and!; [done|done|]. intros key Hl. destruct Hwf as (_ & _ & Hd). by apply (Hd key t).
  - destruct (orset_step_wf _ _ _ Hstep Hwf Hown) as (? & ? & Hsub). apply IH; [done|done|]. by apply Hsub.
Qed.

(** The observed-remove set is a join-semilattice on well-formed states,
    up to [equals], whatever tags the replicas hold. *)
Theorem orset_semilattice (a b c : ORSet E) :
  wf a → wf b → wf c →
  wf (merge a b) ∧ equals (merge a a) a = true ∧ equals (merge a b) (merge b a) = true ∧
  equals (merge (merge a b) c) (merge a (merge b c)) = true.
Proof.
  intros Ha Hb Hc. split_and!; [by apply wf_merge|..].
  - exact (crdt_idempotent (ok:=wf) a Ha).
  - exact (crdt_commutative (ok:=wf) a b Ha Hb).
  - exact (crdt_associative (ok:=wf) a b c Ha Hb Hc).
Qed.

(** ** The wire *)

Definition set_fits (X : tags) : Prop := Z.of_nat (size X) ≤ MAX_CRDT_ENTRIES.

Definition table_fits {A} (tags_of : A → tags) (m : gmap string A) : Prop :=
  (Z.of_nat (size m) ≤ MAX_CRDT_ENTRIES ∧ "__proto__" ∉ dom m) ∧ map_Forall (λ _ x, set_fits (tags_of x)) m.

Definition fits s : Prop := table_fits snd (elements s) ∧ table_fits id (tombstones s).

Definition filed (custom : option (E → string)) s : Prop :=
  customIdentity s = custom ∧ ∀ key e, elements s !! key = Some e → key = default stringify custom e.1.

(** The operations file elements under their identities. *)
Lemma orset_filed_empty custom : filed custom (empty custom).
Proof. split; [done|]. cbn [elements empty]. intros key e He. by rewrite lookup_empty in He. Qed.

Lemma filed_add custom replica e draws s s' : filed custom s → add replica e draws s = Some s' → filed custom s'.
Proof.
  intros [Hc Hf] (tag & _ & _ & _ & _ & Hc' & He & Hother)%add_spec. split; [congruence|].
  intros key x Hx. destruct (decide (key = identity s e)) as [->|Hne].
  - rewrite He in Hx. injection Hx as <-. unfold identity. by rewrite Hc.
  - rewrite Hother in Hx by done. by apply Hf.
Qed.

Lemma filed_remove custom e s : filed custom s → filed custom (remove e s).
Proof.
  intros [Hc Hf]. unfold remove. destruct (elements s !! identity s e) as [[el X]|]; [|done].
  destruct (size X =? 0)%nat; [done|]. split; [done|]. cbn [elements].
  intros key x [_ Hx]%lookup_delete_Some. by apply Hf.
Qed.

Lemma orset_filed_merge custom s1 s2 : filed custom s1 → filed custom s2 → filed custom (merge s1 s2).
Proof.
  intros [Hc1 H1] [_ H2]. split; [done|]. intros key x. rewrite merge_elements. unfold merge_key.
  case_match; [|done].
  destruct (elements s1 !! key) as [[e1 X]|] eqn:H1e, (elements s2 !! key) as [[e2 Y]|] eqn:H2e;
    intros [= <-]; cbn; [by apply (H1 key (e1, X))|by apply (H1 key (e1, X))|by apply (H2 key (e2, Y))].
Qed.

(** The values are the elements with a live tag. *)
Lemma value_elem custom s x :
  filed custom s → (x ∈ value s → live_tags s (identity s x) ≠ ∅) ∧
  (∀ key, live_tags s key ≠ ∅ → ∃ y, key = identity s y ∧ y ∈ value s).
Proof.
  intros [Hc Hf]. unfold value, live_tags, identity. rewrite Hc. split.
  - intros ([key [y X]] & -> & [Hs Hin%elem_of_map_to_list]%list_elem_of_filter)%list_elem_of_fmap.
    pose proof (Hf _ _ Hin) as Hk. cbn in *. rewrite <-Hk, Hin. cbn. unfold shown in Hs. cbn in Hs.
    intros ->. rewrite size_empty in Hs. lia.
  - intros key Hl. destruct (elements s !! key) as [[y X]|] eqn:He; [|done]. cbn in Hl. exists y.
    split; [by apply (Hf key (y, X))|]. apply list_elem_of_fmap. exists (key, (y, X)). split; [done|].
    apply list_elem_of_filter. split; [|by apply elem_of_map_to_list]. unfold shown. cbn.
    by apply Nat.ltb_lt, size_pos_nonempty.
Qed.

Lemma set_text_decode X : set_fits X → assertStringArray (Some (set_text X)) = Ok (base.elements X).
Proof. intros HX. by apply assertStringArray_strings. Qed.

Lemma foldl_fst {A B C} (f : A → C → A) (l : list C) (a : A) (b : B) :
  foldl (λ acc x, (f acc.1 x, acc.2)) (a, b) l = (foldl f a l, b).
Proof. revert a. induction l as [|x l IH]; intros a; [done|]. cbn. apply IH. Qed.

Lemma foldl_snoc {A B} (f : A → B) (l : list A) (acc : list B) :
  foldl (λ bs x, bs ++ [f x]) acc l = acc ++ (f <$> l).
Proof.
  revert acc. induction l as [|x l IH]; intros acc; cbn; [by rewrite app_nil_r|].
  by rewrite IH, <-(assoc_L (++)).
Qed.

Lemma objectToMapOfSets_encoded (m : gmap string tags) :
  objectToMapOfSets ((λ e, (e.1, base.elements e.2)) <$> map_to_list m) ∅ = m.
Proof.
  unfold objectToMapOfSets. rewrite foldl_fmap. apply map_eq. intros i.
  transitivity (foldl (λ next e, partial_alter
    (λ o, Some (default ∅ o ∪ list_to_set (base.elements e.2))) e.1 next) (∅ : gmap string tags) (map_to_list m) !! i);
    [done|].
  rewrite (map_loop_lookup (λ o (y : tags), Some (default ∅ o ∪ list_to_set (base.elements y)))), lookup_empty.
  destruct (m !! i) as [X|]; [|done]. cbn. f_equal. rewrite list_to_set_elements_L. set_solver.
Qed.

Lemma decode_element_encoded custom s acc id e X :
  filed custom s → elements s !! id = Some (e, X) → set_fits X →
  decode_element (Some (table (λ e, JString (stringify e.1)) (elements s))) custom acc (id, set_text X) =
    Ok (partial_alter (λ o, Some (match o with None => (e, X) | Some (el, ex) => (el, ex ∪ X) end)) id acc.1, acc.2).
Proof.
  intros [Hcustom Hfiled] Hid HX. destruct acc as [es localKeys]. unfold decode_element.
  rewrite set_text_decode by done. cbn [mbind result_bind].
  rewrite (entry_key_table fst (elements s) id (e, X) Hid). cbn [mbind result_bind fst snd].
  assert (match custom with None => id | Some f => f e end = id) as ->.
  { pose proof (Hfiled _ _ Hid) as Hk. cbn in Hk. rewrite Hk. by destruct custom. }
  rewrite bool_decide_true by done. rewrite list_to_set_elements_L. do 2 f_equal.
  apply map_eq. intros i. destruct (decide (i = id)) as [->|Hne].
  - rewrite lookup_insert_eq, lookup_partial_alter_eq. by destruct (es !! id) as [[? ?]|].
  - by rewrite lookup_insert_ne, lookup_partial_alter_ne.
Qed.

Lemma orset_decode_encoded (custom : option (E → string)) s :
  filed custom s → fits s → fromJSON (Some (toJSON s)) custom = Ok s.
Proof.
  intros Hfiled [[Hel Helt] [Htb Htbt]].
  transitivity (
    tombstoneEntries ← safeEntries ((λ e, (e.1, set_text e.2)) <$> map_to_list (tombstones s));
    buckets ← for_of (λ bs e, ts ← assertStringArray (Some e.2); Ok (bs ++ [(e.1, ts)])) tombstoneEntries [];
    elementEntries ← safeEntries ((λ e, (e.1, set_text e.2.2)) <$> map_to_list (elements s));
    acc ← for_of (decode_element (Some (table (λ e, JString (stringify e.1)) (elements s))) custom)
      elementEntries (∅, ∅);
    Ok (mkORSet acc.1 (objectToMapOfSets buckets acc.2) custom)); [done|].
  rewrite (safeEntries_table set_text), decide_True by done. cbn [mbind result_bind].
  rewrite for_of_fmap, (for_of_foldl _ (λ bs e, bs ++ [(e.1, base.elements e.2)])).
  2:{ intros bs [i X] Hi%elem_of_map_to_list. cbn [fst snd].
      by rewrite set_text_decode by apply (Htbt i X Hi). }
  rewrite foldl_snoc. cbn [mbind result_bind].
  rewrite (safeEntries_table (λ e, set_text e.2)), decide_True by done. cbn [mbind result_bind].
  rewrite for_of_fmap, (for_of_foldl _ (λ acc e, (partial_alter (λ o, Some (match o with
    None => e.2 | Some (el, ex) => (el, ex ∪ e.2.2) end)) e.1 acc.1, acc.2))).
  2:{ intros acc [i [e X]] Hi%elem_of_map_to_list. apply decode_element_encoded; [done|done|].
      by apply (Helt i (e, X)). }
  rewrite (foldl_fst (λ (es : gmap string (E * tags)) e, partial_alter (λ o, Some (match o with
    None => e.2 | Some (el, ex) => (el, ex ∪ e.2.2) end)) e.1 es)).
  cbn [mbind result_bind fst snd]. rewrite (left_id_L [] (++)), objectToMapOfSets_encoded.
  destruct s as [es ts cu], Hfiled as [Hcu _]. cbn in *. subst cu. do 2 f_equal.
  apply map_eq. intros i.
  rewrite (map_loop_lookup (λ o (y : E * tags), Some (match o with
    None => y | Some (el, ex) => (el, ex ∪ y.2) end))), lookup_empty. by destruct (es !! i).
Qed.

(** The wire: a set whose elements are filed under their identities and
    that fits the decoder's bounds decodes, under the same identity, to
    itself, tags and tombstones included. *)
Theorem orset_roundtrip (custom : option (E → string)) s :
  filed custom s → fits s → fromJSON (Some (toJSON s)) custom = Ok s.
Proof. apply orset_decode_encoded. Qed.

End ops.

(** ** Concrete sets *)

(** One element under one tag. *)
Definition one (tag e : string) : ORSet string := mkORSet {[e := (e, {[tag]})]} ∅ (Some id).

Lemma one_live tag e key : live_tags (one tag e) key = if bool_decide (key = e) then {[tag]} else ∅.
Proof.
  unfold live_tags, one. cbn [elements]. case_bool_decide as Hk.
  - subst key. by rewrite lookup_singleton_eq.
  - by rewrite lookup_singleton_ne.
Qed.

Lemma one_vetoed tag e : vetoed (one tag e) = ∅.
Proof. vm_compute. reflexivity. Qed.

Lemma one_wf tag e : wf (one tag e).
Proof.
  unfold wf. cbn [one elements tombstones]. split_and!.
  - intros key x [_ <-]%lookup_singleton_Some. cbn. set_solver.
  - intros key X HX. by rewrite lookup_empty in HX.
  - intros key. rewrite one_vetoed. set_solver.
Qed.

Lemma orset_add_wins_witness :
  let a := one "a#1" "apple" in
  has "apple" (merge (remove "apple" a) a) = false ∧
  ∃ b', add "b" "apple" (λ _, "2") a = Some b' ∧ has "apple" (merge (remove "apple" a) b') = true.
Proof.
  intros a. pose proof (orset_add_wins a a "apple" (one_wf _ _) (one_wf _ _) eq_refl) as (_ & Hseen & _ & Hadd).
  split.
  - apply not_true_iff_false. rewrite Hseen. intros (t & Ht & Hn). set_solver.
  - destruct (add "b" "apple" (λ _, "2") a) as [b'|] eqn:Hb; [|vm_compute in Hb; discriminate].
    exists b'. split; [reflexivity|]. apply (Hadd "b" (λ _, "2") b' Hb).
    vm_compute in Hb. injection Hb as <-. intros t Ht Hn.
    assert (t ∈ ({["a#1"; "b#2"]} : gset string)) as Hin by exact Ht. apply elem_of_union in Hin.
    destruct Hin as [Hin|Hin]; apply elem_of_singleton in Hin; subst t.
    + exfalso. apply Hn. vm_compute. reflexivity.
    + intros Hin. vm_compute in Hin. discriminate Hin.
Defined.

Lemma one_owned tag e : owned (λ _, e) (one tag e).
Proof.
  split; intros key t.
  - rewrite one_live. case_bool_decide; [done|set_solver].
  - unfold removed_tags, one. cbn [tombstones]. rewrite lookup_empty. cbn. set_solver.
Qed.

(** Removed, then a late replica merged in, then added again. *)
Lemma orset_no_resurrection_witness :
  let s := remove "apple" (one "a#1" "apple") in
  ∃ s', add "a" "apple" (λ i, if (i =? 0)%nat then "1" else "2") (merge s (one "a#1" "apple")) = Some s' ∧
    live_tags s' "apple" = {["a#2"]} ∧ "a#1" ∉ live_tags s' "apple".
Proof.
  intros s. set (m := merge s (one "a#1" "apple")).
  assert (step (λ _, "apple") (one "a#1" "apple") s) as Hstep by apply step_remove.
  destruct (orset_step_wf _ _ _ Hstep (one_wf _ _) (one_owned _ _)) as (Hs & Hso & _).
  assert ("a#1" ∈ vetoed s) as Hv.
  { unfold s. rewrite remove_vetoed. change (identity (one "a#1" "apple") "apple") with "apple".
    rewrite one_live, bool_decide_true by done. set_solver. }
  assert (owned (λ _, "apple") m) as Hm by (apply owned_merge; [exact Hso|apply one_owned]).
  destruct (add "a" "apple" (λ i, if (i =? 0)%nat then "1" else "2") m) as [s'|] eqn:Ha; [|vm_compute in Ha; discriminate].
  exists s'. split; [reflexivity|].
  assert (live_tags s' "apple" = {["a#2"]}) as Hl.
  { vm_compute in Ha. injection Ha as <-. vm_compute. reflexivity. }
  split; [exact Hl|]. apply (orset_no_resurrection (λ _, "apple") s s' "a#1" Hs Hso); [|exact Hv].
  eapply rtc_l; [apply step_merge; [apply one_wf|apply one_owned]|].
  eapply rtc_l; [|apply rtc_refl]. apply (step_add _ "a" "apple" _ _ _ Ha).
  destruct (add_spec _ _ _ _ _ Ha) as (tag & _ & _ & Hlive & Htomb & _). split; intros key t.
  - rewrite Hlive. case_bool_decide as Hk; [done|]. apply (owned_live _ _ Hm).
  - unfold removed_tags. rewrite Htomb. apply (owned_removed _ _ Hm).
Defined.

Lemma orset_semilattice_witness :
  wf (one "a#1" "apple") ∧
  equals (merge (one "a#1" "apple") (one "b#1" "pear")) (merge (one "b#1" "pear") (one "a#1" "apple")) = true.
Proof.
  split; [apply one_wf|].
  apply (orset_semilattice (one "a#1" "apple") (one "b#1" "pear") (one "b#1" "pear")); apply one_wf.
Defined.

Lemma orset_roundtrip_witness :
  fromJSON (Some (toJSON (one "a#1" "apple"))) (Some id) = Ok (one "a#1" "apple").
Proof.
  apply orset_roundtrip.
  - split; [done|]. cbn [one elements]. intros key e [<- <-]%lookup_singleton_Some. done.
  - split; split; [| |split|].
    + vm_compute. split; congruence.
    + cbn [one elements]. intros key e [_ <-]%lookup_singleton_Some. vm_compute. congruence.
    + vm_compute. congruence.
    + vm_compute. congruence.
    + cbn [one tombstones]. intros key X HX. by rewrite lookup_empty in HX.
Defined.

End ORSet.
