(* ===== verification/ORMap.v ===== *)
(** * [src/crdt/ORMap.ts]

    The observed-remove map: an observed-remove set of key identities decides
    which keys are present, and every identity ever put keeps a replicated
    value.  The value type is any implementation of the [Crdt] interface. *)

From S2P Require Import Prelude Json Crdt GCounter ORSet.

Local Open Scope Z_scope.
Set Warnings "-clear-no-such-hyp".

Module ORMap.

Record ORMap (K V : Type) := mkORMap {
  keyset : ORSet.ORSet string;
  entries : gmap string (K * V);
  customIdentity : option (K → string);
}.
Arguments mkORMap {K V}.
Arguments keyset {K V}.
Arguments entries {K V}.
Arguments customIdentity {K V}.

Section ops.
Context {K V : Type} `{!JsonText K, !JsonText string, !Crdt V}.
Implicit Types m : ORMap K V.

Definition empty (custom : option (K → string)) : ORMap K V := mkORMap (ORSet.empty None) ∅ custom.

Definition identity m (key : K) : string := default stringify (customIdentity m) key.

Definition put (replica : string) (key : K) (v : V) (draws : nat → string) m : option (ORMap K V) :=
  let id := identity m key in
  match ORSet.add replica id draws (keyset m) with
  | None => None
  | Some nextKeyset => Some (mkORMap nextKeyset (<[id := (key, v)]> (entries m)) (customIdentity m))
  end.

Definition has (key : K) m : bool := ORSet.has (identity m key) (keyset m).

Definition get (key : K) m : option V :=
  if has key m then snd <$> entries m !! identity m key else None.

Definition update (replica : string) (key : K) (factory : V) (mutator : V → V) (draws : nat → string) m
    : option (ORMap K V) :=
  put replica key (mutator (default factory (get key m))) draws m.

Definition remove (key : K) m : ORMap K V :=
  mkORMap (ORSet.remove (identity m key) (keyset m)) (entries m) (customIdentity m).

Definition live_entries m : list (string * (K * V)) :=
  filter (λ e, ORSet.has e.1 (keyset m) = true) (map_to_list (entries m)).
Definition keys m : list K := (λ e, e.2.1) <$> live_entries m.
Definition entriesArray m : list (K * V) := snd <$> live_entries m.
Definition size m : nat := length (live_entries m).

(** The merged entry of one id, live or not. *)
Definition merge_value (ours theirs : option (K * V)) : option (K * V) :=
  match ours, theirs with
  | Some (key, v), Some (_, w) => Some (key, crdt_merge v w)
  | Some e, None | None, Some e => Some e
  | None, None => None
  end.

Definition merge m1 m2 : ORMap K V :=
  mkORMap (ORSet.merge (keyset m1) (keyset m2)) (base.merge merge_value (entries m1) (entries m2))
    (customIdentity m1).

(** The loop of [equals] over the live ids, its early return included. *)
Fixpoint equals_loop (ids : list string) (ours theirs : gmap string (K * V)) : bool :=
  match ids with
  | [] => true
  | id :: ids =>
      match ours !! id, theirs !! id with
      | Some x, Some y => if crdt_equals x.2 y.2 then equals_loop ids ours theirs else false
      | None, None => true
      | _, _ => false
      end
  end.

Definition equals m1 m2 : bool :=
  if ORSet.equals (keyset m1) (keyset m2)
  then equals_loop (ORSet.value (keyset m1)) (entries m1) (entries m2) else false.

Definition toJSON (encodeValue : V → json) m : json :=
  JObject [("kind", JString "ORMap");
           ("keyset", ORSet.toJSON (keyset m));
           ("values", table (λ e, encodeValue e.2) (entries m));
           ("keyValues", table (λ e, JString (stringify e.1)) (entries m))].

Definition parseIdString (encoded : json) : option string := parse (text_of encoded).

(** Replaces or adds a field, as [{ ...o, name: v }]. *)
Definition with_field (name : string) (v : json) (fields : list (string * json)) : list (string * json) :=
  filter (λ e, e.1 ≠ name) fields ++ [(name, v)].

Definition remapKeysetIds (ks : option json) (localIds : gmap string string) : option json :=
  match ks with
  | Some (JObject fields) =>
      match find_field "elements" fields with
      | Some (JObject els) =>
          if Z.of_nat (length els) >? MAX_CRDT_ENTRIES then ks
          else
            let encoded elementKey :=
              match optional_entry (find_field "elementValues" fields) elementKey with
              | None | Some JNull => JString elementKey
              | Some x => x
              end in
            let remapped elementKey :=
              match parseIdString (encoded elementKey) ≫= λ wireId, localIds !! wireId with
              | None => encoded elementKey
              | Some localId => JString (stringify localId)
              end in
            Some (JObject (with_field "elementValues" (JObject ((λ e, (e.1, remapped e.1)) <$> els)) fields))
      | _ => ks
      end
  | _ => ks
  end.

Definition decode_entry (decodeValue : json → result CrdtError V) (keyValues : option json) (custom : option (K → string))
    (acc : gmap string (K * V) * gmap string string) (e : string * json)
    : result CrdtError (gmap string (K * V) * gmap string string) :=
  let '(es, localIds) := acc in
  let '(wireId, valueJson) := e in
  key ← entry_key keyValues wireId;
  v ← decodeValue valueJson;
  let id := match custom with None => wireId | Some f => f key end in
  let localIds := if bool_decide (id = wireId) then localIds else <[wireId := id]> localIds in
  Ok (partial_alter (λ existing, merge_entry existing (key, v)) id es, localIds).

Definition fromJSON (frame : option json) (decodeValue : json → result CrdtError V)
    (custom : option (K → string)) : result CrdtError (ORMap K V) :=
  _ ← expect_kind "ORMap" frame;
  values ← get_property frame "values";
  fields ← assertPlainObject values;
  wire ← safeEntries fields;
  keyValues ← get_property frame "keyValues";
  acc ← for_of (decode_entry decodeValue keyValues custom) wire (∅, ∅);
  keysetJson ← get_property frame "keyset";
  ks ← (if (base.size acc.2 =? 0)%nat then ORSet.fromJSON keysetJson None
        else ORSet.fromJSON (remapKeysetIds keysetJson acc.2) (Some stringify));
  Ok (mkORMap ks acc.1 custom).

(** ** Which keys are present *)

Lemma merge_entries_at m1 m2 id :
  entries (merge m1 m2) !! id = merge_value (entries m1 !! id) (entries m2 !! id).
Proof. cbn [entries merge]. rewrite lookup_merge. by destruct (entries m1 !! id), (entries m2 !! id). Qed.

(** The keyset of every replica uses the default identity. *)
Definition keyset_default m : Prop := ORSet.customIdentity (keyset m) = None.

(** Every present key has a value. *)
Definition valued m : Prop :=
  keyset_default m ∧
  ∀ id, ORSet.live_tags (keyset m) (stringify id) ≠ ∅ → is_Some (entries m !! id).

Lemma has_live key m :
  keyset_default m → has key m = true ↔ ORSet.live_tags (keyset m) (stringify (identity m key)) ≠ ∅.
Proof.
  intros Hd. unfold has. rewrite ORSet.has_spec. unfold ORSet.identity. by rewrite Hd.
Qed.

Lemma stringify_inj (s t : string) : stringify s = stringify t → s = t.
Proof. intros Heq. pose proof (parse_stringify s) as H. rewrite Heq, parse_stringify in H. by injection H. Qed.

Lemma valued_empty custom : valued (empty custom).
Proof. split; [done|]. intros id. unfold ORSet.live_tags. cbn. rewrite lookup_empty. cbn. done. Qed.

Lemma valued_put replica key v draws m m' :
  put replica key v draws m = Some m' → valued m → valued m'.
Proof.
  unfold put. destruct (ORSet.add _ _ _ _) as [ks|] eqn:Hadd; [|done]. intros [= <-] [Hd Hv].
  destruct (ORSet.add_spec _ _ _ _ _ Hadd) as (tag & _ & _ & Hl & _ & Hc & _).
  split; [unfold keyset_default; cbn [keyset]; by rewrite Hc|]. cbn [keyset entries]. intros id.
  rewrite Hl. unfold ORSet.identity. rewrite Hd. cbn [default].
  destruct (decide (id = identity m key)) as [->|Hne]; [intros _; by rewrite lookup_insert_eq|].
  rewrite bool_decide_false by (intros Heq%stringify_inj; done).
  rewrite lookup_insert_ne by done. apply Hv.
Qed.

Lemma valued_remove key m : valued m → valued (remove key m).
Proof.
  intros [Hd Hv]. destruct (ORSet.remove_spec (identity m key) (keyset m)) as (Hl & _ & Hc).
  split; [unfold keyset_default; cbn [keyset remove]; by rewrite Hc|]. cbn [keyset entries remove]. intros id.
  rewrite Hl. case_bool_decide; [done|apply Hv].
Qed.

Lemma valued_merge m1 m2 : valued m1 → valued m2 → valued (merge m1 m2).
Proof.
  intros [Hd1 Hv1] [Hd2 Hv2]. split; [done|]. intros id. rewrite merge_entries_at. cbn [keyset merge].
  rewrite ORSet.merge_live. intros Hne.
  assert (ORSet.live_tags (keyset m1) (stringify id) ≠ ∅ ∨ ORSet.live_tags (keyset m2) (stringify id) ≠ ∅)
    as [H|H].
  { destruct (decide (ORSet.live_tags (keyset m1) (stringify id) = ∅)) as [H1|]; [right|by left].
    rewrite H1 in Hne. set_solver. }
  - destruct (Hv1 id H) as [[] Hx]. rewrite Hx. by destruct (entries m2 !! id) as [[]|].
  - destruct (Hv2 id H) as [[] Hx]. rewrite Hx. by destruct (entries m1 !! id) as [[]|].
Qed.

(** Maps the API produces under one identity. *)
Inductive built (custom : option (K → string)) : ORMap K V → Prop :=
| built_empty : built custom (empty custom)
| built_put replica key v draws m m' : built custom m → put replica key v draws m = Some m' → built custom m'
| built_remove key m : built custom m → built custom (remove key m)
| built_merge m1 m2 : built custom m1 → built custom m2 → built custom (merge m1 m2).

Lemma built_valued custom m : built custom m → valued m ∧ customIdentity m = custom.
Proof.
  induction 1 as [|replica key v draws m m' _ [IH Hc] Hput|key m _ [IH Hc]|m1 m2 _ [IH1 Hc1] _ [IH2 Hc2]].
  - split; [apply valued_empty|done].
  - split; [by eapply valued_put|]. unfold put in Hput. destruct (ORSet.add _ _ _ _); [|done].
    by injection Hput as <-.
  - split; [by apply valued_remove|done].
  - split; [by apply valued_merge|done].
Qed.

(** ** The contract *)

(** The same replica state: equal keysets, and equal values under every id,
    stale ones included. *)
Definition same_replica m1 m2 : bool :=
  ORSet.equals (keyset m1) (keyset m2) && equals_entries (entries m1) (entries m2).

#[global] Instance ORMap_crdt : Crdt (ORMap K V) := {| crdt_merge := merge; crdt_equals := same_replica |}.

Definition replica_ok (ok : V → Prop) m : Prop :=
  ORSet.wf (keyset m) ∧ entries_ok (λ _, ok) (entries m).

#[global] Instance ORMap_laws (ok : V → Prop) : CrdtLaws V ok → CrdtLaws (ORMap K V) (replica_ok ok).
Proof.
  intros HV. apply (crdt_laws_via (λ m, (keyset m, entries m))
    (λ x, ORSet.wf x.1 ∧ entries_ok (λ _, ok) x.2)); [apply prod_crdt_laws; apply _| |done].
  intros m1 m2. cbn [crdt_merge prod_crdt ORMap_crdt fst snd]. f_equal. apply map_eq. intros id.
  rewrite merge_entries_at. change (crdt_merge (entries m1) (entries m2)) with (merge_entries (entries m1) (entries m2)).
  rewrite merge_entries_lookup. unfold merge_value, merge_entry.
  by destruct (entries m1 !! id) as [[? ?]|], (entries m2 !! id) as [[? ?]|].
Qed.

(** The loop of [equals] when no id lacks a value on both sides. *)
Lemma equals_loop_spec ids (e1 e2 : gmap string (K * V)) :
  (∀ id, id ∈ ids → is_Some (e1 !! id)) →
  equals_loop ids e1 e2 = true ↔
    ∀ id, id ∈ ids → ∃ x y, e1 !! id = Some x ∧ e2 !! id = Some y ∧ crdt_equals x.2 y.2 = true.
Proof.
  induction ids as [|id ids IH]; intros Hsome; cbn; [set_solver|].
  assert (is_Some (e1 !! id)) as [x Hx] by (apply Hsome; by left). rewrite Hx.
  specialize (IH ltac:(intros; apply Hsome; by right)).
  destruct (e2 !! id) as [y|] eqn:Hy.
  - destruct (crdt_equals x.2 y.2) eqn:Heq.
    + rewrite IH. split; [|intros H i Hi; apply H; by right].
      intros H i [->|Hi]%elem_of_cons; [by exists x, y|by apply H].
    + split; [done|]. intros H. destruct (H id) as (x' & y' & Hx' & Hy' & Hxy); [by left|]. congruence.
  - split; [done|]. intros H. destruct (H id) as (x' & y' & Hx' & Hy' & Hxy); [by left|]. congruence.
Qed.

Definition same_value (x y : option V) : Prop := option_Forall2 (λ v w, crdt_equals v w = true) x y.

Lemma built_keyset custom m : built custom m → ORSet.filed None (keyset m).
Proof.
  induction 1 as [|replica key v draws m m' _ IH Hput|key m _ IH|m1 m2 _ IH1 _ IH2].
  - apply ORSet.orset_filed_empty.
  - unfold put in Hput. destruct (ORSet.add _ _ _ _) as [ks|] eqn:Hadd; [|done]. injection Hput as <-.
    cbn [keyset]. by eapply ORSet.filed_add.
  - by apply ORSet.filed_remove.
  - by apply ORSet.orset_filed_merge.
Qed.

Lemma get_built custom key m : built custom m → has key m = true ↔ is_Some (get key m).
Proof.
  intros Hm. destruct (built_valued custom m Hm) as [[Hd Hv] _]. unfold get. split.
  - intros Hh. rewrite Hh. apply fmap_is_Some. apply Hv. by apply has_live.
  - destruct (has key m); [done|by intros []].
Qed.

(** A write is what the next read sees, and no other key's read changes. *)
Lemma get_put replica key key' v draws m m' :
  valued m → identity m key' ≠ identity m key → put replica key v draws m = Some m' →
  get key m' = Some v ∧ get key' m' = get key' m.
Proof.
  intros Hval Hne Hp. pose proof (valued_put _ _ _ _ _ _ Hp Hval) as [Hd' _].
  destruct Hval as [Hd Hv]. unfold put in Hp.
  destruct (ORSet.add _ _ _ _) as [ks|] eqn:Hadd; [|done]. injection Hp as <-.
  destruct (ORSet.add_spec _ _ _ _ _ Hadd) as (tag & _ & _ & Hl & _ & Hc' & _).
  unfold ORSet.identity in Hl. rewrite Hd in Hl. cbn [default] in Hl.
  assert (∀ k, identity (mkORMap ks (<[identity m key := (key, v)]> (entries m)) (customIdentity m)) k
    = identity m k) as Hid by done.
  split; unfold get.
  - rewrite (proj2 (has_live key _ Hd')), Hid; cbn [keyset entries]; [by rewrite lookup_insert_eq|].
    rewrite Hid, Hl, bool_decide_true by done. set_solver.
  - rewrite Hid. cbn [entries]. rewrite lookup_insert_ne by done.
    replace (has key' (mkORMap ks _ _)) with (has key' m); [done|].
    apply eq_true_iff_eq. rewrite !has_live by done. cbn [keyset]. rewrite Hid, Hl.
    rewrite bool_decide_false; [done|]. intros Heq%stringify_inj. done.
Qed.

(** A removal hides its key and no other. *)
Lemma has_remove key key' m :
  keyset_default m → identity m key' ≠ identity m key →
  has key (remove key m) = false ∧ has key' (remove key m) = has key' m.
Proof.
  intros Hd Hne. destruct (ORSet.remove_spec (identity m key) (keyset m)) as (Hl & _ & Hck).
  unfold ORSet.identity in Hl. rewrite Hd in Hl. cbn [default] in Hl.
  assert (keyset_default (remove key m)) as Hdr by (unfold keyset_default; cbn [keyset remove]; by rewrite Hck).
  assert (∀ k, identity (remove key m) k = identity m k) as Hid by done.
  split.
  - apply not_true_iff_false. rewrite has_live, Hid by done.
    cbn [keyset remove]. rewrite Hl, bool_decide_true by done. by intros [].
  - apply eq_true_iff_eq. rewrite !has_live, Hid by done.
    cbn [keyset remove]. rewrite Hl, bool_decide_false; [done|]. intros Heq%stringify_inj. done.
Qed.

(** The map: a key is present exactly when it reads a value; a [put] or
    [update] is what the next read sees and leaves other keys alone; a removed
    key is absent, although its value stays stored for later merges; and a key
    present in a merge reads the merge of the two stored values. *)
Theorem ormap_contract (custom : option (K → string)) m m2 (key key' : K) :
  built custom m → built custom m2 → identity m key' ≠ identity m key →
  (has key m = true ↔ is_Some (get key m)) ∧
  (∀ replica v draws m', put replica key v draws m = Some m' →
     get key m' = Some v ∧ get key' m' = get key' m) ∧
  (∀ replica factory mutator draws m', update replica key factory mutator draws m = Some m' →
     get key m' = Some (mutator (default factory (get key m))) ∧ get key' m' = get key' m) ∧
  (has key (remove key m) = false ∧ get key (remove key m) = None ∧ get key' (remove key m) = get key' m ∧
   entries (remove key m) = entries m) ∧
  (has key (merge m m2) = true → get key (merge m m2) =
     snd <$> merge_value (entries m !! identity m key) (entries m2 !! identity m key)).
Proof.
  intros Hb Hb2 Hne. destruct (built_valued custom m Hb) as [Hval Hc].
  destruct (has_remove key key' m (proj1 Hval) Hne) as [Hgone Hother]. split_and!.
  - by apply (get_built custom).
  - intros replica v draws m' Hp. by apply (get_put replica _ _ _ draws).
  - intros replica factory mutator draws m' Hu. by apply (get_put replica _ _ _ draws).
  - done.
  - unfold get. by rewrite Hgone.
  - unfold get. by rewrite Hother.
  - done.
  - intros Hh. unfold get. rewrite Hh. change (identity (merge m m2) key) with (identity m key).
    by rewrite merge_entries_at.
Qed.

(** The map is a join-semilattice whenever its values are: up to equal
    keysets and equal stored values, [merge] is idempotent, commutative and
    associative, and such equal states are [equals]; on the states the API
    produces [equals] holds exactly when the keysets are equal and every key
    reads equal values. *)
Theorem ormap_semilattice (ok : V → Prop) `{!CrdtLaws V ok} (custom : option (K → string)) (a b c : ORMap K V) :
  replica_ok ok a → replica_ok ok b → replica_ok ok c → built custom a → built custom b →
  same_replica (merge a a) a = true ∧ same_replica (merge a b) (merge b a) = true ∧
  same_replica (merge (merge a b) c) (merge a (merge b c)) = true ∧
  (same_replica a b = true → equals a b = true) ∧
  (equals a b = true ↔ ORSet.equals (keyset a) (keyset b) = true ∧
     ∀ id, ORSet.live_tags (keyset a) (stringify id) ≠ ∅ →
       same_value (snd <$> entries a !! id) (snd <$> entries b !! id)).
Proof.
  intros Ha Hb Hc Hba Hbb.
  pose proof (built_keyset custom a Hba) as Hfa. destruct (built_valued custom a Hba) as [[Hda Hva] _].
  assert (∀ id, id ∈ ORSet.value (keyset a) ↔ ORSet.live_tags (keyset a) (stringify id) ≠ ∅) as Hvalue.
  { intros id. destruct (ORSet.value_elem None (keyset a) id Hfa) as [Hin Hout].
    unfold ORSet.identity in Hin, Hout. rewrite Hda in Hin, Hout. cbn [default] in Hin, Hout.
    split; [done|]. intros (y & ->%stringify_inj & Hy)%Hout. done. }
  assert (equals a b = true ↔ ORSet.equals (keyset a) (keyset b) = true ∧
     ∀ id, ORSet.live_tags (keyset a) (stringify id) ≠ ∅ →
       same_value (snd <$> entries a !! id) (snd <$> entries b !! id)) as Hequals.
  { unfold equals. destruct (ORSet.equals (keyset a) (keyset b)); [|naive_solver].
    rewrite equals_loop_spec by (intros id Hid; by apply Hva, Hvalue). split.
    - intros H. split; [done|]. intros id Hid. destruct (H id) as (x & y & -> & -> & Hxy); [by apply Hvalue|].
      by constructor.
    - intros [_ H] id Hid%Hvalue. specialize (H id Hid). destruct (Hva id Hid) as [x Hx]. rewrite Hx in *.
      destruct (entries b !! id) as [y|]; inversion H; subst. by exists x, y. }
  split_and!.
  - exact (crdt_idempotent (ok:=replica_ok ok) a Ha).
  - exact (crdt_commutative (ok:=replica_ok ok) a b Ha Hb).
  - exact (crdt_associative (ok:=replica_ok ok) a b c Ha Hb Hc).
  - unfold same_replica. rewrite andb_true_iff, equals_entries_spec. intros [Hk He]. apply Hequals.
    split; [done|]. intros id _. destruct (He id); by constructor.
  - done.
Qed.

(** ** The wire *)

Definition fits m : Prop :=
  (Z.of_nat (base.size (entries m)) ≤ MAX_CRDT_ENTRIES ∧ "__proto__" ∉ dom (entries m)) ∧ ORSet.fits (keyset m).

Definition filed (custom : option (K → string)) m : Prop :=
  customIdentity m = custom ∧ ∀ id e, entries m !! id = Some e → id = default stringify custom e.1.

Lemma ormap_built_filed custom m : built custom m → filed custom m.
Proof.
  induction 1 as [|replica key v draws m m' _ [Hc IH] Hput|key m _ [Hc IH]|m1 m2 _ [Hc1 IH1] _ [Hc2 IH2]].
  - split; [done|]. cbn [entries empty]. intros id e He. by rewrite lookup_empty in He.
  - unfold put in Hput. destruct (ORSet.add _ _ _ _) as [ks|]; [|done]. injection Hput as <-.
    split; [done|]. cbn [entries]. intros id e [[<- <-]|[_ He]]%lookup_insert_Some; [|by apply IH].
    unfold identity. by rewrite Hc.
  - by split.
  - split; [done|]. intros id e. rewrite merge_entries_at.
    destruct (entries m1 !! id) as [[k1 v1]|] eqn:E1, (entries m2 !! id) as [[k2 v2]|] eqn:E2;
      intros [= <-]; cbn; [by apply (IH1 id (k1, v1))|by apply (IH1 id (k1, v1))|by apply (IH2 id (k2, v2))].
Qed.

Lemma ormap_decode_entry_encoded encodeValue decodeValue custom m acc id k v :
  filed custom m → entries m !! id = Some (k, v) → decodeValue (encodeValue v) = Ok v →
  decode_entry decodeValue (Some (table (λ e, JString (stringify e.1)) (entries m))) custom acc (id, encodeValue v)
    = Ok (partial_alter (λ o, merge_entry o (k, v)) id acc.1, acc.2).
Proof.
  intros [_ Hfiled] Hid Hv. destruct acc as [es localIds]. unfold decode_entry.
  rewrite (entry_key_table fst (entries m) id (k, v) Hid). cbn [mbind result_bind fst snd]. rewrite Hv.
  cbn [mbind result_bind].
  assert (match custom with None => id | Some f => f k end = id) as ->.
  { pose proof (Hfiled _ _ Hid) as Hk. cbn in Hk. rewrite Hk. by destruct custom. }
  by rewrite bool_decide_true.
Qed.

(** The wire: a map the API produces that fits the decoder's bounds, with
    a decoder that reads its values back, decodes under the same identity to
    itself, stale values and tombstones included. *)
Theorem ormap_roundtrip (encodeValue : V → json) (decodeValue : json → result CrdtError V)
    (custom : option (K → string)) m :
  built custom m → fits m → (∀ id e, entries m !! id = Some e → decodeValue (encodeValue e.2) = Ok e.2) →
  fromJSON (Some (toJSON encodeValue m)) decodeValue custom = Ok m.
Proof.
  intros Hb [Hsize Hks] Hcodec. pose proof (ormap_built_filed _ _ Hb) as Hfiled. pose proof (built_keyset _ _ Hb) as Hfk.
  transitivity (
    wire ← safeEntries ((λ e, (e.1, encodeValue e.2.2)) <$> map_to_list (entries m));
    acc ← for_of (decode_entry decodeValue (Some (table (λ e, JString (stringify e.1)) (entries m))) custom)
      wire (∅, ∅);
    ks ← (if (base.size acc.2 =? 0)%nat then ORSet.fromJSON (Some (ORSet.toJSON (keyset m))) None
          else ORSet.fromJSON (remapKeysetIds (Some (ORSet.toJSON (keyset m))) acc.2) (Some stringify));
    Ok (mkORMap ks acc.1 custom)); [done|].
  rewrite (safeEntries_table (λ e, encodeValue e.2)), decide_True by done. cbn [mbind result_bind].
  rewrite for_of_fmap, (for_of_foldl _ (λ acc e, (partial_alter (λ o, merge_entry o e.2) e.1 acc.1, acc.2))).
  2:{ intros acc [id [k v]] Hi%elem_of_map_to_list. apply ormap_decode_entry_encoded; [done|done|]. by apply (Hcodec id (k, v)). }
  rewrite (ORSet.foldl_fst (λ (es : gmap string (K * V)) e, partial_alter (λ o, merge_entry o e.2) e.1 es)).
  cbn [mbind result_bind fst snd]. rewrite map_size_empty. cbn [Nat.eqb].
  rewrite ORSet.orset_decode_encoded by done. cbn [mbind result_bind].
  destruct m as [ks es cu], Hfiled as [Hcu _]. cbn in *. subst cu. do 2 f_equal.
  apply map_eq. intros i. transitivity (merge_entries ∅ es !! i); [done|].
  rewrite merge_entries_lookup, lookup_empty. by destruct (es !! i).
Qed.

End ops.

(** ** Concrete maps *)

(** One cart holding a counter, put by replica [a]. *)
Definition cart : option (ORMap string GCounter.GCounter) :=
  put "a" "cart" GCounter.counter_a (λ _, "1") (empty (Some id)).

Definition carts : ORMap string GCounter.GCounter := default (empty (Some id)) cart.

Lemma carts_put : cart = Some carts.
Proof. unfold carts. destruct cart eqn:Hcart; [done|by vm_compute in Hcart]. Qed.

Lemma carts_built : built (Some id) carts.
Proof. eapply built_put; [apply built_empty|exact carts_put]. Qed.

Lemma carts_ok : replica_ok (GCounter.within {["a"]}) carts.
Proof.
  pose proof carts_put as Hput. unfold cart, put in Hput.
  destruct (ORSet.add _ _ _ _) as [ks|] eqn:Hadd; [|done]. apply (inj Some) in Hput. rewrite <-Hput. split.
  - cbn [keyset]. destruct (ORSet.wf_add _ _ _ _ _ (ORSet.wf_empty None) Hadd) as [? _]; [|done].
    intros t _ Ht. vm_compute in Ht. discriminate Ht.
  - cbn [entries empty]. intros i e [[_ <-]|[_ He]]%lookup_insert_Some; [|by rewrite lookup_empty in He].
    split; vm_compute; [by intros|congruence].
Qed.

Lemma ormap_contract_witness :
  get "cart" carts = Some GCounter.counter_a ∧ get "cart" (remove "cart" carts) = None ∧
  entries (remove "cart" carts) = entries carts.
Proof.
  destruct (ormap_contract (Some id) carts carts "cart" "other" carts_built carts_built)
    as (_ & _ & _ & (_ & Hr & _ & He) & _); [vm_compute; congruence|].
  split; [vm_compute; reflexivity|split; assumption].
Defined.

Lemma ormap_semilattice_witness :
  same_replica (merge carts carts) carts = true ∧ (same_replica carts carts = true → equals carts carts = true).
Proof.
  destruct (ormap_semilattice (GCounter.within {["a"]}) (Some id) carts carts carts
    carts_ok carts_ok carts_ok carts_built carts_built) as (Hi & _ & _ & He & _).
  split; assumption.
Defined.

Lemma ormap_roundtrip_witness :
  fromJSON (Some (toJSON GCounter.toJSON carts)) (λ j, GCounter.fromJSON (Some j)) (Some id) = Ok carts.
Proof.
  apply ormap_roundtrip.
  - apply carts_built.
  - split; [split; vm_compute; congruence|]. split; (split; [split; vm_compute; congruence|]).
    + intros key e He. assert (e.2 = {["a#1"]}) as ->; [|vm_compute; congruence].
      destruct (decide (key = stringify "cart")) as [->|Hne].
      * vm_compute in He. injection He as <-. reflexivity.
      * exfalso. assert (key ∈ dom (ORSet.elements (keyset carts))) as Hin by (apply elem_of_dom; by exists e).
        assert (dom (ORSet.elements (keyset carts)) = {[stringify "cart"]}) as Hd by (vm_compute; reflexivity).
        rewrite Hd in Hin. by apply elem_of_singleton in Hin.
    + intros key X HX. vm_compute in HX. by destruct key.
  - intros i e He. assert (e = ("cart", GCounter.counter_a)) as ->; [|vm_compute; reflexivity].
    assert (entries carts = {["cart" := ("cart", GCounter.counter_a)]}) as Hc by (vm_compute; reflexivity).
    rewrite Hc in He. by apply lookup_singleton_Some in He as [_ <-].
Defined.

End ORMap.
