(* ===== verification/MVRegister.v ===== *)
(** * [src/crdt/MVRegister.ts]

    The multi-value register: every assignment carries a vector clock, and a
    merge keeps the values whose clocks no other clock dominates. *)

From S2P Require Import Prelude Json Crdt.

Local Open Scope Z_scope.
Set Warnings "-clear-no-such-hyp".

Module MVRegister.

Abbreviation clock := (gmap string Z).

(** A value decoded from an entry without one is [undefined], here [None]. *)
Record MVEntry := mkEntry { value : option json; vc : clock }.

Record MVRegister := mkMVRegister { entries : list MVEntry }.

Implicit Types (a b c : clock) (r : MVRegister).

Definition empty : MVRegister := mkMVRegister [].

(** ** Clocks *)

Definition at_ (c : clock) (k : string) : Z := default 0 (c !! k).

(** The two loops of [vcStrictlyDominates]: the first returns early, both may
    find the strict coordinate. *)
Definition vcStrictlyDominates a b : bool :=
  if forallb (λ e, negb (at_ a e.1 <? e.2)) (map_to_list b)
  then existsb (λ e, at_ a e.1 >? e.2) (map_to_list b)
       || existsb (λ e, negb (bool_decide (is_Some (b !! e.1))) && (e.2 >? 0)) (map_to_list a)
  else false.

Definition vcEqual a b : bool := map_equals Z.eqb a b.

(** The inner loop of [assign] over one clock. *)
Definition raise_to (max c : clock) : clock :=
  foldl (λ max e, if e.2 >? at_ max e.1 then <[e.1 := e.2]> max else max) max (map_to_list c).

Definition assign (replica : string) (v : option json) r : MVRegister :=
  let max := foldl raise_to ∅ (vc <$> entries r) in
  mkMVRegister [mkEntry v (<[replica := at_ max replica + 1]> max)].

Definition values r : list (option json) := value <$> entries r.
Definition hasConflict r : bool := (1 <? length (entries r))%nat.
Definition size r : nat := length (entries r).

(** ** Merge *)

(** The text two entries share exactly when they are the same state; inside an
    array [undefined] is printed as [null]. *)
Definition same_text (e x : MVEntry) : bool :=
  text_eqb (default JNull (value e)) (default JNull (value x)) && bool_decide (vc e = vc x).

(** [keep]: no entry of [all] other than the one at [i], and not already known
    to be dominated, dominates it.  Positions stand for object identity: an
    object that sits in both registers is met twice, and no clock dominates
    itself. *)
Definition keep (all : list MVEntry) (dominated : list nat) (i : nat) (e : MVEntry) : bool :=
  negb (existsb (λ j, negb (bool_decide (j = i)) && negb (bool_decide (j ∈ dominated)) &&
                      match all !! j with Some x => vcStrictlyDominates (vc x) (vc e) | None => false end)
                (seq 0 (length all))).

(** The outer loop; [seen] is read off the survivors. *)
Fixpoint merge_loop (all : list MVEntry) (todo : list MVEntry) (i : nat) (dominated : list nat)
    (survivors : list MVEntry) : list MVEntry :=
  match todo with
  | [] => survivors
  | e :: todo =>
      if keep all dominated i e then
        if existsb (same_text e) survivors then merge_loop all todo (S i) dominated survivors
        else merge_loop all todo (S i) dominated (survivors ++ [e])
      else merge_loop all todo (S i) (i :: dominated) survivors
  end.

Definition merge r1 r2 : MVRegister :=
  let all := entries r1 ++ entries r2 in
  mkMVRegister (merge_loop all all 0 [] []).

Definition toJSON r : json :=
  JObject [("kind", JString "MVRegister");
           ("entries", JArray ((λ e, JObject (match value e with Some v => [("value", v)] | None => [] end ++
              [("vc", table (λ z, JNumber (Num z)) (vc e))])) <$> entries r))].

Definition decode_clock (es : list (string * json)) : result CrdtError clock :=
  for_of (λ c e, count ← assertCounterValue (Some e.2); Ok (<[e.1 := count]> c)) es ∅.

(** One entry of the [map] over [json.entries]. *)
Definition decode_entry (j : json) : result CrdtError MVEntry :=
  fields ← assertPlainObject (Some j);
  clockFields ← assertPlainObject (find_field "vc" fields);
  es ← safeEntries clockFields;
  c ← decode_clock es;
  Ok (mkEntry (find_field "value" fields) c).

Definition fromJSON (v : option json) : result CrdtError MVRegister :=
  _ ← expect_kind "MVRegister" v;
  arr ← get_property v "entries";
  l ← assertBoundedArray arr MAX_MV_REGISTER_ENTRIES;
  es ← for_of (λ acc j, e ← decode_entry j; Ok (acc ++ [e])) l [];
  Ok (mkMVRegister es).

Definition equals r1 r2 : bool :=
  (length (entries r1) =? length (entries r2))%nat &&
  forallb (λ e, existsb (λ x, optional_text_eqb (value e) (value x) && vcEqual (vc e) (vc x)) (entries r2)) (entries r1).

(** ** The order of clocks *)

Definition clock_le a b : Prop := ∀ k, at_ a k ≤ at_ b k.
Definition clock_lt a b : Prop := clock_le a b ∧ ∃ k, at_ a k < at_ b k.

(** Clocks count: no coordinate is negative. *)
Definition counting c : Prop := map_Forall (λ _ z, 0 ≤ z) c.

Lemma at_nonneg c k : counting c → 0 ≤ at_ c k.
Proof. intros Hc. unfold at_. destruct (c !! k) eqn:E; cbn; [by apply (Hc k)|lia]. Qed.

Lemma vcStrictlyDominates_spec a b :
  counting a → counting b → vcStrictlyDominates a b = true ↔ clock_lt b a.
Proof.
  intros Ha Hb. unfold vcStrictlyDominates.
  destruct (forallb _ (map_to_list b)) eqn:Hall.
  - rewrite forallb_forall in Hall.
    assert (∀ k z, b !! k = Some z → z ≤ at_ a k) as Hle.
    { intros k z Hk. specialize (Hall (k, z) ltac:(by apply list_elem_of_In, elem_of_map_to_list)). cbn in Hall.
      apply negb_true_iff in Hall. guards. lia. }
    assert (clock_le b a) as Hcle.
    { intros k. unfold at_ at 1. destruct (b !! k) as [z|] eqn:E; cbn; [by apply Hle|by apply at_nonneg]. }
    rewrite orb_true_iff, !existsb_exists. split.
    + intros Hex. split; [done|]. destruct Hex as [([k z] & Hin & Hz)|([k z] & Hin & Hz)].
      * apply list_elem_of_In, elem_of_map_to_list in Hin. exists k. cbn in Hz. unfold at_ at 1. rewrite Hin. cbn.
        rewrite Z.gtb_ltb, Z.ltb_lt in Hz. done.
      * apply list_elem_of_In, elem_of_map_to_list in Hin. cbn in Hz.
        apply andb_true_iff in Hz as [Hn%negb_true_iff%bool_decide_eq_false Hz].
        rewrite Z.gtb_ltb, Z.ltb_lt in Hz. exists k. unfold at_. rewrite Hin.
        destruct (b !! k); [destruct Hn; by eexists|done].
    + intros [_ [k Hk]]. unfold at_ in Hk. destruct (b !! k) as [z|] eqn:Eb.
      * left. exists (k, z). split; [by apply list_elem_of_In, elem_of_map_to_list|]. cbn.
        rewrite Z.gtb_ltb, Z.ltb_lt. done.
      * right. destruct (a !! k) as [y|] eqn:Ea; cbn in Hk; [|lia]. exists (k, y).
        split; [by apply list_elem_of_In, elem_of_map_to_list|]. cbn.
        rewrite bool_decide_false by (rewrite Eb; by intros []). cbn. rewrite Z.gtb_ltb, Z.ltb_lt. done.
  - split; [done|]. intros [Hle _]. apply not_true_iff_false in Hall. destruct Hall.
    rewrite forallb_forall. intros [k z] Hin%list_elem_of_In%elem_of_map_to_list. cbn.
    specialize (Hle k). unfold at_ at 1 in Hle. rewrite Hin in Hle. cbn in Hle.
    apply negb_true_iff, Z.ltb_ge. done.
Qed.

Lemma clock_lt_trans a b c : clock_lt a b → clock_lt b c → clock_lt a c.
Proof.
  intros [H1 [k Hk]] [H2 _]. split; [intros i; specialize (H1 i); specialize (H2 i); lia|].
  exists k. specialize (H2 k). lia.
Qed.

Lemma clock_lt_irrefl a : ¬ clock_lt a a.
Proof. intros [_ [k ?]]. lia. Qed.

(** ** The merge is the maximal entries *)

(** No entry of [all] dominates [e]. *)
Definition maximal (all : list MVEntry) (e : MVEntry) : bool :=
  negb (existsb (λ x, vcStrictlyDominates (vc x) (vc e)) all).

(** The entries of [l] whose state is not among [acc] or earlier in [l]. *)
Fixpoint dedup (acc l : list MVEntry) : list MVEntry :=
  match l with
  | [] => acc
  | e :: l => if existsb (same_text e) acc then dedup acc l else dedup (acc ++ [e]) l
  end.

Definition counts (l : list MVEntry) : Prop := ∀ e, e ∈ l → counting (vc e).

Lemma maximal_spec all e :
  counts all → counting (vc e) → maximal all e = true ↔ ∀ x, x ∈ all → ¬ clock_lt (vc e) (vc x).
Proof.
  intros Hall He. unfold maximal. rewrite negb_true_iff, <-not_true_iff_false, existsb_exists. split.
  - intros Hn x Hx Hlt. apply Hn. exists x. split; [by apply list_elem_of_In|].
    apply vcStrictlyDominates_spec; auto.
  - intros Hn (x & Hx%list_elem_of_In & Hd). apply vcStrictlyDominates_spec in Hd; auto. by eapply Hn.
Qed.

Lemma filter_length_le {A} (P Q : A → Prop) `{!∀ x, Decision (P x), !∀ x, Decision (Q x)} (l : list A) :
  (∀ x, x ∈ l → P x → Q x) → (length (filter P l) ≤ length (filter Q l))%nat.
Proof.
  induction l as [|x l IH]; intros HPQ; [done|]. rewrite !filter_cons.
  specialize (IH ltac:(intros; apply HPQ; [by right|done])).
  destruct (decide (P x)) as [HP|HP], (decide (Q x)) as [HQ|HQ]; cbn; try lia.
  destruct HQ. apply HPQ; [by left|done].
Qed.

Lemma filter_length_lt {A} (P Q : A → Prop) `{!∀ x, Decision (P x), !∀ x, Decision (Q x)} (l : list A) y :
  (∀ x, x ∈ l → P x → Q x) → y ∈ l → Q y → ¬ P y → (length (filter P l) < length (filter Q l))%nat.
Proof.
  intros HPQ Hy HQ HP. apply list_elem_of_split in Hy as (l1 & l2 & ->).
  rewrite !filter_app, !length_app, !filter_cons, decide_False, decide_True by done. cbn.
  pose proof (filter_length_le P Q l1 ltac:(intros; apply HPQ; [set_solver|done])).
  pose proof (filter_length_le P Q l2 ltac:(intros; apply HPQ; [set_solver|done])). lia.
Qed.

(** Above every entry there is a maximal one. *)
Lemma maximal_above all e :
  counts all → e ∈ all → ∃ x, x ∈ all ∧ maximal all x = true ∧ (x = e ∨ clock_lt (vc e) (vc x)).
Proof.
  intros Hall. remember (length (filter (λ x, vcStrictlyDominates (vc x) (vc e) = true) all)) as n eqn:Hn.
  revert e Hn. induction n as [n IH] using (well_founded_induction lt_wf). intros e Hn He.
  destruct (maximal all e) eqn:Hm; [exists e; auto|].
  apply negb_false_iff, existsb_exists in Hm as (y & Hy%list_elem_of_In & Hd).
  pose proof (proj1 (vcStrictlyDominates_spec _ _ (Hall y Hy) (Hall e He)) Hd) as Hlt.
  assert (∃ x, x ∈ all ∧ maximal all x = true ∧ (x = y ∨ clock_lt (vc y) (vc x))) as (x & Hx & Hmx & Hyx).
  { eapply IH; [|reflexivity|done]. subst n. apply (filter_length_lt _ _ _ y); [|done|done|].
    - intros x Hx Hxy%vcStrictlyDominates_spec; auto. apply vcStrictlyDominates_spec; auto.
      by eapply clock_lt_trans.
    - intros Hyy%vcStrictlyDominates_spec; auto. by apply clock_lt_irrefl in Hyy. }
  exists x. split_and!; [done|done|right]. destruct Hyx as [->|Hyx]; [done|]. by eapply clock_lt_trans.
Qed.

Lemma keep_maximal all dominated i e :
  counts all → all !! i = Some e →
  (∀ j, j ∈ dominated → ∃ x, all !! j = Some x ∧ maximal all x = false) →
  keep all dominated i e = maximal all e.
Proof.
  intros Hall Hi Hdom. unfold keep, maximal. f_equal. apply eq_true_iff_eq. rewrite !existsb_exists. split.
  - intros (j & _ & Hj). destruct (all !! j) as [x|] eqn:Hx; [|by rewrite andb_false_r in Hj].
    apply andb_true_iff in Hj as [_ Hd]. exists x. split; [by eapply list_elem_of_In, list_elem_of_lookup_2|done].
  - intros (y & Hy%list_elem_of_In & Hd).
    assert (counting (vc e)) as Hce by by apply Hall, (list_elem_of_lookup_2 _ i).
    apply vcStrictlyDominates_spec in Hd; auto.
    destruct (maximal_above all y Hall Hy) as (x & Hx & Hmx & Hyx).
    assert (clock_lt (vc e) (vc x)) as Hlt by (destruct Hyx as [->|?]; [done|by eapply clock_lt_trans]).
    apply list_elem_of_lookup_1 in Hx as [j Hj]. exists j. split.
    + apply in_seq. apply lookup_lt_Some in Hj. lia.
    + rewrite Hj, bool_decide_false, bool_decide_false; cbn.
      * apply vcStrictlyDominates_spec; [|done|done]. by apply Hall, (list_elem_of_lookup_2 _ j).
      * intros (x' & Hx' & Hn)%Hdom. congruence.
      * intros ->. rewrite Hi in Hj. injection Hj as ->. by apply clock_lt_irrefl in Hlt.
Qed.

Lemma merge_loop_spec all pre todo dominated survivors :
  counts all → all = pre ++ todo →
  (∀ j, j ∈ dominated → ∃ x, all !! j = Some x ∧ maximal all x = false) →
  merge_loop all todo (length pre) dominated survivors =
    dedup survivors (filter (λ e, maximal all e = true) todo).
Proof.
  intros Hall. revert pre dominated survivors.
  induction todo as [|e todo IH]; intros pre dominated survivors Heq Hdom; [done|].
  assert (all !! length pre = Some e) as Hi by (rewrite Heq; by apply list_lookup_middle).
  assert (S (length pre) = length (pre ++ [e])) as Hlen by (rewrite length_app; cbn; lia).
  cbn [merge_loop]. rewrite filter_cons, (keep_maximal all dominated _ e) by done.
  destruct (maximal all e) eqn:Hm; [rewrite decide_True by done|rewrite decide_False by done];
    cbn [dedup]; rewrite Hlen; [destruct (existsb _ _)|]; apply IH;
    try (by rewrite <-(assoc_L (++))); try done.
  intros j [->|Hj]%elem_of_cons; [by exists e|by apply Hdom].
Qed.

Lemma merge_entries_spec r1 r2 :
  counts (entries r1 ++ entries r2) →
  entries (merge r1 r2) = dedup [] (filter (λ e, maximal (entries r1 ++ entries r2) e = true)
                                          (entries r1 ++ entries r2)).
Proof.
  intros Hc. cbn [entries merge]. apply (merge_loop_spec _ []); [done|done|]. intros j Hj. set_solver.
Qed.

(** ** Assignments *)

Lemma raise_to_at m c k : counting c → at_ (raise_to m c) k = Z.max (at_ m k) (match c !! k with Some z => z | None => at_ m k end).
Proof.
  intros Hc. unfold raise_to.
  assert (∀ l n, foldl (λ max e, if e.2 >? at_ max e.1 then <[e.1 := e.2]> max else max) n l =
    foldl (λ max (e : string * Z), partial_alter (λ o, if e.2 >? default 0 o then Some e.2 else o) e.1 max) n l)
    as ->.
  { intros l. induction l as [|[i z] l IH]; intros n; [done|]. cbn. rewrite IH. f_equal.
    apply map_eq. intros j. unfold at_. destruct (decide (i = j)) as [->|Hne].
    - rewrite lookup_partial_alter_eq. destruct (z >? default 0 (n !! j)); [by rewrite lookup_insert_eq|done].
    - rewrite lookup_partial_alter_ne by done. destruct (z >? _); [by rewrite lookup_insert_ne|done]. }
  unfold at_. rewrite (map_loop_lookup (λ o z, if z >? default 0 o then Some z else o)).
  destruct (c !! k) as [z|]; [|lia]. destruct (Z.gtb_spec z (default 0 (m !! k))); cbn; lia.
Qed.

Lemma raise_all l m :
  Forall counting l → (∀ k, 0 ≤ at_ m k) →
  (∀ k, at_ m k ≤ at_ (foldl raise_to m l) k) ∧ (∀ c, c ∈ l → clock_le c (foldl raise_to m l)).
Proof.
  intros Hl. revert m. induction Hl as [|c l Hc _ IH]; intros m Hm; cbn.
  { split; [done|]. intros c Hc. by apply elem_of_nil in Hc. }
  assert (∀ k, at_ m k ≤ at_ (raise_to m c) k ∧ at_ c k ≤ at_ (raise_to m c) k) as Hr.
  { intros k. rewrite raise_to_at by done. specialize (Hm k). change (at_ c k) with (default 0 (c !! k)). destruct (c !! k); cbn; lia. }
  destruct (IH (raise_to m c)) as [H1 H2]; [intros k; specialize (Hr k); specialize (Hm k); lia|].
  split.
  - intros k. specialize (Hr k). specialize (H1 k). lia.
  - intros d [->|Hd]%elem_of_cons; [|by apply H2]. intros k. specialize (Hr k). specialize (H1 k). lia.
Qed.

(** The clock of an assignment is after every clock the register held. *)
Lemma assign_after replica v r e :
  counts (entries r) → e ∈ entries r →
  ∃ x, entries (assign replica v r) = [x] ∧ value x = v ∧ clock_lt (vc e) (vc x).
Proof.
  intros Hr He. eexists. split; [reflexivity|]. cbn [value vc]. split; [done|].
  set (max := foldl raise_to ∅ (vc <$> entries r)).
  destruct (raise_all (vc <$> entries r) ∅) as [_ Hle].
  { apply Forall_forall. intros c (x & -> & Hx)%list_elem_of_fmap. by apply Hr. }
  { intros k. unfold at_. rewrite lookup_empty. cbn. lia. }
  fold max in Hle. specialize (Hle (vc e) ltac:(by apply list_elem_of_fmap_2)).
  assert (∀ k, at_ (<[replica := at_ max replica + 1]> max) k
    = if bool_decide (k = replica) then at_ max k + 1 else at_ max k) as Hat.
  { intros k. unfold at_ at 1. case_bool_decide as Hk; [subst k; by rewrite lookup_insert_eq|].
    by rewrite lookup_insert_ne. }
  split; [intros k|exists replica]; rewrite Hat.
  - specialize (Hle k). case_bool_decide; lia.
  - rewrite bool_decide_true by done. specialize (Hle replica). lia.
Qed.

(** ** The contract *)

Definition clocks r : list clock := vc <$> entries r.

(** Written causally: clocks count and determine the value, no two entries
    share a clock, none dominates another. *)
Definition valued (written : clock → option json) (e : MVEntry) : Prop :=
  optional_text_eqb (value e) (written (vc e)) = true.

Definition causal (written : clock → option json) r : Prop :=
  counts (entries r) ∧ (∀ e, e ∈ entries r → valued written e) ∧ NoDup (clocks r) ∧
  ∀ c d, c ∈ clocks r → d ∈ clocks r → ¬ clock_lt c d.

(** The clocks of [l] that no clock of [l] dominates. *)
Definition top (l : list clock) (c : clock) : Prop := c ∈ l ∧ ∀ d, d ∈ l → ¬ clock_lt c d.

Lemma valued_same_text written e x :
  valued written e → valued written x → same_text e x = true ↔ vc e = vc x.
Proof.
  unfold valued, same_text. intros He Hx. rewrite andb_true_iff, bool_decide_eq_true. split; [tauto|].
  intros Heq. split; [|done]. rewrite Heq in He. apply optional_text_eqb_sym in Hx.
  pose proof (optional_text_eqb_trans _ _ _ He Hx) as H.
  destruct (value e), (value x); try done.
Qed.

Lemma dedup_spec written acc l :
  (∀ e, e ∈ acc ++ l → valued written e) → NoDup (vc <$> acc) →
  NoDup (vc <$> dedup acc l) ∧ (∀ e, e ∈ dedup acc l → e ∈ acc ++ l) ∧
  (∀ c, c ∈ vc <$> dedup acc l ↔ c ∈ vc <$> acc ++ l).
Proof.
  revert acc. induction l as [|e l IH]; intros acc Hv Hnd; cbn; [by rewrite app_nil_r|].
  destruct (existsb (same_text e) acc) eqn:Hex.
  - apply existsb_exists in Hex as (x & Hx%list_elem_of_In & Hs).
    apply (valued_same_text written) in Hs; [|apply Hv; set_solver..].
    destruct (IH acc) as (H1 & H2 & H3); [set_solver|done|]. split_and!; [done|set_solver|].
    intros c. rewrite H3, !fmap_app, fmap_cons, !elem_of_app, elem_of_cons. split; [tauto|].
    intros [?|[->|?]]; [tauto| |tauto]. left. rewrite Hs. by apply list_elem_of_fmap_2.
  - destruct (IH (acc ++ [e])) as (H1 & H2 & H3).
    + intros x Hx. apply Hv. rewrite <-(assoc_L (++)) in Hx. done.
    + rewrite fmap_app. apply NoDup_app. split_and!; [done| |apply NoDup_singleton].
      intros c (x & -> & Hx)%list_elem_of_fmap Hin. apply list_elem_of_singleton in Hin.
      apply not_true_iff_false in Hex. apply Hex, existsb_exists. exists x.
      split; [by apply list_elem_of_In|]. apply (valued_same_text written); [apply Hv; set_solver..|done].
    + rewrite <-(assoc_L (++)) in H2, H3. done.
Qed.

Lemma top_above all c :
  counts all → c ∈ vc <$> all → ∃ d, top (vc <$> all) d ∧ (d = c ∨ clock_lt c d).
Proof.
  intros Hall (e & -> & He)%list_elem_of_fmap.
  destruct (maximal_above all e Hall He) as (x & Hx & Hm & Hex). exists (vc x). split; [|naive_solver].
  split; [by apply list_elem_of_fmap_2|]. intros d (y & -> & Hy)%list_elem_of_fmap.
  by apply (proj1 (maximal_spec all x Hall (Hall x Hx)) Hm).
Qed.

Lemma merge_clocks written r1 r2 :
  causal written r1 → causal written r2 →
  causal written (merge r1 r2) ∧ ∀ c, c ∈ clocks (merge r1 r2) ↔ top (clocks r1 ++ clocks r2) c.
Proof.
  intros (Hc1 & Hv1 & _ & _) (Hc2 & Hv2 & _ & _).
  assert (counts (entries r1 ++ entries r2)) as Hc by (intros e [?|?]%elem_of_app; auto).
  assert (∀ e, e ∈ entries r1 ++ entries r2 → valued written e) as Hv by (intros e [?|?]%elem_of_app; auto).
  set (all := entries r1 ++ entries r2) in *.
  destruct (dedup_spec written [] (filter (λ e, maximal all e = true) all)) as (Hnd & Hin & Hcl).
  { intros e [_ He]%list_elem_of_filter. by apply Hv. }
  { constructor. }
  pose proof (merge_entries_spec r1 r2 Hc) as Hme. fold all in Hme. rewrite <-Hme in Hnd, Hin, Hcl.
  rewrite app_nil_l in Hin, Hcl.
  assert (∀ c, c ∈ clocks (merge r1 r2) ↔ top (clocks r1 ++ clocks r2) c) as Htop.
  { intros c. unfold clocks at 1. rewrite Hcl. unfold top.
    assert (clocks r1 ++ clocks r2 = vc <$> all) as -> by (unfold clocks, all; by rewrite fmap_app). split.
    - intros (e & -> & [Hm He]%list_elem_of_filter)%list_elem_of_fmap.
      split; [by apply list_elem_of_fmap_2|]. intros d (x & -> & Hx)%list_elem_of_fmap.
      by apply (proj1 (maximal_spec all e Hc (Hc e He)) Hm).
    - intros [(e & -> & He)%list_elem_of_fmap Hmax]. apply list_elem_of_fmap_2, list_elem_of_filter.
      split; [|done]. apply maximal_spec; auto. intros x Hx. by apply Hmax, list_elem_of_fmap_2. }
  split; [|done]. split_and!.
  - intros e [_ He]%Hin%list_elem_of_filter. by apply Hc.
  - intros e [_ He]%Hin%list_elem_of_filter. by apply Hv.
  - done.
  - intros c d [_ Hcm]%Htop [Hd _]%Htop. by apply Hcm.
Qed.

Lemma equals_clocks written r1 r2 :
  causal written r1 → causal written r2 →
  equals r1 r2 = true ↔ ∀ c, c ∈ clocks r1 ↔ c ∈ clocks r2.
Proof.
  intros (_ & Hv1 & Hn1 & _) (_ & Hv2 & Hn2 & _). unfold equals.
  rewrite andb_true_iff, Nat.eqb_eq, forallb_forall. split.
  - intros [Hlen Hall].
    assert (clocks r1 ⊆ clocks r2) as Hsub.
    { intros c (e & -> & He)%list_elem_of_fmap. specialize (Hall e ltac:(by apply list_elem_of_In)).
      apply existsb_exists in Hall as (x & Hx%list_elem_of_In & [_ Heq]%andb_true_iff).
      apply (map_equals_eq Z.eqb) in Heq; [|apply Z.eqb_eq]. rewrite Heq. by apply list_elem_of_fmap_2. }
    assert (clocks r1 ≡ₚ clocks r2) as Hp.
    { apply submseteq_length_Permutation; [by apply NoDup_submseteq|]. unfold clocks. rewrite !length_fmap. lia. }
    intros c. by rewrite Hp.
  - intros Hiff. split.
    + assert (clocks r1 ≡ₚ clocks r2) as Hp by by apply NoDup_Permutation.
      apply Permutation_length in Hp. unfold clocks in Hp. by rewrite !length_fmap in Hp.
    + intros e He%list_elem_of_In. assert (vc e ∈ clocks r2) as (x & Hvx & Hx)%list_elem_of_fmap
        by by apply Hiff, list_elem_of_fmap_2.
      apply existsb_exists. exists x. split; [by apply list_elem_of_In|]. apply andb_true_iff. split.
      * pose proof (Hv1 e He) as H1. pose proof (Hv2 x Hx) as H2. unfold valued in *. rewrite Hvx in H1.
        eapply optional_text_eqb_trans; [exact H1|]. by apply optional_text_eqb_sym.
      * apply (map_equals_eq Z.eqb); [apply Z.eqb_eq|done].
Qed.

(** Merging before or after taking the top makes no difference. *)
Lemma top_absorb (m l k : list clock) c :
  (∀ d, d ∈ m ↔ top l d) → (∀ d, d ∈ l → ∃ d', top l d' ∧ (d' = d ∨ clock_lt d d')) →
  top (m ++ k) c ↔ top (l ++ k) c.
Proof.
  intros Hm Habove. unfold top. setoid_rewrite elem_of_app. setoid_rewrite Hm. split.
  - intros [Hin Hmax]. split; [destruct Hin as [[? _]|?]; tauto|].
    intros d [Hd|Hd] Hlt; [|by apply (Hmax d); [right|]].
    destruct (Habove d Hd) as (d' & Hd' & Hdd). apply (Hmax d'); [by left|].
    destruct Hdd as [->|?]; [done|by eapply clock_lt_trans].
  - intros [Hin Hmax]. split.
    + destruct Hin as [Hin|Hin]; [left|by right]. split; [done|]. intros d Hd. apply Hmax. by left.
    + intros d [[Hd _]|Hd]; apply Hmax; [by left|by right].
Qed.

Lemma merge_above written r1 r2 d :
  causal written r1 → causal written r2 → d ∈ clocks r1 ++ clocks r2 →
  ∃ d', top (clocks r1 ++ clocks r2) d' ∧ (d' = d ∨ clock_lt d d').
Proof.
  intros (Hc1 & _) (Hc2 & _). unfold clocks. rewrite <-fmap_app. apply top_above.
  intros e [?|?]%elem_of_app; auto.
Qed.

Lemma top_ext (l k : list clock) c : (∀ d, d ∈ l ↔ d ∈ k) → top l c ↔ top k c.
Proof. intros Hlk. unfold top. by setoid_rewrite Hlk. Qed.

#[global] Instance MVRegister_crdt : Crdt MVRegister := {| crdt_merge := merge; crdt_equals := equals |}.

#[global] Instance MVRegister_laws written : CrdtLaws MVRegister (causal written).
Proof.
  assert (∀ a b : MVRegister, causal written a → causal written b → causal written (merge a b)) as Hm
    by (intros a b Ha Hb; by apply (merge_clocks written a b)).
  assert (∀ (a b : MVRegister) (c : clock), causal written a → causal written b →
    c ∈ clocks (merge a b) ↔ top (clocks a ++ clocks b) c) as Ht
    by (intros a b c Ha Hb; by apply (merge_clocks written a b)).
  split; cbn [crdt_merge crdt_equals MVRegister_crdt].
  - intros a Ha. by apply (equals_clocks written).
  - intros a b Ha Hb H. apply (equals_clocks written); [done..|].
    intros c. symmetry. revert c. by apply (equals_clocks written).
  - intros a b c Ha Hb Hc H1 H2. apply (equals_clocks written); [done..|]. intros d.
    rewrite (proj1 (equals_clocks written a b Ha Hb) H1). by apply (equals_clocks written).
  - done.
  - intros a a' b b' Ha Ha' Hb Hb' H1 H2. apply (equals_clocks written); [by apply Hm..|]. intros c.
    rewrite !Ht by done. apply top_ext. intros d. rewrite !elem_of_app.
    rewrite (proj1 (equals_clocks written a a' Ha Ha') H1).
    by rewrite (proj1 (equals_clocks written b b' Hb Hb') H2).
  - intros a Ha. apply (equals_clocks written); [by apply Hm|done|]. intros c. rewrite Ht by done.
    destruct Ha as (_ & _ & _ & Hanti). unfold top. setoid_rewrite elem_of_app. split; [tauto|].
    intros Hc. split; [by left|]. intros d Hd. apply Hanti; [done|tauto].
  - intros a b Ha Hb. apply (equals_clocks written); [by apply Hm..|]. intros c. rewrite !Ht by done.
    apply top_ext. intros d. rewrite !elem_of_app. tauto.
  - intros a b c Ha Hb Hc. apply (equals_clocks written); [by repeat apply Hm..|]. intros d.
    rewrite !Ht by auto.
    rewrite (top_absorb (clocks (merge a b)) (clocks a ++ clocks b)) by (intros; first [by apply Ht|by eapply merge_above]).
    rewrite (top_ext (clocks a ++ clocks (merge b c)) (clocks (merge b c) ++ clocks a))
      by (intros; rewrite !elem_of_app; tauto).
    rewrite (top_absorb (clocks (merge b c)) (clocks b ++ clocks c)) by (intros; first [by apply Ht|by eapply merge_above]).
    apply top_ext. intros x. rewrite !elem_of_app. tauto.
Qed.

Lemma dedup_length acc l : (length acc ≤ length (dedup acc l))%nat.
Proof.
  revert acc. induction l as [|e l IH]; intros acc; cbn; [done|].
  destruct (existsb _ acc); [done|]. specialize (IH (acc ++ [e])). rewrite length_app in IH. lia.
Qed.

Lemma raise_counting l m : (∀ c, c ∈ l → counting c) → counting m → counting (foldl raise_to m l).
Proof.
  revert m. induction l as [|c l IH]; intros m Hl Hm; cbn; [done|].
  apply IH; [intros; apply Hl; by right|]. unfold raise_to.
  assert (∀ es : list (string * Z), (∀ e, e ∈ es → 0 ≤ e.2) → ∀ m, counting m →
    counting (foldl (λ max e, if e.2 >? at_ max e.1 then <[e.1 := e.2]> max else max) m es)) as Hloop.
  { intros es. induction es as [|e es IHes]; intros Hes m' Hm'; cbn; [done|].
    apply IHes; [intros; apply Hes; by right|]. destruct (_ >? _); [|done].
    apply map_Forall_insert_2; [apply Hes; by left|done]. }
  apply Hloop; [|done]. intros [k z] Hk%elem_of_map_to_list. by apply (Hl c ltac:(by left) k).
Qed.

(** Merging an assignment with what it has seen leaves the assignment. *)
Lemma assign_subsumes replica v r :
  counts (entries r) → values (merge (assign replica v r) r) = [v].
Proof.
  intros Hr. destruct (assign replica v r) as [es] eqn:Ha.
  assert (∃ x, es = [x] ∧ value x = v ∧ counting (vc x) ∧ ∀ e, e ∈ entries r → clock_lt (vc e) (vc x))
    as (x & -> & Hv & Hx & Hlt).
  { unfold assign in Ha. injection Ha as <-. eexists. split; [reflexivity|]. cbn [value vc]. split; [done|]. split.
    - assert (counting (foldl raise_to ∅ (vc <$> entries r))) as Hmax.
      { apply raise_counting; [|apply map_Forall_empty].
        intros c (y & -> & Hy)%list_elem_of_fmap. by apply Hr. }
      apply map_Forall_insert_2; [|done]. pose proof (at_nonneg _ replica Hmax). lia.
    - intros e He. destruct (assign_after replica v r e Hr He) as (y & Hy & _ & Hlt).
      unfold assign in Hy. injection Hy as <-. exact Hlt. }
  unfold values. rewrite merge_entries_spec by (intros e [->%list_elem_of_singleton|He]%elem_of_app; [done|by apply Hr]).
  cbn [entries]. set (all := [x] ++ entries r).
  assert (counts all) as Hall by (intros e [->%list_elem_of_singleton|He]%elem_of_app; [done|by apply Hr]).
  assert (filter (λ e, maximal all e = true) all = [x]) as ->.
  { change (filter (λ e, maximal all e = true) ([x] ++ entries r) = [x]).
    rewrite filter_app, filter_cons, decide_True.
    2:{ apply maximal_spec; [done|done|]. intros y [->%list_elem_of_singleton|Hy]%elem_of_app Hc;
        [by apply clock_lt_irrefl in Hc|]. apply (clock_lt_irrefl (vc x)). eapply clock_lt_trans; [exact Hc|by apply Hlt]. }
    rewrite filter_nil. assert (filter (λ e, maximal all e = true) (entries r) = []) as ->; [|done].
    apply elem_of_nil_inv. intros e [Hm He]%list_elem_of_filter.
    apply (proj1 (maximal_spec all e Hall (Hr e He)) Hm x); [by left|by apply Hlt]. }
  cbn. by rewrite Hv.
Qed.

(** The merge keeps every concurrent write and nothing else: whatever the
    two registers hold, the result is, in order and without repeats, the
    entries whose clock no other entry dominates; something always survives
    unless both were empty; and an assignment, on any replica, carries a clock
    after every one it had seen, so it alone survives a merge with them. *)
Theorem mvregister_merge_maximal r1 r2 (replica : string) (v : option json) :
  counts (entries r1) → counts (entries r2) →
  let all := entries r1 ++ entries r2 in
  entries (merge r1 r2) = dedup [] (filter (λ e, maximal all e = true) all) ∧
  (∀ e, e ∈ all → maximal all e = true ↔ ∀ x, x ∈ all → ¬ clock_lt (vc e) (vc x)) ∧
  (all ≠ [] → entries (merge r1 r2) ≠ []) ∧
  (∀ e, e ∈ entries r1 → ∃ x, entries (assign replica v r1) = [x] ∧ clock_lt (vc e) (vc x)) ∧
  values (merge (assign replica v r1) r1) = [v].
Proof.
  intros H1 H2 all. assert (counts all) as Hall by (intros e [?|?]%elem_of_app; auto).
  split_and!.
  - by apply merge_entries_spec.
  - intros e He. apply maximal_spec; auto.
  - intros Hne. rewrite merge_entries_spec by done. fold all.
    destruct all as [|e0 l0] eqn:Hl; [done|]. rewrite <-Hl in *.
    destruct (maximal_above all e0 Hall) as (x & Hx & Hm & _); [rewrite Hl; by left|].
    assert (x ∈ filter (λ e, maximal all e = true) all) as Hin by by apply list_elem_of_filter.
    destruct (filter _ all) as [|e l]; [by apply elem_of_nil in Hin|]. cbn.
    intros Hnil. pose proof (dedup_length [e] l) as Hlen. rewrite Hnil in Hlen. cbn in Hlen. lia.
  - intros e He. destruct (assign_after replica v r1 e H1 He) as (x & ? & _ & ?). by exists x.
  - apply assign_subsumes; auto.
Qed.

(** On causally written registers, whose clocks determine the values and
    do not dominate each other, [merge] is idempotent, commutative and
    associative up to [equals], and stays causal. *)
Theorem mvregister_semilattice (written : clock → option json) (r1 r2 r3 : MVRegister) :
  causal written r1 → causal written r2 → causal written r3 →
  causal written (merge r1 r2) ∧
  equals (merge r1 r1) r1 = true ∧ equals (merge r1 r2) (merge r2 r1) = true ∧
  equals (merge (merge r1 r2) r3) (merge r1 (merge r2 r3)) = true.
Proof.
  intros H1 H2 H3. split_and!; [by apply merge_clocks|..].
  - exact (crdt_idempotent (ok:=causal written) r1 H1).
  - exact (crdt_commutative (ok:=causal written) r1 r2 H1 H2).
  - exact (crdt_associative (ok:=causal written) r1 r2 r3 H1 H2 H3).
Qed.

(** ** Concrete registers *)

Definition red : MVRegister := assign "a" (Some (JString "red")) empty.
Definition blue : MVRegister := assign "b" (Some (JString "blue")) empty.

Definition colour_of (c : clock) : option json :=
  Some (JString (if bool_decide (is_Some (c !! "a")) then "red" else "blue")).

Lemma assigned_causal written replica v :
  optional_text_eqb v (written {[replica := 1]}) = true → causal written (assign replica v empty).
Proof.
  intros Hw. assert (entries (assign replica v empty) = [mkEntry v {[replica := 1]}]) as He.
  { unfold assign. cbn [entries empty fmap list_fmap foldl]. unfold at_. by rewrite lookup_empty. }
  assert (clocks (assign replica v empty) = [{[replica := 1]}]) as Hcl by (unfold clocks; by rewrite He).
  unfold causal. rewrite Hcl, He. split_and!.
  - intros e ->%list_elem_of_singleton. cbn. intros k z [_ <-]%lookup_singleton_Some. lia.
  - by intros e ->%list_elem_of_singleton.
  - apply NoDup_singleton.
  - intros c d ->%list_elem_of_singleton ->%list_elem_of_singleton. apply clock_lt_irrefl.
Qed.

Lemma mvregister_merge_maximal_witness :
  values (merge red blue) = [Some (JString "red"); Some (JString "blue")] ∧
  values (merge (assign "b" (Some (JString "green")) red) red) = [Some (JString "green")].
Proof.
  split; [vm_compute; reflexivity|].
  apply (mvregister_merge_maximal red blue "b" (Some (JString "green")));
    [apply (assigned_causal colour_of "a")|apply (assigned_causal colour_of "b")]; vm_compute; reflexivity.
Defined.

Lemma mvregister_semilattice_witness : equals (merge red blue) (merge blue red) = true.
Proof.
  apply (mvregister_semilattice colour_of red blue red); apply assigned_causal; vm_compute; reflexivity.
Defined.

End MVRegister.
