(* ===== verification/Delivery.v ===== *)
(** * Messages, bounds and paced warnings of [src/delivery]

    The two messages of the reliable-delivery protocol
    ([src/delivery/Messages.ts]), the constants of
    [src/delivery/Constants.ts], and the pacing that every warning of the two
    controllers goes through ([reportUnhandled], [reportEvictions],
    [reportOutOfOrderRefusals]). *)

From S2P Require Import Prelude Json.

Local Open Scope Z_scope.

(** ** Constants *)

Definition MAX_DELIVERY_IDENTIFIER_LENGTH : Z := 256.
Definition DEDUPLICATION_REPORT_INTERVAL_MS : Z := 60000.
Definition UNHANDLED_REPORT_INTERVAL_MS : Z := 60000.

(** ** Messages

    A delivery comes off the wire: its identifiers and its number are values
    of any JSON type, or missing, until the consumer has looked at them, and
    [replyTo] is the address of an actor or something without a [tell]. *)

Record Delivery (B : Type) := mkDelivery {
  producerId : option json;
  incarnation : option json;
  seq : option json;
  body : B;
  replyTo : option nat
}.
Arguments mkDelivery {B}.
Arguments producerId {B}.
Arguments incarnation {B}.
Arguments seq {B}.
Arguments body {B}.
Arguments replyTo {B}.

(** An acknowledgment whose fields are not two strings and a number equals
    nothing the producer compares it with, so only well-typed ones matter. *)
Record Acknowledgment := mkAck {
  ackProducerId : string;
  ackIncarnation : string;
  ackSeq : Z
}.

#[global] Instance Acknowledgment_eq_dec : EqDecision Acknowledgment.
Proof. solve_decision. Defined.

(** ** Paced warnings

    [lastReportAt] is [None] where the code starts from
    [Number.NEGATIVE_INFINITY]; [lines] are the warnings written, with their
    time and the count they name. *)

Record Pacer := mkPacer {
  sinceReport : Z;
  lastReportAt : option Z;
  lines : list (Z * Z)
}.

Definition report (interval n now : Z) (p : Pacer) : Pacer :=
  let since := sinceReport p + n in
  if match lastReportAt p with Some last => now - last <? interval | None => false end
  then mkPacer since (lastReportAt p) (lines p)
  else mkPacer 0 (Some now) (lines p ++ [(now, since)]).

Definition reported (p : Pacer) : Z := sinceReport p + foldr (λ line total, line.2 + total) 0 (lines p).

(** The lines are at least [interval] apart, and the last one is the time the
    pacer remembers. *)
Fixpoint spaced (interval : Z) (last : option Z) (ls : list (Z * Z)) : Prop :=
  match ls with
  | [] => True
  | (now, _) :: ls =>
      match last with Some t => interval ≤ now - t | None => True end ∧ spaced interval (Some now) ls
  end.

Definition last_line (start : option Z) (ls : list (Z * Z)) : option Z :=
  foldl (λ _ line, Some line.1) start ls.

Lemma spaced_snoc interval start ls now n :
  spaced interval start ls →
  match last_line start ls with Some t => interval ≤ now - t | None => True end →
  spaced interval start (ls ++ [(now, n)]).
Proof.
  revert start. induction ls as [|[t k] ls IH]; intros start; cbn; [done|].
  intros [? Hs] Hlast. split; [done|]. by apply IH.
Qed.

Definition paced (interval : Z) (start : option Z) (p : Pacer) : Prop :=
  spaced interval start (lines p) ∧ lastReportAt p = last_line start (lines p).

Lemma report_paced interval start n now p :
  paced interval start p → paced interval start (report interval n now p).
Proof.
  intros [Hs Hl]. unfold report. destruct (lastReportAt p) as [t|] eqn:Et.
  - destruct (Z.ltb_spec (now - t) interval); [by split; cbn; rewrite ?Et|].
    split; cbn; [apply spaced_snoc; [done|by rewrite <-Hl]|].
    unfold last_line. by rewrite foldl_app.
  - split; cbn; [apply spaced_snoc; [done|by rewrite <-Hl]|].
    unfold last_line. by rewrite foldl_app.
Qed.

Lemma report_reported interval n now p : reported (report interval n now p) = reported p + n.
Proof.
  unfold reported, report. case_match; cbn; [lia|].
  rewrite foldr_app. cbn.
  assert (∀ l k, foldr (λ (line : Z * Z) total, line.2 + total) k l =
    foldr (λ line total, line.2 + total) 0 l + k) as ->.
  { intros l k. induction l as [|x l IH]; cbn; [lia|]. rewrite IH. lia. }
  lia.
Qed.
