(* ===== verification/ProducerController.v ===== *)
(** * [ProducerController] of [src/delivery/ProducerController.ts]

    The producer side of reliable delivery: numbering, the send window, the
    retransmit timers and the settlement of every confirmation callback.

    The actor instance is a record of its fields and of the [World] it acts
    on: the scheduler's armed timers, the deliveries handed to the consumer,
    the calls of confirmation callbacks and the log.  A restart keeps the
    world and builds a new instance.  A [tell] that throws
    ([MailboxFullError] of a bounded consumer) is the [Err] branch, with the
    state the exception leaves behind; [accepts n] says whether the
    consumer's mailbox takes number [n] during a turn. *)

From S2P Require Import Prelude Json Delivery.

Local Open Scope Z_scope.

Module ProducerController.

(** [message.confirm]: missing or [null], a function, or any other value. *)
Inductive Confirm := NoConfirm | Callback (c : nat) | NotAFunction.

(** What [confirm] is told: [null], or [new Error('producer stopped')]. *)
Inductive Outcome := Delivered | ProducerStopped.

(** What the callback does with it. *)
Inductive Behaviour := Returns | RejectsLater | Throws.

#[global] Instance Outcome_eq_dec : EqDecision Outcome.
Proof. solve_decision. Defined.

Record Settlement := mkSettlement { callback : nat; outcome : Outcome; number : option Z }.

Record ProducerSend (B : Type) := mkSend { body : B; confirm : Confirm }.
Arguments mkSend {B}.
Arguments body {B}.
Arguments confirm {B}.

Record InFlight (B : Type) := mkInFlight {
  seq : Z; fbody : B; fconfirm : Confirm; attempts : Z; timer : option nat
}.
Arguments mkInFlight {B}.
Arguments seq {B}.
Arguments fbody {B}.
Arguments fconfirm {B}.
Arguments attempts {B}.
Arguments timer {B}.

Inductive Message (B : Type) :=
| Send (s : ProducerSend B)
| Ack (a : Acknowledgment)
| Foreign (payload : nat).
Arguments Send {B}.
Arguments Ack {B}.
Arguments Foreign {B}.

Record World (B : Type) := mkWorld {
  scheduled : gmap nat Z;
  handles : nat;
  wire : list (Delivery B);
  settlements : list Settlement;
  confirmFailures : list (Outcome * option Z);
  refusedRetransmits : list Z;
  deadLetters : list (Message B)
}.
Arguments mkWorld {B}.
Arguments scheduled {B}.
Arguments handles {B}.
Arguments wire {B}.
Arguments settlements {B}.
Arguments confirmFailures {B}.
Arguments refusedRetransmits {B}.
Arguments deadLetters {B}.

Record ProducerController (B : Type) := mkProducer {
  id : string;
  incarnation : string;
  windowSize : Z;
  self : nat;
  inflight : list (InFlight B);
  pending : list (ProducerSend B);
  nextSeq : Z;
  unhandled : Pacer;
  world : World B
}.
Arguments mkProducer {B}.
Arguments id {B}.
Arguments incarnation {B}.
Arguments windowSize {B}.
Arguments self {B}.
Arguments inflight {B}.
Arguments pending {B}.
Arguments nextSeq {B}.
Arguments unhandled {B}.
Arguments world {B}.

Section ops.
Context {B : Type}.
Implicit Types (p : ProducerController B) (w : World B) (f : InFlight B) (m : ProducerSend B).

Definition nothing : World B := mkWorld ∅ 0 [] [] [] [] [].

(** The constructor, with the incarnation the field initialiser drew. *)
Definition construct (id_ incarnation_ : string) (windowSize_ : Z) (self_ : nat) w : ProducerController B :=
  mkProducer id_ incarnation_ windowSize_ self_ [] [] 1 (mkPacer 0 None []) w.

Definition with_world w p : ProducerController B :=
  mkProducer (id p) (incarnation p) (windowSize p) (self p) (inflight p) (pending p) (nextSeq p)
    (unhandled p) w.
Definition with_inflight (fs : list (InFlight B)) p : ProducerController B :=
  mkProducer (id p) (incarnation p) (windowSize p) (self p) fs (pending p) (nextSeq p) (unhandled p)
    (world p).
Definition with_pending (ms : list (ProducerSend B)) p : ProducerController B :=
  mkProducer (id p) (incarnation p) (windowSize p) (self p) (inflight p) ms (nextSeq p) (unhandled p)
    (world p).

(** [this.inflight.get(n)]. *)
Fixpoint get_inflight (n : Z) (fs : list (InFlight B)) : option (InFlight B) :=
  match fs with
  | [] => None
  | f :: fs => if seq f =? n then Some f else get_inflight n fs
  end.

(** [this.inflight.delete(n)]. *)
Fixpoint delete_inflight (n : Z) (fs : list (InFlight B)) : list (InFlight B) :=
  match fs with
  | [] => []
  | f :: fs => if seq f =? n then fs else f :: delete_inflight n fs
  end.

(** The fields of the in-flight object are written in place. *)
Fixpoint write_inflight (g : InFlight B) (fs : list (InFlight B)) : list (InFlight B) :=
  match fs with
  | [] => []
  | f :: fs => if seq f =? seq g then g :: fs else f :: write_inflight g fs
  end.

Section turn.
Variable behaviour : nat → Outcome → Behaviour.

(** [reportConfirmFailure]: the line names the outcome and the number. *)
Definition reportConfirmFailure (o : Outcome) (n : option Z) w : World B :=
  mkWorld (scheduled w) (handles w) (wire w) (settlements w) (confirmFailures w ++ [(o, n)])
    (refusedRetransmits w) (deadLetters w).

Definition settle (c : Confirm) (o : Outcome) (n : option Z) w : World B :=
  match c with
  | NoConfirm => w
  | NotAFunction => reportConfirmFailure o n w
  | Callback c =>
      let w := mkWorld (scheduled w) (handles w) (wire w) (settlements w ++ [mkSettlement c o n])
                 (confirmFailures w) (refusedRetransmits w) (deadLetters w) in
      match behaviour c o with
      | Returns => w
      | RejectsLater | Throws => reportConfirmFailure o n w
      end
  end.

(** [timer?.cancel()]. *)
Definition cancel (h : option nat) w : World B :=
  match h with
  | None => w
  | Some h => mkWorld (delete h (scheduled w)) (handles w) (wire w) (settlements w)
                (confirmFailures w) (refusedRetransmits w) (deadLetters w)
  end.

Definition postStop p : ProducerController B :=
  let w := foldl (λ w f, settle (fconfirm f) ProducerStopped (Some (seq f)) (cancel (timer f) w))
             (world p) (inflight p) in
  let w := foldl (λ w m, settle (confirm m) ProducerStopped None w) w (pending p) in
  with_inflight [] (with_pending [] (with_world w p)).

(** The supervisor's restart: [postStop] on the old instance, then a new one
    over the same options. *)
Definition restart (incarnation_ : string) p : ProducerController B :=
  construct (id p) incarnation_ (windowSize p) (self p) (world (postStop p)).

Definition onUnhandled (message : Message B) (now : Z) p : ProducerController B :=
  let w := world p in
  mkProducer (id p) (incarnation p) (windowSize p) (self p) (inflight p) (pending p) (nextSeq p)
    (report UNHANDLED_REPORT_INTERVAL_MS 1 now (unhandled p))
    (mkWorld (scheduled w) (handles w) (wire w) (settlements w) (confirmFailures w)
       (refusedRetransmits w) (deadLetters w ++ [message])).

Definition delivery_of (f : InFlight B) p : Delivery B :=
  mkDelivery (Some (JString (id p))) (Some (JString (incarnation p))) (Some (JNumber (Num (seq f))))
    (fbody f) (Some (self p)).

(** The timer is armed before the [tell] that may throw. *)
Definition send (accepts : Z → bool) (f : InFlight B) p
    : result (ProducerController B) (ProducerController B) :=
  let w := world p in
  let armed := mkInFlight (seq f) (fbody f) (fconfirm f) (attempts f + 1) (Some (handles w)) in
  let p := with_inflight (write_inflight armed (inflight p))
             (with_world (mkWorld (<[handles w := seq f]> (scheduled w)) (S (handles w)) (wire w)
                (settlements w) (confirmFailures w) (refusedRetransmits w) (deadLetters w)) p) in
  let w := world p in
  if accepts (seq f) then
    Ok (with_world (mkWorld (scheduled w) (handles w) (wire w ++ [delivery_of f p]) (settlements w)
          (confirmFailures w) (refusedRetransmits w) (deadLetters w)) p)
  else Err p.

Definition dispatch (accepts : Z → bool) m p : result (ProducerController B) (ProducerController B) :=
  let f := mkInFlight (nextSeq p) (body m) (confirm m) 0 None in
  send accepts f
    (mkProducer (id p) (incarnation p) (windowSize p) (self p) (inflight p ++ [f]) (pending p)
       (nextSeq p + 1) (unhandled p) (world p)).

Definition onSend (accepts : Z → bool) m (now : Z) p
    : result (ProducerController B) (ProducerController B) :=
  match confirm m with
  | NotAFunction => Ok (onUnhandled (Send m) now p)
  | _ =>
      if Z.of_nat (length (inflight p)) >=? windowSize p then Ok (with_pending (pending p ++ [m]) p)
      else dispatch accepts m p
  end.

(** [while (inflight.size < windowSize && pending.length > 0) dispatch(pending.shift())]. *)
Fixpoint drain (accepts : Z → bool) (queue : list (ProducerSend B)) p
    : result (ProducerController B) (ProducerController B) :=
  match queue with
  | [] => Ok p
  | m :: queue =>
      if Z.of_nat (length (inflight p)) <? windowSize p then
        dispatch accepts m (with_pending queue p) ≫= drain accepts queue
      else Ok p
  end.

Definition onAcknowledgment (accepts : Z → bool) (a : Acknowledgment) p
    : result (ProducerController B) (ProducerController B) :=
  if negb (bool_decide (ackProducerId a = id p)) then Ok p
  else if negb (bool_decide (ackIncarnation a = incarnation p)) then Ok p
  else match get_inflight (ackSeq a) (inflight p) with
  | None => Ok p
  | Some f =>
      let w := settle (fconfirm f) Delivered (Some (seq f)) (cancel (timer f) (world p)) in
      let p := with_world w (with_inflight (delete_inflight (ackSeq a) (inflight p)) p) in
      drain accepts (pending p) p
  end.

Definition onReceive (accepts : Z → bool) (message : Message B) (now : Z) p
    : result (ProducerController B) (ProducerController B) :=
  match message with
  | Ack a => onAcknowledgment accepts a p
  | Send s => onSend accepts s now p
  | Foreign _ => Ok (onUnhandled message now p)
  end.

(** The callback of a timer: a throw of the [tell] is caught and logged. *)
Definition retransmit (accepts : Z → bool) (n : Z) p : ProducerController B :=
  match get_inflight n (inflight p) with
  | None => p
  | Some f =>
      match send accepts f p with
      | Ok p => p
      | Err p =>
          let w := world p in
          with_world (mkWorld (scheduled w) (handles w) (wire w) (settlements w) (confirmFailures w)
            (refusedRetransmits w ++ [n]) (deadLetters w)) p
      end
  end.

(** The scheduler fires an armed timer once. *)
Definition fire (accepts : Z → bool) (h : nat) p : ProducerController B :=
  match scheduled (world p) !! h with
  | None => p
  | Some n => retransmit accepts n (with_world (cancel (Some h) (world p)) p)
  end.

(** ** Runs

    A turn that throws is a supervised fault: the instance is restarted with
    the incarnation drawn next. *)
Inductive event :=
| Receives (accepts : Z → bool) (message : Message B) (now : Z) (next : string)
| Fires (accepts : Z → bool) (handle : nat)
| Restarts (next : string).

Definition turn p (e : event) : ProducerController B :=
  match e with
  | Receives accepts message now next =>
      match onReceive accepts message now p with Ok p => p | Err p => restart next p end
  | Fires accepts h => fire accepts h p
  | Restarts next => restart next p
  end.

Definition run p (es : list event) : ProducerController B := foldl turn p es.

End turn.
End ops.
Arguments event : clear implicits.

(** ** What a run keeps *)

Definition callbacks_of (c : Confirm) : list nat := match c with Callback c => [c] | _ => [] end.

Section laws.
Context {B : Type}.
Variable behaviour : nat → Outcome → Behaviour.
Implicit Types (p : ProducerController B) (w : World B) (f g : InFlight B) (fs : list (InFlight B))
  (m : ProducerSend B).

Definition either {A} (r : result A A) : A := match r with Ok a | Err a => a end.

Definition held fs : list nat := fs ≫= callbacks_of ∘ fconfirm.
Definition queued (ms : list (ProducerSend B)) : list nat := ms ≫= callbacks_of ∘ confirm.
Definition settled w : list nat := callback <$> settlements w.

(** Every callback this producer has been handed, told or not. *)
Definition account p : list nat := settled (world p) ++ held (inflight p) ++ queued (pending p).

(** The producer's own numbering: ascending, from 1, below the next number. *)
Definition numbered p : Prop :=
  StronglySorted Z.lt (seq <$> inflight p) ∧ 1 ≤ nextSeq p ∧
  (∀ f, f ∈ inflight p → 1 ≤ seq f < nextSeq p).

Definition windowed p : Prop := Z.of_nat (length (inflight p)) ≤ windowSize p.

(** Every in-flight number but [skip] has its timer armed, and nothing else has. *)
Definition armed (skip : option Z) p : Prop :=
  (∀ f, f ∈ inflight p → Some (seq f) ≠ skip →
     ∃ h, timer f = Some h ∧ scheduled (world p) !! h = Some (seq f)) ∧
  (∀ h n, scheduled (world p) !! h = Some n →
     (h < handles (world p))%nat ∧ Some n ≠ skip ∧ ∃ f, f ∈ inflight p ∧ seq f = n ∧ timer f = Some h).

(** The deliveries of this incarnation carry its numbers, one body each. *)
Definition consistent p : Prop :=
  ∀ d, d ∈ wire (world p) → Delivery.incarnation d = Some (JString (incarnation p)) →
    ∃ n, d = mkDelivery (Some (JString (id p))) (Some (JString (incarnation p))) (Some (JNumber (Num n)))
               (Delivery.body d) (Some (self p)) ∧
      n < nextSeq p ∧ ∀ f, f ∈ inflight p → seq f = n → fbody f = Delivery.body d.

(** *** The in-flight table *)

Lemma numbered_NoDup p : numbered p → NoDup (seq <$> inflight p).
Proof.
  intros [Hs _]. induction Hs as [|n ns _ IH Hall]; constructor; [|done].
  intros Hin. rewrite Forall_forall in Hall. specialize (Hall n Hin). lia.
Qed.

Lemma get_inflight_Some n fs f :
  NoDup (seq <$> fs) → get_inflight n fs = Some f ↔ f ∈ fs ∧ seq f = n.
Proof.
  induction fs as [|g fs IH]; cbn; [set_solver|]. intros [Hg Hnd]%NoDup_cons.
  destruct (Z.eqb_spec (seq g) n) as [<-|Hne].
  - split; [intros [= ->]; by split; [left|]|]. intros [[->|Hin]%elem_of_cons Hseq]; [done|].
    contradict Hg. rewrite <-Hseq. by apply list_elem_of_fmap_2.
  - rewrite IH by done. rewrite elem_of_cons. naive_solver.
Qed.

Lemma get_inflight_None n fs : get_inflight n fs = None ↔ ∀ f, f ∈ fs → seq f ≠ n.
Proof.
  induction fs as [|g fs IH]; cbn; [set_solver|].
  destruct (Z.eqb_spec (seq g) n) as [Heq|Hne].
  - split; [done|]. intros H. exfalso. by apply (H g); [left|].
  - rewrite IH. setoid_rewrite elem_of_cons. naive_solver.
Qed.

Lemma elem_of_write_inflight g f fs :
  NoDup (seq <$> fs) → seq g ∈ seq <$> fs →
  f ∈ write_inflight g fs ↔ f = g ∨ f ∈ fs ∧ seq f ≠ seq g.
Proof.
  induction fs as [|x fs IH]; cbn; [set_solver|]. intros [Hx Hnd]%NoDup_cons Hg.
  destruct (Z.eqb_spec (seq x) (seq g)) as [Heq|Hne].
  - rewrite !elem_of_cons. split; [|naive_solver]. intros [->|Hf]; [by left|]. right. split; [by right|].
    intros Heq'. apply Hx. rewrite Heq, <-Heq'. by apply list_elem_of_fmap_2.
  - apply elem_of_cons in Hg as [?|Hg]; [congruence|]. rewrite !elem_of_cons, IH by done. naive_solver.
Qed.

Lemma elem_of_delete_inflight n f fs :
  NoDup (seq <$> fs) → f ∈ delete_inflight n fs ↔ f ∈ fs ∧ seq f ≠ n.
Proof.
  induction fs as [|x fs IH]; cbn; [set_solver|]. intros [Hx Hnd]%NoDup_cons.
  destruct (Z.eqb_spec (seq x) n) as [<-|Hne].
  - rewrite elem_of_cons. split; [|naive_solver]. intros Hf. split; [by right|]. intros Heq.
    apply Hx. rewrite <-Heq. by apply list_elem_of_fmap_2.
  - rewrite !elem_of_cons, IH by done. naive_solver.
Qed.

Lemma write_inflight_seq g fs : seq <$> write_inflight g fs = seq <$> fs.
Proof.
  induction fs as [|x fs IH]; cbn; [done|].
  destruct (Z.eqb_spec (seq x) (seq g)) as [Heq|Hne]; cbn; [by rewrite Heq|by f_equal].
Qed.

Lemma delete_inflight_seq n fs : sublist (seq <$> delete_inflight n fs) (seq <$> fs).
Proof.
  induction fs as [|x fs IH]; cbn; [constructor|].
  destruct (Z.eqb_spec (seq x) n); cbn; by constructor.
Qed.

Lemma held_write g f fs :
  get_inflight (seq g) fs = Some f → fconfirm g = fconfirm f → held (write_inflight g fs) = held fs.
Proof.
  intros Hget Hc. induction fs as [|x fs IH]; cbn in *; [done|].
  destruct (Z.eqb_spec (seq x) (seq g)) as [Heq|Hne]; cbn.
  - injection Hget as ->. by rewrite Hc.
  - unfold held in *. cbn. by rewrite IH.
Qed.

Lemma held_delete n f fs :
  get_inflight n fs = Some f → held fs ≡ₚ callbacks_of (fconfirm f) ++ held (delete_inflight n fs).
Proof.
  intros Hget. induction fs as [|x fs IH]; cbn in *; [done|].
  destruct (Z.eqb_spec (seq x) n) as [Heq|Hne]; [by injection Hget as ->|].
  unfold held in *. cbn. rewrite IH by done. rewrite !(assoc_L app). f_equiv.
  apply Permutation_app_comm.
Qed.

Lemma length_delete_inflight n f fs :
  get_inflight n fs = Some f → length fs = S (length (delete_inflight n fs)).
Proof.
  intros Hget. induction fs as [|x fs IH]; cbn in *; [done|].
  destruct (Z.eqb_spec (seq x) n); [done|]. cbn. by rewrite <-IH.
Qed.

(** *** Settlements *)

Lemma settle_settled c o n w : settled (settle behaviour c o n w) = settled w ++ callbacks_of c.
Proof.
  unfold settled. destruct c as [|c|]; cbn; rewrite ?app_nil_r; [done| |done].
  destruct (behaviour c o); cbn; by rewrite fmap_app.
Qed.

Lemma settle_rest c o n w :
  scheduled (settle behaviour c o n w) = scheduled w ∧ handles (settle behaviour c o n w) = handles w ∧
  wire (settle behaviour c o n w) = wire w.
Proof. destruct c as [|c|]; cbn; [done| |done]. by destruct (behaviour c o). Qed.

Lemma settle_settlements c o n w s :
  s ∈ settlements (settle behaviour c o n w) →
  s ∈ settlements w ∨ ∃ k, c = Callback k ∧ s = mkSettlement k o n.
Proof.
  destruct c as [|c|]; cbn; [by left| |by left].
  destruct (behaviour c o); cbn; rewrite elem_of_app, list_elem_of_singleton; naive_solver.
Qed.

Lemma cancel_rest h w :
  settlements (cancel h w) = settlements w ∧ handles (cancel h w) = handles w ∧ wire (cancel h w) = wire w.
Proof. by destruct h. Qed.

Lemma postStop_account p :
  settled (world (postStop behaviour p)) = account p ∧
  held (inflight (postStop behaviour p)) ++ queued (pending (postStop behaviour p)) = [] ∧
  (∀ s, s ∈ settlements (world (postStop behaviour p)) → outcome s = Delivered →
     s ∈ settlements (world p)).
Proof.
  unfold postStop, account. cbn. split_and!; [|done|].
  - assert (∀ ms w, settled (foldl (λ w m, settle behaviour (confirm m) ProducerStopped None w) w ms) =
      settled w ++ queued ms) as Hq.
    { induction ms as [|m ms IH]; intros w; cbn; [by rewrite app_nil_r|].
      by rewrite IH, settle_settled, <-(assoc_L app). }
    assert (∀ fs w, settled (foldl (λ w f, settle behaviour (fconfirm f) ProducerStopped (Some (seq f))
        (cancel (timer f) w)) w fs) = settled w ++ held fs) as Hf.
    { induction fs as [|f fs IH]; intros w; cbn; [by rewrite app_nil_r|].
      rewrite IH, settle_settled, <-(assoc_L app). unfold settled. by rewrite (proj1 (cancel_rest _ _)). }
    by rewrite Hq, Hf, <-(assoc_L app).
  - intros s Hs Hd.
    assert (∀ ms w, s ∈ settlements (foldl (λ w m, settle behaviour (confirm m) ProducerStopped None w) w ms) →
      s ∈ settlements w) as Hq.
    { induction ms as [|m ms IH]; intros w; cbn; [done|]. intros Hin.
      apply IH, settle_settlements in Hin as [?|(k & _ & ->)]; done. }
    apply Hq in Hs. revert Hs. generalize (world p). induction (inflight p) as [|f fs IH]; intros w; cbn; [done|].
    intros Hin. apply IH, settle_settlements in Hin as [Hin|(k & _ & ->)]; [|done].
    by rewrite (proj1 (cancel_rest _ _)) in Hin.
Qed.

Lemma postStop_wire p : wire (world (postStop behaviour p)) = wire (world p).
Proof.
  unfold postStop. cbn.
  assert (∀ ms w, wire (foldl (λ w m, settle behaviour (confirm m) ProducerStopped None w) w ms) = wire w) as ->.
  { induction ms as [|m ms IH]; intros w; cbn; [done|]. rewrite IH. apply settle_rest. }
  generalize (world p). induction (inflight p) as [|f fs IH]; intros w; cbn; [done|].
  rewrite IH, (proj2 (proj2 (settle_rest _ _ _ _))). apply cancel_rest.
Qed.

(** A stop cancels every timer that was armed. *)
Lemma postStop_scheduled p : armed None p → scheduled (world (postStop behaviour p)) = ∅.
Proof.
  intros [_ Hall]. unfold postStop. cbn.
  assert (∀ ms w, scheduled (foldl (λ w m, settle behaviour (confirm m) ProducerStopped None w) w ms) =
    scheduled w) as ->.
  { induction ms as [|m ms IH]; intros w; cbn; [done|]. rewrite IH. apply settle_rest. }
  assert (∀ h n, scheduled (world p) !! h = Some n → ∃ f, f ∈ inflight p ∧ timer f = Some h) as H.
  { intros h n (_ & _ & f & ? & _ & ?)%Hall. by exists f. }
  revert H. generalize (world p). clear Hall. induction (inflight p) as [|f fs IH]; intros w H; cbn.
  - apply map_empty. intros h. destruct (scheduled w !! h) as [n|] eqn:Eh; [|done].
    destruct (H h n Eh) as (f & Hf & _). by apply elem_of_nil in Hf.
  - apply IH. intros h n. rewrite (proj1 (settle_rest _ _ _ _)). intros Hh.
    assert (timer f ≠ Some h ∧ scheduled w !! h = Some n) as [Hne Hh'].
    { destruct (timer f) as [k|]; cbn in Hh; [|done]. apply lookup_delete_Some in Hh as [? ?].
      split; [congruence|done]. }
    destruct (H h n Hh') as (g & [->|Hg]%elem_of_cons & Ht); [done|]. by exists g.
Qed.

(** *** Turns *)

Definition core (skip : option Z) p : Prop :=
  numbered p ∧ windowed p ∧ armed skip p.

Definition same_producer p p' : Prop :=
  id p' = id p ∧ incarnation p' = incarnation p ∧ windowSize p' = windowSize p ∧ self p' = self p.

(** The deliveries added carry this incarnation, and stay consistent. *)
Definition wire_kept p p' : Prop :=
  (consistent p → consistent p') ∧
  (∀ d, d ∈ wire (world p) → d ∈ wire (world p')) ∧
  ∀ d, d ∈ wire (world p') → d ∈ wire (world p) ∨ Delivery.incarnation d = Some (JString (incarnation p)).

Lemma wire_kept_same p p' :
  wire (world p') = wire (world p) → (consistent p → consistent p') → wire_kept p p'.
Proof. intros Hw Hc. split_and!; [done|by rewrite Hw|]. rewrite Hw. by left. Qed.

Lemma wire_kept_trans p q r :
  incarnation q = incarnation p → wire_kept p q → wire_kept q r → wire_kept p r.
Proof.
  intros Hinc (Hc1 & Hm1 & Hw1) (Hc2 & Hm2 & Hw2). split_and!; [auto|auto|]. intros d [Hd|Hd]%Hw2; [by apply Hw1|right; congruence].
Qed.

Lemma send_either accepts f p :
  either (send accepts f p) =
    let w := world p in
    with_inflight
      (write_inflight (mkInFlight (seq f) (fbody f) (fconfirm f) (attempts f + 1) (Some (handles w))) (inflight p))
      (with_world (mkWorld (<[handles w := seq f]> (scheduled w)) (S (handles w))
         (wire w ++ if accepts (seq f) then [delivery_of f p] else []) (settlements w) (confirmFailures w)
         (refusedRetransmits w) (deadLetters w)) p).
Proof. unfold send. cbn. destruct (accepts (seq f)); cbn; [done|]. by rewrite app_nil_r. Qed.

Lemma send_core accepts f p :
  f ∈ inflight p → core (Some (seq f)) p → core None (either (send accepts f p)).
Proof.
  intros Hf (Hnum & Hwin & [Harm Hsch]). rewrite send_either. cbn zeta.
  pose proof (numbered_NoDup p Hnum) as Hnd.
  assert (seq f ∈ seq <$> inflight p) as Hin by by apply list_elem_of_fmap_2.
  set (g := mkInFlight _ _ _ _ _).
  assert (∀ x, x ∈ write_inflight g (inflight p) ↔ x = g ∨ x ∈ inflight p ∧ seq x ≠ seq f) as Hw
    by exact (λ x, elem_of_write_inflight g x _ Hnd Hin).
  unfold core, numbered, windowed, armed; cbn. split_and!.
  - rewrite write_inflight_seq. apply Hnum.
  - apply Hnum.
  - intros x [->|[Hx _]]%Hw; [exact (proj2 (proj2 Hnum) f Hf)|by apply Hnum].
  - by rewrite <-(length_fmap seq), write_inflight_seq, length_fmap.
  - intros x [->|[Hx Hne]]%Hw _.
    + exists (handles (world p)). by rewrite lookup_insert_eq.
    + destruct (Harm x Hx ltac:(congruence)) as (h & Ht & Hh). exists h. split; [done|].
      rewrite lookup_insert_ne; [done|]. intros <-. apply Hsch in Hh as [? _]. lia.
  - intros h n [[<- <-]|[Hne Hh]]%lookup_insert_Some.
    + split_and!; [lia|done|]. exists g. split; [|done]. apply Hw. by left.
    + apply Hsch in Hh as (? & Hskip & x & Hx & Hseq & Ht). split_and!; [lia|done|].
      exists x. split; [|done]. apply Hw. right. split; [done|congruence].
Qed.

Lemma send_wire_kept accepts f p :
  f ∈ inflight p → numbered p → wire_kept p (either (send accepts f p)).
Proof.
  intros Hf Hnum. rewrite send_either. cbn zeta. split_and!; cbn [world with_inflight with_world wire].
  2:{ intros d Hd. apply elem_of_app. by left. }
  2:{ intros d [Hd|Hd]%elem_of_app; [by left|right].
      destruct (accepts (seq f)); [|by apply elem_of_nil in Hd]. by apply list_elem_of_singleton in Hd as ->. }
  intros Hcons.
  pose proof (numbered_NoDup p Hnum) as Hnd.
  assert (seq f ∈ seq <$> inflight p) as Hin by by apply list_elem_of_fmap_2.
  set (g := mkInFlight _ _ _ _ _).
  assert (∀ x, x ∈ write_inflight g (inflight p) ↔ x = g ∨ x ∈ inflight p ∧ seq x ≠ seq f) as Hw
    by exact (λ x, elem_of_write_inflight g x _ Hnd Hin).
  intros d Hd Hinc. cbn in *. apply elem_of_app in Hd as [Hd|Hd].
  - destruct (Hcons d Hd Hinc) as (n & Heq & Hlt & Hbody). exists n. split_and!; [done|done|].
    intros x [->|[Hx _]]%Hw Hseq; [by apply (Hbody f)|by apply Hbody].
  - destruct (accepts (seq f)); [|by apply elem_of_nil in Hd]. apply list_elem_of_singleton in Hd as ->.
    exists (seq f). split_and!; [done|by apply Hnum|]. intros x [->|[_ Hne]]%Hw Hseq; [done|congruence].
Qed.

(** The sends a producer still owes an outcome. *)
Definition sends p : list (ProducerSend B) := ((λ f, mkSend (fbody f) (fconfirm f)) <$> inflight p) ++ pending p.

Arguments sends : simpl never.

Lemma elem_of_sends m p :
  m ∈ sends p ↔ (∃ f, f ∈ inflight p ∧ fbody f = body m ∧ fconfirm f = confirm m) ∨ m ∈ pending p.
Proof.
  unfold sends. rewrite elem_of_app, list_elem_of_fmap. destruct m as [b c]. cbn.
  split; (intros [(f & H)|?]; [left; exists f; naive_solver|by right]).
Qed.

Lemma send_same accepts f p :
  f ∈ inflight p → numbered p →
  let p' := either (send accepts f p) in
  same_producer p p' ∧ account p' = account p ∧ settlements (world p') = settlements (world p) ∧
  pending p' = pending p ∧ length (inflight p') = length (inflight p) ∧ sends p' ⊆ sends p.
Proof.
  intros Hf Hnum. cbn. rewrite send_either. cbn. split_and!; [done| |done|done| |].
  - unfold account. cbn. rewrite (held_write _ f); [done| |done]. cbn.
    apply get_inflight_Some; [by apply numbered_NoDup|done].
  - by rewrite <-(length_fmap seq), write_inflight_seq, length_fmap.
  - intros m. rewrite !elem_of_sends. cbn [with_inflight with_world inflight pending]. intros [(x & Hx & Hb & Hc)|?]; [left|by right].
    apply elem_of_write_inflight in Hx as [->|[Hx _]];
      [by exists f|by exists x|by apply numbered_NoDup|cbn; by apply list_elem_of_fmap_2].
Qed.

Definition appended p m : ProducerController B :=
  mkProducer (id p) (incarnation p) (windowSize p) (self p)
    (inflight p ++ [mkInFlight (nextSeq p) (body m) (confirm m) 0 None]) (pending p) (nextSeq p + 1)
    (unhandled p) (world p).

Lemma appended_core p m :
  core None p → Z.of_nat (length (inflight p)) < windowSize p → core (Some (nextSeq p)) (appended p m).
Proof.
  intros ((Hsort & Hnext & Hrange) & Hwin & [Harm Hsch]) Hroom.
  unfold core, numbered, windowed, armed; cbn. split_and!.
  - rewrite fmap_app. apply StronglySorted_app_2; [|done|repeat constructor].
    intros x y (f & -> & Hf)%list_elem_of_fmap ->%list_elem_of_singleton. cbn. apply Hrange in Hf. lia.
  - lia.
  - intros f [Hf| ->%list_elem_of_singleton]%elem_of_app; cbn; [apply Hrange in Hf; lia|lia].
  - rewrite length_app. cbn. lia.
  - intros f [Hf| ->%list_elem_of_singleton]%elem_of_app Hne; [by apply Harm|done].
  - intros h n Hh. apply Hsch in Hh as (? & _ & f & Hf & <- & Ht). split_and!; [done| |].
    + apply Hrange in Hf. intros [= Heq]. lia.
    + exists f. split; [|done]. apply elem_of_app. by left.
Qed.

Lemma appended_consistent p m : consistent p → consistent (appended p m).
Proof.
  intros Hcons d Hd Hinc. destruct (Hcons d Hd Hinc) as (n & Heq & Hlt & Hbody).
  exists n. cbn. split_and!; [done|lia|]. intros f [Hf| ->%list_elem_of_singleton]%elem_of_app; [by apply Hbody|].
  cbn. lia.
Qed.

Lemma dispatch_core accepts m p :
  core None p → Z.of_nat (length (inflight p)) < windowSize p →
  let p' := either (dispatch accepts m p) in
  core None p' ∧ wire_kept p p' ∧ same_producer p p' ∧
  account p' ≡ₚ callbacks_of (confirm m) ++ account p ∧
  settlements (world p') = settlements (world p) ∧ pending p' = pending p ∧
  length (inflight p') = S (length (inflight p)) ∧ sends p' ⊆ m :: sends p.
Proof.
  intros Hcore Hroom p'. pose proof (appended_core p m Hcore Hroom) as Happ.
  set (f := mkInFlight (nextSeq p) (body m) (confirm m) 0 None : InFlight B).
  change (p') with (either (send accepts f (appended p m))). clear p'.
  assert (f ∈ inflight (appended p m)) as Hf by (apply elem_of_app; right; by left).
  destruct (send_same accepts f (appended p m) Hf (proj1 Happ)) as (Hs & Ha & Hset & Hp & Hl & Hx).
  split_and!; [by apply send_core| |done| |done|done| |].
  - apply (wire_kept_trans p (appended p m)); [done| |apply send_wire_kept; [done|apply Happ]].
    apply wire_kept_same; [done|apply appended_consistent].
  - rewrite Ha. unfold account, held. cbn. rewrite bind_app. cbn. rewrite app_nil_r. solve_Permutation.
  - rewrite Hl. cbn. rewrite length_app. cbn. lia.
  - rewrite Hx. intros x. rewrite elem_of_cons, !elem_of_sends. cbn. setoid_rewrite elem_of_app.
    intros [(g & [Hg| ->%list_elem_of_singleton] & Hb & Hc)|?]; [right; left; by exists g| |by right; right].
    left. destruct x, m. cbn in *. congruence.
Qed.

Lemma drain_core accepts queue p :
  core None p → pending p = queue →
  let p' := either (drain accepts queue p) in
  core None p' ∧ wire_kept p p' ∧ same_producer p p' ∧ account p' ≡ₚ account p ∧
  settlements (world p') = settlements (world p) ∧ sends p' ⊆ sends p ∧
  (drain accepts queue p = Ok p' → pending p' ≠ [] → Z.of_nat (length (inflight p')) = windowSize p').
Proof.
  revert p. induction queue as [|m queue IH]; intros p Hcore Hq; cbn.
  { split_and!; [done|by apply wire_kept_same|done..|]. by rewrite Hq. }
  destruct (Z.ltb_spec (Z.of_nat (length (inflight p))) (windowSize p)) as [Hroom|Hfull].
  2:{ cbn. split_and!; [done|by apply wire_kept_same|done..|]. destruct Hcore as (_ & Hwin & _). unfold windowed in Hwin. lia. }
  set (q := with_pending queue p).
  destruct (dispatch_core accepts m q Hcore Hroom) as (Hc & Hcs & Hs & Ha & Hset & Hp & Hl & Hx).
  assert (account p ≡ₚ callbacks_of (confirm m) ++ account q) as Hap.
  { unfold account, queued. rewrite Hq. cbn. solve_Permutation. }
  assert (m :: sends q ⊆ sends p) as Hsub.
  { intros x. unfold sends. rewrite Hq. cbn. set_solver. }
  destruct (dispatch accepts m q) as [r|r] eqn:Ed; cbn in *.
  - destruct (IH r Hc Hp) as (Hc' & Hcs' & Hs' & Ha' & Hset' & Hx' & Hfull).
    split_and!; [done|by apply (wire_kept_trans p r); [apply Hs| |]| |by rewrite Ha', Ha, Hap|by rewrite Hset', Hset| |done].
    + unfold same_producer in *. cbn in *. naive_solver congruence.
    + by rewrite Hx', Hx.
  - split_and!; [done|done|done|by rewrite Ha, Hap|by rewrite Hset|by rewrite Hx|done].
Qed.

(** The state between two turns. *)
Definition quiet p : Prop :=
  core None p ∧ 1 ≤ windowSize p ∧
  (pending p ≠ [] → Z.of_nat (length (inflight p)) = windowSize p).

Definition submitted (message : Message B) : list nat :=
  match message with Send m => callbacks_of (confirm m) | _ => [] end.

(** An acknowledgment this producer acts on. *)
Definition acknowledges (a : Acknowledgment) f p : Prop :=
  ackProducerId a = id p ∧ ackIncarnation a = incarnation p ∧ f ∈ inflight p ∧ seq f = ackSeq a.

Lemma release_core n f p :
  core None p → get_inflight n (inflight p) = Some f →
  let p' := with_world (settle behaviour (fconfirm f) Delivered (Some (seq f)) (cancel (timer f) (world p)))
              (with_inflight (delete_inflight n (inflight p)) p) in
  core None p' ∧ wire_kept p p' ∧ account p' ≡ₚ account p ∧ sends p' ⊆ sends p.
Proof.
  intros (Hnum & Hwin & [Harm Hsch]) Hget p'. pose proof (numbered_NoDup p Hnum) as Hnd.
  apply get_inflight_Some in Hget as Hf; [|done]. destruct Hf as [Hf Hseq].
  destruct (settle_rest (fconfirm f) Delivered (Some (seq f)) (cancel (timer f) (world p))) as (Es & Eh & Ew).
  destruct (cancel_rest (timer f) (world p)) as (_ & Eh' & Ew').
  destruct (Harm f Hf ltac:(done)) as (h & Ht & Hh).
  pose proof (delete_inflight_seq n (inflight p)) as Hsub.
  unfold p', wire_kept, core, numbered, windowed, armed, consistent; cbn. rewrite Es, Eh, Ew, Eh', Ew'.
  assert (scheduled (cancel (timer f) (world p)) = delete h (scheduled (world p))) as -> by (by rewrite Ht).
  split_and!.
  - eapply StronglySorted_sublist; [exact Hsub|apply Hnum].
  - apply Hnum.
  - intros x [Hx _]%elem_of_delete_inflight; [by apply Hnum|done].
  - apply length_delete_inflight in Hget. unfold windowed in Hwin. lia.
  - intros x [Hx Hne]%elem_of_delete_inflight _; [|done]. destruct (Harm x Hx ltac:(done)) as (k & Hk & Hs).
    exists k. split; [done|]. rewrite lookup_delete_ne; [done|]. intros ->. congruence.
  - intros k m [Hne Hk]%lookup_delete_Some. apply Hsch in Hk as (? & _ & x & Hx & <- & Hxt).
    split_and!; [done|done|]. exists x. split_and!; [|done|done]. apply elem_of_delete_inflight; [done|].
    split; [done|]. intros Heq. apply Hne.
    assert (x = f) as ->; [|congruence].
    assert (get_inflight n (inflight p) = Some x) by (by apply get_inflight_Some). congruence.
  - intros Hcons d Hd Hinc. destruct (Hcons d Hd Hinc) as (k & Heq & Hlt & Hbody).
    exists k. split_and!; [done|done|]. intros x [Hx _]%elem_of_delete_inflight; [by apply Hbody|done].
  - done.
  - by left.
  - unfold account. cbn. rewrite settle_settled.
    assert (settled (cancel (timer f) (world p)) = settled (world p)) as E by (by destruct (timer f)).
    rewrite E.
    rewrite (held_delete n f (inflight p) Hget). solve_Permutation.
  - intros m. rewrite !elem_of_sends. cbn. intros [(x & Hx & ?)|?]; [left|by right].
    apply elem_of_delete_inflight in Hx as [Hx _]; [by exists x|done].
Qed.

(** What a turn on [message] does to the state, whether or not it throws. *)
Definition turn_ok (message : Message B) p (r : result (ProducerController B) (ProducerController B)) : Prop :=
  let p' := either r in
  core None p' ∧ wire_kept p p' ∧ same_producer p p' ∧
  account p' ≡ₚ submitted message ++ account p ∧
  (∀ m, m ∈ sends p' → m ∈ sends p ∨ message = Send m) ∧
  (is_ok r = true → quiet p') ∧
  (∀ s, s ∈ settlements (world p') → outcome s = Delivered →
     s ∈ settlements (world p) ∨
     ∃ a f, message = Ack a ∧ acknowledges a f p ∧ fconfirm f = Callback (callback s) ∧
       number s = Some (seq f)).

Lemma turn_ok_id message p : submitted message = [] → quiet p → turn_ok message p (Ok p).
Proof. intros Hs Hq. unfold turn_ok. rewrite Hs. split_and!; try done; [apply Hq|by apply wire_kept_same|by left|by left]. Qed.

Lemma onUnhandled_ok message now p :
  submitted message = [] → quiet p → turn_ok message p (Ok (onUnhandled message now p)).
Proof.
  intros Hs Hq. unfold turn_ok. rewrite Hs. split_and!; try done; [apply Hq|by apply wire_kept_same|by left|by left].
Qed.

Lemma enqueue_ok m p :
  quiet p → windowSize p ≤ Z.of_nat (length (inflight p)) →
  turn_ok (Send m) p (Ok (with_pending (pending p ++ [m]) p)).
Proof.
  intros (Hcore & Hsize & _) Hfull. unfold turn_ok. cbn [either is_ok submitted]. split_and!; try done.
  - by apply wire_kept_same.
  - unfold account, queued. cbn. rewrite bind_app. cbn. rewrite app_nil_r. solve_Permutation.
  - intros x. rewrite !elem_of_sends. cbn. rewrite elem_of_app, list_elem_of_singleton. naive_solver.
  - intros _. split_and!; [done|done|]. cbn. intros _. destruct Hcore as (_ & Hwin & _).
    unfold windowed in Hwin. lia.
  - by left.
Qed.

Lemma dispatch_ok accepts m p :
  quiet p → Z.of_nat (length (inflight p)) < windowSize p → turn_ok (Send m) p (dispatch accepts m p).
Proof.
  intros (Hcore & Hsize & Hfull) Hroom.
  destruct (dispatch_core accepts m p Hcore Hroom) as (Hc & Hcs & Hs & Ha & Hset & Hp & Hl & Hx).
  unfold turn_ok. split_and!; try done.
  - intros x [->|?]%Hx%elem_of_cons; [by right|by left].
  - intros _. split_and!; [done|destruct Hs as (_ & _ & -> & _); lia|]. rewrite Hp, Hl.
    intros Hne. apply Hfull in Hne. lia.
  - rewrite Hset. by left.
Qed.

Lemma onSend_ok accepts m now p : quiet p → turn_ok (Send m) p (onSend accepts m now p).
Proof.
  intros Hq. unfold onSend. rewrite Z.geb_leb.
  assert (turn_ok (Send m) p
    (if windowSize p <=? Z.of_nat (length (inflight p)) then Ok (with_pending (pending p ++ [m]) p)
     else dispatch accepts m p)) as Hadmit.
  { destruct (Z.leb_spec (windowSize p) (Z.of_nat (length (inflight p))));
      [by apply enqueue_ok|by apply dispatch_ok]. }
  destruct (confirm m) eqn:Em; [done|done|]. apply onUnhandled_ok; [|done]. cbn. by rewrite Em.
Qed.

Lemma onAcknowledgment_ok accepts a p : quiet p → turn_ok (Ack a) p (onAcknowledgment behaviour accepts a p).
Proof.
  intros Hq. unfold onAcknowledgment.
  case_bool_decide as Hid; [|by apply turn_ok_id]. case_bool_decide as Hinc; [|by apply turn_ok_id].
  destruct (get_inflight (ackSeq a) (inflight p)) as [f|] eqn:Ef; [|by apply turn_ok_id].
  destruct Hq as (Hcore & Hsize & _). cbn zeta.
  destruct (release_core (ackSeq a) f p Hcore Ef) as (Hc & Hcs & Ha & Hx).
  set (q := with_world _ _). fold q in Hc, Hcs, Ha, Hx.
  destruct (drain_core accepts (pending q) q Hc eq_refl) as (Hc' & Hcs' & Hs' & Ha' & Hset' & Hx' & Hfull').
  change (negb true) with false. cbn iota.
  unfold turn_ok. split_and!; [done|by apply (wire_kept_trans p q)|done|by rewrite Ha'| | |].
  - intros m Hm. left. by apply Hx, Hx'.
  - intros Hok. split_and!; [done|destruct Hs' as (_ & _ & -> & _); done|]. apply Hfull'.
    by destruct (drain accepts (pending q) q).
  - intros s Hs Hd. rewrite Hset' in Hs. cbn in Hs. apply settle_settlements in Hs as [Hs|(k & Hk & ->)].
    + left. by rewrite (proj1 (cancel_rest _ _)) in Hs.
    + right. exists a, f. split_and!; [done| |done|done].
      apply get_inflight_Some in Ef as [? ?]; [|apply numbered_NoDup, Hcore]. by split_and!.
Qed.

Lemma onReceive_ok accepts message now p :
  quiet p → turn_ok message p (onReceive behaviour accepts message now p).
Proof.
  intros Hq. destruct message as [m|a|n]; cbn.
  - by apply onSend_ok.
  - by apply onAcknowledgment_ok.
  - by apply onUnhandled_ok.
Qed.

(** *** Timers *)

Lemma cancelled_core h f p :
  core None p → f ∈ inflight p → timer f = Some h → core (Some (seq f)) (with_world (cancel (Some h) (world p)) p).
Proof.
  intros (Hnum & Hwin & [Harm Hsch]) Hf Ht. unfold core, numbered, windowed, armed; cbn.
  destruct (Harm f Hf ltac:(done)) as (h' & Ht' & Hh). assert (h' = h) as -> by congruence.
  split_and!; [apply Hnum|apply Hnum|apply Hnum|done| |].
  - intros x Hx Hne. destruct (Harm x Hx ltac:(done)) as (k & Hk & Hs). exists k. split; [done|].
    rewrite lookup_delete_ne; [done|]. intros <-. congruence.
  - intros k n [Hne Hk]%lookup_delete_Some. apply Hsch in Hk as (? & _ & x & Hx & <- & Hxt).
    split_and!; [done| |by exists x]. intros [= Heq].
    assert (get_inflight (seq f) (inflight p) = Some x) as Hgx
      by (apply get_inflight_Some; [by apply numbered_NoDup|done]).
    assert (get_inflight (seq f) (inflight p) = Some f) as Hgf
      by (apply get_inflight_Some; [by apply numbered_NoDup|done]).
    congruence.
Qed.

(** An armed timer of number [n] fires: the delivery is handed to the consumer
    again, or its refusal is logged, and the timer is armed again. *)
Lemma fire_spec accepts h p :
  quiet p →
  match scheduled (world p) !! h with
  | None => fire accepts h p = p
  | Some n => ∃ f, f ∈ inflight p ∧ seq f = n ∧ timer f = Some h ∧
      let q := with_world (cancel (Some h) (world p)) p in
      let r := either (send accepts f q) in
      fire accepts h p =
        if accepts n then r else
          with_world (mkWorld (scheduled (world r)) (handles (world r)) (wire (world r)) (settlements (world r))
            (confirmFailures (world r)) (refusedRetransmits (world r) ++ [n]) (deadLetters (world r))) r
  end.
Proof.
  intros ((Hnum & Hwin & [Harm Hsch]) & _). unfold fire. destruct (scheduled (world p) !! h) as [n|] eqn:Eh; [|done].
  apply Hsch in Eh as (_ & _ & f & Hf & Hseq & Ht). exists f. split_and!; [done..|].
  unfold retransmit. cbn [inflight with_world].
  assert (get_inflight n (inflight p) = Some f) as -> by (apply get_inflight_Some; [by apply numbered_NoDup|done]).
  unfold send. cbn. rewrite Hseq. by destruct (accepts n).
Qed.

Lemma fire_ok accepts h p :
  quiet p →
  let p' := fire accepts h p in
  quiet p' ∧ wire_kept p p' ∧ same_producer p p' ∧ account p' = account p ∧
  sends p' ⊆ sends p ∧ settlements (world p') = settlements (world p).
Proof.
  intros Hq. pose proof (fire_spec accepts h p Hq) as Hspec. destruct (scheduled (world p) !! h) as [n|].
  2:{ rewrite Hspec. cbn. split_and!; [done|by apply wire_kept_same|done..]. }
  destruct Hspec as (f & Hf & Hseq & Ht & Hfire). destruct Hq as (Hcore & Hsize & Hfull).
  set (q := with_world (cancel (Some h) (world p)) p) in Hfire.
  pose proof (cancelled_core h f p Hcore Hf Ht) as Hcq.
  pose proof (send_core accepts f q Hf Hcq) as Hc.
  destruct (send_same accepts f q Hf (proj1 Hcq)) as (Hs & Ha & Hset & Hp & Hl & Hx).
  assert (wire_kept p (either (send accepts f q))) as Hcs.
  { apply (wire_kept_trans p q); [done|by apply wire_kept_same|]. apply send_wire_kept; [done|apply Hcq]. }
  assert (quiet (either (send accepts f q))) as Hquiet.
  { split_and!; [done|by destruct Hs as (_ & _ & -> & _)|]. rewrite Hp, Hl.
    destruct Hs as (_ & _ & -> & _). exact Hfull. }
  cbn zeta in Hfire. cbn zeta. rewrite Hfire. by destruct (accepts n).
Qed.

Lemma fire_rearms accepts h f p :
  quiet p → f ∈ inflight p → timer f = Some h → scheduled (world p) !! h = Some (seq f) →
  let q := fire accepts h p in
  wire (world q) = wire (world p) ++ (if accepts (seq f) then [delivery_of f p] else []) ∧
  refusedRetransmits (world q) =
    refusedRetransmits (world p) ++ (if accepts (seq f) then [] else [seq f]) ∧
  settlements (world q) = settlements (world p) ∧
  ∃ g h', g ∈ inflight q ∧ seq g = seq f ∧ fbody g = fbody f ∧ timer g = Some h' ∧
    scheduled (world q) !! h' = Some (seq f).
Proof.
  intros Hq Hf Ht Hh q. pose proof (fire_spec accepts h p Hq) as Hspec. rewrite Hh in Hspec.
  destruct Hspec as (f' & Hf' & Hseq & Ht' & Hfire). destruct Hq as ((Hnum & _) & _).
  pose proof (numbered_NoDup p Hnum) as Hnd.
  assert (f' = f) as ->.
  { assert (get_inflight (seq f) (inflight p) = Some f') by (by apply get_inflight_Some).
    assert (get_inflight (seq f) (inflight p) = Some f) by (by apply get_inflight_Some). congruence. }
  cbn zeta in Hfire. rewrite send_either in Hfire. cbn [world with_world handles cancel] in Hfire.
  set (g := mkInFlight (seq f) (fbody f) (fconfirm f) (attempts f + 1) (Some (handles (world p)))) in *.
  assert (g ∈ write_inflight g (inflight p)) as Hg.
  { apply elem_of_write_inflight; [done|cbn; by apply list_elem_of_fmap_2|by left]. }
  unfold q. rewrite Hfire. destruct (accepts (seq f)); cbn; rewrite ?app_nil_r; split_and!; try done;
    exists g, (handles (world p)); split_and!; try done; by rewrite lookup_insert_eq.
Qed.

(** *** Restarts *)

Lemma restart_ok next p :
  core None p → 1 ≤ windowSize p →
  quiet (restart behaviour next p) ∧ account (restart behaviour next p) = account p ∧
  sends (restart behaviour next p) = [] ∧
  ((∀ d, d ∈ wire (world p) → Delivery.incarnation d ≠ Some (JString next)) →
     consistent (restart behaviour next p)) ∧
  (∀ s, s ∈ settlements (world (restart behaviour next p)) → outcome s = Delivered → s ∈ settlements (world p)).
Proof.
  intros (Hnum & Hwin & Harm) Hsize. destruct (postStop_account p) as (Hset & _ & Hdel).
  split_and!; [|by unfold account at 1; cbn; rewrite app_nil_r|done| |done].
  - assert (scheduled (world (postStop behaviour p)) = ∅) as Hsch by by apply postStop_scheduled.
    unfold quiet, core, numbered, windowed, armed; cbn [restart construct inflight pending world nextSeq windowSize].
    rewrite Hsch. split_and!; try done; try (cbn; lia); try (intros ? []%elem_of_nil); constructor.
  - intros Hfresh d Hd. change (d ∈ wire (world (postStop behaviour p))) in Hd. rewrite postStop_wire in Hd.
    by intros []%Hfresh.
Qed.

(** *** Runs *)

Definition handed_over (e : event B) : list nat :=
  match e with Receives _ message _ _ => submitted message | _ => [] end.

(** The tokens a run draws are not on the wire when they are drawn. *)
Definition draws_fresh p (e : event B) : Prop :=
  match e with
  | Receives _ _ _ next | Restarts next =>
      next ≠ incarnation p ∧ ∀ d, d ∈ wire (world p) → Delivery.incarnation d ≠ Some (JString next)
  | Fires _ _ => True
  end.

(** What one event does. *)
Definition stepped p (e : event B) p' : Prop :=
  quiet p' ∧ id p' = id p ∧ windowSize p' = windowSize p ∧ self p' = self p ∧
  account p' ≡ₚ handed_over e ++ account p ∧
  (∀ m, m ∈ sends p' → m ∈ sends p ∨ ∃ accepts now next, e = Receives accepts (Send m) now next) ∧
  (∀ s, s ∈ settlements (world p') → outcome s = Delivered →
     s ∈ settlements (world p) ∨
     ∃ accepts a now next f, e = Receives accepts (Ack a) now next ∧ acknowledges a f p ∧
       fconfirm f = Callback (callback s) ∧ number s = Some (seq f)).

Lemma producer_turn_stepped p e : quiet p → stepped p e (turn behaviour p e).
Proof.
  intros Hq. destruct e as [accepts message now next|accepts h|next]; cbn [turn].
  - pose proof (onReceive_ok accepts message now p Hq) as (Hc & _ & (Hid & Hinc & Hsize & Hself) & Ha & Hsend & Hquiet & Hset).
    destruct (onReceive behaviour accepts message now p) as [p'|p'] eqn:Er; cbn in *.
    + split_and!; [by apply Hquiet|done..| |].
      * intros m [?| ->]%Hsend; [by left|right; by eauto].
      * intros s Hs Hd. destruct (Hset s Hs Hd) as [?|(a & f & -> & ?)]; [by left|right]. by eauto 10.
    + destruct (restart_ok next p' Hc ltac:(rewrite Hsize; apply Hq)) as (Hq' & Ha' & Hs' & _ & Hdel).
      split_and!; [done|done|done|done|by rewrite Ha'| |].
      * rewrite Hs'. by intros m []%elem_of_nil.
      * intros s Hs Hd. destruct (Hset s (Hdel s Hs Hd) Hd) as [?|(a & f & -> & ?)]; [by left|right]. by eauto 10.
  - destruct (fire_ok accepts h p Hq) as (Hq' & _ & (Hid & Hinc & Hsize & Hself) & Ha & Hs & Hset).
    split_and!; [done..|by rewrite Ha| |].
    + intros m Hm. left. by apply Hs.
    + intros s Hin _. left. by rewrite <-Hset.
  - destruct (restart_ok next p (proj1 Hq) (proj1 (proj2 Hq))) as (Hq' & Ha' & Hs' & _ & Hdel).
    split_and!; [done|done|done|done|by rewrite Ha'| |].
    + rewrite Hs'. by intros m []%elem_of_nil.
    + intros s Hs Hd. left. by apply Hdel.
Qed.

Lemma turn_consistent p e : quiet p → draws_fresh p e → consistent p → consistent (turn behaviour p e).
Proof.
  intros Hq Hfresh Hcons. destruct e as [accepts message now next|accepts h|next]; cbn [turn].
  - pose proof (onReceive_ok accepts message now p Hq) as (Hc & (Hcs & _ & Hw) & (_ & Hinc & Hsize & _) & _).
    destruct (onReceive behaviour accepts message now p) as [p'|p'] eqn:Er; cbn in *; [auto|].
    apply restart_ok; [done|rewrite Hsize; apply Hq|].
    intros d [Hd|Hd]%Hw; [by apply Hfresh|]. rewrite Hd. intros [= Heq]. by apply Hfresh.
  - by apply fire_ok.
  - apply restart_ok; [apply Hq..|]. apply Hfresh.
Qed.

(** The token an event may draw. *)
Definition drawn (e : event B) : list string :=
  match e with Receives _ _ _ next | Restarts next => [next] | Fires _ _ => [] end.

Lemma turn_tokens p e :
  quiet p →
  (incarnation (turn behaviour p e) = incarnation p ∨ incarnation (turn behaviour p e) ∈ drawn e) ∧
  (∀ d, d ∈ wire (world p) → d ∈ wire (world (turn behaviour p e))) ∧
  ∀ d, d ∈ wire (world (turn behaviour p e)) →
    d ∈ wire (world p) ∨ Delivery.incarnation d = Some (JString (incarnation p)).
Proof.
  intros Hq. assert (∀ next q, wire (world (restart behaviour next q)) = wire (world q)) as Hrw
    by (intros; apply postStop_wire).
  destruct e as [accepts message now next|accepts h|next]; cbn [turn drawn].
  - pose proof (onReceive_ok accepts message now p Hq) as (_ & [_ Hw] & (_ & Hinc & _) & _).
    destruct (onReceive behaviour accepts message now p) as [p'|p'] eqn:Er; cbn [either] in *.
    + split; [by left|exact Hw].
    + split; [right; by left|]. by rewrite Hrw.
  - destruct (fire_ok accepts h p Hq) as (_ & [_ Hw] & (_ & Hinc & _) & _). split; [by left|exact Hw].
  - split; [right; by left|]. rewrite Hrw. split; [done|by left].
Qed.

Lemma producer_run_snoc p es e : run behaviour p (es ++ [e]) = turn behaviour (run behaviour p es) e.
Proof. unfold run. by rewrite foldl_app. Qed.

Lemma construct_quiet id_ incarnation_ size self_ :
  1 ≤ size → quiet (construct (B:=B) id_ incarnation_ size self_ nothing).
Proof.
  intros. unfold quiet, core, numbered, windowed, armed; cbn.
  split_and!; try done; try lia; try (intros ? []%elem_of_nil); constructor.
Qed.

(** A Delivered outcome was told on an acknowledgment of the run. *)
Definition acknowledged (es : list (event B)) (id_ : string) (s : Settlement) : Prop :=
  ∃ accepts a now next, Receives accepts (Ack a) now next ∈ es ∧
    ackProducerId a = id_ ∧ number s = Some (ackSeq a).

Lemma run_account id_ incarnation_ size self_ es :
  1 ≤ size →
  let p := run behaviour (construct (B:=B) id_ incarnation_ size self_ nothing) es in
  quiet p ∧ id p = id_ ∧ windowSize p = size ∧ self p = self_ ∧ account p ≡ₚ es ≫= handed_over ∧
  ∀ s, s ∈ settlements (world p) → outcome s = Delivered → acknowledged es id_ s.
Proof.
  intros Hsize. cbn. induction es as [|e es IH] using rev_ind.
  { split_and!; [by apply construct_quiet|done..|]. by intros s []%elem_of_nil. }
  rewrite producer_run_snoc. set (p := run _ _ es) in *. destruct IH as (Hq & Hid & Hwin & Hself & Ha & Hset).
  destruct (producer_turn_stepped p e Hq) as (Hq' & Hid' & Hwin' & Hself' & Ha' & _ & Hset').
  split_and!; [done|congruence..| |].
  - rewrite Ha', Ha, bind_app. cbn. rewrite app_nil_r. apply Permutation_app_comm.
  - intros s Hs Hd. destruct (Hset' s Hs Hd) as [Hold|(accepts & a & now & next & f & -> & Hack & _ & Hn)].
    + destruct (Hset s Hold Hd) as (accepts & a & now & next & Hin & ?).
      exists accepts, a, now, next. split; [|done]. apply elem_of_app. by left.
    + destruct Hack as (Hida & _ & _ & Hseq). exists accepts, a, now, next. split_and!.
      * apply elem_of_app. right. by left.
      * congruence.
      * by rewrite Hn, Hseq.
Qed.

End laws.

(** ** Properties *)

(** C33. Over any run of a producer — sends, acknowledgments, foreign
    messages, timers, refused [tell]s, faults and restarts — every callback
    that was handed over is told exactly once or is still owed an outcome, in
    flight or queued; stopping the producer settles every one of those and
    leaves none; and a callback is told of success only on an acknowledgment
    of this producer's id and of its own number. *)
Theorem producer_settles_once {B} (behaviour : nat → Outcome → Behaviour)
    (id_ incarnation_ : string) (size : Z) (self_ : nat) (es : list (event B)) :
  1 ≤ size →
  let p := run behaviour (construct id_ incarnation_ size self_ nothing) es in
  let stopped := postStop behaviour p in
  es ≫= handed_over ≡ₚ settled (world p) ++ held (inflight p) ++ queued (pending p) ∧
  es ≫= handed_over ≡ₚ settled (world stopped) ∧ inflight stopped = [] ∧ pending stopped = [] ∧
  (∀ s, s ∈ settlements (world p) → outcome s = Delivered → acknowledged es id_ s).
Proof.
  intros Hsize p stopped. destruct (run_account behaviour id_ incarnation_ size self_ es Hsize)
    as (_ & _ & _ & _ & Ha & Hset).
  split_and!; [done| |done|done|done]. unfold stopped. by rewrite (proj1 (postStop_account behaviour p)).
Qed.

(** In every reachable state of a producer at most [windowSize] sends are
    in flight, in ascending numbers, and sends are queued only behind a full
    window.  The armed timers are exactly one per in-flight send, a stop
    cancels them all, and when one fires the delivery is handed over again,
    or its refusal is logged, and either way it is armed again: no send in
    flight is ever left without a retransmission. *)
Theorem producer_window {B} (behaviour : nat → Outcome → Behaviour)
    (id_ incarnation_ : string) (size : Z) (self_ : nat) (es : list (event B)) :
  1 ≤ size →
  let p := run behaviour (construct id_ incarnation_ size self_ nothing) es in
  Z.of_nat (length (inflight p)) ≤ size ∧
  (pending p ≠ [] → Z.of_nat (length (inflight p)) = size) ∧
  StronglySorted Z.lt (seq <$> inflight p) ∧
  scheduled (world (postStop behaviour p)) = ∅ ∧
  (∀ h n, scheduled (world p) !! h = Some n → ∃ f, f ∈ inflight p ∧ seq f = n ∧ timer f = Some h) ∧
  (∀ f, f ∈ inflight p → ∃ h, timer f = Some h ∧ scheduled (world p) !! h = Some (seq f) ∧
     ∀ accepts, let q := fire accepts h p in
       wire (world q) = wire (world p) ++ (if accepts (seq f) then [delivery_of f p] else []) ∧
       refusedRetransmits (world q) =
         refusedRetransmits (world p) ++ (if accepts (seq f) then [] else [seq f]) ∧
       settlements (world q) = settlements (world p) ∧
       ∃ g h', g ∈ inflight q ∧ seq g = seq f ∧ fbody g = fbody f ∧ timer g = Some h' ∧
         scheduled (world q) !! h' = Some (seq f)).
Proof.
  intros Hsize p. destruct (run_account behaviour id_ incarnation_ size self_ es Hsize)
    as (Hq & Hid & Hwin & _). fold p in Hq, Hid, Hwin.
  pose proof Hq as (((Hsort & Hnext & Hrange) & Hw & [Harm Hsch]) & _ & Hfull).
  split_and!; [unfold windowed in Hw; by rewrite <-Hwin|by rewrite <-Hwin|done|by apply postStop_scheduled| |].
  - intros h n (_ & _ & Hf)%Hsch. exact Hf.
  - intros f Hf. destruct (Harm f Hf ltac:(done)) as (h & Ht & Hh). exists h. split_and!; [done|done|].
    intros accepts q. exact (fire_rearms accepts h f p Hq Hf Ht Hh).
Qed.

(** ** A run

    A window of one: the second send waits, the first one is retransmitted
    once and acknowledged, the callback of the second throws, and a send whose
    [confirm] is not a function is declined. *)
Definition sample : list (event nat) :=
  [Receives (λ _, true) (Send (mkSend 10%nat (Callback 1))) 0 "i2";
   Receives (λ _, true) (Send (mkSend 20%nat (Callback 2))) 1 "i2";
   Receives (λ _, true) (Send (mkSend 30%nat NotAFunction)) 2 "i2";
   Fires (λ _, true) 0;
   Receives (λ _, true) (Ack (mkAck "p" "i1" 1)) 3 "i2";
   Receives (λ _, true) (Send (mkSend 40%nat (Callback 4))) 4 "i2"].

Definition sample_behaviour (c : nat) (o : Outcome) : Behaviour := if decide (c = 2)%nat then Throws else Returns.

Local Abbreviation sample_run := (run sample_behaviour (construct "p" "i1" 1 0 nothing) sample).

Example sample_state :
  (seq <$> inflight sample_run, body <$> pending sample_run, settlements (world sample_run),
   length (wire (world sample_run)), length (deadLetters (world sample_run))) =
  ([2], [40%nat], [mkSettlement 1 Delivered (Some 1)], 3%nat, 1%nat).
Proof. vm_compute. reflexivity. Qed.

Lemma producer_settles_once_witness :
  1 ≤ 1 ∧ [1; 2; 4]%nat ≡ₚ settled (world (postStop sample_behaviour sample_run)).
Proof.
  split; [lia|]. exact (proj1 (proj2 (producer_settles_once sample_behaviour "p" "i1" 1 0 sample ltac:(lia)))).
Defined.

Lemma sample_in_flight : ∃ f, f ∈ inflight sample_run.
Proof.
  assert (length (inflight sample_run) = 1%nat) as Hl by (vm_compute; reflexivity).
  revert Hl. generalize (inflight sample_run). intros [|f fs]; [done|]. exists f. left.
Qed.

Lemma producer_window_witness :
  1 ≤ 1 ∧ ∃ f h, f ∈ inflight sample_run ∧ timer f = Some h ∧
    wire (world (fire (λ _, true) h sample_run)) = wire (world sample_run) ++ [delivery_of f sample_run].
Proof.
  split; [lia|]. destruct sample_in_flight as [f Hf].
  pose proof (producer_window sample_behaviour "p" "i1" 1 0 sample ltac:(lia)) as H.
  destruct H as (_ & _ & _ & _ & _ & Hall).
  destruct (Hall f Hf) as (h & Ht & _ & Hfire). exists f, h. split; [exact Hf|]. split; [exact Ht|].
  exact (proj1 (Hfire (λ _, true))).
Defined.

End ProducerController.
