(* ===== verification/ConsumerController.v ===== *)
(** * [ConsumerController] of [src/delivery/ConsumerController.ts]

    The consumer side of reliable delivery: admission of an envelope off the
    wire, the deduplication window of each producer, its bounds, and the
    acknowledgment after the handler returned.

    The map of windows is an association list in the insertion order of the
    JavaScript [Map], whose first key is the least recently used.  Handling a
    delivery is asynchronous: between the call of the handler and its return
    only the idle sweep can run, because the cell holds the next delivery
    back, so a delivery is one turn with the times of the sweeps that fell
    into it.  Times are readings of the clock, in milliseconds. *)

From S2P Require Import Prelude Json Delivery.

Local Open Scope Z_scope.

Module ConsumerController.

Definition DEFAULT_MAX_PRODUCERS : Z := 1024.
Definition DEFAULT_PRODUCER_IDLE_TTL_MS : Z := 300000.
Definition DEFAULT_MAX_OUT_OF_ORDER : Z := 1024.

Record DeduplicationState := mkState {
  incarnation : string;
  contiguous : Z;
  above : gset Z;
  lastSeenAtMs : Z
}.

(** An envelope that passed [isAdmissible]: its fields at their declared types. *)
Record Accepted (B : Type) := mkAccepted {
  producerId : string;
  token : string;
  seq : Z;
  body : B;
  replyTo : nat
}.
Arguments mkAccepted {B}.
Arguments producerId {B}.
Arguments token {B}.
Arguments seq {B}.
Arguments body {B}.
Arguments replyTo {B}.

Inductive Message (B : Type) :=
| Deliver (d : Delivery B)
| Foreign (payload : nat).
Arguments Deliver {B}.
Arguments Foreign {B}.

(** The bounds are [None] at [Infinity].  [handled] lists the deliveries whose
    handler returned, [failed] those whose handler threw, [acknowledged] the
    acknowledgments told with their address. *)
Record ConsumerController (B : Type) := mkConsumer {
  maxProducers : option Z;
  producerIdleTtlMs : option Z;
  maxOutOfOrder : option Z;
  deduplication : list (string * DeduplicationState);
  evictions : Pacer;
  refusals : Pacer;
  unhandled : Pacer;
  handled : list (Accepted B);
  failed : list (Accepted B);
  acknowledged : list (nat * Acknowledgment);
  deadLetters : list (Message B)
}.
Arguments mkConsumer {B}.
Arguments maxProducers {B}.
Arguments producerIdleTtlMs {B}.
Arguments maxOutOfOrder {B}.
Arguments deduplication {B}.
Arguments evictions {B}.
Arguments refusals {B}.
Arguments unhandled {B}.
Arguments handled {B}.
Arguments failed {B}.
Arguments acknowledged {B}.
Arguments deadLetters {B}.

(** ** The deduplication window of one producer *)

(** [while (above.delete(contiguous + 1)) contiguous++]. *)
Fixpoint slide (fuel : nat) (contiguous_ : Z) (above_ : gset Z) : Z * gset Z :=
  match fuel with
  | O => (contiguous_, above_)
  | S fuel =>
      if decide (contiguous_ + 1 ∈ above_)
      then slide fuel (contiguous_ + 1) (above_ ∖ {[contiguous_ + 1]})
      else (contiguous_, above_)
  end.

Definition markDelivered (n : Z) (st : DeduplicationState) : DeduplicationState :=
  if n =? contiguous st + 1 then
    let '(c, a) := slide (size (above st)) (contiguous st + 1) (above st) in
    mkState (incarnation st) c a (lastSeenAtMs st)
  else mkState (incarnation st) (contiguous st) ({[n]} ∪ above st) (lastSeenAtMs st).

Definition hasOutOfOrderRoom (limit : option Z) (st : DeduplicationState) (n : Z) : bool :=
  (n =? contiguous st + 1) ||
  match limit with Some limit => Z.of_nat (size (above st)) <? limit | None => true end.

(** [seq <= state.contiguous || state.above.has(seq)]. *)
Definition isDuplicate (st : DeduplicationState) (n : Z) : bool :=
  (n <=? contiguous st) || bool_decide (n ∈ above st).

(** ** The map of windows *)

(** [deduplication.get], [delete] and [set] on a key that is not there. *)
Fixpoint get_state (key : string) (l : list (string * DeduplicationState)) : option DeduplicationState :=
  match l with
  | [] => None
  | (k, st) :: l => if bool_decide (k = key) then Some st else get_state key l
  end.

Fixpoint delete_state (key : string) (l : list (string * DeduplicationState)) : list (string * DeduplicationState) :=
  match l with
  | [] => []
  | (k, st) :: l => if bool_decide (k = key) then l else (k, st) :: delete_state key l
  end.

Definition stamped (now : Z) (st : DeduplicationState) : DeduplicationState :=
  mkState (incarnation st) (contiguous st) (above st) now.

Definition touch (now : Z) (key : string) (st : DeduplicationState)
    (l : list (string * DeduplicationState)) : list (string * DeduplicationState) :=
  delete_state key l ++ [(key, stamped now st)].

(** [while (size >= maxProducers) delete first key], and how many it deleted. *)
Fixpoint evict (limit : Z) (l : list (string * DeduplicationState)) : list (string * DeduplicationState) * Z :=
  if Z.of_nat (length l) >=? limit then
    match l with
    | [] => ([], 0)
    | _ :: l => let '(l, evicted) := evict limit l in (l, evicted + 1)
    end
  else (l, 0).

(** The loop of [sweepIdleProducers], which breaks at the first fresh entry. *)
Fixpoint sweep_loop (cutoff : Z) (l : list (string * DeduplicationState)) : list (string * DeduplicationState) :=
  match l with
  | [] => []
  | (k, st) :: l' => if lastSeenAtMs st >? cutoff then l else sweep_loop cutoff l'
  end.

Section ops.
Context {B : Type}.
Implicit Types (c : ConsumerController B) (a : Accepted B).

Definition construct (maxProducers_ ttl maxOutOfOrder_ : option Z) : ConsumerController B :=
  mkConsumer maxProducers_ ttl maxOutOfOrder_ [] (mkPacer 0 (Some 0) []) (mkPacer 0 (Some 0) [])
    (mkPacer 0 None []) [] [] [] [].

Definition with_deduplication (l : list (string * DeduplicationState)) c : ConsumerController B :=
  mkConsumer (maxProducers c) (producerIdleTtlMs c) (maxOutOfOrder c) l (evictions c) (refusals c)
    (unhandled c) (handled c) (failed c) (acknowledged c) (deadLetters c).

Definition isIdentifier (value : option json) : option string :=
  match value with
  | Some (JString s) =>
      if (0 <? Z.of_nat (String.length s)) && (Z.of_nat (String.length s) <=? MAX_DELIVERY_IDENTIFIER_LENGTH)
      then Some s else None
  | _ => None
  end.

Definition isAdmissible (d : Delivery B) : option (Accepted B) :=
  match isIdentifier (Delivery.producerId d), isIdentifier (Delivery.incarnation d),
        Delivery.seq d, Delivery.replyTo d with
  | Some p, Some i, Some (JNumber (Num n)), Some r =>
      if Number_isSafeInteger (Num n) && negb (n <=? 0) then Some (mkAccepted p i n (Delivery.body d) r) else None
  | _, _, _, _ => None
  end.

Definition deadLetter (message : Message B) c : ConsumerController B :=
  mkConsumer (maxProducers c) (producerIdleTtlMs c) (maxOutOfOrder c) (deduplication c) (evictions c)
    (refusals c) (unhandled c) (handled c) (failed c) (acknowledged c) (deadLetters c ++ [message]).

Definition onUnhandled (message : Message B) (now : Z) c : ConsumerController B :=
  deadLetter message
    (mkConsumer (maxProducers c) (producerIdleTtlMs c) (maxOutOfOrder c) (deduplication c) (evictions c)
       (refusals c) (report UNHANDLED_REPORT_INTERVAL_MS 1 now (unhandled c)) (handled c) (failed c)
       (acknowledged c) (deadLetters c)).

Definition evictForNewProducer (now : Z) c : ConsumerController B :=
  match maxProducers c with
  | None => c
  | Some limit =>
      let '(l, evicted) := evict limit (deduplication c) in
      mkConsumer (maxProducers c) (producerIdleTtlMs c) (maxOutOfOrder c) l
        (if 0 <? evicted then report DEDUPLICATION_REPORT_INTERVAL_MS evicted now (evictions c) else evictions c)
        (refusals c) (unhandled c) (handled c) (failed c) (acknowledged c) (deadLetters c)
  end.

(** The state object is returned after [touch] stamped it. *)
Definition deduplicationStateFor (now : Z) (key incarnation_ : string) c
    : DeduplicationState * ConsumerController B :=
  let fresh := mkState incarnation_ 0 ∅ 0 in
  let touched st c := (stamped now st, with_deduplication (touch now key st (deduplication c)) c) in
  match get_state key (deduplication c) with
  | Some existing =>
      if bool_decide (incarnation existing = incarnation_) then touched existing c else touched fresh c
  | None => touched fresh (evictForNewProducer now c)
  end.

Definition sweepIdleProducers (now : Z) c : ConsumerController B :=
  match producerIdleTtlMs c with
  | None => c
  | Some ttl => with_deduplication (sweep_loop (now - ttl) (deduplication c)) c
  end.

Definition sendAcknowledgment (a : Accepted B) (reachable : bool) c : ConsumerController B :=
  if reachable then
    mkConsumer (maxProducers c) (producerIdleTtlMs c) (maxOutOfOrder c) (deduplication c) (evictions c)
      (refusals c) (unhandled c) (handled c) (failed c)
      (acknowledged c ++ [(replyTo a, mkAck (producerId a) (token a) (seq a))]) (deadLetters c)
  else c.

Definition reportOutOfOrderRefusals (now : Z) c : ConsumerController B :=
  mkConsumer (maxProducers c) (producerIdleTtlMs c) (maxOutOfOrder c) (deduplication c) (evictions c)
    (report DEDUPLICATION_REPORT_INTERVAL_MS 1 now (refusals c)) (unhandled c) (handled c) (failed c)
    (acknowledged c) (deadLetters c).

(** What the world does during a delivery: the sweeps before the handler's
    return, whether it returned or threw, the time of its return, and whether
    [replyTo] could be told. *)
Record Handling := mkHandling {
  sweeps : list Z;
  returns : bool;
  returnedAt : Z;
  reachable : bool
}.

(** After the [await]. *)
Definition finish (a : Accepted B) (st : DeduplicationState) (h : Handling) c : ConsumerController B :=
  if returns h then
    let st := markDelivered (seq a) st in
    sendAcknowledgment a (reachable h)
      (mkConsumer (maxProducers c) (producerIdleTtlMs c) (maxOutOfOrder c)
         (touch (returnedAt h) (producerId a) st (deduplication c)) (evictions c) (refusals c) (unhandled c)
         (handled c ++ [a]) (failed c) (acknowledged c) (deadLetters c))
  else
    mkConsumer (maxProducers c) (producerIdleTtlMs c) (maxOutOfOrder c) (deduplication c) (evictions c)
      (refusals c) (unhandled c) (handled c) (failed c ++ [a]) (acknowledged c) (deadLetters c).

Definition handleDelivery (d : Delivery B) (now : Z) (h : Handling) c : ConsumerController B :=
  match isAdmissible d with
  | None => deadLetter (Deliver d) c
  | Some a =>
      let '(st, c) := deduplicationStateFor now (producerId a) (token a) c in
      if isDuplicate st (seq a) then sendAcknowledgment a (reachable h) c
      else if negb (hasOutOfOrderRoom (maxOutOfOrder c) st (seq a)) then reportOutOfOrderRefusals now c
      else finish a st h (foldl (λ c t, sweepIdleProducers t c) c (sweeps h))
  end.

Definition onReceive (message : Message B) (now : Z) (h : Handling) c : ConsumerController B :=
  match message with
  | Deliver d => handleDelivery d now h c
  | Foreign _ => onUnhandled message now c
  end.

(** [postStop], and the instance a restart builds over the same options. *)
Definition restart c : ConsumerController B :=
  mkConsumer (maxProducers c) (producerIdleTtlMs c) (maxOutOfOrder c) [] (mkPacer 0 (Some 0) [])
    (mkPacer 0 (Some 0) []) (mkPacer 0 None []) (handled c) (failed c) (acknowledged c) (deadLetters c).

Definition trackedProducers c : nat := length (deduplication c).
Definition outOfOrderFor (key : string) c : nat :=
  match get_state key (deduplication c) with Some st => size (above st) | None => 0 end.

Inductive event :=
| Receives (message : Message B) (now : Z) (h : Handling)
| Sweeps (now : Z)
| Restarts.

Definition turn c (e : event) : ConsumerController B :=
  match e with
  | Receives message now h => onReceive message now h c
  | Sweeps now => sweepIdleProducers now c
  | Restarts => restart c
  end.

Definition run c (es : list event) : ConsumerController B := foldl turn c es.

End ops.
Arguments event : clear implicits.

(** ** The window of one producer *)

(** The numbers a window answers for: those it counts as delivered. *)
Definition delivered (st : DeduplicationState) (n : Z) : Prop := n ≤ contiguous st ∨ n ∈ above st.

Definition within (limit : option Z) (k : nat) : Prop :=
  match limit with Some limit => Z.of_nat k ≤ limit | None => True end.

(** A hole separates the retained numbers from the contiguous ones. *)
Definition window_ok (limit : option Z) (st : DeduplicationState) : Prop :=
  0 ≤ contiguous st ∧ (∀ n, n ∈ above st → contiguous st + 1 < n) ∧ within limit (size (above st)).

Definition positive (limit : option Z) : Prop :=
  match limit with Some limit => 1 ≤ limit | None => True end.

#[global] Instance delivered_dec st n : Decision (delivered st n).
Proof. unfold delivered. apply _. Defined.

Lemma isDuplicate_delivered st n : isDuplicate st n = bool_decide (delivered st n).
Proof.
  unfold isDuplicate, delivered. apply eq_bool_prop_intro. rewrite orb_True, !bool_decide_spec.
  by rewrite Is_true_true, Z.leb_le.
Qed.

(** The loop ends: as many rounds as numbers are retained are enough. *)
Lemma slide_spec fuel c a c' a' :
  (size a ≤ fuel)%nat → (∀ n, n ∈ a → c < n) → slide fuel c a = (c', a') →
  c ≤ c' ∧ (∀ n, n ∈ a' → c' + 1 < n) ∧ (size a' ≤ size a)%nat ∧
  ∀ n, n ≤ c' ∨ n ∈ a' ↔ n ≤ c ∨ n ∈ a.
Proof.
  revert c a. induction fuel as [|fuel IH]; intros c a Hsize Hlt; cbn.
  - intros [= <- <-]. assert (a = ∅) as -> by (apply leibniz_equiv, size_empty_inv; lia).
    split_and!; [lia|set_solver|done|done].
  - case_decide as Hin.
    + intros Hs. apply IH in Hs as (Hc & Ha & Hsz & Hd); cycle 1.
      * rewrite size_difference by set_solver. rewrite size_singleton. lia.
      * intros n [Hn Hne]%elem_of_difference. apply Hlt in Hn. rewrite elem_of_singleton in Hne. lia.
      * split_and!; [lia|done| |].
        -- rewrite size_difference in Hsz by set_solver. lia.
        -- intros n. rewrite Hd, elem_of_difference, elem_of_singleton.
           destruct (decide (n = c + 1)) as [->|]; [naive_solver lia|].
           split; [intros [?|[? _]]; [left; lia|by right]|intros [?|?]; [left; lia|by right]].
    + intros [= <- <-]. split_and!; [lia| |done|done]. intros n Hn. pose proof (Hlt n Hn).
      assert (n ≠ c + 1) by congruence. lia.
Qed.

Lemma markDelivered_spec limit st n :
  window_ok limit st → hasOutOfOrderRoom limit st n = true → ¬ delivered st n → 1 ≤ n →
  window_ok limit (markDelivered n st) ∧ incarnation (markDelivered n st) = incarnation st ∧
  contiguous st ≤ contiguous (markDelivered n st) ∧
  ∀ m, delivered (markDelivered n st) m ↔ delivered st m ∨ m = n.
Proof.
  intros (Hc & Ha & Hl) Hroom Hnew Hn. unfold markDelivered.
  destruct (Z.eqb_spec n (contiguous st + 1)) as [->|Hne].
  - destruct (slide _ _ _) as [c a] eqn:Es. apply slide_spec in Es as (Hcc & Ha' & Hsz & Hd);
      [|done|by intros m Hm%Ha].
    unfold window_ok, delivered; cbn. split_and!; [lia|done| |done|lia|].
    + unfold within in *. case_match; [lia|done].
    + intros m. rewrite Hd. destruct (decide (m = contiguous st + 1)) as [->|]; [naive_solver lia|].
      split; [intros [?|?]; [left; left; lia|left; by right]|intros [[?|?]|?]; [left; lia|by right|done]].
  - unfold hasOutOfOrderRoom in Hroom. rewrite (proj2 (Z.eqb_neq _ _)) in Hroom by done. cbn in Hroom.
    unfold delivered in Hnew. unfold window_ok, delivered; cbn. split_and!; [done| | |done|lia|].
    + intros m [->%elem_of_singleton|Hm]%elem_of_union; [|by apply Ha].
      assert (¬ n ≤ contiguous st) by naive_solver. lia.
    + unfold within in *. case_match; [|done]. apply Z.ltb_lt in Hroom.
      rewrite size_union by set_solver. rewrite size_singleton. lia.
    + intros m. rewrite elem_of_union, elem_of_singleton. naive_solver.
Qed.

(** ** The map of windows *)

Implicit Types (l : list (string * DeduplicationState)).

Lemma get_delete_state key k l :
  NoDup l.*1 → get_state key (delete_state k l) = if decide (key = k) then None else get_state key l.
Proof.
  induction l as [|[k' st] l IH]; cbn; [by case_decide|]. intros [Hk Hnd]%NoDup_cons.
  case_bool_decide as Hkk; subst.
  - case_decide as Hd; subst.
    + clear -Hk. induction l as [|[k' st'] l IH]; cbn; [done|]. cbn in Hk.
      rewrite bool_decide_false by set_solver. apply IH. set_solver.
    + by rewrite bool_decide_false.
  - cbn. rewrite IH by done. case_bool_decide; subst; [by rewrite decide_False|done].
Qed.

Lemma elem_of_delete_state e k l : e ∈ delete_state k l → e ∈ l.
Proof.
  induction l as [|[k' st] l IH]; cbn; [done|]. case_bool_decide; [by right|].
  intros [->|?]%elem_of_cons; [by left|right; auto].
Qed.

Lemma delete_state_fst k l : NoDup l.*1 → NoDup (delete_state k l).*1 ∧ k ∉ (delete_state k l).*1.
Proof.
  induction l as [|[k' st] l IH]; cbn; [intros; split; [constructor|set_solver]|].
  intros [Hk Hnd]%NoDup_cons. case_bool_decide as Hkk; subst; [done|]. destruct (IH Hnd) as [Hnd' Hk'].
  cbn. split; [|set_solver]. constructor; [|done].
  intros ([? st'] & Heq & Hin)%list_elem_of_fmap. cbn in Heq. subst. apply Hk.
  apply elem_of_delete_state in Hin. by apply (list_elem_of_fmap_2 fst) in Hin.
Qed.

Lemma get_state_app key l k :
  get_state key (l ++ k) = match get_state key l with Some st => Some st | None => get_state key k end.
Proof. induction l as [|[k' st] l IH]; cbn; [done|]. by case_bool_decide. Qed.

Lemma get_touch key now k st l :
  NoDup l.*1 →
  get_state key (touch now k st l) = if decide (key = k) then Some (stamped now st) else get_state key l.
Proof.
  intros Hnd. unfold touch. rewrite get_state_app, get_delete_state by done. cbn.
  case_decide; subst; [by rewrite bool_decide_true|]. rewrite bool_decide_false by done. by destruct (get_state key l).
Qed.

Lemma get_state_elem key st l : NoDup l.*1 → get_state key l = Some st ↔ (key, st) ∈ l.
Proof.
  induction l as [|[k st'] l IH]; cbn; [set_solver|]. intros [Hk Hnd]%NoDup_cons. rewrite elem_of_cons.
  case_bool_decide as Hkk; subst; [|rewrite IH by done; naive_solver].
  split; [intros [= ->]; by left|]. intros [?|Hin]; [naive_solver|]. contradict Hk.
  by apply (list_elem_of_fmap_2 fst) in Hin.
Qed.

Lemma length_delete_state k st l : get_state k l = Some st → length l = S (length (delete_state k l)).
Proof.
  induction l as [|[k' st'] l IH]; cbn; [done|]. case_bool_decide; [done|]. cbn. intros H1. by rewrite <-IH.
Qed.

Lemma length_delete_state_le k l : (length (delete_state k l) ≤ length l)%nat.
Proof. induction l as [|[k' st'] l IH]; cbn; [lia|]. case_bool_decide; cbn; lia. Qed.

Lemma evict_suffix limit l :
  1 ≤ limit → ∃ k, evict limit l = (drop k l, Z.of_nat k) ∧ Z.of_nat (length (drop k l)) < limit ∧
    ((0 < k)%nat → limit ≤ Z.of_nat (length l)).
Proof.
  intros Hlimit. induction l as [|e l IH]; cbn [evict].
  - exists 0%nat. rewrite Z.geb_leb. destruct (Z.leb_spec limit (Z.of_nat (length (@nil (string * DeduplicationState))))); cbn in *; split_and!; done || lia.
  - rewrite Z.geb_leb. destruct (Z.leb_spec limit (Z.of_nat (length (e :: l)))) as [Hfull|Hroom].
    + destruct IH as (k & -> & Hk & _). exists (S k). split_and!; [cbn; f_equal; lia|exact Hk|intros _; exact Hfull].
    + exists 0%nat. split_and!; [done|done|lia].
Qed.

Lemma sweep_loop_suffix cutoff l : ∃ k, sweep_loop cutoff l = drop k l.
Proof.
  induction l as [|[k st] l [n IH]]; cbn; [by exists 0%nat|]. case_match; [by exists 0%nat|by exists (S n)].
Qed.

Lemma get_state_suffix key st k l : NoDup l.*1 → get_state key (drop k l) = Some st → get_state key l = Some st.
Proof.
  intros Hnd Hget. apply get_state_elem; [done|]. apply get_state_elem in Hget.
  - apply list_elem_of_lookup_1 in Hget as [i Hi]. rewrite lookup_drop in Hi. by eapply list_elem_of_lookup_2.
  - rewrite fmap_drop. by eapply sublist_NoDup; [|apply sublist_drop].
Qed.

(** ** The controller *)

Section laws.
Context {B : Type}.
Implicit Types (c : ConsumerController B) (a : Accepted B).

Definition inv c : Prop :=
  NoDup (deduplication c).*1 ∧
  (∀ key st, get_state key (deduplication c) = Some st → window_ok (maxOutOfOrder c) st) ∧
  within (maxProducers c) (length (deduplication c)).

Definition same_options c c' : Prop :=
  maxProducers c' = maxProducers c ∧ producerIdleTtlMs c' = producerIdleTtlMs c ∧
  maxOutOfOrder c' = maxOutOfOrder c.

Definition same_logs c c' : Prop :=
  handled c' = handled c ∧ acknowledged c' = acknowledged c.

(** Number [n] of this incarnation is in a live window. *)
Definition known c (key tok : string) (n : Z) : Prop :=
  ∃ st, get_state key (deduplication c) = Some st ∧ incarnation st = tok ∧ delivered st n.

(** [c'] holds the windows of [c], less some that were dropped from the front. *)
Definition shrinks c c' : Prop :=
  same_options c c' ∧ same_logs c c' ∧ ∃ k, deduplication c' = drop k (deduplication c).

Lemma shrinks_refl c : shrinks c c.
Proof. split_and!; try done. by exists 0%nat. Qed.

Lemma shrinks_trans c1 c2 c3 : shrinks c1 c2 → shrinks c2 c3 → shrinks c1 c3.
Proof.
  intros ((?&?&?) & (?&?) & k & Hk) ((?&?&?) & (?&?) & k' & Hk').
  repeat split; try congruence. exists (k + k')%nat. by rewrite Hk', Hk, drop_drop.
Qed.

Lemma shrinks_get c c' key st :
  inv c → shrinks c c' → get_state key (deduplication c') = Some st →
  get_state key (deduplication c) = Some st.
Proof. intros (Hnd & _) (_ & _ & k & Hk). rewrite Hk. by apply get_state_suffix. Qed.

Lemma within_le limit i j : (i ≤ j)%nat → within limit j → within limit i.
Proof. unfold within. case_match; [lia|done]. Qed.

Lemma shrinks_inv c c' : inv c → shrinks c c' → inv c'.
Proof.
  intros Hinv Hs. pose proof Hinv as (Hnd & Hw & Hl). pose proof Hs as ((Hp & _ & Ho) & _ & k & Hk).
  split_and!.
  - rewrite Hk, fmap_drop. by eapply sublist_NoDup; [|apply sublist_drop].
  - intros key st Hget. rewrite Ho. by eapply Hw, shrinks_get.
  - rewrite Hp. eapply within_le; [|exact Hl]. rewrite Hk, length_drop. lia.
Qed.

Lemma evict_shrinks now c : positive (maxProducers c) → shrinks c (evictForNewProducer now c).
Proof.
  intros Hp. unfold evictForNewProducer. destruct (maxProducers c) as [limit|] eqn:El; [|apply shrinks_refl].
  destruct (evict_suffix limit (deduplication c) Hp) as (k & -> & _). split_and!; try done. by exists k.
Qed.

Lemma evict_room now c :
  positive (maxProducers c) → within (maxProducers c) (S (length (deduplication (evictForNewProducer now c)))).
Proof.
  intros Hp. unfold evictForNewProducer, within. destruct (maxProducers c) as [limit|] eqn:El; [|done].
  destruct (evict_suffix limit (deduplication c) Hp) as (k & -> & Hk & _). cbn [deduplication]. lia.
Qed.

Lemma sweep_shrinks now c : shrinks c (sweepIdleProducers now c).
Proof.
  unfold sweepIdleProducers. destruct (producerIdleTtlMs c) as [ttl|]; [|apply shrinks_refl].
  split_and!; try done. apply sweep_loop_suffix.
Qed.

Lemma sweeps_shrink ts c : shrinks c (foldl (λ c t, sweepIdleProducers t c) c ts).
Proof.
  revert c. induction ts as [|t ts IH]; intros c; cbn; [apply shrinks_refl|].
  by eapply shrinks_trans; [apply sweep_shrinks|].
Qed.

Lemma fresh_window_ok limit tok : positive limit → window_ok limit (mkState tok 0 ∅ 0).
Proof. intros. unfold window_ok, within; cbn. split_and!; [lia|set_solver|]. rewrite size_empty. case_match; cbn in *; [lia|done]. Qed.

Definition optioned c : Prop := positive (maxProducers c) ∧ positive (maxOutOfOrder c).

Lemma touched_inv now key st c :
  inv c → window_ok (maxOutOfOrder c) st →
  within (maxProducers c) (S (length (delete_state key (deduplication c)))) →
  inv (with_deduplication (touch now key st (deduplication c)) c).
Proof.
  intros (Hnd & Hw & _) Hst Hl. destruct (delete_state_fst key _ Hnd) as [Hnd' Hk]. split_and!; cbn.
  - unfold touch. rewrite fmap_app. apply NoDup_app. split_and!; [done|set_solver|by repeat constructor; set_solver].
  - intros key' st'. rewrite get_touch by done. case_decide; [by intros [= <-]|by apply Hw].
  - unfold touch. rewrite length_app. cbn. by rewrite Nat.add_1_r.
Qed.

Lemma state_for_spec now key tok c st c' :
  inv c → optioned c → deduplicationStateFor now key tok c = (st, c') →
  inv c' ∧ same_options c c' ∧ same_logs c c' ∧
  get_state key (deduplication c') = Some st ∧ incarnation st = tok ∧
  (∀ n, 1 ≤ n → delivered st n ↔ known c key tok n) ∧
  (∀ key' st', key' ≠ key → get_state key' (deduplication c') = Some st' →
     get_state key' (deduplication c) = Some st').
Proof.
  intros Hinv [Hp Ho]. pose proof Hinv as (Hnd & Hw & Hl). unfold deduplicationStateFor.
  assert (∀ n, 1 ≤ n → ¬ delivered (stamped now (mkState tok 0 ∅ 0)) n) as Hfresh.
  { intros n Hn [Hle|Hin]; cbn in *; [lia|set_solver]. }
  destruct (get_state key (deduplication c)) as [existing|] eqn:Eg; [case_bool_decide as Etok|]; intros [= <- <-].
  - split_and!; try done; cbn.
    + apply touched_inv; [done|by eapply Hw|]. by rewrite <-(length_delete_state key existing).
    + rewrite get_touch by done. by rewrite decide_True.
    + intros n Hn. unfold known. rewrite Eg. unfold delivered; cbn. naive_solver.
    + intros key' st' Hne. rewrite get_touch by done. by rewrite decide_False.
  - split_and!; try done; cbn.
    + apply touched_inv; [done|by apply fresh_window_ok|]. by rewrite <-(length_delete_state key existing).
    + rewrite get_touch by done. by rewrite decide_True.
    + intros n Hn. unfold known. rewrite Eg. split; [by intros ?%Hfresh|naive_solver].
    + intros key' st' Hne. rewrite get_touch by done. by rewrite decide_False.
  - pose proof (evict_shrinks now c Hp) as Hs. pose proof (shrinks_inv _ _ Hinv Hs) as Hinv'.
    pose proof Hs as ((Hsp & Hst & Hso) & (? & ?) & k & Hk).
    assert (maxProducers c = maxProducers (evictForNewProducer now c)) as Hpe by done.
    split_and!; try done; cbn.
    + apply touched_inv; [done|rewrite Hso; by apply fresh_window_ok|]. rewrite Hsp.
      eapply within_le; [|by apply (evict_room now)]. pose proof (length_delete_state_le key (deduplication (evictForNewProducer now c))). lia.
    + rewrite get_touch by apply Hinv'. by rewrite decide_True.
    + intros n Hn. unfold known. rewrite Eg. split; [by intros ?%Hfresh|naive_solver].
    + intros key' st' Hne. rewrite get_touch by apply Hinv'. rewrite decide_False by done. by eapply shrinks_get.
Qed.

(** What one turn does to the windows and the logs. *)
Record stepped c (e : event B) c' (new : list (Accepted B)) : Prop := {
  step_inv : inv c';
  step_options : same_options c c';
  step_handled : handled c' = handled c ++ new;
  step_new : ∀ a, a ∈ new → new = [a] ∧ ¬ known c (producerId a) (token a) (seq a) ∧
    known c' (producerId a) (token a) (seq a);
  step_origin : ∀ a, a ∈ new → ∃ d now h, e = Receives (Deliver d) now h ∧ isAdmissible d = Some a;
  step_known : ∀ key tok n, 1 ≤ n → known c' key tok n →
    known c key tok n ∨ ∃ a, a ∈ new ∧ producerId a = key ∧ token a = tok ∧ seq a = n;
  step_kept : ∀ key tok st', get_state key (deduplication c') = Some st' → incarnation st' = tok →
    ∀ n, 1 ≤ n → known c key tok n → known c' key tok n;
  step_acknowledged : ∀ r k, (r, k) ∈ acknowledged c' → (r, k) ∈ acknowledged c ∨
    ∃ d now h a, e = Receives (Deliver d) now h ∧ isAdmissible d = Some a ∧ r = replyTo a ∧
      k = mkAck (producerId a) (token a) (seq a) ∧ (known c (producerId a) (token a) (seq a) ∨ a ∈ new)
}.

Lemma restart_shrinks c : shrinks c (restart c).
Proof. split_and!; try done. exists (length (deduplication c)). by rewrite drop_all. Qed.

Lemma logged_shrinks c c' :
  same_options c c' → same_logs c c' → deduplication c' = deduplication c → shrinks c c'.
Proof. intros ? ? Hd. split_and!; try done. by exists 0%nat. Qed.

#[local] Hint Resolve shrinks_refl sweep_shrinks sweeps_shrink restart_shrinks logged_shrinks : actor.
#[local] Hint Extern 1 (same_options _ _) => repeat split : actor.
#[local] Hint Extern 1 (same_logs _ _) => repeat split : actor.

Lemma shrinks_stepped c e c' : inv c → shrinks c c' → stepped c e c' [].
Proof.
  intros Hinv Hs. pose proof Hs as (Ho & (Hh & Hack) & _). split; try done.
  - by eapply shrinks_inv.
  - by rewrite Hh, app_nil_r.
  - by intros a ?%elem_of_nil.
  - by intros a ?%elem_of_nil.
  - intros key tok n _ (st & Hget & ?). left. exists st. split; [|done]. by eapply shrinks_get.
  - intros key tok st' Hget Htok n _ (st & Hget2 & ? & ?). exists st'. split_and!; [done|done|].
    eapply shrinks_get in Hget; [|done|exact Hs]. congruence.
  - intros r k. rewrite Hack. by left.
Qed.

Lemma isAdmissible_Some d a : isAdmissible d = Some a →
  1 ≤ seq a ∧ Delivery.producerId d = Some (JString (producerId a)) ∧
  Delivery.incarnation d = Some (JString (token a)) ∧ Delivery.seq d = Some (JNumber (Num (seq a))) ∧
  Delivery.body d = body a ∧ Delivery.replyTo d = Some (replyTo a).
Proof.
  unfold isAdmissible, isIdentifier. intros H.
  repeat (case_match; try discriminate). simplify_eq. cbn.
  split_and!; try congruence. destruct (Z.leb_spec z 0); [|lia]. by rewrite andb_false_r in *.
Qed.

(** The state after [deduplicationStateFor], seen from before it. *)
Section admitted.
Variables (c c1 : ConsumerController B) (now : Z) (a : Accepted B) (st : DeduplicationState).
Hypothesis Hinv : inv c.
Hypothesis Hopt : optioned c.
Hypothesis Hfor : deduplicationStateFor now (producerId a) (token a) c = (st, c1).
Hypothesis Hseq : 1 ≤ seq a.

Lemma state_for_known key tok n : 1 ≤ n → known c1 key tok n → known c key tok n.
Proof.
  destruct (state_for_spec now (producerId a) (token a) c st c1 Hinv Hopt Hfor)
    as (_ & _ & _ & Hget & Htok & Hd & Hother).
  intros Hn (st' & Hget' & Htok' & Hdel). destruct (decide (key = producerId a)) as [->|Hne].
  - assert (st' = st) as -> by congruence. rewrite Htok in Htok'. subst tok. by apply Hd.
  - exists st'. split_and!; [by apply Hother|done|done].
Qed.

Lemma state_for_kept key tok st' n :
  get_state key (deduplication c1) = Some st' → incarnation st' = tok → 1 ≤ n →
  known c key tok n → known c1 key tok n.
Proof.
  destruct (state_for_spec now (producerId a) (token a) c st c1 Hinv Hopt Hfor)
    as (_ & _ & _ & Hget & Htok & Hd & Hother).
  intros Hget' Htok' Hn Hk. exists st'. split_and!; [done|done|].
  destruct (decide (key = producerId a)) as [->|Hne].
  - assert (st' = st) as -> by congruence. apply Hd; [done|]. by rewrite <-Htok, Htok'.
  - destruct Hk as (st0 & Hget0 & _ & ?). apply Hother in Hget'; [|done]. congruence.
Qed.

(** The two branches that do not call the handler. *)
Lemma answered_stepped d h c' :
  isAdmissible d = Some a → isDuplicate st (seq a) = true →
  c' = sendAcknowledgment a (reachable h) c1 → stepped c (Receives (Deliver d) now h) c' [].
Proof.
  intros Ha Hdup ->. destruct (state_for_spec now (producerId a) (token a) c st c1 Hinv Hopt Hfor)
    as (Hinv1 & Ho1 & (Hh1 & Hack1) & Hget & Htok & Hd & _).
  rewrite isDuplicate_delivered, bool_decide_eq_true in Hdup.
  assert (∀ b, deduplication (sendAcknowledgment a b c1) = deduplication c1) as Ed by by intros [].
  assert (∀ b key tok n, known (sendAcknowledgment a b c1) key tok n ↔ known c1 key tok n) as Hk
    by (intros []; unfold known; done).
  split.
  - by destruct (reachable h).
  - by destruct (reachable h).
  - rewrite app_nil_r, <-Hh1. by destruct (reachable h).
  - by intros ? ?%elem_of_nil.
  - by intros ? ?%elem_of_nil.
  - intros key tok n Hn Hk'. left. apply state_for_known; [done|]. by apply Hk in Hk'.
  - intros key tok st'. rewrite Ed. intros Hg Ht n Hn Hk'. apply Hk. by eapply state_for_kept.
  - intros r k Hin. assert ((r, k) ∈ acknowledged c1 ++ [(replyTo a, mkAck (producerId a) (token a) (seq a))]) as Hin'.
    { destruct (reachable h); [done|]. apply elem_of_app. by left. }
    apply elem_of_app in Hin' as [Hin'|Hin'%list_elem_of_singleton]; [left; by rewrite <-Hack1|right].
    injection Hin' as -> ->. exists d, now, h, a. split_and!; try done. left. by apply Hd.
Qed.

Lemma refused_stepped d h :
  stepped c (Receives (Deliver d) now h) (reportOutOfOrderRefusals now c1) [].
Proof.
  destruct (state_for_spec now (producerId a) (token a) c st c1 Hinv Hopt Hfor)
    as (Hinv1 & Ho1 & (Hh1 & Hack1) & Hget & Htok & Hd & _). split; try done.
  - cbn. by rewrite app_nil_r, <-Hh1.
  - by intros ? ?%elem_of_nil.
  - by intros ? ?%elem_of_nil.
  - intros key tok n Hn Hk. left. by apply state_for_known.
  - intros key tok st' Hg Ht n Hn Hk. by eapply state_for_kept.
  - intros r k. cbn. rewrite Hack1. by left.
Qed.

End admitted.

(** After the sweeps of a handler's run there is room to file its window again. *)
Lemma refile_room c1 c2 key st :
  inv c1 → shrinks c1 c2 → get_state key (deduplication c1) = Some st → optioned c1 →
  within (maxProducers c2) (S (length (delete_state key (deduplication c2)))).
Proof.
  intros Hinv Hs Hget [Hp _]. pose proof (shrinks_inv _ _ Hinv Hs) as (_ & _ & Hl2).
  pose proof Hinv as (_ & _ & Hl1). pose proof Hs as ((Ho & _) & _ & k & Hk).
  destruct (get_state key (deduplication c2)) as [st2|] eqn:E2.
  - by rewrite <-(length_delete_state key st2).
  - rewrite Ho in *. eapply within_le; [|exact Hl1].
    pose proof (length_delete_state_le key (deduplication c2)) as Hle.
    pose proof (length_delete_state key st _ Hget) as Hlen.
    destruct k as [|k]; [rewrite drop_0 in Hk; congruence|].
    assert (length (deduplication c2) < length (deduplication c1))%nat by (rewrite Hk, length_drop; lia). lia.
Qed.

Lemma threw_stepped c c1 c2 now a st d h :
  inv c → optioned c → deduplicationStateFor now (producerId a) (token a) c = (st, c1) → 1 ≤ seq a →
  shrinks c1 c2 → returns h = false → stepped c (Receives (Deliver d) now h) (finish a st h c2) [].
Proof.
  intros Hinv Hopt Hfor Hseq Hs Hr. unfold finish. rewrite Hr.
  destruct (state_for_spec now (producerId a) (token a) c st c1 Hinv Hopt Hfor)
    as (Hinv1 & (Ho1 & Ho2 & Ho3) & (Hh1 & Hack1) & _).
  pose proof (shrinks_inv _ _ Hinv1 Hs) as Hinv2.
  pose proof Hs as ((Hs1 & Hs2 & Hs3) & (Hh2 & Hack2) & _). split; cbn.
  - exact Hinv2.
  - unfold same_options; cbn. by rewrite Hs1, Hs2, Hs3.
  - by rewrite app_nil_r, Hh2.
  - by intros ? ?%elem_of_nil.
  - by intros ? ?%elem_of_nil.
  - intros key tok n Hn (st' & Hget & Ht & Hd). left.
    apply (state_for_known c c1 now a st); [done..|]. exists st'. split_and!; [|done|done]. by eapply shrinks_get.
  - intros key tok st' Hget Ht n Hn Hk. cbn in Hget. pose proof (shrinks_get _ _ _ _ Hinv1 Hs Hget) as Hget1.
    destruct (state_for_kept c c1 now a st Hinv Hopt Hfor key tok st' n Hget1 Ht Hn Hk) as (st'' & ? & ? & ?).
    exists st'. split_and!; [done|done|congruence].
  - intros r k. rewrite Hack2, Hack1. by left.
Qed.

(** The state the handler's return leaves, field by field. *)
Lemma finish_returned a st h c :
  returns h = true → NoDup (deduplication c).*1 →
  let c' := finish a st h c in
  handled c' = handled c ++ [a] ∧ same_options c c' ∧
  deduplication c' = touch (returnedAt h) (producerId a) (markDelivered (seq a) st) (deduplication c) ∧
  (∀ key, get_state key (deduplication c') =
     if decide (key = producerId a) then Some (stamped (returnedAt h) (markDelivered (seq a) st))
     else get_state key (deduplication c)) ∧
  ∀ r k, (r, k) ∈ acknowledged c' →
    (r, k) ∈ acknowledged c ∨ r = replyTo a ∧ k = mkAck (producerId a) (token a) (seq a).
Proof.
  intros Hr Hnd. unfold finish. rewrite Hr. unfold sendAcknowledgment.
  destruct (reachable h); cbn -[touch]; split_and!; try done; try (intros key; by apply get_touch).
  - intros r k [?|[= -> ->]%list_elem_of_singleton]%elem_of_app; [by left|by right].
  - by left.
Qed.

Lemma returned_stepped c c1 c2 now a st d h :
  inv c → optioned c → deduplicationStateFor now (producerId a) (token a) c = (st, c1) →
  isAdmissible d = Some a → isDuplicate st (seq a) = false →
  hasOutOfOrderRoom (maxOutOfOrder c) st (seq a) = true →
  shrinks c1 c2 → returns h = true → stepped c (Receives (Deliver d) now h) (finish a st h c2) [a].
Proof.
  intros Hinv Hopt Hfor Hadm Hdup Hroom Hs Hr.
  destruct (isAdmissible_Some d a Hadm) as [Hseq _].
  destruct (state_for_spec now (producerId a) (token a) c st c1 Hinv Hopt Hfor)
    as (Hinv1 & (Hp & Ht & Ho) & (Hh1 & Hack1) & Hget & Htok & Hd & _).
  rewrite isDuplicate_delivered, bool_decide_eq_false in Hdup.
  assert (window_ok (maxOutOfOrder c) st) as Hst by (rewrite <-Ho; by eapply Hinv1).
  destruct (markDelivered_spec _ st (seq a) Hst Hroom Hdup Hseq) as (Hok & Htok' & _ & Hd').
  pose proof (shrinks_inv _ _ Hinv1 Hs) as Hinv2. pose proof Hs as ((Hs1 & Hs2 & Hs3) & (Hh2 & Hack2) & _).
  destruct (finish_returned a st h c2 Hr (proj1 Hinv2)) as (Eh & (Ep & Et & Eo) & El & Hgl & Eack).
  set (c' := finish a st h c2) in *. set (st2 := markDelivered (seq a) st) in *.
  assert (inv (with_deduplication (deduplication c') c2)) as Hinvl.
  { rewrite El. apply touched_inv; [done|by rewrite Hs3, Ho|]. eapply refile_room; [exact Hinv1|done|exact Hget|].
    split; rewrite ?Hp, ?Ho; apply Hopt. }
  split.
  - unfold inv in *. cbn in Hinvl. by rewrite Ep, Eo.
  - unfold same_options. by rewrite Ep, Et, Eo, Hs1, Hs2, Hs3.
  - by rewrite Eh, Hh2, Hh1.
  - intros b ->%list_elem_of_singleton. split_and!; [done|by rewrite <-Hd|].
    exists (stamped (returnedAt h) st2). rewrite Hgl, decide_True by done.
    split_and!; [done|cbn; congruence|]. apply Hd'. by right.
  - intros b ->%list_elem_of_singleton. by exists d, now, h.
  - intros key tok n Hn (st' & Hg & Htk & Hdel). rewrite Hgl in Hg. case_decide as Hkey; [subst key|].
    + injection Hg as <-. cbn in Htk. rewrite Htok', Htok in Htk. subst tok.
      apply (Hd' n) in Hdel as [Hdel| ->]; [|right; exists a; by rewrite list_elem_of_singleton].
      left. by apply Hd.
    + left. apply (state_for_known c c1 now a st); [done..|]. exists st'. split_and!; [by eapply shrinks_get|done|done].
  - intros key tok st' Hg Htk n Hn Hk. exists st'. split_and!; [done|done|]. rewrite Hgl in Hg.
    case_decide as Hkey; [subst key|].
    + injection Hg as <-. cbn in Htk. rewrite Htok', Htok in Htk. subst tok. apply (Hd' n). left. by apply Hd.
    + pose proof (shrinks_get _ _ _ _ Hinv1 Hs Hg) as Hg1.
      destruct (state_for_kept c c1 now a st Hinv Hopt Hfor key tok st' n Hg1 Htk Hn Hk) as (st'' & ? & ? & ?).
      congruence.
  - intros r k [Hin|[-> ->]]%Eack; [left; by rewrite <-Hack1, <-Hack2|right].
    exists d, now, h, a. split_and!; try done. right. by left.
Qed.

Lemma consumer_turn_stepped c e : inv c → optioned c → ∃ new, stepped c e (turn c e) new.
Proof.
  intros Hinv Hopt.
  assert (∀ c', shrinks c c' → ∃ new, stepped c e c' new) as Hquiet by (intros; exists []; by apply shrinks_stepped).
  destruct e as [[d|x] now h|now|]; cbn [turn onReceive]; [|apply Hquiet; by auto with actor..].
  unfold handleDelivery. destruct (isAdmissible d) as [a|] eqn:Ha; [|apply Hquiet; by auto with actor].
  destruct (deduplicationStateFor now (producerId a) (token a) c) as [st c1] eqn:Hfor.
  destruct (isAdmissible_Some d a Ha) as [Hseq _].
  destruct (isDuplicate st (seq a)) eqn:Hdup; [exists []; by eapply answered_stepped|].
  destruct (state_for_spec now (producerId a) (token a) c st c1 Hinv Hopt Hfor) as (_ & (_ & _ & Ho) & _).
  rewrite Ho. destruct (hasOutOfOrderRoom (maxOutOfOrder c) st (seq a)) eqn:Hroom; cbn [negb];
    [|exists []; by eapply refused_stepped].
  pose proof (sweeps_shrink (sweeps h) c1) as Hs.
  destruct (returns h) eqn:Hr; [exists [a]; by eapply returned_stepped|exists []; by eapply threw_stepped].
Qed.

(** ** Runs *)

Lemma consumer_run_snoc c (es : list (event B)) e : run c (es ++ [e]) = turn (run c es) e.
Proof. unfold run. by rewrite foldl_app. Qed.

Lemma construct_inv mp ttl mo :
  positive mp → inv (construct mp ttl mo) ∧
  same_options (construct mp ttl mo) (construct (B:=B) mp ttl mo).
Proof.
  intros Hp. split; [|done]. split_and!; cbn; [constructor|done|]. unfold within. destruct mp; cbn in *; [lia|done].
Qed.

Definition matches (key tok : string) (n : Z) a : Prop := producerId a = key ∧ token a = tok ∧ seq a = n.

(** Windows and acknowledgments speak of deliveries that were handled, and
    handled deliveries are admissible ones of the run. *)
Definition sound (es : list (event B)) c : Prop :=
  (∀ key tok n, 1 ≤ n → known c key tok n → ∃ a, a ∈ handled c ∧ matches key tok n a) ∧
  (∀ r k, (r, k) ∈ acknowledged c → ∃ a, a ∈ handled c ∧
     matches (ackProducerId k) (ackIncarnation k) (ackSeq k) a) ∧
  (∀ a, a ∈ handled c → ∃ d now h, Receives (Deliver d) now h ∈ es ∧ isAdmissible d = Some a).

Lemma stepped_sound es c e c' new : sound es c → stepped c e c' new → sound (es ++ [e]) c'.
Proof.
  intros (Hk & Ha & Hh) Hstep. pose proof (step_handled _ _ _ _ Hstep) as Hhan.
  assert (∀ a, a ∈ handled c → a ∈ handled c') as Hmono by (rewrite Hhan; set_solver).
  split_and!.
  - intros key tok n Hn Hkn.
    destruct (step_known _ _ _ _ Hstep key tok n Hn Hkn) as [Hold|(a & ? & ? & ? & ?)].
    + destruct (Hk key tok n Hn Hold) as (a & ? & ?). exists a. auto.
    + exists a. rewrite Hhan. split; [set_solver|done].
  - intros r k Hrk.
    destruct (step_acknowledged _ _ _ _ Hstep r k Hrk) as [(a & ? & ?)%Ha|(d & now & h & a & _ & Hadm & _ & -> & Hor)].
    + exists a. auto.
    + cbn. destruct (isAdmissible_Some d a Hadm) as [Hn _]. destruct Hor as [Hkn|Hin].
      * destruct (Hk _ _ _ Hn Hkn) as (a' & ? & ?). exists a'. auto.
      * exists a. rewrite Hhan. split; [set_solver|done].
  - intros a. rewrite Hhan, elem_of_app. intros [(d & now & h & ? & ?)%Hh|Hin].
    + exists d, now, h. split; [|done]. apply elem_of_app. by left.
    + destruct (step_origin _ _ _ _ Hstep a Hin) as (d & now & h & -> & ?). exists d, now, h.
      split; [|done]. apply elem_of_app. right. by left.
Qed.

Lemma run_sound mp ttl mo es :
  positive mp → positive mo →
  let c := run (construct mp ttl mo) es in
  inv c ∧ maxProducers c = mp ∧ maxOutOfOrder c = mo ∧ sound es c.
Proof.
  intros Hp Ho. cbn. induction es as [|e es IH] using rev_ind.
  { split_and!; [by apply construct_inv|done|done|]. split_and!; cbn.
    - intros key tok n _ (st & [=] & _).
    - by intros r k ?%elem_of_nil.
    - by intros a ?%elem_of_nil. }
  rewrite consumer_run_snoc. set (c := run _ es) in *. destruct IH as (Hinv & Hmp & Hmo & Hs).
  destruct (consumer_turn_stepped c e Hinv) as [new Hstep]; [unfold optioned; by rewrite Hmp, Hmo|].
  destruct (step_options _ _ _ _ Hstep) as (? & _ & ?).
  split_and!; [apply Hstep|congruence|congruence|]. by eapply stepped_sound.
Qed.

Definition numbers (key tok : string) (l : list (Accepted B)) : list Z :=
  seq <$> filter (λ a, producerId a = key ∧ token a = tok) l.

Lemma elem_of_numbers key tok n (l : list (Accepted B)) : n ∈ numbers key tok l ↔ ∃ a, a ∈ l ∧ matches key tok n a.
Proof.
  unfold numbers, matches. rewrite list_elem_of_fmap. setoid_rewrite list_elem_of_filter. naive_solver.
Qed.

Lemma numbers_app key tok (l k : list (Accepted B)) : numbers key tok (l ++ k) = numbers key tok l ++ numbers key tok k.
Proof. unfold numbers. by rewrite filter_app, fmap_app. Qed.

(** A run that never loses the window of this incarnation once it has one. *)
Fixpoint keeps (key tok : string) c (es : list (event B)) : Prop :=
  match es with
  | [] => True
  | e :: es =>
      (∀ st, get_state key (deduplication c) = Some st → incarnation st = tok →
         ∃ st', get_state key (deduplication (turn c e)) = Some st' ∧ incarnation st' = tok) ∧
      keeps key tok (turn c e) es
  end.

Definition once (key tok : string) c : Prop :=
  NoDup (numbers key tok (handled c)) ∧
  ∀ n, 1 ≤ n → known c key tok n ↔ n ∈ numbers key tok (handled c).

Lemma turn_once key tok c e :
  inv c → optioned c →
  (∀ st, get_state key (deduplication c) = Some st → incarnation st = tok →
     ∃ st', get_state key (deduplication (turn c e)) = Some st' ∧ incarnation st' = tok) →
  once key tok c → once key tok (turn c e).
Proof.
  intros Hinv Hopt Hkeep [Hnd Hk]. destruct (consumer_turn_stepped c e Hinv Hopt) as [new Hstep].
  assert (∀ n, 1 ≤ n → known c key tok n → known (turn c e) key tok n) as Hkept.
  { intros n Hn Hkn. pose proof Hkn as (st & Hg & Ht & _). destruct (Hkeep st Hg Ht) as (st' & Hg' & Ht').
    by eapply (step_kept _ _ _ _ Hstep). }
  pose proof (step_known _ _ _ _ Hstep key tok) as Hnew.
  assert (∀ a, a ∈ new → 1 ≤ seq a) as Hpos.
  { intros a (d & ? & ? & _ & ?)%(step_origin _ _ _ _ Hstep). by eapply isAdmissible_Some. }
  unfold once. rewrite (step_handled _ _ _ _ Hstep), numbers_app. split.
  - apply NoDup_app. split_and!; [done| |].
    + intros n Hn (a & Ha & <- & <- & <-)%elem_of_numbers.
      destruct (step_new _ _ _ _ Hstep a Ha) as (_ & Hno & _). apply Hno, Hk; [by apply Hpos|done].
    + destruct new as [|a new]; [constructor|]. destruct (step_new _ _ _ _ Hstep a ltac:(by left)) as (-> & _).
      unfold numbers. rewrite filter_cons. case_decide; cbn; [|constructor]. apply NoDup_singleton.
  - intros n Hn. rewrite elem_of_app. split.
    + intros Hkn. destruct (Hnew n Hn Hkn) as [?|(a & ? & ?)]; [left; by apply Hk|right].
      apply elem_of_numbers. by exists a.
    + intros [?|(a & Ha & <- & <- & <-)%elem_of_numbers]; [by apply Hkept, Hk|].
      by apply (step_new _ _ _ _ Hstep a Ha).
Qed.

Lemma run_once key tok c es :
  inv c → optioned c → keeps key tok c es → once key tok c → once key tok (run c es).
Proof.
  revert c. induction es as [|e es IH]; intros c Hinv Hopt; cbn; [done|].
  intros [Hkeep Hkeeps] Honce. destruct (consumer_turn_stepped c e Hinv Hopt) as [new Hstep].
  destruct (step_options _ _ _ _ Hstep) as (Hp & _ & Ho).
  apply IH; [apply Hstep|unfold optioned in *; by rewrite Hp, Ho|done|by apply turn_once].
Qed.

(** ** Ages

    On a clock that does not go back, the map is in ascending order of
    [lastSeenAtMs]. *)

Definition seen l : list Z := (lastSeenAtMs ∘ snd) <$> l.

Definition aged (now : Z) c : Prop :=
  StronglySorted Z.le (seen (deduplication c)) ∧ ∀ t, t ∈ seen (deduplication c) → t ≤ now.

(** The clock readings of an event, in order. *)
Definition clock (e : event B) : list Z :=
  match e with
  | Receives _ now h => now :: sweeps h ++ [returnedAt h]
  | Sweeps now => [now]
  | Restarts => []
  end.

Definition clock_end (now : Z) (e : event B) : Z :=
  match e with Receives _ _ h => returnedAt h | Sweeps now => now | Restarts => now end.

Lemma aged_le t t' c : aged t c → t ≤ t' → aged t' c.
Proof. intros [Hs Hle] Ht. split; [done|]. intros x Hx%Hle. lia. Qed.

Lemma aged_shrinks t c c' : aged t c → shrinks c c' → aged t c'.
Proof.
  intros [Hs Hle] (_ & _ & k & Hk). unfold aged, seen. rewrite Hk, fmap_drop. split.
  - eapply StronglySorted_sublist; [apply sublist_drop|done].
  - intros x Hx. apply Hle. eapply sublist_subseteq; [apply sublist_drop|]. exact Hx.
Qed.

Lemma sublist_delete_state k l : sublist (delete_state k l) l.
Proof. induction l as [|[k' st] l IH]; cbn; [constructor|]. case_bool_decide; by repeat constructor. Qed.

Lemma aged_touch t now key st c :
  aged t c → t ≤ now → aged now (with_deduplication (touch now key st (deduplication c)) c).
Proof.
  intros [Hs Hle] Ht. unfold aged, seen, touch; cbn. rewrite fmap_app.
  pose proof (fmap_sublist (lastSeenAtMs ∘ snd) _ _ (sublist_delete_state key (deduplication c))) as Hsub. split.
  - apply StronglySorted_app_2; [|by eapply StronglySorted_sublist|repeat constructor].
    intros x y Hx ->%list_elem_of_singleton. cbn. etrans; [|exact Ht]. apply Hle. by eapply sublist_subseteq.
  - intros x [Hx|Hx%list_elem_of_singleton]%elem_of_app; [|by subst].
    etrans; [|exact Ht]. apply Hle. by eapply sublist_subseteq.
Qed.

Lemma aged_state_for t now key tok c st c1 :
  positive (maxProducers c) → aged t c → t ≤ now → deduplicationStateFor now key tok c = (st, c1) → aged now c1.
Proof.
  intros Hp Ha Ht. unfold deduplicationStateFor.
  destruct (get_state key (deduplication c)); [case_bool_decide|]; intros [= _ <-].
  - by eapply aged_touch.
  - by eapply aged_touch.
  - eapply aged_touch; [|exact Ht]. eapply aged_shrinks; [done|by apply evict_shrinks].
Qed.

Lemma aged_same t c c' : aged t c → deduplication c' = deduplication c → aged t c'.
Proof. unfold aged. by intros ? ->. Qed.

#[local] Hint Resolve aged_same aged_shrinks aged_touch aged_le : actor.

Lemma turn_aged t c e :
  positive (maxProducers c) → aged t c → StronglySorted Z.le (t :: clock e) → aged (clock_end t e) (turn c e).
Proof.
  intros Hp Ha Hclock. destruct e as [message now h|now|]; cbn [turn clock_end clock] in *.
  - assert (t ≤ now ∧ now ≤ returnedAt h) as [Ht Hr].
    { inversion_clear Hclock as [|? ? Hs Hall]. inversion_clear Hs as [|? ? _ Hall'].
      rewrite Forall_forall in Hall, Hall'. split; [apply Hall; by left|].
      apply Hall'. apply elem_of_app. right. by left. }
    assert (∀ t' c', aged t' c' → t' ≤ now → ∀ c'', deduplication c'' = deduplication c' →
      aged (returnedAt h) c'') as Hquiet by (intros; eapply aged_le; [by eauto with actor|lia]).
    destruct message as [d|x]; cbn [onReceive]; [|by eapply Hquiet].
    unfold handleDelivery. destruct (isAdmissible d) as [a|]; [|by eapply Hquiet].
    destruct (deduplicationStateFor now (producerId a) (token a) c) as [st c1] eqn:Hfor.
    pose proof (aged_state_for t now _ _ c st c1 Hp Ha Ht Hfor) as Ha1.
    case_match; [eapply Hquiet; [exact Ha1|done|by destruct (reachable h)]|].
    case_match; [by eapply Hquiet|].
    pose proof (aged_shrinks _ _ _ Ha1 (sweeps_shrink (sweeps h) c1)) as Ha2. unfold finish.
    case_match; [|by eapply Hquiet].
    eapply (aged_same _ (with_deduplication _ _)); [by eapply aged_touch|by destruct (reachable h)].
  - inversion_clear Hclock as [|? ? _ Hall]. inversion_clear Hall as [|? ? Hle _].
    eapply aged_le; [|exact Hle]. eapply aged_shrinks; [done|apply sweep_shrinks].
  - split; cbn; [constructor|by intros ? ?%elem_of_nil].
Qed.

Lemma turn_options c e : same_options c (turn c e).
Proof.
  destruct e as [[d|x] now h|now|]; cbn [turn onReceive]; try done; [|apply sweep_shrinks].
  unfold handleDelivery. destruct (isAdmissible d) as [a|]; [|done].
  assert (same_options c (deduplicationStateFor now (producerId a) (token a) c).2) as Hfor.
  { unfold deduplicationStateFor. destruct (get_state _ _); [by case_bool_decide|]. cbn.
    unfold evictForNewProducer. destruct (maxProducers c) eqn:E; [|done].
    destruct (evict _ _). unfold same_options. cbn. by rewrite E. }
  destruct (deduplicationStateFor _ _ _ _) as [st c1]. cbn in Hfor.
  assert (same_options c1 (foldl (λ c t, sweepIdleProducers t c) c1 (sweeps h))) as Hsw by apply sweeps_shrink.
  destruct Hfor as (?&?&?), Hsw as (?&?&?). unfold finish, sendAcknowledgment.
  repeat case_match; repeat split; cbn; congruence.
Qed.

Lemma run_aged t c es :
  positive (maxProducers c) → aged t c → StronglySorted Z.le (t :: (es ≫= clock)) → ∃ t', aged t' (run c es).
Proof.
  revert t c. induction es as [|e es IH]; intros t c Hp Ha Hclock; [by exists t|]. cbn in *.
  rewrite app_comm_cons in Hclock. apply StronglySorted_app in Hclock as (Hle & Hs1 & Hs2).
  pose proof (turn_aged t c e Hp Ha Hs1) as Ha'.
  apply (IH (clock_end t e)); [by destruct (turn_options c e) as (-> & _)|done|].
  constructor; [done|]. apply Forall_forall. intros x Hx. apply Hle; [|done].
  destruct e; cbn; [|by right; left|by left]. right. right. apply elem_of_app. right. by left.
Qed.

(** The loop that breaks at the first fresh entry drops every idle one. *)
Lemma sweep_loop_filter cutoff l :
  StronglySorted Z.le (seen l) → sweep_loop cutoff l = filter (λ e, cutoff < lastSeenAtMs e.2) l.
Proof.
  induction l as [|[k st] l IH]; intros Hs; [done|]. inversion_clear Hs as [|? ? Hs' Hall]. cbn [sweep_loop].
  rewrite filter_cons. cbn. rewrite Z.gtb_ltb. destruct (Z.ltb_spec cutoff (lastSeenAtMs st)) as [Hlt|Hge].
  - rewrite decide_True by done. f_equal. symmetry. apply filter_all. intros e He.
    apply (list_elem_of_fmap_2 (lastSeenAtMs ∘ snd)) in He.
    rewrite Forall_forall in Hall. apply Hall in He. cbn in *. lia.
  - rewrite decide_False by lia. by apply IH.
Qed.

(** ** A window that was lost *)

Definition valid (s : string) : Prop := 0 < Z.of_nat (String.length s) ≤ MAX_DELIVERY_IDENTIFIER_LENGTH.

Definition delivery (key tok : string) (n : Z) (b : B) (r : nat) : Delivery B :=
  mkDelivery (Some (JString key)) (Some (JString tok)) (Some (JNumber (Num n))) b (Some r).

Lemma isIdentifier_valid s : valid s → isIdentifier (Some (JString s)) = Some s.
Proof.
  intros [H1 H2]. unfold isIdentifier. apply Z.ltb_lt in H1. apply Z.leb_le in H2. by rewrite H1, H2.
Qed.

Lemma isAdmissible_delivery key tok n b r :
  valid key → valid tok → 1 ≤ n ≤ MAX_SAFE_INTEGER →
  isAdmissible (delivery key tok n b r) = Some (mkAccepted key tok n b r).
Proof.
  intros Hk Ht Hn. unfold isAdmissible, delivery; cbn [Delivery.producerId Delivery.incarnation Delivery.seq Delivery.replyTo].
  rewrite !isIdentifier_valid by done. unfold Number_isSafeInteger.
  rewrite !(proj2 (Z.leb_le _ _)) by (unfold MAX_SAFE_INTEGER in *; lia). by rewrite (proj2 (Z.leb_gt _ _)) by lia.
Qed.

(** The window starts at zero and retains [X]; [None] for the time is no entry. *)
Definition restarted (key tok : string) (X : gset Z) (seen_ : option Z) c : Prop :=
  match seen_ with
  | None => get_state key (deduplication c) = None ∧ X = ∅
  | Some t => get_state key (deduplication c) = Some (mkState tok 0 X t)
  end.

Lemma state_for_restarted now key tok X seen_ c :
  inv c → optioned c → restarted key tok X seen_ c →
  ∃ c1, deduplicationStateFor now key tok c = (mkState tok 0 X now, c1) ∧
    restarted key tok X (Some now) c1 ∧ same_logs c c1 ∧ inv c1 ∧ same_options c c1.
Proof.
  intros Hinv Hopt Hr. destruct (deduplicationStateFor now key tok c) as [st c1] eqn:Hfor.
  destruct (state_for_spec now key tok c st c1 Hinv Hopt Hfor) as (Hinv1 & Ho & Hl & Hget & _).
  assert (st = mkState tok 0 X now) as ->; [|by exists c1].
  unfold deduplicationStateFor in Hfor. destruct seen_ as [t|]; cbn in Hr.
  - rewrite Hr in Hfor. cbn in Hfor. rewrite bool_decide_true in Hfor by done. by injection Hfor as <- _.
  - destruct Hr as [Hr ->]. rewrite Hr in Hfor. by injection Hfor as <- _.
Qed.

(** While there is room a number past the hole is handled and retained. *)
Lemma restarted_handles key tok X seen_ c n b r now :
  inv c → optioned c → valid key → valid tok → 2 ≤ n ≤ MAX_SAFE_INTEGER → n ∉ X →
  match maxOutOfOrder c with Some limit => Z.of_nat (size X) < limit | None => True end →
  restarted key tok X seen_ c → (∀ m, m ∈ X → 0 < m) →
  let c' := turn c (Receives (Deliver (delivery key tok n b r)) now (mkHandling [] true now true)) in
  restarted key tok ({[n]} ∪ X) (Some now) c' ∧ handled c' = handled c ++ [mkAccepted key tok n b r] ∧
  acknowledged c' = acknowledged c ++ [(r, mkAck key tok n)].
Proof.
  intros Hinv Hopt Hk Ht Hn Hnew Hroom Hr Hpos. cbn [turn onReceive]. unfold handleDelivery.
  rewrite isAdmissible_delivery by (done || lia). cbn [producerId token seq].
  destruct (state_for_restarted now key tok X seen_ c Hinv Hopt Hr)
    as (c1 & -> & Hr1 & (Hh & Hack) & (Hnd & _) & (_ & _ & Ho)).
  rewrite isDuplicate_delivered, bool_decide_false by (intros [?|?]; cbn in *; [lia|done]).
  assert (hasOutOfOrderRoom (maxOutOfOrder c1) (mkState tok 0 X now) n = true) as ->.
  { unfold hasOutOfOrderRoom. rewrite Ho. cbn. apply orb_true_iff. right.
    case_match; [by apply Z.ltb_lt|done]. }
  unfold finish, markDelivered. cbn -[Z.eqb touch]. rewrite (proj2 (Z.eqb_neq n (0 + 1))) by lia. cbn -[touch].
  rewrite get_touch by done. rewrite decide_True by done. by rewrite Hh, Hack.
Qed.

(** At the cap it is neither handled nor acknowledged, and its arrival keeps
    the window from going idle. *)
Lemma restarted_refuses key tok X seen_ c n b r now h limit :
  inv c → optioned c → valid key → valid tok → 2 ≤ n ≤ MAX_SAFE_INTEGER → n ∉ X →
  maxOutOfOrder c = Some limit → limit ≤ Z.of_nat (size X) → restarted key tok X seen_ c →
  let c' := turn c (Receives (Deliver (delivery key tok n b r)) now h) in
  restarted key tok X (Some now) c' ∧ handled c' = handled c ∧ acknowledged c' = acknowledged c.
Proof.
  intros Hinv Hopt Hk Ht Hn Hnew Hlimit Hfull Hr. cbn [turn onReceive]. unfold handleDelivery.
  rewrite isAdmissible_delivery by (done || lia). cbn [producerId token seq].
  destruct (state_for_restarted now key tok X seen_ c Hinv Hopt Hr)
    as (c1 & -> & Hr1 & (Hh & Hack) & (Hnd & _) & (_ & _ & Ho)).
  rewrite isDuplicate_delivered, bool_decide_false by (intros [?|?]; cbn in *; [lia|done]).
  assert (hasOutOfOrderRoom (maxOutOfOrder c1) (mkState tok 0 X now) n = false) as ->.
  { unfold hasOutOfOrderRoom. rewrite Ho, Hlimit. cbn -[Z.eqb]. rewrite (proj2 (Z.eqb_neq n (0 + 1))) by lia. by apply Z.ltb_ge. }
  cbn [negb]. split; [exact Hr1|]. by rewrite <-Hh, <-Hack.
Qed.

Lemma turn_inv c e : inv c → optioned c → inv (turn c e) ∧ optioned (turn c e).
Proof.
  intros Hinv Hopt. destruct (consumer_turn_stepped c e Hinv Hopt) as [new Hstep]. split; [apply Hstep|].
  destruct (turn_options c e) as (Hp & _ & Ho). unfold optioned. by rewrite Hp, Ho.
Qed.

(** The producer goes on from [n0] while the consumer awaits number 1. *)
Definition resumed (key tok : string) (b : Z → B) (r : nat) (t : Z → Z) (n : Z) : event B :=
  Receives (Deliver (delivery key tok n (b n) r)) (t n) (mkHandling [] true (t n) true).

Lemma resumed_fills key tok b r t limit n0 c (k : nat) :
  inv c → optioned c → valid key → valid tok → maxOutOfOrder c = Some limit →
  get_state key (deduplication c) = None → 2 ≤ n0 → n0 + limit ≤ MAX_SAFE_INTEGER → Z.of_nat k ≤ limit →
  let c' := run c (resumed key tok b r t <$> seqZ n0 (Z.of_nat k)) in
  inv c' ∧ optioned c' ∧ maxOutOfOrder c' = Some limit ∧
  handled c' = handled c ++ ((λ n, mkAccepted key tok n (b n) r) <$> seqZ n0 (Z.of_nat k)) ∧
  ∃ seen_, restarted key tok (list_to_set (seqZ n0 (Z.of_nat k))) seen_ c'.
Proof.
  intros Hinv Hopt Hk Ht Hlimit Hlost Hn0 Hmax. induction k as [|k IH]; intros Hle.
  { cbn. rewrite app_nil_r. split_and!; try done. by exists None. }
  destruct IH as (Hinv' & Hopt' & Hlimit' & Hh & seen_ & Hr); [lia|].
  rewrite Nat2Z.inj_succ, <-Z.add_1_r, seqZ_app by lia. rewrite (seqZ_cons _ 1), (seqZ_nil _ (Z.pred 1)) by lia.
  rewrite !fmap_app. cbn [fmap list_fmap]. rewrite consumer_run_snoc. cbn zeta.
  set (c1 := run c _) in *. set (n := n0 + Z.of_nat k) in *.
  assert (∀ m, m ∈ seqZ n0 (Z.of_nat k) → n0 ≤ m < n) as Hrange by (intros m ?%elem_of_seqZ; lia).
  destruct (restarted_handles key tok (list_to_set (seqZ n0 (Z.of_nat k))) seen_ c1 n (b n) r (t n)) as (Hr' & Hh' & _);
    try done; [lia| | | |].
  - rewrite elem_of_list_to_set. intros ?%Hrange. lia.
  - rewrite Hlimit', size_list_to_set, length_seqZ by apply NoDup_seqZ. lia.
  - intros m. rewrite elem_of_list_to_set. intros ?%Hrange. lia.
  - destruct (turn_inv c1 (resumed key tok b r t n) Hinv' Hopt').
    split_and!; [done|done| | |].
    + destruct (turn_options c1 (resumed key tok b r t n)) as (_ & _ & ->). done.
    + unfold resumed. by rewrite Hh', Hh, (assoc_L app).
    + exists (Some (t n)). unfold resumed. rewrite list_to_set_app_L, (comm_L (∪)). cbn. by rewrite (right_id_L ∅ (∪)).
Qed.

(** Retransmissions of the numbers past the cap, at any times and under any handler. *)
Definition retransmitted (key tok : string) (b : Z → B) (r : nat) (x : Z * Z * Handling) : event B :=
  Receives (Deliver (delivery key tok x.1.1 (b x.1.1) r)) x.1.2 x.2.

Lemma restarted_stays key tok X seen_ c b r limit later :
  inv c → optioned c → valid key → valid tok → maxOutOfOrder c = Some limit → limit ≤ Z.of_nat (size X) →
  (∀ x, x ∈ later → 2 ≤ x.1.1 ≤ MAX_SAFE_INTEGER ∧ x.1.1 ∉ X) → restarted key tok X seen_ c →
  let c' := run c (retransmitted key tok b r <$> later) in
  handled c' = handled c ∧ acknowledged c' = acknowledged c ∧
  restarted key tok X (match last later with Some x => Some x.1.2 | None => seen_ end) c'.
Proof.
  revert c seen_. induction later as [|x later IH]; intros c seen_ Hinv Hopt Hk Ht Hlimit Hfull Hall Hr.
  { by split_and!. }
  destruct (Hall x ltac:(by left)) as [Hn Hnew].
  destruct (restarted_refuses key tok X seen_ c x.1.1 (b x.1.1) r x.1.2 x.2 limit) as (Hr' & Hh' & Hack'); try done.
  destruct (turn_inv c (retransmitted key tok b r x) Hinv Hopt) as [Hinv' Hopt'].
  destruct (turn_options c (retransmitted key tok b r x)) as (_ & _ & Ho').
  destruct (IH (turn c (retransmitted key tok b r x)) (Some x.1.2)) as (Hh & Hack & Hlast); try done.
  - by rewrite Ho'.
  - intros y Hy. apply Hall. by right.
  - change (run c (retransmitted key tok b r <$> x :: later))
      with (run (turn c (retransmitted key tok b r x)) (retransmitted key tok b r <$> later)).
    split_and!; [by rewrite Hh|by rewrite Hack|]. rewrite last_cons. destruct (last later); exact Hlast.
Qed.

End laws.

(** ** Properties *)

(** C34. A consumer runs its handler to completion at most once per number of
    a producer's incarnation, for as long as it holds the window of that
    incarnation: in every run from a fresh consumer in which the window, once
    there, is never lost, the handled numbers are pairwise distinct, and the
    window answers for exactly those. *)
Theorem consumer_handles_once {B} (mp ttl mo : option Z) (key tok : string) (es : list (event B)) :
  positive mp → positive mo → keeps key tok (construct mp ttl mo) es →
  let c := run (construct mp ttl mo) es in
  NoDup (numbers key tok (handled c)) ∧
  ∀ n, 1 ≤ n → known c key tok n ↔ n ∈ numbers key tok (handled c).
Proof.
  intros Hp Ho Hkeep. apply run_once; [by apply construct_inv|done|done|].
  split; [constructor|]. intros n _. split; [by intros (st & [=] & _)|by intros ?%elem_of_nil].
Qed.

(** In every reachable state of a consumer the two halves of the
    deduplication budget hold, every acknowledgment it told names a delivery
    whose handler returned, and every handled delivery is one of the
    admissible deliveries that arrived. *)
Theorem consumer_bounded_and_sound {B} (mp ttl mo : option Z) (es : list (event B)) :
  positive mp → positive mo →
  let c := run (construct mp ttl mo) es in
  within mp (trackedProducers c) ∧ (∀ key, within mo (outOfOrderFor key c)) ∧
  (∀ r k, (r, k) ∈ acknowledged c →
     ∃ a, a ∈ handled c ∧ producerId a = ackProducerId k ∧ token a = ackIncarnation k ∧ seq a = ackSeq k) ∧
  (∀ a, a ∈ handled c → ∃ d now h, Receives (Deliver d) now h ∈ es ∧ isAdmissible d = Some a).
Proof.
  intros Hp Ho c. destruct (run_sound mp ttl mo es Hp Ho) as ((Hnd & Hw & Hl) & Hmp & Hmo & _ & Hack & Hh).
  fold c in Hnd, Hw, Hl, Hmp, Hmo, Hack, Hh. split_and!; [by rewrite <-Hmp| |exact Hack|exact Hh].
  intros key. unfold outOfOrderFor. destruct (get_state key (deduplication c)) as [st|] eqn:E.
  - rewrite <-Hmo. by apply (Hw key st).
  - unfold within. destruct mo; cbn in *; [lia|done].
Qed.

(** On a clock that does not go back, the idle sweep, which stops at the
    first fresh entry, drops exactly the windows of the producers that were
    last seen no later than the cutoff, and the eviction for a new producer
    drops only windows that were seen no later than every window it keeps. *)
Theorem consumer_sweep_exact {B} (mp mo : option Z) (ttl now : Z) (es : list (event B)) :
  positive mp → positive mo → StronglySorted Z.le (0 :: (es ≫= clock)) →
  let c := run (construct mp (Some ttl) mo) es in
  deduplication (sweepIdleProducers now c) =
    filter (λ e, now - ttl < lastSeenAtMs e.2) (deduplication c) ∧
  ∃ lost, deduplication c = lost ++ deduplication (evictForNewProducer now c) ∧
    ∀ x y, x ∈ lost → y ∈ deduplication (evictForNewProducer now c) → lastSeenAtMs x.2 ≤ lastSeenAtMs y.2.
Proof.
  intros Hp Ho Hclock c. destruct (run_sound mp (Some ttl) mo es Hp Ho) as (_ & Hmp & _).
  destruct (run_aged 0 (construct mp (Some ttl) mo) es Hp) as (t & Hs & _); [by split; [constructor|intros ? ?%elem_of_nil]|done|].
  fold c in Hs, Hmp. split.
  - unfold sweepIdleProducers. replace (producerIdleTtlMs c) with (Some ttl).
    + cbn. by apply sweep_loop_filter.
    + clear. unfold c. induction es as [|e es IH] using rev_ind; [done|]. rewrite consumer_run_snoc.
      by destruct (turn_options (run (construct mp (Some ttl) mo) es) e) as (_ & -> & _).
  - destruct (evict_shrinks now c) as (_ & _ & k & Hk); [by rewrite Hmp|]. rewrite Hk.
    exists (take k (deduplication c)). split; [by rewrite take_drop|]. intros x y Hx Hy.
    rewrite <-(take_drop k (deduplication c)) in Hs. unfold seen in Hs. rewrite fmap_app in Hs.
    eapply (StronglySorted_app_1_elem_of Z.le); [exact Hs| |]; by apply (list_elem_of_fmap_2 (lastSeenAtMs ∘ snd)).
Qed.

(** A consumer that lost the window of a live producer — idle sweep,
    eviction or restart — while the producer is past its first number stops
    serving it: the next [maxOutOfOrder] deliveries are handled, and from then
    on every further number, however often it is retransmitted, is neither
    handled nor acknowledged.  The full window waits for number 1, which such
    a producer does not send again, and each arrival renews the window's age,
    so the idle sweep does not release it. *)
Theorem consumer_lost_window_stalls {B} (c : ConsumerController B) (key tok : string) (b : Z → B) (r : nat)
    (t : Z → Z) (limit n0 : Z) (later : list (Z * Z * Handling)) :
  inv c → optioned c → maxOutOfOrder c = Some limit → get_state key (deduplication c) = None →
  valid key → valid tok → 2 ≤ n0 → n0 + limit ≤ MAX_SAFE_INTEGER →
  (∀ x, x ∈ later → n0 + limit ≤ x.1.1 ≤ MAX_SAFE_INTEGER) →
  let c1 := run c (resumed key tok b r t <$> seqZ n0 limit) in
  let c2 := run c1 (retransmitted key tok b r <$> later) in
  handled c1 = handled c ++ ((λ n, mkAccepted key tok n (b n) r) <$> seqZ n0 limit) ∧
  handled c2 = handled c1 ∧ acknowledged c2 = acknowledged c1 ∧
  ∃ st, get_state key (deduplication c2) = Some st ∧ contiguous st = 0 ∧ outOfOrderFor key c2 = Z.to_nat limit ∧
    ∀ x, last later = Some x → lastSeenAtMs st = x.1.2.
Proof.
  intros Hinv Hopt Hlimit Hlost Hk Ht Hn0 Hmax Hlater c1 c2.
  assert (1 ≤ limit) as Hpos by (destruct Hopt as [_ Ho]; by rewrite Hlimit in Ho).
  destruct (resumed_fills key tok b r t limit n0 c (Z.to_nat limit)) as (Hinv1 & Hopt1 & Hlimit1 & Hh1 & seen_ & Hr1);
    try done; [lia|]. rewrite Z2Nat.id in * by lia. fold c1 in Hinv1, Hopt1, Hlimit1, Hh1, Hr1.
  set (X := list_to_set (seqZ n0 limit)) in *.
  assert (size X = Z.to_nat limit) as Hsize.
  { unfold X. rewrite size_list_to_set by apply NoDup_seqZ. by rewrite length_seqZ. }
  destruct (restarted_stays key tok X seen_ c1 b r limit later) as (Hh2 & Hack2 & Hr2); try done; [lia| |].
  { intros x Hx. apply Hlater in Hx. split; [lia|]. unfold X. rewrite elem_of_list_to_set, elem_of_seqZ. lia. }
  fold c2 in Hh2, Hack2, Hr2. split_and!; [done|done|done|].
  destruct (match last later with Some x => Some x.1.2 | None => seen_ end) as [time|] eqn:Etime; cbn in Hr2.
  - exists (mkState tok 0 X time). split_and!; [done|done|unfold outOfOrderFor; by rewrite Hr2|].
    intros x Hx. rewrite Hx in Etime. by injection Etime as <-.
  - destruct Hr2 as [_ HX]. exfalso. rewrite HX, size_empty in Hsize. lia.
Qed.

(** ** A run

    Numbers 1 and 2 of producer ["p"] arrive, 2 twice; the producer is idle
    until the sweep drops its window; it goes on with 3 and 4, and 5 is
    refused for good. *)
Definition sample : list (event nat) :=
  [resumed "p" "i1" Z.to_nat 7 (λ n, n) 1; resumed "p" "i1" Z.to_nat 7 (λ n, n) 2;
   resumed "p" "i1" Z.to_nat 7 (λ n, n) 2].

Definition swept : ConsumerController nat :=
  run (construct (Some 2) (Some 1000) (Some 2)) (sample ++ [Sweeps 5000]).

Lemma consumer_handles_once_witness :
  keeps "p" "i1" (construct (Some 2) (Some 1000) (Some 2)) sample ∧
  NoDup (numbers "p" "i1" (handled (run (construct (Some 2) (Some 1000) (Some 2)) sample))).
Proof.
  assert (keeps "p" "i1" (construct (Some 2) (Some 1000) (Some 2)) sample) as Hkeeps.
  { repeat split; vm_compute; intros st H _; try discriminate H; injection H as <-;
      eexists; split; reflexivity. }
  split; [exact Hkeeps|].
  exact (proj1 (consumer_handles_once (Some 2) (Some 1000) (Some 2) "p" "i1" sample
    ltac:(cbn; lia) ltac:(cbn; lia) Hkeeps)).
Defined.

Lemma consumer_bounded_and_sound_witness :
  positive (Some 2) ∧ within (Some 2) (trackedProducers swept) ∧ within (Some 2) (outOfOrderFor "p" swept).
Proof.
  split; [cbn; lia|].
  destruct (consumer_bounded_and_sound (Some 2) (Some 1000) (Some 2) (sample ++ [Sweeps 5000])
    ltac:(cbn; lia) ltac:(cbn; lia)) as (Hp & Ho & _).
  split; [exact Hp|exact (Ho "p")].
Defined.

Lemma consumer_sweep_exact_witness :
  deduplication (sweepIdleProducers 1500 (run (construct (Some 2) (Some 1000) (Some 2)) sample)) =
    filter (λ e, 1500 - 1000 < lastSeenAtMs e.2)
      (deduplication (run (construct (Some 2) (Some 1000) (Some 2)) sample)).
Proof.
  refine (proj1 (consumer_sweep_exact (Some 2) (Some 2) 1000 1500 sample _ _ _)); [cbn; lia|cbn; lia|].
  cbn. repeat (constructor; [|repeat (constructor; [lia|]); constructor]). constructor.
Defined.

Lemma consumer_lost_window_stalls_witness :
  let c1 := run swept (resumed "p" "i1" Z.to_nat 7 (λ n, 6000 + n) <$> seqZ 3 2) in
  let late := mkHandling [] true 9000 true in
  handled (run c1 (retransmitted "p" "i1" Z.to_nat 7 <$> [(5, 7000, late); (5, 7500, late)])) = handled c1.
Proof.
  intros c1 late.
  destruct (run_sound (Some 2) (Some 1000) (Some 2) (sample ++ [Sweeps 5000])) as (Hinv & _); [cbn; lia|cbn; lia|].
  refine (proj1 (proj2 (consumer_lost_window_stalls swept "p" "i1" Z.to_nat 7 (λ n, 6000 + n) 2 3
    [(5, 7000, late); (5, 7500, late)] Hinv _ _ _ _ _ _ _ _))).
  - split; vm_compute; discriminate.
  - vm_compute. reflexivity.
  - vm_compute. reflexivity.
  - split; vm_compute; [reflexivity|discriminate].
  - split; vm_compute; [reflexivity|discriminate].
  - lia.
  - vm_compute. discriminate.
  - intros x [->|[->|[]%elem_of_nil]%elem_of_cons]%elem_of_cons; cbn; unfold MAX_SAFE_INTEGER; lia.
Defined.

End ConsumerController.
