(* ===== verification/ReliableDelivery.v ===== *)
(** * The protocol of [src/delivery]: a producer, a consumer and the network

    The two controllers of [ProducerController.v] and [ConsumerController.v]
    joined by a network that may lose, duplicate, reorder and delay messages,
    with restarts of both sides, idle sweeps and evictions, and a party that
    forges deliveries and acknowledgments without knowing an incarnation
    token ([src/delivery/Messages.ts], [ReliableDelivery.ts]). *)

From S2P Require Import Prelude Json Delivery ProducerController ConsumerController.

Local Open Scope Z_scope.

Module ReliableDelivery.
Module P := ProducerController.
Module C := ConsumerController.

(** [minted] are the tokens a producer drew, [forged] those of forged
    deliveries, and [sent] the sends handed to the producer.  Every delivery
    the producer ever told stays deliverable, and every acknowledgment the
    consumer ever told stays receivable. *)
Record Network (B : Type) := mkNetwork {
  producer : P.ProducerController B;
  consumer : C.ConsumerController B;
  minted : list string;
  forged : list string;
  sent : list (P.ProducerSend B)
}.
Arguments mkNetwork {B}.
Arguments producer {B}.
Arguments consumer {B}.
Arguments minted {B}.
Arguments forged {B}.
Arguments sent {B}.

Section network.
Context {B : Type}.
Variable behaviour : nat → P.Outcome → P.Behaviour.
Implicit Types (n : Network B).

(** Tokens are random: a drawn one is new.  An acknowledgment the producer
    gets was told by the consumer, or carries no token it ever drew. *)
Definition fresh n (token : string) : Prop := (token ∉ minted n) ∧ (token ∉ forged n).

Definition producer_may n (e : P.event B) : Prop :=
  match e with
  | P.Receives _ message _ next =>
      fresh n next ∧
      match message with
      | P.Ack k => (∃ r, (r, k) ∈ C.acknowledged (consumer n)) ∨ ackIncarnation k ∉ minted n
      | _ => True
      end
  | P.Fires _ _ => True
  | P.Restarts next => fresh n next
  end.

Definition token_of (d : Delivery B) : list string :=
  match Delivery.incarnation d with Some (JString token) => [token] | _ => [] end.

(** A delivery the consumer gets was told by the producer, or is forged. *)
Definition genuine n (d : Delivery B) : Prop := d ∈ P.wire (P.world (producer n)).

Definition consumer_may n (e : C.event B) : Prop :=
  match e with
  | C.Receives (C.Deliver d) _ _ => genuine n d ∨ ∀ token, token ∈ token_of d → token ∉ minted n
  | _ => True
  end.

Definition sends_of (e : P.event B) : list (P.ProducerSend B) :=
  match e with P.Receives _ (P.Send m) _ _ => [m] | _ => [] end.

Definition tokens_of (e : C.event B) : list string :=
  match e with C.Receives (C.Deliver d) _ _ => token_of d | _ => [] end.

Inductive step : Network B → Network B → Prop :=
| producer_step n e : producer_may n e →
    step n (mkNetwork (P.turn behaviour (producer n) e) (consumer n) (minted n ++ P.drawn e) (forged n)
              (sent n ++ sends_of e))
| genuine_step n d now h : genuine n d →
    step n (mkNetwork (producer n) (C.turn (consumer n) (C.Receives (C.Deliver d) now h)) (minted n) (forged n)
              (sent n))
| consumer_step n e : (∀ token, token ∈ tokens_of e → token ∉ minted n) →
    step n (mkNetwork (producer n) (C.turn (consumer n) e) (minted n) (forged n ++ tokens_of e) (sent n)).

Definition start (id token : string) (size : Z) (self : nat) (mp ttl mo : option Z) : Network B :=
  mkNetwork (P.construct id token size self P.nothing) (C.construct mp ttl mo) [token] [] [].

(** ** The invariant *)

Section invariant.
Variables (id : string) (mp ttl mo : option Z).

(** A confirmed send was handled. *)
Definition confirmed n (s : P.Settlement) : Prop :=
  ∃ m a, m ∈ sent n ∧ P.confirm m = P.Callback (P.callback s) ∧ a ∈ C.handled (consumer n) ∧
    C.producerId a = id ∧ P.number s = Some (C.seq a) ∧ C.body a = P.body m.

Record network_ok n : Prop := {
  ok_quiet : P.quiet (producer n);
  ok_id : P.id (producer n) = id;
  ok_consistent : P.consistent (producer n);
  ok_token : P.incarnation (producer n) ∈ minted n;
  ok_wire : ∀ d, d ∈ P.wire (P.world (producer n)) →
    ∃ token, Delivery.incarnation d = Some (JString token) ∧ token ∈ minted n;
  ok_apart : ∀ token, token ∈ forged n → token ∉ minted n;
  ok_consumer : ∃ es, consumer n = C.run (C.construct mp ttl mo) es;
  ok_handled : ∀ a, a ∈ C.handled (consumer n) →
    (∃ d, genuine n d ∧ C.isAdmissible d = Some a) ∨ C.token a ∈ forged n;
  ok_sends : ∀ m, m ∈ P.sends (producer n) → m ∈ sent n;
  ok_confirmed : ∀ s, s ∈ P.settlements (P.world (producer n)) → P.outcome s = P.Delivered → confirmed n s
}.

Hypothesis Hmp : C.positive mp.
Hypothesis Hmo : C.positive mo.

Lemma start_ok token size self : 1 ≤ size → network_ok (start id token size self mp ttl mo).
Proof.
  intros Hsize. split; cbn; first [done|by apply P.construct_quiet|by left|by exists []|by intros ? ?%elem_of_nil].
Qed.

Lemma consumer_ok n : network_ok n →
  C.inv (consumer n) ∧ C.optioned (consumer n) ∧ ∃ es, C.sound es (consumer n).
Proof.
  intros [_ _ _ _ _ _ [es Hes] _ _ _]. destruct (C.run_sound mp ttl mo es Hmp Hmo) as (Hinv & Hp & Ho & Hs).
  rewrite <-Hes in *. split_and!; [done|unfold C.optioned; by rewrite Hp, Ho|by exists es].
Qed.

(** The acknowledgment that settles a send names a delivery of that send. *)
Lemma acknowledged_handled n k f r :
  network_ok n → (r, k) ∈ C.acknowledged (consumer n) → P.acknowledges k f (producer n) →
  ∃ a, a ∈ C.handled (consumer n) ∧ C.producerId a = id ∧ C.seq a = P.seq f ∧ C.body a = P.fbody f.
Proof.
  intros Hok Hk (Hid & Hinc & Hf & Hseq). destruct (consumer_ok n Hok) as (_ & _ & es & _ & Hack & _).
  destruct (Hack r k Hk) as (a & Ha & Hpid & Htok & Hnum). exists a. rewrite Hpid, Hnum.
  split_and!; [done|by rewrite Hid, (ok_id n Hok)|done|].
  destruct (ok_handled n Hok a Ha) as [(d & Hd & Hadm)|Hforged].
  2:{ destruct (ok_apart n Hok _ Hforged). rewrite Htok, Hinc. apply (ok_token n Hok). }
  destruct (C.isAdmissible_Some d a Hadm) as (_ & _ & Hdi & Hds & Hdb & _).
  destruct (ok_consistent n Hok d Hd) as (num & Hdeq & _ & Hbody); [by rewrite Hdi, Htok, Hinc|].
  assert (num = P.seq f) as ->.
  { rewrite Hdeq in Hds. cbn in Hds. injection Hds as ->. by rewrite Hnum, Hseq. }
  by rewrite <-Hdb, (Hbody f).
Qed.

Lemma producer_step_ok n e : network_ok n → producer_may n e →
  network_ok (mkNetwork (P.turn behaviour (producer n) e) (consumer n) (minted n ++ P.drawn e) (forged n)
    (sent n ++ sends_of e)).
Proof.
  intros Hok Hmay. destruct (P.producer_turn_stepped behaviour _ e (ok_quiet n Hok)) as (Hq & Hid & _ & _ & _ & Hsend & Hset).
  destruct (P.turn_tokens behaviour _ e (ok_quiet n Hok)) as (Htok & Hmono & Hwire).
  assert (∀ token, token ∈ P.drawn e → fresh n token) as Hfresh.
  { destruct e as [? message ? next|? ?|next]; cbn in *; intros token.
    - intros ->%list_elem_of_singleton. apply Hmay.
    - by intros ?%elem_of_nil.
    - by intros ->%list_elem_of_singleton. }
  assert (P.draws_fresh (producer n) e) as Hdraws.
  { assert (∀ next, fresh n next → next ≠ P.incarnation (producer n) ∧
      ∀ d, d ∈ P.wire (P.world (producer n)) → Delivery.incarnation d ≠ Some (JString next)) as Hf.
    { intros next [Hm _]. split; [intros ->; apply Hm, (ok_token n Hok)|].
      intros d Hd Heq. destruct (ok_wire n Hok d Hd) as (token & Ht & Hin). congruence. }
    destruct e; cbn in *; [by apply Hf, Hmay|done|by apply Hf]. }
  split; cbn.
  - exact Hq.
  - by rewrite Hid, (ok_id n Hok).
  - apply P.turn_consistent; [apply (ok_quiet n Hok)|done|apply (ok_consistent n Hok)].
  - apply elem_of_app. destruct Htok as [->|?]; [left; apply (ok_token n Hok)|by right].
  - intros d [Hd|Hd]%Hwire.
    + destruct (ok_wire n Hok d Hd) as (token & ? & ?). exists token. split; [done|]. apply elem_of_app. by left.
    + exists (P.incarnation (producer n)). split; [done|]. apply elem_of_app. left. apply (ok_token n Hok).
  - intros token Hf [Hm|Hm]%elem_of_app; [by apply (ok_apart n Hok token)|]. by apply (Hfresh token Hm).
  - apply (ok_consumer n Hok).
  - intros a Ha. destruct (ok_handled n Hok a Ha) as [(d & Hd & ?)|?]; [left|by right]. exists d. split; [|done].
    by apply Hmono.
  - intros m Hm. apply elem_of_app. destruct (Hsend m Hm) as [?|(? & ? & ? & ->)]; [left; by apply (ok_sends n Hok)|].
    right. by left.
  - intros s Hs Hd. destruct (Hset s Hs Hd) as [Hold|(acc & k & now & next & f & -> & Hack & Hc & Hnum)].
    + destruct (ok_confirmed n Hok s Hold Hd) as (m & a & Hm & H). exists m, a. split; [|done].
      apply elem_of_app. by left.
    + cbn in Hmay. destruct Hmay as [_ [[r Hk]|Hno]].
      2:{ destruct Hno. destruct Hack as (_ & -> & _). apply (ok_token n Hok). }
      destruct (acknowledged_handled n k f r Hok Hk Hack) as (a & Ha & Hpid & Hseq & Hbody).
      exists (P.mkSend (P.fbody f) (P.fconfirm f)), a. cbn. rewrite Hseq.
      split_and!; try done. apply elem_of_app. left. apply (ok_sends n Hok), P.elem_of_sends. left.
      exists f. by destruct Hack as (_ & _ & ? & _).
Qed.

Lemma consumer_turn_ok n e forged' : network_ok n →
  (∀ token, token ∈ forged n → token ∈ forged') → (∀ token, token ∈ forged' → token ∉ minted n) →
  (∀ d now h token, e = C.Receives (C.Deliver d) now h → token ∈ token_of d → genuine n d ∨ token ∈ forged') →
  network_ok (mkNetwork (producer n) (C.turn (consumer n) e) (minted n) forged' (sent n)).
Proof.
  intros Hok Hsub Hapart Hfrom. destruct (consumer_ok n Hok) as (Hinv & Hopt & _).
  destruct (C.consumer_turn_stepped (consumer n) e Hinv Hopt) as [new Hstep].
  assert (∀ a, a ∈ C.handled (consumer n) → a ∈ C.handled (C.turn (consumer n) e)) as Hmono
    by (rewrite (C.step_handled _ _ _ _ Hstep); set_solver).
  split; cbn.
  - apply (ok_quiet n Hok).
  - apply (ok_id n Hok).
  - apply (ok_consistent n Hok).
  - apply (ok_token n Hok).
  - apply (ok_wire n Hok).
  - exact Hapart.
  - destruct (ok_consumer n Hok) as [es Hes]. exists (es ++ [e]). by rewrite C.consumer_run_snoc, <-Hes.
  - intros a. rewrite (C.step_handled _ _ _ _ Hstep), elem_of_app. intros [Ha|Ha].
    + destruct (ok_handled n Hok a Ha) as [?|?]; [by left|right; by apply Hsub].
    + destruct (C.step_origin _ _ _ _ Hstep a Ha) as (d & now & h & He & Hadm).
      destruct (C.isAdmissible_Some d a Hadm) as (_ & _ & Hdi & _).
      assert (C.token a ∈ token_of d) as Hin by (unfold token_of; rewrite Hdi; by left).
      destruct (Hfrom d now h (C.token a) He Hin) as [Hg|?]; [left; by exists d|by right].
  - apply (ok_sends n Hok).
  - intros s Hs Hd. destruct (ok_confirmed n Hok s Hs Hd) as (m & a & ? & ? & ? & ? & ? & ?). exists m, a.
    split_and!; try done. by apply Hmono.
Qed.

Lemma step_ok n n' : network_ok n → step n n' → network_ok n'.
Proof.
  intros Hok Hstep. destruct Hstep as [n e Hmay|n d now h Hg|n e Hforged].
  - by apply producer_step_ok.
  - apply consumer_turn_ok; [done|done|apply (ok_apart n Hok)|]. intros d' ? ? token [= <- <- <-] _. by left.
  - apply consumer_turn_ok; [done| | |].
    + intros token ?. apply elem_of_app. by left.
    + intros token [?|?]%elem_of_app; [by apply (ok_apart n Hok)|by apply Hforged].
    + intros d now h token -> ?. right. apply elem_of_app. by right.
Qed.

Lemma reachable_ok n n' : network_ok n → rtc step n n' → network_ok n'.
Proof. intros Hok Hr. induction Hr as [|n n1 n2 Hs _ IH]; [done|]. apply IH. by eapply step_ok. Qed.

End invariant.
End network.

(** ** Properties *)

(** C2. Over every execution of the protocol, a callback that was told of
    success belongs to a send the consumer's handler finished: the consumer
    handled a delivery of this producer under that number, with that send's
    body.  No loss, duplication, reordering, restart of either side, window
    eviction or forged message breaks it. *)
Theorem confirmed_implies_handled {B} (behaviour : nat → P.Outcome → P.Behaviour) (id token : string)
    (size : Z) (self : nat) (mp ttl mo : option Z) (n : Network B) (s : P.Settlement) :
  1 ≤ size → C.positive mp → C.positive mo →
  rtc (step behaviour) (start id token size self mp ttl mo) n →
  s ∈ P.settlements (P.world (producer n)) → P.outcome s = P.Delivered →
  ∃ m a, m ∈ sent n ∧ P.confirm m = P.Callback (P.callback s) ∧ a ∈ C.handled (consumer n) ∧
    C.producerId a = id ∧ P.number s = Some (C.seq a) ∧ C.body a = P.body m.
Proof.
  intros Hsize Hmp Hmo Hr Hs Hd.
  pose proof (reachable_ok behaviour id mp ttl mo Hmp Hmo _ n (start_ok id mp ttl mo token size self Hsize) Hr) as Hok.
  exact (ok_confirmed _ _ _ _ n Hok s Hs Hd).
Qed.

(** ** An execution: a send, its delivery, its acknowledgment *)

Definition quiet_callbacks (c : nat) (o : P.Outcome) : P.Behaviour := P.Returns.

Definition sample_start : Network nat := start "p" "i1" 1 0 (Some 2) (Some 1000) (Some 2).
Definition sample_send : P.event nat := P.Receives (λ _, true) (P.Send (P.mkSend 42%nat (P.Callback 5))) 0 "i2".
Definition sample_sent : Network nat :=
  mkNetwork (P.turn quiet_callbacks (producer sample_start) sample_send) (consumer sample_start)
    (minted sample_start ++ P.drawn sample_send) (forged sample_start) (sent sample_start ++ sends_of sample_send).
Definition sample_delivery : Delivery nat := C.delivery "p" "i1" 1 42%nat 0.
Definition sample_handling : C.Handling := C.mkHandling [] true 6 true.
Definition sample_delivered : Network nat :=
  mkNetwork (producer sample_sent) (C.turn (consumer sample_sent) (C.Receives (C.Deliver sample_delivery) 5 sample_handling))
    (minted sample_sent) (forged sample_sent) (sent sample_sent).
Definition sample_ack : P.event nat := P.Receives (λ _, true) (P.Ack (mkAck "p" "i1" 1)) 7 "i3".
Definition sample_acked : Network nat :=
  mkNetwork (P.turn quiet_callbacks (producer sample_delivered) sample_ack) (consumer sample_delivered)
    (minted sample_delivered ++ P.drawn sample_ack) (forged sample_delivered)
    (sent sample_delivered ++ sends_of sample_ack).

Lemma sample_wire : P.wire (P.world (producer sample_sent)) = [sample_delivery].
Proof. vm_compute. reflexivity. Qed.

Lemma sample_acknowledged : C.acknowledged (consumer sample_delivered) = [(0%nat, mkAck "p" "i1" 1)].
Proof. vm_compute. reflexivity. Qed.

Lemma sample_settled :
  P.settlements (P.world (producer sample_acked)) = [P.mkSettlement 5 P.Delivered (Some 1)].
Proof. vm_compute. reflexivity. Qed.

Lemma sample_fresh :
  fresh sample_start "i2" ∧ fresh sample_delivered "i3".
Proof. split; split; apply (bool_decide_unpack _); vm_compute; exact I. Qed.

Lemma sample_execution : rtc (step quiet_callbacks) sample_start sample_acked.
Proof.
  apply (rtc_l _ _ sample_sent).
  { apply (producer_step quiet_callbacks sample_start sample_send). split; [apply sample_fresh|exact I]. }
  apply (rtc_l _ _ sample_delivered).
  { apply (genuine_step quiet_callbacks sample_sent). unfold genuine. rewrite sample_wire. left. }
  apply (rtc_l _ _ sample_acked); [|apply rtc_refl].
  apply (producer_step quiet_callbacks sample_delivered sample_ack). split; [apply sample_fresh|].
  left. exists 0%nat. rewrite sample_acknowledged. left.
Qed.

Lemma confirmed_implies_handled_witness :
  rtc (step quiet_callbacks) sample_start sample_acked ∧
  ∃ m a, P.confirm m = P.Callback 5 ∧ a ∈ C.handled (consumer sample_acked) ∧ C.body a = P.body m.
Proof.
  split; [exact sample_execution|].
  destruct (confirmed_implies_handled quiet_callbacks "p" "i1" 1 0 (Some 2) (Some 1000) (Some 2) sample_acked
    (P.mkSettlement 5 P.Delivered (Some 1))) as (m & a & _ & Hc & Ha & _ & _ & Hb).
  - lia.
  - cbn. lia.
  - cbn. lia.
  - exact sample_execution.
  - rewrite sample_settled. left.
  - reflexivity.
  - exists m, a. split; [exact Hc|]. split; [exact Ha|exact Hb].
Defined.

End ReliableDelivery.
