(* ===== verification/Float.v ===== *)
(** * JavaScript arithmetic on fractions

    The delays of retries, backoffs and circuit breakers are float64 products
    and quotients.  A [float] is a rational, an infinity or [NaN]: every
    operation rounds its exact result to the nearest double, ties to even,
    with the subnormal numbers below [2^-1022] and zero below half of the
    smallest ([rnd]), and overflows to an infinity at [2^1024].  Only the sign
    of zero is left out.  [Math.pow], whose last digits ECMAScript leaves to
    the implementation, is the rounded power. *)

From Stdlib Require Export QArith Qpower Qminmax Lqa.
From Stdlib Require Import Qround.
From S2P Require Import Prelude.

Inductive float : Type :=
| Fin (q : Q)
| Inf (negative : bool)
| NotANumber.

Definition FLOAT_LIMIT : Q := inject_Z (2 ^ 1024).

Definition Qltb (a b : Q) : bool := negb (Qle_bool b a).

(** ** Rounding *)

(** The exponent of a positive number: [2^e <= q < 2^(e+1)]. *)
Definition Q_log2 (q : Q) : Z :=
  let e := (Z.log2 (Qnum q) - Z.log2 (Zpos (Qden q)))%Z in
  if Qle_bool (2 ^ e) q then e else (e - 1)%Z.

(** The nearest integer, the even one of two. *)
Definition round_even (q : Q) : Z :=
  let f := Qfloor q in
  let r := (q - inject_Z f)%Q in
  if Qltb r (1 # 2) then f
  else if Qltb (1 # 2) r then (f + 1)%Z
  else if Z.even f then f else (f + 1)%Z.

(** The distance of the doubles around a positive number: 53 bits, and below
    [2^-1022] that of the subnormal ones. *)
Definition ulp (q : Q) : Q := 2 ^ (Z.max (Q_log2 q) (-1022) - 52).

Definition rnd_pos (q : Q) : Q := inject_Z (round_even (q / ulp q)) * ulp q.

(** The double nearest to a number, with an unbounded exponent. *)
Definition rnd (q : Q) : Q :=
  Qred (if Qltb 0 q then rnd_pos q else if Qltb q 0 then - rnd_pos (- q) else 0).

(** The result of an operation whose exact value is [q]. *)
Definition overflow (q : Q) : float :=
  let q := rnd q in
  if Qle_bool FLOAT_LIMIT q then Inf false
  else if Qle_bool q (- FLOAT_LIMIT) then Inf true
  else Fin q.

Definition fadd (a b : float) : float :=
  match a, b with
  | Fin x, Fin y => overflow (x + y)
  | Inf s, Inf t => if Bool.eqb s t then Inf s else NotANumber
  | Inf s, Fin _ | Fin _, Inf s => Inf s
  | NotANumber, _ | _, NotANumber => NotANumber
  end.

Definition fneg (a : float) : float :=
  match a with Fin x => Fin (- x) | Inf s => Inf (negb s) | NotANumber => NotANumber end.

Definition fsub (a b : float) : float := fadd a (fneg b).

(** An infinity times a finite number: [Infinity * 0] is [NaN]. *)
Definition inf_times (s : bool) (q : Q) : float :=
  if Qeq_bool q 0 then NotANumber else Inf (xorb s (Qltb q 0)).

Definition fmul (a b : float) : float :=
  match a, b with
  | Fin x, Fin y => overflow (x * y)
  | Inf s, Inf t => Inf (xorb s t)
  | Inf s, Fin q | Fin q, Inf s => inf_times s q
  | NotANumber, _ | _, NotANumber => NotANumber
  end.

(** Division; a zero divisor counts as [+0]. *)
Definition fdiv (a b : float) : float :=
  match a, b with
  | Fin x, Fin y =>
      if Qeq_bool y 0 then if Qeq_bool x 0 then NotANumber else Inf (Qltb x 0)
      else overflow (x / y)
  | Inf s, Fin y => Inf (xorb s (Qltb y 0))
  | Fin _, Inf _ => Fin 0
  | Inf _, Inf _ => NotANumber
  | NotANumber, _ | _, NotANumber => NotANumber
  end.

(** [Math.pow] at a non-negative whole exponent. *)
Definition Math_pow (a : float) (n : nat) : float :=
  match n, a with
  | O, _ => Fin 1
  | _, Fin x => overflow (x ^ Z.of_nat n)
  | _, Inf s => Inf (s && Nat.odd n)
  | _, NotANumber => NotANumber
  end.

(** The relational operators: false as soon as one side is [NaN]. *)
Definition flt (a b : float) : bool :=
  match a, b with
  | NotANumber, _ | _, NotANumber => false
  | Fin x, Fin y => Qltb x y
  | Inf s, Inf t => s && negb t
  | Inf s, Fin _ => s
  | Fin _, Inf t => negb t
  end.

Definition feqb (a b : float) : bool :=
  match a, b with
  | Fin x, Fin y => Qeq_bool x y
  | Inf s, Inf t => Bool.eqb s t
  | _, _ => false
  end.

Definition fle (a b : float) : bool := flt a b || feqb a b.

(** [Math.min] and [Math.max] propagate [NaN]. *)
Definition Math_min (a b : float) : float :=
  match a, b with
  | NotANumber, _ | _, NotANumber => NotANumber
  | _, _ => if flt b a then b else a
  end.

Definition Math_max (a b : float) : float :=
  match a, b with
  | NotANumber, _ | _, NotANumber => NotANumber
  | _, _ => if flt a b then b else a
  end.

Definition is_finite (a : float) : bool := match a with Fin _ => true | _ => false end.
Definition is_nan (a : float) : bool := match a with NotANumber => true | _ => false end.

(** Whole numbers, such as timestamps and counts. *)
Definition of_Z (z : Z) : float := overflow (inject_Z z).

(** ** Comparisons and exactness *)

Lemma Qltb_spec (a b : Q) : reflect (a < b)%Q (Qltb a b).
Proof.
  unfold Qltb. destruct (Qle_bool b a) eqn:E; constructor.
  - apply Qle_bool_iff in E. lra.
  - apply Qnot_le_lt. intros H%Qle_bool_iff. congruence.
Qed.

Lemma Qle_bool_spec (a b : Q) : reflect (a <= b)%Q (Qle_bool a b).
Proof.
  destruct (Qle_bool a b) eqn:E; constructor; [by apply Qle_bool_iff|].
  intros H%Qle_bool_iff. congruence.
Qed.

Lemma Qltb_true (a b : Q) : Qltb a b = true ↔ (a < b)%Q.
Proof. by destruct (Qltb_spec a b). Qed.

Lemma Qltb_false (a b : Q) : Qltb a b = false ↔ (b <= a)%Q.
Proof. destruct (Qltb_spec a b); (split; [try done|]); lra. Qed.

Lemma fle_true (a b : Q) : fle (Fin a) (Fin b) = true ↔ (a <= b)%Q.
Proof.
  unfold fle. cbn [flt feqb]. rewrite orb_true_iff, Qltb_true, Qeq_bool_iff. split; [intros []; lra|].
  intros Hle. destruct (Qlt_le_dec a b); [by left|right; lra].
Qed.

Lemma fle_false (a b : Q) : fle (Fin a) (Fin b) = false ↔ (b < a)%Q.
Proof. rewrite <-not_true_iff_false, fle_true. split; [apply Qnot_le_lt|lra]. Qed.

(** Turns comparisons that answered into inequalities. *)
Ltac qguards :=
  cbn [flt feqb] in *;
  repeat match goal with
  | H : (_ || _)%bool = false |- _ => apply orb_false_iff in H as [? ?]
  | H : fle (Fin _) (Fin _) = false |- _ => apply fle_false in H
  | H : fle (Fin _) (Fin _) = true |- _ => apply fle_true in H
  | H : Qltb _ _ = false |- _ => apply Qltb_false in H
  | H : Qltb _ _ = true |- _ => apply Qltb_true in H
  | H : Qeq_bool _ _ = true |- _ => apply Qeq_bool_iff in H
  | H : Qeq_bool _ _ = false |- _ => apply Qeq_bool_neq in H
  end.

(** Case analysis on the first test of the goal. *)
Ltac qcase :=
  match goal with
  | |- context [Qltb ?a ?b] => destruct (Qltb_spec a b)
  | |- context [Qle_bool ?a ?b] => destruct (Qle_bool_spec a b)
  | |- context [Qeq_bool ?a ?b] =>
      let E := fresh "E" in destruct (Qeq_bool a b) eqn:E;
      [apply Qeq_bool_iff in E | apply Qeq_bool_neq in E]
  end.

Lemma FLOAT_LIMIT_pos : (0 < FLOAT_LIMIT)%Q.
Proof. done. Qed.

(** *** The exponent *)

Lemma two_pow_pos e : (0 < 2 ^ e)%Q.
Proof. by apply Qpower_0_lt. Qed.

Lemma two_pow_plus a b : (2 ^ (a + b) == 2 ^ a * 2 ^ b)%Q.
Proof. by apply Qpower_plus. Qed.

Lemma two_pow_Z n : (0 ≤ n)%Z → (2 ^ n == inject_Z (2 ^ n))%Q.
Proof. intros Hn. symmetry. by apply Zpower_Qpower. Qed.

Lemma two_pow_mono a b : (a ≤ b)%Z → (2 ^ a <= 2 ^ b)%Q.
Proof.
  intros Hab. replace b with (a + (b - a))%Z by lia. rewrite two_pow_plus, (two_pow_Z (b - a)) by lia.
  pose proof (two_pow_pos a). assert (1 <= inject_Z (2 ^ (b - a)))%Q; [|nra].
  change 1%Q with (inject_Z 1). rewrite <-Zle_Qle. pose proof (Z.pow_pos_nonneg 2 (b - a)). lia.
Qed.

Lemma Z_log2_Q n : (0 < n)%Z → (2 ^ Z.log2 n <= inject_Z n)%Q ∧ (inject_Z n < 2 * 2 ^ Z.log2 n)%Q.
Proof.
  intros Hn. pose proof (Z.log2_spec n Hn) as [Hl Hu]. pose proof (Z.log2_nonneg n).
  rewrite (two_pow_Z (Z.log2 n)) by done. change 2%Q with (inject_Z 2). rewrite <-inject_Z_mult, <-Zle_Qle, <-Zlt_Qlt.
  rewrite Z.pow_succ_r in Hu by done. done.
Qed.

Lemma Q_log2_spec q : (0 < q)%Q → (2 ^ Q_log2 q <= q)%Q ∧ (q < 2 ^ (Q_log2 q + 1))%Q.
Proof.
  intros Hq. assert (Hn : (0 < Qnum q)%Z) by (unfold Qlt in Hq; simpl in Hq; lia).
  destruct (Z_log2_Q (Qnum q) Hn) as [N1 N2]. destruct (Z_log2_Q (Zpos (Qden q)) ltac:(lia)) as [D1 D2].
  assert (Hqd : (q * inject_Z (Zpos (Qden q)) == inject_Z (Qnum q))%Q).
  { destruct q as [n d]. unfold Qeq. simpl. lia. }
  unfold Q_log2. set (a := Z.log2 (Qnum q)) in *. set (b := Z.log2 (Zpos (Qden q))) in *.
  assert (Hx : (2 ^ (a - b) * 2 ^ b == 2 ^ a)%Q) by (rewrite <-two_pow_plus; by replace (a - b + b)%Z with a by lia).
  pose proof (two_pow_pos (a - b)) as Px. pose proof (two_pow_pos b) as Pb.
  assert (Hup : (q < 2 * 2 ^ (a - b))%Q).
  { apply Qnot_le_lt. intros Hle. set (x := (2 ^ (a - b))%Q) in *. set (y := (2 ^ b)%Q) in *.
    set (d := inject_Z (Zpos (Qden q))) in *. set (n := inject_Z (Qnum q)) in *. clearbody x y d n. nra. }
  assert (Hlo : (2 ^ (a - b) < 2 * q)%Q).
  { apply Qnot_le_lt. intros Hle. set (x := (2 ^ (a - b))%Q) in *. set (y := (2 ^ b)%Q) in *.
    set (d := inject_Z (Zpos (Qden q))) in *. set (n := inject_Z (Qnum q)) in *. clearbody x y d n. nra. }
  qcase.
  - split; [done|]. rewrite two_pow_plus. change (2 ^ 1)%Q with 2%Q. lra.
  - assert (Hh : (2 ^ (a - b - 1) * 2 == 2 ^ (a - b))%Q).
    { change 2%Q with (2 ^ 1)%Q at 2. rewrite <-two_pow_plus. by replace (a - b - 1 + 1)%Z with (a - b)%Z by lia. }
    replace (a - b - 1 + 1)%Z with (a - b)%Z by lia. split; lra.
Qed.

(** *** The nearest integer *)

Lemma Qfloor_frac q : (0 <= q - inject_Z (Qfloor q))%Q ∧ (q - inject_Z (Qfloor q) < 1)%Q.
Proof. pose proof (Qfloor_le q). pose proof (Qlt_floor q) as Hl. rewrite inject_Z_plus in Hl. change (inject_Z 1) with 1%Q in Hl. lra. Qed.

Lemma round_even_mono q p : (q <= p)%Q → (round_even q ≤ round_even p)%Z.
Proof.
  intros Hle. pose proof (Qfloor_resp_le q p Hle) as Hf. unfold round_even.
  destruct (Z.eq_dec (Qfloor q) (Qfloor p)) as [He|Hne].
  - rewrite He. repeat qcase; try lia; try lra; case_match; lia.
  - repeat qcase; repeat case_match; lia.
Qed.

Lemma round_even_Z z : round_even (inject_Z z) = z.
Proof.
  unfold round_even. rewrite Qfloor_Z. qcase; [done|]. exfalso. ring_simplify (inject_Z z - inject_Z z)%Q in n. by apply n.
Qed.

(** *** Rounding is monotone and keeps the doubles *)

Lemma ulp_pos q : (0 < ulp q)%Q.
Proof. apply two_pow_pos. Qed.

Lemma Q_log2_mono q p : (0 < q)%Q → (q <= p)%Q → (Q_log2 q ≤ Q_log2 p)%Z.
Proof.
  intros Hq Hle. destruct (Q_log2_spec q Hq) as [H1 _]. destruct (Q_log2_spec p ltac:(lra)) as [_ H2].
  apply Znot_gt_le. intros Hgt. pose proof (two_pow_mono (Q_log2 p + 1) (Q_log2 q) ltac:(lia)). lra.
Qed.

(** A multiple of the unit does not cross one. *)
Lemma rnd_pos_le q z : (q <= inject_Z z * ulp q)%Q → (rnd_pos q <= inject_Z z * ulp q)%Q.
Proof.
  intros Hle. pose proof (ulp_pos q). unfold rnd_pos. apply Qmult_le_compat_r; [|lra]. rewrite <-Zle_Qle.
  rewrite <-(round_even_Z z). apply round_even_mono. apply Qle_shift_div_r; lra.
Qed.

Lemma rnd_pos_ge q z : (inject_Z z * ulp q <= q)%Q → (inject_Z z * ulp q <= rnd_pos q)%Q.
Proof.
  intros Hle. pose proof (ulp_pos q). unfold rnd_pos. apply Qmult_le_compat_r; [|lra]. rewrite <-Zle_Qle.
  rewrite <-(round_even_Z z) at 1. apply round_even_mono. apply Qle_shift_div_l; lra.
Qed.

Lemma two_pow_split k e : (0 ≤ k)%Z → (inject_Z (2 ^ k) * 2 ^ (e - k) == 2 ^ e)%Q.
Proof. intros Hk. rewrite <-two_pow_Z, <-two_pow_plus by done. by replace (k + (e - k))%Z with e by lia. Qed.

Lemma rnd_pos_mono q p : (0 < q)%Q → (q <= p)%Q → (rnd_pos q <= rnd_pos p)%Q.
Proof.
  intros Hq Hle. pose proof (Q_log2_mono q p Hq Hle) as Hlog.
  destruct (Z.eq_dec (Z.max (Q_log2 q) (-1022)) (Z.max (Q_log2 p) (-1022))) as [He|Hne].
  - unfold rnd_pos, ulp. rewrite <-He. pose proof (two_pow_pos (Z.max (Q_log2 q) (-1022) - 52)) as Hu.
    apply Qmult_le_compat_r; [|lra]. rewrite <-Zle_Qle. apply round_even_mono.
    apply Qmult_le_compat_r; [done|]. apply Qlt_le_weak. by apply Qinv_lt_0_compat.
  - set (e := Z.max (Q_log2 q) (-1022)) in *. assert (Hp : (Q_log2 p = Z.max (Q_log2 p) (-1022))%Z) by lia.
    destruct (Q_log2_spec q Hq) as [_ H1]. destruct (Q_log2_spec p ltac:(lra)) as [H2 _].
    pose proof (two_pow_mono (Q_log2 q + 1) (e + 1) ltac:(lia)). pose proof (two_pow_mono (e + 1) (Q_log2 p) ltac:(lia)).
    assert (Hq1 : (inject_Z (2 ^ 53) * ulp q == 2 ^ (e + 1))%Q).
    { unfold ulp. fold e. replace (e - 52)%Z with (e + 1 - 53)%Z by lia. by apply two_pow_split. }
    assert (Hp1 : (inject_Z (2 ^ 52) * ulp p == 2 ^ Q_log2 p)%Q).
    { unfold ulp. rewrite <-Hp. by apply two_pow_split. }
    pose proof (rnd_pos_le q (2 ^ 53) ltac:(lra)). pose proof (rnd_pos_ge p (2 ^ 52) ltac:(lra)). lra.
Qed.

Lemma rnd_pos_nonneg q : (0 < q)%Q → (0 <= rnd_pos q)%Q.
Proof.
  intros Hq. pose proof (rnd_pos_ge q 0) as Hge. change (inject_Z 0) with 0%Q in Hge. rewrite Qmult_0_l in Hge. apply Hge. lra.
Qed.

Lemma rnd_mono q p : (q <= p)%Q → (rnd q <= rnd p)%Q.
Proof.
  intros Hle. unfold rnd. rewrite !Qred_correct.
  destruct (Qltb_spec 0 q) as [Hq|Hq].
  - destruct (Qltb_spec 0 p); [|lra]. by apply rnd_pos_mono.
  - destruct (Qltb_spec q 0) as [Hq0|Hq0]; destruct (Qltb_spec 0 p) as [Hp|Hp].
    + pose proof (rnd_pos_nonneg (- q) ltac:(lra)). pose proof (rnd_pos_nonneg p Hp). lra.
    + pose proof (rnd_pos_nonneg (- q) ltac:(lra)).
      destruct (Qltb_spec p 0) as [Hp0|Hp0]; [|lra]. pose proof (rnd_pos_mono (- p) (- q) ltac:(lra) ltac:(lra)). lra.
    + by apply rnd_pos_nonneg.
    + destruct (Qltb_spec p 0); lra.
Qed.

#[export] Instance rnd_proper : Proper (Qeq ==> eq) rnd.
Proof.
  intros q p He. assert (Heq : (rnd q == rnd p)%Q).
  { pose proof (rnd_mono q p ltac:(lra)). pose proof (rnd_mono p q ltac:(lra)). lra. }
  unfold rnd in *. rewrite !Qred_correct in Heq. by apply Qred_complete.
Qed.

Lemma rnd_0 q : (q == 0)%Q → rnd q = 0%Q.
Proof. intros ->. reflexivity. Qed.

Lemma rnd_nonneg q : (0 <= q)%Q → (0 <= rnd q)%Q.
Proof. intros Hq. apply rnd_mono in Hq. exact Hq. Qed.

Lemma rnd_opp q : (rnd (- q) == - rnd q)%Q.
Proof.
  unfold rnd. rewrite !Qred_correct. destruct (Qltb_spec 0 q), (Qltb_spec q 0), (Qltb_spec 0 (- q)), (Qltb_spec (- q) 0);
    try lra.
  pose proof (rnd_pos_mono q (- - q) ltac:(lra) ltac:(lra)). pose proof (rnd_pos_mono (- - q) q ltac:(lra) ltac:(lra)). lra.
Qed.

(** Safe integers are doubles. *)
Lemma rnd_Z z : (Z.abs z < 2 ^ 53)%Z → (rnd (inject_Z z) == inject_Z z)%Q.
Proof.
  assert (Hpos : ∀ z, (0 < z < 2 ^ 53)%Z → (rnd (inject_Z z) == inject_Z z)%Q).
  { clear z. intros z Hz. unfold rnd. rewrite Qred_correct. assert (Hq : (0 < inject_Z z)%Q) by (change 0%Q with (inject_Z 0); rewrite <-Zlt_Qlt; lia).
    destruct (Qltb_spec 0 (inject_Z z)); [|lra].
    assert (He : (0 ≤ Q_log2 (inject_Z z) ≤ 52)%Z).
    { destruct (Q_log2_spec (inject_Z z) Hq) as [H1 H2]. split; apply Znot_gt_le; intros Hgt.
      - pose proof (two_pow_mono (Q_log2 (inject_Z z) + 1) 0 ltac:(lia)) as Hm. change (2 ^ 0)%Q with 1%Q in Hm.
        assert (1 <= inject_Z z)%Q by (change 1%Q with (inject_Z 1); rewrite <-Zle_Qle; lia). lra.
      - pose proof (two_pow_mono 53 (Q_log2 (inject_Z z)) ltac:(lia)) as Hm. rewrite two_pow_Z in Hm by lia.
        assert (inject_Z z < inject_Z (2 ^ 53))%Q by (rewrite <-Zlt_Qlt; lia). lra. }
    set (k := (52 - Q_log2 (inject_Z z))%Z). assert (Hm : (inject_Z z == inject_Z (z * 2 ^ k) * ulp (inject_Z z))%Q).
    { unfold ulp. rewrite Z.max_l by lia. rewrite inject_Z_mult, <-two_pow_Z, <-Qmult_assoc, <-two_pow_plus by lia.
      replace (k + (Q_log2 (inject_Z z) - 52))%Z with 0%Z by lia. change (2 ^ 0)%Q with 1%Q. by rewrite Qmult_1_r. }
    pose proof (rnd_pos_le (inject_Z z) (z * 2 ^ k) ltac:(lra)). pose proof (rnd_pos_ge (inject_Z z) (z * 2 ^ k) ltac:(lra)). lra. }
  intros Hz. destruct (Z.lt_trichotomy z 0) as [Hn|[->|Hp]]; [|done|apply Hpos; lia].
  specialize (Hpos (- z)%Z ltac:(lia)). rewrite inject_Z_opp, rnd_opp in Hpos. lra.
Qed.

(** *** Overflow *)

Lemma overflow_fin q : (- FLOAT_LIMIT < rnd q < FLOAT_LIMIT)%Q → overflow q = Fin (rnd q).
Proof. intros [? ?]. unfold overflow. qcase; [lra|]. by qcase; [lra|]. Qed.

(** A non-negative result is finite or the positive infinity. *)
Lemma overflow_nonneg q : (0 <= q)%Q →
  (overflow q = Fin (rnd q) ∧ (0 <= rnd q < FLOAT_LIMIT)%Q) ∨ (overflow q = Inf false ∧ (FLOAT_LIMIT <= rnd q)%Q).
Proof.
  intros Hq%rnd_nonneg. pose proof FLOAT_LIMIT_pos. unfold overflow. qcase; [by right|].
  left. qcase; [lra|]. split; [done|lra].
Qed.

Lemma Qpow_ge_1 f n : (1 <= f)%Q → (1 <= f ^ Z.of_nat n)%Q.
Proof.
  intros Hf. induction n as [|n IH]; [done|].
  rewrite Nat2Z.inj_succ, <-Z.add_1_r, Qpower_plus by lra. simpl (f ^ 1)%Q. nra.
Qed.

(** ** Order

    [fle] is a total order on the numbers other than [NaN], and the operations
    are monotone in it. *)

Definition number (a : float) : Prop := is_nan a = false.

Lemma fle_refl a : number a → fle a a = true.
Proof.
  destruct a as [q|[]|]; try done. intros _. apply fle_true. lra.
Qed.

Lemma fle_trans a b c : fle a b = true → fle b c = true → fle a c = true.
Proof.
  destruct a as [x|[]|], b as [y|[]|], c as [z|[]|]; try done. rewrite !fle_true. lra.
Qed.

Lemma fle_overflow q p : (q <= p)%Q → fle (overflow q) (overflow p) = true.
Proof.
  intros Hle%rnd_mono. unfold overflow. pose proof FLOAT_LIMIT_pos. repeat qcase; try done; try lra. by apply fle_true.
Qed.

Lemma fle_Inf a : number a → fle a (Inf false) = true.
Proof. by destruct a as [|[]|]. Qed.

Lemma fle_fin_inv a b : (0 <= a)%Q → fle (Fin a) b = true → (∃ y, b = Fin y ∧ (a <= y)%Q) ∨ b = Inf false.
Proof. destruct b as [y|[]|]; try done; [|by right]. rewrite fle_true. left. by exists y. Qed.

Lemma fle_number a b : fle a b = true → number a ∧ number b.
Proof. by destruct a, b. Qed.

Lemma flt_fle a b c : flt a b = true → fle b c = true → flt a c = true.
Proof.
  destruct a as [x|[]|], b as [y|[]|], c as [z|[]|]; try done. rewrite fle_true. cbn [flt]. rewrite !Qltb_true. lra.
Qed.

Lemma Math_min_mono a b c : number c → fle a b = true → fle (Math_min a c) (Math_min b c) = true.
Proof.
  destruct a as [x|[]|], b as [y|[]|], c as [z|[]|]; try done; unfold Math_min; cbn [flt andb negb]; try (intros; by apply fle_refl);
    rewrite ?fle_true; repeat qcase; intros; try done; apply fle_true; lra.
Qed.

Lemma Math_min_le a b : number a → number b → fle (Math_min a b) a = true ∧ fle (Math_min a b) b = true.
Proof.
  destruct a as [x|[]|], b as [y|[]|]; try done; unfold Math_min; cbn [flt andb negb]; intros; split;
    repeat qcase; try done; apply fle_true; lra.
Qed.

Lemma Math_max_mono a b c : number c → fle a b = true → fle (Math_max c a) (Math_max c b) = true.
Proof.
  destruct a as [x|[]|], b as [y|[]|], c as [z|[]|]; try done; unfold Math_max; cbn [flt andb negb]; try (intros; by apply fle_refl);
    rewrite ?fle_true; repeat qcase; intros; try done; apply fle_true; lra.
Qed.

(** The product of two non-negative numbers, the first finite. *)
Lemma fmul_mono a b x y : (0 <= a <= b)%Q → (0 <= x <= y)%Q → fle (fmul (Fin a) (Fin x)) (fmul (Fin b) (Fin y)) = true.
Proof. intros [] []. apply fle_overflow. nra. Qed.

Lemma fadd_mono t a b : fle a b = true → fle (fadd (Fin t) a) (fadd (Fin t) b) = true.
Proof.
  destruct a as [x|[]|], b as [y|[]|]; try done; cbn [fadd].
  - rewrite fle_true. intros. apply fle_overflow. lra.
  - intros _. apply fle_Inf. unfold overflow. by repeat qcase.
  - intros _. unfold overflow. by repeat qcase.
Qed.

(** A power of a factor of at least one is at least one. *)
Lemma Math_pow_ge_1 f n : (1 <= f)%Q → fle (Fin 1) (Math_pow (Fin f) n) = true.
Proof.
  intros Hf. destruct n as [|n]; [done|]. unfold Math_pow. change (Fin 1) with (overflow 1). by apply fle_overflow, Qpow_ge_1.
Qed.

Lemma Math_min_fin x y : Math_min (Fin x) (Fin y) = Fin (if Qltb y x then y else x).
Proof. unfold Math_min, flt. by destruct (Qltb y x). Qed.

Lemma Math_max_fin x y : Math_max (Fin x) (Fin y) = Fin (if Qltb x y then y else x).
Proof. unfold Math_max, flt. by destruct (Qltb x y). Qed.

Lemma Math_min_inf x : Math_min (Inf false) (Fin x) = Fin x ∧ Math_min (Fin x) (Inf false) = Fin x.
Proof. done. Qed.

(** A quotient by something smaller is at least one. *)
Lemma fdiv_ge_1 a b : (0 < b <= a)%Q → fle (Fin 1) (fdiv (Fin a) (Fin b)) = true.
Proof.
  intros [Hb Hle]. cbn [fdiv]. destruct (Qeq_bool b 0) eqn:E; [apply Qeq_bool_iff in E; lra|].
  change (Fin 1) with (overflow 1). apply fle_overflow, Qle_shift_div_l; lra.
Qed.

(** ** Concrete roundings *)

Example rounds_a_third : rnd (1 # 3) = (6004799503160661 # 18014398509481984)%Q.
Proof. vm_compute. reflexivity. Qed.
Example rounds_ties_to_even : rnd (inject_Z (2 ^ 53 + 1)) = inject_Z (2 ^ 53) ∧ rnd (inject_Z (2 ^ 53 + 3)) = inject_Z (2 ^ 53 + 4).
Proof. vm_compute. done. Qed.
Example smallest_double : overflow (2 ^ (-1074)) = Fin (2 ^ (-1074)) ∧ overflow (2 ^ (-1075)) = Fin 0.
Proof. vm_compute. done. Qed.
Example largest_double : is_finite (overflow (inject_Z (2 ^ 1024 - 2 ^ 970 - 1))) = true ∧
  overflow (inject_Z (2 ^ 1024 - 2 ^ 970)) = Inf false.
Proof. vm_compute. done. Qed.
