(* ===== verification/Backoff.v ===== *)
(** * Backoff and retry: [src/pattern/BackoffPolicy.ts], [src/pattern/Retry.ts]

    The schedules a restart or a retry waits by.  Options arrive unchecked, so
    a delay, a factor or a count is a [float]; a draw of [random()] is an
    argument.  [retry] is a loop over the answers of its factory; it is run
    with fuel, and the theorems say how much is enough. *)

From S2P Require Import Prelude Float.

Definition MAX_TIMER_DELAY_MS : Q := 2147483647.
Definition DEFAULT_MAX_RETRY_DELAY_MS : Q := 60000.

(** A draw of [Math.random]: at least 0 and below 1. *)
Definition draw_ok (r : float) : Prop := ∃ x, r = Fin x ∧ (0 <= x)%Q ∧ (x < 1)%Q.

Module Backoff.

Inductive BackoffError : Type :=
| BadMinMs | BadMaxMs | BadStepMs | BadRandomFactor.

Definition applyJitter (base randomFactor random : float) : float :=
  if feqb randomFactor (Fin 0) then base
  else
    let sign := fsub (fmul random (Fin 2)) (Fin 1) in
    Math_max (Fin 0) (fmul base (fadd (Fin 1) (fmul sign randomFactor))).

Definition validateBaseOpts (minMs maxMs : float) : result BackoffError () :=
  _ ← throw_if (negb (is_finite minMs) || flt minMs (Fin 0)) BadMinMs;
  throw_if (negb (is_finite maxMs) || flt maxMs minMs) BadMaxMs.

Record ExponentialBackoffOptions := mkExponential {
  exp_minMs : float;
  exp_maxMs : float;
  exp_randomFactor : option float;
}.

Record LinearBackoffOptions := mkLinear {
  lin_minMs : float;
  lin_maxMs : float;
  lin_stepMs : float;
  lin_randomFactor : option float;
}.

(** A policy: the delay for a restart count and one draw. *)
Definition BackoffPolicy : Type := Z → float → float.

Definition DEFAULT_RANDOM_FACTOR : float := Fin (1 # 5).

Definition exponential_delayFor (o : ExponentialBackoffOptions) (randomFactor : float) : BackoffPolicy :=
  λ restartCount random,
    let attempt := Z.max 0 restartCount in
    let raw := if (attempt >=? 30)%Z then exp_maxMs o
               else fmul (exp_minMs o) (Math_pow (Fin 2) (Z.to_nat attempt)) in
    applyJitter (Math_min raw (exp_maxMs o)) randomFactor random.

Definition exponentialBackoff (o : ExponentialBackoffOptions) : result BackoffError BackoffPolicy :=
  _ ← validateBaseOpts (exp_minMs o) (exp_maxMs o);
  let randomFactor := default DEFAULT_RANDOM_FACTOR (exp_randomFactor o) in
  _ ← throw_if (flt randomFactor (Fin 0) || flt (Fin 1) randomFactor) BadRandomFactor;
  Ok (exponential_delayFor o randomFactor).

Definition linear_delayFor (o : LinearBackoffOptions) (randomFactor : float) : BackoffPolicy :=
  λ restartCount random,
    let attempt := Z.max 0 restartCount in
    let raw := fadd (lin_minMs o) (fmul (lin_stepMs o) (of_Z attempt)) in
    applyJitter (Math_min raw (lin_maxMs o)) randomFactor random.

Definition linearBackoff (o : LinearBackoffOptions) : result BackoffError BackoffPolicy :=
  _ ← validateBaseOpts (lin_minMs o) (lin_maxMs o);
  _ ← throw_if (flt (lin_stepMs o) (Fin 0)) BadStepMs;
  let randomFactor := default DEFAULT_RANDOM_FACTOR (lin_randomFactor o) in
  _ ← throw_if (flt randomFactor (Fin 0) || flt (Fin 1) randomFactor) BadRandomFactor;
  Ok (linear_delayFor o randomFactor).

(** *** The jitter *)

(** What a base is multiplied by, for a draw [x]. *)
Definition multiplier (x f : Q) : Q := rnd (1 + rnd (rnd (rnd (x * 2) + - (1)) * f)).

Lemma multiplier_fits x f : (0 <= x <= 1)%Q → (0 <= f <= 1)%Q →
  fadd (Fin 1) (fmul (fsub (fmul (Fin x) (Fin 2)) (Fin 1)) (Fin f)) = Fin (multiplier x f) ∧ (0 <= multiplier x f <= 2)%Q.
Proof.
  intros [Hx1 Hx2] [Hf1 Hf2]. assert (2 < FLOAT_LIMIT)%Q as Hl by done.
  assert (Hb : ∀ q, (-2 <= q <= 2)%Q → (-2 <= rnd q <= 2)%Q).
  { intros q [H1%rnd_mono H2%rnd_mono]. change (rnd (-2)) with (-2)%Q in H1. by change (rnd 2) with 2%Q in H2. }
  assert (H1 : (0 <= rnd (x * 2) <= 2)%Q) by (split; [apply rnd_nonneg; lra|apply Hb; lra]).
  assert (H2 : (-1 <= rnd (rnd (x * 2) + - (1)) <= 1)%Q).
  { split; [change (-1)%Q with (rnd (-1)) at 1|change 1%Q with (rnd 1) at 2]; apply rnd_mono; lra. }
  assert (H3 : (-1 <= rnd (rnd (rnd (x * 2) + - (1)) * f) <= 1)%Q).
  { split; [change (-1)%Q with (rnd (-1)) at 1|change 1%Q with (rnd 1) at 2]; apply rnd_mono; nra. }
  assert (H4 : (0 <= multiplier x f <= 2)%Q).
  { unfold multiplier. split; [apply rnd_nonneg; lra|apply Hb; lra]. }
  split; [|done]. unfold fsub. cbn [fmul fneg]. rewrite overflow_fin by lra. cbn [fadd]. rewrite overflow_fin by lra.
  cbn [fmul]. rewrite overflow_fin by lra. cbn [fadd]. unfold multiplier in *. by rewrite overflow_fin by lra.
Qed.

Lemma multiplier_mono x y f : (x <= y)%Q → (0 <= f)%Q → (multiplier x f <= multiplier y f)%Q.
Proof.
  intros Hx Hf. unfold multiplier. apply rnd_mono.
  assert (rnd (rnd (rnd (x * 2) + - (1)) * f) <= rnd (rnd (rnd (y * 2) + - (1)) * f))%Q; [|lra]. apply rnd_mono.
  assert (rnd (rnd (x * 2) + - (1)) <= rnd (rnd (y * 2) + - (1)))%Q; [|nra]. apply rnd_mono.
  assert (rnd (x * 2) <= rnd (y * 2))%Q; [|lra]. apply rnd_mono. lra.
Qed.

(** A larger base and a higher draw give no shorter delay: the draws 0 and 1
    bound the others. *)
Lemma jitter_mono a b f x y : (0 <= a <= b)%Q → (0 <= f <= 1)%Q → (0 <= x <= y)%Q → (y <= 1)%Q →
  fle (applyJitter (Fin a) (Fin f) (Fin x)) (applyJitter (Fin b) (Fin f) (Fin y)) = true.
Proof.
  intros Ha Hf Hx Hy. unfold applyJitter. destruct (feqb (Fin f) (Fin 0)); [apply fle_true; lra|].
  destruct (multiplier_fits x f) as [-> [Hx0 _]]; [lra|done|]. destruct (multiplier_fits y f) as [-> _]; [lra|done|].
  apply Math_max_mono; [done|]. apply fmul_mono; [lra|]. split; [done|]. apply multiplier_mono; lra.
Qed.

Lemma jitter_nonneg b f r : (0 <= b)%Q → (0 <= f <= 1)%Q → draw_ok r → fle (Fin 0) (applyJitter (Fin b) (Fin f) r) = true.
Proof.
  intros Hb Hf (x & -> & Hx1 & Hx2). unfold applyJitter. destruct (feqb (Fin f) (Fin 0)); [apply fle_true; lra|].
  destruct (multiplier_fits x f) as [-> [Hm _]]; [lra|done|].
  change (fle (Fin 0)) with (fle (Math_max (Fin 0) (Fin 0))). apply Math_max_mono; [done|]. change (Fin 0) with (overflow 0).
  apply fle_overflow. nra.
Qed.

(** The draws of [random] are among them. *)
Lemma jitter_bounds a b c f r : (0 <= a <= b)%Q → (b <= c)%Q → (0 <= f <= 1)%Q → draw_ok r →
  fle (applyJitter (Fin a) (Fin f) (Fin 0)) (applyJitter (Fin b) (Fin f) r) = true ∧
  fle (applyJitter (Fin b) (Fin f) r) (applyJitter (Fin c) (Fin f) (Fin 1)) = true.
Proof. intros Ha Hb Hf (x & -> & Hx1 & Hx2). split; apply jitter_mono; lra. Qed.

(** The lowest jitter of nothing is nothing. *)
Lemma jitter_zero b f x : (b == 0)%Q → (0 <= f <= 1)%Q → (0 <= x <= 1)%Q →
  flt (Fin 0) (applyJitter (Fin b) (Fin f) (Fin x)) = false.
Proof.
  intros Hb Hf Hx. unfold applyJitter. destruct (feqb (Fin f) (Fin 0)); [apply Qltb_false; lra|].
  destruct (multiplier_fits x f Hx Hf) as [-> _]. cbn [fmul].
  rewrite overflow_fin; rewrite rnd_0 by (rewrite Hb; apply Qmult_0_l); done.
Qed.

Lemma clamp_bounds raw lo hi :
  (lo <= hi)%Q → fle (Fin lo) raw = true → ∃ c, Math_min raw (Fin hi) = Fin c ∧ (lo <= c <= hi)%Q.
Proof.
  intros Hle Hraw. destruct raw as [q|[]|]; [|done|exists hi; split; [done|lra]|done]. apply fle_true in Hraw.
  rewrite Math_min_fin. qcase; eexists; (split; [done|]); lra.
Qed.

Lemma validateBaseOpts_Ok mn mx u :
  validateBaseOpts mn mx = Ok u → ∃ lo hi, mn = Fin lo ∧ mx = Fin hi ∧ (0 <= lo <= hi)%Q.
Proof.
  unfold validateBaseOpts. intros Hok. unbind. qguards.
  destruct mn as [lo| |]; [|done..]. destruct mx as [hi| |]; [|done..].
  exists lo, hi. qguards. split_and!; [done|done|lra|lra].
Qed.

(** The growing part of either schedule is at least [lo], a double. *)
Lemma exponential_raw lo n : (0 <= lo)%Q → (rnd lo == lo)%Q → (n < 30)%nat →
  fle (Fin lo) (fmul (Fin lo) (Math_pow (Fin 2) n)) = true.
Proof.
  intros Hlo Hd Hn. assert (Hp : ∃ p, Math_pow (Fin 2) n = Fin p ∧ (1 <= p)%Q).
  { assert (Hge : fle (Fin 1) (Math_pow (Fin 2) n) = true) by by apply Math_pow_ge_1.
    destruct (Math_pow (Fin 2) n) as [p|s|] eqn:Ep; [exists p; by apply fle_true in Hge| |done].
    exfalso. do 30 (destruct n as [|n]; [by vm_compute in Ep|]). lia. }
  destruct Hp as (p & -> & Hp). cbn [fmul].
  destruct (overflow_nonneg (lo * p)) as [[-> _]|[-> _]]; [nra| |by apply fle_Inf].
  apply fle_true. rewrite <-Hd at 1. apply rnd_mono. nra.
Qed.

Lemma linear_raw lo step n : (0 <= lo)%Q → (rnd lo == lo)%Q → (0 <= step)%Q → (0 ≤ n)%Z → is_finite (of_Z n) = true →
  fle (Fin lo) (fadd (Fin lo) (fmul (Fin step) (of_Z n))) = true.
Proof.
  intros Hlo Hd Hs Hn Hfin. assert (0 <= inject_Z n)%Q by (change 0%Q with (inject_Z 0); by rewrite <-Zle_Qle).
  unfold of_Z in *. destruct (overflow_nonneg (inject_Z n)) as [[E Hr]|[E _]]; [done| |by rewrite E in Hfin]. rewrite E. cbn [fmul].
  destruct (overflow_nonneg (step * rnd (inject_Z n))) as [[-> [Hy _]]|[-> _]]; [nra| |by apply fle_Inf].
  cbn [fadd]. destruct (overflow_nonneg (lo + rnd (step * rnd (inject_Z n)))) as [[-> _]|[-> _]]; [lra| |by apply fle_Inf].
  apply fle_true. rewrite <-Hd at 1. apply rnd_mono. lra.
Qed.

(** The delays of both policies: once the options are accepted, with a
    jitter fraction that is a number (and a finite step), every restart count
    and every draw give a delay between the lowest jitter of [minMs] and the
    highest one of [maxMs], as the arithmetic of doubles has them, so without
    jitter one within [[minMs, maxMs]]. *)
Theorem backoff_delay_bounds (exponential : bool) (mn mx step : float) (rf : option float) policy f (n : Z) r :
  (if exponential then exponentialBackoff (mkExponential mn mx rf)
   else linearBackoff (mkLinear mn mx step rf)) = Ok policy →
  default DEFAULT_RANDOM_FACTOR rf = Fin f → (exponential = true ∨ is_finite step = true) →
  is_finite (of_Z (Z.max 0 n)) = true → (∀ lo, mn = Fin lo → (rnd lo == lo)%Q) → draw_ok r →
  ∃ lo hi, mn = Fin lo ∧ mx = Fin hi ∧ (0 <= lo <= hi)%Q ∧
    fle (applyJitter mn (Fin f) (Fin 0)) (policy n r) = true ∧ fle (policy n r) (applyJitter mx (Fin f) (Fin 1)) = true.
Proof.
  intros Hok Hf Hstep Hn Hdbl Hr.
  assert (∃ lo hi, mn = Fin lo ∧ mx = Fin hi ∧ (0 <= lo <= hi)%Q ∧ (0 <= f <= 1)%Q ∧
    ∃ raw, policy n r = applyJitter (Math_min raw mx) (Fin f) r ∧ fle (Fin lo) raw = true)
    as (lo & hi & -> & -> & Hlo & Hf1 & raw & -> & Hraw).
  { assert (∀ z, 0 ≤ Z.max 0 z)%Z as Hmax by lia.
    assert (∀ g, flt g (Fin 0) || flt (Fin 1) g = false → g = Fin f → (0 <= f <= 1)%Q) as Hrange.
    { intros g Hg ->. qguards. lra. }
    destruct exponential; unfold exponentialBackoff, linearBackoff in Hok; simpl in Hok; unbind; subst;
      match goal with H : validateBaseOpts _ _ = _ |- _ => apply validateBaseOpts_Ok in H as (lo & hi & -> & -> & Hlo) end;
      exists lo, hi; (split_and!; [done|done|lra|lra|by eapply Hrange|by eapply Hrange|]); rewrite Hf.
    - unfold exponential_delayFor. eexists. split; [done|]. cbn [exp_minMs exp_maxMs].
      destruct (Z.geb_spec (Z.max 0 n) 30); [apply fle_true; lra|].
      apply exponential_raw; [lra|by apply Hdbl|lia].
    - unfold linear_delayFor. eexists. split; [done|]. cbn [lin_minMs lin_stepMs].
      destruct Hstep as [?|Hstep]; [done|]. destruct step as [s| |]; [|done..].
      cbn [lin_stepMs] in *. qguards. apply linear_raw; [lra|by apply Hdbl|lra|apply Hmax|done]. }
  exists lo, hi. split; [done|]. split; [done|]. split; [done|].
  destruct (clamp_bounds raw lo hi) as (c & -> & Hc); [lra|done|]. apply (jitter_bounds lo c hi); done || lra.
Qed.

Lemma backoff_delay_bounds_witness :
  ∃ policy, exponentialBackoff (mkExponential (Fin 100) (Fin 5000) None) = Ok policy ∧
    fle (policy 7%Z (Fin (1 # 2))) (applyJitter (Fin 5000) DEFAULT_RANDOM_FACTOR (Fin 1)) = true ∧
    applyJitter (Fin 5000) DEFAULT_RANDOM_FACTOR (Fin 1) = Fin 6000.
Proof.
  exists (exponential_delayFor (mkExponential (Fin 100) (Fin 5000) None) DEFAULT_RANDOM_FACTOR).
  assert (exponentialBackoff (mkExponential (Fin 100) (Fin 5000) None)
    = Ok (exponential_delayFor (mkExponential (Fin 100) (Fin 5000) None) DEFAULT_RANDOM_FACTOR)) as Hok by done.
  assert (draw_ok (Fin (1 # 2))) as Hr by (exists (1 # 2)%Q; split_and!; [done|done|done]).
  split; [exact Hok|]. split; [|vm_compute; reflexivity].
  destruct (backoff_delay_bounds true (Fin 100) (Fin 5000) (Fin 0) None _ (1 # 5) 7 (Fin (1 # 2))
    Hok eq_refl (or_introl eq_refl) eq_refl ltac:(intros lo [= <-]; reflexivity) Hr) as (lo & hi & _ & _ & _ & _ & Hle).
  exact Hle.
Defined.

(** The range tests of the two constructors are not validity tests: [NaN]
    passes them, and an infinite step too. *)
Lemma backoff_admits_nan lo hi n r :
  (0 <= lo <= hi)%Q →
  (∃ p, exponentialBackoff (mkExponential (Fin lo) (Fin hi) (Some NotANumber)) = Ok p ∧ p n r = NotANumber) ∧
  (∃ p, linearBackoff (mkLinear (Fin lo) (Fin hi) NotANumber None) = Ok p ∧ p n r = NotANumber) ∧
  (∃ p, linearBackoff (mkLinear (Fin lo) (Fin hi) (Inf false) None) = Ok p ∧ p 0%Z r = NotANumber).
Proof.
  intros [Hlo Hhi].
  assert (validateBaseOpts (Fin lo) (Fin hi) = Ok ()) as Hv.
  { unfold validateBaseOpts. cbn [is_finite negb orb flt].
    destruct (Qltb_spec lo 0); [lra|]. cbn. by destruct (Qltb_spec hi lo); [lra|]. }
  unfold exponentialBackoff, linearBackoff. simpl. rewrite Hv. split_and!; eexists; (split; [reflexivity|]).
  - unfold exponential_delayFor, applyJitter. simpl.
    assert (∀ raw, Math_max (Fin 0) (fmul raw (fadd (Fin 1) (fmul (fsub (fmul r (Fin 2)) (Fin 1)) NotANumber)))
      = NotANumber) as Hnan; [|apply Hnan].
    intros raw. destruct (fsub _ _), raw; done.
  - unfold linear_delayFor. simpl. by destruct (of_Z (Z.max 0 n)).
  - unfold linear_delayFor. done.
Qed.

End Backoff.

Module Retry.

Section retry.
Context {T E : Type}.

(** What one call of the factory settles to. *)
Inductive Answer : Type :=
| Resolves (value : T)
| Rejects (err : E).

Record RetryOptions := mkRetry {
  attempts : float;
  delayMs : option float;
  factor : option float;
  maxDelayMs : option float;
  randomFactor : option float;
  shouldRetry : option (E → nat → bool);
}.

Inductive Refusal : Type :=
| RefusedAttempts | RefusedRandomFactor | RefusedDelayMs | RefusedFactor | RefusedMaxDelayMs.

(** How [retry] settles.  [Threw None] is the rethrow of an [undefined]
    [lastError]; [Waiting] is a run that was not followed to its end. *)
Inductive Outcome : Type :=
| Returned (value : T)
| Threw (err : option E)
| Waiting.

(** What a run does to the outside: calls of the factory, the waits handed to
    [sleep], and the errors shown to [onAttempt]. *)
Record Run := mkRun {
  calls : nat;
  sleeps : list float;
  attempted : list (E * nat);
}.

Definition refuse_if (bad : bool) (r : Refusal) : result Refusal () := throw_if bad r.

(** The five guards, in their order. *)
Definition check (o : RetryOptions) : result Refusal () :=
  let max := attempts o in
  let base := default (Fin 0) (delayMs o) in
  let factor := default (Fin 1) (factor o) in
  let maxDelay := default (Fin DEFAULT_MAX_RETRY_DELAY_MS) (maxDelayMs o) in
  let randomFactor := default (Fin 0) (randomFactor o) in
  _ ← refuse_if (is_nan max || flt max (Fin 1)) RefusedAttempts;
  _ ← refuse_if (negb (is_finite randomFactor) || flt randomFactor (Fin 0) || flt (Fin 1) randomFactor)
        RefusedRandomFactor;
  _ ← refuse_if (negb (is_finite base) || flt base (Fin 0)) RefusedDelayMs;
  _ ← refuse_if (negb (is_finite factor) || fle factor (Fin 0)) RefusedFactor;
  refuse_if (is_nan maxDelay || flt maxDelay (Fin 0)) RefusedMaxDelayMs.

(** The wait after the failed attempt number [attempt]. *)
Definition delay_after (o : RetryOptions) (attempt : nat) (random : float) : float :=
  let base := default (Fin 0) (delayMs o) in
  let factor := default (Fin 1) (factor o) in
  let maxDelay := default (Fin DEFAULT_MAX_RETRY_DELAY_MS) (maxDelayMs o) in
  let randomFactor := default (Fin 0) (randomFactor o) in
  let capped := Math_min (Math_min (fmul base (Math_pow factor (attempt - 1))) maxDelay) (Fin MAX_TIMER_DELAY_MS) in
  Math_min (Backoff.applyJitter capped randomFactor random) (Fin MAX_TIMER_DELAY_MS).

Definition retries (o : RetryOptions) (err : E) (attempt : nat) : bool :=
  match shouldRetry o with Some f => f err attempt | None => true end.

(** The [for] loop.  [answers] and [random] give what each attempt meets. *)
Fixpoint retry_loop (fuel : nat) (o : RetryOptions) (answers : nat → Answer) (random : nat → float)
    (attempt : nat) (lastError : option E) (run : Run) : Outcome * Run :=
  match fuel with
  | O => (Waiting, run)
  | S fuel =>
      if fle (of_Z (Z.of_nat attempt)) (attempts o) then
        match answers attempt with
        | Resolves v => (Returned v, mkRun (calls run + 1) (sleeps run) (attempted run))
        | Rejects err =>
            let run := mkRun (calls run + 1) (sleeps run) (attempted run ++ [(err, attempt)]) in
            if fle (attempts o) (of_Z (Z.of_nat attempt))
               || negb (retries o err attempt)
            then (Threw (Some err), run)
            else
              let delay := delay_after o attempt (random attempt) in
              let run := if flt (Fin 0) delay
                         then mkRun (calls run) (sleeps run ++ [delay]) (attempted run) else run in
              retry_loop fuel o answers random (attempt + 1) (Some err) run
        end
      else (Threw lastError, run)
  end.

Definition retry (fuel : nat) (o : RetryOptions) (answers : nat → Answer) (random : nat → float)
    : result Refusal (Outcome * Run) :=
  _ ← check o;
  Ok (retry_loop fuel o answers random 1 None (mkRun 0 [] [])).

End retry.
Arguments Answer : clear implicits.
Arguments RetryOptions : clear implicits.
Arguments Outcome : clear implicits.
Arguments Run : clear implicits.

Section theorems.
Context {T E : Type}.
Implicit Types (o : RetryOptions E) (answers : nat → Answer T E).

Lemma check_Ok o u :
  check o = Ok u → ∃ base fac rf md,
    default (Fin 0) (delayMs o) = Fin base ∧ default (Fin 1) (factor o) = Fin fac ∧
    default (Fin 0) (randomFactor o) = Fin rf ∧
    default (Fin DEFAULT_MAX_RETRY_DELAY_MS) (maxDelayMs o) = md ∧
    (0 <= base)%Q ∧ (0 < fac)%Q ∧ (0 <= rf <= 1)%Q ∧ is_nan md = false ∧ flt md (Fin 0) = false ∧
    is_nan (attempts o) = false ∧ flt (attempts o) (Fin 1) = false.
Proof.
  unfold check, refuse_if. intros Hok. unbind. qguards.
  destruct (default (Fin 0) (delayMs o)) as [base| |]; [|done..].
  destruct (default (Fin 1) (factor o)) as [fac| |]; [|done..].
  destruct (default (Fin 0) (randomFactor o)) as [rf| |]; [|done..].
  exists base, fac, rf, (default (Fin DEFAULT_MAX_RETRY_DELAY_MS) (maxDelayMs o)). qguards.
  split_and!; [done..|lra|lra|lra|lra|done|done|done|done].
Qed.

(** What a wait is before its jitter. *)
Definition capped (base fac : Q) (md : float) (n : nat) : float :=
  Math_min (Math_min (fmul (Fin base) (Math_pow (Fin fac) n)) md) (Fin MAX_TIMER_DELAY_MS).

(** It is within the ceiling and the timer's range, or [NaN] where the power
    overflows over a base of zero. *)
Lemma capped_bounds base fac md n : (0 <= base)%Q → (0 < fac)%Q → is_nan md = false → flt md (Fin 0) = false →
  (base == 0)%Q ∧ capped base fac md n = NotANumber ∨
  ∃ c, capped base fac md n = Fin c ∧ (0 <= c <= MAX_TIMER_DELAY_MS)%Q ∧ (∀ m, md = Fin m → (c <= m)%Q).
Proof.
  intros Hb Hf Hnan Hmd. assert (0 < MAX_TIMER_DELAY_MS)%Q as HM by reflexivity. unfold capped.
  assert (Hraw : (base == 0)%Q ∧ fmul (Fin base) (Math_pow (Fin fac) n) = NotANumber ∨
    fle (Fin 0) (fmul (Fin base) (Math_pow (Fin fac) n)) = true).
  { assert (Hp : (∃ p, Math_pow (Fin fac) n = Fin p ∧ (0 <= p)%Q) ∨ Math_pow (Fin fac) n = Inf false).
    { destruct n as [|n]; [by left; exists 1%Q|]. pose proof (Qpower_0_lt fac (Z.of_nat (S n)) Hf). unfold Math_pow.
      destruct (overflow_nonneg (fac ^ Z.of_nat (S n))) as [[-> [? _]]|[-> _]]; [lra| |by right]. left. by eexists. }
    destruct Hp as [(p & -> & Hp)| ->].
    - right. cbn [fmul]. change (Fin 0) with (overflow 0). apply fle_overflow. nra.
    - cbn [fmul]. unfold inf_times. qcase; [lra|]. qcase; [left; split; [lra|done]|by right]. }
  destruct Hraw as [[Hz ->]|Hraw]; [left; split; [done|by destruct md]|right].
  destruct (fmul _ _) as [q|[]|]; [apply fle_true in Hraw|done| |done]; (destruct md as [m|[]|]; [qguards|done| |done]);
    unfold Math_min; cbn [flt andb negb]; repeat qcase; eexists; (split; [done|]); (split; [lra|]); intros ? [= <-]; lra.
Qed.

(** A factor of at least one never makes a wait shorter than the first. *)
Lemma capped_first base fac md n : (0 < base)%Q → (1 <= fac)%Q → is_nan md = false → flt md (Fin 0) = false →
  fle (capped base fac md 0) (capped base fac md n) = true.
Proof.
  intros Hb Hf Hnan Hmd. unfold capped. do 2 (apply Math_min_mono; [done|]).
  pose proof (Math_pow_ge_1 fac n Hf) as Hp. change (Math_pow (Fin fac) 0) with (Fin 1).
  destruct (Math_pow (Fin fac) n) as [p|[]|]; [apply fle_true in Hp|done| |done].
  - apply fmul_mono; lra.
  - cbn [fmul]. unfold inf_times. qcase; [lra|]. qcase; [lra|]. apply fle_Inf.
    destruct (overflow_nonneg (base * 1)) as [[-> _]|[-> _]]; [lra|done..].
Qed.

(** Whether a failed attempt is waited after at all: the first wait, at the
    lowest draw, is not nothing, and the later ones do not shrink. *)
Definition waits (o : RetryOptions E) : bool :=
  fle (Fin 1) (default (Fin 1) (factor o)) && flt (Fin 0) (delay_after o 1 (Fin 0)).

(** A wait is positive, the host timer can take it, and it is within the
    highest jitter of the ceiling. *)
Definition good_sleep (o : RetryOptions E) (d : float) : Prop :=
  ∃ q, d = Fin q ∧ (0 < q <= MAX_TIMER_DELAY_MS)%Q ∧
    ∀ m, default (Fin DEFAULT_MAX_RETRY_DELAY_MS) (maxDelayMs o) = Fin m →
      fle d (Backoff.applyJitter (Fin m) (default (Fin 0) (randomFactor o)) (Fin 1)) = true.

Lemma delay_spec o u n r :
  check o = Ok u → draw_ok r →
  (flt (Fin 0) (delay_after o n r) = true → good_sleep o (delay_after o n r)) ∧
  (waits o = true → flt (Fin 0) (delay_after o n r) = true).
Proof.
  intros (base & fac & rf & md & Hbase & Hfac & Hrf & Hmd & Hb & Hf & Hr & Hnan & Hpos & _)%check_Ok Hdraw.
  unfold waits, good_sleep, delay_after. rewrite Hbase, Hfac, Hrf, Hmd.
  assert (HM : number (Fin MAX_TIMER_DELAY_MS)) by done.
  fold (capped base fac md (n - 1)). change (1 - 1)%nat with 0%nat. fold (capped base fac md 0).
  split.
  - intros H0. destruct (capped_bounds base fac md (n - 1)) as [[_ Hc]|(c & Hc & Hc0 & Hcm)]; [done..| |].
    + exfalso. rewrite Hc in H0. unfold Backoff.applyJitter in H0. by destruct (feqb _ _).
    + rewrite Hc in *. pose proof (Backoff.jitter_nonneg c rf r ltac:(lra) Hr Hdraw) as Hj.
      destruct (fle_fin_inv 0 _ ltac:(lra) Hj) as [(d & Hd & Hd0)|Hd]; rewrite Hd in *.
      * rewrite Math_min_fin in *. exists (if Qltb MAX_TIMER_DELAY_MS d then MAX_TIMER_DELAY_MS else d). split; [done|].
        cbn [flt] in H0. apply Qltb_true in H0. split; [split; [done|qcase; lra]|]. intros m Hm.
        destruct (Backoff.jitter_bounds 0 c m rf r) as [_ Hup]; [lra|by apply Hcm|done|done|]. rewrite Hd in Hup.
        eapply fle_trans; [|exact Hup]. apply fle_true. qcase; lra.
      * change (Math_min (Inf false) (Fin MAX_TIMER_DELAY_MS)) with (Fin MAX_TIMER_DELAY_MS). exists MAX_TIMER_DELAY_MS.
        split; [done|]. split; [done|]. intros m Hm.
        destruct (Backoff.jitter_bounds 0 c m rf r) as [_ Hup]; [lra|by apply Hcm|done|done|]. rewrite Hd in Hup.
        eapply fle_trans; [|exact Hup]. done.
  - intros [H1 H0]%andb_prop. apply fle_true in H1. destruct (Qlt_le_dec 0 base) as [Hb'|Hb'].
    + pose proof (capped_first base fac md (n - 1) Hb' H1 Hnan Hpos) as Hle.
      destruct (capped_bounds base fac md 0) as [[? _]|(c0 & Hc & Hc0 & _)]; [done..|lra|].
      destruct (capped_bounds base fac md (n - 1)) as [[? _]|(c & Hc' & _ & _)]; [done..|lra|].
      rewrite Hc, Hc' in *. apply fle_true in Hle. eapply flt_fle; [exact H0|]. apply Math_min_mono; [done|].
      apply (Backoff.jitter_bounds c0 c c rf r); lra || done.
    + exfalso. destruct (capped_bounds base fac md 0) as [[_ Hc]|(c & Hc & Hc0 & _)]; [done..| |]; rewrite Hc in H0.
      * unfold Backoff.applyJitter in H0. by destruct (feqb _ _).
      * assert (Hz : (c == 0)%Q).
        { unfold capped in Hc. change (Math_pow (Fin fac) 0) with (Fin 1) in Hc.
          assert (Hp : fmul (Fin base) (Fin 1) = Fin 0).
          { cbn [fmul]. rewrite overflow_fin; rewrite rnd_0 by lra; done. }
          rewrite Hp in Hc. destruct (Math_min_le (Fin 0) md ltac:(done) Hnan) as [Hl _].
          destruct (Math_min_le (Math_min (Fin 0) md) (Fin MAX_TIMER_DELAY_MS)) as [Hl' _]; [by destruct md as [|[]|]; unfold Math_min; cbn [flt andb negb]; repeat qcase|done|].
          pose proof (fle_trans _ _ _ Hl' Hl) as Hl2. rewrite Hc in Hl2. apply fle_true in Hl2. lra. }
        pose proof (Backoff.jitter_zero c rf 0 Hz Hr ltac:(lra)) as Hj.
        destruct (Backoff.applyJitter (Fin c) (Fin rf) (Fin 0)) as [d|[]|]; try done.
        rewrite Math_min_fin in H0. cbn [flt] in *. apply Qltb_true in H0. apply Qltb_false in Hj.
        destruct (Qltb_spec MAX_TIMER_DELAY_MS d); [|lra]. assert (0 < MAX_TIMER_DELAY_MS)%Q by done. lra.
Qed.

(** The errors [onAttempt] is told of by the first [n] attempts. *)
Definition errors answers (n : nat) : list (E * nat) :=
  omap (λ i, match answers i with Rejects e => Some (e, i) | Resolves _ => None end) (seq 1 n).

Lemma errors_snoc answers n :
  errors answers (S n) = errors answers n ++
    match answers (S n) with Rejects e => [(e, S n)] | Resolves _ => [] end.
Proof.
  unfold errors. rewrite seq_S, omap_app. simpl. f_equal. by destruct (answers (S n)).
Qed.

(** What holds between two rounds, after [k] failed attempts. *)
Definition pending o answers (k : nat) (lastError : option E) (run : Run E) : Prop :=
  calls run = k ∧ attempted run = errors answers k ∧
  (∀ i, (1 ≤ i ≤ k)%nat → ∃ e, answers i = Rejects e ∧ retries o e i = true) ∧
  (0 < k → ∃ e, lastError = Some e ∧ answers k = Rejects e)%nat ∧
  Forall (good_sleep o) (sleeps run) ∧ (length (sleeps run) ≤ k)%nat ∧
  (waits o = true → length (sleeps run) = k).

(** How a run may have ended after [n] calls. *)
Definition settles_at o answers (n : nat) (out : Outcome T E) : Prop :=
  match out with
  | Returned v => (0 < n)%nat ∧ answers n = Resolves v
  | Threw err => ∃ e, err = Some e ∧ (0 < n)%nat ∧ answers n = Rejects e ∧
      (retries o e n = false ∨ fle (attempts o) (of_Z (Z.of_nat n)) = true ∨
       fle (of_Z (Z.of_nat (n + 1))) (attempts o) = false)
  | Waiting => True
  end.

Definition contract o answers (out : Outcome T E) (run : Run E) : Prop :=
  attempted run = errors answers (calls run) ∧ Forall (good_sleep o) (sleeps run) ∧
  (∀ i, (1 ≤ i < calls run)%nat → ∃ e, answers i = Rejects e ∧ retries o e i = true) ∧
  (length (sleeps run) ≤ calls run)%nat ∧
  (waits o = true → (calls run ≤ length (sleeps run) + 1)%nat) ∧
  settles_at o answers (calls run) out.

Lemma pending_next o u answers (random : nat → float) k last run e :
  check o = Ok u → draw_ok (random (S k)) → pending o answers k last run →
  answers (S k) = Rejects e → retries o e (S k) = true →
  let run1 := mkRun (calls run + 1) (sleeps run) (attempted run ++ [(e, S k)]) in
  let delay := delay_after o (S k) (random (S k)) in
  pending o answers (S k) (Some e)
    (if flt (Fin 0) delay then mkRun (calls run1) (sleeps run1 ++ [delay]) (attempted run1) else run1).
Proof.
  intros Hok Hdraw (Hc & Ha & Hi & _ & Hg & Hl & Hw) Hans Hret. cbv zeta.
  destruct (delay_spec o u (S k) (random (S k)) Hok Hdraw) as [Hgood Hwait].
  assert (∀ i, (1 ≤ i ≤ S k)%nat → ∃ e, answers i = Rejects e ∧ retries o e i = true) as Hi'.
  { intros i Hik. destruct (decide (i = S k)) as [->|]; [by exists e|]. apply Hi. lia. }
  unfold pending. rewrite errors_snoc, Hans.
  destruct (flt _ _); cbn [calls attempted sleeps]; rewrite ?length_app; simpl.
  - split_and!; [lia|by rewrite Ha|done|by exists e|by apply Forall_app; auto|lia|].
    intros ?. rewrite Hw by done. lia.
  - split_and!; [lia|by rewrite Ha|done|by exists e|done|lia|]. intros Hw'. by specialize (Hwait Hw').
Qed.

Lemma retry_loop_contract fuel o u answers (random : nat → float) k last run :
  check o = Ok u → (∀ i, draw_ok (random i)) → pending o answers k last run →
  (k = 0 → fle (of_Z 1) (attempts o) = true)%nat →
  contract o answers (retry_loop fuel o answers random (S k) last run).1
                     (retry_loop fuel o answers random (S k) last run).2.
Proof.
  intros Hok Hdraw. revert k last run.
  induction fuel as [|fuel IH]; intros k last run Hp Hk0; cbn [retry_loop];
    pose proof Hp as (Hc & Ha & Hi & Hlast & Hg & Hl & Hw).
  - unfold contract. cbn [fst snd calls attempted sleeps]. rewrite Hc. split_and!; [done|done| |done| |done].
    + intros i ?. apply Hi. lia.
    + intros ?. rewrite Hw by done. lia.
  - destruct (fle (of_Z (Z.of_nat (S k))) (attempts o)) eqn:Emax; cycle 1.
    { destruct k as [|k]; [change (fle (of_Z 1) (attempts o) = false) in Emax; by rewrite Hk0 in Emax|]. unfold contract. cbn [fst snd]. rewrite Hc.
      split_and!; [done|done| |done| |].
      - intros i ?. apply Hi. lia.
      - intros ?. rewrite Hw by done. lia.
      - destruct Hlast as (e & -> & Hans); [lia|]. exists e. split_and!; [done|lia|done|].
        right; right. by replace (S k + 1)%nat with (S (S k)) by lia. }
    destruct (answers (S k)) as [v|e] eqn:Eans.
    { unfold contract. cbn [fst snd calls attempted sleeps]. rewrite Hc. replace (k + 1)%nat with (S k) by lia.
      rewrite errors_snoc, Eans, app_nil_r. split_and!; [done|done| |lia| |split; [lia|done]].
      - intros i ?. apply Hi. lia.
      - intros ?. rewrite Hw by done. lia. }
    destruct (_ || _) eqn:Estop.
    { unfold contract. cbn [fst snd calls attempted sleeps]. rewrite Hc. replace (k + 1)%nat with (S k) by lia.
      rewrite errors_snoc, Eans, Ha. split_and!; [done|done| |lia| |].
      - intros i ?. apply Hi. lia.
      - intros ?. rewrite Hw by done. lia.
      - exists e. split_and!; [done|lia|done|].
        apply orb_prop in Estop as [?|?%negb_true_iff]; [by right; left|by left]. }
    apply orb_false_iff in Estop as [_ Hret%negb_false_iff].
    replace (S k + 1)%nat with (S (S k)) by lia. apply IH; [|done].
    by apply (pending_next o u answers random k last run e).
Qed.

Lemma retry_loop_settles fuel o answers (random : nat → float) (N k : nat) last run :
  fle (attempts o) (of_Z (Z.of_nat N)) = true → (k < N)%nat → (N ≤ fuel + k)%nat →
  (retry_loop fuel o answers random (S k) last run).1 ≠ Waiting.
Proof.
  intros HN. revert k last run.
  induction fuel as [|fuel IH]; intros k last run Hk Hf; [lia|]. cbn [retry_loop].
  destruct (fle (of_Z (Z.of_nat (S k))) (attempts o)); [|done].
  destruct (answers (S k)) as [v|e]; [done|]. destruct (_ || _) eqn:Estop; [done|].
  replace (S k + 1)%nat with (S (S k)) by lia. apply IH; [|lia].
  destruct (decide (S k = N)) as [<-|]; [|lia].
  apply orb_false_iff in Estop as [Hm _]. congruence.
Qed.

Lemma first_attempt (m : float) :
  is_nan m = false → flt m (Fin 1) = false → fle (of_Z 1) m = true.
Proof.
  intros Hnan Hm. assert (of_Z 1 = Fin 1) as -> by reflexivity.
  destruct m as [q|[]|]; [|done| |done]; [apply fle_true; by qguards|done].
Qed.


End theorems.

(** Three attempts a second and then two apart, the third of which answers. *)
Definition retry_example : RetryOptions string :=
  mkRetry (Fin 5) (Some (Fin 1000)) (Some (Fin 2)) None None None.

Definition answers_example (i : nat) : Answer Z string :=
  if (i <? 3)%nat then Rejects "down" else Resolves 42%Z.


(** A factor of a half: the power of the thousand and seventy-sixth delay is
    nothing, and so is the delay.  The same with a factor that gets there after
    six: the attempts that follow come without a pause. *)
Example shrinking_delay_is_not_waited :
  let o f := mkRetry (E := string) (Fin 5000) (Some (Fin 1000)) (Some (Fin f)) None None None in
  let answers i := if (i <? 20)%nat then Rejects "down" else Resolves 42%Z in
  check (o (1 # 2)%Q) = Ok () ∧ flt (Fin 0) (delay_after (o (1 # 2)%Q) 1075 (Fin 0)) = true ∧
  flt (Fin 0) (delay_after (o (1 # 2)%Q) 1076 (Fin 0)) = false ∧
  check (o (1 # 2 ^ 200)%Q) = Ok () ∧
  ∃ run, retry 30 (o (1 # 2 ^ 200)%Q) answers (λ _, Fin 0) = Ok (Returned 42%Z, run) ∧
    calls run = 20%nat ∧ length (sleeps run) = 6%nat.
Proof. vm_compute. split_and!; try reflexivity. eexists. split_and!; reflexivity. Qed.

End Retry.
