(* ===== verification/CircuitBreaker.v ===== *)
(** * The circuit breaker of [src/pattern/CircuitBreaker.ts]

    A call has two halves: it is admitted or refused when it is made, and it
    settles later, so several admitted calls may be in flight at once and may
    settle in any order, in whatever state the breaker has reached by then.
    [start] and [settle] are the halves; [step] interleaves them with the
    operator's [setState].  The clock's reading and the draw of [random()] are
    arguments of the operations that read them. *)

From S2P Require Import Prelude Float Backoff.

Module CircuitBreaker.

Inductive CircuitState : Type := closed | open | half_open.

#[export] Instance CircuitState_eq_dec : EqDecision CircuitState.
Proof. solve_decision. Defined.

Definition DEFAULT_CIRCUIT_BREAKER_MAX_RESET_TIMEOUT_MS : float := Fin 60000.
Definition DEFAULT_CIRCUIT_BREAKER_BACKOFF_FACTOR : float := Fin 1.
Definition DEFAULT_CIRCUIT_BREAKER_RANDOM_FACTOR : float := Fin 0.

(** An [Error] with its [name]; [payload] is the rest of it. *)
Record JsError := mkError { error_name : string; payload : Z }.

Record CircuitBreakerOptions := mkOptions {
  maxFailures : float;
  resetTimeoutMs : float;
  isFailure : option (JsError → bool);
  maxResetTimeoutMs : option float;
  backoffFactor : option float;
  randomFactor : option float;
  ignoredErrorNames : option (list string);
}.

Inductive OptionsError : Type :=
| BadMaxFailures | BadResetTimeoutMs | BadMaxResetTimeoutMs | BadRandomFactor | BadBackoffFactor
| BadIgnoredErrorName (index : nat) | CeilingBelowBase.

Definition is_integer (x : float) : bool :=
  match x with Fin q => Z.eqb (Zpos (Qden (Qred q))) 1 | _ => false end.

(** [CircuitBreakerOptionsValidator.rules]; both required fields are set. *)
Definition rules (o : CircuitBreakerOptions) : result OptionsError () :=
  _ ← throw_if (negb (is_integer (maxFailures o)) || flt (maxFailures o) (Fin 1)) BadMaxFailures;
  _ ← throw_if (negb (is_finite (resetTimeoutMs o)) || flt (resetTimeoutMs o) (Fin 0)) BadResetTimeoutMs;
  _ ← throw_if (match maxResetTimeoutMs o with
                | Some v => negb (is_finite v) || fle v (Fin 0) | None => false end) BadMaxResetTimeoutMs;
  _ ← throw_if (match randomFactor o with
                | Some v => negb (is_finite v) || flt v (Fin 0) || flt (Fin 1) v | None => false end) BadRandomFactor;
  _ ← throw_if (match backoffFactor o with
                | Some v => negb (is_finite v) || flt v (Fin 1) | None => false end) BadBackoffFactor;
  _ ← match ignoredErrorNames o with
      | Some names => match list_find (λ n, n = ""%string) names with
                      | Some (i, _) => Err (BadIgnoredErrorName i) | None => Ok () end
      | None => Ok () end;
  throw_if (flt (default DEFAULT_CIRCUIT_BREAKER_MAX_RESET_TIMEOUT_MS (maxResetTimeoutMs o)) (resetTimeoutMs o))
    CeilingBelowBase.

(** The breaker; [notified] is what its listeners were told, in order. *)
Record CircuitBreaker := mkBreaker {
  options : CircuitBreakerOptions;
  state : CircuitState;
  failureCount : Z;
  nextProbeAt : float;
  consecutiveOpens : nat;
  listeners : list nat;
  notified : list (nat * CircuitState);
}.

Definition construct (o : CircuitBreakerOptions) : result OptionsError CircuitBreaker :=
  _ ← rules o;
  Ok (mkBreaker o closed 0 (Fin 0) 0 [] []).

Definition applyJitter := Backoff.applyJitter.

Definition reopenDelayMs (random : float) (b : CircuitBreaker) : float :=
  let o := options b in
  let factor := default DEFAULT_CIRCUIT_BREAKER_BACKOFF_FACTOR (backoffFactor o) in
  let ceiling := default DEFAULT_CIRCUIT_BREAKER_MAX_RESET_TIMEOUT_MS (maxResetTimeoutMs o) in
  let randomFactor := default DEFAULT_CIRCUIT_BREAKER_RANDOM_FACTOR (randomFactor o) in
  let base := resetTimeoutMs o in
  let maxUsefulGrowth := if flt (Fin 0) base then fdiv ceiling base else Fin 1 in
  let growth := Math_min (Math_pow factor (consecutiveOpens b - 1)) maxUsefulGrowth in
  let grown := Math_min (fmul base growth) ceiling in
  applyJitter grown randomFactor random.

Definition setState (next : CircuitState) (now random : float) (b : CircuitBreaker) : CircuitBreaker :=
  if bool_decide (state b = next) then b
  else
    let b := mkBreaker (options b) next 0 (nextProbeAt b)
               (if bool_decide (next = closed) then 0 else consecutiveOpens b)%nat (listeners b) (notified b) in
    let b := match next with
             | open =>
                 let b := mkBreaker (options b) (state b) (failureCount b) (nextProbeAt b)
                            (S (consecutiveOpens b)) (listeners b) (notified b) in
                 mkBreaker (options b) (state b) (failureCount b) (fadd now (reopenDelayMs random b))
                   (consecutiveOpens b) (listeners b) (notified b)
             | _ => b
             end in
    mkBreaker (options b) (state b) (failureCount b) (nextProbeAt b) (consecutiveOpens b) (listeners b)
      (notified b ++ ((λ l, (l, next)) <$> listeners b)).

Definition onSuccess (now random : float) (b : CircuitBreaker) : CircuitBreaker :=
  if bool_decide (state b = half_open) then setState closed now random b
  else mkBreaker (options b) (state b) 0 (nextProbeAt b) (consecutiveOpens b) (listeners b) (notified b).

Definition onFailure (now random : float) (b : CircuitBreaker) : CircuitBreaker :=
  if bool_decide (state b = half_open) then setState open now random b
  else
    let b := mkBreaker (options b) (state b) (failureCount b + 1) (nextProbeAt b) (consecutiveOpens b)
               (listeners b) (notified b) in
    if fle (maxFailures (options b)) (of_Z (failureCount b)) then setState open now random b else b.

(** [isFailure] of the call replaces the one of the breaker. *)
Definition countsAsFailure (error : JsError) (callIsFailure : option (JsError → bool)) (b : CircuitBreaker) : bool :=
  match ignoredErrorNames (options b) with
  | Some names =>
      if bool_decide (error_name error ∈ names) then false
      else match (match callIsFailure with Some f => Some f | None => isFailure (options b) end) with
           | Some f => f error | None => true end
  | None => match (match callIsFailure with Some f => Some f | None => isFailure (options b) end) with
            | Some f => f error | None => true end
  end.

Definition maybeTransitionToHalfOpen (now random : float) (b : CircuitBreaker) : CircuitBreaker :=
  if negb (bool_decide (state b = open)) then b
  else if fle (nextProbeAt b) now then setState half_open now random b else b.

(** What [call] does before it awaits: refuse with the remaining time, or call
    the factory. *)
Inductive Admission : Type :=
| Refused (remainingMs : float)
| Allowed.

Definition start (now random : float) (b : CircuitBreaker) : Admission * CircuitBreaker :=
  let b := maybeTransitionToHalfOpen now random b in
  if bool_decide (state b = open) then (Refused (Math_max (Fin 0) (fsub (nextProbeAt b) now)), b)
  else (Allowed, b).

(** What the awaited promise settles to; a call that outlives its timeout
    settles to the timeout error. *)
Inductive Settlement : Type :=
| Resolved
| Rejected (error : JsError) (callIsFailure : option (JsError → bool)).

Definition settle (s : Settlement) (now random : float) (b : CircuitBreaker) : CircuitBreaker :=
  match s with
  | Resolved => onSuccess now random b
  | Rejected error f => if countsAsFailure error f b then onFailure now random b else b
  end.

Definition onStateChange (listener : nat) (b : CircuitBreaker) : CircuitBreaker :=
  if bool_decide (listener ∈ listeners b) then b
  else mkBreaker (options b) (state b) (failureCount b) (nextProbeAt b) (consecutiveOpens b)
         (listeners b ++ [listener]) (notified b).

Definition unsubscribe (listener : nat) (b : CircuitBreaker) : CircuitBreaker :=
  mkBreaker (options b) (state b) (failureCount b) (nextProbeAt b) (consecutiveOpens b)
    (filter (.≠ listener) (listeners b)) (notified b).

(** ** One step of a breaker shared by many callers *)

Inductive Event : Type :=
| Call (now random : float)
| Settle (s : Settlement) (now random : float)
| SetState (next : CircuitState) (now random : float)
| Subscribe (listener : nat)
| Unsubscribe (listener : nat).

Definition step (b : CircuitBreaker) (e : Event) : CircuitBreaker :=
  match e with
  | Call now random => (start now random b).2
  | Settle s now random => settle s now random b
  | SetState next now random => setState next now random b
  | Subscribe l => onStateChange l b
  | Unsubscribe l => unsubscribe l b
  end.

Definition run (b : CircuitBreaker) (es : list Event) : CircuitBreaker := foldl step b es.

(** ** The reopen window *)

(** The options the validator accepts, with their numbers, the base a double. *)
Definition legal (o : CircuitBreakerOptions) (base ceiling rf : Q) : Prop :=
  rules o = Ok () ∧ resetTimeoutMs o = Fin base ∧
  default DEFAULT_CIRCUIT_BREAKER_MAX_RESET_TIMEOUT_MS (maxResetTimeoutMs o) = Fin ceiling ∧
  default DEFAULT_CIRCUIT_BREAKER_RANDOM_FACTOR (randomFactor o) = Fin rf ∧
  (rnd base == base)%Q.

Lemma rules_Ok o u :
  rules o = Ok u → ∃ base ceiling rf factor,
    resetTimeoutMs o = Fin base ∧
    default DEFAULT_CIRCUIT_BREAKER_MAX_RESET_TIMEOUT_MS (maxResetTimeoutMs o) = Fin ceiling ∧
    default DEFAULT_CIRCUIT_BREAKER_RANDOM_FACTOR (randomFactor o) = Fin rf ∧
    default DEFAULT_CIRCUIT_BREAKER_BACKOFF_FACTOR (backoffFactor o) = Fin factor ∧
    (0 <= base <= ceiling)%Q ∧ (0 < ceiling)%Q ∧ (0 <= rf <= 1)%Q ∧ (1 <= factor)%Q.
Proof.
  unfold rules. intros Hok. unbind. clear Hok0 Hok5. qguards.
  destruct (resetTimeoutMs o) as [base| |]; [|done..]. qguards.
  assert (∃ c, default DEFAULT_CIRCUIT_BREAKER_MAX_RESET_TIMEOUT_MS (maxResetTimeoutMs o) = Fin c ∧ (0 < c)%Q) as (c & Hc & Hc0).
  { destruct (maxResetTimeoutMs o) as [v|]; [|by exists 60000%Q]. qguards.
    destruct v as [c| |]; [|done..]. exists c. by qguards. }
  assert (∃ f, default DEFAULT_CIRCUIT_BREAKER_RANDOM_FACTOR (randomFactor o) = Fin f ∧ (0 <= f <= 1)%Q) as (f & Hf & Hf1).
  { destruct (randomFactor o) as [v|]; [|by exists 0%Q]. qguards.
    destruct v as [f| |]; [|done..]. exists f. qguards. split; [done|]. lra. }
  assert (∃ g, default DEFAULT_CIRCUIT_BREAKER_BACKOFF_FACTOR (backoffFactor o) = Fin g ∧ (1 <= g)%Q) as (g & Hg & Hg1).
  { destruct (backoffFactor o) as [v|]; [|by exists 1%Q]. qguards.
    destruct v as [g| |]; [|done..]. exists g. by qguards. }
  exists base, c, f, g. rewrite Hc in *. qguards. split_and!; try done; lra.
Qed.

(** The growth is cut before it is multiplied in, so no count of consecutive
    opens makes the window anything but a time between the lowest jitter of the
    base and the highest one of the ceiling. *)
Lemma reopenDelay_bounds b base ceiling rf random :
  legal (options b) base ceiling rf → draw_ok random →
  (0 <= base)%Q ∧ (0 <= rf <= 1)%Q ∧
  fle (applyJitter (Fin base) (Fin rf) (Fin 0)) (reopenDelayMs random b) = true ∧
  fle (reopenDelayMs random b) (applyJitter (Fin ceiling) (Fin rf) (Fin 1)) = true.
Proof.
  intros (Hok & Hb & Hc & Hr & Hdbl) Hdraw.
  destruct (rules_Ok _ _ Hok) as (base' & ceiling' & rf' & factor & Hb' & Hc' & Hr' & Hf & Hbase & Hceil & Hrf & Hfac).
  rewrite Hb in Hb'. injection Hb' as <-. rewrite Hc in Hc'. injection Hc' as <-. rewrite Hr in Hr'. injection Hr' as <-.
  split; [lra|]. split; [done|]. unfold reopenDelayMs. rewrite Hb, Hc, Hr, Hf. cbn [flt].
  set (useful := if Qltb 0 base then fdiv (Fin ceiling) (Fin base) else Fin 1).
  assert (Hu : fle (Fin 1) useful = true ∧ ((base <= 0)%Q → useful = Fin 1)).
  { unfold useful. qcase; [|done]. split; [apply fdiv_ge_1; lra|lra]. }
  destruct Hu as [Hu1 Hu0]. pose proof (Math_pow_ge_1 factor (consecutiveOpens b - 1) Hfac) as Hp.
  set (growth := Math_min (Math_pow (Fin factor) (consecutiveOpens b - 1)) useful).
  assert (Hg : fle (Fin 1) growth = true).
  { unfold growth, Math_min. destruct (Math_pow _ _) as [p|[]|], useful as [q|[]|]; try done. by case_match. }
  assert (Hfin : (base <= 0)%Q → growth ≠ Inf false).
  { intros H0. unfold growth. rewrite Hu0 by done. by destruct (Math_pow _ _) as [p|[]|]; [rewrite Math_min_fin| | |]. }
  assert (∃ g, Math_min (fmul (Fin base) growth) (Fin ceiling) = Fin g ∧ (base <= g <= ceiling)%Q) as (g & -> & Hgb).
  { apply Backoff.clamp_bounds; [lra|]. destruct growth as [q|[]|]; [apply fle_true in Hg|done| |done].
    - cbn [fmul]. destruct (overflow_nonneg (base * q)) as [[-> _]|[-> _]]; [nra| |by apply fle_Inf].
      apply fle_true. rewrite <-Hdbl at 1. apply rnd_mono. nra.
    - cbn [fmul]. unfold inf_times. destruct (Qlt_le_dec 0 base); [|by specialize (Hfin ltac:(lra))].
      qcase; [lra|]. qcase; [lra|]. by apply fle_Inf. }
  apply (Backoff.jitter_bounds base g ceiling rf random); lra || done.
Qed.

(** ** Open until the window is over, and not longer *)

(** The time of an event that may open the breaker. *)
Definition opens_at (e : Event) (t : Q) (r : float) : Prop :=
  match e with
  | Settle _ now random | SetState _ now random => now = Fin t ∧ random = r
  | _ => False
  end.

(** What may happen before [p] without anybody forcing the state: calls that
    come too early, settlements of earlier calls, (un)subscriptions. *)
Definition before (p : Q) (e : Event) : Prop :=
  match e with
  | Call now _ => ∃ t, now = Fin t ∧ (t < p)%Q
  | SetState _ _ _ => False
  | _ => True
  end.

Lemma setState_open now random b :
  state b ≠ open →
  state (setState open now random b) = open ∧
  ∃ b1, options b1 = options b ∧ consecutiveOpens b1 = S (consecutiveOpens b) ∧
    nextProbeAt (setState open now random b) = fadd now (reopenDelayMs random b1).
Proof.
  intros Hne. unfold setState. rewrite bool_decide_false by done. split; [done|].
  by eexists (mkBreaker (options b) open 0 (nextProbeAt b) (S (consecutiveOpens b)) (listeners b) (notified b)).
Qed.

Lemma step_opens b e t r :
  state b ≠ open → opens_at e t r → state (step b e) = open →
  ∃ b1, options b1 = options b ∧ nextProbeAt (step b e) = fadd (Fin t) (reopenDelayMs r b1).
Proof.
  intros Hne He Hopen.
  assert (∀ b0, state b0 ≠ open → options b0 = options b →
    ∃ b1, options b1 = options b ∧ nextProbeAt (setState open (Fin t) r b0) = fadd (Fin t) (reopenDelayMs r b1)) as Hset.
  { intros b0 Hb0 Ho. destruct (setState_open (Fin t) r b0 Hb0) as [_ (b1 & Ho1 & _ & Hn)].
    exists b1. by rewrite Ho1. }
  destruct e as [|s now random|next now random| |]; [done| | |done|done]; destruct He as [-> ->];
    cbn [step] in *.
  - destruct s as [|error f]; cbn [settle] in *.
    { unfold onSuccess in *. case_bool_decide as Hh; [|done].
      unfold setState in Hopen. by rewrite Hh in Hopen. }
    destruct (countsAsFailure _ _ _); [|done]. unfold onFailure in *.
    case_bool_decide; [by apply Hset|]. destruct (fle _ _); [|done]. by apply Hset.
  - destruct next; [| by apply Hset |]; unfold setState in Hopen; case_bool_decide; done.
Qed.

Lemma maybe_early b p t r :
  state b = open → nextProbeAt b = Fin p → (t < p)%Q → maybeTransitionToHalfOpen (Fin t) r b = b.
Proof.
  intros Ho Hp Ht. unfold maybeTransitionToHalfOpen. rewrite Ho, Hp. cbn.
  by assert (fle (Fin p) (Fin t) = false) as -> by by apply fle_false.
Qed.

Lemma maybe_late b p t r :
  state b = open → nextProbeAt b = Fin p → (p <= t)%Q →
  state (maybeTransitionToHalfOpen (Fin t) r b) = half_open.
Proof.
  intros Ho Hp Ht. unfold maybeTransitionToHalfOpen. rewrite Ho, Hp. cbn.
  assert (fle (Fin p) (Fin t) = true) as -> by by apply fle_true.
  unfold setState. by rewrite Ho.
Qed.

(** Nothing but the clock ends the refusal. *)
Lemma stays_open b e p :
  state b = open → nextProbeAt b = Fin p → before p e →
  state (step b e) = open ∧ nextProbeAt (step b e) = Fin p.
Proof.
  intros Ho Hp He. destruct e as [now r|s now r| |l|l]; cbn [step before] in *.
  - destruct He as (t & -> & Ht). unfold start. rewrite (maybe_early b p) by done. by case_bool_decide.
  - destruct s as [|error f]; cbn [settle]; [unfold onSuccess; by rewrite Ho|].
    destruct (countsAsFailure _ _ _); [|done]. unfold onFailure. rewrite bool_decide_false by (by rewrite Ho).
    destruct (fle _ _); [|done]. unfold setState. by rewrite bool_decide_true.
  - done.
  - unfold onStateChange. by case_bool_decide.
  - done.
Qed.

Lemma run_stays_open b es p :
  state b = open → nextProbeAt b = Fin p → Forall (before p) es →
  state (run b es) = open ∧ nextProbeAt (run b es) = Fin p.
Proof.
  revert b. induction es as [|e es IH]; intros b Ho Hp Hes; [done|].
  apply Forall_cons in Hes as [He Hes]. destruct (stays_open b e p) as [Ho' Hp']; [done..|].
  by apply IH.
Qed.

(** The breaker always probes again.  Whenever an event at time [t] opens
    it, whatever the number of opens before, its window ends at a finite
    [p] between [t] plus the lowest jitter of the base and [t] plus the highest
    one of the ceiling, if there is a number for that.  Whatever happens short
    of a forced state, calls before [p] are refused, carry the time that
    remains and change nothing, and the first call at or after [p] is let
    through as a probe. *)
Theorem breaker_probes_again b e t r base ceiling rf :
  legal (options b) base ceiling rf → draw_ok r → (0 <= t)%Q →
  is_finite (fadd (Fin t) (applyJitter (Fin ceiling) (Fin rf) (Fin 1))) = true →
  state b ≠ open → opens_at e t r → state (step b e) = open →
  ∃ p, nextProbeAt (step b e) = Fin p ∧
    fle (fadd (Fin t) (applyJitter (Fin base) (Fin rf) (Fin 0))) (Fin p) = true ∧
    fle (Fin p) (fadd (Fin t) (applyJitter (Fin ceiling) (Fin rf) (Fin 1))) = true ∧
    ∀ es, Forall (before p) es →
      let b' := run (step b e) es in
      ∀ now random, (0 <= now)%Q →
        ((now < p)%Q → start (Fin now) random b' = (Refused (Math_max (Fin 0) (fsub (Fin p) (Fin now))), b')) ∧
        ((p <= now)%Q → (start (Fin now) random b').1 = Allowed ∧
                        state (start (Fin now) random b').2 = half_open).
Proof.
  intros Hlegal Hr Ht Hlim Hne He Hopen.
  destruct (step_opens b e t r Hne He Hopen) as (b1 & Ho1 & Hnext).
  destruct (reopenDelay_bounds b1 base ceiling rf r) as (Hb0 & Hrf & Hd1 & Hd2); [by rewrite Ho1|done|].
  apply (fadd_mono t) in Hd1, Hd2. rewrite <-Hnext in Hd1, Hd2.
  assert (Hnn : fle (Fin 0) (fadd (Fin t) (applyJitter (Fin base) (Fin rf) (Fin 0))) = true).
  { pose proof (Backoff.jitter_nonneg base rf (Fin 0) Hb0 Hrf ltac:(exists 0%Q; split_and!; [done|discriminate|reflexivity])) as Hj.
    apply (fadd_mono t) in Hj. eapply fle_trans; [|exact Hj]. cbn [fadd]. change (Fin 0) with (overflow 0). apply fle_overflow. lra. }
  destruct (nextProbeAt (step b e)) as [p|[]|] eqn:Hp0; 
    [|by pose proof (fle_trans _ _ _ Hnn Hd1)| |by apply fle_number in Hd1 as [_ ?]].
  2:{ destruct (fadd (Fin t) (applyJitter (Fin ceiling) (Fin rf) (Fin 1))); done. }
  exists p. split; [done|]. split; [exact Hd1|]. split; [exact Hd2|]. intros es Hes b' now random Hnow.
  destruct (run_stays_open (step b e) es p) as [Ho Hp]; [done..|]. fold b' in Ho, Hp.
  unfold start. split.
  - intros Hlt. rewrite (maybe_early b' p) by done. by rewrite bool_decide_true, Hp by done.
  - intros Hle. pose proof (maybe_late b' p now random Ho Hp Hle) as Hh.
    rewrite bool_decide_false by (by rewrite Hh). done.
Qed.

(** ** When a closed breaker opens *)

Inductive Verdict : Type := Success | Failure | Excused.

#[export] Instance Verdict_eq_dec : EqDecision Verdict.
Proof. solve_decision. Defined.

Definition classify (b : CircuitBreaker) (s : Settlement) : Verdict :=
  match s with
  | Resolved => Success
  | Rejected error f => if countsAsFailure error f b then Failure else Excused
  end.

Definition failures (vs : list Verdict) : Z := Z.of_nat (length (filter (.= Failure) vs)).

(** Some stretch of the results contains no success and [k] failures. *)
Definition trips (k : Z) (vs : list Verdict) : Prop :=
  ∃ pre mid post, vs = pre ++ mid ++ post ∧ (Success ∉ mid) ∧ (k ≤ failures mid)%Z.

(** The same, with [n] failures counted just before. *)
Definition trips_from (k n : Z) (vs : list Verdict) : Prop :=
  (∃ mid post, vs = mid ++ post ∧ (Success ∉ mid) ∧ (k ≤ n + failures mid)%Z) ∨ trips k vs.

Lemma trips_from_0 k vs : trips_from k 0 vs ↔ trips k vs.
Proof.
  split; [|by right]. intros [(mid & post & -> & Hs & Hk)|?]; [|done]. by exists [], mid, post.
Qed.

Lemma failures_cons v vs : failures (v :: vs) = ((if bool_decide (v = Failure) then 1 else 0) + failures vs)%Z.
Proof. unfold failures. rewrite filter_cons. case_bool_decide; case_decide; simpl; try done; lia. Qed.

Lemma trips_cons k v vs :
  (0 < k)%Z → trips k (v :: vs) ↔
    (v ≠ Success ∧ ∃ mid post, vs = mid ++ post ∧ (Success ∉ mid) ∧ (k ≤ failures (v :: mid))%Z) ∨ trips k vs.
Proof.
  intros Hk. split.
  - intros ([|x pre] & mid & post & Heq & Hs & Hf); simpl in Heq; simplify_eq.
    + destruct mid as [|x mid]; [by change (failures []) with 0%Z in Hf; lia|]. simplify_eq/=.
      left. split; [set_solver|]. exists mid, post. split_and!; [done|set_solver|done].
    + right. by exists pre, mid, post.
  - intros [(Hv & mid & post & -> & Hs & Hf)|(pre & mid & post & -> & Hs & Hf)].
    + exists [], (v :: mid), post. split_and!; [done|set_solver|done].
    + by exists (v :: pre), mid, post.
Qed.

Lemma trips_from_cons k n v vs :
  (0 ≤ n < k)%Z →
  trips_from k n (v :: vs) ↔
    match v with
    | Success => trips_from k 0 vs
    | Failure => (k ≤ n + 1)%Z ∨ trips_from k (n + 1) vs
    | Excused => trips_from k n vs
    end.
Proof.
  intros Hn. unfold trips_from at 1. rewrite trips_cons by lia.
  assert ((∃ mid post, v :: vs = mid ++ post ∧ (Success ∉ mid) ∧ (k ≤ n + failures mid)%Z) ↔
    v ≠ Success ∧ ∃ mid post, vs = mid ++ post ∧ (Success ∉ mid) ∧ (k ≤ n + failures (v :: mid))%Z) as ->.
  { split.
    - intros ([|x mid] & post & Heq & Hs & Hf); [change (failures []) with 0%Z in Hf; lia|].
      simplify_eq/=. split; [set_solver|]. exists mid, post. split_and!; [done|set_solver|done].
    - intros (Hv & mid & post & -> & Hs & Hf). exists (v :: mid), post. split_and!; [done|set_solver|done]. }
  setoid_rewrite failures_cons. destruct v; simpl.
  - rewrite trips_from_0. naive_solver.
  - split.
    + intros [(_ & mid & post & -> & Hs & Hf)|[(_ & mid & post & -> & Hs & Hf)|Ht]].
      * right; left. exists mid, post. split_and!; [done|done|lia].
      * right; left. exists mid, post. split_and!; [done|done|lia].
      * by right; right.
    + intros [Hk|[(mid & post & -> & Hs & Hf)|Ht]]; [| |by right; right].
      * left. split; [done|]. exists [], vs. split_and!; [done|set_solver|]. change (failures []) with 0%Z. lia.
      * left. split; [done|]. exists mid, post. split_and!; [done|done|lia].
  - unfold trips_from. split.
    + intros [(_ & mid & post & -> & Hs & Hf)|[(_ & mid & post & -> & Hs & Hf)|Ht]].
      * left. exists mid, post. split_and!; [done|done|lia].
      * left. exists mid, post. split_and!; [done|done|lia].
      * by right.
    + intros [(mid & post & -> & Hs & Hf)|Ht]; [|by right; right].
      left. split; [done|]. exists mid, post. split_and!; [done|done|lia].
Qed.

Lemma reached k n : (0 ≤ n ≤ k)%Z → (k < 2 ^ 53)%Z → fle (Fin (inject_Z k)) (of_Z n) = bool_decide (k ≤ n)%Z.
Proof.
  intros Hn Hk. assert (0 <= inject_Z n)%Q by (change 0%Q with (inject_Z 0); rewrite <-Zle_Qle; lia).
  pose proof (rnd_Z n ltac:(lia)) as Hr. assert (Hl : (inject_Z n < FLOAT_LIMIT)%Q).
  { unfold FLOAT_LIMIT. rewrite <-Zlt_Qlt. assert (2 ^ 53 < 2 ^ 1024)%Z by (by apply Z.pow_lt_mono_r). lia. }
  unfold of_Z. pose proof FLOAT_LIMIT_pos. rewrite overflow_fin by lra.
  apply eq_true_iff_eq. by rewrite fle_true, bool_decide_eq_true, Hr, Zle_Qle.
Qed.

Definition settle_all (b : CircuitBreaker) (ss : list (Settlement * float * float)) : CircuitBreaker :=
  foldl (λ b s, settle s.1.1 s.1.2 s.2 b) b ss.

Lemma settle_open b ss : state b = open → state (settle_all b ss) = open.
Proof.
  revert b. induction ss as [|[[s now] r] ss IH]; intros b Ho; [done|]. apply IH. cbn [fst snd].
  destruct s as [|error f]; cbn [settle]; [unfold onSuccess; by rewrite Ho|].
  destruct (countsAsFailure _ _ _); [|done]. unfold onFailure. rewrite bool_decide_false by (by rewrite Ho).
  destruct (fle _ _); [|done]. unfold setState. by rewrite bool_decide_true.
Qed.

Lemma classify_options b b' s : options b' = options b → classify b' s = classify b s.
Proof. intros Ho. destruct s as [|error f]; [done|]. unfold classify, countsAsFailure. by rewrite Ho. Qed.

Lemma settle_closed b k ss :
  state b = closed → maxFailures (options b) = Fin (inject_Z k) → (0 ≤ failureCount b < k)%Z →
  (k < 2 ^ 53)%Z →
  let b' := settle_all b ss in
  (state b' = open ↔ trips_from k (failureCount b) (classify b ∘ fst ∘ fst <$> ss)) ∧
  (state b' = closed ∨ state b' = open).
Proof.
  intros Hc Hmax Hn Hk. cbv zeta. revert b Hc Hmax Hn.
  induction ss as [|[[s now] r] ss IH]; intros b Hc Hmax Hn.
  { cbn. rewrite Hc. split; [|by left]. split; [done|].
    intros [(mid & post & Heq & _ & Hf)|(pre & mid & post & Heq & _ & Hf)];
      destruct mid; try done; change (failures []) with 0%Z in Hf; try lia.
    by destruct pre. }
  rewrite fmap_cons, trips_from_cons by done. cbn [compose fst].
  assert (∀ b1, options b1 = options b → classify b ∘ fst ∘ fst <$> ss = classify b1 ∘ fst ∘ fst <$> ss) as Hcl.
  { intros b1 Ho. apply list_fmap_ext. intros _ x _. unfold compose. by rewrite (classify_options b b1). }
  change (settle_all b ((s, now, r) :: ss)) with (settle_all (settle s now r b) ss).
  destruct s as [|error f]; cbn [settle classify].
  - unfold onSuccess. rewrite bool_decide_false by (by rewrite Hc).
    match goal with |- context [settle_all ?b1 ss] => rewrite (Hcl b1) by done; apply IH; cbn; [done|done|lia] end.
  - destruct (countsAsFailure error f b); [|by apply IH]. unfold onFailure.
    rewrite bool_decide_false by (by rewrite Hc). cbn [options failureCount]. rewrite Hmax, reached by (done || lia).
    case_bool_decide as Hreach.
    + assert (∀ b1, state b1 = closed → state (settle_all (setState open now r b1) ss) = open) as Hop.
      { intros b1 Hb1. apply settle_open. unfold setState. by rewrite Hb1. }
      rewrite Hop by done. split; [|by right]. split; [|done]. intros _. by left.
    + match goal with |- context [settle_all ?b1 ss] =>
        rewrite (Hcl b1) by done; destruct (IH b1) as [Hiff Hst]; cbn; [done|done|lia|] end.
      split; [|done]. rewrite Hiff. cbn [failureCount]. split; [by right|]. intros [?|?]; [lia|done].
Qed.

(** A closed breaker opens exactly on consecutive failures.  Whatever order
    its calls in flight settle in, it is open afterwards if and only if some
    stretch of the results, with no success in it, holds [maxFailures]
    failures; errors excused by name or by the call's own classifier neither
    count nor interrupt the stretch.  Otherwise it is still closed. *)
Theorem breaker_opens_on_streak b k ss :
  state b = closed → failureCount b = 0%Z →
  maxFailures (options b) = Fin (inject_Z k) → (0 < k < 2 ^ 53)%Z →
  let b' := settle_all b ss in
  (state b' = open ↔ trips k (classify b ∘ fst ∘ fst <$> ss)) ∧
  (state b' = closed ∨ state b' = open).
Proof.
  intros Hc Hf Hmax Hk. cbv zeta. rewrite <-trips_from_0, <-Hf. apply settle_closed; [done|done|lia|lia].
Qed.

(** ** Concrete runs *)

Definition example_options : CircuitBreakerOptions :=
  mkOptions (Fin 3) (Fin 1000) None (Some (Fin 8000)) (Some (Fin 2)) None (Some ["NotFoundError"]).

Definition example_breaker : CircuitBreaker := mkBreaker example_options closed 0 (Fin 0) 0 [7%nat] [].

Definition failed (now : Q) : Settlement * float * float :=
  (Rejected (mkError "TimeoutError" 0) None, Fin now, Fin 0).
Definition excused (now : Q) : Settlement * float * float :=
  (Rejected (mkError "NotFoundError" 0) None, Fin now, Fin 0).

Lemma breaker_opens_on_streak_witness :
  construct example_options = Ok (mkBreaker example_options closed 0 (Fin 0) 0 [] []) ∧
  state (settle_all example_breaker [failed 1; excused 2; failed 3; failed 4]) = open ∧
  trips 3 [Failure; Excused; Failure; Failure].
Proof.
  split; [vm_compute; reflexivity|].
  assert (state (settle_all example_breaker [failed 1; excused 2; failed 3; failed 4]) = open) as Ho
    by (vm_compute; reflexivity).
  split; [exact Ho|].
  exact (proj1 (proj1 (breaker_opens_on_streak example_breaker 3
    [failed 1; excused 2; failed 3; failed 4] eq_refl eq_refl eq_refl ltac:(lia))) Ho).
Defined.

Lemma example_legal : legal example_options 1000 8000 0.
Proof. split_and!; vm_compute; reflexivity. Qed.

(** The third failure opens the breaker at 1700; it probes again at 2700. *)
Lemma breaker_probes_again_witness :
  let b := settle_all example_breaker [failed 1500; failed 1600] in
  let e := Settle (Rejected (mkError "TimeoutError" 0) None) (Fin 1700) (Fin 0) in
  state (step b e) = open ∧
  ∃ p, nextProbeAt (step b e) = Fin p ∧ (p <= 9700)%Q ∧
    (start (Fin 9700) (Fin 0) (step b e)).1 = Allowed.
Proof.
  cbv zeta. split; [vm_compute; reflexivity|].
  assert (draw_ok (Fin 0)) as Hr by (exists 0%Q; split_and!; [done|discriminate|reflexivity]).
  destruct (breaker_probes_again (settle_all example_breaker [failed 1500; failed 1600])
    (Settle (Rejected (mkError "TimeoutError" 0) None) (Fin 1700) (Fin 0)) 1700 (Fin 0) 1000 8000 0
    ) as (p & Hp & _ & Hle & Hrun);
    [exact example_legal|exact Hr|discriminate|vm_compute; reflexivity|vm_compute; discriminate|split; reflexivity
    |vm_compute; reflexivity|].
  assert (Hp9 : (p <= 9700)%Q) by (apply fle_true; vm_compute in Hle |- *; exact Hle).
  exists p. split; [exact Hp|split; [exact Hp9|]]. assert (0 <= 9700)%Q as H0 by discriminate.
  exact (proj1 (proj2 (Hrun [] ltac:(constructor) 9700%Q (Fin 0) H0) Hp9)).
Defined.

End CircuitBreaker.
