(* ===== verification/Member.v ===== *)
(** * Members and addresses: [src/cluster/NodeAddress.ts], [src/cluster/Member.ts]

    What a node knows about another one, as it is stored and as it is gossiped,
    and the simple failure detector of [src/cluster/FailureDetector.ts].  A
    gossiped record is JSON that any peer may have composed: the decoder
    refuses it or keeps only the claims within their limits. *)

From S2P Require Import Prelude Json.
From stdpp Require Import pretty.
From Stdlib Require Import Ascii.

Local Open Scope Z_scope.

(** Reads the fields of a literal object. *)
Ltac lookups :=
  repeat first [ rewrite find_field_here | rewrite find_field_there by discriminate | rewrite find_field_nil ].

(** ** Addresses *)

Module NodeAddress.

Record NodeAddress := mkAddress {
  systemName : string;
  host : string;
  port : Z;
  incarnation : option string;
}.

#[export] Instance NodeAddress_eq_dec : EqDecision NodeAddress.
Proof. solve_decision. Defined.

Definition MAX_NODE_INCARNATION_LENGTH : Z := 128.

Definition toString (a : NodeAddress) : string :=
  systemName a +:+ "@" +:+ host a +:+ ":" +:+ pretty (port a).

(** [equals]: the incarnation is not compared. *)
Definition equals (a b : NodeAddress) : bool :=
  bool_decide (systemName a = systemName b) && bool_decide (host a = host b) && bool_decide (port a = port b).

Definition isIncarnation (value : option json) : option string :=
  match value with
  | Some (JString s) =>
      if (0 <? Z.of_nat (String.length s)) && (Z.of_nat (String.length s) <=? MAX_NODE_INCARNATION_LENGTH)
      then Some s else None
  | _ => None
  end.

Definition isPort (value : option json) : option Z :=
  match value with
  | Some (JNumber (Num n)) => if Number_isSafeInteger (Num n) && (n >? 0) then Some n else None
  | _ => None
  end.

Definition non_empty_string (value : option json) : option string :=
  match value with
  | Some (JString s) => if (0 <? Z.of_nat (String.length s)) then Some s else None
  | _ => None
  end.

Definition toJSON (a : NodeAddress) : json :=
  JObject ([("systemName", JString (systemName a)); ("host", JString (host a)); ("port", JNumber (Num (port a)))]
    ++ match incarnation a with Some i => [("incarnation", JString i)] | None => [] end).

(** The destructuring of [data ?? {}]: a missing field is [undefined]. *)
Definition field (data : option json) (name : string) : option json :=
  match data with Some (JObject fields) => find_field name fields | _ => None end.

(** [fromJSON]; [None] is the throw. *)
Definition fromJSON (data : option json) : option NodeAddress :=
  systemName ← non_empty_string (field data "systemName");
  host ← non_empty_string (field data "host");
  port ← isPort (field data "port");
  match field data "incarnation" with
  | None => Some (mkAddress systemName host port None)
  | Some i => i ← isIncarnation (Some i); Some (mkAddress systemName host port (Some i))
  end.

(** The addresses [fromJSON] can return. *)
Definition wf (a : NodeAddress) : Prop :=
  (0 < String.length (systemName a))%nat ∧ (0 < String.length (host a))%nat ∧
  0 < port a ≤ MAX_SAFE_INTEGER ∧
  match incarnation a with
  | Some i => 0 < Z.of_nat (String.length i) ≤ MAX_NODE_INCARNATION_LENGTH | None => True end.

Lemma equals_spec a b :
  equals a b = true ↔ systemName a = systemName b ∧ host a = host b ∧ port a = port b.
Proof. unfold equals. rewrite !andb_true_iff, !bool_decide_eq_true. tauto. Qed.

Lemma equals_toString a b : equals a b = true → toString a = toString b.
Proof. intros (? & ? & ?)%equals_spec. unfold toString. congruence. Qed.

Lemma address_equals_refl a : equals a a = true.
Proof. by apply equals_spec. Qed.

Lemma address_equals_sym a b : equals a b = equals b a.
Proof. apply eq_true_iff_eq. rewrite !equals_spec. naive_solver. Qed.

Lemma non_empty_some s : (0 < String.length s)%nat → non_empty_string (Some (JString s)) = Some s.
Proof. intros ?. unfold non_empty_string. by destruct (Z.ltb_spec 0 (Z.of_nat (String.length s))); [|lia]. Qed.

Lemma roundtrip a : wf a → fromJSON (Some (toJSON a)) = Some a.
Proof.
  destruct a as [s h p i]. intros (Hs & Hh & Hp & Hi). cbn [systemName host port incarnation] in *.
  unfold fromJSON, field, toJSON. cbn [systemName host port incarnation].
  assert (isPort (Some (JNumber (Num p))) = Some p) as Hport.
  { unfold isPort, Number_isSafeInteger. unfold MAX_SAFE_INTEGER in *.
    destruct (Z.leb_spec (- (2 ^ 53 - 1)) p); [|lia]. destruct (Z.leb_spec p (2 ^ 53 - 1)); [|lia].
    destruct (Z.gtb_spec p 0); [done|lia]. }
  rewrite !find_field_app. lookups. rewrite !non_empty_some by done. cbn -[find_field isPort isIncarnation].
  rewrite Hport. cbn -[find_field isIncarnation]. destruct i as [i|]; [|done].
  lookups. cbn -[isIncarnation]. unfold isIncarnation.
  destruct (Z.ltb_spec 0 (Z.of_nat (String.length i))); [|lia].
  by destruct (Z.leb_spec (Z.of_nat (String.length i)) MAX_NODE_INCARNATION_LENGTH); [|lia].
Qed.

Lemma fromJSON_wf data a : fromJSON data = Some a → wf a.
Proof.
  unfold fromJSON. intros Hok.
  apply bind_Some in Hok as (s & Hs & Hok). apply bind_Some in Hok as (h & Hh & Hok).
  apply bind_Some in Hok as (p & Hp & Hok).
  assert (∀ v s, non_empty_string v = Some s → (0 < String.length s)%nat) as Hlen.
  { intros [[| | |s'| |]|] s0; try done. cbn. destruct (Z.ltb_spec 0 (Z.of_nat (String.length s'))); [|done].
    intros [= <-]. lia. }
  assert (0 < p ≤ MAX_SAFE_INTEGER) as Hport.
  { destruct (field data "port") as [[| |[| | |n]| | |]|]; try done. cbn in Hp.
    destruct (_ && _) eqn:E in Hp; [|done]. injection Hp as <-.
    apply andb_prop in E as [[_ ?%Z.leb_le]%andb_prop Hgt]. rewrite Z.gtb_ltb in Hgt. apply Z.ltb_lt in Hgt. lia. }
  destruct (field data "incarnation") as [i|].
  - apply bind_Some in Hok as (i' & Hi & Hok). injection Hok as <-.
    split_and!; try done; cbn; [by eapply Hlen|by eapply Hlen|lia|lia|].
    destruct i as [| | |i0| |]; try done; cbn -[MAX_NODE_INCARNATION_LENGTH] in Hi;
      destruct (_ && _) eqn:E in Hi; [|done]; injection Hi as <-;
      apply andb_prop in E as [?%Z.ltb_lt ?%Z.leb_le]; lia.
  - injection Hok as <-. split_and!; try done; cbn; [by eapply Hlen|by eapply Hlen|lia|lia].
Qed.

End NodeAddress.

(** ** Members *)

Module Member.
Import NodeAddress.

Inductive MemberStatus : Type :=
| joining | weakly_up | up | unreachable | leaving | down | removed.

#[export] Instance MemberStatus_eq_dec : EqDecision MemberStatus.
Proof. solve_decision. Defined.

Definition status_name (s : MemberStatus) : string :=
  match s with
  | joining => "joining" | weakly_up => "weakly-up" | up => "up" | unreachable => "unreachable"
  | leaving => "leaving" | down => "down" | removed => "removed"
  end.

Definition MEMBER_STATUSES : list MemberStatus :=
  [joining; weakly_up; up; unreachable; leaving; down; removed].

(** [isMemberStatus]: the status a string off the wire names, if any. *)
Definition isMemberStatus (value : option json) : option MemberStatus :=
  match value with
  | Some (JString s) => List.find (λ m, bool_decide (status_name m = s)) MEMBER_STATUSES
  | _ => None
  end.

Definition MAX_STORAGE_IDENTITY_LENGTH : Z := 64.
Definition MAX_CONFIGURATION_FACT_NAME_LENGTH : Z := 128.
Definition MAX_CONFIGURATION_FACT_VALUE_LENGTH : Z := 128.
Definition MAX_CONFIGURATION_FACTS : nat := 16.
Definition MAX_APP_VERSION_LENGTH : Z := 64.

Record StorageIdentitiesData := mkIdentities {
  journal : option string;
  snapshotStore : option string;
  durableStateStore : option string;
}.

#[export] Instance StorageIdentitiesData_eq_dec : EqDecision StorageIdentitiesData.
Proof. solve_decision. Defined.

Abbreviation ConfigurationFactsData := (gmap string string).

Record Member := mkMember {
  address : NodeAddress;
  status : MemberStatus;
  version : number;
  roles : gset string;
  removedAt : option number;
  storageIdentities : option StorageIdentitiesData;
  configurationFacts : option ConfigurationFactsData;
  appVersion : option string;
}.

#[export] Instance Member_eq_dec : EqDecision Member.
Proof. solve_decision. Defined.

(** A record as it is gossiped.  The fields a decoder inspects are JSON. *)
Record MemberData := mkData {
  d_address : option json;
  d_status : option json;
  d_version : number;
  d_roles : option (list string);
  d_removedAt : option number;
  d_storageIdentities : option json;
  d_configurationFacts : option json;
  d_appVersion : option json;
}.

Definition number_succ (n : number) : number :=
  match n with Num z => Num (z + 1) | n => n end.

Definition hasRole (role : string) (m : Member) : bool := bool_decide (role ∈ roles m).

Definition isReachable (m : Member) : bool :=
  match status m with up | weakly_up | joining | leaving => true | _ => false end.

Definition withStatus (s : MemberStatus) (m : Member) : Member :=
  mkMember (address m) s (number_succ (version m)) (roles m) (removedAt m) (storageIdentities m)
    (configurationFacts m) (appVersion m).

Definition withStorageIdentities (ids : StorageIdentitiesData) (m : Member) : Member :=
  mkMember (address m) (status m) (version m) (roles m) (removedAt m) (Some ids)
    (configurationFacts m) (appVersion m).

Definition withConfigurationFacts (facts : ConfigurationFactsData) (m : Member) : Member :=
  mkMember (address m) (status m) (version m) (roles m) (removedAt m) (storageIdentities m)
    (Some facts) (appVersion m).

Definition withAppVersion (v : option string) (m : Member) : Member :=
  mkMember (address m) (status m) (version m) (roles m) (removedAt m) (storageIdentities m)
    (configurationFacts m) v.

Definition withRemoved (at_ : Z) (m : Member) : Member :=
  mkMember (address m) removed (number_succ (version m)) (roles m) (Some (Num at_)) (storageIdentities m)
    (configurationFacts m) (appVersion m).

(** ** The decoder *)

Definition within (limit : Z) (s : string) : bool :=
  (0 <? Z.of_nat (String.length s)) && (Z.of_nat (String.length s) <=? limit).

Definition identity_claim (fields : list (string * json)) (name : string) : option string :=
  match find_field name fields with
  | Some (JString s) => if within MAX_STORAGE_IDENTITY_LENGTH s then Some s else None
  | _ => None
  end.

Definition sanitizeStorageIdentities (data : option json) : option StorageIdentitiesData :=
  match data with
  | Some (JObject fields) =>
      let sanitized := mkIdentities (identity_claim fields "journal") (identity_claim fields "snapshotStore")
                         (identity_claim fields "durableStateStore") in
      if bool_decide (sanitized = mkIdentities None None None) then None else Some sanitized
  | _ => None
  end.

(** [CONFIGURATION_FACT_NAME_PATTERN]: [/^[a-z0-9][a-z0-9.-]*$/]. *)
Definition fact_head (c : ascii) : bool :=
  let n := N_of_ascii c in
  ((97 <=? n)%N && (n <=? 122)%N) || ((48 <=? n)%N && (n <=? 57)%N).

Definition fact_char (c : ascii) : bool := fact_head c || bool_decide (c = "."%char) || bool_decide (c = "-"%char).

Definition fact_name_matches (name : string) : bool :=
  match name with
  | EmptyString => false
  | String c rest => fact_head c && forallb fact_char (String.list_ascii_of_string rest)
  end.

Definition fact_ok (name : string) (value : json) : option string :=
  if Z.of_nat (String.length name) >? MAX_CONFIGURATION_FACT_NAME_LENGTH then None
  else if negb (fact_name_matches name) then None
  else match value with
       | JString s => if within MAX_CONFIGURATION_FACT_VALUE_LENGTH s then Some s else None
       | _ => None
       end.

(** The loop over [Object.entries]: [kept] counts the entries taken so far. *)
Fixpoint sanitize_facts (entries : list (string * json)) (kept : nat) (acc : gmap string string) : gmap string string :=
  match entries with
  | [] => acc
  | (name, value) :: rest =>
      if (MAX_CONFIGURATION_FACTS <=? kept)%nat then acc
      else match fact_ok name value with
           | Some s => sanitize_facts rest (S kept) (<[name := s]> acc)
           | None => sanitize_facts rest kept acc
           end
  end.

Definition sanitizeConfigurationFacts (data : option json) : option ConfigurationFactsData :=
  match data with
  | Some (JObject fields) =>
      let sanitized := sanitize_facts fields 0 ∅ in
      if bool_decide (sanitized = ∅) then None else Some sanitized
  | _ => None
  end.

(** [APP_VERSION_PATTERN]: printable ASCII without the space. *)
Definition app_version_char (c : ascii) : bool :=
  let n := N_of_ascii c in (33 <=? n)%N && (n <=? 126)%N.

Definition isAppVersion (value : option json) : option string :=
  match value with
  | Some (JString s) =>
      if within MAX_APP_VERSION_LENGTH s && forallb app_version_char (String.list_ascii_of_string s) then Some s else None
  | _ => None
  end.

Inductive MemberError : Type := InvalidStatus | InvalidAddress.

Definition fromData (data : MemberData) : result MemberError Member :=
  match isMemberStatus (d_status data) with
  | None => Err InvalidStatus
  | Some s =>
      match fromJSON (d_address data) with
      | None => Err InvalidAddress
      | Some a =>
          Ok (mkMember a s (d_version data) (list_to_set (default [] (d_roles data))) (d_removedAt data)
                (sanitizeStorageIdentities (d_storageIdentities data))
                (sanitizeConfigurationFacts (d_configurationFacts data))
                (isAppVersion (d_appVersion data)))
      end
  end.

Definition optional_text (name : string) (v : option string) : list (string * json) :=
  match v with Some s => [(name, JString s)] | None => [] end.

Definition identities_json (ids : StorageIdentitiesData) : json :=
  JObject (optional_text "journal" (journal ids) ++ optional_text "snapshotStore" (snapshotStore ids)
           ++ optional_text "durableStateStore" (durableStateStore ids)).

Definition facts_json (facts : ConfigurationFactsData) : json :=
  JObject ((λ e, (e.1, JString e.2)) <$> map_to_list facts).

Definition toData (m : Member) : MemberData :=
  mkData (Some (toJSON (address m))) (Some (JString (status_name (status m)))) (version m)
    (Some (elements (roles m))) (removedAt m) (identities_json <$> storageIdentities m)
    (facts_json <$> configurationFacts m) (JString <$> appVersion m).

(** ** What the decoder lets through *)

Definition identity_ok (s : option string) : Prop :=
  match s with Some s => within MAX_STORAGE_IDENTITY_LENGTH s = true | None => True end.

(** The claims a stored member may carry. *)
Definition claims_ok (m : Member) : Prop :=
  NodeAddress.wf (address m) ∧
  match storageIdentities m with
  | Some ids => ids ≠ mkIdentities None None None ∧ identity_ok (journal ids) ∧
      identity_ok (snapshotStore ids) ∧ identity_ok (durableStateStore ids)
  | None => True end ∧
  match configurationFacts m with
  | Some facts => facts ≠ ∅ ∧ (size facts ≤ MAX_CONFIGURATION_FACTS)%nat ∧
      map_Forall (λ name v, fact_ok name (JString v) = Some v) facts
  | None => True end ∧
  match appVersion m with
  | Some v => isAppVersion (Some (JString v)) = Some v
  | None => True end.

Lemma identity_claim_ok fields name : identity_ok (identity_claim fields name).
Proof.
  unfold identity_claim. destruct (find_field name fields) as [[]|]; try done.
  by destruct (within MAX_STORAGE_IDENTITY_LENGTH s) eqn:E.
Qed.

Lemma isAppVersion_sound value v : isAppVersion value = Some v → isAppVersion (Some (JString v)) = Some v.
Proof.
  destruct value as [[| | |s| |]|]; try done. unfold isAppVersion. destruct (_ && _) eqn:E; [|done].
  intros [= <-]. by rewrite E.
Qed.

Lemma isMemberStatus_name s : isMemberStatus (Some (JString (status_name s))) = Some s.
Proof. by destruct s. Qed.

Lemma fact_ok_value name v s : fact_ok name v = Some s → v = JString s.
Proof. unfold fact_ok. repeat case_match; naive_solver. Qed.

Lemma sanitize_facts_spec entries kept acc :
  (size acc ≤ kept)%nat → (kept ≤ MAX_CONFIGURATION_FACTS)%nat →
  map_Forall (λ name v, fact_ok name (JString v) = Some v) acc →
  let facts := sanitize_facts entries kept acc in
  (size facts ≤ MAX_CONFIGURATION_FACTS)%nat ∧ map_Forall (λ name v, fact_ok name (JString v) = Some v) facts.
Proof.
  revert kept acc. induction entries as [|[name v] entries IH]; intros kept acc Hsize Hkept Hok; cbn [sanitize_facts]; [split; [lia|done]|].
  destruct (Nat.leb_spec MAX_CONFIGURATION_FACTS kept); [split; [lia|done]|].
  destruct (fact_ok name v) as [s|] eqn:Ev; [|by apply IH].
  apply IH; [|lia|].
  - rewrite map_size_insert. destruct (acc !! name); simpl; lia.
  - apply map_Forall_insert_2; [|done]. by rewrite <-(fact_ok_value _ _ _ Ev).
Qed.

Lemma sanitize_facts_all l kept acc :
  (kept + length l ≤ MAX_CONFIGURATION_FACTS)%nat →
  Forall (λ e, fact_ok e.1 (JString e.2) = Some e.2) l →
  sanitize_facts ((λ e, (e.1, JString e.2)) <$> l) kept acc = foldl (λ m e, <[e.1 := e.2]> m) acc l.
Proof.
  revert kept acc. induction l as [|[name v] l IH]; intros kept acc Hk Hok; [done|].
  apply Forall_cons in Hok as [Hv Hok]. cbn -[fact_ok MAX_CONFIGURATION_FACTS] in *.
  destruct (Nat.leb_spec MAX_CONFIGURATION_FACTS kept); [lia|]. rewrite Hv. apply IH; [lia|done].
Qed.

Lemma foldl_insert_map (facts acc : gmap string string) :
  facts ##ₘ acc → foldl (λ m e, <[e.1 := e.2]> m) acc (map_to_list facts) = facts ∪ acc.
Proof.
  assert (∀ l acc, NoDup l.*1 → list_to_map l ##ₘ acc →
    foldl (λ m e, <[e.1 := e.2]> m) acc l = (list_to_map l : gmap string string) ∪ acc) as Hl.
  { induction l as [|[k v] l IH]; intros acc' Hnd Hd; [cbn; by rewrite (left_id_L ∅ (∪))|].
    apply NoDup_cons in Hnd as [Hk Hnd]. cbn in Hd |- *.
    apply map_disjoint_insert_l in Hd as [Hacc Hd].
    assert ((list_to_map l : gmap string string) !! k = None) as Hl by by apply not_elem_of_list_to_map.
    rewrite IH; [|done|by apply map_disjoint_insert_r].
    rewrite <-insert_union_r by done. by rewrite insert_union_l. }
  intros Hd. rewrite Hl; [by rewrite list_to_map_to_list|apply NoDup_fst_map_to_list|by rewrite list_to_map_to_list].
Qed.

Lemma facts_roundtrip (facts : ConfigurationFactsData) :
  facts ≠ ∅ → (size facts ≤ MAX_CONFIGURATION_FACTS)%nat →
  map_Forall (λ name v, fact_ok name (JString v) = Some v) facts →
  sanitizeConfigurationFacts (Some (facts_json facts)) = Some facts.
Proof.
  intros Hne Hsize Hok. unfold sanitizeConfigurationFacts, facts_json.
  rewrite sanitize_facts_all.
  - rewrite foldl_insert_map by apply map_disjoint_empty_r. rewrite (right_id_L ∅ (∪)).
    by rewrite bool_decide_false.
  - by rewrite length_map_to_list.
  - apply Forall_forall. intros [k v] Hin%elem_of_map_to_list. by apply Hok.
Qed.

Lemma identities_roundtrip ids :
  ids ≠ mkIdentities None None None → identity_ok (journal ids) →
  identity_ok (snapshotStore ids) → identity_ok (durableStateStore ids) →
  sanitizeStorageIdentities (Some (identities_json ids)) = Some ids.
Proof.
  destruct ids as [j s d]. cbn [journal snapshotStore durableStateStore]. intros Hne Hj Hs Hd.
  unfold sanitizeStorageIdentities, identities_json, identity_claim. cbn [journal snapshotStore durableStateStore].
  destruct j as [j|], s as [s|], d as [d|]; cbn [optional_text app identity_ok] in *; lookups;
    rewrite ?Hj, ?Hs, ?Hd; by rewrite bool_decide_false.
Qed.

Lemma sanitizeStorageIdentities_ok data ids :
  sanitizeStorageIdentities data = Some ids →
  ids ≠ mkIdentities None None None ∧ identity_ok (journal ids) ∧
  identity_ok (snapshotStore ids) ∧ identity_ok (durableStateStore ids).
Proof.
  destruct data as [[]|]; try done. unfold sanitizeStorageIdentities. case_bool_decide; [done|].
  intros [= <-]. split_and!; [done|apply identity_claim_ok..].
Qed.

Lemma sanitizeConfigurationFacts_ok data facts :
  sanitizeConfigurationFacts data = Some facts →
  facts ≠ ∅ ∧ (size facts ≤ MAX_CONFIGURATION_FACTS)%nat ∧
  map_Forall (λ name v, fact_ok name (JString v) = Some v) facts.
Proof.
  destruct data as [[]|]; try done. unfold sanitizeConfigurationFacts. case_bool_decide; [done|].
  intros [= <-]. split; [done|].
  apply sanitize_facts_spec; [by rewrite map_size_empty|unfold MAX_CONFIGURATION_FACTS; lia|].
  apply map_Forall_empty.
Qed.

(** C28. A gossiped record is believed only within its limits: whatever a peer
    composes, a record that decodes carries a legal status, an address
    [NodeAddress] can hold, and only identity claims, configuration facts (at
    most sixteen) and a version label that pass their checks; and a member
    that keeps to these limits decodes from its own gossiped form unchanged. *)
Theorem member_decode (data : MemberData) (m : Member) :
  (∀ m', fromData data = Ok m' → claims_ok m' ∧ isMemberStatus (d_status data) = Some (status m') ∧
     version m' = d_version data ∧ fromJSON (d_address data) = Some (address m')) ∧
  (claims_ok m → fromData (toData m) = Ok m).
Proof.
  split.
  - unfold fromData. intros m' Hok. destruct (isMemberStatus _) as [s|]; [|done].
    destruct (fromJSON _) as [a|] eqn:Ea; [|done]. injection Hok as <-. split; [|done].
    unfold claims_ok. cbn [address storageIdentities configurationFacts appVersion]. split_and!.
    + by apply fromJSON_wf in Ea.
    + destruct (sanitizeStorageIdentities _) as [ids|] eqn:E; [|done]. by eapply sanitizeStorageIdentities_ok.
    + destruct (sanitizeConfigurationFacts _) as [facts|] eqn:E; [|done]. by eapply sanitizeConfigurationFacts_ok.
    + destruct (isAppVersion (d_appVersion data)) as [v|] eqn:Ev; [|done]. by eapply isAppVersion_sound.
  - intros (Ha & Hids & Hfacts & Hv). destruct m as [a s v r at_ ids facts app].
    cbn [address storageIdentities configurationFacts appVersion] in *.
    unfold fromData, toData. cbn [d_status d_address d_version d_roles d_removedAt d_storageIdentities
      d_configurationFacts d_appVersion address status version roles removedAt storageIdentities configurationFacts appVersion].
    rewrite isMemberStatus_name, NodeAddress.roundtrip by done. cbn [from_option].
    cbn [id]. rewrite list_to_set_elements_L. do 2 f_equal.
    + destruct ids as [ids|]; [|done]. destruct Hids as (? & ? & ? & ?). by apply identities_roundtrip.
    + destruct facts as [facts|]; [|done]. destruct Hfacts as (? & ? & ?). by apply facts_roundtrip.
    + destruct app; done.
Qed.

Definition example_member : Member :=
  mkMember (mkAddress "sys" "10.0.0.1" 2552 (Some "run-1")) up (Num 1700000000000) {["backend"]} None
    (Some (mkIdentities (Some "a7") None None)) (Some {["max-frame-size" := "262144"]}) (Some "1.4.0").

Lemma member_decode_witness : claims_ok example_member ∧ fromData (toData example_member) = Ok example_member.
Proof.
  assert (claims_ok example_member) as Hok.
  { split; [|split; [|split]].
    - split; [vm_compute; lia|split; [vm_compute; lia|split; [vm_compute; split; congruence|]]].
      vm_compute; split; congruence.
    - split; [discriminate|split; [vm_compute; reflexivity|split; exact I]].
    - split_and!; [done|vm_compute; lia|]. apply map_Forall_singleton. vm_compute. reflexivity.
    - vm_compute. reflexivity. }
  split; [exact Hok|]. exact (proj2 (member_decode (toData example_member) example_member) Hok).
Defined.

End Member.
