(* ===== verification/FailureDetector.v ===== *)
(** * Failure detectors: [src/cluster/FailureDetector.ts]

    [FailureDetectorLike] is what the cluster needs of a detector, with the
    laws its membership decisions rest on; [FailureDetector] is the simple,
    elapsed-time detector, which satisfies them. *)

From S2P Require Import Prelude Member.
Import NodeAddress.

Local Open Scope Z_scope.

Inductive FailureDecision : Type := healthy | unreachable_ | down_.

#[export] Instance FailureDecision_eq_dec : EqDecision FailureDecision.
Proof. solve_decision. Defined.

Class FailureDetectorLike (D : Type) := {
  fd_register : NodeAddress → Z → D → D;
  fd_heartbeat : NodeAddress → Z → D → D;
  fd_heardFrom : NodeAddress → Z → D → D;
  fd_decide : NodeAddress → Z → D → FailureDecision;
  fd_forget : NodeAddress → D → D;
  fd_lastSeen : NodeAddress → D → option Z;
}.

(** A frame makes its peer healthy at that instant, a forgotten peer is
    healthy, and neither says anything about another peer. *)
Class FailureDetectorLaws (D : Type) `{FailureDetectorLike D} (ok : D → Prop) := {
  fd_ok_heard p now d : ok d → ok (fd_heardFrom p now d);
  fd_ok_register p now d : ok d → ok (fd_register p now d);
  fd_ok_forget p d : ok d → ok (fd_forget p d);
  fd_heard_healthy p now d : ok d → fd_decide p now (fd_heardFrom p now d) = healthy;
  fd_heard_seen p now d : fd_lastSeen p (fd_heardFrom p now d) = Some now;
  fd_heard_other p q now now' d :
    toString p ≠ toString q → fd_decide q now' (fd_heardFrom p now d) = fd_decide q now' d;
  fd_forget_healthy p now d : fd_decide p now (fd_forget p d) = healthy;
  fd_forget_other p q now d : toString p ≠ toString q → fd_decide q now (fd_forget p d) = fd_decide q now d;
  fd_register_known p now now' d :
    is_Some (fd_lastSeen p d) → fd_decide p now' (fd_register p now d) = fd_decide p now' d;
}.

Module FailureDetector.

Record FailureDetectorOptions := mkFdOptions {
  heartbeatIntervalMs : Z;
  unreachableAfterMs : Z;
  downAfterMs : Z;
}.

Definition defaultFailureDetectorOptions : FailureDetectorOptions := mkFdOptions 500 2000 5000.

Record Sample := mkSample { sample_lastSeen : Z; everSeen : bool }.

Record FailureDetector := mkDetector {
  samples : gmap string Sample;
  options : FailureDetectorOptions;
}.

Definition heardFrom (peer : NodeAddress) (now : Z) (d : FailureDetector) : FailureDetector :=
  let key := toString peer in
  let prev := samples d !! key in
  mkDetector (<[key := mkSample now (default true (everSeen <$> prev))]> (samples d)) (options d).

Definition heartbeat (peer : NodeAddress) (now : Z) (d : FailureDetector) : FailureDetector := heardFrom peer now d.

Definition register (peer : NodeAddress) (now : Z) (d : FailureDetector) : FailureDetector :=
  let key := toString peer in
  match samples d !! key with
  | Some _ => d
  | None => mkDetector (<[key := mkSample now false]> (samples d)) (options d)
  end.

Definition forget (peer : NodeAddress) (d : FailureDetector) : FailureDetector :=
  mkDetector (delete (toString peer) (samples d)) (options d).

Definition decide_ (peer : NodeAddress) (now : Z) (d : FailureDetector) : FailureDecision :=
  match samples d !! toString peer with
  | None => healthy
  | Some sample =>
      let elapsed := now - sample_lastSeen sample in
      if elapsed >=? downAfterMs (options d) then down_
      else if elapsed >=? unreachableAfterMs (options d) then unreachable_
      else healthy
  end.

Definition lastSeen (peer : NodeAddress) (d : FailureDetector) : option Z :=
  sample_lastSeen <$> samples d !! toString peer.

#[global] Instance FailureDetector_like : FailureDetectorLike FailureDetector := {|
  fd_register := register; fd_heartbeat := heartbeat; fd_heardFrom := heardFrom;
  fd_decide := decide_; fd_forget := forget; fd_lastSeen := lastSeen;
|}.

(** The options the validator accepts. *)
Definition accepted (d : FailureDetector) : Prop :=
  0 < unreachableAfterMs (options d) ∧ unreachableAfterMs (options d) ≤ downAfterMs (options d).

Lemma decide_silence p t now d everSeen :
  accepted d → samples d !! toString p = Some (mkSample t everSeen) →
  (decide_ p now d = healthy ↔ now - t < unreachableAfterMs (options d)) ∧
  (decide_ p now d = unreachable_ ↔ unreachableAfterMs (options d) ≤ now - t < downAfterMs (options d)) ∧
  (decide_ p now d = down_ ↔ downAfterMs (options d) ≤ now - t).
Proof.
  intros [? ?] Hs. unfold decide_. rewrite Hs. cbn [sample_lastSeen].
  destruct (Z.geb_spec (now - t) (downAfterMs (options d)));
    [|destruct (Z.geb_spec (now - t) (unreachableAfterMs (options d)))];
    split_and!; split; intros; try done; lia.
Qed.

#[global] Instance FailureDetector_laws : FailureDetectorLaws FailureDetector accepted.
Proof.
  split; cbn.
  - done.
  - intros p now d Hd. unfold register. by destruct (samples d !! toString p).
  - done.
  - intros p now d Hd. eapply decide_silence; [done|by apply lookup_insert_eq|]. cbn. destruct Hd. lia.
  - intros p now d. unfold lastSeen, heardFrom. cbn. by rewrite lookup_insert_eq.
  - intros p q now now' d Hne. unfold decide_, heardFrom. cbn. by rewrite lookup_insert_ne.
  - intros p now d. unfold decide_, forget. cbn. by rewrite lookup_delete_eq.
  - intros p q now d Hne. unfold decide_, forget. cbn. by rewrite lookup_delete_ne.
  - intros p now now' d [x Hx]. unfold lastSeen in Hx. unfold register.
    by destruct (samples d !! toString p).
Qed.

End FailureDetector.
