(* ===== verification/Downing.v ===== *)
(** * Split-brain resolvers: [src/cluster/downing/]

    A strategy looks at one node's view of a partition and names the members
    to down.  Each side of a partition runs it on its own view; what makes a
    strategy a resolver is that not more than one side keeps running.  The
    stability window in front of the strategies is at the end of the file. *)

From S2P Require Import Prelude Member.
Import NodeAddress Member.

Local Open Scope Z_scope.

(** [String.prototype.localeCompare]: [a.localeCompare(b) <= 0]. *)
Class LocaleCompare := locale_le : string → string → bool.

(** The comparison is a total order that tells distinct strings apart, as it
    does for the printable ASCII of addresses. *)
Class LocaleOrder `{LocaleCompare} := {
  locale_refl a : locale_le a a = true;
  locale_trans a b c : locale_le a b = true → locale_le b c = true → locale_le a c = true;
  locale_antisym a b : locale_le a b = true → locale_le b a = true → a = b;
  locale_total a b : locale_le a b = true ∨ locale_le b a = true;
}.

(** Code-point order, as an instance. *)
Definition code_point_compare : LocaleCompare := String.leb.

Lemma code_point_order : @LocaleOrder code_point_compare.
Proof.
  unfold code_point_compare. split; unfold locale_le.
  - intros a. destruct (String.leb_total a a); done.
  - intros a b c Hab Hbc. assert (String.le a c) as H; [|unfold String.le in H; by destruct (String.leb a c)].
    transitivity b; unfold String.le; [by rewrite Hab|by rewrite Hbc].
  - apply String.leb_antisym.
  - apply String.leb_total.
Qed.

Record ClusterPartitionView := mkView {
  allMembers : list Member;
  unreachable_keys : gset string;
  self : NodeAddress;
}.

Definition DowningDecision : Type := gset string.

Definition addrKey (m : Member) : string := toString (address m).

(** [if (this.options.role)]: an empty role counts as none. *)
Definition role_matches (role : option string) (m : Member) : bool :=
  match role with
  | Some r => if bool_decide (r = "") then true else hasRole r m
  | None => true
  end.

Definition is_candidate (role : option string) (m : Member) : bool :=
  match status m with up | leaving | unreachable => role_matches role m | _ => false end.

Definition candidates (role : option string) (v : ClusterPartitionView) : list Member :=
  filter (λ m, is_candidate role m = true) (allMembers v).

Definition reachable_of (v : ClusterPartitionView) (l : list Member) : list Member :=
  filter (λ m, addrKey m ∉ unreachable_keys v) l.

Definition unreachable_of (v : ClusterPartitionView) (l : list Member) : list Member :=
  filter (λ m, addrKey m ∈ unreachable_keys v) l.

(** [new Set(members.map(addrKey))]. *)
Definition keys (l : list Member) : gset string := list_to_set (addrKey <$> l).

Module KeepMajority.

Definition decide (role : option string) (v : ClusterPartitionView) : gset string :=
  let candidates := candidates role v in
  if bool_decide (candidates = []) then ∅
  else
    let reachable := reachable_of v candidates in
    let unreachable := unreachable_of v candidates in
    let count := Z.of_nat (length candidates) in
    let needed := count / 2 + 1 in
    if Z.of_nat (length reachable) >=? needed then keys unreachable
    else if Z.of_nat (length unreachable) >=? needed then keys reachable
    else keys reachable.

End KeepMajority.

Module KeepOldest.

Definition compareTo `{LocaleCompare} (a b : Member) : Prop :=
  locale_le (addrKey a) (addrKey b) = true.

#[global] Instance compareTo_dec `{LocaleCompare} : RelDecision compareTo.
Proof. intros a b. unfold compareTo. apply _. Defined.

Definition decide `{LocaleCompare} (role : option string) (downIfAlone : bool) (v : ClusterPartitionView)
    : gset string :=
  let candidates := candidates role v in
  match merge_sort compareTo candidates with
  | [] => ∅
  | oldest :: _ =>
      let reachable := reachable_of v candidates in
      let unreachable := unreachable_of v candidates in
      if bool_decide (addrKey oldest ∉ unreachable_keys v) then keys unreachable
      else if downIfAlone then keys reachable
      else keys reachable
  end.

End KeepOldest.

Module KeepReferee.

Definition decide (refereeAddress : string) (downAllIfBelowQuorum : option Z) (v : ClusterPartitionView)
    : gset string :=
  let candidates := candidates None v in
  match List.find (λ m, bool_decide (addrKey m = refereeAddress)) candidates with
  | None => ∅
  | Some referee =>
      let reachable := reachable_of v candidates in
      let unreachable := unreachable_of v candidates in
      if bool_decide (addrKey referee ∉ unreachable_keys v) then
        match downAllIfBelowQuorum with
        | Some quorum => if Z.of_nat (length reachable) <? quorum then keys (reachable ++ unreachable)
                         else keys unreachable
        | None => keys unreachable
        end
      else keys reachable
  end.

End KeepReferee.

Module StaticQuorum.

Definition decide (quorumSize : Z) (role : option string) (v : ClusterPartitionView) : gset string :=
  let candidates := candidates role v in
  let reachable := reachable_of v candidates in
  let unreachable := unreachable_of v candidates in
  if Z.of_nat (length reachable) >=? quorumSize then keys unreachable else keys reachable.

End StaticQuorum.

(** The membership-only strategies a configuration can select. *)
Inductive Strategy : Type :=
| keep_majority (role : option string)
| keep_oldest (role : option string) (downIfAlone : bool)
| keep_referee (refereeAddress : string) (downAllIfBelowQuorum : option Z)
| static_quorum (quorumSize : Z) (role : option string).

Definition strategy_decide `{LocaleCompare} (s : Strategy) : ClusterPartitionView → gset string :=
  match s with
  | keep_majority role => KeepMajority.decide role
  | keep_oldest role alone => KeepOldest.decide role alone
  | keep_referee referee quorum => KeepReferee.decide referee quorum
  | static_quorum size role => StaticQuorum.decide size role
  end.

Definition strategy_role (s : Strategy) : option string :=
  match s with
  | keep_majority role | keep_oldest role _ | static_quorum _ role => role
  | keep_referee _ _ => None
  end.

(** ** A partition seen from two sides *)

Section split.
Context `{LocaleOrder}.

Definition side (s : Strategy) (v : ClusterPartitionView) : gset string :=
  keys (reachable_of v (candidates (strategy_role s) v)).

Definition others (s : Strategy) (v : ClusterPartitionView) : gset string :=
  keys (unreachable_of v (candidates (strategy_role s) v)).

(** Two nodes that know the same candidates and of which neither reaches what
    the other reaches; there may be more sides than these two. *)
Record split (s : Strategy) (va vb : ClusterPartitionView) : Prop := {
  split_candidates : addrKey <$> candidates (strategy_role s) va ≡ₚ addrKey <$> candidates (strategy_role s) vb;
  split_distinct : NoDup (addrKey <$> candidates (strategy_role s) va);
  split_disjoint : side s va ## side s vb;
}.

(** Somebody on the side of the view keeps running after its decision. *)
Definition survives (s : Strategy) (v : ClusterPartitionView) : Prop :=
  ∃ k, k ∈ side s v ∧ k ∉ strategy_decide s v.

(** The configuration settles every partition: a static quorum is one only if
    two sides cannot both have it, a referee only while it is a member. *)
Definition arbitrates (s : Strategy) (v : ClusterPartitionView) : Prop :=
  match s with
  | static_quorum size role => Z.of_nat (length (candidates role v)) < 2 * size
  | keep_referee referee _ => referee ∈ addrKey <$> candidates None v
  | _ => True
  end.

Lemma elem_of_keys k l : k ∈ keys l ↔ k ∈ addrKey <$> l.
Proof. unfold keys. apply elem_of_list_to_set. Qed.

Lemma length_sides v l : (length (reachable_of v l) + length (unreachable_of v l) = length l)%nat.
Proof.
  unfold reachable_of, unreachable_of. induction l as [|m l IH]; [done|]. rewrite !filter_cons.
  destruct (decide (addrKey m ∉ _)), (decide (addrKey m ∈ _)); simpl; try done; lia || (exfalso; tauto).
Qed.

Lemma size_keys l : NoDup (addrKey <$> l) → size (keys l) = length l.
Proof. intros Hnd. unfold keys. rewrite size_list_to_set by done. apply length_fmap. Qed.

Lemma NoDup_filtered (P : Member → Prop) `{!∀ m, Decision (P m)} l :
  NoDup (addrKey <$> l) → NoDup (addrKey <$> filter P l).
Proof. intros Hnd. eapply sublist_NoDup; [done|]. apply fmap_sublist, list.sublist_filter. Qed.

Lemma elem_of_reachable v l m : m ∈ reachable_of v l ↔ (addrKey m ∉ unreachable_keys v) ∧ m ∈ l.
Proof. unfold reachable_of. by rewrite list_elem_of_filter. Qed.

Lemma elem_of_unreachable v l m : m ∈ unreachable_of v l ↔ (addrKey m ∈ unreachable_keys v) ∧ m ∈ l.
Proof. unfold unreachable_of. by rewrite list_elem_of_filter. Qed.

Lemma elem_of_side s v k :
  k ∈ side s v ↔ k ∈ addrKey <$> candidates (strategy_role s) v ∧ k ∉ unreachable_keys v.
Proof.
  unfold side. rewrite elem_of_keys, !list_elem_of_fmap. setoid_rewrite elem_of_reachable. naive_solver.
Qed.

Lemma elem_of_others s v k :
  k ∈ others s v ↔ k ∈ addrKey <$> candidates (strategy_role s) v ∧ k ∈ unreachable_keys v.
Proof.
  unfold others. rewrite elem_of_keys, !list_elem_of_fmap. setoid_rewrite elem_of_unreachable. naive_solver.
Qed.

(** The side across the split is within what the view cannot reach. *)
Lemma split_others s va vb : split s va vb → side s vb ⊆ others s va.
Proof.
  intros [Hp _ Hd] k Hk. pose proof Hk as [Hc _]%elem_of_side. rewrite <- Hp in Hc.
  rewrite elem_of_others. split; [done|].
  destruct (decide (k ∈ unreachable_keys va)) as [|Hu]; [done|]. exfalso. apply (Hd k); [|done].
  by rewrite elem_of_side.
Qed.

Lemma split_sym s va vb : split s va vb → split s vb va.
Proof. intros [Hp Hn Hd]. split; [by symmetry|by rewrite <- Hp|done]. Qed.

Lemma split_length s va vb : split s va vb →
  length (candidates (strategy_role s) va) = length (candidates (strategy_role s) vb).
Proof. intros [Hp _ _]. apply Permutation_length in Hp. by rewrite !length_fmap in Hp. Qed.

Lemma split_sizes s va vb : split s va vb →
  (length (reachable_of va (candidates (strategy_role s) va)) +
   length (reachable_of vb (candidates (strategy_role s) vb))
   <= length (candidates (strategy_role s) va))%nat.
Proof.
  intros Hsplit. pose proof (split_others _ _ _ Hsplit) as Hsub%subseteq_size.
  destruct Hsplit as [Hp Hn _]. assert (Hn' := Hn). rewrite Hp in Hn'.
  unfold side, others, reachable_of, unreachable_of in Hsub.
  rewrite !size_keys in Hsub by (by apply NoDup_filtered).
  pose proof (length_sides va (candidates (strategy_role s) va)) as Hl.
  unfold reachable_of, unreachable_of in *. lia.
Qed.

(** The first of the sorted candidates has the least key. *)
Lemma oldest_least l o r : merge_sort KeepOldest.compareTo l = o :: r →
  addrKey o ∈ addrKey <$> l ∧ ∀ k, k ∈ addrKey <$> l → locale_le (addrKey o) k = true.
Proof.
  intros Ho. pose proof (merge_sort_Permutation KeepOldest.compareTo l) as Hp. rewrite Ho in Hp.
  assert (Hs : StronglySorted KeepOldest.compareTo (o :: r)).
  { rewrite <- Ho. apply StronglySorted_merge_sort.
    - intros a b c. apply locale_trans.
    - intros a b. apply locale_total. }
  split; [rewrite <- Hp; constructor|]. intros k Hk. rewrite <- Hp, list_elem_of_fmap in Hk.
  destruct Hk as (m & -> & [->|Hm]%elem_of_cons); [apply locale_refl|].
  apply StronglySorted_inv in Hs as [_ Hf]. rewrite Forall_forall in Hf. by apply Hf.
Qed.

Lemma oldest_unique l l' o r o' r' : addrKey <$> l ≡ₚ addrKey <$> l' →
  merge_sort KeepOldest.compareTo l = o :: r → merge_sort KeepOldest.compareTo l' = o' :: r' →
  addrKey o = addrKey o'.
Proof.
  intros Hp [Hi Hl]%oldest_least [Hi' Hl']%oldest_least.
  apply locale_antisym; [apply Hl; by rewrite Hp|apply Hl'; by rewrite <- Hp].
Qed.

Lemma find_referee referee l m : List.find (λ m, bool_decide (addrKey m = referee)) l = Some m →
  addrKey m = referee ∧ m ∈ l.
Proof. intros [Hm Hb]%List.find_some. apply bool_decide_eq_true in Hb. by rewrite list_elem_of_In. Qed.

Lemma find_referee_found referee l : referee ∈ addrKey <$> l →
  ∃ m, List.find (λ m, bool_decide (addrKey m = referee)) l = Some m.
Proof.
  intros (m & -> & Hm)%list_elem_of_fmap. destruct (List.find _ l) as [m'|] eqn:E; [eauto|].
  apply list_elem_of_In in Hm. apply (List.find_none _ _ E) in Hm. by rewrite bool_decide_eq_false in Hm.
Qed.

Lemma keys_app l l' : keys (l ++ l') = keys l ∪ keys l'.
Proof. unfold keys. by rewrite fmap_app, list_to_set_app_L. Qed.

(** A strategy that arbitrates downs the other side or its own. *)
Lemma decide_cases s v : arbitrates s v →
  strategy_decide s v = others s v ∨ side s v ⊆ strategy_decide s v.
Proof.
  destruct s as [role|role alone|referee quorum|size role]; simpl; intros Ha;
    unfold side, others; simpl.
  - unfold KeepMajority.decide. case_bool_decide as Hc; [rewrite Hc; by left|]. repeat case_match; auto.
  - unfold KeepOldest.decide. destruct (merge_sort _ _) as [|o r] eqn:E.
    + pose proof (merge_sort_Permutation KeepOldest.compareTo (candidates role v)) as Hp.
      rewrite E in Hp. apply Permutation_nil_l in Hp. rewrite <- Hp. by left.
    + repeat case_match; auto.
  - unfold KeepReferee.decide. destruct (find_referee_found _ _ Ha) as [m ->].
    repeat case_match; rewrite ?keys_app; auto. right. set_solver.
  - unfold StaticQuorum.decide. repeat case_match; auto.
Qed.

(** A side with a survivor has what the strategy asks for. *)
Lemma survives_majority role v : survives (keep_majority role) v →
  (length (candidates role v) < 2 * length (reachable_of v (candidates role v)))%nat.
Proof.
  intros (k & Hk & Hn). unfold side in Hk. simpl in *. unfold KeepMajority.decide in Hn.
  case_bool_decide as Hc; [by rewrite Hc in Hk|].
  pose proof (Z.mul_succ_div_gt (Z.of_nat (length (candidates role v))) 2).
  destruct (_ >=? _) eqn:E; [lia|]. destruct (_ >=? _) in Hn; by destruct Hn.
Qed.

Lemma survives_quorum size role v : survives (static_quorum size role) v →
  size ≤ Z.of_nat (length (reachable_of v (candidates role v))).
Proof.
  intros (k & Hk & Hn). unfold side in Hk. simpl in *. unfold StaticQuorum.decide in Hn.
  destruct (_ >=? _) eqn:E; [lia|by destruct Hn].
Qed.

Lemma survives_oldest role alone v : survives (keep_oldest role alone) v →
  ∃ o r, merge_sort KeepOldest.compareTo (candidates role v) = o :: r ∧
    addrKey o ∈ side (keep_oldest role alone) v.
Proof.
  intros (k & Hk & Hn). simpl in *. unfold KeepOldest.decide in Hn.
  destruct (merge_sort _ _) as [|o r] eqn:E.
  - pose proof (merge_sort_Permutation KeepOldest.compareTo (candidates role v)) as Hp.
    rewrite E in Hp. apply Permutation_nil_l in Hp. unfold side in Hk. simpl in Hk. by rewrite <- Hp in Hk.
  - exists o, r. split; [done|]. apply elem_of_side. split; [by eapply oldest_least|].
    case_bool_decide as Hu; [done|]. by destruct alone, Hn.
Qed.

Lemma survives_referee referee quorum v : referee ∈ addrKey <$> candidates None v →
  survives (keep_referee referee quorum) v → referee ∈ side (keep_referee referee quorum) v.
Proof.
  intros Hr (k & Hk & Hn). simpl in *. unfold KeepReferee.decide in Hn.
  destruct (find_referee_found _ _ Hr) as [m E]. rewrite E in Hn. apply find_referee in E as [<- _].
  apply elem_of_side. split; [done|]. case_bool_decide as Hu; [done|by destruct Hn].
Qed.

Lemma not_both s va vb : split s va vb → arbitrates s va → survives s va → survives s vb → False.
Proof.
  intros Hs Ha Hva Hvb. pose proof Hs as [Hp _ Hd]. pose proof (split_sizes _ _ _ Hs) as Hz.
  pose proof (split_length _ _ _ Hs) as Hl. destruct s as [role|role alone|referee quorum|size role]; simpl in *.
  - apply survives_majority in Hva, Hvb. lia.
  - apply survives_oldest in Hva as (o & r & Ho & Hin), Hvb as (o' & r' & Ho' & Hin').
    rewrite (oldest_unique _ _ _ _ _ _ Hp Ho Ho') in Hin. by apply (Hd (addrKey o')).
  - apply (survives_referee _ _ _ Ha) in Hva. rewrite Hp in Ha.
    apply (survives_referee _ _ _ Ha) in Hvb. by apply (Hd referee).
  - apply survives_quorum in Hva, Hvb. lia.
Qed.

(** C22. At most one side of a partition keeps running under a strategy that
    arbitrates: when two nodes know the same candidates and neither reaches
    what the other reaches, then the side that keeps running downs the unreachable
    candidates, which include the whole other side, and nobody on that other
    side survives its own decision.  A static quorum arbitrates when it is more
    than half of the candidates, a referee while it is one of them, the
    majority and the oldest always; one that does not may keep both sides
    ([small_quorum_keeps_both]). *)
Theorem downing_one_survivor (s : Strategy) (va vb : ClusterPartitionView) :
  split s va vb → arbitrates s va →
  survives s va →
  strategy_decide s va = others s va ∧ side s vb ⊆ strategy_decide s va ∧
  side s vb ⊆ strategy_decide s vb.
Proof.
  intros Hs Ha Hva.
  assert (Hk : strategy_decide s va = others s va).
  { destruct (decide_cases s va Ha) as [|Hsub]; [done|]. destruct Hva as (k & Hk & []); auto. }
  split; [done|]. split; [rewrite Hk; by apply split_others|].
  intros k Hk'. destruct (decide (k ∈ strategy_decide s vb)) as [|Hn]; [done|].
  exfalso. eapply not_both; eauto. by exists k.
Qed.

End split.

Definition node (host : string) (port : Z) : NodeAddress := mkAddress "sys" host port None.

Definition up_member (a : NodeAddress) : Member := mkMember a up (Num 1) ∅ None None None None.

Definition three : list Member := [up_member (node "a" 1); up_member (node "b" 1); up_member (node "c" 1)].

Lemma downing_one_survivor_witness :
  let va := mkView three {["sys@c:1"]} (node "a" 1) in
  let vb := mkView three {["sys@a:1"; "sys@b:1"]} (node "c" 1) in
  strategy_decide (H := code_point_compare) (keep_majority None) va = {["sys@c:1"]} ∧
  strategy_decide (H := code_point_compare) (keep_majority None) va = others (keep_majority None) va ∧
  side (keep_majority None) vb ⊆ strategy_decide (H := code_point_compare) (keep_majority None) va ∧
  side (keep_majority None) vb ⊆ strategy_decide (H := code_point_compare) (keep_majority None) vb.
Proof.
  intros va vb. split; [by vm_compute|].
  apply (@downing_one_survivor code_point_compare code_point_order).
  - split; [done|by apply (bool_decide_unpack _); vm_compute|by apply (bool_decide_unpack _); vm_compute].
  - exact I.
  - exists "sys@a:1". split; [by apply (bool_decide_unpack _); vm_compute|].
    by apply (bool_decide_unpack _); vm_compute.
Defined.

(** A quorum of half the candidates, which the validator accepts, is on both
    sides of an even split: each keeps running and downs the other. *)
Example small_quorum_keeps_both :
  let four := three ++ [up_member (node "d" 1)] in
  let va := mkView four {["sys@c:1"; "sys@d:1"]} (node "a" 1) in
  let vb := mkView four {["sys@a:1"; "sys@b:1"]} (node "c" 1) in
  StaticQuorum.decide 2 None va = side (static_quorum 2 None) vb ∧
  StaticQuorum.decide 2 None vb = side (static_quorum 2 None) va.
Proof. split; vm_compute; reflexivity. Qed.

(** [downIfAlone] changes nothing: when the oldest candidate is the only one
    unreachable, the others down themselves with it and without it. *)
Lemma keep_oldest_crash `{LocaleOrder} role alone v o r :
  merge_sort KeepOldest.compareTo (candidates role v) = o :: r →
  unreachable_keys v = {[addrKey o]} →
  KeepOldest.decide role alone v = keys (reachable_of v (candidates role v)).
Proof.
  intros Ho Hu. unfold KeepOldest.decide. rewrite Ho, bool_decide_eq_false_2 by set_solver. by destruct alone.
Qed.
