(* ===== verification/StabilityWindow.v ===== *)
(** * The stability window: [src/cluster/downing/StabilityWindow.ts]

    When a split-brain resolver may be asked ([Cluster.evaluateDowning]): once
    the view held still, once one peer was silent through churn, or not at all
    because the whole cluster goes down.  The specification reads the history
    of ticks, which the class does not keep. *)

From S2P Require Import Prelude.

Local Open Scope Z_scope.

Definition DEFAULT_UNSTABLE_ESCALATION_FACTOR : Z := 3.
Definition DEFAULT_UNREACHABLE_ARBITRATION_FACTOR : Z := 2.

Definition unstableEscalationDeadlineMs (stableAfterMs : Z) : Z :=
  stableAfterMs * DEFAULT_UNSTABLE_ESCALATION_FACTOR.

Definition unreachableArbitrationDeadlineMs (stableAfterMs : Z) : Z :=
  stableAfterMs * DEFAULT_UNREACHABLE_ARBITRATION_FACTOR.

Module StabilityWindow.

Record StabilityWindow := mkWindow {
  stableAfterMs : Z;
  downAllWhenUnstable : bool;
  currentView : option string;
  stableSince : Z;
  unstableSince : option Z;
  unreachableSince : gmap string Z;
}.

Definition construct (stableAfterMs : Z) (downAllWhenUnstable : bool) : StabilityWindow :=
  mkWindow stableAfterMs downAllWhenUnstable None 0 None ∅.

Definition trackUnreachableSince (since : gmap string Z) (unreachable : gset string) (now : Z) : gmap string Z :=
  let kept := filter (λ kv, kv.1 ∈ unreachable) since in
  kept ∪ gset_to_gmap now unreachable.

Definition observe (w : StabilityWindow) (fingerprint : string) (unreachable : gset string) (now : Z)
    : StabilityWindow * bool :=
  let since := trackUnreachableSince (unreachableSince w) unreachable now in
  if bool_decide (Some fingerprint ≠ currentView w) then
    let unstable := match currentView w, unstableSince w with
                    | Some _, None => Some now
                    | _, unstable => unstable
                    end in
    (mkWindow (stableAfterMs w) (downAllWhenUnstable w) (Some fingerprint) now unstable since, false)
  else if now - stableSince w <? stableAfterMs w then
    (mkWindow (stableAfterMs w) (downAllWhenUnstable w) (currentView w) (stableSince w) (unstableSince w) since,
     false)
  else
    (mkWindow (stableAfterMs w) (downAllWhenUnstable w) (currentView w) (stableSince w) None since, true).

Definition takeEscalation (w : StabilityWindow) (unreachable : gset string) (now : Z)
    : StabilityWindow * option Z :=
  if downAllWhenUnstable w then
    if bool_decide (unreachable = ∅) then (w, None)
    else match unstableSince w with
         | None => (w, None)
         | Some since =>
             let unstableForMs := now - since in
             if unstableForMs <=? unstableEscalationDeadlineMs (stableAfterMs w) then (w, None)
             else (mkWindow (stableAfterMs w) (downAllWhenUnstable w) (currentView w) (stableSince w) None
                            (unreachableSince w), Some unstableForMs)
         end
  else (w, None).

Definition hasOutlastedChurn (w : StabilityWindow) (now : Z) : bool :=
  existsb (λ since, unreachableArbitrationDeadlineMs (stableAfterMs w) <=? now - since)
          (map_to_list (unreachableSince w)).*2.

(** One tick of [evaluateDowning] up to the point where the provider is asked. *)
Record Tick := mkTick { fingerprint : string; unreachable : gset string; now : Z }.

Inductive Answer := wait | downAll (unstableForMs : Z) | arbitrate.

Definition consult (w : StabilityWindow) (t : Tick) : StabilityWindow * Answer :=
  let '(w1, stable) := observe w (fingerprint t) (unreachable t) (now t) in
  if stable then (w1, arbitrate)
  else
    let '(w2, escalation) := takeEscalation w1 (unreachable t) (now t) in
    match escalation with
    | Some unstableForMs => (w2, downAll unstableForMs)
    | None => if hasOutlastedChurn w2 (now t) then (w2, arbitrate) else (w2, wait)
    end.

(** The window after a history, the newest tick first. *)
Fixpoint after (w : StabilityWindow) (h : list Tick) : StabilityWindow :=
  match h with [] => w | t :: h => fst (consult (after w h) t) end.

(** ** What the history says *)

(** Up to the newest tick, every tick since one of at least [d] ago satisfied [P]. *)
Definition lasting (P : Tick → Prop) (d : Z) (h : list Tick) : Prop :=
  ∃ recent t older, h = recent ++ t :: older ∧ Forall P (recent ++ [t]) ∧
    ∃ newest, head h = Some newest ∧ d ≤ now newest - now t.

(** The view of the newest tick is not new and has held for [d]. *)
Definition held (d : Z) (h : list Tick) : Prop :=
  match h with
  | t :: t' :: _ => fingerprint t = fingerprint t' ∧ lasting (λ o, fingerprint o = fingerprint t) d h
  | _ => False
  end.

(** The clock of a process does not run backwards. *)
Definition clocked (h : list Tick) : Prop := StronglySorted (λ t t', now t' ≤ now t) h.

Fixpoint since (P : Tick → Prop) `{!∀ t, Decision (P t)} (h : list Tick) : option Z :=
  match h with
  | [] => None
  | t :: h => if decide (P t) then Some (default (now t) (since P h)) else None
  end.

Section history.
Context (P : Tick → Prop) `{!∀ t, Decision (P t)}.

Lemma since_run h s : since P h = Some s →
  ∃ recent t older, h = recent ++ t :: older ∧ Forall P (recent ++ [t]) ∧ now t = s.
Proof.
  revert s. induction h as [|t h IH]; [done|]. intros s. simpl. destruct (decide (P t)) as [Ht|]; [|done].
  destruct (since P h) as [s'|] eqn:E; intros [= <-]; simpl.
  - destruct (IH s' eq_refl) as (recent & t' & older & -> & Hall & Hs).
    exists (t :: recent), t', older. split_and!; [done|by constructor|done].
  - exists [], t, h. split_and!; [done|by repeat constructor|done].
Qed.

Lemma since_earliest recent t older : clocked (recent ++ t :: older) → Forall P (recent ++ [t]) →
  ∃ s, since P (recent ++ t :: older) = Some s ∧ s ≤ now t.
Proof.
  unfold clocked. revert t older. induction recent as [|t' recent IH]; intros t older Hc Hall; simpl.
  - rewrite app_nil_l in Hall. rewrite Forall_singleton in Hall. rewrite decide_True by done.
    eexists. split; [done|]. destruct (since P older) as [s|] eqn:E; simpl; [|done].
    apply since_run in E as (recent & t' & older' & -> & _ & <-).
    apply StronglySorted_inv in Hc as [_ Hc]. rewrite Forall_forall in Hc. apply Hc.
    apply elem_of_app. right. left.
  - apply Forall_cons in Hall as [Ht Hall]. apply StronglySorted_inv in Hc as [Hc _].
    rewrite decide_True by done. destruct (IH t older Hc Hall) as (s & -> & Hs). simpl. eauto.
Qed.

Lemma lasting_since d t h : clocked (t :: h) →
  lasting P d (t :: h) ↔ ∃ s, since P (t :: h) = Some s ∧ d ≤ now t - s.
Proof.
  intros Hc. split.
  - intros (recent & o & older & Heq & Hall & newest & [= <-] & Hd). rewrite Heq in Hc |- *.
    destruct (since_earliest _ _ _ Hc Hall) as (s & -> & Hs). exists s. split; [done|lia].
  - intros (s & Hs & Hd). apply since_run in Hs as (recent & o & older & Heq & Hall & Ho).
    exists recent, o, older. split_and!; [done|done|]. exists t. split; [done|lia].
Qed.

End history.

(** ** What the window keeps of the history *)

Definition tracks (w0 : StabilityWindow) (h : list Tick) (w : StabilityWindow) : Prop :=
  stableAfterMs w = stableAfterMs w0 ∧ downAllWhenUnstable w = downAllWhenUnstable w0 ∧
  currentView w = fingerprint <$> head h ∧
  (∀ t, head h = Some t → since (λ o, fingerprint o = fingerprint t) h = Some (stableSince w)) ∧
  (∀ k, unreachableSince w !! k = since (λ o, k ∈ unreachable o) h).

Lemma lookup_trackUnreachableSince m u n k :
  trackUnreachableSince m u n !! k = if decide (k ∈ u) then Some (default n (m !! k)) else None.
Proof.
  unfold trackUnreachableSince. rewrite lookup_union, lookup_gset_to_gmap.
  destruct (decide (k ∈ u)) as [Hu|Hu].
  - rewrite option_guard_True by done. destruct (m !! k) as [s|] eqn:E.
    + rewrite (map_lookup_filter_Some_2 _ m k s); done.
    + by rewrite map_lookup_filter_None_2 by auto.
  - rewrite option_guard_False by done. by rewrite map_lookup_filter_None_2 by (right; intros ? _; done).
Qed.

Lemma takeEscalation_keeps w u n : ∃ unstable,
  fst (takeEscalation w u n) = mkWindow (stableAfterMs w) (downAllWhenUnstable w) (currentView w)
                                        (stableSince w) unstable (unreachableSince w).
Proof.
  unfold takeEscalation. destruct w; simpl. repeat case_match; eauto.
Qed.

Lemma consult_observe w t : ∃ unstable,
  fst (consult w t) =
    let w1 := fst (observe w (fingerprint t) (unreachable t) (now t)) in
    mkWindow (stableAfterMs w1) (downAllWhenUnstable w1) (currentView w1) (stableSince w1) unstable
             (unreachableSince w1).
Proof.
  unfold consult. destruct (observe _ _ _ _) as [w1 stable]. destruct stable; [destruct w1; simpl; eauto|].
  destruct (takeEscalation_keeps w1 (unreachable t) (now t)) as [u Hu].
  destruct (takeEscalation _ _ _) as [w2 e]. simpl in *. destruct e; [eauto|]. case_match; simpl; eauto.
Qed.

Lemma after_tracks w h : currentView w = None → unreachableSince w = ∅ → tracks w h (after w h).
Proof.
  intros Hv Hu. induction h as [|t h IH]; simpl; unfold tracks.
  - rewrite Hu. by split_and!; try done.
  - destruct IH as (Hs & Hd & Hc & Hst & Hun). destruct (consult_observe (after w h) t) as [u ->]. simpl.
    assert (Htrack : ∀ k, trackUnreachableSince (unreachableSince (after w h)) (unreachable t) (now t) !! k =
                          since (λ o, k ∈ unreachable o) (t :: h)).
    { intros k. rewrite lookup_trackUnreachableSince, Hun. done. }
    unfold observe. case_bool_decide as Hnew; [|destruct (_ <? _)]; simpl;
      (split_and!; [done|done|done|intros ? [= <-]; rewrite decide_True by done|exact Htrack]).
    + destruct h as [|t' h]; [done|]. rewrite Hc in Hnew. simpl in *. rewrite decide_False; [done|].
      congruence.
    + rewrite Hc in Hnew. destruct h as [|t' h]; [done|]. simpl in Hnew. injection Hnew as ->.
      by rewrite (Hst t' eq_refl).
    + rewrite Hc in Hnew. destruct h as [|t' h]; [done|]. simpl in Hnew. injection Hnew as ->.
      by rewrite (Hst t' eq_refl).
Qed.

Definition verdict (w : StabilityWindow) (h : list Tick) : Answer :=
  match h with [] => wait | t :: h => snd (consult (after w h) t) end.

Section window.
Context (d : Z) (b : bool).
Abbreviation window h := (after (construct d b) h).

Lemma window_tracks h : tracks (construct d b) h (window h).
Proof. by apply after_tracks. Qed.

Lemma clocked_tail t h : clocked (t :: h) → clocked h.
Proof. by intros [? _]%StronglySorted_inv. Qed.

Lemma observe_held t h : clocked (t :: h) →
  snd (observe (window h) (fingerprint t) (unreachable t) (now t)) = true ↔ held d (t :: h).
Proof.
  intros Hc. pose proof (window_tracks h) as (Hd & _ & Hv & Hs & _). revert Hd Hv Hs.
  generalize (window h) as w. intros w Hd Hv Hs. unfold observe. rewrite Hv.
  destruct h as [|t' h]; cbn [head fmap option_fmap option_map held].
  - by rewrite bool_decide_eq_true_2.
  - case_bool_decide as Hnew; [split; [done|intros [? _]; congruence]|]. injection Hnew as Hnew.
    rewrite Hd, (lasting_since (λ o, fingerprint o = fingerprint t)) by done. destruct t as [f u n]. cbn [fingerprint now unreachable] in *. subst f.
    specialize (Hs t' eq_refl). cbn [since fingerprint] in Hs |- *. rewrite Hs.
    rewrite decide_True by done. cbn [default option_rect stableAfterMs construct].
    destruct (Z.ltb_spec (n - stableSince w) d).
    + split; [done|]. intros (_ & s & [= <-] & Hle). simpl in *. lia.
    + split; [|done]. intros _. split; [done|]. eexists. split; [done|]. done.
Qed.

Lemma outlasted_lasting t h : clocked (t :: h) →
  hasOutlastedChurn (window (t :: h)) (now t) = true ↔
  ∃ k, lasting (λ o, k ∈ unreachable o) (unreachableArbitrationDeadlineMs d) (t :: h).
Proof.
  intros Hc. destruct (window_tracks (t :: h)) as (Hd & _ & _ & _ & Hu). unfold hasOutlastedChurn.
  rewrite existsb_exists. setoid_rewrite <- list_elem_of_In. setoid_rewrite list_elem_of_fmap. rewrite Hd.
  cbn [stableAfterMs construct]. split.
  - intros (s & ([k ?] & -> & Hk%elem_of_map_to_list) & Hle%Z.leb_le). rewrite Hu in Hk. exists k.
    rewrite (lasting_since (λ o, k ∈ unreachable o)) by done. eauto.
  - intros (k & Hk). rewrite (lasting_since (λ o, k ∈ unreachable o)) in Hk by done. destruct Hk as (s & Hk & Hle).
    rewrite <- Hu in Hk. exists s. split; [|by apply Z.leb_le]. exists (k, s). split; [done|].
    by apply elem_of_map_to_list.
Qed.

(** The three answers, told from the history. *)
Lemma consult_cases t h : clocked (t :: h) →
  (held d (t :: h) ∧ snd (consult (window h) t) = arbitrate) ∨
  (¬ held d (t :: h) ∧ b = true ∧ unreachable t ≠ ∅ ∧ ∃ s,
     unstableSince (fst (observe (window h) (fingerprint t) (unreachable t) (now t))) = Some s ∧
     unstableEscalationDeadlineMs d < now t - s ∧ snd (consult (window h) t) = downAll (now t - s) ∧
     unstableSince (window (t :: h)) = None) ∨
  (¬ held d (t :: h) ∧
   unstableSince (window (t :: h)) = unstableSince (fst (observe (window h) (fingerprint t) (unreachable t) (now t))) ∧
   snd (consult (window h) t) = if hasOutlastedChurn (window (t :: h)) (now t) then arbitrate else wait).
Proof.
  intros Hc. pose proof (observe_held t h Hc) as Hheld. destruct (window_tracks h) as (Hd & Hb & _).
  assert (Hkeep : stableAfterMs (fst (observe (window h) (fingerprint t) (unreachable t) (now t))) = d ∧
                  downAllWhenUnstable (fst (observe (window h) (fingerprint t) (unreachable t) (now t))) = b).
  { unfold observe. by repeat case_match. }
  cbn [after]. unfold consult. destruct (observe _ _ _ _) as [w1 stable]. cbn [fst snd] in *.
  destruct Hkeep as [Hd1 Hb1]. destruct stable; [left; simpl; by rewrite <- Hheld|].
  assert (¬ held d (t :: h)) as Hn by (rewrite <- Hheld; done). right.
  destruct (takeEscalation w1 _ _) as [w2 e] eqn:E. unfold takeEscalation in E. rewrite Hd1, Hb1 in E.
  destruct e as [ms|]; [left|right].
  - destruct b; [|done]. case_bool_decide; [done|]. destruct (unstableSince w1) as [s|]; [|done].
    destruct (Z.leb_spec (now t - s) (unstableEscalationDeadlineMs d)); [done|].
    injection E as <- <-. eauto 10.
  - assert (w2 = w1) as -> by (repeat case_match; congruence).
    split; [done|]. destruct (hasOutlastedChurn w1 (now t)) eqn:Eo; cbn [fst snd]; by rewrite Eo.
Qed.

(** The resolver is consulted exactly when the history of ticks says so: the
    view of this tick is not new and has held for the whole window, or some
    peer was unreachable at every tick for twice the window and the cluster is
    not going down as unstable.  The class keeps no history: it answers from
    one view, two instants and a map. *)
Theorem window_consults_exactly (t : Tick) (h : list Tick) : clocked (t :: h) →
  snd (consult (after (construct d b) h) t) = arbitrate ↔
  held d (t :: h) ∨
  ((∃ k, lasting (λ o, k ∈ unreachable o) (2 * d) (t :: h)) ∧
   ∀ ms, snd (consult (after (construct d b) h) t) ≠ downAll ms).
Proof.
  intros Hc. assert (2 * d = unreachableArbitrationDeadlineMs d) as ->
    by (unfold unreachableArbitrationDeadlineMs, DEFAULT_UNREACHABLE_ARBITRATION_FACTOR; lia).
  rewrite <- outlasted_lasting by done.
  destruct (consult_cases t h Hc) as [[Hh ->]|[(Hh & _ & _ & s & _ & _ & -> & _)|(Hh & _ & ->)]].
  - split; [by left|done].
  - split; [done|]. intros [?|[_ Hno]]; [done|]. by destruct (Hno (now t - s)).
  - case_match; split; try done; [right|]; [split; done|]. by intros [?|[? _]].
Qed.

(** ** Escalation *)

Lemma observe_unstable t h s :
  unstableSince (fst (observe (window h) (fingerprint t) (unreachable t) (now t))) = Some s →
  unstableSince (window h) = Some s ∨
  s = now t ∧ ∃ p older, h = p :: older ∧ fingerprint t ≠ fingerprint p.
Proof.
  destruct (window_tracks h) as (_ & _ & Hv & _). unfold observe. rewrite Hv.
  destruct h as [|p h]; cbn [head fmap option_fmap option_map].
  - rewrite bool_decide_eq_true_2 by done. simpl. auto.
  - case_bool_decide as Hn; simpl.
    + destruct (unstableSince _); intros [= <-]; [auto|]. right. split; [done|].
      exists p, h. split; [done|]. congruence.
    + case_match; simpl; auto. done.
Qed.

(** A run of changes: the view moved at [o], and since then no tick found it
    settled or escalated. *)
Definition churning (s : Z) (h : list Tick) : Prop :=
  ∃ recent o p older, h = recent ++ o :: p :: older ∧ fingerprint o ≠ fingerprint p ∧ now o = s ∧
    ∀ r1 r2, recent ++ [o] = r1 ++ r2 → r2 ≠ [] →
      ¬ held d (r2 ++ p :: older) ∧ ∀ ms, verdict (construct d b) (r2 ++ p :: older) ≠ downAll ms.

Lemma churning_cons s t h : churning s h → ¬ held d (t :: h) →
  (∀ ms, verdict (construct d b) (t :: h) ≠ downAll ms) → churning s (t :: h).
Proof.
  intros (recent & o & p & older & -> & Hne & Ho & Hall) Hh Hv.
  exists (t :: recent), o, p, older. split_and!; [done|done|done|].
  intros [|x r1] r2 Heq Hr2; simpl in Heq; [|injection Heq as _ Heq; eauto].
  subst r2. simpl. rewrite <- app_assoc. done.
Qed.

Lemma churning_start t p older : fingerprint t ≠ fingerprint p → ¬ held d (t :: p :: older) →
  (∀ ms, verdict (construct d b) (t :: p :: older) ≠ downAll ms) → churning (now t) (t :: p :: older).
Proof.
  intros Hne Hh Hv. exists [], t, p, older. split_and!; [done|done|done|].
  intros r1 r2 Heq Hr2. destruct r1 as [|x r1]; [simpl in Heq; by subst r2|].
  injection Heq as _ Heq. by apply eq_sym, app_eq_nil in Heq as [_ ?].
Qed.

Lemma unstable_churning h s : clocked h → unstableSince (window h) = Some s → churning s h.
Proof.
  intros Hc. revert s. induction h as [|t h IH]; [done|]. intros s Hs.
  destruct (consult_cases t h Hc) as [[Hh Hv]|[(_ & _ & _ & s' & _ & _ & _ & Hnone)|(Hh & Hu & Hv)]].
  - cbn [after] in Hs. unfold consult in Hs. apply (observe_held t h Hc) in Hh.
    unfold observe in *. repeat (case_match; simplify_eq/=).
  - congruence.
  - rewrite Hu in Hs. assert (∀ ms, verdict (construct d b) (t :: h) ≠ downAll ms) as Hno.
    { intros ms. simpl verdict. rewrite Hv. by case_match. }
    apply observe_unstable in Hs as [Hs|(-> & p & older & -> & Hne)]; [|by apply churning_start].
    apply churning_cons; [|done|done]. apply IH; [by eapply clocked_tail|done].
Qed.

(** The whole cluster is downed as unstable only when the switch is on,
    something is unreachable, and the view has been changing for more than
    three windows: the span reported starts at a change of the view, and no
    tick from then on, this one included, found the view settled; nor had an
    earlier tick escalated over it, so one run of changes escalates once. *)
Theorem escalation_ends_a_long_churn (t : Tick) (h : list Tick) (ms : Z) : 0 ≤ d → clocked (t :: h) →
  snd (consult (after (construct d b) h) t) = downAll ms →
  b = true ∧ unreachable t ≠ ∅ ∧ 3 * d < ms ∧ ¬ held d (t :: h) ∧
  churning (now t - ms) h.
Proof.
  intros Hnn Hc Hv. destruct (consult_cases t h Hc) as [[_ Hv']|[(Hh & Hb & Hu & s & Hs & Hlt & Hv' & _)|(_ & _ & Hv')]];
    rewrite Hv' in Hv; [done| |by case_match].
  injection Hv as <-. unfold unstableEscalationDeadlineMs, DEFAULT_UNSTABLE_ESCALATION_FACTOR in Hlt.
  split_and!; [done|done|lia|done|]. apply observe_unstable in Hs as [Hs|[-> _]]; [|lia].
  assert (now t - (now t - s) = s) as -> by lia. apply unstable_churning; [by eapply clocked_tail|done].
Qed.

End window.

Definition flapping : list Tick := [mkTick "b" {["p"]} 40; mkTick "a" {["p"]} 20; mkTick "b" {["p"]} 10; mkTick "a" ∅ 0].

Lemma window_consults_exactly_witness :
  clocked (mkTick "b" {["p"]} 55 :: flapping) ∧
  (snd (consult (after (construct 20 false) flapping) (mkTick "b" {["p"]} 55)) = arbitrate ↔
   held 20 (mkTick "b" {["p"]} 55 :: flapping) ∨
   ((∃ k, lasting (λ o, k ∈ unreachable o) (2 * 20) (mkTick "b" {["p"]} 55 :: flapping)) ∧
    ∀ ms, snd (consult (after (construct 20 false) flapping) (mkTick "b" {["p"]} 55)) ≠ downAll ms)) ∧
  snd (consult (after (construct 20 false) flapping) (mkTick "b" {["p"]} 55)) = arbitrate.
Proof.
  assert (Hc : clocked (mkTick "b" {["p"]} 55 :: flapping)).
  { unfold clocked, flapping. repeat constructor; simpl; lia. }
  split; [exact Hc|]. split; [exact (window_consults_exactly 20 false _ _ Hc)|]. vm_compute. reflexivity.
Defined.

Lemma escalation_ends_a_long_churn_witness :
  clocked (mkTick "a" {["p"]} 75 :: flapping) ∧
  snd (consult (after (construct 20 true) flapping) (mkTick "a" {["p"]} 75)) = downAll 65 ∧
  3 * 20 < 65 ∧ churning 20 true (75 - 65) flapping.
Proof.
  assert (Hc : clocked (mkTick "a" {["p"]} 75 :: flapping)).
  { unfold clocked, flapping. repeat constructor; simpl; lia. }
  assert (Hv : snd (consult (after (construct 20 true) flapping) (mkTick "a" {["p"]} 75)) = downAll 65).
  { vm_compute. reflexivity. }
  split; [exact Hc|]. split; [exact Hv|].
  destruct (escalation_ends_a_long_churn 20 true _ _ 65 ltac:(lia) Hc Hv) as (_ & _ & H3 & _ & Hch).
  split; [exact H3|exact Hch].
Defined.

End StabilityWindow.
