(* ===== verification/Lease.v ===== *)
(** * Leases: [src/coordination/Lease.ts], [src/coordination/leases/InMemoryLease.ts]

    The store of one isolate, the lease objects that compete in it, and the
    renewal loop.  [LeaseWorld] is what a client may rely on: a lease that says
    it is alive is the only one of its name that says so. *)

From stdpp Require Import pretty.
From S2P Require Import Prelude.

Local Open Scope Z_scope.

(** What [LeaseMajority] needs of a backend: [checkAlive], at most one holder
    of a name at an instant. *)
Class LeaseWorld (W : Type) := {
  lease_sound : W → Prop;
  checkAlive_at : W → nat → bool;
  same_lease : W → nat → nat → Prop;
}.

Class LeaseExclusive (W : Type) `{LeaseWorld W} := {
  lease_exclusive w i j : lease_sound w → same_lease w i j →
    checkAlive_at w i = true → checkAlive_at w j = true → i = j;
}.

Module InMemoryLeaseStore.

Record LeaseRecord := mkRecord { owner : string; expiresAt : Z; version : Z }.

Abbreviation InMemoryLeaseStore := (gmap string LeaseRecord).

Definition tryAcquire (name own : string) (expires now : Z) (leases : InMemoryLeaseStore)
    : InMemoryLeaseStore * Z :=
  let existing := leases !! name in
  let taken := match existing with
               | Some r => negb (bool_decide (owner r = own)) && (expiresAt r >? now)
               | None => false
               end in
  if taken then (leases, 0)
  else
    let next := default 0 (version <$> existing) + 1 in
    (<[name := mkRecord own expires next]> leases, next).

Definition renew (name own : string) (expires now : Z) (leases : InMemoryLeaseStore) : InMemoryLeaseStore * bool :=
  match leases !! name with
  | None => (leases, false)
  | Some r =>
      if negb (bool_decide (owner r = own)) || (expiresAt r <=? now) then (leases, false)
      else (<[name := mkRecord (owner r) expires (version r)]> leases, true)
  end.

Definition release (name own : string) (leases : InMemoryLeaseStore) : InMemoryLeaseStore :=
  match leases !! name with
  | Some r => if bool_decide (owner r = own) then delete name leases else leases
  | None => leases
  end.

Definition peek (name : string) (now : Z) (leases : InMemoryLeaseStore)
    : InMemoryLeaseStore * option LeaseRecord :=
  match leases !! name with
  | Some r => if expiresAt r <=? now then (delete name leases, None) else (leases, Some r)
  | None => (leases, None)
  end.

End InMemoryLeaseStore.

Module InMemoryLease.
Import InMemoryLeaseStore.

Record InMemoryLease := mkLease {
  lease_name : string;
  lease_owner : string;
  ttlMs : Z;
  renewalIntervalMs : Z;
  held : bool;
  lease_expiresAt : Z;
  renewalTimer : bool;
}.

(** The interval the constructor derives when none was set. *)
Definition default_renewal (ttl : Z) : Z := Z.max 1 (Z.min (Z.max 100 (ttl / 3)) (ttl / 2)).

Definition construct (name own : string) (ttl : Z) (renewal : option Z) : InMemoryLease :=
  mkLease name own ttl (default (default_renewal ttl) renewal) false 0 false.

Definition startRenewalLoop (l : InMemoryLease) : InMemoryLease :=
  if renewalTimer l then l
  else mkLease (lease_name l) (lease_owner l) (ttlMs l) (renewalIntervalMs l) (held l) (lease_expiresAt l) true.

Definition token (l : InMemoryLease) (v : Z) : string := lease_name l +:+ "@v" +:+ pretty v.

(** One round of the loop of [acquireWithToken]; the rounds are [delay] apart,
    and other leases act in between. *)
Definition acquireWithToken (now : Z) (l : InMemoryLease) (leases : InMemoryLeaseStore)
    : InMemoryLeaseStore * InMemoryLease * option string :=
  let expires := now + ttlMs l in
  let '(leases', v) := tryAcquire (lease_name l) (lease_owner l) expires now leases in
  if v >? 0 then
    (leases',
     startRenewalLoop (mkLease (lease_name l) (lease_owner l) (ttlMs l) (renewalIntervalMs l) true expires (renewalTimer l)),
     Some (token l v))
  else (leases', l, None).

Definition release (l : InMemoryLease) (leases : InMemoryLeaseStore) : InMemoryLeaseStore * InMemoryLease :=
  if held l then
    (InMemoryLeaseStore.release (lease_name l) (lease_owner l) leases,
     mkLease (lease_name l) (lease_owner l) (ttlMs l) (renewalIntervalMs l) false (lease_expiresAt l) false)
  else (leases, l).

Definition checkAlive (now : Z) (l : InMemoryLease) : bool := held l && (now <? lease_expiresAt l).

Definition lose (l : InMemoryLease) : InMemoryLease :=
  mkLease (lease_name l) (lease_owner l) (ttlMs l) (renewalIntervalMs l) false (lease_expiresAt l) false.

(** The renewal callback; [true] when the [onLost] handlers run. *)
Definition renew (now : Z) (l : InMemoryLease) (leases : InMemoryLeaseStore)
    : InMemoryLeaseStore * InMemoryLease * bool :=
  if negb (held l) then (leases, l, false)
  else if now >=? lease_expiresAt l then (leases, lose l, true)
  else
    let expires := now + ttlMs l in
    match InMemoryLeaseStore.renew (lease_name l) (lease_owner l) expires now leases with
    | (leases', true) =>
        (leases', mkLease (lease_name l) (lease_owner l) (ttlMs l) (renewalIntervalMs l) (held l) expires (renewalTimer l),
         false)
    | (leases', false) => (leases', lose l, true)
    end.

(** ** The isolate: leases over the shared store, under one clock *)

Record World := mkWorld { store : InMemoryLeaseStore; leases : gmap nat InMemoryLease; clock : Z }.

Inductive Op : Type :=
| Tick (elapsed : Z)
| Create (i : nat) (name own : string) (ttl : Z) (renewal : option Z)
| Acquire (i : nat)
| Release (i : nat)
| Renew (i : nat)
| Peek (name : string).

Definition step (w : World) (op : Op) : World :=
  match op with
  | Tick elapsed => mkWorld (store w) (leases w) (clock w + Z.max 0 elapsed)
  | Create i name own ttl renewal =>
      match leases w !! i with
      | Some _ => w
      | None => mkWorld (store w) (<[i := construct name own ttl renewal]> (leases w)) (clock w)
      end
  | Acquire i =>
      match leases w !! i with
      | Some l => let '(s, l', _) := acquireWithToken (clock w) l (store w) in
                  mkWorld s (<[i := l']> (leases w)) (clock w)
      | None => w
      end
  | Release i =>
      match leases w !! i with
      | Some l => let '(s, l') := release l (store w) in mkWorld s (<[i := l']> (leases w)) (clock w)
      | None => w
      end
  | Renew i =>
      match leases w !! i with
      | Some l =>
          if renewalTimer l then
            let '(s, l', _) := renew (clock w) l (store w) in mkWorld s (<[i := l']> (leases w)) (clock w)
          else w
      | None => w
      end
  | Peek name => mkWorld (fst (peek name (clock w) (store w))) (leases w) (clock w)
  end.

Definition run (w : World) (ops : list Op) : World := foldl step w ops.

Definition start (now : Z) : World := mkWorld ∅ ∅ now.

Definition alive (w : World) (i : nat) : bool :=
  match leases w !! i with Some l => checkAlive (clock w) l | None => false end.

Definition competes (w : World) (i j : nat) : Prop :=
  ∃ l l', leases w !! i = Some l ∧ leases w !! j = Some l' ∧ lease_name l = lease_name l'.

(** Every replica owns its own lease object under an owner of its own. *)
Definition distinct_owners (w : World) : Prop :=
  ∀ i j l l', leases w !! i = Some l → leases w !! j = Some l' →
    lease_name l = lease_name l' → lease_owner l = lease_owner l' → i = j.

(** A lease that is alive is the record of its name, to the same deadline. *)
Definition backed (w : World) : Prop :=
  ∀ i l, leases w !! i = Some l → checkAlive (clock w) l = true →
    ∃ v, store w !! lease_name l = Some (mkRecord (lease_owner l) (lease_expiresAt l) v).

Lemma checkAlive_true now l : checkAlive now l = true ↔ held l = true ∧ now < lease_expiresAt l.
Proof. unfold checkAlive. rewrite andb_true_iff, Z.ltb_lt. done. Qed.

(** The operations keep a lease's name, owner and time to live. *)
Definition same_identity (l l' : InMemoryLease) : Prop :=
  lease_name l' = lease_name l ∧ lease_owner l' = lease_owner l ∧ ttlMs l' = ttlMs l.

(** What one lease object does to the store: its own name, and not while
    another owner's record runs. *)
Definition respects (now : Z) (l l' : InMemoryLease) (s s' : InMemoryLeaseStore) : Prop :=
  same_identity l l' ∧
  (∀ n, n ≠ lease_name l → s' !! n = s !! n) ∧
  (∀ r, s !! lease_name l = Some r → owner r ≠ lease_owner l → now < expiresAt r → s' !! lease_name l = Some r) ∧
  (checkAlive now l' = true → (checkAlive now l = true → ∃ v, s !! lease_name l = Some (mkRecord (lease_owner l) (lease_expiresAt l) v)) →
    ∃ v, s' !! lease_name l = Some (mkRecord (lease_owner l) (lease_expiresAt l') v)).

Lemma acquire_respects now l s s' l' t :
  (∀ n r, s !! n = Some r → 0 < version r) →
  acquireWithToken now l s = (s', l', t) → respects now l l' s s' ∧ (∀ n r, s' !! n = Some r → 0 < version r).
Proof.
  intros Hpos. unfold acquireWithToken, tryAcquire.
  destruct (match s !! _ with Some _ => _ | None => _ end) eqn:Et.
  - simpl. intros [= <- <- _]. split; [|done]. split_and!; try done. intros Ha Hb. auto.
  - set (v := default 0 _ + 1). assert (0 < v) as Hv.
    { unfold v. destruct (s !! lease_name l) as [r|] eqn:E; simpl; [apply Hpos in E|]; lia. }
    destruct (Z.gtb_spec v 0); [|lia]. unfold startRenewalLoop. cbn [renewalTimer].
    intros Heq. assert (s' = <[lease_name l := mkRecord (lease_owner l) (now + ttlMs l) v]> s ∧
                        same_identity l l' ∧ lease_expiresAt l' = now + ttlMs l) as (-> & Hid & Hexp).
    { destruct (renewalTimer l); injection Heq as <- <- _; done. }
    split.
    + split_and!; [done| | |].
      * intros n Hn. by rewrite lookup_insert_ne.
      * intros r Hr Ho Hlt. rewrite Hr in Et. rewrite bool_decide_eq_false_2 in Et by done. simpl in Et.
        destruct (Z.gtb_spec (expiresAt r) now); [done|lia].
      * intros _ _. exists v. by rewrite lookup_insert_eq, Hexp.
    + intros n r. destruct (decide (n = lease_name l)) as [->|]; [|rewrite lookup_insert_ne by done; apply Hpos].
      rewrite lookup_insert_eq. intros [= <-]. done.
Qed.

Lemma release_respects now l s s' l' : release l s = (s', l') → respects now l l' s s'.
Proof.
  unfold release, InMemoryLeaseStore.release. destruct (held l) eqn:Eh; intros [= <- <-].
  - split_and!; try done.
    + intros n Hn. destruct (s !! lease_name l) as [r|]; [|done]. case_bool_decide; [|done].
      by rewrite lookup_delete_ne.
    + intros r Hr Ho _. by rewrite Hr, bool_decide_eq_false_2.
  - split_and!; try done. auto.
Qed.

Lemma renew_respects now l s s' l' b : renew now l s = (s', l', b) → respects now l l' s s'.
Proof.
  unfold renew, InMemoryLeaseStore.renew. destruct (held l) eqn:Eh; simpl;
    [|intros [= <- <- _]; split_and!; try done; auto].
  destruct (Z.geb_spec now (lease_expiresAt l)); [intros [= <- <- _]; by split_and!|].
  destruct (s !! lease_name l) as [r|] eqn:Er; [|intros [= <- <- _]; by split_and!].
  case_bool_decide as Ho; simpl; [|intros [= <- <- _]; by split_and!].
  destruct (Z.leb_spec (expiresAt r) now); intros [= <- <- _]; [by split_and!|]. split_and!; try done.
  - intros n Hn. by rewrite lookup_insert_ne.
  - intros r' Hr Ho'. rewrite Er in Hr. by injection Hr as <-.
  - intros _ _. exists (version r). by rewrite lookup_insert_eq, Ho.
Qed.

(** ** The invariant *)

Definition versions_positive (w : World) : Prop := ∀ n r, store w !! n = Some r → 0 < version r.

Definition sound (w : World) : Prop := backed w ∧ distinct_owners w ∧ versions_positive w.

(** A lease is created under an owner no lease of its name has. *)
Definition admissible (w : World) (op : Op) : Prop :=
  match op with
  | Create i name own _ _ => ∀ j l, leases w !! j = Some l → lease_name l = name → lease_owner l ≠ own
  | _ => True
  end.

Inductive reachable (now : Z) : World → Prop :=
| reach_start : reachable now (start now)
| reach_step w op : reachable now w → admissible w op → reachable now (step w op).

Lemma backed_respects w i l l' s' :
  backed w → distinct_owners w → leases w !! i = Some l →
  respects (clock w) l l' (store w) s' →
  backed (mkWorld s' (<[i := l']> (leases w)) (clock w)) ∧
  distinct_owners (mkWorld s' (<[i := l']> (leases w)) (clock w)).
Proof.
  intros Hb Hd Hi ((Hn & Ho & _) & Hother & Hrun & Hown). split.
  - intros j lj. cbn [leases store clock]. intros Hj Ha. destruct (decide (i = j)) as [<-|Hij].
    + rewrite lookup_insert_eq in Hj. injection Hj as <-. rewrite Hn, Ho. apply Hown; [done|]. by apply (Hb i l).
    + rewrite lookup_insert_ne in Hj by done. destruct (Hb j lj Hj Ha) as [v Hv]. exists v.
      destruct (decide (lease_name lj = lease_name l)) as [He|]; [|by rewrite Hother].
      rewrite He in Hv |- *. apply checkAlive_true in Ha as [_ Ha]. apply Hrun; [done| |done]. cbn.
      intros Hoo. by apply Hij, (Hd i j l lj).
  - intros j k lj lk. cbn [leases]. rewrite !lookup_insert_Some.
    intros [[<- <-]|[? Hj]] [[<- <-]|[? Hk]]; rewrite ?Hn, ?Ho; eauto.
Qed.

Lemma sound_respects w i l l' s' :
  sound w → leases w !! i = Some l → respects (clock w) l l' (store w) s' →
  (∀ n r, s' !! n = Some r → 0 < version r) →
  sound (mkWorld s' (<[i := l']> (leases w)) (clock w)).
Proof.
  intros (Hb & Hd & Hv) Hi Hr Hpos. destruct (backed_respects w i l l' s' Hb Hd Hi Hr). by split_and!.
Qed.

Lemma release_versions l s s' l' : release l s = (s', l') →
  (∀ n r, s !! n = Some r → 0 < version r) → ∀ n r, s' !! n = Some r → 0 < version r.
Proof.
  unfold release, InMemoryLeaseStore.release. intros He Hs n r.
  destruct (held l); [|by injection He as <- <-; apply Hs].
  destruct (s !! lease_name l) as [r0|]; [|by injection He as <- <-; apply Hs].
  case_bool_decide; injection He as <- <-; [|by apply Hs]. rewrite lookup_delete_Some. intros [_ ?]. eauto.
Qed.

Lemma renew_versions now l s s' l' b : renew now l s = (s', l', b) →
  (∀ n r, s !! n = Some r → 0 < version r) → ∀ n r, s' !! n = Some r → 0 < version r.
Proof.
  unfold renew, InMemoryLeaseStore.renew. intros He Hs n r.
  destruct (held l); simpl in He; [|by injection He as <- <-; apply Hs].
  destruct (now >=? _); [by injection He as <- <-; apply Hs|].
  destruct (s !! lease_name l) as [r0|] eqn:E; [|by injection He as <- <-; apply Hs].
  destruct (_ || _); injection He as <- <- _; [by apply Hs|]. rewrite lookup_insert_Some.
  intros [[_ <-]|[_ ?]]; [|eauto]. apply (Hs _ _ E).
Qed.

Lemma step_sound w op : sound w → admissible w op → sound (step w op).
Proof.
  intros Hs Ha. pose proof Hs as (Hb & Hd & Hv). destruct op as [e|i name own ttl renewal|i|i|i|name]; simpl.
  - split_and!; [|done|done]. intros i l Hi Hal. apply (Hb i l Hi). apply checkAlive_true in Hal as [Hh Hlt].
    apply checkAlive_true. cbn in Hlt. split; [done|lia].
  - destruct (leases w !! i) eqn:Ei; [done|]. split_and!; [| |done].
    + intros j l. cbn [leases clock store]. rewrite lookup_insert_Some. intros [[<- <-]|[? Hj]]; [done|by apply (Hb j l)].
    + intros j k lj lk. cbn [leases]. rewrite !lookup_insert_Some. simpl in Ha.
      intros [[<- <-]|[? Hj]] [[<- <-]|[? Hk]]; cbn; [done| | |eauto]; intros Hn Ho; exfalso; naive_solver.
  - destruct (leases w !! i) as [l|] eqn:Ei; [|done]. destruct (acquireWithToken _ _ _) as [[s' l'] t] eqn:E.
    apply acquire_respects in E as [Hr Hp]; [|done]. by eapply sound_respects.
  - destruct (leases w !! i) as [l|] eqn:Ei; [|done]. destruct (release _ _) as [s' l'] eqn:E.
    eapply sound_respects; [done|done|by eapply release_respects|by eapply release_versions].
  - destruct (leases w !! i) as [l|] eqn:Ei; [|done]. destruct (renewalTimer l); [|done].
    destruct (renew _ _ _) as [[s' l'] b] eqn:E.
    eapply sound_respects; [done|done|by eapply renew_respects|by eapply renew_versions].
  - unfold peek. destruct (store w !! name) as [r|] eqn:Er; [|by destruct w].
    destruct (Z.leb_spec (expiresAt r) (clock w)); [|by destruct w]. split_and!; [|done|].
    + intros i l Hi Hal. destruct (Hb i l Hi Hal) as [v Hv']. exists v. cbn. apply checkAlive_true in Hal as [_ Hlt].
      rewrite lookup_delete_ne; [done|]. intros ->. rewrite Er in Hv'. injection Hv' as ->. cbn in *. lia.
    + intros n r'. cbn. rewrite lookup_delete_Some. intros [_ ?]. eauto.
Qed.

Lemma reachable_sound now w : reachable now w → sound w.
Proof.
  induction 1; [|by apply step_sound]. split_and!; repeat intro; cbn in *; simplify_map_eq.
Qed.

#[global] Instance InMemoryLease_world : LeaseWorld World := {|
  lease_sound := sound; checkAlive_at := alive; same_lease := competes;
|}.

Lemma sound_exclusive w i j : sound w → competes w i j → alive w i = true → alive w j = true → i = j.
Proof.
  intros (Hb & Hd & _) (l & l' & Hi & Hj & Hn). unfold alive. rewrite Hi, Hj. intros Ha Ha'.
  destruct (Hb i l Hi Ha) as [v Hv], (Hb j l' Hj Ha') as [v' Hv']. rewrite Hn, Hv' in Hv.
  injection Hv as Ho _ _. by eapply Hd.
Qed.

#[global] Instance InMemoryLease_exclusive : LeaseExclusive World.
Proof. split. exact sound_exclusive. Qed.

Lemma acquire_refused w i j l l' : sound w → leases w !! i = Some l → checkAlive (clock w) l = true →
  i ≠ j → leases w !! j = Some l' → lease_name l' = lease_name l →
  acquireWithToken (clock w) l' (store w) = (store w, l', None).
Proof.
  intros (Hb & Hd & _) Hi Ha Hij Hj Hn. destruct (Hb i l Hi Ha) as [v Hv].
  apply checkAlive_true in Ha as [_ Hlt]. unfold acquireWithToken, tryAcquire. rewrite Hn, Hv. cbn [owner expiresAt].
  rewrite bool_decide_eq_false_2 by (intros Ho; by apply Hij, (Hd i j l l')).
  destruct (Z.gtb_spec (lease_expiresAt l) (clock w)); [done|lia].
Qed.

Lemma renew_alive w i l : sound w → leases w !! i = Some l → checkAlive (clock w) l = true →
  ∃ s' l', renew (clock w) l (store w) = (s', l', false) ∧ held l' = true ∧ lease_expiresAt l' = clock w + ttlMs l.
Proof.
  intros (Hb & _) Hi Ha. destruct (Hb i l Hi Ha) as [v Hv]. apply checkAlive_true in Ha as [Hh Hlt].
  unfold renew, InMemoryLeaseStore.renew. rewrite Hh, Hv. simpl.
  destruct (Z.geb_spec (clock w) (lease_expiresAt l)); [lia|]. rewrite bool_decide_eq_true_2 by done. simpl.
  destruct (Z.leb_spec (lease_expiresAt l) (clock w)); [lia|]. eauto.
Qed.

(** A lease that says it is alive is the only holder: in every reachable
    state of the isolate no other lease of its name is alive, every other
    owner's [acquire] is refused and changes nothing, and a renewal made before
    the deadline succeeds and extends it by the time to live, so a holder whose
    renewals come in time never loses the lease. *)
Theorem lease_single_holder (now : Z) (w : World) (i : nat) (l : InMemoryLease) :
  reachable now w → leases w !! i = Some l → checkAlive (clock w) l = true →
  (∀ j l', j ≠ i → leases w !! j = Some l' → lease_name l' = lease_name l →
    checkAlive (clock w) l' = false ∧
    acquireWithToken (clock w) l' (store w) = (store w, l', None)) ∧
  ∃ s' l', renew (clock w) l (store w) = (s', l', false) ∧
    ∀ later, checkAlive later l' = true ↔ later < clock w + ttlMs l.
Proof.
  intros Hr%reachable_sound Hi Ha. split.
  - intros j l' Hij Hj Hn. split; [|exact (acquire_refused w i j l l' Hr Hi Ha (not_eq_sym Hij) Hj Hn)].
    destruct (checkAlive (clock w) l') eqn:Ha'; [|done]. exfalso. apply Hij.
    apply (sound_exclusive w j i Hr); [by exists l', l|by unfold alive; rewrite Hj|by unfold alive; rewrite Hi].
  - destruct (renew_alive w i l Hr Hi Ha) as (s' & l' & He & Hh & Hx). exists s', l'. split; [done|].
    intros later. rewrite checkAlive_true, Hh, Hx. tauto.
Qed.

Definition contended : list Op :=
  [Create 0 "sbr" "node-a" 300 None; Create 1 "sbr" "node-b" 300 None; Acquire 0; Tick 200; Acquire 1; Renew 0; Tick 150].

Lemma contended_reachable : reachable 0 (run (start 0) contended).
Proof.
  repeat apply reach_step; try exact I; [apply reach_start| |].
  - intros j l H. cbn in H. by rewrite lookup_empty in H.
  - intros j l H _. cbn in H. rewrite lookup_empty in H. cbn in H. rewrite lookup_insert_Some in H.
    destruct H as [[_ <-]|[_ H]]; [discriminate|by rewrite lookup_empty in H].
Qed.

Lemma lease_single_holder_witness : ∃ l,
  reachable 0 (run (start 0) contended) ∧ leases (run (start 0) contended) !! 0%nat = Some l ∧
  checkAlive (clock (run (start 0) contended)) l = true ∧
  ∀ j l', j ≠ 0%nat → leases (run (start 0) contended) !! j = Some l' → lease_name l' = lease_name l →
    checkAlive (clock (run (start 0) contended)) l' = false.
Proof.
  eexists. split; [exact contended_reachable|]. split; [vm_compute; reflexivity|]. split; [vm_compute; reflexivity|].
  intros j l' Hj Hl Hn. eapply (lease_single_holder 0 _ 0%nat); [exact contended_reachable| | |exact Hj|exact Hl|exact Hn];
    vm_compute; reflexivity.
Defined.

(** The version lives in the record, so a release forgets it: the next acquire
    of the name, whoever makes it, issues version 1 again. *)
Lemma fencing_token_repeats name own other expires now s r :
  s !! name = Some r → owner r = own →
  snd (tryAcquire name other expires now (InMemoryLeaseStore.release name own s)) = 1.
Proof.
  intros Hs Ho. unfold tryAcquire, InMemoryLeaseStore.release. rewrite Hs, bool_decide_eq_true_2 by done.
  by rewrite lookup_delete_eq.
Qed.

End InMemoryLease.
