(* ===== verification/Text.v ===== *)
(** * Text

    Facts about strings with separators: where a string is cut, and which
    characters a printed number has. *)

From S2P Require Import Prelude.
From stdpp Require Import pretty.
From Stdlib Require Import Ascii.

Fixpoint has (c : ascii) (s : string) : bool :=
  match s with EmptyString => false | String a s => bool_decide (a = c) || has c s end.

Lemma has_app c s t : has c (s +:+ t) = has c s || has c t.
Proof. induction s as [|a s IH]; [done|]. simpl. by rewrite IH, orb_assoc. Qed.

(** A string is read up to its first separator in one way. *)
Lemma cut_inj c s1 s2 t1 t2 : has c s1 = false → has c s2 = false →
  s1 +:+ String c t1 = s2 +:+ String c t2 → s1 = s2 ∧ t1 = t2.
Proof.
  revert s2. induction s1 as [|a s1 IH]; intros [|b s2]; simpl.
  - intros _ _ [= ->]. done.
  - intros _ Hb [= -> _]. by rewrite bool_decide_eq_true_2 in Hb.
  - intros Ha _ [= -> _]. by rewrite bool_decide_eq_true_2 in Ha.
  - intros [_ Ha]%orb_false_iff [_ Hb]%orb_false_iff [= -> Heq]. by destruct (IH s2 Ha Hb Heq) as [-> ->].
Qed.

Lemma append_last_inj s1 s2 c : s1 +:+ String c "" = s2 +:+ String c "" → s1 = s2.
Proof.
  revert s2. induction s1 as [|a s1 IH]; intros [|b s2]; simpl; [done| | |].
  - intros [= -> Heq]. by destruct s2.
  - intros [= -> Heq]. by destruct s1.
  - intros [= -> Heq]. by rewrite (IH s2).
Qed.

(** The same cut, when what follows the separator has none. *)
Lemma cut_last c s1 s2 t1 t2 : has c t1 = false → has c t2 = false →
  s1 +:+ String c t1 = s2 +:+ String c t2 → s1 = s2 ∧ t1 = t2.
Proof.
  revert s2. induction s1 as [|a s1 IH]; intros [|b s2]; simpl.
  - by intros _ _ [= ->].
  - intros Ht _ [= -> ->]. rewrite has_app in Ht. simpl in Ht.
    by rewrite bool_decide_eq_true_2, orb_true_r in Ht by done.
  - intros _ Ht [= -> <-]. rewrite has_app in Ht. simpl in Ht.
    by rewrite bool_decide_eq_true_2, orb_true_r in Ht by done.
  - intros Ht1 Ht2 [= -> Heq]. by destruct (IH s2 Ht1 Ht2 Heq) as [-> ->].
Qed.

(** A string with one separator is cut there in one way. *)
Lemma cut_once c s1 s2 t1 t2 : has c s1 = false → has c t1 = false →
  s1 +:+ String c t1 = s2 +:+ String c t2 → s1 = s2 ∧ t1 = t2.
Proof.
  revert s2. induction s1 as [|a s1 IH]; intros [|b s2]; simpl.
  - by intros _ _ [= ->].
  - intros _ Ht [= -> ->]. rewrite has_app in Ht. simpl in Ht.
    by rewrite bool_decide_eq_true_2, orb_true_r in Ht by done.
  - intros Ha _ [= -> _]. by rewrite bool_decide_eq_true_2 in Ha.
  - intros [_ Ha]%orb_false_iff Ht [= -> Heq]. by destruct (IH s2 Ha Ht Heq) as [-> ->].
Qed.

(** ** Printed numbers *)

Definition digits_only (c : ascii) : Prop := ∀ n : N, pretty_N_char n ≠ c.

Lemma has_pretty_go c x s : digits_only c → has c s = false → has c (pretty_N_go x s) = false.
Proof.
  intros Hc. revert s. induction (N.lt_wf_0 x) as [x _ IH]. intros s Hs.
  destruct (decide (0 < x)%N) as [Hx|Hx].
  - rewrite pretty_N_go_step by done. apply IH; [by apply N.div_lt|]. simpl.
    rewrite bool_decide_eq_false_2 by apply Hc. done.
  - assert (x = 0)%N as -> by lia. by rewrite pretty_N_go_0.
Qed.

Lemma has_pretty c (z : Z) : digits_only c → c ≠ "-"%char → has c (pretty z) = false.
Proof.
  intros Hc Hd.
  assert (Hn : ∀ n : N, has c (pretty n) = false).
  { intros n. unfold pretty, pretty_N. case_decide; [|by apply has_pretty_go].
    simpl. rewrite bool_decide_eq_false_2; [done|]. apply (Hc 0%N). }
  unfold pretty, pretty_Z. destruct z as [|p|p]; simpl.
  - apply (Hn 0%N).
  - apply (Hn (Npos p)).
  - rewrite bool_decide_eq_false_2 by auto. apply (Hn (Npos p)).
Qed.

Lemma digits_only_at : digits_only "@"%char.
Proof. intros n. unfold pretty_N_char. by repeat case_match. Qed.

Lemma digits_only_colon : digits_only ":"%char.
Proof. intros n. unfold pretty_N_char. by repeat case_match. Qed.
