(* ===== verification/LeaseMajority.v ===== *)
(** * Lease arbitration: [src/cluster/downing/LeaseMajority.ts]

    The stateful resolver that settles an even split with a lease.  [decide] is
    synchronous; an [acquire] it starts answers later, possibly after the
    partition has changed.  The state machine has one step per callback, and
    the attempts on the wire are part of its state.  The last section puts two
    nodes over one lease store. *)

From S2P Require Import Prelude Text Member Downing Lease.
From Stdlib Require Import Ascii.
Import NodeAddress Member.

Local Open Scope Z_scope.

Module LeaseMajority.

Record LeaseMajorityOptions := mkOptions { acquireTimeoutMs : option Z; role : option string }.

Record LeaseMajority := mkLM {
  decision : option (gset string);
  decisionRestsOnLease : bool;
  acquiring : bool;
  lastFingerprint : option string;
  acquireDeadline : Z;
  acquireEpoch : Z;
  failSafe : bool;
  abandonedAcquireEpoch : option Z;
  stopped : bool;
}.

Definition construct : LeaseMajority := mkLM None false false None 0 0 false None false.

Definition joined (l : list Member) : string := String.concat "," (merge_sort String.le (addrKey <$> l)).

Definition fingerprintOf (reachable unreachable : list Member) : string :=
  "R[" +:+ joined reachable +:+ "]|U[" +:+ joined unreachable +:+ "]".

Definition reset (s : LeaseMajority) : LeaseMajority :=
  mkLM None false false None (acquireDeadline s) (acquireEpoch s + 1) false
       (if acquiring s then Some (acquireEpoch s) else abandonedAcquireEpoch s) (stopped s).

Definition with_fingerprint (f : string) (s : LeaseMajority) : LeaseMajority :=
  mkLM (decision s) (decisionRestsOnLease s) (acquiring s) (Some f) (acquireDeadline s) (acquireEpoch s)
       (failSafe s) (abandonedAcquireEpoch s) (stopped s).

Definition with_decision (d : option (gset string)) (rests : bool) (s : LeaseMajority) : LeaseMajority :=
  mkLM d rests (acquiring s) (lastFingerprint s) (acquireDeadline s) (acquireEpoch s)
       (failSafe s) (abandonedAcquireEpoch s) (stopped s).

Definition with_acquiring (a : bool) (s : LeaseMajority) : LeaseMajority :=
  mkLM (decision s) (decisionRestsOnLease s) a (lastFingerprint s) (acquireDeadline s) (acquireEpoch s)
       (failSafe s) (abandonedAcquireEpoch s) (stopped s).

Definition with_abandoned (e : option Z) (s : LeaseMajority) : LeaseMajority :=
  mkLM (decision s) (decisionRestsOnLease s) (acquiring s) (lastFingerprint s) (acquireDeadline s)
       (acquireEpoch s) (failSafe s) e (stopped s).

Definition with_failSafe (s : LeaseMajority) : LeaseMajority :=
  mkLM (decision s) (decisionRestsOnLease s) (acquiring s) (lastFingerprint s) (acquireDeadline s)
       (acquireEpoch s) true (abandonedAcquireEpoch s) (stopped s).

(** The branch past the deadline: stop watching the attempt. *)
Definition abandon (s : LeaseMajority) : LeaseMajority :=
  mkLM (decision s) (decisionRestsOnLease s) false (lastFingerprint s) (acquireDeadline s)
       (acquireEpoch s + 1) (failSafe s) (Some (acquireEpoch s)) (stopped s).

(** A call of [runAcquire]: its epoch and the two sets it captured. *)
Record Attempt := mkAttempt { myEpoch : Z; surviveSet : gset string; downSelfSet : gset string }.

Definition kickoff (timeout : option Z) (now : Z) (s : LeaseMajority) : LeaseMajority :=
  mkLM (decision s) (decisionRestsOnLease s) true (lastFingerprint s) (now + default 5000 timeout)
       (acquireEpoch s + 1) (failSafe s) (abandonedAcquireEpoch s) (stopped s).

(** What [decide] does to an even split: the arbitration. *)
Definition arbitrate (timeout : option Z) (alive : bool) (now : Z) (survive downSelf : gset string) (s : LeaseMajority)
    : LeaseMajority * gset string * option Attempt :=
  if failSafe s then (s, ∅, None)
  else
    let usable := match decision s with
                  | Some d => if negb (decisionRestsOnLease s) || alive then Some d else None
                  | None => None
                  end in
    match usable with
    | Some d => (s, d, None)
    | None =>
        let s := match decision s with Some _ => with_decision None false s | None => s end in
        if acquiring s then (if now >? acquireDeadline s then abandon s else s, ∅, None)
        else match abandonedAcquireEpoch s with
             | Some _ => (s, ∅, None)
             | None =>
                 let s := kickoff timeout now s in
                 (s, ∅, Some (mkAttempt (acquireEpoch s) survive downSelf))
             end
    end.

(** [alive] is what [lease.checkAlive()] answers. *)
Definition decide (o : LeaseMajorityOptions) (alive : bool) (now : Z) (v : ClusterPartitionView) (s : LeaseMajority)
    : LeaseMajority * gset string * option Attempt :=
  if stopped s then (s, ∅, None)
  else
    let candidates := candidates (role o) v in
    if bool_decide (candidates = []) then (s, ∅, None)
    else
      let reachable := reachable_of v candidates in
      let unreachable := unreachable_of v candidates in
      let needed := Z.of_nat (length candidates) / 2 + 1 in
      let fingerprint := fingerprintOf reachable unreachable in
      if bool_decide (unreachable = []) then (reset s, ∅, None)
      else
        let s := if bool_decide (Some fingerprint ≠ lastFingerprint s) then with_fingerprint fingerprint (reset s)
                 else s in
        if Z.of_nat (length reachable) >=? needed then
          (with_decision (Some (keys unreachable)) false s, keys unreachable, None)
        else if Z.of_nat (length unreachable) >=? needed then
          (with_decision (Some (keys reachable)) false s, keys reachable, None)
        else arbitrate (acquireTimeoutMs o) alive now (keys unreachable) (keys reachable) s.

Inductive AcquireResult := answered (won : bool) | rejected.

#[export] Instance AcquireResult_eq_dec : EqDecision AcquireResult.
Proof. solve_decision. Defined.

(** The part of [runAcquire] after the backend settled; [true] when it goes on
    to await [lease.release()]. *)
Definition runAcquire (a : Attempt) (r : AcquireResult) (s : LeaseMajority) : LeaseMajority * bool :=
  match r with
  | rejected =>
      let s := if bool_decide (Some (myEpoch a) = abandonedAcquireEpoch s) then with_abandoned None s else s in
      (if myEpoch a =? acquireEpoch s then with_acquiring false s else s, false)
  | answered won =>
      if negb (myEpoch a =? acquireEpoch s) then
        if bool_decide (Some (myEpoch a) = abandonedAcquireEpoch s) then
          if won then (s, true) else (with_abandoned None s, false)
        else (s, false)
      else
        (with_decision (Some (if won then surviveSet a else downSelfSet a)) won (with_acquiring false s), false)
  end.

(** The end of [runAbandonRelease]. *)
Definition runAbandonRelease (released : bool) (s : LeaseMajority) : LeaseMajority :=
  with_abandoned None (if released then s else with_failSafe s).

Definition shutdown (s : LeaseMajority) : LeaseMajority :=
  if stopped s then s
  else reset (mkLM (decision s) (decisionRestsOnLease s) (acquiring s) (lastFingerprint s) (acquireDeadline s)
                   (acquireEpoch s) (failSafe s) (abandonedAcquireEpoch s) true).

(** ** The strategy with its attempts on the wire *)

Record Node := mkNode { strategy : LeaseMajority; acquires : list Attempt; releases : list Attempt }.

Inductive Event : Type :=
| Decide (alive : bool) (now : Z) (v : ClusterPartitionView)
| Settle (i : nat) (r : AcquireResult)
| Released (i : nat) (ok : bool)
| Shutdown.

Definition step (o : LeaseMajorityOptions) (n : Node) (e : Event) : Node :=
  match e with
  | Decide alive now v =>
      let '(s, _, started) := decide o alive now v (strategy n) in
      mkNode s (acquires n ++ option_list started) (releases n)
  | Settle i r =>
      match acquires n !! i with
      | Some a =>
          let '(s, releasing) := runAcquire a r (strategy n) in
          mkNode s (delete i (acquires n)) (releases n ++ if releasing then [a] else [])
      | None => n
      end
  | Released i ok =>
      match releases n !! i with
      | Some _ => mkNode (runAbandonRelease ok (strategy n)) (acquires n) (delete i (releases n))
      | None => n
      end
  | Shutdown => mkNode (shutdown (strategy n)) (acquires n) (releases n)
  end.

Definition run (o : LeaseMajorityOptions) (es : list Event) : Node :=
  foldl (step o) (mkNode construct [] []) es.

(** ** The fingerprint tells views apart *)

Definition part (s : string) : Prop := s ≠ "" ∧ has "," s = false.

Lemma concat_inj l l' : Forall part l → Forall part l' → String.concat "," l = String.concat "," l' → l = l'.
Proof.
  assert (Hne : ∀ x l, part x → String.concat "," (x :: l) ≠ "").
  { intros x [|y k] [Hx _]; [done|]. by destruct x. }
  revert l'. induction l as [|x l IH]; intros [|y l'] Hl Hl' Heq; [done| | |].
  - apply Forall_cons in Hl' as [Hy _]. by destruct (Hne y l' Hy).
  - apply Forall_cons in Hl as [Hx _]. by destruct (Hne x l Hx).
  - apply Forall_cons in Hl as [Hx Hl], Hl' as [Hy Hl']. pose proof Hx as [_ Hcx]. pose proof Hy as [_ Hcy].
    destruct l as [|x' l], l' as [|y' l']; simpl in Heq.
    + by subst.
    + subst x. rewrite has_app in Hcx. simpl in Hcx. by rewrite orb_true_r in Hcx.
    + subst y. rewrite has_app in Hcy. simpl in Hcy. by rewrite orb_true_r in Hcy.
    + apply cut_inj in Heq as [-> Heq]; [|done..]. f_equal. by apply IH.
Qed.

(** No separator of the fingerprint occurs in a key. *)
Definition plain (v : ClusterPartitionView) : Prop :=
  Forall (λ m, part (addrKey m) ∧ has "|" (addrKey m) = false) (allMembers v).

Lemma Forall_sorted (P : string → Prop) l : Forall P l → Forall P (merge_sort String.le l).
Proof. intros Hl. by rewrite merge_sort_Permutation. Qed.

Lemma joined_inj l l' : Forall part (addrKey <$> l) → Forall part (addrKey <$> l') →
  joined l = joined l' → addrKey <$> l ≡ₚ addrKey <$> l'.
Proof.
  intros Hl Hl' Heq. unfold joined in Heq. apply concat_inj in Heq; [|by apply Forall_sorted..].
  by rewrite <- (merge_sort_Permutation String.le (addrKey <$> l)), Heq, merge_sort_Permutation.
Qed.

Lemma joined_bar l : Forall (λ k, has "|" k = false) (addrKey <$> l) → has "|" (joined l) = false.
Proof.
  intros Hl%Forall_sorted. unfold joined. generalize dependent (merge_sort String.le (addrKey <$> l)). intros k Hk.
  induction k as [|x [|y k] IH]; [done|by inversion Hk|].
  apply Forall_cons in Hk as [Hx Hk]. change (has "|" (x +:+ "," +:+ String.concat "," (y :: k)) = false).
  rewrite !has_app, Hx, IH by done. done.
Qed.

Section views.
Context (o : LeaseMajorityOptions).

Definition ours (v : ClusterPartitionView) : list Member := reachable_of v (candidates (role o) v).
Definition theirs (v : ClusterPartitionView) : list Member := unreachable_of v (candidates (role o) v).
Definition fingerprint (v : ClusterPartitionView) : string := fingerprintOf (ours v) (theirs v).

Lemma plain_sides v (P : string → Prop) : Forall (λ m, P (addrKey m)) (allMembers v) →
  Forall P (addrKey <$> ours v) ∧ Forall P (addrKey <$> theirs v).
Proof.
  rewrite !Forall_fmap, !Forall_forall. intros Hv. split; intros m Hm; apply Hv.
  - apply elem_of_reachable in Hm as [_ Hm]. unfold candidates in Hm. by apply list_elem_of_filter in Hm as [_ Hm].
  - apply elem_of_unreachable in Hm as [_ Hm]. unfold candidates in Hm. by apply list_elem_of_filter in Hm as [_ Hm].
Qed.

Lemma fingerprint_inj v v' : plain v → plain v' → fingerprint v = fingerprint v' →
  addrKey <$> ours v ≡ₚ addrKey <$> ours v' ∧ addrKey <$> theirs v ≡ₚ addrKey <$> theirs v'.
Proof.
  unfold plain. setoid_rewrite Forall_and. intros [Hp Hb] [Hp' Hb'] Heq.
  apply (plain_sides _ part) in Hp as [Ho Ht], Hp' as [Ho' Ht'].
  apply (plain_sides _ (λ k, has "|" k = false)) in Hb as [Hbo _], Hb' as [Hbo' _].
  unfold fingerprint, fingerprintOf in Heq. simpl in Heq. injection Heq as Heq.
  change (joined (ours v) +:+ ("]|U[" +:+ joined (theirs v) +:+ "]") =
          joined (ours v') +:+ ("]|U[" +:+ joined (theirs v') +:+ "]")) in Heq.
  assert (Hs : ∀ a b, a +:+ ("]|U[" +:+ b +:+ "]") = (a +:+ "]") +:+ String "|" ("U[" +:+ b +:+ "]")).
  { intros a b. induction a as [|c a IH]; [done|]. change (String c (a +:+ ("]|U[" +:+ b +:+ "]")) = String c ((a +:+ "]") +:+ String "|" ("U[" +:+ b +:+ "]"))). by rewrite IH. }
  rewrite !Hs in Heq. apply cut_inj in Heq as [Heq1 Heq2];
    [|by rewrite has_app, joined_bar by done..].
  apply append_last_inj in Heq1. simpl in Heq2. injection Heq2 as Heq2. apply append_last_inj in Heq2.
  split; by apply joined_inj.
Qed.

(** ** What a state remembers *)

Definition needed (v : ClusterPartitionView) : Z := Z.of_nat (length (candidates (role o) v)) / 2 + 1.

Definition even (v : ClusterPartitionView) : Prop := length (ours v) = length (theirs v) ∧ ours v ≠ [].

Lemma even_split v : candidates (role o) v ≠ [] →
  (Z.of_nat (length (ours v)) >=? needed v) = false → (Z.of_nat (length (theirs v)) >=? needed v) = false → even v.
Proof.
  intros Hc H1 H2. unfold needed in *. pose proof (length_sides v (candidates (role o) v)) as Hl.
  fold (ours v) in Hl. fold (theirs v) in Hl.
  assert (0 < length (candidates (role o) v))%nat by (destruct (candidates (role o) v); simpl; [done|lia]).
  pose proof (Z.mul_div_le (Z.of_nat (length (candidates (role o) v))) 2).
  split; [lia|]. intros He. rewrite He in Hl. simpl in Hl. lia.
Qed.

Lemma even_not_majority v : even v →
  (Z.of_nat (length (ours v)) >=? needed v) = false ∧ (Z.of_nat (length (theirs v)) >=? needed v) = false ∧
  candidates (role o) v ≠ [] ∧ theirs v ≠ [].
Proof.
  intros [Heq Hne]. unfold needed. pose proof (length_sides v (candidates (role o) v)) as Hl.
  fold (ours v) in Hl. fold (theirs v) in Hl.
  pose proof (Z.mul_succ_div_gt (Z.of_nat (length (candidates (role o) v))) 2).
  assert (theirs v ≠ []) by (intros He; apply Hne; rewrite He in Heq; by apply length_zero_iff_nil).
  split_and!; [lia|lia| |done]. intros He. apply Hne. unfold ours. by rewrite He.
Qed.

Lemma same_view v v' : plain v → plain v' → fingerprint v = fingerprint v' →
  keys (ours v) = keys (ours v') ∧ keys (theirs v) = keys (theirs v') ∧ (even v ↔ even v').
Proof.
  intros Hv Hv' Heq. destruct (fingerprint_inj v v' Hv Hv' Heq) as [Ho Ht].
  assert (Hlo : length (ours v) = length (ours v')) by (apply Permutation_length in Ho; by rewrite !length_fmap in Ho).
  assert (Hlt : length (theirs v) = length (theirs v')) by (apply Permutation_length in Ht; by rewrite !length_fmap in Ht).
  split_and!; [unfold keys; by rewrite Ho|unfold keys; by rewrite Ht|].
  unfold even. rewrite Hlo, Hlt. assert (ours v ≠ [] ↔ ours v' ≠ []); [|tauto].
  rewrite <- !length_zero_iff_nil. rewrite Hlo. done.
Qed.

(** The view a state is about, and the two answers the arbitration can give. *)
Definition about (s : LeaseMajority) (v : ClusterPartitionView) : Prop :=
  plain v ∧ lastFingerprint s = Some (fingerprint v).

(** A cached answer belongs to the current view; on an even split it is a win
    only if it is marked as resting on the lease. *)
Definition decision_ok (s : LeaseMajority) : Prop :=
  ∀ d, decision s = Some d → ∃ v, about s v ∧
    (even v → d = if decisionRestsOnLease s then keys (theirs v) else keys (ours v)).

(** The attempts on the wire: none; one that is watched and asks about the
    current view; one that is abandoned and not settled; one whose win is being
    undone. *)
Inductive wire (s : LeaseMajority) : list Attempt → list Attempt → Prop :=
| wire_idle : acquiring s = false → abandonedAcquireEpoch s = None → wire s [] []
| wire_watched a v : acquiring s = true → abandonedAcquireEpoch s = None → myEpoch a = acquireEpoch s →
    about s v → even v → surviveSet a = keys (theirs v) → downSelfSet a = keys (ours v) → wire s [a] []
| wire_abandoned a : acquiring s = false → abandonedAcquireEpoch s = Some (myEpoch a) →
    myEpoch a < acquireEpoch s → wire s [a] []
| wire_undoing a : acquiring s = false → abandonedAcquireEpoch s = Some (myEpoch a) →
    myEpoch a < acquireEpoch s → wire s [] [a].

Definition inv (n : Node) : Prop :=
  decision_ok (strategy n) ∧ wire (strategy n) (acquires n) (releases n).

Definition admissible (e : Event) : Prop := match e with Decide _ _ v => plain v | _ => True end.

Lemma reset_wire s aq rl : wire s aq rl → wire (reset s) aq rl.
Proof.
  intros []; unfold reset.
  - apply wire_idle; cbn; by rewrite ?H.
  - apply wire_abandoned; cbn; rewrite ?H; [done|congruence|lia].
  - apply wire_abandoned; cbn; rewrite ?H; [done|done|lia].
  - apply wire_undoing; cbn; rewrite ?H; [done|done|lia].
Qed.

(** A state that differs in its decision, fail-safe flag or deadline has the
    same attempts on the wire. *)
Lemma wire_ext s s' aq rl : acquiring s' = acquiring s → abandonedAcquireEpoch s' = abandonedAcquireEpoch s →
  acquireEpoch s' = acquireEpoch s → lastFingerprint s' = lastFingerprint s → wire s aq rl → wire s' aq rl.
Proof.
  intros Ha Hb He Hf []; [apply wire_idle|eapply wire_watched|eapply wire_abandoned|eapply wire_undoing];
    unfold about in *; rewrite ?Ha, ?Hb, ?He, ?Hf; eauto.
Qed.

Lemma wire_fingerprint s f aq rl : acquiring s = false → wire s aq rl → wire (with_fingerprint f s) aq rl.
Proof.
  intros Ha []; [apply wire_idle|congruence|eapply wire_abandoned|eapply wire_undoing]; done.
Qed.

(** The state [decide] arbitrates from: it is about this view. *)
Definition entered (v : ClusterPartitionView) (s : LeaseMajority) : LeaseMajority :=
  if bool_decide (Some (fingerprint v) ≠ lastFingerprint s) then with_fingerprint (fingerprint v) (reset s) else s.

Lemma entered_inv v s aq rl : plain v → decision_ok s → wire s aq rl →
  about (entered v s) v ∧ decision_ok (entered v s) ∧ wire (entered v s) aq rl.
Proof.
  intros Hp Hd Hw. unfold entered. case_bool_decide as Hf; [|by split_and!; [split|..]].
  split_and!; [by split|done|]. apply wire_fingerprint; [done|by apply reset_wire].
Qed.

Lemma decision_ok_set s v d (b : bool) : about s v →
  (even v → d = if b then keys (theirs v) else keys (ours v)) → decision_ok (with_decision (Some d) b s).
Proof. intros Ha Hd d' [= <-]. exists v. split; [exact Ha|done]. Qed.

(** The arbitration: what it answers, and what it leaves behind. *)
Lemma arbitrate_spec timeout alive now v s aq rl s' (d : gset string) started :
  about s v → even v → decision_ok s → wire s aq rl →
  arbitrate timeout alive now (keys (theirs v)) (keys (ours v)) s = (s', d, started) →
  decision_ok s' ∧ wire s' (aq ++ option_list started) rl ∧
  (d = ∅ ∨ d = keys (ours v) ∨ d = keys (theirs v) ∧ alive = true).
Proof.
  intros Ha He Hd Hw. unfold arbitrate. destruct (failSafe s).
  { intros [= <- <- <-]. rewrite app_nil_r. auto. }
  destruct (match decision s with Some _ => _ | None => _ end) as [d0|] eqn:Eu.
  { intros [= <- <- <-]. rewrite app_nil_r. split_and!; [done|done|]. right.
    destruct (decision s) as [d1|] eqn:Ed; [|done]. destruct (Hd d1 Ed) as (v' & [Hp' Hf'] & Hd1).
    destruct Ha as [Hp Hf]. destruct (same_view v v' Hp Hp' ltac:(congruence)) as (Ho & Ht & Hev).
    rewrite Hev in He. specialize (Hd1 He). destruct (decisionRestsOnLease s); simpl in Eu.
    - right. destruct alive; [|done]. injection Eu as <-. by rewrite Hd1, Ht.
    - left. injection Eu as <-. by rewrite Hd1, Ho. }
  set (s1 := match decision s with Some _ => with_decision None false s | None => s end).
  assert (H1 : decision_ok s1 ∧ wire s1 aq rl ∧ about s1 v).
  { unfold s1. destruct (decision s) eqn:Ed; [|done]. split_and!; [done|by apply (wire_ext s)|done]. }
  clearbody s1. clear Eu Hd Hw Ha s. destruct H1 as (Hd & Hw & Ha). destruct (acquiring s1) eqn:Eacq.
  - intros [= <- <- <-]. rewrite app_nil_r. split_and!; [|(destruct (now >? acquireDeadline s1); [|done])|auto].
    + by destruct (now >? acquireDeadline s1).
    + destruct Hw; try congruence. apply wire_abandoned; cbn; [done|congruence|lia].
  - destruct (abandonedAcquireEpoch s1) eqn:Eab; intros [= <- <- <-]; [rewrite app_nil_r; auto|].
    destruct Hw; try congruence. split_and!; [done| |auto]. eapply wire_watched; cbn; eauto.
Qed.

(** [decide] on a reachable state: the answers, each with its reason. *)
Lemma decide_spec alive now v s aq rl s' (d : gset string) started :
  plain v → decision_ok s → wire s aq rl →
  decide o alive now v s = (s', d, started) →
  decision_ok s' ∧ wire s' (aq ++ option_list started) rl ∧
  (d = ∅ ∨
   needed v ≤ Z.of_nat (length (ours v)) ∧ d = keys (theirs v) ∨
   needed v ≤ Z.of_nat (length (theirs v)) ∧ d = keys (ours v) ∨
   even v ∧ (d = keys (ours v) ∨ d = keys (theirs v) ∧ alive = true)).
Proof.
  intros Hp Hd Hw. unfold decide. destruct (stopped s).
  { intros [= <- <- <-]. rewrite app_nil_r. auto. }
  case_bool_decide as Hc; [intros [= <- <- <-]; rewrite app_nil_r; auto|].
  fold (ours v) (theirs v) (needed v). fold (fingerprint v). fold (entered v s).
  case_bool_decide as Hu.
  { intros [= <- <- <-]. rewrite app_nil_r. split_and!; [done|by apply reset_wire|auto]. }
  destruct (entered_inv v s aq rl Hp Hd Hw) as (Ha' & Hd' & Hw'). fold (entered v s).
  destruct (_ >=? needed v) eqn:E1.
  { intros [= <- <- <-]. rewrite app_nil_r. split_and!; [|by apply (wire_ext (entered v s))|right; left; split; [lia|done]].
    eapply decision_ok_set; [done|]. intros He. apply even_not_majority in He. destruct He as (? & _). congruence. }
  destruct (Z.of_nat (length (theirs v)) >=? needed v) eqn:E2.
  { intros [= <- <- <-]. rewrite app_nil_r. split_and!; [|by apply (wire_ext (entered v s))|do 2 right; left; split; [lia|done]].
    eapply decision_ok_set; [done|]. done. }
  intros He. pose proof (even_split v Hc E1 E2) as Hev.
  destruct (arbitrate_spec _ _ _ _ _ _ _ _ _ _ Ha' Hev Hd' Hw' He) as (? & ? & [?|?]); auto 10.
Qed.

Lemma step_inv n e : inv n → admissible e → inv (step o n e).
Proof.
  intros [Hd Hw] Ha. destruct e as [alive now v|i r|i ok|]; simpl.
  - destruct (decide o alive now v (strategy n)) as [[s' d] started] eqn:E.
    apply (decide_spec _ _ _ _ _ _ _ _ _ Ha Hd Hw) in E as (? & ? & _). by split.
  - destruct (acquires n !! i) as [a|] eqn:Ea; [|by split]. destruct (runAcquire a r (strategy n)) as [s' b] eqn:E.
    destruct n as [s aq rl]; cbn [strategy acquires releases] in *.
    destruct Hw as [Hq Hb|a' v Hq Hb He Hab Hev Hs Hds|a' Hq Hb He|a' Hq Hb He];
      (destruct i as [|i]; [|done || (by destruct i)]); try done; injection Ea as <-; cbn; unfold runAcquire in E.
    + rewrite He, Z.eqb_refl, Hb in E. destruct r as [won|]; injection E as <- <-; simpl.
      * split; [|by apply wire_idle]. eapply (decision_ok_set _ v); [done|]. intros _. by destruct won.
      * rewrite Z.eqb_refl. split; [done|]. by apply wire_idle.
    + rewrite Hb in E. rewrite bool_decide_eq_true_2 in E by done.
      destruct (Z.eqb_spec (myEpoch a') (acquireEpoch s)); [lia|].
      destruct r as [[]|]; simpl in E; try rewrite (proj2 (Z.eqb_neq _ _)) in E by (cbn; lia);
        injection E as <- <-; simpl; (split; [done|]); [by apply wire_undoing|by apply wire_idle|].
      destruct (Z.eqb_spec (myEpoch a') (acquireEpoch s)); by apply wire_idle.
  - destruct (releases n !! i) as [a|] eqn:Ea; [|by split]. destruct n as [s aq rl]; cbn [strategy acquires releases] in *.
    destruct Hw as [| | |a' Hq Hb He]; try done. destruct i as [|i]; [|by destruct i].
    unfold runAbandonRelease. split; [by destruct ok|]. simpl. apply wire_idle; by destruct ok.
  - unfold shutdown. destruct (stopped (strategy n)); [by split|]. split; [done|].
    apply reset_wire. by apply (wire_ext (strategy n)).
Qed.

Inductive reachable : Node → Prop :=
| reach_start : reachable (mkNode construct [] [])
| reach_step n e : reachable n → admissible e → reachable (step o n e).

Lemma reachable_inv n : reachable n → inv n.
Proof. induction 1; [split; [done|by apply wire_idle]|by apply step_inv]. Qed.

(** ** What the resolver promises *)

Definition answer (alive : bool) (now : Z) (v : ClusterPartitionView) (n : Node) : gset string :=
  snd (fst (decide o alive now v (strategy n))).

Lemma answer_spec alive now v n : reachable n → plain v →
  answer alive now v n = ∅ ∨
  needed v ≤ Z.of_nat (length (ours v)) ∧ answer alive now v n = keys (theirs v) ∨
  needed v ≤ Z.of_nat (length (theirs v)) ∧ answer alive now v n = keys (ours v) ∨
  even v ∧ (answer alive now v n = keys (ours v) ∨ answer alive now v n = keys (theirs v) ∧ alive = true).
Proof.
  intros [Hd Hw]%reachable_inv Hp. unfold answer.
  destruct (decide o alive now v (strategy n)) as [[s' d] started] eqn:E.
  by apply (decide_spec _ _ _ _ _ _ _ _ _ Hp Hd Hw) in E as (_ & _ & ?).
Qed.

(** One attempt at a time, and none of an abandoned one's results is used:
    at most one acquire or one undoing release is on the wire; while one is,
    [decide] starts no other; and the answer of an attempt whose epoch has
    passed changes no decision, a win among them being handed to
    [lease.release()] before anything new may start. *)
Theorem lease_attempts_never_overlap (n : Node) : reachable n →
  (length (acquires n) + length (releases n) <= 1)%nat ∧
  (acquires n ++ releases n ≠ [] → ∀ alive now v, plain v →
    acquires (step o n (Decide alive now v)) = acquires n) ∧
  (∀ i a r, acquires n !! i = Some a → myEpoch a ≠ acquireEpoch (strategy n) →
    let n' := step o n (Settle i r) in
    decision (strategy n') = decision (strategy n) ∧
    acquiring (strategy n') = acquiring (strategy n) ∧
    releases n' = if bool_decide (r = answered true) then [a] else []).
Proof.
  intros [Hd Hw]%reachable_inv. split_and!.
  - destruct Hw; simpl; lia.
  - intros Hne alive now v Hp. simpl. destruct (decide o alive now v (strategy n)) as [[s' d] started] eqn:E.
    apply (decide_spec _ _ _ _ _ _ _ _ _ Hp Hd Hw) in E as (_ & Hw' & _). simpl.
    destruct started as [a|]; [|by rewrite app_nil_r]. exfalso. simpl in Hw'.
    destruct Hw; try done; by inversion Hw'.
  - intros i a r Hi He. destruct n as [s aq rl]; cbn [strategy acquires releases] in *. simpl. rewrite Hi.
    destruct Hw as [|a' v Hq Hb He'| a' Hq Hb He'|]; try done;
      (destruct i as [|i]; [|by destruct i]); injection Hi as <-; [done|].
    unfold runAcquire. rewrite Hb, (bool_decide_eq_true_2 (Some _ = Some _)) by done. cbn [acquireEpoch with_abandoned].
    rewrite (proj2 (Z.eqb_neq _ _) He). by destruct r as [[]|].
Qed.

Lemma keys_empty l : keys l = ∅ → l = [].
Proof. unfold keys. intros He. destruct l as [|m l]; [done|]. simpl in He. set_solver. Qed.

Lemma entered_idle v s : abandonedAcquireEpoch s = None → acquiring s = false → failSafe s = false →
  let s' := entered v s in abandonedAcquireEpoch s' = None ∧ acquiring s' = false ∧ failSafe s' = false ∧
    stopped s' = stopped s.
Proof. intros Hb Ha Hf. unfold entered. case_bool_decide; simpl; by rewrite ?Ha. Qed.

(** On an even split [decide] is the arbitration. *)
Lemma decide_even alive now v s : even v → stopped s = false →
  decide o alive now v s = arbitrate (acquireTimeoutMs o) alive now (keys (theirs v)) (keys (ours v)) (entered v s).
Proof.
  intros He Hs. destruct (even_not_majority v He) as (H1 & H2 & Hc & Ht). unfold decide. rewrite Hs.
  rewrite bool_decide_eq_false_2 by done. fold (ours v) (theirs v) (needed v) (fingerprint v) (entered v s).
  rewrite bool_decide_eq_false_2 by done. by rewrite H1, H2.
Qed.

(** An even split is settled as soon as the backend answers: on a resolver
    that is neither stopped nor fail-safe and has nothing on the wire, [decide]
    has an answer or starts an attempt; once that attempt is answered, the next
    [decide] of the same view downs the other side after a win that is still
    alive, and this side after a loss. *)
Theorem lease_even_split_settled (n : Node) (v : ClusterPartitionView) (alive : bool) (now : Z) :
  reachable n → plain v → even v → acquires n = [] → releases n = [] →
  stopped (strategy n) = false → failSafe (strategy n) = false →
  answer alive now v n ≠ ∅ ∨
  ∃ a, acquires (step o n (Decide alive now v)) = [a] ∧
    ∀ won alive' now',
      let n' := step o (step o n (Decide alive now v)) (Settle 0 (answered won)) in
      answer alive' now' v n' =
        if won then (if alive' then keys (theirs v) else ∅) else keys (ours v).
Proof.
  intros [Hd Hw]%reachable_inv Hp He Hq Hr Hst Hfs.
  assert (Hidle : acquiring (strategy n) = false ∧ abandonedAcquireEpoch (strategy n) = None)
    by (rewrite Hq, Hr in Hw; inversion Hw; done).
  destruct Hidle as [Ha Hb]. destruct (entered_inv v _ _ _ Hp Hd Hw) as (Hav & Hd' & _).
  destruct (entered_idle v _ Hb Ha Hfs) as (Hb' & Ha' & Hf' & Hs').
  destruct (match decision (entered v (strategy n)) with
            | Some d => if negb (decisionRestsOnLease (entered v (strategy n))) || alive then Some d else None
            | None => None end) as [d|] eqn:Eu.
  - left. unfold answer. rewrite decide_even by done. unfold arbitrate. rewrite Hf', Eu. simpl.
    destruct (decision (entered v (strategy n))) as [d1|] eqn:Ed; [|done].
    destruct (Hd' d1 Ed) as (v' & [Hp' Hf''] & Hd1). destruct Hav as [_ Hfv].
    destruct (same_view v v' Hp Hp' ltac:(congruence)) as (Ho & Ht & Hev). rewrite Hev in He.
    destruct (even_not_majority v' He) as (_ & _ & _ & Hne). destruct He as [Hl Hne'].
    destruct (_ || _); [|done]. injection Eu as <-. rewrite Hd1 by done.
    destruct (decisionRestsOnLease _); intros Hk%keys_empty; done.
  - right. assert (∃ s1, decide o alive now v (strategy n) =
                         (s1, ∅, Some (mkAttempt (acquireEpoch s1) (keys (theirs v)) (keys (ours v)))) ∧
                         failSafe s1 = false ∧ stopped s1 = false ∧ abandonedAcquireEpoch s1 = None ∧
                         lastFingerprint s1 = Some (fingerprint v)) as (s1 & E & Hf1 & Hs1 & Hb1 & Hfp1).
    { destruct Hav as [_ Hfv]. rewrite decide_even by done. unfold arbitrate. rewrite Hf', Eu.
      destruct (decision (entered v (strategy n))); cbn -[entered]; rewrite Ha', Hb'; cbn -[entered].
      - exists (kickoff (acquireTimeoutMs o) now (with_decision None false (entered v (strategy n)))).
        cbn -[entered]. by rewrite Hs'.
      - exists (kickoff (acquireTimeoutMs o) now (entered v (strategy n))). cbn -[entered]. by rewrite Hs'. }
    cbn [step]. rewrite E, Hq. eexists. split; [done|]. intros won alive' now'. cbn -[decide].
    unfold answer. cbn -[decide]. rewrite Z.eqb_refl. cbn -[decide].
    rewrite decide_even by (cbn; done). unfold entered.
    rewrite bool_decide_eq_false_2 by (cbn; rewrite Hfp1; auto).
    unfold arbitrate. cbn. rewrite Hf1. destruct won; cbn; [|done]. destruct alive'; cbn; [done|].
    by rewrite Hb1.
Qed.

End views.

(** ** Two nodes, one lease *)

Section two_nodes.
Context {W : Type} `{LeaseExclusive W}.

(** The decision downs somebody this node cannot reach. *)
Definition downs_others (o : LeaseMajorityOptions) (v : ClusterPartitionView) (d : gset string) : Prop :=
  ∃ k, k ∈ keys (theirs o v) ∧ k ∈ d.

Lemma claim_reason o alive now v n : reachable o n → plain v → downs_others o v (answer o alive now v n) →
  needed o v ≤ Z.of_nat (length (ours o v)) ∨ even o v ∧ alive = true.
Proof.
  intros Hr Hp (k & Hk & Hkd).
  assert (Hno : k ∉ keys (ours o v)).
  { unfold keys, theirs, ours in *. rewrite elem_of_list_to_set, list_elem_of_fmap in Hk |- *.
    destruct Hk as (m & -> & Hm). apply elem_of_unreachable in Hm as [Hm _].
    intros (m' & He & Hm'). apply elem_of_reachable in Hm' as [Hm' _]. rewrite He in Hm. done. }
  destruct (answer_spec o alive now v n Hr Hp) as [Ha|[[? _]|[[_ Ha]|[He [Ha|[_ ->]]]]]]; auto;
    rewrite Ha in Hkd; set_solver.
Qed.

(** An answer is given at an instant, that is in a state of the lease world. *)
Definition answer_at (o : LeaseMajorityOptions) (w : W) (i : nat) (now : Z) (v : ClusterPartitionView) (n : Node)
    : gset string := answer o (checkAlive_at w i) now v n.

Lemma both_claim o va vb a b : split (keep_majority (role o)) va vb →
  needed o va ≤ Z.of_nat (length (ours o va)) ∨ even o va ∧ a = true →
  needed o vb ≤ Z.of_nat (length (ours o vb)) ∨ even o vb ∧ b = true →
  even o va ∧ a = true ∧ even o vb ∧ b = true.
Proof.
  intros Hs Ha Hb. pose proof (split_sizes _ _ _ Hs) as Hz. pose proof (split_length _ _ _ Hs) as Hlen. simpl in Hz, Hlen.
  pose proof (length_sides va (candidates (role o) va)) as La. pose proof (length_sides vb (candidates (role o) vb)) as Lb.
  unfold needed, even, ours, theirs in *.
  pose proof (Z.mul_succ_div_gt (Z.of_nat (length (candidates (role o) va))) 2).
  rewrite <- Hlen in *.
  destruct Ha as [Ha|[[Ha ?] Ha']], Hb as [Hb|[[Hb ?] Hb']]; [lia|lia|lia|done].
Qed.

(** C6. Two nodes on two sides of a split, with one role and plain keys, a lease
    object each of one name, over a backend in which at most one holder of a
    name is alive, whatever their resolvers went through, asked at two
    instants: they both down the other side only if the split is even and the
    lease changed hands in between, held by each when it answered and not by
    the other.  So of two answers given while the lease does not move, at one
    instant in particular, at most one downs the other side, and with a
    majority on one side this holds whenever they are asked. *)
Theorem lease_split_one_survivor (w w' : W) (i j : nat) (oa ob : LeaseMajorityOptions) (na nb : Node)
    (va vb : ClusterPartitionView) (now now' : Z) :
  lease_sound w → same_lease w i j → lease_sound w' → same_lease w' i j → i ≠ j → role oa = role ob →
  reachable oa na → reachable ob nb → plain va → plain vb →
  split (keep_majority (role oa)) va vb →
  downs_others oa va (answer_at oa w i now va na) →
  downs_others ob vb (answer_at ob w' j now' vb nb) →
  even oa va ∧ even ob vb ∧
  checkAlive_at w i = true ∧ checkAlive_at w j = false ∧
  checkAlive_at w' i = false ∧ checkAlive_at w' j = true.
Proof.
  intros Hw Hl Hw' Hl' Hij Hrole Hra Hrb Hpa Hpb Hs Ha%claim_reason Hb%claim_reason; [|done..].
  assert (∀ v, even ob v ↔ even oa v) as Hev by (intros v; unfold even, ours, theirs; by rewrite Hrole).
  rewrite Hev in *. unfold needed, ours in Hb. rewrite <- Hrole in Hb.
  destruct (both_claim oa va vb _ _ Hs Ha Hb) as (? & Hi & ? & Hj). split_and!; [done|done|done| | |done].
  - destruct (checkAlive_at w j) eqn:E; [|done]. by destruct Hij; apply (lease_exclusive w).
  - destruct (checkAlive_at w' i) eqn:E; [|done]. by destruct Hij; apply (lease_exclusive w').
Qed.

End two_nodes.

(** ** Concrete runs *)

Definition options_ : LeaseMajorityOptions := mkOptions None None.

Definition pair_view (lost : string) (self : NodeAddress) : ClusterPartitionView :=
  mkView [up_member (node "a" 1); up_member (node "b" 1)] {[lost]} self.

Definition view_a : ClusterPartitionView := pair_view "sys@b:1" (node "a" 1).
Definition view_b : ClusterPartitionView := pair_view "sys@a:1" (node "b" 1).

Lemma view_a_plain : plain view_a.
Proof. by repeat constructor. Defined.

Lemma view_b_plain : plain view_b.
Proof. by repeat constructor. Defined.

Lemma view_a_even : even options_ view_a.
Proof. split; [vm_compute; reflexivity|vm_compute; discriminate]. Defined.

(** An attempt that outlives its budget, and wins. *)
Definition overdue : Node :=
  step options_ (step options_ (mkNode construct [] []) (Decide false 0 view_a)) (Decide false 10000 view_a).

Lemma overdue_reachable : reachable options_ overdue.
Proof. apply reach_step; [apply reach_step; [apply reach_start|]|]; apply view_a_plain. Defined.

Lemma lease_attempts_never_overlap_witness :
  reachable options_ overdue ∧
  (∃ a, acquires overdue = [a] ∧ myEpoch a ≠ acquireEpoch (strategy overdue) ∧
    decision (strategy (step options_ overdue (Settle 0 (answered true)))) = None ∧
    releases (step options_ overdue (Settle 0 (answered true))) = [a]).
Proof.
  split; [exact overdue_reachable|].
  destruct (lease_attempts_never_overlap options_ overdue overdue_reachable) as (_ & _ & Hstale).
  exists (mkAttempt 2 {["sys@b:1"]} {["sys@a:1"]}).
  assert (Hq : acquires overdue = [mkAttempt 2 {["sys@b:1"]} {["sys@a:1"]}]) by (vm_compute; reflexivity).
  assert (He : (2 : Z) ≠ acquireEpoch (strategy overdue)) by (vm_compute; discriminate).
  split; [exact Hq|]. split; [exact He|].
  destruct (Hstale 0%nat _ (answered true) ltac:(rewrite Hq; reflexivity) He) as (Hd & _ & Hr).
  split; [rewrite Hd; vm_compute; reflexivity|exact Hr].
Defined.

Lemma lease_even_split_settled_witness :
  plain view_a ∧ even options_ view_a ∧
  (answer options_ false 0 view_a (mkNode construct [] []) ≠ ∅ ∨
   ∃ a, acquires (step options_ (mkNode construct [] []) (Decide false 0 view_a)) = [a] ∧
     ∀ won alive' now',
       let n' := step options_ (step options_ (mkNode construct [] []) (Decide false 0 view_a)) (Settle 0 (answered won)) in
       answer options_ alive' now' view_a n' =
         if won then (if alive' then keys (theirs options_ view_a) else ∅) else keys (ours options_ view_a)).
Proof.
  split; [exact view_a_plain|]. split; [exact view_a_even|].
  exact (lease_even_split_settled options_ (mkNode construct [] []) view_a false 0
           (reach_start _) view_a_plain view_a_even eq_refl eq_refl eq_refl eq_refl).
Defined.

Definition holder : Node :=
  step options_ (step options_ (mkNode construct [] []) (Decide false 0 view_a)) (Settle 0 (answered true)).

(** The other node, whose own acquire wins once the lease of the first one has
    run out. *)
Definition successor : Node :=
  step options_ (step options_ (mkNode construct [] []) (Decide false 0 view_b)) (Settle 0 (answered true)).

Definition handed_over : list InMemoryLease.Op :=
  InMemoryLease.contended ++ [InMemoryLease.Tick 400; InMemoryLease.Acquire 1].

Lemma handed_over_reachable : InMemoryLease.reachable 0 (InMemoryLease.run (InMemoryLease.start 0) handed_over).
Proof.
  unfold handed_over, InMemoryLease.run. rewrite foldl_app.
  do 2 (apply InMemoryLease.reach_step; [|exact I]). apply InMemoryLease.contended_reachable.
Defined.

Lemma view_ab_split : split (keep_majority (role options_)) view_a view_b.
Proof. split; [vm_compute; reflexivity| |]; apply (bool_decide_unpack _); vm_compute; exact I. Defined.

(** Both down the other when the lease runs out between their answers. *)
Lemma lease_split_one_survivor_witness :
  let w := InMemoryLease.run (InMemoryLease.start 0) InMemoryLease.contended in
  let w' := InMemoryLease.run (InMemoryLease.start 0) handed_over in
  downs_others options_ view_a (answer_at options_ w 0%nat 0 view_a holder) ∧
  downs_others options_ view_b (answer_at options_ w' 1%nat 0 view_b successor) ∧
  checkAlive_at w 1%nat = false ∧ checkAlive_at w' 0%nat = false.
Proof.
  intros w w'.
  assert (Hd : downs_others options_ view_a (answer_at options_ w 0%nat 0 view_a holder)).
  { exists "sys@b:1". split; apply (bool_decide_unpack _); vm_compute; exact I. }
  assert (Hd' : downs_others options_ view_b (answer_at options_ w' 1%nat 0 view_b successor)).
  { exists "sys@a:1". split; apply (bool_decide_unpack _); vm_compute; exact I. }
  split; [exact Hd|]. split; [exact Hd'|].
  destruct (lease_split_one_survivor w w' 0%nat 1%nat options_ options_ holder successor view_a view_b 0 0)
    as (_ & _ & _ & Hj & Hi & _).
  - apply (InMemoryLease.reachable_sound 0), InMemoryLease.contended_reachable.
  - eexists _, _. split; [vm_compute; reflexivity|]. split; vm_compute; reflexivity.
  - apply (InMemoryLease.reachable_sound 0), handed_over_reachable.
  - eexists _, _. split; [vm_compute; reflexivity|]. split; vm_compute; reflexivity.
  - discriminate.
  - reflexivity.
  - apply reach_step; [apply reach_step; [apply reach_start|exact view_a_plain]|exact I].
  - apply reach_step; [apply reach_step; [apply reach_start|exact view_b_plain]|exact I].
  - exact view_a_plain.
  - exact view_b_plain.
  - exact view_ab_split.
  - exact Hd.
  - exact Hd'.
  - split; [exact Hj|exact Hi].
Defined.

End LeaseMajority.
