(* ===== verification/Cluster.v ===== *)
(** * Cluster membership: [src/cluster/Cluster.ts]

    One node's view of its cluster and every handler that changes it: frames
    off the wire, timers, and the operator's [down] and [leave].  The handlers
    are functions from state to state; [step] collects them.  The theorems are
    in [ClusterInvariants] and [ClusterGossip]. *)

From S2P Require Import Prelude Json Member FailureDetector Downing StabilityWindow.
Import NodeAddress Member.

Local Open Scope Z_scope.

Definition MAX_WALL_CLOCK_SKEW_MS : Z := 24 * 60 * 60 * 1000.

Inductive ClusterEvent : Type :=
| MemberJoined (member : Member)
| MemberUp (member : Member)
| MemberWeaklyUp (member : Member)
| MemberUnreachable (member : Member)
| MemberReachable (member : Member)
| MemberDown (member : Member)
| MemberLeft (member : Member)
| MemberRemoved (member : Member)
| SelfUp (member : Member)
| SelfRemoved (member : Member)
| LeaderChanged (leader : option Member)
| ReachabilityChanged (address : NodeAddress) (reachable : bool).

Inductive GossipRefusalReason : Type := map_cap | version_skew | timestamp_skew | replayed_frame | self_claim.

#[export] Instance GossipRefusalReason_eq_dec : EqDecision GossipRefusalReason.
Proof. solve_decision. Defined.

(** The settings the handlers read. *)
Record ClusterOptions := mkClusterOptions {
  selfAddress : NodeAddress;
  selfRoles : gset string;
  selfAppVersion : option string;
  hasDowning : bool;
  failureDetectorAutoDown : bool;
  minimumMembersBeforeUp : Z;
  minimumMembersBeforeUpPerRole : list (string * Z);
  tombstoneTtlMs : Z;
  tombstoneMinRetentionMs : Z;
  maxVersionSkewMs : Z;
  maxMembers : Z;
  maxTombstones : Z;
  configurationCheckedPaths : gset string;
}.

Record GossipMessage := mkGossip { g_from : option json; g_sequence : number; g_members : list MemberData }.
Record HeartbeatMessage := mkHeartbeat { h_seq : number; h_ts : number }.

(** The frames [handleWire] dispatches on to membership; the others are
    envelopes and death watch. *)
Inductive WireMessage : Type :=
| gossip (message : GossipMessage)
| heartbeat (message : HeartbeatMessage)
| heartbeat_ack
| leave (node : option json).

Section cluster.
Context {D : Type} `{FD : FailureDetectorLike D} {LC : LocaleCompare}.
Context (o : ClusterOptions).

Record Cluster := mkCluster {
  members : gmap string Member;
  tombstoneCount : Z;
  failureDetector : D;
  reachability : gmap string bool;
  parkedWithoutResolver : gset string;
  acceptedGossipSequences : gmap string number;
  currentLeader : option Member;
  started : bool;
  departed : bool;
  heldSelfElection : bool;
  selfElected : bool;
  refusalCounts : GossipRefusalReason → Z;
  lastDownedView : option string;
  stabilityWindow : StabilityWindow.StabilityWindow;
  gossipSequence : Z;
  selfStorageIdentities : StorageIdentitiesData;
  selfConfigurationFacts : gmap string string;
  events : list ClusterEvent;
}.

(** Assignments to one field. *)
Definition set_members (x : gmap string Member) (n : Z) (c : Cluster) : Cluster :=
  mkCluster x n (failureDetector c) (reachability c) (parkedWithoutResolver c) (acceptedGossipSequences c)
    (currentLeader c) (started c) (departed c) (heldSelfElection c) (selfElected c) (refusalCounts c)
    (lastDownedView c) (stabilityWindow c) (gossipSequence c) (selfStorageIdentities c) (selfConfigurationFacts c) (events c).

Definition set_detector (x : D) (c : Cluster) : Cluster :=
  mkCluster (members c) (tombstoneCount c) x (reachability c) (parkedWithoutResolver c) (acceptedGossipSequences c)
    (currentLeader c) (started c) (departed c) (heldSelfElection c) (selfElected c) (refusalCounts c)
    (lastDownedView c) (stabilityWindow c) (gossipSequence c) (selfStorageIdentities c) (selfConfigurationFacts c) (events c).

(** The per-peer bookkeeping beside the member map. *)
Definition set_peers (r : gmap string bool) (p : gset string) (s : gmap string number) (c : Cluster) : Cluster :=
  mkCluster (members c) (tombstoneCount c) (failureDetector c) r p s
    (currentLeader c) (started c) (departed c) (heldSelfElection c) (selfElected c) (refusalCounts c)
    (lastDownedView c) (stabilityWindow c) (gossipSequence c) (selfStorageIdentities c) (selfConfigurationFacts c) (events c).

Definition set_leader (x : option Member) (c : Cluster) : Cluster :=
  mkCluster (members c) (tombstoneCount c) (failureDetector c) (reachability c) (parkedWithoutResolver c)
    (acceptedGossipSequences c) x (started c) (departed c) (heldSelfElection c) (selfElected c) (refusalCounts c)
    (lastDownedView c) (stabilityWindow c) (gossipSequence c) (selfStorageIdentities c) (selfConfigurationFacts c) (events c).

Definition set_life (st dep : bool) (c : Cluster) : Cluster :=
  mkCluster (members c) (tombstoneCount c) (failureDetector c) (reachability c) (parkedWithoutResolver c)
    (acceptedGossipSequences c) (currentLeader c) st dep (heldSelfElection c) (selfElected c) (refusalCounts c)
    (lastDownedView c) (stabilityWindow c) (gossipSequence c) (selfStorageIdentities c) (selfConfigurationFacts c) (events c).

Definition set_election (held elected : bool) (c : Cluster) : Cluster :=
  mkCluster (members c) (tombstoneCount c) (failureDetector c) (reachability c) (parkedWithoutResolver c)
    (acceptedGossipSequences c) (currentLeader c) (started c) (departed c) held elected (refusalCounts c)
    (lastDownedView c) (stabilityWindow c) (gossipSequence c) (selfStorageIdentities c) (selfConfigurationFacts c) (events c).

Definition refuse (r : GossipRefusalReason) (n : Z) (c : Cluster) : Cluster :=
  mkCluster (members c) (tombstoneCount c) (failureDetector c) (reachability c) (parkedWithoutResolver c)
    (acceptedGossipSequences c) (currentLeader c) (started c) (departed c) (heldSelfElection c) (selfElected c)
    (λ r', if bool_decide (r' = r) then refusalCounts c r' + n else refusalCounts c r')
    (lastDownedView c) (stabilityWindow c) (gossipSequence c) (selfStorageIdentities c) (selfConfigurationFacts c) (events c).

Definition set_window (v : option string) (w : StabilityWindow.StabilityWindow) (c : Cluster) : Cluster :=
  mkCluster (members c) (tombstoneCount c) (failureDetector c) (reachability c) (parkedWithoutResolver c)
    (acceptedGossipSequences c) (currentLeader c) (started c) (departed c) (heldSelfElection c) (selfElected c) (refusalCounts c)
    v w (gossipSequence c) (selfStorageIdentities c) (selfConfigurationFacts c) (events c).

Definition set_self (n : Z) (ids : StorageIdentitiesData) (facts : gmap string string) (c : Cluster) : Cluster :=
  mkCluster (members c) (tombstoneCount c) (failureDetector c) (reachability c) (parkedWithoutResolver c)
    (acceptedGossipSequences c) (currentLeader c) (started c) (departed c) (heldSelfElection c) (selfElected c) (refusalCounts c)
    (lastDownedView c) (stabilityWindow c) n ids facts (events c).

(** [emit]: what the event stream and the listeners see. *)
Definition emit (e : ClusterEvent) (c : Cluster) : Cluster :=
  mkCluster (members c) (tombstoneCount c) (failureDetector c) (reachability c) (parkedWithoutResolver c)
    (acceptedGossipSequences c) (currentLeader c) (started c) (departed c) (heldSelfElection c) (selfElected c) (refusalCounts c)
    (lastDownedView c) (stabilityWindow c) (gossipSequence c) (selfStorageIdentities c) (selfConfigurationFacts c)
    (events c ++ [e]).

Definition fd (f : D → D) (c : Cluster) : Cluster := set_detector (f (failureDetector c)) c.

Definition selfKey : string := toString (selfAddress o).
Definition isSelf (a : NodeAddress) : bool := equals a (selfAddress o).
Definition member_values (c : Cluster) : list Member := (map_to_list (members c)).*2.
Definition status_at (c : Cluster) (key : string) : option MemberStatus := status <$> members c !! key.

Definition construct (d : D) (stableAfterMs : Z) (downAllWhenUnstable : bool) : Cluster :=
  mkCluster ∅ 0 d ∅ ∅ ∅ None false false false false (λ _, 0) None
    (StabilityWindow.construct stableAfterMs downAllWhenUnstable) 0 (mkIdentities None None None) ∅ [].

(** ** The member map *)

Definition is_removed (m : Member) : bool := bool_decide (status m = removed).

Definition tombstones_in (m : option Member) : Z :=
  match m with Some m => if is_removed m then 1 else 0 | None => 0 end.

Definition setMember (m : Member) (c : Cluster) : Cluster :=
  let key := toString (address m) in
  let previous := members c !! key in
  let count := tombstoneCount c - tombstones_in previous + tombstones_in (Some m) in
  set_members (<[key := m]> (members c)) count c.

Definition deleteMember (key : string) (c : Cluster) : Cluster :=
  match members c !! key with
  | None => c
  | Some previous =>
      let c := set_members (delete key (members c)) (tombstoneCount c - tombstones_in (Some previous)) c in
      set_peers (delete key (reachability c)) (parkedWithoutResolver c ∖ {[key]})
                (delete key (acceptedGossipSequences c)) c
  end.

Definition upMembers (c : Cluster) : list Member :=
  merge_sort KeepOldest.compareTo (filter (λ m, status m = up) (member_values c)).

Definition leader (c : Cluster) : option Member := head (upMembers c).

Definition isLeader (c : Cluster) : bool :=
  match leader c with Some l => isSelf (address l) | None => false end.

Definition reachableMembers (c : Cluster) : list Member :=
  filter (λ m, isReachable m = true) (member_values c).

Definition maybeEmitLeaderChange (c : Cluster) : Cluster :=
  let newLeader := leader c in
  let changed := match currentLeader c, newLeader with
                 | Some prev, Some next => negb (equals (address prev) (address next))
                 | None, None => false
                 | _, _ => true
                 end in
  if changed then emit (LeaderChanged newLeader) (set_leader newLeader c) else c.

Definition statusEventsOf (m : Member) : list ClusterEvent :=
  match status m with
  | up => if isSelf (address m) then [MemberUp m; SelfUp m] else [MemberUp m]
  | weakly_up => [MemberWeaklyUp m]
  | unreachable => [MemberUnreachable m]
  | down => [MemberDown m]
  | leaving => [MemberLeft m]
  | removed => if isSelf (address m) then [MemberRemoved m; SelfRemoved m] else [MemberRemoved m]
  | joining => []
  end.

Definition emitStatusTransition (prev next : Member) (c : Cluster) : Cluster :=
  if bool_decide (status prev = status next) then c
  else maybeEmitLeaderChange (foldl (λ c e, emit e c) c (statusEventsOf next)).

Definition updateMember (next : Member) (c : Cluster) : Cluster :=
  let prev := members c !! toString (address next) in
  let c := setMember next c in
  match prev with
  | Some prev => emitStatusTransition prev next c
  | None => emit (MemberJoined next) c
  end.

(** ** This node's own claims *)

Definition selfStorageIdentitiesSnapshot (c : Cluster) : option StorageIdentitiesData :=
  if bool_decide (selfStorageIdentities c = mkIdentities None None None) then None else Some (selfStorageIdentities c).

Definition selfConfigurationFactsSnapshot (c : Cluster) : option ConfigurationFactsData :=
  if bool_decide (selfConfigurationFacts c = ∅) then None else Some (selfConfigurationFacts c).

Inductive IdentityField := Journal | SnapshotStore | DurableStateStore.

Definition publishStorageIdentity (field : IdentityField) (identity : string) (c : Cluster) : Cluster :=
  let ids := selfStorageIdentities c in
  set_self (gossipSequence c)
    match field with
    | Journal => mkIdentities (Some identity) (snapshotStore ids) (durableStateStore ids)
    | SnapshotStore => mkIdentities (journal ids) (Some identity) (durableStateStore ids)
    | DurableStateStore => mkIdentities (journal ids) (snapshotStore ids) (Some identity)
    end (selfConfigurationFacts c) c.

Definition publishConfigurationFact (name value : string) (c : Cluster) : Cluster :=
  let facts := selfConfigurationFacts c in
  if bool_decide (name ∉ configurationCheckedPaths o) then c
  else if Z.of_nat (String.length name) >? MAX_CONFIGURATION_FACT_NAME_LENGTH then c
  else if negb (fact_name_matches name) then c
  else if (Z.of_nat (String.length value) =? 0)
       || (Z.of_nat (String.length value) >? MAX_CONFIGURATION_FACT_VALUE_LENGTH) then c
  else if (MAX_CONFIGURATION_FACTS <=? size facts)%nat && bool_decide (facts !! name = None) then c
  else set_self (gossipSequence c) (selfStorageIdentities c) (<[name := value]> facts) c.

Definition memberDataForGossip (c : Cluster) (m : Member) : MemberData :=
  let data := toData m in
  if negb (isSelf (address m)) then data
  else
    mkData (d_address data) (d_status data) (d_version data) (d_roles data) (d_removedAt data)
      (match selfStorageIdentitiesSnapshot c with Some ids => Some (identities_json ids) | None => d_storageIdentities data end)
      (match selfConfigurationFactsSnapshot c with Some facts => Some (facts_json facts) | None => d_configurationFacts data end)
      (match selfAppVersion o with Some v => Some (JString v) | None => d_appVersion data end).

Definition withLocalSelfIdentity (c : Cluster) (m : Member) : Member :=
  if negb (isSelf (address m)) then m
  else
    mkMember (selfAddress o) (status m) (version m) (roles m) (removedAt m)
      (match selfStorageIdentitiesSnapshot c with Some ids => Some ids | None => storageIdentities m end)
      (match selfConfigurationFactsSnapshot c with Some facts => Some facts | None => configurationFacts m end)
      (selfAppVersion o).

(** ** The merge of gossiped records *)

Definition isOwnPromotion (c : Cluster) (incoming : MemberStatus) : bool :=
  match incoming with
  | up => match status_at c selfKey with Some joining | Some weakly_up => true | _ => false end
  | _ => false
  end.

(** Whether a claim may be merged, and the state with its refusal counted. *)
Definition maySpeakFor (from : NodeAddress) (senderStatus : option MemberStatus) (subject : NodeAddress)
    (incoming : MemberStatus) (c : Cluster) : bool * Cluster :=
  if isSelf subject then
    if isOwnPromotion c incoming then (true, c)
    else (false, if bool_decide (Some incoming ≠ status_at c selfKey) then refuse self_claim 1 c else c)
  else if equals subject from then (true, c)
  else (match senderStatus with Some up | Some weakly_up | Some leaving => true | _ => false end, c).

Definition admitsVersion (now : Z) (incoming : Member) (c : Cluster) : bool * Cluster :=
  if Number_isFinite (version incoming) && number_le (version incoming) (Num (now + maxVersionSkewMs o)) then (true, c)
  else (false, refuse version_skew 1 c).

Definition admitsMember (incoming : Member) (existing : option Member) (c : Cluster) : bool * Cluster :=
  let wantsTombstone := is_removed incoming in
  if match existing with Some e => eqb (is_removed e) wantsTombstone | None => false end then (true, c)
  else
    let cap := if wantsTombstone then maxTombstones o else maxMembers o in
    if cap =? 0 then (true, c)
    else
      let held := if wantsTombstone then tombstoneCount c else Z.of_nat (size (members c)) - tombstoneCount c in
      if held <? cap then (true, c) else (false, refuse map_cap 1 c).

Definition promotedAtEqualVersion (existing incoming : Member) : bool :=
  number_eqb (version incoming) (version existing) && bool_decide (status existing = weakly_up)
  && bool_decide (status incoming = up).

Definition isRestartOf (existing incoming : Member) : bool :=
  if bool_decide (status incoming = down) || bool_decide (status incoming = removed) then false
  else match incarnation (address existing), incarnation (address incoming) with
       | Some before, Some after => negb (bool_decide (before = after))
       | _, _ => false
       end.

Definition admitFirstSighting (now : Z) (incoming : Member) (c : Cluster) : Cluster :=
  let c := setMember incoming c in
  let c := fd (fd_register (address incoming) now) c in
  let c := emit (MemberJoined incoming) c in
  if bool_decide (status incoming = joining) then c
  else emitStatusTransition (mkMember (address incoming) joining (Num 0) ∅ None None None None) incoming c.

Definition replaceIncarnation (now : Z) (existing incoming : Member) (c : Cluster) : Cluster :=
  let downed := withStatus down existing in
  let c := updateMember downed c in
  let c := deleteMember (toString (address existing)) c in
  let c := fd (fd_forget (address existing)) c in
  let c := emit (MemberRemoved (withStatus removed downed)) c in
  admitFirstSighting now incoming c.

Definition adoptStorageIdentities (existing incoming : Member) (c : Cluster) : Cluster :=
  match storageIdentities incoming, storageIdentities existing with
  | Some ids, None => if isSelf (address incoming) then c else setMember (withStorageIdentities ids existing) c
  | _, _ => c
  end.

Definition current_or (existing incoming : Member) (c : Cluster) : Member :=
  default existing (members c !! toString (address incoming)).

Definition adoptConfigurationFacts (from : NodeAddress) (existing incoming : Member) (c : Cluster) : Cluster :=
  match configurationFacts incoming with
  | None => c
  | Some facts =>
      if isSelf (address incoming) then c
      else
        let current := current_or existing incoming c in
        match configurationFacts current with
        | Some held =>
            if negb (equals (address incoming) from) then c
            else if bool_decide (held = facts) then c
            else setMember (withConfigurationFacts facts current) c
        | None => setMember (withConfigurationFacts facts current) c
        end
  end.

Definition adoptAppVersion (from : NodeAddress) (existing incoming : Member) (c : Cluster) : Cluster :=
  if isSelf (address incoming) then c
  else
    let current := current_or existing incoming c in
    let heldRun := incarnation (address current) in
    let statedRun := incarnation (address incoming) in
    if match heldRun, statedRun with Some h, Some s => negb (bool_decide (h = s)) | _, _ => false end then c
    else if equals (address incoming) from then
      if bool_decide (appVersion current = appVersion incoming) then c
      else setMember (withAppVersion (appVersion incoming) current) c
    else
      match appVersion incoming, appVersion current, heldRun, statedRun with
      | Some v, None, Some _, Some _ => setMember (withAppVersion (Some v) current) c
      | _, _, _, _ => c
      end.

(** The age checks on a gossiped tombstone: [false] refuses it. *)
Definition admitsTombstoneAge (now : Z) (incoming : Member) (c : Cluster) : bool * Cluster :=
  match status incoming, removedAt incoming with
  | removed, Some at_ =>
      match at_ with
      | Num z =>
          if z >? now + MAX_WALL_CLOCK_SKEW_MS then (false, refuse timestamp_skew 1 c)
          else (now - z <? tombstoneTtlMs o, c)
      | _ => (false, refuse timestamp_skew 1 c)
      end
  | _, _ => (true, c)
  end.

(** The rest of [mergeMember], once a record is believable. *)
Definition applyRecord (now : Z) (from : NodeAddress) (incoming : Member) (c : Cluster) : Cluster :=
  match members c !! toString (address incoming) with
  | None =>
      let '(ok, c) := admitsMember incoming None c in
      if ok then admitFirstSighting now incoming c else c
  | Some existing =>
      if bool_decide (status existing = removed) && number_lt (version existing) (version incoming) then
        let '(ok, c) := admitsMember incoming (Some existing) c in
        if ok then admitFirstSighting now incoming c else c
      else if number_le (version incoming) (version existing) && negb (promotedAtEqualVersion existing incoming) then
        let c := adoptStorageIdentities existing incoming c in
        let c := adoptConfigurationFacts from existing incoming c in
        adoptAppVersion from existing incoming c
      else
        let '(ok, c) := admitsMember incoming (Some existing) c in
        if negb ok then c
        else if isRestartOf existing incoming then replaceIncarnation now existing incoming c
        else emitStatusTransition existing incoming (setMember incoming c)
  end.

Definition mergeMember (now : Z) (from : NodeAddress) (senderStatus : option MemberStatus) (data : MemberData)
    (c : Cluster) : result MemberError Cluster :=
  decoded ← fromData data;
  let incoming := withLocalSelfIdentity c decoded in
  let '(speaks, c) := maySpeakFor from senderStatus (address incoming) (status incoming) c in
  if negb speaks then Ok c
  else
    let '(plausible, c) := admitsVersion now incoming c in
    if negb plausible then Ok c
    else
      let '(fresh, c) := admitsTombstoneAge now incoming c in
      if negb fresh then Ok c else Ok (applyRecord now from incoming c).

(** The loop of [onGossip]; a record that does not decode throws, and the
    records before it stay merged. *)
Fixpoint merge_members (now : Z) (from : NodeAddress) (senderStatus : option MemberStatus) (records : list MemberData)
    (c : Cluster) : Cluster * bool :=
  match records with
  | [] => (c, true)
  | data :: records =>
      match mergeMember now from senderStatus data c with
      | Ok c => merge_members now from senderStatus records c
      | Err _ => (c, false)
      end
  end.

(** ** Promotion *)

Definition counts_toward_up (m : Member) : bool :=
  match status m with joining | weakly_up | up => true | _ => false end.

Definition membersCountingTowardUpThreshold (c : Cluster) : list Member :=
  filter (λ m, counts_toward_up m = true) (member_values c).

Definition upThresholdSatisfied (c : Cluster) : bool :=
  let present := membersCountingTowardUpThreshold c in
  (minimumMembersBeforeUp o <=? Z.of_nat (length present)) &&
  forallb (λ '(role, minimum), minimum <=? Z.of_nat (length (filter (λ m, hasRole role m = true) present)))
          (minimumMembersBeforeUpPerRole o).

Definition selfElect (c : Cluster) : Cluster :=
  if negb (started c) then c
  else match members c !! selfKey with
       | None => c
       | Some me =>
           if negb (bool_decide (status me = joining) || bool_decide (status me = weakly_up)) then c
           else if negb (upThresholdSatisfied c) then set_election true (selfElected c) c
           else updateMember (withStatus up me) (set_election false true c)
       end.

Definition runHeldSelfElection (c : Cluster) : Cluster :=
  if negb (heldSelfElection c) then c
  else if negb (upThresholdSatisfied c) then c
  else selfElect (set_election false (selfElected c) c).

Definition promote (c : Cluster) (m : Member) : Cluster :=
  if bool_decide (status m = joining) || bool_decide (status m = weakly_up) then updateMember (withStatus up m) c else c.

Definition promoteJoiningMembers (c : Cluster) : Cluster :=
  if negb (isLeader c) then c
  else if negb (upThresholdSatisfied c) then c
  else foldl promote c (member_values c).

Definition leaderActionsTick (c : Cluster) : Cluster :=
  if negb (started c) then c else promoteJoiningMembers (runHeldSelfElection c).

(** ** Frames *)

Definition admitsGossipSequence (now : Z) (from : NodeAddress) (sequence : number) (c : Cluster) : bool :=
  if negb (Number_isFinite sequence) || number_lt (Num (now + maxVersionSkewMs o)) sequence then false
  else match acceptedGossipSequences c !! toString from with
       | None => true
       | Some lastAccepted => number_lt lastAccepted sequence
       end.

Definition rememberGossipSequence (from : NodeAddress) (sequence : number) (c : Cluster) : Cluster :=
  let key := toString from in
  match members c !! key with
  | None => c
  | Some _ => set_peers (reachability c) (parkedWithoutResolver c) (<[key := sequence]> (acceptedGossipSequences c)) c
  end.

(** The sender of a frame is a member from then on. *)
Definition welcome (sender : NodeAddress) (c : Cluster) : Cluster :=
  match members c !! toString sender with
  | Some _ => c
  | None =>
      let member := mkMember sender joining (Num 1) ∅ None None None None in
      let '(ok, c) := admitsMember member None c in
      if ok then emit (MemberJoined member) (setMember member c) else c
  end.

Definition onGossip (now : Z) (from : NodeAddress) (message : GossipMessage) (c : Cluster) : Cluster :=
  if negb (admitsGossipSequence now from (g_sequence message) c) then
    refuse replayed_frame (Z.of_nat (length (g_members message))) c
  else
    match fromJSON (g_from message) with
    | None => c
    | Some sender =>
        let senderStatus := status_at c (toString from) in
        let '(c, completed) := merge_members now from senderStatus (g_members message) c in
        if negb completed then c
        else leaderActionsTick (rememberGossipSequence from (g_sequence message) (welcome sender c))
    end.

Definition isPlausibleHeartbeat (now : Z) (message : HeartbeatMessage) : bool :=
  Number_isSafeInteger (h_seq message) && number_le (Num 0) (h_seq message) &&
  (Number_isFinite (h_ts message) && number_le (h_ts message) (Num (now + MAX_WALL_CLOCK_SKEW_MS))).

Definition onHeartbeat (now : Z) (from : NodeAddress) (message : HeartbeatMessage) (c : Cluster) : Cluster :=
  if negb (isPlausibleHeartbeat now message) then c
  else
    let c := fd (fd_heartbeat from now) c in
    match members c !! toString from with
    | Some existing =>
        if bool_decide (status existing = unreachable) then
          let recovered := withStatus up existing in
          emit (MemberReachable recovered) (updateMember recovered c)
        else c
    | None => c
    end.

Definition onLeave (now : Z) (from : NodeAddress) (node : option json) (c : Cluster) : Cluster :=
  match fromJSON node with
  | None => c
  | Some peer =>
      if negb (equals peer from) then c
      else
        match members c !! toString peer with
        | None => c
        | Some existing =>
            let leaving_ := withStatus leaving existing in
            let removed_ := withRemoved now leaving_ in
            let c := fd (fd_forget peer) (setMember removed_ c) in
            maybeEmitLeaderChange (emit (MemberRemoved removed_) (emit (MemberLeft leaving_) c))
        end
  end.

Definition handleWire (now : Z) (from : NodeAddress) (message : WireMessage) (c : Cluster) : Cluster :=
  let c := fd (fd_heardFrom from now) c in
  match message with
  | heartbeat m => onHeartbeat now from m c
  | heartbeat_ack => c
  | gossip m => onGossip now from m c
  | leave node => onLeave now from node c
  end.

(** ** Removal: the operator, the detector, the resolver, the tombstones *)

Definition tombstone (now : Z) (m : Member) (c : Cluster) : Cluster :=
  let downed := withStatus down m in
  let c := updateMember downed c in
  let removed_ := withRemoved now downed in
  let c := fd (fd_forget (address m)) (setMember removed_ c) in
  emit (MemberRemoved removed_) c.

(** [down]: an operator's removal by address. *)
Definition forceDown (now : Z) (key : string) (c : Cluster) : Cluster * bool :=
  if negb (started c) then (c, false)
  else match members c !! key with
       | None => (c, false)
       | Some m =>
           if bool_decide (status m = down) || bool_decide (status m = removed) then (c, false)
           else if isSelf (address m) then (c, false)
           else (tombstone now m c, true)
       end.

Definition beginLeaving (c : Cluster) : Cluster * bool :=
  if negb (started c) then (c, false) else (set_life false (departed c) c, true).

(** The synchronous part of [depart]: from here on no timer runs. *)
Definition depart (c : Cluster) : Cluster :=
  let c := match members c !! selfKey with
           | Some me => updateMember (withStatus leaving me) c
           | None => c
           end in
  set_life (started c) true c.

Definition leaveAtOnce (c : Cluster) : Cluster :=
  let '(c, first) := beginLeaving c in if first then depart c else c.

Definition trackReachability (m : Member) (decision : FailureDecision) (c : Cluster) : Cluster :=
  let key := toString (address m) in
  match status m with
  | down | removed => set_peers (delete key (reachability c)) (parkedWithoutResolver c) (acceptedGossipSequences c) c
  | _ =>
      let reachable := bool_decide (decision = healthy) in
      let previous := reachability c !! key in
      if bool_decide (previous = Some reachable) then c
      else
        let c := set_peers (<[key := reachable]> (reachability c)) (parkedWithoutResolver c) (acceptedGossipSequences c) c in
        if bool_decide (previous = None) && reachable then c
        else emit (ReachabilityChanged (address m) reachable) c
  end.

Definition holdForResolver (m : Member) (c : Cluster) : Cluster :=
  let c := if hasDowning o then c
           else set_peers (reachability c) ({[toString (address m)]} ∪ parkedWithoutResolver c)
                          (acceptedGossipSequences c) c in
  if bool_decide (status m = unreachable) then c else updateMember (withStatus unreachable m) c.

(** The detector's own removal: no tombstone. *)
Definition autoDown (m : Member) (c : Cluster) : Cluster :=
  let downed := withStatus down m in
  let c := updateMember downed c in
  let c := deleteMember (toString (address m)) c in
  let c := fd (fd_forget (address m)) c in
  emit (MemberRemoved (withStatus removed downed)) c.

Definition detect (now : Z) (c : Cluster) (m : Member) : Cluster :=
  if isSelf (address m) then c
  else
    let decision := fd_decide (address m) now (failureDetector c) in
    let c := trackReachability m decision c in
    let c := if bool_decide (decision = down_) then c
             else set_peers (reachability c) (parkedWithoutResolver c ∖ {[toString (address m)]})
                            (acceptedGossipSequences c) c in
    if bool_decide (decision = unreachable_) && bool_decide (status m = up) then
      updateMember (withStatus unreachable m) c
    else if bool_decide (decision = down_) && negb (bool_decide (status m = down)) && negb (bool_decide (status m = removed)) then
      if hasDowning o || negb (failureDetectorAutoDown o) then holdForResolver m c else autoDown m c
    else c.

Definition applyVerdict (now : Z) (c : Cluster) (key : string) : Cluster :=
  if bool_decide (key = selfKey) then c
  else match members c !! key with
       | None => c
       | Some m =>
           if bool_decide (status m = down) || bool_decide (status m = removed) then c else tombstone now m c
       end.

Definition applyDowningDecision (now : Z) (toDown : gset string) (fingerprint : string) (c : Cluster) : Cluster :=
  let c := set_window (Some fingerprint) (stabilityWindow c) c in
  let c := foldl (applyVerdict now) c (elements toDown) in
  if bool_decide (selfKey ∈ toDown) then leaveAtOnce c else c.

Definition viewFingerprint (c : Cluster) : string :=
  String.concat "|" (merge_sort String.le ((λ m, toString (address m) +:+ ":" +:+ status_name (status m)) <$> member_values c)).

Definition unreachableKeys (c : Cluster) : gset string :=
  list_to_set ((λ m, toString (address m)) <$> filter (λ m, status m = unreachable) (member_values c)).

(** [provider] is what the configured resolver answers; [None] when it throws. *)
Definition evaluateDowning (now : Z) (provider : ClusterPartitionView → option (gset string)) (c : Cluster) : Cluster :=
  if negb (hasDowning o) then c
  else
    let fingerprint := viewFingerprint c in
    let unreachable_ := unreachableKeys c in
    let '(w, answer) := StabilityWindow.consult (stabilityWindow c) (StabilityWindow.mkTick fingerprint unreachable_ now) in
    let c := set_window (lastDownedView c) w c in
    match answer with
    | StabilityWindow.downAll _ =>
        applyDowningDecision now (list_to_set ((λ m, toString (address m)) <$> member_values c)) fingerprint c
    | StabilityWindow.wait => c
    | StabilityWindow.arbitrate =>
        if bool_decide (lastDownedView c = Some fingerprint) then c
        else match provider (mkView (member_values c) unreachable_ (selfAddress o)) with
             | None => c
             | Some toDown => if bool_decide (toDown = ∅) then c else applyDowningDecision now toDown fingerprint c
             end
    end.

(** The loop of [failureDetectionTick], over the members of its start. *)
Definition detectionRound (now : Z) (c : Cluster) : Cluster := foldl (detect now) c (member_values c).

Definition failureDetectionTick (now : Z) (provider : ClusterPartitionView → option (gset string)) (c : Cluster) : Cluster :=
  evaluateDowning now provider (detectionRound now c).

Definition prune (now : Z) (c : Cluster) (m : Member) : Cluster :=
  let cutoff := Z.max (tombstoneTtlMs o) (tombstoneMinRetentionMs o) in
  match status m, removedAt m with
  | removed, Some at_ =>
      match at_ with
      | Num z => if now - z <? cutoff then c else deleteMember (toString (address m)) c
      | PosInfinity => c
      | NegInfinity | NaN => deleteMember (toString (address m)) c
      end
  | _, _ => c
  end.

Definition tombstonePruneTick (now : Z) (c : Cluster) : Cluster := foldl (prune now) c (member_values c).

(** ** Life *)

Definition start (now : Z) (c : Cluster) : Cluster :=
  let c := set_life true (departed c) c in
  let me := mkMember (selfAddress o) joining (Num now) (selfRoles o) None (selfStorageIdentitiesSnapshot c)
              (selfConfigurationFactsSnapshot c) (selfAppVersion o) in
  let c := set_self now (selfStorageIdentities c) (selfConfigurationFacts c) c in
  emit (MemberJoined me) (setMember me c).

Definition weaklyUpTimeout (c : Cluster) : Cluster :=
  match members c !! selfKey with
  | Some me => if bool_decide (status me = joining) then updateMember (withStatus weakly_up me) c else c
  | None => c
  end.

Definition nextGossipSequence (c : Cluster) : Cluster :=
  set_self (gossipSequence c + 1) (selfStorageIdentities c) (selfConfigurationFacts c) c.

(** The frame a gossip round sends. *)
Definition gossipFrame (c : Cluster) : GossipMessage :=
  mkGossip (Some (toJSON (selfAddress o))) (Num (gossipSequence c)) (memberDataForGossip c <$> member_values c).

Definition gossipTick (c : Cluster) : Cluster :=
  let c := leaderActionsTick c in
  if bool_decide (filter (λ m, isSelf (address m) = false) (reachableMembers c) = []) then c else nextGossipSequence c.

Definition contactSeeds (now : Z) (seeds : list NodeAddress) (c : Cluster) : Cluster :=
  match members c !! selfKey with
  | None => c
  | Some _ => foldl (λ c seed, fd (fd_register seed now) c) (nextGossipSequence c) seeds
  end.

Definition seedTimerTick (now : Z) (seeds : list NodeAddress) (c : Cluster) : Cluster :=
  match status_at c selfKey with
  | Some joining | Some weakly_up => contactSeeds now seeds c
  | _ => c
  end.

Inductive Event : Type :=
| Wire (from : NodeAddress) (message : WireMessage)
| GossipTimer
| DetectorTimer (provider : ClusterPartitionView → option (gset string))
| PruneTimer
| WeaklyUpTimer
| SelfElectionTimer
| SeedTimer (seeds : list NodeAddress)
| OperatorDown (key : string)
| BeginLeaving
| Depart
| PublishStorageIdentity (field : IdentityField) (identity : string)
| PublishConfigurationFact (name value : string).

(** Timers are cancelled by [depart]; the second half of [leave] follows the
    first. *)
Definition step (now : Z) (c : Cluster) (e : Event) : Cluster :=
  match e with
  | Wire from message => handleWire now from message c
  | GossipTimer => if departed c then c else gossipTick c
  | DetectorTimer provider => if departed c then c else failureDetectionTick now provider c
  | PruneTimer => if departed c then c else tombstonePruneTick now c
  | WeaklyUpTimer => if departed c then c else weaklyUpTimeout c
  | SelfElectionTimer => if departed c then c else selfElect c
  | SeedTimer seeds => if departed c then c else seedTimerTick now seeds c
  | OperatorDown key => fst (forceDown now key c)
  | BeginLeaving => fst (beginLeaving c)
  | Depart => if started c || departed c then c else depart c
  | PublishStorageIdentity field identity => publishStorageIdentity field identity c
  | PublishConfigurationFact name value => publishConfigurationFact name value c
  end.

End cluster.
