(* ===== verification/ClusterInvariants.v ===== *)
(** * The books of a cluster node

    Two invariants of [Cluster]: its member map, its tombstone count and its
    per-peer tables agree ([tidy]), and the leader it last announced is the
    leader ([announced]).  Every handler preserves both. *)

From S2P Require Import Prelude Json Member FailureDetector Downing StabilityWindow Cluster.
From stdpp Require Import fin_maps.
Import NodeAddress Member.

Local Open Scope Z_scope.

Section books.
Context {D : Type} `{FD : FailureDetectorLike D} {LC : LocaleCompare} {LO : LocaleOrder}.
Context (o : ClusterOptions).

Implicit Types (c : Cluster (D := D)) (m : Member).

Definition finite_version m : Prop := Number_isFinite (version m) = true.

(** The entries of the map under [removed]. *)
Definition tombstones (ms : gmap string Member) : Z :=
  Z.of_nat (size (filter (λ kv, is_removed kv.2 = true) ms)).

Definition keyed (ms : gmap string Member) : Prop := ∀ k m, ms !! k = Some m → k = toString (address m).

Definition tidy c : Prop :=
  keyed (members c) ∧
  (∀ k m, members c !! k = Some m → finite_version m) ∧
  tombstoneCount c = tombstones (members c) ∧
  dom (reachability c) ⊆ dom (members c) ∧
  parkedWithoutResolver c ⊆ dom (members c) ∧
  dom (acceptedGossipSequences c) ⊆ dom (members c).

(** Addresses of the members that are [up]. *)
Definition up_keys c : gset string := dom (filter (λ kv, status kv.2 = up) (members c)).

Definition announced c : Prop := addrKey <$> currentLeader c = addrKey <$> leader c.

Definition present c m : Prop := toString (address m) ∈ dom (members c).

(** ** Counting tombstones *)

Lemma tombstones_fresh ms k m : ms !! k = None → tombstones (<[k := m]> ms) = tombstones ms + tombstones_in (Some m).
Proof.
  intros Hk. unfold tombstones, tombstones_in. rewrite map_filter_insert. cbn [snd].
  assert (Hkf : filter (λ kv, is_removed kv.2 = true) ms !! k = None) by (apply map_lookup_filter_None; auto).
  destruct (is_removed m) eqn:Em.
  - rewrite decide_True by done. rewrite map_size_insert_None by done. lia.
  - rewrite decide_False by done. rewrite (delete_id ms k Hk). lia.
Qed.

Lemma tombstones_insert ms k m :
  tombstones (<[k := m]> ms) = tombstones ms - tombstones_in (ms !! k) + tombstones_in (Some m).
Proof.
  pose proof (lookup_delete_eq ms k) as Hk.
  destruct (ms !! k) as [p|] eqn:Ek; [|rewrite tombstones_fresh by done; cbn [tombstones_in]; lia].
  rewrite <- (insert_delete_id ms k p Ek) at 2. rewrite <- insert_delete_eq.
  rewrite !tombstones_fresh by done. lia.
Qed.

Lemma tombstones_delete ms k m : ms !! k = Some m →
  tombstones (delete k ms) = tombstones ms - tombstones_in (Some m).
Proof.
  intros Hk. pose proof (tombstones_insert (delete k ms) k m) as Hi.
  rewrite insert_delete_id, lookup_delete_eq in Hi by done. simpl in *. lia.
Qed.

Lemma tombstones_bounds ms : 0 ≤ tombstones ms ≤ Z.of_nat (size ms).
Proof.
  unfold tombstones. split; [lia|]. apply Nat2Z.inj_le.
  rewrite <- !size_dom. apply subseteq_size, dom_filter_subseteq.
Qed.

(** ** The primitives *)

Lemma tidy_setMember m c : tidy c → finite_version m → tidy (setMember m c).
Proof.
  intros (Hk & Hv & Hn & Hr & Hp & Hs) Hm. unfold setMember. cbn. split_and!.
  - intros k m'. cbn. rewrite lookup_insert_Some. intros [[<- <-]|[_ ?]]; [done|by apply Hk].
  - intros k m'. cbn. rewrite lookup_insert_Some. intros [[_ <-]|[_ ?]]; [done|by eapply Hv].
  - cbn. rewrite tombstones_insert, Hn. done.
  - cbn. rewrite dom_insert. set_solver.
  - cbn. rewrite dom_insert. set_solver.
  - cbn. rewrite dom_insert. set_solver.
Qed.

Lemma tidy_deleteMember k c : tidy c → tidy (deleteMember k c).
Proof.
  intros (Hk & Hv & Hn & Hr & Hp & Hs). unfold deleteMember.
  destruct (members c !! k) as [m|] eqn:Em; [|by split_and!]. cbn. split_and!; cbn.
  - intros k' m'. rewrite lookup_delete_Some. intros [_ ?]. by apply Hk.
  - intros k' m'. rewrite lookup_delete_Some. intros [_ ?]. by eapply Hv.
  - rewrite (tombstones_delete _ _ m), Hn; done.
  - rewrite !dom_delete. set_solver.
  - rewrite !dom_delete. set_solver.
  - rewrite !dom_delete. set_solver.
Qed.

Lemma finite_withStatus s m : finite_version m → finite_version (withStatus s m).
Proof. unfold finite_version. simpl. by destruct (version m). Qed.

Lemma finite_withRemoved n m : finite_version m → finite_version (withRemoved n m).
Proof. unfold finite_version. simpl. by destruct (version m). Qed.

Lemma tidy_finite c k m : tidy c → members c !! k = Some m → finite_version m.
Proof. intros (_ & Hv & _). apply Hv. Qed.

Lemma tidy_key c k m : tidy c → members c !! k = Some m → k = toString (address m).
Proof. intros (Hk & _). apply Hk. Qed.

Lemma elem_of_values c m : tidy c → m ∈ member_values c ↔ members c !! toString (address m) = Some m.
Proof.
  intros Ht. unfold member_values. rewrite list_elem_of_fmap. split.
  - intros ([k m'] & -> & Hkm%elem_of_map_to_list). cbn. by rewrite <- (tidy_key _ _ _ Ht Hkm).
  - intros Hm. exists (toString (address m), m). split; [done|]. by apply elem_of_map_to_list.
Qed.

Lemma NoDup_values c : tidy c → NoDup (addrKey <$> member_values c).
Proof.
  intros Ht. unfold member_values. rewrite <- list_fmap_compose.
  erewrite list_fmap_ext; [apply NoDup_fst_map_to_list|]. intros i [k m] Hi. cbn.
  symmetry. eapply tidy_key; [done|]. apply elem_of_map_to_list. by eapply list_elem_of_lookup_2.
Qed.

Lemma foldl_emit_members (es : list ClusterEvent) c :
  members (foldl (λ c e, emit e c) c es) = members c ∧ currentLeader (foldl (λ c e, emit e c) c es) = currentLeader c ∧
  (tidy c → tidy (foldl (λ c e, emit e c) c es)).
Proof.
  revert c. induction es as [|e es IH]; intros c; [done|]. simpl. destruct (IH (emit e c)) as (Hm & Hl & Ht).
  split_and!; [done|done|]. intros Hc. by apply Ht.
Qed.

(** ** The leader *)

Lemma elem_of_up_keys c k : k ∈ up_keys c ↔ status_at c k = Some up.
Proof.
  unfold up_keys, status_at. rewrite elem_of_dom. unfold is_Some. setoid_rewrite map_lookup_filter_Some.
  rewrite fmap_Some. split; [intros (m & Hm & Hu)|intros (m & Hm & Hu)]; exists m; auto.
Qed.

Lemma up_members_keys c : tidy c → addrKey <$> upMembers c ≡ₚ elements (up_keys c).
Proof.
  intros Ht. unfold upMembers. rewrite merge_sort_Permutation. apply NoDup_Permutation.
  - apply NoDup_filtered, NoDup_values, Ht.
  - apply NoDup_elements.
  - intros k. rewrite elem_of_elements, elem_of_up_keys. unfold status_at. rewrite fmap_Some, list_elem_of_fmap. split.
    + intros (m & -> & Hm). apply list_elem_of_filter in Hm as [Hu Hm]. apply elem_of_values in Hm; [|done].
      exists m. split; [done|by rewrite Hu].
    + intros (m & Hm & Hu). pose proof (tidy_key _ _ _ Ht Hm) as ->. exists m. split; [done|].
      apply list_elem_of_filter. split; [by rewrite Hu|]. by apply elem_of_values.
Qed.

Lemma leader_ext c c' : tidy c → tidy c' → up_keys c = up_keys c' → addrKey <$> leader c = addrKey <$> leader c'.
Proof.
  intros Ht Ht' Hu. pose proof (up_members_keys c Ht) as Hp. rewrite Hu, <- (up_members_keys c' Ht') in Hp.
  unfold leader. unfold upMembers in *.
  assert (Hp2 : addrKey <$> filter (λ m, status m = up) (member_values c) ≡ₚ
                addrKey <$> filter (λ m, status m = up) (member_values c')).
  { rewrite (merge_sort_Permutation KeepOldest.compareTo (filter _ (member_values c))) in Hp.
    by rewrite (merge_sort_Permutation KeepOldest.compareTo (filter _ (member_values c'))) in Hp. }
  destruct (merge_sort KeepOldest.compareTo (filter _ (member_values c))) as [|a l] eqn:Ea,
    (merge_sort KeepOldest.compareTo (filter _ (member_values c'))) as [|a' l'] eqn:Ea'; simpl.
  - done.
  - by apply Permutation_nil_l in Hp.
  - by apply Permutation_nil_r in Hp.
  - f_equal. by eapply oldest_unique.
Qed.

Lemma announced_ext c c' : tidy c → tidy c' → up_keys c = up_keys c' → currentLeader c' = currentLeader c →
  announced c → announced c'.
Proof. unfold announced. intros Ht Ht' Hu -> ->. by apply leader_ext. Qed.

Lemma announced_maybeEmit c : announced (maybeEmitLeaderChange c).
Proof.
  unfold maybeEmitLeaderChange. destruct (currentLeader c) as [p|] eqn:Ep, (leader c) as [n|] eqn:En; cbn.
  - destruct (equals (address p) (address n)) eqn:Eq; cbn; unfold announced.
    + rewrite Ep, En. simpl. f_equal. by apply equals_toString.
    + change (leader (emit _ (set_leader _ c))) with (leader c). by rewrite En.
  - unfold announced. change (leader (emit _ (set_leader _ c))) with (leader c). by rewrite En.
  - unfold announced. change (leader (emit _ (set_leader _ c))) with (leader c). by rewrite En.
  - unfold announced. by rewrite Ep, En.
Qed.

Lemma members_maybeEmit c : members (maybeEmitLeaderChange c) = members c.
Proof. unfold maybeEmitLeaderChange. by case_match. Qed.

Lemma tidy_maybeEmit c : tidy c → tidy (maybeEmitLeaderChange c).
Proof. unfold maybeEmitLeaderChange. by case_match. Qed.

Lemma members_emitStatusTransition p n c : members (emitStatusTransition o p n c) = members c.
Proof.
  unfold emitStatusTransition. case_bool_decide; [done|].
  rewrite members_maybeEmit. by apply foldl_emit_members.
Qed.

Lemma tidy_emitStatusTransition p n c : tidy c → tidy (emitStatusTransition o p n c).
Proof.
  unfold emitStatusTransition. case_bool_decide; [done|]. intros Ht.
  apply tidy_maybeEmit. by apply foldl_emit_members.
Qed.

Lemma members_updateMember n c : members (updateMember o n c) = <[toString (address n) := n]> (members c).
Proof.
  unfold updateMember. case_match; [by rewrite members_emitStatusTransition|done].
Qed.

Lemma tidy_updateMember n c : tidy c → finite_version n → tidy (updateMember o n c).
Proof.
  intros Ht Hn. unfold updateMember. pose proof (tidy_setMember n c Ht Hn).
  case_match; [by apply tidy_emitStatusTransition|done].
Qed.

Lemma status_at_setMember m c k :
  status_at (setMember m c) k = if decide (k = toString (address m)) then Some (status m) else status_at c k.
Proof.
  unfold status_at, setMember. cbn. destruct (decide (k = _)) as [->|]; [by rewrite lookup_insert_eq|].
  by rewrite lookup_insert_ne.
Qed.

Lemma up_keys_setMember m c :
  (status m = up ↔ status_at c (toString (address m)) = Some up) → up_keys (setMember m c) = up_keys c.
Proof.
  intros Hiff. apply set_eq. intros k. rewrite !elem_of_up_keys, status_at_setMember.
  destruct (decide (k = _)) as [->|]; [|done]. rewrite <- Hiff. split; congruence.
Qed.

Lemma announced_setMember m c : tidy c → finite_version m → announced c →
  (status m = up ↔ status_at c (toString (address m)) = Some up) → announced (setMember m c).
Proof.
  intros Ht Hm Ha Hs. apply (announced_ext c); [done|by apply tidy_setMember|by rewrite up_keys_setMember|done|done].
Qed.

(** A recorded status change announces the leader it makes. *)
Lemma announced_transition p n c : tidy c → finite_version n → announced c →
  status_at c (toString (address n)) = Some (status p) →
  announced (emitStatusTransition o p n (setMember n c)).
Proof.
  intros Ht Hn Ha Hp. unfold emitStatusTransition. case_bool_decide as Hs; [|apply announced_maybeEmit].
  apply announced_setMember; [done..|]. rewrite Hp, Hs. split; congruence.
Qed.

Lemma announced_updateMember n c : tidy c → finite_version n → announced c →
  (status n = up → present c n) → announced (updateMember o n c).
Proof.
  intros Ht Hn Ha Hp. unfold updateMember. destruct (members c !! toString (address n)) as [p|] eqn:Ep.
  - apply announced_transition; [done..|]. unfold status_at. by rewrite Ep.
  - change (announced (setMember n c)). apply announced_setMember; [done..|]. unfold status_at. rewrite Ep.
    split; [|done]. intros Hu. apply Hp in Hu. unfold present in Hu. apply elem_of_dom in Hu as [x Hx]. congruence.
Qed.

Lemma announced_deleteMember k c : tidy c → announced c → status_at c k ≠ Some up → announced (deleteMember k c).
Proof.
  intros Ht Ha Hs. apply (announced_ext c); [done|by apply tidy_deleteMember| |unfold deleteMember; by case_match|done].
  apply set_eq. intros k'. rewrite !elem_of_up_keys. unfold deleteMember, status_at in *.
  destruct (members c !! k) eqn:Ek; [|done]. cbn. destruct (decide (k = k')) as [->|].
  - rewrite lookup_delete_eq. simpl in *. rewrite Ek in *. simpl in *. split; congruence.
  - by rewrite lookup_delete_ne.
Qed.

Definition books c : Prop := tidy c ∧ announced c.

Lemma books_updateMember n c : books c → finite_version n → (status n = up → present c n) →
  books (updateMember o n c).
Proof. intros [Ht Ha] Hn Hp. split; [by apply tidy_updateMember|by apply announced_updateMember]. Qed.

Lemma books_setMember m c : books c → finite_version m →
  (status m = up ↔ status_at c (toString (address m)) = Some up) → books (setMember m c).
Proof. intros [Ht Ha] Hm Hs. split; [by apply tidy_setMember|by apply announced_setMember]. Qed.

Lemma books_deleteMember k c : books c → status_at c k ≠ Some up → books (deleteMember k c).
Proof. intros [Ht Ha] Hs. split; [by apply tidy_deleteMember|by apply announced_deleteMember]. Qed.

Lemma books_maybeEmit c : tidy c → books (maybeEmitLeaderChange c).
Proof. intros Ht. split; [by apply tidy_maybeEmit|by apply announced_maybeEmit]. Qed.

Lemma members_deleteMember k c : members (deleteMember k c) = delete k (members c).
Proof.
  unfold deleteMember. destruct (members c !! k) eqn:E; [done|]. by rewrite delete_id.
Qed.

Lemma present_lookup c k m : tidy c → members c !! k = Some m → present c m ∧ k = toString (address m).
Proof. intros Ht Hm. rewrite (tidy_key _ _ _ Ht Hm) in Hm |- *. split; [|done]. by apply elem_of_dom_2 in Hm. Qed.

Lemma status_at_updateMember n c k :
  status_at (updateMember o n c) k = if decide (k = toString (address n)) then Some (status n) else status_at c k.
Proof. rewrite <- status_at_setMember. unfold status_at. by rewrite members_updateMember. Qed.

Lemma status_at_deleteMember k c k' :
  status_at (deleteMember k c) k' = if decide (k = k') then None else status_at c k'.
Proof.
  unfold status_at. rewrite members_deleteMember. destruct (decide (k = k')) as [->|].
  - by rewrite lookup_delete_eq.
  - by rewrite lookup_delete_ne.
Qed.

(** ** The merge *)

Lemma books_admitFirstSighting now m c : books c → finite_version m →
  status_at c (toString (address m)) ≠ Some up → books (admitFirstSighting o now m c).
Proof.
  intros Hb Hm Hs. unfold admitFirstSighting. case_bool_decide as Hj.
  - change (books (setMember m c)). apply books_setMember; [done|done|]. rewrite Hj. split; [done|by intros].
  - assert (Ht : tidy (emit (MemberJoined m) (fd (fd_register (address m) now) (setMember m c)))).
    { change (tidy (setMember m c)). apply tidy_setMember; [apply Hb|done]. }
    unfold emitStatusTransition. rewrite bool_decide_eq_false_2 by (cbn; congruence).
    apply books_maybeEmit. by apply foldl_emit_members.
Qed.

Lemma books_replaceIncarnation now e m c : books c → finite_version e → finite_version m →
  toString (address e) = toString (address m) → books (replaceIncarnation o now e m c).
Proof.
  intros Hb He Hm Heq. unfold replaceIncarnation.
  set (c1 := updateMember o (withStatus down e) c).
  assert (H1 : books c1) by (apply books_updateMember; [done|by apply finite_withStatus|done]).
  assert (H2 : books (deleteMember (toString (address e)) c1)).
  { apply books_deleteMember; [done|]. unfold c1. rewrite status_at_updateMember. cbn. by rewrite decide_True. }
  apply books_admitFirstSighting; [exact H2|done|].
  change (status_at (deleteMember (toString (address e)) c1) (toString (address m)) ≠ Some up).
  rewrite status_at_deleteMember, Heq. by rewrite decide_True.
Qed.

(** An entry written over itself with the same status. *)
Lemma books_rewrite c k m m' : books c → members c !! k = Some m → address m' = address m → status m' = status m →
  version m' = version m → books (setMember m' c).
Proof.
  intros Hb Hm Ha Hs Hv. pose proof (tidy_finite _ _ _ (proj1 Hb) Hm) as Hf.
  pose proof (tidy_key _ _ _ (proj1 Hb) Hm) as ->. apply books_setMember; [done| |].
  - unfold finite_version in *. by rewrite Hv.
  - rewrite Ha, Hs. unfold status_at. rewrite Hm. simpl. split; congruence.
Qed.

(** What the adopt steps write keeps who the entry is. *)
Lemma lookup_setMember m c k : members (setMember m c) !! k = if decide (k = toString (address m)) then Some m else members c !! k.
Proof.
  unfold setMember. cbn. destruct (decide (k = _)) as [->|]; [by rewrite lookup_insert_eq|by rewrite lookup_insert_ne].
Qed.

(** The entry of [k] changes its claims only. *)
Definition claims_only k c c' : Prop :=
  ∀ m, members c !! k = Some m → ∃ m', members c' !! k = Some m' ∧ address m' = address m ∧ status m' = status m ∧
    version m' = version m.

Lemma claims_only_rewrite c k m m' : tidy c → members c !! k = Some m → address m' = address m → status m' = status m →
  version m' = version m → claims_only k c (setMember m' c).
Proof.
  intros Ht Hm Ha Hs Hv x Hx. rewrite Hm in Hx. injection Hx as <-. exists m'.
  rewrite lookup_setMember, Ha, <- (tidy_key _ _ _ Ht Hm), decide_True by done. done.
Qed.

Lemma books_adoptStorageIdentities e i c k : books c → members c !! k = Some e →
  books (adoptStorageIdentities o e i c) ∧ claims_only k c (adoptStorageIdentities o e i c).
Proof.
  intros Hb He. unfold adoptStorageIdentities.
  repeat case_match; try (split; [done|by intros m ?; exists m]).
  split; [by eapply books_rewrite|by eapply claims_only_rewrite; [apply Hb|..]].
Qed.

Lemma books_adoptConfigurationFacts from e i c : books c → is_Some (members c !! toString (address i)) →
  books (adoptConfigurationFacts o from e i c) ∧
  claims_only (toString (address i)) c (adoptConfigurationFacts o from e i c).
Proof.
  intros Hb [m Hm]. unfold adoptConfigurationFacts, current_or. rewrite Hm. simpl.
  repeat case_match; try (split; [done|by intros m' ?; exists m']);
    (split; [by eapply books_rewrite|by eapply claims_only_rewrite; [apply Hb|..]]).
Qed.

Lemma books_adoptAppVersion from e i c : books c → is_Some (members c !! toString (address i)) →
  books (adoptAppVersion o from e i c) ∧ claims_only (toString (address i)) c (adoptAppVersion o from e i c).
Proof.
  intros Hb [m Hm]. unfold adoptAppVersion, current_or. rewrite Hm. simpl.
  repeat (case_match; try (split; [done|by intros m' ?; exists m']));
    (split; [by eapply books_rewrite|by eapply claims_only_rewrite; [apply Hb|..]]).
Qed.

Lemma claims_only_trans k c c' c'' : claims_only k c c' → claims_only k c' c'' → claims_only k c c''.
Proof.
  intros H1 H2 m Hm. destruct (H1 m Hm) as (m1 & Hm1 & ? & ? & ?). destruct (H2 m1 Hm1) as (m2 & Hm2 & ? & ? & ?).
  exists m2. split_and!; congruence.
Qed.

Lemma claims_only_some k c c' m : claims_only k c c' → members c !! k = Some m → is_Some (members c' !! k).
Proof. intros Hc Hm. destruct (Hc m Hm) as (m' & ? & _). eauto. Qed.

(** The three adopt steps of a record that is not newer. *)
Definition adopt from e i c : Cluster :=
  adoptAppVersion o from e i (adoptConfigurationFacts o from e i (adoptStorageIdentities o e i c)).

Lemma books_adopt from e i c : books c → members c !! toString (address i) = Some e →
  books (adopt from e i c) ∧ claims_only (toString (address i)) c (adopt from e i c).
Proof.
  intros Hb He. unfold adopt.
  destruct (books_adoptStorageIdentities e i c _ Hb He) as [H1 Hc1].
  destruct (books_adoptConfigurationFacts from e i _ H1 (claims_only_some _ _ _ _ Hc1 He)) as [H2 Hc2].
  pose proof (claims_only_trans _ _ _ _ Hc1 Hc2) as Hc12.
  destruct (books_adoptAppVersion from e i _ H2 (claims_only_some _ _ _ _ Hc12 He)) as [H3 Hc3].
  split; [done|]. by eapply claims_only_trans.
Qed.

(** Guards change at most a refusal count. *)
Definition same_view c c' : Prop :=
  members c' = members c ∧ tombstoneCount c' = tombstoneCount c ∧ reachability c' = reachability c ∧
  parkedWithoutResolver c' = parkedWithoutResolver c ∧ acceptedGossipSequences c' = acceptedGossipSequences c ∧
  currentLeader c' = currentLeader c ∧ events c' = events c ∧ failureDetector c' = failureDetector c ∧
  started c' = started c ∧ heldSelfElection c' = heldSelfElection c.

Lemma books_same_view c c' : same_view c c' → books c → books c'.
Proof.
  intros (Hm & Hn & Hr & Hp & Hs & Hl & _) [Ht Ha]. split.
  - unfold tidy. rewrite Hm, Hn, Hr, Hp, Hs. exact Ht.
  - unfold announced, leader, upMembers, member_values in *. by rewrite Hl, Hm.
Qed.

Lemma admitsMember_view i e c b c' : admitsMember o i e c = (b, c') → same_view c c'.
Proof. unfold admitsMember. intros He. repeat case_match; injection He as <- <-; done. Qed.

Lemma admitsVersion_view now i c b c' : admitsVersion o now i c = (b, c') →
  same_view c c' ∧ (b = true → finite_version i ∧ number_le (version i) (Num (now + maxVersionSkewMs o)) = true).
Proof.
  unfold admitsVersion. destruct (Number_isFinite (version i)) eqn:Ef, (number_le _ _) eqn:El; simpl;
    intros [= <- <-]; split; try done.
Qed.

Lemma admitsTombstoneAge_view now i c b c' : admitsTombstoneAge o now i c = (b, c') → same_view c c'.
Proof. unfold admitsTombstoneAge. intros He. repeat case_match; injection He as <- <-; done. Qed.

Lemma maySpeakFor_view from ss a s c b c' : maySpeakFor o from ss a s c = (b, c') → same_view c c'.
Proof. unfold maySpeakFor. intros He. repeat case_match; injection He as <- <-; done. Qed.

Lemma books_applyRecord now from i c : books c → finite_version i → books (applyRecord o now from i c).
Proof.
  intros Hb Hi. unfold applyRecord. destruct (members c !! toString (address i)) as [e|] eqn:Ee.
  - pose proof (tidy_finite _ _ _ (proj1 Hb) Ee) as Hfe. pose proof (tidy_key _ _ _ (proj1 Hb) Ee) as Hk.
    destruct (bool_decide (status e = removed) && _) eqn:Er.
    { apply andb_true_iff in Er as [Er%bool_decide_eq_true _].
      destruct (admitsMember _ _ _ _) as [ok c'] eqn:Ea. pose proof (admitsMember_view _ _ _ _ _ Ea) as Hv.
      destruct ok; [|by eapply books_same_view]. apply books_admitFirstSighting; [by eapply books_same_view|done|].
      destruct Hv as (Hm & _). unfold status_at. rewrite Hm, Ee. simpl. congruence. }
    destruct (number_le _ _ && _); [by apply books_adopt|].
    destruct (admitsMember _ _ _ _) as [ok c'] eqn:Ea. pose proof (admitsMember_view _ _ _ _ _ Ea) as Hv.
    assert (Hb' : books c') by (by eapply books_same_view). destruct ok; simpl; [|done].
    destruct (isRestartOf e i); [by apply books_replaceIncarnation|].
    destruct Hv as (Hm & _). split.
    + apply tidy_emitStatusTransition, tidy_setMember; [apply Hb'|done].
    + apply announced_transition; [apply Hb'|done|apply Hb'|]. unfold status_at. by rewrite Hm, Ee.
  - destruct (admitsMember _ _ _ _) as [ok c'] eqn:Ea. pose proof (admitsMember_view _ _ _ _ _ Ea) as Hv.
    destruct ok; [|by eapply books_same_view]. apply books_admitFirstSighting; [by eapply books_same_view|done|].
    destruct Hv as (Hm & _). unfold status_at. by rewrite Hm, Ee.
Qed.

(** What a record goes through before it is applied. *)
Lemma mergeMember_spec now from ss data c c' : mergeMember o now from ss data c = Ok c' →
  same_view c c' ∨
  ∃ m c1, fromData data = Ok m ∧ same_view c c1 ∧
    finite_version m ∧ number_le (version m) (Num (now + maxVersionSkewMs o)) = true ∧
    fst (maySpeakFor o from ss (address (withLocalSelfIdentity o c m)) (status m) c) = true ∧
    c' = applyRecord o now from (withLocalSelfIdentity o c m) c1.
Proof.
  unfold mergeMember. intros He. unbind. rename a into m, Hok into Hm.
  assert (Hs : status (withLocalSelfIdentity o c m) = status m) by (unfold withLocalSelfIdentity; by destruct (negb _)).
  assert (Hver : version (withLocalSelfIdentity o c m) = version m) by (unfold withLocalSelfIdentity; by destruct (negb _)).
  rewrite Hs in He. destruct (maySpeakFor _ _ _ _ _ _) as [b1 c1] eqn:E1. pose proof (maySpeakFor_view _ _ _ _ _ _ _ E1) as H1.
  destruct b1; simpl in He; [|injection He as <-; by left].
  destruct (admitsVersion _ _ _ _) as [b2 c2] eqn:E2. apply admitsVersion_view in E2 as [H2 H2'].
  assert (H12 : same_view c c2) by (unfold same_view in *; intuition congruence).
  destruct b2; simpl in He; [|injection He as <-; by left].
  destruct (admitsTombstoneAge _ _ _ _) as [b3 c3] eqn:E3. apply admitsTombstoneAge_view in E3 as H3.
  assert (H13 : same_view c c3) by (unfold same_view in *; intuition congruence).
  destruct b3; simpl in He; injection He as <-; [|by left]. right. destruct (H2' eq_refl) as [Hf Hle].
  rewrite Hver in Hle. unfold finite_version in Hf. rewrite Hver in Hf. exists m, c3. rewrite E1. done.
Qed.

Lemma finite_local c m : finite_version m → finite_version (withLocalSelfIdentity o c m).
Proof. unfold withLocalSelfIdentity. by destruct (negb _). Qed.

Lemma books_mergeMember now from ss data c c' : books c → mergeMember o now from ss data c = Ok c' → books c'.
Proof.
  intros Hb [Hv|(m & c1 & _ & Hv & Hf & _ & _ & ->)]%mergeMember_spec; [by eapply books_same_view|].
  apply books_applyRecord; [by eapply books_same_view|by apply finite_local].
Qed.

Lemma books_merge_members now from ss ds c : books c → books (fst (merge_members o now from ss ds c)).
Proof.
  revert c. induction ds as [|d ds IH]; intros c Hb; simpl; [done|].
  destruct (mergeMember o now from ss d c) as [c'|] eqn:E; [|done]. apply IH. by eapply books_mergeMember.
Qed.

Lemma books_welcome sender c : books c → books (welcome o sender c).
Proof.
  intros Hb. unfold welcome. destruct (members c !! toString sender) eqn:Es; [done|].
  destruct (admitsMember _ _ _ _) as [ok c'] eqn:Ea. pose proof (admitsMember_view _ _ _ _ _ Ea) as Hv.
  assert (Hb' : books c') by (by eapply books_same_view). destruct ok; [|done].
  change (books (setMember (mkMember sender joining (Num 1) ∅ None None None None) c')).
  apply books_setMember; [done|done|]. destruct Hv as (Hm & _). unfold status_at. rewrite Hm. cbn.
  rewrite Es. done.
Qed.

Lemma books_remember from s c : books c → books (rememberGossipSequence from s c).
Proof.
  intros [(Hk & Hv & Hn & Hr & Hp & Hs) Ha]. unfold rememberGossipSequence.
  destruct (members c !! toString from) eqn:E; [|done]. split; [|done]. split_and!; try done. cbn.
  apply elem_of_dom_2 in E. rewrite dom_insert. set_solver.
Qed.

(** ** Promotion *)

Lemma books_self_update s me c : books c → members c !! selfKey o = Some me → books (updateMember o (withStatus s me) c).
Proof.
  intros Hb Hm. apply books_updateMember; [done| |].
  - apply finite_withStatus. eapply tidy_finite; [apply Hb|done].
  - intros _. change (present c me). by eapply present_lookup; [apply Hb|].
Qed.

Lemma books_selfElect c : books c → books (selfElect o c).
Proof.
  intros Hb. unfold selfElect. destruct (negb (started c)); [done|].
  destruct (members c !! selfKey o) as [me|] eqn:Em; [|done].
  destruct (negb (_ || _)); [done|]. destruct (negb _); [done|].
  by apply (books_self_update up me (set_election false true c)).
Qed.

Lemma books_runHeld c : books c → books (runHeldSelfElection o c).
Proof.
  intros Hb. unfold runHeldSelfElection. destruct (negb _); [done|]. destruct (negb _); [done|]. by apply books_selfElect.
Qed.

Lemma present_updateMember n c m : present c m → present (updateMember o n c) m.
Proof. unfold present. rewrite members_updateMember, dom_insert. set_solver. Qed.

Lemma present_values c m : tidy c → m ∈ member_values c → present c m ∧ finite_version m.
Proof.
  intros Ht Hm. apply elem_of_values in Hm; [|done]. split; [by apply elem_of_dom_2 in Hm|by eapply tidy_finite].
Qed.

Lemma books_promotes ms c : books c → (∀ m, m ∈ ms → present c m ∧ finite_version m) → books (foldl (promote o) c ms).
Proof.
  revert c. induction ms as [|m ms IH]; intros c Hb Hms; [done|]. simpl.
  destruct (Hms m ltac:(left)) as [Hp Hf]. apply IH.
  - unfold promote. destruct (_ || _); [|done]. apply books_updateMember; [done|by apply finite_withStatus|done].
  - intros m' Hm'. destruct (Hms m' ltac:(by right)) as [Hp' Hf']. split; [|done].
    unfold promote. destruct (_ || _); [by apply present_updateMember|done].
Qed.

Lemma books_leaderActionsTick c : books c → books (leaderActionsTick o c).
Proof.
  intros Hb. unfold leaderActionsTick. destruct (negb _); [done|]. pose proof (books_runHeld c Hb) as Hb'.
  unfold promoteJoiningMembers. destruct (negb _); [done|]. destruct (negb _); [done|].
  apply books_promotes; [done|]. intros m Hm. by apply present_values; [apply Hb'|].
Qed.

(** ** Frames *)

Lemma books_onGossip now from message c : books c → books (onGossip o now from message c).
Proof.
  intros Hb. unfold onGossip. destruct (negb _); [done|]. destruct (fromJSON _) as [sender|]; [|done].
  pose proof (books_merge_members now from (status_at c (toString from)) (g_members message) c Hb) as Hm.
  destruct (merge_members _ _ _ _ _ _) as [c1 completed]. simpl in Hm. destruct completed; simpl; [|done].
  by apply books_leaderActionsTick, books_remember, books_welcome.
Qed.

Lemma books_onHeartbeat now from message c : books c → books (onHeartbeat o now from message c).
Proof.
  intros Hb. unfold onHeartbeat. destruct (negb _); [done|]. cbn.
  destruct (members c !! toString from) as [e|] eqn:Ee; [|done]. case_bool_decide; [|done].
  change (books (updateMember o (withStatus up e) (fd (fd_heartbeat from now) c))).
  apply books_updateMember; [done| |].
  - apply finite_withStatus. by eapply tidy_finite; [apply Hb|].
  - intros _. change (present c e). by eapply present_lookup; [apply Hb|].
Qed.

Lemma books_onLeave now from node c : books c → books (onLeave now from node c).
Proof.
  intros Hb. unfold onLeave. destruct (fromJSON node) as [peer|]; [|done]. destruct (negb _); [done|].
  destruct (members c !! toString peer) as [e|] eqn:Ee; [|done]. apply books_maybeEmit.
  change (tidy (setMember (withRemoved now (withStatus leaving e)) c)). apply tidy_setMember; [apply Hb|].
  apply finite_withRemoved, finite_withStatus. by eapply tidy_finite; [apply Hb|].
Qed.

Lemma books_handleWire now from message c : books c → books (handleWire o now from message c).
Proof.
  intros Hb. unfold handleWire. destruct message;
    [by apply books_onGossip|by apply books_onHeartbeat|done|by apply books_onLeave].
Qed.

(** ** Removal *)

Lemma books_tombstone now m c : books c → finite_version m → books (tombstone o now m c).
Proof.
  intros Hb Hf. unfold tombstone.
  assert (H1 : books (updateMember o (withStatus down m) c)) by (apply books_updateMember; [done|by apply finite_withStatus|done]).
  change (books (setMember (withRemoved now (withStatus down m)) (updateMember o (withStatus down m) c))).
  apply books_setMember; [done|by apply finite_withRemoved, finite_withStatus|].
  rewrite status_at_updateMember. cbn. by rewrite decide_True.
Qed.

Lemma books_forceDown now k c : books c → books (fst (forceDown o now k c)).
Proof.
  intros Hb. unfold forceDown. destruct (negb _); [done|]. destruct (members c !! k) as [m|] eqn:Em; [|done].
  destruct (_ || _); [done|]. destruct (isSelf o _); [done|]. apply books_tombstone; [done|].
  by eapply tidy_finite; [apply Hb|].
Qed.

Lemma books_depart c : books c → books (depart o c).
Proof.
  intros Hb. unfold depart. destruct (members c !! selfKey o) as [me|] eqn:Em; [|done].
  by apply (books_self_update leaving me c).
Qed.

Lemma books_leaveAtOnce c : books c → books (leaveAtOnce o c).
Proof.
  intros Hb. unfold leaveAtOnce, beginLeaving. destruct (negb _); [done|]. by apply (books_depart (set_life _ _ c)).
Qed.

Lemma books_peers r p s c : books c → dom r ⊆ dom (members c) → p ⊆ dom (members c) → dom s ⊆ dom (members c) →
  books (set_peers r p s c).
Proof. intros [(Hk & Hv & Hn & _) Ha] Hr Hp Hs. split; [|done]. by split_and!. Qed.

Lemma books_trackReachability m d c : books c → present c m →
  books (trackReachability m d c) ∧ members (trackReachability m d c) = members c.
Proof.
  intros Hb Hm. pose proof Hb as [(_ & _ & _ & Hr & Hp & Hs) _]. unfold trackReachability, present in *.
  assert (Hdel : books (set_peers (delete (toString (address m)) (reachability c)) (parkedWithoutResolver c) (acceptedGossipSequences c) c)).
  { apply books_peers; [done| |done|done]. rewrite dom_delete. set_solver. }
  assert (Hins : ∀ b, books (set_peers (<[toString (address m) := b]> (reachability c)) (parkedWithoutResolver c) (acceptedGossipSequences c) c)).
  { intros b. apply books_peers; [done| |done|done]. rewrite dom_insert. set_solver. }
  destruct (status m); try done; (case_bool_decide as Hq; [done|]); destruct (bool_decide (_ = None) && _); split; try done; apply Hins.
Qed.

Lemma books_holdForResolver m c : books c → present c m → finite_version m → books (holdForResolver o m c).
Proof.
  intros Hb Hm Hf. unfold holdForResolver. pose proof Hb as [(_ & _ & _ & Hr & Hp & Hs) _].
  set (c1 := if hasDowning o then c else _).
  assert (H1 : books c1).
  { unfold c1. destruct (hasDowning o); [done|]. apply books_peers; [done|done| |done]. unfold present in Hm. set_solver. }
  case_bool_decide; [done|]. by apply books_updateMember; [|apply finite_withStatus|].
Qed.

Lemma books_autoDown m c : books c → finite_version m → books (autoDown o m c).
Proof.
  intros Hb Hf. unfold autoDown.
  change (books (deleteMember (toString (address m)) (updateMember o (withStatus down m) c))).
  apply books_deleteMember; [apply books_updateMember; [done|by apply finite_withStatus|done]|].
  rewrite status_at_updateMember. cbn. by rewrite decide_True.
Qed.

(** A detector round on one member leaves the entries of the others. *)
Lemma books_detect now m c : books c → present c m → finite_version m →
  books (detect o now c m) ∧
  ∀ k, k ≠ toString (address m) → members (detect o now c m) !! k = members c !! k.
Proof.
  intros Hb Hm Hf. unfold detect. destruct (isSelf o (address m)); [done|].
  set (dec := fd_decide (address m) now (failureDetector c)).
  destruct (books_trackReachability m dec c Hb Hm) as [H1 Hm1]. set (c1 := trackReachability m dec c) in *.
  set (c2 := if bool_decide (dec = down_) then c1 else _).
  assert (books c2 ∧ members c2 = members c) as [H2 Hm2].
  { unfold c2. case_bool_decide; [done|]. split; [|done]. pose proof H1 as [(_ & _ & _ & Hr & Hp & Hs) _].
    apply books_peers; [done|done|set_solver|done]. }
  assert (Hm2' : present c2 m) by (unfold present; by rewrite Hm2).
  assert (Hup : ∀ s k, k ≠ toString (address m) → members (updateMember o (withStatus s m) c2) !! k = members c !! k).
  { intros s k Hk. rewrite members_updateMember, Hm2. by rewrite lookup_insert_ne. }
  destruct (bool_decide (dec = unreachable_) && _).
  { split; [by apply books_updateMember; [|apply finite_withStatus|]|]. apply Hup. }
  destruct (_ && _); [|split; [done|intros k _; by rewrite Hm2]]. destruct (_ || _).
  - split; [by apply books_holdForResolver|]. intros k Hk. unfold holdForResolver.
    destruct (hasDowning o); case_bool_decide; try (cbn; by rewrite Hm2); [by apply Hup|].
    rewrite members_updateMember. cbn. by rewrite lookup_insert_ne, Hm2.
  - split; [by apply books_autoDown|]. intros k Hk. unfold autoDown. cbn -[deleteMember updateMember].
    rewrite members_deleteMember, lookup_delete_ne by done. by apply Hup.
Qed.

Lemma books_detects now ms c : books c → NoDup (addrKey <$> ms) → (∀ m, m ∈ ms → present c m ∧ finite_version m) →
  books (foldl (detect o now) c ms).
Proof.
  revert c. induction ms as [|m ms IH]; intros c Hb Hnd Hms; [done|]. simpl in *.
  apply NoDup_cons in Hnd as [Hnot Hnd]. destruct (Hms m ltac:(left)) as [Hp Hf].
  destruct (books_detect now m c Hb Hp Hf) as [H1 Hk]. apply IH; [done|done|].
  intros m' Hm'. destruct (Hms m' ltac:(by right)) as [Hp' Hf']. split; [|done].
  unfold present in *. rewrite elem_of_dom in Hp' |- *. rewrite Hk; [done|]. intros He. apply Hnot.
  rewrite list_elem_of_fmap. unfold addrKey. eauto.
Qed.

Lemma books_applyVerdict now c k : books c → books (applyVerdict o now c k).
Proof.
  intros Hb. unfold applyVerdict. case_bool_decide; [done|]. destruct (members c !! k) as [m|] eqn:Em; [|done].
  destruct (_ || _); [done|]. apply books_tombstone; [done|]. by eapply tidy_finite; [apply Hb|].
Qed.

Lemma books_applyDowningDecision now toDown f c : books c → books (applyDowningDecision o now toDown f c).
Proof.
  intros Hb. unfold applyDowningDecision.
  assert (Hf : books (foldl (applyVerdict o now) (set_window (Some f) (stabilityWindow c) c) (elements toDown))).
  { assert (H0 : books (set_window (Some f) (stabilityWindow c) c)) by done. revert H0.
    generalize (set_window (Some f) (stabilityWindow c) c) as c0. generalize (elements toDown) as ks.
    induction ks as [|k ks IH]; intros c0 H0; simpl; [done|]. by apply IH, books_applyVerdict. }
  case_bool_decide; [by apply books_leaveAtOnce|done].
Qed.

Lemma books_evaluateDowning now provider c : books c → books (evaluateDowning o now provider c).
Proof.
  intros Hb. unfold evaluateDowning. destruct (negb _); [done|].
  destruct (StabilityWindow.consult _ _) as [w answer].
  assert (Hb' : books (set_window (lastDownedView c) w c)) by done.
  destruct answer; [done|by apply books_applyDowningDecision|].
  case_bool_decide; [done|]. destruct (provider _); [|done]. case_bool_decide; [done|]. by apply books_applyDowningDecision.
Qed.

Lemma books_failureDetectionTick now provider c : books c → books (failureDetectionTick o now provider c).
Proof.
  intros Hb. unfold failureDetectionTick. apply books_evaluateDowning, books_detects; [done|apply NoDup_values, Hb|].
  intros m Hm. by apply present_values; [apply Hb|].
Qed.

(** Only tombstones are pruned. *)
Lemma prune_cases now c m : prune o now c m = c ∨ status m = removed ∧ prune o now c m = deleteMember (toString (address m)) c.
Proof. unfold prune. destruct (status m) eqn:E; auto. destruct (removedAt m) as [[]|]; auto. case_match; auto. Qed.

Lemma books_tombstonePruneTick now c : books c → books (tombstonePruneTick o now c).
Proof.
  intros Hb. unfold tombstonePruneTick.
  assert (Hms : ∀ m, m ∈ member_values c → status m = removed → status_at c (toString (address m)) ≠ Some up).
  { intros m Hm Hs. apply elem_of_values in Hm; [|apply Hb]. unfold status_at. rewrite Hm. simpl. congruence. }
  revert Hb Hms. generalize (member_values c) as ms. intros ms. revert c.
  induction ms as [|m ms IH]; intros c Hb Hms; simpl; [done|].
  destruct (prune_cases now c m) as [->|[Hs ->]].
  - apply IH; [done|]. intros m' ?. apply Hms. by right.
  - apply IH.
    + apply books_deleteMember; [done|]. apply Hms; [left|done].
    + intros m' Hm' Hs'. rewrite status_at_deleteMember. case_decide; [done|]. apply Hms; [by right|done].
Qed.

(** ** Life *)

Lemma books_construct d stable all : books (construct d stable all).
Proof.
  split; [|done]. by split_and!.
Qed.

Lemma books_start now c : books c → status_at c (selfKey o) ≠ Some up → books (start o now c).
Proof.
  intros Hb Hs. unfold start. cbn -[setMember]. set (me := mkMember _ _ _ _ _ _ _ _).
  change (books (setMember me (set_self now (selfStorageIdentities c) (selfConfigurationFacts c) (set_life true (departed c) c)))).
  apply books_setMember; [done|done|]. split; [done|]. by intros.
Qed.

Lemma books_weaklyUpTimeout c : books c → books (weaklyUpTimeout o c).
Proof.
  intros Hb. unfold weaklyUpTimeout. destruct (members c !! selfKey o) as [me|] eqn:Em; [|done].
  case_bool_decide; [|done]. by apply books_self_update.
Qed.

Lemma books_gossipTick c : books c → books (gossipTick o c).
Proof. intros Hb. unfold gossipTick. pose proof (books_leaderActionsTick c Hb). by case_bool_decide. Qed.

Lemma books_seedTimerTick now seeds c : books c → books (seedTimerTick o now seeds c).
Proof.
  intros Hb. unfold seedTimerTick, contactSeeds.
  assert (Hf : ∀ c, books c → books (foldl (λ c seed, fd (fd_register seed now) c) c seeds)).
  { induction seeds as [|a seeds IH]; intros c0 H0; simpl; [done|]. by apply IH. }
  repeat case_match; try done; by apply Hf.
Qed.

Lemma books_publishConfigurationFact n v c : books c → books (publishConfigurationFact o n v c).
Proof. intros Hb. unfold publishConfigurationFact. by repeat case_match. Qed.

Lemma books_step now c e : books c → books (step o now c e).
Proof.
  intros Hb. destruct e; simpl; try (destruct (departed c); [done|]).
  - by apply books_handleWire.
  - by apply books_gossipTick.
  - by apply books_failureDetectionTick.
  - by apply books_tombstonePruneTick.
  - by apply books_weaklyUpTimeout.
  - by apply books_selfElect.
  - by apply books_seedTimerTick.
  - by apply books_forceDown.
  - unfold beginLeaving. by destruct (negb _).
  - destruct (_ || _); [done|]. by apply books_depart.
  - done.
  - by apply books_publishConfigurationFact.
Qed.

(** The states of a node, from its start on. *)
Inductive reachable : Cluster → Prop :=
| reach_start d stable all facts now : reachable (start o now (foldl (λ c '(n, v), publishConfigurationFact o n v c) (construct d stable all) facts))
| reach_step now c e : reachable c → reachable (step o now c e).

Lemma reachable_books c : reachable c → books c.
Proof.
  induction 1 as [d stable all facts now|now c e _ IH]; [|by apply books_step].
  assert (Hf : ∀ c, books c → members c = ∅ →
    books (foldl (λ c '(n, v), publishConfigurationFact o n v c) c facts) ∧
    members (foldl (λ c '(n, v), publishConfigurationFact o n v c) c facts) = ∅).
  { induction facts as [|[n v] facts IH]; intros c Hb Hm; [done|]. simpl. apply IH; [by apply books_publishConfigurationFact|].
    unfold publishConfigurationFact. by repeat case_match. }
  destruct (Hf _ (books_construct d stable all) eq_refl) as [Hb Hm].
  apply books_start; [done|]. unfold status_at. by rewrite Hm.
Qed.

(** C13. The books of a cluster node balance, whatever frames, timers and
    operators did since its start: every member is filed under its address, the
    tombstone count that bounds gossip is the number of removed entries, the
    reachability, parking and replay tables hold members only, and the leader
    last announced to the listeners is the leader: the [up] member with the
    least address, or none when nobody is [up]. *)
Theorem cluster_books_balance (c : Cluster) : reachable c →
  (∀ k m, members c !! k = Some m → k = toString (address m)) ∧
  tombstoneCount c = Z.of_nat (size (filter (λ kv, status kv.2 = removed) (members c))) ∧
  dom (reachability c) ∪ parkedWithoutResolver c ∪ dom (acceptedGossipSequences c) ⊆ dom (members c) ∧
  toString ∘ address <$> currentLeader c = toString ∘ address <$> leader c ∧
  match leader c with
  | Some l => status l = up ∧ ∀ k m, members c !! k = Some m → status m = up →
                locale_le (toString (address l)) (toString (address m)) = true
  | None => ∀ k m, members c !! k = Some m → status m ≠ up
  end.
Proof.
  intros Hr. destruct (reachable_books c Hr) as [Ht Ha]. pose proof Ht as (Hk & _ & Hn & Hre & Hp & Hs).
  split_and!; [done| |set_solver|exact Ha|].
  - rewrite Hn. unfold tombstones. do 2 f_equal. apply map_filter_ext. intros k m _. unfold is_removed. cbn.
    by rewrite bool_decide_eq_true.
  - unfold leader, upMembers. set (ups := filter _ _).
    assert (Hups : ∀ k m, members c !! k = Some m → status m = up → addrKey m ∈ addrKey <$> ups).
    { intros k m Hm Hu. rewrite list_elem_of_fmap. exists m. split; [done|]. apply list_elem_of_filter.
      split; [done|]. apply elem_of_values; [done|]. by rewrite <- (tidy_key _ _ _ Ht Hm). }
    destruct (merge_sort KeepOldest.compareTo ups) as [|l r] eqn:El; simpl.
    + intros k m Hm Hu. specialize (Hups k m Hm Hu).
      pose proof (merge_sort_Permutation KeepOldest.compareTo ups) as Hpm. rewrite El in Hpm.
      apply Permutation_nil_l in Hpm. rewrite <- Hpm in Hups. by apply elem_of_nil in Hups.
    + split; [|intros k m Hm Hu; by apply (oldest_least _ _ _ El), (Hups k)].
      assert (Hl : l ∈ ups) by (rewrite <- (merge_sort_Permutation KeepOldest.compareTo ups), El; left).
      by apply list_elem_of_filter in Hl as [? _].
Qed.

End books.

(** ** A concrete node *)

Definition example_options : ClusterOptions :=
  mkClusterOptions (node "a" 1) ∅ None false true 1 [] 1000 100 1000 10 10 ∅.

Definition example_start : Cluster (D := FailureDetector.FailureDetector) :=
  start example_options 5
    (construct (FailureDetector.mkDetector ∅ FailureDetector.defaultFailureDetectorOptions) 20000 false).

(** A seed that elects itself and admits a second node. *)
Definition joining_peer : MemberData := toData (mkMember (node "b" 1) joining (Num 7) ∅ None None None None).

Definition example_events : list (Z * Event) :=
  [(6, SelfElectionTimer); (8, Wire (node "b" 1) (gossip (mkGossip (Some (toJSON (node "b" 1))) (Num 7) [joining_peer])))].

Definition example_cluster : Cluster (D := FailureDetector.FailureDetector) :=
  foldl (λ c '(now, e), step (LC := code_point_compare) example_options now c e) example_start example_events.

Lemma example_reachable : reachable (LC := code_point_compare) example_options example_cluster.
Proof. do 2 apply reach_step. exact (reach_start _ _ 20000 false [] 5). Qed.

Lemma cluster_books_balance_witness :
  (toString ∘ address <$> currentLeader example_cluster = Some "sys@a:1") ∧
  toString ∘ address <$> currentLeader example_cluster =
    toString ∘ address <$> leader (LC := code_point_compare) example_cluster ∧
  status_at example_cluster "sys@b:1" = Some up.
Proof.
  split; [vm_compute; reflexivity|]. split; [|vm_compute; reflexivity].
  destruct (@cluster_books_balance _ _ code_point_compare code_point_order _ _ example_reachable) as (_ & _ & _ & Hl & _).
  exact Hl.
Defined.
