(* ===== verification/ClusterGossip.v ===== *)
(** * What a peer can do to a node

    The merge of gossiped records, and every frame a peer can send: which
    entries it touches, that the node's own status is out of reach, that no
    entry goes back to an older version, and that two nodes that merged the
    same records about a peer agree about it. *)

From S2P Require Import Prelude Text Json Member FailureDetector Downing StabilityWindow Cluster ClusterInvariants.
From stdpp Require Import pretty.
From Stdlib Require Import Ascii.
Import NodeAddress Member.

Local Open Scope Z_scope.

(** ** Addresses and their keys *)

(** No ["@"] in the names an address is printed from. *)
Definition plain_address (a : NodeAddress) : Prop :=
  has "@" (systemName a) = false ∧ has "@" (host a) = false.

Lemma plain_toString a b : plain_address a → toString b = toString a → equals b a = true.
Proof.
  intros [Hs Hh] He. unfold toString in He. symmetry in He.
  assert (Hp : ∀ z : Z, has "@" (pretty z) = false) by (intros z; apply has_pretty; [apply digits_only_at|done]).
  assert (Hq : ∀ z : Z, has ":" (pretty z) = false) by (intros z; apply has_pretty; [apply digits_only_colon|done]).
  change (systemName a +:+ String "@" (host a +:+ ":" +:+ pretty (port a)) =
          systemName b +:+ String "@" (host b +:+ ":" +:+ pretty (port b))) in He.
  apply cut_once in He as [Hsn He]; [|done|].
  - change (host a +:+ String ":" (pretty (port a)) = host b +:+ String ":" (pretty (port b))) in He.
    apply cut_last in He as [Hho Hpo]; [|done..]. apply (inj pretty) in Hpo.
    unfold equals. by rewrite Hsn, Hho, Hpo, !bool_decide_eq_true_2.
  - rewrite has_app, Hh. change (has "@" (pretty (port a)) = false). apply Hp.
Qed.

Section gossip.
Context {D : Type} `{FD : FailureDetectorLike D} {LC : LocaleCompare} {LO : LocaleOrder}.
Context (o : ClusterOptions).

Implicit Types (c : Cluster (D := D)) (m : Member).

Lemma isSelf_key a : isSelf o a = true → toString a = selfKey o.
Proof. apply equals_toString. Qed.

Lemma key_isSelf a : plain_address (selfAddress o) → toString a = selfKey o → isSelf o a = true.
Proof. intros. by apply plain_toString. Qed.

(** ** Frame properties: which entries an operation writes *)

(** Only the entry of [k] may differ. *)
Definition touches (k : string) c c' : Prop := ∀ k', k' ≠ k → members c' !! k' = members c !! k'.

Lemma touches_trans k c c' c'' : touches k c c' → touches k c' c'' → touches k c c''.
Proof. intros H1 H2 k' Hk. by rewrite H2, H1. Qed.

Lemma touches_refl k c : touches k c c.
Proof. done. Qed.

Lemma touches_view k c c' : same_view c c' → touches k c c'.
Proof. intros (Hm & _) k' _. by rewrite Hm. Qed.

Lemma touches_setMember m c : touches (toString (address m)) c (setMember m c).
Proof. intros k Hk. by rewrite lookup_setMember, decide_False. Qed.

Lemma touches_updateMember m c : touches (toString (address m)) c (updateMember o m c).
Proof. intros k Hk. rewrite members_updateMember. by rewrite lookup_insert_ne. Qed.

Lemma touches_deleteMember k c : touches k c (deleteMember k c).
Proof. intros k' Hk. rewrite members_deleteMember. by rewrite lookup_delete_ne. Qed.

Lemma members_admitFirstSighting now m c :
  members (admitFirstSighting o now m c) = <[toString (address m) := m]> (members c).
Proof. unfold admitFirstSighting. case_bool_decide; [done|]. by rewrite members_emitStatusTransition. Qed.

Lemma touches_admitFirstSighting now m c : touches (toString (address m)) c (admitFirstSighting o now m c).
Proof. intros k Hk. rewrite members_admitFirstSighting. by rewrite lookup_insert_ne. Qed.

Lemma members_replaceIncarnation now e m c : toString (address e) = toString (address m) →
  members (replaceIncarnation o now e m c) = <[toString (address m) := m]> (members c).
Proof.
  intros He. unfold replaceIncarnation. rewrite members_admitFirstSighting.
  cbn -[deleteMember updateMember]. rewrite members_deleteMember, members_updateMember. cbn. rewrite He.
  rewrite delete_insert_eq. apply insert_delete_eq.
Qed.

Lemma touches_adopt from e i c : tidy c → members c !! toString (address i) = Some e →
  touches (toString (address i)) c (adopt o from e i c).
Proof.
  intros Ht He k Hk. unfold adopt.
  assert (Hset : ∀ x c, toString (address x) = toString (address i) → members (setMember x c) !! k = members c !! k)
    by (intros x c0 Hx; apply touches_setMember; congruence).
  assert (Hcur : ∀ c, (∀ m, members c !! toString (address i) = Some m → toString (address m) = toString (address i)) →
            toString (address (current_or e i c)) = toString (address i)).
  { intros c0 Hc0. unfold current_or. destruct (members c0 !! _) as [m|] eqn:Em; simpl; [by apply Hc0|].
    symmetry. by eapply tidy_key. }
  assert (Hown : ∀ m, members c !! toString (address i) = Some m → toString (address m) = toString (address i)).
  { intros m Hm. symmetry. by eapply tidy_key. }
  assert (Hstep : ∀ x c, toString (address x) = toString (address i) →
    (∀ m, members c !! toString (address i) = Some m → toString (address m) = toString (address i)) →
    ∀ m, members (setMember x c) !! toString (address i) = Some m → toString (address m) = toString (address i)).
  { intros x c0 Hx H0 m. rewrite lookup_setMember. case_decide; [intros [= <-]; done|apply H0]. }
  set (c1 := adoptStorageIdentities o e i c).
  assert (H1 : members c1 !! k = members c !! k ∧
    ∀ m, members c1 !! toString (address i) = Some m → toString (address m) = toString (address i)).
  { unfold c1, adoptStorageIdentities. repeat case_match; auto.
    split; [apply Hset; exact (Hown e He)|apply Hstep; [exact (Hown e He)|done]]. }
  destruct H1 as [H1 H1']. clearbody c1.
  set (c2 := adoptConfigurationFacts o from e i c1).
  assert (H2 : members c2 !! k = members c1 !! k ∧
    ∀ m, members c2 !! toString (address i) = Some m → toString (address m) = toString (address i)).
  { unfold c2, adoptConfigurationFacts. repeat case_match; auto;
      (split; [apply Hset; cbn; by apply Hcur|apply Hstep; [cbn; by apply Hcur|done]]). }
  destruct H2 as [H2 H2']. clearbody c2. rewrite <- H1, <- H2.
  unfold adoptAppVersion. repeat case_match; auto; apply Hset; cbn; by apply Hcur.
Qed.

Lemma touches_applyRecord now from i c : tidy c → touches (toString (address i)) c (applyRecord o now from i c).
Proof.
  intros Ht. unfold applyRecord. destruct (members c !! toString (address i)) as [e|] eqn:Ee.
  - destruct (bool_decide _ && _).
    { destruct (admitsMember _ _ _ _) as [ok c'] eqn:Ea. pose proof (admitsMember_view _ _ _ _ _ _ Ea) as Hv.
      destruct ok; [|by apply touches_view]. eapply touches_trans; [by apply touches_view|apply touches_admitFirstSighting]. }
    destruct (number_le _ _ && _); [by apply touches_adopt|].
    destruct (admitsMember _ _ _ _) as [ok c'] eqn:Ea. pose proof (admitsMember_view _ _ _ _ _ _ Ea) as Hv.
    destruct ok; simpl; [|by apply touches_view]. eapply touches_trans; [by apply touches_view|].
    destruct (isRestartOf e i).
    + intros k Hk. rewrite members_replaceIncarnation by (symmetry; by eapply tidy_key). by rewrite lookup_insert_ne.
    + intros k Hk. rewrite members_emitStatusTransition. by apply touches_setMember.
  - destruct (admitsMember _ _ _ _) as [ok c'] eqn:Ea. pose proof (admitsMember_view _ _ _ _ _ _ Ea) as Hv.
    destruct ok; [|by apply touches_view]. eapply touches_trans; [by apply touches_view|apply touches_admitFirstSighting].
Qed.

(** ** Versions never go back *)

Definition vle m m' : Prop := ∃ x y, version m = Num x ∧ version m' = Num y ∧ x ≤ y.

(** Every entry is still there, at its version or a later one. *)
Definition newer c c' : Prop :=
  ∀ k m, members c !! k = Some m → ∃ m', members c' !! k = Some m' ∧ vle m m'.

Lemma vle_refl m : finite_version m → vle m m.
Proof. unfold finite_version, vle. destruct (version m) as [| | |z]; try done. intros _. by exists z, z. Qed.

Lemma vle_trans m1 m2 m3 : vle m1 m2 → vle m2 m3 → vle m1 m3.
Proof.
  intros (x & y & Hx & Hy & ?) (y' & z & Hy' & Hz & ?). rewrite Hy in Hy'. injection Hy' as <-.
  exists x, z. split_and!; [done|done|lia].
Qed.

Lemma vle_succ m m' : finite_version m → version m' = number_succ (version m) → vle m m'.
Proof.
  unfold finite_version, vle. destruct (version m) as [| | |z]; try done. intros _ ->. exists z, (z + 1).
  split_and!; [done|done|lia].
Qed.

Lemma vle_lt m m' : number_lt (version m) (version m') = true → finite_version m → finite_version m' → vle m m'.
Proof.
  unfold finite_version, vle. destruct (version m) as [| | |z]; try done. destruct (version m') as [| | |z']; try done.
  intros Hlt%Z.ltb_lt _ _. exists z, z'. split_and!; [done|done|lia].
Qed.

Lemma newer_refl c : tidy c → newer c c.
Proof. intros Ht k m Hm. exists m. split; [done|]. apply vle_refl. by eapply tidy_finite. Qed.

Lemma newer_trans c c' c'' : newer c c' → newer c' c'' → newer c c''.
Proof.
  intros H1 H2 k m Hm. destruct (H1 k m Hm) as (m1 & Hm1 & ?). destruct (H2 k m1 Hm1) as (m2 & Hm2 & ?).
  exists m2. split; [done|]. by eapply vle_trans.
Qed.

Lemma newer_members c c' : tidy c → members c' = members c → newer c c'.
Proof. intros Ht He k m Hm. exists m. rewrite He. split; [done|]. apply vle_refl. by eapply tidy_finite. Qed.

Lemma newer_insert c c' n : tidy c → members c' = <[toString (address n) := n]> (members c) →
  (∀ m, members c !! toString (address n) = Some m → vle m n) → newer c c'.
Proof.
  intros Ht He Hn k m Hm. rewrite He. destruct (decide (k = toString (address n))) as [->|Hk].
  - exists n. rewrite lookup_insert_eq. split; [done|]. by apply Hn.
  - exists m. rewrite lookup_insert_ne by done. split; [done|]. apply vle_refl. by eapply tidy_finite.
Qed.

Lemma newer_updateMember c n : tidy c → (∀ m, members c !! toString (address n) = Some m → vle m n) →
  newer c (updateMember o n c).
Proof. intros Ht Hn. apply (newer_insert _ _ n); [done|by rewrite members_updateMember|done]. Qed.

Lemma newer_status c s k m : tidy c → members c !! k = Some m → newer c (updateMember o (withStatus s m) c).
Proof.
  intros Ht Hm. apply newer_updateMember; [done|]. cbn. rewrite <- (tidy_key _ _ _ Ht Hm).
  intros m' Hm'. rewrite Hm in Hm'. injection Hm' as <-. apply vle_succ; [by eapply tidy_finite|done].
Qed.

(** ** One record *)

Lemma applyRecord_adopt now from i c e : tidy c → members c !! toString (address i) = Some e → finite_version i →
  bool_decide (status e = removed) && number_lt (version e) (version i) = false →
  number_le (version i) (version e) && negb (promotedAtEqualVersion e i) = true →
  applyRecord o now from i c = adopt o from e i c.
Proof. intros Ht He Hi H1 H2. unfold applyRecord. by rewrite He, H1, H2. Qed.

(** The entry a record is about: untouched but for its claims, or replaced by
    the record, which is then no older. *)
Lemma applyRecord_entry now from i c : books c → finite_version i →
  let c' := applyRecord o now from i c in
  let k := toString (address i) in
  (members c' !! k = None ∧ members c !! k = None) ∨
  (is_Some (members c !! k) ∧ claims_only k c c') ∨
  (members c' !! k = Some i ∧ ∀ e, members c !! k = Some e → vle e i).
Proof.
  intros Hb Hi c' k. unfold c', k, applyRecord. destruct (members c !! toString (address i)) as [e|] eqn:Ee.
  - pose proof (tidy_finite _ _ _ (proj1 Hb) Ee) as Hfe.
    assert (Hsame : ∀ c', same_view c c' → claims_only (toString (address i)) c c').
    { intros c0 (Hm & _) m Hm0. exists m. rewrite Hm. done. }
    destruct (bool_decide _ && number_lt _ _) eqn:E1.
    { apply andb_true_iff in E1 as [_ Hlt].
      destruct (admitsMember _ _ _ _) as [ok c1] eqn:Ea. pose proof (admitsMember_view _ _ _ _ _ _ Ea) as Hv.
      destruct ok; [|right; left; split; [done|by apply Hsame]].
      right; right. rewrite members_admitFirstSighting, lookup_insert_eq. split; [done|].
      intros e' [= <-]. by apply vle_lt. }
    destruct (number_le (version i) (version e)) eqn:E2; simpl.
    + destruct (promotedAtEqualVersion e i) eqn:E3; simpl.
      2: { right; left. split; [done|]. by apply books_adopt. }
      assert (Hve : vle e i).
      { unfold promotedAtEqualVersion in E3. apply andb_true_iff in E3 as [[E3 _]%andb_true_iff _].
        unfold vle. unfold finite_version in *. destruct (version i) as [| | |z], (version e) as [| | |z']; try done.
        apply bool_decide_eq_true in E3. injection E3 as ->. by exists z', z'. }
      destruct (admitsMember _ _ _ _) as [ok c1] eqn:Ea. pose proof (admitsMember_view _ _ _ _ _ _ Ea) as Hv.
      destruct ok; simpl; [|right; left; split; [done|by apply Hsame]]. right; right.
      split; [|by intros e' [= <-]].
      destruct (isRestartOf e i); [rewrite members_replaceIncarnation by (symmetry; by eapply tidy_key; [apply Hb|])
                                  |rewrite members_emitStatusTransition; cbn]; by rewrite lookup_insert_eq.
    + assert (Hve : vle e i).
      { apply vle_lt; [|done..]. unfold finite_version in *. unfold number_le in E2.
        destruct (version i) as [| | |z], (version e) as [| | |z']; try done. simpl in *.
        apply orb_false_iff in E2 as [E2 E2']. apply Z.ltb_lt. apply Z.ltb_ge in E2.
        apply bool_decide_eq_false in E2'. assert (z ≠ z') by congruence. lia. }
      destruct (admitsMember _ _ _ _) as [ok c1] eqn:Ea. pose proof (admitsMember_view _ _ _ _ _ _ Ea) as Hv.
      destruct ok; simpl; [|right; left; split; [done|by apply Hsame]]. right; right.
      split; [|by intros e' [= <-]].
      destruct (isRestartOf e i); [rewrite members_replaceIncarnation by (symmetry; by eapply tidy_key; [apply Hb|])
                                  |rewrite members_emitStatusTransition; cbn]; by rewrite lookup_insert_eq.
  - destruct (admitsMember _ _ _ _) as [ok c1] eqn:Ea. pose proof (admitsMember_view _ _ _ _ _ _ Ea) as Hv.
    destruct ok.
    + right; right. rewrite members_admitFirstSighting, lookup_insert_eq. split; [done|]. by intros e.
    + left. destruct Hv as (Hm & _). by rewrite Hm.
Qed.

Lemma newer_applyRecord now from i c : books c → finite_version i → newer c (applyRecord o now from i c).
Proof.
  intros Hb Hi k m Hm. destruct (decide (k = toString (address i))) as [->|Hk].
  - destruct (applyRecord_entry now from i c Hb Hi) as [[_ Hn]|[[_ Hc]|[Hs Hv]]]; [congruence| |].
    + destruct (Hc m Hm) as (m' & Hm' & _ & _ & Hver). exists m'. split; [done|].
      unfold vle. rewrite Hver. apply vle_refl. by eapply tidy_finite; [apply Hb|].
    + exists i. split; [done|]. by apply Hv.
  - exists m. rewrite touches_applyRecord by (done || apply Hb). split; [done|].
    apply vle_refl. by eapply tidy_finite; [apply Hb|].
Qed.

Lemma newer_mergeMember now from ss data c c' : books c → mergeMember o now from ss data c = Ok c' → newer c c'.
Proof.
  intros Hb [(Hm & _)|(m & c1 & _ & Hv & Hf & _ & _ & ->)]%mergeMember_spec; [by apply newer_members; [apply Hb|]|].
  apply (newer_trans _ c1); [apply newer_members; [apply Hb|by destruct Hv]|].
  apply newer_applyRecord; [by eapply books_same_view|by apply finite_local].
Qed.

Lemma newer_merge_members now from ss ds c : books c → newer c (fst (merge_members o now from ss ds c)).
Proof.
  revert c. induction ds as [|d ds IH]; intros c Hb; simpl; [apply newer_refl, Hb|].
  destruct (mergeMember o now from ss d c) as [c'|] eqn:E; [|apply newer_refl, Hb].
  eapply newer_trans; [by eapply newer_mergeMember|]. apply IH. by eapply books_mergeMember.
Qed.

Lemma newer_welcome sender c : tidy c → newer c (welcome o sender c).
Proof.
  intros Ht. unfold welcome. destruct (members c !! toString sender) eqn:Es; [by apply newer_refl|].
  destruct (admitsMember _ _ _ _) as [ok c'] eqn:Ea. pose proof (admitsMember_view _ _ _ _ _ _ Ea) as (Hm & _).
  destruct ok; [|by apply newer_members].
  apply (newer_insert _ _ (mkMember sender joining (Num 1) ∅ None None None None)); [done|cbn; by rewrite Hm|].
  cbn. by rewrite Es.
Qed.

Lemma newer_selfElect c : tidy c → newer c (selfElect o c).
Proof.
  intros Ht. unfold selfElect. destruct (negb (started c)); [by apply newer_refl|].
  destruct (members c !! selfKey o) as [me|] eqn:Em; [|by apply newer_refl].
  destruct (negb (_ || _)); [by apply newer_refl|]. destruct (negb _); [by apply newer_members|].
  by apply (newer_status (set_election false true c) up (selfKey o)).
Qed.

Lemma newer_runHeld c : tidy c → newer c (runHeldSelfElection o c).
Proof.
  intros Ht. unfold runHeldSelfElection. destruct (negb _); [by apply newer_refl|].
  destruct (negb _); [by apply newer_refl|]. by apply (newer_selfElect (set_election false (selfElected c) c)).
Qed.

(** A promotion round updates each member of the list it holds once. *)
Lemma newer_promotes ms c : tidy c → NoDup (addrKey <$> ms) →
  (∀ m, m ∈ ms → members c !! toString (address m) = Some m) → newer c (foldl (promote o) c ms).
Proof.
  revert c. induction ms as [|m ms IH]; intros c Ht Hnd Hms; simpl; [by apply newer_refl|].
  simpl in Hnd. apply NoDup_cons in Hnd as [Hnot Hnd]. pose proof (Hms m ltac:(left)) as Hm.
  assert (Hp : newer c (promote o c m) ∧ tidy (promote o c m) ∧ touches (toString (address m)) c (promote o c m)).
  { unfold promote. destruct (_ || _); [|by split_and!; [apply newer_refl| |]]. split_and!.
    - by eapply newer_status.
    - apply tidy_updateMember; [done|]. apply finite_withStatus. by eapply tidy_finite.
    - apply (touches_updateMember (withStatus up m)). }
  destruct Hp as (Hn & Ht' & Hto). eapply newer_trans; [done|]. apply IH; [done|done|].
  intros m' Hm'. rewrite Hto; [apply Hms; by right|]. intros He. apply Hnot. rewrite list_elem_of_fmap. unfold addrKey. eauto.
Qed.

Lemma newer_leaderActionsTick c : books c → newer c (leaderActionsTick o c).
Proof.
  intros Hb. unfold leaderActionsTick. destruct (negb _); [apply newer_refl, Hb|].
  pose proof (books_runHeld o c Hb) as [Ht _]. eapply newer_trans; [apply newer_runHeld, Hb|].
  unfold promoteJoiningMembers. destruct (negb _); [by apply newer_refl|]. destruct (negb _); [by apply newer_refl|].
  apply newer_promotes; [done|by apply NoDup_values|]. intros m Hm. by apply elem_of_values.
Qed.

Lemma newer_onGossip now from message c : books c → newer c (onGossip o now from message c).
Proof.
  intros Hb. unfold onGossip. destruct (negb _); [by apply newer_members; [apply Hb|]|].
  destruct (fromJSON _) as [sender|]; [|apply newer_refl, Hb].
  pose proof (newer_merge_members now from (status_at c (toString from)) (g_members message) c Hb) as Hn.
  pose proof (books_merge_members o now from (status_at c (toString from)) (g_members message) c Hb) as Hm.
  destruct (merge_members _ _ _ _ _ _) as [c1 completed]. simpl in *. destruct completed; simpl; [|done].
  eapply newer_trans; [done|]. pose proof (books_welcome o sender c1 Hm) as Hw.
  eapply newer_trans; [apply (newer_welcome sender), Hm|].
  pose proof (books_remember from (g_sequence message) _ Hw) as Hr.
  eapply newer_trans; [|by apply newer_leaderActionsTick].
  apply newer_members; [apply Hw|]. unfold rememberGossipSequence. by case_match.
Qed.

Lemma newer_handleWire now from message c : books c → newer c (handleWire o now from message c).
Proof.
  intros Hb. unfold handleWire.
  assert (Hb' : books (fd (fd_heardFrom from now) c)) by done.
  change (newer (fd (fd_heardFrom from now) c)
    (handleWire o now from message c)). unfold handleWire. destruct message as [g|h| |node].
  - by apply newer_onGossip.
  - unfold onHeartbeat. destruct (negb _); [apply newer_refl, Hb'|].
    destruct (members _ !! toString from) as [e|] eqn:Ee; [|apply newer_members; [apply Hb'|done]].
    case_bool_decide; [|apply newer_members; [apply Hb'|done]].
    by apply (newer_status (fd (fd_heartbeat from now) (fd (fd_heardFrom from now) c)) up (toString from)); [apply Hb|].
  - apply newer_refl, Hb'.
  - unfold onLeave. destruct (fromJSON node) as [peer|]; [|apply newer_refl, Hb'].
    destruct (negb _); [apply newer_refl, Hb'|].
    destruct (members _ !! toString peer) as [e|] eqn:Ee; [|apply newer_refl, Hb'].
    pose proof (tidy_key _ _ _ (proj1 Hb') Ee) as Hk. pose proof (tidy_finite _ _ _ (proj1 Hb') Ee) as Hf.
    apply (newer_insert _ _ (withRemoved now (withStatus leaving e))); [apply Hb'|by rewrite members_maybeEmit|].
    cbn [address withRemoved withStatus]. rewrite <- Hk. intros m' Hm'. rewrite Ee in Hm'. injection Hm' as <-.
    eapply vle_trans; [by apply (vle_succ e (withStatus leaving e))|].
    by apply vle_succ; [apply finite_withStatus|].
Qed.

(** No frame takes a node back: whatever a peer sends, in whatever state,
    every member the node knows is still known afterwards, at the version it
    had or a later one; only the node's own detector, resolver, operator and
    tombstone timer remove an entry. *)
Theorem frames_never_go_back (c : Cluster) (now : Z) (from : NodeAddress) (message : WireMessage) k m :
  ClusterInvariants.reachable o c → members c !! k = Some m →
  ∃ m', members (handleWire o now from message c) !! k = Some m' ∧ vle m m'.
Proof. intros Hr Hm. by apply (newer_handleWire now from message c (reachable_books o c Hr) k m Hm). Qed.

(** ** The node's own status *)

Definition promotable (s : option MemberStatus) : Prop := s = Some joining ∨ s = Some weakly_up.

(** This node's status stays, or moves from [joining] or [weakly-up] to [up]. *)
Definition own_stays c c' : Prop :=
  status_at c' (selfKey o) = status_at c (selfKey o) ∨
  promotable (status_at c (selfKey o)) ∧ status_at c' (selfKey o) = Some up.

Lemma own_trans c c' c'' : own_stays c c' → own_stays c' c'' → own_stays c c''.
Proof.
  unfold own_stays, promotable. intros [H1|[H1 H1']] [H2|[H2 H2']].
  - left. congruence.
  - right. by rewrite <- H1.
  - right. split; [done|congruence].
  - rewrite H1' in H2. by destruct H2.
Qed.

Lemma own_touches k c c' : k ≠ selfKey o → touches k c c' → own_stays c c'.
Proof. intros Hk Ht. left. unfold status_at. by rewrite Ht. Qed.

Lemma own_members c c' : members c' = members c → own_stays c c'.
Proof. intros He. left. unfold status_at. by rewrite He. Qed.

Lemma own_promoted me c : members c !! selfKey o = Some me → tidy c → promotable (Some (status me)) →
  own_stays c (updateMember o (withStatus up me) c).
Proof.
  intros Hm Ht Hp. right. split; [unfold status_at; by rewrite Hm|].
  rewrite status_at_updateMember. cbn. by rewrite decide_True by (by eapply tidy_key).
Qed.

Lemma own_mergeMember now from ss data c c' : plain_address (selfAddress o) → books c →
  mergeMember o now from ss data c = Ok c' → own_stays c c'.
Proof.
  intros Hplain Hb [(Hm & _)|(m & c1 & _ & Hv & Hf & _ & Hsp & ->)]%mergeMember_spec; [by apply own_members|].
  pose proof Hv as (Hm1 & _). apply (own_trans _ c1); [by apply own_members|].
  assert (Hb1 : books c1) by (by eapply books_same_view).
  pose proof (finite_local o c m Hf) as Hf'. set (i := withLocalSelfIdentity o c m) in *.
  assert (Hsi : status i = status m) by (unfold i, withLocalSelfIdentity; by destruct (negb _)).
  destruct (decide (toString (address i) = selfKey o)) as [Hk|Hk]; [|by eapply own_touches, touches_applyRecord, Hb1].
  apply key_isSelf in Hk as Hself; [|done]. unfold maySpeakFor in Hsp. rewrite Hself in Hsp.
  destruct (isOwnPromotion o c (status m)) eqn:Ep; [|done].
  assert (Hpr : promotable (status_at c1 (selfKey o)) ∧ status i = up).
  { unfold isOwnPromotion in Ep. rewrite Hsi. unfold status_at in *. rewrite Hm1.
    destruct (status m); try done. split; [|done]. unfold promotable.
    destruct (status <$> members c !! selfKey o) as [[]|]; try done; auto. }
  destruct Hpr as [Hpr Hup].
  destruct (applyRecord_entry now from i c1 Hb1 Hf') as [[_ Hn]|[[[e He] Hc]|[Hs _]]].
  - rewrite Hk in Hn. unfold status_at in Hpr. rewrite Hn in Hpr. by destruct Hpr.
  - left. rewrite Hk in He, Hc. destruct (Hc e He) as (e' & He' & _ & Hst & _). unfold status_at. rewrite He', He. simpl. congruence.
  - right. split; [done|]. rewrite Hk in Hs. unfold status_at. rewrite Hs. simpl. congruence.
Qed.

Lemma own_merge_members now from ss ds c : plain_address (selfAddress o) → books c →
  own_stays c (fst (merge_members o now from ss ds c)).
Proof.
  intros Hp. revert c. induction ds as [|d ds IH]; intros c Hb; simpl; [by left|].
  destruct (mergeMember o now from ss d c) as [c'|] eqn:E; [|by left].
  eapply own_trans; [by eapply own_mergeMember|]. apply IH. by eapply books_mergeMember.
Qed.

Lemma own_selfElect c : tidy c → own_stays c (selfElect o c).
Proof.
  intros Ht. unfold selfElect. destruct (negb (started c)); [by left|].
  destruct (members c !! selfKey o) as [me|] eqn:Em; [|by left].
  destruct (bool_decide (status me = joining) || bool_decide (status me = weakly_up)) eqn:Es; simpl; [|by left].
  destruct (negb _); [by left|]. apply (own_promoted me (set_election false true c)); [done|done|].
  unfold promotable. apply orb_true_iff in Es as [->%bool_decide_eq_true| ->%bool_decide_eq_true]; auto.
Qed.

Lemma own_promotes ms c : tidy c → NoDup (addrKey <$> ms) →
  (∀ m, m ∈ ms → members c !! toString (address m) = Some m) → own_stays c (foldl (promote o) c ms).
Proof.
  revert c. induction ms as [|m ms IH]; intros c Ht Hnd Hms; simpl; [by left|].
  simpl in Hnd. apply NoDup_cons in Hnd as [Hnot Hnd]. pose proof (Hms m ltac:(left)) as Hm.
  assert (Hp : own_stays c (promote o c m) ∧ tidy (promote o c m) ∧ touches (toString (address m)) c (promote o c m)).
  { unfold promote. destruct (bool_decide (status m = joining) || bool_decide (status m = weakly_up)) eqn:Es; [|by split_and!; [left| |]].
    split_and!.
    - destruct (decide (toString (address m) = selfKey o)) as [Hk|Hk].
      + rewrite Hk in Hm. apply own_promoted; [done|done|].
        unfold promotable. apply orb_true_iff in Es as [->%bool_decide_eq_true| ->%bool_decide_eq_true]; auto.
      + eapply own_touches; [exact Hk|]. apply (touches_updateMember (withStatus up m)).
    - apply tidy_updateMember; [done|]. apply finite_withStatus. by eapply tidy_finite.
    - apply (touches_updateMember (withStatus up m)). }
  destruct Hp as (Hn & Ht' & Hto). eapply own_trans; [done|]. apply IH; [done|done|].
  intros m' Hm'. rewrite Hto; [apply Hms; by right|]. intros He. apply Hnot. rewrite list_elem_of_fmap. unfold addrKey. eauto.
Qed.

Lemma own_leaderActionsTick c : books c → own_stays c (leaderActionsTick o c).
Proof.
  intros Hb. unfold leaderActionsTick. destruct (negb _); [by left|].
  pose proof (books_runHeld o c Hb) as [Ht _]. apply (own_trans _ (runHeldSelfElection o c)).
  - unfold runHeldSelfElection. destruct (negb _); [by left|]. destruct (negb _); [by left|].
    apply (own_selfElect (set_election false (selfElected c) c)), Hb.
  - unfold promoteJoiningMembers. destruct (negb _); [by left|]. destruct (negb _); [by left|].
    apply own_promotes; [done|by apply NoDup_values|]. intros m Hm. by apply elem_of_values.
Qed.

Lemma own_welcome sender c : is_Some (members c !! selfKey o) → own_stays c (welcome o sender c).
Proof.
  intros [me Hme]. unfold welcome. destruct (members c !! toString sender) eqn:Es; [by left|].
  destruct (admitsMember _ _ _ _) as [ok c'] eqn:Ea. pose proof (admitsMember_view _ _ _ _ _ _ Ea) as (Hm & _).
  destruct ok; [|by apply own_members]. left. unfold status_at. cbn. rewrite Hm, lookup_insert_ne; [done|].
  intros He. congruence.
Qed.

Lemma own_onGossip now from message c : plain_address (selfAddress o) → books c → is_Some (members c !! selfKey o) →
  own_stays c (onGossip o now from message c).
Proof.
  intros Hp Hb [me Hme]. unfold onGossip. destruct (negb _); [by left|].
  destruct (fromJSON _) as [sender|]; [|by left].
  pose proof (own_merge_members now from (status_at c (toString from)) (g_members message) c Hp Hb) as Ho.
  pose proof (newer_merge_members now from (status_at c (toString from)) (g_members message) c Hb) as Hn.
  pose proof (books_merge_members o now from (status_at c (toString from)) (g_members message) c Hb) as Hm.
  destruct (merge_members _ _ _ _ _ _) as [c1 completed]. simpl in *. destruct completed; simpl; [|done].
  eapply own_trans; [done|]. destruct (Hn _ _ Hme) as (me' & Hme' & _).
  eapply own_trans; [by apply (own_welcome sender)|]. pose proof (books_welcome o sender c1 Hm) as Hw.
  pose proof (books_remember from (g_sequence message) _ Hw) as Hr.
  eapply own_trans; [|by apply own_leaderActionsTick]. apply own_members.
  unfold rememberGossipSequence. by case_match.
Qed.

(** C3. Nobody takes a node's own status: a frame from any other address,
    whatever it claims and however it is numbered, leaves this node a member
    and its status as it was, or promotes it from [joining] or [weakly-up] to
    [up].  (The transport refuses a connection that claims this node's own
    address.) *)
Theorem own_status_out_of_reach (c : Cluster) (now : Z) (from : NodeAddress) (message : WireMessage) (me : Member) :
  ClusterInvariants.reachable o c → plain_address (selfAddress o) → equals from (selfAddress o) = false →
  members c !! selfKey o = Some me →
  ∃ me', members (handleWire o now from message c) !! selfKey o = Some me' ∧
    (status me' = status me ∨ (status me = joining ∨ status me = weakly_up) ∧ status me' = up).
Proof.
  intros Hr Hp Hf Hme. pose proof (reachable_books o c Hr) as Hb.
  destruct (newer_handleWire now from message c Hb _ _ Hme) as (me' & Hme' & _). exists me'. split; [done|].
  assert (Hk : toString from ≠ selfKey o).
  { intros He. apply (plain_toString (selfAddress o) from) in He; [congruence|done]. }
  assert (Ho : own_stays c (handleWire o now from message c)).
  { unfold handleWire. destruct message as [g|h| |node]; [| |by left|].
    - by apply (own_onGossip now from g (fd (fd_heardFrom from now) c)).
    - apply (own_touches (toString from)); [done|]. intros k Hk'. unfold onHeartbeat.
      destruct (negb _); [done|]. destruct (members _ !! toString from) as [e|] eqn:Ee; [|done].
      case_bool_decide; [|done]. cbn -[updateMember]. rewrite members_updateMember.
      pose proof (tidy_key c _ _ (proj1 Hb) Ee) as He. cbn. by rewrite lookup_insert_ne by congruence.
    - unfold onLeave. destruct (fromJSON node) as [peer|]; [|by left].
      destruct (equals peer from) eqn:Eq; simpl; [|by left]. apply equals_toString in Eq.
      destruct (members c !! toString peer) as [e|] eqn:Ee; [|by left].
      apply (own_touches (toString peer)); [congruence|]. intros k Hk'. rewrite members_maybeEmit.
      pose proof (tidy_key c _ _ (proj1 Hb) Ee) as He. cbn. by rewrite lookup_insert_ne by congruence. }
  unfold own_stays, promotable, status_at in Ho. rewrite Hme, Hme' in Ho. simpl in Ho.
  destruct Ho as [[= ->]|[[[= ->]|[= ->]] [= ->]]]; auto.
Qed.

(** ** Convergence on one member *)

(** What two nodes have to agree on about a member. *)
Definition rank m : number * MemberStatus := (version m, status m).

(** Later: a higher version, or [up] over [weakly-up] at the same one. *)
Definition no_later (r r' : number * MemberStatus) : Prop :=
  number_lt r.1 r'.1 = true ∨ r.1 = r'.1 ∧ (r.2 = r'.2 ∨ r.2 = weakly_up ∧ r'.2 = up).

Lemma rank_no_later_refl r : no_later r r.
Proof. right. auto. Qed.

Lemma rank_no_later_antisym r r' : no_later r r' → no_later r' r → r = r'.
Proof.
  destruct r as [v s], r' as [v' s']. unfold no_later. cbn. intros [Hlt|[-> H1]] [Hlt'|[Hv H2]].
  - exfalso. unfold number_lt in *. destruct v, v'; try done. apply Z.ltb_lt in Hlt, Hlt'. lia.
  - exfalso. subst v'. unfold number_lt in Hlt. destruct v; try done. apply Z.ltb_lt in Hlt. lia.
  - exfalso. unfold number_lt in Hlt'. destruct v'; try done. apply Z.ltb_lt in Hlt'. lia.
  - f_equal. destruct H1 as [->|[-> ->]]; [done|]. by destruct H2 as [?|[? ?]].
Qed.

Lemma rank_no_later_trans r1 r2 r3 : no_later r1 r2 → no_later r2 r3 → no_later r1 r3.
Proof.
  destruct r1 as [v1 s1], r2 as [v2 s2], r3 as [v3 s3]. unfold no_later. cbn. intros [H1|[-> H1]] [H2|[H2v H2]].
  - left. unfold number_lt in *. destruct v1, v2, v3; try done. apply Z.ltb_lt in H1, H2. apply Z.ltb_lt. lia.
  - left. by subst.
  - by left.
  - right. split; [done|]. destruct H1 as [->|[-> ->]]; [done|]. destruct H2 as [<-|[? ?]]; [auto|done].
Qed.

(** Two records of one version are one status, or a promotion out of
    [weakly-up], which the member and the leader write at the same version. *)
Definition consistent m m' : Prop := version m = version m' →
  status m = status m' ∨ status m = weakly_up ∧ status m' = up ∨ status m = up ∧ status m' = weakly_up.

(** A record of the run [run] of the member [k] that this node would believe. *)
Definition believable (k : string) (run : option string) (d : Z * NodeAddress * option MemberStatus * MemberData) m : Prop :=
  let '(now, from, senderStatus, data) := d in
  fromData data = Ok m ∧ toString (address m) = k ∧ isSelf o (address m) = false ∧ incarnation (address m) = run ∧
  status m ≠ removed ∧ finite_version m ∧ number_le (version m) (Num (now + maxVersionSkewMs o)) = true ∧
  (equals (address m) from = true ∨ senderStatus = Some up ∨ senderStatus = Some weakly_up ∨ senderStatus = Some leaving).

Definition deliver c (d : Z * NodeAddress * option MemberStatus * MemberData) : Cluster :=
  let '(now, from, senderStatus, data) := d in
  match mergeMember o now from senderStatus data c with Ok c => c | Err _ => c end.

Lemma deliver_believable k run d m c : believable k run d m →
  ∃ now from, deliver c d = applyRecord o now from m c.
Proof.
  destruct d as [[[now from] ss] data]. intros (Hd & Hk & Hself & Hrun & Hs & Hf & Hle & Hsp).
  exists now, from. unfold deliver, mergeMember. rewrite Hd. cbn [mbind result_bind].
  unfold withLocalSelfIdentity. rewrite Hself. simpl negb. cbv iota beta zeta.
  unfold maySpeakFor. rewrite Hself.
  assert (Hpair : ∃ b, (if equals (address m) from then (true, c)
            else (match ss with Some up | Some weakly_up | Some leaving => true | _ => false end, c)) = (true, b) ∧ b = c).
  { exists c. split; [|done]. destruct Hsp as [->|[->|[->| ->]]]; [done|..]; by destruct (equals _ _). }
  destruct Hpair as (b & -> & ->). simpl negb. cbv iota beta. unfold admitsVersion.
  unfold finite_version in Hf. rewrite Hf, Hle. simpl. unfold admitsTombstoneAge.
  destruct (status m); done.
Qed.

Lemma isRestartOf_same_run e i : incarnation (address e) = incarnation (address i) → isRestartOf e i = false.
Proof.
  intros Hr. unfold isRestartOf. destruct (_ || _); [done|]. rewrite Hr.
  destruct (incarnation (address i)) as [r|]; [by rewrite bool_decide_eq_true_2|done].
Qed.

Lemma number_finite n : Number_isFinite n = true → ∃ x, n = Num x.
Proof. destruct n as [| | |x]; try done. by exists x. Qed.

(** A record against the entry it finds: the later version stays; of one
    version, the promotion, and otherwise what was there. *)
Lemma applyRecord_rank now from i c k e : books c → finite_version i → toString (address i) = k →
  members c !! k = Some e → status e ≠ removed → status i ≠ removed →
  incarnation (address e) = incarnation (address i) →
  ∃ e', members (applyRecord o now from i c) !! k = Some e' ∧ incarnation (address e') = incarnation (address e) ∧
    vle e e' ∧ vle i e' ∧ (rank e' = rank e ∨ rank e' = rank i) ∧
    (consistent e i → no_later (rank e) (rank e') ∧ no_later (rank i) (rank e')).
Proof.
  intros Hb Hi Hk He Hre Hri Hrun. pose proof (tidy_finite _ _ _ (proj1 Hb) He) as Hfe.
  destruct (number_finite _ Hi) as [y Hy], (number_finite _ Hfe) as [x Hx].
  unfold applyRecord. rewrite Hk, He. rewrite bool_decide_eq_false_2 by done. simpl andb.
  assert (Hadm : admitsMember o i (Some e) c = (true, c)).
  { unfold admitsMember, is_removed. by rewrite !bool_decide_eq_false_2. }
  assert (Hcmp : number_le (version i) (version e) = true ↔ y ≤ x).
  { rewrite Hx, Hy. unfold number_le. cbn. rewrite orb_true_iff, Z.ltb_lt, bool_decide_eq_true. split; [intros [?|[= ->]]; lia|].
    intros ?. destruct (decide (y = x)) as [->|]; [by right|left; lia]. }
  assert (Heq : number_eqb (version i) (version e) = true ↔ y = x).
  { rewrite Hx, Hy. cbn. rewrite bool_decide_eq_true. naive_solver. }
  destruct (number_le (version i) (version e) && negb (promotedAtEqualVersion e i)) eqn:E; cbv iota.
  - rewrite <- Hk in He. destruct (books_adopt o from e i c Hb He) as [_ Hc].
    destruct (Hc e He) as (e' & He' & Ha & Hs & Hv). rewrite Hk in He'. exists e'.
    assert (Hr : rank e' = rank e) by (unfold rank; congruence). rewrite Hr.
    apply andb_true_iff in E as [Hle%Hcmp Hp].
    split_and!; [done|by rewrite Ha|exists x, x; split_and!; [done|congruence|lia]|exists y, x; split_and!; [done|congruence|done]|by left|].
    intros Hcons. split; [apply rank_no_later_refl|]. unfold no_later, rank. cbn. rewrite Hx, Hy. cbn.
    destruct (decide (y = x)) as [->|]; [right|left; lia]. split; [done|].
    destruct (Hcons ltac:(congruence)) as [?|[[Hew Hiu]|[Heu Hiw]]]; [auto| |auto].
    unfold promotedAtEqualVersion in Hp. rewrite (proj2 Heq eq_refl) in Hp.
    by rewrite Hew, Hiu, !bool_decide_eq_true_2 in Hp.
  - rewrite Hadm, isRestartOf_same_run by done. simpl negb. cbv iota.
    exists i. rewrite members_emitStatusTransition. cbn -[lookup]. rewrite Hk, lookup_insert_eq.
    assert (x ≤ y ∧ no_later (rank e) (rank i)) as [Hle Hno].
    { apply andb_false_iff in E as [E|E].
      - assert (x < y).
        { destruct (Z.lt_ge_cases x y) as [|Hge]; [done|]. rewrite (proj2 Hcmp Hge) in E. done. }
        split; [lia|]. left. cbn. rewrite Hx, Hy. cbn. lia.
      - apply negb_false_iff in E. unfold promotedAtEqualVersion in E.
        apply andb_true_iff in E as [[E1%Heq E2%bool_decide_eq_true]%andb_true_iff E3%bool_decide_eq_true].
        split; [lia|]. right. cbn. rewrite Hx, Hy, E1. auto. }
    split_and!; [done|done|by exists x, y|by exists y, y|by right|]. intros _. split; [done|apply rank_no_later_refl].
Qed.

Definition room c : Prop :=
  maxMembers o = 0 ∨ Z.of_nat (size (members c)) - tombstoneCount c < maxMembers o.

Lemma applyRecord_first now from i c : members c !! toString (address i) = None → status i ≠ removed → room c →
  members (applyRecord o now from i c) !! toString (address i) = Some i.
Proof.
  intros Hn Hs Hr. unfold applyRecord. rewrite Hn.
  assert (Hadm : admitsMember o i None c = (true, c)).
  { unfold admitsMember, is_removed. rewrite bool_decide_eq_false_2 by done.
    destruct Hr as [->|Hr]; [done|]. destruct (maxMembers o =? 0); [done|]. by rewrite (proj2 (Z.ltb_lt _ _) Hr). }
  rewrite Hadm, members_admitFirstSighting. by rewrite lookup_insert_eq.
Qed.

(** The records of one version agree. *)
Definition agreed (ms : list Member) (v : number) : Prop :=
  ∀ m m', m ∈ ms → m' ∈ ms → version m = v → version m' = v → consistent m m'.

(** The entry is one of the records merged so far, of the highest version; and
    none is later, if the records of that version agree. *)
Record latest_of (ms : list Member) e : Prop := {
  latest_one : ∃ m, m ∈ ms ∧ rank m = rank e;
  latest_version m : m ∈ ms → vle m e;
  latest_status : agreed ms (version e) → ∀ m, m ∈ ms → no_later (rank m) (rank e);
}.

Lemma latest_of_one m : finite_version m → latest_of [m] m.
Proof.
  intros [x Hx]%number_finite. split; [exists m; split; [left|done]|..].
  - intros m' ->%list_elem_of_singleton. by exists x, x.
  - intros _ m' ->%list_elem_of_singleton. apply rank_no_later_refl.
Qed.

Lemma latest_of_snoc ms e m e' : latest_of ms e → vle e e' → vle m e' → (rank e' = rank e ∨ rank e' = rank m) →
  (consistent e m → no_later (rank e) (rank e') ∧ no_later (rank m) (rank e')) → latest_of (ms ++ [m]) e'.
Proof.
  intros [(m0 & Hm0 & Hr0) Hv Hs] (x & z & Hx & Hz & Hle) (y & z' & Hy & Hz' & Hle') Hor Hno.
  assert (z' = z) as -> by congruence. split.
  - destruct Hor as [Hor|Hor]; [exists m0|exists m]; (split; [apply elem_of_app|congruence]); [by left|by right; left].
  - intros m' [Hm'| ->%list_elem_of_singleton]%elem_of_app; [|by exists y, z].
    destruct (Hv m' Hm') as (x' & x'' & Hx' & Hx'' & ?). exists x', z. split_and!; [done|done|].
    assert (x'' = x) by congruence. lia.
  - intros Hag. assert (Hem : version e = version e' → version m = version e' → consistent e m).
    { intros He Hm. assert (consistent m0 m) as Hc.
      { unfold rank in Hr0. injection Hr0 as Hv0 _.
        apply Hag; [apply elem_of_app; by left|apply elem_of_app; right; by left|congruence|done]. }
      unfold consistent, rank in *. injection Hr0 as Hv0 Hs0. by rewrite Hv0, Hs0 in Hc. }
    assert (Hlow : ∀ a b : Z, version e = Num a → version m = Num b → a ≠ b → consistent e m).
    { intros a b Ha Hb Hne Heq. congruence. }
    assert (Hcons : consistent e m).
    { destruct (decide (x = y)) as [Hxy|]; [|by eapply Hlow]. apply Hem.
      - destruct Hor as [Hor|Hor]; unfold rank in Hor; injection Hor; congruence.
      - destruct Hor as [Hor|Hor]; unfold rank in Hor; injection Hor; congruence. }
    destruct (Hno Hcons) as [Hne Hnm].
    intros m' [Hm'| ->%list_elem_of_singleton]%elem_of_app; [|done].
    destruct (decide (x = z)) as [->|Hxz].
    + eapply rank_no_later_trans; [|exact Hne]. apply Hs; [|done]. intros a b Ha Hb Hva Hvb.
      apply Hag; [apply elem_of_app; by left|apply elem_of_app; by left|congruence..].
    + left. cbn. destruct (Hv m' Hm') as (x' & x'' & -> & Hx'' & ?). rewrite Hz. cbn.
      assert (x'' = x) by congruence. lia.
Qed.

Lemma deliveries_latest k run ds ms c e done_ : Forall2 (believable k run) ds ms → books c →
  members c !! k = Some e → status e ≠ removed → incarnation (address e) = run → latest_of done_ e →
  ∃ e', members (foldl deliver c ds) !! k = Some e' ∧ latest_of (done_ ++ ms) e'.
Proof.
  intros Hds. revert c e done_. induction Hds as [|d m ds ms Hd Hds IH]; intros c e done_ Hb He Hre Hrun Hl.
  - exists e. by rewrite app_nil_r.
  - simpl. destruct (deliver_believable k run d m c Hd) as (now & from & ->).
    destruct d as [[[now0 from0] ss] data]. destruct Hd as (_ & Hk & _ & Hmrun & Hms & Hmf & _).
    destruct (applyRecord_rank now from m c k e Hb Hmf Hk He Hre Hms ltac:(congruence))
      as (e' & He' & Hrun' & Hle & Hlm & Hor & Hno).
    assert (Hb' : books (applyRecord o now from m c)) by (by apply books_applyRecord).
    replace (done_ ++ m :: ms) with ((done_ ++ [m]) ++ ms) by (by rewrite <- app_assoc).
    apply (IH _ e'); [done|done| |congruence|by eapply latest_of_snoc].
    destruct Hor as [Hor|Hor]; unfold rank in Hor; injection Hor; congruence.
Qed.

Lemma deliveries_from_none k run ds ms c : Forall2 (believable k run) ds ms → books c → ms ≠ [] →
  members c !! k = None → room c →
  ∃ e, members (foldl deliver c ds) !! k = Some e ∧ latest_of ms e.
Proof.
  intros Hds Hb Hne Hk Hroom. destruct Hds as [|d m ds ms Hd Hds]; [done|]. simpl.
  destruct (deliver_believable k run d m c Hd) as (now & from & ->).
  destruct d as [[[now0 from0] ss] data]. destruct Hd as (_ & Hmk & _ & Hmrun & Hms & Hmf & _).
  apply (deliveries_latest k run ds ms _ m [m]); try done.
  - by apply books_applyRecord.
  - rewrite <- Hmk. rewrite <- Hmk in Hk. by apply applyRecord_first.
  - by apply latest_of_one.
Qed.

End gossip.

(** C19. What two nodes make of the live records of one run of a third one does
    not depend on the order: two nodes that had not heard of it, have room for
    it, and were each told the same records, in any order, any number of times
    and by any senders with standing, hold the same version for it, the highest
    one told, with the status of one of its records; and the same status, if
    the records of that highest version agree, [up] being later than the
    [weakly-up] that carries the same version.  They need not agree otherwise
    ([equal_version_diverges]). *)
Theorem merge_order_independent {D : Type} `{FailureDetectorLike D} {LC : LocaleCompare} {LO : LocaleOrder}
    (o1 o2 : ClusterOptions) (c1 c2 : Cluster (D := D)) (k : string) (run : option string)
    (ds1 ds2 : list (Z * NodeAddress * option MemberStatus * MemberData)) (ms1 ms2 : list Member) :
  ClusterInvariants.reachable o1 c1 → ClusterInvariants.reachable o2 c2 →
  members c1 !! k = None → members c2 !! k = None → room o1 c1 → room o2 c2 →
  Forall2 (believable o1 k run) ds1 ms1 → Forall2 (believable o2 k run) ds2 ms2 →
  (∀ m, m ∈ ms1 ↔ m ∈ ms2) → ms1 ≠ [] →
  ∃ e1 e2, members (foldl (deliver o1) c1 ds1) !! k = Some e1 ∧ members (foldl (deliver o2) c2 ds2) !! k = Some e2 ∧
    version e1 = version e2 ∧ (∀ m, m ∈ ms1 → vle m e1) ∧
    (∃ m, m ∈ ms1 ∧ rank m = rank e1) ∧ (∃ m, m ∈ ms1 ∧ rank m = rank e2) ∧
    (agreed ms1 (version e1) → status e1 = status e2 ∧ ∀ m, m ∈ ms1 → no_later (rank m) (rank e1)).
Proof.
  intros Hr1 Hr2 Hk1 Hk2 Hroom1 Hroom2 Hd1 Hd2 Hiff Hne.
  assert (Hne2 : ms2 ≠ []) by (destruct ms1 as [|m ms1]; [done|]; intros ->; by apply (not_elem_of_nil m), Hiff; left).
  destruct (deliveries_from_none o1 k run ds1 ms1 c1 Hd1 (reachable_books _ _ Hr1) Hne Hk1 Hroom1)
    as (e1 & He1 & [(m1 & Hm1 & Hrk1) Hv1 Hall1]).
  destruct (deliveries_from_none o2 k run ds2 ms2 c2 Hd2 (reachable_books _ _ Hr2) Hne2 Hk2 Hroom2)
    as (e2 & He2 & [(m2 & Hm2 & Hrk2) Hv2 Hall2]).
  assert (Hver : version e1 = version e2).
  { destruct (Hv1 m2) as (x & y & Hx & Hy & ?); [by apply Hiff|]. destruct (Hv2 m1) as (x' & y' & Hx' & Hy' & ?); [by apply Hiff|].
    unfold rank in Hrk1, Hrk2. injection Hrk1 as Hv1' _. injection Hrk2 as Hv2' _. rewrite Hy, Hy'. f_equal.
    assert (x = y' ∧ x' = y) as [? ?] by (split; congruence). lia. }
  exists e1, e2. split_and!; [done|done|done|done|by exists m1|exists m2; split; [by apply Hiff|done]|].
  intros Hag. specialize (Hall1 Hag).
  assert (Hall2' : ∀ m, m ∈ ms2 → no_later (rank m) (rank e2)).
  { apply Hall2. rewrite <- Hver. intros m m' Hm Hm'. apply Hag; by apply Hiff. }
  assert (Hrk : rank e1 = rank e2).
  { apply rank_no_later_antisym; [rewrite <- Hrk1; by apply Hall2', Hiff|rewrite <- Hrk2; by apply Hall1, Hiff]. }
  split; [by injection Hrk|done].
Qed.

(** ** Concrete frames *)

Definition forged : MemberData := toData (mkMember (node "a" 1) removed (Num 900) ∅ (Some (Num 5)) None None None).

Definition hostile_frame : WireMessage := gossip (mkGossip (Some (toJSON (node "b" 1))) (Num 9) [forged; joining_peer]).

Lemma frames_never_go_back_witness : ∃ m,
  members example_cluster !! "sys@b:1" = Some m ∧
  ∃ m', members (handleWire (LC := code_point_compare) example_options 9 (node "b" 1) hostile_frame example_cluster)
          !! "sys@b:1" = Some m' ∧ vle m m'.
Proof.
  eexists. split; [vm_compute; reflexivity|].
  apply (@frames_never_go_back _ _ code_point_compare code_point_order); [exact example_reachable|vm_compute; reflexivity].
Defined.

Lemma own_status_out_of_reach_witness : ∃ me,
  members example_cluster !! selfKey example_options = Some me ∧ status me = up ∧
  ∃ me', members (handleWire (LC := code_point_compare) example_options 9 (node "b" 1) hostile_frame example_cluster)
           !! selfKey example_options = Some me' ∧
    (status me' = status me ∨ (status me = joining ∨ status me = weakly_up) ∧ status me' = up).
Proof.
  eexists. split; [vm_compute; reflexivity|]. split; [vm_compute; reflexivity|].
  apply (@own_status_out_of_reach _ _ code_point_compare code_point_order example_options example_cluster 9 (node "b" 1) hostile_frame).
  - exact example_reachable.
  - split; vm_compute; reflexivity.
  - vm_compute; reflexivity.
  - vm_compute; reflexivity.
Defined.

Definition record_of (s : MemberStatus) (v : Z) : Member := mkMember (node "b" 1) s (Num v) ∅ None None None None.

Definition told (s : MemberStatus) (v : Z) : Z * NodeAddress * option MemberStatus * MemberData :=
  (20, node "b" 1, None, toData (record_of s v)).

Definition other_options : ClusterOptions :=
  mkClusterOptions (node "c" 1) ∅ None false true 1 [] 1000 100 1000 10 10 ∅.

Definition other_start : Cluster (D := FailureDetector.FailureDetector) :=
  start other_options 5
    (construct (FailureDetector.mkDetector ∅ FailureDetector.defaultFailureDetectorOptions) 20000 false).

Lemma told_believable o s v : isSelf o (node "b" 1) = false → s ≠ removed → v ≤ 20 + maxVersionSkewMs o →
  believable o "sys@b:1" None (told s v) (record_of s v).
Proof.
  intros Ho Hs Hv. unfold believable, told. split_and!; [by destruct s|done|exact Ho|done|exact Hs|done| |by left].
  unfold number_le. apply orb_true_iff. cbn. destruct (Z.ltb_spec v (20 + maxVersionSkewMs o)); [by left|right].
  apply bool_decide_eq_true. f_equal. lia.
Qed.

Lemma merge_order_independent_witness : ∃ e1 e2,
  members (foldl (deliver (LC := code_point_compare) example_options) example_start [told weakly_up 8; told up 8])
    !! "sys@b:1" = Some e1 ∧
  members (foldl (deliver (LC := code_point_compare) other_options) other_start [told up 8; told weakly_up 8; told up 8])
    !! "sys@b:1" = Some e2 ∧ status e1 = status e2 ∧ version e1 = version e2.
Proof.
  destruct (@merge_order_independent _ _ code_point_compare code_point_order example_options other_options
    example_start other_start "sys@b:1" None [told weakly_up 8; told up 8] [told up 8; told weakly_up 8; told up 8]
    [record_of weakly_up 8; record_of up 8] [record_of up 8; record_of weakly_up 8; record_of up 8])
    as (e1 & e2 & H1 & H2 & Hv & _ & _ & _ & Hs).
  - exact (reach_start _ _ 20000 false [] 5).
  - exact (reach_start _ _ 20000 false [] 5).
  - vm_compute; reflexivity.
  - vm_compute; reflexivity.
  - right. vm_compute; reflexivity.
  - right. vm_compute; reflexivity.
  - repeat (apply Forall2_cons_2; [by apply told_believable|]). apply Forall2_nil_2.
  - repeat (apply Forall2_cons_2; [by apply told_believable|]). apply Forall2_nil_2.
  - intros m. set_solver.
  - discriminate.
  - exists e1, e2. split; [exact H1|]. split; [exact H2|]. split; [|exact Hv]. apply Hs.
    intros m m' Hm Hm' _ _ _.
    apply elem_of_cons in Hm as [->|Hm]; [|apply list_elem_of_singleton in Hm as ->];
      (apply elem_of_cons in Hm' as [->|Hm']; [|apply list_elem_of_singleton in Hm' as ->]); cbn; auto.
Defined.

(** Two records of one version that say [unreachable] and [up]: whichever a
    node is told first stays, and nothing brings the two nodes together. *)
Example equal_version_diverges :
  status <$> members (foldl (deliver (LC := code_point_compare) example_options) example_start [told unreachable 8; told up 8])
    !! "sys@b:1" = Some unreachable ∧
  status <$> members (foldl (deliver (LC := code_point_compare) other_options) other_start [told up 8; told unreachable 8])
    !! "sys@b:1" = Some up.
Proof. split; vm_compute; reflexivity. Qed.
