(* ===== verification/ClusterDetector.v ===== *)
(** * What the detector and the caps do to the member map

    The round of the failure detector computed member by member, and the bounds
    the two caps put on what gossip can make a node hold. *)

From S2P Require Import Prelude Json Member FailureDetector Downing StabilityWindow Cluster ClusterInvariants ClusterGossip.
Import NodeAddress Member.

Local Open Scope Z_scope.

Section detector.
Context {D : Type} {ok : D → Prop} `{FL : FailureDetectorLaws D ok} {LC : LocaleCompare} {LO : LocaleOrder}.
Context (o : ClusterOptions).

Implicit Types (c : Cluster (D := D)) (m : Member).

(** The detector alone may remove a member: no resolver, and auto-down on. *)
Definition removes : bool := negb (hasDowning o) && failureDetectorAutoDown o.

(** What a round makes of a member on the detector's verdict. *)
Definition seen (verdict : FailureDecision) m : option Member :=
  if isSelf o (address m) then Some m
  else match verdict, status m with
       | unreachable_, up => Some (withStatus unreachable m)
       | down_, down | down_, removed => Some m
       | down_, unreachable => if removes then None else Some m
       | down_, _ => if removes then None else Some (withStatus unreachable m)
       | _, _ => Some m
       end.

Lemma detector_emit_all (es : list ClusterEvent) c : failureDetector (foldl (λ c e, emit e c) c es) = failureDetector c.
Proof. revert c. induction es as [|e es IH]; intros c; [done|]. exact (IH (emit e c)). Qed.

Lemma detector_updateMember n c : failureDetector (updateMember o n c) = failureDetector c.
Proof.
  unfold updateMember, emitStatusTransition. destruct (members c !! _); [|done]. case_bool_decide; [done|].
  unfold maybeEmitLeaderChange. set (c1 := foldl _ _ _).
  assert (H1 : failureDetector c1 = failureDetector c) by (unfold c1; by rewrite detector_emit_all). by case_match.
Qed.

Lemma trackReachability_members m d c :
  members (trackReachability m d c) = members c ∧ failureDetector (trackReachability m d c) = failureDetector c.
Proof. unfold trackReachability. destruct (status m); repeat case_match; done. Qed.

Lemma detect_one now m c : tidy c → members c !! toString (address m) = Some m →
  members (detect o now c m) !! toString (address m) = seen (fd_decide (address m) now (failureDetector c)) m ∧
  (failureDetector (detect o now c m) = failureDetector c ∨
   failureDetector (detect o now c m) = fd_forget (address m) (failureDetector c)).
Proof.
  intros Ht Hm. unfold detect, seen. destruct (isSelf o (address m)); [by rewrite Hm; auto|].
  set (dec := fd_decide (address m) now (failureDetector c)).
  destruct (trackReachability_members m dec c) as [Hm1 Hd1]. set (c1 := trackReachability m dec c) in *.
  set (c2 := if bool_decide (dec = down_) then c1 else _).
  assert (members c2 = members c ∧ failureDetector c2 = failureDetector c) as [Hm2 Hd2]
    by (unfold c2; by case_bool_decide).
  clearbody c2. clear c1 Hm1 Hd1.
  assert (Hup : ∀ s, members (updateMember o (withStatus s m) c2) !! toString (address m) = Some (withStatus s m) ∧
                failureDetector (updateMember o (withStatus s m) c2) = failureDetector c).
  { intros s. rewrite members_updateMember, detector_updateMember. cbn. by rewrite lookup_insert_eq. }
  assert (Hhold : removes = false → hasDowning o || negb (failureDetectorAutoDown o) = true) by
    (unfold removes; by destruct (hasDowning o), (failureDetectorAutoDown o)).
  assert (Hauto : removes = true → hasDowning o || negb (failureDetectorAutoDown o) = false) by
    (unfold removes; by destruct (hasDowning o), (failureDetectorAutoDown o)).
  assert (Hdown : members (autoDown o m c2) !! toString (address m) = None ∧
    (failureDetector (autoDown o m c2) = failureDetector c ∨ failureDetector (autoDown o m c2) = fd_forget (address m) (failureDetector c))).
  { unfold autoDown. cbn -[deleteMember updateMember]. rewrite members_deleteMember, lookup_delete_eq. split; [done|]. right.
    f_equal. unfold deleteMember. case_match; cbn; rewrite detector_updateMember; done. }
  assert (Hholds : members (holdForResolver o m c2) !! toString (address m) =
      Some (if bool_decide (status m = unreachable) then m else withStatus unreachable m) ∧
      failureDetector (holdForResolver o m c2) = failureDetector c).
  { unfold holdForResolver. destruct (hasDowning o); case_bool_decide; cbn -[updateMember].
    - by rewrite Hm2, Hm.
    - apply Hup.
    - by rewrite Hm2, Hm.
    - rewrite members_updateMember, detector_updateMember. cbn. by rewrite lookup_insert_eq. }
  destruct dec; simpl.
  - rewrite Hm2, Hm. auto.
  - destruct (status m); simpl; rewrite ?Hm2, ?Hm; auto; destruct (Hup unreachable); auto.
  - destruct removes; [rewrite Hauto by done|rewrite Hhold by done];
      destruct (status m); simpl in *; rewrite ?Hm2, ?Hm; auto; destruct Hholds; auto.
Qed.

Lemma detect_round now ms c c0 : books c → NoDup (addrKey <$> ms) →
  (∀ m, m ∈ ms → members c !! toString (address m) = Some m) →
  (∀ m, m ∈ ms → fd_decide (address m) now (failureDetector c) = fd_decide (address m) now (failureDetector c0)) →
  ∀ k, members (foldl (detect o now) c ms) !! k =
       match List.find (λ m, bool_decide (addrKey m = k)) ms with
       | Some m => seen (fd_decide (address m) now (failureDetector c0)) m
       | None => members c !! k
       end.
Proof.
  revert c. induction ms as [|m ms IH]; intros c Hb Hnd Hms Hfd k; simpl; [done|].
  simpl in Hnd. apply NoDup_cons in Hnd as [Hnot Hnd]. pose proof (Hms m ltac:(left)) as Hm.
  pose proof (tidy_finite _ _ _ (proj1 Hb) Hm) as Hf.
  destruct (detect_one now m c (proj1 Hb) Hm) as [Hseen Hdet].
  destruct (books_detect o now m c Hb ltac:(by apply elem_of_dom_2 in Hm) Hf) as [Hb' Hother].
  assert (Hne : ∀ m', m' ∈ ms → toString (address m) ≠ toString (address m')).
  { intros m' Hm' He. apply Hnot. rewrite list_elem_of_fmap. unfold addrKey. eauto. }
  rewrite (IH (detect o now c m)); [|done|done| |].
  - case_bool_decide as Hk.
    + destruct (List.find _ ms) as [m'|] eqn:Ef.
      * apply List.find_some in Ef as [Hm' Hk'%bool_decide_eq_true]. apply list_elem_of_In in Hm'.
        exfalso. apply (Hne m' Hm'). unfold addrKey in *. congruence.
      * rewrite <- Hk. unfold addrKey. rewrite Hseen, Hfd by left. done.
    + destruct (List.find _ ms); [done|]. apply Hother. unfold addrKey in Hk. congruence.
  - intros m' Hm'. rewrite Hother by (by apply not_eq_sym, Hne). apply Hms. by right.
  - intros m' Hm'. rewrite <- (Hfd m') by (by right). destruct Hdet as [->| ->]; [done|].
    apply fd_forget_other. by apply Hne.
Qed.

(** C26. A round of the failure detector, member by member: the node itself and
    a member that is healthy, down or removed are left alone; an [up] member
    the detector finds unreachable is marked; and one it finds down is removed
    only where no split-brain resolver is configured and auto-down is on, and
    is parked at [unreachable] otherwise, whatever its status was.  Without a
    resolver the round is all the tick does. *)
Theorem detector_round_exact (c : Cluster) (now : Z) provider (k : string) : ClusterInvariants.reachable o c →
  members (detectionRound o now c) !! k =
    (m ← members c !! k; seen (fd_decide (address m) now (failureDetector c)) m) ∧
  (hasDowning o = false → failureDetectionTick o now provider c = detectionRound o now c).
Proof.
  intros Hr. pose proof (reachable_books o c Hr) as Hb. pose proof (proj1 Hb) as Ht. split.
  - unfold detectionRound. rewrite (detect_round now _ c c Hb); [|by apply NoDup_values| |done].
    2: { intros m Hm. by apply elem_of_values. }
    destruct (List.find _ _) as [m|] eqn:Ef.
    + apply List.find_some in Ef as [Hm Hk%bool_decide_eq_true]. apply list_elem_of_In, elem_of_values in Hm; [|done].
      rewrite <- Hk. unfold addrKey. by rewrite Hm.
    + destruct (members c !! k) as [m|] eqn:Em; [|done]. exfalso. pose proof (tidy_key _ _ _ Ht Em) as ->.
      apply elem_of_values in Em; [|done]. apply list_elem_of_In in Em. apply (List.find_none _ _ Ef) in Em.
      by rewrite bool_decide_eq_false in Em.
  - intros Hd. unfold failureDetectionTick, evaluateDowning. by rewrite Hd.
Qed.

End detector.

(** ** The caps *)

Section caps.
Context {D : Type} `{FD : FailureDetectorLike D} {LC : LocaleCompare} {LO : LocaleOrder}.
Context (o : ClusterOptions).

Implicit Types (c : Cluster (D := D)) (m : Member) (ms : gmap string Member).

(** Entries that are not tombstones. *)
Definition lives ms : Z := Z.of_nat (size ms) - tombstones ms.

(** Neither bucket grew past its cap. *)
Definition within_caps ms ms' : Prop :=
  tombstones ms' ≤ Z.max (tombstones ms) (maxTombstones o) ∧ lives ms' ≤ Z.max (lives ms) (maxMembers o).

Lemma within_refl ms : within_caps ms ms.
Proof. unfold within_caps. lia. Qed.

Lemma within_trans ms1 ms2 ms3 : within_caps ms1 ms2 → within_caps ms2 ms3 → within_caps ms1 ms3.
Proof. unfold within_caps. lia. Qed.

Definition bucket (x : option Member) : Z := match x with Some m => if is_removed m then 0 else 1 | None => 0 end.

Lemma lives_insert ms k m : lives (<[k := m]> ms) = lives ms - bucket (ms !! k) + bucket (Some m).
Proof.
  unfold lives. rewrite tombstones_insert. unfold bucket, tombstones_in. destruct (ms !! k) as [p|] eqn:Ek.
  - rewrite map_size_insert_Some by eauto. destruct (is_removed p), (is_removed m); lia.
  - rewrite map_size_insert_None by done. destruct (is_removed m); lia.
Qed.

(** An entry that stays in its bucket changes no count. *)
Lemma within_same ms k m e : ms !! k = Some e → is_removed m = is_removed e → within_caps ms (<[k := m]> ms).
Proof.
  intros Hk He. unfold within_caps. rewrite lives_insert, tombstones_insert, Hk. unfold bucket, tombstones_in.
  rewrite He. destruct (is_removed e); lia.
Qed.

(** One that [admitsMember] lets in finds room. *)
Lemma within_admitted c i e c' : tidy c → 0 < maxMembers o → 0 < maxTombstones o →
  members c !! toString (address i) = e → admitsMember o i e c = (true, c') →
  within_caps (members c) (<[toString (address i) := i]> (members c)).
Proof.
  intros Ht Hm Ht0 He Ha. unfold admitsMember in Ha.
  assert (Hc : tombstoneCount c = tombstones (members c)) by (by destruct Ht as (_ & _ & ? & _)).
  destruct (match e with Some _ => _ | None => _ end) eqn:Eb.
  - destruct e as [e|]; [|done]. apply within_same with e; [done|]. by apply eqb_prop in Eb.
  - unfold within_caps. rewrite lives_insert, tombstones_insert, He. unfold bucket, tombstones_in in *.
    destruct (is_removed i); (destruct (_ =? 0) eqn:E0; [lia|]); (destruct (_ <? _) eqn:El; [|done]); unfold lives;
      (destruct e as [e|]; [destruct (is_removed e); simpl in Eb; try done|]); lia.
Qed.

Lemma within_claims ms ms' k : (∀ k', k' ≠ k → ms' !! k' = ms !! k') →
  (∀ m, ms !! k = Some m → ∃ m', ms' !! k = Some m' ∧ status m' = status m) → is_Some (ms !! k) → within_caps ms ms'.
Proof.
  intros Hto Hcl [m Hm]. destruct (Hcl m Hm) as (m' & Hm' & Hs).
  assert (ms' = <[k := m']> ms) as ->.
  { apply map_eq. intros k'. destruct (decide (k' = k)) as [->|Hk]; [by rewrite lookup_insert_eq|].
    rewrite lookup_insert_ne by done. by apply Hto. }
  eapply within_same; [done|]. unfold is_removed. by rewrite Hs.
Qed.

Lemma within_applyRecord now from i c : books c → finite_version i → 0 < maxMembers o → 0 < maxTombstones o →
  within_caps (members c) (members (applyRecord o now from i c)).
Proof.
  intros Hb Hi Hm Ht. pose proof (proj1 Hb) as Htidy. unfold applyRecord.
  destruct (members c !! toString (address i)) as [e|] eqn:Ee.
  - destruct (bool_decide _ && number_lt _ _).
    { destruct (admitsMember _ _ _ _) as [ok c1] eqn:Ea. pose proof (admitsMember_view _ _ _ _ _ _ Ea) as (Hm1 & _).
      destruct ok; [|rewrite Hm1; apply within_refl]. rewrite members_admitFirstSighting, Hm1. by eapply within_admitted. }
    destruct (number_le _ _ && _).
    { destruct (books_adopt o from e i c Hb Ee) as [_ Hc]. eapply within_claims; [|intros m Hm'|eauto].
      - by apply touches_adopt.
      - destruct (Hc m Hm') as (m' & ? & _ & ? & _). eauto. }
    destruct (admitsMember _ _ _ _) as [ok c1] eqn:Ea. pose proof (admitsMember_view _ _ _ _ _ _ Ea) as (Hm1 & _).
    destruct ok; simpl; [|rewrite Hm1; apply within_refl].
    destruct (isRestartOf e i);
      [rewrite members_replaceIncarnation by (symmetry; by eapply tidy_key)|rewrite members_emitStatusTransition; cbn];
      rewrite Hm1; by eapply within_admitted.
  - destruct (admitsMember _ _ _ _) as [ok c1] eqn:Ea. pose proof (admitsMember_view _ _ _ _ _ _ Ea) as (Hm1 & _).
    destruct ok; [|rewrite Hm1; apply within_refl]. rewrite members_admitFirstSighting, Hm1. by eapply within_admitted.
Qed.

Lemma within_merge_members now from ss ds c : books c → 0 < maxMembers o → 0 < maxTombstones o →
  within_caps (members c) (members (fst (merge_members o now from ss ds c))).
Proof.
  intros Hb Hm Ht. revert c Hb. induction ds as [|d ds IH]; intros c Hb; simpl; [apply within_refl|].
  destruct (mergeMember o now from ss d c) as [c'|] eqn:E; [|apply within_refl].
  pose proof (books_mergeMember o now from ss d c c' Hb E) as Hb'. eapply within_trans; [|by apply IH].
  apply mergeMember_spec in E as [(Hm' & _)|(m & c1 & _ & Hv & Hf & _ & _ & ->)]; [rewrite Hm'; apply within_refl|].
  pose proof Hv as (Hm1 & _). rewrite <- Hm1. apply within_applyRecord; [by eapply books_same_view|by apply finite_local|done|done].
Qed.

Lemma within_welcome sender c : tidy c → 0 < maxMembers o → 0 < maxTombstones o →
  within_caps (members c) (members (welcome o sender c)).
Proof.
  intros Htd Hm Ht. unfold welcome. destruct (members c !! toString sender) eqn:Es; [apply within_refl|].
  destruct (admitsMember _ _ _ _) as [ok c'] eqn:Ea. pose proof (admitsMember_view _ _ _ _ _ _ Ea) as (Hm' & _).
  destruct ok; [|rewrite Hm'; apply within_refl]. cbn. rewrite Hm'.
  by apply (within_admitted c (mkMember sender joining (Num 1) ∅ None None None None) None c').
Qed.

Lemma within_selfElect c : tidy c → within_caps (members c) (members (selfElect o c)).
Proof.
  intros Ht. unfold selfElect. destruct (negb (started c)); [apply within_refl|].
  destruct (members c !! selfKey o) as [me|] eqn:Em; [|apply within_refl].
  destruct (bool_decide (status me = joining) || bool_decide (status me = weakly_up)) eqn:Es; simpl; [|apply within_refl].
  destruct (negb _); [apply within_refl|]. rewrite members_updateMember. cbn.
  rewrite <- (tidy_key _ _ _ Ht Em). eapply within_same; [exact Em|].
  unfold is_removed. cbn. apply orb_true_iff in Es as [->%bool_decide_eq_true| ->%bool_decide_eq_true]; done.
Qed.

Lemma within_promotes ps c : tidy c → NoDup (addrKey <$> ps) →
  (∀ m, m ∈ ps → members c !! toString (address m) = Some m) →
  within_caps (members c) (members (foldl (promote o) c ps)).
Proof.
  revert c. induction ps as [|m ps IH]; intros c Ht Hnd Hms; simpl; [apply within_refl|].
  simpl in Hnd. apply NoDup_cons in Hnd as [Hnot Hnd]. pose proof (Hms m ltac:(left)) as Hm.
  assert (Hp : within_caps (members c) (members (promote o c m)) ∧ tidy (promote o c m) ∧
               touches (toString (address m)) c (promote o c m)).
  { unfold promote. destruct (bool_decide (status m = joining) || bool_decide (status m = weakly_up)) eqn:Es;
      [|by split_and!; [apply within_refl| |]].
    split_and!.
    - rewrite members_updateMember. cbn. eapply within_same; [exact Hm|]. unfold is_removed. cbn.
      apply orb_true_iff in Es as [->%bool_decide_eq_true| ->%bool_decide_eq_true]; done.
    - apply tidy_updateMember; [done|]. apply finite_withStatus. by eapply tidy_finite.
    - apply (touches_updateMember o (withStatus up m)). }
  destruct Hp as (Hn & Ht' & Hto). eapply within_trans; [done|]. apply IH; [done|done|].
  intros m' Hm'. rewrite Hto; [apply Hms; by right|]. intros He. apply Hnot. rewrite list_elem_of_fmap. unfold addrKey. eauto.
Qed.

Lemma within_leaderActionsTick c : books c → within_caps (members c) (members (leaderActionsTick o c)).
Proof.
  intros Hb. unfold leaderActionsTick. destruct (negb _); [apply within_refl|].
  pose proof (books_runHeld o c Hb) as [Ht _]. apply (within_trans _ (members (runHeldSelfElection o c))).
  - unfold runHeldSelfElection. destruct (negb _); [apply within_refl|]. destruct (negb _); [apply within_refl|].
    apply (within_selfElect (set_election false (selfElected c) c)), Hb.
  - unfold promoteJoiningMembers. destruct (negb _); [apply within_refl|]. destruct (negb _); [apply within_refl|].
    apply within_promotes; [done|by apply NoDup_values|]. intros m Hm. by apply elem_of_values.
Qed.

(** Gossip cannot grow a node past its caps: after any frame of records,
    from any peer, the tombstones are at most [maxTombstones] and the other
    members at most [maxMembers], or no more than they were; records that move
    an entry between the two buckets included. *)
Theorem gossip_within_caps (c : Cluster) (now : Z) (from : NodeAddress) (message : GossipMessage) :
  ClusterInvariants.reachable o c → 0 < maxMembers o → 0 < maxTombstones o →
  let c' := onGossip o now from message c in
  tombstoneCount c' ≤ Z.max (tombstoneCount c) (maxTombstones o) ∧
  lives (members c') ≤ Z.max (lives (members c)) (maxMembers o).
Proof.
  intros Hr Hm Ht c'. pose proof (reachable_books o c Hr) as Hb.
  pose proof (books_onGossip o now from message c Hb) as Hb'. fold c' in Hb'.
  assert (Hn : ∀ c, books c → tombstoneCount c = tombstones (members c)) by (by intros ? ((_ & _ & ? & _) & _)).
  rewrite !Hn by done. change (within_caps (members c) (members c')). unfold c', onGossip.
  destruct (negb _); [apply within_refl|]. destruct (fromJSON _) as [sender|]; [|apply within_refl].
  pose proof (within_merge_members now from (status_at c (toString from)) (g_members message) c Hb Hm Ht) as Hw.
  pose proof (books_merge_members o now from (status_at c (toString from)) (g_members message) c Hb) as Hb1.
  destruct (merge_members _ _ _ _ _ _) as [c1 completed]. simpl in *. destruct completed; simpl; [|done].
  eapply within_trans; [done|]. pose proof (books_welcome o sender c1 Hb1) as Hb2.
  eapply within_trans; [apply (within_welcome sender); [apply Hb1|done|done]|].
  pose proof (books_remember from (g_sequence message) _ Hb2) as Hb3.
  eapply within_trans; [|by apply within_leaderActionsTick].
  unfold rememberGossipSequence. case_match; apply within_refl.
Qed.

(** A [leave] frame is not asked for room: it turns a member into a tombstone
    whatever the cap says. *)
Lemma leave_ignores_cap (c : Cluster) (now : Z) (from : NodeAddress) (m : Member) :
  ClusterInvariants.reachable o c → NodeAddress.wf from → members c !! toString from = Some m → status m ≠ removed →
  tombstoneCount (onLeave now from (Some (toJSON from)) c) = tombstoneCount c + 1.
Proof.
  intros Hr Hwf Hm Hs. pose proof (reachable_books o c Hr) as Hb. unfold onLeave.
  rewrite roundtrip by done. rewrite address_equals_refl. simpl negb. cbv iota. rewrite Hm.
  assert (He : ∀ c : Cluster (D := D), tombstoneCount (maybeEmitLeaderChange c) = tombstoneCount c)
    by (intros c0; unfold maybeEmitLeaderChange; by case_match).
  rewrite He. cbn. rewrite <- (tidy_key _ _ _ (proj1 Hb) Hm), Hm. unfold tombstones_in, is_removed.
  rewrite bool_decide_eq_false_2 by done. rewrite bool_decide_eq_true_2 by done. lia.
Qed.

(** A parked member recovers to [up] on a heartbeat, whatever it was when it
    was parked and whatever [minimumMembersBeforeUp] asks. *)
Lemma recovery_skips_threshold (c : Cluster) (now : Z) (from : NodeAddress) (message : HeartbeatMessage) (m : Member) :
  isPlausibleHeartbeat now message = true → members c !! toString from = Some m → status m = unreachable →
  toString (address m) = toString from →
  status_at (onHeartbeat o now from message c) (toString from) = Some up.
Proof.
  intros Hp Hm Hs Ha. unfold onHeartbeat. rewrite Hp. simpl negb. cbv iota. cbn -[updateMember]. rewrite Hm.
  rewrite bool_decide_eq_true_2 by done. change (status_at (updateMember o (withStatus up m) (fd (fd_heartbeat from now) c)) (toString from) = Some up).
  rewrite status_at_updateMember. cbn. by rewrite decide_True.
Qed.

End caps.

(** ** Concrete rounds *)

Lemma detector_round_exact_witness :
  let c := example_cluster in
  members (detectionRound (LC := code_point_compare) example_options 6000 c) !! "sys@b:1" =
    (m ← members c !! "sys@b:1"; seen example_options (fd_decide (address m) 6000 (failureDetector c)) m) ∧
  members (detectionRound (LC := code_point_compare) example_options 6000 c) !! "sys@b:1" = None.
Proof.
  intros c. split; [|vm_compute; reflexivity].
  exact (proj1 (@detector_round_exact _ _ _ _ code_point_compare code_point_order example_options c 6000
                  (λ _, None) "sys@b:1" example_reachable)).
Defined.

Lemma gossip_within_caps_witness :
  0 < maxMembers example_options ∧ 0 < maxTombstones example_options ∧
  let c' := onGossip (LC := code_point_compare) example_options 9 (node "b" 1)
              (mkGossip (Some (toJSON (node "b" 1))) (Num 9) [forged; joining_peer]) example_cluster in
  tombstoneCount c' ≤ Z.max (tombstoneCount example_cluster) (maxTombstones example_options).
Proof.
  split; [vm_compute; reflexivity|]. split; [vm_compute; reflexivity|].
  exact (proj1 (@gossip_within_caps _ _ code_point_compare code_point_order example_options example_cluster 9 (node "b" 1)
    (mkGossip (Some (toJSON (node "b" 1))) (Num 9) [forged; joining_peer]) example_reachable eq_refl eq_refl)).
Defined.

(** Two peers that join and leave pass a cap of one tombstone. *)
Definition one_tombstone : ClusterOptions :=
  mkClusterOptions (node "a" 1) ∅ None false true 1 [] 1000 100 1000 10 1 ∅.

Definition join_frame (a : NodeAddress) : WireMessage := gossip (mkGossip (Some (toJSON a)) (Num 1) []).

Example leaves_pass_the_cap :
  tombstoneCount (foldl (λ c '(now, e), step (LC := code_point_compare) one_tombstone now c e) example_start
    [(6, Wire (node "b" 1) (join_frame (node "b" 1))); (7, Wire (node "b" 1) (leave (Some (toJSON (node "b" 1)))));
     (8, Wire (node "c" 1) (join_frame (node "c" 1))); (9, Wire (node "c" 1) (leave (Some (toJSON (node "c" 1)))))]) = 2.
Proof. vm_compute. reflexivity. Qed.
