(* ===== verification/BidirectionalMap.v ===== *)
(** * Maps that answer in both directions: [src/util/BidirectionalMap.ts],
      [src/util/BidirectionalMultiMap.ts]

    A JavaScript [Map] is the list of its entries in insertion order, keys
    compared by SameValueZero, which is the decidable equality of the key type
    here.  A view made by [inverse] shares the two maps of its origin, so a
    call on the view is the call on the swapped state. *)

From S2P Require Import Prelude.

Local Open Scope Z_scope.

(** ** [Map] in insertion order *)

Section ordered_map.
Context {K V : Type} `{EqDecision K}.

Implicit Types (m : list (K * V)) (k : K) (v : V).

Fixpoint map_get m k : option V :=
  match m with
  | [] => None
  | (k', v) :: m => if decide (k' = k) then Some v else map_get m k
  end.

Definition map_has m k : bool := bool_decide (is_Some (map_get m k)).

(** A key that is present keeps its place. *)
Fixpoint map_set m k v : list (K * V) :=
  match m with
  | [] => [(k, v)]
  | (k', v') :: m => if decide (k' = k) then (k', v) :: m else (k', v') :: map_set m k v
  end.

Definition map_delete m k : list (K * V) := filter (λ e, e.1 ≠ k) m.

Lemma map_get_elem m k v : NoDup m.*1 → map_get m k = Some v ↔ (k, v) ∈ m.
Proof.
  induction m as [|[k' v'] m IH]; simpl; intros Hnd; [split; [done|by intros ?%elem_of_nil]|].
  apply NoDup_cons in Hnd as [Hnot Hnd]. rewrite elem_of_cons. case_decide as Hk.
  - subst k'. split; [intros [= ->]; by left|]. intros [[= ->]|Hin]; [done|].
    exfalso. apply Hnot. apply list_elem_of_fmap. by exists (k, v).
  - rewrite IH by done. split; [by right|]. intros [[= -> ->]|?]; done.
Qed.

Lemma map_get_None m k : map_get m k = None ↔ k ∉ m.*1.
Proof.
  induction m as [|[k' v'] m IH]; simpl; [split; [intros _ ?%elem_of_nil|]; done|].
  rewrite not_elem_of_cons. case_decide as Hk; [subst; split; [done|by intros [? _]]|].
  rewrite IH. split; [|by intros [_ ?]]. intros ?. split; [congruence|done].
Qed.

Lemma map_has_spec m k : map_has m k = true ↔ is_Some (map_get m k).
Proof. apply bool_decide_eq_true. Qed.

Lemma map_has_false m k : map_has m k = false ↔ map_get m k = None.
Proof. unfold map_has. rewrite bool_decide_eq_false. by rewrite eq_None_not_Some. Qed.

Lemma map_get_set m k v k' : map_get (map_set m k v) k' = if decide (k' = k) then Some v else map_get m k'.
Proof.
  induction m as [|[k0 v0] m IH]; simpl; [repeat case_decide; congruence|].
  destruct (decide (k0 = k)) as [->|Hk]; simpl.
  - repeat case_decide; congruence.
  - rewrite IH. repeat case_decide; congruence.
Qed.

Lemma map_get_delete m k k' : map_get (map_delete m k) k' = if decide (k' = k) then None else map_get m k'.
Proof.
  unfold map_delete. induction m as [|[k0 v0] m IH]; [by case_decide|].
  destruct (decide (k0 = k)) as [->|Hk].
  - rewrite filter_cons_False by (simpl; by intros ?). rewrite IH. simpl. repeat case_decide; congruence.
  - rewrite filter_cons_True by done. simpl. rewrite IH. repeat case_decide; congruence.
Qed.

Lemma map_set_keys m k v : (map_set m k v).*1 = if decide (k ∈ m.*1) then m.*1 else m.*1 ++ [k].
Proof.
  induction m as [|[k0 v0] m IH]; [rewrite decide_False; [done|apply not_elem_of_nil]|].
  cbn [map_set]. destruct (decide (k0 = k)) as [->|Hk]; rewrite !fmap_cons; cbn [fst]; [by rewrite decide_True by left|].
  rewrite IH. destruct (decide (k ∈ m.*1)) as [Hin|Hin].
  - by rewrite decide_True by (by right).
  - rewrite decide_False; [done|]. apply not_elem_of_cons. by split; [congruence|].
Qed.

Lemma map_set_NoDup m k v : NoDup m.*1 → NoDup (map_set m k v).*1.
Proof.
  intros Hm. rewrite map_set_keys. case_decide as Hin; [done|].
  apply NoDup_app. split; [done|]. split; [|apply NoDup_singleton].
  intros x Hx ->%list_elem_of_singleton. done.
Qed.

Lemma map_delete_NoDup m k : NoDup m.*1 → NoDup (map_delete m k).*1.
Proof.
  unfold map_delete. induction m as [|[k0 v0] m IH]; simpl; [done|]. intros [Hnot Hnd]%NoDup_cons.
  rewrite filter_cons. case_decide; simpl; [|by apply IH]. apply NoDup_cons. split; [|by apply IH].
  intros ([k1 v1] & -> & [_ Hin]%list_elem_of_filter)%list_elem_of_fmap. apply Hnot, list_elem_of_fmap.
  by exists (k1, v1).
Qed.

End ordered_map.

#[export] Hint Resolve map_set_NoDup map_delete_NoDup : actor.

(** ** [BidirectionalMap] *)

Module BidirectionalMap.

Section bidirectional_map.
Context {K V : Type} `{EqDecision K} `{EqDecision V}.

Record BidirectionalMap := mkBidirectionalMap {
  forward : list (K * V);
  reverse : list (V * K);
}.

Implicit Types (m : BidirectionalMap) (k : K) (v : V).

Definition size m : nat := length (forward m).
Definition keySize m : nat := length (forward m).
Definition valueSize m : nat := length (reverse m).

Definition get m k : option V := map_get (forward m) k.
Definition getKey m v : option K := map_get (reverse m) v.
Definition has m k : bool := map_has (forward m) k.
Definition hasValue m v : bool := map_has (reverse m) v.

Definition empty : BidirectionalMap := mkBidirectionalMap [] [].

Definition set m k v : BidirectionalMap :=
  let r := match map_get (forward m) k with Some old => map_delete (reverse m) old | None => reverse m end in
  let f := match map_get r v with Some old => map_delete (forward m) old | None => forward m end in
  mkBidirectionalMap (map_set f k v) (map_set r v k).

Definition construct (entries : list (K * V)) : BidirectionalMap := foldl (λ m e, set m e.1 e.2) empty entries.

Definition trySet m k v : BidirectionalMap * bool :=
  let keyIsBound := map_has (forward m) k in
  let valueIsBound := map_has (reverse m) v in
  if keyIsBound || valueIsBound then
    (m, keyIsBound && valueIsBound && bool_decide (map_get (forward m) k = Some v))
  else (mkBidirectionalMap (map_set (forward m) k v) (map_set (reverse m) v k), true).

Definition delete m k : BidirectionalMap * bool :=
  match map_get (forward m) k with
  | None => (m, false)
  | Some v => (mkBidirectionalMap (map_delete (forward m) k) (map_delete (reverse m) v), true)
  end.

Definition deleteValue m v : BidirectionalMap * bool :=
  match map_get (reverse m) v with
  | None => (m, false)
  | Some k => (mkBidirectionalMap (map_delete (forward m) k) (map_delete (reverse m) v), true)
  end.

Definition clear m : BidirectionalMap := empty.

Definition getOrInsertComputed m k (callback : K → V) : BidirectionalMap * V :=
  match map_get (forward m) k with
  | Some v => (m, v)
  | None => let v := callback k in (set m k v, v)
  end.

Definition getOrInsert m k (defaultValue : V) : BidirectionalMap * V :=
  match map_get (forward m) k with
  | Some v => (m, v)
  | None => (set m k defaultValue, defaultValue)
  end.

Definition getOrInsertComputedKey m v (callback : V → K) : BidirectionalMap * K :=
  match map_get (reverse m) v with
  | Some k => (m, k)
  | None => let k := callback v in (set m k v, k)
  end.

Definition getOrInsertKey m v (defaultKey : K) : BidirectionalMap * K :=
  match map_get (reverse m) v with
  | Some k => (m, k)
  | None => (set m defaultKey v, defaultKey)
  end.

Definition entries m : list (K * V) := forward m.
Definition reverseEntries m : list (V * K) := reverse m.

(** [toJSON] lists the forward entries; [fromJSON] is the constructor over
    them. *)
Definition toJSON m : list (K * V) := forward m.
Definition fromJSON (json : list (K * V)) : BidirectionalMap := construct json.

(** ** The two directions move in lockstep *)

Definition lockstep m : Prop :=
  NoDup (forward m).*1 ∧ NoDup (reverse m).*1 ∧ ∀ k v, get m k = Some v ↔ getKey m v = Some k.

Lemma lockstep_empty : lockstep empty.
Proof. split_and!; [constructor..|done]. Qed.

(** Rebinding: the pairs of the old map that share neither side survive. *)
Lemma set_spec m k v : lockstep m →
  lockstep (set m k v) ∧
  ∀ k' v', get (set m k v) k' = Some v' ↔ (k' = k ∧ v' = v) ∨ (k' ≠ k ∧ v' ≠ v ∧ get m k' = Some v').
Proof.
  intros (Hf & Hr & Hl). unfold set. set (r := match map_get (forward m) k with Some _ => _ | None => _ end).
  set (f := match map_get r v with Some _ => _ | None => _ end).
  assert (Hr' : ∀ v', map_get r v' = if decide (map_get (forward m) k = Some v') then None else getKey m v').
  { intros v'. unfold r. destruct (map_get (forward m) k) as [old|] eqn:Ek.
    - rewrite map_get_delete. unfold getKey. repeat case_decide; congruence.
    - by rewrite decide_False. }
  assert (Hf' : ∀ k', k' ≠ k → map_get f k' = if decide (getKey m v = Some k') then None else get m k').
  { intros k' Hk. unfold f. rewrite Hr'. destruct (decide (map_get (forward m) k = Some v)) as [Hd|Hd].
    - apply Hl in Hd. rewrite decide_False by congruence. done.
    - destruct (getKey m v) as [old|] eqn:Eo.
      + rewrite map_get_delete. unfold get. repeat case_decide; congruence.
      + by rewrite decide_False. }
  assert (Hget : ∀ k' v', map_get (map_set f k v) k' = Some v' ↔
            (k' = k ∧ v' = v) ∨ (k' ≠ k ∧ v' ≠ v ∧ get m k' = Some v')).
  { intros k' v'. rewrite map_get_set. destruct (decide (k' = k)) as [->|Hk].
    - split; [intros [= ->]; by left|]. intros [[_ ->]|[? _]]; done.
    - rewrite Hf' by done. destruct (decide (getKey m v = Some k')) as [Hd|Hd].
      + split; [done|]. intros [[? _]|(_ & Hv & Hg)]; [done|]. apply Hl in Hd. unfold get in *. congruence.
      + split.
        * intros Hg. right. split_and!; [done| |done]. intros ->. apply Hd. by apply Hl.
        * by intros [[? _]|(_ & _ & ?)]. }
  split; [|exact Hget]. split_and!; cbn [forward reverse].
  - apply map_set_NoDup. unfold f. case_match; [by apply map_delete_NoDup|done].
  - apply map_set_NoDup. unfold r. case_match; [by apply map_delete_NoDup|done].
  - intros k' v'. unfold get at 1, getKey at 1. cbn [forward reverse]. rewrite Hget, map_get_set.
    destruct (decide (v' = v)) as [->|Hv].
    + split; [intros [[-> _]|(_ & ? & _)]; done|]. intros [= ->]. by left.
    + rewrite Hr'. destruct (decide (map_get (forward m) k = Some v')) as [Hd|Hd].
      * split; [|done]. intros [[_ ?]|(Hk & _ & Hg)]; [done|]. apply Hl in Hg. apply (Hl k v') in Hd. congruence.
      * split; [intros [[_ ?]|(Hk & _ & Hg)]; [done|by apply Hl]|].
        intros Hg. right. split_and!; [|done|by apply Hl]. intros ->. apply Hd. by apply Hl.
Qed.

Lemma delete_pair_spec m k v : lockstep m → get m k = Some v →
  lockstep (mkBidirectionalMap (map_delete (forward m) k) (map_delete (reverse m) v)) ∧
  ∀ k' v', map_get (map_delete (forward m) k) k' = Some v' ↔ k' ≠ k ∧ get m k' = Some v'.
Proof.
  intros (Hf & Hr & Hl) Hkv.
  assert (Hget : ∀ k' v', map_get (map_delete (forward m) k) k' = Some v' ↔ k' ≠ k ∧ get m k' = Some v').
  { intros k' v'. rewrite map_get_delete. case_decide; naive_solver. }
  split; [|exact Hget]. split_and!; [by apply map_delete_NoDup..|].
  intros k' v'. unfold get at 1, getKey at 1. cbn [forward reverse]. rewrite Hget, map_get_delete.
  destruct (decide (v' = v)) as [->|Hv].
  - split; [|done]. intros [Hk Hg]. apply Hl in Hg. apply (Hl k v) in Hkv. congruence.
  - split; [intros [_ Hg]; by apply Hl|]. intros Hg. apply (Hl k' v') in Hg. split; [|done]. intros ->. congruence.
Qed.

(** ** The abstract pairing

    What the class stands for: a set of pairs no two of which share a side. *)

Definition pairing : Type := K → V → Prop.

Definition free_key (P : pairing) k : Prop := ∀ v, ¬ P k v.
Definition free_value (P : pairing) v : Prop := ∀ k, ¬ P k v.

(** Binding a pair displaces whatever held either side. *)
Definition bind (P : pairing) k v : pairing := λ k' v', (k' = k ∧ v' = v) ∨ (k' ≠ k ∧ v' ≠ v ∧ P k' v').

Inductive Op : Type :=
| Set_ (k : K) (v : V)
| TrySet (k : K) (v : V)
| Delete (k : K)
| DeleteValue (v : V)
| Clear
| GetOrInsert (k : K) (v : V)
| GetOrInsertComputed (k : K) (callback : K → V)
| GetOrInsertKey (v : V) (k : K)
| GetOrInsertComputedKey (v : V) (callback : V → K).

Definition run m (op : Op) : BidirectionalMap :=
  match op with
  | Set_ k v => set m k v
  | TrySet k v => fst (trySet m k v)
  | Delete k => fst (delete m k)
  | DeleteValue v => fst (deleteValue m v)
  | Clear => clear m
  | GetOrInsert k v => fst (getOrInsert m k v)
  | GetOrInsertComputed k f => fst (getOrInsertComputed m k f)
  | GetOrInsertKey v k => fst (getOrInsertKey m v k)
  | GetOrInsertComputedKey v f => fst (getOrInsertComputedKey m v f)
  end.

Definition abstract_run (P : pairing) (op : Op) : pairing :=
  let insert_if_free (free : Prop) k v := λ k' v', (free ∧ bind P k v k' v') ∨ (¬ free ∧ P k' v') in
  match op with
  | Set_ k v => bind P k v
  | TrySet k v => insert_if_free (free_key P k ∧ free_value P v) k v
  | Delete k => λ k' v', k' ≠ k ∧ P k' v'
  | DeleteValue v => λ k' v', v' ≠ v ∧ P k' v'
  | Clear => λ _ _, False
  | GetOrInsert k v => insert_if_free (free_key P k) k v
  | GetOrInsertComputed k f => insert_if_free (free_key P k) k (f k)
  | GetOrInsertKey v k => insert_if_free (free_value P v) k v
  | GetOrInsertComputedKey v f => insert_if_free (free_value P v) (f v) v
  end.

(** The map answers both ways like the pairing. *)
Definition represents m (P : pairing) : Prop := lockstep m ∧ ∀ k v, get m k = Some v ↔ P k v.

Lemma represents_free_key m P k : represents m P → map_get (forward m) k = None ↔ free_key P k.
Proof.
  intros [_ Hg]. split.
  - intros Hn v HP. apply Hg in HP. unfold get in HP. congruence.
  - intros Hfree. destruct (map_get (forward m) k) as [v|] eqn:Ek; [|done]. exfalso. by apply (Hfree v), Hg.
Qed.

Lemma represents_free_value m P v : represents m P → map_get (reverse m) v = None ↔ free_value P v.
Proof.
  intros [(_ & _ & Hl) Hg]. split.
  - intros Hn k HP. apply Hg, Hl in HP. unfold getKey in HP. congruence.
  - intros Hfree. destruct (map_get (reverse m) v) as [k|] eqn:Ev; [|done]. exfalso. by apply (Hfree k), Hg, Hl.
Qed.

Lemma represents_set m P k v : represents m P → represents (set m k v) (bind P k v).
Proof.
  intros [Hl Hg]. destruct (set_spec m k v Hl) as [Hl' Hs]. split; [done|]. intros k' v'. rewrite Hs.
  unfold bind. by rewrite Hg.
Qed.

Lemma represents_ext m P Q : represents m P → (∀ k v, P k v ↔ Q k v) → represents m Q.
Proof. intros [Hl Hg] HPQ. split; [done|]. intros k v. by rewrite Hg. Qed.

(** Inserting on condition that a side is free. *)
Lemma represents_insert m P k v (free : Prop) (bound : bool) : represents m P → (bound = false ↔ free) →
  represents (if bound then m else set m k v) (λ k' v', (free ∧ bind P k v k' v') ∨ (¬ free ∧ P k' v')).
Proof.
  intros Hr Hb. destruct bound.
  - apply (represents_ext m P _ Hr). intros k' v'. split; [right; split; [by intros ?%Hb|done]|].
    by intros [[?%Hb _]|[_ ?]].
  - apply (represents_ext _ _ _ (represents_set m P k v Hr)). intros k' v'. split; [left; split; [by apply Hb|done]|].
    intros [[_ ?]|[Hn _]]; [done|]. destruct Hn. by apply Hb.
Qed.

(** A key and a value that are both free bind without displacing. *)
Lemma set_fresh m k v : map_get (forward m) k = None → map_get (reverse m) v = None →
  set m k v = mkBidirectionalMap (map_set (forward m) k v) (map_set (reverse m) v k).
Proof. intros Hk Hv. unfold set. by rewrite Hk, Hv. Qed.

Lemma represents_trySet m P k v : represents m P →
  represents (fst (trySet m k v)) (abstract_run P (TrySet k v)) ∧
  (snd (trySet m k v) = true ↔ get (fst (trySet m k v)) k = Some v).
Proof.
  intros Hr. pose proof Hr as [(_ & _ & Hl) Hg]. unfold trySet.
  destruct (map_has (forward m) k) eqn:Ek; [|apply map_has_false in Ek; destruct (map_has (reverse m) v) eqn:Ev];
    simpl.
  - split.
    + refine (represents_insert m P k v _ true Hr _). split; [done|]. intros [Hk _].
      apply map_has_spec in Ek as [x Ek]. destruct (Hk x). by apply Hg.
    + rewrite andb_true_iff, bool_decide_eq_true, map_has_spec. split; [by intros [_ ?]|].
      intros Hkv. split; [|done]. apply Hl in Hkv. by eexists.
  - split.
    + refine (represents_insert m P k v _ true Hr _). split; [done|]. intros [_ Hv].
      apply map_has_spec in Ev as [x Ev]. destruct (Hv x). by apply Hg, Hl.
    + split; [done|]. unfold get. rewrite Ek. done.
  - apply map_has_false in Ev. rewrite <- set_fresh by done. split.
    + refine (represents_insert m P k v _ false Hr _). split; [|done]. intros _.
      split; [by apply (represents_free_key m)|by apply (represents_free_value m)].
    + split; [|done]. intros _. apply (represents_set m P k v Hr). by left.
Qed.

Lemma represents_run m P op : represents m P → represents (run m op) (abstract_run P op).
Proof.
  intros Hr. pose proof Hr as [Hls Hg]. destruct op as [k v|k v|k|v| |k v|k f|v k|v f]; cbn [run abstract_run].
  - by apply represents_set.
  - by apply represents_trySet.
  - unfold delete. destruct (map_get (forward m) k) as [v|] eqn:Ek; simpl.
    + destruct (delete_pair_spec m k v Hls Ek) as [Hl Hd]. split; [done|]. intros k' v'. unfold get. cbn. by rewrite Hd, Hg.
    + apply (represents_ext m P _ Hr). intros k' v'. split; [|by intros [_ ?]]. intros HP. split; [|done].
      intros ->. by apply (represents_free_key m P k Hr) in HP.
  - unfold deleteValue. destruct (map_get (reverse m) v) as [k|] eqn:Ev; simpl.
    + assert (Hk : get m k = Some v) by (by apply Hls).
      destruct (delete_pair_spec m k v Hls Hk) as [Hl Hd]. split; [done|]. intros k' v'. unfold get at 1. cbn.
      rewrite Hd, Hg. split; intros [Hne HP]; (split; [|done]); intros ->; apply Hne.
      * apply Hg in HP. apply Hls in HP. apply Hls in Hk. congruence.
      * apply Hg in HP. congruence.
    + apply (represents_ext m P _ Hr). intros k' v'. split; [|by intros [_ ?]]. intros HP. split; [|done].
      intros ->. by apply (represents_free_value m P v Hr) in HP.
  - split; [apply lockstep_empty|]. intros k v. split; done.
  - unfold getOrInsert. destruct (map_get (forward m) k) as [x|] eqn:Ek; simpl.
    + refine (represents_insert m P k v _ true Hr _). by rewrite <- (represents_free_key m P k Hr), Ek.
    + refine (represents_insert m P k v _ false Hr _). by rewrite <- (represents_free_key m P k Hr), Ek.
  - unfold getOrInsertComputed. destruct (map_get (forward m) k) as [x|] eqn:Ek; simpl.
    + refine (represents_insert m P k (f k) _ true Hr _). by rewrite <- (represents_free_key m P k Hr), Ek.
    + refine (represents_insert m P k (f k) _ false Hr _). by rewrite <- (represents_free_key m P k Hr), Ek.
  - unfold getOrInsertKey. destruct (map_get (reverse m) v) as [x|] eqn:Ek; simpl.
    + refine (represents_insert m P k v _ true Hr _). by rewrite <- (represents_free_value m P v Hr), Ek.
    + refine (represents_insert m P k v _ false Hr _). by rewrite <- (represents_free_value m P v Hr), Ek.
  - unfold getOrInsertComputedKey. destruct (map_get (reverse m) v) as [x|] eqn:Ek; simpl.
    + refine (represents_insert m P (f v) v _ true Hr _). by rewrite <- (represents_free_value m P v Hr), Ek.
    + refine (represents_insert m P (f v) v _ false Hr _). by rewrite <- (represents_free_value m P v Hr), Ek.
Qed.

(** The reverse map lists the forward pairs, swapped, in an order of its own. *)
Lemma lockstep_swap m : lockstep m → reverse m ≡ₚ (λ e, (e.2, e.1)) <$> forward m.
Proof.
  intros (Hf & Hr & Hl). apply NoDup_Permutation.
  - by eapply NoDup_fmap_1.
  - apply (NoDup_fmap_2_strong _); [|by eapply NoDup_fmap_1].
    intros [k v] [k' v'] _ _ [= -> ->]. done.
  - intros [v k]. rewrite <- map_get_elem by done. rewrite list_elem_of_fmap. change (getKey m v = Some k ↔ ∃ y, (v, k) = (y.2, y.1) ∧ y ∈ forward m).
    rewrite <- Hl. unfold get. rewrite map_get_elem by done. split; [intros ?; by exists (k, v)|].
    by intros ([? ?] & [= -> ->] & ?).
Qed.

(** The constructor keeps the order of entries that share no side. *)
Lemma construct_app (es : list (K * V)) m : lockstep m →
  NoDup ((forward m).*1 ++ es.*1) → NoDup ((forward m).*2 ++ es.*2) →
  lockstep (foldl (λ m e, set m e.1 e.2) m es) ∧ forward (foldl (λ m e, set m e.1 e.2) m es) = forward m ++ es.
Proof.
  revert m. induction es as [|[k v] es IH]; intros m Hl Hk Hv; simpl; [by rewrite app_nil_r|].
  assert (Hfk : map_get (forward m) k = None).
  { apply map_get_None. intros Hin. apply NoDup_app in Hk as (_ & Hd & _). apply (Hd k Hin). by left. }
  assert (Hfv : map_get (reverse m) v = None).
  { destruct (map_get (reverse m) v) as [k0|] eqn:Ev; [|done]. exfalso.
    apply Hl in Ev. apply map_get_elem in Ev; [|apply Hl].
    apply NoDup_app in Hv as (_ & Hd & _). apply (Hd v); [|by left]. apply list_elem_of_fmap. by exists (k0, v). }
  assert (Hset : forward (set m k v) = forward m ++ [(k, v)]).
  { rewrite set_fresh by done. cbn. apply map_get_None in Hfk. clear -Hfk. induction (forward m) as [|[k0 v0] f IH]; [done|].
    simpl in *. apply not_elem_of_cons in Hfk as [? ?]. rewrite decide_False by congruence. f_equal. by apply IH. }
  destruct (set_spec m k v Hl) as [Hl' _]. destruct (IH (set m k v) Hl') as [? ->].
  - rewrite Hset, fmap_app, <- app_assoc. exact Hk.
  - rewrite Hset, fmap_app, <- app_assoc. exact Hv.
  - split; [done|]. by rewrite Hset, <- app_assoc.
Qed.

Lemma construct_entries m : lockstep m → forward (construct (forward m)) = forward m.
Proof.
  intros Hl. pose proof (lockstep_swap m Hl) as Hp. destruct Hl as (Hf & Hr & _).
  apply (construct_app (forward m) empty lockstep_empty); [done|]. simpl.
  assert ((forward m).*2 = (((λ e : K * V, (e.2, e.1)) <$> forward m)).*1) as -> by (by rewrite <- list_fmap_compose).
  by rewrite <- Hp.
Qed.

(** The two directions never drift: after any entries and any calls the map
    answers by key and by value like the set of pairs that the calls describe,
    a rebinding displacing both old partners, and both directions list as many
    entries; and [fromJSON] reads back what [toJSON] wrote, in order. *)
Theorem bidirectional_map_refines (entries : list (K * V)) (ops : list Op) :
  let m := foldl run (construct entries) ops in
  let P := foldl abstract_run (foldl (λ P e, bind P e.1 e.2) (λ _ _, False) entries) ops in
  (∀ k v, get m k = Some v ↔ P k v) ∧ (∀ k v, getKey m v = Some k ↔ P k v) ∧
  keySize m = valueSize m ∧ forward (fromJSON (toJSON m)) = forward m ∧
  ∀ k v, snd (trySet m k v) = true ↔ get (fst (trySet m k v)) k = Some v.
Proof.
  intros m P.
  assert (Hrep : represents m P).
  { unfold m, P. set (m0 := construct entries). set (P0 := foldl _ _ entries).
    assert (H0 : represents m0 P0).
    { unfold m0, P0, construct. assert (He : represents empty (λ _ _, False)) by (split; [apply lockstep_empty|done]).
      revert He. generalize empty, (λ (_ : K) (_ : V), False).
      induction entries as [|[k v] es IH]; intros m1 P1 H1; [done|]. by apply IH, represents_set. }
    clearbody m0 P0. revert m0 P0 H0. induction ops as [|op ops IH]; intros m1 P1 H1; [done|]. by apply IH, represents_run. }
  clearbody m P. pose proof Hrep as [Hls Hg]. split_and!; [done| | | |].
  - intros k v. rewrite <- Hg. symmetry. apply Hls.
  - unfold keySize, valueSize. rewrite (lockstep_swap m Hls). by rewrite length_fmap.
  - unfold fromJSON, toJSON. by apply construct_entries.
  - intros k v. by apply (represents_trySet m P).
Qed.

End bidirectional_map.

Arguments BidirectionalMap : clear implicits.
End BidirectionalMap.

(** ** [BidirectionalMultiMap] *)

Module BidirectionalMultiMap.

Section multi_map.
Context {L R : Type} `{EqDecision L} `{EqDecision R}.

(** A [Set] is its members in insertion order. *)
Record BidirectionalMultiMap := mkMultiMap {
  forward : list (L * list R);
  reverse : list (R * list L);
  counter : Z;
}.

Implicit Types (m : BidirectionalMultiMap) (left : L) (right : R).

Definition empty : BidirectionalMultiMap := mkMultiMap [] [] 0.

Definition size m : Z := counter m.
Definition leftSize m : nat := length (forward m).
Definition rightSize m : nat := length (reverse m).
Definition get m left : list R := default [] (map_get (forward m) left).
Definition getKeys m right : list L := default [] (map_get (reverse m) right).
Definition has m left right : bool := bool_decide (right ∈ get m left).
Definition hasLeft m left : bool := map_has (forward m) left.
Definition hasRight m right : bool := map_has (reverse m) right.
Definition clear m : BidirectionalMultiMap := empty.
Definition lefts m : list L := (forward m).*1.
Definition rights m : list R := (reverse m).*1.
Definition entries m : list (L * R) := forward m ≫= λ row, (λ right, (row.1, right)) <$> row.2.

Definition add m left right : BidirectionalMultiMap :=
  let partners := get m left in
  if bool_decide (right ∈ partners) then m
  else mkMultiMap (map_set (forward m) left (partners ++ [right]))
                  (map_set (reverse m) right (getKeys m right ++ [left])) (counter m + 1).

Definition construct (pairs : list (L * R)) : BidirectionalMultiMap := foldl (λ m e, add m e.1 e.2) empty pairs.

(** [holders.delete(x); if (holders.size === 0) map.delete(key)]. *)
Definition drop_from {A B} `{EqDecision A} `{EqDecision B} (index : list (A * list B)) (key : A) (x : B) : list (A * list B) :=
  match map_get index key with
  | None => index
  | Some xs =>
      let rest := filter (λ y, y ≠ x) xs in
      if bool_decide (rest = []) then map_delete index key else map_set index key rest
  end.

Definition delete m left right : BidirectionalMultiMap * bool :=
  if bool_decide (right ∈ get m left) then
    (mkMultiMap (drop_from (forward m) left right) (drop_from (reverse m) right left) (counter m - 1), true)
  else (m, false).

Definition deleteLeft m left : BidirectionalMultiMap * bool :=
  match map_get (forward m) left with
  | None => (m, false)
  | Some partners =>
      (mkMultiMap (map_delete (forward m) left) (foldl (λ r right, drop_from r right left) (reverse m) partners)
                  (counter m - Z.of_nat (length partners)), true)
  end.

Definition deleteRight m right : BidirectionalMultiMap * bool :=
  match map_get (reverse m) right with
  | None => (m, false)
  | Some holders =>
      (mkMultiMap (foldl (λ f left, drop_from f left right) (forward m) holders) (map_delete (reverse m) right)
                  (counter m - Z.of_nat (length holders)), true)
  end.

(** [toJSON] lists the rows; [fromJSON] adds every pair of every row. *)
Definition toJSON m : list (L * list R) := forward m.
Definition fromJSON (rows : list (L * list R)) : BidirectionalMultiMap :=
  foldl (λ m row, foldl (λ m right, add m row.1 right) m row.2) empty rows.

End multi_map.

Arguments BidirectionalMultiMap : clear implicits.

(** [inverse] is a view over the same two maps and the same counter. *)
Definition inverse {L R} (m : BidirectionalMultiMap L R) : BidirectionalMultiMap R L :=
  mkMultiMap (reverse m) (forward m) (counter m).

(** ** One index *)

Section index.
Context {A B : Type} `{EqDecision A} `{EqDecision B}.

Implicit Types (index : list (A * list B)).

(** Keys are distinct, every row has members and none twice. *)
Definition index_ok index : Prop :=
  NoDup index.*1 ∧ ∀ k xs, map_get index k = Some xs → xs ≠ [] ∧ NoDup xs.

Definition related index (a : A) (b : B) : Prop := b ∈ default [] (map_get index a).

Lemma index_ok_set index k xs : index_ok index → xs ≠ [] → NoDup xs → index_ok (map_set index k xs).
Proof.
  intros [Hn Hi] Hne Hnd. split; [by apply map_set_NoDup|]. intros k' xs'. rewrite map_get_set.
  case_decide; [by intros [= <-]|apply Hi].
Qed.

Lemma index_ok_delete index k : index_ok index → index_ok (map_delete index k).
Proof.
  intros [Hn Hi]. split; [by apply map_delete_NoDup|]. intros k' xs'. rewrite map_get_delete.
  case_decide; [done|apply Hi].
Qed.

Lemma index_ok_add index k x : index_ok index → ¬ related index k x →
  index_ok (map_set index k (default [] (map_get index k) ++ [x])).
Proof.
  intros Hi Hx. apply index_ok_set; [done|by destruct (default _ _)|]. unfold related in Hx.
  destruct (map_get index k) as [xs|] eqn:Ek; simpl in *; [|apply NoDup_singleton].
  apply NoDup_app. destruct (proj2 Hi k xs Ek) as [_ Hnd]. split; [done|]. split; [|apply NoDup_singleton].
  intros y Hy ->%list_elem_of_singleton. done.
Qed.

Lemma related_add index k x a b :
  related (map_set index k (default [] (map_get index k) ++ [x])) a b ↔ (a = k ∧ b = x) ∨ related index a b.
Proof.
  unfold related. rewrite map_get_set. destruct (decide (a = k)) as [->|Ha]; simpl; [|naive_solver].
  rewrite elem_of_app, list_elem_of_singleton. naive_solver.
Qed.

Lemma index_ok_drop index k x : index_ok index → index_ok (drop_from index k x).
Proof.
  intros Hi. unfold drop_from. destruct (map_get index k) as [xs|] eqn:Ek; [|done].
  case_bool_decide as Hr; [by apply index_ok_delete|]. apply index_ok_set; [done|done|].
  apply NoDup_filter. by apply (proj2 Hi k).
Qed.

Lemma related_drop index k x a b : related (drop_from index k x) a b ↔ related index a b ∧ ¬ (a = k ∧ b = x).
Proof.
  unfold related, drop_from. destruct (map_get index k) as [xs|] eqn:Ek.
  - case_bool_decide as Hr; rewrite ?map_get_delete, ?map_get_set; destruct (decide (a = k)) as [->|Ha];
      rewrite ?Ek; simpl.
    + split; [by intros ?%elem_of_nil|]. intros [Hb Hnot]. destruct (decide (b = x)) as [->|Hbx]; [by destruct Hnot|].
      rewrite <- Hr. by apply list_elem_of_filter.
    + naive_solver.
    + rewrite list_elem_of_filter. naive_solver.
    + naive_solver.
  - split; [|by intros [? _]]. intros Hb. split; [done|]. intros [-> ->]. rewrite Ek in Hb. by apply elem_of_nil in Hb.
Qed.

Lemma drops_spec index (keys : list A) x : index_ok index →
  index_ok (foldl (λ r k, drop_from r k x) index keys) ∧
  ∀ a b, related (foldl (λ r k, drop_from r k x) index keys) a b ↔ related index a b ∧ ¬ (a ∈ keys ∧ b = x).
Proof.
  revert index. induction keys as [|k keys IH]; intros index Hi; simpl.
  - split; [done|]. intros a b. split; [|by intros [? _]]. intros ?. split; [done|]. by intros [?%elem_of_nil _].
  - destruct (IH (drop_from index k x)) as [Hi' Hr']; [by apply index_ok_drop|]. split; [done|].
    intros a b. rewrite Hr', related_drop, elem_of_cons. naive_solver.
Qed.

(** The pairs an index lists. *)
Definition listed index : list (A * B) := index ≫= λ row, (λ b, (row.1, b)) <$> row.2.

Lemma listed_related index a b : NoDup index.*1 → (a, b) ∈ listed index ↔ related index a b.
Proof.
  intros Hn. unfold listed, related. rewrite list_elem_of_bind. split.
  - intros ([k xs] & (y & [= -> ->] & Hy)%list_elem_of_fmap & Hin). apply map_get_elem in Hin; [|done]. by rewrite Hin.
  - intros Hb. destruct (map_get index a) as [xs|] eqn:Ea; simpl in Hb; [|by apply elem_of_nil in Hb].
    exists (a, xs). split; [|by apply map_get_elem]. apply list_elem_of_fmap. by exists b.
Qed.

Lemma listed_NoDup index : index_ok index → NoDup (listed index).
Proof.
  intros [Hn Hi]. assert (Hi' : ∀ k xs, (k, xs) ∈ index → NoDup xs).
  { intros k xs Hin. apply (Hi k). by apply map_get_elem. }
  clear Hi. unfold listed. induction index as [|[k xs] index IH]; simpl; [constructor|].
  simpl in Hn. apply NoDup_cons in Hn as [Hnot Hn]. apply NoDup_app. split_and!.
  - apply (NoDup_fmap_2_strong _); [by intros ? ? _ _ [= ->]|]. by apply (Hi' k); left.
  - intros [a b] (y & [= -> ->] & _)%list_elem_of_fmap ([k' xs'] & (z & [= -> ->] & _)%list_elem_of_fmap & Hin)%list_elem_of_bind.
    apply Hnot, list_elem_of_fmap. by exists (k', xs').
  - apply IH; [done|]. intros k' xs' Hin. apply (Hi' k'). by right.
Qed.

End index.

(** ** The relation the class stands for *)

Section relation.
Context {L R : Type} `{EqDecision L} `{EqDecision R}.

Implicit Types (m : BidirectionalMultiMap L R) (left : L) (right : R) (P : L → R → Prop).

Definition multi_ok m : Prop :=
  index_ok (forward m) ∧ index_ok (reverse m) ∧
  (∀ left right, related (forward m) left right ↔ related (reverse m) right left) ∧
  counter m = Z.of_nat (length (listed (forward m))).

Inductive Op : Type :=
| Add (left : L) (right : R)
| Delete (left : L) (right : R)
| DeleteLeft (left : L)
| DeleteRight (right : R)
| Clear.

Definition run m (op : Op) : BidirectionalMultiMap L R :=
  match op with
  | Add l r => add m l r
  | Delete l r => fst (delete m l r)
  | DeleteLeft l => fst (deleteLeft m l)
  | DeleteRight r => fst (deleteRight m r)
  | Clear => clear m
  end.

Definition abstract_run P (op : Op) : L → R → Prop :=
  match op with
  | Add l0 r0 => λ l r, (l = l0 ∧ r = r0) ∨ P l r
  | Delete l0 r0 => λ l r, P l r ∧ ¬ (l = l0 ∧ r = r0)
  | DeleteLeft l0 => λ l r, P l r ∧ l ≠ l0
  | DeleteRight r0 => λ l r, P l r ∧ r ≠ r0
  | Clear => λ _ _, False
  end.

Definition represents m P : Prop := multi_ok m ∧ ∀ left right, related (forward m) left right ↔ P left right.

Lemma multi_ok_empty : multi_ok empty.
Proof. split_and!; [split; [by apply NoDup_nil|done]..| |done]. intros l r. split; by intros ?%elem_of_nil. Qed.

(** Pairs that come or go are counted one by one. *)
Lemma listed_split (i i' : list (L * list R)) (new : list (L * R)) : index_ok i → index_ok i' → NoDup new →
  (∀ a b, related i' a b ↔ related i a b ∨ (a, b) ∈ new) → (∀ a b, related i a b → (a, b) ∉ new) →
  length (listed i') = (length (listed i) + length new)%nat.
Proof.
  intros Hi Hi' Hn Hr Hd. rewrite <- length_app. apply Permutation_length, NoDup_Permutation.
  - by apply listed_NoDup.
  - apply NoDup_app. split; [by apply listed_NoDup|]. split; [|done].
    intros [a b] Hin. apply Hd. by apply listed_related in Hin; [|apply Hi].
  - intros [a b]. rewrite elem_of_app, !listed_related by (apply Hi || apply Hi'). apply Hr.
Qed.

Lemma represents_add m P left right : represents m P → represents (add m left right) (abstract_run P (Add left right)).
Proof.
  intros [(Hf & Hr & Hs & Hc) HP]. unfold add, get. case_bool_decide as Hin.
  - split; [done|]. intros l r. rewrite HP. cbn. split; [by right|]. intros [[-> ->]|?]; [by apply HP|done].
  - assert (Hf' := index_ok_add _ _ _ Hf Hin). assert (Hr' : index_ok (map_set (reverse m) right (getKeys m right ++ [left]))).
    { apply (index_ok_add (reverse m)); [done|]. intros Hrel. by apply Hin, Hs. }
    assert (Hrel := related_add (forward m) left right). split; [split_and!; [done..| |]|]; cbn [forward reverse counter].
    + intros l r. rewrite Hrel. unfold getKeys. rewrite related_add. rewrite Hs. naive_solver.
    + rewrite (listed_split (forward m) _ [(left, right)] Hf Hf'), Hc.
      * simpl. lia.
      * apply NoDup_singleton.
      * intros a b. rewrite Hrel, list_elem_of_singleton. naive_solver.
      * intros a b Hab [= -> ->]%list_elem_of_singleton. done.
    + intros l r. by rewrite Hrel, HP.
Qed.

Lemma represents_delete m P left right : represents m P →
  represents (fst (delete m left right)) (abstract_run P (Delete left right)) ∧
  (snd (delete m left right) = true ↔ P left right).
Proof.
  intros [(Hf & Hr & Hs & Hc) HP]. unfold delete. case_bool_decide as Hin; simpl.
  - split; [|split; [by intros _; apply HP|done]].
    assert (Hf' := index_ok_drop _ left right Hf). assert (Hrel := related_drop (forward m) left right).
    split; [split_and!; [done|by apply index_ok_drop| |]|]; cbn [forward reverse counter].
    + intros l r. rewrite Hrel, related_drop, Hs. naive_solver.
    + rewrite Hc, (listed_split _ (forward m) [(left, right)] Hf' Hf).
      * simpl. lia.
      * apply NoDup_singleton.
      * intros a b. rewrite Hrel, list_elem_of_singleton. split.
        -- intros Hab. destruct (decide (a = left)) as [->|], (decide (b = right)) as [->|]; naive_solver.
        -- intros [[? _]|[= -> ->]]; done.
      * intros a b [_ Hne]%Hrel [= -> ->]%list_elem_of_singleton. by apply Hne.
    + intros l r. by rewrite Hrel, HP.
  - split; [|split; [done|by intros ?%HP]]. split; [done|]. intros l r. rewrite HP. split; [|by intros [? _]].
    intros Hlr. split; [done|]. intros [-> ->]. by apply Hin, HP.
Qed.

Lemma represents_deleteLeft m P left : represents m P →
  represents (fst (deleteLeft m left)) (abstract_run P (DeleteLeft left)).
Proof.
  intros [(Hf & Hr & Hs & Hc) HP]. unfold deleteLeft. destruct (map_get (forward m) left) as [partners|] eqn:El; simpl.
  - assert (Hf' := index_ok_delete _ left Hf).
    assert (Hrel : ∀ a b, related (map_delete (forward m) left) a b ↔ related (forward m) a b ∧ a ≠ left).
    { intros a b. unfold related. rewrite map_get_delete. case_decide; [|naive_solver]. simpl.
      split; [by intros ?%elem_of_nil|naive_solver]. }
    assert (Hp : ∀ b, b ∈ partners ↔ related (forward m) left b) by (intros b; unfold related; by rewrite El).
    destruct (drops_spec (reverse m) partners left Hr) as [Hr' Hrel'].
    split; [split_and!; [done|done| |]|]; cbn [forward reverse counter].
    + intros l r. rewrite Hrel, Hrel', <- Hs. split.
      * intros [Hlr Hne]. split; [done|]. by intros [_ ?].
      * intros [Hlr Hne]. split; [done|]. intros ->. apply Hne. split; [by apply Hp|done].
    + rewrite Hc, (listed_split _ (forward m) ((λ b, (left, b)) <$> partners) Hf' Hf).
      * rewrite length_fmap. lia.
      * apply NoDup_fmap_2; [by intros ? ? [= ->]|]. by apply (proj2 Hf left).
      * intros a b. rewrite Hrel, list_elem_of_fmap. split.
        -- intros Hab. destruct (decide (a = left)) as [->|]; [|by left]. right. exists b. by rewrite Hp.
        -- intros [[? _]|(y & [= -> ->] & Hy)]; [done|by apply Hp].
      * intros a b [_ Hne]%Hrel (y & [= -> ->] & _)%list_elem_of_fmap. done.
    + intros l r. by rewrite Hrel, HP.
  - split; [done|]. intros l r. rewrite HP. split; [|by intros [? _]]. intros Hlr. split; [done|]. intros ->.
    apply HP in Hlr. unfold related in Hlr. rewrite El in Hlr. by apply elem_of_nil in Hlr.
Qed.

End relation.

Lemma represents_inverse {L R} `{EqDecision L} `{EqDecision R} (m : BidirectionalMultiMap L R) P :
  represents m P → represents (inverse m) (λ right left, P left right).
Proof.
  intros [(Hf & Hr & Hs & Hc) HP]. split; [|intros r l; cbn; by rewrite <- HP, Hs].
  split_and!; [done|done|by intros r l; cbn; rewrite Hs|]. cbn. rewrite Hc. f_equal.
  transitivity (length ((λ p : R * L, (p.2, p.1)) <$> listed (reverse m))); [|by rewrite length_fmap].
  apply Permutation_length, NoDup_Permutation.
  - by apply listed_NoDup.
  - apply NoDup_fmap_2; [by intros [? ?] [? ?] [= -> ->]|by apply listed_NoDup].
  - intros [l r]. rewrite listed_related by apply Hf. rewrite Hs, list_elem_of_fmap. split.
    + intros Hrl. exists (r, l). split; [done|]. by apply listed_related; [apply Hr|].
    + intros ([r' l'] & [= -> ->] & Hin). by apply listed_related in Hin; [|apply Hr].
Qed.

Section multi_refinement.
Context {L R : Type} `{EqDecision L} `{EqDecision R}.

Implicit Types (m : BidirectionalMultiMap L R) (P : L → R → Prop).

(** A deletion by right is a deletion by left on the view. *)
Lemma multi_represents_run m P op : represents m P → represents (run m op) (abstract_run P op).
Proof.
  intros Hr. destruct op as [l r|l r|l|r|]; cbn [run].
  - by apply represents_add.
  - by apply represents_delete.
  - by apply represents_deleteLeft.
  - pose proof (represents_inverse _ _ (represents_deleteLeft _ _ r (represents_inverse m P Hr))) as Hd.
    assert (He : fst (deleteRight m r) = inverse (fst (deleteLeft (inverse m) r))).
    { unfold deleteRight, deleteLeft. cbn. case_match; [done|]. by destruct m. }
    by rewrite He.
  - split; [apply multi_ok_empty|]. intros l r. split; [|done]. by intros ?%elem_of_nil.
Qed.

Lemma represents_adds m P left (rights : list R) : represents m P →
  represents (foldl (λ m right, add m left right) m rights) (λ l r, (l = left ∧ r ∈ rights) ∨ P l r).
Proof.
  revert m P. induction rights as [|r rs IH]; intros m P Hr; simpl.
  - destruct Hr as [Ho Hr]. split; [done|]. intros l r. rewrite Hr. split; [by right|].
    by intros [[_ ?%elem_of_nil]|?].
  - destruct (IH _ _ (represents_add m P left r Hr)) as [Ho Hr']. split; [done|]. intros l r'. rewrite Hr'. cbn.
    rewrite elem_of_cons. naive_solver.
Qed.

Lemma represents_rows m P (rows : list (L * list R)) : represents m P →
  represents (foldl (λ m row, foldl (λ m right, add m row.1 right) m row.2) m rows) (λ l r, (l, r) ∈ listed rows ∨ P l r).
Proof.
  revert m P. induction rows as [|[l0 rs] rows IH]; intros m P Hr; simpl.
  - destruct Hr as [Ho Hr]. split; [done|]. intros l r. rewrite Hr. split; [by right|].
    by intros [?%elem_of_nil|?].
  - destruct (IH _ _ (represents_adds m P l0 rs Hr)) as [Ho Hr']. split; [done|]. intros l r. rewrite Hr'.
    change (listed ((l0, rs) :: rows)) with (((λ b, (l0, b)) <$> rs) ++ listed rows).
    rewrite elem_of_app, list_elem_of_fmap. naive_solver.
Qed.

(** The multi map never drifts either: after any pairs and any calls both
    directions answer like the relation that the calls describe, no empty row
    is left behind, [size] is the number of pairs, and [fromJSON] reads back
    the pairs that [toJSON] wrote. *)
Theorem bidirectional_multi_map_refines (pairs : list (L * R)) (ops : list Op) :
  let m := foldl run (construct pairs) ops in
  let P := foldl abstract_run (foldl (λ P e, abstract_run P (Add e.1 e.2)) (λ _ _, False) pairs) ops in
  (∀ l r, r ∈ get m l ↔ P l r) ∧ (∀ l r, l ∈ getKeys m r ↔ P l r) ∧
  (∀ l, hasLeft m l = true ↔ ∃ r, P l r) ∧ (∀ r, hasRight m r = true ↔ ∃ l, P l r) ∧
  size m = Z.of_nat (length (entries m)) ∧ NoDup (entries m) ∧ (∀ l r, (l, r) ∈ entries m ↔ P l r) ∧
  ∀ l r, r ∈ get (fromJSON (toJSON m)) l ↔ P l r.
Proof.
  intros m P. assert (Hrep : represents m P).
  { unfold m, P. set (m0 := construct pairs). set (P0 := foldl _ _ pairs).
    assert (H0 : represents m0 P0).
    { unfold m0, P0, construct. assert (He : represents empty (λ (_ : L) (_ : R), False)).
      { split; [apply multi_ok_empty|]. intros l r. split; [by intros ?%elem_of_nil|done]. }
      revert He. generalize (@empty L R), (λ (_ : L) (_ : R), False).
      induction pairs as [|[l r] es IH]; intros m1 P1 H1; [done|]. by apply IH, represents_add. }
    clearbody m0 P0. revert m0 P0 H0. induction ops as [|op ops IH]; intros m1 P1 H1; [done|]. by apply IH, multi_represents_run. }
  clearbody m P. pose proof Hrep as [(Hf & Hr & Hs & Hc) HP].
  assert (Hhas : ∀ (A B : Type) `{EqDecision A} `{EqDecision B} (i : list (A * list B)) a, index_ok i →
            map_has i a = true ↔ ∃ b, related i a b).
  { intros A B ? ? i a [_ Hi]. rewrite map_has_spec. unfold related. split.
    - intros [xs Hx]. destruct (Hi a xs Hx) as [Hne _]. rewrite Hx. destruct xs as [|b xs]; [done|]. exists b. by left.
    - intros [b Hb]. destruct (map_get i a) as [xs|]; [by eexists|by apply elem_of_nil in Hb]. }
  split_and!; [done| | | |exact Hc|by apply listed_NoDup| |].
  - intros l r. rewrite <- HP. symmetry. apply Hs.
  - intros l. unfold hasLeft. rewrite Hhas by done. by setoid_rewrite HP.
  - intros r. unfold hasRight. rewrite Hhas by done. setoid_rewrite <- Hs. by setoid_rewrite HP.
  - intros l r. rewrite <- HP. apply listed_related, Hf.
  - intros l r. assert (He : represents empty (λ (_ : L) (_ : R), False)).
    { split; [apply multi_ok_empty|]. intros ? ?. split; [by intros ?%elem_of_nil|done]. }
    destruct (represents_rows empty _ (toJSON m) He) as [_ Hj]. rewrite <- HP, <- listed_related by apply Hf.
    transitivity ((l, r) ∈ listed (toJSON m) ∨ False); [apply Hj|]. unfold toJSON. naive_solver.
Qed.

End multi_refinement.

End BidirectionalMultiMap.
