(* ===== verification/MapContents.v ===== *)
(** * What the values of a map hold

    For a map whose values carry collections: everything they carry together,
    and how it changes with one entry. *)

From S2P Require Import Prelude BidirectionalMap.

Section contents.
Context {K V B : Type} `{EqDecision K} (f : V → list B).

Implicit Types (m : list (K * V)) (k : K).

(** Everything [f] finds in the values, in the order of the entries. *)
Definition contents m : list B := m ≫= λ e, f e.2.

Definition at_key m k : list B := match map_get m k with Some v => f v | None => [] end.

Lemma contents_split m k : NoDup m.*1 → contents m ≡ₚ at_key m k ++ contents (map_delete m k).
Proof.
  unfold contents, at_key, map_delete. induction m as [|[k' v] m IH]; intros Hm; [done|]. apply NoDup_cons in Hm as [Hk Hm].
  cbn [map_get]. destruct (decide (k' = k)) as [->|Hne].
  - rewrite filter_cons_False by (cbn; tauto). rewrite filter_all; [done|]. intros [x w] Hin. cbn. intros ->.
    apply Hk, list_elem_of_fmap. by exists (k, w).
  - rewrite filter_cons_True by done. rewrite !bind_cons, (IH Hm). cbn. solve_Permutation.
Qed.

Lemma map_delete_set m k v : map_delete (map_set m k v) k = map_delete m k.
Proof.
  unfold map_delete. induction m as [|[k' w] m IH]; cbn [map_set]; [by rewrite filter_cons_False by (cbn; tauto)|].
  destruct (decide (k' = k)) as [->|Hne]; [by rewrite !filter_cons_False by (cbn; tauto)|].
  rewrite !filter_cons_True by done. by rewrite IH.
Qed.

Lemma contents_set m k v : NoDup m.*1 → contents (map_set m k v) ≡ₚ f v ++ contents (map_delete m k).
Proof.
  intros Hm. rewrite (contents_split (map_set m k v) k) by (by apply map_set_NoDup). rewrite map_delete_set.
  unfold at_key. rewrite map_get_set. by rewrite decide_True.
Qed.

(** Changing one value to one with the same contents. *)
Lemma contents_set_same m k v w : NoDup m.*1 → map_get m k = Some v → f w = f v → contents (map_set m k w) ≡ₚ contents m.
Proof. intros Hm Hk Hf. rewrite contents_set, (contents_split m k) by done. unfold at_key. by rewrite Hk, Hf. Qed.

Lemma contents_none m : (∀ k v, (k, v) ∈ m → f v = []) → contents m = [].
Proof.
  intros Hm. induction m as [|[k v] m IH]; [done|]. unfold contents. rewrite bind_cons. cbn.
  rewrite (Hm k v) by (by left). apply IH. intros k' v' Hin. apply (Hm k'). by right.
Qed.

End contents.
