(* ===== verification/Utf8.v ===== *)
(** * Texts on the wire: [TextEncoder] and [TextDecoder]

    A JavaScript string is its UTF-16 code units.  The two classes are those
    of the Encoding Standard, as [src/serialization/CborCodec.ts] uses them:
    UTF-8, replacement of what is malformed, and a decoder that strips a byte
    order mark. *)

From S2P Require Import Prelude.

Local Open Scope Z_scope.

(** A string of UTF-16 code units. *)
Abbreviation utf16 := (list Z) (only parsing).

Definition is_high (u : Z) : bool := (0xD800 <=? u) && (u <=? 0xDBFF).
Definition is_low (u : Z) : bool := (0xDC00 <=? u) && (u <=? 0xDFFF).
Definition REPLACEMENT : Z := 0xFFFD.

(** The bytes of one code point. *)
Definition encode_point (p : Z) : list Z :=
  if p <? 0x80 then [p]
  else if p <? 0x800 then [0xC0 + p / 0x40; 0x80 + p mod 0x40]
  else if p <? 0x10000 then [0xE0 + p / 0x1000; 0x80 + p / 0x40 mod 0x40; 0x80 + p mod 0x40]
  else [0xF0 + p / 0x40000; 0x80 + p / 0x1000 mod 0x40; 0x80 + p / 0x40 mod 0x40; 0x80 + p mod 0x40].

Definition pair_point (u v : Z) : Z := 0x10000 + (u - 0xD800) * 0x400 + (v - 0xDC00).

(** [new TextEncoder().encode(text)]: an unpaired surrogate is replaced. *)
Fixpoint TextEncoder_encode (text : utf16) : list Z :=
  match text with
  | [] => []
  | u :: text' =>
      if is_high u then
        match text' with
        | v :: text'' =>
            if is_low v then encode_point (pair_point u v) ++ TextEncoder_encode text''
            else encode_point REPLACEMENT ++ TextEncoder_encode text'
        | [] => encode_point REPLACEMENT
        end
      else if is_low u then encode_point REPLACEMENT ++ TextEncoder_encode text'
      else encode_point u ++ TextEncoder_encode text'
  end.

(** The code units of one code point. *)
Definition units (p : Z) : utf16 :=
  if p <? 0x10000 then [p] else [0xD800 + (p - 0x10000) / 0x400; 0xDC00 + (p - 0x10000) mod 0x400].

Definition between (lower upper b : Z) : bool := (lower <=? b) && (b <=? upper).
Definition continuation : Z → bool := between 0x80 0xBF.

(** The range of the byte after a three-byte or four-byte lead: overlong
    forms, surrogates and points past [0x10FFFF] are cut off here. *)
Definition second_of_three (lead : Z) : Z → bool :=
  between (if lead =? 0xE0 then 0xA0 else 0x80) (if lead =? 0xED then 0x9F else 0xBF).
Definition second_of_four (lead : Z) : Z → bool :=
  between (if lead =? 0xF0 then 0x90 else 0x80) (if lead =? 0xF4 then 0x8F else 0xBF).

(** The decoder: a malformed sequence is replaced as far as it was well begun,
    and the byte that broke it is read again. *)
Fixpoint utf8_decode (bytes : list Z) : utf16 :=
  match bytes with
  | [] => []
  | b0 :: rest0 =>
      if b0 <? 0x80 then b0 :: utf8_decode rest0
      else if between 0xC2 0xDF b0 then
        match rest0 with
        | b1 :: rest1 =>
            if continuation b1 then units ((b0 - 0xC0) * 0x40 + (b1 - 0x80)) ++ utf8_decode rest1
            else REPLACEMENT :: utf8_decode rest0
        | [] => [REPLACEMENT]
        end
      else if between 0xE0 0xEF b0 then
        match rest0 with
        | b1 :: rest1 =>
            if second_of_three b0 b1 then
              match rest1 with
              | b2 :: rest2 =>
                  if continuation b2 then
                    units ((b0 - 0xE0) * 0x1000 + (b1 - 0x80) * 0x40 + (b2 - 0x80)) ++ utf8_decode rest2
                  else REPLACEMENT :: utf8_decode rest1
              | [] => [REPLACEMENT]
              end
            else REPLACEMENT :: utf8_decode rest0
        | [] => [REPLACEMENT]
        end
      else if between 0xF0 0xF4 b0 then
        match rest0 with
        | b1 :: rest1 =>
            if second_of_four b0 b1 then
              match rest1 with
              | b2 :: rest2 =>
                  if continuation b2 then
                    match rest2 with
                    | b3 :: rest3 =>
                        if continuation b3 then
                          units ((b0 - 0xF0) * 0x40000 + (b1 - 0x80) * 0x1000 + (b2 - 0x80) * 0x40 + (b3 - 0x80))
                            ++ utf8_decode rest3
                        else REPLACEMENT :: utf8_decode rest2
                    | [] => [REPLACEMENT]
                    end
                  else REPLACEMENT :: utf8_decode rest1
              | [] => [REPLACEMENT]
              end
            else REPLACEMENT :: utf8_decode rest0
        | [] => [REPLACEMENT]
        end
      else REPLACEMENT :: utf8_decode rest0
  end.

(** [new TextDecoder().decode(bytes)]: a leading byte order mark is dropped. *)
Definition TextDecoder_decode (bytes : list Z) : utf16 :=
  match bytes with
  | b0 :: b1 :: b2 :: rest =>
      if (b0 =? 0xEF) && (b1 =? 0xBB) && (b2 =? 0xBF) then utf8_decode rest else utf8_decode bytes
  | _ => utf8_decode bytes
  end.

(** ** What a string becomes on the wire *)

(** Unpaired surrogates replaced. *)
Fixpoint scalar_text (text : utf16) : utf16 :=
  match text with
  | [] => []
  | u :: text' =>
      if is_high u then
        match text' with
        | v :: text'' => if is_low v then u :: v :: scalar_text text'' else REPLACEMENT :: scalar_text text'
        | [] => [REPLACEMENT]
        end
      else if is_low u then REPLACEMENT :: scalar_text text'
      else u :: scalar_text text'
  end.

Definition BOM : Z := 0xFEFF.

(** The leading byte order mark gone. *)
Definition received (text : utf16) : utf16 :=
  match scalar_text text with
  | u :: rest => if u =? BOM then rest else u :: rest
  | [] => []
  end.

Definition code_unit (u : Z) : Prop := 0 ≤ u < 0x10000.
Definition byte (b : Z) : Prop := 0 ≤ b < 256.

(** Induction that takes a surrogate pair at a time. *)
Lemma utf16_ind (P : utf16 → Prop) :
  P [] → (∀ u, P [u]) → (∀ u v text, P text → P (v :: text) → P (u :: v :: text)) → ∀ text, P text.
Proof.
  intros H0 H1 H2 text. cut (P text ∧ ∀ u, P (u :: text)); [by intros [? _]|].
  induction text as [|v text [IH IHu]]; split; [done|done|done|]. intros u. by apply H2.
Qed.

Lemma between_true lower upper b : lower ≤ b ≤ upper → between lower upper b = true.
Proof. intros ?. unfold between. by rewrite !(proj2 (Z.leb_le _ _)) by lia. Qed.

Lemma between_false lower upper b : b < lower ∨ upper < b → between lower upper b = false.
Proof. intros ?. unfold between. destruct (Z.leb_spec lower b), (Z.leb_spec b upper); simpl; lia || done. Qed.

Lemma ltb_false a b : b ≤ a → (a <? b) = false.
Proof. by intros ?%Z.ltb_ge. Qed.

Lemma units_pair u v : is_high u = true → is_low v = true → units (pair_point u v) = [u; v].
Proof.
  unfold is_high, is_low, units, pair_point. intros [?%Z.leb_le ?%Z.leb_le]%andb_true_iff [?%Z.leb_le ?%Z.leb_le]%andb_true_iff.
  rewrite ltb_false by lia.
  replace (0x10000 + (u - 0xD800) * 0x400 + (v - 0xDC00) - 0x10000) with ((v - 0xDC00) + (u - 0xD800) * 0x400) by lia.
  rewrite Z.div_add, Z.mod_add, Z.div_small, Z.mod_small by lia. f_equal; [|f_equal]; lia.
Qed.

(** A code point is read back from its bytes. *)
Lemma decode_point p rest : 0 ≤ p < 0x110000 → ¬ (0xD800 ≤ p ≤ 0xDFFF) →
  utf8_decode (encode_point p ++ rest) = units p ++ utf8_decode rest.
Proof.
  intros Hp Hs. unfold encode_point.
  destruct (Z.ltb_spec p 0x80); [|destruct (Z.ltb_spec p 0x800); [|destruct (Z.ltb_spec p 0x10000)]]; cbn [app utf8_decode].
  - rewrite (proj2 (Z.ltb_lt p 0x80)) by lia. unfold units. by rewrite (proj2 (Z.ltb_lt p 0x10000)) by lia.
  - pose proof (Z.div_mod p 0x40) as Hd. pose proof (Z.mod_pos_bound p 0x40) as Hm.
    rewrite ltb_false, between_true by lia. unfold continuation. rewrite between_true by lia.
    do 2 f_equal. lia.
  - assert (Hd1 := Z.div_mod p 0x40). assert (Hm1 := Z.mod_pos_bound p 0x40).
    assert (Hd2 := Z.div_mod (p / 0x40) 0x40). assert (Hm2 := Z.mod_pos_bound (p / 0x40) 0x40).
    rewrite Z.div_div in * by lia. change (0x40 * 0x40) with 0x1000 in *.
    rewrite ltb_false, between_false, between_true by lia. unfold second_of_three, continuation.
    rewrite between_true.
    2: { destruct (Z.eqb_spec (0xE0 + p / 0x1000) 0xE0), (Z.eqb_spec (0xE0 + p / 0x1000) 0xED); lia. }
    rewrite between_true by lia. do 2 f_equal. lia.
  - assert (Hd1 := Z.div_mod p 0x40). assert (Hm1 := Z.mod_pos_bound p 0x40).
    assert (Hd2 := Z.div_mod (p / 0x40) 0x40). assert (Hm2 := Z.mod_pos_bound (p / 0x40) 0x40).
    assert (Hd3 := Z.div_mod (p / 0x1000) 0x40). assert (Hm3 := Z.mod_pos_bound (p / 0x1000) 0x40).
    rewrite !Z.div_div in * by lia. change (0x40 * 0x40) with 0x1000 in *. change (0x1000 * 0x40) with 0x40000 in *.
    rewrite ltb_false, between_false, between_false, between_true by lia. unfold second_of_four, continuation.
    rewrite between_true.
    2: { destruct (Z.eqb_spec (0xF0 + p / 0x40000) 0xF0), (Z.eqb_spec (0xF0 + p / 0x40000) 0xF4); lia. }
    rewrite !between_true by lia. do 2 f_equal. lia.
Qed.

Lemma surrogate_high u : is_high u = true ↔ 0xD800 ≤ u ≤ 0xDBFF.
Proof. unfold is_high. rewrite andb_true_iff, !Z.leb_le. done. Qed.
Lemma surrogate_low u : is_low u = true ↔ 0xDC00 ≤ u ≤ 0xDFFF.
Proof. unfold is_low. rewrite andb_true_iff, !Z.leb_le. done. Qed.
Lemma not_surrogate u : is_high u = false → is_low u = false → ¬ (0xD800 ≤ u ≤ 0xDFFF).
Proof.
  intros Hh Hl Hu. apply not_true_iff_false in Hh. apply not_true_iff_false in Hl.
  rewrite surrogate_high in Hh. rewrite surrogate_low in Hl. lia.
Qed.

Lemma decode_replacement rest : utf8_decode (encode_point REPLACEMENT ++ rest) = REPLACEMENT :: utf8_decode rest.
Proof. by rewrite decode_point by (unfold REPLACEMENT; lia). Qed.

(** A text is read back with its unpaired surrogates replaced. *)
Lemma decode_encode text rest : Forall code_unit text →
  utf8_decode (TextEncoder_encode text ++ rest) = scalar_text text ++ utf8_decode rest.
Proof.
  induction text as [|u|u v text IH IHv] using utf16_ind; intros Hu; [done| |].
  - apply Forall_cons in Hu as [Hu _]. unfold code_unit in Hu. cbn [TextEncoder_encode scalar_text].
    destruct (is_high u) eqn:Eh; [apply decode_replacement|].
    destruct (is_low u) eqn:El; rewrite app_nil_r; [apply decode_replacement|].
    pose proof (not_surrogate u Eh El). rewrite decode_point by lia. unfold units. by rewrite (proj2 (Z.ltb_lt u 0x10000)) by lia.
  - apply Forall_cons in Hu as [Hu Hvt]. specialize (IHv Hvt). apply Forall_cons in Hvt as [Hv Ht]. specialize (IH Ht).
    unfold code_unit in *. cbn [TextEncoder_encode scalar_text] in *.
    destruct (is_high u) eqn:Eh; [destruct (is_low v) eqn:El|destruct (is_low u) eqn:El].
    + rewrite <- app_assoc. pose proof Eh as Eh'. pose proof El as El'. apply surrogate_high in Eh'. apply surrogate_low in El'.
      rewrite decode_point, units_pair, IH by (done || unfold pair_point; lia). done.
    + rewrite <- app_assoc, decode_replacement. cbn [app]. by rewrite IHv.
    + rewrite <- app_assoc, decode_replacement. cbn [app]. by rewrite IHv.
    + rewrite <- app_assoc, decode_point, IHv by (try apply not_surrogate; done || lia).
      unfold units. by rewrite (proj2 (Z.ltb_lt u 0x10000)) by lia.
Qed.

Lemma encode_point_bytes p : 0 ≤ p < 0x110000 → Forall byte (encode_point p).
Proof.
  intros Hp. unfold encode_point.
  destruct (Z.ltb_spec p 0x80); [|destruct (Z.ltb_spec p 0x800); [|destruct (Z.ltb_spec p 0x10000)]];
    repeat apply Forall_cons_2; try apply Forall_nil_2; unfold byte; Z.to_euclidean_division_equations; lia.
Qed.

Lemma TextEncoder_bytes text : Forall code_unit text → Forall byte (TextEncoder_encode text).
Proof.
  assert (Hr : Forall byte (encode_point REPLACEMENT)) by (by apply encode_point_bytes; unfold REPLACEMENT; lia).
  induction text as [|u|u v text IH IHv] using utf16_ind; intros Hu; [done| |].
  - apply Forall_cons in Hu as [Hu _]. unfold code_unit in Hu. cbn [TextEncoder_encode].
    destruct (is_high u), (is_low u); rewrite ?app_nil_r; try done. apply encode_point_bytes. lia.
  - apply Forall_cons in Hu as [Hu Hvt]. specialize (IHv Hvt). apply Forall_cons in Hvt as [Hv Ht]. specialize (IH Ht).
    unfold code_unit in *. cbn [TextEncoder_encode] in *.
    destruct (is_high u) eqn:Eh; [destruct (is_low v) eqn:El|destruct (is_low u)]; apply Forall_app; split; try done.
    + apply encode_point_bytes. apply surrogate_high in Eh. apply surrogate_low in El. unfold pair_point. lia.
    + apply encode_point_bytes. lia.
Qed.

Lemma decode_mark rest : utf8_decode (0xEF :: 0xBB :: 0xBF :: rest) = BOM :: utf8_decode rest.
Proof. reflexivity. Qed.

Lemma TextDecoder_no_mark bytes : head (utf8_decode bytes) ≠ Some BOM → TextDecoder_decode bytes = utf8_decode bytes.
Proof.
  intros Hh. unfold TextDecoder_decode. destruct bytes as [|b0 [|b1 [|b2 rest]]]; [done..|].
  destruct (_ && _) eqn:Eb; [|done]. apply andb_true_iff in Eb as [[->%Z.eqb_eq ->%Z.eqb_eq]%andb_true_iff ->%Z.eqb_eq].
  by rewrite decode_mark in Hh.
Qed.

(** What the pair of classes makes of a text. *)
Lemma TextDecoder_received text : Forall code_unit text → TextDecoder_decode (TextEncoder_encode text) = received text.
Proof.
  intros Hu. pose proof (decode_encode text [] Hu) as Hd. rewrite !app_nil_r in Hd.
  destruct (decide (head text = Some BOM)) as [Hb|Hb].
  - destruct text as [|u text]; [done|]. injection Hb as ->. apply Forall_cons in Hu as [_ Hu].
    pose proof (decode_encode text [] Hu) as Hd'. rewrite !app_nil_r in Hd'. exact Hd'.
  - assert (Hh : head (scalar_text text) ≠ Some BOM).
    { destruct text as [|u [|v text]]; [done|simpl in *..]; repeat case_match; simpl; try done;
        intros [= ->]; done. }
    assert (Hr : received text = scalar_text text).
    { unfold received. destruct (scalar_text text) as [|u r]; [done|]. simpl in Hh.
      destruct (Z.eqb_spec u BOM) as [->|]; done. }
    rewrite TextDecoder_no_mark, Hd, Hr; [done|]. by rewrite Hd.
Qed.

Lemma received_ascii text : Forall (λ u, 0 ≤ u < 0x80) text → received text = text.
Proof.
  intros Ht. assert (Hs : scalar_text text = text).
  { induction text as [|u|u v text _ IH] using utf16_ind; [done| |]; apply Forall_cons in Ht as [Hu Ht].
    - cbn [scalar_text]. destruct (is_high u) eqn:Eh; [apply surrogate_high in Eh; lia|].
      destruct (is_low u) eqn:El; [|done]. apply surrogate_low in El; lia.
    - specialize (IH Ht). cbn [scalar_text] in IH |- *. rewrite IH. destruct (is_high u) eqn:Eh; [apply surrogate_high in Eh; lia|].
      destruct (is_low u) eqn:El; [|done]. apply surrogate_low in El; lia. }
  unfold received. rewrite Hs. destruct text as [|u text]; [done|]. apply Forall_cons in Ht as [Hu _].
  destruct (Z.eqb_spec u BOM) as [->|]; [|done]. unfold BOM in Hu. lia.
Qed.
