(* ===== verification/Double.v ===== *)
(** * JavaScript numbers as 64 bits

    A number is the integer it is, when it is a safe integer other than [-0],
    and its IEEE 754 pattern otherwise, so equal numbers have one form.
    Arithmetic is that of the Standard Library's [SpecFloat] at 53 bits. *)

From S2P Require Import Prelude.
From Stdlib Require Import SpecFloat.

Local Open Scope Z_scope.

Inductive double : Type :=
| Integral (z : Z)
| Pattern (bits : Z).

#[export] Instance double_eq_dec : EqDecision double.
Proof. solve_decision. Defined.

Definition QUIET_NAN : Z := 0x7FF8 * 2 ^ 48.
Definition MINUS_ZERO : Z := 2 ^ 63.

Definition sign_of (bits : Z) : Z := bits / 2 ^ 63.
Definition exponent_of (bits : Z) : Z := bits / 2 ^ 52 mod 2 ^ 11.
Definition fraction_of (bits : Z) : Z := bits mod 2 ^ 52.

Definition is_nan_pattern (bits : Z) : bool := (exponent_of bits =? 2047) && negb (fraction_of bits =? 0).

(** The safe integer a pattern stands for, [-0] aside. *)
Definition integral_value (bits : Z) : option Z :=
  let e := exponent_of bits in
  let m := fraction_of bits in
  let signed z := if sign_of bits =? 0 then z else - z in
  if e =? 0 then (if (m =? 0) && (sign_of bits =? 0) then Some 0 else None)
  else if (1023 <=? e) && (e <=? 1075) then
    let k := 1075 - e in
    if (2 ^ 52 + m) mod 2 ^ k =? 0 then Some (signed ((2 ^ 52 + m) / 2 ^ k)) else None
  else None.

(** [getFloat64]: every NaN is one number. *)
Definition of_pattern (bits : Z) : double :=
  match integral_value bits with
  | Some z => Integral z
  | None => if is_nan_pattern bits then Pattern QUIET_NAN else Pattern bits
  end.

Definition pattern_of_Z (z : Z) : Z :=
  if z =? 0 then 0
  else let d := Z.log2 (Z.abs z) in
       (if z <? 0 then 2 ^ 63 else 0) + (d + 1023) * 2 ^ 52 + (Z.abs z * 2 ^ (52 - d) - 2 ^ 52).

(** [setFloat64]. *)
Definition pattern_of (n : double) : Z :=
  match n with Integral z => pattern_of_Z z | Pattern bits => bits end.

Definition wf_double (n : double) : Prop :=
  match n with
  | Integral z => - MAX_SAFE_INTEGER ≤ z ≤ MAX_SAFE_INTEGER
  | Pattern bits => 0 ≤ bits < 2 ^ 64 ∧ of_pattern bits = Pattern bits
  end.

Lemma fields s e m : 0 ≤ s < 2 → 0 ≤ e < 2048 → 0 ≤ m < 2 ^ 52 →
  let bits := s * 2 ^ 63 + e * 2 ^ 52 + m in
  sign_of bits = s ∧ exponent_of bits = e ∧ fraction_of bits = m.
Proof.
  intros Hs He Hm bits. unfold sign_of, exponent_of, fraction_of.
  assert (bits = m + (e + s * 2 ^ 11) * 2 ^ 52) as Hb by (unfold bits; lia).
  split_and!.
  - symmetry. apply (Z.div_unique _ _ _ (e * 2 ^ 52 + m)); unfold bits; lia.
  - rewrite Hb, Z.div_add, Z.div_small, Z.add_0_l, Z.mod_add, Z.mod_small by lia. done.
  - rewrite Hb, Z.mod_add, Z.mod_small by lia. done.
Qed.

Lemma log2_safe z : 0 < z ≤ MAX_SAFE_INTEGER → 0 ≤ Z.log2 z ≤ 52.
Proof.
  intros Hz. split; [apply Z.log2_nonneg|]. apply Z.lt_succ_r. apply Z.log2_lt_pow2; [lia|].
  unfold MAX_SAFE_INTEGER in Hz. change (2 ^ Z.succ 52) with (2 ^ 53). lia.
Qed.

(** Writing a safe integer and reading it back. *)
Lemma of_pattern_of_Z z : - MAX_SAFE_INTEGER ≤ z ≤ MAX_SAFE_INTEGER → of_pattern (pattern_of_Z z) = Integral z.
Proof.
  intros Hz. unfold pattern_of_Z. destruct (Z.eqb_spec z 0) as [->|Hz0]; [reflexivity|].
  set (d := Z.log2 (Z.abs z)). assert (Hd : 0 ≤ d ≤ 52) by (apply log2_safe; lia).
  destruct (Z.log2_spec (Z.abs z)) as [Hlo Hhi]; [lia|]. fold d in Hlo, Hhi.
  assert (Hp : 2 ^ d * 2 ^ (52 - d) = 2 ^ 52) by (rewrite <- Z.pow_add_r by lia; f_equal; lia).
  assert (Hk : 0 < 2 ^ (52 - d)) by (apply Z.pow_pos_nonneg; lia).
  rewrite Z.pow_succ_r in Hhi by lia.
  set (m := Z.abs z * 2 ^ (52 - d) - 2 ^ 52). assert (Hm : 0 ≤ m < 2 ^ 52) by (unfold m; nia).
  set (s := if z <? 0 then 1 else 0). assert (Hs : 0 ≤ s < 2) by (unfold s; case_match; lia).
  assert (He : (if z <? 0 then 2 ^ 63 else 0) + (d + 1023) * 2 ^ 52 + m = s * 2 ^ 63 + (d + 1023) * 2 ^ 52 + m)
    by (unfold s; case_match; lia).
  rewrite He. destruct (fields s (d + 1023) m) as (Hsg & Hex & Hfr); [lia..|].
  set (bits := s * 2 ^ 63 + _ + m) in *. unfold of_pattern, integral_value. rewrite Hsg, Hex, Hfr.
  replace (d + 1023 =? 0) with false by (symmetry; apply Z.eqb_neq; lia).
  rewrite !(proj2 (Z.leb_le _ _)) by lia. cbn [andb]. replace (1075 - (d + 1023)) with (52 - d) by lia.
  replace (2 ^ 52 + m) with (Z.abs z * 2 ^ (52 - d)) by (unfold m; lia).
  rewrite Z.mod_mul, Z.div_mul by lia. cbn [Z.eqb]. f_equal. unfold s. destruct (Z.ltb_spec z 0); simpl; lia.
Qed.

Lemma of_pattern_of n : wf_double n → of_pattern (pattern_of n) = n.
Proof. destruct n as [z|bits]; simpl; [apply of_pattern_of_Z|by intros [_ ?]]. Qed.

Lemma pattern_range n : wf_double n → 0 ≤ pattern_of n < 2 ^ 64.
Proof.
  destruct n as [z|bits]; simpl; [|by intros [? _]]. intros Hz. unfold pattern_of_Z.
  destruct (Z.eqb_spec z 0) as [->|Hz0]; [lia|].
  set (d := Z.log2 (Z.abs z)). assert (Hd : 0 ≤ d ≤ 52) by (apply log2_safe; lia).
  destruct (Z.log2_spec (Z.abs z)) as [Hlo Hhi]; [lia|]. fold d in Hlo, Hhi.
  assert (Hp : 2 ^ d * 2 ^ (52 - d) = 2 ^ 52) by (rewrite <- Z.pow_add_r by lia; f_equal; lia).
  rewrite Z.pow_succ_r in Hhi by lia. assert (Hk : 0 < 2 ^ (52 - d)) by (apply Z.pow_pos_nonneg; lia).
  case_match; nia.
Qed.

Lemma integral_value_safe bits z : integral_value bits = Some z → - MAX_SAFE_INTEGER ≤ z ≤ MAX_SAFE_INTEGER.
Proof.
  unfold integral_value. set (e := exponent_of bits). set (m := fraction_of bits).
  assert (Hm : 0 ≤ m < 2 ^ 52) by (apply Z.mod_pos_bound; lia).
  destruct (e =? 0); [case_match; [|done]; intros [= <-]; unfold MAX_SAFE_INTEGER; lia|].
  destruct (Z.leb_spec 1023 e); [|done]. destruct (Z.leb_spec e 1075); [|done]. cbn [andb].
  destruct (_ mod _ =? 0); [|done]. intros [= <-].
  assert (Hq : 0 ≤ (2 ^ 52 + m) / 2 ^ (1075 - e) ≤ 2 ^ 52 + m).
  { assert (0 < 2 ^ (1075 - e)) by (apply Z.pow_pos_nonneg; lia). split; [apply Z.div_pos; lia|].
    apply Z.div_le_upper_bound; nia. }
  unfold MAX_SAFE_INTEGER. case_match; lia.
Qed.

Lemma wf_of_pattern bits : 0 ≤ bits < 2 ^ 64 → wf_double (of_pattern bits).
Proof.
  intros Hb. unfold of_pattern. destruct (integral_value bits) as [z|] eqn:Ei; [by apply integral_value_safe in Ei|].
  destruct (is_nan_pattern bits) eqn:En; simpl.
  - split; [unfold QUIET_NAN; lia|reflexivity].
  - split; [done|]. unfold of_pattern. by rewrite Ei, En.
Qed.

(** ** Arithmetic *)

Definition to_spec_float (n : double) : spec_float :=
  match n with
  | Integral z => binary_normalize 53 1024 z 0 false
  | Pattern bits =>
      let s := negb (sign_of bits =? 0) in
      let e := exponent_of bits in
      let m := fraction_of bits in
      if e =? 2047 then (if m =? 0 then S754_infinity s else S754_nan)
      else if e =? 0 then binary_normalize 53 1024 (if s then - m else m) (-1074) s
      else binary_normalize 53 1024 (if s then - (2 ^ 52 + m) else 2 ^ 52 + m) (e - 1075) s
  end.

(** The 64 bits of a result. *)
Definition spec_pattern (f : spec_float) : Z :=
  let signed (s : bool) bits := ((if s then 2 ^ 63 else 0) + bits) mod 2 ^ 64 in
  match f with
  | S754_zero s => signed s 0
  | S754_infinity s => signed s (2047 * 2 ^ 52)
  | S754_nan => QUIET_NAN
  | S754_finite s m e =>
      signed s (if Zpos m <? 2 ^ 52 then Zpos m else (e + 1075) * 2 ^ 52 + (Zpos m - 2 ^ 52))
  end.

Definition of_spec_float (f : spec_float) : double := of_pattern (spec_pattern f).

Definition mul (a b : double) : double := of_spec_float (SFmul 53 1024 (to_spec_float a) (to_spec_float b)).
Definition div (a b : double) : double := of_spec_float (SFdiv 53 1024 (to_spec_float a) (to_spec_float b)).

(** [m * 2^e], where [m] has at most 53 bits. *)
Definition scaled (negative : bool) (m e : Z) : double :=
  of_spec_float (binary_normalize 53 1024 (if negative then - m else m) e negative).

(** The number nearest to an integer of any size. *)
Definition of_Z (z : Z) : double :=
  if (- MAX_SAFE_INTEGER <=? z) && (z <=? MAX_SAFE_INTEGER) then Integral z else scaled (z <? 0) (Z.abs z) 0.

Lemma spec_pattern_range f : 0 ≤ spec_pattern f < 2 ^ 64.
Proof. destruct f; try (apply Z.mod_pos_bound; lia). unfold spec_pattern, QUIET_NAN. lia. Qed.

Lemma wf_of_spec_float f : wf_double (of_spec_float f).
Proof. apply wf_of_pattern, spec_pattern_range. Qed.

(** Truncation to an integer; [None] for NaN and the infinities. *)
Definition truncate (n : double) : option Z :=
  match n with
  | Integral z => Some z
  | Pattern _ =>
      match to_spec_float n with
      | S754_zero _ => Some 0
      | S754_finite s m e => let a := Z.shiftl (Zpos m) e in Some (if s then - a else a)
      | _ => None
      end
  end.

Example one_third : div (Integral 1) (Integral 3) = Pattern 0x3FD5555555555555.
Proof. vm_compute. reflexivity. Qed.
Example half_of_one : div (Integral 1) (Integral 2) = Pattern 0x3FE0000000000000.
Proof. vm_compute. reflexivity. Qed.
Example tenth_times_ten : mul (div (Integral 1) (Integral 10)) (Integral 10) = Integral 1.
Proof. vm_compute. reflexivity. Qed.
Example minus_zero : mul (Integral (-1)) (Integral 0) = Pattern MINUS_ZERO.
Proof. vm_compute. reflexivity. Qed.
