(* ===== verification/Cbor.v ===== *)
(** * The CBOR codec: [src/serialization/CborCodec.ts],
      [src/serialization/RichTypes.ts]

    The encoder walks a heap of objects, so that sharing and cycles are the
    ones of the program; the decoder builds the tree it returns.  Bytes are
    integers below 256.  Error messages are left out, their kinds are kept. *)

From S2P Require Import Prelude Utf8 Double.
From Stdlib Require Import Ascii.

Local Open Scope Z_scope.

Set Warnings "-register-all".

(** ** [src/serialization/Constants.ts] *)

Definition MAX_NESTING_DEPTH : Z := 256.
Definition MAX_BIGNUM_BYTES : Z := 1024.
Definition MAX_BIGNUM_MAGNITUDE : Z := 2 ^ (MAX_BIGNUM_BYTES * 8) - 1.

Definition TAG_DATETIME : Z := 0.
Definition TAG_EPOCH_DATETIME : Z := 1.
Definition TAG_UNSIGNED_BIGNUM : Z := 2.
Definition TAG_NEGATIVE_BIGNUM : Z := 3.
Definition TAG_GENERIC_OBJECT : Z := 27.
Definition TAG_URI : Z := 32.
Definition TAG_SET : Z := 258.
Definition TAG_MAP : Z := 259.

(** A literal of the source as code units. *)
Definition text (s : string) : utf16 := (λ a, Z.of_nat (nat_of_ascii a)) <$> String.list_ascii_of_string s.

(** ** What the code calls and does not define

    The regular expression and URL parsers of the host, its parser of date
    texts, and whether it has [Float16Array]. *)

Class Host := {
  new_RegExp : utf16 → utf16 → option (utf16 * utf16);
  new_URL : utf16 → option utf16;
  Date_parse : utf16 → option Z;
  has_Float16Array : bool;
}.

(** ** Values in the heap *)

Inductive prim : Type :=
| PNull
| PUndefined
| PBoolean (b : bool)
| PNumber (n : double)
| PBigInt (z : Z)
| PString (s : utf16)
| PFunction.

Inductive jsval : Type :=
| Prim (p : prim)
| Ref (l : positive).

(** The time of a [Date] is an integer of milliseconds, or [NaN].  A [toJSON]
    method is the value it returns.  A row of a multi map holds a [Set]. *)
Inductive object : Type :=
| OBytes (bytes : list Z)
| ODate (time : option Z)
| OBidirectionalMap (entries : list (jsval * jsval))
| OBidirectionalMultiMap (rows : list (jsval * jsval))
| OMap (entries : list (jsval * jsval))
| OSet (members : list jsval)
| OBinary (kind : option utf16) (bytes : list Z)
| ORegExp (source flags : utf16)
| OURL (href : utf16)
| OError (name message : utf16) (cause errors : jsval)
| OBoxed (p : prim)
| ORefused
| OArray (items : list jsval)
| OObject (toJSON : option jsval) (properties : list (utf16 * jsval)).

Inductive CborEncodeError : Type :=
| NestingTooDeep
| CircularReference
| BigIntOutOfRange
| CannotEncode
| EncodeFuel.

Definition encoded : Type := result CborEncodeError (list Z).

(** ** The encoder: headers and scalars *)

Definition writeHeader (major value : Z) : list Z :=
  let mj := Z.shiftl (Z.land major 7) 5 in
  let byte_at k := Z.land (Z.shiftr value k) 0xFF in
  if value <? 24 then [Z.lor mj value]
  else if value <? 0x100 then [Z.lor mj 24; value]
  else if value <? 0x10000 then [Z.lor mj 25; byte_at 8; byte_at 0]
  else if value <? 0x100000000 then [Z.lor mj 26; byte_at 24; byte_at 16; byte_at 8; byte_at 0]
  else Z.lor mj 27 :: (byte_at <$> [56; 48; 40; 32; 24; 16; 8; 0]).

Definition writeTag (tag : Z) : list Z := writeHeader 6 tag.
Definition writeSimple (value : Z) : list Z := [Z.lor (Z.shiftl 7 5) value].
Definition writeInt (value : Z) : list Z := if value >=? 0 then writeHeader 0 value else writeHeader 1 (- value - 1).

(** [setFloat64], big-endian. *)
Definition writeDouble (n : double) : list Z :=
  Z.lor (Z.shiftl 7 5) 27 :: ((λ k, Z.land (Z.shiftr (pattern_of n) k) 0xFF) <$> [56; 48; 40; 32; 24; 16; 8; 0]).

Definition writeBytes (bytes : list Z) : list Z := writeHeader 2 (Z.of_nat (length bytes)) ++ bytes.

Definition writeString (s : utf16) : list Z :=
  let bytes := TextEncoder_encode s in writeHeader 3 (Z.of_nat (length bytes)) ++ bytes.

(** The [while] of [bigIntToBytes], least significant byte first; the fuel is
    the number of bits. *)
Fixpoint bigint_loop (fuel : nat) (value : Z) : list Z :=
  match fuel with
  | O => []
  | S fuel => if value >? 0 then Z.land value 0xFF :: bigint_loop fuel (Z.shiftr value 8) else []
  end.

Definition bigIntToBytes (n : Z) : list Z :=
  if n =? 0 then [0] else rev (bigint_loop (Z.to_nat (Z.log2 n + 1)) n).

Definition writeBigInt (value : Z) : encoded :=
  let positive := value >=? 0 in
  let magnitude := if positive then value else - value - 1 in
  if magnitude >? MAX_BIGNUM_MAGNITUDE then Err BigIntOutOfRange
  else
    let bytes := bigIntToBytes magnitude in
    Ok (writeTag (if positive then TAG_UNSIGNED_BIGNUM else TAG_NEGATIVE_BIGNUM)
          ++ writeHeader 2 (Z.of_nat (length bytes)) ++ bytes).

Definition requireDepth (depth : Z) : result CborEncodeError unit :=
  throw_if (depth >? MAX_NESTING_DEPTH) NestingTooDeep.

(** [value.getTime() / 1000]. *)
Definition epoch_seconds (time : option Z) : double :=
  match time with Some ms => div (of_Z ms) (Integral 1000) | None => Pattern QUIET_NAN end.

Definition writePrimitive (depth : Z) (p : prim) : encoded :=
  match p with
  | PNull => Ok (writeSimple 22)
  | PUndefined => Ok (writeSimple 23)
  | PBoolean b => Ok (writeSimple (if b then 21 else 20))
  | PNumber (Integral z) => Ok (writeInt z)
  | PNumber n => Ok (writeDouble n)
  | PBigInt z => _ ← requireDepth (depth + 1); writeBigInt z
  | PString s => Ok (writeString s)
  | PFunction => Err CannotEncode
  end.

(** ** The encoder: containers *)

(** Statements that write in turn. *)
Definition andthen (first second : encoded) : encoded := a ← first; b ← second; Ok (a ++ b).

Fixpoint write_each {A : Type} (write : A → encoded) (items : list A) : encoded :=
  match items with
  | [] => Ok []
  | x :: items => andthen (write x) (write_each write items)
  end.

Definition writeMapBody (write : jsval → encoded) (entries : list (jsval * jsval)) : encoded :=
  andthen (Ok (writeTag TAG_MAP ++ writeHeader 5 (Z.of_nat (length entries))))
          (write_each (λ e, andthen (write e.1) (write e.2)) entries).

(** [27([name, ...])] up to the last argument. *)
Definition generic_head (name : utf16) (arity : Z) : list Z :=
  writeTag TAG_GENERIC_OBJECT ++ writeHeader 4 arity ++ writeString name.

Definition is_undefined (v : jsval) : bool := match v with Prim PUndefined => true | _ => false end.

Section encoder.
Context (heap : positive → object).

(** [Array.isArray]. *)
Definition is_array (v : jsval) : bool :=
  match v with Ref l => match heap l with OArray _ => true | _ => false end | _ => false end.

(** What [writeValue] hands to the writers of containers: itself at a depth,
    among the containers that enclose the value. *)
Abbreviation writer := (Z → gset positive → jsval → encoded).

(** [enterContainer], around the body that the [finally] leaves. *)
Definition enterContainer (l : positive) (ancestors : gset positive) (body : gset positive → encoded) : encoded :=
  if bool_decide (l ∈ ancestors) then Err CircularReference else body ({[l]} ∪ ancestors).

Definition writeArray (write : writer) (l : positive) (ancestors : gset positive) (items : list jsval) (depth : Z) : encoded :=
  enterContainer l ancestors (λ anc,
    andthen (Ok (writeHeader 4 (Z.of_nat (length items)))) (write_each (write (depth + 1) anc) items)).

Definition writeMap (write : writer) (l : positive) (ancestors : gset positive) (entries : list (jsval * jsval)) (depth : Z) : encoded :=
  enterContainer l ancestors (λ anc, writeMapBody (write (depth + 1) anc) entries).

Definition writeBidirectionalMap (write : writer) (l : positive) (ancestors : gset positive)
    (entries : list (jsval * jsval)) (depth : Z) : encoded :=
  _ ← requireDepth (depth + 2);
  enterContainer l ancestors (λ anc,
    andthen (Ok (generic_head (text "BidirectionalMap") 2)) (writeMapBody (write (depth + 2 + 1) anc) entries)).

Definition writeSet (write : writer) (l : positive) (ancestors : gset positive) (members : list jsval) (depth : Z) : encoded :=
  _ ← requireDepth (depth + 1);
  enterContainer l ancestors (λ anc,
    andthen (Ok (writeTag TAG_SET ++ writeHeader 4 (Z.of_nat (length members)))) (write_each (write (depth + 2) anc) members)).

Definition writeBidirectionalMultiMap (write : writer) (l : positive) (ancestors : gset positive)
    (rows : list (jsval * jsval)) (depth : Z) : encoded :=
  _ ← requireDepth (depth + 2);
  enterContainer l ancestors (λ anc,
    andthen (Ok (generic_head (text "BidirectionalMultiMap") 2)) (writeMapBody (write (depth + 2 + 1) anc) rows)).

Definition writeBinaryView (kind : option utf16) (bytes : list Z) (depth : Z) : encoded :=
  match kind with
  | None => Err CannotEncode
  | Some kind => _ ← requireDepth (depth + 2); Ok (generic_head kind 2 ++ writeBytes bytes)
  end.

Definition writeRegExp (source flags : utf16) (depth : Z) : encoded :=
  _ ← requireDepth (depth + 2);
  Ok (generic_head (text "RegExp") 3 ++ writeString source ++ writeString flags).

Definition writeError (write : writer) (l : positive) (ancestors : gset positive)
    (name message : utf16) (cause errors : jsval) (depth : Z) : encoded :=
  _ ← requireDepth (depth + 3);
  enterContainer l ancestors (λ anc,
    andthen (Ok (generic_head (text "Error") 2
              ++ writeHeader 5 (2 + (if is_undefined cause then 0 else 1) + (if is_array errors then 1 else 0))
              ++ writeString (text "name") ++ writeString name
              ++ writeString (text "message") ++ writeString message))
    (andthen (if is_undefined cause then Ok []
              else andthen (Ok (writeString (text "cause"))) (write (depth + 3) anc cause))
             (if is_array errors
              then andthen (Ok (writeString (text "errors"))) (write (depth + 3) anc errors)
              else Ok []))).

(** [writeObject], past the [toJSON] that [writeValue] looks for. *)
Definition writeObject (write : writer) (l : positive) (ancestors : gset positive)
    (properties : list (utf16 * jsval)) (depth : Z) : encoded :=
  enterContainer l ancestors (λ anc,
    andthen (Ok (writeHeader 5 (Z.of_nat (length properties))))
            (write_each (λ p, andthen (Ok (writeString p.1)) (write (depth + 1) anc p.2)) properties)).

Fixpoint writeValue (fuel : nat) (depth : Z) (allowToJson : bool) (ancestors : gset positive) (v : jsval) : encoded :=
  match fuel with
  | O => Err EncodeFuel
  | S fuel =>
      let write depth anc v := writeValue fuel depth true anc v in
      if depth >? MAX_NESTING_DEPTH then Err NestingTooDeep
      else
        match v with
        | Prim p => writePrimitive depth p
        | Ref l =>
            match heap l with
            | OBytes bytes => Ok (writeBytes bytes)
            | ODate time =>
                _ ← requireDepth (depth + 1);
                Ok (writeTag TAG_EPOCH_DATETIME ++ writeDouble (epoch_seconds time))
            | OBidirectionalMap entries => writeBidirectionalMap write l ancestors entries depth
            | OBidirectionalMultiMap rows => writeBidirectionalMultiMap write l ancestors rows depth
            | OMap entries => writeMap write l ancestors entries depth
            | OSet members => writeSet write l ancestors members depth
            | OBinary kind bytes => writeBinaryView kind bytes depth
            | ORegExp source flags => writeRegExp source flags depth
            | OURL href => _ ← requireDepth (depth + 1); Ok (writeTag TAG_URI ++ writeString href)
            | OError name message cause errors => writeError write l ancestors name message cause errors depth
            | OBoxed p => writeValue fuel depth false ancestors (Prim p)
            | ORefused => Err CannotEncode
            | OArray items => writeArray write l ancestors items depth
            | OObject toJSON properties =>
                match (if allowToJson then toJSON else None) with
                | Some replacement => writeValue fuel depth false ancestors replacement
                | None => writeObject write l ancestors properties depth
                end
            end
        end
  end.

(** A level of nesting takes at most three calls: the value, what its [toJSON]
    returned, and what that boxed. *)
Definition encode_fuel : nat := Z.to_nat (3 * (MAX_NESTING_DEPTH + 2)).

Definition encode (value : jsval) : encoded := writeValue encode_fuel 0 true ∅ value.

End encoder.

(** ** Decoded values *)

Inductive value : Type :=
| VNull
| VUndefined
| VBoolean (b : bool)
| VNumber (n : double)
| VBigInt (z : Z)
| VString (s : utf16)
| VBytes (bytes : list Z)
| VDate (time : option Z)
| VBinary (kind : utf16) (bytes : list Z)
| VRegExp (source flags : utf16)
| VURL (href : utf16)
| VArray (items : list value)
| VMap (entries : list (value * value))
| VSet (members : list value)
| VBidirectionalMap (entries : list (value * value))
| VBidirectionalMultiMap (rows : list (value * value))
| VObject (properties : list (utf16 * value))
| VError (name message : utf16) (cause : option value) (errors : option (list value)).

(** SameValueZero.  Objects are compared by identity, and no object is decoded
    twice. *)
Definition same (a b : value) : bool :=
  match a, b with
  | VNull, VNull | VUndefined, VUndefined => true
  | VBoolean x, VBoolean y => Bool.eqb x y
  | VNumber x, VNumber y => bool_decide (x = y)
  | VBigInt x, VBigInt y => x =? y
  | VString x, VString y => bool_decide (x = y)
  | _, _ => false
  end.

(** A [Map] and a [Set] keep [-0] as [0]. *)
Definition normal_key (v : value) : value :=
  match v with
  | VNumber (Pattern bits) => if bits =? MINUS_ZERO then VNumber (Integral 0) else v
  | _ => v
  end.

Fixpoint map_put (entries : list (value * value)) (k v : value) : list (value * value) :=
  match entries with
  | [] => [(k, v)]
  | (k', v') :: entries => if same k' k then (k', v) :: entries else (k', v') :: map_put entries k v
  end.

(** [new Map(pairs)], [new Set(members)]. *)
Definition new_Map (pairs : list (value * value)) : list (value * value) :=
  foldl (λ es e, map_put es (normal_key e.1) e.2) [] pairs.

Definition new_Set (members : list value) : list value :=
  foldl (λ ms m, if existsb (same (normal_key m)) ms then ms else ms ++ [normal_key m]) [] members.

(** [new BidirectionalMap(entries)] by its forward entries: a pair displaces
    the other holder of its value. *)
Definition new_BidirectionalMap (entries : list (value * value)) : list (value * value) :=
  foldl (λ es e, map_put (List.filter (λ e', same e'.1 (normal_key e.1) || negb (same (normal_key e'.2) (normal_key e.2))) es)
                         (normal_key e.1) e.2) [] entries.

Fixpoint define_property (properties : list (utf16 * value)) (k : utf16) (v : value) : list (utf16 * value) :=
  match properties with
  | [] => [(k, v)]
  | (k', v') :: properties =>
      if bool_decide (k' = k) then (k', v) :: properties else (k', v') :: define_property properties k v
  end.

Definition build_object (properties : list (utf16 * value)) : list (utf16 * value) :=
  foldl (λ ps p, define_property ps p.1 p.2) [] properties.

Fixpoint own_property (properties : list (utf16 * value)) (k : utf16) : option value :=
  match properties with
  | [] => None
  | (k', v) :: properties => if bool_decide (k' = k) then Some v else own_property properties k
  end.

(** ** The decoder: scalars *)

Inductive CborDecodeError : Type :=
| NestingDeeper
| UnexpectedEnd
| Truncated
| StringTooLong
| UnsupportedInfo
| UnsupportedSimple
| KeyNotAString
| ExpectsMap
| ExpectsGenericArguments
| ExpectsString
| ExpectsNumber
| ExpectsBytes
| ExpectsArray
| BignumTooLong
| InvalidURL
| InvalidArguments
| TrailingBytes
| DecodeFuel.

Abbreviation decoded A := (result CborDecodeError (A * list Z)).

(** [src/serialization/ReadConstraintsOptions.ts] and its validator. *)
Record ReadConstraints := mkReadConstraints { maxNestingDepth : Z; maxDocumentBytes : Z; maxStringLength : Z }.

Definition defaultReadConstraintsOptions : ReadConstraints :=
  mkReadConstraints MAX_NESTING_DEPTH 0 (20 * 1024 * 1024).

Definition valid_constraints (c : ReadConstraints) : bool :=
  (0 <? maxNestingDepth c) && (maxNestingDepth c <=? MAX_NESTING_DEPTH) &&
  (0 <=? maxDocumentBytes c) && (0 <=? maxStringLength c).

Definition readUint (byteLen : nat) (bytes : list Z) : decoded Z :=
  if (length bytes <? byteLen)%nat then Err Truncated
  else Ok (foldl (λ out b, Z.lor (Z.shiftl out 8) b) 0 (take byteLen bytes), drop byteLen bytes).

Definition readLength (add : Z) (bytes : list Z) : decoded Z :=
  if add <? 24 then Ok (add, bytes)
  else if add =? 24 then readUint 1 bytes
  else if add =? 25 then readUint 2 bytes
  else if add =? 26 then readUint 4 bytes
  else if add =? 27 then readUint 8 bytes
  else Err UnsupportedInfo.

(** The number that [readUint] returns, or the bigint when it is not safe. *)
Definition unsigned (len : Z) : value := if len <=? MAX_SAFE_INTEGER then VNumber (of_Z len) else VBigInt len.
Definition negative (len : Z) : value := if len <=? MAX_SAFE_INTEGER then VNumber (of_Z (- len - 1)) else VBigInt (- len - 1).

Definition readBytes (count : Z) (bytes : list Z) : decoded (list Z) :=
  if Z.of_nat (length bytes) <? count then Err Truncated
  else Ok (take (Z.to_nat count) bytes, drop (Z.to_nat count) bytes).

Definition readHalfFloat (bytes : list Z) : decoded double :=
  match bytes with
  | hi :: lo :: bytes =>
      let negative := negb (Z.land hi 0x80 =? 0) in
      let exp := Z.shiftr (Z.land hi 0x7c) 2 in
      let mant := Z.lor (Z.shiftl (Z.land hi 3) 8) lo in
      let n := if exp =? 0 then scaled negative mant (-24)
               else if exp =? 0x1f then
                 (if mant =? 0 then of_spec_float (SpecFloat.S754_infinity negative) else Pattern QUIET_NAN)
               else scaled negative (1024 + mant) (exp - 25) in
      Ok (n, bytes)
  | _ => Err Truncated
  end.

(** [getFloat32] of the four bytes. *)
Definition single (bits : Z) : double :=
  let negative := negb (bits / 2 ^ 31 =? 0) in
  let exp := bits / 2 ^ 23 mod 2 ^ 8 in
  let mant := bits mod 2 ^ 23 in
  if exp =? 0 then scaled negative mant (-149)
  else if exp =? 0xff then
    (if mant =? 0 then of_spec_float (SpecFloat.S754_infinity negative) else Pattern QUIET_NAN)
  else scaled negative (2 ^ 23 + mant) (exp - 150).

Definition readSimple (add : Z) (bytes : list Z) : decoded value :=
  if add =? 20 then Ok (VBoolean false, bytes)
  else if add =? 21 then Ok (VBoolean true, bytes)
  else if add =? 22 then Ok (VNull, bytes)
  else if add =? 23 then Ok (VUndefined, bytes)
  else if add =? 25 then '(n, bytes) ← readHalfFloat bytes; Ok (VNumber n, bytes)
  else if add =? 26 then '(bits, bytes) ← readUint 4 bytes; Ok (VNumber (single bits), bytes)
  else if add =? 27 then '(bits, bytes) ← readUint 8 bytes; Ok (VNumber (of_pattern bits), bytes)
  else Err UnsupportedSimple.

(** ** The decoder: rich types *)

Definition buildBidirectionalMap (args : list value) : result CborDecodeError value :=
  match args with
  | VMap entries :: _ => Ok (VBidirectionalMap (new_BidirectionalMap entries))
  | _ => Err InvalidArguments
  end.

(** Every partner of every row is added; a row without partners adds none. *)
Definition buildBidirectionalMultiMap (args : list value) : result CborDecodeError value :=
  match args with
  | VMap rows :: _ =>
      if forallb (λ row, match row.2 with VSet _ => true | _ => false end) rows
      then Ok (VBidirectionalMultiMap (List.filter (λ row, match row.2 with VSet [] => false | _ => true end) rows))
      else Err InvalidArguments
  | _ => Err InvalidArguments
  end.

Section decoder.
Context {HO : Host} (c : ReadConstraints).

(** [TYPED_ARRAY_CONSTRUCTORS] and the two untyped kinds, with the bytes an
    element takes. *)
Definition binary_kinds : list (utf16 * Z) :=
  [(text "ArrayBuffer", 1); (text "DataView", 1); (text "Int8Array", 1); (text "Uint8ClampedArray", 1);
   (text "Int16Array", 2); (text "Uint16Array", 2); (text "Int32Array", 4); (text "Uint32Array", 4);
   (text "Float32Array", 4); (text "Float64Array", 8); (text "BigInt64Array", 8); (text "BigUint64Array", 8)]
  ++ (if has_Float16Array then [(text "Float16Array", 2)] else []).

Fixpoint element_bytes (kinds : list (utf16 * Z)) (kind : utf16) : option Z :=
  match kinds with
  | [] => None
  | (k, n) :: kinds => if bool_decide (k = kind) then Some n else element_bytes kinds kind
  end.

Definition buildBinaryView (kind : utf16) (element : Z) (args : list value) : result CborDecodeError value :=
  match args with
  | VBytes bytes :: _ =>
      if Z.of_nat (length bytes) mod element =? 0 then Ok (VBinary kind bytes) else Err InvalidArguments
  | _ => Err InvalidArguments
  end.

Definition buildRegExp (args : list value) : result CborDecodeError value :=
  match args with
  | VString source :: VString flags :: _ =>
      match new_RegExp source flags with
      | Some (source, flags) => Ok (VRegExp source flags)
      | None => Err InvalidArguments
      end
  | _ => Err InvalidArguments
  end.

(** The named property of an object that was decoded: a plain object has those
    it was given, an [Error] its own. *)
Definition error_field (payload : value) (name : string) : option value :=
  match payload with
  | VObject properties => own_property properties (text name)
  | VError n m cause errors =>
      if bool_decide (name = "name") then Some (VString n)
      else if bool_decide (name = "message") then Some (VString m)
      else if bool_decide (name = "cause") then cause
      else if bool_decide (name = "errors") then VArray <$> errors
      else None
  | _ => None
  end.

(** Only an [AggregateError] keeps its errors. *)
Definition rebuildError (name message : utf16) (cause : option value) (errors : option (list value)) : value :=
  VError name message cause (if bool_decide (name = text "AggregateError") then errors else None).

Definition buildError (args : list value) : result CborDecodeError value :=
  match args with
  | [] => Err InvalidArguments
  | payload :: _ =>
      match error_field payload "name", error_field payload "message" with
      | Some (VString name), Some (VString message) =>
          Ok (rebuildError name message (error_field payload "cause")
                (match error_field payload "errors" with Some (VArray items) => Some items | _ => None end))
      | _, _ => Err InvalidArguments
      end
  end.

Definition readGenericObject (inner : value) : result CborDecodeError value :=
  match inner with
  | VArray (VString name :: args) =>
      if bool_decide (name = text "BidirectionalMap") then buildBidirectionalMap args
      else if bool_decide (name = text "BidirectionalMultiMap") then buildBidirectionalMultiMap args
      else if bool_decide (name = text "RegExp") then buildRegExp args
      else if bool_decide (name = text "Error") then buildError args
      else match element_bytes binary_kinds name with
           | Some element => buildBinaryView name element args
           | None => Ok inner
           end
  | _ => Err ExpectsGenericArguments
  end.

(** The base-256 value of the bytes. *)
Definition bytesToBigInt (bytes : list Z) : Z := foldl (λ n b, n * 256 + b) 0 bytes.

(** [new Date(ms)]: truncated, [NaN] when out of range. *)
Definition new_Date (ms : double) : option Z :=
  match truncate ms with
  | Some t => if Z.abs t <=? 8640000000000000 then Some t else None
  | None => None
  end.

Definition applyTag (tag : Z) (inner : value) : result CborDecodeError value :=
  if tag =? TAG_DATETIME then
    match inner with VString s => Ok (VDate (Date_parse s)) | _ => Err ExpectsString end
  else if tag =? TAG_EPOCH_DATETIME then
    match inner with VNumber n => Ok (VDate (new_Date (mul n (Integral 1000)))) | _ => Err ExpectsNumber end
  else if (tag =? TAG_UNSIGNED_BIGNUM) || (tag =? TAG_NEGATIVE_BIGNUM) then
    match inner with
    | VBytes bytes =>
        if Z.of_nat (length bytes) >? MAX_BIGNUM_BYTES then Err BignumTooLong
        else let magnitude := bytesToBigInt bytes in
             Ok (VBigInt (if tag =? TAG_UNSIGNED_BIGNUM then magnitude else - 1 - magnitude))
    | _ => Err ExpectsBytes
    end
  else if tag =? TAG_URI then
    match inner with
    | VString s => match new_URL s with Some href => Ok (VURL href) | None => Err InvalidURL end
    | _ => Err ExpectsString
    end
  else if tag =? TAG_SET then
    match inner with VArray items => Ok (VSet (new_Set items)) | _ => Err ExpectsArray end
  else Ok inner.

(** ** The decoder: nesting *)

(** [for (let i = 0; i < count; i++) out.push(read())]. *)
Fixpoint read_many {A : Type} (read : list Z → decoded A) (fuel : nat) (count : Z) (bytes : list Z) : decoded (list A) :=
  if count <=? 0 then Ok ([], bytes)
  else match fuel with
       | O => Err DecodeFuel
       | S fuel =>
           '(x, bytes) ← read bytes;
           '(xs, bytes) ← read_many read fuel (count - 1) bytes;
           Ok (x :: xs, bytes)
       end.

Definition read_pair (read : list Z → decoded value) (bytes : list Z) : decoded (value * value) :=
  '(k, bytes) ← read bytes;
  '(v, bytes) ← read bytes;
  Ok ((k, v), bytes).

Definition read_property (read : list Z → decoded value) (bytes : list Z) : decoded (utf16 * value) :=
  '(e, bytes) ← read_pair read bytes;
  match e.1 with VString k => Ok ((k, e.2), bytes) | _ => Err KeyNotAString end.

Definition requireStringLength (count : Z) : result CborDecodeError unit :=
  throw_if ((0 <? maxStringLength c) && (maxStringLength c <? count)) StringTooLong.

Definition readEntryPairs (read : list Z → decoded value) (depth : Z) (bytes : list Z) : decoded (list (value * value)) :=
  if depth >? maxNestingDepth c then Err NestingDeeper
  else match bytes with
       | [] => Err UnexpectedEnd
       | ib :: bytes =>
           if negb (Z.land (Z.shiftr ib 5) 7 =? 5) then Err ExpectsMap
           else
             '(count, bytes) ← readLength (Z.land ib 0x1f) bytes;
             read_many (read_pair read) (S (length bytes)) count bytes
       end.

Definition readTagged (read : list Z → decoded value) (tag depth : Z) (bytes : list Z) : decoded value :=
  if tag =? TAG_MAP then '(pairs, bytes) ← readEntryPairs read depth bytes; Ok (VMap (new_Map pairs), bytes)
  else
    '(inner, bytes) ← read bytes;
    v ← (if tag =? TAG_GENERIC_OBJECT then readGenericObject inner else applyTag tag inner);
    Ok (v, bytes).

Fixpoint readValue (fuel : nat) (depth : Z) (bytes : list Z) : decoded value :=
  match fuel with
  | O => Err DecodeFuel
  | S fuel =>
      if depth >? maxNestingDepth c then Err NestingDeeper
      else
        match bytes with
        | [] => Err UnexpectedEnd
        | ib :: bytes =>
            let major := Z.land (Z.shiftr ib 5) 7 in
            let add := Z.land ib 0x1f in
            if major =? 7 then readSimple add bytes
            else
              '(len, bytes) ← readLength add bytes;
              let read := readValue fuel (depth + 1) in
              if major =? 0 then Ok (unsigned len, bytes)
              else if major =? 1 then Ok (negative len, bytes)
              else if major =? 2 then
                _ ← requireStringLength len;
                '(content, bytes) ← readBytes len bytes; Ok (VBytes content, bytes)
              else if major =? 3 then
                _ ← requireStringLength len;
                '(content, bytes) ← readBytes len bytes; Ok (VString (TextDecoder_decode content), bytes)
              else if major =? 4 then
                '(items, bytes) ← read_many read (S (length bytes)) len bytes; Ok (VArray items, bytes)
              else if major =? 5 then
                '(properties, bytes) ← read_many (read_property read) (S (length bytes)) len bytes;
                Ok (VObject (build_object properties), bytes)
              else readTagged read len depth bytes
        end
  end.

(** A call goes one level deeper than its caller. *)
Definition decode_fuel : nat := Z.to_nat (maxNestingDepth c + 2).

Definition decode (bytes : list Z) : result CborDecodeError value :=
  '(v, rest) ← readValue decode_fuel 0 bytes;
  if bool_decide (rest = []) then Ok v else Err TrailingBytes.

(** [CborSerializer.fromBinary]. *)
Definition fromBinary (bytes : list Z) : option (result CborDecodeError value) :=
  if (0 <? maxDocumentBytes c) && (maxDocumentBytes c <? Z.of_nat (length bytes)) then None else Some (decode bytes).

End decoder.
