(* ===== verification/CborRoundTrip.v ===== *)
(** * The CBOR codec, round trip

    What the encoder writes is what its decoder reads, over [Cbor]. *)

From S2P Require Import Prelude Utf8 Double Cbor.

Local Open Scope Z_scope.

(** ** Bits and bytes *)

Lemma lor_low a b k : 0 ≤ k → 0 ≤ b < 2 ^ k → Z.lor (Z.shiftl a k) b = a * 2 ^ k + b.
Proof.
  intros Hk Hb. assert (Hd : Z.land (Z.shiftl a k) b = 0).
  { apply Z.bits_inj'. intros n Hn. rewrite Z.land_spec, Z.bits_0. destruct (Z.ltb_spec n k).
    - by rewrite Z.shiftl_spec_low.
    - rewrite <- (Z.mod_small b (2 ^ k)), Z.mod_pow2_bits_high by lia. apply andb_false_r. }
  rewrite <- Z.lxor_lor, <- Z.add_nocarry_lxor by done. by rewrite Z.shiftl_mul_pow2.
Qed.

Lemma low_byte w : Z.lor (Z.shiftl (Z.shiftr w 8) 8) (Z.land w 0xFF) = w.
Proof.
  change 0xFF with (Z.ones 8). rewrite Z.land_ones, Z.shiftr_div_pow2 by lia.
  rewrite lor_low by (try apply Z.mod_pos_bound; lia). pose proof (Z.div_mod w (2 ^ 8)). lia.
Qed.

(** Reading an unsigned integer, most significant byte first. *)
Lemma next_byte v k k' : 0 ≤ k → k' = k + 8 →
  Z.lor (Z.shiftl (Z.shiftr v k') 8) (Z.land (Z.shiftr v k) 0xFF) = Z.shiftr v k.
Proof. intros Hk ->. rewrite <- Z.shiftr_shiftr by lia. apply low_byte. Qed.

Lemma first_byte v k : 0 ≤ k → 0 ≤ v < 2 ^ (k + 8) →
  Z.lor (Z.shiftl 0 8) (Z.land (Z.shiftr v k) 0xFF) = Z.shiftr v k.
Proof.
  intros Hk Hv. pose proof (next_byte v k (k + 8) Hk eq_refl) as Hn.
  rewrite (Z.shiftr_div_pow2 v (k + 8)), Z.div_small in Hn by lia. exact Hn.
Qed.

(** The first byte of a data item. *)
Lemma initial_byte major add : 0 ≤ major < 8 → 0 ≤ add < 32 →
  let ib := Z.lor (Z.shiftl (Z.land major 7) 5) add in
  Z.land (Z.shiftr ib 5) 7 = major ∧ Z.land ib 0x1f = add.
Proof.
  intros Hm Ha ib. unfold ib. change 7 with (Z.ones 3). change 0x1f with (Z.ones 5).
  rewrite !Z.land_ones by lia. rewrite (Z.mod_small major) by lia. rewrite lor_low by lia.
  rewrite Z.shiftr_div_pow2 by lia. split.
  - rewrite Z.div_add_l, Z.div_small, Z.add_0_r by lia. apply Z.mod_small. lia.
  - rewrite Z.add_comm, Z.mod_add, Z.mod_small by lia. done.
Qed.

Lemma readUint_bytes v rest : 0 ≤ v < 2 ^ 64 →
  readUint 8 (((λ k, Z.land (Z.shiftr v k) 0xFF) <$> [56; 48; 40; 32; 24; 16; 8; 0]) ++ rest) = Ok (v, rest).
Proof.
  intros Hv. unfold readUint. cbn -[Z.lor Z.land Z.shiftl Z.shiftr]. do 2 f_equal.
  rewrite first_byte by (try change (56 + 8) with 64; lia). rewrite !next_byte by lia.
  apply Z.shiftr_0_r.
Qed.

Lemma writeHeader_read major v : 0 ≤ major < 8 → 0 ≤ v < 2 ^ 64 →
  ∃ ib tail, writeHeader major v = ib :: tail ∧ Z.land (Z.shiftr ib 5) 7 = major ∧
    ∀ rest, readLength (Z.land ib 0x1f) (tail ++ rest) = Ok (v, rest).
Proof.
  intros Hm Hv. unfold writeHeader. set (mj := Z.shiftl (Z.land major 7) 5).
  destruct (Z.ltb_spec v 24); [|destruct (Z.ltb_spec v 0x100); [|destruct (Z.ltb_spec v 0x10000);
    [|destruct (Z.ltb_spec v 0x100000000)]]].
  - destruct (initial_byte major v) as [Hi Ha]; [done|lia|]. eexists _, _. split; [done|]. split; [done|].
    intros rest. unfold mj. rewrite Ha. unfold readLength. by rewrite (proj2 (Z.ltb_lt v 24)).
  - destruct (initial_byte major 24) as [Hi Ha]; [done|lia|]. eexists _, _. split; [done|]. split; [done|].
    intros rest. unfold mj. rewrite Ha. unfold readLength, readUint. cbn -[Z.lor]. do 2 f_equal.
  - destruct (initial_byte major 25) as [Hi Ha]; [done|lia|]. eexists _, _. split; [done|]. split; [done|].
    intros rest. unfold mj. rewrite Ha. unfold readLength, readUint. cbn -[Z.lor Z.land Z.shiftl Z.shiftr]. do 2 f_equal.
    rewrite first_byte, !next_byte by lia. apply Z.shiftr_0_r.
  - destruct (initial_byte major 26) as [Hi Ha]; [done|lia|]. eexists _, _. split; [done|]. split; [done|].
    intros rest. unfold mj. rewrite Ha. unfold readLength, readUint. cbn -[Z.lor Z.land Z.shiftl Z.shiftr]. do 2 f_equal.
    rewrite first_byte, !next_byte by lia. apply Z.shiftr_0_r.
  - destruct (initial_byte major 27) as [Hi Ha]; [done|lia|]. eexists _, _. split; [done|]. split; [done|].
    intros rest. unfold mj. rewrite Ha. unfold readLength. cbn [Z.ltb Z.eqb Z.compare Pos.compare Pos.compare_cont Pos.eqb].
    by apply readUint_bytes.
Qed.

(** ** Big integers *)

Lemma bigint_loop_value fuel v : 0 ≤ v < 2 ^ Z.of_nat fuel →
  foldr (λ b n, n * 256 + b) 0 (bigint_loop fuel v) = v.
Proof.
  revert v. induction fuel as [|fuel IH]; intros v Hv; [simpl in *; lia|]. cbn [bigint_loop].
  destruct (Z.gtb_spec v 0); [|simpl; lia]. cbn [foldr].
  assert (Hv' : 0 ≤ Z.shiftr v 8 < 2 ^ Z.of_nat fuel).
  { rewrite Z.shiftr_div_pow2 by lia. split; [apply Z.div_pos; lia|]. apply Z.div_lt_upper_bound; [lia|].
    rewrite Nat2Z.inj_succ, Z.pow_succ_r in Hv by lia. lia. }
  rewrite IH by done. change 0xFF with (Z.ones 8). rewrite Z.land_ones, Z.shiftr_div_pow2 by lia.
  pose proof (Z.div_mod v (2 ^ 8)). lia.
Qed.

Lemma bigint_loop_length fuel v k : 0 ≤ v < 2 ^ (8 * Z.of_nat k) → (length (bigint_loop fuel v) ≤ k)%nat.
Proof.
  revert v k. induction fuel as [|fuel IH]; intros v k Hv; cbn [bigint_loop]; [simpl; lia|].
  destruct (Z.gtb_spec v 0); [|simpl; lia]. destruct k as [|k]; [simpl in Hv; lia|].
  cbn [length]. apply le_n_S, IH. rewrite Z.shiftr_div_pow2 by lia. split; [apply Z.div_pos; lia|].
  apply Z.div_lt_upper_bound; [lia|]. rewrite <- Z.pow_add_r by lia. replace (8 + 8 * Z.of_nat k) with (8 * Z.of_nat (S k)) by lia. lia.
Qed.

Lemma foldl_rev {A B} (f : A → B → A) a l : foldl f a (rev l) = foldr (λ b n, f n b) a l.
Proof. induction l as [|x l IH]; [done|]. simpl. by rewrite foldl_app, IH. Qed.

Lemma bytesToBigInt_bigIntToBytes n : 0 ≤ n → bytesToBigInt (bigIntToBytes n) = n.
Proof.
  intros Hn. unfold bigIntToBytes, bytesToBigInt. destruct (Z.eqb_spec n 0) as [->|Hn0]; [done|].
  rewrite foldl_rev. apply bigint_loop_value. rewrite Z2Nat.id by (pose proof (Z.log2_nonneg n); lia).
  pose proof (Z.log2_spec n). replace (Z.log2 n + 1) with (Z.succ (Z.log2 n)) by lia. lia.
Qed.

Lemma bigIntToBytes_length n : 0 ≤ n ≤ MAX_BIGNUM_MAGNITUDE → (length (bigIntToBytes n) ≤ 1024)%nat.
Proof.
  intros Hn. unfold bigIntToBytes. destruct (Z.eqb_spec n 0); [simpl; lia|].
  rewrite length_rev. apply bigint_loop_length. unfold MAX_BIGNUM_MAGNITUDE, MAX_BIGNUM_BYTES in Hn.
  change (8 * Z.of_nat 1024) with (1024 * 8). lia.
Qed.

(** ** Reading what was written *)

Section round_trip.
Context {HO : Host} (c : ReadConstraints).

(** The decoder reads [t] off the bytes [b], whatever follows them. *)
Definition reads (m : nat) (depth : Z) (b : list Z) (t : value) : Prop :=
  ∀ rest, readValue c m depth (b ++ rest) = Ok (t, rest).

(** Texts and byte strings the constraints let through. *)
Definition fits (n : nat) : Prop :=
  Z.of_nat n < 2 ^ 53 ∧ (maxStringLength c = 0 ∨ Z.of_nat n ≤ maxStringLength c).

Lemma fits_required n : fits n → requireStringLength c (Z.of_nat n) = Ok ().
Proof.
  intros [_ Hf]. unfold requireStringLength, throw_if. destruct (Z.ltb_spec 0 (maxStringLength c)); [|done].
  cbn [andb]. by rewrite (proj2 (Z.ltb_ge _ _)) by lia.
Qed.

Lemma readBytes_here b rest : readBytes (Z.of_nat (length b)) (b ++ rest) = Ok (b, rest).
Proof.
  unfold readBytes. rewrite (proj2 (Z.ltb_ge _ _)) by (rewrite length_app; lia).
  rewrite Nat2Z.id. by rewrite take_app_length, drop_app_length.
Qed.

(** Enters a data item of the given major type. *)
Lemma reads_item m depth major v b t : 0 ≤ major < 7 → 0 ≤ v < 2 ^ 64 → depth ≤ maxNestingDepth c →
  (∀ rest, (let read := readValue c m (depth + 1) in
     if major =? 0 then Ok (unsigned v, b ++ rest)
     else if major =? 1 then Ok (negative v, b ++ rest)
     else if major =? 2 then
       _ ← requireStringLength c v;
       '(content, bytes) ← readBytes v (b ++ rest); Ok (VBytes content, bytes)
     else if major =? 3 then
       _ ← requireStringLength c v;
       '(content, bytes) ← readBytes v (b ++ rest); Ok (VString (TextDecoder_decode content), bytes)
     else if major =? 4 then
       '(items, bytes) ← read_many read (S (length (b ++ rest))) v (b ++ rest); Ok (VArray items, bytes)
     else if major =? 5 then
       '(properties, bytes) ← read_many (read_property read) (S (length (b ++ rest))) v (b ++ rest);
       Ok (VObject (build_object properties), bytes)
     else readTagged c read v depth (b ++ rest)) = Ok (t, rest)) →
  reads (S m) depth (writeHeader major v ++ b) t.
Proof.
  intros Hm Hv Hd Hr rest. destruct (writeHeader_read major v) as (ib & tail & -> & Hmaj & Hlen); [lia|done|].
  cbn [readValue app]. rewrite Z.gtb_ltb, (proj2 (Z.ltb_ge _ _)) by done. rewrite Hmaj.
  destruct (Z.eqb_spec major 7); [lia|]. rewrite <- app_assoc, Hlen. exact (Hr rest).
Qed.

Lemma reads_simple m depth add tail t : 0 ≤ add < 32 → depth ≤ maxNestingDepth c →
  (∀ rest, readSimple add (tail ++ rest) = Ok (t, rest)) → reads (S m) depth (Z.lor (Z.shiftl 7 5) add :: tail) t.
Proof.
  intros Ha Hd Hr rest. destruct (initial_byte 7 add) as [Hi Hb]; [lia|done|]. change (Z.land 7 7) with 7 in *.
  cbn [readValue app]. rewrite Z.gtb_ltb, (proj2 (Z.ltb_ge _ _)) by done. rewrite Hi, Hb. apply Hr.
Qed.

Lemma reads_int m depth z : - MAX_SAFE_INTEGER ≤ z ≤ MAX_SAFE_INTEGER → depth ≤ maxNestingDepth c →
  reads (S m) depth (writeInt z) (VNumber (Integral z)).
Proof.
  intros Hz Hd. unfold writeInt, MAX_SAFE_INTEGER in *. rewrite Z.geb_leb. destruct (Z.leb_spec 0 z).
  - rewrite <- (app_nil_r (writeHeader _ _)). apply reads_item; [lia..|]. intros rest. cbn [Z.eqb app]. cbv zeta.
    unfold unsigned, of_Z, MAX_SAFE_INTEGER. rewrite !(proj2 (Z.leb_le _ _)) by lia. done.
  - rewrite <- (app_nil_r (writeHeader _ _)). apply reads_item; [lia..|]. intros rest. cbn [Z.eqb app]. cbv zeta.
    unfold negative, of_Z, MAX_SAFE_INTEGER. rewrite !(proj2 (Z.leb_le _ _)) by lia. cbn [andb].
    by replace (- (- z - 1) - 1) with z by lia.
Qed.

Lemma reads_double m depth n : wf_double n → depth ≤ maxNestingDepth c → reads (S m) depth (writeDouble n) (VNumber n).
Proof.
  intros Hn Hd. unfold writeDouble. apply reads_simple; [lia|done|]. intros rest. unfold readSimple. cbn [Z.eqb Pos.eqb].
  rewrite readUint_bytes by (by apply pattern_range). simpl. by rewrite of_pattern_of.
Qed.

Lemma reads_string m depth s : Forall code_unit s → fits (length (TextEncoder_encode s)) → depth ≤ maxNestingDepth c →
  reads (S m) depth (writeString s) (VString (received s)).
Proof.
  intros Hs Hf Hd. unfold writeString. apply reads_item; [lia|destruct Hf; lia|done|]. intros rest. cbn [Z.eqb Pos.eqb].
  rewrite fits_required, readBytes_here by done. simpl. by rewrite TextDecoder_received.
Qed.

Lemma reads_bytes m depth b : fits (length b) → depth ≤ maxNestingDepth c → reads (S m) depth (writeBytes b) (VBytes b).
Proof.
  intros Hf Hd. unfold writeBytes. apply reads_item; [lia|destruct Hf; lia|done|]. intros rest. cbn [Z.eqb Pos.eqb].
  by rewrite fits_required, readBytes_here.
Qed.

(** No item is empty. *)
Lemma reads_nonempty m depth b t : reads m depth b t → b ≠ [].
Proof. intros Hr ->. specialize (Hr []). destruct m; [done|]. simpl in Hr. by destruct (depth >? _). Qed.

(** Items in a row. *)
Lemma read_many_spec {A} (read : list Z → decoded A) (bts : list (list Z * A)) fuel rest :
  Forall (λ bt, ∀ rest, read (bt.1 ++ rest) = Ok (bt.2, rest)) bts → (length bts ≤ fuel)%nat →
  read_many read fuel (Z.of_nat (length bts)) (concat bts.*1 ++ rest) = Ok (bts.*2, rest).
Proof.
  revert fuel. induction bts as [|[b t] bts IH]; intros fuel Hb Hf; [by destruct fuel|].
  apply Forall_cons in Hb as [Hb Hbs]. simpl in Hf. destruct fuel as [|fuel]; [lia|].
  cbn [read_many length]. rewrite (proj2 (Z.leb_gt _ _)) by lia. rewrite !fmap_cons. cbn [concat].
  rewrite <- app_assoc. cbn [fst snd] in *. rewrite Hb. cbn [mbind result_bind].
  replace (Z.of_nat (S (length bts)) - 1) with (Z.of_nat (length bts)) by lia.
  rewrite IH by (done || lia). done.
Qed.

Lemma concat_length_nonempty (bs : list (list Z)) : Forall (λ b, b ≠ []) bs → (length bs ≤ length (concat bs))%nat.
Proof.
  induction 1 as [|b bs Hb _ IH]; [done|]. simpl. rewrite length_app. destruct b; [done|]. simpl. lia.
Qed.

(** Enough fuel for items none of which is empty. *)
Lemma read_many_items {A} (read : list Z → decoded A) (bts : list (list Z * A)) rest :
  Forall (λ bt, ∀ rest, read (bt.1 ++ rest) = Ok (bt.2, rest)) bts → Forall (λ bt, bt.1 ≠ []) bts →
  read_many read (S (length (concat bts.*1 ++ rest))) (Z.of_nat (length bts)) (concat bts.*1 ++ rest) = Ok (bts.*2, rest).
Proof.
  intros Hr Hne. apply read_many_spec; [done|]. rewrite length_app.
  pose proof (concat_length_nonempty bts.*1) as Hl. rewrite length_fmap in Hl.
  rewrite Forall_fmap in Hl. specialize (Hl Hne). lia.
Qed.

Lemma reads_array m depth (bts : list (list Z * value)) : depth ≤ maxNestingDepth c → Z.of_nat (length bts) < 2 ^ 53 →
  Forall (λ bt, reads m (depth + 1) bt.1 bt.2) bts →
  reads (S m) depth (writeHeader 4 (Z.of_nat (length bts)) ++ concat bts.*1) (VArray bts.*2).
Proof.
  intros Hd Hl Hb. apply reads_item; [lia..|done|]. intros rest. cbn [Z.eqb Pos.eqb]. cbv zeta.
  rewrite read_many_items; [done|exact Hb|]. eapply Forall_impl; [exact Hb|]. intros bt Hbt. exact (reads_nonempty _ _ _ _ Hbt).
Qed.

(** A property: a text and a value. *)
Lemma reads_property m depth k b t : Forall code_unit k → fits (length (TextEncoder_encode k)) →
  depth ≤ maxNestingDepth c → reads (S m) depth b t →
  ∀ rest, read_property (readValue c (S m) depth) ((writeString k ++ b) ++ rest) = Ok ((received k, t), rest).
Proof.
  intros Hk Hf Hd Hr rest. unfold read_property, read_pair. rewrite <- app_assoc, (reads_string m depth k Hk Hf Hd).
  cbn [mbind result_bind]. by rewrite Hr.
Qed.

Lemma reads_pair m depth b1 t1 b2 t2 : reads m depth b1 t1 → reads m depth b2 t2 →
  ∀ rest, read_pair (readValue c m depth) ((b1 ++ b2) ++ rest) = Ok ((t1, t2), rest).
Proof. intros H1 H2 rest. unfold read_pair. rewrite <- app_assoc, H1. cbn [mbind result_bind]. by rewrite H2. Qed.

Lemma writeHeader_nonempty major v b : writeHeader major v ++ b ≠ [].
Proof. unfold writeHeader. repeat case_match; done. Qed.

Lemma reads_object m depth (bts : list (list Z * (utf16 * value))) : depth ≤ maxNestingDepth c →
  Z.of_nat (length bts) < 2 ^ 53 →
  Forall (λ bt, bt.1 ≠ [] ∧ ∀ rest, read_property (readValue c m (depth + 1)) (bt.1 ++ rest) = Ok (bt.2, rest)) bts →
  reads (S m) depth (writeHeader 5 (Z.of_nat (length bts)) ++ concat bts.*1) (VObject (build_object bts.*2)).
Proof.
  intros Hd Hl Hb. apply reads_item; [lia..|done|]. intros rest. cbn [Z.eqb Pos.eqb]. cbv zeta.
  rewrite read_many_items; [done| |]; (eapply Forall_impl; [exact Hb|]); by intros bt [? ?].
Qed.

(** A tag other than the one of maps. *)
Lemma reads_tag m depth tag b inner t : 0 ≤ tag < 2 ^ 64 → tag ≠ TAG_MAP → depth ≤ maxNestingDepth c →
  reads m (depth + 1) b inner →
  (if tag =? TAG_GENERIC_OBJECT then readGenericObject inner else applyTag tag inner) = Ok t →
  reads (S m) depth (writeTag tag ++ b) t.
Proof.
  intros Ht Hne Hd Hb Hv. apply reads_item; [lia|lia|done|]. intros rest. cbn [Z.eqb Pos.eqb]. unfold readTagged.
  rewrite (proj2 (Z.eqb_neq _ _)) by done. rewrite Hb. cbn [mbind result_bind]. by rewrite Hv.
Qed.

Lemma reads_map m depth (bts : list (list Z * (value * value))) : depth ≤ maxNestingDepth c →
  Z.of_nat (length bts) < 2 ^ 53 →
  Forall (λ bt, bt.1 ≠ [] ∧ ∀ rest, read_pair (readValue c m (depth + 1)) (bt.1 ++ rest) = Ok (bt.2, rest)) bts →
  reads (S m) depth (writeTag TAG_MAP ++ writeHeader 5 (Z.of_nat (length bts)) ++ concat bts.*1) (VMap (new_Map bts.*2)).
Proof.
  intros Hd Hl Hb. apply reads_item; [lia|done|done|]. intros rest. cbn [Z.eqb Pos.eqb]. unfold readTagged.
  change (TAG_MAP =? TAG_MAP) with true. cbv iota. unfold readEntryPairs.
  rewrite Z.gtb_ltb, (proj2 (Z.ltb_ge _ _)) by done.
  destruct (writeHeader_read 5 (Z.of_nat (length bts))) as (ib & tail & -> & Hmaj & Hlen); [lia..|].
  cbn [app]. rewrite Hmaj. cbn [Z.eqb Pos.eqb negb]. rewrite <- app_assoc, Hlen. cbn [mbind result_bind].
  rewrite read_many_items; [done| |]; (eapply Forall_impl; [exact Hb|]); by intros bt [? ?].
Qed.

(** [27([name, ...args])]. *)
Lemma reads_generic m depth name arity (bts : list (list Z * value)) t : Forall code_unit name →
  fits (length (TextEncoder_encode name)) → depth + 2 ≤ maxNestingDepth c →
  arity = Z.of_nat (S (length bts)) → Z.of_nat (length bts) < 2 ^ 52 →
  Forall (λ bt, reads (S m) (depth + 2) bt.1 bt.2) bts →
  readGenericObject (VArray (VString (received name) :: bts.*2)) = Ok t →
  reads (S (S (S m))) depth (generic_head name arity ++ concat bts.*1) t.
Proof.
  intros Hn Hf Hd -> Hl Hb Hv. unfold generic_head. rewrite <- !app_assoc.
  eapply reads_tag; [done|done|lia| |exact Hv].
  apply (reads_array (S m) (depth + 1) ((writeString name, VString (received name)) :: bts)); [lia|simpl; lia|].
  replace (depth + 1 + 1) with (depth + 2) by lia. constructor; [|done]. by apply reads_string.
Qed.

End round_trip.
