(* ===== verification/CborTheorems.v ===== *)
(** * The CBOR codec: its theorems

    What arrives of a heap value on the other side, that it does, and the
    bounds of both halves, over [Cbor] and [CborRoundTrip]. *)

From S2P Require Import Prelude Utf8 Double Cbor CborRoundTrip.

Local Open Scope Z_scope.

Set Warnings "-register-all".

(** ** What arrives *)

Section arrival.
Context {HO : Host} (c : ReadConstraints) (heap : positive → object).

Definition prim_as (receive : utf16 → utf16) (p : prim) : value :=
  match p with
  | PNull | PFunction => VNull
  | PUndefined => VUndefined
  | PBoolean b => VBoolean b
  | PNumber n => VNumber n
  | PBigInt z => VBigInt z
  | PString s => VString (receive s)
  end.

(** A time goes through seconds, as a double, and back: what the peer makes of
    it, which is not always the time that was sent. *)
Definition through_seconds (time : option Z) : option Z := new_Date (mul (epoch_seconds time) (Integral 1000)).

(** The tree that a value of the heap stands for, its sharing unfolded, a
    [toJSON] method, where [allow] lets it, in place of its object, its maps and
    sets built from their entries, and a pattern or an address what the host
    parses of its text; [receive] and [clock] say what becomes of a text and of a
    time. *)
Section tree.
Context (receive : utf16 → utf16) (clock : option Z → option Z).

Inductive tree_as : bool → jsval → value → Prop :=
| tree_prim allow p : tree_as allow (Prim p) (prim_as receive p)
| tree_bytes allow l b : heap l = OBytes b → tree_as allow (Ref l) (VBytes b)
| tree_date allow l time : heap l = ODate time → tree_as allow (Ref l) (VDate (clock time))
| tree_bidirectional allow l es ts : heap l = OBidirectionalMap es →
    Forall2 (λ e t, tree_as true e.1 t.1 ∧ tree_as true e.2 t.2) es ts →
    tree_as allow (Ref l) (VBidirectionalMap (new_BidirectionalMap (new_Map ts)))
| tree_multi allow l rows ts : heap l = OBidirectionalMultiMap rows →
    Forall2 (λ e t, tree_as true e.1 t.1 ∧ tree_as true e.2 t.2) rows ts →
    tree_as allow (Ref l)
      (VBidirectionalMultiMap (List.filter (λ row, match row.2 with VSet [] => false | _ => true end) (new_Map ts)))
| tree_map allow l es ts : heap l = OMap es →
    Forall2 (λ e t, tree_as true e.1 t.1 ∧ tree_as true e.2 t.2) es ts → tree_as allow (Ref l) (VMap (new_Map ts))
| tree_set allow l ms ts : heap l = OSet ms → Forall2 (tree_as true) ms ts → tree_as allow (Ref l) (VSet (new_Set ts))
| tree_binary allow l kind b : heap l = OBinary (Some kind) b → tree_as allow (Ref l) (VBinary kind b)
| tree_regexp allow l source flags s f : heap l = ORegExp source flags →
    new_RegExp (receive source) (receive flags) = Some (s, f) → tree_as allow (Ref l) (VRegExp s f)
| tree_url allow l href h : heap l = OURL href → new_URL (receive href) = Some h → tree_as allow (Ref l) (VURL h)
| tree_error allow l name message cause errors cause' errors' : heap l = OError name message cause errors →
    (is_undefined cause = true → cause' = None) →
    (is_undefined cause = false → ∃ t, cause' = Some t ∧ tree_as true cause t) →
    (is_array heap errors = false → errors' = None) →
    (is_array heap errors = true → ∃ ts, errors' = Some ts ∧ tree_as true errors (VArray ts)) →
    tree_as allow (Ref l) (rebuildError (receive name) (receive message) cause' errors')
| tree_boxed allow l p : heap l = OBoxed p → tree_as allow (Ref l) (prim_as receive p)
| tree_array allow l items ts : heap l = OArray items → Forall2 (tree_as true) items ts →
    tree_as allow (Ref l) (VArray ts)
| tree_toJSON l v properties t : heap l = OObject (Some v) properties → tree_as false v t → tree_as true (Ref l) t
| tree_object allow l toJSON properties ts : heap l = OObject toJSON properties → (allow = true → toJSON = None) →
    Forall2 (λ p t, receive p.1 = t.1 ∧ tree_as true p.2 t.2) properties ts →
    tree_as allow (Ref l) (VObject (build_object ts)).

End tree.

(** The tree as it was sent, and the one that a peer receives: texts as UTF-8,
    times in seconds. *)
Abbreviation stands_for := (tree_as id id).
Abbreviation prim_arrives := (prim_as received).
Abbreviation arrives := (tree_as received through_seconds).

(** ** Heaps of a program

    What JavaScript guarantees of its values (code units, numbers, binary views
    of whole elements, sets in the rows of a multi map, no more than 2^52
    members), what the decoder's string limit asks for, and hosts that parse
    back the texts of their own regular expressions and URLs. *)

Definition text_ok (s : utf16) : Prop := Forall code_unit s ∧ fits c (length (TextEncoder_encode s)).

Definition prim_ok (p : prim) : Prop :=
  match p with PNumber n => wf_double n | PString s => text_ok s | _ => True end.

Definition jsval_ok (v : jsval) : Prop := match v with Prim p => prim_ok p | Ref _ => True end.

Definition members_ok {A} (ok : A → Prop) (l : list A) : Prop := Z.of_nat (length l) < 2 ^ 52 ∧ Forall ok l.

Definition object_ok (o : object) : Prop :=
  match o with
  | OBytes b => fits c (length b)
  | ODate _ | ORefused => True
  | OBidirectionalMap es | OMap es => members_ok (λ e, jsval_ok e.1 ∧ jsval_ok e.2) es
  | OBidirectionalMultiMap rows => members_ok (λ e, jsval_ok e.1 ∧ ∃ l ms, e.2 = Ref l ∧ heap l = OSet ms) rows
  | OSet ms => members_ok jsval_ok ms
  | OBinary kind b =>
      ∀ k, kind = Some k → fits c (length b) ∧
        ∃ e, element_bytes binary_kinds k = Some e ∧ Z.of_nat (length b) mod e = 0
  | ORegExp s f => text_ok s ∧ text_ok f ∧ is_Some (new_RegExp (received s) (received f))
  | OURL href => text_ok href ∧ is_Some (new_URL (received href))
  | OError n m cause errors => text_ok n ∧ text_ok m ∧ jsval_ok cause ∧ jsval_ok errors
  | OBoxed p => prim_ok p
  | OArray items => members_ok jsval_ok items
  | OObject toJSON properties =>
      (∀ v, toJSON = Some v → jsval_ok v) ∧ members_ok (λ p, text_ok p.1 ∧ jsval_ok p.2) properties
  end.

(** The limits of a decoder that reads what an encoder writes: no lower depth,
    and room for the names of the rich types and for the longest big integer. *)
Class Matching : Prop := {
  same_depth : maxNestingDepth c = MAX_NESTING_DEPTH;
  room_for_names : maxStringLength c = 0 ∨ MAX_BIGNUM_BYTES ≤ maxStringLength c;
  objects_ok l : object_ok (heap l);
}.

Context `{Matching}.

(** A level is entered with fuel for the levels below it. *)
Definition good (n : nat) : Prop := ∀ depth allow ancestors v b m,
  0 ≤ depth → jsval_ok v → writeValue heap n depth allow ancestors v = Ok b → MAX_NESTING_DEPTH - depth < Z.of_nat m →
  ∃ t, arrives allow v t ∧ reads c m depth b t.

(** ** Sequences *)

Lemma andthen_Ok e1 e2 b : andthen e1 e2 = Ok b → ∃ b1 b2, e1 = Ok b1 ∧ e2 = Ok b2 ∧ b = b1 ++ b2.
Proof. unfold andthen. intros Hb. unbind. subst. by eexists _, _. Qed.

Lemma andthen_pure a e b : andthen (Ok a) e = Ok b → ∃ b2, e = Ok b2 ∧ b = a ++ b2.
Proof. unfold andthen. cbn [mbind result_bind]. intros Hb. unbind. subst. by eexists. Qed.

Lemma write_each_parts {A B} (write : A → encoded) (P : A → B → Prop) (Q : list Z → B → Prop) items b :
  write_each write items = Ok b → Forall (λ x, ∀ bx, write x = Ok bx → ∃ t, P x t ∧ Q bx t) items →
  ∃ bts : list (list Z * B), b = concat bts.*1 ∧ length bts = length items ∧ Forall2 P items bts.*2 ∧
    Forall (λ bt, Q bt.1 bt.2) bts.
Proof.
  intros Hw Hall. revert b Hw. induction Hall as [|x items Hx _ IH]; intros b Hw; cbn [write_each] in Hw.
  - injection Hw as <-. by exists [].
  - apply andthen_Ok in Hw as (b1 & b2 & H1 & H2 & ->). destruct (Hx b1 H1) as (t & HP & HQ).
    destruct (IH b2 H2) as (bts & -> & Hl & HPs & HQs). exists ((b1, t) :: bts).
    split_and!; [done|by simpl; rewrite Hl|by constructor|by constructor].
Qed.

(** What can be read was entered within the limit. *)
Lemma reads_depth m depth b t : reads c m depth b t → depth ≤ MAX_NESTING_DEPTH ∧ ∃ m', m = S m'.
Proof.
  intros Hr. specialize (Hr []). destruct m as [|m]; [done|]. split; [|by exists m]. cbn [readValue] in Hr.
  rewrite Z.gtb_ltb, same_depth in Hr. destruct (Z.ltb_spec MAX_NESTING_DEPTH depth); [done|lia].
Qed.

Definition entry_arrives (e : jsval * jsval) (t : value * value) : Prop := arrives true e.1 t.1 ∧ arrives true e.2 t.2.
Definition reads_entry (m : nat) (depth : Z) (b : list Z) (t : value * value) : Prop :=
  b ≠ [] ∧ ∀ rest, read_pair (readValue c m depth) (b ++ rest) = Ok (t, rest).
Definition property_arrives (p : utf16 * jsval) (t : utf16 * value) : Prop := received p.1 = t.1 ∧ arrives true p.2 t.2.
Definition reads_named (m : nat) (depth : Z) (b : list Z) (t : utf16 * value) : Prop :=
  b ≠ [] ∧ ∀ rest, read_property (readValue c m depth) (b ++ rest) = Ok (t, rest).

Section level.
Context (n : nat) (IH : good n).

Lemma good_items depth anc items b m : 0 ≤ depth → Forall jsval_ok items →
  write_each (writeValue heap n depth true anc) items = Ok b → MAX_NESTING_DEPTH - depth < Z.of_nat m →
  ∃ bts, b = concat bts.*1 ∧ length bts = length items ∧ Forall2 (arrives true) items bts.*2 ∧
    Forall (λ bt, reads c m depth bt.1 bt.2) bts.
Proof.
  intros Hd Hok Hw Hm. apply (write_each_parts _ (arrives true) (reads c m depth) _ _ Hw).
  eapply Forall_impl; [exact Hok|]. intros x Hx bx Hbx. by apply (IH depth true anc x bx m).
Qed.

Lemma good_entries depth anc es b m : 0 ≤ depth → Forall (λ e, jsval_ok e.1 ∧ jsval_ok e.2) es →
  write_each (λ e, andthen (writeValue heap n depth true anc e.1) (writeValue heap n depth true anc e.2)) es = Ok b →
  MAX_NESTING_DEPTH - depth < Z.of_nat m →
  ∃ bts, b = concat bts.*1 ∧ length bts = length es ∧ Forall2 entry_arrives es bts.*2 ∧
    Forall (λ bt, reads_entry m depth bt.1 bt.2) bts.
Proof.
  intros Hd Hok Hw Hm. apply (write_each_parts _ entry_arrives (reads_entry m depth) _ _ Hw).
  eapply Forall_impl; [exact Hok|]. intros e [He1 He2] bx (b1 & b2 & Hb1 & Hb2 & ->)%andthen_Ok.
  destruct (IH depth true anc _ _ m Hd He1 Hb1 Hm) as (t1 & ? & Hr1).
  destruct (IH depth true anc _ _ m Hd He2 Hb2 Hm) as (t2 & ? & Hr2).
  exists (t1, t2). split; [done|]. split; [|by apply reads_pair].
  intros [Hn _]%app_eq_nil. by apply (reads_nonempty c m depth b1 t1).
Qed.

Lemma good_properties depth anc ps b m : 0 ≤ depth → Forall (λ p, text_ok p.1 ∧ jsval_ok p.2) ps →
  write_each (λ p, andthen (Ok (writeString p.1)) (writeValue heap n depth true anc p.2)) ps = Ok b →
  MAX_NESTING_DEPTH - depth < Z.of_nat m →
  ∃ bts, b = concat bts.*1 ∧ length bts = length ps ∧ Forall2 property_arrives ps bts.*2 ∧
    Forall (λ bt, reads_named m depth bt.1 bt.2) bts.
Proof.
  intros Hd Hok Hw Hm. apply (write_each_parts _ property_arrives (reads_named m depth) _ _ Hw).
  eapply Forall_impl; [exact Hok|]. intros p [[Hk Hf] Hp] bx (b2 & Hb2 & ->)%andthen_pure.
  destruct (IH depth true anc _ _ m Hd Hp Hb2 Hm) as (t & ? & Hr).
  destruct (reads_depth m depth b2 t Hr) as [Hdm (m' & ->)].
  exists (received p.1, t). split; [done|]. split; [unfold writeString; rewrite <- app_assoc; apply writeHeader_nonempty|].
  apply reads_property; [done|done|rewrite same_depth; lia|done].
Qed.

(** The decoder reaches one more level. *)
Lemma fuel_S depth m : 0 ≤ depth ≤ MAX_NESTING_DEPTH → MAX_NESTING_DEPTH - depth < Z.of_nat m →
  ∃ m', m = S m' ∧ MAX_NESTING_DEPTH - (depth + 1) < Z.of_nat m'.
Proof. intros Hd Hm. destruct m as [|m']; [lia|]. exists m'. split; [done|]. lia. Qed.

Lemma fuel_3 depth m : depth + 2 ≤ MAX_NESTING_DEPTH → MAX_NESTING_DEPTH - depth < Z.of_nat m →
  ∃ m', m = S (S (S m')) ∧ MAX_NESTING_DEPTH - (depth + 3) < Z.of_nat m'.
Proof. intros Hd Hm. destruct m as [|[|[|m']]]; [lia..|]. exists m'. split; [done|]. lia. Qed.

Lemma good_map_body depth anc es b m : 0 ≤ depth ≤ MAX_NESTING_DEPTH →
  members_ok (λ e, jsval_ok e.1 ∧ jsval_ok e.2) es → writeMapBody (writeValue heap n (depth + 1) true anc) es = Ok b →
  MAX_NESTING_DEPTH - depth < Z.of_nat m →
  ∃ ts, Forall2 entry_arrives es ts ∧ reads c m depth b (VMap (new_Map ts)).
Proof.
  intros Hd [Hlen Hok] Hw Hm. destruct (fuel_S depth m Hd Hm) as (m' & -> & Hm').
  unfold writeMapBody in Hw. apply andthen_pure in Hw as (b2 & Hw & ->).
  destruct (good_entries (depth + 1) anc es b2 m' ltac:(lia) Hok Hw Hm') as (bts & -> & Hl & Hts & Hr).
  exists bts.*2. split; [done|]. rewrite <- Hl, <- app_assoc. apply reads_map; [rewrite same_depth; lia|lia|done].
Qed.

Lemma good_array depth anc items b m : 0 ≤ depth ≤ MAX_NESTING_DEPTH → members_ok jsval_ok items →
  andthen (Ok (writeHeader 4 (Z.of_nat (length items)))) (write_each (writeValue heap n (depth + 1) true anc) items) = Ok b →
  MAX_NESTING_DEPTH - depth < Z.of_nat m →
  ∃ ts, Forall2 (arrives true) items ts ∧ reads c m depth b (VArray ts).
Proof.
  intros Hd [Hlen Hok] Hw Hm. destruct (fuel_S depth m Hd Hm) as (m' & -> & Hm').
  apply andthen_pure in Hw as (b2 & Hw & ->).
  destruct (good_items (depth + 1) anc items b2 m' ltac:(lia) Hok Hw Hm') as (bts & -> & Hl & Hts & Hr).
  exists bts.*2. split; [done|]. rewrite <- Hl. apply reads_array; [rewrite same_depth; lia|lia|done].
Qed.

Lemma good_object depth anc ps b m : 0 ≤ depth ≤ MAX_NESTING_DEPTH → members_ok (λ p, text_ok p.1 ∧ jsval_ok p.2) ps →
  andthen (Ok (writeHeader 5 (Z.of_nat (length ps))))
    (write_each (λ p, andthen (Ok (writeString p.1)) (writeValue heap n (depth + 1) true anc p.2)) ps) = Ok b →
  MAX_NESTING_DEPTH - depth < Z.of_nat m →
  ∃ ts, Forall2 property_arrives ps ts ∧ reads c m depth b (VObject (build_object ts)).
Proof.
  intros Hd [Hlen Hok] Hw Hm. destruct (fuel_S depth m Hd Hm) as (m' & -> & Hm').
  apply andthen_pure in Hw as (b2 & Hw & ->).
  destruct (good_properties (depth + 1) anc ps b2 m' ltac:(lia) Hok Hw Hm') as (bts & -> & Hl & Hts & Hr).
  exists bts.*2. split; [done|]. rewrite <- Hl. apply reads_object; [rewrite same_depth; lia|lia|done].
Qed.

Lemma good_set depth anc ms b m : 0 ≤ depth → depth + 1 ≤ MAX_NESTING_DEPTH → members_ok jsval_ok ms →
  andthen (Ok (writeTag TAG_SET ++ writeHeader 4 (Z.of_nat (length ms))))
    (write_each (writeValue heap n (depth + 2) true anc) ms) = Ok b →
  MAX_NESTING_DEPTH - depth < Z.of_nat m →
  ∃ ts, Forall2 (arrives true) ms ts ∧ reads c m depth b (VSet (new_Set ts)).
Proof.
  intros Hd Hd1 Hok Hw Hm. destruct (fuel_S depth m ltac:(lia) Hm) as (m' & -> & Hm').
  apply andthen_pure in Hw as (b2 & Hw & ->). replace (depth + 2) with (depth + 1 + 1) in Hw by lia.
  destruct (good_array (depth + 1) anc ms _ m' ltac:(lia) Hok ltac:(by unfold andthen; rewrite Hw) Hm') as (ts & Hts & Hr).
  exists ts. split; [done|]. rewrite <- app_assoc. eapply reads_tag; [done|done|rewrite same_depth; lia|exact Hr|done].
Qed.

End level.

(** ** Names of the rich types *)

Definition plain_name (k : utf16) : bool :=
  forallb (λ u, (0 <=? u) && (u <? 0x80)) k && (length (TextEncoder_encode k) <=? 21)%nat.

Lemma plain_name_spec k : plain_name k = true → Forall code_unit k ∧ received k = k ∧ fits c (length (TextEncoder_encode k)).
Proof.
  intros [Ha Hl]%andb_true_iff. apply Nat.leb_le in Hl.
  assert (Hu : Forall (λ u, 0 ≤ u < 0x80) k).
  { apply Forall_forall. intros u Hu%list_elem_of_In. rewrite forallb_forall in Ha. specialize (Ha u Hu). lia. }
  split_and!; [|by apply received_ascii|].
  - eapply Forall_impl; [exact Hu|]. unfold code_unit. lia.
  - split; [lia|]. destruct room_for_names as [?|Hr]; [by left|right]. unfold MAX_BIGNUM_BYTES in Hr. lia.
Qed.

Lemma binary_name k e : element_bytes binary_kinds k = Some e →
  plain_name k = true ∧ k ≠ text "BidirectionalMap" ∧ k ≠ text "BidirectionalMultiMap" ∧ k ≠ text "RegExp" ∧ k ≠ text "Error".
Proof.
  unfold binary_kinds. cbn [app element_bytes]. repeat (case_bool_decide; [intros _; subst; by vm_compute|]).
  destruct has_Float16Array; cbn [element_bytes]; [|done]. case_bool_decide; [intros _; subst; by vm_compute|done].
Qed.

Lemma read_text m depth s : text_ok s → depth ≤ MAX_NESTING_DEPTH → reads c (S m) depth (writeString s) (VString (received s)).
Proof. intros [Hs Hf] Hd. apply reads_string; [done|done|]. by rewrite same_depth. Qed.

Lemma read_name m depth k : plain_name k = true → depth ≤ MAX_NESTING_DEPTH → reads c (S m) depth (writeString k) (VString k).
Proof.
  intros Hk Hd. destruct (plain_name_spec k Hk) as (Hu & Hr & Hf). rewrite <- Hr at 2. apply read_text; [by split|done].
Qed.

(** [27([name, ...])] entered with fuel to spare. *)
Lemma read_generic m depth k arity (bts : list (list Z * value)) t : plain_name k = true →
  0 ≤ depth → depth + 2 ≤ MAX_NESTING_DEPTH → arity = Z.of_nat (S (length bts)) → Z.of_nat (length bts) < 2 ^ 52 →
  Forall (λ bt, reads c (S m) (depth + 2) bt.1 bt.2) bts →
  readGenericObject (VArray (VString k :: bts.*2)) = Ok t →
  reads c (S (S (S m))) depth (generic_head k arity ++ concat bts.*1) t.
Proof.
  intros Hk H0 Hd Ha Hl Hb Hv. destruct (plain_name_spec k Hk) as (Hu & Hr & Hf).
  apply reads_generic; [done|done|rewrite same_depth; lia|done|done|done|]. by rewrite Hr.
Qed.

Lemma read_primitive m depth p b : prim_ok p → 0 ≤ depth ≤ MAX_NESTING_DEPTH → writePrimitive depth p = Ok b →
  MAX_NESTING_DEPTH - depth < Z.of_nat m → reads c m depth b (prim_arrives p).
Proof.
  intros Hp Hd Hw Hm. destruct (fuel_S depth m Hd Hm) as (m' & -> & Hm').
  assert (Hd' : depth ≤ maxNestingDepth c) by (rewrite same_depth; lia).
  destruct p as [| |x|n|z|s|]; cbn [writePrimitive prim_as] in *.
  - injection Hw as <-. by apply reads_simple.
  - injection Hw as <-. by apply reads_simple.
  - injection Hw as <-. destruct x; by apply reads_simple.
  - destruct n as [z|bits]; injection Hw as <-; [by apply reads_int|by apply reads_double].
  - unbind. unfold requireDepth in Hok. apply throw_if_Ok in Hok. rewrite Z.gtb_ltb in Hok. apply Z.ltb_ge in Hok.
    destruct (fuel_S (depth + 1) m' ltac:(lia) Hm') as (m'' & -> & _).
    unfold writeBigInt in Hw. rewrite Z.geb_leb in Hw. set (mag := if 0 <=? z then z else - z - 1) in *.
    assert (Hmag : 0 ≤ mag) by (unfold mag; destruct (Z.leb_spec 0 z); lia).
    destruct (Z.gtb_spec mag MAX_BIGNUM_MAGNITUDE) as [?|Hmax]; [done|].
    assert (Hl := bigIntToBytes_length mag ltac:(lia)). injection Hw as <-.
    assert (Hlf : fits c (length (bigIntToBytes mag))).
    { split; [lia|]. destruct room_for_names as [?|Hr]; [by left|right]. unfold MAX_BIGNUM_BYTES in Hr. lia. }
    eapply reads_tag; [by destruct (0 <=? z)|by destruct (0 <=? z)|done|by apply reads_bytes; [|rewrite same_depth]|].
    assert (Hv : applyTag (if 0 <=? z then TAG_UNSIGNED_BIGNUM else TAG_NEGATIVE_BIGNUM) (VBytes (bigIntToBytes mag)) =
              Ok (VBigInt (if 0 <=? z then mag else - 1 - mag))).
    { unfold applyTag. assert (Hs : (Z.of_nat (length (bigIntToBytes mag)) >? MAX_BIGNUM_BYTES) = false).
      { unfold MAX_BIGNUM_BYTES. rewrite Z.gtb_ltb. apply Z.ltb_ge. lia. }
      pose proof (bytesToBigInt_bigIntToBytes mag Hmag) as Hb.
      destruct (0 <=? z); cbn -[bigIntToBytes MAX_BIGNUM_BYTES Z.gtb bytesToBigInt]; by rewrite Hs, Hb. }
    assert (Hz : (if 0 <=? z then mag else - 1 - mag) = z) by (unfold mag; destruct (0 <=? z); lia).
    rewrite Hz in Hv. cbn [prim_as]. by destruct (0 <=? z).
  - injection Hw as <-. apply read_text; [done|lia].
  - done.
Qed.

(** ** The whole encoder *)

Lemma throw_if_depth d : requireDepth d = Ok () → d ≤ MAX_NESTING_DEPTH.
Proof. unfold requireDepth. intros Hd%throw_if_Ok. rewrite Z.gtb_ltb in Hd. by apply Z.ltb_ge in Hd. Qed.

Section step.
Context (n : nat) (IH : good n).

(** The two maps that travel as [27([name, map])]. *)
Lemma good_generic_map depth anc name es b m build : plain_name (text name) = true → 0 ≤ depth →
  depth + 2 ≤ MAX_NESTING_DEPTH → members_ok (λ e, jsval_ok e.1 ∧ jsval_ok e.2) es →
  andthen (Ok (generic_head (text name) 2)) (writeMapBody (writeValue heap n (depth + 2 + 1) true anc) es) = Ok b →
  MAX_NESTING_DEPTH - depth < Z.of_nat m →
  (∀ ts, Forall2 entry_arrives es ts → readGenericObject (VArray [VString (text name); VMap (new_Map ts)]) = Ok (build ts)) →
  ∃ ts, Forall2 entry_arrives es ts ∧ reads c m depth b (build ts).
Proof.
  intros Hname H0 Hd Hok Hw Hm Hb. destruct (fuel_3 depth m Hd Hm) as (m3 & -> & Hm3).
  apply andthen_pure in Hw as (b2 & Hw & ->).
  destruct (good_map_body n IH (depth + 2) anc es b2 (S m3) ltac:(lia) Hok Hw ltac:(lia)) as (ts & Hts & Hr).
  exists ts. split; [done|]. rewrite <- (app_nil_r b2).
  apply (read_generic m3 depth (text name) 2 [(b2, VMap (new_Map ts))]); [done|done|lia|done|done| |by apply Hb].
  by repeat constructor.
Qed.

Lemma good_regexp depth source flags b m : text_ok source → text_ok flags → 0 ≤ depth → depth + 2 ≤ MAX_NESTING_DEPTH →
  b = generic_head (text "RegExp") 3 ++ writeString source ++ writeString flags → MAX_NESTING_DEPTH - depth < Z.of_nat m →
  ∀ s f, new_RegExp (received source) (received flags) = Some (s, f) → reads c m depth b (VRegExp s f).
Proof.
  intros Hs Hf H0 Hd -> Hm s f Hr. destruct (fuel_3 depth m Hd Hm) as (m3 & -> & Hm3).
  rewrite <- (app_nil_r (writeString flags)).
  apply (read_generic m3 depth (text "RegExp") 3
    [(writeString source, VString (received source)); (writeString flags, VString (received flags))]);
    [done|done|lia|done|done| |].
  - repeat constructor; apply read_text; done || lia.
  - cbn. rewrite Hr. done.
Qed.

Lemma good_binary depth kind bytes m : (fits c (length bytes) ∧ ∃ e, element_bytes binary_kinds kind = Some e ∧
    Z.of_nat (length bytes) mod e = 0) → 0 ≤ depth → depth + 2 ≤ MAX_NESTING_DEPTH →
  MAX_NESTING_DEPTH - depth < Z.of_nat m → reads c m depth (generic_head kind 2 ++ writeBytes bytes) (VBinary kind bytes).
Proof.
  intros (Hf & e & He & Hmod) H0 Hd Hm. destruct (fuel_3 depth m Hd Hm) as (m3 & -> & Hm3).
  destruct (binary_name kind e He) as (Hk & Hn1 & Hn2 & Hn3 & Hn4). rewrite <- (app_nil_r (writeBytes bytes)).
  apply (read_generic m3 depth kind 2 [(writeBytes bytes, VBytes bytes)]); [done|done|lia|done|done| |].
  - repeat constructor. apply reads_bytes; [done|rewrite same_depth; lia].
  - cbn [fmap list_fmap snd readGenericObject]. rewrite !bool_decide_eq_false_2 by done. rewrite He. cbn [buildBinaryView].
    by rewrite (proj2 (Z.eqb_eq _ _) Hmod).
Qed.

Lemma read_named m depth k b t : plain_name k = true → depth ≤ MAX_NESTING_DEPTH → reads c (S m) depth b t →
  reads_named (S m) depth (writeString k ++ b) (k, t).
Proof.
  intros Hk Hd Hr. destruct (plain_name_spec k Hk) as (Hu & Hrk & Hf). split.
  - unfold writeString. rewrite <- app_assoc. apply writeHeader_nonempty.
  - pose proof (reads_property c m depth k b t Hu Hf ltac:(by rewrite same_depth) Hr) as Hp. by rewrite Hrk in Hp.
Qed.

(** A property that an error has or does not have. *)
Lemma optional_property depth anc k v (present : bool) b m : plain_name k = true → 0 ≤ depth ≤ MAX_NESTING_DEPTH →
  jsval_ok v →
  (if present then andthen (Ok (writeString k)) (writeValue heap n depth true anc v) else Ok []) = Ok b →
  MAX_NESTING_DEPTH - depth < Z.of_nat m →
  ∃ bts v', b = concat bts.*1 ∧ Forall (λ bt, reads_named m depth bt.1 bt.2) bts ∧
    Z.of_nat (length bts) = (if present then 1 else 0) ∧
    (bts.*2 = [] ∧ v' = None ∨ ∃ t, bts.*2 = [(k, t)] ∧ v' = Some t) ∧
    (present = false → v' = None) ∧ (present = true → ∃ t, v' = Some t ∧ arrives true v t).
Proof.
  intros Hk Hd Hv Hw Hm. destruct present; [|injection Hw as <-; exists [], None; split_and!; auto; done].
  apply andthen_pure in Hw as (b2 & Hw & ->). destruct (fuel_S depth m Hd Hm) as (m' & -> & _).
  destruct (IH depth true anc v b2 (S m') ltac:(lia) Hv Hw Hm) as (t & Ht & Hr).
  exists [(writeString k ++ b2, (k, t))], (Some t).
  split_and!; [by cbn [fmap list_fmap fst concat]; rewrite app_nil_r| |done|right; by exists t|done|by exists t].
  constructor; [|done]. by apply read_named; [|lia|].
Qed.

Lemma arrives_array_inv v t : is_array heap v = true → arrives true v t → ∃ ts, t = VArray ts.
Proof.
  intros Ha Ht. destruct v as [|l]; [done|]. cbn in Ha. destruct (heap l) eqn:El; try done.
  inversion Ht; simplify_eq; try congruence; [by eexists|..]; 
    match goal with E : heap l = OBoxed _ |- _ => congruence | _ => idtac end.
Qed.

(** Where an error ends up. *)
Lemma buildError_object name message (causes errors : list (utf16 * value)) cause' errors' :
  (causes = [] ∧ cause' = None ∨ ∃ t, causes = [(text "cause", t)] ∧ cause' = Some t) →
  (errors = [] ∧ errors' = None ∨ ∃ ts, errors = [(text "errors", VArray ts)] ∧ errors' = Some ts) →
  buildError [VObject (build_object ([(text "name", VString name); (text "message", VString message)] ++ causes ++ errors))]
    = Ok (rebuildError name message cause' errors').
Proof. intros [[-> ->]|(t & -> & ->)] [[-> ->]|(ts & -> & ->)]; reflexivity. Qed.

Lemma good_error depth anc name message cause errors b m : text_ok name → text_ok message → jsval_ok cause → jsval_ok errors →
  0 ≤ depth → depth + 3 ≤ MAX_NESTING_DEPTH →
  andthen (Ok (generic_head (text "Error") 2
            ++ writeHeader 5 (2 + (if is_undefined cause then 0 else 1) + (if is_array heap errors then 1 else 0))
            ++ writeString (text "name") ++ writeString name ++ writeString (text "message") ++ writeString message))
    (andthen (if is_undefined cause then Ok []
              else andthen (Ok (writeString (text "cause"))) (writeValue heap n (depth + 3) true anc cause))
             (if is_array heap errors
              then andthen (Ok (writeString (text "errors"))) (writeValue heap n (depth + 3) true anc errors)
              else Ok [])) = Ok b →
  MAX_NESTING_DEPTH - depth < Z.of_nat m →
  ∃ cause' errors', reads c m depth b (rebuildError (received name) (received message) cause' errors') ∧
    (is_undefined cause = true → cause' = None) ∧
    (is_undefined cause = false → ∃ t, cause' = Some t ∧ arrives true cause t) ∧
    (is_array heap errors = false → errors' = None) ∧
    (is_array heap errors = true → ∃ ts, errors' = Some ts ∧ arrives true errors (VArray ts)).
Proof.
  intros Hn Hmsg Hc He H0 Hd Hw Hm. destruct (fuel_3 depth m ltac:(lia) Hm) as (m3 & -> & Hm3).
  destruct (fuel_S (depth + 3) m3 ltac:(lia) Hm3) as (m4 & -> & _).
  apply andthen_pure in Hw as (b2 & Hw & ->). apply andthen_Ok in Hw as (bc & be & Hbc & Hbe & ->).
  assert (Hbc' : (if negb (is_undefined cause) then andthen (Ok (writeString (text "cause"))) (writeValue heap n (depth + 3) true anc cause)
                  else Ok []) = Ok bc) by (by destruct (is_undefined cause)).
  destruct (optional_property (depth + 3) anc (text "cause") cause _ bc (S m4) eq_refl ltac:(lia) Hc Hbc' Hm3)
    as (pc & cause' & -> & Hrc & Hlc & Hvc & Hc0 & Hc1).
  destruct (optional_property (depth + 3) anc (text "errors") errors _ be (S m4) eq_refl ltac:(lia) He Hbe Hm3)
    as (pe & errors_ & -> & Hre & Hle & Hve & He0 & He1).
  assert (He2 : ∃ errors', (pe.*2 = [] ∧ errors' = None ∨ ∃ ts, pe.*2 = [(text "errors", VArray ts)] ∧ errors' = Some ts) ∧
    (is_array heap errors = false → errors' = None) ∧
    (is_array heap errors = true → ∃ ts, errors' = Some ts ∧ arrives true errors (VArray ts))).
  { destruct (is_array heap errors) eqn:Ea.
    - destruct (He1 eq_refl) as (t & -> & Ht). destruct (arrives_array_inv errors t Ea Ht) as [ts ->].
      exists (Some ts). destruct Hve as [[_ ?]|(t & Hpe & [= <-])]; [done|]. split_and!; [right; by exists ts|done|by exists ts].
    - specialize (He0 eq_refl) as ->. exists None. destruct Hve as [[Hpe _]|(t & _ & ?)]; [|done].
      split; [left; by split|by split]. }
  destruct He2 as (errors' & Hve' & He0' & He1'). exists cause', errors'.
  split_and!; [|intros Hu; apply Hc0; by rewrite Hu|intros Hu; apply Hc1; by rewrite Hu|done|done].
  set (own := [(writeString (text "name") ++ writeString name, (text "name", VString (received name)));
               (writeString (text "message") ++ writeString message, (text "message", VString (received message)))]).
  assert (Hobj : reads c (S (S m4)) (depth + 2)
    (writeHeader 5 (Z.of_nat (length (own ++ pc ++ pe))) ++ concat (own ++ pc ++ pe).*1)
    (VObject (build_object (own ++ pc ++ pe).*2))).
  { apply reads_object; [rewrite same_depth; lia| |].
    - rewrite !length_app. simpl. destruct (is_undefined cause), (is_array heap errors); simpl in *; lia.
    - replace (depth + 2 + 1) with (depth + 3) by lia. repeat (apply Forall_app; split); [|exact Hrc|exact Hre].
      apply Forall_cons; split; [|apply Forall_cons; split; [|constructor]]; cbn [fst snd];
        (apply read_named; [done|lia|apply read_text; [done|lia]]). }
  set (bo := writeHeader 5 _ ++ _) in Hobj.
  assert (Hbytes : generic_head (text "Error") 2 ++ bo ++ [] = (generic_head (text "Error") 2
    ++ writeHeader 5 (2 + (if is_undefined cause then 0 else 1) + (if is_array heap errors then 1 else 0))
    ++ writeString (text "name") ++ writeString name ++ writeString (text "message") ++ writeString message)
    ++ concat pc.*1 ++ concat pe.*1).
  { unfold bo. rewrite app_nil_r, !fmap_app, !concat_app, !length_app, <- !app_assoc. do 2 f_equal.
    - f_equal. simpl. destruct (is_undefined cause), (is_array heap errors); simpl in *; lia.
    - cbn [own fmap list_fmap fst concat]. by rewrite app_nil_r, <- !app_assoc. }
  rewrite <- Hbytes. change (bo ++ []) with (concat [(bo, VObject (build_object (own ++ pc ++ pe).*2))].*1).
  apply read_generic; [done|done|lia|done|done| |].
  - repeat constructor. exact Hobj.
  - change (readGenericObject _) with (buildError [VObject (build_object (own ++ pc ++ pe).*2)]).
    rewrite !fmap_app. by apply buildError_object.
Qed.
Lemma good_date depth time b m : 0 ≤ depth → depth + 1 ≤ MAX_NESTING_DEPTH →
  b = writeTag TAG_EPOCH_DATETIME ++ writeDouble (epoch_seconds time) → MAX_NESTING_DEPTH - depth < Z.of_nat m →
  reads c m depth b (VDate (through_seconds time)).
Proof.
  intros H0 Hd -> Hm. destruct (fuel_S depth m ltac:(lia) Hm) as (m1 & -> & Hm1).
  destruct (fuel_S (depth + 1) m1 ltac:(lia) Hm1) as (m2 & -> & _).
  apply (reads_tag c (S m2) depth TAG_EPOCH_DATETIME _ (VNumber (epoch_seconds time)));
    [done|done|rewrite same_depth; lia| |reflexivity]. apply reads_double; [|rewrite same_depth; lia].
  unfold epoch_seconds. destruct time; [apply wf_of_spec_float|]. split; [unfold QUIET_NAN; lia|done].
Qed.

Lemma good_url depth href h m : 0 ≤ depth → depth + 1 ≤ MAX_NESTING_DEPTH → text_ok href →
  new_URL (received href) = Some h → MAX_NESTING_DEPTH - depth < Z.of_nat m →
  reads c m depth (writeTag TAG_URI ++ writeString href) (VURL h).
Proof.
  intros H0 Hd Hh Hu Hm. destruct (fuel_S depth m ltac:(lia) Hm) as (m1 & -> & Hm1).
  destruct (fuel_S (depth + 1) m1 ltac:(lia) Hm1) as (m2 & -> & _).
  eapply reads_tag; [done|done|rewrite same_depth; lia|by apply read_text; [|lia]|]. cbn. by rewrite Hu.
Qed.

(** The rows of a multi map arrive as sets. *)
Lemma rows_are_sets rows ts : Forall (λ e, jsval_ok e.1 ∧ ∃ l ms, e.2 = Ref l ∧ heap l = OSet ms) rows →
  Forall2 entry_arrives rows ts → Forall (λ t, ∃ ms, t.2 = VSet ms) (new_Map ts).
Proof.
  intros Hok Hts. assert (Hall : Forall (λ t, ∃ ms, t.2 = VSet ms) ts).
  { induction Hts as [|e t rows ts [_ He] _ IHs]; [done|]. apply Forall_cons in Hok as [(_ & l & ms & Hl & Hs) Hok].
    constructor; [|by apply IHs]. rewrite Hl in He. inversion He; simplify_eq; try congruence. by eexists. }
  unfold new_Map. assert (Hput : ∀ es k v, Forall (λ t : value * value, ∃ ms, t.2 = VSet ms) es → (∃ ms, v = VSet ms) →
    Forall (λ t, ∃ ms, t.2 = VSet ms) (map_put es k v)).
  { intros es k v Hes Hv. induction Hes as [|[k' v'] es He Hes IHs]; cbn; [by repeat constructor|].
    destruct (same k' k); by constructor. }
  clear Hts Hok. assert (H0 : Forall (λ t : value * value, ∃ ms, t.2 = VSet ms) []) by done. revert H0.
  generalize (@nil (value * value)). induction Hall as [|t ts Ht _ IHs]; intros es Hes; [done|]. apply IHs. by apply Hput.
Qed.

Lemma read_rows rows : Forall (λ t : value * value, ∃ ms, t.2 = VSet ms) rows →
  readGenericObject (VArray [VString (text "BidirectionalMultiMap"); VMap rows]) =
  Ok (VBidirectionalMultiMap (List.filter (λ row, match row.2 with VSet [] => false | _ => true end) rows)).
Proof.
  intros Hr. cbn -[text]. assert (Hf : forallb (λ row : value * value, match row.2 with VSet _ => true | _ => false end) rows = true).
  { induction Hr as [|[k v] rows (ms & Hv) _ IHr]; [done|]. cbn in *. by subst v. }
  unfold buildBidirectionalMultiMap. by rewrite Hf.
Qed.

(** [enterContainer] let the walk in. *)
Ltac entered := match goal with H : context [bool_decide (?l ∈ ?anc)] |- _ => destruct (bool_decide (l ∈ anc)); [discriminate H|] end.

Ltac depth_check Hw := apply result_bind_Ok in Hw as ([] & Hd1%throw_if_depth & Hw).

Lemma good_step : good (S n).
Proof.
  intros depth allow anc v b m H0 Hv Hw Hm. cbn [writeValue] in Hw. cbv zeta in Hw.
  unfold writeArray, writeMap, writeBidirectionalMap, writeSet, writeBidirectionalMultiMap, writeBinaryView, writeRegExp,
    writeError, writeObject, enterContainer in Hw. rewrite Z.gtb_ltb in Hw.
  destruct (Z.ltb_spec MAX_NESTING_DEPTH depth) as [|Hd]; [done|].
  destruct v as [p|l]; [exists (prim_arrives p); split; [constructor|by apply read_primitive]|].
  pose proof (objects_ok l) as Hl. destruct (heap l) as [bytes|time|es|rows|es|ms|kind bytes|source flags|href|
    name message cause errors|p| |items|toJSON ps] eqn:El; cbn [object_ok] in Hl.
  - injection Hw as <-. exists (VBytes bytes). split; [by constructor|]. destruct (fuel_S depth m ltac:(lia) Hm) as (m' & -> & _).
    apply reads_bytes; [done|rewrite same_depth; lia].
  - depth_check Hw. injection Hw as <-. exists (VDate (through_seconds time)). split; [by constructor|by apply good_date].
  - depth_check Hw. entered.
    destruct (good_generic_map depth _ "BidirectionalMap" es b m (λ ts, VBidirectionalMap (new_BidirectionalMap (new_Map ts)))
      eq_refl H0 Hd1 Hl Hw Hm) as (ts & Hts & Hr); [done|]. eexists. split; [by eapply tree_bidirectional|exact Hr].
  - depth_check Hw. entered. destruct Hl as [Hlen Hrows].
    destruct (good_generic_map depth ({[l]} ∪ anc) "BidirectionalMultiMap" rows b m
      (λ ts, VBidirectionalMultiMap (List.filter (λ row, match row.2 with VSet [] => false | _ => true end) (new_Map ts)))
      eq_refl H0 Hd1) as (ts & Hts & Hr); [|exact Hw|done| |].
    + split; [done|]. eapply Forall_impl; [exact Hrows|]. by intros e (? & l' & ms & -> & _).
    + intros ts Hts. by apply read_rows, (rows_are_sets rows).
    + eexists. split; [by eapply tree_multi|exact Hr].
  - entered. destruct (good_map_body n IH depth _ es b m ltac:(lia) Hl Hw Hm) as (ts & Hts & Hr).
    eexists. split; [by eapply tree_map|exact Hr].
  - depth_check Hw. entered. destruct (good_set n IH depth _ ms b m H0 Hd1 Hl Hw Hm) as (ts & Hts & Hr).
    eexists. split; [by eapply tree_set|exact Hr].
  - destruct kind as [kind|]; [|done]. depth_check Hw. injection Hw as <-. exists (VBinary kind bytes).
    split; [by constructor|]. apply good_binary; [by apply Hl|done..].
  - depth_check Hw. injection Hw as <-. destruct Hl as (Hs & Hf & [[s f] Hr]). exists (VRegExp s f).
    split; [by eapply tree_regexp|]. by apply (good_regexp depth source flags _ m Hs Hf).
  - depth_check Hw. injection Hw as <-. destruct Hl as (Hh & [h Hu]). exists (VURL h).
    split; [by eapply tree_url|by apply good_url].
  - depth_check Hw. entered. destruct Hl as (Hn & Hmsg & Hc & He).
    destruct (good_error depth _ name message cause errors b m Hn Hmsg Hc He H0 Hd1 Hw Hm) as (c' & e' & Hr & ? & ? & ? & ?).
    eexists. split; [by eapply tree_error|exact Hr].
  - destruct (IH depth false anc (Prim p) b m H0 Hl Hw Hm) as (t & Ht & Hr). inversion Ht; subst.
    eexists. split; [by eapply tree_boxed|exact Hr].
  - done.
  - entered. destruct (good_array n IH depth _ items b m ltac:(lia) Hl Hw Hm) as (ts & Hts & Hr).
    eexists. split; [by eapply tree_array|exact Hr].
  - destruct Hl as [Hj Hps]. destruct (if allow then toJSON else None) as [replacement|] eqn:Ej.
    + destruct allow; [|done]. subst toJSON. destruct (IH depth false anc replacement b m H0 (Hj _ eq_refl) Hw Hm) as (t & Ht & Hr).
      exists t. split; [by eapply tree_toJSON|exact Hr].
    + entered. destruct (good_object n IH depth _ ps b m ltac:(lia) Hps Hw Hm) as (ts & Hts & Hr).
      eexists. split; [eapply tree_object; [exact El| |exact Hts]|exact Hr]. by intros ->.
Qed.

End step.

Lemma good_all n : good n.
Proof. induction n as [|n IH]; [intros ????????; done|by apply good_step]. Qed.

(** ** Values that travel unchanged *)

(** No unpaired surrogate and no leading byte order mark. *)
Definition whole_text (s : utf16) : Prop := scalar_text s = s ∧ head s ≠ Some BOM.

Lemma received_whole s : whole_text s → received s = s.
Proof.
  intros [Hs Hb]. unfold received. rewrite Hs. destruct s as [|u s]; [done|]. simpl in Hb.
  destruct (Z.eqb_spec u BOM) as [->|]; done.
Qed.

Definition jsval_kept (v : jsval) : Prop := match v with Prim (PString s) => whole_text s | _ => True end.

(** Every text is whole, and every time survives the way through seconds. *)
Definition object_kept (o : object) : Prop :=
  match o with
  | ODate time => through_seconds time = time
  | OBidirectionalMap es | OBidirectionalMultiMap es | OMap es => Forall (λ e, jsval_kept e.1 ∧ jsval_kept e.2) es
  | OSet items | OArray items => Forall jsval_kept items
  | ORegExp source flags => whole_text source ∧ whole_text flags
  | OURL href => whole_text href
  | OError name message cause errors => whole_text name ∧ whole_text message ∧ jsval_kept cause ∧ jsval_kept errors
  | OBoxed p => jsval_kept (Prim p)
  | OObject toJSON properties =>
      (∀ v, toJSON = Some v → jsval_kept v) ∧ Forall (λ p, whole_text p.1 ∧ jsval_kept p.2) properties
  | OBytes _ | OBinary _ _ | ORefused => True
  end.

Lemma prim_kept p : jsval_kept (Prim p) → prim_arrives p = prim_as id p.
Proof. destruct p; try done. intros Hs. cbn [prim_as]. by rewrite received_whole. Qed.

Section unchanged.
Hypothesis heap_kept : ∀ l, object_kept (heap l).

(** The members of a container, by the statement for each. *)
Local Ltac kept_members IH El Hts Hk :=
  let IHs := fresh in
  clear El; induction Hts as [|e t es ts Ht _ IHs]; [done|]; apply Forall_cons in Hk as [Hke Hk]; constructor; [|by apply IHs];
  first [by apply IH | destruct Ht, Hke; split; by apply IH
        | destruct Ht as [Hname Ht], Hke as [Hwhole Hke]; rewrite (received_whole _ Hwhole) in Hname; split; [exact Hname|by apply IH]].

(** What arrives of such a value is what was sent. *)
Lemma kept_arrives : ∀ allow v t, arrives allow v t → jsval_kept v → stands_for allow v t.
Proof.
  fix IH 4. intros allow v t Ht Hv.
  destruct Ht as [allow p|allow l b El|allow l time El|allow l es ts El Hts|allow l rows ts El Hts|allow l es ts El Hts
    |allow l ms ts El Hts|allow l kind b El|allow l source flags s f El Hp|allow l href h El Hp
    |allow l name message cause errors cause' errors' El Hc0 Hc1 He0 He1|allow l p El|allow l items ts El Hts
    |l v properties t El Ht|allow l toJSON properties ts El Hj Hts];
    try (pose proof (heap_kept l) as Hk; rewrite El in Hk; cbn [object_kept] in Hk; clear Hv).
  - rewrite prim_kept by done. constructor.
  - by constructor.
  - rewrite Hk. by apply (tree_date id id allow l time).
  - apply (tree_bidirectional id id allow l es ts El). kept_members IH El Hts Hk.
  - apply (tree_multi id id allow l rows ts El). kept_members IH El Hts Hk.
  - apply (tree_map id id allow l es ts El). kept_members IH El Hts Hk.
  - apply (tree_set id id allow l ms ts El). kept_members IH El Hts Hk.
  - by constructor.
  - destruct Hk as [Hs Hf]. rewrite (received_whole source Hs), (received_whole flags Hf) in Hp.
    by apply (tree_regexp id id allow l source flags).
  - rewrite (received_whole href Hk) in Hp. by apply (tree_url id id allow l href).
  - destruct Hk as (Hn & Hm & Hc & He). rewrite (received_whole name Hn), (received_whole message Hm).
    apply (tree_error id id allow l name message cause errors cause' errors' El Hc0); [|exact He0|].
    + intros Hu. destruct (Hc1 Hu) as (t & -> & Ht). exists t. split; [done|by apply IH].
    + intros Hu. destruct (He1 Hu) as (ts & -> & Ht). exists ts. split; [done|by apply IH].
  - rewrite prim_kept by done. by apply tree_boxed.
  - apply (tree_array id id allow l items ts El). kept_members IH El Hts Hk.
  - apply (tree_toJSON id id l v properties t El). apply IH; [exact Ht|by apply Hk].
  - destruct Hk as [_ Hk]. apply (tree_object id id allow l toJSON properties ts El Hj). kept_members IH El Hts Hk.
Qed.

End unchanged.

(** C15. Whatever the encoder writes, the decoder of a peer reads to the end of
    the bytes, when its limits leave room for it ([Matching]), as the tree that
    the value stands for with each text as UTF-8 leaves it, unpaired surrogates
    replaced and a leading mark gone, and each time as it comes back from
    seconds; and as that very tree when every text is whole and every time
    survives. *)
Theorem cbor_encoded_is_decoded (v : jsval) (b : list Z) :
  jsval_ok v → encode heap v = Ok b →
  ∃ t, decode c b = Ok t ∧ arrives true v t ∧ (jsval_kept v → (∀ l, object_kept (heap l)) → stands_for true v t).
Proof.
  intros Hv Hw. destruct (good_all _ 0 true ∅ v b (decode_fuel c) ltac:(lia) Hv Hw) as (t & Ht & Hr).
  - unfold decode_fuel. rewrite same_depth. unfold MAX_NESTING_DEPTH. lia.
  - exists t. split; [unfold decode; specialize (Hr []); rewrite app_nil_r in Hr; by rewrite Hr|]. split; [done|].
    intros Hk Hh. by apply kept_arrives.
Qed.

End arrival.

(** ** The encoder stops *)

Section encoder_stops.
Context (heap : positive → object).

Definition stops (e : encoded) : Prop := e ≠ Err EncodeFuel.

Lemma stops_andthen e1 e2 : stops e1 → stops e2 → stops (andthen e1 e2).
Proof. intros H1 H2. unfold andthen. destruct e1 as [a|e]; simpl; [|congruence]. destruct e2; simpl; congruence. Qed.

Lemma stops_each {A} (write : A → encoded) items : (∀ x, stops (write x)) → stops (write_each write items).
Proof. intros Hw. induction items as [|x items IH]; [done|]. by apply stops_andthen. Qed.

Lemma stops_primitive depth p : stops (writePrimitive depth p).
Proof.
  destruct p as [| |x|n|z|s|]; try done; [by destruct n|]. cbn. unfold requireDepth, throw_if. case_match; [done|].
  simpl. unfold writeBigInt. by case_match.
Qed.

Lemma stops_require depth e : stops e → stops (_ ← requireDepth depth; e).
Proof. intros He. unfold requireDepth, throw_if. by case_match. Qed.

Lemma stops_map_body write entries : (∀ v, stops (write v)) → stops (writeMapBody write entries).
Proof. intros Hw. apply stops_andthen; [done|]. apply stops_each. intros e. by apply stops_andthen. Qed.

(** The calls that a level may still take: a [toJSON] result and what it
    boxed. *)
Definition calls (allow : bool) (v : jsval) : Z :=
  match v, allow with Prim _, _ => 1 | Ref _, false => 2 | Ref _, true => 3 end.

Lemma writeValue_stops n : ∀ depth allow anc v, depth ≤ MAX_NESTING_DEPTH + 1 →
  3 * (MAX_NESTING_DEPTH + 1 - depth) + calls allow v ≤ Z.of_nat n → stops (writeValue heap n depth allow anc v).
Proof.
  induction n as [|n IH]; intros depth allow anc v Hd Hn; [unfold calls in Hn; destruct v, allow; lia|].
  cbn [writeValue]. cbv zeta. unfold writeArray, writeMap, writeBidirectionalMap, writeSet, writeBidirectionalMultiMap, writeBinaryView, writeRegExp,
    writeError, writeObject, enterContainer.
  rewrite Z.gtb_ltb. destruct (Z.ltb_spec MAX_NESTING_DEPTH depth); [done|].
  destruct v as [p|l]; [apply stops_primitive|].
  assert (Hdeep : ∀ k anc v, 1 ≤ k → depth + k ≤ MAX_NESTING_DEPTH + 1 → stops (writeValue heap n (depth + k) true anc v)).
  { intros k anc' v Hk Hk'. apply IH; [lia|]. unfold calls in *. destruct v, allow; lia. }
  assert (Hbelow : ∀ k anc v, 1 ≤ k ≤ 3 → depth + k - 1 ≤ MAX_NESTING_DEPTH → stops (writeValue heap n (depth + k) true anc v)).
  { intros k anc' v Hk Hk'. apply Hdeep; lia. }
  destruct (heap l) as [bytes|time|es|rows|es|ms|kind bytes|source flags|href|name message cause errors|p| |items|toJSON ps];
    try done; try (by apply stops_require).
  - unfold requireDepth, throw_if. rewrite Z.gtb_ltb. destruct (Z.ltb_spec MAX_NESTING_DEPTH (depth + 2)); [done|]. cbn [mbind result_bind].
    destruct (bool_decide (l ∈ anc)); [done|]. apply stops_andthen; [done|]. apply stops_map_body. intros v.
    replace (depth + 2 + 1) with (depth + 3) by lia. apply Hbelow; lia.
  - unfold requireDepth, throw_if. rewrite Z.gtb_ltb. destruct (Z.ltb_spec MAX_NESTING_DEPTH (depth + 2)); [done|]. cbn [mbind result_bind].
    destruct (bool_decide (l ∈ anc)); [done|]. apply stops_andthen; [done|]. apply stops_map_body. intros v.
    replace (depth + 2 + 1) with (depth + 3) by lia. apply Hbelow; lia.
  - destruct (bool_decide (l ∈ anc)); [done|]. apply stops_map_body. intros v. apply Hbelow; lia.
  - unfold requireDepth, throw_if. rewrite Z.gtb_ltb. destruct (Z.ltb_spec MAX_NESTING_DEPTH (depth + 1)); [done|]. cbn [mbind result_bind].
    destruct (bool_decide (l ∈ anc)); [done|]. apply stops_andthen; [done|]. apply stops_each. intros v. apply Hbelow; lia.
  - destruct kind; [by apply stops_require|done].
  - unfold requireDepth, throw_if. rewrite Z.gtb_ltb. destruct (Z.ltb_spec MAX_NESTING_DEPTH (depth + 3)); [done|]. cbn [mbind result_bind].
    destruct (bool_decide (l ∈ anc)); [done|]. apply stops_andthen; [done|].
    apply stops_andthen; [destruct (is_undefined cause)|destruct (is_array heap errors)]; try done;
      (apply stops_andthen; [done|apply Hbelow; lia]).
  - apply IH; [done|]. unfold calls in *. destruct allow; lia.
  - destruct (bool_decide (l ∈ anc)); [done|]. apply stops_andthen; [done|]. apply stops_each. intros v. apply Hbelow; lia.
  - destruct (if allow then toJSON else None) as [r|] eqn:Er.
    + destruct allow; [|done]. apply IH; [done|]. unfold calls in *. destruct r; lia.
    + destruct (bool_decide (l ∈ anc)); [done|]. apply stops_andthen; [done|]. apply stops_each. intros v. apply stops_andthen; [done|].
      apply Hbelow; lia.
Qed.

(** The encoder stops on every value of every heap, cyclic ones included:
    the depth check bounds the walk. *)
Theorem cbor_encoder_stops (v : jsval) : encode heap v ≠ Err EncodeFuel.
Proof.
  apply writeValue_stops; unfold MAX_NESTING_DEPTH; [lia|]. unfold encode_fuel, MAX_NESTING_DEPTH, calls.
  destruct v; vm_compute; done.
Qed.

End encoder_stops.

(** ** A concrete exchange *)

(** A host that takes every pattern and every address as it is written. *)
#[export] Instance example_host : Host :=
  {| new_RegExp s f := Some (s, f); new_URL s := Some s; Date_parse _ := None; has_Float16Array := false |}.

Definition example_objects : list object :=
  [ OArray [Prim (PNumber (Integral 5)); Ref 2; Ref 3; Ref 4; Prim (PString (text "hi")); Ref 5; Ref 6; Ref 2];
    OObject None [(text "a", Prim (PNumber (Integral (-70000)))); (text "b", Prim (PBigInt (- 2 ^ 70)))];
    ODate (Some 1710498030456);
    OSet [Prim PNull; Prim (PBoolean true); Prim (PNumber (Pattern MINUS_ZERO))];
    OError (text "TypeError") (text "no") (Ref 2) (Prim PUndefined);
    OBidirectionalMultiMap [(Prim (PString (text "k")), Ref 4)];
    OArray [Ref 7] ].

Definition example_heap (l : positive) : object := nth (Pos.to_nat l - 1) example_objects ORefused.

Definition example_tree : value :=
  let o := VObject [(text "a", VNumber (Integral (-70000))); (text "b", VBigInt (- 2 ^ 70))] in
  let s := VSet [VNull; VBoolean true; VNumber (Integral 0)] in
  VArray [VNumber (Integral 5); o; VDate (Some 1710498030456); s; VString (text "hi");
          VError (text "TypeError") (text "no") (Some o) None; VBidirectionalMultiMap [(VString (text "k"), s)]; o].

Definition example_bytes : list Z := match encode example_heap (Ref 1) with Ok b => b | Err _ => [] end.

Example example_exchange : encode example_heap (Ref 1) = Ok example_bytes ∧
  decode defaultReadConstraintsOptions example_bytes = Ok example_tree.
Proof. split; vm_compute; reflexivity. Qed.

(** A cycle is refused by the encoder. *)
Example example_cycle : encode example_heap (Ref 7) = Err CircularReference.
Proof. vm_compute. reflexivity. Qed.

#[export] Instance example_matching : Matching defaultReadConstraintsOptions example_heap.
Proof.
  assert (Ht : ∀ s, forallb (λ u, (0 <=? u) && (u <? 0x10000)) s && (length (TextEncoder_encode s) <=? 1000)%nat = true →
    text_ok defaultReadConstraintsOptions s).
  { intros s [Hu Hl]%andb_true_iff. apply Nat.leb_le in Hl. split.
    - apply Forall_forall. intros u Hin%list_elem_of_In. rewrite forallb_forall in Hu. specialize (Hu u Hin). unfold code_unit. lia.
    - split; [lia|right; simpl; lia]. }
  assert (Hall : Forall (object_ok defaultReadConstraintsOptions example_heap) (ORefused :: example_objects)).
  { unfold example_objects. repeat (apply Forall_cons; split); [..|by apply Forall_nil];
      cbn -[text TextEncoder_encode example_heap]; unfold members_ok, text_ok in *;
      repeat first [done | apply Ht; vm_compute; reflexivity | split | apply Forall_cons | apply Forall_nil_2
                   | exists 4%positive; eexists; split; vm_compute; reflexivity | unfold MAX_SAFE_INTEGER; lia | vm_compute; done]. }
  split; [done|by right|].
  intros l. unfold example_heap. apply Forall_cons in Hall as [H0 Hall].
  destruct (nth_in_or_default (Pos.to_nat l - 1) example_objects ORefused) as [Hin| ->]; [|exact H0].
  rewrite Forall_forall in Hall. by apply Hall, list_elem_of_In.
Qed.

(** Every text of the exchange above is whole, and its time survives. *)
Lemma example_kept l : object_kept (example_heap l).
Proof.
  assert (Ht : ∀ s, bool_decide (scalar_text s = s) && negb (bool_decide (head s = Some BOM)) = true → whole_text s).
  { intros s [Hs%bool_decide_eq_true Hb%negb_true_iff%bool_decide_eq_false]%andb_true_iff. by split. }
  assert (Hall : Forall object_kept (ORefused :: example_objects)).
  { unfold example_objects. repeat (apply Forall_cons; split); [..|by apply Forall_nil]; cbn [object_kept];
      repeat first [exact I | done | apply Ht; vm_compute; reflexivity | vm_compute; reflexivity | apply Forall_nil_2
                   | apply Forall_cons_2 | split]. }
  apply Forall_cons in Hall as [H0 Hall]. unfold example_heap.
  destruct (nth_in_or_default (Pos.to_nat l - 1) example_objects ORefused) as [Hin| ->]; [|exact H0].
  rewrite Forall_forall in Hall. by apply Hall, list_elem_of_In.
Qed.

(** The exchange above, whose values travel unchanged. *)
Lemma cbor_encoded_is_decoded_witness :
  encode example_heap (Ref 1) = Ok example_bytes ∧
  ∃ t, decode defaultReadConstraintsOptions example_bytes = Ok t ∧ tree_as example_heap id id true (Ref 1) t.
Proof.
  split; [vm_compute; reflexivity|].
  destruct (@cbor_encoded_is_decoded example_host defaultReadConstraintsOptions example_heap example_matching (Ref 1)
           example_bytes I ltac:(vm_compute; reflexivity)) as (t & Hd & _ & Ht).
  exists t. split; [exact Hd|]. apply Ht; [exact I|apply example_kept].
Defined.

(** A time that is not a whole number of seconds may lose a millisecond on the
    way through seconds. *)
Example date_loses_a_millisecond : through_seconds (Some 1001) = Some 1000 ∧ through_seconds (Some 1710498030456) = Some 1710498030456.
Proof. vm_compute. done. Qed.

(** A text that begins with a byte order mark loses it, so two keys of one
    object become one. *)
Example mark_is_lost : received (BOM :: text "a") = text "a" ∧
  build_object [(received (BOM :: text "a"), VNull); (received (text "a"), VUndefined)] = [(text "a", VUndefined)].
Proof. vm_compute. done. Qed.
