(* ===== verification/CborBounds.v ===== *)
(** * The CBOR codec against hostile bytes

    Whatever bytes it is given, the decoder of [Cbor] stops, and what it builds
    is no larger than what it read: one for each node, code unit and byte, up to
    the factor by which [new URL] and [new RegExp] of the host lengthen a text
    (a URL escapes a letter into up to nine characters, a pattern its slashes). *)

From S2P Require Import Prelude Utf8 Double Cbor CborRoundTrip.

Local Open Scope Z_scope.

(** ** The size of a value *)

(** The bytes of the magnitude of a bigint. *)
Definition bigint_bytes (z : Z) : nat :=
  let magnitude := if 0 <=? z then z else - z - 1 in
  length (bigint_loop (Z.to_nat (Z.log2 magnitude + 1)) magnitude).

(** The units of a text that a host lengthens up to [grow] times, shared out to
    the units it was given. *)
Definition shared_out (grow units : nat) : nat := (units + (grow - 1)) / grow.

(** One for each node, and one for each code unit and byte it carries; what the
    host made of a text counts by the text. *)
Fixpoint charge (grow : nat) (v : value) : nat :=
  match v with
  | VBigInt z => S (bigint_bytes z)
  | VString s => S (length s)
  | VBytes bytes | VBinary _ bytes => S (length bytes)
  | VURL href => shared_out grow (S (length href))
  | VRegExp source flags => shared_out grow (S (length source + length flags))
  | VArray items | VSet items => S (sum_list_with (charge grow) items)
  | VMap es | VBidirectionalMap es | VBidirectionalMultiMap es =>
      S (sum_list_with (λ e, (charge grow e.1 + charge grow e.2)%nat) es)
  | VObject ps => S (sum_list_with (λ p, (length p.1 + charge grow p.2)%nat) ps)
  | VError name message cause errors =>
      S (length name + length message + match cause with Some t => charge grow t | None => 0%nat end
         + match errors with Some ts => sum_list_with (charge grow) ts | None => 0%nat end)
  | _ => 1
  end.

(** The nodes, code units and bytes of a value, whoever made them. *)
Definition weight : value → nat := charge 1.

Lemma shared_out_1 n : shared_out 1 n = n.
Proof. unfold shared_out. by rewrite Nat.add_0_r, Nat.div_1_r. Qed.

Lemma shared_out_le grow n m : (1 ≤ grow)%nat → (n ≤ grow * m)%nat → (shared_out grow n ≤ m)%nat.
Proof.
  intros Hg Hn. unfold shared_out. apply Nat.lt_succ_r, Nat.Div0.div_lt_upper_bound. lia.
Qed.

Lemma shared_out_ge grow n : (1 ≤ grow)%nat → (n ≤ grow * shared_out grow n)%nat.
Proof.
  intros Hg. unfold shared_out. pose proof (Nat.div_mod_eq (n + (grow - 1)) grow).
  pose proof (Nat.mod_upper_bound (n + (grow - 1)) grow ltac:(lia)). lia.
Qed.

Section sizes.
Context (grow : nat) (Hgrow : (1 ≤ grow)%nat).
Local Abbreviation size := (charge grow).

Definition pair_weight (e : value * value) : nat := size e.1 + size e.2.
Definition property_weight (p : utf16 * value) : nat := length p.1 + size p.2.

Lemma weight_pos v : (1 ≤ size v)%nat.
Proof.
  destruct v; try (simpl; lia).
  - pose proof (shared_out_ge grow (S (length source + length flags)) Hgrow). simpl. lia.
  - pose proof (shared_out_ge grow (S (length href)) Hgrow). simpl. lia.
Qed.

(** What the host lengthened is no more than the factor says. *)
Lemma weight_size : ∀ v, (weight v ≤ grow * size v)%nat.
Proof.
  assert (H1 : ∀ n, (n ≤ grow * n)%nat) by (intros n; nia).
  fix IH 1. unfold weight in *. intros v.
  destruct v as [| |b|n|z|s|bs|t|k bs|s f|h|items|es|items|es|es|ps|n m cause errors]; cbn [charge]; try apply H1;
    try (rewrite shared_out_1; by apply shared_out_ge).
  1, 3: cut (sum_list_with (charge 1) items ≤ grow * sum_list_with size items)%nat; [lia|];
    induction items as [|x items IHl]; [simpl; lia|cbn [sum_list_with]; pose proof (IH x); lia].
  1-3: set (two g (e : value * value) := (charge g e.1 + charge g e.2)%nat);
    cut (sum_list_with (two 1%nat) es ≤ grow * sum_list_with (two grow) es)%nat; [unfold two; lia|];
    induction es as [|[k v] es IHl]; [simpl; lia|]; cbn [sum_list_with]; unfold two at 1 3; cbn [fst snd];
    pose proof (IH k); pose proof (IH v); lia.
  - set (named g (p : utf16 * value) := (length p.1 + charge g p.2)%nat).
    cut (sum_list_with (named 1%nat) ps ≤ grow * sum_list_with (named grow) ps)%nat; [unfold named; lia|].
    induction ps as [|[k v] ps IHl]; [simpl; lia|]. cbn [sum_list_with]. unfold named at 1 3. cbn [fst snd].
    pose proof (IH v). pose proof (H1 (length k)). lia.
  - pose proof (H1 (S (length n + length m))).
    assert (match cause with Some t => charge 1 t | None => 0 end ≤ grow * match cause with Some t => size t | None => 0 end)%nat
      by (destruct cause as [t|]; [apply IH|lia]).
    assert (match errors with Some ts => sum_list_with (charge 1) ts | None => 0 end ≤
      grow * match errors with Some ts => sum_list_with size ts | None => 0 end)%nat; [|lia].
    destruct errors as [ts|]; [|lia]. induction ts as [|x ts IHl]; [simpl; lia|]. cbn [sum_list_with]. pose proof (IH x). lia.
Qed.

Lemma weight_normal_key v : size (normal_key v) = size v.
Proof. destruct v as [| | |[z|bits]| | | | | | | | | | | | | |]; try done. simpl. by destruct (bits =? MINUS_ZERO). Qed.

Lemma sum_filter {A} (f : A → nat) (p : A → bool) l : (sum_list_with f (List.filter p l) ≤ sum_list_with f l)%nat.
Proof. induction l as [|x l IH]; [done|]. simpl. destruct (p x); simpl; lia. Qed.

Lemma weight_map_put es k v : (sum_list_with pair_weight (map_put es k v) ≤ sum_list_with pair_weight es + (size k + size v))%nat.
Proof.
  induction es as [|[k' v'] es IH]; [simpl; unfold pair_weight; simpl; lia|]. cbn [map_put].
  destruct (same k' k); simpl; unfold pair_weight in *; simpl in *; lia.
Qed.

Lemma weight_foldl {A B} (f : list A → B → list A) (wa : A → nat) (wb : B → nat) l acc :
  (∀ acc x, sum_list_with wa (f acc x) ≤ sum_list_with wa acc + wb x)%nat →
  (sum_list_with wa (foldl f acc l) ≤ sum_list_with wa acc + sum_list_with wb l)%nat.
Proof.
  intros Hf. revert acc. induction l as [|x l IH]; intros acc; simpl; [lia|].
  specialize (IH (f acc x)). specialize (Hf acc x). lia.
Qed.

Lemma weight_new_Map pairs : (sum_list_with pair_weight (new_Map pairs) ≤ sum_list_with pair_weight pairs)%nat.
Proof.
  apply (weight_foldl _ pair_weight pair_weight pairs []). intros es e.
  pose proof (weight_map_put es (normal_key e.1) e.2) as Hp. rewrite weight_normal_key in Hp. exact Hp.
Qed.

Lemma weight_new_BidirectionalMap es : (sum_list_with pair_weight (new_BidirectionalMap es) ≤ sum_list_with pair_weight es)%nat.
Proof.
  apply (weight_foldl _ pair_weight pair_weight es []). intros acc e.
  etransitivity; [apply weight_map_put|]. rewrite weight_normal_key.
  pose proof (sum_filter pair_weight (λ e', same e'.1 (normal_key e.1) || negb (same (normal_key e'.2) (normal_key e.2))) acc).
  unfold pair_weight in *. lia.
Qed.

Lemma weight_new_Set ms : (sum_list_with size (new_Set ms) ≤ sum_list_with size ms)%nat.
Proof.
  apply (weight_foldl _ size size ms []). intros acc x. case_match; [lia|].
  rewrite sum_list_with_app. simpl. rewrite weight_normal_key. lia.
Qed.

Lemma weight_define ps k v : (sum_list_with property_weight (define_property ps k v) ≤
  sum_list_with property_weight ps + (length k + size v))%nat.
Proof.
  induction ps as [|[k' v'] ps IH]; [simpl; unfold property_weight; simpl; lia|]. cbn [define_property].
  case_bool_decide; simpl; unfold property_weight in *; simpl in *; lia.
Qed.

Lemma weight_build_object ps : (sum_list_with property_weight (build_object ps) ≤ sum_list_with property_weight ps)%nat.
Proof. apply (weight_foldl _ property_weight property_weight ps []). intros acc p. apply weight_define. Qed.

(** Properties of different names are different parts of an object. *)
Fixpoint without (ps : list (utf16 * value)) (k : utf16) : list (utf16 * value) :=
  match ps with
  | [] => []
  | (k', v) :: ps => if bool_decide (k' = k) then ps else (k', v) :: without ps k
  end.

Definition option_weight (v : option value) : nat := match v with Some t => size t | None => 0 end.

Lemma weight_without ps k : (option_weight (own_property ps k) + sum_list_with property_weight (without ps k) ≤
  sum_list_with property_weight ps)%nat.
Proof.
  induction ps as [|[k' v] ps IH]; [done|]. cbn [own_property without]. case_bool_decide; simpl;
    unfold property_weight in *; simpl in *; lia.
Qed.

Lemma own_property_without ps k k' : k ≠ k' → own_property (without ps k) k' = own_property ps k'.
Proof.
  intros Hk. induction ps as [|[k0 v] ps IH]; [done|]. cbn [own_property without]. case_bool_decide as H0.
  - subst k0. by rewrite bool_decide_eq_false_2.
  - cbn [own_property]. by rewrite IH.
Qed.

(** The fields of an error fit into what it is built from. *)
Lemma weight_error_fields payload :
  (option_weight (error_field payload "name") + option_weight (error_field payload "message")
   + option_weight (error_field payload "cause") + option_weight (error_field payload "errors") ≤ size payload + 4)%nat.
Proof.
  destruct payload as [| | | | | | | | | | | | | | | |ps|n m cause errors]; try (simpl; lia).
  - assert (Ho : ∀ name, error_field (VObject ps) name = own_property ps (text name)) by done. rewrite !Ho. clear Ho.
    set (k1 := text "name"). set (k2 := text "message"). set (k3 := text "cause"). set (k4 := text "errors").
    pose proof (weight_without ps k1) as H1. pose proof (weight_without (without ps k1) k2) as H2.
    pose proof (weight_without (without (without ps k1) k2) k3) as H3.
    pose proof (weight_without (without (without (without ps k1) k2) k3) k4) as H4.
    repeat rewrite own_property_without in H2 by done. repeat rewrite own_property_without in H3 by done.
    repeat rewrite own_property_without in H4 by done.
    change (size (VObject ps)) with (S (sum_list_with property_weight ps)). lia.
  - unfold error_field. rewrite !bool_decide_true, !bool_decide_false by done.
    change (size (VError n m cause errors)) with (S (length n + length m + option_weight cause
      + match errors with Some ts => sum_list_with size ts | None => 0%nat end)).
    destruct errors; simpl; lia.
Qed.

Lemma weight_buildError args v : buildError args = Ok v → (size v ≤ sum_list_with size args + 4)%nat.
Proof.
  destruct args as [|payload args]; [done|]. unfold buildError. pose proof (weight_error_fields payload) as Hw.
  destruct (error_field payload "name") as [[]|]; try done. destruct (error_field payload "message") as [[]|]; try done.
  intros [= <-]. unfold rebuildError. cbn [size sum_list_with].
  assert (Hc : match error_field payload "cause" with Some t => size t | None => 0%nat end = option_weight (error_field payload "cause")) by done.
  rewrite Hc. simpl in Hw. case_bool_decide; [|lia].
  destruct (error_field payload "errors") as [[]|]; simpl in *; lia.
Qed.

(** ** Reading *)

Lemma units_length p : (length (units p) ≤ 2)%nat.
Proof. unfold units. case_match; simpl; lia. Qed.

(** A text has no more code units than bytes. *)
Lemma utf8_decode_length n bytes : (length bytes ≤ n)%nat → (length (utf8_decode bytes) ≤ length bytes)%nat.
Proof.
  revert bytes. induction n as [|n IH]; intros bytes Hn; [destruct bytes; simpl in *; lia|].
  destruct bytes as [|b0 rest0]; [done|]. cbn [length] in *.
  assert (Hu := units_length). assert (Hr0 := IH rest0 ltac:(lia)). cbn [utf8_decode].
  destruct (b0 <? 0x80); [simpl; lia|]. destruct rest0 as [|b1 rest1]; [repeat case_match; simpl; lia|].
  cbn [length] in *. assert (Hr1 := IH rest1 ltac:(lia)).
  destruct (between 0xC2 0xDF b0); [destruct (continuation b1)|destruct (between 0xE0 0xEF b0);
    [destruct (second_of_three b0 b1)|destruct (between 0xF0 0xF4 b0); [destruct (second_of_four b0 b1)|]]];
    try (cbn [length]; lia); try (rewrite length_app; specialize (Hu ((b0 - 0xC0) * 0x40 + (b1 - 0x80))); lia).
  - destruct rest1 as [|b2 rest2]; [simpl; lia|]. cbn [length] in *. assert (Hr2 := IH rest2 ltac:(lia)).
    destruct (continuation b2); [|cbn [length]; lia]. rewrite length_app.
    specialize (Hu ((b0 - 0xE0) * 0x1000 + (b1 - 0x80) * 0x40 + (b2 - 0x80))). lia.
  - destruct rest1 as [|b2 rest2]; [simpl; lia|]. cbn [length] in *. assert (Hr2 := IH rest2 ltac:(lia)).
    destruct (continuation b2); [|cbn [length]; lia].
    destruct rest2 as [|b3 rest3]; [simpl; lia|]. cbn [length] in *. assert (Hr3 := IH rest3 ltac:(lia)).
    destruct (continuation b3); [|cbn [length]; lia]. rewrite length_app.
    specialize (Hu ((b0 - 0xF0) * 0x40000 + (b1 - 0x80) * 0x1000 + (b2 - 0x80) * 0x40 + (b3 - 0x80))). lia.
Qed.

Lemma TextDecoder_length bytes : (length (TextDecoder_decode bytes) ≤ length bytes)%nat.
Proof.
  pose proof (utf8_decode_length (length bytes) bytes ltac:(done)) as Hl. unfold TextDecoder_decode.
  destruct bytes as [|b0 [|b1 [|b2 rest]]]; [done..|]. case_match; [|done].
  pose proof (utf8_decode_length (length rest) rest ltac:(done)). simpl. lia.
Qed.

(** A reader that stops, takes at least as many bytes as it builds, and leaves
    bytes. *)
Definition bounded {A : Type} (P : A → Prop) (w : A → nat) (read : list Z → decoded A) : Prop :=
  ∀ bytes, Forall byte bytes → read bytes ≠ Err DecodeFuel ∧
    ∀ x rest, read bytes = Ok (x, rest) → P x ∧ Forall byte rest ∧ (w x + length rest ≤ length bytes)%nat.

(** A byte string that was read holds bytes. *)
Definition holds_bytes (v : value) : Prop := match v with VBytes bytes => Forall byte bytes | _ => True end.

Lemma bounded_many {A} P (w : A → nat) (read : list Z → decoded A) fuel count : (∀ x, (1 ≤ w x)%nat) → bounded P w read →
  ∀ bytes, Forall byte bytes → (length bytes < fuel)%nat →
  read_many read fuel count bytes ≠ Err DecodeFuel ∧
  ∀ xs rest, read_many read fuel count bytes = Ok (xs, rest) →
    Forall byte rest ∧ (sum_list_with w xs + length rest ≤ length bytes)%nat.
Proof.
  intros Hw Hr. revert count. induction fuel as [|fuel IH]; intros count bytes Hby Hf; [lia|]. cbn [read_many].
  destruct (count <=? 0); [split; [done|by intros xs rest [= <- <-]]|].
  destruct (Hr bytes Hby) as [Hs Hb]. destruct (read bytes) as [[x rest]|e] eqn:Er; cbn [mbind result_bind];
    [|split; [congruence|done]].
  destruct (Hb x rest eq_refl) as (_ & Hby' & Hb0). pose proof (Hw x). destruct (IH (count - 1) rest Hby' ltac:(lia)) as [Hs' Hb'].
  destruct (read_many read fuel (count - 1) rest) as [[xs rest']|e]; cbn [mbind result_bind]; [|split; [congruence|done]].
  split; [done|]. intros ? ? [= <- <-]. destruct (Hb' xs rest' eq_refl). split; [done|]. simpl. lia.
Qed.

Lemma bounded_pair read : bounded holds_bytes size read → bounded (λ _, True) pair_weight (read_pair read).
Proof.
  intros Hr bytes Hby. unfold read_pair. destruct (Hr bytes Hby) as [Hs Hb].
  destruct (read bytes) as [[k rest]|e]; cbn [mbind result_bind]; [|split; [congruence|done]].
  destruct (Hb k rest eq_refl) as (_ & Hby1 & Hb1). destruct (Hr rest Hby1) as [Hs' Hb'].
  destruct (read rest) as [[v rest']|e]; cbn [mbind result_bind]; [|split; [congruence|done]].
  split; [done|]. intros ? ? [= <- <-]. destruct (Hb' v rest' eq_refl) as (_ & Hby2 & Hb2).
  split; [done|]. split; [done|]. unfold pair_weight. simpl. lia.
Qed.

Lemma bounded_property read : bounded holds_bytes size read →
  bounded (λ _, True) (λ p, S (property_weight p)) (read_property read).
Proof.
  intros Hr bytes Hby. unfold read_property. destruct (bounded_pair read Hr bytes Hby) as [Hs Hb].
  destruct (read_pair read bytes) as [[[k v] rest]|e]; cbn [mbind result_bind]; [|split; [congruence|done]].
  destruct (Hb _ rest eq_refl) as (_ & Hby1 & Hb1). unfold pair_weight in Hb1. cbn [fst snd] in *. destruct k; try (split; [done|done]).
  split; [done|]. intros ? ? [= <- <-]. split; [done|]. split; [done|]. unfold property_weight. simpl in *. lia.
Qed.

Lemma base256 bytes : ∀ acc, Forall byte bytes → 0 ≤ acc →
  0 ≤ foldl (λ n b, n * 256 + b) acc bytes < (acc + 1) * 2 ^ (8 * Z.of_nat (length bytes)).
Proof.
  induction bytes as [|b bytes IH]; intros acc Hby Hacc; [simpl; lia|]. inversion Hby as [|? ? Hb Hby']; subst. cbn [foldl].
  unfold byte in Hb. destruct (IH (acc * 256 + b) Hby' ltac:(lia)) as [H1 H2]. split; [lia|]. cbn [length].
  replace (8 * Z.of_nat (S (length bytes))) with (8 + 8 * Z.of_nat (length bytes)) by lia.
  rewrite Z.pow_add_r by lia. change (2 ^ 8) with 256. nia.
Qed.

(** The bytes that [readUint] joins by shifts are the digits of a number. *)
Lemma base256_or bytes : ∀ acc, Forall byte bytes → 0 ≤ acc →
  foldl (λ out b, Z.lor (Z.shiftl out 8) b) acc bytes = foldl (λ n b, n * 256 + b) acc bytes.
Proof.
  induction bytes as [|b bytes IH]; intros acc Hby Hacc; [done|]. inversion Hby as [|? ? Hb Hby']; subst. cbn [foldl].
  unfold byte in Hb.
  assert (Hl : Z.lor (Z.shiftl acc 8) b = acc * 256 + b).
  { by rewrite lor_low. }
  rewrite Hl. apply IH; [done|lia].
Qed.

Lemma readUint_bounded n bytes : Forall byte bytes → readUint n bytes ≠ Err DecodeFuel ∧
  ∀ v rest, readUint n bytes = Ok (v, rest) → 0 ≤ v < 2 ^ (8 * Z.of_nat n) ∧ Forall byte rest ∧ (n + length rest = length bytes)%nat.
Proof.
  intros Hby. unfold readUint. destruct (Nat.ltb_spec (length bytes) n); [done|]. split; [done|]. intros v rest [= <- <-].
  rewrite length_drop. split; [|split; [by apply Forall_drop|lia]].
  rewrite base256_or by (try apply Forall_take; done || lia).
  pose proof (base256 (take n bytes) 0 ltac:(by apply Forall_take) ltac:(lia)) as Hv. rewrite length_take in Hv.
  replace (n `min` length bytes)%nat with n in Hv by lia. lia.
Qed.

(** What a header carries was written in as many bytes as it takes. *)
Lemma readLength_bounded add bytes : Forall byte bytes → readLength add bytes ≠ Err DecodeFuel ∧
  ∀ v rest, readLength add bytes = Ok (v, rest) → Forall byte rest ∧ (length rest ≤ length bytes)%nat ∧
    (v ≤ MAX_SAFE_INTEGER ∨ 0 ≤ v < 2 ^ (8 * Z.of_nat 8) ∧ (8 + length rest = length bytes)%nat).
Proof.
  intros Hby. unfold readLength, MAX_SAFE_INTEGER.
  destruct (Z.ltb_spec add 24); [split; [done|]; intros ? ? [= <- <-]; split; [done|]; split; [done|left; lia]|].
  repeat (case_match; [split; [by apply readUint_bounded|];
    intros v rest Hv; apply readUint_bounded in Hv as (Hv & Hby' & Hl); [|done]; split; [done|]; split; [lia|];
    first [left; cbn in Hv; lia | right; lia]|]). done.
Qed.

Lemma readBytes_bounded count bytes : Forall byte bytes → readBytes count bytes ≠ Err DecodeFuel ∧
  ∀ content rest, readBytes count bytes = Ok (content, rest) →
    Forall byte content ∧ Forall byte rest ∧ (length content + length rest = length bytes)%nat.
Proof.
  intros Hby. unfold readBytes. case_match; [done|]. split; [done|]. intros content rest [= <- <-].
  split; [by apply Forall_take|]. split; [by apply Forall_drop|]. by rewrite <- length_app, take_drop.
Qed.

Lemma bigint_bytes_le magnitude z n : 0 ≤ magnitude < 2 ^ (8 * Z.of_nat n) → z = magnitude ∨ z = - 1 - magnitude →
  (bigint_bytes z ≤ n)%nat.
Proof.
  intros Hm Hz. unfold bigint_bytes.
  replace (if 0 <=? z then z else - z - 1) with magnitude by (destruct (Z.leb_spec 0 z); lia).
  by apply bigint_loop_length.
Qed.

Lemma readSimple_bounded add bytes : Forall byte bytes → readSimple add bytes ≠ Err DecodeFuel ∧
  ∀ v rest, readSimple add bytes = Ok (v, rest) →
    holds_bytes v ∧ Forall byte rest ∧ (size v + length rest ≤ S (length bytes))%nat.
Proof.
  intros Hby. unfold readSimple.
  repeat (case_match; [by split; [|intros ? ? [= <- <-]; split; [|split; [done|simpl; lia]]]|]).
  destruct (add =? 25).
  { unfold readHalfFloat. destruct bytes as [|hi [|lo bytes]]; [done..|]. cbn [mbind result_bind].
    split; [done|]. intros ? ? [= <- <-]. split; [done|]. split; [by do 2 apply Forall_inv_tail in Hby|]. simpl. lia. }
  assert (Hn : ∀ n (f : Z → value), (∀ x, size (f x) = 1%nat ∧ holds_bytes (f x)) →
    ('(x, bytes) ← readUint n bytes; Ok (f x, bytes)) ≠ Err DecodeFuel ∧
    ∀ v rest, ('(x, bytes) ← readUint n bytes; Ok (f x, bytes)) = Ok (v, rest) →
      holds_bytes v ∧ Forall byte rest ∧ (size v + length rest ≤ S (length bytes))%nat).
  { intros n f Hf. destruct (readUint_bounded n bytes Hby) as [Hs Hb].
    destruct (readUint n bytes) as [[x rest]|e]; cbn [mbind result_bind]; [|split; [congruence|done]].
    split; [done|]. intros ? ? [= <- <-]. destruct (Hb x rest eq_refl) as (_ & Hby' & Hl). destruct (Hf x) as [-> Hh].
    split; [done|]. split; [done|]. lia. }
  destruct (add =? 26); [by apply (Hn 4%nat (λ x, VNumber (single x)))|].
  destruct (add =? 27); [by apply (Hn 8%nat (λ x, VNumber (of_pattern x)))|done].
Qed.

Section decoder_bounds.
Context {HO : Host} (c : ReadConstraints).

(** [new URL] and [new RegExp] make of a text one at most [grow] times as long. *)
Hypothesis grow_URL : ∀ s href, new_URL s = Some href → (S (length href) ≤ grow * S (length s))%nat.
Hypothesis grow_RegExp : ∀ source flags s f, new_RegExp source flags = Some (s, f) →
  (S (length s + length f) ≤ grow * S (length source + length flags))%nat.

(** What a tag makes of its content is no larger, and no byte string that the
    content was not. *)
Definition shrinks (inner : value) (r : result CborDecodeError value) : Prop :=
  match r with
  | Ok v => (size v ≤ size inner)%nat ∧ (holds_bytes inner → holds_bytes v)
  | Err e => e ≠ DecodeFuel
  end.

Lemma applyTag_shrinks tag inner : holds_bytes inner → shrinks inner (applyTag tag inner).
Proof.
  assert (Hp := weight_pos inner). intros Hby. unfold applyTag.
  destruct (tag =? TAG_DATETIME); [destruct inner; done || (by split; [simpl; lia|])|].
  destruct (tag =? TAG_EPOCH_DATETIME); [destruct inner; done || (by split; [simpl; lia|])|].
  destruct ((tag =? TAG_UNSIGNED_BIGNUM) || _).
  { destruct inner; try done. destruct (_ >? MAX_BIGNUM_BYTES); [done|]. split; [|done]. cbn [charge]. apply le_n_S.
    apply (bigint_bytes_le (bytesToBigInt bytes)); [|case_match; auto].
    pose proof (base256 bytes 0 Hby ltac:(lia)) as Hb. unfold bytesToBigInt. lia. }
  destruct (tag =? TAG_URI).
  { destruct inner; try done. destruct (new_URL s) eqn:Eu; [|done]. split; [|done]. by apply shared_out_le, grow_URL. }
  destruct (tag =? TAG_SET); [destruct inner; try done|by split; [simpl; lia|]].
  split; [|done]. cbn [charge]. pose proof (weight_new_Set items). lia.
Qed.

Lemma rows_shrink args : match buildBidirectionalMultiMap args with
  Ok v => (size v ≤ S (sum_list_with size args))%nat ∧ holds_bytes v | Err e => e ≠ DecodeFuel end.
Proof.
  destruct args as [|a args]; [done|]. destruct a; try done. cbn [buildBidirectionalMultiMap].
  destruct (forallb _ _); [|done]. split; [|done].
  cbn [charge sum_list_with]. pose proof (sum_filter pair_weight (λ row, match row.2 with VSet [] => false | _ => true end) entries).
  unfold pair_weight in *. lia.
Qed.

Lemma readGenericObject_shrinks inner : shrinks inner (readGenericObject inner).
Proof.
  destruct inner as [| | | | | | | | | | |items| | | | | |]; try done. destruct items as [|[] args]; try done. cbn [readGenericObject].
  assert (Hw : size (VArray (VString s :: args)) = S (S (length s) + sum_list_with size args)) by done.
  case_bool_decide; [|case_bool_decide; [|case_bool_decide; [|case_bool_decide as He]]].
  - unfold buildBidirectionalMap. destruct args as [|[] args]; try done. split; [|done]. rewrite Hw. cbn [charge sum_list_with].
    pose proof (weight_new_BidirectionalMap entries). unfold pair_weight in *. lia.
  - pose proof (rows_shrink args) as Hr. destruct (buildBidirectionalMultiMap args); [|done]. destruct Hr as [Hr Hh].
    split; [|done]. rewrite Hw. lia.
  - unfold buildRegExp. destruct args as [|[] [|[] args]]; try done. destruct (new_RegExp _ _) as [[s' f']|] eqn:Er; [|done].
    split; [|done]. rewrite Hw. apply grow_RegExp, shared_out_le in Er; [|done]. cbn [charge sum_list_with]. lia.
  - destruct (buildError args) as [v|e] eqn:Eb.
    + assert (Hh : holds_bytes v).
      { unfold buildError in Eb. repeat case_match; simplify_eq; done. }
      apply weight_buildError in Eb. split; [|done]. rewrite Hw, He. simpl. lia.
    + unfold buildError in Eb. repeat case_match; simplify_eq; done.
  - destruct (element_bytes binary_kinds s) as [e|]; [|by split; [lia|]]. unfold buildBinaryView.
    destruct args as [|[] args]; try done. destruct (_ =? 0); [|done]. split; [|done]. rewrite Hw. simpl. lia.
Qed.

Lemma bounded_tagged read tag depth bytes : bounded holds_bytes size read → Forall byte bytes →
  readTagged c read tag depth bytes ≠ Err DecodeFuel ∧
  ∀ v rest, readTagged c read tag depth bytes = Ok (v, rest) →
    holds_bytes v ∧ Forall byte rest ∧ (size v + length rest ≤ S (length bytes))%nat.
Proof.
  intros Hr Hby. unfold readTagged. destruct (tag =? TAG_MAP).
  - unfold readEntryPairs. destruct (depth >? _); [done|]. destruct bytes as [|ib bytes]; [done|].
    apply Forall_inv_tail in Hby. destruct (negb _); [done|].
    destruct (readLength_bounded (Z.land ib 0x1f) bytes Hby) as [Hl Hlb].
    destruct (readLength _ bytes) as [[count rest]|e]; cbn [mbind result_bind]; [|split; [congruence|done]].
    destruct (Hlb count rest eq_refl) as (Hby1 & Hlen & _).
    destruct (bounded_many (λ _, True) pair_weight (read_pair read) (S (length rest)) count) with (bytes := rest) as [Hm Hmb];
      [intros [k v]; pose proof (weight_pos k); unfold pair_weight; simpl; lia|by apply bounded_pair|done|lia|].
    destruct (read_many _ _ _ rest) as [[pairs rest']|e]; cbn [mbind result_bind]; [|split; [congruence|done]].
    destruct (Hmb pairs rest' eq_refl). split; [done|]. intros ? ? [= <- <-]. split; [done|]. split; [done|]. cbn [charge length].
    pose proof (weight_new_Map pairs). unfold pair_weight in *. lia.
  - destruct (Hr bytes Hby) as [Hs Hb].
    destruct (read bytes) as [[inner rest]|e]; cbn [mbind result_bind]; [|split; [congruence|done]].
    destruct (Hb inner rest eq_refl) as (Hh & Hby1 & Hlen).
    assert (Hsh : shrinks inner (if tag =? TAG_GENERIC_OBJECT then readGenericObject inner else applyTag tag inner))
      by (case_match; [apply readGenericObject_shrinks|by apply applyTag_shrinks]).
    destruct (if tag =? TAG_GENERIC_OBJECT then _ else _) as [v|e]; cbn [mbind result_bind shrinks] in *.
    + split; [done|]. intros ? ? [= <- <-]. destruct Hsh as [? ?]. split; [auto|]. split; [done|]. lia.
    + split; [congruence|done].
Qed.

(** An integer that is not safe came in eight bytes. *)
Lemma size_unsigned len (bytes rest : list Z) : len ≤ MAX_SAFE_INTEGER ∨ 0 ≤ len < 2 ^ (8 * Z.of_nat 8) ∧ (8 + length rest = length bytes)%nat →
  (length rest ≤ length bytes)%nat →
  (size (unsigned len) + length rest ≤ S (length bytes))%nat ∧ (size (negative len) + length rest ≤ S (length bytes))%nat.
Proof.
  intros Hlen Hr. unfold unsigned, negative. destruct (Z.leb_spec len MAX_SAFE_INTEGER); [simpl; lia|].
  destruct Hlen as [|[Hlen H8]]; [lia|].
  pose proof (bigint_bytes_le len len 8 Hlen ltac:(by left)). pose proof (bigint_bytes_le len (- len - 1) 8 Hlen ltac:(right; lia)).
  cbn [charge]. lia.
Qed.

(** With fuel for the levels that are allowed, a read stops and is bounded. *)
Lemma readValue_bounded m : ∀ depth, maxNestingDepth c + 2 ≤ depth + Z.of_nat m → depth ≤ maxNestingDepth c + 1 →
  bounded holds_bytes size (readValue c m depth).
Proof.
  induction m as [|m IH]; intros depth Hm Hd bytes Hby; [lia|]. cbn [readValue].
  rewrite Z.gtb_ltb. destruct (Z.ltb_spec (maxNestingDepth c) depth); [done|]. destruct bytes as [|ib bytes]; [done|].
  apply Forall_inv_tail in Hby.
  set (add := Z.land ib 0x1f). set (major := Z.land (Z.shiftr ib 5) 7). cbv zeta.
  assert (Hr : bounded holds_bytes size (readValue c m (depth + 1))) by (apply IH; lia).
  destruct (major =? 7); [by apply readSimple_bounded|].
  destruct (readLength_bounded add bytes Hby) as [Hl Hlb].
  destruct (readLength add bytes) as [[len rest]|e]; cbn [mbind result_bind]; [|split; [congruence|done]].
  destruct (Hlb len rest eq_refl) as (Hby1 & Hlen & Hv). destruct (size_unsigned len bytes rest Hv Hlen).
  destruct (major =? 0).
  { split; [done|]; intros ? ? [= <- <-]. split; [unfold unsigned; by case_match|]. split; [done|]. simpl. lia. }
  destruct (major =? 1).
  { split; [done|]; intros ? ? [= <- <-]. split; [unfold negative; by case_match|]. split; [done|]. simpl. lia. }
  destruct (readBytes_bounded len rest Hby1) as [Hbs Hbb].
  destruct (major =? 2); [|destruct (major =? 3); [|destruct (major =? 4); [|destruct (major =? 5)]]].
  - unfold requireStringLength, throw_if. case_match; [done|]. cbn [mbind result_bind].
    destruct (readBytes len rest) as [[content rest']|e]; cbn [mbind result_bind]; [|split; [congruence|done]].
    split; [done|]. intros ? ? [= <- <-]. destruct (Hbb content rest' eq_refl) as (? & ? & ?). split; [done|]. split; [done|]. simpl. lia.
  - unfold requireStringLength, throw_if. case_match; [done|]. cbn [mbind result_bind].
    destruct (readBytes len rest) as [[content rest']|e]; cbn [mbind result_bind]; [|split; [congruence|done]].
    split; [done|]. intros ? ? [= <- <-]. destruct (Hbb content rest' eq_refl) as (? & ? & ?). split; [done|]. split; [done|].
    pose proof (TextDecoder_length content). simpl. lia.
  - destruct (bounded_many holds_bytes size (readValue c m (depth + 1)) (S (length rest)) len weight_pos Hr rest) as [Hs Hb]; [done|lia|].
    destruct (read_many _ _ _ rest) as [[items rest']|e]; cbn [mbind result_bind]; [|split; [congruence|done]].
    split; [done|]. intros ? ? [= <- <-]. destruct (Hb items rest' eq_refl). split; [done|]. split; [done|]. simpl. lia.
  - destruct (bounded_many (λ _, True) (λ p, S (property_weight p)) (read_property (readValue c m (depth + 1))) (S (length rest)) len
      ltac:(intros p; cbv beta; lia) (bounded_property _ Hr) rest) as [Hs Hb]; [done|lia|].
    destruct (read_many _ _ _ rest) as [[ps rest']|e]; cbn [mbind result_bind]; [|split; [congruence|done]].
    split; [done|]. intros ? ? [= <- <-]. destruct (Hb ps rest' eq_refl). split; [done|]. split; [done|].
    change (size (VObject (build_object ps))) with (S (sum_list_with property_weight (build_object ps))).
    pose proof (weight_build_object ps). cbn [length].
    assert (sum_list_with property_weight ps ≤ sum_list_with (λ p, S (property_weight p)) ps)%nat.
    { clear. induction ps as [|p ps IH]; simpl; lia. }
    lia.
  - destruct (bounded_tagged (readValue c m (depth + 1)) len depth rest Hr Hby1) as [Hs Hb]. split; [done|].
    intros v rest' Hv'. destruct (Hb v rest' Hv') as (? & ? & ?). split; [done|]. split; [done|]. simpl. lia.
Qed.

(** C35. The decoder is total on hostile input: whatever the bytes, it returns a
    value or one of its errors within its limit of levels.  The value has no more
    nodes, code units and bytes together than [grow] times the bytes there were to
    read, where [grow] is how many times [new URL] and [new RegExp] of the host
    lengthen a text; a host that lengthens none gives no more than was read. *)
Theorem cbor_decoder_bounded (bytes : list Z) :
  valid_constraints c = true → Forall byte bytes →
  decode c bytes ≠ Err DecodeFuel ∧ ∀ v, decode c bytes = Ok v → (weight v ≤ grow * length bytes)%nat.
Proof.
  intros Hc Hby. assert (Hmax : 0 < maxNestingDepth c).
  { unfold valid_constraints in Hc. rewrite !andb_true_iff in Hc. destruct Hc as [[[Hc _] _] _]. by apply Z.ltb_lt in Hc. }
  unfold decode. destruct (readValue_bounded (decode_fuel c) 0 ltac:(unfold decode_fuel; lia) ltac:(lia) bytes Hby) as [Hs Hb].
  destruct (readValue c (decode_fuel c) 0 bytes) as [[v rest]|e]; cbn [mbind result_bind]; [|split; [congruence|done]].
  case_bool_decide; [|done]. split; [done|]. intros ? [= <-]. destruct (Hb v rest eq_refl) as (_ & _ & Hw).
  pose proof (weight_size v). nia.
Qed.

End decoder_bounds.
End sizes.

(** An array that claims four billion members in five bytes is refused, and a URL
    of one letter beyond ASCII, six bytes with its tag, makes a value of eighteen
    units where a letter is escaped into six. *)
Lemma cbor_decoder_bounded_witness :
  let escaped := flat_map (λ u, if u <? 0x80 then [u] else text "%C3%A9") in
  let host := {| new_RegExp s f := Some (s, f); new_URL s := Some (escaped s); Date_parse _ := None; has_Float16Array := false |} in
  (1 ≤ 6)%nat ∧ valid_constraints defaultReadConstraintsOptions = true ∧
  decode (HO := host) defaultReadConstraintsOptions [0x9A; 0xFF; 0xFF; 0xFF; 0xFF] ≠ Err DecodeFuel ∧
  decode (HO := host) defaultReadConstraintsOptions [0x9A; 0xFF; 0xFF; 0xFF; 0xFF] = Err UnexpectedEnd ∧
  decode (HO := host) defaultReadConstraintsOptions [0xD8; 0x20; 0x64; 0xC3; 0xA9; 0xC3; 0xA9] = Ok (VURL (text "%C3%A9%C3%A9")) ∧
  (weight (VURL (text "%C3%A9%C3%A9")) ≤ 6 * length [0xD8; 0x20; 0x64; 0xC3; 0xA9; 0xC3; 0xA9])%nat ∧
  weight (VURL (text "%C3%A9%C3%A9")) = 13%nat.
Proof.
  intros escaped host.
  assert (Hu : ∀ s href, new_URL (Host := host) s = Some href → (S (length href) ≤ 6 * S (length s))%nat).
  { intros s ? [= <-]. assert (length (escaped s) ≤ 6 * length s)%nat; [|lia].
    induction s as [|u s IH]; [simpl; lia|]. cbn. rewrite length_app. destruct (u <? 0x80); simpl in *; lia. }
  assert (Hr : ∀ source flags s f, new_RegExp (Host := host) source flags = Some (s, f) →
    (S (length s + length f) ≤ 6 * S (length source + length flags))%nat) by (intros ? ? ? ? [= <- <-]; lia).
  pose proof (λ bytes, @cbor_decoder_bounded 6 ltac:(lia) host defaultReadConstraintsOptions Hu Hr bytes eq_refl) as Hb.
  split; [lia|]. split; [reflexivity|].
  split; [apply Hb; repeat constructor; unfold byte; lia|]. split; [vm_compute; reflexivity|]. split; [vm_compute; reflexivity|].
  split; [|reflexivity]. apply (Hb [0xD8; 0x20; 0x64; 0xC3; 0xA9; 0xC3; 0xA9]);
    [repeat constructor; unfold byte; lia|vm_compute; reflexivity].
Defined.
