(* ===== verification/ShardAllocation.v ===== *)
(** * Shard allocation: [src/cluster/sharding/AllocationStrategy.ts]

    Where a shard goes and which shards are to move.  A JavaScript [Set] is the
    list of its elements in insertion order; a map from addresses to shards is
    the list of its entries.  The coordinator that asks is
    [ShardCoordinator]. *)

From S2P Require Import Prelude Member Downing BidirectionalMap.
Import NodeAddress.

Local Open Scope Z_scope.

(** ** [Set] in insertion order *)

Section ordered_set.
Context {A : Type} `{EqDecision A}.

Implicit Types (s : list A) (x : A).

Definition set_has s x : bool := bool_decide (x ∈ s).
Definition set_add s x : list A := if set_has s x then s else s ++ [x].
Definition set_delete s x : list A := filter (λ y, y ≠ x) s.
Definition set_of (l : list A) : list A := foldl set_add [] l.

Lemma set_has_true s x : set_has s x = true ↔ x ∈ s.
Proof. apply bool_decide_eq_true. Qed.

Lemma elem_of_set_add s x y : y ∈ set_add s x ↔ y ∈ s ∨ y = x.
Proof.
  unfold set_add, set_has. case_bool_decide; [split; [by left|by intros [?| ->]]|].
  by rewrite elem_of_app, list_elem_of_singleton.
Qed.

Lemma elem_of_set_delete s x y : y ∈ set_delete s x ↔ y ∈ s ∧ y ≠ x.
Proof. unfold set_delete. rewrite list_elem_of_filter. tauto. Qed.

Lemma set_add_NoDup s x : NoDup s → NoDup (set_add s x).
Proof.
  intros Hs. unfold set_add, set_has. case_bool_decide; [done|]. apply NoDup_app. split; [done|].
  split; [|apply NoDup_singleton]. by intros y Hy ->%list_elem_of_singleton.
Qed.

Lemma set_delete_NoDup s x : NoDup s → NoDup (set_delete s x).
Proof. apply NoDup_filter. Qed.

Lemma foldl_set_add s l y : y ∈ foldl set_add s l ↔ y ∈ s ∨ y ∈ l.
Proof.
  revert s. induction l as [|x l IH]; intros s; simpl; [split; [by left|by intros [?|?%elem_of_nil]]|].
  rewrite IH, elem_of_set_add, elem_of_cons. tauto.
Qed.

Lemma foldl_set_add_NoDup s l : NoDup s → NoDup (foldl set_add s l).
Proof. revert s. induction l as [|x l IH]; intros s Hs; simpl; [done|]. by apply IH, set_add_NoDup. Qed.

Lemma elem_of_set_of l y : y ∈ set_of l ↔ y ∈ l.
Proof. unfold set_of. rewrite foldl_set_add. split; [by intros [?%elem_of_nil|?]|by right]. Qed.

Lemma set_of_NoDup l : NoDup (set_of l).
Proof. apply foldl_set_add_NoDup, NoDup_nil_2. Qed.

Lemma set_add_length s x : (length (set_add s x) ≤ S (length s))%nat.
Proof. unfold set_add. destruct (set_has s x); [lia|]. rewrite length_app. simpl. lia. Qed.

End ordered_set.

#[export] Hint Resolve set_add_NoDup set_delete_NoDup set_of_NoDup : actor.

(** ** The interface *)

Inductive AllocationError := NoCandidates | NotAnAddress | StrategyThrew.

(** Shards by node address. *)
Definition ShardMap : Type := list (string * list Z).

Definition shards_on (m : ShardMap) (a : string) : list Z := default [] (map_get m a).
Definition load_on (m : ShardMap) (a : string) : Z := Z.of_nat (length (shards_on m a)).

Class AllocationStrategy := {
  allocate : Z → list NodeAddress → ShardMap → result AllocationError NodeAddress;
  rebalance : ShardMap → list NodeAddress → list Z → result AllocationError (list Z);
}.

(** [a.compareTo(b)]. *)
Definition address_le `{LocaleCompare} (a b : NodeAddress) : Prop := locale_le (toString a) (toString b) = true.

#[export] Instance address_le_dec `{LocaleCompare} : RelDecision address_le.
Proof. intros a b. unfold address_le. apply _. Defined.

Definition address_lt `{LocaleCompare} (a b : NodeAddress) : bool := negb (locale_le (toString b) (toString a)).

(** [Array.prototype.sort] on numbers and on strings. *)
Definition sort_numbers (l : list Z) : list Z := merge_sort Z.le l.
Definition string_le (a b : string) : Prop := String.leb a b = true.
#[export] Instance string_le_dec : RelDecision string_le.
Proof. intros a b. unfold string_le. apply _. Defined.
Definition sort_strings (l : list string) : list string := merge_sort string_le l.

(** ** [HashAllocationStrategy] *)

Module HashAllocationStrategy.

Section hash.
Context `{LocaleCompare}.

Definition sorted (candidates : list NodeAddress) : list NodeAddress := merge_sort address_le candidates.

(** [sorted[shardId % sorted.length]]. *)
Definition slot (l : list NodeAddress) (shardId : Z) : option NodeAddress :=
  let i := Z.rem shardId (Z.of_nat (length l)) in
  if i <? 0 then None else l !! Z.to_nat i.

Definition allocate (shardId : Z) (candidates : list NodeAddress) (currentShards : ShardMap)
    : result AllocationError NodeAddress :=
  if bool_decide (candidates = []) then Err NoCandidates
  else match slot (sorted candidates) shardId with Some a => Ok a | None => Err NotAnAddress end.

(** The body of the inner loop of [rebalance]. *)
Definition propose (l : list NodeAddress) (inProgress : list Z) (addrStr : string)
    (out : result AllocationError (list Z)) (shardId : Z) : result AllocationError (list Z) :=
  out ← out;
  if set_has inProgress shardId then Ok out
  else match slot l shardId with
       | Some desired => Ok (if bool_decide (toString desired = addrStr) then out else set_add out shardId)
       | None => Err NotAnAddress
       end.

Definition rebalance (currentShards : ShardMap) (candidates : list NodeAddress) (inProgress : list Z)
    : result AllocationError (list Z) :=
  let l := sorted candidates in
  if bool_decide (l = []) then Ok []
  else foldl (λ out e, foldl (propose l inProgress e.1) out e.2) (Ok []) currentShards.

#[export] Instance hash_strategy : AllocationStrategy :=
  Build_AllocationStrategy allocate rebalance.

End hash.

End HashAllocationStrategy.

(** ** [LeastShardAllocationStrategy] *)

Module LeastShardAllocationStrategy.

Section least.
Context `{LocaleCompare}.

Record LeastShardAllocationStrategy := mkLeast {
  rebalanceThreshold : Z;
  maxSimultaneousRebalance : Z;
}.

Definition construct : LeastShardAllocationStrategy := mkLeast 1 3.

Definition better (m : ShardMap) (best candidate : NodeAddress) : NodeAddress :=
  let bestLoad := load_on m (toString best) in
  let load := load_on m (toString candidate) in
  if (load <? bestLoad) || ((load =? bestLoad) && address_lt candidate best) then candidate else best.

Definition allocate (candidates : list NodeAddress) (m : ShardMap) : result AllocationError NodeAddress :=
  match candidates with
  | [] => Err NoCandidates
  | first :: _ => Ok (foldl (better m) first candidates)
  end.

(** The inner loop of [shardsOffNonCandidates]; [true] when the budget is
    used up and the method returns. *)
Fixpoint take_off (cap : Z) (inProgress : list Z) (out : list Z) (shardIds : list Z) : list Z * bool :=
  match shardIds with
  | [] => (out, false)
  | shardId :: rest =>
      if Z.of_nat (length out) >=? cap then (out, true)
      else if set_has inProgress shardId then take_off cap inProgress out rest
      else take_off cap inProgress (set_add out shardId) rest
  end.

Fixpoint take_off_all (cap : Z) (m : ShardMap) (inProgress : list Z) (out : list Z) (others : list string) : list Z :=
  match others with
  | [] => out
  | address :: others =>
      let '(out, full) := take_off cap inProgress out (sort_numbers (shards_on m address)) in
      if full then out else take_off_all cap m inProgress out others
  end.

Definition shardsOffNonCandidates (o : LeastShardAllocationStrategy) (m : ShardMap) (candidates : list NodeAddress)
    (inProgress : list Z) : list Z :=
  let candidateAddresses := toString <$> candidates in
  let others := sort_strings (filter (λ a, a ∉ candidateAddresses) m.*1) in
  take_off_all (maxSimultaneousRebalance o) m inProgress [] others.

(** The inner loop of [rebalance] over one busy node: the set and what is left
    of the budget. *)
Fixpoint drain_node (inProgress : list Z) (out : list Z) (remaining : Z) (shardIds : list Z) : list Z * Z :=
  match shardIds with
  | [] => (out, remaining)
  | shardId :: rest =>
      if set_has inProgress shardId then drain_node inProgress out remaining rest
      else if remaining - 1 <=? 0 then (set_add out shardId, remaining - 1)
      else drain_node inProgress (set_add out shardId) (remaining - 1) rest
  end.

(** The outer loop, from the busiest node down. *)
Fixpoint drain_busiest (threshold min : Z) (inProgress : list Z) (out : list Z) (remaining : Z)
    (loads : list (Z * list Z)) : list Z :=
  match loads with
  | [] => out
  | (load, shardIds) :: rest =>
      if remaining <=? 0 then out
      else if load - min <? threshold then out
      else let '(out, remaining) := drain_node inProgress out remaining shardIds in
           drain_busiest threshold min inProgress out remaining rest
  end.

Definition load_le (a b : Z * list Z) : Prop := a.1 ≤ b.1.
#[export] Instance load_le_dec : RelDecision load_le.
Proof. intros a b. unfold load_le. apply _. Defined.

Definition rebalance (o : LeastShardAllocationStrategy) (m : ShardMap) (candidates : list NodeAddress)
    (inProgress : list Z) : list Z :=
  let out := shardsOffNonCandidates o m candidates inProgress in
  if Z.of_nat (length candidates) <? 2 then out
  else
    let loads := merge_sort load_le ((λ c, (load_on m (toString c), shards_on m (toString c))) <$> candidates) in
    match head loads, last loads with
    | Some (min, _), Some (max, _) =>
        if max - min <? rebalanceThreshold o then out
        else drain_busiest (rebalanceThreshold o) min inProgress out
               (maxSimultaneousRebalance o - Z.of_nat (length out)) (reverse loads)
    | _, _ => out
    end.

Definition least_strategy (o : LeastShardAllocationStrategy) : AllocationStrategy :=
  Build_AllocationStrategy (λ _, allocate) (λ m c p, Ok (rebalance o m c p)).

End least.

End LeastShardAllocationStrategy.

(** ** The strategies are what the coordinator counts on *)

Section hash_theorems.
Context `{LocaleOrder}.
Import HashAllocationStrategy.

Implicit Types (m : ShardMap) (candidates : list NodeAddress) (inProgress : list Z).

#[local] Instance address_le_total : Total address_le.
Proof. intros a b. apply locale_total. Qed.
#[local] Instance address_le_trans : Transitive address_le.
Proof. intros a b c. apply locale_trans. Qed.

Lemma sorted_length candidates : length (sorted candidates) = length candidates.
Proof. apply Permutation_length, merge_sort_Permutation. Qed.

Lemma slot_some l shardId : 0 ≤ shardId → l ≠ [] → ∃ a, slot l shardId = Some a ∧ a ∈ l.
Proof.
  intros Hs Hl. unfold slot.
  assert (0 < Z.of_nat (length l)) as Hlen by (destruct l; [done|simpl; lia]).
  pose proof (Z.rem_bound_pos shardId (Z.of_nat (length l)) Hs Hlen) as Hr.
  destruct (Z.ltb_spec (Z.rem shardId (Z.of_nat (length l))) 0); [lia|].
  destruct (lookup_lt_is_Some_2 l (Z.to_nat (Z.rem shardId (Z.of_nat (length l))))) as [a Ha]; [lia|].
  exists a. split; [done|]. by eapply list_elem_of_lookup_2.
Qed.

Lemma hash_allocate_slot shardId candidates m : 0 ≤ shardId → candidates ≠ [] →
  ∃ a, allocate shardId candidates m = Ok a ∧ slot (sorted candidates) shardId = Some a ∧ a ∈ candidates.
Proof.
  intros Hs Hc. unfold allocate. rewrite bool_decide_eq_false_2 by done.
  destruct (slot_some (sorted candidates) shardId) as (a & Ha & Hin); [done| |].
  { intros Hn. apply Hc, length_zero_iff_nil. by rewrite <- sorted_length, Hn. }
  exists a. rewrite Ha. split_and!; [done|done|]. by unfold sorted in Hin; rewrite merge_sort_Permutation in Hin.
Qed.

(** What is proposed of one node's shards. *)
Lemma propose_node l inProgress addr shards out : l ≠ [] → Forall (λ s, 0 ≤ s) shards →
  ∃ out', foldl (propose l inProgress addr) (Ok out) shards = Ok out' ∧
    ∀ s, s ∈ out' ↔ s ∈ out ∨ s ∈ shards ∧ (s ∉ inProgress) ∧ ∃ a, slot l s = Some a ∧ toString a ≠ addr.
Proof.
  intros Hl. revert out. induction shards as [|s shards IH]; intros out Hnn; simpl.
  { exists out. split; [done|]. intros s. split; [by left|]. by intros [?|[?%elem_of_nil _]]. }
  apply Forall_cons in Hnn as [Hs Hnn].
  destruct (slot_some l s Hs Hl) as (a & Ha & _). destruct (set_has inProgress s) eqn:Hp.
  - destruct (IH out Hnn) as (out' & -> & Hout). exists out'. split; [done|]. intros x. rewrite Hout, elem_of_cons.
    split; [tauto|]. intros [?|[[ ->|?] ?]]; [by left| |by right]. apply set_has_true in Hp. tauto.
  - assert (s ∉ inProgress) as Hnp by (intros Hin%set_has_true; congruence). rewrite Ha.
    destruct (IH (if bool_decide (toString a = addr) then out else set_add out s) Hnn) as (out' & -> & Hout).
    exists out'. split; [done|]. intros x. rewrite Hout, elem_of_cons. case_bool_decide as Hd.
    + split; [tauto|]. intros [?|[[ ->|?] [? (a' & Ha' & ?)]]]; [by left|congruence|naive_solver].
    + rewrite elem_of_set_add. split; [|naive_solver].
      intros [[?| ->]|?]; [by left| |tauto]. right. split_and!; [by left|done|by exists a].
Qed.

Lemma propose_all l inProgress m out : l ≠ [] → Forall (λ e, Forall (λ s, 0 ≤ s) e.2) m →
  ∃ out', foldl (λ out e, foldl (propose l inProgress e.1) out e.2) (Ok out) m = Ok out' ∧
    ∀ s, s ∈ out' ↔ s ∈ out ∨ ∃ addr shards, (addr, shards) ∈ m ∧ s ∈ shards ∧ (s ∉ inProgress) ∧
      ∃ a, slot l s = Some a ∧ toString a ≠ addr.
Proof.
  intros Hl. revert out. induction m as [|[addr shards] m IH]; intros out Hnn; cbn [foldl fst snd].
  { exists out. split; [done|]. intros s. split; [by left|]. by intros [?|(? & ? & ?%elem_of_nil & _)]. }
  apply Forall_cons in Hnn as [Hs Hnn]. cbn [snd] in Hs.
  destruct (propose_node l inProgress addr shards out Hl Hs) as (out1 & -> & Hout1).
  destruct (IH out1 Hnn) as (out' & -> & Hout). exists out'. split; [done|]. intros s. rewrite Hout, Hout1.
  setoid_rewrite elem_of_cons. naive_solver.
Qed.

Definition shard_ids_of m : Prop := Forall (λ e : string * list Z, Forall (λ s, 0 ≤ s) e.2) m.

(** [HashAllocationStrategy] never argues with itself: over the same
    candidates, a pass proposes exactly the shards, not already on their way,
    that [allocate] would place on another node than the one that holds them.
    So a shard that was moved to where [allocate] put it is not proposed
    again, and a pass over a map that agrees with [allocate] proposes
    nothing. *)
Theorem hash_rebalance_exact m candidates inProgress : candidates ≠ [] → shard_ids_of m →
  ∃ out, rebalance m candidates inProgress = Ok out ∧
    (∀ s, s ∈ out ↔ (s ∉ inProgress) ∧ ∃ addr shards, (addr, shards) ∈ m ∧ s ∈ shards ∧
       ∃ a, allocate s candidates m = Ok a ∧ a ∈ candidates ∧ toString a ≠ addr).
Proof.
  intros Hc Hnn. unfold rebalance.
  assert (sorted candidates ≠ []) as Hl.
  { intros Hn. apply Hc, length_zero_iff_nil. by rewrite <- sorted_length, Hn. }
  rewrite bool_decide_eq_false_2 by done. destruct (propose_all _ inProgress m [] Hl Hnn) as (out & -> & Hout).
  exists out. split; [done|]. intros s. rewrite Hout. split.
  - intros [?%elem_of_nil|(addr & shards & Hin & Hs & Hp & a & Ha & Hd)]; [done|]. split; [done|].
    exists addr, shards. split_and!; [done|done|]. exists a. unfold shard_ids_of in Hnn.
    rewrite Forall_forall in Hnn. specialize (Hnn _ Hin). cbn in Hnn. rewrite Forall_forall in Hnn.
    destruct (hash_allocate_slot s candidates m (Hnn s Hs) Hc) as (a' & Hal & Ha' & Hin').
    assert (a' = a) as -> by congruence. done.
  - intros [Hp (addr & shards & Hin & Hs & a & Ha & _ & Hd)]. right. exists addr, shards.
    split_and!; [done..|]. exists a. split; [|done]. unfold allocate in Ha.
    rewrite bool_decide_eq_false_2 in Ha by done. by destruct (slot (sorted candidates) s); [injection Ha as ->|].
Qed.

End hash_theorems.

Lemma hash_rebalance_exact_witness :
  let a := mkAddress "s" "a" 1 None in let b := mkAddress "s" "b" 1 None in
  let m := [("s@a:1", [0; 1]); ("s@b:1", [2; 3])] in
  ∃ out, @HashAllocationStrategy.rebalance code_point_compare m [b; a] [2] = Ok out ∧
    (∀ s, s ∈ out ↔ (s ∉ [2]) ∧ ∃ addr shards, (addr, shards) ∈ m ∧ s ∈ shards ∧
       ∃ x, @HashAllocationStrategy.allocate code_point_compare s [b; a] m = Ok x ∧ x ∈ [b; a] ∧ toString x ≠ addr).
Proof.
  intros a b m. apply (@hash_rebalance_exact code_point_compare m [b; a] [2]); [discriminate|].
  repeat constructor; lia.
Defined.

Section least_theorems.
Context `{LocaleOrder}.
Import LeastShardAllocationStrategy.

Implicit Types (m : ShardMap) (candidates : list NodeAddress) (inProgress out : list Z).

(** [a] is at least as good a choice as [b]. *)
Definition preferred m (a b : NodeAddress) : Prop :=
  load_on m (toString a) < load_on m (toString b) ∨
  load_on m (toString a) = load_on m (toString b) ∧ address_le a b.

Lemma preferred_refl m a : preferred m a a.
Proof. right. split; [done|]. apply locale_refl. Qed.

Lemma preferred_trans m a b c : preferred m a b → preferred m b c → preferred m a c.
Proof.
  unfold preferred. intros [?|[? Hab]] [?|[? Hbc]]; [left; lia..|]. right. split; [lia|].
  by eapply locale_trans.
Qed.

Lemma better_preferred m best c : preferred m (better m best c) best ∧ preferred m (better m best c) c.
Proof.
  unfold better. destruct (Z.ltb_spec (load_on m (toString c)) (load_on m (toString best))) as [Hlt|Hge]; simpl.
  { split; [by left|apply preferred_refl]. }
  destruct (Z.eqb_spec (load_on m (toString c)) (load_on m (toString best))) as [Heq|Hne]; simpl.
  2: { split; [apply preferred_refl|]. left. lia. }
  unfold address_lt. destruct (locale_le (toString best) (toString c)) eqn:Hle; simpl.
  - split; [apply preferred_refl|]. right. by split; [lia|].
  - split; [|apply preferred_refl]. right. split; [lia|].
    destruct (locale_total (toString best) (toString c)); [congruence|done].
Qed.

Lemma foldl_better m l best :
  let a := foldl (better m) best l in (a = best ∨ a ∈ l) ∧ preferred m a best ∧ Forall (preferred m a) l.
Proof.
  revert best. induction l as [|c l IH]; intros best; cbn [foldl].
  { split_and!; [by left|apply preferred_refl|done]. }
  destruct (IH (better m best c)) as (Hin & Hb & Hl). destruct (better_preferred m best c) as [Hbb Hbc].
  split_and!.
  - rewrite elem_of_cons. destruct Hin as [ ->|?]; [|tauto]. unfold better. case_match; tauto.
  - by eapply preferred_trans.
  - constructor; [by eapply preferred_trans|done].
Qed.

(** What a pass of one node proposes, and how much of the budget is used. *)
Definition within_budget (cap : Z) (inProgress : list Z) (fits : Z → Prop) out out' : Prop :=
  (∀ s, s ∈ out → s ∈ out') ∧ (∀ s, s ∈ out' → s ∈ out ∨ (s ∉ inProgress) ∧ fits s) ∧
  (Z.of_nat (length out') ≤ Z.max cap (Z.of_nat (length out))) ∧ (NoDup out → NoDup out').

Lemma within_budget_refl cap inProgress fits out : within_budget cap inProgress fits out out.
Proof. split_and!; [done|by left|lia|done]. Qed.

Lemma within_budget_mono cap inProgress (fits fits' : Z → Prop) a b : (∀ s, fits s → fits' s) →
  within_budget cap inProgress fits a b → within_budget cap inProgress fits' a b.
Proof. intros Hf (? & H2 & ? & ?). split_and!; [done| |done|done]. intros s [?|[? ?]]%H2; [by left|right; auto]. Qed.

Lemma within_budget_trans cap inProgress fits a b c : within_budget cap inProgress fits a b →
  within_budget cap inProgress fits b c → within_budget cap inProgress fits a c.
Proof.
  intros (H1 & H2 & H3 & H4) (H1' & H2' & H3' & H4'). split_and!; [auto| |lia|auto].
  intros s [Hs|Hs]%H2'; [|by right]. auto.
Qed.

Lemma within_budget_add cap inProgress (fits : Z → Prop) out s : Z.of_nat (length out) < cap →
  s ∉ inProgress → fits s → within_budget cap inProgress fits out (set_add out s).
Proof.
  intros Hlen Hp Hf. split_and!.
  - intros x ?. apply elem_of_set_add. by left.
  - intros x [?| ->]%elem_of_set_add; [by left|by right].
  - pose proof (set_add_length out s). lia.
  - apply set_add_NoDup.
Qed.

Lemma take_off_spec cap inProgress out shardIds :
  within_budget cap inProgress (λ s, s ∈ shardIds) out (take_off cap inProgress out shardIds).1.
Proof.
  revert out. induction shardIds as [|s rest IH]; intros out; cbn [take_off]; [apply within_budget_refl|].
  rewrite Z.geb_leb. destruct (Z.leb_spec cap (Z.of_nat (length out))); [apply within_budget_refl|].
  assert (∀ x, x ∈ rest → x ∈ s :: rest) as Hsub by (by right).
  destruct (set_has inProgress s) eqn:Hp.
  { eapply within_budget_mono; [exact Hsub|apply IH]. }
  assert (s ∉ inProgress) as Hnp by (intros Hin%set_has_true; congruence).
  eapply within_budget_trans; [apply within_budget_add; [done|exact Hnp|by left]|].
  eapply within_budget_mono; [exact Hsub|apply IH].
Qed.

Lemma take_off_all_spec cap m inProgress out others :
  within_budget cap inProgress (λ s, ∃ a, a ∈ others ∧ s ∈ shards_on m a) out (take_off_all cap m inProgress out others).
Proof.
  revert out. induction others as [|a others IH]; intros out; cbn [take_off_all]; [apply within_budget_refl|].
  pose proof (take_off_spec cap inProgress out (sort_numbers (shards_on m a))) as Hoff.
  destruct (take_off cap inProgress out (sort_numbers (shards_on m a))) as [out1 full]. cbn [fst] in Hoff.
  assert (∀ s, s ∈ sort_numbers (shards_on m a) → ∃ x, x ∈ a :: others ∧ s ∈ shards_on m x) as Hsub.
  { intros s Hs. exists a. split; [by left|]. unfold sort_numbers in Hs. by rewrite merge_sort_Permutation in Hs. }
  eapply within_budget_trans; [eapply within_budget_mono; [exact Hsub|exact Hoff]|].
  destruct full; [apply within_budget_refl|]. eapply within_budget_mono; [|apply IH].
  intros s (x & Hx & Hs). exists x. split; [by right|done].
Qed.

Lemma drain_node_spec cap inProgress out remaining shardIds : Z.of_nat (length out) + remaining ≤ cap → 0 < remaining →
  let '(out', remaining') := drain_node inProgress out remaining shardIds in
  within_budget cap inProgress (λ s, s ∈ shardIds) out out' ∧ Z.of_nat (length out') + remaining' ≤ cap.
Proof.
  revert out remaining. induction shardIds as [|s rest IH]; intros out remaining Hcap Hr; cbn [drain_node].
  { split; [apply within_budget_refl|done]. }
  assert (∀ x, x ∈ rest → x ∈ s :: rest) as Hsub by (by right).
  destruct (set_has inProgress s) eqn:Hp.
  { specialize (IH out remaining Hcap Hr). destruct (drain_node inProgress out remaining rest) as [out' r'].
    split; [|apply IH]. eapply within_budget_mono; [exact Hsub|apply IH]. }
  assert (s ∉ inProgress) as Hnp by (intros Hin%set_has_true; congruence).
  assert (within_budget cap inProgress (λ x, x ∈ s :: rest) out (set_add out s)) as Hadd.
  { apply within_budget_add; [lia|done|by left]. }
  pose proof (set_add_length out s) as Hlen. destruct (Z.leb_spec (remaining - 1) 0); [split; [done|lia]|].
  assert (Z.of_nat (length (set_add out s)) + (remaining - 1) ≤ cap) as Hcap' by lia.
  specialize (IH (set_add out s) (remaining - 1) Hcap' ltac:(lia)).
  destruct (drain_node inProgress (set_add out s) (remaining - 1) rest) as [out' r']. split; [|apply IH].
  eapply within_budget_trans; [exact Hadd|]. eapply within_budget_mono; [exact Hsub|apply IH].
Qed.

Lemma drain_busiest_spec cap threshold min inProgress out remaining loads : Z.of_nat (length out) + remaining ≤ cap →
  within_budget cap inProgress (λ s, ∃ l, l ∈ loads ∧ s ∈ l.2 ∧ threshold ≤ l.1 - min) out
    (drain_busiest threshold min inProgress out remaining loads).
Proof.
  revert out remaining. induction loads as [|[load shardIds] rest IH]; intros out remaining Hcap; cbn [drain_busiest].
  { apply within_budget_refl. }
  destruct (Z.leb_spec remaining 0); [apply within_budget_refl|].
  destruct (Z.ltb_spec (load - min) threshold); [apply within_budget_refl|].
  pose proof (drain_node_spec cap inProgress out remaining shardIds Hcap ltac:(lia)) as Hn.
  destruct (drain_node inProgress out remaining shardIds) as [out1 r1]. destruct Hn as [Hn Hr].
  eapply within_budget_trans; [eapply within_budget_mono; [|exact Hn]|].
  { intros s Hs. exists (load, shardIds). split_and!; [by left|done|cbn; lia]. }
  eapply within_budget_mono; [|by apply IH].
  intros s (l & Hl & ? & ?). exists l. by split; [right|].
Qed.

Lemma last_elem {A} (l : list A) x : last l = Some x → x ∈ l.
Proof. intros [l' ->]%last_Some. rewrite elem_of_app. right. by left. Qed.

(** [LeastShardAllocationStrategy]: a shard goes to the candidate with the
    fewest shards, the least address among those; and a pass moves at most
    [maxSimultaneousRebalance] shards, none of them already on its way, each
    from a node that is no candidate, or from a candidate that holds at least
    [rebalanceThreshold] more than another. *)
Theorem least_strategy_sound (o : LeastShardAllocationStrategy) m candidates inProgress :
  0 ≤ maxSimultaneousRebalance o →
  (candidates ≠ [] → ∃ a, allocate candidates m = Ok a ∧ a ∈ candidates ∧ Forall (preferred m a) candidates) ∧
  let out := rebalance o m candidates inProgress in
  NoDup out ∧ Z.of_nat (length out) ≤ maxSimultaneousRebalance o ∧
  ∀ s, s ∈ out → (s ∉ inProgress) ∧ ∃ addr, s ∈ shards_on m addr ∧
    (addr ∉ toString <$> candidates ∨
     ∃ c least, c ∈ candidates ∧ least ∈ candidates ∧ addr = toString c ∧
       rebalanceThreshold o ≤ load_on m (toString c) - load_on m (toString least)).
Proof.
  intros Hcap. split.
  { destruct candidates as [|c l]; [done|]. intros _. exists (foldl (better m) c (c :: l)).
    destruct (foldl_better m (c :: l) c) as (Hin & _ & Hl). split_and!; [done| |done].
    destruct Hin as [Hin|Hin]; [rewrite Hin; by left|done]. }
  cbv zeta. set (fits := λ s, ∃ addr, s ∈ shards_on m addr ∧ (addr ∉ toString <$> candidates ∨
    ∃ c least, c ∈ candidates ∧ least ∈ candidates ∧ addr = toString c ∧
      rebalanceThreshold o ≤ load_on m (toString c) - load_on m (toString least))).
  assert (within_budget (maxSimultaneousRebalance o) inProgress fits [] (rebalance o m candidates inProgress))
    as (_ & Hf & Hlen & Hnd).
  2: { split; [apply Hnd, NoDup_nil_2|]. split; [cbn in Hlen; lia|]. by intros s [?%elem_of_nil|Hs]%Hf. }
  unfold rebalance. set (out := shardsOffNonCandidates o m candidates inProgress).
  assert (within_budget (maxSimultaneousRebalance o) inProgress fits [] out) as Hout.
  { eapply within_budget_mono; [|apply take_off_all_spec].
    intros s (a & Ha & Hs). exists a. split; [done|]. left. unfold sort_strings in Ha.
    rewrite merge_sort_Permutation, list_elem_of_filter in Ha. tauto. }
  destruct (Z.ltb_spec (Z.of_nat (length candidates)) 2); [done|].
  set (loads := merge_sort load_le _).
  assert (∀ l, l ∈ loads → ∃ c, c ∈ candidates ∧ l = (load_on m (toString c), shards_on m (toString c))) as Hloads.
  { intros l Hl. unfold loads in Hl. rewrite merge_sort_Permutation, list_elem_of_fmap in Hl. naive_solver. }
  destruct (head loads) as [[min lm]|] eqn:Hh; [|done]. destruct (last loads) as [[max lM]|]; [|done].
  destruct (Z.ltb_spec (max - min) (rebalanceThreshold o)); [done|].
  assert ((min, lm) ∈ loads) as Hmin by (destruct loads; [done|]; injection Hh as ->; by left).
  destruct (Hloads _ Hmin) as (least & Hleast & [= -> ->]).
  eapply within_budget_trans; [exact Hout|].
  destruct Hout as (_ & _ & Hlen & _). cbn [length] in Hlen.
  eapply within_budget_mono; [|apply (drain_busiest_spec (maxSimultaneousRebalance o)); lia].
  intros s (l & Hl & Hs & Ht). rewrite elem_of_reverse in Hl. destruct (Hloads _ Hl) as (c & Hc & ->).
  exists (toString c). split; [done|]. right. by exists c, least.
Qed.

End least_theorems.

Lemma least_strategy_sound_witness :
  let a := mkAddress "s" "a" 1 None in let b := mkAddress "s" "b" 1 None in
  let m := [("s@a:1", [0; 1; 2]); ("s@c:1", [5])] in
  let o := LeastShardAllocationStrategy.construct in
  let out := @LeastShardAllocationStrategy.rebalance o m [b; a] [1] in
  ([b; a] ≠ [] → ∃ x, @LeastShardAllocationStrategy.allocate code_point_compare [b; a] m = Ok x ∧ x ∈ [b; a] ∧
     Forall (@preferred code_point_compare m x) [b; a]) ∧
  NoDup out ∧ Z.of_nat (length out) ≤ 3 ∧
  ∀ s, s ∈ out → (s ∉ [1]) ∧ ∃ addr, s ∈ shards_on m addr ∧
    (addr ∉ toString <$> [b; a] ∨
     ∃ c least, c ∈ [b; a] ∧ least ∈ [b; a] ∧ addr = toString c ∧
       1 ≤ load_on m (toString c) - load_on m (toString least)).
Proof.
  intros a b m o out.
  apply (@least_strategy_sound code_point_compare code_point_order o m [b; a] [1]). vm_compute. discriminate.
Defined.

Example least_pass :
  LeastShardAllocationStrategy.rebalance LeastShardAllocationStrategy.construct
    [("s@a:1", [0; 1; 2]); ("s@c:1", [5])] [mkAddress "s" "b" 1 None; mkAddress "s" "a" 1 None] [1] = [5; 0; 2].
Proof. vm_compute. reflexivity. Qed.

Example hash_pass :
  @HashAllocationStrategy.rebalance code_point_compare [("s@a:1", [0; 1]); ("s@b:1", [2; 3])]
    [mkAddress "s" "b" 1 None; mkAddress "s" "a" 1 None] [] = Ok [1; 2].
Proof. vm_compute. reflexivity. Qed.
