(* ===== verification/ShardCoordinator.v ===== *)
(** * The shard coordinator: [src/cluster/sharding/ShardCoordinator.ts]

    The actor that says where every shard of one type lives.  It runs on every
    node and answers on the leader.  A handler is a function on the state that
    may throw half-way, keeping what it wrote; [step] gives every frame, timer,
    cluster event and lease answer its handler, and rebuilds the actor after a
    throw on its own turn.  The theorems are in [ShardCoordinatorTheorems]. *)

From S2P Require Import Prelude Json Member Downing BidirectionalMap Double ShardAllocation.
Import NodeAddress Member.

Local Open Scope Z_scope.

(** ** Data *)

Definition DEFAULT_REBALANCE_ABSOLUTE_LIMIT : Z := 0.
Definition DEFAULT_REBALANCE_RELATIVE_LIMIT : double := div (Integral 1) (Integral 10).
Definition DEFAULT_REGION_STALE_AFTER_MS : Z := 20000.
Definition ACQUIRE_BUFFER_CAP : Z := 1000.

Record ShardCoordinatorOptions := mkOptions {
  selfAddress : NodeAddress;
  numShards : Z;
  role : option string;
  has_lease : bool;
  rememberEntities : bool;
  has_rememberEntitiesStore : bool;
  has_coordinatorStateStore : bool;
  rebalanceAbsoluteLimit : option Z;
  rebalanceRelativeLimit : option double;
  staleRegionDetection : bool;
  regionStaleAfterMs : option Z;
  membershipSettleWindowMs : Z;
}.

(** What a handler finds around it: [cluster.isLeader()], [getMembers()], the
    wall clock, the system clock and the strategy, which may keep a state of
    its own and so may differ from one handler to the next. *)
Record View := mkView {
  leading : bool;
  view_members : list Member;
  Date_now : Z;
  clock_now : Z;
  strategy : AllocationStrategy;
}.

(** A frame as it arrived: addresses and the fields that are checked are JSON. *)
Inductive ShardingMessage : Type :=
| Register (region : string) (node : option json) (proxy : bool) (hostedShards numShards : option json)
| GetShardHome_ (shardId : option json) (requester : string) (requesterNode : option json)
| HandOffComplete (shardId : Z) (region : string) (node : option json)
| BeginHandOffAcknowledgment (shardId : Z)
| RegionTerminated (region : string) (node : option json)
| RegionHeartbeat (region : string) (node : option json)
| EntityStarted (shardId : Z) (entityId : string)
| EntityStopped (shardId : Z) (entityId : string)
| GetRememberedEntities (shardId : Z)
| GetClusterShardingStats (requester : string) (requesterNode : option json) (correlationId timeoutMs : Z)
| ShardRegionStats (queryId : Z) (region : string) (node : option json) (shards : list (Z * Z * bool))
| Unhandled.

(** A [GetShardHome] whose address was rebuilt. *)
Record GetShardHome := mkGetShardHome { g_shardId : Z; g_requester : string; g_requesterNode : NodeAddress }.

Record RegionInfo := mkRegion {
  node : NodeAddress;
  path : string;
  proxy : bool;
  shards : list Z;
  lastSeenAtMs : Z;
  lastHeartbeatAtMs : option Z;
  seededFromSnapshot : bool;
}.

Record StatsQuery := mkQuery {
  q_requester : string;
  q_requesterNode : option json;
  q_correlationId : Z;
  awaiting : list string;
  entityCounts : list (Z * Z);
  residents : list Z;
}.

Record EligibleSetRecord := mkEligible { eligible_keys : list string; changedAtMs : Z }.

Inductive LeaseState := lease_none | acquiring | held.
#[export] Instance LeaseState_eq_dec : EqDecision LeaseState.
Proof. solve_decision. Defined.

Record RegionInfoData := mkRegionData {
  d_key : string;
  d_node : NodeAddress;
  d_path : string;
  d_proxy : bool;
  d_shards : list Z;
}.

Record CoordinatorStateData := mkStateData {
  d_leader : string;
  d_takenAt : Z;
  d_regions : list RegionInfoData;
  d_shardHome : list (Z * string);
  d_numShards : option Z;
}.

Record ShardLocation := mkLocation { l_shardId : Z; l_node : NodeAddress; l_regionPath : string; l_entityCount : Z; l_resident : bool }.

(** What the coordinator tells regions. *)
Inductive Directive : Type :=
| ShardHome (shardId : Z) (region : string) (node : NodeAddress)
| HandOff (shardId : Z)
| RegisterAcknowledgment
| RegisterRefused (numShards : Z) (regionNumShards : option json)
| RegistrationRequest
| RememberedEntities (shardId : Z) (entityIds : list string)
| ShardMapUpdate (version : Z) (shards : list (Z * string)) (regions : list (string * string * string * bool * Z))
| RegionEvicted (silentForMs : Z)
| GetShardRegionStats (queryId : Z)
| ClusterShardingStats (correlationId : Z) (shards : list ShardLocation).

Inductive RememberEvent := Started (shardId : Z) (entityId : string) | Stopped (shardId : Z) (entityId : string).

(** Everything that leaves the actor, in order. *)
Inductive Effect : Type :=
| Told (path : string) (node : NodeAddress) (message : Directive)
| SaveState (data : CoordinatorStateData)
| LoadState
| AppendRemembered (event : RememberEvent)
| LeaseAcquire
| LeaseRelease
| SelfReconcile
| SelfRequestRegistrations (regions : list (string * NodeAddress)).

Record ShardCoordinator := mkCoordinator {
  regions : list (string * RegionInfo);
  shardHome : list (Z * string);
  pending : list (Z * list GetShardHome);
  rebalanceInProgress : list (Z * string);
  entitiesPerShard : list (Z * list string);
  statsQueries : list (Z * StatsQuery);
  nextStatsQuery : Z;
  refusedRegions : list string;
  leaseState : LeaseState;
  acquireBuffer : list ShardingMessage;
  acquireRetryTimer : bool;
  stateInFlight : bool;
  stateDirty : bool;
  shardMapVersion : Z;
  shardMapPublishTimer : bool;
  roleMismatchWarned : bool;
  noEligibleRegionWarned : bool;
  offCandidatePickWarned : list Z;
  eligibleSetRecord : option EligibleSetRecord;
  effects : list Effect;
}.

Definition construct : ShardCoordinator :=
  mkCoordinator [] [] [] [] [] [] 0 [] lease_none [] false false false 0 false false false [] None [].

(** Assignments to one field. *)
Definition set_regions (x : list (string * RegionInfo)) (c : ShardCoordinator) : ShardCoordinator :=
  mkCoordinator x (shardHome c) (pending c) (rebalanceInProgress c) (entitiesPerShard c) (statsQueries c)
    (nextStatsQuery c) (refusedRegions c) (leaseState c) (acquireBuffer c) (acquireRetryTimer c)
    (stateInFlight c) (stateDirty c) (shardMapVersion c) (shardMapPublishTimer c) (roleMismatchWarned c)
    (noEligibleRegionWarned c) (offCandidatePickWarned c) (eligibleSetRecord c) (effects c).
Definition set_shardHome (x : list (Z * string)) (c : ShardCoordinator) : ShardCoordinator :=
  mkCoordinator (regions c) x (pending c) (rebalanceInProgress c) (entitiesPerShard c) (statsQueries c)
    (nextStatsQuery c) (refusedRegions c) (leaseState c) (acquireBuffer c) (acquireRetryTimer c)
    (stateInFlight c) (stateDirty c) (shardMapVersion c) (shardMapPublishTimer c) (roleMismatchWarned c)
    (noEligibleRegionWarned c) (offCandidatePickWarned c) (eligibleSetRecord c) (effects c).
Definition set_pending (x : list (Z * list GetShardHome)) (c : ShardCoordinator) : ShardCoordinator :=
  mkCoordinator (regions c) (shardHome c) x (rebalanceInProgress c) (entitiesPerShard c) (statsQueries c)
    (nextStatsQuery c) (refusedRegions c) (leaseState c) (acquireBuffer c) (acquireRetryTimer c)
    (stateInFlight c) (stateDirty c) (shardMapVersion c) (shardMapPublishTimer c) (roleMismatchWarned c)
    (noEligibleRegionWarned c) (offCandidatePickWarned c) (eligibleSetRecord c) (effects c).
Definition set_rebalanceInProgress (x : list (Z * string)) (c : ShardCoordinator) : ShardCoordinator :=
  mkCoordinator (regions c) (shardHome c) (pending c) x (entitiesPerShard c) (statsQueries c) (nextStatsQuery c)
    (refusedRegions c) (leaseState c) (acquireBuffer c) (acquireRetryTimer c) (stateInFlight c) (stateDirty c)
    (shardMapVersion c) (shardMapPublishTimer c) (roleMismatchWarned c) (noEligibleRegionWarned c)
    (offCandidatePickWarned c) (eligibleSetRecord c) (effects c).
Definition set_entitiesPerShard (x : list (Z * list string)) (c : ShardCoordinator) : ShardCoordinator :=
  mkCoordinator (regions c) (shardHome c) (pending c) (rebalanceInProgress c) x (statsQueries c)
    (nextStatsQuery c) (refusedRegions c) (leaseState c) (acquireBuffer c) (acquireRetryTimer c)
    (stateInFlight c) (stateDirty c) (shardMapVersion c) (shardMapPublishTimer c) (roleMismatchWarned c)
    (noEligibleRegionWarned c) (offCandidatePickWarned c) (eligibleSetRecord c) (effects c).
Definition set_statsQueries (x : list (Z * StatsQuery)) (c : ShardCoordinator) : ShardCoordinator :=
  mkCoordinator (regions c) (shardHome c) (pending c) (rebalanceInProgress c) (entitiesPerShard c) x
    (nextStatsQuery c) (refusedRegions c) (leaseState c) (acquireBuffer c) (acquireRetryTimer c)
    (stateInFlight c) (stateDirty c) (shardMapVersion c) (shardMapPublishTimer c) (roleMismatchWarned c)
    (noEligibleRegionWarned c) (offCandidatePickWarned c) (eligibleSetRecord c) (effects c).
Definition set_nextStatsQuery (x : Z) (c : ShardCoordinator) : ShardCoordinator :=
  mkCoordinator (regions c) (shardHome c) (pending c) (rebalanceInProgress c) (entitiesPerShard c)
    (statsQueries c) x (refusedRegions c) (leaseState c) (acquireBuffer c) (acquireRetryTimer c)
    (stateInFlight c) (stateDirty c) (shardMapVersion c) (shardMapPublishTimer c) (roleMismatchWarned c)
    (noEligibleRegionWarned c) (offCandidatePickWarned c) (eligibleSetRecord c) (effects c).
Definition set_refusedRegions (x : list string) (c : ShardCoordinator) : ShardCoordinator :=
  mkCoordinator (regions c) (shardHome c) (pending c) (rebalanceInProgress c) (entitiesPerShard c)
    (statsQueries c) (nextStatsQuery c) x (leaseState c) (acquireBuffer c) (acquireRetryTimer c)
    (stateInFlight c) (stateDirty c) (shardMapVersion c) (shardMapPublishTimer c) (roleMismatchWarned c)
    (noEligibleRegionWarned c) (offCandidatePickWarned c) (eligibleSetRecord c) (effects c).
Definition set_leaseState (x : LeaseState) (c : ShardCoordinator) : ShardCoordinator :=
  mkCoordinator (regions c) (shardHome c) (pending c) (rebalanceInProgress c) (entitiesPerShard c)
    (statsQueries c) (nextStatsQuery c) (refusedRegions c) x (acquireBuffer c) (acquireRetryTimer c)
    (stateInFlight c) (stateDirty c) (shardMapVersion c) (shardMapPublishTimer c) (roleMismatchWarned c)
    (noEligibleRegionWarned c) (offCandidatePickWarned c) (eligibleSetRecord c) (effects c).
Definition set_acquireBuffer (x : list ShardingMessage) (c : ShardCoordinator) : ShardCoordinator :=
  mkCoordinator (regions c) (shardHome c) (pending c) (rebalanceInProgress c) (entitiesPerShard c)
    (statsQueries c) (nextStatsQuery c) (refusedRegions c) (leaseState c) x (acquireRetryTimer c)
    (stateInFlight c) (stateDirty c) (shardMapVersion c) (shardMapPublishTimer c) (roleMismatchWarned c)
    (noEligibleRegionWarned c) (offCandidatePickWarned c) (eligibleSetRecord c) (effects c).
Definition set_acquireRetryTimer (x : bool) (c : ShardCoordinator) : ShardCoordinator :=
  mkCoordinator (regions c) (shardHome c) (pending c) (rebalanceInProgress c) (entitiesPerShard c)
    (statsQueries c) (nextStatsQuery c) (refusedRegions c) (leaseState c) (acquireBuffer c) x (stateInFlight c)
    (stateDirty c) (shardMapVersion c) (shardMapPublishTimer c) (roleMismatchWarned c)
    (noEligibleRegionWarned c) (offCandidatePickWarned c) (eligibleSetRecord c) (effects c).
Definition set_stateInFlight (x : bool) (c : ShardCoordinator) : ShardCoordinator :=
  mkCoordinator (regions c) (shardHome c) (pending c) (rebalanceInProgress c) (entitiesPerShard c)
    (statsQueries c) (nextStatsQuery c) (refusedRegions c) (leaseState c) (acquireBuffer c)
    (acquireRetryTimer c) x (stateDirty c) (shardMapVersion c) (shardMapPublishTimer c) (roleMismatchWarned c)
    (noEligibleRegionWarned c) (offCandidatePickWarned c) (eligibleSetRecord c) (effects c).
Definition set_stateDirty (x : bool) (c : ShardCoordinator) : ShardCoordinator :=
  mkCoordinator (regions c) (shardHome c) (pending c) (rebalanceInProgress c) (entitiesPerShard c)
    (statsQueries c) (nextStatsQuery c) (refusedRegions c) (leaseState c) (acquireBuffer c)
    (acquireRetryTimer c) (stateInFlight c) x (shardMapVersion c) (shardMapPublishTimer c)
    (roleMismatchWarned c) (noEligibleRegionWarned c) (offCandidatePickWarned c) (eligibleSetRecord c)
    (effects c).
Definition set_shardMapVersion (x : Z) (c : ShardCoordinator) : ShardCoordinator :=
  mkCoordinator (regions c) (shardHome c) (pending c) (rebalanceInProgress c) (entitiesPerShard c)
    (statsQueries c) (nextStatsQuery c) (refusedRegions c) (leaseState c) (acquireBuffer c)
    (acquireRetryTimer c) (stateInFlight c) (stateDirty c) x (shardMapPublishTimer c) (roleMismatchWarned c)
    (noEligibleRegionWarned c) (offCandidatePickWarned c) (eligibleSetRecord c) (effects c).
Definition set_shardMapPublishTimer (x : bool) (c : ShardCoordinator) : ShardCoordinator :=
  mkCoordinator (regions c) (shardHome c) (pending c) (rebalanceInProgress c) (entitiesPerShard c)
    (statsQueries c) (nextStatsQuery c) (refusedRegions c) (leaseState c) (acquireBuffer c)
    (acquireRetryTimer c) (stateInFlight c) (stateDirty c) (shardMapVersion c) x (roleMismatchWarned c)
    (noEligibleRegionWarned c) (offCandidatePickWarned c) (eligibleSetRecord c) (effects c).
Definition set_roleMismatchWarned (x : bool) (c : ShardCoordinator) : ShardCoordinator :=
  mkCoordinator (regions c) (shardHome c) (pending c) (rebalanceInProgress c) (entitiesPerShard c)
    (statsQueries c) (nextStatsQuery c) (refusedRegions c) (leaseState c) (acquireBuffer c)
    (acquireRetryTimer c) (stateInFlight c) (stateDirty c) (shardMapVersion c) (shardMapPublishTimer c) x
    (noEligibleRegionWarned c) (offCandidatePickWarned c) (eligibleSetRecord c) (effects c).
Definition set_noEligibleRegionWarned (x : bool) (c : ShardCoordinator) : ShardCoordinator :=
  mkCoordinator (regions c) (shardHome c) (pending c) (rebalanceInProgress c) (entitiesPerShard c)
    (statsQueries c) (nextStatsQuery c) (refusedRegions c) (leaseState c) (acquireBuffer c)
    (acquireRetryTimer c) (stateInFlight c) (stateDirty c) (shardMapVersion c) (shardMapPublishTimer c)
    (roleMismatchWarned c) x (offCandidatePickWarned c) (eligibleSetRecord c) (effects c).
Definition set_offCandidatePickWarned (x : list Z) (c : ShardCoordinator) : ShardCoordinator :=
  mkCoordinator (regions c) (shardHome c) (pending c) (rebalanceInProgress c) (entitiesPerShard c)
    (statsQueries c) (nextStatsQuery c) (refusedRegions c) (leaseState c) (acquireBuffer c)
    (acquireRetryTimer c) (stateInFlight c) (stateDirty c) (shardMapVersion c) (shardMapPublishTimer c)
    (roleMismatchWarned c) (noEligibleRegionWarned c) x (eligibleSetRecord c) (effects c).
Definition set_eligibleSetRecord (x : option EligibleSetRecord) (c : ShardCoordinator) : ShardCoordinator :=
  mkCoordinator (regions c) (shardHome c) (pending c) (rebalanceInProgress c) (entitiesPerShard c)
    (statsQueries c) (nextStatsQuery c) (refusedRegions c) (leaseState c) (acquireBuffer c)
    (acquireRetryTimer c) (stateInFlight c) (stateDirty c) (shardMapVersion c) (shardMapPublishTimer c)
    (roleMismatchWarned c) (noEligibleRegionWarned c) (offCandidatePickWarned c) x (effects c).
Definition set_effects (x : list Effect) (c : ShardCoordinator) : ShardCoordinator :=
  mkCoordinator (regions c) (shardHome c) (pending c) (rebalanceInProgress c) (entitiesPerShard c)
    (statsQueries c) (nextStatsQuery c) (refusedRegions c) (leaseState c) (acquireBuffer c)
    (acquireRetryTimer c) (stateInFlight c) (stateDirty c) (shardMapVersion c) (shardMapPublishTimer c)
    (roleMismatchWarned c) (noEligibleRegionWarned c) (offCandidatePickWarned c) (eligibleSetRecord c) x.


(** ** Handlers

    [true] when the handler returned, [false] when it threw; what it wrote
    before stays written. *)

Definition handler : Type := ShardCoordinator → ShardCoordinator * bool.

Definition does (f : ShardCoordinator → ShardCoordinator) : handler := λ c, (f c, true).
Definition throws : handler := λ c, (c, false).
Definition returns : handler := λ c, (c, true).
Definition andthen (a b : handler) : handler := λ c, let '(c, fine) := a c in if fine then b c else (c, false).

Notation "a ;; b" := (andthen a b) (at level 100, b at level 200, right associativity) : actor_scope.

(** A [for] loop over a list fixed before it starts. *)
Fixpoint each {A} (f : A → handler) (l : list A) : handler :=
  match l with [] => returns | x :: l => f x ;; each f l end.

Definition emit (e : Effect) (c : ShardCoordinator) : ShardCoordinator := set_effects (effects c ++ [e]) c.

(** ** Reading the registry *)

Definition regionKey (node : NodeAddress) (path : string) : string := toString node +:+ "|" +:+ path.

Definition regionKeyOn (node_ : NodeAddress) (entries : list (string * RegionInfo)) : option string :=
  fst <$> List.find (λ e, equals (node e.2) node_) entries.

Definition nodesOf (entries : list (string * RegionInfo)) : list NodeAddress := (λ e, node e.2) <$> entries.

Definition shardCountsOf (infos : list RegionInfo) : ShardMap :=
  foldl (λ out info,
    if proxy info then out
    else let address := toString (node info) in
         map_set out address (foldl set_add (default [] (map_get out address)) (shards info))) [] infos.

(** [replyTo] with an address of the coordinator's own. *)
Definition tell (path : string) (node : NodeAddress) (message : Directive) : ShardCoordinator → ShardCoordinator :=
  emit (Told path node message).

(** [replyTo] with an address off the wire. *)
Definition replyTo (path : string) (nodeData : option json) (message : Directive) : handler :=
  match fromJSON nodeData with Some node => does (tell path node message) | None => throws end.

Definition sendToRegion (key : string) (message : Directive) (c : ShardCoordinator) : ShardCoordinator :=
  match map_get (regions c) key with
  | Some info => tell (path info) (node info) message c
  | None => c
  end.

Section coordinator.
Context (o : ShardCoordinatorOptions) (v : View).

Implicit Types (c : ShardCoordinator) (key : string) (shardId : Z).

Definition isLeader : bool := leading v.

Definition isActive c : bool :=
  if has_lease o then isLeader && bool_decide (leaseState c = held) else isLeader.

Definition memberRecord (node : NodeAddress) : option Member := List.find (λ m, equals (address m) node) (view_members v).

Definition isUpMember (node : NodeAddress) : bool :=
  match memberRecord node with Some m => bool_decide (status m = up) | None => false end.

Definition awaitsMembershipDecision (node : NodeAddress) : bool :=
  match memberRecord node with Some _ => negb (isUpMember node) | None => false end.

(** The role test of [candidateRegions]; an empty role counts as none. *)
Definition carriesRole (node : NodeAddress) : bool :=
  match role o with
  | Some r => if bool_decide (r = "") then true
              else match memberRecord node with Some m => hasRole r m | None => false end
  | None => true
  end.

Definition is_candidate c (e : string * RegionInfo) : bool :=
  negb (proxy e.2 || set_has (refusedRegions c) e.1) && carriesRole (node e.2).

Definition candidateRegions c : list (string * RegionInfo) := filter (λ e, is_candidate c e = true) (regions c).

Definition eligible_of (candidates : list (string * RegionInfo)) : list (string * RegionInfo) :=
  filter (λ e, isUpMember (node e.2) = true) candidates.

Definition observeEligibleSet (candidates : list (string * RegionInfo)) c : ShardCoordinator :=
  let keys := sort_strings (eligible_of candidates).*1 in
  if bool_decide (eligible_keys <$> eligibleSetRecord c = Some keys) then c
  else set_eligibleSetRecord (Some (mkEligible keys (clock_now v))) c.

Definition isEligibleSetSettled c : bool :=
  match eligibleSetRecord c with
  | Some r => clock_now v - changedAtMs r >=? membershipSettleWindowMs o
  | None => false
  end.

Definition currentShardCounts c : ShardMap := shardCountsOf (regions c).*2.

Definition shardCountsOnUpMembers c : ShardMap := shardCountsOf (filter (λ i, isUpMember (node i) = true) (regions c).*2).

Definition isShardIdInRange (shardId : option json) : option Z :=
  match shardId with
  | Some (JNumber (Num n)) => if (0 <=? n) && (n <? numShards o) then Some n else None
  | _ => None
  end.

(** ** Saving and broadcasting the map *)

Definition snapshotCoordinatorState c : CoordinatorStateData :=
  mkStateData (toString (selfAddress o)) (Date_now v)
    ((λ e, mkRegionData e.1 (node e.2) (path e.2) (proxy e.2) (shards e.2)) <$> regions c)
    (shardHome c) (Some (numShards o)).

Definition scheduleCoordinatorStateSave c : ShardCoordinator :=
  if negb (has_coordinatorStateStore o) then c
  else if negb isLeader then c
  else if stateInFlight c then set_stateDirty true c
  else emit (SaveState (snapshotCoordinatorState c)) (set_stateInFlight true c).

(** The [finally] of a save. *)
Definition onSaved c : ShardCoordinator :=
  let c := set_stateInFlight false c in
  if stateDirty c then scheduleCoordinatorStateSave (set_stateDirty false c) else c.

Definition scheduleShardMapPublish c : ShardCoordinator := set_shardMapPublishTimer true c.

Definition afterShardMapChange c : ShardCoordinator := scheduleShardMapPublish (scheduleCoordinatorStateSave c).

Definition publishShardMap c : ShardCoordinator :=
  if negb (isActive c) then c
  else
    let c := set_shardMapVersion (shardMapVersion c + 1) c in
    let update := ShardMapUpdate (shardMapVersion c) (shardHome c)
      ((λ e, (e.1, toString (node e.2), path e.2, proxy e.2, Z.of_nat (length (shards e.2)))) <$> regions c) in
    foldl (λ c key, sendToRegion key update c) c (regions c).*1.

(** The callback of the publish timer. *)
Definition onPublishTimer c : ShardCoordinator := publishShardMap (set_shardMapPublishTimer false c).

(** ** Allocation *)

Definition set_shards key (s : list Z) c : ShardCoordinator :=
  match map_get (regions c) key with
  | Some i => set_regions (map_set (regions c) key
      (mkRegion (node i) (path i) (proxy i) s (lastSeenAtMs i) (lastHeartbeatAtMs i) (seededFromSnapshot i))) c
  | None => c
  end.

Definition shards_of c key : list Z := match map_get (regions c) key with Some i => shards i | None => [] end.

Definition flushPending shardId c : ShardCoordinator :=
  match map_get (pending c) shardId, map_get (shardHome c) shardId with
  | Some (q :: queries), Some home =>
      match map_get (regions c) home with
      | Some info =>
          set_pending (map_delete (pending c) shardId)
            (foldl (λ c q, tell (g_requester q) (g_requesterNode q) (ShardHome shardId (path info) (node info)) c) c (q :: queries))
      | None => c
      end
  | _, _ => c
  end.

Definition shipRememberedEntities shardId c : ShardCoordinator :=
  match map_get (entitiesPerShard c) shardId, map_get (shardHome c) shardId with
  | Some (e :: es), Some home => sendToRegion home (RememberedEntities shardId (e :: es)) c
  | _, _ => c
  end.

Definition warnOffCandidatePick shardId c : ShardCoordinator :=
  set_offCandidatePickWarned (set_add (offCandidatePickWarned c) shardId) c.

Definition warnRoleMatchesNoRegion c : ShardCoordinator :=
  match role o with
  | None => c
  | Some r =>
      if bool_decide (r = "") || roleMismatchWarned c then c
      else if bool_decide (filter (λ i, proxy i = false) (regions c).*2 = []) then c
      else set_roleMismatchWarned true c
  end.

(** The last ask of [placementFor]: an error when the strategy throws, [None]
    when its pick is no candidate of that ask. *)
Definition askEligible shardId (eligible : list (string * RegionInfo)) c
    : ShardCoordinator * result AllocationError (option string) :=
  match @allocate (strategy v) shardId (nodesOf eligible) (shardCountsOf eligible.*2) with
  | Err e => (c, Err e)
  | Ok pick =>
      let placed := regionKeyOn pick eligible in
      (if bool_decide (placed = None) then warnOffCandidatePick shardId c else c, Ok placed)
  end.

Definition placementFor shardId (candidates eligible : list (string * RegionInfo)) c
    : ShardCoordinator * result AllocationError (option string) :=
  if isEligibleSetSettled c then askEligible shardId eligible c
  else match @allocate (strategy v) shardId (nodesOf candidates) (currentShardCounts c) with
       | Err e => (c, Err e)
       | Ok pick =>
           match regionKeyOn pick eligible with
           | Some key => (c, Ok (Some key))
           | None =>
               askEligible shardId eligible
                 (if bool_decide (regionKeyOn pick candidates = None) then warnOffCandidatePick shardId c else c)
           end
       end.

(** The end of [tryAllocate], once a region is chosen. *)
Definition place shardId key c : ShardCoordinator :=
  let c := set_noEligibleRegionWarned false c in
  let c := set_offCandidatePickWarned (set_delete (offCandidatePickWarned c) shardId) c in
  let c := set_shardHome (map_set (shardHome c) shardId key) c in
  let c := set_shards key (set_add (shards_of c key) shardId) c in
  let c := match map_get (regions c) key with
           | Some info => sendToRegion key (ShardHome shardId (path info) (node info)) c
           | None => c
           end in
  let c := flushPending shardId c in
  let c := if rememberEntities o then shipRememberedEntities shardId c else c in
  afterShardMapChange c.

Definition tryAllocate shardId : handler := λ c,
  let candidates := candidateRegions c in
  let eligible := eligible_of candidates in
  let c := observeEligibleSet candidates c in
  if bool_decide (candidates = []) then (warnRoleMatchesNoRegion c, true)
  else
    let c := set_roleMismatchWarned false c in
    if bool_decide (eligible = []) then (set_noEligibleRegionWarned true c, true)
    else match placementFor shardId candidates eligible c with
         | (c, Err _) => (c, false)
         | (c, Ok None) => (c, true)
         | (c, Ok (Some key)) => (place shardId key c, true)
         end.

(** ** Registration *)

(** [this.regions.get(key)!.lastSeenAtMs = now]. *)
Definition set_seen key (now : Z) (beat : bool) c : ShardCoordinator :=
  match map_get (regions c) key with
  | Some i => set_regions (map_set (regions c) key
      (mkRegion (node i) (path i) (proxy i) (shards i) now
        (if beat then Some now else lastHeartbeatAtMs i) (seededFromSnapshot i))) c
  | None => c
  end.

Definition markRegionSeen key c : ShardCoordinator := set_seen key (Date_now v) false c.

(** [acceptedHostedShards]: the loop over the claim. *)
Fixpoint accept_loop (accepted : list Z) (claimed : list json) : list Z :=
  match claimed with
  | [] => accepted
  | shardId :: rest =>
      if Z.of_nat (length accepted) >=? numShards o then accepted
      else accept_loop (match isShardIdInRange (Some shardId) with Some n => set_add accepted n | None => accepted end) rest
  end.

Definition acceptedHostedShards (hostedShards : option json) : list Z :=
  match hostedShards with Some (JArray claimed) => accept_loop [] claimed | _ => [] end.

Record ClaimVerdict := mkVerdict { adopted : list Z; conflicting : list Z; owned : list Z }.

(** Whether an id is homed to another region that is registered. *)
Definition ownedElsewhere c key shardId : bool :=
  match map_get (shardHome c) shardId with
  | Some home => negb (bool_decide (home = key)) && map_has (regions c) home
  | None => false
  end.

Definition adjudicateClaim c key (claimed : list Z) : ClaimVerdict :=
  let adopted := filter (λ s, ownedElsewhere c key s = false) claimed in
  let conflicting := filter (λ s, ownedElsewhere c key s = true) claimed in
  let homed := (filter (λ e : Z * string, e.2 = key) (shardHome c)).*1 in
  mkVerdict adopted conflicting (foldl set_add adopted homed).

(** One turn of the loop that writes the adopted homes. *)
Definition adopt key shardId c : ShardCoordinator :=
  let c := match map_get (shardHome c) shardId with
           | Some previous =>
               if bool_decide (previous ≠ key) then set_shards previous (set_delete (shards_of c previous) shardId) c else c
           | None => c
           end in
  set_shardHome (map_set (shardHome c) shardId key) c.

Definition releaseConflictingShards key (conflicting : list Z) c : ShardCoordinator :=
  foldl (λ c shardId, if map_has (rebalanceInProgress c) shardId then c else sendToRegion key (HandOff shardId) c) c conflicting.

(** What a registration writes into the map. *)
Definition record_registration (node_ : NodeAddress) (path_ : string) (proxy_ : bool) (verdict : ClaimVerdict) c
    : ShardCoordinator :=
  let key := regionKey node_ path_ in
  let beat := match map_get (regions c) key with Some i => lastHeartbeatAtMs i | None => None end in
  let c := set_regions (map_set (regions c) key (mkRegion node_ path_ proxy_ (owned verdict) (Date_now v) beat false)) c in
  foldl (λ c s, adopt key s c) c (adopted verdict).

(** And what it answers. *)
Definition answer_registration (node_ : NodeAddress) (path_ : string) (verdict : ClaimVerdict) c : ShardCoordinator :=
  let c := tell path_ node_ RegisterAcknowledgment c in
  let c := releaseConflictingShards (regionKey node_ path_) (conflicting verdict) c in
  let c := foldl (λ c s, flushPending s c) c (adopted verdict) in
  let c := if rememberEntities o then foldl (λ c s, shipRememberedEntities s c) c (adopted verdict) else c in
  afterShardMapChange c.

(** The part of [onRegister] after the shard counts agreed. *)
Definition register_region (node_ : NodeAddress) (path_ : string) (proxy_ : bool) (hostedShards : option json) c
    : ShardCoordinator :=
  let hosted := acceptedHostedShards hostedShards in
  let verdict := adjudicateClaim c (regionKey node_ path_) hosted in
  answer_registration node_ path_ verdict (record_registration node_ path_ proxy_ verdict c).

(** [message.numShards === this.options.numShards]. *)
Definition isAgreedNumShards (numShards_ : option json) : bool :=
  match numShards_ with Some (JNumber (Num n)) => n =? numShards o | _ => false end.

Definition onRegister (region : string) (nodeData : option json) (proxy_ : bool) (hostedShards numShards_ : option json)
    : handler := λ c,
  match fromJSON nodeData with
  | None => (c, false)
  | Some n =>
      let key := regionKey n region in
      if isAgreedNumShards numShards_ then
        (register_region n region proxy_ hostedShards (set_refusedRegions (set_delete (refusedRegions c) key) c), true)
      else
        (tell region n (RegisterRefused (numShards o) numShards_) (set_refusedRegions (set_add (refusedRegions c) key) c), true)
  end.

Definition onRegionHeartbeat (region : string) (nodeData : option json) : handler := λ c,
  match fromJSON nodeData with
  | None => (c, false)
  | Some n =>
      let key := regionKey n region in
      match map_get (regions c) key with
      | Some _ => (set_seen key (Date_now v) true c, true)
      | None => (if set_has (refusedRegions c) key then c else tell region n RegistrationRequest c, true)
      end
  end.

(** ** Homes *)

Definition onGetShardHome (shardId_ : option json) (requester : string) (requesterNode : option json) : handler := λ c,
  match fromJSON requesterNode with
  | None => (c, false)
  | Some n =>
      let key := regionKey n requester in
      let c := markRegionSeen key c in
      match isShardIdInRange shardId_ with
      | None => (c, true)
      | Some shardId =>
          if set_has (refusedRegions c) key then (c, true)
          else
            let registered home := match map_get (regions c) home with Some info => Some info | None => None end in
            match map_get (shardHome c) shardId ≫= registered with
            | Some info => (tell requester n (ShardHome shardId (path info) (node info)) c, true)
            | None =>
                let waiting := default [] (map_get (pending c) shardId) in
                let c := set_pending (map_set (pending c) shardId (waiting ++ [mkGetShardHome shardId requester n])) c in
                if map_has (rebalanceInProgress c) shardId then (c, true) else tryAllocate shardId c
            end
      end
  end.

Definition releaseFromPreviousOwner shardId (previousOwnerKey : string) c : ShardCoordinator :=
  let c := set_shards previousOwnerKey (set_delete (shards_of c previousOwnerKey) shardId) c in
  set_shardHome (map_delete (shardHome c) shardId) c.

Definition onHandOffComplete shardId (region : string) (nodeData : option json) : handler := λ c,
  match fromJSON nodeData with
  | None => (c, false)
  | Some n =>
      let key := regionKey n region in
      let c := markRegionSeen key c in
      match map_get (rebalanceInProgress c) shardId with
      | None => (c, true)
      | Some from =>
          if bool_decide (from ≠ key) then (c, true)
          else
            let c := set_rebalanceInProgress (map_delete (rebalanceInProgress c) shardId) c in
            tryAllocate shardId (releaseFromPreviousOwner shardId from c)
      end
  end.

Definition onHandOffTimeout shardId : handler := λ c,
  match map_get (rebalanceInProgress c) shardId with
  | None => (c, true)
  | Some from =>
      let c := set_rebalanceInProgress (map_delete (rebalanceInProgress c) shardId) c in
      tryAllocate shardId (releaseFromPreviousOwner shardId from c)
  end.

(** ** Remembered entities *)

Definition applyRememberEvent (event : RememberEvent) c : ShardCoordinator :=
  match event with
  | Started s e =>
      set_entitiesPerShard (map_set (entitiesPerShard c) s (set_add (default [] (map_get (entitiesPerShard c) s)) e)) c
  | Stopped s e =>
      match map_get (entitiesPerShard c) s with
      | None => c
      | Some es =>
          let es := set_delete es e in
          set_entitiesPerShard (if bool_decide (es = []) then map_delete (entitiesPerShard c) s
                                else map_set (entitiesPerShard c) s es) c
      end
  end.

Definition persistRememberEvent (event : RememberEvent) c : ShardCoordinator :=
  if has_rememberEntitiesStore o then emit (AppendRemembered event) c else c.

Definition onEntityStarted shardId (entityId : string) c : ShardCoordinator :=
  if negb (rememberEntities o) then c
  else persistRememberEvent (Started shardId entityId) (applyRememberEvent (Started shardId entityId) c).

Definition onEntityStopped shardId (entityId : string) c : ShardCoordinator :=
  if negb (rememberEntities o) then applyRememberEvent (Stopped shardId entityId) c
  else if map_has (rebalanceInProgress c) shardId then c
  else persistRememberEvent (Stopped shardId entityId) (applyRememberEvent (Stopped shardId entityId) c).

Definition onGetRememberedEntities shardId c : ShardCoordinator :=
  if rememberEntities o then shipRememberedEntities shardId c else c.

(** ** Statistics *)

Definition location_le (a b : ShardLocation) : Prop := l_shardId a ≤ l_shardId b.
#[export] Instance location_le_dec : RelDecision location_le.
Proof. intros a b. unfold location_le. apply _. Defined.

Definition answerStatsQuery (q : StatsQuery) : handler := λ c,
  let located := omap (λ e : Z * string,
    info ← map_get (regions c) e.2;
    Some (mkLocation e.1 (node info) (path info) (default 0 (map_get (entityCounts q) e.1)) (set_has (residents q) e.1)))
    (shardHome c) in
  let shards := merge_sort location_le located in
  replyTo (q_requester q) (q_requesterNode q) (ClusterShardingStats (q_correlationId q) shards) c.

Definition onGetClusterShardingStats (requester : string) (requesterNode : option json) (correlationId : Z) : handler := λ c,
  let targets := (filter (λ e : string * RegionInfo, proxy e.2 = false) (regions c)).*1 in
  let query := mkQuery requester requesterNode correlationId (set_of targets) [] [] in
  if bool_decide (awaiting query = []) then answerStatsQuery query c
  else
    let queryId := nextStatsQuery c + 1 in
    let c := set_statsQueries (map_set (statsQueries c) queryId query) (set_nextStatsQuery queryId c) in
    (foldl (λ c key, sendToRegion key (GetShardRegionStats queryId) c) c targets, true).

Definition count_entry (q : StatsQuery) (entry : Z * Z * bool) : StatsQuery :=
  let '(shardId, entityCount, resident) := entry in
  mkQuery (q_requester q) (q_requesterNode q) (q_correlationId q) (awaiting q)
    (map_set (entityCounts q) shardId (default 0 (map_get (entityCounts q) shardId) + entityCount))
    (if resident : bool then set_add (residents q) shardId else residents q).

Definition onShardRegionStats (queryId : Z) (region : string) (nodeData : option json) (entries : list (Z * Z * bool))
    : handler := λ c,
  match fromJSON nodeData with
  | None => (c, false)
  | Some n =>
      let key := regionKey n region in
      let c := markRegionSeen key c in
      match map_get (statsQueries c) queryId with
      | None => (c, true)
      | Some q =>
          if negb (set_has (awaiting q) key) then (c, true)
          else
            let q := mkQuery (q_requester q) (q_requesterNode q) (q_correlationId q) (set_delete (awaiting q) key)
                       (entityCounts q) (residents q) in
            let q := foldl count_entry q entries in
            if bool_decide (awaiting q ≠ []) then (set_statsQueries (map_set (statsQueries c) queryId q) c, true)
            else answerStatsQuery q (set_statsQueries (map_delete (statsQueries c) queryId) c)
      end
  end.

(** The deadline of a query. *)
Definition onStatsTimeout (queryId : Z) : handler := λ c,
  match map_get (statsQueries c) queryId with
  | None => (c, true)
  | Some q => answerStatsQuery q (set_statsQueries (map_delete (statsQueries c) queryId) c)
  end.

(** ** Losing a region *)

(** One turn of the loop over the shards of a lost region. *)
Definition rehome shardId : handler := λ c,
  let c := set_shardHome (map_delete (shardHome c) shardId) c in
  let c := set_rebalanceInProgress (map_delete (rebalanceInProgress c) shardId) c in
  tryAllocate shardId c.

(** [onRegionTerminated] from the region's key on. *)
Definition terminateRegion key : handler := λ c,
  match map_get (regions c) key with
  | None => (c, true)
  | Some info => (each rehome (shards info) ;; does afterShardMapChange) (set_regions (map_delete (regions c) key) c)
  end.

Definition onRegionTerminated (region : string) (nodeData : option json) : handler := λ c,
  match fromJSON nodeData with
  | None => (c, false)
  | Some n => terminateRegion (regionKey n region) c
  end.

Definition onMemberRemoved (addr : NodeAddress) : handler := λ c,
  each (λ info, if equals (node info) addr then terminateRegion (regionKey addr (path info)) else returns) (regions c).*2 c.

(** [sweepStaleRegions]: one turn of its loop. *)
Definition sweep_region (info : RegionInfo) : handler := λ c,
  let key := regionKey (node info) (path info) in
  let now := Date_now v in
  if awaitsMembershipDecision (node info) then (set_seen key now false c, true)
  else if bool_decide (lastHeartbeatAtMs info = None) && negb (seededFromSnapshot info) then (c, true)
  else
    let silentForMs := now - lastSeenAtMs info in
    if silentForMs <? default DEFAULT_REGION_STALE_AFTER_MS (regionStaleAfterMs o) then (c, true)
    else (terminateRegion key ;; does (tell (path info) (node info) (RegionEvicted silentForMs))) c.

Definition sweepStaleRegions : handler := λ c,
  if staleRegionDetection o then each sweep_region (regions c).*2 c else (c, true).

(** ** Rebalancing *)

Definition is_positive (d : double) : bool :=
  match to_spec_float d with
  | SpecFloat.S754_finite s _ _ | SpecFloat.S754_infinity s => negb s
  | _ => false
  end.

(** [None] is [Infinity]. *)
Definition rebalanceCeiling : option Z :=
  let absolute := default DEFAULT_REBALANCE_ABSOLUTE_LIMIT (rebalanceAbsoluteLimit o) in
  let relative := default DEFAULT_REBALANCE_RELATIVE_LIMIT (rebalanceRelativeLimit o) in
  let fromAbsolute := if absolute >? 0 then Some absolute else None in
  let fromRelative := if is_positive relative then truncate (mul relative (Integral (numShards o))) else None in
  match fromAbsolute, fromRelative with
  | Some a, Some b => Some (Z.max 1 (Z.min a b))
  | Some a, None | None, Some a => Some (Z.max 1 a)
  | None, None => None
  end.

Definition spent (budget : option Z) (picked : list Z) : bool :=
  match budget with Some b => Z.of_nat (length picked) >=? b | None => false end.

(** One round over the owners' queues; [true] when some queue had a shard. *)
Fixpoint one_round (budget : option Z) (round : nat) (queues : list (list Z)) (picked : list Z) (progressed : bool)
    : list Z * bool :=
  match queues with
  | [] => (picked, progressed)
  | q :: queues =>
      match q !! round with
      | None => one_round budget round queues picked progressed
      | Some shardId =>
          let picked := picked ++ [shardId] in
          if spent budget picked then (picked, true) else one_round budget round queues picked true
      end
  end.

Fixpoint rounds (fuel : nat) (budget : option Z) (round : nat) (queues : list (list Z)) (picked : list Z) : list Z :=
  match fuel with
  | O => picked
  | S fuel =>
      if spent budget picked then picked
      else let '(picked, progressed) := one_round budget round queues picked false in
           if progressed then rounds fuel budget (S round) queues picked else picked
  end.

(** The shards to move by owner. *)
Definition by_owner c (shardsToMove : list Z) : list (string * list Z) :=
  foldl (λ m shardId,
    match map_get (shardHome c) shardId with
    | Some owner => map_set m owner (default [] (map_get m owner) ++ [shardId])
    | None => m
    end) [] shardsToMove.

Definition key_le (a b : string * list Z) : Prop := string_le a.1 b.1.
#[export] Instance key_le_dec : RelDecision key_le.
Proof. intros a b. unfold key_le. apply _. Defined.

Definition owner_queues c (shardsToMove : list Z) : list (list Z) :=
  (λ e : string * list Z, sort_numbers e.2) <$> merge_sort key_le (by_owner c shardsToMove).

Definition shardsWithinBudget c (shardsToMove : list Z) (budget : option Z) : list Z :=
  rounds (S (length shardsToMove)) budget 0 (owner_queues c shardsToMove) [].

Definition ownedByUp c shardId : bool :=
  match map_get (shardHome c) shardId ≫= map_get (regions c) with
  | Some owner => isUpMember (node owner)
  | None => false
  end.

Definition ownedByUpMembers c (proposed : list Z) : list Z := filter (λ s, ownedByUp c s = true) (set_of proposed).

Definition beginHandOff shardId c : ShardCoordinator :=
  match map_get (shardHome c) shardId with
  | Some ownerKey =>
      match map_get (regions c) ownerKey with
      | Some _ => sendToRegion ownerKey (HandOff shardId)
                    (set_rebalanceInProgress (map_set (rebalanceInProgress c) shardId ownerKey) c)
      | None => c
      end
  | None => c
  end.

(** [rebalanceTick] after the sweep. *)
Definition rebalance_pass : handler := λ c,
  let candidates := candidateRegions c in
  let eligible := eligible_of candidates in
  let c := observeEligibleSet candidates c in
  if negb (isEligibleSetSettled c) then (c, true)
  else match @rebalance (strategy v) (shardCountsOnUpMembers c) (nodesOf eligible) (rebalanceInProgress c).*1 with
       | Err _ => (c, false)
       | Ok proposed =>
           let inFlight := Z.of_nat (length (rebalanceInProgress c)) in
           let budget := (λ b, b - inFlight) <$> rebalanceCeiling in
           if match budget with Some b => b <=? 0 | None => false end then (c, true)
           else (foldl (λ c s, beginHandOff s c) c (shardsWithinBudget c (ownedByUpMembers c proposed) budget), true)
       end.

Definition rebalanceTick : handler := sweepStaleRegions ;; rebalance_pass.

(** The callback of the rebalance timer. *)
Definition onRebalanceTimer : handler := λ c, if isActive c then rebalanceTick c else (c, true).

(** ** Who may speak *)

Definition claimedNode (message : ShardingMessage) : option (option json) :=
  match message with
  | Register _ n _ _ _ | RegionTerminated _ n | RegionHeartbeat _ n | HandOffComplete _ _ n
  | GetShardHome_ _ _ n | GetClusterShardingStats _ n _ _ | ShardRegionStats _ _ n _ => Some n
  | _ => None
  end.

Definition namesPeer (claimed : option json) (peer : NodeAddress) : bool :=
  match field claimed "systemName", field claimed "host", field claimed "port" with
  | Some (JString s), Some (JString h), Some (JNumber (Num p)) =>
      bool_decide (s = systemName peer) && bool_decide (h = host peer) && (p =? port peer)
  | _, _, _ => false
  end.

(** [None]: the frame reached the mailbox unattributed. *)
Definition maySpeakFor (message : ShardingMessage) (peer : option NodeAddress) : bool :=
  match peer with
  | None => false
  | Some peer => match claimedNode message with Some claimed => namesPeer claimed peer | None => true end
  end.

Definition dispatchShardingMessage (message : ShardingMessage) : handler :=
  match message with
  | Register region n proxy_ hosted count => onRegister region n proxy_ hosted count
  | GetShardHome_ shardId requester n => onGetShardHome shardId requester n
  | HandOffComplete shardId region n => onHandOffComplete shardId region n
  | BeginHandOffAcknowledgment _ => returns
  | RegionTerminated region n => onRegionTerminated region n
  | RegionHeartbeat region n => onRegionHeartbeat region n
  | EntityStarted shardId entityId => does (onEntityStarted shardId entityId)
  | EntityStopped shardId entityId => does (onEntityStopped shardId entityId)
  | GetRememberedEntities shardId => does (onGetRememberedEntities shardId)
  | GetClusterShardingStats requester n correlationId _ => onGetClusterShardingStats requester n correlationId
  | ShardRegionStats queryId region n entries => onShardRegionStats queryId region n entries
  | Unhandled => returns
  end.

Definition receiveShardingMessage (message : ShardingMessage) (peer : option NodeAddress) : handler := λ c,
  if negb isLeader then (c, true)
  else if negb (maySpeakFor message peer) then (c, true)
  else if has_lease o && negb (bool_decide (leaseState c = held)) then
    (if Z.of_nat (length (acquireBuffer c)) <? ACQUIRE_BUFFER_CAP
     then set_acquireBuffer (acquireBuffer c ++ [message]) c else c, true)
  else dispatchShardingMessage message c.

(** ** The lease *)

Definition reconcileLease c : ShardCoordinator :=
  if negb (has_lease o) then c
  else if isLeader then
    match leaseState c with
    | held | acquiring => c
    | lease_none => emit LeaseAcquire (set_leaseState acquiring (set_acquireRetryTimer false c))
    end
  else
    match leaseState c with
    | held => set_leaseState lease_none (emit LeaseRelease c)
    | acquiring => c
    | lease_none => set_acquireRetryTimer false c
    end.

Definition onLeaseAcquireResult (got : bool) : handler := λ c,
  match leaseState c with
  | acquiring =>
      if negb got then (set_acquireRetryTimer true (set_leaseState lease_none c), true)
      else if negb isLeader then (set_leaseState lease_none (emit LeaseRelease c), true)
      else
        let buffered := acquireBuffer c in
        each dispatchShardingMessage buffered (set_acquireBuffer [] (set_leaseState held c))
  | _ => (if got then emit LeaseRelease c else c, true)
  end.

Definition onLeaseLost c : ShardCoordinator :=
  match leaseState c with
  | held =>
      emit SelfReconcile
        (set_acquireBuffer [] (set_pending [] (set_rebalanceInProgress [] (set_leaseState lease_none c))))
  | _ => c
  end.

Definition onRequestRegistrations (regions_ : list (string * NodeAddress)) c : ShardCoordinator :=
  if negb isLeader then c
  else foldl (λ c r,
    match map_get (regions c) (regionKey r.2 r.1) with
    | Some info => if seededFromSnapshot info then tell r.1 r.2 RegistrationRequest c else c
    | None => tell r.1 r.2 RegistrationRequest c
    end) c regions_.

(** ** Leadership and the stored state *)

Definition onLeaderChanged c : ShardCoordinator :=
  let c :=
    if negb isLeader then
      set_statsQueries [] (set_rebalanceInProgress [] (set_acquireBuffer [] (set_offCandidatePickWarned []
        (set_eligibleSetRecord None (set_refusedRegions [] (set_pending [] (set_shardHome [] (set_regions [] c))))))))
    else if has_coordinatorStateStore o then emit LoadState c else c in
  if has_lease o then emit SelfReconcile c else c.

Definition seed_region (r : RegionInfoData) c : ShardCoordinator :=
  set_regions (map_set (regions c) (d_key r)
    (mkRegion (d_node r) (d_path r) (d_proxy r) (set_of (d_shards r)) (Date_now v) None true)) c.

(** Whether the loop over the snapshot's regions seeds this one. *)
Definition seedable (livingNodes : list string) c (r : RegionInfoData) : bool :=
  set_has livingNodes (toString (d_node r)) && negb (set_has (refusedRegions c) (d_key r))
  && negb (map_has (regions c) (d_key r)).

(** [loadCoordinatorState], from the answer of the store on. *)
Definition onStateLoaded (data : option CoordinatorStateData) c : ShardCoordinator :=
  match data with
  | None => c
  | Some data =>
      if negb (bool_decide (d_numShards data = Some (numShards o))) then c
      else
        let livingNodes := (λ m, toString (address m)) <$> filter (λ m, status m = up) (view_members v) in
        let '(c, seeded) := foldl (λ '(c, seeded) r,
            if seedable livingNodes c r then (seed_region r c, seeded ++ [(d_path r, d_node r)]) else (c, seeded))
            (c, []) (d_regions data) in
        let c := foldl (λ c e,
            if map_has (regions c) e.2 && negb (map_has (shardHome c) e.1)
            then set_shardHome (map_set (shardHome c) e.1 e.2) c else c) c (d_shardHome data) in
        if negb isLeader then c
        else foldl (λ c r, tell r.1 r.2 RegistrationRequest c) c seeded
  end.

(** ** Stopping, failing, starting *)

Definition postStop c : ShardCoordinator :=
  let c := set_statsQueries [] c in
  if has_lease o && bool_decide (leaseState c = held) then set_leaseState lease_none (emit LeaseRelease c) else c.

(** [preStart], with the events the store answers. *)
Definition preStart (events : list RememberEvent) c : ShardCoordinator :=
  let c := if rememberEntities o && has_rememberEntitiesStore o
           then foldl (λ c e, applyRememberEvent e c) c events else c in
  if has_lease o then emit SelfReconcile c else c.

(** What the supervisor does after a throw: [preRestart], [postStop], and a
    new instance; what was sent stays sent. *)
Definition restart (events : list RememberEvent) c : ShardCoordinator :=
  let known := (λ i, (path i, node i)) <$> (regions c).*2 in
  let c := if bool_decide (known ≠ []) then emit (SelfRequestRegistrations known) c else c in
  let c := postStop c in
  preStart events (set_effects (effects c) construct).

End coordinator.

(** ** The actor *)

Inductive Event : Type :=
| Received (message : ShardingMessage) (peer : option NodeAddress)
| Reconcile
| LeaseAcquireResult (got : bool)
| LeaseLost
| RequestRegistrations (regions : list (string * NodeAddress))
| MemberWasRemoved (addr : NodeAddress)
| LeaderWasChanged
| RebalanceTimer
| HandOffTimer (shardId : Z)
| StatsTimer (queryId : Z)
| PublishTimer
| StateSaved
| StateLoaded (data : option CoordinatorStateData).

(** What an event runs, and whether it runs on a turn of the actor, where a
    throw restarts it; a timer or a listener that throws leaves the state as
    the throw found it. *)
Definition handle (o : ShardCoordinatorOptions) (v : View) (e : Event) : handler :=
  match e with
  | Received m peer => receiveShardingMessage o v m peer
  | Reconcile => does (reconcileLease o v)
  | LeaseAcquireResult got => onLeaseAcquireResult o v got
  | LeaseLost => does onLeaseLost
  | RequestRegistrations l => does (onRequestRegistrations v l)
  | MemberWasRemoved addr => onMemberRemoved o v addr
  | LeaderWasChanged => does (onLeaderChanged o v)
  | RebalanceTimer => onRebalanceTimer o v
  | HandOffTimer shardId => onHandOffTimeout o v shardId
  | StatsTimer queryId => onStatsTimeout queryId
  | PublishTimer => does (onPublishTimer o v)
  | StateSaved => does (onSaved o v)
  | StateLoaded data => does (onStateLoaded o v data)
  end.

Definition on_turn (e : Event) : bool :=
  match e with
  | Received _ _ | Reconcile | LeaseAcquireResult _ | LeaseLost | RequestRegistrations _ => true
  | _ => false
  end.

(** [remembered] is what the store of remembered entities holds when the actor
    is rebuilt. *)
Definition step (o : ShardCoordinatorOptions) (v : View) (remembered : list RememberEvent) (e : Event) (c : ShardCoordinator)
    : ShardCoordinator :=
  let '(c, fine) := handle o v e c in
  if fine || negb (on_turn e) then c else restart o remembered c.
