(* ===== verification/ShardCoordinatorBooks.v ===== *)
(** * The books of the shard coordinator

    What every event of [ShardCoordinator] keeps: the homes, the lists of the
    regions, the hand-offs and the waiting queries agree, in every state a
    coordinator without a store of its state can reach. *)

From S2P Require Import Prelude Json Member Downing BidirectionalMap Double ShardAllocation ShardCoordinator.
Import NodeAddress Member.

Local Open Scope Z_scope.

Implicit Types (c : ShardCoordinator) (key : string) (s shardId : Z) (i : RegionInfo).

(** ** What the books are about *)

(** Two states with one shard map: the regions with their shards, the homes and
    the hand-offs; clocks, queries and what was sent may differ. *)
Definition entry_of (e : string * RegionInfo) : string * (NodeAddress * string * bool * list Z) :=
  (e.1, (node e.2, path e.2, proxy e.2, shards e.2)).

Definition same_map c c' : Prop :=
  entry_of <$> regions c = entry_of <$> regions c' ∧ shardHome c = shardHome c' ∧
  rebalanceInProgress c = rebalanceInProgress c' ∧ pending c = pending c' ∧ refusedRegions c = refusedRegions c'.

#[export] Instance same_map_equivalence : Equivalence same_map.
Proof.
  split; [by intros c|by intros ? ? (?&?&?&?&?)|].
  intros ? ? ? (?&?&?&?&?) (?&?&?&?&?). unfold same_map. split_and!; congruence.
Qed.

Definition facts i : NodeAddress * string * bool * list Z := (node i, path i, proxy i, shards i).

Lemma map_get_entries (m : list (string * RegionInfo)) key : map_get (entry_of <$> m) key = facts <$> map_get m key.
Proof. induction m as [|[k i] m IH]; simpl; [done|]. case_decide; [done|]. apply IH. Qed.

Lemma entries_keys (m : list (string * RegionInfo)) : (entry_of <$> m).*1 = m.*1.
Proof. induction m as [|e m IH]; [done|]. rewrite !fmap_cons. by f_equal. Qed.

Lemma same_map_get c c' key : same_map c c' → facts <$> map_get (regions c) key = facts <$> map_get (regions c') key.
Proof. intros [He _]. by rewrite <- !map_get_entries, He. Qed.

Lemma same_map_keys c c' : same_map c c' → (regions c).*1 = (regions c').*1.
Proof. intros [He _]. by rewrite <- (entries_keys (regions c)), He, entries_keys. Qed.

Lemma same_map_home c c' : same_map c c' → shardHome c = shardHome c'.
Proof. by intros (_ & ? & _). Qed.

Lemma same_map_Some c c' key i : same_map c c' → map_get (regions c) key = Some i →
  ∃ i', map_get (regions c') key = Some i' ∧ facts i' = facts i.
Proof.
  intros Hs Hi. pose proof (same_map_get _ _ key Hs) as He. rewrite Hi in He.
  destruct (map_get (regions c') key) as [i'|]; [|done]. exists i'. split; [done|]. cbn in He. congruence.
Qed.

(** What only sends or takes notes changes no map. *)
Lemma map_set_same (m : list (string * RegionInfo)) key i i' : map_get m key = Some i → facts i' = facts i →
  entry_of <$> map_set m key i' = entry_of <$> m.
Proof.
  induction m as [|[k j] m IH]; simpl; [done|]. case_decide as Hk.
  - intros [= ->] Hf. cbn. f_equal. unfold entry_of. cbn. unfold facts in Hf. by rewrite Hf.
  - intros Hi Hf. cbn. f_equal. by apply IH.
Qed.

Lemma same_emit e c : same_map c (emit e c).
Proof. done. Qed.

Lemma same_tell p n m c : same_map c (tell p n m c).
Proof. done. Qed.

Lemma same_send key m c : same_map c (sendToRegion key m c).
Proof. unfold sendToRegion. by destruct (map_get (regions c) key). Qed.

Lemma same_foldl {A} (f : ShardCoordinator → A → ShardCoordinator) l c :
  (∀ c x, same_map c (f c x)) → same_map c (foldl f c l).
Proof. intros Hf. revert c. induction l as [|x l IH]; intros c; [done|]. cbn. etrans; [apply Hf|apply IH]. Qed.

Lemma same_save o v c : same_map c (scheduleCoordinatorStateSave o v c).
Proof. unfold scheduleCoordinatorStateSave. repeat case_match; done. Qed.

Lemma same_after o v c : same_map c (afterShardMapChange o v c).
Proof. unfold afterShardMapChange. etrans; [apply (same_save o v)|done]. Qed.

Lemma same_publish_map o v c : same_map c (publishShardMap o v c).
Proof.
  unfold publishShardMap. case_match; [done|]. cbv zeta. etrans; [|apply same_foldl; intros; apply same_send]. done.
Qed.

Lemma same_publish o v c : same_map c (onPublishTimer o v c).
Proof. unfold onPublishTimer. etrans; [|apply same_publish_map]. done. Qed.

Lemma same_saved o v c : same_map c (onSaved o v c).
Proof. unfold onSaved. case_match; [|done]. etrans; [|apply same_save]. done. Qed.

Lemma same_ship shardId c : same_map c (shipRememberedEntities shardId c).
Proof. unfold shipRememberedEntities. repeat case_match; try done. apply same_send. Qed.

Lemma same_seen key now beat c : same_map c (set_seen key now beat c).
Proof.
  unfold set_seen. destruct (map_get (regions c) key) as [i|] eqn:Hi; [|done]. split_and!; [|done..].
  symmetry. by apply (map_set_same _ _ i).
Qed.

Lemma same_observe v cs c : same_map c (observeEligibleSet v cs c).
Proof. unfold observeEligibleSet. by case_match. Qed.

Lemma same_role_warn o c : same_map c (warnRoleMatchesNoRegion o c).
Proof. unfold warnRoleMatchesNoRegion. repeat case_match; done. Qed.

Lemma same_release key l c : same_map c (releaseConflictingShards key l c).
Proof. apply same_foldl. intros c' s. case_match; [done|]. apply same_send. Qed.

#[export] Hint Resolve same_emit same_tell same_send same_save same_after same_publish same_saved same_ship same_seen
  same_observe same_role_warn same_release : actor.

(** ** The books

    [D]: shards whose home may have left the registry, in the middle of its
    removal; [E]: shards whose waiting queries are still to be answered, in
    the middle of a registration.  Between events both are empty. *)

Record books_but (o : ShardCoordinatorOptions) (D E : Z → Prop) c : Prop := mkBooks {
  b_regions : NoDup (regions c).*1;
  b_key key i : map_get (regions c) key = Some i → key = regionKey (node i) (path i);
  b_homes : NoDup (shardHome c).*1;
  b_range s key : map_get (shardHome c) s = Some key → 0 ≤ s < numShards o;
  b_lists s key i : map_get (regions c) key = Some i → s ∈ shards i ↔ map_get (shardHome c) s = Some key;
  b_listed_once key i : map_get (regions c) key = Some i → NoDup (shards i);
  b_registered s key : map_get (shardHome c) s = Some key → D s ∨ is_Some (map_get (regions c) key);
  b_handoffs_once : NoDup (rebalanceInProgress c).*1;
  b_handoffs s from : map_get (rebalanceInProgress c) s = Some from → map_get (shardHome c) s = Some from;
  b_waiting s : is_Some (map_get (shardHome c) s) → E s ∨ map_get (pending c) s = None;
  b_queries s : map_get (pending c) s ≠ Some [];
}.

Definition nothing (s : Z) : Prop := False.
Definition books (o : ShardCoordinatorOptions) c : Prop := books_but o nothing nothing c.

Lemma books_same o D E c c' : same_map c c' → books_but o D E c → books_but o D E c'.
Proof.
  intros Hs [H1 H2 H3 H4 H5 H6 H7 H8 H9 H10 H11]. pose proof (same_map_keys _ _ Hs) as Hk.
  assert (∀ key i, map_get (regions c') key = Some i → ∃ i', map_get (regions c) key = Some i' ∧ facts i' = facts i)
    as Hback by (intros; by eapply same_map_Some).
  assert (∀ key, is_Some (map_get (regions c) key) → is_Some (map_get (regions c') key)) as Hforth.
  { intros key [i Hi]. destruct (same_map_Some _ _ _ _ Hs Hi) as (i' & -> & _). done. }
  destruct Hs as (_ & Hh & Hr & Hp & _). rewrite Hh in *. rewrite Hr in *. rewrite Hp in *.
  split; try done; rewrite <- ?Hk; try done.
  - intros key i Hi. destruct (Hback _ _ Hi) as (i' & Hi' & Hf). unfold facts in Hf. injection Hf as Hn Hpa _ _.
    rewrite <- Hn, <- Hpa. auto.
  - intros s key i Hi. destruct (Hback _ _ Hi) as (i' & Hi' & Hf). unfold facts in Hf. injection Hf as _ _ _ Hsh.
    rewrite <- Hsh. auto.
  - intros key i Hi. destruct (Hback _ _ Hi) as (i' & Hi' & Hf). unfold facts in Hf. injection Hf as _ _ _ Hsh.
    rewrite <- Hsh. eauto.
  - intros s key Hs. destruct (H7 _ _ Hs); [by left|right; auto].
Qed.

Lemma books_weaken o (D D' E E' : Z → Prop) c : (∀ s, D s → D' s) → (∀ s, E s → E' s) →
  books_but o D E c → books_but o D' E' c.
Proof.
  intros Hd He [H1 H2 H3 H4 H5 H6 H7 H8 H9 H10 H11]. split; try done.
  - intros s key Hs. destruct (H7 _ _ Hs); auto.
  - intros s Hs. destruct (H10 _ Hs); auto.
Qed.

(** A query answered. *)
Lemma flushPending_pending s c : flushPending s c = c ∨
  ∃ home i, map_get (shardHome c) s = Some home ∧ map_get (regions c) home = Some i ∧
    same_map (set_pending (map_delete (pending c) s) c) (flushPending s c).
Proof.
  unfold flushPending. destruct (map_get (pending c) s) as [[|q l]|] eqn:Hp; [by left| |by left].
  destruct (map_get (shardHome c) s) as [home|] eqn:Hh; [|by left].
  destruct (map_get (regions c) home) as [i|] eqn:Hi; [|by left]. right. exists home, i. split_and!; [done|done|].
  set (f := λ c q, tell _ _ _ c).
  assert (∀ l c, same_map c (foldl f c l)) as Hsame by (intros; by apply same_foldl).
  specialize (Hsame (q :: l) c). cbn [foldl] in *. destruct Hsame as (? & ? & ? & ? & ?). by split_and!.
Qed.

Lemma books_flush o D E s c : (∀ key, map_get (shardHome c) s = Some key → is_Some (map_get (regions c) key)) →
  books_but o D (λ x, x = s ∨ E x) c → books_but o D E (flushPending s c).
Proof.
  intros Hreg Hb. destruct (flushPending_pending s c) as [He|(home & i & Hh & Hi & Hs)].
  - rewrite He. destruct Hb as [H1 H2 H3 H4 H5 H6 H7 H8 H9 H10 H11]. split; try done.
    intros x Hx. destruct (H10 _ Hx) as [[ ->|?]|?]; [|by left|by right]. right.
    destruct Hx as [home Hh]. destruct (Hreg _ Hh) as [i Hi].
    unfold flushPending in He. rewrite Hh, Hi in He. destruct (map_get (pending c) s) as [[|q l]|] eqn:Hp; [|exfalso|done].
    + by apply H11 in Hp.
    + assert (pending c = map_delete (pending c) s) as Hdel.
      { rewrite <- He at 1. reflexivity. }
      rewrite Hdel, map_get_delete in Hp. by case_decide.
  - eapply books_same; [exact Hs|]. destruct Hb as [H1 H2 H3 H4 H5 H6 H7 H8 H9 H10 H11]. split; try done; cbn.
    + intros x Hx. rewrite map_get_delete. case_decide; [by right|]. destruct (H10 _ Hx) as [[?|?]|?]; tauto.
    + intros x. rewrite map_get_delete. by case_decide.
Qed.

(** ** Placing a shard *)

Definition with_shards (l : list Z) i : RegionInfo :=
  mkRegion (node i) (path i) (proxy i) l (lastSeenAtMs i) (lastHeartbeatAtMs i) (seededFromSnapshot i).

Lemma get_set_shards key l c k :
  map_get (regions (set_shards key l c)) k =
    (if decide (k = key) then with_shards l else id) <$> map_get (regions c) k.
Proof.
  unfold set_shards. destruct (map_get (regions c) key) as [i|] eqn:Hi; cbn.
  - rewrite map_get_set. case_decide as Hk; [by rewrite Hk, Hi|]. by rewrite option_fmap_id.
  - case_decide as Hk; [by rewrite Hk, Hi|]. by rewrite option_fmap_id.
Qed.

Lemma set_shards_keys key l c : (regions (set_shards key l c)).*1 = (regions c).*1.
Proof.
  unfold set_shards. destruct (map_get (regions c) key) as [i|] eqn:Hi; cbn; [|done].
  rewrite map_set_keys. case_decide as Hk; [done|]. apply map_get_None in Hk. congruence.
Qed.

Lemma set_shards_rest key l c : shardHome (set_shards key l c) = shardHome c ∧
  rebalanceInProgress (set_shards key l c) = rebalanceInProgress c ∧ pending (set_shards key l c) = pending c ∧
  refusedRegions (set_shards key l c) = refusedRegions c.
Proof. unfold set_shards. by destruct (map_get (regions c) key). Qed.

(** The two writes of [place]. *)
Definition placed s key c : ShardCoordinator :=
  set_shards key (set_add (shards_of c key) s) (set_shardHome (map_set (shardHome c) s key) c).

Lemma books_placed o D E s key i c : books_but o D E c → map_get (regions c) key = Some i →
  map_get (shardHome c) s = None → 0 ≤ s < numShards o → books_but o D (λ x, x = s ∨ E x) (placed s key c).
Proof.
  intros [H1 H2 H3 H4 H5 H6 H7 H8 H9 H10 H11] Hi Hnone Hs. unfold placed.
  set (c1 := set_shardHome _ c). set (l := set_add (shards_of c key) s).
  assert (l = set_add (shards i) s) as Hl by (unfold l, shards_of; by rewrite Hi).
  destruct (set_shards_rest key l c1) as (Rh & Rr & Rp & _).
  assert (∀ k j, map_get (regions (set_shards key l c1)) k = Some j →
    (k = key ∧ j = with_shards l i) ∨ (k ≠ key ∧ map_get (regions c) k = Some j)) as Hreg.
  { intros k j. rewrite get_set_shards. cbn [regions c1 set_shardHome]. case_decide as Hk.
    - rewrite Hk, Hi. intros [= <-]. by left.
    - rewrite option_fmap_id. by right. }
  split.
  - by rewrite set_shards_keys.
  - intros k j [[ -> ->]|[_ Hj]]%Hreg; [cbn; auto|auto].
  - rewrite Rh. cbn. by apply map_set_NoDup.
  - intros x k. rewrite Rh. cbn. rewrite map_get_set. case_decide; [congruence|apply H4].
  - intros x k j Hj. rewrite Rh. cbn. rewrite map_get_set. apply Hreg in Hj as [[ -> ->]|[Hk Hj]].
    + cbn. rewrite Hl, elem_of_set_add, (H5 _ _ _ Hi). case_decide; [|tauto]. split; [done|by right].
    + rewrite (H5 _ _ _ Hj). case_decide as Hx; [|done]. subst x. rewrite Hnone. split; [done|congruence].
  - intros k j [[ -> ->]|[_ Hj]]%Hreg; [|by eapply H6]. cbn. rewrite Hl. apply set_add_NoDup. by eapply H6.
  - intros x k. rewrite Rh. cbn. rewrite map_get_set. case_decide as Hx.
    + intros [= <-]. right. rewrite get_set_shards. cbn. by rewrite Hi.
    + intros Hk. destruct (H7 _ _ Hk) as [|[j Hj]]; [by left|right]. rewrite get_set_shards. cbn. by rewrite Hj.
  - by rewrite Rr.
  - intros x from. rewrite Rr, Rh. cbn. rewrite map_get_set. intros Hx%H9. case_decide as Hxs; [|done].
    subst x. congruence.
  - intros x. rewrite Rh, Rp. cbn. rewrite map_get_set. case_decide; [by left; left|]. intros [?|?]%H10; [by left; right|by right].
  - intros x. rewrite Rp. apply H11.
Qed.

Lemma books_place o v D E s key i c : books_but o D E c → map_get (regions c) key = Some i →
  map_get (shardHome c) s = None → 0 ≤ s < numShards o → books_but o D E (place o v s key c).
Proof.
  intros Hb Hi Hnone Hs. unfold place.
  set (c1 := set_offCandidatePickWarned _ _).
  assert (books_but o D (λ x, x = s ∨ E x) (placed s key c1)) as Hp.
  { apply (books_placed _ _ _ _ _ i); [|done..]. eapply books_same; [|exact Hb]. subst c1. done. }
  change (set_shards key _ _) with (placed s key c1). cbv zeta. eapply books_same; [apply same_after|].
  match goal with |- books_but _ _ _ (if _ then _ else ?c3) => assert (books_but o D E c3) as Hf end.
  2: { destruct (rememberEntities o); [|done]. eapply books_same; [apply same_ship|done]. }
  assert (is_Some (map_get (regions (placed s key c1)) key)) as [j Hj].
  { unfold placed. rewrite get_set_shards. cbn. by rewrite Hi. }
  rewrite Hj. apply books_flush; [|eapply books_same; [apply same_send|exact Hp]].
  intros k. pose proof (same_send key (ShardHome s (path j) (node j)) (placed s key c1)) as Hs'.
  rewrite <- (same_map_home _ _ Hs'). unfold placed at 1. destruct (set_shards_rest key (set_add (shards_of c1 key) s)
    (set_shardHome (map_set (shardHome c1) s key) c1)) as (Rh & _). rewrite Rh. cbn [shardHome set_shardHome].
  rewrite map_get_set, decide_True by done. intros [= <-].
  destruct (same_map_Some _ _ _ _ Hs' Hj) as (j' & -> & _). done.
Qed.

(** The strategy keeps its promise: asked with a candidate, it does not throw. *)
Definition answers (o : ShardCoordinatorOptions) (v : View) : Prop :=
  ∀ shardId candidates m, 0 ≤ shardId < numShards o → candidates ≠ [] →
    is_ok (@allocate (strategy v) shardId candidates m) = true.

Lemma regionKeyOn_elem n l key : regionKeyOn n l = Some key → ∃ i, (key, i) ∈ l.
Proof.
  unfold regionKeyOn. destruct (List.find _ l) as [[k i]|] eqn:Hf; [|done]. intros [= <-].
  exists i. apply List.find_some in Hf as [Hin _]. by apply list_elem_of_In.
Qed.

Lemma nodesOf_nonempty l : l ≠ [] → nodesOf l ≠ [].
Proof. by destruct l. Qed.

Lemma eligible_candidates v l : eligible_of v l ≠ [] → l ≠ [].
Proof. by destruct l. Qed.

(** Whatever [placementFor] answers, it is a region it was given. *)
Lemma placementFor_spec o v s l c : answers o v → 0 ≤ s < numShards o → eligible_of v l ≠ [] →
  ∃ c' r, placementFor o v s l (eligible_of v l) c = (c', Ok r) ∧ same_map c c' ∧
    match r with Some key => ∃ i, (key, i) ∈ eligible_of v l | None => True end.
Proof.
  intros Ha Hs Hne. pose proof (nodesOf_nonempty _ (eligible_candidates _ _ Hne)) as Hl.
  pose proof (nodesOf_nonempty _ Hne) as He. unfold placementFor.
  assert (∀ c0, same_map c c0 → ∃ c' r, askEligible v s (eligible_of v l) c0 = (c', Ok r) ∧ same_map c c' ∧
    match r with Some key => ∃ i, (key, i) ∈ eligible_of v l | None => True end) as Hask.
  { intros c0 Hc0. unfold askEligible. specialize (Ha s _ (shardCountsOf (eligible_of v l).*2) Hs He).
    destruct (@allocate (strategy v) s _ _) as [pick|]; [|done]. eexists _, _. split; [done|]. split.
    - case_match; [|done]. etrans; [exact Hc0|done].
    - destruct (regionKeyOn pick _) as [key|] eqn:Hk; [|done]. by eapply regionKeyOn_elem. }
  destruct (isEligibleSetSettled o v c); [by apply Hask|].
  specialize (Ha s _ (currentShardCounts c) Hs Hl). destruct (@allocate (strategy v) s _ _) as [pick|]; [|done].
  destruct (regionKeyOn pick (eligible_of v l)) as [key|] eqn:Hk.
  - exists c, (Some key). split_and!; [done|done|]. by eapply regionKeyOn_elem.
  - apply Hask. by case_match.
Qed.

(** A region that may be handed a shard. *)
Definition may_host o v c key i : Prop :=
  map_get (regions c) key = Some i ∧ proxy i = false ∧ (key ∉ refusedRegions c) ∧
  carriesRole o v (node i) = true ∧ isUpMember v (node i) = true.

Lemma eligible_may_host o v D E c key i : books_but o D E c →
  (key, i) ∈ eligible_of v (candidateRegions o v c) → may_host o v c key i.
Proof.
  intros Hb. unfold eligible_of, candidateRegions. rewrite !list_elem_of_filter. cbn. intros (Hup & Hc & Hin).
  unfold is_candidate in Hc. cbn in Hc. apply andb_true_iff in Hc as [Hc Hr]. apply negb_true_iff, orb_false_iff in Hc as [Hp Hf].
  split_and!; [|done| |done|done].
  - apply map_get_elem; [apply Hb|done].
  - intros Hk%set_has_true. congruence.
Qed.

(** What [tryAllocate] does: nothing to the map, or it places the shard on a
    region that may host it. *)
Inductive allocated o v s c : ShardCoordinator → Prop :=
| allocated_nowhere c' : same_map c c' → allocated o v s c c'
| allocated_to key i c1 : may_host o v c key i → same_map c c1 → allocated o v s c (place o v s key c1).

Lemma tryAllocate_spec o v D E s c : answers o v → books_but o D E c → 0 ≤ s < numShards o →
  ∃ c', tryAllocate o v s c = (c', true) ∧ allocated o v s c c'.
Proof.
  intros Ha Hb Hs. unfold tryAllocate. set (l := candidateRegions o v c). set (c1 := observeEligibleSet v l c).
  assert (same_map c c1) as H1 by apply same_observe.
  case_bool_decide as Hl.
  { eexists. split; [done|]. apply allocated_nowhere. etrans; [exact H1|apply same_role_warn]. }
  case_bool_decide as He; [eexists; split; [done|]; by apply allocated_nowhere|].
  destruct (placementFor_spec o v s l (set_roleMismatchWarned false c1) Ha Hs He) as (c' & r & -> & Hsame & Hr).
  assert (same_map c c') as H2 by (etrans; [exact H1|exact Hsame]).
  destruct r as [key|]; (eexists; split; [done|]); [|by apply allocated_nowhere].
  destruct Hr as [i Hi]. apply (allocated_to _ _ _ _ key i); [|done]. by eapply eligible_may_host.
Qed.

Lemma books_allocated o v D E s c c' : books_but o D E c → map_get (shardHome c) s = None → 0 ≤ s < numShards o →
  allocated o v s c c' → books_but o D E c'.
Proof.
  intros Hb Hnone Hs [c1 Hsame|key i c1 (Hi & _) Hsame]; [by eapply books_same|].
  destruct (same_map_Some _ _ _ _ Hsame Hi) as (i' & Hi' & _).
  apply (books_place _ _ _ _ _ _ i'); [by eapply books_same|done| |done]. by rewrite <- (same_map_home _ _ Hsame).
Qed.

(** ** Registration *)

Lemma in_range_spec o j n : isShardIdInRange o j = Some n → 0 ≤ n < numShards o.
Proof.
  unfold isShardIdInRange. destruct j as [[| |[| | |z]| | |]|]; try done.
  destruct (Z.leb_spec 0 z), (Z.ltb_spec z (numShards o)); simpl; try done. intros [= <-]. lia.
Qed.

Lemma accept_loop_spec o accepted claimed : NoDup accepted → Forall (λ s, 0 ≤ s < numShards o) accepted →
  NoDup (accept_loop o accepted claimed) ∧ Forall (λ s, 0 ≤ s < numShards o) (accept_loop o accepted claimed).
Proof.
  revert accepted. induction claimed as [|j rest IH]; intros accepted Hnd Hr; cbn [accept_loop]; [done|].
  case_match; [done|]. destruct (isShardIdInRange o (Some j)) as [n|] eqn:Hj; [|by apply IH].
  apply IH; [by apply set_add_NoDup|]. rewrite Forall_forall in Hr |- *. intros x [Hx|Hx]%elem_of_set_add; [auto|].
  subst x. by apply in_range_spec in Hj.
Qed.

Lemma accepted_spec o h : NoDup (acceptedHostedShards o h) ∧
  Forall (λ s, 0 ≤ s < numShards o) (acceptedHostedShards o h).
Proof.
  assert (NoDup (@nil Z) ∧ Forall (λ s, 0 ≤ s < numShards o) []) as Hnil by (split; [apply NoDup_nil_2|done]).
  unfold acceptedHostedShards. destruct h as [[| | | |l|]|]; try done. by apply accept_loop_spec; apply Hnil.
Qed.

Lemma ownedElsewhere_false o c key s : books o c → ownedElsewhere c key s = false →
  map_get (shardHome c) s = None ∨ map_get (shardHome c) s = Some key.
Proof.
  intros Hb. unfold ownedElsewhere. destruct (map_get (shardHome c) s) as [home|] eqn:Hh; [|by left].
  intros [Hk|Hk]%andb_false_iff.
  - apply negb_false_iff, bool_decide_eq_true in Hk. right. by rewrite Hk.
  - apply map_has_false in Hk. destruct (b_registered _ _ _ _ Hb _ _ Hh) as [[]|[i Hi]]. congruence.
Qed.

Lemma adjudicate_owned c key claimed s : NoDup (shardHome c).*1 →
  s ∈ owned (adjudicateClaim c key claimed) ↔
    s ∈ adopted (adjudicateClaim c key claimed) ∨ map_get (shardHome c) s = Some key.
Proof.
  intros Hnd. unfold adjudicateClaim. cbn [owned adopted]. rewrite foldl_set_add, (list_elem_of_fmap _ (filter _ (shardHome c))).
  apply or_iff_compat_l. rewrite (map_get_elem _ _ _ Hnd). split.
  - intros ([x k] & -> & Hin). apply list_elem_of_filter in Hin as [Hk Hin]. cbn in *. by subst k.
  - intros Hin. exists (s, key). split; [done|]. by apply list_elem_of_filter.
Qed.

(** The writes of the adoption loop. *)
Definition homes_set (l : list Z) key (h : list (Z * string)) : list (Z * string) := foldl (λ h s, map_set h s key) h l.

Lemma get_homes_set l key h s : map_get (homes_set l key h) s = if decide (s ∈ l) then Some key else map_get h s.
Proof.
  unfold homes_set. revert h. induction l as [|x l IH]; intros h; cbn [foldl].
  { rewrite decide_False; [done|apply not_elem_of_nil]. }
  rewrite IH, map_get_set. destruct (decide (s ∈ l)) as [Hl|Hl]; [by rewrite decide_True by (by right)|].
  destruct (decide (s = x)) as [ ->|Hx]; [by rewrite decide_True by left|].
  rewrite decide_False; [done|]. by intros [?|?]%elem_of_cons.
Qed.

Lemma homes_set_NoDup l key h : NoDup h.*1 → NoDup (homes_set l key h).*1.
Proof. unfold homes_set. revert h. induction l as [|x l IH]; intros h Hh; cbn; [done|]. by apply IH, map_set_NoDup. Qed.

Lemma adopt_fold l key c : (∀ s, s ∈ l → map_get (shardHome c) s = None ∨ map_get (shardHome c) s = Some key) →
  foldl (λ c s, adopt key s c) c l = set_shardHome (homes_set l key (shardHome c)) c.
Proof.
  unfold homes_set. revert c. induction l as [|x l IH]; intros c Hl; cbn [foldl]; [by destruct c|].
  assert (adopt key x c = set_shardHome (map_set (shardHome c) x key) c) as ->.
  { unfold adopt. destruct (Hl x ltac:(by left)) as [Hx|Hx]; rewrite Hx; [done|].
    by rewrite bool_decide_eq_false_2 by (by intros []). }
  rewrite IH; [done|]. intros s Hs. cbn. rewrite map_get_set. case_decide; [by right|]. apply Hl. by right.
Qed.

(** The state after the two writes of a registration. *)
Lemma books_adopted o c (node_ : NodeAddress) (path_ : string) proxy_ claimed seen beat :
  let key := regionKey node_ path_ in
  let verdict := adjudicateClaim c key claimed in
  books o c → NoDup claimed → Forall (λ s, 0 ≤ s < numShards o) claimed →
  books_but o nothing (λ s, s ∈ adopted verdict)
    (set_shardHome (homes_set (adopted verdict) key (shardHome c))
       (set_regions (map_set (regions c) key (mkRegion node_ path_ proxy_ (owned verdict) seen beat false)) c)).
Proof.
  intros key verdict Hb Hnd Hr. set (i0 := mkRegion _ _ _ _ _ _ _).
  assert (∀ s, s ∈ adopted verdict → 0 ≤ s < numShards o ∧
    (map_get (shardHome c) s = None ∨ map_get (shardHome c) s = Some key)) as Had.
  { intros s [Hf Hin]%list_elem_of_filter. rewrite Forall_forall in Hr. split; [auto|].
    by eapply ownedElsewhere_false. }
  assert (∀ s, s ∈ owned verdict ↔ s ∈ adopted verdict ∨ map_get (shardHome c) s = Some key) as Hown.
  { intros s. apply adjudicate_owned, Hb. }
  destruct Hb as [H1 H2 H3 H4 H5 H6 H7 H8 H9 H10 H11].
  split; cbn [regions shardHome rebalanceInProgress pending set_shardHome set_regions]; try done.
  - by apply map_set_NoDup.
  - intros k i. rewrite map_get_set. case_decide as Hk; [|apply H2]. intros [= <-]. by subst k.
  - by apply homes_set_NoDup.
  - intros s k. rewrite get_homes_set. case_decide as Hs; [by intros _; apply Had|apply H4].
  - intros s k i. rewrite map_get_set, get_homes_set. case_decide as Hk.
    + intros [= <-]. subst k. cbn [shards i0]. rewrite Hown. case_decide; tauto.
    + intros Hi. rewrite (H5 _ _ _ Hi). case_decide as Hs; [|done]. split; [|congruence].
      intros Hh. destruct (Had s Hs) as [_ [?|?]]; congruence.
  - intros k i. rewrite map_get_set. case_decide; [|apply H6]. intros [= <-]. cbn.
    apply foldl_set_add_NoDup, NoDup_filter, Hnd.
  - intros s k. rewrite get_homes_set, map_get_set. case_decide as Hs.
    + intros [= <-]. right. by rewrite decide_True.
    + intros Hk. destruct (H7 _ _ Hk) as [[]|?]. right. by case_decide.
  - intros s from Hs%H9. rewrite get_homes_set. case_decide as Hin; [|done].
    destruct (Had s Hin) as [_ [?|Hk]]; [congruence|]. by rewrite <- Hk, Hs.
  - intros s. rewrite get_homes_set. case_decide; [by left|]. intros [[]|?]%H10. by right.
Qed.

(** The shards whose queries a registration answers have a home by then. *)
Lemma books_flush_all o D l c : (∀ s key, map_get (shardHome c) s = Some key → is_Some (map_get (regions c) key)) →
  books_but o D (λ s, s ∈ l) c → books_but o D nothing (foldl (λ c s, flushPending s c) c l).
Proof.
  revert c. induction l as [|s l IH]; intros c Hreg Hb; cbn [foldl].
  { eapply books_weaken; [| |exact Hb]; [done|]. intros x Hx. by apply elem_of_nil in Hx. }
  assert (∀ x key, map_get (shardHome (flushPending s c)) x = Some key → is_Some (map_get (regions (flushPending s c)) key)) as Hreg'.
  { destruct (flushPending_pending s c) as [ ->|(home & i & _ & _ & Hs)]; [done|].
    intros x key. rewrite <- (same_map_home _ _ Hs). cbn. intros [j Hj]%Hreg.
    destruct (same_map_Some _ _ key j Hs Hj) as (j' & -> & _). done. }
  apply IH; [done|]. apply books_flush; [by apply Hreg|]. eapply books_weaken; [| |exact Hb]; [done|].
  intros x [Hx|Hx]%elem_of_cons; [by left|by right].
Qed.

Lemma record_registration_spec o v n r p c hosted : books o c →
  let verdict := adjudicateClaim c (regionKey n r) hosted in
  ∃ beat, record_registration v n r p verdict c =
    set_shardHome (homes_set (adopted verdict) (regionKey n r) (shardHome c))
      (set_regions (map_set (regions c) (regionKey n r) (mkRegion n r p (owned verdict) (Date_now v) beat false)) c).
Proof.
  intros Hb verdict. unfold record_registration. eexists. rewrite adopt_fold; [done|].
  intros s [Hf _]%list_elem_of_filter. exact (ownedElsewhere_false o c _ s Hb Hf).
Qed.

Lemma books_answer o v n r verdict c : books_but o nothing (λ s, s ∈ adopted verdict) c →
  books o (answer_registration o v n r verdict c).
Proof.
  intros Hba. unfold answer_registration. eapply books_same; [apply same_after|].
  match goal with |- books_but _ _ _ (if _ then _ else ?c3) => assert (books o c3) as Hf end.
  2: { destruct (rememberEntities o); [|done]. eapply books_same; [|exact Hf]. apply same_foldl. intros. apply same_ship. }
  assert (same_map c (releaseConflictingShards (regionKey n r) (conflicting verdict) (tell r n RegisterAcknowledgment c))) as Hs.
  { etrans; [|apply same_release]. done. }
  apply books_flush_all; [|by eapply books_same].
  intros s k Hk. destruct (b_registered _ _ _ _ (books_same _ _ _ _ _ Hs Hba) s k Hk) as [[]|?]. done.
Qed.

Lemma books_register o v c n r p hosted : books o c → books o (register_region o v n r p hosted c).
Proof.
  intros Hb. destruct (accepted_spec o hosted) as [Hnd Hr]. unfold register_region.
  destruct (record_registration_spec o v n r p c (acceptedHostedShards o hosted) Hb) as (beat & ->).
  apply books_answer. by apply books_adopted.
Qed.

(** ** Taking a shard off its region *)

(** A shard that no registered region lists loses its home. *)
Lemma books_unhomed o (D E : Z → Prop) s c : books_but o D E c →
  (∀ key i, map_get (regions c) key = Some i → s ∉ shards i) →
  books_but o (λ x, D x ∧ x ≠ s) E
    (set_rebalanceInProgress (map_delete (rebalanceInProgress c) s) (set_shardHome (map_delete (shardHome c) s) c)).
Proof.
  intros [H1 H2 H3 H4 H5 H6 H7 H8 H9 H10 H11] Hs.
  split; cbn [regions shardHome rebalanceInProgress pending set_shardHome set_rebalanceInProgress]; try done.
  - by apply map_delete_NoDup.
  - intros x k. rewrite map_get_delete. case_decide; [done|apply H4].
  - intros x k i Hi. rewrite map_get_delete. case_decide as Hx; [|by apply H5]. subst x.
    split; [|done]. intros Hin. by destruct (Hs _ _ Hi).
  - intros x k. rewrite map_get_delete. case_decide; [done|]. intros Hk. destruct (H7 _ _ Hk); [by left|by right].
  - by apply map_delete_NoDup.
  - intros x from. rewrite !map_get_delete. case_decide; [done|apply H9].
  - intros x. rewrite map_get_delete. case_decide; [by intros []|apply H10].
Qed.

(** A hand-off ends: the previous owner no longer lists the shard, and it has
    no home. *)
Lemma books_released o s from c : books o c → map_get (rebalanceInProgress c) s = Some from →
  let c' := releaseFromPreviousOwner s from (set_rebalanceInProgress (map_delete (rebalanceInProgress c) s) c) in
  books o c' ∧ map_get (shardHome c') s = None ∧ 0 ≤ s < numShards o.
Proof.
  intros Hb Hf. cbv zeta. unfold releaseFromPreviousOwner. set (c1 := set_rebalanceInProgress _ c).
  pose proof (b_handoffs _ _ _ _ Hb _ _ Hf) as Hhome. pose proof (b_range _ _ _ _ Hb _ _ Hhome) as Hs.
  destruct (b_registered _ _ _ _ Hb _ _ Hhome) as [[]|[i Hi]].
  set (l := set_delete (shards_of c1 from) s).
  assert (l = set_delete (shards i) s) as Hl by (unfold l, shards_of; cbn; by rewrite Hi).
  destruct (set_shards_rest from l c1) as (Rh & Rr & Rp & _).
  set (c2 := set_shards from l c1) in *.
  assert (∀ k j, map_get (regions c2) k = Some j →
    (k = from ∧ j = with_shards l i) ∨ (k ≠ from ∧ map_get (regions c) k = Some j)) as Hreg.
  { intros k j. unfold c2. rewrite get_set_shards. cbn [regions c1 set_rebalanceInProgress]. case_decide as Hk.
    - rewrite Hk, Hi. intros [= <-]. by left.
    - rewrite option_fmap_id. by right. }
  split; [|split; [cbn; by rewrite map_get_delete, decide_True|done]].
  destruct Hb as [H1 H2 H3 H4 H5 H6 H7 H8 H9 H10 H11].
  split; cbn [regions shardHome rebalanceInProgress pending set_shardHome].
  - unfold c2. by rewrite set_shards_keys.
  - intros k j [[ -> ->]|[_ Hj]]%Hreg; [cbn; auto|auto].
  - rewrite Rh. by apply map_delete_NoDup.
  - intros x k. rewrite Rh, map_get_delete. case_decide; [done|apply H4].
  - intros x k j Hj. rewrite Rh, map_get_delete. apply Hreg in Hj as [[ -> ->]|[Hk Hj]].
    + cbn [shards with_shards]. rewrite Hl, elem_of_set_delete, (H5 _ _ _ Hi). cbn. case_decide as Hx; [|tauto].
      split; [by intros [_ ?]|done].
    + rewrite (H5 _ _ _ Hj). cbn. case_decide as Hx; [|done]. subst x. rewrite Hhome. split; [|done]. intros [= ->]. done.
  - intros k j [[ -> ->]|[_ Hj]]%Hreg; [|by eapply H6]. cbn [shards with_shards]. rewrite Hl. apply set_delete_NoDup.
    by eapply H6.
  - intros x k. rewrite Rh, map_get_delete. case_decide as Hx; [done|]. cbn. intros Hk.
    destruct (H7 _ _ Hk) as [[]|[j Hj]]. right. unfold c2. rewrite get_set_shards. cbn. by rewrite Hj.
  - rewrite Rr. by apply map_delete_NoDup.
  - intros x k. rewrite Rr, Rh. change (rebalanceInProgress c1) with (map_delete (rebalanceInProgress c) s).
    rewrite !map_get_delete. case_decide; [done|apply H9].
  - intros x. rewrite Rh, Rp, map_get_delete. cbn. case_decide; [by intros []|apply H10].
  - intros x. rewrite Rp. apply H11.
Qed.

Lemma books_ended o v s from c : answers o v → books o c → map_get (rebalanceInProgress c) s = Some from →
  ∃ c', tryAllocate o v s
    (releaseFromPreviousOwner s from (set_rebalanceInProgress (map_delete (rebalanceInProgress c) s) c)) = (c', true) ∧
    books o c'.
Proof.
  intros Ha Hb Hf. destruct (books_released o s from c Hb Hf) as (Hb' & Hnone & Hs).
  destruct (tryAllocate_spec o v _ _ s _ Ha Hb' Hs) as (c' & -> & Hal). exists c'. split; [done|].
  by eapply books_allocated.
Qed.

(** *** The shards of a region that is gone *)

Lemma place_home o v s key c : shardHome (place o v s key c) = map_set (shardHome c) s key.
Proof.
  unfold place. rewrite <- (same_map_home _ _ (same_after o v _)).
  set (c1 := set_offCandidatePickWarned _ _). change (set_shards key _ _) with (placed s key c1).
  assert (shardHome (placed s key c1) = map_set (shardHome c) s key) as Hp.
  { unfold placed. by rewrite (proj1 (set_shards_rest _ _ _)). }
  cbv zeta. match goal with |- shardHome (if _ then _ else ?c3) = _ => assert (shardHome c3 = map_set (shardHome c) s key) end.
  2: { destruct (rememberEntities o); [|done]. by rewrite <- (same_map_home _ _ (same_ship _ _)). }
  match goal with |- shardHome (flushPending _ ?c3) = _ => assert (shardHome c3 = map_set (shardHome c) s key) as H3 end.
  { case_match; [|done]. by rewrite <- (same_map_home _ _ (same_send _ _ _)). }
  match goal with |- shardHome (flushPending s ?c3) = _ => destruct (flushPending_pending s c3) as [ ->|(h & i & _ & _ & Hs)] end.
  - done.
  - by rewrite <- (same_map_home _ _ Hs).
Qed.

Lemma foldl_keeps {A B} (f : ShardCoordinator → A → ShardCoordinator) (g : ShardCoordinator → B) l c :
  (∀ c x, g (f c x) = g c) → g (foldl f c l) = g c.
Proof. intros Hf. revert c. induction l as [|x l IH]; intros c; [done|]. cbn [foldl]. by rewrite IH, Hf. Qed.

Lemma flush_regions s c : regions (flushPending s c) = regions c ∧ rebalanceInProgress (flushPending s c) = rebalanceInProgress c
  ∧ refusedRegions (flushPending s c) = refusedRegions c.
Proof.
  unfold flushPending. repeat case_match; try done. cbn [regions rebalanceInProgress refusedRegions set_pending].
  split_and!; by apply foldl_keeps.
Qed.

Lemma place_regions o v s key c :
  entry_of <$> regions (place o v s key c) = entry_of <$> regions (placed s key c) ∧
  rebalanceInProgress (place o v s key c) = rebalanceInProgress c ∧
  refusedRegions (place o v s key c) = refusedRegions c.
Proof.
  unfold place. set (c1 := set_offCandidatePickWarned _ _). change (set_shards key _ _) with (placed s key c1).
  assert (regions (placed s key c1) = regions (placed s key c)) as Hp.
  { unfold placed, set_shards. cbn. by destruct (map_get (regions c) key). }
  assert (rebalanceInProgress (placed s key c1) = rebalanceInProgress c ∧ refusedRegions (placed s key c1) = refusedRegions c) as [Hr Hf].
  { unfold placed. destruct (set_shards_rest key (set_add (shards_of c1 key) s) (set_shardHome (map_set (shardHome c1) s key) c1))
      as (_ & Rr & _ & Rf). by rewrite Rr, Rf. }
  rewrite <- Hp, <- Hr, <- Hf. generalize (placed s key c1) as c2. clear. intros c2. cbv zeta.
  destruct (same_after o v (if rememberEntities o then shipRememberedEntities s (flushPending s
    match map_get (regions c2) key with Some info => sendToRegion key (ShardHome s (path info) (node info)) c2 | None => c2 end)
    else flushPending s
    match map_get (regions c2) key with Some info => sendToRegion key (ShardHome s (path info) (node info)) c2 | None => c2 end))
    as (<- & _ & <- & _ & <-).
  set (c3 := match map_get (regions c2) key with Some _ => _ | None => _ end).
  assert (same_map c2 c3) as (H1 & _ & H2 & _ & H3) by (unfold c3; case_match; [apply same_send|done]).
  destruct (flush_regions s c3) as (F1 & F2 & F3).
  destruct (rememberEntities o).
  - destruct (same_ship s (flushPending s c3)) as (<- & _ & <- & _ & <-). split_and!; congruence.
  - split_and!; congruence.
Qed.

(** Who a region is. *)
Definition identity i : NodeAddress * string * bool := (node i, path i, proxy i).

Lemma entries_identity c c' key : entry_of <$> regions c = entry_of <$> regions c' →
  identity <$> map_get (regions c) key = identity <$> map_get (regions c') key.
Proof.
  intros He. assert (facts <$> map_get (regions c) key = facts <$> map_get (regions c') key) as Hf.
  { by rewrite <- !map_get_entries, He. }
  destruct (map_get (regions c) key) as [i|], (map_get (regions c') key) as [j|]; try done.
  cbn in *. unfold facts, identity in *. congruence.
Qed.

(** What an allocation leaves alone: the other homes, the registry, the
    hand-offs; and the home it may set. *)
Record allocation o v s c c' : Prop := mkAllocation {
  a_other x : x ≠ s → map_get (shardHome c') x = map_get (shardHome c) x;
  a_registry key : identity <$> map_get (regions c') key = identity <$> map_get (regions c) key;
  a_keys : (regions c').*1 = (regions c).*1;
  a_handoffs : rebalanceInProgress c' = rebalanceInProgress c;
  a_refused : refusedRegions c' = refusedRegions c;
  a_placed : map_get (shardHome c') s = map_get (shardHome c) s ∨
    ∃ key i, map_get (shardHome c') s = Some key ∧ may_host o v c key i;
}.

Lemma allocated_allocation o v s c c' : allocated o v s c c' → allocation o v s c c'.
Proof.
  intros [c1 Hs|key i c1 Hm Hs].
  - pose proof (same_map_keys _ _ Hs) as Hk. destruct Hs as (He & Hh & Hr & Hp & Hf).
    split; try congruence; [|by left; congruence]. intros key. symmetry. by apply entries_identity.
  - destruct (place_regions o v s key c1) as (He & Hr & Hf).
    pose proof (same_map_keys _ _ Hs) as Hk. destruct Hs as (Hse & Hsh & Hsr & Hsp & Hsf). split.
    + intros x Hx. rewrite place_home, map_get_set. case_decide; [done|congruence].
    + intros k. rewrite (entries_identity _ _ k He). rewrite <- (entries_identity _ _ k (eq_sym Hse)).
      unfold placed. rewrite get_set_shards. cbn [regions set_shardHome]. rewrite <- option_fmap_compose.
      destruct (map_get (regions c1) k); [|done]. by case_decide.
    + rewrite <- (entries_keys (regions (place _ _ _ _ _))), He, entries_keys. unfold placed.
      rewrite set_shards_keys. cbn. congruence.
    + congruence.
    + congruence.
    + right. exists key, i. split; [|done]. by rewrite place_home, map_get_set, decide_True.
Qed.

Lemma identity_None c c' key : identity <$> map_get (regions c') key = identity <$> map_get (regions c) key →
  map_get (regions c) key = None → map_get (regions c') key = None.
Proof. intros He Hn. rewrite Hn in He. by destruct (map_get (regions c') key). Qed.

(** The loop over the shards of a region that left the registry. *)
Record orphans o (l : list Z) c : Prop := mkOrphans {
  or_once : NoDup l;
  or_range s : s ∈ l → 0 ≤ s < numShards o;
  or_gone s key : s ∈ l → map_get (shardHome c) s = Some key → map_get (regions c) key = None;
}.

Lemma rehome_spec o v s l c : answers o v → books_but o (λ x, x ∈ s :: l) nothing c → orphans o (s :: l) c →
  ∃ c' c1, rehome o v s c = (c', true) ∧ books_but o (λ x, x ∈ l) nothing c' ∧ orphans o l c' ∧
    c1 = set_rebalanceInProgress (map_delete (rebalanceInProgress c) s) (set_shardHome (map_delete (shardHome c) s) c) ∧
    allocation o v s c1 c'.
Proof.
  intros Ha Hb [Hnd Hr Hg]. apply NoDup_cons in Hnd as [Hsl Hnd]. pose proof (Hr s ltac:(by left)) as Hs.
  set (c1 := set_rebalanceInProgress (map_delete (rebalanceInProgress c) s) (set_shardHome (map_delete (shardHome c) s) c)).
  assert (books_but o (λ x, x ∈ l) nothing c1) as Hb1.
  { eapply books_weaken; [| |apply books_unhomed; [exact Hb|]]; [|done|].
    - intros x [Hx%elem_of_cons Hne]. by destruct Hx.
    - intros key i Hi Hin. apply (b_lists _ _ _ _ Hb s key i Hi) in Hin.
      rewrite (Hg s key ltac:(by left) Hin) in Hi. done. }
  assert (map_get (shardHome c1) s = None) as Hnone by (cbn; by rewrite map_get_delete, decide_True).
  destruct (tryAllocate_spec o v _ _ s c1 Ha Hb1 Hs) as (c' & Hc' & Hal).
  exists c', c1. pose proof (allocated_allocation _ _ _ _ _ Hal) as Hall.
  split; [exact Hc'|]. split; [by eapply books_allocated|]. split; [|done]. split; [done|intros; apply Hr; by right|].
  intros x key Hx. rewrite (a_other _ _ _ _ _ Hall) by (intros ->; done). cbn. rewrite map_get_delete.
  case_decide; [done|]. intros Hk. eapply identity_None; [apply (a_registry _ _ _ _ _ Hall)|]. cbn.
  eapply Hg; [by right|done].
Qed.

(** What the loop leaves alone. *)
Record rehoming o v (l : list Z) c c' : Prop := mkRehoming {
  rh_other x : x ∉ l → map_get (shardHome c') x = map_get (shardHome c) x;
  rh_registry key : identity <$> map_get (regions c') key = identity <$> map_get (regions c) key;
  rh_keys : (regions c').*1 = (regions c).*1;
  rh_handoffs x : map_get (rebalanceInProgress c') x = if decide (x ∈ l) then None else map_get (rebalanceInProgress c) x;
  rh_count : (length (rebalanceInProgress c') ≤ length (rebalanceInProgress c))%nat;
  rh_refused : refusedRegions c' = refusedRegions c;
  rh_placed x : x ∈ l → map_get (shardHome c') x = None ∨
    ∃ key i, map_get (shardHome c') x = Some key ∧ map_get (regions c) key = Some i ∧ proxy i = false ∧
      (key ∉ refusedRegions c) ∧ carriesRole o v (node i) = true ∧ isUpMember v (node i) = true;
}.

Lemma identity_may_host o v c c' key i : may_host o v c' key i → refusedRegions c' = refusedRegions c →
  identity <$> map_get (regions c') key = identity <$> map_get (regions c) key →
  ∃ j, may_host o v c key j ∧ identity j = identity i.
Proof.
  intros (Hi & Hp & Hf & Hc & Hu) Href He. rewrite Hi in He.
  destruct (map_get (regions c) key) as [j|] eqn:Hj; [|done]. cbn in He. exists j.
  assert (identity j = identity i) as Hid by congruence. split; [|done]. unfold identity in Hid.
  injection Hid as Hn _ Hpx. rewrite <- Hn in *. unfold may_host. rewrite Hn, Hpx, <- Href. by rewrite <- Hn.
Qed.

Lemma map_delete_length {K V} `{EqDecision K} (m : list (K * V)) k : (length (map_delete m k) ≤ length m)%nat.
Proof. apply length_filter. Qed.

Lemma rehome_all o v l c : answers o v → books_but o (λ x, x ∈ l) nothing c → orphans o l c →
  ∃ c', each (rehome o v) l c = (c', true) ∧ books o c' ∧ rehoming o v l c c'.
Proof.
  intros Ha. revert c. induction l as [|s l IH]; intros c Hb Ho; cbn [each].
  { exists c. split; [done|]. split.
    - eapply books_weaken; [| |exact Hb]; [|done]. by intros s Hs%elem_of_nil.
    - split; try done. by intros x ?%elem_of_nil. }
  destruct (rehome_spec o v s l c Ha Hb Ho) as (c2 & c1 & Hr & Hb2 & Ho2 & Hc1 & Hal).
  unfold andthen. rewrite Hr. destruct (IH c2 Hb2 Ho2) as (c' & -> & Hb' & Hre).
  exists c'. split; [done|]. split; [done|]. pose proof (NoDup_cons_1_1 _ _ (or_once _ _ _ Ho)) as Hsl.
  destruct Hal as [A1 A2 A3 A4 A5 A6], Hre as [R1 R2 R3 R4 R5 R6 R7]. rewrite Hc1 in *.
  cbn [regions shardHome rebalanceInProgress refusedRegions set_shardHome set_rebalanceInProgress] in *. split.
  - intros x [Hx Hxl]%not_elem_of_cons. rewrite R1, A1 by done. rewrite map_get_delete. by case_decide.
  - intros key. by rewrite R2, A2.
  - congruence.
  - intros x. rewrite R4, A4, map_get_delete. destruct (decide (x ∈ l)) as [Hx|Hx]; [by rewrite decide_True by (by right)|].
    destruct (decide (x = s)) as [ ->|Hxs]; [by rewrite decide_True by left|].
    rewrite decide_False; [done|]. by intros [?|?]%elem_of_cons.
  - rewrite A4 in R5. pose proof (map_delete_length (rebalanceInProgress c) s). lia.
  - congruence.
  - intros x [ ->|Hx]%elem_of_cons.
    + rewrite (R1 s Hsl). destruct A6 as [A6|(key & i & Hk & Hm)].
      * left. rewrite A6. by rewrite map_get_delete, decide_True.
      * right. exists key, i. split; [done|]. exact Hm.
    + destruct (R7 x Hx) as [?|(key & i & Hk & Hm)]; [by left|right].
      destruct (identity_may_host o v _ _ key i Hm A5 (A2 key)) as (j & Hj & _).
      exists key, j. split; [done|]. exact Hj.
Qed.

Lemma books_unregistered o key i c : books o c → map_get (regions c) key = Some i →
  books_but o (λ x, x ∈ shards i) nothing (set_regions (map_delete (regions c) key) c) ∧
  orphans o (shards i) (set_regions (map_delete (regions c) key) c).
Proof.
  intros [H1 H2 H3 H4 H5 H6 H7 H8 H9 H10 H11] Hi. split.
  - split; cbn [regions shardHome rebalanceInProgress pending set_regions]; try done.
    + by apply map_delete_NoDup.
    + intros k j. rewrite map_get_delete. case_decide; [done|apply H2].
    + intros s k j. rewrite map_get_delete. case_decide; [done|apply H5].
    + intros k j. rewrite map_get_delete. case_decide; [done|apply H6].
    + intros s k Hs. rewrite map_get_delete. case_decide as Hk; [|destruct (H7 _ _ Hs) as [[]|]; by right].
      left. apply (H5 _ _ _ Hi). congruence.
  - split; cbn [regions shardHome set_regions].
    + by eapply H6.
    + intros s Hs. by eapply H4, H5.
    + intros s k Hs Hk. rewrite map_get_delete. case_decide as Hkk; [done|].
      apply (H5 _ _ _ Hi) in Hs. congruence.
Qed.

Lemma terminate_spec o v key c : answers o v → books o c → ∃ c', terminateRegion o v key c = (c', true) ∧ books o c' ∧
  (map_get (regions c) key = None ∧ c' = c ∨
   ∃ i c1, map_get (regions c) key = Some i ∧ same_map c1 c' ∧
     rehoming o v (shards i) (set_regions (map_delete (regions c) key) c) c1).
Proof.
  intros Ha Hb. unfold terminateRegion. destruct (map_get (regions c) key) as [i|] eqn:Hi; [|by exists c; eauto].
  destruct (books_unregistered o key i c Hb Hi) as [Hb1 Ho].
  destruct (rehome_all o v (shards i) _ Ha Hb1 Ho) as (c1 & Hr & Hb' & Hre).
  exists (afterShardMapChange o v c1). split; [unfold andthen; by rewrite Hr|].
  split; [eapply books_same; [apply same_after|done]|]. right. exists i, c1. split; [done|]. split; [apply same_after|done].
Qed.

(** ** Every handler keeps the books *)

Definition keeps o (h : handler) : Prop := ∀ c, books o c → books o (h c).1.

Lemma keeps_does o f : (∀ c, books o c → books o (f c)) → keeps o (does f).
Proof. done. Qed.

Lemma keeps_same o f : (∀ c, same_map c (f c)) → keeps o (does f).
Proof. intros Hf c Hc. by eapply books_same; [apply Hf|]. Qed.

Lemma keeps_andthen o a b : keeps o a → keeps o b → keeps o (andthen a b).
Proof. intros Ha Hb c Hc. unfold andthen. specialize (Ha c Hc). destruct (a c) as [c1 []]; [by apply Hb|done]. Qed.

Lemma keeps_each {A} o (f : A → handler) l : (∀ x, keeps o (f x)) → keeps o (each f l).
Proof. intros Hf. induction l as [|x l IH]; [by intros c|]. by apply keeps_andthen. Qed.

Lemma same_replyTo p n m c : same_map c (replyTo p n m c).1.
Proof. unfold replyTo. destruct (fromJSON n); done. Qed.

Lemma keeps_terminate o v key : answers o v → keeps o (terminateRegion o v key).
Proof. intros Ha c Hc. by destruct (terminate_spec o v key c Ha Hc) as (c' & -> & Hb & _). Qed.

Lemma keeps_register o v r n p h k : keeps o (onRegister o v r n p h k).
Proof.
  intros c Hc. unfold onRegister. destruct (fromJSON n); [|done].
  assert (∀ l, books o (set_refusedRegions l c)) as Hl.
  { intros l. destruct Hc as [H1 H2 H3 H4 H5 H6 H7 H8 H9 H10 H11]. by split. }
  case_match; [by apply books_register|]. eapply books_same; [apply same_tell|apply Hl].
Qed.

Lemma keeps_heartbeat o v r n : keeps o (onRegionHeartbeat v r n).
Proof.
  intros c Hc. unfold onRegionHeartbeat. destruct (fromJSON n) as [a|]; [|done]. case_match.
  - eapply books_same; [apply same_seen|done].
  - case_match; [done|]. eapply books_same; [apply same_tell|done].
Qed.

Lemma books_queue o s q c : books o c → map_get (shardHome c) s = None →
  books o (set_pending (map_set (pending c) s (default [] (map_get (pending c) s) ++ [q])) c).
Proof.
  intros [H1 H2 H3 H4 H5 H6 H7 H8 H9 H10 H11] Hn. split; cbn [regions shardHome rebalanceInProgress pending set_pending]; try done.
  - intros x Hx. rewrite map_get_set. case_decide; [|by apply H10]. subst x. rewrite Hn in Hx. by destruct Hx.
  - intros x. rewrite map_get_set. case_decide; [|apply H11]. intros [= Ha]. by destruct (default [] (map_get (pending c) s)).
Qed.

Lemma keeps_getShardHome o v j r n : answers o v → keeps o (onGetShardHome o v j r n).
Proof.
  intros Ha c Hc. unfold onGetShardHome. destruct (fromJSON n) as [a|]; [|done].
  assert (books o (markRegionSeen v (regionKey a r) c)) as Hb by (eapply books_same; [apply same_seen|done]).
  set (c1 := markRegionSeen v (regionKey a r) c) in *. clearbody c1. cbv zeta.
  destruct (isShardIdInRange o j) as [s|] eqn:Hj; [|done]. apply in_range_spec in Hj.
  destruct (set_has (refusedRegions c1) (regionKey a r)); [done|].
  destruct (map_get (shardHome c1) s) as [home|] eqn:Hh; cbn [mbind option_bind].
  - destruct (b_registered _ _ _ _ Hb _ _ Hh) as [[]|[i Hi]]. rewrite Hi. eapply books_same; [apply same_tell|done].
  - pose proof (books_queue o s (mkGetShardHome s r a) c1 Hb Hh) as Hq. case_match; [done|].
    destruct (tryAllocate_spec o v _ _ s _ Ha Hq Hj) as (c' & -> & Hal). by eapply books_allocated.
Qed.

Lemma keeps_handOffComplete o v s r n : answers o v → keeps o (onHandOffComplete o v s r n).
Proof.
  intros Ha c Hc. unfold onHandOffComplete. destruct (fromJSON n) as [a|]; [|done].
  assert (books o (markRegionSeen v (regionKey a r) c)) as Hb by (eapply books_same; [apply same_seen|done]).
  set (c1 := markRegionSeen v (regionKey a r) c) in *. clearbody c1. cbv zeta.
  destruct (map_get (rebalanceInProgress c1) s) as [from|] eqn:Hf; [|done]. case_bool_decide; [done|].
  by destruct (books_ended o v s from c1 Ha Hb Hf) as (c' & -> & ?).
Qed.

Lemma keeps_handOffTimeout o v s : answers o v → keeps o (onHandOffTimeout o v s).
Proof.
  intros Ha c Hb. unfold onHandOffTimeout. destruct (map_get (rebalanceInProgress c) s) as [from|] eqn:Hf; [|done].
  by destruct (books_ended o v s from c Ha Hb Hf) as (c' & -> & ?).
Qed.

Lemma keeps_terminated o v r n : answers o v → keeps o (onRegionTerminated o v r n).
Proof. intros Ha c Hc. unfold onRegionTerminated. destruct (fromJSON n); [|done]. by apply keeps_terminate. Qed.

Lemma same_remember e c : same_map c (applyRememberEvent e c).
Proof. unfold applyRememberEvent. repeat case_match; done. Qed.

Lemma same_persist o e c : same_map c (persistRememberEvent o e c).
Proof. unfold persistRememberEvent. by case_match. Qed.

Lemma same_entityStarted o s e c : same_map c (onEntityStarted o s e c).
Proof. unfold onEntityStarted. case_match; [done|]. etrans; [apply same_remember|apply same_persist]. Qed.

Lemma same_entityStopped o s e c : same_map c (onEntityStopped o s e c).
Proof.
  unfold onEntityStopped. case_match; [apply same_remember|]. case_match; [done|].
  etrans; [apply same_remember|apply same_persist].
Qed.

Lemma same_getRemembered o s c : same_map c (onGetRememberedEntities o s c).
Proof. unfold onGetRememberedEntities. case_match; [apply same_ship|done]. Qed.

Lemma same_getStats r n k c : same_map c (onGetClusterShardingStats r n k c).1.
Proof.
  unfold onGetClusterShardingStats. case_bool_decide; [apply same_replyTo|]. cbn [fst].
  etrans; [|apply same_foldl; intros; apply same_send]. done.
Qed.

Lemma same_stats v q r n l c : same_map c (onShardRegionStats v q r n l c).1.
Proof.
  unfold onShardRegionStats. destruct (fromJSON n) as [a|]; [|done]. cbv zeta.
  pose proof (same_seen (regionKey a r) (Date_now v) false c) as Hs. fold (markRegionSeen v (regionKey a r) c) in Hs.
  case_match; [|done]. case_match; [done|]. case_bool_decide; [etrans; [exact Hs|done]|].
  etrans; [exact Hs|]. unfold answerStatsQuery. etrans; [|apply same_replyTo]. done.
Qed.

Lemma same_statsTimeout q c : same_map c (onStatsTimeout q c).1.
Proof.
  unfold onStatsTimeout. case_match; [|done]. unfold answerStatsQuery. etrans; [|apply same_replyTo]. done.
Qed.

Lemma keeps_sweep_region o v i : answers o v → keeps o (sweep_region o v i).
Proof.
  intros Ha c Hc. unfold sweep_region. case_match; [eapply books_same; [apply same_seen|done]|].
  case_match; [done|]. case_match; [done|]. apply keeps_andthen; [by apply keeps_terminate| |done].
  apply keeps_same. intros. apply same_tell.
Qed.

Lemma keeps_sweep o v : answers o v → keeps o (sweepStaleRegions o v).
Proof.
  intros Ha c Hc. unfold sweepStaleRegions. case_match; [|done]. apply keeps_each; [|done].
  intros i. by apply keeps_sweep_region.
Qed.

Lemma books_beginHandOff o s c : books o c → books o (beginHandOff s c).
Proof.
  intros Hb. unfold beginHandOff. destruct (map_get (shardHome c) s) as [k|] eqn:Hh; [|done].
  destruct (map_get (regions c) k) as [i|]; [|done]. eapply books_same; [apply same_send|].
  destruct Hb as [H1 H2 H3 H4 H5 H6 H7 H8 H9 H10 H11].
  split; cbn [regions shardHome rebalanceInProgress pending set_rebalanceInProgress]; try done.
  - by apply map_set_NoDup.
  - intros x from. rewrite map_get_set. case_decide; [|apply H9]. subst x. by intros [= <-].
Qed.

Lemma keeps_rebalance_pass o v : keeps o (rebalance_pass o v).
Proof.
  intros c Hc. unfold rebalance_pass. set (l := candidateRegions o v c). cbv zeta.
  assert (books o (observeEligibleSet v l c)) as Hb by (eapply books_same; [apply same_observe|done]).
  set (c1 := observeEligibleSet v l c) in *. clearbody c1. case_match; [done|].
  destruct (@rebalance (strategy v) _ _ _) as [p|]; [|done].
  match goal with |- context [shardsWithinBudget ?a ?b ?d] => generalize (shardsWithinBudget a b d) end. intros l'.
  destruct (match _ <$> rebalanceCeiling o with Some b => b <=? 0 | None => false end); [done|]. cbn [fst].
  clear -Hb. revert c1 Hb. induction l' as [|s l' IH]; intros c1 Hb; [done|]. cbn [foldl]. by apply IH, books_beginHandOff.
Qed.

Lemma keeps_rebalance o v : answers o v → keeps o (onRebalanceTimer o v).
Proof.
  intros Ha c Hc. unfold onRebalanceTimer. case_match; [|done].
  apply keeps_andthen; [by apply keeps_sweep|apply keeps_rebalance_pass|done].
Qed.

Lemma keeps_memberRemoved o v a : answers o v → keeps o (onMemberRemoved o v a).
Proof.
  intros Ha c Hc. unfold onMemberRemoved. apply keeps_each; [|done]. intros i. case_match; [by apply keeps_terminate|].
  by intros ?.
Qed.

Lemma keeps_dispatch o v m : answers o v → keeps o (dispatchShardingMessage o v m).
Proof.
  intros Ha. destruct m; cbn [dispatchShardingMessage].
  - apply keeps_register.
  - by apply keeps_getShardHome.
  - by apply keeps_handOffComplete.
  - by intros ?.
  - by apply keeps_terminated.
  - apply keeps_heartbeat.
  - apply keeps_same. intros. apply same_entityStarted.
  - apply keeps_same. intros. apply same_entityStopped.
  - apply keeps_same. intros. apply same_getRemembered.
  - intros c Hc. eapply books_same; [apply same_getStats|done].
  - intros c Hc. eapply books_same; [apply same_stats|done].
  - by intros ?.
Qed.

Lemma keeps_receive o v m p : answers o v → keeps o (receiveShardingMessage o v m p).
Proof.
  intros Ha c Hc. unfold receiveShardingMessage. case_match; [done|]. case_match; [done|].
  destruct (has_lease o && negb (bool_decide (leaseState c = held))); [|by apply keeps_dispatch].
  cbn [fst]. case_match; [|done]. by eapply books_same; [|exact Hc].
Qed.

Lemma same_reconcile o v c : same_map c (reconcileLease o v c).
Proof. unfold reconcileLease. repeat case_match; done. Qed.

Lemma keeps_leaseResult o v got : answers o v → keeps o (onLeaseAcquireResult o v got).
Proof.
  intros Ha c Hc. unfold onLeaseAcquireResult. destruct (leaseState c).
  1, 3: destruct got; cbn [fst]; try done; by eapply books_same; [apply same_emit|].
  destruct got; cbn [negb fst]; [|by eapply books_same; [|exact Hc]].
  case_match; cbn [fst]; [by eapply books_same; [|exact Hc]|].
  apply keeps_each; [intros m; by apply keeps_dispatch|]. by eapply books_same; [|exact Hc].
Qed.

Lemma books_leaseLost o c : books o c → books o (onLeaseLost c).
Proof.
  intros Hb. unfold onLeaseLost. case_match; [done|done|]. destruct Hb as [H1 H2 H3 H4 H5 H6 H7 H8 H9 H10 H11].
  split; cbn [regions shardHome rebalanceInProgress pending set_rebalanceInProgress set_pending set_acquireBuffer
    set_leaseState emit set_effects]; try done; [apply NoDup_nil_2|by right].
Qed.

Lemma same_requests v l c : same_map c (onRequestRegistrations v l c).
Proof.
  unfold onRequestRegistrations. case_match; [done|]. apply same_foldl. intros c' r. repeat case_match; done.
Qed.

Lemma books_empty o c : regions c = [] → shardHome c = [] → pending c = [] → rebalanceInProgress c = [] → books o c.
Proof. intros H1 H2 H3 H4. split; rewrite ?H1, ?H2, ?H3, ?H4; try done; try apply NoDup_nil_2. by intros s []. Qed.

Lemma books_leaderChanged o v c : books o c → books o (onLeaderChanged o v c).
Proof.
  intros Hb. unfold onLeaderChanged.
  match goal with |- books o (if _ then emit _ ?c1 else _) => assert (books o c1) as H1 end.
  - destruct (negb (isLeader v)); [by apply books_empty|]. case_match; [|done]. by eapply books_same; [apply same_emit|].
  - destruct (has_lease o); [|done]. by eapply books_same; [apply same_emit|].
Qed.

Lemma coordinator_books_start o events c : regions c = [] → shardHome c = [] → pending c = [] → rebalanceInProgress c = [] →
  books o (preStart o events c).
Proof.
  intros H1 H2 H3 H4. eapply books_same; [|by apply (books_empty o c)]. unfold preStart.
  etrans; [|by destruct (has_lease o)]. destruct (_ && _); [|done]. apply same_foldl. intros. apply same_remember.
Qed.

Lemma books_restart o events c : books o (restart o events c).
Proof. by apply coordinator_books_start. Qed.

(** The answer of the store of the coordinator's state. *)
Definition loads (e : Event) : bool := match e with StateLoaded _ => true | _ => false end.

Lemma keeps_handle o v e : answers o v → loads e = false → keeps o (handle o v e).
Proof.
  intros Ha He. destruct e; cbn [handle]; try done.
  - by apply keeps_receive.
  - apply keeps_same, same_reconcile.
  - by apply keeps_leaseResult.
  - apply keeps_does, books_leaseLost.
  - apply keeps_same, same_requests.
  - by apply keeps_memberRemoved.
  - apply keeps_does, books_leaderChanged.
  - by apply keeps_rebalance.
  - by apply keeps_handOffTimeout.
  - intros c Hc. eapply books_same; [apply same_statsTimeout|done].
  - apply keeps_same, same_publish.
  - apply keeps_same, same_saved.
Qed.

(** The states of a coordinator with a strategy that answers, whatever frames,
    timers and membership events it meets; a stored state is loaded only where
    the options name a store of it. *)
Inductive reachable o : ShardCoordinator → Prop :=
| reachable_start events : reachable o (preStart o events construct)
| reachable_step v remembered e c : reachable o c → answers o v →
    (loads e = true → has_coordinatorStateStore o = true) → reachable o (step o v remembered e c).

(** Without such a store nothing is loaded. *)
Lemma no_load o e : has_coordinatorStateStore o = false → (loads e = true → has_coordinatorStateStore o = true) → loads e = false.
Proof. intros Ho Hl. destruct (loads e); [|done]. by rewrite Hl in Ho. Qed.

Lemma coordinator_reachable_books o c : has_coordinatorStateStore o = false → reachable o c → books o c.
Proof.
  intros Ho. induction 1 as [events|v remembered e c _ IH Ha He%no_load]; [by apply coordinator_books_start| |done].
  unfold step. pose proof (keeps_handle o v e Ha He c IH) as Hk. destruct (handle o v e c) as [c' fine]. cbn in Hk.
  case_match; [done|]. apply books_restart.
Qed.

Lemma bounded_keys {V} (m : list (Z * V)) n : NoDup m.*1 → (∀ k, k ∈ m.*1 → 0 ≤ k < n) → Z.of_nat (length m) ≤ Z.max 0 n.
Proof.
  intros Hnd Hr. assert (m.*1 ⊆+ seqZ 0 n) as Hsub.
  { apply NoDup_submseteq; [done|]. intros k Hk. apply elem_of_seqZ. specialize (Hr k Hk). lia. }
  apply submseteq_length in Hsub. rewrite length_fmap, length_seqZ in Hsub. lia.
Qed.

(** C7. The books of a coordinator without a store of its state, and with a
    strategy that answers, balance, whatever frames, timers, membership events
    and lease answers it met, and however often it was rebuilt: a
    region lists a shard exactly when it is the shard's home, so no shard is
    listed twice; every home is a registered region, filed under its own
    address and path; there are at most [numShards] homes; a hand-off under
    way is the current owner's; and no question waits for a shard that has a
    home. *)
Theorem coordinator_books_balance o c : has_coordinatorStateStore o = false → reachable o c →
  (∀ s key i, map_get (regions c) key = Some i → s ∈ shards i ↔ map_get (shardHome c) s = Some key) ∧
  (∀ s key, map_get (shardHome c) s = Some key →
     0 ≤ s < numShards o ∧ ∃ i, map_get (regions c) key = Some i ∧ key = regionKey (node i) (path i)) ∧
  Z.of_nat (length (shardHome c)) ≤ Z.max 0 (numShards o) ∧
  (∀ s from, map_get (rebalanceInProgress c) s = Some from → map_get (shardHome c) s = Some from) ∧
  (∀ s, is_Some (map_get (pending c) s) → map_get (shardHome c) s = None).
Proof.
  intros Ho Hc%coordinator_reachable_books; [|done]. destruct Hc as [H1 H2 H3 H4 H5 H6 H7 H8 H9 H10 H11]. split_and!; [done| | |done|].
  - intros s key Hs. split; [eauto|]. destruct (H7 _ _ Hs) as [[]|[i Hi]]. exists i. auto.
  - apply bounded_keys; [done|]. intros s ([s' key] & -> & Hin)%list_elem_of_fmap.
    apply (map_get_elem _ _ _ H3) in Hin. by eapply H4.
  - intros s [q Hq]. destruct (map_get (shardHome c) s) eqn:Hh; [|done].
    destruct (H10 s) as [[]|Hn]; [done|congruence].
Qed.

(** ** A run *)

(** A step with the view it found. *)
Definition run_step o (remembered : list RememberEvent) c (ve : View * Event) : ShardCoordinator := step o ve.1 remembered ve.2 c.
Definition run o (events : list (View * Event)) : ShardCoordinator :=
  foldl (run_step o []) (preStart o [] construct) events.

Lemma run_reachable o events :
  Forall (λ ve : View * Event, answers o ve.1 ∧ (loads ve.2 = true → has_coordinatorStateStore o = true)) events →
  reachable o (run o events).
Proof.
  unfold run. generalize (reachable_start o []). generalize (preStart o [] construct) as c.
  induction events as [|[v e] events IH]; intros c Hc He; [done|]. apply Forall_cons in He as [[Ha Hl] He].
  cbn [foldl]. apply IH; [|done]. by apply reachable_step.
Qed.

(** [HashAllocationStrategy] answers. *)
Lemma hash_answers o v : strategy v = @HashAllocationStrategy.hash_strategy code_point_compare → answers o v.
Proof.
  intros Hv s l m Hs Hl. rewrite Hv. cbn.
  destruct (@hash_allocate_slot code_point_compare s l m) as (a & -> & _); [lia|done|done].
Qed.

Definition sample_options : ShardCoordinatorOptions :=
  mkOptions (mkAddress "s" "a" 1 None) 4 None false false false false None None true None 0.

Definition sample_node (host : string) : NodeAddress := mkAddress "s" host 1 None.
Definition sample_member (host : string) : Member :=
  mkMember (sample_node host) up (Num 1) ∅ None None None None.

Definition sample_view (now : Z) : View :=
  mkView true (sample_member <$> ["a"; "b"; "c"]) now now (@HashAllocationStrategy.hash_strategy code_point_compare).

Lemma sample_answers o now : answers o (sample_view now).
Proof. by apply hash_answers. Qed.

Definition sample_register (host : string) (hosted : list Z) : Event :=
  Received (Register "/r" (Some (toJSON (sample_node host))) false
    (Some (JArray ((λ n, JNumber (Num n)) <$> hosted))) (Some (JNumber (Num 4)))) (Some (sample_node host)).

Definition sample_ask (host : string) (s : Z) : Event :=
  Received (GetShardHome_ (Some (JNumber (Num s))) "/r" (Some (toJSON (sample_node host)))) (Some (sample_node host)).

Definition sample_run : list (View * Event) :=
  [(sample_view 0, sample_register "a" [0; 1]); (sample_view 1, sample_register "b" [1; 2; 9]);
   (sample_view 2, sample_ask "b" 3); (sample_view 3, RebalanceTimer)].

Definition sample_state : ShardCoordinator := Eval vm_compute in run sample_options sample_run.

Example sample_homes : shardHome sample_state = [(0, "s@a:1|/r"); (1, "s@a:1|/r"); (2, "s@b:1|/r"); (3, "s@b:1|/r")] ∧
  rebalanceInProgress sample_state = [(1, "s@a:1|/r")].
Proof. split; reflexivity. Qed.

Lemma sample_reachable : reachable sample_options sample_state.
Proof.
  assert (sample_state = run sample_options sample_run) as -> by (vm_compute; reflexivity).
  apply run_reachable. repeat constructor; try done; by apply hash_answers.
Qed.

Lemma coordinator_books_balance_witness :
  let c := sample_state in shardHome c ≠ [] ∧
  (∀ s key i, map_get (regions c) key = Some i → s ∈ shards i ↔ map_get (shardHome c) s = Some key) ∧
  (∀ s key, map_get (shardHome c) s = Some key →
     0 ≤ s < 4 ∧ ∃ i, map_get (regions c) key = Some i ∧ key = regionKey (node i) (path i)) ∧
  Z.of_nat (length (shardHome c)) ≤ Z.max 0 4 ∧
  (∀ s from, map_get (rebalanceInProgress c) s = Some from → map_get (shardHome c) s = Some from) ∧
  (∀ s, is_Some (map_get (pending c) s) → map_get (shardHome c) s = None).
Proof. split; [discriminate|]. exact (coordinator_books_balance sample_options sample_state eq_refl sample_reachable). Defined.
