(* ===== verification/ShardCoordinatorTheorems.v ===== *)
(** * What the shard coordinator guarantees

    Over the books of [ShardCoordinatorBooks]: nobody takes a shard from a
    region but that region itself, its end or a hand-off; a shard is only
    placed where it may run; hand-offs stay within their ceiling and are taken
    from the owners in turn. *)

From S2P Require Import Prelude Json Member Downing BidirectionalMap Double ShardAllocation ShardCoordinator.
From S2P Require Import ShardCoordinatorBooks.
Import NodeAddress Member.

Local Open Scope Z_scope.

Implicit Types (c : ShardCoordinator) (key : string) (s shardId : Z) (i : RegionInfo).

(** ** Where shards go

    Every handler but a registration, a new term and the loading of a stored
    state relates the state it finds to the one it leaves as [moved] says. *)

Record moved o v c c' : Prop := mkMoved {
  mv_home s : map_get (shardHome c') s = map_get (shardHome c) s ∨ map_get (shardHome c') s = None ∨
    ∃ key i, map_get (shardHome c') s = Some key ∧ may_host o v c key i;
  mv_registry key : identity <$> map_get (regions c') key = identity <$> map_get (regions c) key ∨
    map_get (regions c') key = None;
  mv_refused : refusedRegions c' = refusedRegions c;
  mv_handoffs : (length (rebalanceInProgress c') ≤ length (rebalanceInProgress c))%nat;
}.

Lemma same_moved o v c c' : same_map c c' → moved o v c c'.
Proof.
  intros (He & Hh & Hr & _ & Hf). split; [left; congruence| |congruence|by rewrite Hr].
  intros key. left. symmetry. by apply entries_identity.
Qed.

Lemma moved_refl o v c : moved o v c c.
Proof. by apply same_moved. Qed.

Lemma moved_trans o v c1 c2 c3 : moved o v c1 c2 → moved o v c2 c3 → moved o v c1 c3.
Proof.
  intros [H1 R1 F1 N1] [H2 R2 F2 N2]. split.
  - intros s. destruct (H2 s) as [Hs|[Hs|(key & i & Hs & Hm)]]; [|by right; left|].
    + destruct (H1 s) as [?|[?|(key & i & ? & ?)]]; [left; congruence|right; left; congruence|].
      right. right. exists key, i. split; [congruence|done].
    + right. right. exists key. destruct (R1 key) as [He|Hn]; [|destruct Hm; congruence].
      destruct (identity_may_host o v _ _ key i Hm F1 He) as (j & Hj & _). by exists j.
  - intros key. destruct (R2 key) as [He|?]; [|by right]. destruct (R1 key) as [He'|Hn]; [left; congruence|].
    right. rewrite Hn in He. by destruct (map_get (regions c3) key).
  - congruence.
  - lia.
Qed.

Lemma allocation_moved o v s c c' : allocation o v s c c' → moved o v c c'.
Proof.
  intros [H1 H2 H3 H4 H5 H6]. split; [|by left|done|by rewrite H4].
  intros x. destruct (decide (x = s)) as [ ->|Hx]; [|left; by apply H1]. destruct H6 as [?|?]; [by left|by right; right].
Qed.

(** Dropping a hand-off and the home it was for. *)
Lemma moved_unhomed o v s c c' : (∀ key, identity <$> map_get (regions c') key = identity <$> map_get (regions c) key) →
  refusedRegions c' = refusedRegions c → shardHome c' = map_delete (shardHome c) s →
  rebalanceInProgress c' = map_delete (rebalanceInProgress c) s → moved o v c c'.
Proof.
  intros Hr Hf Hh Hb. split; [|by left|done|].
  - intros x. rewrite Hh, map_get_delete. case_decide; [by right; left|by left].
  - rewrite Hb. pose proof (map_delete_length (rebalanceInProgress c) s). lia.
Qed.

Lemma rehoming_moved o v key i c c1 : map_get (regions c) key = Some i →
  rehoming o v (shards i) (set_regions (map_delete (regions c) key) c) c1 → moved o v c c1.
Proof.
  intros Hi [R1 R2 R3 R4 R5 R6 R7]. cbn [regions shardHome rebalanceInProgress refusedRegions set_regions] in *. split; [| |done|done].
  - intros s. destruct (decide (s ∈ shards i)) as [Hs|Hs]; [|left; by apply R1].
    destruct (R7 s Hs) as [?|(k & j & Hk & Hj & ?)]; [by right; left|]. right. right. exists k, j. split; [done|].
    rewrite map_get_delete in Hj. case_decide; [done|]. by split.
  - intros k. rewrite R2, map_get_delete. case_decide; [right|by left]. subst k.
    specialize (R2 key). rewrite map_get_delete, decide_True in R2 by done. by destruct (map_get (regions c1) key).
Qed.

Definition moves o v (h : handler) : Prop := ∀ c, books o c → moved o v c (h c).1.

Lemma moves_same o v (h : handler) : (∀ c, same_map c (h c).1) → moves o v h.
Proof. intros Hs c _. apply same_moved, Hs. Qed.

Lemma moves_andthen o v a b : keeps o a → moves o v a → moves o v b → moves o v (andthen a b).
Proof.
  intros Hk Ha Hb c Hc. unfold andthen. specialize (Hk c Hc). specialize (Ha c Hc). destruct (a c) as [c1 []]; [|done].
  cbn in *. eapply moved_trans; [exact Ha|by apply Hb].
Qed.

Lemma moves_each {A} o v (f : A → handler) l : (∀ x, keeps o (f x)) → (∀ x, moves o v (f x)) → moves o v (each f l).
Proof.
  intros Hk Hf. induction l as [|x l IH]; [intros c _; apply moved_refl|]. by apply moves_andthen.
Qed.

Lemma moves_terminate o v key : answers o v → moves o v (terminateRegion o v key).
Proof.
  intros Ha c Hc. destruct (terminate_spec o v key c Ha Hc) as (c' & -> & _ & [[_ ->]|(i & c1 & Hi & Hs & Hr)]); [apply moved_refl|].
  eapply moved_trans; [by eapply rehoming_moved|by apply same_moved].
Qed.

Lemma moves_getShardHome o v j r n : answers o v → moves o v (onGetShardHome o v j r n).
Proof.
  intros Ha c Hc. unfold onGetShardHome. destruct (fromJSON n) as [a|]; [|apply moved_refl].
  assert (books o (markRegionSeen v (regionKey a r) c)) as Hb by (eapply books_same; [apply same_seen|done]).
  eapply moved_trans; [apply same_moved, (same_seen (regionKey a r) (Date_now v) false)|].
  fold (markRegionSeen v (regionKey a r) c).
  set (c1 := markRegionSeen v (regionKey a r) c) in *. clearbody c1. cbv zeta.
  destruct (isShardIdInRange o j) as [s|] eqn:Hj; [|apply moved_refl]. apply in_range_spec in Hj.
  destruct (set_has (refusedRegions c1) (regionKey a r)); [apply moved_refl|].
  destruct (map_get (shardHome c1) s) as [home|] eqn:Hh; cbn [mbind option_bind].
  - destruct (b_registered _ _ _ _ Hb _ _ Hh) as [[]|[i Hi]]. rewrite Hi. by apply same_moved.
  - pose proof (books_queue o s (mkGetShardHome s r a) c1 Hb Hh) as Hq.
    set (c2 := set_pending _ c1) in *. assert (moved o v c1 c2) as H2.
    { split; [by left|by left|done|done]. }
    eapply moved_trans; [exact H2|]. case_match; [apply moved_refl|].
    destruct (tryAllocate_spec o v _ _ s _ Ha Hq Hj) as (c' & -> & Hal).
    eapply allocation_moved. by apply allocated_allocation.
Qed.

Lemma released_moved o v s from c :
  moved o v c (releaseFromPreviousOwner s from (set_rebalanceInProgress (map_delete (rebalanceInProgress c) s) c)).
Proof.
  unfold releaseFromPreviousOwner. set (c1 := set_rebalanceInProgress _ c).
  destruct (set_shards_rest from (set_delete (shards_of c1 from) s) c1) as (Rh & Rr & _ & Rf).
  apply (moved_unhomed _ _ s); [|exact Rf|cbn [shardHome set_shardHome]; by rewrite Rh|exact Rr].
  intros key. cbn [regions set_shardHome]. rewrite get_set_shards. cbn. destruct (map_get (regions c) key); [|done].
  by case_decide.
Qed.

Lemma ended_moved o v s from c : answers o v → books o c → map_get (rebalanceInProgress c) s = Some from →
  moved o v c (tryAllocate o v s
    (releaseFromPreviousOwner s from (set_rebalanceInProgress (map_delete (rebalanceInProgress c) s) c))).1.
Proof.
  intros Ha Hb Hf. destruct (books_released o s from c Hb Hf) as (Hb' & _ & Hs).
  destruct (tryAllocate_spec o v _ _ s _ Ha Hb' Hs) as (c' & -> & Hal).
  eapply moved_trans; [apply (released_moved o v s from c)|]. eapply allocation_moved. by apply allocated_allocation.
Qed.

Lemma moves_handOffComplete o v s r n : answers o v → moves o v (onHandOffComplete o v s r n).
Proof.
  intros Ha c Hc. unfold onHandOffComplete. destruct (fromJSON n) as [a|]; [|apply moved_refl].
  assert (books o (markRegionSeen v (regionKey a r) c)) as Hb by (eapply books_same; [apply same_seen|done]).
  eapply moved_trans; [apply same_moved, (same_seen (regionKey a r) (Date_now v) false)|].
  fold (markRegionSeen v (regionKey a r) c).
  set (c1 := markRegionSeen v (regionKey a r) c) in *. clearbody c1. cbv zeta.
  destruct (map_get (rebalanceInProgress c1) s) as [from|] eqn:Hf; [|apply moved_refl].
  case_bool_decide; [apply moved_refl|]. by apply ended_moved.
Qed.

Lemma moves_handOffTimeout o v s : answers o v → moves o v (onHandOffTimeout o v s).
Proof.
  intros Ha c Hb. unfold onHandOffTimeout. destruct (map_get (rebalanceInProgress c) s) as [from|] eqn:Hf; [|apply moved_refl].
  by apply ended_moved.
Qed.

Lemma moves_sweep_region o v i : answers o v → moves o v (sweep_region o v i).
Proof.
  intros Ha c Hc. unfold sweep_region. case_match; [apply same_moved, same_seen|].
  case_match; [apply moved_refl|]. case_match; [apply moved_refl|].
  apply moves_andthen; [by apply keeps_terminate|by apply moves_terminate| |done].
  apply moves_same. intros. apply same_tell.
Qed.

Lemma moves_sweep o v : answers o v → moves o v (sweepStaleRegions o v).
Proof.
  intros Ha c Hc. unfold sweepStaleRegions. case_match; [|apply moved_refl].
  apply moves_each; [intros; by apply keeps_sweep_region|intros; by apply moves_sweep_region|done].
Qed.

Lemma moves_memberRemoved o v a : answers o v → moves o v (onMemberRemoved o v a).
Proof.
  intros Ha c Hc. unfold onMemberRemoved. apply moves_each; [| |done]; intros i; case_match.
  - by apply keeps_terminate.
  - by intros ?.
  - by apply moves_terminate.
  - intros ? _. apply moved_refl.
Qed.

(** Every frame but a registration. *)
Definition registers (m : ShardingMessage) : bool := match m with Register _ _ _ _ _ => true | _ => false end.

Lemma moves_dispatch o v m : answers o v → registers m = false → moves o v (dispatchShardingMessage o v m).
Proof.
  intros Ha Hm. destruct m; cbn [dispatchShardingMessage]; try done.
  - by apply moves_getShardHome.
  - by apply moves_handOffComplete.
  - by apply moves_same.
  - intros c Hc. unfold onRegionTerminated. destruct (fromJSON node); [by apply moves_terminate|apply moved_refl].
  - apply moves_same. intros c. unfold onRegionHeartbeat. repeat case_match; try done. apply same_seen.
  - apply moves_same. intros. apply same_entityStarted.
  - apply moves_same. intros. apply same_entityStopped.
  - apply moves_same. intros. apply same_getRemembered.
  - apply moves_same. intros. apply same_getStats.
  - apply moves_same. intros. apply same_stats.
  - by apply moves_same.
Qed.

(** ** The ceiling *)

Lemma one_round_length b round queues picked progressed : Z.of_nat (length picked) < b →
  Z.of_nat (length (one_round (Some b) round queues picked progressed).1) ≤ b.
Proof.
  revert picked progressed. induction queues as [|q queues IH]; intros picked progressed Hb; cbn [one_round]; [cbn; lia|].
  destruct (q !! round) as [s|]; [|by apply IH]. unfold spent. rewrite Z.geb_leb, length_app. cbn [length].
  destruct (Z.leb_spec b (Z.of_nat (length picked + 1))); [cbn [fst]; rewrite length_app; cbn; lia|].
  apply IH. rewrite length_app. cbn. lia.
Qed.

Lemma rounds_length fuel b round queues picked : Z.of_nat (length picked) ≤ b →
  Z.of_nat (length (rounds fuel (Some b) round queues picked)) ≤ b.
Proof.
  revert round picked. induction fuel as [|fuel IH]; intros round picked Hb; cbn [rounds]; [done|].
  unfold spent at 1. rewrite Z.geb_leb. destruct (Z.leb_spec b (Z.of_nat (length picked))); [done|].
  pose proof (one_round_length b round queues picked false ltac:(lia)) as Hr.
  destruct (one_round (Some b) round queues picked false) as [picked' []]; cbn in Hr; [by apply IH|done].
Qed.

Lemma beginHandOff_rest s c : shardHome (beginHandOff s c) = shardHome c ∧ regions (beginHandOff s c) = regions c ∧
  refusedRegions (beginHandOff s c) = refusedRegions c ∧
  (length (rebalanceInProgress (beginHandOff s c)) ≤ S (length (rebalanceInProgress c)))%nat.
Proof.
  unfold beginHandOff. destruct (map_get (shardHome c) s) as [k|]; [|split_and!; (done || lia)].
  destruct (map_get (regions c) k) as [i|]; [|split_and!; (done || lia)].
  unfold sendToRegion. case_match; cbn; (split_and!; [done..|]);
    rewrite <- !(length_fmap fst), map_set_keys; case_decide; rewrite ?length_app; cbn; lia.
Qed.

Lemma begin_all_rest l c : let c' := foldl (λ c s, beginHandOff s c) c l in
  shardHome c' = shardHome c ∧ regions c' = regions c ∧ refusedRegions c' = refusedRegions c ∧
  (length (rebalanceInProgress c') ≤ length l + length (rebalanceInProgress c))%nat.
Proof.
  cbv zeta. revert c. induction l as [|s l IH]; intros c; cbn [foldl]; [by split_and!|].
  destruct (IH (beginHandOff s c)) as (-> & -> & -> & Hl). destruct (beginHandOff_rest s c) as (-> & -> & -> & Hs).
  split_and!; [done..|]. cbn. lia.
Qed.

(** A pass changes no home and no region, and fills the ceiling at most. *)
Lemma rebalance_pass_spec o v c : let c' := (rebalance_pass o v c).1 in
  shardHome c' = shardHome c ∧ regions c' = regions c ∧ refusedRegions c' = refusedRegions c ∧
  ∀ b, rebalanceCeiling o = Some b →
    Z.of_nat (length (rebalanceInProgress c')) ≤ Z.max b (Z.of_nat (length (rebalanceInProgress c))).
Proof.
  cbv zeta. unfold rebalance_pass. set (l := candidateRegions o v c). cbv zeta.
  assert (shardHome (observeEligibleSet v l c) = shardHome c ∧ regions (observeEligibleSet v l c) = regions c ∧
    refusedRegions (observeEligibleSet v l c) = refusedRegions c ∧
    rebalanceInProgress (observeEligibleSet v l c) = rebalanceInProgress c) as (E1 & E2 & E3 & E4).
  { unfold observeEligibleSet. by case_bool_decide. }
  set (c1 := observeEligibleSet v l c) in *. clearbody c1.
  destruct (negb (isEligibleSetSettled o v c1)); [cbn [fst]; rewrite E4; split_and!; [done..|lia]|].
  destruct (@rebalance (strategy v) _ _ _) as [p|]; [|cbn [fst]; rewrite E4; split_and!; [done..|lia]].
  destruct (rebalanceCeiling o) as [b|] eqn:Hc; cbn [fmap option_fmap option_map].
  - destruct (Z.leb_spec (b - Z.of_nat (length (rebalanceInProgress c1))) 0); [cbn [fst]; rewrite E4; split_and!; [done..|lia]|].
    cbn [fst]. match goal with |- context [foldl _ c1 ?l] => set (picked := l) end.
    destruct (begin_all_rest picked c1) as (-> & -> & -> & Hl). split_and!; [done..|]. intros b' [= <-].
    assert (Z.of_nat (length picked) ≤ b - Z.of_nat (length (rebalanceInProgress c1))) as Hp.
    { unfold picked, shardsWithinBudget. apply rounds_length. cbn. lia. }
    lia.
  - cbn [fst]. match goal with |- context [foldl _ c1 ?l] => destruct (begin_all_rest l c1) as (-> & -> & -> & _) end.
    by split_and!.
Qed.


Lemma send_keeps {B} (g : ShardCoordinator → B) key m c : (∀ p n c, g (tell p n m c) = g c) → g (sendToRegion key m c) = g c.
Proof. intros Hg. unfold sendToRegion. by destruct (map_get (regions c) key). Qed.

(** The answers to a registration leave the map alone. *)
Lemma answer_registration_rest o v n r verdict c : let c' := answer_registration o v n r verdict c in
  shardHome c' = shardHome c ∧ regions c' = regions c ∧ rebalanceInProgress c' = rebalanceInProgress c ∧
  refusedRegions c' = refusedRegions c.
Proof.
  cbv zeta. unfold answer_registration.
  assert (∀ (B : Type) (g : ShardCoordinator → B), (∀ x c, g (set_effects x c) = g c) → (∀ x c, g (set_pending x c) = g c) →
    (∀ x c, g (set_stateDirty x c) = g c) → (∀ x c, g (set_stateInFlight x c) = g c) →
    (∀ x c, g (set_shardMapPublishTimer x c) = g c) →
    g (answer_registration o v n r verdict c) = g c) as Hall.
  { intros B g He Hp Hd Hf Ht. assert (∀ p n m c, g (tell p n m c) = g c) as Htell by (intros; apply He).
    assert (∀ c, g (afterShardMapChange o v c) = g c) as Hafter.
    { intros c'. unfold afterShardMapChange, scheduleShardMapPublish, scheduleCoordinatorStateSave. rewrite Ht.
      repeat case_match; rewrite ?Hd; try done. unfold emit. by rewrite He, Hf. }
    assert (∀ s c, g (flushPending s c) = g c) as Hflush.
    { intros s c'. unfold flushPending. repeat case_match; try done. rewrite Hp. apply foldl_keeps. done. }
    assert (∀ s c, g (shipRememberedEntities s c) = g c) as Hship.
    { intros s c'. unfold shipRememberedEntities. repeat case_match; try done. by apply send_keeps. }
    unfold answer_registration. rewrite Hafter.
    match goal with |- g (if _ then _ else ?c3) = _ => assert (g c3 = g c) as H3 end.
    { rewrite foldl_keeps by done. unfold releaseConflictingShards. rewrite foldl_keeps; [apply Htell|].
      intros c' x. case_match; [done|]. by apply send_keeps. }
    destruct (rememberEntities o); [|done]. by rewrite foldl_keeps. }
  fold (answer_registration o v n r verdict c). split_and!; by apply Hall.
Qed.

(** ** Nobody takes a shard from its region *)

Lemma namesPeer_parse claimed peer a : namesPeer claimed peer = true → fromJSON claimed = Some a →
  toString a = toString peer.
Proof.
  unfold namesPeer, fromJSON. intros Hn Hok.
  apply bind_Some in Hok as (s & Hs & Hok). apply bind_Some in Hok as (h & Hh & Hok).
  apply bind_Some in Hok as (p & Hp & Hok).
  assert (systemName a = s ∧ host a = h ∧ port a = p) as Hsub.
  { destruct (field claimed "incarnation"); [apply bind_Some in Hok as (? & _ & Hok)|]; by simplify_eq/=. }
  destruct Hsub as (<- & <- & <-). clear Hok.
  unfold non_empty_string, isPort in *.
  destruct (field claimed "systemName") as [[| | |s'| |]|]; try done.
  destruct (0 <? Z.of_nat (String.length s')); [|done]. injection Hs as Hs.
  destruct (field claimed "host") as [[| | |h'| |]|]; try done.
  destruct (0 <? Z.of_nat (String.length h')); [|done]. injection Hh as Hh.
  destruct (field claimed "port") as [[| |[| | |p']| | |]|]; try done.
  destruct (Number_isSafeInteger (Num p') && (p' >? 0)); [|done]. injection Hp as Hp.
  apply andb_true_iff in Hn as [[Hn1 Hn2]%andb_true_iff Hn3].
  apply bool_decide_eq_true in Hn1, Hn2. apply Z.eqb_eq in Hn3. unfold toString. congruence.
Qed.

Lemma adopted_not_owned c key key' claimed s i : map_get (shardHome c) s = Some key → map_get (regions c) key = Some i →
  key ≠ key' → s ∉ adopted (adjudicateClaim c key' claimed).
Proof.
  intros Hs Hi Hk [Hf _]%list_elem_of_filter. unfold ownedElsewhere in Hf. rewrite Hs in Hf.
  rewrite bool_decide_eq_false_2 in Hf by done. cbn in Hf. apply map_has_false in Hf. congruence.
Qed.

Lemma same_still c c' s key : same_map c c' → map_get (shardHome c) s = Some key → map_get (shardHome c') s = Some key.
Proof. intros Hs. by rewrite (same_map_home _ _ Hs). Qed.

(** The key of a region that is not filed under the sender's address. *)
Definition foreign (peer : NodeAddress) key : Prop := ∀ path, regionKey peer path ≠ key.

Lemma foreign_key peer a key path : foreign peer key → toString a = toString peer → key ≠ regionKey a path.
Proof. intros Hf He ->. apply (Hf path). unfold regionKey. by rewrite He. Qed.

Lemma dispatch_leaves_owned o v c m peer s key : answers o v → books o c → maySpeakFor m (Some peer) = true →
  foreign peer key → map_get (shardHome c) s = Some key →
  map_get (shardHome (dispatchShardingMessage o v m c).1) s = Some key.
Proof.
  intros Ha Hb Hm Hf Hs. destruct (b_registered _ _ _ _ Hb _ _ Hs) as [[]|[i Hi]].
  assert (∀ a r, books o (markRegionSeen v (regionKey a r) c) ∧
    map_get (shardHome (markRegionSeen v (regionKey a r) c)) s = Some key) as Hseen.
  { intros a r. pose proof (same_seen (regionKey a r) (Date_now v) false c) as Hsame.
    split; [by eapply books_same|]. unfold markRegionSeen. by rewrite <- (same_map_home _ _ Hsame). }
  destruct m as [r n p h k|j r n|x r n|x|r n|r n|x e|x e|x|r n k t|q r n l|]; cbn [dispatchShardingMessage maySpeakFor claimedNode] in *.
  - unfold onRegister. destruct (fromJSON n) as [a|] eqn:Hn; [|done]. case_match; [|done]. cbn [fst].
    set (c0 := set_refusedRegions _ c). assert (books o c0) as Hb0.
    { destruct Hb as [H1 H2 H3 H4 H5 H6 H7 H8 H9 H10 H11]. by split. }
    unfold register_region. rewrite (proj1 (answer_registration_rest _ _ _ _ _ _)).
    destruct (record_registration_spec o v a r p c0 (acceptedHostedShards o h) Hb0) as (beat & ->).
    cbn [shardHome set_shardHome]. rewrite get_homes_set, decide_False; [done|].
    apply (adopted_not_owned _ key _ _ _ i); [done|done|]. eapply foreign_key; [done|]. by eapply namesPeer_parse.
  - unfold onGetShardHome. destruct (fromJSON n) as [a|] eqn:Hn; [|done]. destruct (Hseen a r) as [Hb1 Hs1].
    set (c1 := markRegionSeen v (regionKey a r) c) in *. clearbody c1. cbv zeta.
    destruct (isShardIdInRange o j) as [x|] eqn:Hj; [|done]. apply in_range_spec in Hj.
    destruct (set_has (refusedRegions c1) (regionKey a r)); [done|].
    destruct (map_get (shardHome c1) x) as [home|] eqn:Hh; cbn [mbind option_bind].
    { destruct (b_registered _ _ _ _ Hb1 _ _ Hh) as [[]|[i' Hi']]. by rewrite Hi'. }
    pose proof (books_queue o x (mkGetShardHome x r a) c1 Hb1 Hh) as Hq. case_match; [done|].
    destruct (tryAllocate_spec o v _ _ x _ Ha Hq Hj) as (c' & -> & Hal). cbn [fst].
    rewrite (a_other _ _ _ _ _ (allocated_allocation _ _ _ _ _ Hal)); [done|]. intros ->. congruence.
  - unfold onHandOffComplete. destruct (fromJSON n) as [a|] eqn:Hn; [|done]. destruct (Hseen a r) as [Hb1 Hs1].
    set (c1 := markRegionSeen v (regionKey a r) c) in *. clearbody c1. cbv zeta.
    destruct (map_get (rebalanceInProgress c1) x) as [from|] eqn:Hfr; [|done]. case_bool_decide as Hk; [done|].
    destruct (decide (x = s)) as [ ->|Hx].
    { pose proof (b_handoffs _ _ _ _ Hb1 _ _ Hfr) as Hown.
      destruct (foreign_key peer a key r Hf (namesPeer_parse _ _ _ Hm Hn)). congruence. }
    destruct (books_released o x from c1 Hb1 Hfr) as (Hb2 & _ & Hr).
    destruct (tryAllocate_spec o v _ _ x _ Ha Hb2 Hr) as (c' & -> & Hal). cbn [fst].
    rewrite (a_other _ _ _ _ _ (allocated_allocation _ _ _ _ _ Hal)) by done.
    unfold releaseFromPreviousOwner. cbn [shardHome set_shardHome]. rewrite map_get_delete, decide_False by done.
    by rewrite (proj1 (set_shards_rest _ _ _)).
  - done.
  - unfold onRegionTerminated. destruct (fromJSON n) as [a|] eqn:Hn; [|done].
    destruct (terminate_spec o v (regionKey a r) c Ha Hb) as (c' & -> & _ & [[_ ->]|(i' & c1 & Hi' & Hsame & Hre)]); [done|].
    cbn [fst]. rewrite <- (same_map_home _ _ Hsame), (rh_other _ _ _ _ _ Hre); [done|].
    rewrite (b_lists _ _ _ _ Hb s _ _ Hi'). intros Hown.
    destruct (foreign_key peer a key r Hf (namesPeer_parse _ _ _ Hm Hn)). congruence.
  - unfold onRegionHeartbeat. destruct (fromJSON n) as [a|]; [|done]. case_match; [|by case_match].
    eapply same_still; [apply same_seen|done].
  - eapply same_still; [apply same_entityStarted|done].
  - eapply same_still; [apply same_entityStopped|done].
  - eapply same_still; [apply same_getRemembered|done].
  - eapply same_still; [apply same_getStats|done].
  - eapply same_still; [apply same_stats|done].
  - done.
Qed.

(** A handler throws over an address [NodeAddress] refuses: the one its frame
    names, or the one a question for statistics named that it now answers. *)
Definition address_refused m c : Prop :=
  (∃ n, claimedNode m = Some n ∧ fromJSON n = None) ∨
  (∃ id q, map_get (statsQueries c) id = Some q ∧ fromJSON (q_requesterNode q) = None).

Lemma replyTo_fine p n m c : (replyTo p n m c).2 = false → fromJSON n = None.
Proof. unfold replyTo. by destruct (fromJSON n). Qed.

Lemma count_entries_requester l q : q_requesterNode (foldl count_entry q l) = q_requesterNode q.
Proof. revert q. induction l as [|[[x y] r] l IH]; intros q; [done|]. cbn [foldl]. by rewrite IH. Qed.

Lemma seen_queries v key c : statsQueries (markRegionSeen v key c) = statsQueries c.
Proof. unfold markRegionSeen, set_seen. by destruct (map_get (regions c) key). Qed.

Lemma dispatch_fine o v c m : answers o v → books o c → (dispatchShardingMessage o v m c).2 = false → address_refused m c.
Proof.
  intros Ha Hb. unfold address_refused.
  assert (∀ n, claimedNode m = Some n → is_Some (fromJSON n) ∨ ∃ n, claimedNode m = Some n ∧ fromJSON n = None) as Hparse.
  { intros n Hn. destruct (fromJSON n) as [a|] eqn:He; [left; by exists a|right; by exists n]. }
  assert (∀ k, books o (markRegionSeen v k c)) as Hseen by (intros k; eapply books_same; [apply same_seen|done]).
  destruct m as [r n p h k|j r n|x r n|x|r n|r n|x e|x e|x|r n k t|q r n l|];
    cbn [dispatchShardingMessage claimedNode] in *; try done;
    (destruct (Hparse n eq_refl) as [[a Hn]|?]; [|by left]).
  - unfold onRegister. rewrite Hn. by case_match.
  - unfold onGetShardHome. rewrite Hn. specialize (Hseen (regionKey a r)).
    set (c1 := markRegionSeen v (regionKey a r) c) in *. clearbody c1. cbv zeta.
    destruct (isShardIdInRange o j) as [x|] eqn:Hj; [|done]. apply in_range_spec in Hj.
    destruct (set_has (refusedRegions c1) (regionKey a r)); [done|].
    destruct (map_get (shardHome c1) x) as [home|] eqn:Hh; cbn [mbind option_bind].
    { destruct (b_registered _ _ _ _ Hseen _ _ Hh) as [[]|[i' Hi']]. by rewrite Hi'. }
    pose proof (books_queue o x (mkGetShardHome x r a) c1 Hseen Hh) as Hq. case_match; [done|].
    by destruct (tryAllocate_spec o v _ _ x _ Ha Hq Hj) as (c' & -> & _).
  - unfold onHandOffComplete. rewrite Hn. specialize (Hseen (regionKey a r)).
    set (c1 := markRegionSeen v (regionKey a r) c) in *. clearbody c1. cbv zeta.
    destruct (map_get (rebalanceInProgress c1) x) as [from|] eqn:Hfr; [|done]. case_bool_decide; [done|].
    destruct (books_released o x from c1 Hseen Hfr) as (Hb2 & _ & Hr).
    by destruct (tryAllocate_spec o v _ _ x _ Ha Hb2 Hr) as (c' & -> & _).
  - unfold onRegionTerminated. rewrite Hn. by destruct (terminate_spec o v (regionKey a r) c Ha Hb) as (c' & -> & _).
  - unfold onRegionHeartbeat. rewrite Hn. by case_match.
  - unfold onGetClusterShardingStats. cbv zeta. case_bool_decide; [|done]. unfold answerStatsQuery.
    intros He%replyTo_fine. cbn [q_requesterNode] in He. congruence.
  - unfold onShardRegionStats. rewrite Hn. cbv zeta. rewrite seen_queries.
    destruct (map_get (statsQueries c) q) as [query|] eqn:Hq; [|done]. case_match; [done|]. case_bool_decide; [done|].
    unfold answerStatsQuery. intros He%replyTo_fine. rewrite count_entries_requester in He. right. by exists q, query.
Qed.


(** ** Where a shard may go *)

Lemma onRegister_cases o v r n p h k c : books o c →
  (onRegister o v r n p h k c).1 = c ∨ same_map (set_refusedRegions (refusedRegions (onRegister o v r n p h k c).1) c) (onRegister o v r n p h k c).1 ∨
  ∃ a c0 beat, fromJSON n = Some a ∧ c0 = set_refusedRegions (set_delete (refusedRegions c) (regionKey a r)) c ∧ books o c0 ∧
    let verdict := adjudicateClaim c0 (regionKey a r) (acceptedHostedShards o h) in
    (onRegister o v r n p h k c).1 = answer_registration o v a r verdict
      (set_shardHome (homes_set (adopted verdict) (regionKey a r) (shardHome c0))
        (set_regions (map_set (regions c0) (regionKey a r) (mkRegion a r p (owned verdict) (Date_now v) beat false)) c0)).
Proof.
  intros Hb. unfold onRegister. destruct (fromJSON n) as [a|]; [|by left]. cbv zeta.
  destruct (isAgreedNumShards o k); [|right; left; done]. right. right.
  set (c0 := set_refusedRegions _ c). assert (books o c0) as Hb0.
  { destruct Hb as [H1 H2 H3 H4 H5 H6 H7 H8 H9 H10 H11]. by split. }
  destruct (record_registration_spec o v a r p c0 (acceptedHostedShards o h) Hb0) as (beat & Hrec).
  exists a, c0, beat. split_and!; [done|done|done|]. cbv zeta. cbn [fst]. unfold register_region. by rewrite Hrec.
Qed.

Lemma onRegister_home o v r n p h k c s key : books o c → map_get (shardHome (onRegister o v r n p h k c).1) s = Some key →
  map_get (shardHome c) s = Some key ∨
  ∃ a, fromJSON n = Some a ∧ key = regionKey a r ∧ s ∈ acceptedHostedShards o h ∧ map_get (shardHome c) s = None.
Proof.
  intros Hb. destruct (onRegister_cases o v r n p h k c Hb) as [ ->|[Hs|(a & c0 & beat & Hn & Hc0 & Hb0 & ->)]]; [by left| |].
  { intros Hh. left. by rewrite <- (same_map_home _ _ Hs) in Hh. }
  rewrite (proj1 (answer_registration_rest _ _ _ _ _ _)). cbn [shardHome set_shardHome]. rewrite get_homes_set.
  assert (shardHome c0 = shardHome c) as Hh0 by (by rewrite Hc0). case_decide as Hs; [|rewrite Hh0; by left].
  intros [= <-]. apply list_elem_of_filter in Hs as [Hf Hin].
  destruct (ownedElsewhere_false o c0 _ s Hb0 Hf) as [Hs|Hs]; rewrite Hh0 in Hs; [|by left].
  right. by exists a.
Qed.

Lemma register_handoffs o v r n p h k c : books o c →
  rebalanceInProgress (onRegister o v r n p h k c).1 = rebalanceInProgress c.
Proof.
  intros Hb. destruct (onRegister_cases o v r n p h k c Hb) as [ ->|[Hs|(a & c0 & beat & _ & Hc0 & _ & ->)]]; [done| |].
  - by destruct Hs as (_ & _ & <- & _).
  - destruct (answer_registration_rest o v a r (adjudicateClaim c0 (regionKey a r) (acceptedHostedShards o h))
      (set_shardHome (homes_set (adopted (adjudicateClaim c0 (regionKey a r) (acceptedHostedShards o h))) (regionKey a r) (shardHome c0))
        (set_regions (map_set (regions c0) (regionKey a r) (mkRegion a r p
          (owned (adjudicateClaim c0 (regionKey a r) (acceptedHostedShards o h))) (Date_now v) beat false)) c0)))
      as (_ & _ & -> & _). cbn. by rewrite Hc0.
Qed.

Lemma receive_cases o v m p c : (receiveShardingMessage o v m p c).1 = c ∨
  (∃ l, (receiveShardingMessage o v m p c).1 = set_acquireBuffer l c) ∨
  (∃ peer, p = Some peer ∧ maySpeakFor m p = true ∧ (receiveShardingMessage o v m p c).1 = (dispatchShardingMessage o v m c).1).
Proof.
  unfold receiveShardingMessage. destruct (negb (isLeader v)); [by left|].
  destruct (maySpeakFor m p) eqn:Hm; [|by left]. cbn [negb].
  destruct (has_lease o && _); [|destruct p as [peer|]; [|done]; right; right; by exists peer].
  cbn [fst]. case_match; [right; left; eauto|by left].
Qed.

(** Why shard [s] may go to region [key] in the state [c]: the region may host
    and the strategy chose it, or the frame that is handled is its
    registration, in the name of the node its key is filed under, and nobody
    owns the shard. *)
Definition claims o m c s key : Prop :=
  ∃ region n proxy hosted count a, m = Register region n proxy hosted count ∧ fromJSON n = Some a ∧
    key = regionKey a region ∧ s ∈ acceptedHostedShards o hosted ∧ map_get (shardHome c) s = None.

Lemma moves_home o v h c s key : books o c → moves o v h → map_get (shardHome (h c).1) s = Some key →
  map_get (shardHome c) s = Some key ∨ ∃ i, may_host o v c key i.
Proof.
  intros Hb Hm Hs. destruct (mv_home _ _ _ _ (Hm c Hb) s) as [He|[Hn|(k & i & Hk & Hm')]]; [left; congruence|congruence|].
  right. exists i. by assert (k = key) as -> by congruence.
Qed.

Lemma dispatch_home o v m c s key : answers o v → books o c → map_get (shardHome (dispatchShardingMessage o v m c).1) s = Some key →
  map_get (shardHome c) s = Some key ∨ (∃ i, may_host o v c key i) ∨ claims o m c s key.
Proof.
  intros Ha Hb. destruct (registers m) eqn:Hr.
  - destruct m as [r n px h k| | | | | | | | | | |]; try done. cbn [dispatchShardingMessage].
    intros [?|(a & Hn & Hk & Hin & Hnone)]%onRegister_home; [by left| |done]. right. right. by exists r, n, px, h, k, a.
  - intros [?|?]%(moves_home o v); auto using moves_dispatch.
Qed.

Lemma each_dispatch_home o v l c s key : answers o v → books o c →
  map_get (shardHome (each (dispatchShardingMessage o v) l c).1) s = Some key →
  map_get (shardHome c) s = Some key ∨
  ∃ before m after, l = before ++ m :: after ∧
    let c1 := (each (dispatchShardingMessage o v) before c).1 in
    (∃ i, may_host o v c1 key i) ∨ claims o m c1 s key.
Proof.
  intros Ha. revert c. induction l as [|m l IH]; intros c Hb; cbn [each]; [by left|]. unfold andthen at 1.
  pose proof (dispatch_home o v m c s key Ha Hb) as Hm. pose proof (keeps_dispatch o v m Ha c Hb) as Hk.
  destruct (dispatchShardingMessage o v m c) as [c1 fine] eqn:E. cbn [fst] in *.
  assert (map_get (shardHome c1) s = Some key → map_get (shardHome c) s = Some key ∨
    ∃ before m' after, m :: l = before ++ m' :: after ∧
      let c1 := (each (dispatchShardingMessage o v) before c).1 in (∃ i, may_host o v c1 key i) ∨ claims o m' c1 s key) as H1.
  { intros [?|?]%Hm; [by left|]. right. by exists [], m, l. }
  destruct fine; [|done]. intros [?|(before & m' & after & -> & Hp)]%IH; [by apply H1| |done].
  right. exists (m :: before), m', after. split; [done|].
  assert (each (dispatchShardingMessage o v) (m :: before) c = each (dispatchShardingMessage o v) before c1) as ->; [|done].
  cbn [each]. unfold andthen. by rewrite E.
Qed.

(** C23. In a coordinator without a store of its state, and with a strategy that
    answers, a shard only goes where it may run: a shard that has a home after
    an event had it before, or the region that claims it registered just now,
    in its own node's name, and nobody owned the shard, or the strategy chose
    a region that hosts shards, was not refused over its shard count, carries
    the role, and is on a member that is [up].  When the event is a won lease
    the frames that waited for it are handled in turn, and what is said holds
    of the state the frame in question found. *)
Theorem shards_go_where_they_may o v c e s key : has_coordinatorStateStore o = false → reachable o c → answers o v →
  (loads e = true → has_coordinatorStateStore o = true) →
  map_get (shardHome (handle o v e c).1) s = Some key →
  map_get (shardHome c) s = Some key ∨ (∃ i, may_host o v c key i) ∨
  (∃ m peer a, e = Received m (Some peer) ∧ claims o m c s key ∧ claimedNode m ≫= fromJSON = Some a ∧
     toString a = toString peer) ∨
  (e = LeaseAcquireResult true ∧ ∃ before m after, acquireBuffer c = before ++ m :: after ∧
     let c1 := (each (dispatchShardingMessage o v) before (set_acquireBuffer [] (set_leaseState held c))).1 in
     (∃ i, may_host o v c1 key i) ∨ claims o m c1 s key).
Proof.
  intros Ho Hc%coordinator_reachable_books Ha Hl%no_load Hh; [|done..].
  assert (∀ h, moves o v h → map_get (shardHome (h c).1) s = Some key →
    map_get (shardHome c) s = Some key ∨ ∃ i, may_host o v c key i) as Hmv by (intros h; by apply moves_home).
  assert (∀ (Q : Prop) h, moves o v h → map_get (shardHome (h c).1) s = Some key →
    map_get (shardHome c) s = Some key ∨ (∃ i, may_host o v c key i) ∨ Q) as Hmv'.
  { intros Q h Hm Hs. destruct (Hmv h Hm Hs); [by left|by right; left]. }
  destruct e as [m p|?|got| |l|a| | |x|q| | |d]; try done; cbn [handle] in Hh.
  - destruct (receive_cases o v m p c) as [He|[[l He]|(peer & Hp & Hm & He)]]; rewrite He in Hh; [by left|by left|].
    destruct (dispatch_home o v m c s key Ha Hc Hh) as [?|[?|Hcl]]; [by left|by right; left|].
    right. right. left. exists m, peer. destruct Hcl as (r & n & px & h & k & a & -> & Hn & Hrest). exists a. subst p.
    split_and!; [done|by exists r, n, px, h, k, a|done|exact (namesPeer_parse _ _ _ Hm Hn)].
  - left. by rewrite (same_map_home _ _ (same_reconcile o v c)).
  - unfold onLeaseAcquireResult in Hh. destruct (leaseState c); [destruct got; by left| |destruct got; by left].
    destruct got; cbn [negb] in Hh; [|by left]. destruct (isLeader v); cbn [negb] in Hh; [|by left].
    apply each_dispatch_home in Hh as [?|?]; [by left| |done|by eapply books_same; [|exact Hc]]. by right; right; right.
  - left. unfold onLeaseLost in Hh. cbn [does fst] in Hh. by case_match.
  - left. by rewrite (same_map_home _ _ (same_requests v l c)).
  - apply (Hmv' _ _ (moves_memberRemoved o v a Ha) Hh).
  - left. cbn [does fst] in Hh. unfold onLeaderChanged in Hh.
    destruct (negb (isLeader v)), (has_coordinatorStateStore o), (has_lease o); done.
  - unfold onRebalanceTimer in Hh. destruct (isActive o v c); [|by left]. unfold rebalanceTick, andthen in Hh.
    pose proof (λ Q, Hmv' Q _ (moves_sweep o v Ha)) as Hsw. destruct (sweepStaleRegions o v c) as [c1 []]; [|by apply Hsw].
    apply Hsw. cbn [fst]. by rewrite (proj1 (rebalance_pass_spec o v c1)) in Hh.
  - apply (Hmv' _ _ (moves_handOffTimeout o v x Ha) Hh).
  - left. by rewrite (same_map_home _ _ (same_statsTimeout q c)).
  - left. by rewrite (same_map_home _ _ (same_publish o v c)).
  - left. by rewrite (same_map_home _ _ (same_saved o v c)).
Qed.

(** ** At most so many hand-offs *)

Definition within_ceiling o c : Prop :=
  ∀ b, rebalanceCeiling o = Some b → Z.of_nat (length (rebalanceInProgress c)) ≤ b.

Lemma ceiling_positive o b : rebalanceCeiling o = Some b → 1 ≤ b.
Proof. unfold rebalanceCeiling. repeat case_match; intros [= <-]; lia. Qed.

Lemma fewer_within o c c' : (length (rebalanceInProgress c') ≤ length (rebalanceInProgress c))%nat →
  within_ceiling o c → within_ceiling o c'.
Proof. intros Hl Hw b Hb. specialize (Hw b Hb). lia. Qed.

Lemma none_within o c : rebalanceInProgress c = [] → within_ceiling o c.
Proof. intros Hn b Hb. rewrite Hn. apply ceiling_positive in Hb. cbn. lia. Qed.

Lemma same_within o c c' : same_map c c' → within_ceiling o c → within_ceiling o c'.
Proof. intros (_ & _ & Hr & _). apply fewer_within. by rewrite Hr. Qed.

Lemma dispatch_fewer o v m c : answers o v → books o c →
  (length (rebalanceInProgress (dispatchShardingMessage o v m c).1) ≤ length (rebalanceInProgress c))%nat.
Proof.
  intros Ha Hb. destruct (registers m) eqn:Hm; [|apply (mv_handoffs _ _ _ _ (moves_dispatch o v m Ha Hm c Hb))].
  destruct m; try done. cbn [dispatchShardingMessage]. by rewrite register_handoffs.
Qed.

Lemma each_dispatch_fewer o v l c : answers o v → books o c →
  (length (rebalanceInProgress (each (dispatchShardingMessage o v) l c).1) ≤ length (rebalanceInProgress c))%nat.
Proof.
  intros Ha. revert c. induction l as [|m l IH]; intros c Hb; cbn [each]; [done|]. unfold andthen.
  pose proof (dispatch_fewer o v m c Ha Hb) as Hm. pose proof (keeps_dispatch o v m Ha c Hb) as Hk.
  destruct (dispatchShardingMessage o v m c) as [c1 []]; cbn in *; [|done]. specialize (IH c1 Hk). lia.
Qed.

Lemma handle_within o v e c : answers o v → loads e = false → books o c → within_ceiling o c →
  within_ceiling o (handle o v e c).1.
Proof.
  intros Ha Hl Hb Hw. assert (∀ h, moves o v h → within_ceiling o (h c).1) as Hmv.
  { intros h Hm. eapply fewer_within; [apply (mv_handoffs _ _ _ _ (Hm c Hb))|done]. }
  destruct e as [m p|?|got| |l|a| | |x|q| | |d]; try done; cbn [handle].
  - destruct (receive_cases o v m p c) as [ ->|[[l ->]|(peer & _ & _ & ->)]]; [done|done|].
    eapply fewer_within; [by apply dispatch_fewer|done].
  - eapply same_within; [apply same_reconcile|done].
  - unfold onLeaseAcquireResult. destruct (leaseState c); cbn [fst]; [by destruct got| |by destruct got].
    destruct got; cbn [negb fst]; [|done]. destruct (negb (isLeader v)); [done|].
    eapply fewer_within; [|exact Hw]. etrans; [apply each_dispatch_fewer; [done|]|done]. by eapply books_same; [|exact Hb].
  - cbn [does fst]. unfold onLeaseLost. case_match; [done|done|]. by apply none_within.
  - eapply same_within; [apply same_requests|done].
  - by apply Hmv, moves_memberRemoved.
  - cbn [does fst]. unfold onLeaderChanged.
    destruct (negb (isLeader v)), (has_coordinatorStateStore o), (has_lease o); try done; by apply none_within.
  - unfold onRebalanceTimer. destruct (isActive o v c); [|done]. unfold rebalanceTick, andthen.
    pose proof (Hmv _ (moves_sweep o v Ha)) as Hsw. destruct (sweepStaleRegions o v c) as [c1 []]; [|done].
    destruct (rebalance_pass_spec o v c1) as (_ & _ & _ & Hn). intros b Hb'. specialize (Hn b Hb'). specialize (Hsw b Hb').
    cbn in Hsw. lia.
  - by apply Hmv, moves_handOffTimeout.
  - eapply same_within; [apply same_statsTimeout|done].
  - eapply same_within; [apply same_publish|done].
  - eapply same_within; [apply same_saved|done].
Qed.

(** The ceiling bounds the hand-offs under way, not those of one pass: in every
    state a coordinator without a store of its state reaches at most [rebalanceCeiling] shards are on the move, whatever
    the strategy proposes and however often the timer fires. *)
Theorem handoffs_within_ceiling o c b : has_coordinatorStateStore o = false → reachable o c → rebalanceCeiling o = Some b →
  1 ≤ b ∧ Z.of_nat (length (rebalanceInProgress c)) ≤ b.
Proof.
  intros Ho Hc Hb. split; [by eapply ceiling_positive|]. revert b Hb. change (within_ceiling o c).
  induction Hc as [events|v remembered e c Hc IH Ha He%no_load]; [| |done].
  - assert (∀ c, rebalanceInProgress (preStart o events c) = rebalanceInProgress c) as Hs.
    { intros c. unfold preStart. destruct (has_lease o); cbn; (destruct (_ && _); [|done]); apply foldl_keeps;
        intros c' x; unfold applyRememberEvent; repeat case_match; done. }
    apply none_within. by rewrite Hs.
  - unfold step. pose proof (handle_within o v e c Ha He (coordinator_reachable_books o c Ho Hc) IH) as Hw.
    destruct (handle o v e c) as [c' fine]. destruct (fine || negb (on_turn e)); [done|].
    apply none_within. unfold restart, preStart. cbv zeta. destruct (has_lease o); cbn; (destruct (_ && _); [|done]);
      rewrite (foldl_keeps _ rebalanceInProgress); try done; intros c'' x; unfold applyRememberEvent; repeat case_match; done.
Qed.

(** ** On a run *)

Lemma sample_foreign : foreign (sample_node "b") "s@a:1|/r".
Proof. intros path Hp. vm_compute in Hp. discriminate Hp. Qed.


Lemma shards_go_where_they_may_witness :
  let v := sample_view 5 in
  map_get (shardHome (handle sample_options v (HandOffTimer 1) sample_state).1) 1 = Some "s@b:1|/r" ∧
  ∃ i, may_host sample_options v sample_state "s@b:1|/r" i.
Proof.
  intros v. assert (map_get (shardHome (handle sample_options v (HandOffTimer 1) sample_state).1) 1 = Some "s@b:1|/r") as Hh
    by (vm_compute; reflexivity).
  split; [exact Hh|].
  destruct (shards_go_where_they_may sample_options v sample_state (HandOffTimer 1) 1 "s@b:1|/r"
    eq_refl sample_reachable (sample_answers _ _) ltac:(discriminate) Hh) as [He|[Hm|[(m & p & a & He & _)|[He _]]]].
  - vm_compute in He. discriminate He.
  - exact Hm.
  - discriminate He.
  - discriminate He.
Defined.

Lemma handoffs_within_ceiling_witness :
  rebalanceCeiling sample_options = Some 1 ∧ 1 ≤ 1 ∧ Z.of_nat (length (rebalanceInProgress sample_state)) ≤ 1.
Proof.
  assert (rebalanceCeiling sample_options = Some 1) as Hc by (vm_compute; reflexivity).
  split; [exact Hc|]. exact (handoffs_within_ceiling sample_options sample_state 1 eq_refl sample_reachable Hc).
Defined.

(** ** What the code gets wrong *)

(** An address of the sender with an incarnation [NodeAddress] refuses. *)
Definition malformed (peer : NodeAddress) : json :=
  JObject [("systemName", JString (systemName peer)); ("host", JString (host peer)); ("port", JNumber (Num (port peer)));
           ("incarnation", JString "")].

(** C38. The gate compares the three fields of the claimed address that [equals]
    compares, and [NodeAddress.fromJSON] checks a fourth: a heartbeat that any
    member sends in its own name, with an empty incarnation, passes the gate and
    throws in the handler, and the coordinator is rebuilt without a home. *)
Theorem malformed_address_restarts o v c peer region remembered : leading v = true → has_lease o = false →
  step o v remembered (Received (RegionHeartbeat region (Some (malformed peer))) (Some peer)) c = restart o remembered c ∧
  regions (restart o remembered c) = [] ∧ shardHome (restart o remembered c) = [].
Proof.
  intros Hv Ho. assert (namesPeer (Some (malformed peer)) peer = true) as Hn.
  { unfold namesPeer, malformed. cbn [field]. lookups. rewrite !bool_decide_eq_true_2 by done. apply Z.eqb_refl. }
  assert (fromJSON (Some (malformed peer)) = None) as Hf.
  { unfold fromJSON, malformed. cbn [field]. lookups.
    destruct (non_empty_string (Some (JString (systemName peer)))); [|done]. cbn [mbind option_bind].
    destruct (non_empty_string (Some (JString (host peer)))); [|done]. cbn [mbind option_bind].
    by destruct (isPort (Some (JNumber (Num (port peer))))). }
  split.
  - unfold step, handle, receiveShardingMessage, isLeader. rewrite Hv, Ho. cbn [negb maySpeakFor claimedNode andb].
    rewrite Hn. cbn [negb dispatchShardingMessage]. unfold onRegionHeartbeat. by rewrite Hf.
  - assert (∀ (B : Type) (g : ShardCoordinator → B), (∀ x c, g (set_effects x c) = g c) →
      (∀ x c, g (set_entitiesPerShard x c) = g c) → g (restart o remembered c) = g construct) as Hg.
    { intros B g He Hp. unfold restart, preStart. cbv zeta. rewrite Ho. cbn [andb].
      destruct (rememberEntities o && has_rememberEntitiesStore o); [|apply He].
      rewrite foldl_keeps; [apply He|]. intros c' x. unfold applyRememberEvent. repeat case_match; done. }
    split; by rewrite (Hg _ _).
Qed.

Lemma malformed_address_restarts_witness :
  step sample_options (sample_view 4) [] (Received (RegionHeartbeat "/r" (Some (malformed (sample_node "b")))) (Some (sample_node "b")))
    sample_state = restart sample_options [] sample_state ∧
  regions (restart sample_options [] sample_state) = [] ∧ shardHome (restart sample_options [] sample_state) = [].
Proof. exact (malformed_address_restarts sample_options (sample_view 4) sample_state (sample_node "b") "/r" [] eq_refl eq_refl). Defined.

(** A coordinator with a store of its state: a region registers shard 1, the
    snapshot that arrives after it lists the shard under another region, which
    is gone, and the sweep of that region takes the shard from its owner, who
    is never asked to give it up. *)
Definition stored_options : ShardCoordinatorOptions :=
  mkOptions (mkAddress "s" "a" 1 None) 4 None false false false true None None true None 0.

Definition stale_snapshot : CoordinatorStateData :=
  mkStateData "s@a:1" 0 [mkRegionData "s@a:1|/r" (sample_node "a") "/r" false [1]] [(1, "s@a:1|/r")] (Some 4).

Definition loaded_run : list (View * Event) :=
  [(sample_view 0, sample_register "b" [1]); (sample_view 0, sample_register "c" []);
   (sample_view 0, StateLoaded (Some stale_snapshot))].

Example loaded_listing_takes_a_shard :
  let c := run stored_options loaded_run in
  let c' := step stored_options (sample_view 20000) [] RebalanceTimer c in
  map_get (shardHome c) 1 = Some "s@b:1|/r" ∧ map_get (rebalanceInProgress c) 1 = None ∧
  map_get (shardHome c') 1 = Some "s@c:1|/r" ∧ shards_of c' "s@b:1|/r" = [1] ∧
  Forall (λ e, match e with Told _ n (HandOff _) => equals n (sample_node "b") = false | _ => True end) (effects c').
Proof.
  intros c c'. split_and!; [vm_compute; reflexivity..|]. vm_compute. repeat constructor.
Qed.
