(* ===== verification/ShardRebalance.v ===== *)
(** * In which order shards are handed off

    [shardsWithinBudget] of [ShardCoordinator]: the shards to move are taken
    from their owners in turn, so a ceiling empties no node before the
    others have given as much. *)

From S2P Require Import Prelude Json Member Downing BidirectionalMap Double ShardAllocation ShardCoordinator.

Local Open Scope Z_scope.

Implicit Types (c : ShardCoordinator) (q l picked : list Z) (queues : list (list Z)) (es : list (string * list Z)).

(** ** The rounds as one list *)

Definition column (r : nat) queues : list Z := omap (λ q, q !! r) queues.

Fixpoint columns (fuel r : nat) queues : list Z :=
  match fuel with O => [] | S fuel => column r queues ++ columns fuel (S r) queues end.

(** What is left of the budget. *)
Definition upto (budget : option Z) (used : nat) l : list Z :=
  match budget with Some b => take (Z.to_nat (b - Z.of_nat used)) l | None => l end.

Definition nonempty l : bool := match l with [] => false | _ => true end.

Lemma one_round_spec budget r queues picked progressed : spent budget picked = false →
  one_round budget r queues picked progressed =
    (picked ++ upto budget (length picked) (column r queues), progressed || nonempty (column r queues)).
Proof.
  revert picked progressed. induction queues as [|q queues IH]; intros picked progressed Hs; cbn [one_round column omap list_omap].
  { rewrite orb_false_r. destruct budget; cbn; by rewrite ?take_nil, app_nil_r. }
  destruct (q !! r) as [s|]; [|by apply IH]. cbn [nonempty]. rewrite orb_true_r.
  destruct (spent budget (picked ++ [s])) eqn:Hs'.
  - destruct budget as [b|]; [|done]. unfold spent in Hs, Hs'. rewrite Z.geb_leb in Hs, Hs'.
    apply Z.leb_gt in Hs. apply Z.leb_le in Hs'. rewrite length_app in Hs'. cbn in Hs' |- *.
    replace (Z.to_nat (b - Z.of_nat (length picked))) with 1%nat by lia. done.
  - rewrite IH by done. f_equal. rewrite <- app_assoc. f_equal. destruct budget as [b|]; [|done].
    unfold spent in Hs'. rewrite Z.geb_leb in Hs'. apply Z.leb_gt in Hs'. rewrite length_app in Hs'. cbn in Hs'.
    unfold upto. rewrite length_app. cbn [length].
    replace (Z.to_nat (b - Z.of_nat (length picked))) with (S (Z.to_nat (b - Z.of_nat (length picked + 1)))) by lia. done.
Qed.

Lemma column_nil_later r r' queues : (r ≤ r')%nat → column r queues = [] → column r' queues = [].
Proof.
  intros Hr. induction queues as [|q queues IH]; cbn; [done|]. destruct (q !! r) eqn:Hq; [done|].
  apply lookup_ge_None in Hq. rewrite (lookup_ge_None_2 q r') by lia. done.
Qed.

Lemma columns_nil fuel r queues : column r queues = [] → columns fuel r queues = [].
Proof.
  revert r. induction fuel as [|fuel IH]; intros r Hr; cbn; [done|]. rewrite Hr. apply IH.
  by eapply column_nil_later; [|exact Hr]; lia.
Qed.

Lemma upto_app budget n l l' : upto budget n (l ++ l') =
  upto budget n l ++ upto budget (n + length (upto budget n l)) l'.
Proof.
  destruct budget as [b|]; [|done]. cbn. rewrite take_app, length_take. f_equal. f_equal. lia.
Qed.

Lemma upto_spent budget picked l : spent budget picked = true → upto budget (length picked) l = [].
Proof.
  destruct budget as [b|]; [|done]. unfold spent. rewrite Z.geb_leb. intros Hs%Z.leb_le. cbn.
  by replace (Z.to_nat (b - Z.of_nat (length picked))) with 0%nat by lia.
Qed.

Lemma rounds_spec fuel budget r queues picked :
  rounds fuel budget r queues picked = picked ++ upto budget (length picked) (columns fuel r queues).
Proof.
  revert r picked. induction fuel as [|fuel IH]; intros r picked; cbn [rounds columns].
  { destruct budget; cbn; by rewrite ?take_nil, app_nil_r. }
  destruct (spent budget picked) eqn:Hs; [by rewrite upto_spent, app_nil_r|].
  rewrite one_round_spec by done. cbn [orb]. rewrite upto_app, app_assoc, <- length_app.
  destruct (column r queues) as [|s l] eqn:Hc; [|apply IH]. cbn [nonempty].
  rewrite columns_nil by (by eapply column_nil_later; [|exact Hc]; lia). destruct budget; cbn; by rewrite ?take_nil, !app_nil_r.
Qed.

(** ** One owner's share *)

Section owners.
Context (own : Z → option string).

(** Every queue holds shards of its owner. *)
Definition owned_queues es : Prop := NoDup es.*1 ∧ ∀ k q s, (k, q) ∈ es → s ∈ q → own s = Some k.

Definition of_owner (k : string) l : list Z := filter (λ s, own s = Some k) l.

Lemma column_owner es k r : owned_queues es →
  of_owner k (column r es.*2) = option_list (map_get es k ≫= (.!! r)).
Proof.
  intros [Hnd Hown]. induction es as [|[k0 q] es IH]; [done|]. rewrite fmap_cons in Hnd.
  apply NoDup_cons in Hnd as [Hk0 Hnd].
  specialize (IH Hnd ltac:(intros; eapply Hown; [by right|done])). cbn [fmap list_fmap map_get column omap list_omap snd].
  change (omap _ _) with (column r es.*2). destruct (decide (k0 = k)) as [ ->|Hk].
  - assert (map_get es k = None) as Hn by (by apply map_get_None). rewrite Hn in IH. cbn in IH |- *.
    destruct (q !! r) as [s|] eqn:Hs; [|done]. unfold of_owner. rewrite filter_cons_True.
    + cbn. f_equal. exact IH.
    + eapply Hown; [by left|by eapply list_elem_of_lookup_2].
  - destruct (q !! r) as [s|] eqn:Hs; [|done]. unfold of_owner. rewrite filter_cons_False; [done|].
    assert (own s = Some k0) as -> by (eapply Hown; [by left|by eapply list_elem_of_lookup_2]). congruence.
Qed.

Lemma take_S_lookup q n : take (S n) q = take n q ++ option_list (q !! n).
Proof.
  revert n. induction q as [|s q IH]; intros [|n]; try done. cbn. f_equal. apply IH.
Qed.

Definition queue_of es (k : string) : list Z := default [] (map_get es k).

Lemma columns_owner es k n r : owned_queues es →
  take r (queue_of es k) ++ of_owner k (columns n r es.*2) = take (r + n) (queue_of es k).
Proof.
  intros Hes. revert r. induction n as [|n IH]; intros r; cbn [columns].
  { rewrite Nat.add_0_r. cbn. by rewrite app_nil_r. }
  unfold of_owner. rewrite filter_app. fold (of_owner k (column r es.*2)) (of_owner k (columns n (S r) es.*2)).
  rewrite column_owner by done. rewrite app_assoc.
  assert (option_list (map_get es k ≫= (.!! r)) = option_list (queue_of es k !! r)) as ->.
  { unfold queue_of. by destruct (map_get es k). }
  rewrite <- take_S_lookup, IH. f_equal. lia.
Qed.

(** A prefix of the columns: so many full rounds, and part of the next. *)
Lemma take_columns m fuel r queues : ∃ n k,
  take m (columns fuel r queues) = columns n r queues ++ take k (column (r + n) queues).
Proof.
  revert m r. induction fuel as [|fuel IH]; intros m r; cbn [columns].
  { exists O, O. cbn. by rewrite take_nil. }
  rewrite take_app. destruct (decide (m ≤ length (column r queues))%nat) as [Hm|Hm].
  - exists O, m. cbn. replace (m - length (column r queues))%nat with O by lia. cbn. by rewrite app_nil_r, Nat.add_0_r.
  - destruct (IH (m - length (column r queues))%nat (S r)) as (n & k & ->). exists (S n), k. cbn.
    rewrite take_ge by lia. rewrite <- app_assoc. do 3 f_equal. f_equal. lia.
Qed.

Lemma taken_in_turn es m fuel : owned_queues es → ∃ n : nat, ∀ k,
  let taken := of_owner k (take m (columns fuel 0 es.*2)) in
  taken = take n (queue_of es k) ∨ taken = take (S n) (queue_of es k).
Proof.
  intros Hes. destruct (take_columns m fuel 0 es.*2) as (n & j & ->). exists n. intros k. cbn zeta.
  unfold of_owner. rewrite filter_app. fold (of_owner k (columns n 0 es.*2)) (of_owner k (take j (column (0 + n) es.*2))).
  pose proof (columns_owner es k n 0 Hes) as Hc. rewrite take_0 in Hc. cbn [app Nat.add] in *. rewrite Hc.
  pose proof (column_owner es k n Hes) as Hcol. rewrite <- (take_drop j (column n es.*2)) in Hcol.
  unfold of_owner in Hcol. rewrite filter_app in Hcol. fold (of_owner k (take j (column n es.*2))) in Hcol.
  assert (option_list (map_get es k ≫= (.!! n)) = option_list (queue_of es k !! n)) as Hq.
  { unfold queue_of. by destruct (map_get es k). }
  rewrite Hq in Hcol. rewrite take_S_lookup.
  destruct (of_owner k (take j (column n es.*2))) as [|s l]; [left; by rewrite app_nil_r|right].
  f_equal. destruct (queue_of es k !! n) as [s'|]; cbn in Hcol; [|done]. injection Hcol as -> Hnil.
  by apply app_nil in Hnil as [ -> _].
Qed.

End owners.

(** ** The queues of the coordinator *)

Definition home_of c s : option string := map_get (shardHome c) s.

(** The shards of [l] one owner has, in id order: its queue. *)
Definition share c l (owner : string) : list Z := sort_numbers (of_owner (home_of c) owner l).

Lemma by_owner_fold c l m k : map_get (foldl (λ m s,
    match map_get (shardHome c) s with
    | Some owner => map_set m owner (default [] (map_get m owner) ++ [s]) | None => m end) m l) k =
  match of_owner (home_of c) k l with [] => map_get m k | mine => Some (default [] (map_get m k) ++ mine) end.
Proof.
  revert m. induction l as [|s l IH]; intros m; [done|]. cbn [foldl]. unfold of_owner. rewrite filter_cons.
  fold (of_owner (home_of c) k l). destruct (decide (home_of c s = Some k)) as [Hk|Hk]; unfold home_of in Hk.
  - rewrite Hk, IH, map_get_set, decide_True by done. cbn [default].
    destruct (of_owner (home_of c) k l); [done|]. cbn [default]. f_equal. symmetry. apply (app_assoc _ [s]).
  - rewrite IH. destruct (map_get (shardHome c) s) as [owner|]; [|done].
    by rewrite map_get_set, decide_False by congruence.
Qed.

Lemma by_owner_NoDup c l : NoDup (by_owner c l).*1.
Proof.
  unfold by_owner. assert (NoDup (@nil (string * list Z)).*1) as Hn by apply NoDup_nil_2. revert Hn.
  generalize (@nil (string * list Z)) as m. induction l as [|s l IH]; intros m Hm; cbn [foldl]; [done|].
  apply IH. case_match; [by apply map_set_NoDup|done].
Qed.

Lemma by_owner_get c l k : map_get (by_owner c l) k =
  match of_owner (home_of c) k l with [] => None | mine => Some mine end.
Proof. unfold by_owner. by rewrite by_owner_fold. Qed.

Definition named_queues c l : list (string * list Z) :=
  (λ e, (e.1, sort_numbers e.2)) <$> merge_sort key_le (by_owner c l).

Lemma owner_queues_named c l : owner_queues c l = (named_queues c l).*2.
Proof. unfold owner_queues, named_queues. by rewrite <- list_fmap_compose. Qed.

Lemma named_keys c l : (named_queues c l).*1 ≡ₚ (by_owner c l).*1.
Proof. unfold named_queues. rewrite <- list_fmap_compose. apply fmap_Permutation, merge_sort_Permutation. Qed.

Lemma named_NoDup c l : NoDup (named_queues c l).*1.
Proof. rewrite named_keys. apply by_owner_NoDup. Qed.

Lemma elem_of_named c l k q : (k, q) ∈ named_queues c l ↔ of_owner (home_of c) k l ≠ [] ∧ q = share c l k.
Proof.
  unfold named_queues. rewrite list_elem_of_fmap. split.
  - intros ([k' q'] & [= -> ->] & Hin). rewrite merge_sort_Permutation in Hin. apply (map_get_elem _ _ _ (by_owner_NoDup c l)) in Hin.
    rewrite by_owner_get in Hin. unfold share. cbn. by destruct (of_owner (home_of c) k' l); simplify_eq.
  - intros [Hne ->]. exists (k, of_owner (home_of c) k l). split; [done|].
    rewrite merge_sort_Permutation. apply (map_get_elem _ _ _ (by_owner_NoDup c l)). rewrite by_owner_get. by destruct (of_owner (home_of c) k l).
Qed.

Lemma queue_of_named c l k : queue_of (named_queues c l) k = share c l k.
Proof.
  unfold queue_of. destruct (map_get (named_queues c l) k) as [q|] eqn:Hq.
  - apply (map_get_elem _ _ _ (named_NoDup c l)) in Hq. apply elem_of_named in Hq as [_ ->]. done.
  - unfold share. destruct (of_owner (home_of c) k l) as [|s mine] eqn:Hm; [done|].
    exfalso. apply map_get_None in Hq. apply Hq. apply list_elem_of_fmap. exists (k, share c l k). split; [done|].
    apply elem_of_named. by rewrite Hm.
Qed.

Lemma owned_named c l : owned_queues (home_of c) (named_queues c l).
Proof.
  split; [apply named_NoDup|]. intros k q s [_ ->]%elem_of_named Hs. unfold share, sort_numbers in Hs.
  rewrite merge_sort_Permutation in Hs. by apply list_elem_of_filter in Hs as [? _].
Qed.

Lemma share_length c l k : (length (share c l k) ≤ length l)%nat.
Proof. unfold share, sort_numbers. rewrite merge_sort_Permutation. apply length_filter. Qed.

Lemma shardsWithinBudget_eq c l budget : shardsWithinBudget c l budget =
  upto budget 0 (columns (S (length l)) 0 (named_queues c l).*2).
Proof. unfold shardsWithinBudget. by rewrite rounds_spec, owner_queues_named. Qed.

Lemma all_columns c l k : of_owner (home_of c) k (columns (S (length l)) 0 (named_queues c l).*2) = share c l k.
Proof.
  pose proof (columns_owner (home_of c) _ k (S (length l)) 0 (owned_named c l)) as Hc.
  rewrite take_0 in Hc. cbn [app Nat.add] in Hc. rewrite Hc, queue_of_named.
  apply take_ge. pose proof (share_length c l k). lia.
Qed.

Lemma elem_of_share c l k s : s ∈ share c l k ↔ s ∈ l ∧ home_of c s = Some k.
Proof.
  unfold share, sort_numbers. rewrite merge_sort_Permutation. unfold of_owner. rewrite list_elem_of_filter. tauto.
Qed.

Lemma columns_homed c l n r s : s ∈ columns n r (named_queues c l).*2 → s ∈ l ∧ is_Some (home_of c s).
Proof.
  revert r. induction n as [|n IH]; intros r; cbn [columns]; [by intros ?%elem_of_nil|].
  rewrite elem_of_app. intros [Hs|Hs]; [|by eapply IH]. unfold column in Hs.
  apply list_elem_of_omap in Hs as (q & Hq & Hs). apply list_elem_of_fmap in Hq as ([k q'] & -> & Hin).
  apply elem_of_named in Hin as [_ ->]. cbn in Hs. apply list_elem_of_lookup_2 in Hs.
  apply elem_of_share in Hs as [? Hk]. by rewrite Hk.
Qed.

(** A ceiling takes from every owner in turn: of the shards to move, each owner
    gives the first [n] of its own in id order, or one more, for one [n]; only
    shards that have a home count, no more than the budget are taken, and when
    fewer are, nothing is left to take. *)
Theorem owners_give_in_turn c l budget : let picked := shardsWithinBudget c l budget in
  (∃ n : nat, ∀ owner, let given := of_owner (home_of c) owner picked in
     given = take n (share c l owner) ∨ given = take (S n) (share c l owner)) ∧
  (∀ s, s ∈ picked → s ∈ l ∧ is_Some (home_of c s)) ∧
  match budget with
  | Some b => Z.of_nat (length picked) ≤ Z.max 0 b ∧
              (Z.of_nat (length picked) < b → ∀ s, s ∈ l → is_Some (home_of c s) → s ∈ picked)
  | None => ∀ s, s ∈ l → is_Some (home_of c s) → s ∈ picked
  end.
Proof.
  cbv zeta. rewrite shardsWithinBudget_eq. set (all := columns (S (length l)) 0 (named_queues c l).*2).
  assert (∀ s, s ∈ l → is_Some (home_of c s) → s ∈ all) as Hall.
  { intros s Hs [k Hk]. assert (s ∈ of_owner (home_of c) k all) as Hin by (unfold all; rewrite all_columns; by apply elem_of_share).
    by apply list_elem_of_filter in Hin as [_ ?]. }
  assert (∀ s, s ∈ all → s ∈ l ∧ is_Some (home_of c s)) as Hhomed by (intros s; apply columns_homed).
  split; [|split].
  - setoid_rewrite <- (queue_of_named c l). destruct budget as [b|]; cbn [upto].
    + unfold all. apply taken_in_turn, owned_named.
    + exists (length l). intros k. right. unfold all. rewrite all_columns, <- queue_of_named. symmetry. apply take_ge.
      rewrite queue_of_named. pose proof (share_length c l k). lia.
  - intros s Hs. apply Hhomed. destruct budget; cbn [upto] in Hs; [|done]. eapply elem_of_submseteq; [exact Hs|].
    apply sublist_submseteq, sublist_take.
  - destruct budget as [b|]; cbn [upto]; [|done]. rewrite length_take. split; [lia|].
    intros Hlt s Hs Hh. rewrite take_ge by lia. by apply Hall.
Qed.

Example in_turn :
  let c := set_shardHome [(0, "a"); (1, "a"); (2, "a"); (3, "b"); (4, "b"); (5, "c")] construct in
  shardsWithinBudget c [5; 4; 3; 2; 1; 0; 9] (Some 4) = [0; 3; 5; 1].
Proof. vm_compute. reflexivity. Qed.
