(* ===== verification/ShardAllocator.v ===== *)
(** * Hashing to shards and nodes: [src/cluster/sharding/ShardAllocator.ts],
      [src/cluster/router/ConsistentHashing.ts]

    The hash every region computes a shard id with, the two stateless
    allocators, and the pick of the hashing routers.  A string is the list of its UTF-16 code units, taken below
    256; the bitwise operators work on 32 bits, as JavaScript's do. *)

From Stdlib Require Import Ascii String.
From S2P Require Import Prelude Member Downing BidirectionalMap ShardAllocation.
Import NodeAddress.

Local Open Scope Z_scope.

(** ** 32-bit operators *)

Definition js_xor (x y : Z) : Z := to_int32 (Z.lxor (to_int32 x) (to_int32 y)).
Definition Math_imul (x y : Z) : Z := to_int32 (to_int32 x * to_int32 y).
(** [x >>> n]. *)
Definition js_ushr (x n : Z) : Z := Z.shiftr (x mod 2 ^ 32) n.

Definition charCodes (s : string) : list Z := (λ a, Z.of_nat (nat_of_ascii a)) <$> list_ascii_of_string s.

(** ** Hashes *)

Definition stringHash (text : string) : Z :=
  foldl (λ hash code, Math_imul (js_xor hash code) 16777619) 2166136261 (charCodes text).

Definition hashShardId (entityId : string) (numShards : Z) : Z := Z.rem (Z.abs (stringHash entityId)) numShards.

Definition hashCombine (shardId : Z) (text : string) : Z :=
  let hash := js_xor (stringHash text) (shardId * 2654435761) in
  let hash := js_xor hash (js_ushr hash 13) in
  js_ushr (Math_imul hash 1540483477) 0.

(** The [hashCombine] of [ConsistentHashing], whose [fnv1a] is [stringHash]. *)
Definition candidateHash (key candidateId : string) : Z :=
  let hash := js_xor (stringHash key) (Math_imul (stringHash candidateId) 2654435761) in
  let hash := js_xor hash (js_ushr hash 13) in
  js_ushr (Math_imul hash 1540483477) 0.

(** ** Highest random weight *)

(** The body of both loops: [(bestHash, best)] against the next candidate. *)
Definition keep_highest {A} (score : A → Z) (acc : Z * A) (candidate : A) : Z * A :=
  let hash := score candidate in
  if hash >? acc.1 then (hash, candidate) else acc.

Definition pickRendezvous {A} (key : string) (candidates : list A) (identityOf : A → string) : option A :=
  match candidates with
  | [] => None
  | first :: _ => Some (foldl (keep_highest (λ c, candidateHash key (identityOf c))) (-1, first) candidates).2
  end.

(** ** Allocators *)

Section allocators.
Context `{LocaleCompare}.

Definition moduloAllocator (shardId : Z) (members : list NodeAddress) : result AllocationError NodeAddress :=
  if bool_decide (members = []) then Err NoCandidates
  else match HashAllocationStrategy.slot (merge_sort address_le members) shardId with
       | Some a => Ok a
       | None => Err NotAnAddress
       end.

Definition rendezvousAllocator (shardId : Z) (members : list NodeAddress) : result AllocationError NodeAddress :=
  match members with
  | [] => Err NoCandidates
  | first :: _ => Ok (foldl (keep_highest (λ addr, hashCombine shardId (toString addr))) (-1, first) members).2
  end.

End allocators.

Example hash_empty : hashShardId "" 16 = 5.
Proof. reflexivity. Qed.
(** ** What the hashes promise *)

Lemma to_int32_range x : - 2 ^ 31 ≤ to_int32 x < 2 ^ 31.
Proof. unfold to_int32. pose proof (Z.mod_pos_bound x (2 ^ 32)). destruct (Z.ltb_spec (x mod 2 ^ 32) (2 ^ 31)); lia. Qed.

Lemma js_ushr_range x n : 0 ≤ n → 0 ≤ js_ushr x n < 2 ^ 32.
Proof.
  intros Hn. unfold js_ushr. pose proof (Z.mod_pos_bound x (2 ^ 32)). rewrite Z.shiftr_div_pow2 by done.
  assert (0 < 2 ^ n) by (apply Z.pow_pos_nonneg; lia). split; [apply Z.div_pos; lia|].
  apply Z.div_lt_upper_bound; nia.
Qed.

Lemma hashShardId_range e n : 0 < n → 0 ≤ hashShardId e n < n.
Proof. intros Hn. unfold hashShardId. apply Z.rem_bound_pos; lia. Qed.

Lemma hashCombine_nonneg s t : 0 ≤ hashCombine s t.
Proof. apply js_ushr_range. lia. Qed.

Lemma candidateHash_nonneg k c : 0 ≤ candidateHash k c.
Proof. apply js_ushr_range. lia. Qed.

#[export] Hint Resolve hashShardId_range hashCombine_nonneg candidateHash_nonneg : actor.

Section highest.
Context {A : Type} (score : A → Z).

Implicit Types (members : list A) (a b : A).

(** The first of the members with the highest score. *)
Definition highest members a : Prop :=
  ∃ before after, members = before ++ a :: after ∧
    Forall (λ b, score b < score a) before ∧ Forall (λ b, score b ≤ score a) after.

Lemma highest_loop members h0 a0 :
  (Forall (λ b, score b ≤ h0) members ∧ foldl (keep_highest score) (h0, a0) members = (h0, a0)) ∨
  ∃ a, highest members a ∧ h0 < score a ∧ foldl (keep_highest score) (h0, a0) members = (score a, a).
Proof.
  revert h0 a0. induction members as [|b members IH]; intros h0 a0; [by left|]. cbn [foldl].
  unfold keep_highest at 2 4. cbn [fst]. rewrite Z.gtb_ltb.
  destruct (Z.ltb_spec h0 (score b)) as [Hb|Hb].
  - destruct (IH (score b) b) as [[Hall ->]|(a & (bs & cs & -> & Hbs & Hcs) & Hlt & ->)]; right.
    + exists b. split; [|done]. exists [], members. by split_and!.
    + exists a. split; [|split; [lia|done]]. exists (b :: bs), cs. split_and!; [done|by constructor|done].
  - destruct (IH h0 a0) as [[Hall ->]|(a & (bs & cs & -> & Hbs & Hcs) & Hlt & ->)].
    + left. split; [by constructor|done].
    + right. exists a. split; [|done]. exists (b :: bs), cs. split_and!; [done|constructor; [lia|done]|done].
Qed.

Lemma highest_unique members a b : highest members a → highest members b → a = b.
Proof.
  intros (xs & ys & -> & Hxs & Hys) (xs' & ys' & Heq & Hxs' & Hys').
  revert xs' Heq Hxs'. induction xs as [|x xs IH]; intros [|x' xs'] Heq Hxs'; simplify_eq/=; [done| | |].
  - apply Forall_cons in Hxs' as [? _]. apply Forall_app in Hys as [_ [? _]%Forall_cons]. lia.
  - apply Forall_cons in Hxs as [? _]. apply Forall_app in Hys' as [_ [? _]%Forall_cons]. lia.
  - apply Forall_cons in Hxs as [_ ?]. apply Forall_cons in Hxs' as [_ ?]. by eapply IH.
Qed.

(** The loop of either pick, whose scores are never negative. *)
Lemma pick_highest first members a : (∀ b, 0 ≤ score b) →
  (foldl (keep_highest score) (-1, first) (first :: members)).2 = a ↔ highest (first :: members) a.
Proof.
  intros Hs. destruct (highest_loop (first :: members) (-1) first) as [[[Hf _]%Forall_cons _]|(b & Hb & _ & ->)].
  - specialize (Hs first). lia.
  - split; [by intros <-|]. intros Ha. by eapply highest_unique.
Qed.

Lemma highest_filter members a (P : A → Prop) `{!∀ x, Decision (P x)} :
  P a → highest members a → highest (filter P members) a.
Proof.
  intros HP (xs & ys & -> & Hxs & Hys). exists (filter P xs), (filter P ys).
  rewrite filter_app, filter_cons_True by done.
  split_and!; [done|by eapply sublist_Forall; [apply list.sublist_filter|]..].
Qed.

Lemma highest_elem members a : highest members a → a ∈ members.
Proof. intros (xs & ys & -> & _). rewrite elem_of_app, elem_of_cons. by right; left. Qed.

End highest.

Lemma rendezvous_highest s members a :
  rendezvousAllocator s members = Ok a ↔ highest (λ addr, hashCombine s (toString addr)) members a.
Proof.
  destruct members as [|first members]; [split; [done|]; by intros ?%highest_elem%elem_of_nil|].
  unfold rendezvousAllocator. rewrite <- pick_highest by (intros; apply hashCombine_nonneg).
  split; [by intros [= <-]|by intros <-].
Qed.

Lemma pickRendezvous_highest {A} k (cs : list A) f c :
  pickRendezvous k cs f = Some c ↔ highest (λ c, candidateHash k (f c)) cs c.
Proof.
  destruct cs as [|first cs]; [split; [done|]; by intros ?%highest_elem%elem_of_nil|].
  unfold pickRendezvous. rewrite <- pick_highest by (intros; apply candidateHash_nonneg).
  split; [by intros [= <-]|by intros <-].
Qed.

(** Rendezvous hashing moves nothing it need not: whichever members leave, a
    shard placed on one that stays keeps its place, and so a member that joins
    takes shards but makes none change hands between the others; the choice is
    always one of the members, and exists when there is one. *)
Theorem rendezvous_minimal_movement (shardId : Z) (members : list NodeAddress) (a : NodeAddress)
    (stays : NodeAddress → Prop) `{!∀ x, Decision (stays x)} :
  (rendezvousAllocator shardId members = Ok a → a ∈ members) ∧
  (members ≠ [] → ∃ b, rendezvousAllocator shardId members = Ok b) ∧
  (rendezvousAllocator shardId members = Ok a → stays a → rendezvousAllocator shardId (filter stays members) = Ok a) ∧
  (∀ b, rendezvousAllocator shardId (filter stays members) = Ok b → rendezvousAllocator shardId members = Ok a →
     a = b ∨ ¬ stays a).
Proof.
  split_and!.
  - intros Ha. apply rendezvous_highest in Ha. by eapply highest_elem.
  - destruct members as [|first members]; [done|]. intros _. by eexists.
  - rewrite !rendezvous_highest. intros Ha Hs. by apply highest_filter.
  - intros b. rewrite !rendezvous_highest. intros Hb Ha. destruct (decide (stays a)) as [Hs|]; [left|by right].
    eapply highest_unique; [|exact Hb]. by apply highest_filter.
Qed.

Lemma rendezvous_minimal_movement_witness : ∃ members a,
  rendezvousAllocator 7 members = Ok a ∧
  rendezvousAllocator 7 (filter (λ m, m ≠ mkAddress "sys" "h1" 1 None) members) = Ok a.
Proof.
  exists [mkAddress "sys" "h1" 1 None; mkAddress "sys" "h2" 1 None; mkAddress "sys" "h3" 1 None].
  eexists. split; [vm_compute; reflexivity|].
  apply (rendezvous_minimal_movement 7 _ _ (λ m, m ≠ mkAddress "sys" "h1" 1 None)); [vm_compute; reflexivity|].
  vm_compute. discriminate.
Defined.

(** The hashing routers route by the same rule: a routee that leaves takes
    only its own keys with it. *)
Theorem pickRendezvous_stable {A} (key : string) (candidates : list A) (identityOf : A → string) (c : A)
    (stays : A → Prop) `{!∀ x, Decision (stays x)} :
  pickRendezvous key candidates identityOf = Some c →
  c ∈ candidates ∧ (stays c → pickRendezvous key (filter stays candidates) identityOf = Some c).
Proof.
  setoid_rewrite pickRendezvous_highest. intros Hc. split; [by eapply highest_elem|]. intros ?. by apply highest_filter.
Qed.

Lemma pickRendezvous_stable_witness :
  pickRendezvous "k" (filter (λ c, c ≠ "r1") ["r1"; "r2"; "r3"]) id = pickRendezvous "k" ["r1"; "r2"; "r3"] id
  ∨ pickRendezvous "k" ["r1"; "r2"; "r3"] id = Some "r1".
Proof.
  destruct (pickRendezvous "k" ["r1"; "r2"; "r3"] id) as [c|] eqn:E; [|discriminate E].
  destruct (decide (c = "r1")) as [->|Hc]; [by right|left].
  apply (pickRendezvous_stable "k" ["r1"; "r2"; "r3"] id c (λ c, c ≠ "r1") E). exact Hc.
Defined.
