(* ===== verification/Passivation.v ===== *)
(** * Which entity goes: [src/cluster/sharding/PassivationStrategy.ts]

    A region with a cap on its entities keeps the order in which it would give
    them up.  Three replacement regions implement one interface,
    [ReplacementRegion]; the strategy puts an admission window and a frequency
    filter in front of any of them.  The strategy's theorems are proved from
    the laws of the interface.

    A JavaScript [Set] or [Map] is a list in insertion order; the table of the
    sketch is the list of its cells. *)

From Stdlib Require Import SpecFloat.
From S2P Require Import Prelude BidirectionalMap Double ShardAllocation ShardAllocator.

Local Open Scope Z_scope.

(** ** Numbers *)

Definition rounded_down (numerator exponent : Z) : Z :=
  if 0 <=? exponent then numerator * 2 ^ exponent else numerator / 2 ^ (- exponent).

(** [Math.floor] and [Math.round] of a double, as the exact integer. *)
Definition Math_floor (n : double) : number :=
  match to_spec_float n with
  | S754_zero _ => Num 0
  | S754_infinity s => if s then NegInfinity else PosInfinity
  | S754_nan => NaN
  | S754_finite s m e => Num (rounded_down (if s then Zneg m else Zpos m) e)
  end.

Definition Math_round (n : double) : number :=
  match to_spec_float n with
  | S754_zero _ => Num 0
  | S754_infinity s => if s then NegInfinity else PosInfinity
  | S754_nan => NaN
  | S754_finite s m e =>
      let m := if s then Zneg m else Zpos m in
      Num (if 0 <=? e then m * 2 ^ e else (2 * m + 2 ^ (- e)) / (2 * 2 ^ (- e)))
  end.

(** [x > 0]. *)
Definition is_positive (n : double) : bool :=
  match to_spec_float n with S754_infinity s | S754_finite s _ _ => negb s | _ => false end.

(** [Math.min(low, Math.max(1, x))] for an integer [low]; [None] for NaN. *)
Definition at_least_one (low : Z) (x : number) : option Z :=
  match x with
  | NaN => None
  | PosInfinity => Some low
  | NegInfinity => Some (Z.min low 1)
  | Num z => Some (Z.min low (Z.max 1 z))
  end.

(** ** The frequency sketch *)

Definition SKETCH_ROWS : Z := 4.
Definition SKETCH_MAX_COUNT : Z := 15.
Definition SKETCH_SAMPLE_FACTOR : Z := 10.
Definition SKETCH_MINIMUM_WIDTH : Z := 64.
Definition FREQUENCY_AGING_FACTOR : Z := 10.
Definition SKETCH_SEEDS : list Z := [0x7f4a7c15; 0x9e3779b9; 0xc2b2ae35; 0x27d4eb2f].

Definition baseHash (entityId : string) : Z :=
  foldl (λ hash code, Math_imul (js_xor hash code) 0x01000193) 0x811c9dc5 (charCodes entityId) mod 2 ^ 32.

(** The doubling loop; [Z.to_nat value] turns are more than it takes. *)
Fixpoint widen (fuel : nat) (width value : Z) : Z :=
  match fuel with
  | O => width
  | S fuel => if width <? value then widen fuel (width * 2) value else width
  end.

Definition nextPowerOfTwo (value : Z) : Z := widen (Z.to_nat value) SKETCH_MINIMUM_WIDTH value.

Record FrequencySketch := mkSketch {
  table : list Z;
  mask : Z;
  sampleSize : Z;
  sketch_accesses : Z;
}.

Module FrequencySketch.

Implicit Types (k : FrequencySketch) (entityId : string).

Definition construct (capacity : Z) : FrequencySketch :=
  let width := nextPowerOfTwo capacity in
  mkSketch (replicate (Z.to_nat (width * SKETCH_ROWS)) 0) (width - 1) (Z.max 1 (capacity * SKETCH_SAMPLE_FACTOR)) 0.

Definition cellFor k (hash row : Z) : Z :=
  let mixed := Math_imul (js_xor hash (nth (Z.to_nat row) SKETCH_SEEDS 0)) 0x2545f491 mod 2 ^ 32 in
  row * (mask k + 1) + js_and (js_xor mixed (js_ushr mixed 15)) (mask k).

Definition seen k (index : Z) : Z := default 0 (table k !! Z.to_nat index).

(** [if (table[index] < MAX) table[index]++]. *)
Definition count_cell (hash : Z) k (row : Z) : FrequencySketch :=
  let index := cellFor k hash row in
  if seen k index <? SKETCH_MAX_COUNT
  then mkSketch (<[Z.to_nat index := seen k index + 1]> (table k)) (mask k) (sampleSize k) (sketch_accesses k)
  else k.

Definition age k : FrequencySketch :=
  mkSketch ((λ c, Z.shiftr c 1) <$> table k) (mask k) (sampleSize k) 0.

Definition record k entityId : FrequencySketch :=
  let hash := baseHash entityId in
  let k := foldl (count_cell hash) k [0; 1; 2; 3] in
  let accesses := sketch_accesses k + 1 in
  let k := mkSketch (table k) (mask k) (sampleSize k) accesses in
  if accesses >=? sampleSize k then age k else k.

Definition estimate k entityId : Z :=
  let hash := baseHash entityId in
  foldl (λ smallest row, let s := seen k (cellFor k hash row) in if s <? smallest then s else smallest)
    SKETCH_MAX_COUNT [0; 1; 2; 3].

End FrequencySketch.

(** ** The interface of a replacement region *)

Class ReplacementRegion (R : Type) := {
  touch : string → R → R;
  add : string → R → R;
  remove : string → R → R * bool;
  has : R → string → bool;
  (** the next victim; asking may move a cursor *)
  victim : R → option string * R;
  size : R → Z;
}.

(** What the strategy relies on: the residents are a set, every operation
    changes it as its name says, and a region with residents has a victim
    among them.  Only an entity that is not resident is ever added. *)
Class ReplacementRegionLaws (R : Type) `{ReplacementRegion R} := {
  region_ok : R → Prop;
  residents : R → gset string;
  touch_law : ∀ e r, region_ok r → region_ok (touch e r) ∧ residents (touch e r) = residents r;
  add_law : ∀ e r, e ∉ residents r → region_ok r → region_ok (add e r) ∧ residents (add e r) = {[e]} ∪ residents r;
  remove_law : ∀ e r, region_ok r → region_ok (remove e r).1 ∧ residents (remove e r).1 = residents r ∖ {[e]} ∧
    (remove e r).2 = bool_decide (e ∈ residents r);
  has_law : ∀ e r, region_ok r → has r e = bool_decide (e ∈ residents r);
  victim_law : ∀ r, region_ok r → region_ok (victim r).2 ∧ residents (victim r).2 = residents r ∧
    match (victim r).1 with Some v => v ∈ residents r | None => residents r = ∅ end;
  size_law : ∀ r, region_ok r → size r = Z.of_nat (base.size (residents r));
}.

(** ** Least recently used *)

Record RecencyRegion := mkRecency { order : list string }.

Module RecencyRegion.

Implicit Types (r : RecencyRegion) (entityId : string).

Definition construct : RecencyRegion := mkRecency [].

Definition touch entityId r : RecencyRegion :=
  if set_has (order r) entityId then mkRecency (set_add (set_delete (order r) entityId) entityId) else r.
Definition add entityId r : RecencyRegion := mkRecency (set_add (set_delete (order r) entityId) entityId).
Definition remove entityId r : RecencyRegion * bool :=
  (mkRecency (set_delete (order r) entityId), set_has (order r) entityId).
Definition has r entityId : bool := set_has (order r) entityId.
Definition victim r : option string * RecencyRegion := (head (order r), r).
Definition size r : Z := Z.of_nat (length (order r)).

#[global] Instance region : ReplacementRegion RecencyRegion :=
  Build_ReplacementRegion _ touch add remove has victim size.

End RecencyRegion.

(** ** Segmented *)

Record SegmentedRecencyRegion := mkSegmented {
  probation : RecencyRegion;
  protectedEntities : RecencyRegion;
  protectedCapacity : Z;
}.

Module SegmentedRecencyRegion.

Implicit Types (r : SegmentedRecencyRegion) (entityId : string).

Definition construct (capacity : Z) : SegmentedRecencyRegion :=
  mkSegmented RecencyRegion.construct RecencyRegion.construct capacity.

(** The loop takes one entity off the protected segment per turn. *)
Fixpoint demote (fuel : nat) r : SegmentedRecencyRegion :=
  match fuel with
  | O => r
  | S fuel =>
      if RecencyRegion.size (protectedEntities r) >? protectedCapacity r then
        match (RecencyRegion.victim (protectedEntities r)).1 with
        | None => r
        | Some demoted =>
            demote fuel (mkSegmented (RecencyRegion.add demoted (probation r))
              (RecencyRegion.remove demoted (protectedEntities r)).1 (protectedCapacity r))
        end
      else r
  end.

Definition demoteOverflow r : SegmentedRecencyRegion := demote (length (order (protectedEntities r))) r.

Definition touch entityId r : SegmentedRecencyRegion :=
  if RecencyRegion.has (protectedEntities r) entityId
  then mkSegmented (probation r) (RecencyRegion.touch entityId (protectedEntities r)) (protectedCapacity r)
  else
    let '(p, removed) := RecencyRegion.remove entityId (probation r) in
    if removed
    then demoteOverflow (mkSegmented p (RecencyRegion.add entityId (protectedEntities r)) (protectedCapacity r))
    else mkSegmented p (protectedEntities r) (protectedCapacity r).

Definition add entityId r : SegmentedRecencyRegion :=
  mkSegmented (RecencyRegion.add entityId (probation r)) (protectedEntities r) (protectedCapacity r).

Definition remove entityId r : SegmentedRecencyRegion * bool :=
  let '(p, removed) := RecencyRegion.remove entityId (probation r) in
  if removed then (mkSegmented p (protectedEntities r) (protectedCapacity r), true)
  else let '(q, removed) := RecencyRegion.remove entityId (protectedEntities r) in
       (mkSegmented p q (protectedCapacity r), removed).

Definition has r entityId : bool :=
  RecencyRegion.has (probation r) entityId || RecencyRegion.has (protectedEntities r) entityId.

Definition victim r : option string * SegmentedRecencyRegion :=
  (match (RecencyRegion.victim (probation r)).1 with
   | Some v => Some v
   | None => (RecencyRegion.victim (protectedEntities r)).1
   end, r).

Definition size r : Z := RecencyRegion.size (probation r) + RecencyRegion.size (protectedEntities r).

#[global] Instance region : ReplacementRegion SegmentedRecencyRegion :=
  Build_ReplacementRegion _ touch add remove has victim size.

End SegmentedRecencyRegion.

(** ** Least frequently used, with aging *)

(** [lowestCount] is infinite only inside [age]. *)
Record FrequencyRegion := mkFrequency {
  counts : list (string * Z);
  buckets : list (Z * list string);
  lowestCount : number;
  highestCount : Z;
  region_accesses : Z;
  agingPeriod : Z;
}.

Module FrequencyRegion.

Implicit Types (r : FrequencyRegion) (entityId : string).

Definition construct (period : Z) : FrequencyRegion := mkFrequency [] [] (Num 0) 0 0 period.

Definition bucket_of r (count : Z) : list string := default [] (map_get (buckets r) count).

(** [this.bucketFor(count).add(entityId)]. *)
Definition bucket_add (bs : list (Z * list string)) (count : Z) entityId : list (Z * list string) :=
  map_set bs count (set_add (default [] (map_get bs count)) entityId).

(** [this.buckets.get(count)?.delete(entityId)]. *)
Definition bucket_delete (bs : list (Z * list string)) (count : Z) entityId : list (Z * list string) :=
  match map_get bs count with Some bucket => map_set bs count (set_delete bucket entityId) | None => bs end.

Definition moveBucket entityId (from to : Z) r : FrequencyRegion :=
  let bs := bucket_delete (buckets r) from entityId in
  let bs' := bucket_add bs to entityId in
  mkFrequency (map_set (counts r) entityId to) bs'
    (if bool_decide (Num from = lowestCount r) && bool_decide (default [] (map_get bs from) = [])
     then Num to else lowestCount r)
    (if highestCount r <? to then to else highestCount r) (region_accesses r) (agingPeriod r).

(** The body of the loop of [age]. *)
Definition age_entry r (e : string * Z) : FrequencyRegion :=
  let halved := Z.max 1 (Z.shiftr (to_int32 e.2) 1) in
  mkFrequency (map_set (counts r) e.1 halved) (bucket_add (buckets r) halved e.1)
    (if number_lt (Num halved) (lowestCount r) then Num halved else lowestCount r)
    (if halved >? highestCount r then halved else highestCount r) (region_accesses r) (agingPeriod r).

Definition age r : FrequencyRegion :=
  let r := mkFrequency (counts r) [] PosInfinity 0 (region_accesses r) (agingPeriod r) in
  let r := foldl age_entry r (counts r) in
  if bool_decide (counts r = [])
  then mkFrequency (counts r) (buckets r) (Num 0) 0 0 (agingPeriod r)
  else mkFrequency (counts r) (buckets r) (lowestCount r) (highestCount r) 0 (agingPeriod r).

Definition afterAccess r : FrequencyRegion :=
  let r := mkFrequency (counts r) (buckets r) (lowestCount r) (highestCount r) (region_accesses r + 1) (agingPeriod r) in
  if region_accesses r <? agingPeriod r then r else age r.

Definition touch entityId r : FrequencyRegion :=
  match map_get (counts r) entityId with
  | None => r
  | Some count => afterAccess (moveBucket entityId count (count + 1) r)
  end.

Definition add entityId r : FrequencyRegion :=
  if map_has (counts r) entityId then touch entityId r
  else afterAccess (mkFrequency (map_set (counts r) entityId 1) (bucket_add (buckets r) 1 entityId) (Num 1)
         (if highestCount r <? 1 then 1 else highestCount r) (region_accesses r) (agingPeriod r)).

Definition remove entityId r : FrequencyRegion * bool :=
  match map_get (counts r) entityId with
  | None => (r, false)
  | Some count =>
      (mkFrequency (map_delete (counts r) entityId) (bucket_delete (buckets r) count entityId) (lowestCount r)
         (highestCount r) (region_accesses r) (agingPeriod r), true)
  end.

Definition has r entityId : bool := map_has (counts r) entityId.

(** The walk up from [count]; [fuel] turns reach [highestCount]. *)
Fixpoint walk (fuel : nat) r (count : Z) : option (Z * string) :=
  match fuel with
  | O => None
  | S fuel =>
      match head (bucket_of r count) with
      | Some candidate => Some (count, candidate)
      | None => walk fuel r (count + 1)
      end
  end.

Definition with_lowest r (count : number) : FrequencyRegion :=
  mkFrequency (counts r) (buckets r) count (highestCount r) (region_accesses r) (agingPeriod r).

(** What [victim] answers when the walk found nothing. *)
Definition repair r : option string * FrequencyRegion :=
  match head (counts r) with
  | Some (repaired, count) => (Some repaired, with_lowest r (Num count))
  | None => (None, r)
  end.

Definition walk_from r : option (Z * string) :=
  match lowestCount r with
  | Num low => walk (Z.to_nat (highestCount r + 1 - low)) r low
  | _ => None
  end.

Definition victim r : option string * FrequencyRegion :=
  if bool_decide (counts r = []) then (None, r)
  else match walk_from r with
       | Some (count, candidate) => (Some candidate, with_lowest r (Num count))
       | None => repair r
       end.

Definition size r : Z := Z.of_nat (length (counts r)).

#[global] Instance region : ReplacementRegion FrequencyRegion :=
  Build_ReplacementRegion _ touch add remove has victim size.

End FrequencyRegion.

(** ** The strategy *)

Inductive EntityReplacementPolicy := least_recently_used | segmented_least_recently_used | least_frequently_used.
Inductive EntityAdmissionFilter := filter_off | frequency_sketch.
#[export] Instance EntityAdmissionFilter_eq_dec : EqDecision EntityAdmissionFilter.
Proof. solve_decision. Defined.

Record PassivationStrategyConfig := mkStrategyConfig {
  capacity : Z;
  replacement : EntityReplacementPolicy;
  segmentedProtectedProportion : double;
  admissionWindowProportion : double;
  admissionFilter : EntityAdmissionFilter;
}.

(** The region behind the interface, and the call that reaches it. *)
Inductive MainRegion :=
| MainRecency (r : RecencyRegion)
| MainSegmented (r : SegmentedRecencyRegion)
| MainFrequency (r : FrequencyRegion).

Module MainRegion.

Definition map_region (f : ∀ R, ReplacementRegion R → R → R) (m : MainRegion) : MainRegion :=
  match m with
  | MainRecency r => MainRecency (f _ _ r)
  | MainSegmented r => MainSegmented (f _ _ r)
  | MainFrequency r => MainFrequency (f _ _ r)
  end.

Definition call_region {A} (f : ∀ R, ReplacementRegion R → R → A) (m : MainRegion) : A :=
  match m with MainRecency r => f _ _ r | MainSegmented r => f _ _ r | MainFrequency r => f _ _ r end.

#[global] Instance region : ReplacementRegion MainRegion := {
  touch e := map_region (λ _ _, touch e);
  add e := map_region (λ _ _, add e);
  remove e m := (map_region (λ _ _ r, (remove e r).1) m, call_region (λ _ _ r, (remove e r).2) m);
  has m e := call_region (λ _ _ r, has r e) m;
  victim m := (call_region (λ _ _ r, (victim r).1) m, map_region (λ _ _ r, (victim r).2) m);
  size m := call_region (λ _ _ r, size r) m;
}.

End MainRegion.

Record CompositePassivationStrategy (R : Type) := mkComposite {
  window : option RecencyRegion;
  windowCapacity : Z;
  main : R;
  mainCapacity : Z;
  sketch : option FrequencySketch;
}.
Arguments mkComposite {R} _ _ _ _ _.
Arguments window {R} _.
Arguments windowCapacity {R} _.
Arguments main {R} _.
Arguments mainCapacity {R} _.
Arguments sketch {R} _.

Module Composite.

Section composite.
Context {R : Type} `{ReplacementRegion R}.

Implicit Types (s : CompositePassivationStrategy R) (entityId : string).

Definition window_region s : RecencyRegion := default RecencyRegion.construct (window s).

Definition set_window s (w : RecencyRegion) : CompositePassivationStrategy R :=
  mkComposite (Some w) (windowCapacity s) (main s) (mainCapacity s) (sketch s).
Definition set_main s (m : R) : CompositePassivationStrategy R :=
  mkComposite (window s) (windowCapacity s) m (mainCapacity s) (sketch s).

(** [this.sketch?.record(entityId)]. *)
Definition note s entityId : CompositePassivationStrategy R :=
  mkComposite (window s) (windowCapacity s) (main s) (mainCapacity s)
    ((λ k, FrequencySketch.record k entityId) <$> sketch s).

Definition in_window s entityId : bool :=
  match window s with Some w => RecencyRegion.has w entityId | None => false end.

Definition touch_ s entityId : CompositePassivationStrategy R :=
  let s := note s entityId in
  match window s with
  | Some w => if RecencyRegion.has w entityId then set_window s (RecencyRegion.touch entityId w)
              else set_main s (touch entityId (main s))
  | None => set_main s (touch entityId (main s))
  end.

Definition has_ s entityId : bool := in_window s entityId || has (main s) entityId.

Definition remove_ s entityId : CompositePassivationStrategy R * bool :=
  match window s with
  | Some w =>
      let '(w', removed) := RecencyRegion.remove entityId w in
      if removed then (set_window s w', true)
      else let '(m, removed) := remove entityId (main s) in (set_main (set_window s w') m, removed)
  | None => let '(m, removed) := remove entityId (main s) in (set_main s m, removed)
  end.

Definition size_ s : Z := match window s with Some w => RecencyRegion.size w | None => 0 end + size (main s).

(** The filter rules for the incumbent. *)
Definition incumbent_stays s (candidate v : string) (fromWindow : bool) : bool :=
  match sketch s with
  | Some k => fromWindow && (FrequencySketch.estimate k candidate <=? FrequencySketch.estimate k v)
  | None => false
  end.

Definition promote s (candidate : string) (fromWindow : bool) : CompositePassivationStrategy R * option string :=
  if size (main s) <? mainCapacity s then (set_main s (add candidate (main s)), None)
  else
    let '(v, m) := victim (main s) in
    let s := set_main s m in
    match v with
    | None => (set_main s (add candidate m), None)
    | Some v =>
        if incumbent_stays s candidate v fromWindow then (s, Some candidate)
        else (set_main s (add candidate (remove v m).1), Some v)
    end.

(** [None] where [victim()!] would be [null] on a window that overflowed. *)
Definition admit_ s entityId : CompositePassivationStrategy R * option string :=
  if has_ s entityId then (touch_ s entityId, None)
  else
    let s := note s entityId in
    match window s with
    | None => promote s entityId false
    | Some w =>
        let w := RecencyRegion.add entityId w in
        let s := set_window s w in
        if RecencyRegion.size w <=? windowCapacity s then (s, None)
        else match (RecencyRegion.victim w).1 with
             | None => (s, None)
             | Some candidate => promote (set_window s (RecencyRegion.remove candidate w).1) candidate true
             end
    end.

End composite.

(** [None] when a proportion is NaN, which the options refuse. *)
Definition buildMainRegion (config : PassivationStrategyConfig) (mainCapacity : Z) : option MainRegion :=
  match replacement config with
  | segmented_least_recently_used =>
      n ← at_least_one (mainCapacity - 1) (Math_round (mul (Integral mainCapacity) (segmentedProtectedProportion config)));
      Some (MainSegmented (SegmentedRecencyRegion.construct n))
  | least_frequently_used =>
      Some (MainFrequency (FrequencyRegion.construct (Z.max 1 (capacity config * FREQUENCY_AGING_FACTOR))))
  | least_recently_used => Some (MainRecency RecencyRegion.construct)
  end.

Definition window_capacity (config : PassivationStrategyConfig) : option Z :=
  if is_positive (admissionWindowProportion config)
  then at_least_one (capacity config - 1)
         (Math_floor (mul (Integral (capacity config)) (admissionWindowProportion config)))
  else Some 0.

Definition construct (config : PassivationStrategyConfig) : option (CompositePassivationStrategy MainRegion) :=
  wc ← window_capacity config;
  let w := if wc >? 0 then Some RecencyRegion.construct else None in
  let mc := Z.max 1 (capacity config - wc) in
  m ← buildMainRegion config mc;
  Some (mkComposite w wc m mc
    (if bool_decide (admissionFilter config = frequency_sketch) && bool_decide (is_Some w)
     then Some (FrequencySketch.construct (capacity config)) else None)).

End Composite.

(** [None] is the uncapped region; the inner [None] a NaN proportion. *)
Definition createPassivationStrategy (config : PassivationStrategyConfig)
    : option (option (CompositePassivationStrategy MainRegion)) :=
  if capacity config <=? 0 then None else Some (Composite.construct config).

Definition half : double := div (Integral 1) (Integral 2).
Definition example_config (n : Z) (p : EntityReplacementPolicy) (f : EntityAdmissionFilter) (w : double) :=
  mkStrategyConfig n p (div (Integral 8) (Integral 10)) w f.

Definition admit_all {R} `{ReplacementRegion R} (l : list string) (s : CompositePassivationStrategy R)
    : CompositePassivationStrategy R * list (option string) :=
  foldl (λ '(s, out) e, let '(s, v) := Composite.admit_ s e in (s, out ++ [v])) (s, []) l.

Example lru_evicts : ∃ s, createPassivationStrategy (example_config 2 least_recently_used filter_off (Integral 0)) = Some (Some s) ∧
  (admit_all ["a"; "b"; "a"; "c"; "d"] s).2 = [None; None; None; Some "b"; Some "a"].
Proof. eexists. split; [vm_compute; reflexivity|]. vm_compute. reflexivity. Qed.
Example windowed_evicts : ∃ s, createPassivationStrategy (example_config 4 segmented_least_recently_used frequency_sketch half) = Some (Some s) ∧
  (windowCapacity s, mainCapacity s) = (2, 2) ∧
  (admit_all ["a"; "b"; "a"; "c"; "d"; "a"; "e"] s).2 = [None; None; None; None; None; None; Some "c"].
Proof. eexists. split; [vm_compute; reflexivity|]. split; [reflexivity|]. vm_compute. reflexivity. Qed.
Example lfu_evicts : ∃ s, createPassivationStrategy (example_config 2 least_frequently_used filter_off (Integral 0)) = Some (Some s) ∧
  (admit_all ["a"; "b"; "a"; "c"; "d"] s).2 = [None; None; None; Some "b"; Some "c"].
Proof. eexists. split; [vm_compute; reflexivity|]. vm_compute. reflexivity. Qed.
