(* ===== verification/PassivationTheorems.v ===== *)
(** * The entity cap is kept

    The three replacement regions satisfy the laws of their interface; from
    the laws alone the strategy keeps its cap, gives up one resident exactly
    when it is full, and never the newcomer.  Then what each policy adds: the
    order of the recency region, the segment that is safe, the least count. *)

From S2P Require Import Prelude BidirectionalMap Double ShardAllocation ShardAllocator Passivation.

Local Open Scope Z_scope.

(** ** Recency *)

Lemma set_refresh (l : list string) e : set_add (set_delete l e) e = set_delete l e ++ [e].
Proof.
  unfold set_add, set_has. rewrite bool_decide_eq_false_2; [done|]. rewrite elem_of_set_delete. naive_solver.
Qed.

Lemma set_refresh_elem (l : list string) e x : x ∈ set_delete l e ++ [e] ↔ x = e ∨ x ∈ l.
Proof. rewrite elem_of_app, elem_of_set_delete, list_elem_of_singleton. destruct (decide (x = e)); naive_solver. Qed.

Lemma set_refresh_NoDup (l : list string) e : NoDup l → NoDup (set_delete l e ++ [e]).
Proof. rewrite <- set_refresh. auto with actor. Qed.

Lemma size_list_to_set (l : list string) : NoDup l → base.size (list_to_set l : gset string) = length l.
Proof. apply size_list_to_set. Qed.

Module RecencyLaws.

Definition ok (r : RecencyRegion) : Prop := NoDup (order r).
Definition members (r : RecencyRegion) : gset string := list_to_set (order r).

Lemma recency_touch_spec e r : ok r → ok (RecencyRegion.touch e r) ∧ members (RecencyRegion.touch e r) = members r.
Proof.
  unfold RecencyRegion.touch, ok, members. intros Hr. destruct (set_has (order r) e) eqn:E; [|done]. cbn [order].
  rewrite set_refresh. split; [by apply set_refresh_NoDup|]. apply set_has_true in E. apply set_eq. intros x.
  rewrite !elem_of_list_to_set, set_refresh_elem. naive_solver.
Qed.

Lemma recency_add_spec e r : ok r → ok (RecencyRegion.add e r) ∧ members (RecencyRegion.add e r) = {[e]} ∪ members r.
Proof.
  unfold RecencyRegion.add, ok, members. intros Hr. cbn [order]. rewrite set_refresh.
  split; [by apply set_refresh_NoDup|]. apply set_eq. intros x.
  rewrite elem_of_union, elem_of_singleton, !elem_of_list_to_set, set_refresh_elem. done.
Qed.

Lemma recency_remove_spec e r : ok r → ok (RecencyRegion.remove e r).1 ∧ members (RecencyRegion.remove e r).1 = members r ∖ {[e]} ∧
  (RecencyRegion.remove e r).2 = bool_decide (e ∈ members r).
Proof.
  unfold RecencyRegion.remove, ok, members. intros Hr. cbn [order fst snd]. split_and!; [by apply set_delete_NoDup| |].
  - apply set_eq. intros x. rewrite elem_of_difference, elem_of_singleton, !elem_of_list_to_set, elem_of_set_delete. done.
  - unfold set_has. apply bool_decide_ext. by rewrite elem_of_list_to_set.
Qed.

Lemma recency_has_spec e r : RecencyRegion.has r e = bool_decide (e ∈ members r).
Proof. unfold RecencyRegion.has, members, set_has. apply bool_decide_ext. by rewrite elem_of_list_to_set. Qed.

Lemma recency_victim_spec r : match (RecencyRegion.victim r).1 with Some v => v ∈ members r | None => members r = ∅ end.
Proof. unfold members. destruct r as [[|v l]]; cbn; set_solver. Qed.

Lemma recency_size_spec r : ok r → RecencyRegion.size r = Z.of_nat (base.size (members r)).
Proof. intros Hr. unfold RecencyRegion.size, members. by rewrite size_list_to_set. Qed.

#[global] Instance recency_laws : ReplacementRegionLaws RecencyRegion := {
  region_ok := ok;
  residents := members;
  touch_law := recency_touch_spec;
  add_law := λ e r _, recency_add_spec e r;
  remove_law := recency_remove_spec;
  has_law := λ e r _, recency_has_spec e r;
  victim_law := λ r Hr, conj Hr (conj eq_refl (recency_victim_spec r));
  size_law := recency_size_spec;
}.

End RecencyLaws.

(** ** Segments *)

Module SegmentedLaws.
Import RecencyLaws.

Implicit Types (r : SegmentedRecencyRegion).

Ltac segments := cbn [probation protectedEntities protectedCapacity fst snd].

Definition parts_ok r : Prop :=
  ok (probation r) ∧ ok (protectedEntities r) ∧ members (probation r) ## members (protectedEntities r).

Definition ok r : Prop :=
  parts_ok r ∧ RecencyRegion.size (protectedEntities r) ≤ Z.max 0 (protectedCapacity r).
Definition members r : gset string := RecencyLaws.members (probation r) ∪ RecencyLaws.members (protectedEntities r).

Lemma demote_spec fuel r : parts_ok r → (length (order (protectedEntities r)) ≤ fuel)%nat →
  ok (SegmentedRecencyRegion.demote fuel r) ∧ members (SegmentedRecencyRegion.demote fuel r) = members r ∧
  protectedCapacity (SegmentedRecencyRegion.demote fuel r) = protectedCapacity r.
Proof.
  revert r. induction fuel as [|fuel IH]; intros r (Hp & Hq & Hd) Hf.
  { split_and!; [|done..]. split; [done|]. cbn. unfold RecencyRegion.size. lia. }
  cbn [SegmentedRecencyRegion.demote]. rewrite Z.gtb_ltb. destruct (Z.ltb_spec (protectedCapacity r) (RecencyRegion.size (protectedEntities r)));
    [|split_and!; [split; [done|lia]|done..]].
  unfold RecencyRegion.victim. cbn [fst]. destruct (order (protectedEntities r)) as [|v l] eqn:El; cbn [head].
  { split_and!; [|done..]. split; [done|]. unfold RecencyRegion.size. rewrite El. cbn. lia. }
  assert (Hv : v ∈ RecencyLaws.members (protectedEntities r)) by (unfold RecencyLaws.members; rewrite El; set_solver).
  set (r' := mkSegmented _ _ _).
  destruct (recency_add_spec v _ Hp) as [Ha Hma]. destruct (recency_remove_spec v _ Hq) as (Hr & Hmr & _).
  destruct (IH r') as (Hok & Hm & Hc).
  - split_and!; [exact Ha|exact Hr|]. subst r'. cbn [probation protectedEntities]. rewrite Hma, Hmr. set_solver.
  - subst r'. unfold RecencyRegion.remove. cbn [protectedEntities fst order]. rewrite El. unfold set_delete. rewrite filter_cons_False by (by intros ?).
    etrans; [apply length_filter|]. cbn in Hf. lia.
  - split_and!; [done| |done]. rewrite Hm. subst r'. unfold members. cbn [probation protectedEntities]. rewrite Hma, Hmr.
    apply set_eq. intros x.
    rewrite !elem_of_union, elem_of_difference, elem_of_singleton. destruct (decide (x = v)); naive_solver.
Qed.

Lemma demoteOverflow_spec r : parts_ok r →
  ok (SegmentedRecencyRegion.demoteOverflow r) ∧ members (SegmentedRecencyRegion.demoteOverflow r) = members r.
Proof. intros Hr. destruct (demote_spec (length (order (protectedEntities r))) r Hr) as (? & ? & _); done. Qed.

Lemma segmented_touch_spec e r : ok r → ok (SegmentedRecencyRegion.touch e r) ∧ members (SegmentedRecencyRegion.touch e r) = members r.
Proof.
  intros [(Hp & Hq & Hd) Hs]. unfold SegmentedRecencyRegion.touch. rewrite recency_has_spec. case_bool_decide as Hq'.
  - destruct (RecencyLaws.recency_touch_spec e _ Hq) as [Ht Hm]. split; [split; [split_and!|]|]; segments; [done..| | |].
    + by rewrite Hm.
    + rewrite (recency_size_spec _ Ht), Hm, <- (recency_size_spec _ Hq). done.
    + unfold members. segments. by rewrite Hm.
  - destruct (recency_remove_spec e _ Hp) as (Hr & Hmr & Hb). destruct (RecencyRegion.remove e (probation r)) as [p b]. cbn [fst snd] in Hr, Hmr, Hb.
    subst b. case_bool_decide as Hin.
    + destruct (RecencyLaws.recency_add_spec e _ Hq) as [Ha Hma].
      destruct (demoteOverflow_spec (mkSegmented p (RecencyRegion.add e (protectedEntities r)) (protectedCapacity r)))
        as [Hok Hm]; [|split; [exact Hok|]].
      * split_and!; [done..|]. segments. rewrite Hmr, Hma. set_solver.
      * rewrite Hm. unfold members. segments. rewrite Hmr, Hma. apply set_eq. intros x.
        rewrite !elem_of_union, elem_of_difference, elem_of_singleton. destruct (decide (x = e)); naive_solver.
    + split; [split; [split_and!|]|]; segments; [done..| |done|]; rewrite ?Hmr; [set_solver|].
      unfold members. segments. rewrite Hmr. set_solver.
Qed.

Lemma add_fresh e r : e ∉ members r → ok r → ok (SegmentedRecencyRegion.add e r) ∧
  members (SegmentedRecencyRegion.add e r) = {[e]} ∪ members r.
Proof.
  intros Hn [(Hp & Hq & Hd) Hs]. destruct (RecencyLaws.recency_add_spec e _ Hp) as [Ha Hma].
  unfold SegmentedRecencyRegion.add. split; [split; [split_and!|]|]; segments; [done..| |done|].
  - rewrite Hma. unfold members in Hn. set_solver.
  - unfold members. segments. rewrite Hma. set_solver.
Qed.

Lemma segmented_remove_spec e r : ok r → ok (SegmentedRecencyRegion.remove e r).1 ∧
  members (SegmentedRecencyRegion.remove e r).1 = members r ∖ {[e]} ∧
  (SegmentedRecencyRegion.remove e r).2 = bool_decide (e ∈ members r).
Proof.
  intros [(Hp & Hq & Hd) Hs]. unfold SegmentedRecencyRegion.remove.
  destruct (RecencyLaws.recency_remove_spec e _ Hp) as (Hr & Hmr & Hb). destruct (RecencyRegion.remove e (probation r)) as [p b].
  cbn in Hr, Hmr, Hb. subst b. case_bool_decide as Hin.
  - unfold ok, parts_ok, members. segments. rewrite Hmr. split_and!; [done|done|set_solver|done|set_solver|].
    symmetry. apply bool_decide_eq_true. set_solver.
  - destruct (RecencyLaws.recency_remove_spec e _ Hq) as (Hr' & Hmr' & Hb').
    assert (Hsz := recency_size_spec _ Hr'). assert (Hsz' := recency_size_spec _ Hq).
    destruct (RecencyRegion.remove e (protectedEntities r)) as [q b]. cbn in Hr', Hmr', Hb', Hsz. subst b.
    unfold ok, parts_ok, members. segments. rewrite Hmr, Hmr'. split_and!; [done|done|set_solver| |set_solver|].
    + rewrite Hsz, Hmr'. etrans; [|exact Hs]. rewrite Hsz'. apply Nat2Z.inj_le. apply subseteq_size. set_solver.
    + apply bool_decide_ext. set_solver.
Qed.

Lemma segmented_has_spec e r : SegmentedRecencyRegion.has r e = bool_decide (e ∈ members r).
Proof.
  unfold SegmentedRecencyRegion.has, members. rewrite !RecencyLaws.recency_has_spec.
  repeat case_bool_decide; set_solver.
Qed.

Lemma segmented_victim_spec r : match (SegmentedRecencyRegion.victim r).1 with Some v => v ∈ members r | None => members r = ∅ end.
Proof.
  unfold SegmentedRecencyRegion.victim, members. pose proof (RecencyLaws.recency_victim_spec (probation r)) as Hp.
  pose proof (RecencyLaws.recency_victim_spec (protectedEntities r)) as Hq. cbn [fst].
  destruct (RecencyRegion.victim (probation r)).1; [set_solver|].
  destruct (RecencyRegion.victim (protectedEntities r)).1; set_solver.
Qed.

Lemma segmented_size_spec r : ok r → SegmentedRecencyRegion.size r = Z.of_nat (base.size (members r)).
Proof.
  intros [(Hp & Hq & Hd) _]. unfold SegmentedRecencyRegion.size, members.
  rewrite (RecencyLaws.recency_size_spec _ Hp), (RecencyLaws.recency_size_spec _ Hq), size_union by done. lia.
Qed.

#[global] Instance segmented_laws : ReplacementRegionLaws SegmentedRecencyRegion := {
  region_ok := ok;
  residents := members;
  touch_law := segmented_touch_spec;
  add_law := add_fresh;
  remove_law := segmented_remove_spec;
  has_law := λ e r _, segmented_has_spec e r;
  victim_law := λ r Hr, conj Hr (conj eq_refl (segmented_victim_spec r));
  size_law := segmented_size_spec;
}.

End SegmentedLaws.

(** ** Counts and buckets *)

Module FrequencyLaws.
Import FrequencyRegion.

Implicit Types (r : FrequencyRegion).

(** A lower bound that is the cursor of the walk. *)
Definition bounded_below (n : number) (c : Z) : Prop := match n with Num l => l ≤ c | _ => False end.

(** The buckets index the counts of the entities in [D]; the others are not
    in a bucket yet, which [age] makes true of all of them for a moment. *)
Definition indexed (D : string → Prop) r : Prop :=
  NoDup (counts r).*1 ∧ (∀ e c, D e → map_get (counts r) e = Some c →
    1 ≤ c ≤ highestCount r ∧ bounded_below (lowestCount r) c ∧ e ∈ bucket_of r c) ∧
  (∀ e c, e ∈ bucket_of r c → D e ∧ map_get (counts r) e = Some c).

Definition ok r : Prop := indexed (λ _, True) r ∧ ∃ l, lowestCount r = Num l.
Definition members r : gset string := list_to_set (counts r).*1.

Lemma elem_of_members e r : e ∈ members r ↔ is_Some (map_get (counts r) e).
Proof.
  unfold members. rewrite elem_of_list_to_set. destruct (map_get (counts r) e) eqn:E; split; [by eexists| | |by intros []].
  - intros _. apply dec_stable. intros ?%map_get_None. congruence.
  - by apply map_get_None in E.
Qed.

Lemma members_set (m : list (string * Z)) e c : (list_to_set (map_set m e c).*1 : gset string) = {[e]} ∪ list_to_set m.*1.
Proof.
  apply set_eq. intros x. rewrite elem_of_union, elem_of_singleton, !elem_of_list_to_set, map_set_keys.
  case_decide; rewrite ?elem_of_app, ?list_elem_of_singleton; naive_solver.
Qed.

Lemma bucket_add_get bs n e c x : x ∈ default [] (map_get (bucket_add bs n e) c) ↔
  x ∈ default [] (map_get bs c) ∨ (c = n ∧ x = e).
Proof.
  unfold bucket_add. rewrite map_get_set. case_decide; subst; cbn; [rewrite elem_of_set_add; naive_solver|naive_solver].
Qed.

Lemma bucket_delete_get bs n e c x : x ∈ default [] (map_get (bucket_delete bs n e) c) ↔
  x ∈ default [] (map_get bs c) ∧ ¬ (c = n ∧ x = e).
Proof.
  unfold bucket_delete. destruct (map_get bs n) as [b|] eqn:E.
  - rewrite map_get_set. case_decide; subst; cbn; [rewrite elem_of_set_delete, E; cbn; naive_solver|naive_solver].
  - split; [|by intros [? _]]. intros Hx. split; [done|]. intros [-> _]. rewrite E in Hx. by apply elem_of_nil in Hx.
Qed.

Lemma moveBucket_spec e c r : ok r → map_get (counts r) e = Some c →
  ok (moveBucket e c (c + 1) r) ∧ members (moveBucket e c (c + 1) r) = members r.
Proof.
  intros [(Hn & Hc & Hb) [l Hl]] He. split.
  2: { unfold members, moveBucket. cbn [counts]. rewrite members_set. apply set_eq. intros x.
       assert (e ∈ members r) by (apply elem_of_members; by eexists). unfold members in *. set_solver. }
  destruct (Hc e c I He) as ([Hc1 Hc2] & Hlow & Hin). rewrite Hl in Hlow. cbn in Hlow.
  assert (Hlow' : ∃ l', lowestCount (moveBucket e c (c + 1) r) = Num l' ∧ (l' = l ∨
      (l' = c + 1 ∧ c = l ∧ ∀ x, x ∈ bucket_of r c → x = e))).
  { unfold moveBucket. cbn [lowestCount]. rewrite Hl. case_bool_decide as Ecl; cbn [andb]; [|naive_solver].
    case_bool_decide as Eb; [|naive_solver]. injection Ecl as ->.
    exists (l + 1). split; [done|]. right. split_and!; [done..|]. intros x Hx. apply dec_stable. intros Hne.
    assert (x ∈ default [] (map_get (bucket_delete (buckets r) l e) l)) as Hx'
      by (apply bucket_delete_get; split; [done|naive_solver]). rewrite Eb in Hx'. by apply elem_of_nil in Hx'. }
  destruct Hlow' as (l' & Hl' & Hcase). split; [|by eexists].
  assert (Hhigh : highestCount (moveBucket e c (c + 1) r) = Z.max (highestCount r) (c + 1))
    by (unfold moveBucket; cbn [highestCount]; case_match eqn:E; [apply Z.ltb_lt in E|apply Z.ltb_ge in E]; lia).
  assert (Hbk : ∀ x n, x ∈ bucket_of (moveBucket e c (c + 1) r) n ↔
    (x ∈ bucket_of r n ∧ ¬ (n = c ∧ x = e)) ∨ (n = c + 1 ∧ x = e)).
  { intros x n. unfold bucket_of, moveBucket. cbn [buckets]. by rewrite bucket_add_get, bucket_delete_get. }
  split_and!; [unfold moveBucket; cbn [counts]; by apply map_set_NoDup| |].
  - intros x n _. rewrite Hl', Hhigh, Hbk. unfold moveBucket. cbn [counts]. rewrite map_get_set. case_decide as Hxe.
    + intros [= <-]. subst x. cbn. split_and!; [lia|lia| |naive_solver]. lia.
    + intros Hx. destruct (Hc x n I Hx) as ([? ?] & Hb' & Hin'). rewrite Hl in Hb'. cbn in Hb' |- *.
      split_and!; [lia|lia| |naive_solver]. destruct Hcase as [->|(-> & -> & Honly)]; [done|].
      assert (n ≠ l) by (intros ->; naive_solver). lia.
  - intros x n [[Hx Hne]|[-> ->]]%Hbk; (split; [done|]); unfold moveBucket; cbn [counts]; rewrite map_get_set.
    + destruct (Hb x n Hx) as [_ Hg]. case_decide as Hxe; [|done]. subst x. naive_solver.
    + by rewrite decide_True.
Qed.

(** Inside the loop of [age]: the entries in [D] are indexed. *)
Lemma age_entry_spec (D : string → Prop) e c r : ¬ D e → map_get (counts r) e = Some c → indexed D r →
  ((∃ l, lowestCount r = Num l) ∨ lowestCount r = PosInfinity) →
  indexed (λ x, D x ∨ x = e) (age_entry r (e, c)) ∧ (∃ l, lowestCount (age_entry r (e, c)) = Num l) ∧
  members (age_entry r (e, c)) = members r ∧
  (∀ x, x ≠ e → map_get (counts (age_entry r (e, c))) x = map_get (counts r) x).
Proof.
  intros HD He (Hn & Hc & Hb) Hl. set (h := Z.max 1 (Z.shiftr (to_int32 c) 1)). assert (Hh : 1 ≤ h) by lia.
  assert (Hlow : ∃ l', lowestCount (age_entry r (e, c)) = Num l' ∧ l' ≤ h ∧ ∀ n, bounded_below (lowestCount r) n → l' ≤ n).
  { unfold age_entry. cbn [lowestCount snd]. fold h. destruct Hl as [[l ->]| ->]; cbn [number_lt].
    - destruct (Z.ltb_spec h l); [exists h|exists l]; (split_and!; [done|lia|]); cbn; lia.
    - exists h. split_and!; [done|lia|done]. }
  destruct Hlow as (l' & Hl' & Hlh & Hln).
  assert (Hhigh : highestCount (age_entry r (e, c)) = Z.max (highestCount r) h).
  { unfold age_entry. cbn [highestCount snd]. fold h. rewrite Z.gtb_ltb. destruct (Z.ltb_spec (highestCount r) h); lia. }
  assert (Hbk : ∀ x n, x ∈ bucket_of (age_entry r (e, c)) n ↔ x ∈ bucket_of r n ∨ (n = h ∧ x = e)).
  { intros x n. unfold bucket_of, age_entry. cbn [buckets fst snd]. fold h. apply bucket_add_get. }
  assert (Hg : ∀ x, map_get (counts (age_entry r (e, c))) x = if decide (x = e) then Some h else map_get (counts r) x)
    by (intros x; unfold age_entry; cbn [counts fst snd]; apply map_get_set).
  split_and!; [split_and!|..].
  - unfold age_entry. cbn [counts fst]. by apply map_set_NoDup.
  - intros x n HDx. rewrite Hg, Hl', Hhigh, Hbk. case_decide as Hxe.
    + intros [= <-]. subst x. cbn. split_and!; [lia..|naive_solver].
    + destruct HDx as [HDx|]; [|done]. intros Hx. destruct (Hc x n HDx Hx) as ([? ?] & Hb' & Hin').
      split_and!; [lia..| |naive_solver]. by apply Hln.
  - intros x n. rewrite Hg, Hbk. intros [Hx|[-> ->]]; [|by rewrite decide_True by done; naive_solver].
    destruct (Hb x n Hx) as [HDx Hgx]. rewrite decide_False by (by intros ->). naive_solver.
  - by exists l'.
  - unfold members, age_entry. cbn [counts fst]. rewrite members_set. apply set_eq. intros x.
    assert (e ∈ members r) by (apply elem_of_members; by eexists). unfold members in *. set_solver.
  - intros x Hx. by rewrite Hg, decide_False.
Qed.

Lemma age_loop l (D : string → Prop) r : NoDup l.*1 → (∀ e c, (e, c) ∈ l → ¬ D e ∧ map_get (counts r) e = Some c) →
  indexed D r → ((∃ low, lowestCount r = Num low) ∨ lowestCount r = PosInfinity) → l ≠ [] →
  indexed (λ x, D x ∨ x ∈ l.*1) (foldl age_entry r l) ∧ (∃ low, lowestCount (foldl age_entry r l) = Num low) ∧
  members (foldl age_entry r l) = members r.
Proof.
  revert D r. induction l as [|[e c] l IH]; intros D r Hnd Hl Hr Hlow Hne; [done|]. cbn [foldl].
  apply NoDup_cons in Hnd as [Hnot Hnd]. destruct (Hl e c ltac:(by left)) as [HD He].
  destruct (age_entry_spec D e c r HD He Hr Hlow) as (Hr' & Hlow' & Hm' & Hg').
  destruct (decide (l = [])) as [->|Hl'].
  { cbn [foldl]. split_and!; [|done..]. destruct Hr' as (? & Hc & Hb). split_and!; [done| |].
    - intros x n [?|Hx%list_elem_of_singleton]; apply Hc; [by left|by right].
    - intros x n Hx. destruct (Hb x n Hx) as [[?|Hx'] ?]; (split; [|done]); [by left|right]. by apply list_elem_of_singleton. }
  destruct (IH (λ x, D x ∨ x = e) (age_entry r (e, c))) as (Hr'' & Hlow'' & Hm''); [done| |done|by left|done|].
  - intros x n Hx. assert (x ≠ e) by (intros ->; apply Hnot, list_elem_of_fmap; by exists (e, n)).
    destruct (Hl x n ltac:(by right)) as [??]. split; [by intros [?|?]|]. by rewrite Hg'.
  - split_and!; [|done|by rewrite Hm''].
    destruct Hr'' as (? & Hc & Hb). split_and!; [done| |].
    + intros x n Hx. apply Hc. rewrite fmap_cons, elem_of_cons in Hx. cbn in Hx. tauto.
    + intros x n Hx. destruct (Hb x n Hx) as [Hx' ?]. split; [|done]. rewrite fmap_cons, elem_of_cons. cbn. tauto.
Qed.

Lemma age_spec r : ok r → ok (age r) ∧ members (age r) = members r.
Proof.
  intros [(Hn & _ & _) _]. unfold age. set (r0 := mkFrequency (counts r) [] PosInfinity 0 _ _).
  destruct (decide (counts r = [])) as [E|E].
  { subst r0. cbn [counts]. rewrite E. cbn. split; [|unfold members; by rewrite E].
    split; [|by eexists]. split_and!; cbn; [constructor|done|]. intros e c. unfold bucket_of. cbn. by intros ?%elem_of_nil. }
  destruct (age_loop (counts r) (λ _, False) r0) as ((Hn' & Hc' & Hb') & [low Hlow] & Hm); [done| | |by right|done|].
  { intros e c Hin. split; [by intros []|]. by apply map_get_elem. }
  { split_and!; [done|by intros e c []|]. intros e c. unfold bucket_of. cbn. by intros ?%elem_of_nil. }
  change (counts r0) with (counts r). set (r1 := foldl age_entry r0 (counts r)) in *.
  assert (Hne : counts r1 ≠ []).
  { intros E1. destruct (counts r) as [|[e c] m] eqn:Er; [done|].
    assert (e ∈ members r0) by (unfold members, r0; cbn; rewrite ?Er; set_solver).
    rewrite <- Hm in H. unfold members in H. rewrite E1 in H. set_solver. }
  rewrite bool_decide_eq_false_2 by done.
  split; [|exact Hm]. split; [|by exists low]. split_and!; cbn; [done| |].
  - intros e c _ He. apply Hc'; [|done]. right. unfold bucket_of in *. cbn.
    assert (e ∈ members r0) as Hin by (rewrite <- Hm; apply elem_of_members; by eexists).
    unfold members in Hin. by apply elem_of_list_to_set in Hin.
  - intros e c He. split; [done|]. by apply (Hb' e c).
Qed.

Lemma afterAccess_spec r : ok r → ok (afterAccess r) ∧ members (afterAccess r) = members r.
Proof. intros Hr. unfold afterAccess. case_match; [done|].
  destruct (age_spec (mkFrequency (counts r) (buckets r) (lowestCount r) (highestCount r) (region_accesses r + 1) (agingPeriod r)));
    [exact Hr|done].
Qed.

Lemma frequency_touch_spec e r : ok r → ok (touch e r) ∧ members (touch e r) = members r.
Proof.
  intros Hr. unfold touch. destruct (map_get (counts r) e) as [c|] eqn:E; [|done].
  destruct (moveBucket_spec e c r Hr E) as [Hr' Hm]. destruct (afterAccess_spec _ Hr') as [? ->]. done.
Qed.

Lemma frequency_add_spec e r : ok r → ok (add e r) ∧ members (add e r) = {[e]} ∪ members r.
Proof.
  intros Hr. unfold add. destruct (map_has (counts r) e) eqn:E.
  - destruct (frequency_touch_spec e r Hr) as [? ->]. split; [done|]. apply map_has_spec in E. apply elem_of_members in E. set_solver.
  - apply map_has_false in E. set (r' := mkFrequency _ _ _ _ _ _). destruct Hr as [(Hn & Hc & Hb) [l Hl]].
    destruct (afterAccess_spec r') as [? ->].
    2: { split; [done|]. unfold members, r'. cbn [counts]. apply members_set. }
    assert (Hh : highestCount r' = Z.max (highestCount r) 1).
    { unfold r'. cbn [highestCount]. destruct (Z.ltb_spec (highestCount r) 1); lia. }
    assert (Hbk : ∀ x n, x ∈ bucket_of r' n ↔ x ∈ bucket_of r n ∨ (n = 1 ∧ x = e))
      by (intros x n; unfold bucket_of, r'; cbn [buckets]; apply bucket_add_get).
    split; [|by eexists]. split_and!.
    + unfold r'. cbn [counts]. by apply map_set_NoDup.
    + intros x n _. rewrite Hh, Hbk. unfold r'. cbn [counts lowestCount]. rewrite map_get_set. case_decide.
      * intros [= <-]. cbn. split_and!; [lia..|naive_solver].
      * intros Hx. destruct (Hc x n I Hx) as ([? ?] & _ & ?). cbn. split_and!; [lia..|by left].
    + intros x n. rewrite Hbk. intros Hx. split; [done|]. unfold r'. cbn [counts]. rewrite map_get_set.
      destruct Hx as [Hx|[-> ->]]; [|by rewrite decide_True]. destruct (Hb x n Hx) as [_ Hg]. rewrite decide_False; [done|].
      intros ->. congruence.
Qed.

Lemma frequency_remove_spec e r : ok r → ok (remove e r).1 ∧ members (remove e r).1 = members r ∖ {[e]} ∧
  (remove e r).2 = bool_decide (e ∈ members r).
Proof.
  intros Hr. unfold remove. destruct (map_get (counts r) e) as [c|] eqn:E; cbn [fst snd].
  - destruct Hr as [(Hn & Hc & Hb) [l Hl]]. split_and!.
    + split; [|by eexists]. split_and!; cbn; [by apply map_delete_NoDup| |].
      * intros x n _. rewrite map_get_delete. case_decide; [done|]. intros Hx. destruct (Hc x n I Hx) as (? & ? & Hin).
        split_and!; [lia..|done|]. unfold bucket_of. cbn. apply bucket_delete_get. split; [done|naive_solver].
      * intros x n. unfold bucket_of. cbn. rewrite bucket_delete_get. intros [Hx Hne]. split; [done|].
        destruct (Hb x n Hx) as [_ Hg]. rewrite map_get_delete. rewrite decide_False; [done|]. intros ->. naive_solver.
    + apply set_eq. intros x. rewrite elem_of_difference, elem_of_singleton, !elem_of_members. cbn [counts].
      rewrite map_get_delete. case_decide; [|naive_solver]. split; [by intros []|naive_solver].
    + symmetry. apply bool_decide_eq_true. apply elem_of_members. by eexists.
  - assert (e ∉ members r) by (intros [c' Hc']%elem_of_members; congruence). split_and!; [done|set_solver|].
    symmetry. by apply bool_decide_eq_false.
Qed.

Lemma frequency_has_spec e r : has r e = bool_decide (e ∈ members r).
Proof. unfold has, map_has. apply bool_decide_ext. by rewrite elem_of_members. Qed.

(** The walk stops at the first bucket that is not empty. *)
Lemma walk_spec fuel r n : (∃ c x, n ≤ c < n + Z.of_nat fuel ∧ x ∈ bucket_of r c) →
  ∃ c x, walk fuel r n = Some (c, x) ∧ x ∈ bucket_of r c ∧ n ≤ c ∧ ∀ c' y, n ≤ c' < c → y ∉ bucket_of r c'.
Proof.
  revert n. induction fuel as [|fuel IH]; intros n (c & x & Hc & Hx); [lia|]. cbn [walk].
  destruct (bucket_of r n) as [|v b] eqn:E; cbn [head].
  - assert (c ≠ n) by (intros ->; rewrite E in Hx; by apply elem_of_nil in Hx).
    destruct (IH (n + 1)) as (c' & x' & -> & Hin & Hle & Hempty); [exists c, x; split; [lia|done]|].
    exists c', x'. split_and!; [done..|lia|]. intros d y Hd. destruct (decide (d = n)) as [->|];
      [rewrite E; apply not_elem_of_nil|]. apply Hempty. lia.
  - exists n, v. split_and!; [done| |lia|lia]. rewrite E. by left.
Qed.

Lemma find_victim r : ok r → counts r ≠ [] → ∃ v c, walk_from r = Some (c, v) ∧
  v ∈ bucket_of r c ∧ map_get (counts r) v = Some c ∧ (∀ e d, map_get (counts r) e = Some d → c ≤ d).
Proof.
  intros [(Hn & Hc & Hb) [l Hl]] Hne. destruct (counts r) as [|[e d] m] eqn:Em; [done|]. rewrite <- Em in *.
  assert (He : map_get (counts r) e = Some d) by (rewrite Em; cbn; by rewrite decide_True).
  unfold walk_from. rewrite Hl. destruct (walk_spec (Z.to_nat (highestCount r + 1 - l)) r l) as (c & x & -> & Hx & Hle & Hempty).
  { destruct (Hc e d I He) as ([??] & Hlow & Hin). rewrite Hl in Hlow. cbn in Hlow. exists d, e. split; [lia|done]. }
  destruct (Hb x c Hx) as [_ Hg]. exists x, c. split_and!; [done..|]. intros y n Hy. apply Z.le_ngt. intros Hlt.
  destruct (Hc y n I Hy) as (_ & Hlow & Hin). rewrite Hl in Hlow. cbn in Hlow. apply (Hempty n y); [lia|done].
Qed.

Lemma with_lowest_ok r c : ok r → (∀ e d, map_get (counts r) e = Some d → c ≤ d) → ok (with_lowest r (Num c)).
Proof.
  intros [(Hn & Hc & Hb) _] Hmin. split; [|by eexists]. split_and!; [done| |done].
  intros e d _ He. destruct (Hc e d I He) as (? & _ & ?). split_and!; cbn; [lia|lia|by eapply Hmin|done].
Qed.

Lemma frequency_victim_spec r : ok r → ok (victim r).2 ∧ members (victim r).2 = members r ∧
  match (victim r).1 with Some v => v ∈ members r | None => members r = ∅ end.
Proof.
  intros Hr. unfold victim. case_bool_decide as E; [split_and!; [done..|unfold members; cbn; by rewrite E]|].
  destruct (find_victim r Hr E) as (v & c & -> & Hv & Hg & Hmin). cbn [fst snd].
  split_and!; [by apply with_lowest_ok|done|]. apply elem_of_members. by eexists.
Qed.

Lemma frequency_size_spec r : ok r → size r = Z.of_nat (base.size (members r)).
Proof. intros [(Hn & _) _]. unfold size, members. rewrite size_list_to_set by done. by rewrite length_fmap. Qed.

#[global] Instance frequency_laws : ReplacementRegionLaws FrequencyRegion := {
  region_ok := ok;
  residents := members;
  touch_law := frequency_touch_spec;
  add_law := λ e r _, frequency_add_spec e r;
  remove_law := frequency_remove_spec;
  has_law := λ e r _, frequency_has_spec e r;
  victim_law := frequency_victim_spec;
  size_law := frequency_size_spec;
}.

End FrequencyLaws.

#[global] Instance main_laws : ReplacementRegionLaws MainRegion.
Proof.
  refine {|
    region_ok := λ m, match m with MainRecency r => RecencyLaws.ok r | MainSegmented r => SegmentedLaws.ok r
                      | MainFrequency r => FrequencyLaws.ok r end;
    residents := λ m, match m with MainRecency r => RecencyLaws.members r | MainSegmented r => SegmentedLaws.members r
                      | MainFrequency r => FrequencyLaws.members r end |}.
  - intros e [r|r|r]; [exact (touch_law e r)..].
  - intros e [r|r|r]; [exact (add_law e r)..].
  - intros e [r|r|r]; [exact (remove_law e r)..].
  - intros e [r|r|r]; [exact (has_law e r)..].
  - intros [r|r|r]; [exact (victim_law r)..].
  - intros [r|r|r]; [exact (size_law r)..].
Defined.

(** ** The strategy, from the laws *)

Section strategy.
Context {R : Type} `{ReplacementRegionLaws R}.

Implicit Types (s : CompositePassivationStrategy R) (e v : string).

Definition window_members s : gset string :=
  match window s with Some w => RecencyLaws.members w | None => ∅ end.

Definition all s : gset string := window_members s ∪ residents (main s).

(** The window and the main region share the cap between them. *)
Record strategy_ok (cap : Z) s : Prop := {
  so_window : match window s with
              | Some w => RecencyLaws.ok w ∧ RecencyRegion.size w ≤ windowCapacity s ∧ 1 ≤ windowCapacity s ∧
                          cap = windowCapacity s + mainCapacity s
              | None => cap = mainCapacity s
              end;
  so_main : region_ok (main s);
  so_apart : window_members s ## residents (main s);
  so_main_capacity : 1 ≤ mainCapacity s;
  so_main_size : Z.of_nat (base.size (residents (main s))) ≤ mainCapacity s;
}.

Lemma strategy_size cap s : strategy_ok cap s → Composite.size_ s = Z.of_nat (base.size (all s)).
Proof.
  intros [Hw Hm Ha _ _]. unfold Composite.size_, all. rewrite (size_law (main s)) by done.
  rewrite size_union by done. unfold window_members in *. destruct (window s) as [w|]; [|by rewrite size_empty].
  rewrite (RecencyLaws.recency_size_spec w) by apply Hw. lia.
Qed.

Lemma strategy_bounded cap s : strategy_ok cap s → Composite.size_ s ≤ cap.
Proof.
  intros Hs. pose proof Hs as [Hw Hm Ha Hc Hz]. unfold Composite.size_. rewrite (size_law (main s)) by done.
  destruct (window s) as [w|]; [destruct Hw as (_ & ? & _ & ->)|subst]; lia.
Qed.

Lemma strategy_has cap s e : strategy_ok cap s → Composite.has_ s e = bool_decide (e ∈ all s).
Proof.
  intros [Hw Hm _ _ _]. unfold Composite.has_, Composite.in_window, all, window_members. rewrite has_law by done.
  destruct (window s) as [w|]; [rewrite RecencyLaws.recency_has_spec|]; repeat case_bool_decide; set_solver.
Qed.

Lemma note_ok cap s e : strategy_ok cap s → strategy_ok cap (Composite.note s e).
Proof. by intros [Hw Hm Ha Hc Hz]. Qed.

Lemma set_main_ok cap s m : strategy_ok cap s → region_ok m → window_members s ## residents m →
  Z.of_nat (base.size (residents m)) ≤ mainCapacity s → strategy_ok cap (Composite.set_main s m).
Proof. by intros [Hw Hm Ha Hc Hz]. Qed.

Lemma touch_main cap s e : strategy_ok cap s →
  strategy_ok cap (Composite.set_main s (touch e (main s))) ∧ all (Composite.set_main s (touch e (main s))) = all s.
Proof.
  intros Hs. pose proof Hs as [Hw Hm Ha Hc Hz]. destruct (touch_law e (main s) Hm) as [Ht Hmem].
  split; [apply set_main_ok; by rewrite ?Hmem|]. unfold all. cbn [main Composite.set_main]. by rewrite Hmem.
Qed.

Lemma touch_ok cap s e : strategy_ok cap s → strategy_ok cap (Composite.touch_ s e) ∧ all (Composite.touch_ s e) = all s.
Proof.
  intros Hs. apply (note_ok _ _ e) in Hs. change (all s) with (all (Composite.note s e)). unfold Composite.touch_.
  set (s' := Composite.note s e) in *. clearbody s'. destruct (window s') as [w|] eqn:Ew; [|by apply touch_main].
  case_match; [|by apply touch_main]. destruct Hs as [Hw Hm Ha Hc Hz]. rewrite Ew in Hw. destruct Hw as (Hwo & Hws & Hwc & Hcap).
  destruct (RecencyLaws.recency_touch_spec e w Hwo) as [Ht Hmem]. split.
  - constructor; cbn [window main Composite.set_window windowCapacity mainCapacity]; [|done| |done..].
    + split_and!; [done| |done..]. by rewrite (RecencyLaws.recency_size_spec _ Ht), Hmem, <- (RecencyLaws.recency_size_spec _ Hwo).
    + unfold window_members in *. cbn [window Composite.set_window]. rewrite Ew in Ha. by rewrite Hmem.
  - unfold all, window_members. cbn [window main Composite.set_window]. by rewrite Ew, Hmem.
Qed.

Lemma remove_main cap s e : strategy_ok cap s → e ∉ window_members s →
  let '(m, b) := remove e (main s) in
  strategy_ok cap (Composite.set_main s m) ∧ all (Composite.set_main s m) = all s ∖ {[e]} ∧ b = bool_decide (e ∈ all s).
Proof.
  intros Hs He. pose proof Hs as [Hw Hm Ha Hc Hz]. destruct (remove_law e (main s) Hm) as (Hr & Hmem & Hb).
  destruct (remove e (main s)) as [m b]. cbn [fst snd] in *. split_and!.
  - apply set_main_ok; rewrite ?Hmem; [done..|set_solver|]. etrans; [|exact Hz]. apply Nat2Z.inj_le, subseteq_size. set_solver.
  - unfold all. cbn [main Composite.set_main]. rewrite Hmem. unfold window_members in *. cbn [window]. set_solver.
  - rewrite Hb. apply bool_decide_ext. unfold all. set_solver.
Qed.

Lemma remove_ok cap s e : strategy_ok cap s → strategy_ok cap (Composite.remove_ s e).1 ∧
  all (Composite.remove_ s e).1 = all s ∖ {[e]} ∧ (Composite.remove_ s e).2 = bool_decide (e ∈ all s).
Proof.
  intros Hs. unfold Composite.remove_. destruct (window s) as [w|] eqn:Ew.
  - destruct Hs as [Hw Hm Ha Hc Hz]. rewrite Ew in Hw. destruct Hw as (Hwo & Hws & Hwc & Hcap).
    destruct (RecencyLaws.recency_remove_spec e w Hwo) as (Hr & Hmem & Hb). assert (Hsz := RecencyLaws.recency_size_spec _ Hr).
    destruct (RecencyRegion.remove e w) as [w' b]. cbn [fst snd] in Hr, Hmem, Hb, Hsz. subst b.
    assert (Hs' : strategy_ok cap (Composite.set_window s w')).
    { constructor; cbn [window main Composite.set_window windowCapacity mainCapacity]; [|done| |done..].
      - split_and!; [done| |done..]. rewrite Hsz, Hmem. rewrite (RecencyLaws.recency_size_spec w Hwo) in Hws.
        etrans; [|exact Hws]. apply Nat2Z.inj_le, subseteq_size. set_solver.
      - unfold window_members in *. cbn [window Composite.set_window]. rewrite Ew in Ha. rewrite Hmem. set_solver. }
    assert (Hall : all (Composite.set_window s w') = (RecencyLaws.members w ∖ {[e]}) ∪ residents (main s))
      by (unfold all, window_members; cbn [window main Composite.set_window]; by rewrite Hmem).
    assert (Hall0 : all s = RecencyLaws.members w ∪ residents (main s)) by (unfold all, window_members; by rewrite Ew).
    unfold window_members in Ha. rewrite Ew in Ha. case_bool_decide as Hin; cbn [fst snd].
    + split_and!; [done|rewrite Hall, Hall0; set_solver|]. symmetry. apply bool_decide_eq_true. set_solver.
    + pose proof (remove_main cap _ e Hs') as Hrm. cbn [main Composite.set_window] in Hrm.
      destruct (remove e (main s)) as [m b]. cbn [fst snd]. destruct Hrm as (? & -> & ->).
      { unfold window_members. cbn [window Composite.set_window]. rewrite Hmem. set_solver. }
      split_and!; [done|rewrite Hall, Hall0; set_solver|]. apply bool_decide_ext. rewrite Hall, Hall0. set_solver.
  - pose proof (remove_main cap s e Hs) as Hrm. destruct (remove e (main s)) as [m b]. apply Hrm.
    unfold window_members. rewrite Ew. set_solver.
Qed.

Lemma promote_ok cap s c from : strategy_ok cap s → c ∉ all s →
  let out := Composite.promote s c from in
  strategy_ok cap out.1 ∧
  match out.2 with
  | None => size (main s) < mainCapacity s ∧ all out.1 = {[c]} ∪ all s
  | Some v => size (main s) = mainCapacity s ∧ (v = c ∧ from = true ∨ v ∈ residents (main s)) ∧
      all out.1 = ({[c]} ∪ all s) ∖ {[v]}
  end.
Proof.
  intros Hs Hc out. pose proof Hs as [Hw Hm Ha Hc1 Hz]. pose proof (size_law _ Hm) as Hsz.
  assert (Hcm : c ∉ residents (main s)) by (unfold all in Hc; set_solver).
  assert (Hcw : c ∉ window_members s) by (unfold all in Hc; set_solver).
  unfold out, Composite.promote. destruct (Z.ltb_spec (size (main s)) (mainCapacity s)) as [Hlt|Hge]; cbn [fst snd].
  - destruct (add_law c (main s) Hcm Hm) as [Hok Hmem]. split_and!; [|lia|].
    + apply set_main_ok; rewrite ?Hmem; [done..|set_solver|]. rewrite size_union, size_singleton by set_solver. lia.
    + unfold all. cbn [main Composite.set_main]. rewrite Hmem. unfold window_members. cbn [window]. set_solver.
  - destruct (victim_law (main s) Hm) as (Hvo & Hvm & Hv). destruct (victim (main s)) as [v m]. cbn [fst snd] in *.
    destruct v as [v|]; [|rewrite Hv, size_empty in Hsz; lia].
    assert (Hs' : strategy_ok cap (Composite.set_main s m)) by (apply set_main_ok; rewrite ?Hvm; done).
    destruct (Composite.incumbent_stays (Composite.set_main s m) c v from) eqn:Estay; cbn [fst snd].
    + split_and!; [done|lia| |].
      * left. split; [done|]. unfold Composite.incumbent_stays in Estay. destruct (sketch _); [|done]. by destruct from.
      * unfold all in *. cbn [main Composite.set_main]. rewrite Hvm. unfold window_members in *. cbn [window]. set_solver.
    + destruct (remove_law v m Hvo) as (Hro & Hrm & _). rewrite Hvm in Hrm.
      destruct (add_law c (remove v m).1) as [Hao Ham]; [rewrite Hrm; set_solver|done|]. rewrite Hrm in Ham.
      assert (c ≠ v) by (intros ->; done).
      split_and!; [|lia|by right|].
      * apply set_main_ok; [done..| |]; rewrite Ham.
        -- unfold window_members in *. cbn [window Composite.set_main]. set_solver.
        -- rewrite size_union, size_singleton by set_solver. cbn [mainCapacity Composite.set_main].
           assert (base.size (residents (main s) ∖ {[v]}) = base.size (residents (main s)) - base.size ({[v]} : gset string))%nat as ->
             by (apply size_difference; set_solver).
           rewrite size_singleton. lia.
      * unfold all. cbn [main Composite.set_main]. rewrite Ham. unfold window_members in *. cbn [window Composite.set_main].
        apply set_eq. intros x. rewrite !elem_of_union, !elem_of_difference, !elem_of_union, !elem_of_singleton.
        destruct (decide (x = v)) as [->|]; [|naive_solver]. split; [|naive_solver]. intros [?|[->|[_ ?]]]; [|done..].
        set_solver.
Qed.

(** Admitting: the cap is kept; a resident only refreshes; a newcomer takes a
    free place or, when there is none, exactly one other resident goes. *)
Lemma admit_ok cap s e : strategy_ok cap s →
  let out := Composite.admit_ s e in
  strategy_ok cap out.1 ∧
  match out.2 with
  | None => (e ∈ all s ∨ Composite.size_ s < cap) ∧ all out.1 = {[e]} ∪ all s
  | Some v => (e ∉ all s) ∧ Composite.size_ s = cap ∧ v ∈ all s ∧ all out.1 = {[e]} ∪ (all s ∖ {[v]})
  end.
Proof.
  intros Hs out. unfold out, Composite.admit_. rewrite (strategy_has cap) by done. case_bool_decide as Hin; cbn [fst snd].
  { destruct (touch_ok cap s e Hs) as [? Hall]. split_and!; [done|by left|]. rewrite Hall. set_solver. }
  change (all s) with (all (Composite.note s e)) in *. change (Composite.size_ s) with (Composite.size_ (Composite.note s e)).
  apply (note_ok _ _ e) in Hs. set (s' := Composite.note s e) in *. clearbody s'.
  pose proof Hs as [Hw Hm Ha Hc1 Hz]. pose proof (size_law _ Hm) as Hsz.
  destruct (window s') as [w|] eqn:Ew.
  2: { destruct (promote_ok cap s' e false Hs Hin) as [Hok Hcase]. split; [done|].
       assert (Hsize : Composite.size_ s' = size (main s')) by (unfold Composite.size_; by rewrite Ew).
       rewrite Hsize. subst cap. destruct (Composite.promote s' e false).2 as [v|].
       - destruct Hcase as (? & [[_ ?]|Hv] & ->); [done|]. assert (v ∈ all s') by (unfold all; set_solver).
         split_and!; [done|lia|done|set_solver].
       - destruct Hcase as (? & ->). split_and!; [right; lia|done]. }
  destruct Hw as (Hwo & Hws & Hwc & Hcap). destruct (RecencyLaws.recency_add_spec e w Hwo) as [Hwa Hwm].
  assert (Hew : e ∉ RecencyLaws.members w) by (unfold all, window_members in Hin; rewrite Ew in Hin; set_solver).
  assert (Hem : e ∉ residents (main s')) by (unfold all in Hin; set_solver).
  assert (Hdis : RecencyLaws.members w ## residents (main s')) by (unfold window_members in Ha; by rewrite Ew in Ha).
  assert (Hall : all s' = RecencyLaws.members w ∪ residents (main s')) by (unfold all, window_members; by rewrite Ew).
  assert (Hsize : Composite.size_ s' = RecencyRegion.size w + size (main s')) by (unfold Composite.size_; by rewrite Ew).
  assert (Hws' : RecencyRegion.size (RecencyRegion.add e w) = RecencyRegion.size w + 1).
  { rewrite (RecencyLaws.recency_size_spec _ Hwa), (RecencyLaws.recency_size_spec _ Hwo), Hwm, size_union, size_singleton by set_solver. lia. }
  cbn [windowCapacity Composite.set_window]. destruct (Z.leb_spec (RecencyRegion.size (RecencyRegion.add e w)) (windowCapacity s')); cbn [fst snd].
  { split_and!; [|right; lia|].
    - constructor; cbn [window main Composite.set_window windowCapacity mainCapacity]; [split_and!; done|done| |done..].
      unfold window_members. cbn [window Composite.set_window]. rewrite Hwm. set_solver.
    - rewrite Hall. unfold all, window_members. cbn [window main Composite.set_window]. rewrite Hwm. set_solver. }
  assert (Hfull : RecencyRegion.size w = windowCapacity s') by lia.
  assert (∃ c, (RecencyRegion.victim (RecencyRegion.add e w)).1 = Some c ∧ c ∈ RecencyLaws.members w) as (c & -> & Hcw).
  { unfold RecencyRegion.add, RecencyRegion.victim, RecencyLaws.members. cbn [order fst]. rewrite set_refresh.
    assert (set_delete (order w) e = order w) as ->.
    { unfold set_delete. apply filter_all. intros x Hx ->. apply Hew. unfold RecencyLaws.members. by apply elem_of_list_to_set. }
    destruct (order w) as [|c l] eqn:Eo; [unfold RecencyRegion.size in Hfull; rewrite Eo in Hfull; cbn in Hfull; lia|].
    exists c. split; [done|]. set_solver. }
  destruct (RecencyLaws.recency_remove_spec c _ Hwa) as (Hwr & Hwrm & _). set (w' := (RecencyRegion.remove c (RecencyRegion.add e w)).1) in *.
  rewrite Hwm in Hwrm. set (s1 := Composite.set_window (Composite.set_window s' (RecencyRegion.add e w)) w').
  assert (Hce : c ≠ e) by (intros ->; done).
  assert (Hw1 : window_members s1 = ({[e]} ∪ RecencyLaws.members w) ∖ {[c]}) by (unfold window_members; cbn; done).
  assert (Hall1 : all s1 = (({[e]} ∪ RecencyLaws.members w) ∖ {[c]}) ∪ residents (main s'))
    by (unfold all; rewrite Hw1; done).
  assert (Hs1 : strategy_ok cap s1).
  { constructor; cbn [window main Composite.set_window windowCapacity mainCapacity s1]; [|done| |done..].
    - split_and!; [done| |done..]. rewrite (RecencyLaws.recency_size_spec _ Hwr), Hwrm.
      rewrite size_difference, size_union, !size_singleton by set_solver.
      rewrite (RecencyLaws.recency_size_spec _ Hwo) in Hfull. lia.
    - rewrite Hw1. set_solver. }
  assert (Hc1' : c ∉ all s1) by (rewrite Hall1; set_solver).
  destruct (promote_ok cap s1 c true Hs1 Hc1') as [Hok Hcase]. split; [done|].
  destruct (Composite.promote s1 c true).2 as [v|]; cbn [main s1 Composite.set_window mainCapacity] in Hcase.
  - destruct Hcase as (? & Hv & ->). rewrite Hall1, Hall. rewrite Hsize, Hcap.
    assert (v ∈ RecencyLaws.members w ∪ residents (main s')) as Hvin by (destruct Hv as [[-> _]|?]; set_solver).
    assert (v ≠ e) by (intros ->; set_solver).
    split_and!; [set_solver|lia|done|]. apply set_eq. intros x.
    rewrite !elem_of_union, !elem_of_difference, !elem_of_union, !elem_of_difference, !elem_of_union, !elem_of_singleton.
    destruct (decide (x = c)) as [->|]; [|destruct (decide (x = e)) as [->|]]; naive_solver.
  - destruct Hcase as (? & ->). rewrite Hall1, Hall, Hsize, Hcap. split; [right; lia|]. apply set_eq. intros x.
    rewrite !elem_of_union, !elem_of_difference, !elem_of_union, !elem_of_singleton.
    destruct (decide (x = c)) as [->|]; naive_solver.
Qed.

End strategy.

(** ** The strategy as the region drives it *)

Inductive StrategyCall := CallTouch (e : string) | CallAdmit (e : string) | CallRemove (e : string).

Definition perform (s : CompositePassivationStrategy MainRegion) (c : StrategyCall) : CompositePassivationStrategy MainRegion :=
  match c with
  | CallTouch e => Composite.touch_ s e
  | CallAdmit e => (Composite.admit_ s e).1
  | CallRemove e => (Composite.remove_ s e).1
  end.

Lemma at_least_one_range low x n : 0 ≤ low → at_least_one low x = Some n → 0 ≤ n ≤ low.
Proof. destruct x; cbn; intros ? [= <-]; lia. Qed.

Lemma window_capacity_range config wc : 0 < capacity config → Composite.window_capacity config = Some wc →
  0 ≤ wc < capacity config.
Proof.
  intros Hc. unfold Composite.window_capacity. case_match; [|intros [= <-]; lia].
  intros Hw%at_least_one_range; lia.
Qed.

Lemma buildMainRegion_ok config mc m : Composite.buildMainRegion config mc = Some m →
  region_ok m ∧ residents m = ∅ ∧ size m = 0.
Proof.
  unfold Composite.buildMainRegion. destruct (replacement config).
  - intros [= <-]. split_and!; [constructor|done|done].
  - destruct (at_least_one _ _) as [n|]; [|done]. intros [= <-].
    split_and!; [|cbn; unfold SegmentedLaws.members; by cbn|done].
    split; [split_and!; [apply NoDup_nil_2|apply NoDup_nil_2|cbn; set_solver]|apply Z.le_max_l].
  - intros [= <-]. split_and!; [|done|done]. split; [|by eexists].
    split_and!; [constructor|by intros e c _|]. intros e c. unfold FrequencyRegion.bucket_of. cbn. by intros ?%elem_of_nil.
Qed.

Lemma strategy_construct_ok config s : 0 < capacity config → Composite.construct config = Some s →
  strategy_ok (capacity config) s ∧ all s = ∅.
Proof.
  intros Hc. unfold Composite.construct.
  destruct (Composite.window_capacity config) as [wc|] eqn:Ew; [|done]. cbn [mbind option_bind].
  apply window_capacity_range in Ew; [|done].
  destruct (Composite.buildMainRegion config (1 `max` (capacity config - wc))) as [m|] eqn:Em; [|done]. cbn [mbind option_bind].
  intros [= <-]. destruct (buildMainRegion_ok _ _ _ Em) as (Hm & Hr & _). rewrite Z.gtb_ltb.
  destruct (Z.ltb_spec 0 wc) as [Hw|Hw]; (split; [|unfold all, window_members; cbn [window main]; rewrite Hr; done]);
    constructor; cbn [window windowCapacity main mainCapacity]; rewrite ?Hr, ?size_empty; try done; try lia; try set_solver.
  change (RecencyRegion.size RecencyRegion.construct) with 0. split_and!; [apply NoDup_nil_2|lia..].
Qed.

Lemma perform_ok cap s c : strategy_ok cap s → strategy_ok cap (perform s c).
Proof. intros Hs. destruct c; cbn [perform]; [by apply touch_ok|by apply admit_ok|by apply remove_ok]. Qed.

(** C21. The cap on entities, for every policy, window and filter, after any calls:
    [size] counts the residents and never exceeds the cap.  Admitting makes
    the entity resident.  It gives a victim up exactly when the strategy was
    full and the entity was new: the victim is one of the other residents, is
    resident no more, and nobody else is affected.  Touching changes no one's
    residence, and removing takes away exactly the named entity. *)
Theorem entity_cap_kept (config : PassivationStrategyConfig) (s0 : CompositePassivationStrategy MainRegion)
    (calls : list StrategyCall) (e : string) :
  createPassivationStrategy config = Some (Some s0) →
  let s := foldl perform s0 calls in
  let resident (s : CompositePassivationStrategy MainRegion) (x : string) := Composite.has_ s x = true in
  Composite.size_ s ≤ capacity config ∧
  (∃ l : list string, NoDup l ∧ Composite.size_ s = Z.of_nat (length l) ∧ ∀ x, resident s x ↔ x ∈ l) ∧
  (∀ x, resident (Composite.touch_ s e) x ↔ resident s x) ∧
  (∀ x, resident (Composite.remove_ s e).1 x ↔ resident s x ∧ x ≠ e) ∧
  ((Composite.remove_ s e).2 = true ↔ resident s e) ∧
  match Composite.admit_ s e with
  | (s', None) => (resident s e ∨ Composite.size_ s < capacity config) ∧ (∀ x, resident s' x ↔ x = e ∨ resident s x)
  | (s', Some v) => ¬ resident s e ∧ Composite.size_ s = capacity config ∧ resident s v ∧
                    (∀ x, resident s' x ↔ x = e ∨ (x ≠ v ∧ resident s x))
  end.
Proof.
  unfold createPassivationStrategy. destruct (Z.leb_spec (capacity config) 0); [done|]. intros [= Hc].
  destruct (strategy_construct_ok config s0 ltac:(lia) Hc) as [Hs0 _].
  assert (Hs : strategy_ok (capacity config) (foldl perform s0 calls)).
  { clear Hc. revert s0 Hs0. induction calls as [|c calls IH]; intros s0 Hs0; [done|]. by apply IH, perform_ok. }
  cbv zeta. set (s := foldl perform s0 calls) in *. clearbody s. clear Hs0 Hc.
  assert (Hres : ∀ t x, strategy_ok (capacity config) t → Composite.has_ t x = true ↔ x ∈ all t)
    by (intros t x Ht; rewrite (strategy_has _ t x Ht); apply bool_decide_eq_true).
  split_and!.
  - by apply strategy_bounded.
  - exists (elements (all s)). split_and!; [apply NoDup_elements|by rewrite (strategy_size _ s Hs)|].
    intros x. by rewrite elem_of_elements, Hres.
  - intros x. destruct (touch_ok _ s e Hs) as [? Ht]. by rewrite !Hres, Ht by done.
  - intros x. destruct (remove_ok _ s e Hs) as (? & Ht & _). rewrite !Hres, Ht by done. set_solver.
  - destruct (remove_ok _ s e Hs) as (_ & _ & ->). rewrite Hres by done. apply bool_decide_eq_true.
  - destruct (admit_ok _ s e Hs) as [Hs' Hcase]. destruct (Composite.admit_ s e) as [s' [v|]]; cbn [fst snd] in *.
    + destruct Hcase as (? & ? & ? & Hall). rewrite !Hres by done. split_and!; [done..|].
      intros x. rewrite !Hres, Hall by done. set_solver.
    + destruct Hcase as (? & Hall). rewrite !Hres by done. split; [done|]. intros x. rewrite !Hres, Hall by done. set_solver.
Qed.

Lemma entity_cap_kept_witness : ∃ s0,
  createPassivationStrategy (example_config 2 segmented_least_recently_used filter_off half) = Some (Some s0) ∧
  Composite.size_ (foldl perform s0 [CallAdmit "a"; CallAdmit "b"; CallTouch "a"; CallAdmit "c"]) ≤ 2.
Proof.
  eexists. split; [vm_compute; reflexivity|].
  refine (proj1 (entity_cap_kept (example_config 2 segmented_least_recently_used filter_off half) _
    [CallAdmit "a"; CallAdmit "b"; CallTouch "a"; CallAdmit "c"] "d" _)).
  vm_compute. reflexivity.
Defined.

(** ** What each policy adds

    A history of calls on one region, the newest first. *)

Definition use {R} `{ReplacementRegion R} (c : StrategyCall) (r : R) : R :=
  match c with CallTouch e => touch e r | CallAdmit e => add e r | CallRemove e => (remove e r).1 end.

Definition region_after {R} `{ReplacementRegion R} (start : R) (history : list StrategyCall) : R :=
  foldr use start history.

Definition uses (c : StrategyCall) (e : string) : bool :=
  match c with CallTouch x | CallAdmit x => bool_decide (x = e) | CallRemove _ => false end.

(** When an entity was last used; 0 for never. *)
Fixpoint last_use (history : list StrategyCall) (e : string) : nat :=
  match history with
  | [] => 0
  | c :: h => if uses c e then S (length h) else last_use h e
  end.

Lemma last_use_bound h e : (last_use h e ≤ length h)%nat.
Proof. induction h as [|c h IH]; cbn; [lia|]. case_match; lia. Qed.

Lemma refreshed_sorted (f g : string → nat) (l : list string) e n :
  StronglySorted (λ x y, f x < f y)%nat l → (∀ x, f x ≤ n)%nat → (∀ x, x ≠ e → g x = f x) → g e = S n →
  StronglySorted (λ x y, g x < g y)%nat (set_delete l e ++ [e]).
Proof.
  intros Hs Hf Hg He. induction Hs as [|x l Hs IH Hx]; [by repeat constructor|].
  unfold set_delete. rewrite filter_cons. case_decide as Hxe; [|done]. rewrite <- app_comm_cons. constructor; [exact IH|].
  apply Forall_forall. intros y Hy%set_refresh_elem. destruct (decide (y = e)) as [->|Hye].
  - rewrite He, Hg by done. pose proof (Hf x). lia.
  - destruct Hy as [|Hy]; [done|]. rewrite !Hg by done. rewrite Forall_forall in Hx. by apply Hx.
Qed.

(** Least recently used: a victim's last use is the oldest among the
    residents, whatever was touched, added or removed before. *)
Theorem lru_victim_is_oldest (history : list StrategyCall) (v x : string) :
  (RecencyRegion.victim (region_after RecencyRegion.construct history)).1 = Some v →
  RecencyRegion.has (region_after RecencyRegion.construct history) x = true →
  x = v ∨ (last_use history v < last_use history x)%nat.
Proof.
  assert (Hsort : StronglySorted (λ x y, last_use history x < last_use history y)%nat
    (order (region_after RecencyRegion.construct history))).
  { induction history as [|c h IH]; [constructor|]. pose proof (last_use_bound h) as Hb.
    assert (Hr : ∀ e, (uses c e = true) → (∀ x, x ≠ e → uses c x = false) →
      StronglySorted (λ x y, last_use (c :: h) x < last_use (c :: h) y)%nat
        (set_delete (order (region_after RecencyRegion.construct h)) e ++ [e])).
    { intros e He Hne. eapply (refreshed_sorted _ _ _ e (length h) IH Hb); cbn.
      - intros y Hy. by rewrite (Hne y Hy).
      - by rewrite He. }
    assert (Hout : ∀ e, (∀ x, x ≠ e → uses c x = false) → ∀ l, sublist l (order (region_after RecencyRegion.construct h)) → e ∉ l →
      StronglySorted (λ x y, last_use (c :: h) x < last_use (c :: h) y)%nat l).
    { intros e Hne l Hsub He. apply (StronglySorted_sublist _ _ _ Hsub) in IH. clear Hsub.
      induction IH as [|y l Hl IHl Hy]; [constructor|]. apply not_elem_of_cons in He as [He1 He2]. constructor; [by apply IHl|].
      rewrite Forall_forall in Hy |- *. intros z Hz. specialize (Hy z Hz). cbn.
      rewrite (Hne y), (Hne z); [done|by intros ->|by intros ->]. }
    destruct c as [e|e|e]; cbn [region_after foldr use touch add remove RecencyRegion.region fst].
    - unfold RecencyRegion.touch. destruct (set_has _ e) eqn:Eh.
      + cbn [order]. rewrite set_refresh. apply (Hr e); cbn; [by apply bool_decide_eq_true|]. intros y Hy. by apply bool_decide_eq_false.
      + apply (Hout e); cbn; [intros y Hy; by apply bool_decide_eq_false|done|]. by apply bool_decide_eq_false in Eh.
    - cbn [order RecencyRegion.add]. rewrite set_refresh. apply (Hr e); cbn; [by apply bool_decide_eq_true|].
      intros y Hy. by apply bool_decide_eq_false.
    - cbn [RecencyRegion.remove order fst]. apply (Hout e); [done|apply list.sublist_filter|].
      rewrite elem_of_set_delete. by intros [_ ?]. }
  unfold RecencyRegion.victim, RecencyRegion.has. destruct (order _) as [|y l]; [done|]. cbn. intros [= ->] Hx%set_has_true.
  apply elem_of_cons in Hx as [->|Hx]; [by left|right]. apply StronglySorted_inv in Hsort as [_ Hall].
  rewrite Forall_forall in Hall. by apply Hall.
Qed.

Lemma lru_victim_is_oldest_witness :
  "c" = "b" ∨ (last_use [CallTouch "a"; CallAdmit "c"; CallAdmit "b"; CallAdmit "a"] "b" <
               last_use [CallTouch "a"; CallAdmit "c"; CallAdmit "b"; CallAdmit "a"] "c")%nat.
Proof.
  apply (lru_victim_is_oldest [CallTouch "a"; CallAdmit "c"; CallAdmit "b"; CallAdmit "a"] "b" "c");
    vm_compute; reflexivity.
Defined.

(** An admission adds a newcomer only, as the strategy does. *)
Fixpoint fresh_adds {R} `{ReplacementRegion R} (start : R) (history : list StrategyCall) : Prop :=
  match history with
  | [] => True
  | c :: h => fresh_adds start h ∧ match c with CallAdmit e => has (region_after start h) e = false | _ => True end
  end.

Lemma region_after_ok {R} `{ReplacementRegionLaws R} (start : R) history :
  region_ok start → fresh_adds start history → region_ok (region_after start history).
Proof.
  intros Hs. induction history as [|c h IH]; intros Hf; [done|]. destruct Hf as [Hf Hc].
  specialize (IH Hf). destruct c as [e|e|e]; cbn [region_after foldr use] in *; fold (region_after start h) in *.
  - by apply touch_law.
  - rewrite has_law in Hc by done. apply bool_decide_eq_false in Hc. by apply add_law.
  - by apply remove_law.
Qed.

Lemma protected_capacity_kept n history :
  protectedCapacity (region_after (SegmentedRecencyRegion.construct n) history) = n.
Proof.
  induction history as [|c h IH]; [done|].
  assert (Hd : ∀ fuel r, protectedCapacity (SegmentedRecencyRegion.demote fuel r) = protectedCapacity r).
  { induction fuel as [|fuel IHf]; intros r; [done|]. cbn [SegmentedRecencyRegion.demote]. repeat (case_match; [|done]).
    by rewrite IHf. }
  set (r := region_after (SegmentedRecencyRegion.construct n) h) in *.
  destruct c as [e|e|e]; cbn [region_after foldr use touch add remove SegmentedRecencyRegion.region];
    fold (region_after (SegmentedRecencyRegion.construct n) h); fold r.
  - unfold SegmentedRecencyRegion.touch. case_match; [done|]. destruct (RecencyRegion.remove e (probation r)) as [p []]; [|done].
    unfold SegmentedRecencyRegion.demoteOverflow. by rewrite Hd.
  - done.
  - unfold SegmentedRecencyRegion.remove. destruct (RecencyRegion.remove e (probation r)) as [p []]; [done|].
    by destruct (RecencyRegion.remove e (protectedEntities r)).
Qed.

(** Segmented: the protected segment never outgrows its share, and while the
    region holds more than that share its victim comes from probation, so a
    scan of newcomers cannot push out an entity that was used again. *)
Theorem protected_entities_are_safe (n : Z) (history : list StrategyCall) (v : string) :
  0 ≤ n → fresh_adds (SegmentedRecencyRegion.construct n) history →
  let r := region_after (SegmentedRecencyRegion.construct n) history in
  RecencyRegion.size (protectedEntities r) ≤ n ∧
  (n < size r → (victim r).1 = Some v →
   RecencyRegion.has (probation r) v = true ∧ RecencyRegion.has (protectedEntities r) v = false).
Proof.
  intros Hn Hf r. assert (Hok : SegmentedLaws.ok r).
  { change (region_ok r). apply region_after_ok; [|done].
    split; [split_and!; [apply NoDup_nil_2|apply NoDup_nil_2|cbn; set_solver]|apply Z.le_max_l]. }
  pose proof (protected_capacity_kept n history) as Hcap. fold r in Hcap. clearbody r.
  destruct Hok as [(Hp & Hq & Hd) Hs]. rewrite Hcap in Hs. split; [lia|]. intros Hsize Hv.
  cbn [size victim SegmentedRecencyRegion.region] in Hsize, Hv. unfold SegmentedRecencyRegion.size in Hsize.
  unfold SegmentedRecencyRegion.victim in Hv. cbn [fst] in Hv.
  pose proof (RecencyLaws.recency_victim_spec (probation r)) as Hvic. destruct (RecencyRegion.victim (probation r)).1 as [x|].
  - injection Hv as ->. rewrite !RecencyLaws.recency_has_spec, bool_decide_eq_true, bool_decide_eq_false. set_solver.
  - rewrite (RecencyLaws.recency_size_spec _ Hp), Hvic, size_empty in Hsize. lia.
Qed.

Lemma protected_entities_are_safe_witness :
  let r := region_after (SegmentedRecencyRegion.construct 1) [CallAdmit "b"; CallTouch "a"; CallAdmit "a"] in
  RecencyRegion.size (protectedEntities r) ≤ 1 ∧
  (1 < size r → (victim r).1 = Some "b" →
   RecencyRegion.has (probation r) "b" = true ∧ RecencyRegion.has (protectedEntities r) "b" = false).
Proof.
  apply (protected_entities_are_safe 1 [CallAdmit "b"; CallTouch "a"; CallAdmit "a"] "b"); [lia|].
  vm_compute. tauto.
Defined.

(** Least frequently used: the walk from the cursor always finds a victim, so
    the linear repair after it never runs, and the victim's count is the
    least of all residents, through any number of agings. *)
Theorem lfu_victim_is_least (period : Z) (history : list StrategyCall) :
  let r := region_after (FrequencyRegion.construct period) history in
  fresh_adds (FrequencyRegion.construct period) history → counts r ≠ [] →
  ∃ v c, FrequencyRegion.walk_from r = Some (c, v) ∧ (FrequencyRegion.victim r).1 = Some v ∧
    map_get (counts r) v = Some c ∧ ∀ e d, map_get (counts r) e = Some d → 1 ≤ c ≤ d.
Proof.
  intros r Hf Hne. assert (Hok : FrequencyLaws.ok r).
  { change (region_ok r). apply region_after_ok; [|done]. split; [|by eexists]. split_and!; [constructor|by intros e c _|].
    intros e c. unfold FrequencyRegion.bucket_of. cbn. by intros ?%elem_of_nil. }
  clearbody r. destruct (FrequencyLaws.find_victim r Hok Hne) as (v & c & Hw & _ & Hg & Hmin). exists v, c.
  split_and!; [done| |done|].
  - unfold FrequencyRegion.victim. by rewrite bool_decide_eq_false_2, Hw by done.
  - intros e d He. split; [|by eapply Hmin]. destruct Hok as [(_ & Hc & _) _]. by apply (Hc v c I Hg).
Qed.

Lemma lfu_victim_is_least_witness :
  let r := region_after (FrequencyRegion.construct 3) [CallAdmit "c"; CallTouch "a"; CallAdmit "b"; CallAdmit "a"] in
  ∃ v c, FrequencyRegion.walk_from r = Some (c, v) ∧ (FrequencyRegion.victim r).1 = Some v ∧
    map_get (counts r) v = Some c ∧ ∀ e d, map_get (counts r) e = Some d → 1 ≤ c ≤ d.
Proof.
  apply (lfu_victim_is_least 3 [CallAdmit "c"; CallTouch "a"; CallAdmit "b"; CallAdmit "a"]); [vm_compute; tauto|].
  vm_compute. discriminate.
Defined.

(** ** The sketch *)

Section sketch.
Import FrequencySketch.

Implicit Types (k : FrequencySketch) (e : string).

Lemma widen_spec fuel j value : 0 ≤ j → value ≤ 2 ^ j + Z.of_nat fuel →
  ∃ i, j ≤ i ∧ widen fuel (2 ^ j) value = 2 ^ i ∧ value ≤ 2 ^ i ∧ (i = j ∨ 2 ^ (i - 1) < value).
Proof.
  revert j. induction fuel as [|fuel IH]; intros j Hj Hv; cbn [widen].
  - exists j. split_and!; [lia|done|lia|by left].
  - destruct (Z.ltb_spec (2 ^ j) value) as [Hlt|Hge]; [|exists j; split_and!; [lia|done|lia|by left]].
    assert (0 < 2 ^ j) by (apply Z.pow_pos_nonneg; lia).
    replace (2 ^ j * 2) with (2 ^ (j + 1)) by (rewrite Z.pow_add_r by lia; lia).
    destruct (IH (j + 1)) as (i & Hi & Hw & Hle & Hlast); [lia|rewrite Z.pow_add_r by lia; lia|].
    exists i. split_and!; [lia|done|done|right]. destruct Hlast as [->|]; [|done]. by replace (j + 1 - 1) with j by lia.
Qed.

(** The doubling loop: a power of two that is wide enough, and not twice too wide. *)
Lemma nextPowerOfTwo_spec value : ∃ i, 6 ≤ i ∧ nextPowerOfTwo value = 2 ^ i ∧ value ≤ 2 ^ i ∧ (i = 6 ∨ 2 ^ (i - 1) < value).
Proof. unfold nextPowerOfTwo. apply (widen_spec _ 6 value); [lia|]. lia. Qed.

(** Four rows of a power of two of cells. *)
Definition sketch_shaped k : Prop := ∃ i, 0 ≤ i ≤ 31 ∧ mask k = 2 ^ i - 1 ∧ Z.of_nat (length (table k)) = 4 * 2 ^ i.

Lemma cellFor_range k h row : sketch_shaped k → 0 ≤ row < 4 → 0 ≤ cellFor k h row < Z.of_nat (length (table k)).
Proof.
  intros (i & Hi & Hm & Hl) Hrow. unfold cellFor. rewrite Hm, Hl, js_and_mask by done.
  replace (2 ^ i - 1 + 1) with (2 ^ i) by lia. assert (0 < 2 ^ i) by (apply Z.pow_pos_nonneg; lia).
  pose proof (Z.mod_pos_bound (js_xor (Math_imul (js_xor h (nth (Z.to_nat row) SKETCH_SEEDS 0)) 0x2545f491 mod 2 ^ 32)
    (js_ushr (Math_imul (js_xor h (nth (Z.to_nat row) SKETCH_SEEDS 0)) 0x2545f491 mod 2 ^ 32) 15)) (2 ^ i)). nia.
Qed.

Lemma seen_count_cell h k row j : sketch_shaped k → 0 ≤ row < 4 → 0 ≤ j →
  seen (count_cell h k row) j =
    if decide (j = cellFor k h row ∧ seen k j < SKETCH_MAX_COUNT) then seen k j + 1 else seen k j.
Proof.
  intros Hk Hrow Hj. pose proof (cellFor_range k h row Hk Hrow) as Hc. unfold count_cell.
  destruct (Z.ltb_spec (seen k (cellFor k h row)) SKETCH_MAX_COUNT) as [Hlt|Hge].
  - unfold seen. cbn [table]. destruct (decide (j = cellFor k h row)) as [->|Hne].
    + rewrite list_lookup_insert_eq by lia. fold (seen k (cellFor k h row)). by rewrite decide_True.
    + rewrite list_lookup_insert_ne by lia. rewrite decide_False by tauto. done.
  - rewrite decide_False; [done|]. intros [-> ?]. lia.
Qed.

Lemma count_cell_shape h k row : sketch_shaped k → sketch_shaped (count_cell h k row) ∧ mask (count_cell h k row) = mask k ∧
  sampleSize (count_cell h k row) = sampleSize k ∧ sketch_accesses (count_cell h k row) = sketch_accesses k.
Proof.
  intros (i & ? & ? & ?). unfold count_cell. case_match; [|split_and!; [by exists i|done..]]. cbn.
  split_and!; [|done..]. exists i. cbn. by rewrite length_insert.
Qed.

Lemma cellFor_mask k k' h row : mask k = mask k' → cellFor k h row = cellFor k' h row.
Proof. unfold cellFor. by intros ->. Qed.

(** Counting the cells of one hash in some rows. *)
Lemma count_cells h rows k : sketch_shaped k → Forall (λ row, 0 ≤ row < 4) rows →
  let k' := foldl (count_cell h) k rows in
  sketch_shaped k' ∧ mask k' = mask k ∧ sampleSize k' = sampleSize k ∧ sketch_accesses k' = sketch_accesses k ∧
  (∀ j, 0 ≤ j → seen k j ≤ seen k' j) ∧
  (∀ row, row ∈ rows → SKETCH_MAX_COUNT `min` (seen k (cellFor k h row) + 1) ≤ seen k' (cellFor k h row)).
Proof.
  revert k. induction rows as [|r rows IH]; intros k Hk Hrows; cbn [foldl].
  { split_and!; [done..|lia|]. intros row Hr. by apply elem_of_nil in Hr. }
  apply Forall_cons in Hrows as [Hr Hrows]. destruct (count_cell_shape h k r Hk) as (Hk' & Hm & Hsz & Ha).
  assert (Hseen : ∀ j, 0 ≤ j → seen k j ≤ seen (count_cell h k r) j)
    by (intros j Hj; rewrite seen_count_cell by done; case_decide; lia).
  destruct (IH _ Hk' Hrows) as (Hk'' & Hm'' & Hsz'' & Ha'' & Hmono & Hrow).
  split_and!; [done|congruence..|intros j Hj; etrans; [by apply Hseen|by apply Hmono]|].
  intros row [->|Hin]%elem_of_cons.
  - pose proof (cellFor_range k h r Hk Hr). etrans; [|apply Hmono; lia]. rewrite seen_count_cell by (done || lia).
    case_decide; [lia|]. assert (SKETCH_MAX_COUNT ≤ seen k (cellFor k h r)) by (apply Z.nlt_ge; tauto). lia.
  - pose proof (cellFor_range k h row Hk) as Hc. specialize (Hrow row Hin).
    rewrite (cellFor_mask _ k) in Hrow by done. etrans; [|exact Hrow]. rewrite Forall_forall in Hrows.
    specialize (Hseen (cellFor k h row)). specialize (Hc (Hrows row Hin)). lia.
Qed.

Lemma in_rows row : 0 ≤ row < 4 → row ∈ [0; 1; 2; 3].
Proof.
  intros Hr. assert (row = 0 ∨ row = 1 ∨ row = 2 ∨ row = 3) as [->|[->|[->| ->]]] by lia; repeat constructor.
Qed.

Lemma record_spec k x : sketch_shaped k → sketch_accesses k + 1 < sampleSize k →
  sketch_shaped (record k x) ∧ mask (record k x) = mask k ∧ sampleSize (record k x) = sampleSize k ∧
  sketch_accesses (record k x) = sketch_accesses k + 1 ∧
  ∀ e row, 0 ≤ row < 4 → SKETCH_MAX_COUNT `min` (seen k (cellFor k (baseHash e) row) + (if decide (e = x) then 1 else 0))
    ≤ seen (record k x) (cellFor k (baseHash e) row).
Proof.
  intros Hk Ha. destruct (count_cells (baseHash x) [0; 1; 2; 3] k Hk) as (Hk' & Hm & Hs & Hac & Hmono & Hrow).
  { repeat constructor; lia. }
  unfold record. set (k1 := foldl (count_cell (baseHash x)) k [0; 1; 2; 3]) in *. cbn zeta.
  rewrite Hs, Hac. cbn [sampleSize]. replace (sketch_accesses k + 1 >=? sampleSize k) with false by (symmetry; rewrite Z.geb_leb; apply Z.leb_gt; lia).
  split_and!; [exact Hk'|exact Hm|done|done|]. intros e row Hr. change (seen (mkSketch _ _ _ _)) with (seen k1).
  pose proof (cellFor_range k (baseHash e) row Hk Hr). case_decide as He.
  - subst x. by apply Hrow, in_rows.
  - etrans; [|apply Hmono; lia]. lia.
Qed.

Lemma fold_smallest (f : Z → Z) rows m :
  let out := foldl (λ smallest row, let s := f row in if s <? smallest then s else smallest) m rows in
  out ≤ m ∧ (∀ row, row ∈ rows → out ≤ f row) ∧ ∀ n, n ≤ m → (∀ row, row ∈ rows → n ≤ f row) → n ≤ out.
Proof.
  revert m. induction rows as [|r rows IH]; intros m; cbn [foldl].
  { split_and!; [done|by intros row ?%elem_of_nil|done]. }
  destruct (IH (if f r <? m then f r else m)) as (Hm & Hrows & Hn). split_and!.
  - etrans; [exact Hm|]. destruct (Z.ltb_spec (f r) m); lia.
  - intros row [->|Hr]%elem_of_cons; [|by apply Hrows]. etrans; [exact Hm|]. destruct (Z.ltb_spec (f r) m); lia.
  - intros n Hle Hall. apply Hn; [|intros row Hr; apply Hall; by right]. pose proof (Hall r ltac:(by left)).
    destruct (Z.ltb_spec (f r) m); lia.
Qed.

Lemma estimate_lower k e n : n ≤ SKETCH_MAX_COUNT → (∀ row, 0 ≤ row < 4 → n ≤ seen k (cellFor k (baseHash e) row)) →
  n ≤ estimate k e.
Proof.
  intros Hn Hrow. apply (fold_smallest (λ row, seen k (cellFor k (baseHash e) row))); [done|].
  intros row Hr. apply Hrow. repeat apply elem_of_cons in Hr as [->|Hr]; [lia..|by apply elem_of_nil in Hr].
Qed.

Lemma estimate_upper k e row : 0 ≤ row < 4 → estimate k e ≤ seen k (cellFor k (baseHash e) row).
Proof.
  intros Hr. apply (fold_smallest (λ row, seen k (cellFor k (baseHash e) row))). by apply in_rows.
Qed.

Definition occurrences (e : string) (l : list string) : Z := Z.of_nat (length (filter (λ x, x = e) l)).

Lemma record_all l k e : sketch_shaped k → sketch_accesses k + Z.of_nat (length l) < sampleSize k →
  ∀ row, 0 ≤ row < 4 → SKETCH_MAX_COUNT `min` (seen k (cellFor k (baseHash e) row) + occurrences e l)
    ≤ seen (foldl record k l) (cellFor k (baseHash e) row) ∧ mask (foldl record k l) = mask k.
Proof.
  revert k. induction l as [|x l IH]; intros k Hk Ha row Hr; cbn [foldl].
  { unfold occurrences. cbn. split; [lia|done]. }
  cbn [length] in Ha. destruct (record_spec k x Hk ltac:(lia)) as (Hk' & Hm & Hs & Hac & Hrec).
  destruct (IH (record k x) Hk') with (row := row) as [Hle Hmask]; [lia|done|]. rewrite (cellFor_mask _ k) in Hle by done.
  split; [|congruence]. etrans; [|exact Hle]. specialize (Hrec e row Hr).
  unfold occurrences. rewrite filter_cons. destruct (decide (x = e)) as [->|Hne]; cbn [length].
  - rewrite decide_True in Hrec by done. lia.
  - rewrite decide_False in Hrec by congruence. lia.
Qed.

(** The frequency filter never underrates an entity: between two agings every
    use adds one to its estimate, up to the saturation at 15, however many
    other entities share its cells. *)
Theorem sketch_never_underrates (cap : Z) (before recorded : list string) (e : string) :
  0 < cap ≤ 2 ^ 30 →
  let k := foldl record (construct cap) before in
  Z.of_nat (length before + length recorded) < sampleSize (construct cap) →
  SKETCH_MAX_COUNT `min` (estimate k e + occurrences e recorded) ≤ estimate (foldl record k recorded) e.
Proof.
  intros Hcap k Hlen.
  assert (Hshape : ∀ l k, sketch_shaped k → sketch_accesses k + Z.of_nat (length l) < sampleSize k →
    sketch_shaped (foldl record k l) ∧ sketch_accesses (foldl record k l) = sketch_accesses k + Z.of_nat (length l) ∧
    sampleSize (foldl record k l) = sampleSize k).
  { induction l as [|x l IH]; intros k0 Hk Ha; cbn [foldl length] in *; [split_and!; [done|lia|done]|].
    destruct (record_spec k0 x Hk ltac:(lia)) as (Hk' & Hm & Hs & Hac & _).
    destruct (IH (record k0 x) Hk') as (? & ? & ?); [lia|]. split_and!; [done|lia|congruence]. }
  assert (Hinit : sketch_shaped (construct cap)).
  { destruct (nextPowerOfTwo_spec cap) as (i & Hi & Hw & Hle & Hlast). exists i. unfold construct. cbn [mask table].
    rewrite Hw, length_replicate. assert (0 < 2 ^ i) by (apply Z.pow_pos_nonneg; lia).
    split_and!; [lia| |done|unfold SKETCH_ROWS; lia]. destruct Hlast as [->|Hlast]; [lia|].
    apply Z.le_ngt. intros Hgt. assert (2 ^ 31 ≤ 2 ^ (i - 1)) by (apply Z.pow_le_mono_r; lia). lia. }
  destruct (Hshape before (construct cap) Hinit) as (Hk & Hac & Hs); [cbn [sketch_accesses construct]; lia|].
  fold k in Hk, Hac, Hs. cbn [sketch_accesses construct] in Hac.
  destruct (record_all recorded k e Hk ltac:(lia) 0 ltac:(lia)) as [_ Hm].
  apply estimate_lower; [lia|]. intros row Hr.
  destruct (record_all recorded k e Hk ltac:(lia) row Hr) as [Hle _]. rewrite (cellFor_mask _ k) by done.
  etrans; [|exact Hle]. pose proof (estimate_upper k e row Hr). lia.
Qed.

Lemma sketch_never_underrates_witness :
  SKETCH_MAX_COUNT `min` (estimate (foldl record (construct 4) ["a"; "b"]) "a" + occurrences "a" ["a"; "c"; "a"])
  ≤ estimate (foldl record (foldl record (construct 4) ["a"; "b"]) ["a"; "c"; "a"]) "a".
Proof. apply (sketch_never_underrates 4 ["a"; "b"] ["a"; "c"; "a"] "a"); [lia|]. vm_compute. reflexivity. Defined.

End sketch.

(** A cap of one leaves no slot for a window, so the configured window and
    filter are both absent, whatever the proportion. *)
Theorem cap_of_one_has_no_filter (p : EntityReplacementPolicy) (protected window_ : double) (s : CompositePassivationStrategy MainRegion) :
  createPassivationStrategy (mkStrategyConfig 1 p protected window_ frequency_sketch) = Some (Some s) →
  window s = None ∧ sketch s = None.
Proof.
  unfold createPassivationStrategy. cbn [capacity]. intros [= Hc]. unfold Composite.construct in Hc.
  destruct (Composite.window_capacity _) as [wc|] eqn:Ew; [|done]. apply window_capacity_range in Ew; [|done].
  cbn [capacity] in Ew. replace wc with 0 in Hc by lia. cbn [mbind option_bind] in Hc.
  destruct (Composite.buildMainRegion _ _); [|done]. cbn [mbind option_bind] in Hc. injection Hc as <-. done.
Qed.

Lemma cap_of_one_has_no_filter_witness : ∃ s,
  createPassivationStrategy (mkStrategyConfig 1 least_recently_used half half frequency_sketch) = Some (Some s) ∧
  window s = None ∧ sketch s = None.
Proof.
  eexists. split; [vm_compute; reflexivity|].
  apply (cap_of_one_has_no_filter least_recently_used half half). vm_compute. reflexivity.
Defined.
