(* ===== verification/Shard.v ===== *)
(** * One shard: [src/cluster/sharding/Shard.ts]

    The actor between a region and its entities: it creates them, stops them,
    buffers what arrives while one is on its way out, and holds what arrives
    while one waits out its backoff.  A handler is a function on the state;
    what leaves the shard is logged in [effects].  The clock is read once per
    message, and a fired timer is the message it sends.  Spawning is the actor
    system's: it cannot fail here, for the names given are distinct
    ([entityName_injective]).  Logging is left out. *)

From Stdlib Require Import Ascii String.
From S2P Require Import Prelude Float Backoff BidirectionalMap ShardAllocation ShardAllocator.
Import Backoff BidirectionalMap.

Local Open Scope Z_scope.

(** ** Entity names *)

(** [NAME_LITERAL] on a code unit. *)
Definition is_literal (code : Z) : bool :=
  ((65 <=? code) && (code <=? 90)) || ((97 <=? code) && (code <=? 122)) || ((48 <=? code) && (code <=? 57))
  || bool_decide (code ∈ [95; 45; 46; 64; 58; 43]).

Definition hex_digit (d : Z) : ascii := ascii_of_N (Z.to_N (if d <? 10 then 48 + d else 55 + d)).

(** [~] and the four upper-case hexadecimal digits of a code unit. *)
Definition escape_unit (code : Z) : string :=
  String "~" (String (hex_digit (code / 4096 mod 16)) (String (hex_digit (code / 256 mod 16))
    (String (hex_digit (code / 16 mod 16)) (String (hex_digit (code mod 16)) EmptyString)))).

Definition name_unit (code : Z) : string :=
  if is_literal code then String (ascii_of_N (Z.to_N code)) EmptyString else escape_unit code.

Definition escaped (units : list Z) : string := foldr (λ code rest, name_unit code +:+ rest) EmptyString units.

Definition entityName (entityId : string) : string := "entity-" +:+ escaped (charCodes entityId).

Example entity_name_known : entityName "a/b x" = "entity-a~002Fb~0020x".
Proof. reflexivity. Qed.

Section shard.
(** [Message] is what entities receive, [Sender] a ref to answer to, [Reply]
    the refs of [GetShardStats]. *)
Context {Message Sender : Type}.

(** ** Data *)

Definition Buffered : Type := Message * option Sender.

Record ShardConfig := mkShardConfig {
  shardId : Z;
  shard_path : string;
  passivationStopTimeoutMs : Z;
  bufferSize : Z;
  restartBackoff : BackoffPolicy;
  entityRestartBackoffResetAfterMs : float;
}.

Record EntityState := mkEntityState {
  ref : string;
  passivating : option (list Buffered);
  stopTimer : bool;
}.

Record EntityRestartRecord := mkRestart {
  attempts : Z;
  blockedUntil : float;
  held : list Buffered;
  timer : bool;
  messageSinceStop : bool;
}.

(** The inbox; [Passivate] and [Terminated] carry the path of a ref. *)
Inductive ShardInbox : Type :=
| EntityEnvelope (entityId : string) (message : Message) (sender : option Sender)
| PassivateEntity (entityId : string)
| StartEntities (entityIds : list string)
| StartEntity (entityId : string)
| GetShardStats (replyTo : option Sender)
| Passivate (stopMessage : Message) (candidate : option string)
| Terminated (actor : string)
| EntityStopTimeout (entityId : string)
| EntityRestartTick (entityId : string)
| ShardPassivationRequest
| OtherMessage.

Inductive Effect : Type :=
| Told (entityId path : string) (message : Message) (sender : option Sender)
| StopMessage (path : string) (message : Message)
| Stop (path : string)
| Spawn (entityId path : string)
| EntityStarted (entityId : string)
| EntityStopped (entityId : string)
| DeadLetter (message : Message) (sender : option Sender)
| StopSelf
| Declined
| ShardStats (replyTo : Sender) (entityIds : list string)
| Unhandled.

Record Shard := mkShard {
  entities : list (string * EntityState);
  entityPaths : BidirectionalMap string string;
  restarts : list (string * EntityRestartRecord);
  heldCount : Z;
  warnedHoldFull : bool;
  effects : list Effect;
}.

Definition construct : Shard := mkShard [] empty [] 0 false [].

Implicit Types (s : Shard) (entityId : string) (message : Message) (sender : option Sender).

Definition set_entities x s : Shard := mkShard x (entityPaths s) (restarts s) (heldCount s) (warnedHoldFull s) (effects s).
Definition set_paths x s : Shard := mkShard (entities s) x (restarts s) (heldCount s) (warnedHoldFull s) (effects s).
Definition set_restarts x s : Shard := mkShard (entities s) (entityPaths s) x (heldCount s) (warnedHoldFull s) (effects s).
Definition set_heldCount x s : Shard := mkShard (entities s) (entityPaths s) (restarts s) x (warnedHoldFull s) (effects s).
Definition set_warned x s : Shard := mkShard (entities s) (entityPaths s) (restarts s) (heldCount s) x (effects s).
Definition emit e s : Shard :=
  mkShard (entities s) (entityPaths s) (restarts s) (heldCount s) (warnedHoldFull s) (effects s ++ [e]).

(** Assignments to a field of the object a map holds. *)
Definition put_entity entityId (e : EntityState) s : Shard := set_entities (map_set (entities s) entityId e) s.
Definition put_record entityId (r : EntityRestartRecord) s : Shard := set_restarts (map_set (restarts s) entityId r) s.

Definition with_timer (t : bool) (r : EntityRestartRecord) : EntityRestartRecord :=
  mkRestart (attempts r) (blockedUntil r) (held r) t (messageSinceStop r).
Definition with_held (h : list Buffered) (r : EntityRestartRecord) : EntityRestartRecord :=
  mkRestart (attempts r) (blockedUntil r) h (timer r) (messageSinceStop r).
Definition with_message (m : bool) (r : EntityRestartRecord) : EntityRestartRecord :=
  mkRestart (attempts r) (blockedUntil r) (held r) (timer r) m.
Definition with_blocked (b : float) (r : EntityRestartRecord) : EntityRestartRecord :=
  mkRestart (attempts r) b (held r) (timer r) (messageSinceStop r).

Context (config : ShardConfig).

Definition holdLimit : Z := bufferSize config.
Definition entity_path entityId : string := shard_path config +:+ "/" +:+ entityName entityId.

Section turn.
(** [now] is [system.clock.now()]. *)
Context (now : float).

(** ** Holding *)

Definition isHeldDown (r : EntityRestartRecord) : bool :=
  negb (bool_decide (held r = [])) || flt now (blockedUntil r).

Definition warnHoldFull s : Shard := if warnedHoldFull s then s else set_warned true s.

Definition releaseHeld (count : Z) s : Shard :=
  let s := set_heldCount (heldCount s - count) s in
  if heldCount s =? 0 then set_warned false s else s.

Definition armRestart entityId (r : EntityRestartRecord) s : Shard :=
  if timer r then s else put_record entityId (with_timer true r) s.

Definition hold entityId (r : EntityRestartRecord) message sender s : Shard :=
  if heldCount s >=? holdLimit then emit (DeadLetter message sender) (warnHoldFull s)
  else
    let r := with_held (held r ++ [(message, sender)]) r in
    armRestart entityId r (set_heldCount (heldCount s + 1) (put_record entityId r s)).

(** The walk stops at the first record still in force. *)
Fixpoint prune (records : list (string * EntityRestartRecord)) : list (string * EntityRestartRecord) :=
  match records with
  | [] => []
  | (entityId, r) :: rest =>
      if negb (bool_decide (held r = [])) || timer r then records
      else if flt (fsub now (blockedUntil r)) (entityRestartBackoffResetAfterMs config) then records
      else prune rest
  end.

Definition pruneRestartRecords s : Shard := set_restarts (prune (restarts s)) s.

(** ** Creating and delivering *)

Definition createEntity entityId s : Shard :=
  let s := match map_get (restarts s) entityId with
           | Some r => put_record entityId (with_message false (with_timer false r)) s
           | None => s
           end in
  let path := entity_path entityId in
  let s := emit (Spawn entityId path) s in
  let s := put_entity entityId (mkEntityState path None false) s in
  let s := set_paths (set (entityPaths s) entityId path) s in
  emit (EntityStarted entityId) s.

Definition tell_entity entityId message sender s : Shard :=
  match map_get (entities s) entityId with
  | Some e => emit (Told entityId (ref e) message sender) s
  | None => s
  end.

(** The entity is absent: create it and tell it. *)
Definition create_and_tell entityId message sender s : Shard :=
  tell_entity entityId message sender (createEntity entityId (pruneRestartRecords s)).

Definition deliver entityId message sender s : Shard :=
  match map_get (entities s) entityId with
  | Some e =>
      match passivating e with
      | Some buffer => put_entity entityId (mkEntityState (ref e) (Some (buffer ++ [(message, sender)])) (stopTimer e)) s
      | None => tell_entity entityId message sender s
      end
  | None =>
      match map_get (restarts s) entityId with
      | Some r =>
          if isHeldDown r then
            let r := with_message true r in hold entityId r message sender (put_record entityId r s)
          else create_and_tell entityId message sender s
      | None => create_and_tell entityId message sender s
      end
  end.

Definition startEntity entityId s : Shard :=
  match map_get (entities s) entityId with
  | Some _ => s
  | None =>
      match map_get (restarts s) entityId with
      | Some r => if isHeldDown r then armRestart entityId r s else createEntity entityId s
      | None => createEntity entityId s
      end
  end.

(** [draw] is the draw of [restartBackoff.delayFor]. *)
Definition backOffEntity entityId (draw : float) s : Shard :=
  let '(r, s) :=
    match map_get (restarts s) entityId with
    | None => (mkRestart 0 now [] false false, s)
    | Some r =>
        let s := set_restarts (map_delete (restarts s) entityId) s in
        (if fle (entityRestartBackoffResetAfterMs config) (fsub now (blockedUntil r))
         then mkRestart 0 (blockedUntil r) (held r) (timer r) (messageSinceStop r) else r, s)
    end in
  let delayMs := restartBackoff config (attempts r) draw in
  let r := mkRestart (attempts r + 1) (fadd now delayMs) (held r) (timer r) (messageSinceStop r) in
  pruneRestartRecords (put_record entityId r s).

(** ** Handlers *)

Definition onPassivateEntity entityId s : Shard :=
  match map_get (entities s) entityId with
  | None =>
      match map_get (restarts s) entityId with
      | Some r => if messageSinceStop r
                  then emit (EntityStopped entityId) (put_record entityId (with_message false r) s) else s
      | None => s
      end
  | Some e =>
      match passivating e with
      | Some _ => s
      | None => emit (Stop (ref e)) (put_entity entityId (mkEntityState (ref e) (Some []) (stopTimer e)) s)
      end
  end.

Definition onStartEntities (entityIds : list string) s : Shard := foldl (λ s entityId, startEntity entityId s) s entityIds.

Definition onEntityRestartTick entityId s : Shard :=
  match map_get (restarts s) entityId with
  | None => s
  | Some r =>
      if negb (timer r) then s
      else
        let r' := mkRestart (attempts r) (Math_min (blockedUntil r) now) [] false (messageSinceStop r) in
        let s := releaseHeld (Z.of_nat (length (held r))) (put_record entityId r' s) in
        let s := match map_get (entities s) entityId with Some _ => s | None => createEntity entityId s end in
        foldl (λ s b, tell_entity entityId b.1 b.2 s) s (held r)
  end.

Definition isIdle s : bool :=
  bool_decide (entities s = []) && forallb (λ e, negb (timer e.2 || isHeldDown e.2)) (restarts s).

Definition onShardPassivationRequest s : Shard := emit (if isIdle s then StopSelf else Declined) s.

Definition onGetShardStats (replyTo : option Sender) s : Shard :=
  match replyTo with
  | None => emit Unhandled s
  | Some to => emit (ShardStats to (entities s).*1) s
  end.

Definition armStopTimeout (e : EntityState) : EntityState :=
  if (passivationStopTimeoutMs config <=? 0) || stopTimer e then e
  else mkEntityState (ref e) (passivating e) true.

Definition onPassivate (stopMessage : Message) (candidate : option string) s : Shard :=
  match candidate with
  | None => s
  | Some path =>
      match getKey (entityPaths s) path with
      | None => s
      | Some entityId =>
          match map_get (entities s) entityId with
          | None => s
          | Some e =>
              let e := mkEntityState (ref e) (Some []) (stopTimer e) in
              put_entity entityId (armStopTimeout e) (emit (StopMessage path stopMessage) s)
          end
      end
  end.

Definition onEntityStopTimeout entityId s : Shard :=
  match map_get (entities s) entityId with
  | Some e => if stopTimer e
              then emit (Stop (ref e)) (put_entity entityId (mkEntityState (ref e) (passivating e) false) s) else s
  | None => s
  end.

Definition onEntityTerminated (actor : string) (draw : float) s : Shard :=
  match getKey (entityPaths s) actor with
  | None => s
  | Some entityId =>
      let buffered := match map_get (entities s) entityId with Some e => passivating e | None => None end in
      let s := set_entities (map_delete (entities s) entityId) s in
      let s := set_paths (delete (entityPaths s) entityId).1 s in
      let s := emit (EntityStopped entityId) s in
      match buffered with
      | None => backOffEntity entityId draw s
      | Some pending => foldl (λ s b, deliver entityId b.1 b.2 s) s pending
      end
  end.

Definition onReceive (draw : float) (m : ShardInbox) s : Shard :=
  match m with
  | EntityEnvelope entityId message sender => deliver entityId message sender s
  | PassivateEntity entityId => onPassivateEntity entityId s
  | StartEntities entityIds => onStartEntities entityIds s
  | StartEntity entityId => startEntity entityId s
  | GetShardStats replyTo => onGetShardStats replyTo s
  | Passivate stopMessage candidate => onPassivate stopMessage candidate s
  | Terminated actor => onEntityTerminated actor draw s
  | EntityStopTimeout entityId => onEntityStopTimeout entityId s
  | EntityRestartTick entityId => onEntityRestartTick entityId s
  | ShardPassivationRequest => onShardPassivationRequest s
  | OtherMessage => emit Unhandled s
  end.

End turn.

Definition postStop s : Shard :=
  let dead := restarts s ≫= λ e, (λ b : Buffered, DeadLetter b.1 b.2) <$> held e.2 in
  mkShard ((λ e, (e.1, mkEntityState (ref e.2) (passivating e.2) false)) <$> entities s) (entityPaths s) [] 0
    (warnedHoldFull s) (effects s ++ dead).

(** ** Runs *)

(** A message at its time, with the draw a backoff would take. *)
Record Turn := mkTurn { at_ : float; draw : float; inbox : ShardInbox }.

Definition turn s (t : Turn) : Shard := onReceive (at_ t) (draw t) (inbox t) s.

Definition run (turns : list Turn) : Shard := foldl turn construct turns.

End shard.

Arguments Shard : clear implicits.
Arguments ShardInbox : clear implicits.
Arguments ShardConfig : clear implicits.
Arguments EntityState : clear implicits.
Arguments EntityRestartRecord : clear implicits.
Arguments Effect : clear implicits.
Arguments Turn : clear implicits.
