(* ===== verification/ShardTheorems.v ===== *)
(** * What a shard does with its messages

    Every message a shard is sent for an entity is told to it, dead-lettered,
    kept, or dropped by a second passivation request of the entity itself, and
    each entity receives its messages in the order they came. *)

From Stdlib Require Import Ascii String.
From S2P Require Import Prelude Float Backoff BidirectionalMap MapContents ShardAllocation ShardAllocator.
Import BidirectionalMap.
From S2P Require Import Shard.

Local Open Scope Z_scope.

(** ** Entity names are injective *)

Lemma is_literal_range code : is_literal code = true → 0 ≤ code < 128 ∧ code ≠ 126.
Proof.
  unfold is_literal. rewrite !orb_true_iff, !andb_true_iff, !Z.leb_le, bool_decide_eq_true. intros H.
  assert (code ∈ [95; 45; 46; 64; 58; 43] → 0 ≤ code < 128 ∧ code ≠ 126).
  { intros Hin. repeat apply elem_of_cons in Hin as [->|Hin]; [lia..|by apply elem_of_nil in Hin]. }
  naive_solver lia.
Qed.

Lemma ascii_of_N_inj a b : 0 ≤ a < 256 → 0 ≤ b < 256 → ascii_of_N (Z.to_N a) = ascii_of_N (Z.to_N b) → a = b.
Proof.
  intros Ha Hb He. apply (f_equal N_of_ascii) in He. rewrite !N_ascii_embedding in He by lia. lia.
Qed.

Lemma hex_digit_inj a b : 0 ≤ a < 16 → 0 ≤ b < 16 → hex_digit a = hex_digit b → a = b.
Proof.
  unfold hex_digit. intros Ha Hb He. apply ascii_of_N_inj in He.
  - destruct (Z.ltb_spec a 10), (Z.ltb_spec b 10); lia.
  - destruct (Z.ltb_spec a 10); lia.
  - destruct (Z.ltb_spec b 10); lia.
Qed.

Lemma escape_unit_inj a b x y : 0 ≤ a < 65536 → 0 ≤ b < 65536 → escape_unit a +:+ x = escape_unit b +:+ y → a = b ∧ x = y.
Proof.
  intros Ha Hb He. cbn in He. injection He as H3 H2 H1 H0 Hxy. split; [|done].
  apply hex_digit_inj in H3, H2, H1, H0; [|apply Z.mod_pos_bound; lia..].
  assert (a / 4096 mod 16 = a / 4096) as E1 by (apply Z.mod_small; split; [apply Z.div_pos; lia|apply Z.div_lt_upper_bound; lia]).
  assert (b / 4096 mod 16 = b / 4096) as E2 by (apply Z.mod_small; split; [apply Z.div_pos; lia|apply Z.div_lt_upper_bound; lia]).
  assert (∀ z, z / 256 = 16 * (z / 4096) + z / 256 mod 16) as E3.
  { intros z. rewrite (Z.div_mod (z / 256) 16) at 1 by lia. rewrite Z.div_div by lia. done. }
  assert (∀ z, z / 16 = 16 * (z / 256) + z / 16 mod 16) as E4.
  { intros z. rewrite (Z.div_mod (z / 16) 16) at 1 by lia. rewrite Z.div_div by lia. done. }
  assert (∀ z, z = 16 * (z / 16) + z mod 16) as E5 by (intros z; apply Z.div_mod; lia).
  rewrite (E5 a), (E5 b), (E4 a), (E4 b), (E3 a), (E3 b). lia.
Qed.

Lemma name_unit_inj a b x y : 0 ≤ a < 65536 → 0 ≤ b < 65536 → name_unit a +:+ x = name_unit b +:+ y → a = b ∧ x = y.
Proof.
  intros Ha Hb. unfold name_unit. destruct (is_literal a) eqn:Ea, (is_literal b) eqn:Eb.
  - apply is_literal_range in Ea, Eb. intros He. injection He as He Hxy. by apply ascii_of_N_inj in He; [|lia..].
  - apply is_literal_range in Ea. intros He. injection He as He _. exfalso.
    assert (a = 126) by (apply ascii_of_N_inj; [lia..|done]). lia.
  - apply is_literal_range in Eb. intros He. injection He as He _. exfalso.
    assert (b = 126) by (apply ascii_of_N_inj; [lia..|by rewrite <- He]). lia.
  - by apply escape_unit_inj.
Qed.

Definition code_units (l : list Z) : Prop := Forall (λ code, 0 ≤ code < 65536) l.

(** The escape loses nothing: two sequences of UTF-16 code units with the same
    name are the same, so no two entities of a shard compete for a child name. *)
Theorem entityName_injective (a b : list Z) : code_units a → code_units b → escaped a = escaped b → a = b.
Proof.
  assert (Hne : ∀ c x, name_unit c +:+ x ≠ EmptyString) by (intros c x; unfold name_unit; by destruct (is_literal c)).
  intros Ha. revert b. induction Ha as [|u a Hu Ha IH]; intros b Hb; destruct Hb as [|v b Hv Hb]; cbn [escaped foldr].
  - done.
  - intros He. by destruct (Hne v (escaped b)).
  - intros He. by destruct (Hne u (escaped a)).
  - intros [-> He]%name_unit_inj; [|done..]. f_equal. by apply IH.
Qed.

Lemma entityName_injective_witness : [0x41; 0x2F; 0xD800] = [0x41; 0x2F; 0xD800].
Proof. apply entityName_injective; [repeat constructor; lia..|reflexivity]. Defined.

Lemma charCodes_inj a b : charCodes a = charCodes b → a = b.
Proof.
  unfold charCodes. intros He. rewrite <- (string_of_list_ascii_of_string a), <- (string_of_list_ascii_of_string b).
  f_equal. revert He. generalize (list_ascii_of_string a), (list_ascii_of_string b). intros l.
  induction l as [|x l IH]; intros [|y k]; cbn; try done. intros [= Hxy Hl]. f_equal; [|by apply IH].
  apply Nat2Z.inj in Hxy. rewrite <- (ascii_nat_embedding x), <- (ascii_nat_embedding y). by rewrite Hxy.
Qed.

Lemma charCodes_units a : code_units (charCodes a).
Proof.
  unfold charCodes, code_units. apply Forall_fmap, Forall_forall. intros x _. cbn. pose proof (nat_ascii_bounded x). lia.
Qed.

(** ** The invariant *)

Section shard.
Context {Message Sender : Type} (config : ShardConfig).

#[local] Abbreviation Shard := (Shard Message Sender).
#[local] Abbreviation Buffered := (@Buffered Message Sender).
#[local] Abbreviation Effect := (Effect Message Sender).
#[local] Abbreviation EntityState := (EntityState Message Sender).
#[local] Abbreviation EntityRestartRecord := (EntityRestartRecord Message Sender).

Implicit Types (s : Shard) (id : string) (b : Buffered) (now draw : float).

Definition waiting_in (e : EntityState) : list Buffered := default [] (passivating e).

Definition is_told (id : string) (e : Effect) : option Buffered :=
  match e with Told id' _ m sd => if decide (id' = id) then Some (m, sd) else None | _ => None end.
Definition is_told_any (e : Effect) : option Buffered := match e with Told _ _ m sd => Some (m, sd) | _ => None end.
Definition is_dead (e : Effect) : option Buffered := match e with DeadLetter m sd => Some (m, sd) | _ => None end.

(** What was told to one entity, and to any; what went to dead letters. *)
Definition told s id : list Buffered := omap (is_told id) (effects s).
Definition told_any s : list Buffered := omap is_told_any (effects s).
Definition dead s : list Buffered := omap is_dead (effects s).

(** What the shard keeps for one entity, and for all. *)
Definition kept s id : list Buffered := at_key waiting_in (entities s) id ++ at_key held (restarts s) id.
Definition stock s : list Buffered := contents waiting_in (entities s) ++ contents held (restarts s).

Record shard_ok s : Prop := {
  ok_entities : NoDup (entities s).*1;
  ok_restarts : NoDup (restarts s).*1;
  ok_lockstep : lockstep (entityPaths s);
  ok_paths : ∀ id, get (entityPaths s) id = (λ _, entity_path config id) <$> map_get (entities s) id;
  ok_refs : ∀ id e, map_get (entities s) id = Some e → ref e = entity_path config id;
  ok_present : ∀ id e r, map_get (entities s) id = Some e → map_get (restarts s) id = Some r →
    held r = [] ∧ timer r = false ∧ messageSinceStop r = false;
  ok_armed : ∀ id r, map_get (restarts s) id = Some r → held r ≠ [] → timer r = true;
  ok_count : heldCount s = Z.of_nat (length (contents held (restarts s)));
  ok_bound : heldCount s ≤ Z.max 0 (bufferSize config);
}.

Lemma entity_path_inj id id' : entity_path config id = entity_path config id' → id = id'.
Proof.
  unfold entity_path, entityName. intros He. apply charCodes_inj, entityName_injective; [apply charCodes_units..|].
  do 3 apply (inj (String.app _)) in He. done.
Qed.

Lemma get_path s id e : shard_ok s → map_get (entities s) id = Some e → getKey (entityPaths s) (entity_path config id) = Some id.
Proof. intros Hs He. apply (ok_lockstep s Hs). by rewrite (ok_paths s Hs), He. Qed.

Lemma key_of_path s path id : shard_ok s → getKey (entityPaths s) path = Some id →
  path = entity_path config id ∧ is_Some (map_get (entities s) id).
Proof.
  intros Hs Hk. apply (ok_lockstep s Hs) in Hk. rewrite (ok_paths s Hs) in Hk.
  destruct (map_get (entities s) id); [|done]. injection Hk as <-. by split.
Qed.

Lemma shard_construct_ok : shard_ok construct.
Proof.
  constructor; cbn; try done; [apply NoDup_nil_2..| |].
  - split_and!; [apply NoDup_nil_2..|done].
  - lia.
Qed.

(** A step accounts for [new] when it adds exactly [new] to what was told,
    dead-lettered or kept, and lets each entity's line grow at its end only,
    by what came for it. *)
Definition line s id : list Buffered := told s id ++ kept s id.

Definition accounts (new : list (string * Buffered)) s s' : Prop :=
  told_any s' ++ dead s' ++ stock s' ≡ₚ (told_any s ++ dead s ++ stock s) ++ new.*2 ∧
  ∀ id, sublist (line s' id) (line s id ++ (filter (λ e, e.1 = id) new).*2).

Lemma accounts_refl s : accounts [] s s.
Proof. split; [by rewrite app_nil_r|]. intros id. cbn. by rewrite app_nil_r. Qed.

Lemma accounts_trans new1 new2 s1 s2 s3 : accounts new1 s1 s2 → accounts new2 s2 s3 → accounts (new1 ++ new2) s1 s3.
Proof.
  intros [H1 L1] [H2 L2]. split; [rewrite H2, H1, fmap_app; solve_Permutation|]. intros id.
  rewrite filter_app, fmap_app, app_assoc. etrans; [apply L2|]. apply sublist_app; [apply L1|done].
Qed.

(** Steps that tell nothing and keep what was kept. *)
Lemma accounts_quiet s s' : told_any s' = told_any s → dead s' = dead s → (∀ id, told s' id = told s id) →
  stock s' ≡ₚ stock s → (∀ id, sublist (kept s' id) (kept s id)) → accounts [] s s'.
Proof.
  intros Ht Hd Hto Hs Hk. split; [by rewrite Ht, Hd, Hs, app_nil_r|]. intros id. cbn. rewrite app_nil_r.
  unfold line. rewrite Hto. apply sublist_app; [done|apply Hk].
Qed.

Lemma told_emit e s id : told (emit e s) id = told s id ++ option_list (is_told id e).
Proof. unfold told. cbn. rewrite omap_app. cbn. by destruct (is_told id e). Qed.
Lemma told_any_emit e s : told_any (emit e s) = told_any s ++ option_list (is_told_any e).
Proof. unfold told_any. cbn. rewrite omap_app. cbn. by destruct (is_told_any e). Qed.
Lemma dead_emit e s : dead (emit e s) = dead s ++ option_list (is_dead e).
Proof. unfold dead. cbn. rewrite omap_app. cbn. by destruct (is_dead e). Qed.

Lemma emit_ok e s : shard_ok s → shard_ok (emit e s).
Proof. by intros []. Qed.

Lemma accounts_emit e s : is_told_any e = None → is_dead e = None → accounts [] s (emit e s).
Proof.
  intros Ht Hd. apply accounts_quiet; [by rewrite told_any_emit, Ht, app_nil_r|by rewrite dead_emit, Hd, app_nil_r| |done|done].
  intros id. rewrite told_emit. destruct e; cbn in *; by rewrite ?app_nil_r.
Qed.

(** *** Records *)

Lemma put_record_ok id r r' s : shard_ok s → map_get (restarts s) id = Some r → held r' = held r →
  (held r ≠ [] → timer r' = true) →
  (∀ e, map_get (entities s) id = Some e → timer r' = false ∧ messageSinceStop r' = false) →
  shard_ok (put_record id r' s) ∧ accounts [] s (put_record id r' s).
Proof.
  intros Hs Hr Hh Ht Hp. pose proof Hs as [He Hre Hl Hpa Hrf Hpr Har Hc Hb].
  assert (Hcont : contents held (restarts (put_record id r' s)) ≡ₚ contents held (restarts s))
    by (by apply (contents_set_same _ _ _ r)).
  split; [constructor; try done; cbn|].
  - by apply map_set_NoDup.
  - intros id' e r0 He'. rewrite map_get_set. case_decide as Hid; [|by eapply Hpr]. subst id'. intros [= <-].
    rewrite Hh. destruct (Hpr id e r He' Hr) as [? _]. destruct (Hp e He'). done.
  - intros id' r0. rewrite map_get_set. case_decide; [|by eapply Har]. intros [= <-]. rewrite Hh. done.
  - rewrite Hc. f_equal. symmetry. by apply Permutation_length.
  - apply accounts_quiet; [done..| |].
    + unfold stock. cbn [entities put_record set_restarts]. by rewrite Hcont.
    + intros id'. unfold kept, at_key. cbn. rewrite map_get_set. case_decide; [|done]. subst. by rewrite Hr, Hh.
Qed.

Lemma prune_spec now (records : list (string * EntityRestartRecord)) : let kept := prune config now records in
  (∃ gone, records = gone ++ kept ∧ ∀ id r, (id, r) ∈ gone → held r = [] ∧ timer r = false).
Proof.
  assert (Hnil : ∀ l : list (string * EntityRestartRecord), ∃ gone, l = gone ++ l ∧
    ∀ id r, (id, r) ∈ gone → held r = [] ∧ timer r = false) by (intros l; exists []; split; [done|by intros ? ? ?%elem_of_nil]).
  induction records as [|[id r] records IH]; [apply Hnil|]. cbn [prune].
  destruct (negb (bool_decide (held r = [])) || timer r) eqn:E; [apply Hnil|].
  apply orb_false_iff in E as [E1 E2]. apply negb_false_iff, bool_decide_eq_true in E1.
  destruct (flt _ _); [apply Hnil|]. destruct IH as (gone & Heq & Hg). exists ((id, r) :: gone).
  split; [cbn; by rewrite <- Heq|]. intros id' r' [[= -> ->]|Hin]%elem_of_cons; [done|by eapply Hg].
Qed.

Lemma prune_get now (records : list (string * EntityRestartRecord)) id r : NoDup records.*1 → map_get (prune config now records) id = Some r →
  map_get records id = Some r.
Proof.
  intros Hnd Hg. destruct (prune_spec now records) as (gone & Heq & _). rewrite Heq in Hnd. rewrite Heq.
  rewrite fmap_app in Hnd. apply NoDup_app in Hnd as (Hn1 & Hn2 & Hn3).
  apply map_get_elem in Hg; [|done]. apply map_get_elem; [rewrite fmap_app; by apply NoDup_app|].
  apply elem_of_app. by right.
Qed.

Lemma prune_ok now s : shard_ok s →
  shard_ok (pruneRestartRecords config now s) ∧ accounts [] s (pruneRestartRecords config now s).
Proof.
  intros Hs. pose proof Hs as [He Hre Hl Hpa Hrf Hpr Har Hc Hb].
  assert (Hcont : contents held (prune config now (restarts s)) = contents held (restarts s)).
  { destruct (prune_spec now (restarts s)) as (gone & Heq & Hg). rewrite Heq at 2. unfold contents. rewrite bind_app.
    fold (contents held gone). rewrite contents_none; [done|]. intros k v Hin. by destruct (Hg k v Hin). }
  assert (Hsub : sublist (prune config now (restarts s)) (restarts s)).
  { destruct (prune_spec now (restarts s)) as (gone & Heq & _). rewrite Heq at 2. by apply sublist_inserts_l. }
  assert (Hnd : NoDup (prune config now (restarts s)).*1).
  { destruct (prune_spec now (restarts s)) as (gone & Heq & _). rewrite Heq, fmap_app in Hre. by apply NoDup_app in Hre as (_ & _ & ?). }
  split; [constructor; try done; cbn|].
  - intros id e r He' Hr%prune_get; [|done]. by eapply Hpr.
  - intros id r Hr%prune_get; [|done]. by eapply Har.
  - rewrite Hc. do 2 f_equal. symmetry. exact Hcont.
  - apply accounts_quiet; [done..| |].
    + unfold stock. cbn [restarts entities set_restarts pruneRestartRecords]. by rewrite Hcont.
    + intros id. unfold kept. cbn. apply sublist_app; [done|]. unfold at_key.
      destruct (map_get (prune config now (restarts s)) id) as [r|] eqn:E; [|apply sublist_nil_l].
      by rewrite (prune_get _ _ _ _ Hre E).
Qed.

#[local] Ltac fields :=
  cbn [entities entityPaths restarts heldCount set_heldCount put_record set_restarts put_entity set_entities set_paths].

(** *** Entities *)

Lemma contents_fresh {V B} (f : V → list B) (m : list (string * V)) id v : NoDup m.*1 → map_get m id = None →
  contents f (map_set m id v) ≡ₚ f v ++ contents f m.
Proof. intros Hm Hn. rewrite contents_set, (contents_split f m id) by done. unfold at_key. by rewrite Hn. Qed.

Lemma map_set_set {V} (m : list (string * V)) id v w : map_set (map_set m id v) id w = map_set m id w.
Proof.
  induction m as [|[k u] m IH]; cbn [map_set]; [by rewrite decide_True|].
  destruct (decide (k = id)) as [->|Hne]; cbn [map_set]; [by rewrite decide_True|by rewrite decide_False, IH].
Qed.

(** [createEntity] between its two notifications. *)
Lemma add_entity_ok id s : shard_ok s → map_get (entities s) id = None →
  (∀ r, map_get (restarts s) id = Some r → held r = [] ∧ timer r = false ∧ messageSinceStop r = false) →
  let path := entity_path config id in
  let s' := set_paths (set (entityPaths s) id path) (put_entity id (mkEntityState path None false) s) in
  shard_ok s' ∧ accounts [] s s'.
Proof.
  intros Hs Hn Hr path s'. pose proof Hs as [He Hre Hl Hpa Hrf Hpr Har Hc Hb].
  destruct (set_spec (entityPaths s) id path Hl) as [Hl' Hget].
  assert (Hcont : contents waiting_in (map_set (entities s) id (mkEntityState path None false)) ≡ₚ contents waiting_in (entities s))
    by (by rewrite contents_fresh by done).
  split; [constructor; try done; unfold s'; fields|].
  - by apply map_set_NoDup.
  - intros id'. apply option_eq. intros p. rewrite Hget, map_get_set. case_decide as Hid; cbn.
    + subst id'. unfold path. split; [intros [[_ ->]|[? _]]; done|]. intros [= ->]. by left.
    + rewrite (Hpa id'). split; [intros [[? _]|(_ & _ & ?)]; done|]. intros Hp. right. split_and!; [done| |done].
      intros ->. destruct (map_get (entities s) id'); [|done]. cbn in Hp. injection Hp as Hp. by apply entity_path_inj in Hp.
  - intros id' e. rewrite map_get_set. case_decide; [|by apply Hrf]. intros [= <-]. by subst.
  - intros id' e r. rewrite map_get_set. case_decide; [|by apply Hpr]. intros _. subst. apply Hr.
  - apply accounts_quiet; [done..| |].
    + unfold stock. unfold s'. cbn [entities restarts put_entity set_entities set_paths]. by rewrite Hcont.
    + intros id'. unfold kept. apply sublist_app; [|done]. unfold at_key, s'. cbn [entities put_entity set_entities set_paths].
      rewrite map_get_set. case_decide; [|done]. apply sublist_nil_l.
Qed.

Lemma createEntity_ok id s : shard_ok s → map_get (entities s) id = None → at_key held (restarts s) id = [] →
  shard_ok (createEntity config id s) ∧ accounts [] s (createEntity config id s) ∧
  map_get (entities (createEntity config id s)) id = Some (mkEntityState (entity_path config id) None false).
Proof.
  intros Hs Hn Hh. unfold createEntity.
  set (s1 := match map_get (restarts s) id with Some _ => _ | None => s end).
  assert (H1 : shard_ok s1 ∧ accounts [] s s1).
  { unfold s1. destruct (map_get (restarts s) id) as [r|] eqn:Er; [|split; [done|apply accounts_refl]].
    unfold at_key in Hh. rewrite Er in Hh. by apply (put_record_ok id r). }
  assert (Hn1 : map_get (entities s1) id = None) by (unfold s1; by destruct (map_get (restarts s) id)).
  assert (Hr1 : ∀ r, map_get (restarts s1) id = Some r → held r = [] ∧ timer r = false ∧ messageSinceStop r = false).
  { unfold s1. unfold at_key in Hh. destruct (map_get (restarts s) id) as [r0|] eqn:Er; [|intros r; rewrite Er; done].
    intros r. cbn. rewrite map_get_set, decide_True by done. by intros [= <-]. }
  clearbody s1. destruct H1 as [Hs1 Ha1]. cbv zeta.
  set (path := entity_path config id). set (s2 := emit (Spawn id path) s1).
  destruct (add_entity_ok id s2) as [Hs3 Ha3]; [by apply emit_ok|done|done|]. fold path in Hs3, Ha3. cbv zeta in Hs3, Ha3.
  set (s3 := set_paths _ _) in *. change (entityPaths (put_entity id (mkEntityState path None false) s2)) with (entityPaths s2).
  fold s3. split_and!; [by apply emit_ok| |].
  - apply (accounts_trans [] [] _ s1); [done|]. apply (accounts_trans [] [] _ s2); [by apply accounts_emit|].
    apply (accounts_trans [] [] _ s3); [done|]. by apply accounts_emit.
  - unfold s3. cbn. rewrite map_get_set. by rewrite decide_True.
Qed.

Lemma tell_entity_ok id e m sd s : shard_ok s → map_get (entities s) id = Some e → passivating e = None →
  shard_ok (tell_entity id m sd s) ∧ accounts [(id, (m, sd))] s (tell_entity id m sd s) ∧
  entities (tell_entity id m sd s) = entities s ∧ restarts (tell_entity id m sd s) = restarts s.
Proof.
  intros Hs He Hp. unfold tell_entity. rewrite He. split_and!; [by apply emit_ok| |done|done]. split.
  - rewrite told_any_emit, dead_emit. cbn. change (stock (emit _ s)) with (stock s). solve_Permutation.
  - intros id'. unfold line. rewrite told_emit. change (kept (emit _ s) id') with (kept s id'). rewrite filter_cons. cbn.
    destruct (decide (id = id')) as [->|Hne]; cbn; [|by rewrite !app_nil_r].
    assert (kept s id' = []) as ->; [|by rewrite !app_nil_r]. unfold kept, at_key. rewrite He. unfold waiting_in. rewrite Hp.
    destruct (map_get (restarts s) id') as [r|] eqn:Er; [|done]. by destruct (ok_present s Hs id' e r He Er) as [-> _].
Qed.

(** *** Holding *)

Lemma hold_push id (r : EntityRestartRecord) b s : heldCount s < bufferSize config → map_get (restarts s) id = Some r →
  hold config id r b.1 b.2 s =
    set_heldCount (heldCount s + 1) (put_record id (with_timer true (with_held (held r ++ [b]) r)) s).
Proof.
  intros Hlt Hr. unfold hold, holdLimit. rewrite Z.geb_leb. replace (bufferSize config <=? heldCount s) with false
    by (symmetry; apply Z.leb_gt; lia). destruct b as [m sd]. cbn [fst snd]. unfold armRestart. cbn [timer with_held].
  destruct r as [a bl h [] ms]; cbn; [done|]. unfold put_record. cbn. unfold set_restarts, set_heldCount. cbn.
  by rewrite map_set_set.
Qed.

Lemma hold_ok id r b s : shard_ok s → map_get (restarts s) id = Some r → map_get (entities s) id = None →
  shard_ok (hold config id r b.1 b.2 s) ∧ accounts [(id, b)] s (hold config id r b.1 b.2 s).
Proof.
  intros Hs Hr Hn. destruct (Z.ltb_spec (heldCount s) (bufferSize config)) as [Hlt|Hge].
  - rewrite hold_push by done. pose proof Hs as [He Hre Hl Hpa Hrf Hpr Har Hc Hb].
    set (r' := with_timer true (with_held (held r ++ [b]) r)).
    assert (Hcont : contents held (map_set (restarts s) id r') ≡ₚ contents held (restarts s) ++ [b]).
    { rewrite contents_set, (contents_split held (restarts s) id) by done. unfold at_key. rewrite Hr. cbn. solve_Permutation. }
    split; [constructor; try done; fields|split].
    + by apply map_set_NoDup.
    + intros id' e r0 He'. rewrite map_get_set. case_decide; [congruence|by eapply Hpr].
    + intros id' r0. rewrite map_get_set. case_decide; [by intros [= <-]|by eapply Har].
    + rewrite (Permutation_length Hcont), length_app, Hc. cbn [length]. lia.
    + lia.
    + unfold stock. cbn [told_any dead entities restarts set_heldCount put_record set_restarts effects].
      change (told_any _) with (told_any s). change (dead _) with (dead s). rewrite Hcont. cbn. solve_Permutation.
    + intros id'. unfold line. change (told _ id') with (told s id'). unfold kept, at_key.
      cbn [entities restarts set_heldCount put_record set_restarts]. rewrite map_get_set, filter_cons. cbn.
      destruct (decide (id' = id)) as [->|Hne].
      * rewrite decide_True by done. rewrite Hr, Hn. cbn. by rewrite app_assoc.
      * rewrite decide_False by congruence. cbn. by rewrite app_nil_r.
  - unfold hold, holdLimit. rewrite Z.geb_leb. replace (bufferSize config <=? heldCount s) with true
      by (symmetry; apply Z.leb_le; lia).
    assert (Hw : shard_ok (warnHoldFull s) ∧ told_any (warnHoldFull s) = told_any s ∧ dead (warnHoldFull s) = dead s ∧
      stock (warnHoldFull s) = stock s ∧ ∀ id', line (warnHoldFull s) id' = line s id').
    { unfold warnHoldFull. destruct (warnedHoldFull s); [done|]. split_and!; [|done..]. by destruct Hs. }
    destruct Hw as (Hs' & Ht & Hd & Hst & Hl). split; [by apply emit_ok|]. split.
    + rewrite told_any_emit, dead_emit. change (stock (emit _ (warnHoldFull s))) with (stock (warnHoldFull s)).
      rewrite Ht, Hd, Hst. cbn. destruct b. solve_Permutation.
    + intros id'. unfold line. rewrite told_emit. cbn. rewrite app_nil_r.
      change (kept (emit _ (warnHoldFull s)) id') with (kept (warnHoldFull s) id').
      change (told (warnHoldFull s) id' ++ kept (warnHoldFull s) id') with (line (warnHoldFull s) id'). rewrite Hl.
      by apply sublist_inserts_r.
Qed.

(** *** Delivering *)

Lemma create_and_tell_ok now id m sd s : shard_ok s → map_get (entities s) id = None → at_key held (restarts s) id = [] →
  shard_ok (create_and_tell config now id m sd s) ∧ accounts [(id, (m, sd))] s (create_and_tell config now id m sd s).
Proof.
  intros Hs Hn Hh. unfold create_and_tell. destruct (prune_ok now s Hs) as [Hs1 Ha1].
  destruct (createEntity_ok id (pruneRestartRecords config now s)) as (Hs2 & Ha2 & He2); [done|done| |].
  { unfold at_key in *. cbn. destruct (map_get (prune config now (restarts s)) id) as [r|] eqn:E; [|done].
    apply prune_get in E; [|apply (ok_restarts s Hs)]. by rewrite E in Hh. }
  destruct (tell_entity_ok id _ m sd _ Hs2 He2) as (Hs3 & Ha3 & _); [done|]. split; [done|].
  apply (accounts_trans [] [(id, (m, sd))] _ (pruneRestartRecords config now s)); [done|].
  by eapply (accounts_trans [] [(id, (m, sd))]).
Qed.

Lemma deliver_ok now id m sd s : shard_ok s →
  shard_ok (deliver config now id m sd s) ∧ accounts [(id, (m, sd))] s (deliver config now id m sd s).
Proof.
  intros Hs. unfold deliver. destruct (map_get (entities s) id) as [e|] eqn:He.
  - destruct (passivating e) as [buffer|] eqn:Hp.
    2: { destruct (tell_entity_ok id e m sd s Hs He Hp) as (? & ? & _). done. }
    pose proof Hs as [Hen Hre Hl Hpa Hrf Hpr Har Hc Hb]. set (e' := mkEntityState _ _ _).
    split; [constructor; try done; fields|split].
    + by apply map_set_NoDup.
    + intros id'. rewrite map_get_set, Hpa. case_decide; [|done]. subst. by rewrite He.
    + intros id' e0. rewrite map_get_set. case_decide; [|by apply Hrf]. intros [= <-]. subst. by apply Hrf in He.
    + intros id' e0 r. rewrite map_get_set. case_decide; [|by apply Hpr]. intros _ Hr. subst. by apply (Hpr id e r).
    + unfold stock. change (told_any _) with (told_any s). change (dead _) with (dead s).
      cbn [entities restarts put_entity set_entities]. rewrite contents_set by done.
      rewrite (contents_split waiting_in (entities s) id) by done. unfold at_key. rewrite He. unfold waiting_in at 1 3.
      rewrite Hp. cbn. solve_Permutation.
    + intros id'. unfold line. change (told _ id') with (told s id'). unfold kept, at_key.
      cbn [entities restarts put_entity set_entities]. rewrite map_get_set, filter_cons. cbn.
      destruct (decide (id' = id)) as [->|Hne].
      * rewrite decide_True by done. rewrite He. unfold waiting_in at 2. rewrite Hp. cbn.
        destruct (map_get (restarts s) id) as [r|] eqn:Er; [destruct (Hpr id e r He Er) as [-> _]|]; cbn;
          by rewrite !app_nil_r, app_assoc.
      * rewrite decide_False by congruence. cbn. by rewrite app_nil_r.
  - destruct (map_get (restarts s) id) as [r|] eqn:Hr.
    2: { apply create_and_tell_ok; [done|done|]. unfold at_key. by rewrite Hr. }
    destruct (isHeldDown now r) eqn:Eh.
    + destruct (put_record_ok id r (with_message true r) s Hs Hr) as [Hs1 Ha1]; [done|by apply (ok_armed s Hs id r)|congruence|].
      destruct (hold_ok id (with_message true r) (m, sd) (put_record id (with_message true r) s) Hs1) as [Hs2 Ha2];
        [cbn; rewrite map_get_set; by rewrite decide_True|done|]. split; [done|].
      by eapply (accounts_trans [] [(id, (m, sd))]).
    + apply create_and_tell_ok; [done|done|]. unfold at_key. rewrite Hr. apply orb_false_iff in Eh as [Eh _].
      by apply negb_false_iff, bool_decide_eq_true in Eh.
Qed.

Definition addressed (id : string) (pending : list Buffered) : list (string * Buffered) := (λ b, (id, b)) <$> pending.

Lemma addressed_snd id (pending : list Buffered) : (addressed id pending).*2 = pending.
Proof. unfold addressed. rewrite <- list_fmap_compose. by apply list_fmap_id. Qed.

Lemma addressed_for id id' (pending : list Buffered) :
  (filter (λ e, e.1 = id') (addressed id pending)).*2 = if decide (id' = id) then pending else [].
Proof.
  unfold addressed. induction pending as [|b pending IH]; [by case_decide|]. cbn [fmap list_fmap]. rewrite filter_cons. cbn.
  destruct (decide (id = id')) as [->|Hne].
  - rewrite decide_True in IH |- * by done. cbn. by rewrite IH.
  - rewrite decide_False in IH |- * by congruence. done.
Qed.

Lemma deliver_all_ok now id (pending : list Buffered) s : shard_ok s →
  let s' := foldl (λ s b, deliver config now id b.1 b.2 s) s pending in
  shard_ok s' ∧ accounts (addressed id pending) s s'.
Proof.
  revert s. induction pending as [|[m sd] pending IH]; intros s Hs; [split; [done|apply accounts_refl]|]. cbn [foldl].
  destruct (deliver_ok now id m sd s Hs) as [Hs1 Ha1]. destruct (IH _ Hs1) as [Hs2 Ha2]. split; [done|].
  by eapply (accounts_trans [(id, (m, sd))] (addressed id pending)).
Qed.

Lemma tell_all_ok id e (pending : list Buffered) s : shard_ok s → map_get (entities s) id = Some e → passivating e = None →
  let s' := foldl (λ s b, tell_entity id b.1 b.2 s) s pending in
  shard_ok s' ∧ accounts (addressed id pending) s s'.
Proof.
  revert s. induction pending as [|[m sd] pending IH]; intros s Hs He Hp; [split; [done|apply accounts_refl]|]. cbn [foldl].
  destruct (tell_entity_ok id e m sd s Hs He Hp) as (Hs1 & Ha1 & Hen & _). destruct (IH _ Hs1) as [Hs2 Ha2]; [by rewrite Hen|done|].
  split; [done|]. by eapply (accounts_trans [(id, (m, sd))] (addressed id pending)).
Qed.

(** Taking [pending] out of what is kept for [id], then handing it on. *)
Lemma accounts_back id (pending : list Buffered) s s1 s2 :
  told_any s ++ dead s ++ stock s ≡ₚ (told_any s1 ++ dead s1 ++ stock s1) ++ pending →
  (∀ id', sublist (line s1 id' ++ if decide (id' = id) then pending else []) (line s id')) →
  accounts (addressed id pending) s1 s2 → accounts [] s s2.
Proof.
  intros Hp Hl [Ha La]. split; [by rewrite Ha, addressed_snd, app_nil_r|]. intros id'. cbn. rewrite app_nil_r.
  etrans; [apply La|]. rewrite addressed_for. apply Hl.
Qed.

(** *** Handlers *)

Lemma startEntity_ok now id s : shard_ok s →
  shard_ok (startEntity config now id s) ∧ accounts [] s (startEntity config now id s).
Proof.
  intros Hs. unfold startEntity. destruct (map_get (entities s) id) as [e|] eqn:He; [split; [done|apply accounts_refl]|].
  destruct (map_get (restarts s) id) as [r|] eqn:Hr.
  2: { destruct (createEntity_ok id s) as (? & ? & _); [done|done|unfold at_key; by rewrite Hr|done]. }
  destruct (isHeldDown now r) eqn:Eh.
  - unfold armRestart. destruct (timer r) eqn:Et; [split; [done|apply accounts_refl]|].
    apply (put_record_ok id r); [done..|]. congruence.
  - apply orb_false_iff in Eh as [Eh _]. apply negb_false_iff, bool_decide_eq_true in Eh.
    destruct (createEntity_ok id s) as (? & ? & _); [done|done|unfold at_key; by rewrite Hr|done].
Qed.

(** A passivating flag set on a present entity, with what it drops. *)
Lemma put_entity_ok id e e' (dropped : list Buffered) s : shard_ok s → map_get (entities s) id = Some e → ref e' = ref e →
  waiting_in e' = [] ∧ dropped = waiting_in e ∨ waiting_in e' = waiting_in e ∧ dropped = [] →
  shard_ok (put_entity id e' s) ∧
  told_any s ++ dead s ++ stock s ≡ₚ (told_any s ++ dead s ++ stock (put_entity id e' s)) ++ dropped ∧
  ∀ id', sublist (line (put_entity id e' s) id') (line s id').
Proof.
  intros Hs He Href Hw. pose proof Hs as [Hen Hre Hl Hpa Hrf Hpr Har Hc Hb]. split; [constructor; try done; fields|split].
  - by apply map_set_NoDup.
  - intros id'. rewrite map_get_set, Hpa. case_decide; [|done]. subst. by rewrite He.
  - intros id' e0. rewrite map_get_set. case_decide; [|by apply Hrf]. intros [= <-]. subst. rewrite Href. by apply Hrf.
  - intros id' e0 r. rewrite map_get_set. case_decide; [|by apply Hpr]. intros _. subst. by apply (Hpr id e r).
  - unfold stock. fields. rewrite contents_set by done. rewrite (contents_split waiting_in (entities s) id) by done.
    unfold at_key. rewrite He. destruct Hw as [[-> ->]|[-> ->]]; solve_Permutation.
  - intros id'. unfold line. change (told (put_entity id e' s) id') with (told s id'). apply sublist_app; [done|].
    unfold kept, at_key. fields. rewrite map_get_set. destruct (decide (id' = id)) as [->|]; [|done].
    rewrite He. apply sublist_app; [|done]. destruct Hw as [[-> _]|[-> _]]; [apply sublist_nil_l|done].
Qed.

(** Nothing dropped: the entity's buffer is as it was. *)
Lemma put_entity_quiet id e e' s : shard_ok s → map_get (entities s) id = Some e → ref e' = ref e →
  waiting_in e' = waiting_in e → shard_ok (put_entity id e' s) ∧ accounts [] s (put_entity id e' s).
Proof.
  intros Hs He Href Hw. destruct (put_entity_ok id e e' [] s Hs He Href) as (? & Hp & Hl); [by right|]. split; [done|].
  rewrite app_nil_r in Hp. split.
  - rewrite app_nil_r, Hp. done.
  - intros id'. cbn. rewrite app_nil_r. apply Hl.
Qed.

Lemma onPassivateEntity_ok id s : shard_ok s →
  shard_ok (onPassivateEntity id s) ∧ accounts [] s (onPassivateEntity id s).
Proof.
  intros Hs. unfold onPassivateEntity. destruct (map_get (entities s) id) as [e|] eqn:He.
  - destruct (passivating e) as [buffer|] eqn:Hp; [split; [done|apply accounts_refl]|].
    destruct (put_entity_quiet id e (mkEntityState (ref e) (Some []) (stopTimer e)) s Hs He) as [Hs' Ha];
      [done|unfold waiting_in; by rewrite Hp|]. split; [by apply emit_ok|].
    apply (accounts_trans [] [] _ (put_entity id (mkEntityState (ref e) (Some []) (stopTimer e)) s)); [done|].
    by apply accounts_emit.
  - destruct (map_get (restarts s) id) as [r|] eqn:Hr; [|split; [done|apply accounts_refl]].
    destruct (messageSinceStop r); [|split; [done|apply accounts_refl]].
    destruct (put_record_ok id r (with_message false r) s Hs Hr) as [Hs' Ha]; [done|by apply (ok_armed s Hs id r)|congruence|].
    split; [by apply emit_ok|].
    apply (accounts_trans [] [] _ (put_record id (with_message false r) s)); [done|]. by apply accounts_emit.
Qed.

Lemma onStartEntities_ok now (ids : list string) s : shard_ok s →
  shard_ok (onStartEntities config now ids s) ∧ accounts [] s (onStartEntities config now ids s).
Proof.
  unfold onStartEntities. revert s. induction ids as [|id ids IH]; intros s Hs; [split; [done|apply accounts_refl]|].
  cbn [foldl]. destruct (startEntity_ok now id s Hs) as [Hs1 Ha1]. destruct (IH _ Hs1) as [Hs2 Ha2]. split; [done|].
  by eapply (accounts_trans [] []).
Qed.

Lemma onEntityRestartTick_ok now id s : shard_ok s →
  shard_ok (onEntityRestartTick config now id s) ∧ accounts [] s (onEntityRestartTick config now id s).
Proof.
  intros Hs. unfold onEntityRestartTick.
  destruct (map_get (restarts s) id) as [r|] eqn:Hr; [|split; [done|apply accounts_refl]].
  destruct (timer r) eqn:Et; cbn [negb]; [|split; [done|apply accounts_refl]].
  assert (Hn : map_get (entities s) id = None).
  { destruct (map_get (entities s) id) as [e|] eqn:He; [|done]. destruct (ok_present s Hs id e r He Hr) as (_ & ? & _). congruence. }
  pose proof Hs as [Hen Hre Hl Hpa Hrf Hpr Har Hc Hb].
  set (r' := mkRestart _ _ _ _ _). set (s1 := releaseHeld _ _).
  assert (Hf : entities s1 = entities s ∧ entityPaths s1 = entityPaths s ∧ restarts s1 = map_set (restarts s) id r' ∧
    heldCount s1 = heldCount s - Z.of_nat (length (held r)) ∧ effects s1 = effects s)
    by (unfold s1, releaseHeld; cbn; destruct (_ =? 0); split_and!; reflexivity).
  destruct Hf as (E1 & E2 & E3 & E4 & E5). clearbody s1.
  assert (Hcont : contents held (restarts s) ≡ₚ held r ++ contents held (restarts s1)).
  { rewrite E3, contents_set, (contents_split held (restarts s) id) by done. unfold at_key. by rewrite Hr. }
  assert (Hs1 : shard_ok s1).
  { constructor; rewrite ?E1, ?E2, ?E4; try done.
    - rewrite E3. by apply map_set_NoDup.
    - intros id' e r0 He'. rewrite E3, map_get_set. case_decide; [congruence|by eapply Hpr].
    - intros id' r0. rewrite E3, map_get_set. case_decide; [by intros [= <-]|by eapply Har].
    - rewrite Hc, (Permutation_length Hcont), length_app. lia.
    - lia. }
  assert (Hh1 : at_key held (restarts s1) id = []) by (unfold at_key; rewrite E3, map_get_set; by rewrite decide_True).
  rewrite E1, Hn. destruct (createEntity_ok id s1) as (Hs2 & Ha2 & He2); [done|by rewrite E1|done|].
  destruct (tell_all_ok id _ (held r) _ Hs2 He2) as [Hs3 Ha3]; [done|]. split; [done|].
  eapply (accounts_back id (held r) s s1).
  - unfold told_any, dead, stock. rewrite E5, E1, Hcont. solve_Permutation.
  - intros id'. unfold line, told, kept. rewrite E5, E1. unfold at_key at 2 4. rewrite E3, map_get_set.
    destruct (decide (id' = id)) as [->|Hne]; [|by rewrite app_nil_r]. rewrite Hr. cbn. by rewrite app_nil_r, app_assoc.
  - by eapply (accounts_trans [] (addressed id (held r))).
Qed.

(** Removing an entity and its path, as [onEntityTerminated] does. *)
Lemma remove_entity_ok id e s : shard_ok s → map_get (entities s) id = Some e →
  let s' := set_paths (delete (entityPaths s) id).1 (set_entities (map_delete (entities s) id) s) in
  shard_ok s' ∧ told_any s ++ dead s ++ stock s ≡ₚ (told_any s' ++ dead s' ++ stock s') ++ waiting_in e ∧
  (∀ id', sublist (line s' id' ++ if decide (id' = id) then waiting_in e else []) (line s id')).
Proof.
  intros Hs He s'. pose proof Hs as [Hen Hre Hl Hpa Hrf Hpr Har Hc Hb].
  assert (Hpid : get (entityPaths s) id = Some (entity_path config id)) by (by rewrite Hpa, He).
  destruct (delete_pair_spec (entityPaths s) id (entity_path config id) Hl Hpid) as [Hl' Hg].
  assert (Hdel : (delete (entityPaths s) id).1 =
    mkBidirectionalMap (map_delete (forward (entityPaths s)) id) (map_delete (reverse (entityPaths s)) (entity_path config id))).
  { unfold delete. unfold get in Hpid. by rewrite Hpid. }
  split; [|split].
  - constructor; unfold s'; fields; try done.
    + by apply map_delete_NoDup.
    + by rewrite Hdel.
    + intros id'. apply option_eq. intros p. rewrite Hdel. unfold get at 1. cbn [forward]. rewrite Hg, map_get_delete.
      case_decide as Hid; [split; [by intros [? _]|done]|]. rewrite <- (Hpa id'). split; [by intros [_ ?]|by split].
    + intros id' e0. rewrite map_get_delete. case_decide; [done|by apply Hrf].
    + intros id' e0 r. rewrite map_get_delete. case_decide; [done|by apply Hpr].
  - unfold stock. unfold s'. fields. rewrite (contents_split waiting_in (entities s) id) by done. unfold at_key. rewrite He.
    change (told_any (set_paths _ _)) with (told_any s). change (dead (set_paths _ _)) with (dead s). solve_Permutation.
  - intros id'. unfold line. change (told s' id') with (told s id'). unfold kept, at_key, s'. fields. rewrite map_get_delete.
    destruct (decide (id' = id)) as [->|Hne]; [|by rewrite app_nil_r]. rewrite He. cbn.
    destruct (map_get (restarts s) id) as [r|] eqn:Er; [destruct (Hpr id e r He Er) as [-> _]|]; by rewrite !app_nil_r.
Qed.

Lemma backOffEntity_ok now draw id s : shard_ok s → map_get (entities s) id = None →
  shard_ok (backOffEntity config now id draw s) ∧ accounts [] s (backOffEntity config now id draw s).
Proof.
  intros Hs Hn. unfold backOffEntity. pose proof Hs as [Hen Hre Hl Hpa Hrf Hpr Har Hc Hb].
  set (p := match map_get (restarts s) id with None => _ | Some _ => _ end).
  assert (Hp : held p.1 = at_key held (restarts s) id ∧ (held p.1 ≠ [] → timer p.1 = true) ∧
    p.2 = set_restarts (map_delete (restarts s) id) s).
  { unfold p, at_key. destruct (map_get (restarts s) id) as [r|] eqn:Er; cbn [fst snd].
    - destruct (fle _ _); split_and!; try done; exact (Har id r Er).
    - split_and!; [done..|]. unfold map_delete. rewrite filter_all; [by destruct s|]. intros [k r] Hin. cbn. intros ->.
      apply map_get_None in Er. apply Er, list_elem_of_fmap. by exists (id, r). }
  destruct p as [r s1]. cbn [fst snd] in Hp. destruct Hp as (Hh & Ht & ->).
  set (r' := mkRestart _ _ _ _ _). assert (Hh' : held r' = at_key held (restarts s) id) by done.
  assert (Ht' : held r' ≠ [] → timer r' = true) by done. clearbody r'.
  set (s2 := put_record id r' _).
  assert (Hcont : contents held (restarts s2) ≡ₚ contents held (restarts s)).
  { unfold s2. fields. rewrite contents_set by (by apply map_delete_NoDup). rewrite Hh', (contents_split held (restarts s) id) by done.
    unfold map_delete. rewrite list_filter_filter. rewrite (list_filter_iff _ (λ e : string * EntityRestartRecord, e.1 ≠ id)); [done|].
    naive_solver. }
  assert (Hs2 : shard_ok s2).
  { constructor; unfold s2; fields; try done.
    - by apply map_set_NoDup, map_delete_NoDup.
    - intros id' e r0 He. rewrite map_get_set, map_get_delete. case_decide; [congruence|by eapply Hpr].
    - intros id' r0. rewrite map_get_set, map_get_delete. case_decide; [by intros [= <-]|by eapply Har].
    - rewrite Hc. f_equal. symmetry. by apply Permutation_length. }
  destruct (prune_ok now s2 Hs2) as [Hs3 Ha3]. split; [done|]. eapply (accounts_trans [] [] s s2); [|done].
  apply accounts_quiet; [done..| |].
  - unfold stock. change (entities s2) with (entities s). by rewrite Hcont.
  - intros id'. unfold kept. change (entities s2) with (entities s). apply sublist_app; [done|]. unfold at_key at 1, s2. fields.
    rewrite map_get_set, map_get_delete. unfold at_key in Hh'. case_decide; [|done]. subst id'. rewrite Hh'. done.
Qed.

Lemma onEntityTerminated_ok now draw actor s : shard_ok s →
  shard_ok (onEntityTerminated config now actor draw s) ∧ accounts [] s (onEntityTerminated config now actor draw s).
Proof.
  intros Hs. unfold onEntityTerminated. destruct (getKey (entityPaths s) actor) as [id|] eqn:Hk; [|split; [done|apply accounts_refl]].
  destruct (key_of_path s actor id Hs Hk) as [-> [e He]]. rewrite He.
  destruct (remove_entity_ok id e s Hs He) as (Hs1 & Hp & Hl). cbv zeta in Hs1, Hp, Hl.
  set (s1 := set_paths _ _) in *. change (entityPaths (set_entities (map_delete (entities s) id) s)) with (entityPaths s).
  fold s1. cbv zeta. set (s2 := emit (EntityStopped id) s1).
  assert (Hs2 : shard_ok s2) by (by apply emit_ok).
  assert (Ha2 : accounts [] s1 s2) by (by apply accounts_emit).
  assert (Hback : ∀ s3, accounts (addressed id (waiting_in e)) s2 s3 → accounts [] s s3).
  { intros s3 Ha3. apply (accounts_back id (waiting_in e) s s1); [done..|]. by apply (accounts_trans [] _ s1 s2). }
  unfold waiting_in in Hback. destruct (passivating e) as [pending|]; cbn [default] in Hback.
  - destruct (deliver_all_ok now id pending s2 Hs2) as [Hs3 Ha3]. split; [done|by apply Hback].
  - destruct (backOffEntity_ok now draw id s2 Hs2) as [Hs3 Ha3].
    { unfold s2, s1. fields. cbn. rewrite map_get_delete. by rewrite decide_True. }
    split; [done|by apply Hback].
Qed.

(** *** Turns *)

#[local] Abbreviation Turn := (Shard.Turn Message Sender).

Definition came_in (t : Turn) : list (string * Buffered) :=
  match inbox t with EntityEnvelope id m sd => [(id, (m, sd))] | _ => [] end.

(** What a turn drops without a trace: the buffer of an entity that asks to be
    passivated while it is passivating already. *)
Definition dropped_by s (t : Turn) : list Buffered :=
  match inbox t with
  | Passivate _ (Some path) =>
      match getKey (entityPaths s) path with
      | Some id => at_key waiting_in (entities s) id
      | None => []
      end
  | _ => []
  end.

Fixpoint dropped_from s (turns : list Turn) : list Buffered :=
  match turns with [] => [] | t :: turns => dropped_by s t ++ dropped_from (turn config s t) turns end.

Lemma turn_ok s (t : Turn) : shard_ok s →
  shard_ok (turn config s t) ∧
  told_any (turn config s t) ++ dead (turn config s t) ++ stock (turn config s t) ++ dropped_by s t
    ≡ₚ (told_any s ++ dead s ++ stock s) ++ (came_in t).*2 ∧
  ∀ id, sublist (line (turn config s t) id) (line s id ++ (filter (λ e, e.1 = id) (came_in t)).*2).
Proof.
  intros Hs. destruct t as [now draw m]. unfold turn, came_in, dropped_by. cbn [at_ Shard.draw inbox].
  assert (Hq : ∀ new s', shard_ok s' ∧ accounts new s s' → shard_ok s' ∧
    told_any s' ++ dead s' ++ stock s' ++ [] ≡ₚ (told_any s ++ dead s ++ stock s) ++ new.*2 ∧
    ∀ id, sublist (line s' id) (line s id ++ (filter (λ e, e.1 = id) new).*2)).
  { intros new s' (? & Ha & ?). split_and!; [done|rewrite app_nil_r; done|done]. }
  destruct m; cbn [onReceive].
  - by apply Hq, deliver_ok.
  - by apply Hq, onPassivateEntity_ok.
  - by apply Hq, onStartEntities_ok.
  - by apply Hq, startEntity_ok.
  - apply Hq. unfold onGetShardStats. case_match; (split; [by apply emit_ok|by apply accounts_emit]).
  - destruct candidate as [path|]; [|apply Hq; split; [done|apply accounts_refl]]. unfold onPassivate.
    destruct (getKey (entityPaths s) path) as [id|] eqn:Hk; [|apply Hq; split; [done|apply accounts_refl]].
    destruct (key_of_path s path id Hs Hk) as [-> [e He]]. unfold at_key. rewrite He.
    set (s1 := emit _ s). assert (Hs1 : shard_ok s1) by (by apply emit_ok).
    assert (Ha1 : accounts [] s s1) by (by apply accounts_emit).
    set (e' := mkEntityState (ref e) (Some []) (stopTimer e)).
    assert (Hw' : waiting_in (armStopTimeout config e') = [] ∧ ref (armStopTimeout config e') = ref e)
      by (unfold armStopTimeout; by destruct (_ || _)).
    destruct Hw' as [Hw' Href]. destruct (put_entity_ok id e (armStopTimeout config e') (waiting_in e) s1 Hs1 He Href)
      as (Hs2 & Hp & Hl); [by left|]. split_and!; [done| |].
    + destruct Ha1 as [Ha1 _]. set (s2 := put_entity id (armStopTimeout config e') s1) in *.
      trans ((told_any s1 ++ dead s1 ++ stock s2) ++ waiting_in e).
      { change (told_any s2) with (told_any s1). change (dead s2) with (dead s1). solve_Permutation. }
      rewrite <- Hp. exact Ha1.
    + intros id'. cbn. destruct Ha1 as [_ Ha1]. etrans; [apply Hl|]. specialize (Ha1 id'). cbn in Ha1. done.
  - by apply Hq, onEntityTerminated_ok.
  - apply Hq. unfold onEntityStopTimeout. destruct (map_get (entities s) entityId) as [e|] eqn:He;
      [|split; [done|apply accounts_refl]]. destruct (stopTimer e); [|split; [done|apply accounts_refl]].
    destruct (put_entity_quiet entityId e (mkEntityState (ref e) (passivating e) false) s Hs He) as [Hs1 Ha1]; [done..|].
    split; [by apply emit_ok|]. eapply (accounts_trans [] []); [exact Ha1|by apply accounts_emit].
  - by apply Hq, onEntityRestartTick_ok.
  - apply Hq. unfold onShardPassivationRequest. split; [by apply emit_ok|]. apply accounts_emit; by destruct (isIdle now s).
  - apply Hq. split; [by apply emit_ok|by apply accounts_emit].
Qed.

Lemma run_from_ok (turns : list Turn) s : shard_ok s →
  let s' := foldl (turn config) s turns in
  shard_ok s' ∧
  told_any s' ++ dead s' ++ stock s' ++ dropped_from s turns ≡ₚ (told_any s ++ dead s ++ stock s) ++ (turns ≫= came_in).*2 ∧
  ∀ id, sublist (line s' id) (line s id ++ (filter (λ e, e.1 = id) (turns ≫= came_in)).*2).
Proof.
  revert s. induction turns as [|t turns IH]; intros s Hs; cbn [foldl dropped_from].
  { split_and!; [done|by rewrite !app_nil_r|]. intros id. cbn. by rewrite app_nil_r. }
  destruct (turn_ok s t Hs) as (Hs1 & Hp1 & Hl1). destruct (IH _ Hs1) as (Hs2 & Hp2 & Hl2). cbv zeta in Hp2, Hl2.
  split_and!; [done| |].
  - rewrite bind_cons, fmap_app. set (d := dropped_by s t) in *. set (ds := dropped_from (turn config s t) turns) in *.
    trans ((told_any (foldl (turn config) (turn config s t) turns) ++ dead (foldl (turn config) (turn config s t) turns) ++
      stock (foldl (turn config) (turn config s t) turns) ++ ds) ++ d); [solve_Permutation|].
    rewrite Hp2. trans ((told_any (turn config s t) ++ dead (turn config s t) ++ stock (turn config s t) ++ d) ++ (turns ≫= came_in).*2);
      [solve_Permutation|]. rewrite Hp1. solve_Permutation.
  - intros id. rewrite bind_cons, filter_app, fmap_app, app_assoc. etrans; [apply Hl2|]. apply sublist_app; [apply Hl1|done].
Qed.

Lemma idle_stock now s : isIdle now s = true → stock s = [].
Proof.
  unfold isIdle. rewrite andb_true_iff, bool_decide_eq_true, forallb_forall. intros [He Hr]. unfold stock. rewrite He.
  cbn. apply contents_none. intros id r Hin%list_elem_of_In. specialize (Hr (id, r) Hin). cbn in Hr.
  apply negb_true_iff, orb_false_iff in Hr as [_ Hh]. apply orb_false_iff in Hh as [Hh _].
  by apply negb_false_iff, bool_decide_eq_true in Hh.
Qed.

End shard.

(** ** The theorems *)


(** *** The wait of an entity that stopped unasked *)

Section backoff.
Context {Message Sender : Type} (config : ShardConfig).

Implicit Types (s : Shard Message Sender) (r : EntityRestartRecord Message Sender).

(** Absent, and inside its wait or with messages waiting. *)
Definition away (now : float) (id : string) s : Prop :=
  map_get (entities s) id = None ∧ ∃ r, map_get (restarts s) id = Some r ∧ isHeldDown now r = true.

Lemma away_ext now id s s' : away now id s → map_get (entities s') id = map_get (entities s) id →
  map_get (restarts s') id = map_get (restarts s) id → away now id s'.
Proof. intros (Hn & r & Hr & Hh) He Hr'. split; [congruence|]. exists r. split; [congruence|done]. Qed.

Lemma create_other now id id' s : id' ≠ id → away now id s → away now id (createEntity config id' s).
Proof.
  intros Hne Ha. apply (away_ext _ _ s _ Ha); unfold createEntity; cbn.
  - case_match; cbn; rewrite map_get_set, decide_False by congruence; done.
  - case_match; cbn; [rewrite map_get_set, decide_False by congruence|]; done.
Qed.

Lemma start_away now id id' s : away now id s → away now id (startEntity config now id' s).
Proof.
  intros Ha. unfold startEntity. destruct (map_get (entities s) id') eqn:He; [done|].
  destruct (decide (id' = id)) as [->|Hne].
  - destruct Ha as (Hn & r & Hr & Hh). rewrite Hr, Hh. unfold armRestart. destruct (timer r) eqn:Et.
    + split; [done|]. by exists r.
    + split; [done|]. exists (with_timer true r). cbn. rewrite map_get_set, decide_True by done. done.
  - destruct (map_get (restarts s) id') as [r'|]; [destruct (isHeldDown now r')|]; [|by apply create_other..].
    unfold armRestart. destruct (timer r'); [done|]. apply (away_ext _ _ s _ Ha); cbn; [done|].
    by rewrite map_get_set, decide_False by congruence.
Qed.

Lemma starts_away now id (ids : list string) s : away now id s → away now id (onStartEntities config now ids s).
Proof. unfold onStartEntities. revert s. induction ids as [|x ids IH]; intros s Ha; [done|]. by apply IH, start_away. Qed.

(** Delivering to another entity creates no entity but that one. *)
Lemma deliver_other now id id' m sd s : id' ≠ id → map_get (entities s) id = None →
  map_get (entities (deliver config now id' m sd s)) id = None.
Proof.
  intros Hne Hn.
  assert (Ht : ∀ x, map_get (entities x) id = None → map_get (entities (tell_entity id' m sd x)) id = None)
    by (intros x Hx; unfold tell_entity; by case_match).
  assert (Hc : map_get (entities (create_and_tell config now id' m sd s)) id = None).
  { apply Ht. unfold createEntity. cbn. case_match; cbn; rewrite map_get_set, decide_False by congruence; done. }
  unfold deliver. destruct (map_get (entities s) id') as [e|].
  - case_match; [|by apply Ht]. cbn. by rewrite map_get_set, decide_False by congruence.
  - case_match; [|done]. case_match; [|done]. unfold hold, armRestart, warnHoldFull. cbn.
    repeat (case_match; cbn; try done).
Qed.

Lemma deliver_away now id m sd s : away now id s → map_get (entities (deliver config now id m sd s)) id = None.
Proof.
  intros (Hn & r & Hr & Hh). unfold deliver. rewrite Hn, Hr, Hh. unfold hold, armRestart, warnHoldFull. cbn.
  repeat (case_match; cbn; try done).
Qed.

(** A turn other than the end of its own wait leaves the entity away from the
    shard's children. *)
Lemma turn_away s (t : Turn Message Sender) id : shard_ok config s → away (at_ t) id s →
  inbox t ≠ EntityRestartTick id → map_get (entities (turn config s t)) id = None.
Proof.
  intros Hs Ha Ht. pose proof Ha as (Hn & _). destruct t as [now draw m]. unfold turn. cbn [at_ inbox Shard.draw] in *.
  destruct m; cbn [onReceive].
  - destruct (decide (entityId = id)) as [->|Hne]; [by apply deliver_away|by apply deliver_other].
  - unfold onPassivateEntity. destruct (map_get (entities s) entityId) as [e|] eqn:He.
    + destruct (passivating e); [done|]. cbn. rewrite map_get_set, decide_False; [done|congruence].
    + destruct (map_get (restarts s) entityId) as [r|]; [|done]. by destruct (messageSinceStop r).
  - by apply starts_away.
  - by apply start_away.
  - unfold onGetShardStats. by case_match.
  - unfold onPassivate. destruct candidate as [path|]; [|done]. destruct (getKey (entityPaths s) path) as [x|]; [|done].
    destruct (map_get (entities s) x) as [e|] eqn:He; [|done]. cbn. rewrite map_get_set, decide_False; [done|congruence].
  - unfold onEntityTerminated. destruct (getKey (entityPaths s) actor) as [id'|] eqn:Hk; [|done].
    destruct (key_of_path config s actor id' Hs Hk) as [_ [e He]]. assert (id' ≠ id) by congruence.
    set (s1 := emit _ _). assert (H1 : map_get (entities s1) id = None) by (cbn; rewrite map_get_delete; by case_decide).
    clearbody s1. destruct (match map_get (entities s) id' with Some e => passivating e | None => None end) as [pending|].
    + revert s1 H1. induction pending as [|b pending IH]; intros s1 H1; [done|]. by apply IH, deliver_other.
    + unfold backOffEntity. case_match. cbn. repeat case_match; by simplify_eq.
  - unfold onEntityStopTimeout. destruct (map_get (entities s) entityId) as [e|] eqn:He; [|done].
    destruct (stopTimer e); [|done]. cbn. rewrite map_get_set, decide_False; [done|congruence].
  - unfold onEntityRestartTick. destruct (map_get (restarts s) entityId) as [r|]; [|done]. case_match; [done|].
    assert (Hne : entityId ≠ id) by congruence. set (s1 := releaseHeld _ _).
    assert (H1 : map_get (entities s1) id = None) by (unfold s1, releaseHeld; cbn; by case_match).
    clearbody s1. set (s2 := match map_get (entities s1) entityId with Some _ => s1 | None => _ end).
    assert (H2 : map_get (entities s2) id = None).
    { unfold s2. case_match; [done|]. unfold createEntity. cbn. case_match; cbn; rewrite map_get_set, decide_False by congruence; done. }
    clearbody s2. generalize (held r). intros pending. revert s2 H2. induction pending as [|b pending IH]; intros s2 H2; [done|].
    apply IH. unfold tell_entity. by case_match.
  - done.
  - done.
Qed.

End backoff.

(** Whoever stopped unasked stays away: while an entity is inside its backoff,
    or has messages waiting for it, no message, start request, passivation or
    stop of another entity brings it back, in any reachable state; only the
    end of its own wait does. *)
Theorem backoff_is_respected {Message Sender} (config : ShardConfig) (turns : list (Turn Message Sender))
    (t : Turn Message Sender) (id : string) (r : EntityRestartRecord Message Sender) :
  let s := run config turns in
  map_get (entities s) id = None → map_get (restarts s) id = Some r → isHeldDown (at_ t) r = true →
  inbox t ≠ EntityRestartTick id → map_get (entities (turn config s t)) id = None.
Proof.
  intros s Hn Hr Hh Ht. apply turn_away; [|split; [done|by exists r]|done].
  apply (run_from_ok config turns construct (shard_construct_ok config)).
Qed.

(** ** Concrete shards *)

Definition shard_example : ShardConfig := mkShardConfig 3 "/region/shard-3" 0 10 (λ _ _, Fin 100) (Fin 1000).

Definition say (t : Z) (m : ShardInbox string nat) : Turn string nat := mkTurn (Fin (inject_Z t)) (Fin 0) m.
Definition entity_a : string := entity_path shard_example "a".

(** An entity fails at 10, is sent two messages inside its wait, and gets them
    when the wait ends. *)
Example held_then_told :
  let s := run shard_example [say 0 (EntityEnvelope "a" "m1" None); say 10 (Terminated entity_a);
    say 20 (EntityEnvelope "a" "m2" (Some 7%nat)); say 30 (EntityEnvelope "a" "m3" None)] in
  kept s "a" = [("m2", Some 7%nat); ("m3", None)] ∧
  told (turn shard_example s (say 110 (EntityRestartTick "a"))) "a" = [("m1", None); ("m2", Some 7%nat); ("m3", None)].
Proof. vm_compute. done. Qed.

Lemma backoff_is_respected_witness :
  let s := run shard_example [say 0 (EntityEnvelope "a" "m1" None); say 10 (Terminated entity_a)] in
  map_get (entities (turn shard_example s (say 20 (EntityEnvelope "a" "m2" None)))) "a" = None.
Proof.
  eapply (backoff_is_respected shard_example [say 0 (EntityEnvelope "a" "m1" None); say 10 (Terminated entity_a)]
    (say 20 (EntityEnvelope "a" "m2" None)) "a"); [vm_compute; reflexivity|vm_compute; reflexivity|vm_compute; reflexivity|].
  discriminate.
Defined.

(** An entity that asks twice to be passivated loses what came in between:
    the message is told to nobody, is in no dead letter and is not kept. *)
Theorem second_passivation_loses_messages :
  let s := run shard_example [say 0 (EntityEnvelope "a" "m1" None); say 1 (Passivate "stop" (Some entity_a));
    say 2 (EntityEnvelope "a" "m2" None); say 3 (Passivate "stop" (Some entity_a)); say 4 (Terminated entity_a)] in
  told_any s = [("m1", None)] ∧ dead s = [] ∧ stock s = [].
Proof. vm_compute. done. Qed.

(** A shard that stops while an entity is passivating dead-letters what other
    entities were waiting for, and not what that one was sent. *)
Theorem stopping_shard_loses_passivation_buffer :
  let s := postStop (run shard_example [say 0 (EntityEnvelope "a" "m1" None); say 0 (EntityEnvelope "b" "n1" None);
    say 1 (Passivate "stop" (Some entity_a)); say 2 (EntityEnvelope "a" "m2" None);
    say 3 (Terminated (entity_path shard_example "b")); say 4 (EntityEnvelope "b" "n2" None)]) in
  told_any s = [("m1", None); ("n1", None)] ∧ dead s = [("n2", None)] ∧ contents held (restarts s) = [].
Proof. vm_compute. done. Qed.
