(* ===== verification/ShardRegion.v ===== *)
(** * A shard region: [src/cluster/sharding/ShardRegion.ts]

    The actor that routes every message of one sharded type on one node: to a
    shard it hosts, to the region that hosts it, or into a buffer until the
    coordinator says where the shard lives.  It takes shards and gives them up
    on the coordinator's word, keeps the index of its entities, and answers
    for what it relays.

    A handler is a function on the state; what leaves the region is logged in
    [effects].  The fields are grouped by concern.  Each shard actor is its
    path; a coordinator is a local ref or a node.  A handler reads the clocks
    once.  Left out: logging but for the one line that is all a message leaves
    behind, metrics, malformed addresses and shard ids that are no integers,
    which the coordinator's frames do not carry, and user functions that
    throw. *)

From Stdlib Require Import Ascii String.
From stdpp Require Import pretty.
From S2P Require Import Prelude Float Backoff Member BidirectionalMap ShardAllocation ShardAllocator Passivation.
Import Backoff NodeAddress.

Local Open Scope Z_scope.

(** ** Paths *)

Definition shardName (shardId : Z) : string := "shard-" +:+ pretty shardId.
Definition shardPath (regionPath : string) (shardId : Z) : string := regionPath +:+ "/" +:+ shardName shardId.

Definition digit_of (a : ascii) : option Z :=
  let n := Z.of_N (N_of_ascii a) - 48 in if (0 <=? n) && (n <=? 9) then Some n else None.

(** The longest run of digits, its value, and what follows. *)
Fixpoint digits_of (s : string) (acc : option Z) : option Z * string :=
  match s with
  | String a rest => match digit_of a with
                     | Some d => digits_of rest (Some (default 0 acc * 10 + d))
                     | None => (acc, s)
                     end
  | EmptyString => (acc, s)
  end.

(** The match of [/\/shard-(\d+)(?:\/|$)/] at the start of [s]. *)
Definition shard_match_here (s : string) : option Z :=
  if String.prefix "/shard-" s then
    match digits_of (String.substring 7 (String.length s - 7) s) None with
    | (Some n, EmptyString) => Some n
    | (Some n, String "/" _) => Some n
    | _ => None
    end
  else None.

Fixpoint shardIdFromEntityPath (path : string) : option Z :=
  match shard_match_here path with
  | Some n => Some n
  | None => match path with String _ rest => shardIdFromEntityPath rest | EmptyString => None end
  end.

Example path_shard : (shardIdFromEntityPath "/system/region-t/shard-17/entity-a", shardIdFromEntityPath "/shard-x/shard-2",
  shardIdFromEntityPath "/shard-2b") = (Some 17, Some 2, None).
Proof. reflexivity. Qed.

Section region.
(** [Message] is what callers send to entities, [Ref] any other actor ref. *)
Context {Message Ref : Type}.

(** ** Data *)

(** [ShardSenderRef] answers through the region that relayed a message. *)
Inductive Sender : Type :=
| PlainRef (ref : Ref)
| ShardSenderRef (originNode : NodeAddress) (originRegion : string) (correlationId : Z).

(** [RoutableMessage]: a message of the type, or an entity envelope. *)
Inductive Routable : Type :=
| Bare (message : Message)
| EntityEnvelope (entityId : string) (message : Message).

Definition Item : Type := Routable * option Sender.

Inductive ShardState := owned | handing_off | passivating_ | backing_off.
#[export] Instance ShardState_eq_dec : EqDecision ShardState.
Proof. solve_decision. Defined.

(** [recordId] stands for the object's identity. *)
Record ShardFailureRecord := mkFailure {
  recordId : nat;
  attempts : Z;
  upSince : option Z;
  timer : bool;
}.

Record EntityActivity := mkActivity { activity_shardId : Z; lastActivity : Z }.

Record PendingQueryCaller := mkCaller { asker : Sender; expireAt : Z }.
Record PendingStatsQuery := mkStatsQuery { caller : PendingQueryCaller; timeoutMs : Z }.

Inductive CoordinatorRef := LocalCoordinator | RemoteCoordinator (node : NodeAddress).

Record ShardLocation := mkLocation {
  location_shardId : Z;
  location_node : NodeAddress;
  location_regionPath : string;
  location_entityCount : Z;
  location_resident : bool;
}.

(** What [shardRef] hands out. *)
Inductive ShardRef :=
| LocalShardRef (path : string)
| RelayedShardRef (shardId : Z)
| RemoteShardRef (node : NodeAddress) (regionPath : string) (shardId : Z).

Record ShardInfo := mkInfo { info : ShardLocation; info_local : bool; info_ref : ShardRef }.

(** To the coordinator. *)
Inductive CoordinatorMessage :=
| RegisterRegion (hostedShards : list Z)
| GetShardHome (shardId : Z)
| BeginHandOffAcknowledgment (shardId : Z)
| HandOffComplete (shardId : Z)
| RegionTerminated
| RegionHeartbeat
| RelayEntityStarted (shardId : Z) (entityId : string)
| RelayEntityStopped (shardId : Z) (entityId : string)
| GetRememberedEntities (shardId : Z)
| GetClusterShardingStats (correlationId timeoutMs : Z).

(** To a shard actor. *)
Inductive ShardCommand :=
| Deliver (entityId : string) (message : Message)
| PassivateEntity (entityId : string)
| StartEntities (entityIds : list string)
| StartEntity (entityId : string)
| ShardPassivationRequest
| ForwardedPassivate (stopMessage : Message)
| OtherShardMessage (message : Message).

Inductive ClusterEvent :=
| ShardRegionRegistered
| ShardRegionRegistrationRefused (regionNumShards numShards : Z)
| ShardMapChanged (shards : list (Z * string)) (version : Z).

Inductive Effect : Type :=
| TellShard (shardId : Z) (path : string) (command : ShardCommand) (sender : option Sender)
| SpawnShard (shardId : Z) (path : string)
| StopShard (shardId : Z) (path : string)
| SendBare (node : NodeAddress) (regionPath : string) (message : Routable)
| SendEnvelope (node : NodeAddress) (regionPath : string) (message : Routable)
    (originNode : NodeAddress) (originRegion : string) (correlationId : Z)
| TellCoordinator (to : CoordinatorRef) (authenticated : bool) (message : CoordinatorMessage)
| DeadLetter (message : Routable) (sender : option Sender)
| DeadShardMessage (message : Message) (sender : option Sender)
| WarnProxyGotShard (entityId : string) (message : Message)
| Reply (to : Sender) (message : Message)
| AnswerShards (to : Sender) (infos : list ShardInfo)
| AnswerLocation (to : Sender) (ref : ShardRef)
| AnswerRangeError (to : Sender) (shardId : Z)
| SendRegionStats (requester : string) (requesterNode : NodeAddress) (queryId : Z) (stats : list (Z * Z * bool))
| Publish (event : ClusterEvent)
| RegistrationLost
| RegistrationRefusalLapsed
| ArmRespawn (shardId : Z) (recordId : nat) (delayMs : float)
| Unhandled.

Record ShardRegionConfig := mkRegionConfig {
  self_path : string;
  selfAddress : NodeAddress;
  numShards : Z;
  proxy : bool;
  rememberEntities : bool;
  passivationIdleMs : Z;
  shardPassivationIdleMs : Z;
  strategyConfig : PassivationStrategyConfig;
  bufferSize : Z;
  constantRate : bool;
  entityRecoveryNumberOfEntities : Z;
  shardFailureBackoff : BackoffPolicy;
  shardFailureBackoffResetAfterMs : Z;
  asksTtlMs : Z;
  extractEntityId : Message → string;
  extractEntityMessage : Message → Message;
}.

(** What a handler reads around it: the leader, whether the coordinator's path
    resolves on this node, the clocks, and a draw. *)
Record View := mkView {
  leader : option NodeAddress;
  coordinatorHere : bool;
  clock_now : Z;
  Date_now : Z;
  draw : float;
}.

(** Who hosts which shard; [nextRecord] numbers the failure records, which are compared as objects. *)
Record Ownership := mkOwnership {
  shardHomes : list (Z * string);
  shardHomeNodes : list (Z * NodeAddress);
  localShards : list Z;
  shardState : list (Z * ShardState);
  shards : list (Z * string);
  handingOff : list Z;
  passivatingShards : list Z;
  releasingShards : list Z;
  handOffsAwaitingRelease : list Z;
  shardFailures : list (Z * ShardFailureRecord);
  nextRecord : nat;
}.

(** The entities of the shards hosted here, and the recovery of remembered ones. *)
Record Residents := mkResidents {
  shardEmptySince : list (Z * Z);
  shardEntities : list (Z * list string);
  entityActivity : list (string * EntityActivity);
  passivationStrategy : option (CompositePassivationStrategy MainRegion);
  passivating : list string;
  entityRecoveryQueue : list (Z * string);
  entityRecoveryHead : nat;
  entityRecoveryQueued : list string;
  entityRecoveryTimer : bool;
  registriesHeldThroughPassivation : list (Z * list string);
}.

(** What waits for a shard. *)
Record Routing := mkRouting {
  buffer : list (Z * list Item);
  bufferedCount : Z;
  warnedBufferFull : bool;
}.

(** The coordinator this region talks to. *)
Record Registration := mkRegistration {
  coordinatorRef : option CoordinatorRef;
  coordinatorNode : option NodeAddress;
  registerTimer : bool;
  registerRefused : bool;
  registrationAnnounced : bool;
}.

(** Answers this region owes. *)
Record Asks := mkAsks {
  pendingAsks : list (Z * (Sender * Z));
  nextCorrelation : Z;
  pendingStatsAsks : list (Z * PendingStatsQuery);
  nextStatsCorrelation : Z;
  pendingLocationAsks : list (Z * list PendingQueryCaller);
}.

Record ShardRegion := mkRegion {
  own : Ownership;
  ents : Residents;
  routing : Routing;
  registration : Registration;
  asks : Asks;
  effects : list Effect;
}.

Implicit Types (c : ShardRegion).

(** Assignments to one field. *)
Definition set_own (x : Ownership) c : ShardRegion := mkRegion x (ents c) (routing c) (registration c) (asks c)
    (effects c).
Definition set_ents (x : Residents) c : ShardRegion := mkRegion (own c) x (routing c) (registration c) (asks c)
    (effects c).
Definition set_routing (x : Routing) c : ShardRegion := mkRegion (own c) (ents c) x (registration c) (asks c) (effects
    c).
Definition set_registration (x : Registration) c : ShardRegion := mkRegion (own c) (ents c) (routing c) x (asks c)
    (effects c).
Definition set_asks (x : Asks) c : ShardRegion := mkRegion (own c) (ents c) (routing c) (registration c) x (effects
    c).
Definition emit (e : Effect) c : ShardRegion := mkRegion (own c) (ents c) (routing c) (registration c) (asks c)
    (effects c ++ [e]).
Definition set_shardHomes (x : list (Z * string)) c : ShardRegion := let o := own c in set_own (mkOwnership x
    (shardHomeNodes o) (localShards o) (shardState o) (shards o) (handingOff o) (passivatingShards o) (releasingShards
    o) (handOffsAwaitingRelease o) (shardFailures o) (nextRecord o)) c.
Definition set_shardHomeNodes (x : list (Z * NodeAddress)) c : ShardRegion := let o := own c in set_own (mkOwnership
    (shardHomes o) x (localShards o) (shardState o) (shards o) (handingOff o) (passivatingShards o) (releasingShards
    o) (handOffsAwaitingRelease o) (shardFailures o) (nextRecord o)) c.
Definition set_localShards (x : list Z) c : ShardRegion := let o := own c in set_own (mkOwnership (shardHomes o)
    (shardHomeNodes o) x (shardState o) (shards o) (handingOff o) (passivatingShards o) (releasingShards o)
    (handOffsAwaitingRelease o) (shardFailures o) (nextRecord o)) c.
Definition set_shardState (x : list (Z * ShardState)) c : ShardRegion := let o := own c in set_own (mkOwnership
    (shardHomes o) (shardHomeNodes o) (localShards o) x (shards o) (handingOff o) (passivatingShards o)
    (releasingShards o) (handOffsAwaitingRelease o) (shardFailures o) (nextRecord o)) c.
Definition set_shards (x : list (Z * string)) c : ShardRegion := let o := own c in set_own (mkOwnership (shardHomes o)
    (shardHomeNodes o) (localShards o) (shardState o) x (handingOff o) (passivatingShards o) (releasingShards o)
    (handOffsAwaitingRelease o) (shardFailures o) (nextRecord o)) c.
Definition set_handingOff (x : list Z) c : ShardRegion := let o := own c in set_own (mkOwnership (shardHomes o)
    (shardHomeNodes o) (localShards o) (shardState o) (shards o) x (passivatingShards o) (releasingShards o)
    (handOffsAwaitingRelease o) (shardFailures o) (nextRecord o)) c.
Definition set_passivatingShards (x : list Z) c : ShardRegion := let o := own c in set_own (mkOwnership (shardHomes o)
    (shardHomeNodes o) (localShards o) (shardState o) (shards o) (handingOff o) x (releasingShards o)
    (handOffsAwaitingRelease o) (shardFailures o) (nextRecord o)) c.
Definition set_releasingShards (x : list Z) c : ShardRegion := let o := own c in set_own (mkOwnership (shardHomes o)
    (shardHomeNodes o) (localShards o) (shardState o) (shards o) (handingOff o) (passivatingShards o) x
    (handOffsAwaitingRelease o) (shardFailures o) (nextRecord o)) c.
Definition set_handOffsAwaitingRelease (x : list Z) c : ShardRegion := let o := own c in set_own (mkOwnership
    (shardHomes o) (shardHomeNodes o) (localShards o) (shardState o) (shards o) (handingOff o) (passivatingShards o)
    (releasingShards o) x (shardFailures o) (nextRecord o)) c.
Definition set_shardFailures (x : list (Z * ShardFailureRecord)) c : ShardRegion := let o := own c in set_own
    (mkOwnership (shardHomes o) (shardHomeNodes o) (localShards o) (shardState o) (shards o) (handingOff o)
    (passivatingShards o) (releasingShards o) (handOffsAwaitingRelease o) x (nextRecord o)) c.
Definition set_shardEmptySince (x : list (Z * Z)) c : ShardRegion := let o := ents c in set_ents (mkResidents x
    (shardEntities o) (entityActivity o) (passivationStrategy o) (passivating o) (entityRecoveryQueue o)
    (entityRecoveryHead o) (entityRecoveryQueued o) (entityRecoveryTimer o) (registriesHeldThroughPassivation o)) c.
Definition set_shardEntities (x : list (Z * list string)) c : ShardRegion := let o := ents c in set_ents (mkResidents
    (shardEmptySince o) x (entityActivity o) (passivationStrategy o) (passivating o) (entityRecoveryQueue o)
    (entityRecoveryHead o) (entityRecoveryQueued o) (entityRecoveryTimer o) (registriesHeldThroughPassivation o)) c.
Definition set_entityActivity (x : list (string * EntityActivity)) c : ShardRegion := let o := ents c in set_ents
    (mkResidents (shardEmptySince o) (shardEntities o) x (passivationStrategy o) (passivating o) (entityRecoveryQueue
    o) (entityRecoveryHead o) (entityRecoveryQueued o) (entityRecoveryTimer o) (registriesHeldThroughPassivation o))
    c.
Definition set_passivationStrategy (x : option (CompositePassivationStrategy MainRegion)) c : ShardRegion := let o :=
    ents c in set_ents (mkResidents (shardEmptySince o) (shardEntities o) (entityActivity o) x (passivating o)
    (entityRecoveryQueue o) (entityRecoveryHead o) (entityRecoveryQueued o) (entityRecoveryTimer o)
    (registriesHeldThroughPassivation o)) c.
Definition set_passivating (x : list string) c : ShardRegion := let o := ents c in set_ents (mkResidents
    (shardEmptySince o) (shardEntities o) (entityActivity o) (passivationStrategy o) x (entityRecoveryQueue o)
    (entityRecoveryHead o) (entityRecoveryQueued o) (entityRecoveryTimer o) (registriesHeldThroughPassivation o)) c.
Definition set_entityRecoveryQueue (x : list (Z * string)) c : ShardRegion := let o := ents c in set_ents (mkResidents
    (shardEmptySince o) (shardEntities o) (entityActivity o) (passivationStrategy o) (passivating o) x
    (entityRecoveryHead o) (entityRecoveryQueued o) (entityRecoveryTimer o) (registriesHeldThroughPassivation o)) c.
Definition set_entityRecoveryHead (x : nat) c : ShardRegion := let o := ents c in set_ents (mkResidents
    (shardEmptySince o) (shardEntities o) (entityActivity o) (passivationStrategy o) (passivating o)
    (entityRecoveryQueue o) x (entityRecoveryQueued o) (entityRecoveryTimer o) (registriesHeldThroughPassivation o))
    c.
Definition set_entityRecoveryQueued (x : list string) c : ShardRegion := let o := ents c in set_ents (mkResidents
    (shardEmptySince o) (shardEntities o) (entityActivity o) (passivationStrategy o) (passivating o)
    (entityRecoveryQueue o) (entityRecoveryHead o) x (entityRecoveryTimer o) (registriesHeldThroughPassivation o)) c.
Definition set_entityRecoveryTimer (x : bool) c : ShardRegion := let o := ents c in set_ents (mkResidents
    (shardEmptySince o) (shardEntities o) (entityActivity o) (passivationStrategy o) (passivating o)
    (entityRecoveryQueue o) (entityRecoveryHead o) (entityRecoveryQueued o) x (registriesHeldThroughPassivation o)) c.
Definition set_registriesHeldThroughPassivation (x : list (Z * list string)) c : ShardRegion := let o := ents c in
    set_ents (mkResidents (shardEmptySince o) (shardEntities o) (entityActivity o) (passivationStrategy o)
    (passivating o) (entityRecoveryQueue o) (entityRecoveryHead o) (entityRecoveryQueued o) (entityRecoveryTimer o) x)
    c.
Definition set_buffer (x : list (Z * list Item)) c : ShardRegion := let o := routing c in set_routing (mkRouting x
    (bufferedCount o) (warnedBufferFull o)) c.
Definition set_bufferedCount (x : Z) c : ShardRegion := let o := routing c in set_routing (mkRouting (buffer o) x
    (warnedBufferFull o)) c.
Definition set_warnedBufferFull (x : bool) c : ShardRegion := let o := routing c in set_routing (mkRouting (buffer o)
    (bufferedCount o) x) c.
Definition set_coordinatorRef (x : option CoordinatorRef) c : ShardRegion := let o := registration c in
    set_registration (mkRegistration x (coordinatorNode o) (registerTimer o) (registerRefused o)
    (registrationAnnounced o)) c.
Definition set_coordinatorNode (x : option NodeAddress) c : ShardRegion := let o := registration c in set_registration
    (mkRegistration (coordinatorRef o) x (registerTimer o) (registerRefused o) (registrationAnnounced o)) c.
Definition set_registerTimer (x : bool) c : ShardRegion := let o := registration c in set_registration (mkRegistration
    (coordinatorRef o) (coordinatorNode o) x (registerRefused o) (registrationAnnounced o)) c.
Definition set_registerRefused (x : bool) c : ShardRegion := let o := registration c in set_registration
    (mkRegistration (coordinatorRef o) (coordinatorNode o) (registerTimer o) x (registrationAnnounced o)) c.
Definition set_registrationAnnounced (x : bool) c : ShardRegion := let o := registration c in set_registration
    (mkRegistration (coordinatorRef o) (coordinatorNode o) (registerTimer o) (registerRefused o) x) c.
Definition set_pendingAsks (x : list (Z * (Sender * Z))) c : ShardRegion := let o := asks c in set_asks (mkAsks x
    (nextCorrelation o) (pendingStatsAsks o) (nextStatsCorrelation o) (pendingLocationAsks o)) c.
Definition set_nextCorrelation (x : Z) c : ShardRegion := let o := asks c in set_asks (mkAsks (pendingAsks o) x
    (pendingStatsAsks o) (nextStatsCorrelation o) (pendingLocationAsks o)) c.
Definition set_pendingStatsAsks (x : list (Z * PendingStatsQuery)) c : ShardRegion := let o := asks c in set_asks
    (mkAsks (pendingAsks o) (nextCorrelation o) x (nextStatsCorrelation o) (pendingLocationAsks o)) c.
Definition set_nextStatsCorrelation (x : Z) c : ShardRegion := let o := asks c in set_asks (mkAsks (pendingAsks o)
    (nextCorrelation o) (pendingStatsAsks o) x (pendingLocationAsks o)) c.
Definition set_pendingLocationAsks (x : list (Z * list PendingQueryCaller)) c : ShardRegion := let o := asks c in
    set_asks (mkAsks (pendingAsks o) (nextCorrelation o) (pendingStatsAsks o) (nextStatsCorrelation o) x) c.

Definition construct : ShardRegion :=
  mkRegion (mkOwnership [] [] [] [] [] [] [] [] [] [] 0)
    (mkResidents [] [] [] None [] [] 0 [] false []) (mkRouting [] 0 false)
    (mkRegistration None None false false false) (mkAsks [] 0 [] 0 []) [].

Context (config : ShardRegionConfig) (v : View).

Implicit Types (shardId : Z) (entityId : string) (message : Routable) (sender : option Sender).

(** ** The coordinator *)

Definition tellCoordinatorRef (ref : CoordinatorRef) (m : CoordinatorMessage) c : ShardRegion :=
  let here := match coordinatorNode (registration c) with
              | Some node => equals node (selfAddress config)
              | None => false
              end in
  emit (TellCoordinator ref here m) c.

Definition scheduleRegisterRetry c : ShardRegion := set_registerTimer true c.

(** [register] with the ref [ensureRegistered] has just set. *)
Definition register (ref : CoordinatorRef) c : ShardRegion :=
  let c := tellCoordinatorRef ref (RegisterRegion (localShards (own c))) c in
  let c := foldl (λ c shardId, if registerRefused (registration c) then c
                               else tellCoordinatorRef ref (GetShardHome shardId) c) c (buffer (routing c)).*1 in
  scheduleRegisterRetry c.

Definition ensureRegistered c : ShardRegion :=
  match leader v with
  | None => scheduleRegisterRetry c
  | Some node =>
      let c := set_coordinatorNode (Some node) c in
      let found := if equals node (selfAddress config)
                   then if coordinatorHere v then Some LocalCoordinator else None
                   else Some (RemoteCoordinator node) in
      match found with
      | None => scheduleRegisterRetry c
      | Some ref =>
          let c := set_coordinatorRef (Some ref) c in
          if registerRefused (registration c) then c else register ref c
      end
  end.

Definition tellCoordinator (m : CoordinatorMessage) c : ShardRegion :=
  match coordinatorRef (registration c) with
  | None => ensureRegistered c
  | Some ref => tellCoordinatorRef ref m c
  end.

Definition askCoordinator shardId c : ShardRegion :=
  if registerRefused (registration c) then c else tellCoordinator (GetShardHome shardId) c.

(** The beat of [staleRegionDetection]. *)
Definition sendRegionHeartbeat c : ShardRegion :=
  match coordinatorRef (registration c) with
  | Some ref => if registerRefused (registration c) then c else tellCoordinatorRef ref RegionHeartbeat c
  | None => c
  end.

Definition tellCoordinatorTerminated c : ShardRegion :=
  match coordinatorRef (registration c) with
  | Some ref => tellCoordinatorRef ref RegionTerminated c
  | None => c
  end.

(** ** Shard actors *)

Definition shardCannotTakeMessages shardId c : bool :=
  match map_get (shardState (own c)) shardId with
  | Some handing_off | Some passivating_ | Some backing_off => true
  | _ => false
  end.

Definition ensureShard shardId c : ShardRegion * string :=
  match map_get (shards (own c)) shardId with
  | Some path => (c, path)
  | None =>
      let path := shardPath (self_path config) shardId in
      let c := emit (SpawnShard shardId path) c in
      let c := set_shards (map_set (shards (own c)) shardId path) c in
      (set_shardEmptySince (map_set (shardEmptySince (ents c)) shardId (Date_now v)) c, path)
  end.

(** [this.ensureShard(shardId).tell(command, sender)]. *)
Definition tellEnsured shardId (command : ShardCommand) sender c : ShardRegion :=
  let '(c, path) := ensureShard shardId c in emit (TellShard shardId path command sender) c.

Definition dropShardFailure shardId c : ShardRegion :=
  set_shardFailures (map_delete (shardFailures (own c)) shardId) c.

(** ** Entities *)

Definition strategy_remove entityId c : ShardRegion :=
  set_passivationStrategy ((λ s, (Composite.remove_ s entityId).1) <$> passivationStrategy (ents c)) c.

Definition requestPassivation entityId shardId c : ShardRegion :=
  let c := strategy_remove entityId c in
  match map_get (shards (own c)) shardId with
  | None => c
  | Some path =>
      let c := set_passivating (set_add (passivating (ents c)) entityId) c in
      emit (TellShard shardId path (PassivateEntity entityId) None) c
  end.

Definition admitEntity shardId entityId c : ShardRegion :=
  match passivationStrategy (ents c) with
  | None => c
  | Some s =>
      let '(s, victim) := Composite.admit_ s entityId in
      let c := set_passivationStrategy (Some s) c in
      match victim with
      | None => c
      | Some victim =>
          let victimShard := match map_get (entityActivity (ents c)) victim with
                             | Some a => activity_shardId a
                             | None => shardId
                             end in
          requestPassivation victim victimShard c
      end
  end.

Definition recordActivity shardId entityId c : ShardRegion :=
  if set_has (passivating (ents c)) entityId then c
  else match map_get (entityActivity (ents c)) entityId with
       | None =>
           let c := admitEntity shardId entityId c in
           let c := set_entityActivity (map_set (entityActivity (ents c)) entityId (mkActivity shardId (Date_now v))) c in
           set_entityRecoveryQueued (set_delete (entityRecoveryQueued (ents c)) entityId) c
       | Some existing =>
           let c := set_entityActivity
             (map_set (entityActivity (ents c)) entityId (mkActivity (activity_shardId existing) (Date_now v))) c in
           set_passivationStrategy ((λ s, Composite.touch_ s entityId) <$> passivationStrategy (ents c)) c
       end.

Definition forget_entity c entityId : ShardRegion :=
  let c := set_entityActivity (map_delete (entityActivity (ents c)) entityId) c in
  let c := set_passivating (set_delete (passivating (ents c)) entityId) c in
  strategy_remove entityId c.

Definition entities_of shardId c : list string := default [] (map_get (shardEntities (ents c)) shardId).

Definition forgetShardEntities shardId c : ShardRegion :=
  let c := foldl forget_entity c (entities_of shardId c) in
  let c := set_shardEntities (map_delete (shardEntities (ents c)) shardId) c in
  set_shardEmptySince (map_delete (shardEmptySince (ents c)) shardId) c.

(** ** Routing *)

Definition warnBufferFull c : ShardRegion := if warnedBufferFull (routing c) then c else set_warnedBufferFull true c.

Definition bufferShard shardId message sender c : ShardRegion :=
  if bufferedCount (routing c) >=? bufferSize config
  then emit (DeadLetter message sender) (warnBufferFull c)
  else
    let queue := default [] (map_get (buffer (routing c)) shardId) in
    let c := set_buffer (map_set (buffer (routing c)) shardId (queue ++ [(message, sender)])) c in
    set_bufferedCount (bufferedCount (routing c) + 1) c.

Definition registerPendingAsk (sender : Sender) c : ShardRegion * Z :=
  let id := nextCorrelation (asks c) + 1 in
  let c := set_nextCorrelation id c in
  (set_pendingAsks (map_set (pendingAsks (asks c)) id (sender, clock_now v + asksTtlMs config)) c, id).

Definition deliverLocal shardId entityId (entityMessage : Message) sender c : ShardRegion :=
  if proxy config then emit (WarnProxyGotShard entityId entityMessage) c
  else tellEnsured shardId (Deliver entityId entityMessage) sender (recordActivity shardId entityId c).

Definition deliverRemote (node : NodeAddress) (path : string) message sender c : ShardRegion :=
  match sender with
  | None => emit (SendBare node path message) c
  | Some (ShardSenderRef originNode originRegion correlationId) =>
      emit (SendEnvelope node path message originNode originRegion correlationId) c
  | Some sender =>
      let '(c, id) := registerPendingAsk sender c in
      emit (SendEnvelope node path message (selfAddress config) (self_path config) id) c
  end.

Definition route entityId (entityMessage : Message) message sender c : ShardRegion :=
  let shardId := hashShardId entityId (numShards config) in
  if shardCannotTakeMessages shardId c then bufferShard shardId message sender c
  else match map_get (shardHomes (own c)) shardId with
       | None => askCoordinator shardId (bufferShard shardId message sender c)
       | Some ownerPath =>
           if set_has (localShards (own c)) shardId then deliverLocal shardId entityId entityMessage sender c
           else match map_get (shardHomeNodes (own c)) shardId with
                | None => askCoordinator shardId (bufferShard shardId message sender c)
                | Some node => deliverRemote node ownerPath message sender c
                end
       end.

(** The entity and the message it is to receive. *)
Definition extract message : string * Message :=
  match message with
  | EntityEnvelope entityId m => (entityId, m)
  | Bare m => (extractEntityId config m, extractEntityMessage config m)
  end.

Definition routeMessage message sender c : ShardRegion :=
  let '(entityId, entityMessage) := extract message in route entityId entityMessage message sender c.

Definition flushBuffer shardId c : ShardRegion :=
  match map_get (buffer (routing c)) shardId with
  | None | Some [] => c
  | Some queue =>
      let c := set_buffer (map_delete (buffer (routing c)) shardId) c in
      let c := set_bufferedCount (bufferedCount (routing c) - Z.of_nat (length queue)) c in
      let c := foldl (λ c (b : Item), routeMessage b.1 b.2 c) c queue in
      if bufferedCount (routing c) =? 0 then set_warnedBufferFull false c else c
  end.

(** ** Refs and queries *)

Definition shardRef shardId (node : NodeAddress) (regionPath : string) c : ShardRegion * ShardRef :=
  let remote := RemoteShardRef node regionPath shardId in
  if equals node (selfAddress config) then
    let mine := set_has (localShards (own c)) shardId && negb (proxy config) in
    if mine && shardCannotTakeMessages shardId c then (c, RelayedShardRef shardId)
    else match map_get (shards (own c)) shardId with
         | Some path => (c, LocalShardRef path)
         | None => if mine then let '(c, path) := ensureShard shardId c in (c, LocalShardRef path) else (c, remote)
         end
  else (c, remote).

Definition knownShardRef shardId c : ShardRegion * option ShardRef :=
  match map_get (shardHomes (own c)) shardId, map_get (shardHomeNodes (own c)) shardId with
  | Some regionPath, Some node => let '(c, ref) := shardRef shardId node regionPath c in (c, Some ref)
  | _, _ => (c, None)
  end.

Definition flushLocationAsks shardId c : ShardRegion :=
  match map_get (pendingLocationAsks (asks c)) shardId with
  | None => c
  | Some waiting =>
      match knownShardRef shardId c with
      | (c, None) => c
      | (c, Some ref) =>
          let c := set_pendingLocationAsks (map_delete (pendingLocationAsks (asks c)) shardId) c in
          foldl (λ c w, emit (AnswerLocation (asker w) ref) c) c waiting
      end
  end.

Definition isShardIdInRange shardId : bool := (0 <=? shardId) && (shardId <? numShards config).

Definition onGetShardLocation shardId sender c : ShardRegion :=
  match sender with
  | None => c
  | Some asker =>
      if negb (isShardIdInRange shardId) then emit (AnswerRangeError asker shardId) c
      else match knownShardRef shardId c with
           | (c, Some ref) => emit (AnswerLocation asker ref) c
           | (c, None) =>
               let waiting := default [] (map_get (pendingLocationAsks (asks c)) shardId) in
               let w := mkCaller asker (clock_now v + asksTtlMs config) in
               askCoordinator shardId
                 (set_pendingLocationAsks (map_set (pendingLocationAsks (asks c)) shardId (waiting ++ [w])) c)
           end
  end.

Definition askCoordinatorForStats (correlationId timeout : Z) c : ShardRegion :=
  tellCoordinator (GetClusterShardingStats correlationId timeout) c.

Definition onGetShards (timeout : Z) sender c : ShardRegion :=
  match sender with
  | None => c
  | Some asker =>
      let id := nextStatsCorrelation (asks c) + 1 in
      let c := set_nextStatsCorrelation id c in
      let q := mkStatsQuery (mkCaller asker (clock_now v + asksTtlMs config)) timeout in
      askCoordinatorForStats id timeout (set_pendingStatsAsks (map_set (pendingStatsAsks (asks c)) id q) c)
  end.

Definition toShardInfo (l : ShardLocation) c : ShardRegion * ShardInfo :=
  let '(c, ref) := shardRef (location_shardId l) (location_node l) (location_regionPath l) c in
  (c, mkInfo l (equals (location_node l) (selfAddress config)) ref).

Definition onClusterShardingStats (correlationId : Z) (locations : list ShardLocation) c : ShardRegion :=
  match map_get (pendingStatsAsks (asks c)) correlationId with
  | None => c
  | Some pending =>
      let c := set_pendingStatsAsks (map_delete (pendingStatsAsks (asks c)) correlationId) c in
      let '(c, infos) := foldl (λ '(c, infos) l, let '(c, i) := toShardInfo l c in (c, infos ++ [i])) (c, []) locations in
      emit (AnswerShards (asker (caller pending)) infos) c
  end.

Definition onGetShardRegionStats (queryId : Z) (requester : string) (requesterNode : NodeAddress) c : ShardRegion :=
  let stats := (λ s, (s, Z.of_nat (length (entities_of s c)), map_has (shards (own c)) s)) <$> localShards (own c) in
  emit (SendRegionStats requester requesterNode queryId stats) c.

Definition onShardReply (correlationId : Z) (message : Message) c : ShardRegion :=
  match map_get (pendingAsks (asks c)) correlationId with
  | None => c
  | Some (sender, _) =>
      emit (Reply sender message) (set_pendingAsks (map_delete (pendingAsks (asks c)) correlationId) c)
  end.

Definition onAsksSweepTick c : ShardRegion :=
  let now := clock_now v in
  let c := set_pendingAsks (filter (λ e, ¬ e.2.2 ≤ now) (pendingAsks (asks c))) c in
  let c := set_pendingStatsAsks (filter (λ e, now < expireAt (caller e.2)) (pendingStatsAsks (asks c))) c in
  set_pendingLocationAsks
    (omap (λ e, let live := filter (λ w, now < expireAt w) e.2 in
                if (length live =? length e.2)%nat then Some e
                else if bool_decide (live = []) then None else Some (e.1, live)) (pendingLocationAsks (asks c))) c.

(** ** Giving shards up *)

Definition tellHandOffComplete shardId c : ShardRegion := tellCoordinator (HandOffComplete shardId) c.

Definition release_shard c (e : Z * string) : ShardRegion :=
  let '(shardId, path) := e in
  let c := set_handingOff (set_delete (handingOff (own c)) shardId) c in
  let c := set_passivatingShards (set_delete (passivatingShards (own c)) shardId) c in
  let c := set_releasingShards (set_add (releasingShards (own c)) shardId) c in
  emit (StopShard shardId path) (forgetShardEntities shardId c).

Definition releaseEverything c : ShardRegion :=
  let c := set_shardHomes [] c in
  let c := set_shardHomeNodes [] c in
  let c := set_localShards [] c in
  let c := set_shardState [] c in
  let c := set_registriesHeldThroughPassivation [] c in
  let c := foldl (λ c shardId, dropShardFailure shardId c) c (shardFailures (own c)).*1 in
  foldl release_shard c (shards (own c)).

Definition completeHandOff shardId c : ShardRegion :=
  let c := set_handingOff (set_delete (handingOff (own c)) shardId) c in
  let c := set_passivatingShards (set_delete (passivatingShards (own c)) shardId) c in
  let c := set_registriesHeldThroughPassivation (map_delete (registriesHeldThroughPassivation (ents c)) shardId) c in
  let c := set_shardEmptySince (map_delete (shardEmptySince (ents c)) shardId) c in
  let c := dropShardFailure shardId c in
  let c := set_shards (map_delete (shards (own c)) shardId) c in
  let c := set_localShards (set_delete (localShards (own c)) shardId) c in
  let c := set_shardHomes (map_delete (shardHomes (own c)) shardId) c in
  let c := set_shardHomeNodes (map_delete (shardHomeNodes (own c)) shardId) c in
  let c := set_shardState (map_delete (shardState (own c)) shardId) c in
  let c := tellHandOffComplete shardId c in
  if map_has (buffer (routing c)) shardId then askCoordinator shardId c else c.

Definition answerHandOffWhileRefused shardId c : ShardRegion :=
  if set_has (releasingShards (own c)) shardId
  then set_handOffsAwaitingRelease (set_add (handOffsAwaitingRelease (own c)) shardId) c
  else tellHandOffComplete shardId c.

Definition completeShardRelease shardId c : ShardRegion :=
  let c := set_releasingShards (set_delete (releasingShards (own c)) shardId) c in
  let c := set_shards (map_delete (shards (own c)) shardId) c in
  let c := set_shardEmptySince (map_delete (shardEmptySince (ents c)) shardId) c in
  let awaited := set_has (handOffsAwaitingRelease (own c)) shardId in
  let c := set_handOffsAwaitingRelease (set_delete (handOffsAwaitingRelease (own c)) shardId) c in
  if awaited && registerRefused (registration c) then tellHandOffComplete shardId c else c.

Definition startRegistryHeldThroughPassivation shardId c : ShardRegion :=
  match map_get (registriesHeldThroughPassivation (ents c)) shardId with
  | None => c
  | Some held =>
      let c := set_registriesHeldThroughPassivation (map_delete (registriesHeldThroughPassivation (ents c)) shardId) c in
      if negb (set_has (localShards (own c)) shardId) || proxy config then c
      else tellEnsured shardId (StartEntities held) None c
  end.

Definition completeShardPassivation shardId c : ShardRegion :=
  let c := set_passivatingShards (set_delete (passivatingShards (own c)) shardId) c in
  let c := set_shards (map_delete (shards (own c)) shardId) c in
  let c := forgetShardEntities shardId c in
  let c := if set_has (localShards (own c)) shardId
           then set_shardState (map_set (shardState (own c)) shardId owned) c
           else set_shardState (map_delete (shardState (own c)) shardId) c in
  startRegistryHeldThroughPassivation shardId (flushBuffer shardId c).

Definition put_failure shardId (r : ShardFailureRecord) c : ShardRegion :=
  set_shardFailures (map_set (shardFailures (own c)) shardId r) c.

Definition next_record c : ShardRegion :=
  let o := own c in
  set_own (mkOwnership (shardHomes o) (shardHomeNodes o) (localShards o) (shardState o) (shards o) (handingOff o)
    (passivatingShards o) (releasingShards o) (handOffsAwaitingRelease o) (shardFailures o) (S (nextRecord o))) c.

Definition backOffShard shardId c : ShardRegion :=
  if negb (set_has (localShards (own c)) shardId) then dropShardFailure shardId c
  else
    let '(r, c) :=
      match map_get (shardFailures (own c)) shardId with
      | None => (mkFailure (nextRecord (own c)) 0 None false, next_record c)
      | Some r =>
          (match upSince r with
           | Some up => if shardFailureBackoffResetAfterMs config <=? clock_now v - up
                        then mkFailure (recordId r) 0 (upSince r) (timer r) else r
           | None => r
           end, c)
      end in
    let delayMs := shardFailureBackoff config (attempts r) (draw v) in
    let c := put_failure shardId (mkFailure (recordId r) (attempts r + 1) None true) c in
    let c := set_shardState (map_set (shardState (own c)) shardId backing_off) c in
    emit (ArmRespawn shardId (recordId r) delayMs) c.

(** The first hosted shard whose ref is the one that stopped. *)
Definition handleShardTerminated (actor : string) c : ShardRegion :=
  match List.find (λ e, bool_decide (e.2 = actor)) (shards (own c)) with
  | None => c
  | Some (shardId, _) =>
      if set_has (releasingShards (own c)) shardId then completeShardRelease shardId c
      else if set_has (handingOff (own c)) shardId then completeHandOff shardId c
      else if set_has (passivatingShards (own c)) shardId then completeShardPassivation shardId c
      else
        let c := set_shards (map_delete (shards (own c)) shardId) c in
        backOffShard shardId (forgetShardEntities shardId c)
  end.

Definition onShardRespawnTick shardId (record : nat) c : ShardRegion :=
  match map_get (shardFailures (own c)) shardId with
  | None => c
  | Some r =>
      if negb (recordId r =? record)%nat then c
      else if negb (bool_decide (map_get (shardState (own c)) shardId = Some backing_off))
              || negb (set_has (localShards (own c)) shardId) then c
      else
        let c := put_failure shardId (mkFailure (recordId r) (attempts r) (Some (clock_now v)) false) c in
        let c := set_shardState (map_set (shardState (own c)) shardId owned) c in
        let c := flushBuffer shardId (fst (ensureShard shardId c)) in
        if rememberEntities config then tellCoordinator (GetRememberedEntities shardId) c else c
  end.

(** ** The coordinator's directives *)

Definition fromCoordinator (peer : option NodeAddress) c : bool :=
  match peer, coordinatorNode (registration c) with
  | Some peer, Some node => equals peer node
  | _, _ => false
  end.

Definition askAgainForPendingQueries c : ShardRegion :=
  let c := foldl (λ c shardId, askCoordinator shardId c) c (pendingLocationAsks (asks c)).*1 in
  foldl (λ c e, askCoordinatorForStats e.1 (timeoutMs e.2) c) c (pendingStatsAsks (asks c)).

Definition onRegisterAcknowledgment (peer : option NodeAddress) c : ShardRegion :=
  if negb (fromCoordinator peer c) then c
  else
    let c := set_registerTimer false (set_registerRefused false c) in
    let c := askAgainForPendingQueries c in
    if registrationAnnounced (registration c) then c
    else emit (Publish ShardRegionRegistered) (set_registrationAnnounced true c).

Definition onRegisterRefused (peer : option NodeAddress) (regionNumShards governed : Z) c : ShardRegion :=
  if negb (fromCoordinator peer c) then c
  else
    let c := set_registrationAnnounced false (set_registerRefused true c) in
    let c := set_registerTimer false c in
    releaseEverything (emit (Publish (ShardRegionRegistrationRefused regionNumShards governed)) c).

Definition onRegistrationRequest (peer : option NodeAddress) c : ShardRegion :=
  if negb (fromCoordinator peer c) then c else ensureRegistered c.

Definition onRegionEvicted (peer : option NodeAddress) c : ShardRegion :=
  if negb (fromCoordinator peer c) then c
  else
    let c := set_registrationAnnounced false (releaseEverything c) in
    ensureRegistered (emit RegistrationLost c).

Definition ownsShardToHandOff shardId c : bool :=
  negb (set_has (handingOff (own c)) shardId) && set_has (localShards (own c)) shardId.

Definition onShardHome (peer : option NodeAddress) shardId (region : string) (node : NodeAddress) c : ShardRegion :=
  if negb (fromCoordinator peer c) then c
  else if registerRefused (registration c) then c
  else if negb (isShardIdInRange shardId) then c
  else
    let local := equals node (selfAddress config) && bool_decide (region = self_path config) in
    let c := set_shardHomes (map_set (shardHomes (own c)) shardId region) c in
    let c := set_shardHomeNodes (map_set (shardHomeNodes (own c)) shardId node) c in
    if local then
      let c := set_localShards (set_add (localShards (own c)) shardId) c in
      if bool_decide (map_get (shardState (own c)) shardId = Some backing_off) then flushLocationAsks shardId c
      else if set_has (passivatingShards (own c)) shardId
      then flushLocationAsks shardId (set_shardState (map_set (shardState (own c)) shardId passivating_) c)
      else
        let c := set_shardState (map_set (shardState (own c)) shardId owned) c in
        let c := if proxy config then c else fst (ensureShard shardId c) in
        flushBuffer shardId (flushLocationAsks shardId c)
    else
      let c := set_localShards (set_delete (localShards (own c)) shardId) c in
      let c := set_shardState (map_delete (shardState (own c)) shardId) c in
      flushBuffer shardId (flushLocationAsks shardId (dropShardFailure shardId c)).

Definition onHandOff (peer : option NodeAddress) shardId c : ShardRegion :=
  if negb (fromCoordinator peer c) then c
  else if registerRefused (registration c) then answerHandOffWhileRefused shardId c
  else if negb (isShardIdInRange shardId) then c
  else if negb (ownsShardToHandOff shardId c) then c
  else
    let c := set_shardState (map_set (shardState (own c)) shardId handing_off) c in
    let c := tellCoordinator (BeginHandOffAcknowledgment shardId) c in
    let c := forgetShardEntities shardId c in
    match map_get (shards (own c)) shardId with
    | None => completeHandOff shardId c
    | Some path => emit (StopShard shardId path) (set_handingOff (set_add (handingOff (own c)) shardId) c)
    end.

(** ** Remembered entities *)

Definition holdThroughPassivation shardId (entityIds : list string) c : ShardRegion :=
  let held := default [] (map_get (registriesHeldThroughPassivation (ents c)) shardId) in
  set_registriesHeldThroughPassivation
    (map_set (registriesHeldThroughPassivation (ents c)) shardId (foldl set_add held entityIds)) c.

Definition armEntityRecovery c : ShardRegion := set_entityRecoveryTimer true c.

(** One turn of the loop of [onEntityRecoveryTick]: the entry at the head;
    [true] when it cost the batch a start. *)
Definition recover_next (pending : Z * string) c : ShardRegion * bool :=
  let c := set_entityRecoveryHead (S (entityRecoveryHead (ents c))) c in
  let '(shardId, entityId) := pending in
  if negb (set_has (entityRecoveryQueued (ents c)) entityId) then (c, false)
  else
    let state := map_get (shardState (own c)) shardId in
    if bool_decide (state = Some passivating_)
    then (set_entityRecoveryQueue (entityRecoveryQueue (ents c) ++ [pending]) c, false)
    else
      let c := set_entityRecoveryQueued (set_delete (entityRecoveryQueued (ents c)) entityId) c in
      if negb (set_has (localShards (own c)) shardId) || bool_decide (state = Some handing_off)
         || bool_decide (state = Some backing_off) then (c, false)
      else (tellEnsured shardId (StartEntity entityId) None c, true).

(** The loop over what is queued now: [batch] is [queue.slice(head, end)]. *)
Fixpoint recover (batch : list (Z * string)) (started : Z) c : ShardRegion :=
  match batch with
  | [] => c
  | pending :: batch =>
      if started <? entityRecoveryNumberOfEntities config
      then let '(c, counted) := recover_next pending c in recover batch (if counted then started + 1 else started) c
      else c
  end.

Definition onEntityRecoveryTick c : ShardRegion :=
  let c := set_entityRecoveryTimer false c in
  let c := recover (drop (entityRecoveryHead (ents c)) (entityRecoveryQueue (ents c))) 0 c in
  if (length (entityRecoveryQueue (ents c)) <=? entityRecoveryHead (ents c))%nat
  then set_entityRecoveryHead 0 (set_entityRecoveryQueue [] c)
  else armEntityRecovery c.

Definition queue_one shardId (acc : ShardRegion * nat) entityId : ShardRegion * nat :=
  let '(c, queued) := acc in
  if map_has (entityActivity (ents c)) entityId then acc
  else if set_has (entityRecoveryQueued (ents c)) entityId then acc
  else
    let c := set_entityRecoveryQueued (set_add (entityRecoveryQueued (ents c)) entityId) c in
    (set_entityRecoveryQueue (entityRecoveryQueue (ents c) ++ [(shardId, entityId)]) c, S queued).

Definition queueEntityRecovery shardId (entityIds : list string) c : ShardRegion :=
  let c := fst (ensureShard shardId c) in
  let '(c, queued) := foldl (queue_one shardId) (c, O) entityIds in
  if (queued =? 0)%nat then c
  else if entityRecoveryTimer (ents c) then c else onEntityRecoveryTick c.

Definition onRememberedEntities (peer : option NodeAddress) shardId (entityIds : list string) c : ShardRegion :=
  if negb (fromCoordinator peer c) then c
  else if negb (set_has (localShards (own c)) shardId) then c
  else if proxy config then c
  else
    let state := map_get (shardState (own c)) shardId in
    if bool_decide (state = Some backing_off) then c
    else if constantRate config then queueEntityRecovery shardId entityIds c
    else if bool_decide (state = Some handing_off) then c
    else if bool_decide (state = Some passivating_) then holdThroughPassivation shardId entityIds c
    else tellEnsured shardId (StartEntities entityIds) None c.

(** ** Reports of the shards *)

Definition onEntityStarted shardId entityId c : ShardRegion :=
  let c := set_shardEntities (map_set (shardEntities (ents c)) shardId (set_add (entities_of shardId c) entityId)) c in
  let c := set_shardEmptySince (map_delete (shardEmptySince (ents c)) shardId) c in
  let c := set_entityRecoveryQueued (set_delete (entityRecoveryQueued (ents c)) entityId) c in
  let c := if map_has (entityActivity (ents c)) entityId then c
           else
             let c := admitEntity shardId entityId c in
             set_entityActivity (map_set (entityActivity (ents c)) entityId (mkActivity shardId (Date_now v))) c in
  if rememberEntities config then tellCoordinator (RelayEntityStarted shardId entityId) c else c.

Definition onEntityStopped shardId entityId c : ShardRegion :=
  let c := match map_get (shardEntities (ents c)) shardId with
           | Some ids => set_shardEntities (map_set (shardEntities (ents c)) shardId (set_delete ids entityId)) c
           | None => c
           end in
  let c := if bool_decide (entities_of shardId c = [])
           then set_shardEmptySince (map_set (shardEmptySince (ents c)) shardId (Date_now v)) c else c in
  let c := forget_entity c entityId in
  if rememberEntities config then tellCoordinator (RelayEntityStopped shardId entityId) c else c.

(** ** Shard refs of others *)

(** [inner] is the message the ref carried: an entity envelope or any other. *)
Definition onToShard shardId (inner : Routable) sender c : ShardRegion :=
  if proxy config then c
  else if negb (set_has (localShards (own c)) shardId) then
    match inner with
    | EntityEnvelope _ _ => routeMessage inner sender c
    | Bare m => emit (DeadShardMessage m sender) c
    end
  else if shardCannotTakeMessages shardId c then
    match inner with
    | EntityEnvelope _ _ => bufferShard shardId inner sender c
    | Bare m => emit (DeadShardMessage m sender) c
    end
  else
    match inner with
    | EntityEnvelope entityId m => tellEnsured shardId (Deliver entityId m) sender c
    | Bare m => tellEnsured shardId (OtherShardMessage m) sender c
    end.

(** ** Passivation *)

Definition handlePassivate (stopMessage : Message) (candidate : option string) sender c : ShardRegion :=
  match candidate with
  | None => c
  | Some path =>
      match shardIdFromEntityPath path with
      | None => c
      | Some shardId =>
          match map_get (shards (own c)) shardId with
          | None => c
          | Some shard => emit (TellShard shardId shard (ForwardedPassivate stopMessage) sender) c
          end
      end
  end.

Definition sweepIdleEntities c : ShardRegion :=
  if passivationIdleMs config <=? 0 then c
  else foldl (λ c e,
    if set_has (passivating (ents c)) e.1 then c
    else if Date_now v - lastActivity e.2 <? passivationIdleMs config then c
    else requestPassivation e.1 (activity_shardId e.2) c) c (entityActivity (ents c)).

Definition shardsOwedRecovery c : list Z :=
  (filter (λ p, p.2 ∈ entityRecoveryQueued (ents c)) (drop (entityRecoveryHead (ents c)) (entityRecoveryQueue (ents c)))).*1.

Definition passivateShard shardId c : ShardRegion :=
  match map_get (shards (own c)) shardId with
  | None => c
  | Some path =>
      let c := set_passivatingShards (set_add (passivatingShards (own c)) shardId) c in
      let c := set_shardState (map_set (shardState (own c)) shardId passivating_) c in
      emit (TellShard shardId path ShardPassivationRequest None) c
  end.

(** The conditions of the sweep, in the order of the code. *)
Definition may_passivate shardId c : bool :=
  set_has (localShards (own c)) shardId
  && negb (set_has (handingOff (own c)) shardId || set_has (passivatingShards (own c)) shardId)
  && bool_decide (entities_of shardId c = [])
  && negb (map_has (buffer (routing c)) shardId)
  && match map_get (shardEmptySince (ents c)) shardId with
     | None => false
     | Some since => shardPassivationIdleMs config <=? Date_now v - since
     end
  && negb (set_has (shardsOwedRecovery c) shardId).

Definition sweepEmptyShards c : ShardRegion :=
  if (shardPassivationIdleMs config <=? 0) || proxy config then c
  else foldl (λ c shardId, if may_passivate shardId c then passivateShard shardId c else c) c (shards (own c)).*1.

Definition onPassivationSweepTick c : ShardRegion := sweepEmptyShards (sweepIdleEntities c).

Definition onShardPassivationDeclined shardId c : ShardRegion :=
  if negb (set_has (passivatingShards (own c)) shardId) || set_has (handingOff (own c)) shardId then c
  else
    let c := set_passivatingShards (set_delete (passivatingShards (own c)) shardId) c in
    let c := if set_has (localShards (own c)) shardId
             then set_shardState (map_set (shardState (own c)) shardId owned) c else c in
    startRegistryHeldThroughPassivation shardId (flushBuffer shardId c).

(** ** Cluster events *)

Definition onLeaderChanged c : ShardRegion :=
  let c := set_coordinatorNode None (set_coordinatorRef None c) in
  let refusalLapsed := registerRefused (registration c) in
  let c := set_registerRefused false c in
  ensureRegistered (if refusalLapsed then emit RegistrationRefusalLapsed c else c).

Definition invalidateHomesOnNode (node : NodeAddress) c : ShardRegion :=
  foldl (λ c (e : Z * NodeAddress),
    if equals e.2 node then
      let c := set_shardHomes (map_delete (shardHomes (own c)) e.1) c in
      let c := set_shardHomeNodes (map_delete (shardHomeNodes (own c)) e.1) c in
      set_shardState (map_delete (shardState (own c)) e.1) c
    else c) c (shardHomeNodes (own c)).

Definition onMemberRemoved (node : NodeAddress) c : ShardRegion := ensureRegistered (invalidateHomesOnNode node c).
Definition onMemberUp c : ShardRegion := ensureRegistered c.

(** ** The actor *)

Definition preStart c : ShardRegion :=
  let c := set_passivationStrategy (default None (createPassivationStrategy (strategyConfig config))) c in
  ensureRegistered c.

Definition postStop c : ShardRegion :=
  emit RegistrationLost (tellCoordinatorTerminated (set_shardFailures [] c)).

(** A frame of the sharding protocol, as [handleShardingMessage] gets it. *)
Inductive ShardingMessage :=
| RegisterAcknowledgment
| RegisterRefused (regionNumShards governed : Z)
| RegistrationRequest
| RegionEvicted
| ShardHome (shardId : Z) (region : string) (node : NodeAddress)
| HandOff (shardId : Z)
| RememberedEntities (shardId : Z) (entityIds : list string)
| ShardEnvelope (message : Routable) (origin : option (NodeAddress * string * Z))
| ShardReply (correlationId : Z) (message : Message)
| EntityEnvelopeFrame (entityId : string) (message : Message)
| ToShard (shardId : Z) (inner : Routable)
| EntityStarted (shardId : Z) (entityId : string)
| EntityStopped (shardId : Z) (entityId : string)
| GetShards (timeout : Z)
| GetShardLocation (shardId : Z)
| GetShardRegionStats (queryId : Z) (requester : string) (requesterNode : NodeAddress)
| ClusterShardingStats (correlationId : Z) (shards : list ShardLocation)
| ShardMapUpdate (shards : list (Z * string)) (version : Z)
| UnknownFrame.

Definition onShardEnvelope message (origin : option (NodeAddress * string * Z)) c : ShardRegion :=
  let sender := (λ o : NodeAddress * string * Z, ShardSenderRef o.1.1 o.1.2 o.2) <$> origin in
  routeMessage message sender c.

Definition onShardMapUpdate (peer : option NodeAddress) (shards : list (Z * string)) (version : Z) c : ShardRegion :=
  if negb (fromCoordinator peer c) then c else emit (Publish (ShardMapChanged shards version)) c.

Definition handleShardingMessage (m : ShardingMessage) (peer : option NodeAddress) sender c : ShardRegion :=
  match m with
  | RegisterAcknowledgment => onRegisterAcknowledgment peer c
  | RegisterRefused regionNumShards governed => onRegisterRefused peer regionNumShards governed c
  | RegistrationRequest => onRegistrationRequest peer c
  | RegionEvicted => onRegionEvicted peer c
  | ShardHome shardId region node => onShardHome peer shardId region node c
  | HandOff shardId => onHandOff peer shardId c
  | RememberedEntities shardId entityIds => onRememberedEntities peer shardId entityIds c
  | ShardEnvelope message origin => onShardEnvelope message origin c
  | ShardReply correlationId message => onShardReply correlationId message c
  | EntityEnvelopeFrame entityId message => routeMessage (EntityEnvelope entityId message) sender c
  | ToShard shardId inner => onToShard shardId inner sender c
  | EntityStarted shardId entityId => onEntityStarted shardId entityId c
  | EntityStopped shardId entityId => onEntityStopped shardId entityId c
  | GetShards timeout => onGetShards timeout sender c
  | GetShardLocation shardId => onGetShardLocation shardId sender c
  | GetShardRegionStats queryId requester node => onGetShardRegionStats queryId requester node c
  | ClusterShardingStats correlationId shards => onClusterShardingStats correlationId shards c
  | ShardMapUpdate shards version => onShardMapUpdate peer shards version c
  | UnknownFrame => emit Unhandled c
  end.

(** Everything that runs on the region: its inbox, whose frames come with the
    peer that sent them or, unauthenticated, without; the callbacks of its
    timers; and the cluster's events. *)
Inductive Event :=
| Frame (m : ShardingMessage) (peer : option NodeAddress) (sender : option Sender)
| Routed (message : Routable) (sender : option Sender)
| Terminated (actor : string)
| Passivate (stopMessage : Message) (candidate : option string) (sender : option Sender)
| EntityRecoveryTick
| PassivationSweepTick
| AsksSweepTick
| ShardRespawnTick (shardId : Z) (record : nat)
| ShardPassivationDeclined (shardId : Z)
| RegisterTimerFired
| HeartbeatTimerFired
| LeaderChanged
| MemberRemoved (node : NodeAddress)
| MemberUp.

Definition handle (e : Event) c : ShardRegion :=
  match e with
  | Frame m peer sender => handleShardingMessage m peer sender c
  | Routed message sender => routeMessage message sender c
  | Terminated actor => handleShardTerminated actor c
  | Passivate stopMessage candidate sender => handlePassivate stopMessage candidate sender c
  | EntityRecoveryTick => onEntityRecoveryTick c
  | PassivationSweepTick => onPassivationSweepTick c
  | AsksSweepTick => onAsksSweepTick c
  | ShardRespawnTick shardId record => onShardRespawnTick shardId record c
  | ShardPassivationDeclined shardId => onShardPassivationDeclined shardId c
  | RegisterTimerFired => ensureRegistered c
  | HeartbeatTimerFired => sendRegionHeartbeat c
  | LeaderChanged => onLeaderChanged c
  | MemberRemoved node => onMemberRemoved node c
  | MemberUp => onMemberUp c
  end.

End region.

Arguments ShardRegion : clear implicits.
Arguments ShardRegionConfig : clear implicits.
Arguments Sender : clear implicits.
Arguments Routable : clear implicits.
Arguments Item : clear implicits.
Arguments Effect : clear implicits.
Arguments ShardCommand : clear implicits.
Arguments ShardingMessage : clear implicits.
Arguments Event : clear implicits.

(** A run from [preStart]: each event with what it reads around it. *)
Definition run {Message Ref} (config : ShardRegionConfig Message) (v : View) (events : list (View * Event Message Ref))
    : ShardRegion Message Ref :=
  foldl (λ c e, handle config e.1 e.2 c) (preStart config v construct) events.
