(* ===== verification/ShardRegionTheorems.v ===== *)
(** * What a region does with its messages and its shards

    Every message routed through a region is told to a shard, sent to the node
    that hosts it, dead-lettered or buffered, once; who hosts what changes on
    the coordinator's word only; and a hand-off is reported complete when no
    actor of the shard is left. *)

From Stdlib Require Import Ascii String.
From stdpp Require Import pretty.
From S2P Require Import Prelude Float Backoff Member BidirectionalMap MapContents ShardAllocation ShardAllocator Passivation.
From S2P Require Import ShardRegion.
Import NodeAddress.

Local Open Scope Z_scope.

Section region.
Context {Message Ref : Type} (config : ShardRegionConfig Message) (v : View).

#[local] Abbreviation ShardRegion := (ShardRegion Message Ref).
#[local] Abbreviation Effect := (Effect Message Ref).
#[local] Abbreviation Item := (Item Message Ref).
#[local] Abbreviation Sender := (Sender Ref).
#[local] Abbreviation Routable := (Routable Message).

Implicit Types (c : ShardRegion) (shardId : Z) (entityId : string) (message : Routable).

(** ** What counts *)

(** What an effect does with a message of an entity. *)
Definition spoken (e : Effect) : list (string * Message) :=
  match e with
  | TellShard _ _ (Deliver entityId m) _ => [(entityId, m)]
  | SendBare _ _ m | SendEnvelope _ _ m _ _ _ | DeadLetter m _ => [extract config m]
  | WarnProxyGotShard entityId m => [(entityId, m)]
  | _ => []
  end.

Definition completed (e : Effect) : list Z :=
  match e with TellCoordinator _ _ (HandOffComplete shardId) => [shardId] | _ => [] end.

(** The shard actor an effect starts. *)
Definition spawned (e : Effect) : list (Z * string) :=
  match e with SpawnShard shardId path => [(shardId, path)] | _ => [] end.

Definition accounted c : list (string * Message) := effects c ≫= spoken.
Definition completions c : list Z := effects c ≫= completed.
Definition spawns c : list (Z * string) := effects c ≫= spawned.

Definition waiting_of (items : list Item) : list (string * Message) := (λ b, extract config b.1) <$> items.
Definition waiting c : list (string * Message) := contents waiting_of (buffer (routing c)).

Definition silent (e : Effect) : Prop := spoken e = [] ∧ completed e = [] ∧ spawned e = [].

(** What the handlers below are about; the rest of the state is its own
    business. *)
Definition profile c :=
  let o := own c in
  (shardHomes o, shardHomeNodes o, localShards o, shards o, handingOff o, releasingShards o, handOffsAwaitingRelease o,
   registerRefused (registration c), buffer (routing c), bufferedCount (routing c), accounted c, completions c, spawns c).

Lemma profile_emit e c : silent e → profile (emit e c) = profile c.
Proof.
  intros (Hs & Hc & Hn). unfold profile, accounted, completions, spawns. cbn. rewrite !bind_app. cbn.
  by rewrite Hs, Hc, Hn, !app_nil_r.
Qed.

(** ** Steps that leave the profile alone *)

#[local] Hint Extern 0 (silent _) => (split_and!; reflexivity) : core.

Ltac peel := lazymatch goal with
  | |- profile (emit _ _) = _ => rewrite profile_emit by auto
  | |- profile (?f ?x ?c) = _ => change (profile (f x c)) with (profile c)
  end.

(** What every step of a fold keeps, the fold keeps. *)
Lemma fold_same {A B} (P : ShardRegion → B) (f : ShardRegion → A → ShardRegion) : (∀ c a, P (f c a) = P c) →
  ∀ l c, P (foldl f c l) = P c.
Proof. intros Hf l. induction l as [|a l IH]; intros c; [done|]. cbn. by rewrite IH. Qed.

Lemma quiet_tellCoordinatorRef ref m c : silent (TellCoordinator ref true m) → profile (tellCoordinatorRef config ref m c) = profile c.
Proof. intros (? & ? & ?). unfold tellCoordinatorRef. by rewrite profile_emit. Qed.

Lemma quiet_register ref c : profile (register config ref c) = profile c.
Proof.
  unfold register, scheduleRegisterRetry. peel. rewrite (fold_same profile), quiet_tellCoordinatorRef; auto.
  intros c' s. destruct (registerRefused _); [done|]. by rewrite quiet_tellCoordinatorRef.
Qed.

Lemma quiet_ensureRegistered c : profile (ensureRegistered config v c) = profile c.
Proof.
  unfold ensureRegistered, scheduleRegisterRetry. destruct (leader v) as [node|]; [|done].
  destruct (if equals node _ then _ else _) as [ref|]; [|done]. destruct (registerRefused _); [done|].
  by rewrite quiet_register.
Qed.

Lemma quiet_tellCoordinator m c : completed (TellCoordinator LocalCoordinator true m) = [] →
  profile (tellCoordinator config v m c) = profile c.
Proof.
  intros Hm. unfold tellCoordinator. destruct (coordinatorRef _); [|apply quiet_ensureRegistered].
  by rewrite quiet_tellCoordinatorRef.
Qed.

Lemma quiet_askCoordinator shardId c : profile (askCoordinator config v shardId c) = profile c.
Proof. unfold askCoordinator. destruct (registerRefused _); [done|]. by rewrite quiet_tellCoordinator. Qed.

Lemma quiet_sendRegionHeartbeat c : profile (sendRegionHeartbeat config c) = profile c.
Proof.
  unfold sendRegionHeartbeat. destruct (coordinatorRef _); [|done]. destruct (registerRefused _); [done|].
  by rewrite quiet_tellCoordinatorRef.
Qed.

Lemma quiet_requestPassivation entityId shardId c : profile (requestPassivation entityId shardId c) = profile c.
Proof. unfold requestPassivation, strategy_remove. destruct (map_get (shards _) shardId); [|done]. peel. done. Qed.

Lemma quiet_admitEntity shardId entityId c : profile (admitEntity shardId entityId c) = profile c.
Proof.
  unfold admitEntity. destruct (passivationStrategy _) as [s|]; [|done].
  destruct (Composite.admit_ s entityId) as [s' [victim|]]; [|done]. by rewrite quiet_requestPassivation.
Qed.

Lemma quiet_recordActivity shardId entityId c : profile (recordActivity v shardId entityId c) = profile c.
Proof.
  unfold recordActivity. destruct (set_has _ _); [done|]. destruct (map_get _ _); [done|].
  peel. peel. by rewrite quiet_admitEntity.
Qed.

Lemma quiet_forget_entity c entityId : profile (forget_entity c entityId) = profile c.
Proof. done. Qed.

Lemma quiet_forgetShardEntities shardId c : profile (forgetShardEntities shardId c) = profile c.
Proof. unfold forgetShardEntities. peel. peel. apply (fold_same profile). intros. apply quiet_forget_entity. Qed.

Lemma quiet_registerPendingAsk sender c : profile (registerPendingAsk config v sender c).1 = profile c.
Proof. done. Qed.

Lemma quiet_onAsksSweepTick c : profile (onAsksSweepTick v c) = profile c.
Proof. done. Qed.

Lemma quiet_onShardReply id m c : profile (onShardReply id m c) = profile c.
Proof. unfold onShardReply. destruct (map_get _ _) as [[s e]|]; [|done]. by peel. Qed.

Lemma quiet_passivateShard shardId c : profile (passivateShard shardId c) = profile c.
Proof. unfold passivateShard. destruct (map_get _ _); [|done]. by peel. Qed.

Lemma quiet_onPassivationSweepTick c : profile (onPassivationSweepTick config v c) = profile c.
Proof.
  unfold onPassivationSweepTick, sweepEmptyShards, sweepIdleEntities. trans (profile (sweepIdleEntities config v c)).
  - destruct (_ || _); [done|]. apply (fold_same profile). intros c' s. destruct (may_passivate _ _ _ _); [apply quiet_passivateShard|done].
  - unfold sweepIdleEntities. destruct (_ <=? 0); [done|]. apply (fold_same profile). intros c' [id a].
    destruct (set_has _ _); [done|]. destruct (_ <? _); [done|]. apply quiet_requestPassivation.
Qed.

Lemma quiet_handlePassivate m candidate sender c : profile (handlePassivate m candidate sender c) = profile c.
Proof. unfold handlePassivate. repeat case_match; try done. by peel. Qed.

Lemma quiet_onEntityStarted shardId entityId c : profile (onEntityStarted config v shardId entityId c) = profile c.
Proof.
  unfold onEntityStarted. destruct (rememberEntities config); [rewrite quiet_tellCoordinator by done|];
    (destruct (map_has _ _); [done|]; peel; by rewrite quiet_admitEntity).
Qed.

Lemma quiet_onEntityStopped shardId entityId c : profile (onEntityStopped config v shardId entityId c) = profile c.
Proof.
  unfold onEntityStopped. destruct (rememberEntities config); [rewrite quiet_tellCoordinator by done|];
    rewrite quiet_forget_entity; repeat case_match; done.
Qed.

Lemma quiet_askAgain c : profile (askAgainForPendingQueries config v c) = profile c.
Proof.
  unfold askAgainForPendingQueries. rewrite (fold_same profile); [apply (fold_same profile)|].
  - intros. apply quiet_askCoordinator.
  - intros c' [id q]. unfold askCoordinatorForStats. by rewrite quiet_tellCoordinator.
Qed.

(** ** Steps that serve *)

Record buffer_ok c : Prop := {
  bo_keys : NoDup (buffer (routing c)).*1;
  bo_count : bufferedCount (routing c) = Z.of_nat (length (waiting c));
  bo_bound : bufferedCount (routing c) ≤ Z.max 0 (bufferSize config);
}.

(** [new] came in, and is accounted for or waits. *)
Definition routed (new : list (string * Message)) c c' : Prop :=
  buffer_ok c → buffer_ok c' ∧ accounted c' ++ waiting c' ≡ₚ accounted c ++ waiting c ++ new.

Definition wards c :=
  let o := own c in
  (shardHomes o, shardHomeNodes o, localShards o, handingOff o, releasingShards o, handOffsAwaitingRelease o,
   registerRefused (registration c), completions c).

(** Shards are only spawned, and only those assigned here. *)
Definition grown c c' : Prop := ∀ s,
  map_get (shards (own c')) s = map_get (shards (own c)) s ∨
  (map_get (shards (own c)) s = None ∧ s ∈ localShards (own c) ∧
   map_get (shards (own c')) s = Some (shardPath (self_path config) s)).

(** The shard actors started are in [shards], and none is dropped from it. *)
Definition keeps c c' : Prop := ∃ new, spawns c' = spawns c ++ new ∧
  (∀ x, x ∈ new → x ∈ shards (own c')) ∧
  (∀ x, x ∈ shards (own c) → x ∈ shards (own c')) ∧
  (∀ x, x ∈ shards (own c') → x ∈ shards (own c) ∨ x.2 = shardPath (self_path config) x.1).

Lemma keeps_unmoved c c' : shards (own c') = shards (own c) → spawns c' = spawns c → keeps c c'.
Proof.
  intros Hs Hn. exists []. rewrite Hs, Hn, app_nil_r. split_and!; [done| |done|by left]. by intros x ?%elem_of_nil.
Qed.

Lemma keeps_trans c1 c2 c3 : keeps c1 c2 → keeps c2 c3 → keeps c1 c3.
Proof.
  intros (n1 & E1 & N1 & K1 & P1) (n2 & E2 & N2 & K2 & P2). exists (n1 ++ n2). rewrite E2, E1, <- app_assoc.
  split_and!; [done| |auto|].
  - intros x [Hx|Hx]%elem_of_app; auto.
  - intros x [Hx|Hx]%P2; auto.
Qed.

Record served (new : list (string * Message)) c c' : Prop := {
  sv_wards : wards c' = wards c;
  sv_grown : grown c c';
  sv_routed : routed new c c';
  sv_keeps : keeps c c';
}.

Lemma routed_profile c c' : profile c' = profile c → routed [] c c'.
Proof.
  unfold profile. intros [= _ _ _ _ _ _ _ _ Hb Hn Ha _ _]. intros [H1 H2 H3]. unfold waiting. rewrite Hb, Ha, app_nil_r.
  split; [|done]. split; unfold waiting; rewrite ?Hb, ?Hn; done.
Qed.

Lemma served_profile c c' : profile c' = profile c → served [] c c'.
Proof.
  intros Hp. split; [|intros s; left|by apply routed_profile|apply keeps_unmoved]; unfold profile, wards in *; cbv zeta in *;
    injection Hp as E1 E2 E3 Hs E4 E5 E6 E7 _ _ _ E8 E9; congruence.
Qed.

Lemma routed_trans new1 new2 c1 c2 c3 : routed new1 c1 c2 → routed new2 c2 c3 → routed (new1 ++ new2) c1 c3.
Proof.
  intros H1 H2 Hc. destruct (H1 Hc) as [Hc2 E1]. destruct (H2 Hc2) as [Hc3 E2]. split; [done|].
  rewrite E2, app_assoc, E1. solve_Permutation.
Qed.

Lemma wards_local c c' : wards c' = wards c → localShards (own c') = localShards (own c).
Proof. unfold wards. by intros [= _ _ ->]. Qed.

Lemma grown_trans c1 c2 c3 : localShards (own c2) = localShards (own c1) → grown c1 c2 → grown c2 c3 → grown c1 c3.
Proof.
  intros Hl H1 H2 s. destruct (H2 s) as [->|(Hn & Hin & ->)]; [apply H1|]. rewrite Hl in Hin.
  destruct (H1 s) as [He|(_ & _ & He)]; [|congruence]. right. split_and!; [congruence|done|done].
Qed.

Lemma served_trans new1 new2 c1 c2 c3 : served new1 c1 c2 → served new2 c2 c3 → served (new1 ++ new2) c1 c3.
Proof.
  intros [W1 G1 R1 K1] [W2 G2 R2 K2].
  split; [congruence|by eapply grown_trans; [apply wards_local|..]|by eapply routed_trans|by eapply keeps_trans].
Qed.

Lemma served_then new c1 c2 c3 : served new c1 c2 → profile c3 = profile c2 → served new c1 c3.
Proof. intros H1 H2%served_profile. rewrite <- (app_nil_r new). by eapply served_trans. Qed.

Lemma served_after new c1 c2 c3 : profile c2 = profile c1 → served new c2 c3 → served new c1 c3.
Proof. intros H1%served_profile H2. exact (served_trans [] new _ _ _ H1 H2). Qed.

(** *** Telling and buffering *)

Lemma served_emit e c : completed e = [] ∧ spawned e = [] → served (spoken e) c (emit e c).
Proof.
  intros [Hc Hn]. split; [|intros s; by left| |].
  - unfold wards, completions. cbn. rewrite bind_app. cbn. by rewrite Hc, !app_nil_r.
  - intros Hb. split; [by destruct Hb|]. unfold accounted. cbn. rewrite bind_app. cbn. rewrite app_nil_r.
    change (waiting (emit e c)) with (waiting c). solve_Permutation.
  - apply keeps_unmoved; [done|]. unfold spawns. cbn. rewrite bind_app. cbn. by rewrite Hn, !app_nil_r.
Qed.

Lemma map_set_new {K V} `{EqDecision K} (m : list (K * V)) k x : map_get m k = None → map_set m k x = m ++ [(k, x)].
Proof. induction m as [|[k' y] m IH]; [done|]. cbn. case_decide; [done|]. intros Hm. by rewrite IH. Qed.

Lemma keeps_spawn shardId path c : map_get (shards (own c)) shardId = None → path = shardPath (self_path config) shardId →
  keeps c (set_shards (map_set (shards (own c)) shardId path) (emit (SpawnShard shardId path) c)).
Proof.
  intros Hn ->. set (path := shardPath _ _). exists [(shardId, path)]. unfold spawns. cbn. rewrite bind_app. cbn.
  rewrite map_set_new by done. split_and!; [done| | |].
  - intros x Hx. rewrite elem_of_app. by right.
  - intros x Hx. rewrite elem_of_app. by left.
  - intros x [Hx|Hx%list_elem_of_singleton]%elem_of_app; [by left|right; by subst x].
Qed.

Lemma served_ensureShard shardId c : shardId ∈ localShards (own c) → served [] c (ensureShard config v shardId c).1.
Proof.
  intros Hl. unfold ensureShard. destruct (map_get _ shardId) as [p|] eqn:E; [by apply served_profile|]. cbn [fst].
  split.
  - unfold wards, completions. cbn. rewrite bind_app. cbn. by rewrite app_nil_r.
  - intros s. cbn. rewrite map_get_set. destruct (decide (s = shardId)) as [->|]; [right|left]; done.
  - intros Hb. split; [by destruct Hb|]. unfold accounted. cbn. rewrite bind_app. cbn. by rewrite !app_nil_r.
  - eapply keeps_trans; [by apply keeps_spawn|]. by apply keeps_unmoved.
Qed.

Lemma served_tellEnsured shardId command sender c : shardId ∈ localShards (own c) →
  served (spoken (TellShard shardId "" command sender)) c (tellEnsured config v shardId command sender c).
Proof.
  intros Hl. unfold tellEnsured. pose proof (served_ensureShard shardId c Hl) as H1.
  destruct (ensureShard config v shardId c) as [c1 path]. cbn in H1.
  eapply (served_trans []); [done|]. by apply (served_emit (TellShard shardId path command sender)).
Qed.

Lemma served_bufferShard shardId message sender c : served [extract config message] c (bufferShard config shardId message sender c).
Proof.
  unfold bufferShard. destruct (Z.geb_spec (bufferedCount (routing c)) (bufferSize config)).
  - apply served_after with (c2 := warnBufferFull c); [unfold warnBufferFull; by destruct (warnedBufferFull _)|].
    by apply (served_emit (DeadLetter message sender)).
  - split; [done|intros s; by left| |by apply keeps_unmoved]. intros [Hk Hn Hb].
    set (queue := default [] (map_get (buffer (routing c)) shardId)).
    assert (Hw : contents waiting_of (map_set (buffer (routing c)) shardId (queue ++ [(message, sender)])) ≡ₚ
                 waiting c ++ [extract config message]).
    { rewrite contents_set by done. unfold waiting. rewrite (contents_split _ (buffer (routing c)) shardId) by done.
      unfold at_key, queue, waiting_of. destruct (map_get _ shardId); cbn; rewrite ?fmap_app; cbn; solve_Permutation. }
    split.
    + split; cbn; [by apply map_set_NoDup| |lia]. unfold waiting. cbn. rewrite Hw, length_app. cbn. lia.
    + unfold waiting. cbn. rewrite Hw. unfold accounted. cbn. solve_Permutation.
Qed.

Lemma served_deliverLocal shardId entityId m sender c : shardId ∈ localShards (own c) →
  served [(entityId, m)] c (deliverLocal config v shardId entityId m sender c).
Proof.
  intros Hl. unfold deliverLocal. destruct (proxy config); [by apply (served_emit (WarnProxyGotShard entityId m))|].
  eapply served_after; [apply quiet_recordActivity|].
  apply (served_tellEnsured shardId (Deliver entityId m)).
  by rewrite (wards_local c) by (apply (sv_wards []), served_profile, quiet_recordActivity).
Qed.

Lemma served_deliverRemote node path message sender c :
  served [extract config message] c (deliverRemote config v node path message sender c).
Proof.
  unfold deliverRemote. destruct sender as [[ref|n r id]|].
  - cbn. eapply served_after; [apply (quiet_registerPendingAsk (PlainRef ref))|]. by apply (served_emit (SendEnvelope _ _ _ _ _ _)).
  - by apply (served_emit (SendEnvelope _ _ _ _ _ _)).
  - by apply (served_emit (SendBare _ _ _)).
Qed.

Lemma served_routeMessage message sender c : served [extract config message] c (routeMessage config v message sender c).
Proof.
  unfold routeMessage. destruct (extract config message) as [entityId m] eqn:E. unfold route.
  pose proof (λ s c, served_bufferShard s message sender c) as Hbuf. pose proof (λ n p c, served_deliverRemote n p message sender c) as Hrem.
  rewrite E in Hbuf, Hrem.
  destruct (shardCannotTakeMessages _ c); [done|]. destruct (map_get (shardHomes (own c)) _) as [path|].
  - destruct (set_has _ _) eqn:Hl; [apply served_deliverLocal; by apply set_has_true|].
    destruct (map_get (shardHomeNodes (own c)) _); [done|]. by eapply served_then; [|apply quiet_askCoordinator].
  - by eapply served_then; [|apply quiet_askCoordinator].
Qed.

(** A fold of steps that serve, for what each element brings. *)
Lemma served_fold {A} (f : ShardRegion → A → ShardRegion) (new : A → list (string * Message)) :
  (∀ c a, served (new a) c (f c a)) → ∀ l c, served (l ≫= new) c (foldl f c l).
Proof.
  intros Hf l. induction l as [|a l IH]; intros c; [by apply served_profile|]. cbn. eapply served_trans; [apply Hf|apply IH].
Qed.

(** What waits for a shard is routed again, all of it. *)
Lemma served_flushBuffer shardId c : served [] c (flushBuffer config v shardId c).
Proof.
  unfold flushBuffer. destruct (map_get (buffer (routing c)) shardId) as [[|b queue]|] eqn:E; [by apply served_profile| |by apply served_profile].
  set (q := b :: queue) in *. set (c1 := set_bufferedCount _ _). set (c2 := foldl _ c1 q).
  eapply served_then; [|destruct (_ =? 0); [|done]; done].
  assert (H2 : served (waiting_of q) c1 c2).
  { replace (waiting_of q) with (q ≫= λ b, [extract config b.1]) by (unfold waiting_of; clear; induction q; cbn; congruence).
    apply served_fold. intros c' b'. apply served_routeMessage. }
  destruct H2 as [W G R K]. split; [done|done| |done]. intros [Hk Hn Hb].
  assert (Hw : waiting c ≡ₚ waiting_of q ++ waiting c1).
  { unfold waiting. rewrite (contents_split _ _ shardId Hk). unfold at_key. by rewrite E. }
  destruct R as [Hb2 Hp].
  - split; [by apply map_delete_NoDup| |].
    + change (bufferedCount (routing c1)) with (bufferedCount (routing c) - Z.of_nat (length q)).
      apply Permutation_length in Hw. rewrite length_app in Hw. assert (length (waiting_of q) = length q) by apply length_fmap. lia.
    + change (bufferedCount (routing c1)) with (bufferedCount (routing c) - Z.of_nat (length q)). lia.
  - split; [done|]. rewrite Hp, Hw. change (accounted c1) with (accounted c). solve_Permutation.
Qed.

(** *** Refs and queries *)

Lemma served_shardRef shardId node path c : served [] c (shardRef config v shardId node path c).1.
Proof.
  unfold shardRef. destruct (equals node _); [|by apply served_profile].
  destruct (set_has (localShards (own c)) shardId && negb (proxy config)) eqn:Hm; cbn [andb].
  - apply andb_true_iff in Hm as [Hl%set_has_true _]. destruct (shardCannotTakeMessages shardId c); [by apply served_profile|].
    destruct (map_get _ shardId); [by apply served_profile|]. pose proof (served_ensureShard shardId c Hl) as H1.
    by destruct (ensureShard config v shardId c).
  - destruct (map_get _ shardId); by apply served_profile.
Qed.

Lemma served_knownShardRef shardId c : served [] c (knownShardRef config v shardId c).1.
Proof.
  unfold knownShardRef. destruct (map_get _ shardId) as [path|]; [|by apply served_profile].
  destruct (map_get _ shardId) as [node|]; [|by apply served_profile].
  pose proof (served_shardRef shardId node path c) as H1. by destruct (shardRef config v shardId node path c).
Qed.

Lemma served_flushLocationAsks shardId c : served [] c (flushLocationAsks config v shardId c).
Proof.
  unfold flushLocationAsks. destruct (map_get _ shardId) as [waiting|]; [|by apply served_profile].
  pose proof (served_knownShardRef shardId c) as H1. destruct (knownShardRef config v shardId c) as [c1 [ref|]]; [|done].
  eapply served_then; [done|]. rewrite (fold_same profile); [done|]. intros c' w. by peel.
Qed.

Lemma served_onGetShardLocation shardId sender c : served [] c (onGetShardLocation config v shardId sender c).
Proof.
  unfold onGetShardLocation. destruct sender as [asker|]; [|by apply served_profile].
  destruct (negb _); [by apply served_profile; peel|]. pose proof (served_knownShardRef shardId c) as H1.
  destruct (knownShardRef config v shardId c) as [c1 [ref|]]; eapply served_then; try done; [by peel|].
  by rewrite quiet_askCoordinator.
Qed.

Lemma served_onGetShards timeout sender c : served [] c (onGetShards config v timeout sender c).
Proof.
  unfold onGetShards, askCoordinatorForStats. destruct sender; [|by apply served_profile].
  apply served_profile. by rewrite quiet_tellCoordinator.
Qed.

Lemma served_onClusterShardingStats id locations c : served [] c (onClusterShardingStats config v id locations c).
Proof.
  unfold onClusterShardingStats. destruct (map_get _ id) as [pending|]; [|by apply served_profile].
  set (step := λ '(c, infos) l, _). set (c0 := set_pendingStatsAsks _ c).
  assert (H : ∀ l c infos, served [] c (foldl step (c, infos) l).1).
  { clear. intros l. induction l as [|a l IH]; intros c infos; [by apply served_profile|]. cbn [foldl].
    unfold step at 2. unfold toShardInfo. pose proof (served_shardRef (location_shardId a) (location_node a) (location_regionPath a) c) as H1.
    destruct (shardRef _ _ _ _ _ c) as [c1 ref]. by eapply (served_trans [] []). }
  specialize (H locations c0 []). destruct (foldl step _ locations) as [c1 infos].
  eapply (served_after _ _ c0); [done|]. eapply served_then; [done|]. by peel.
Qed.

(** *** Remembered entities *)

Lemma served_recover batch : ∀ started c, served [] c (recover config v batch started c).
Proof.
  induction batch as [|[shardId entityId] batch IH]; intros started c; cbn [recover]; [by apply served_profile|].
  destruct (_ <? _); [|by apply served_profile]. unfold recover_next. set (c1 := set_entityRecoveryHead _ c).
  destruct (negb _); [apply (served_after _ _ c1); [done|apply IH]|].
  destruct (bool_decide _); [by eapply served_after; [|apply IH]|].
  destruct (_ || _) eqn:E; [by eapply served_after; [|apply IH]|]. set (c2 := set_entityRecoveryQueued _ c1).
  rewrite !orb_false_iff, negb_false_iff, set_has_true in E. destruct E as [[Hl _] _].
  eapply (served_after _ _ c2); [done|]. eapply (served_trans [] []); [|apply IH].
  by apply (served_tellEnsured shardId (StartEntity entityId) None).
Qed.

Lemma served_onEntityRecoveryTick c : served [] c (onEntityRecoveryTick config v c).
Proof.
  unfold onEntityRecoveryTick. set (c1 := set_entityRecoveryTimer false c). eapply (served_after _ _ c1); [done|].
  eapply served_then; [apply served_recover|]. by destruct (_ <=? _)%nat.
Qed.

Lemma served_queueEntityRecovery shardId ids c : shardId ∈ localShards (own c) → served [] c (queueEntityRecovery config v shardId ids c).
Proof.
  intros Hl. unfold queueEntityRecovery. pose proof (served_ensureShard shardId c Hl) as H1. set (c1 := (ensureShard config v shardId c).1) in *.
  assert (H2 : ∀ c n, profile (foldl (queue_one shardId) (c, n) ids).1 = profile c).
  { clear. induction ids as [|id ids IH]; intros c n; [done|]. cbn [foldl]. unfold queue_one at 2.
    destruct (map_has _ id); [apply IH|]. destruct (set_has _ id); [apply IH|]. by rewrite IH. }
  specialize (H2 c1 O). destruct (foldl (queue_one shardId) (c1, O) ids) as [c2 n]. cbn in H2.
  destruct (n =? 0)%nat; [by eapply served_then|]. destruct (entityRecoveryTimer _); [by eapply served_then|].
  eapply (served_trans [] []); [done|]. eapply served_after; [done|apply served_onEntityRecoveryTick].
Qed.

Lemma served_startRegistry shardId c : served [] c (startRegistryHeldThroughPassivation config v shardId c).
Proof.
  unfold startRegistryHeldThroughPassivation. destruct (map_get _ shardId) as [held|]; [|by apply served_profile].
  set (c1 := set_registriesHeldThroughPassivation _ c). destruct (_ || _) eqn:E; [by apply served_profile|].
  rewrite orb_false_iff, negb_false_iff, set_has_true in E. destruct E as [Hl _].
  eapply (served_after _ _ c1); [done|]. by apply (served_tellEnsured shardId (StartEntities held) None).
Qed.

Lemma served_onRememberedEntities peer shardId ids c : served [] c (onRememberedEntities config v peer shardId ids c).
Proof.
  unfold onRememberedEntities. destruct (negb _); [by apply served_profile|].
  destruct (negb _) eqn:Hl; [by apply served_profile|]. rewrite negb_false_iff, set_has_true in Hl.
  destruct (proxy config); [by apply served_profile|]. destruct (bool_decide _); [by apply served_profile|].
  destruct (constantRate config); [by apply served_queueEntityRecovery|].
  destruct (bool_decide _); [by apply served_profile|]. destruct (bool_decide _); [by apply served_profile|].
  by apply (served_tellEnsured shardId (StartEntities ids) None).
Qed.

(** *** Refs of others *)

Definition to_shard (inner : Routable) : list (string * Message) :=
  if proxy config then [] else match inner with EntityEnvelope entityId m => [(entityId, m)] | Bare _ => [] end.

Lemma served_onToShard shardId inner sender c : served (to_shard inner) c (onToShard config v shardId inner sender c).
Proof.
  unfold onToShard, to_shard. destruct (proxy config); [by apply served_profile|].
  destruct (negb _) eqn:Hl.
  - destruct inner as [m|entityId m]; [by apply served_profile; peel|]. apply (served_routeMessage (EntityEnvelope entityId m)).
  - rewrite negb_false_iff, set_has_true in Hl. destruct (shardCannotTakeMessages shardId c); destruct inner as [m|entityId m].
    + by apply served_profile; peel.
    + apply (served_bufferShard _ (EntityEnvelope entityId m)).
    + by apply (served_tellEnsured shardId (OtherShardMessage m)).
    + by apply (served_tellEnsured shardId (Deliver entityId m)).
Qed.

Lemma served_declined shardId c : served [] c (onShardPassivationDeclined config v shardId c).
Proof.
  unfold onShardPassivationDeclined. destruct (_ || _); [by apply served_profile|].
  eapply (served_trans [] []); [|apply served_startRegistry]. eapply served_after; [|apply served_flushBuffer].
  by destruct (set_has _ _).
Qed.

(** ** Every message is accounted for *)

Definition book c := (buffer (routing c), bufferedCount (routing c), accounted c).

Lemma routed_book c c' : book c' = book c → routed [] c c'.
Proof.
  unfold book. intros [= Hb Hn Ha] [H1 H2 H3]. unfold waiting. rewrite Hb, Ha, app_nil_r. split; [|done].
  split; unfold waiting; rewrite ?Hb, ?Hn; done.
Qed.

Lemma book_profile c c' : profile c' = profile c → book c' = book c.
Proof. unfold profile, book. by intros [= _ _ _ _ _ _ _ _ -> -> -> _ _]. Qed.

Lemma book_emit e c : spoken e = [] → book (emit e c) = book c.
Proof. intros He. unfold book, accounted. cbn. rewrite bind_app. cbn. by rewrite He, !app_nil_r. Qed.

Lemma book_tellCoordinator m c : book (tellCoordinator config v m c) = book c.
Proof.
  unfold tellCoordinator. destruct (coordinatorRef _); [|apply book_profile, quiet_ensureRegistered]. by apply book_emit.
Qed.

Lemma book_askCoordinator shardId c : book (askCoordinator config v shardId c) = book c.
Proof. apply book_profile, quiet_askCoordinator. Qed.

Lemma book_completeHandOff shardId c : book (completeHandOff config v shardId c) = book c.
Proof.
  unfold completeHandOff, tellHandOffComplete. set (c1 := tellCoordinator _ _ _ _).
  assert (H1 : book c1 = book c) by (unfold c1; by rewrite book_tellCoordinator).
  destruct (map_has _ _); [|done]. by rewrite book_askCoordinator.
Qed.

Lemma book_releaseEverything c : book (releaseEverything c) = book c.
Proof.
  unfold releaseEverything. rewrite (fold_same book); [rewrite (fold_same book); [done|by intros ? ?]|].
  intros c' [s path]. unfold release_shard. rewrite book_emit by done. by rewrite (book_profile _ _ (quiet_forgetShardEntities _ _)).
Qed.

Lemma book_completeShardRelease shardId c : book (completeShardRelease config v shardId c) = book c.
Proof.
  unfold completeShardRelease, tellHandOffComplete. destruct (_ && _); [|done]. by rewrite book_tellCoordinator.
Qed.

Lemma book_backOffShard shardId c : book (backOffShard config v shardId c) = book c.
Proof.
  unfold backOffShard. destruct (negb _); [done|]. destruct (map_get _ shardId) as [r|]; by rewrite book_emit.
Qed.

Lemma book_ensureShard shardId c : book (ensureShard config v shardId c).1 = book c.
Proof.
  unfold ensureShard. destruct (map_get _ shardId); [done|]. cbn [fst].
  by rewrite <- (book_emit (SpawnShard shardId (shardPath (self_path config) shardId)) c).
Qed.

Lemma routed_then new c1 c2 c3 : routed new c1 c2 → book c3 = book c2 → routed new c1 c3.
Proof. intros H1 H2%routed_book. rewrite <- (app_nil_r new). by eapply routed_trans. Qed.

Lemma routed_after new c1 c2 c3 : book c2 = book c1 → routed new c2 c3 → routed new c1 c3.
Proof. intros H1%routed_book H2. exact (routed_trans [] new _ _ _ H1 H2). Qed.

Lemma routed_flushBuffer shardId c1 c2 : book c2 = book c1 → routed [] c1 (flushBuffer config v shardId c2).
Proof. intros Hb. eapply routed_after; [done|]. apply sv_routed, served_flushBuffer. Qed.

Lemma routed_handleShardTerminated actor c : routed [] c (handleShardTerminated config v actor c).
Proof.
  unfold handleShardTerminated. destruct (List.find _ _) as [[s path]|]; [|by apply routed_book].
  destruct (set_has _ _); [by apply routed_book, book_completeShardRelease|].
  destruct (set_has _ _); [by apply routed_book, book_completeHandOff|]. destruct (set_has _ _).
  - unfold completeShardPassivation. eapply (routed_trans [] []); [|apply sv_routed, served_startRegistry].
    apply routed_flushBuffer. set (c1 := forgetShardEntities s _). trans (book c1); [by destruct (set_has _ _)|].
    unfold c1. by rewrite (book_profile _ _ (quiet_forgetShardEntities _ _)).
  - apply routed_book. rewrite book_backOffShard. by rewrite (book_profile _ _ (quiet_forgetShardEntities _ _)).
Qed.

Lemma routed_onShardRespawnTick shardId record c : routed [] c (onShardRespawnTick config v shardId record c).
Proof.
  unfold onShardRespawnTick. destruct (map_get _ shardId) as [r|]; [|by apply routed_book].
  destruct (negb _); [by apply routed_book|]. destruct (_ || _); [by apply routed_book|]. cbv zeta.
  set (c1 := flushBuffer _ _ _ _). assert (routed [] c c1) by (apply routed_flushBuffer; by rewrite book_ensureShard).
  destruct (rememberEntities config); [|done]. eapply routed_then; [done|apply book_tellCoordinator].
Qed.

Lemma routed_onShardHome peer shardId region node c : routed [] c (onShardHome config v peer shardId region node c).
Proof.
  unfold onShardHome. destruct (negb _); [by apply routed_book|]. destruct (registerRefused _); [by apply routed_book|].
  destruct (negb _); [by apply routed_book|]. cbv zeta.
  assert (Hloc : ∀ c0, book c0 = book c → routed [] c (flushLocationAsks config v shardId c0)).
  { intros c0 H0. eapply routed_after; [done|]. apply sv_routed, served_flushLocationAsks. }
  assert (Hboth : ∀ c0, book c0 = book c → routed [] c (flushBuffer config v shardId (flushLocationAsks config v shardId c0))).
  { intros c0 H0. eapply (routed_trans [] []); [by apply Hloc|]. apply sv_routed, served_flushBuffer. }
  destruct (_ && _); [|by apply Hboth]. destruct (bool_decide _); [by apply Hloc|]. destruct (set_has _ _); [by apply Hloc|].
  apply Hboth. destruct (proxy config); [done|]. by rewrite book_ensureShard.
Qed.

Lemma routed_onHandOff peer shardId c : routed [] c (onHandOff config v peer shardId c).
Proof.
  unfold onHandOff, answerHandOffWhileRefused, tellHandOffComplete. destruct (negb _); [by apply routed_book|].
  destruct (registerRefused _).
  { destruct (set_has _ _); apply routed_book; [done|apply book_tellCoordinator]. }
  destruct (negb _); [by apply routed_book|]. destruct (negb _); [by apply routed_book|]. cbv zeta.
  set (c1 := forgetShardEntities shardId _).
  assert (H1 : book c1 = book c) by (unfold c1; rewrite (book_profile _ _ (quiet_forgetShardEntities _ _)), book_tellCoordinator; done).
  apply routed_book. destruct (map_get _ shardId); [by rewrite book_emit|by rewrite book_completeHandOff].
Qed.

Lemma book_invalidateHomesOnNode node c : book (invalidateHomesOnNode node c) = book c.
Proof. unfold invalidateHomesOnNode. apply (fold_same book). intros c' [s n]. cbn. by destruct (equals n node). Qed.

Lemma book_ensureRegistered c : book (ensureRegistered config v c) = book c.
Proof. apply book_profile, quiet_ensureRegistered. Qed.

Lemma book_onLeaderChanged c : book (onLeaderChanged config v c) = book c.
Proof. unfold onLeaderChanged. rewrite book_ensureRegistered. destruct (registerRefused _); [by rewrite book_emit|done]. Qed.

(** What an event brings: the entity messages to route. *)
Definition brought_by_frame (m : ShardingMessage Message) : list (string * Message) :=
  match m with
  | ShardEnvelope message _ => [extract config message]
  | EntityEnvelopeFrame entityId message => [(entityId, message)]
  | ToShard _ inner => to_shard inner
  | _ => []
  end.

Definition brought (e : Event Message Ref) : list (string * Message) :=
  match e with
  | Routed message _ => [extract config message]
  | Frame m _ _ => brought_by_frame m
  | _ => []
  end.

Lemma routed_handleShardingMessage m peer sender c :
  routed (brought_by_frame m) c (handleShardingMessage config v m peer sender c).
Proof.
  destruct m; cbn [brought_by_frame handleShardingMessage].
  - unfold onRegisterAcknowledgment. destruct (negb _); [by apply routed_book|]. cbv zeta. apply routed_book.
    set (c1 := askAgainForPendingQueries _ _ _). assert (H1 : book c1 = book c) by (unfold c1; by rewrite (book_profile _ _ (quiet_askAgain _))).
    destruct (registrationAnnounced _); [done|]. by rewrite book_emit.
  - unfold onRegisterRefused. destruct (negb _); apply routed_book; [done|]. rewrite book_releaseEverything. by rewrite book_emit.
  - unfold onRegistrationRequest. destruct (negb _); apply routed_book; [done|apply book_ensureRegistered].
  - unfold onRegionEvicted. destruct (negb _); apply routed_book; [done|]. rewrite book_ensureRegistered, book_emit by done.
    by rewrite <- (book_releaseEverything c).
  - apply routed_onShardHome.
  - apply routed_onHandOff.
  - apply sv_routed, served_onRememberedEntities.
  - apply sv_routed, served_routeMessage.
  - by apply routed_book, book_profile, quiet_onShardReply.
  - apply sv_routed. by apply (served_routeMessage (EntityEnvelope entityId message)).
  - apply sv_routed, served_onToShard.
  - apply routed_book, book_profile, quiet_onEntityStarted.
  - apply routed_book, book_profile, quiet_onEntityStopped.
  - apply sv_routed, served_onGetShards.
  - apply sv_routed, served_onGetShardLocation.
  - unfold onGetShardRegionStats. by apply routed_book, book_emit.
  - apply sv_routed, served_onClusterShardingStats.
  - unfold onShardMapUpdate. destruct (negb _); apply routed_book; [done|by apply book_emit].
  - by apply routed_book, book_emit.
Qed.

Lemma routed_handle e c : routed (brought e) c (handle config v e c).
Proof.
  destruct e; cbn [brought handle].
  - apply routed_handleShardingMessage.
  - apply sv_routed, served_routeMessage.
  - apply routed_handleShardTerminated.
  - apply routed_book, book_profile, quiet_handlePassivate.
  - apply sv_routed, served_onEntityRecoveryTick.
  - apply routed_book, book_profile, quiet_onPassivationSweepTick.
  - by apply routed_book, book_profile, quiet_onAsksSweepTick.
  - apply routed_onShardRespawnTick.
  - apply sv_routed, served_declined.
  - apply routed_book, book_ensureRegistered.
  - apply routed_book, book_profile, quiet_sendRegionHeartbeat.
  - apply routed_book, book_onLeaderChanged.
  - apply routed_book. unfold onMemberRemoved. by rewrite book_ensureRegistered, book_invalidateHomesOnNode.
  - apply routed_book, book_ensureRegistered.
Qed.

Lemma preStart_book : routed [] construct (preStart config v construct).
Proof. apply routed_book. unfold preStart. by rewrite book_ensureRegistered. Qed.

End region.

(** ** Runs *)

Section runs.
Context {Message Ref : Type} (config : ShardRegionConfig Message) (v : View).

Lemma run_routed (events : list (View * Event Message Ref)) :
  routed config (events ≫= λ e, brought config e.2) construct (run config v events).
Proof.
  unfold run. rewrite <- (app_nil_l (events ≫= _)). eapply routed_trans; [apply (preStart_book config v)|].
  generalize (preStart config v (construct : ShardRegion Message Ref)). induction events as [|[w e] events IH]; intros c; [by apply routed_book|].
  cbn [foldl]. rewrite bind_cons. eapply routed_trans; [apply (routed_handle config w)|apply IH].
Qed.

Lemma construct_buffer_ok : buffer_ok config (construct : ShardRegion Message Ref).
Proof. split; cbn; [apply NoDup_nil_2|done|lia]. Qed.

(** C5. Whatever a region goes through - hand-offs, evictions, shards that fail,
    passivate or move, a coordinator that changes - every message routed to it
    is told to a shard, sent to the node that hosts it, refused by a proxy or
    dead-lettered exactly once, or waits in a buffer; and no more wait than
    the buffer size, which is what the region counts. *)
Theorem region_accounts_for_every_message (events : list (View * Event Message Ref)) :
  let c := run config v events in
  accounted config c ++ waiting config c ≡ₚ (events ≫= λ e, brought config e.2) ∧
  bufferedCount (routing c) = Z.of_nat (length (waiting config c)) ∧
  Z.of_nat (length (waiting config c)) ≤ Z.max 0 (bufferSize config).
Proof.
  cbv zeta. destruct (run_routed events construct_buffer_ok) as [[_ Hn Hb] Hp]. split_and!; [exact Hp|done|lia].
Qed.

End runs.
