(* ===== verification/ShardRegionOwnership.v ===== *)
(** * Who hosts what, and when a hand-off is over

    Ownership changes on the coordinator's word only, and a hand-off is
    reported complete when it was asked for, once, and when no actor of the
    shard is left here. *)

From Stdlib Require Import Ascii String.
From stdpp Require Import pretty.
From S2P Require Import Prelude Float Backoff Member BidirectionalMap MapContents ShardAllocation ShardAllocator Passivation.
From S2P Require Import ShardRegion ShardRegionTheorems.
Import NodeAddress.

Local Open Scope Z_scope.

Section region.
Context {Message Ref : Type} (config : ShardRegionConfig Message) (v : View).

#[local] Abbreviation ShardRegion := (ShardRegion Message Ref).
#[local] Abbreviation Event := (Event Message Ref).

Implicit Types (c : ShardRegion) (shardId s : Z) (e : Event).

(** ** The coordinator's word *)

Definition homes c := (shardHomes (own c), shardHomeNodes (own c), localShards (own c)).

Lemma homes_wards c c' : wards c' = wards c → homes c' = homes c.
Proof. unfold wards, homes. cbv zeta. by intros [= -> -> -> _ _ _ _ _]. Qed.

Lemma homes_served new c c' : served config new c c' → homes c' = homes c.
Proof. intros H. by eapply homes_wards, sv_wards. Qed.

Lemma homes_profile c c' : profile config c' = profile config c → homes c' = homes c.
Proof. intros H. by eapply homes_served, served_profile. Qed.

(** The events that may move a shard. *)
Definition authorised c e : bool :=
  match e with
  | Frame _ peer _ => fromCoordinator peer c
  | Terminated _ | MemberRemoved _ => true
  | _ => false
  end.

Lemma homes_frame m peer sender c : fromCoordinator peer c = false →
  homes (handleShardingMessage config v m peer sender c) = homes c.
Proof.
  intros Hp. destruct m; cbn [handleShardingMessage].
  - unfold onRegisterAcknowledgment. by rewrite Hp.
  - unfold onRegisterRefused. by rewrite Hp.
  - unfold onRegistrationRequest. by rewrite Hp.
  - unfold onRegionEvicted. by rewrite Hp.
  - unfold onShardHome. by rewrite Hp.
  - unfold onHandOff. by rewrite Hp.
  - unfold onRememberedEntities. by rewrite Hp.
  - eapply homes_served, served_routeMessage.
  - unfold onShardReply. by destruct (map_get _ _) as [[? ?]|].
  - eapply homes_served, served_routeMessage.
  - eapply homes_served, served_onToShard.
  - apply homes_profile, quiet_onEntityStarted.
  - apply homes_profile, quiet_onEntityStopped.
  - eapply homes_served, served_onGetShards.
  - eapply homes_served, served_onGetShardLocation.
  - done.
  - eapply homes_served, served_onClusterShardingStats.
  - unfold onShardMapUpdate. by rewrite Hp.
  - done.
Qed.

Lemma homes_ensureRegistered c : homes (ensureRegistered config v c) = homes c.
Proof. apply homes_profile, quiet_ensureRegistered. Qed.

Lemma homes_respawn shardId record c : homes (onShardRespawnTick config v shardId record c) = homes c.
Proof.
  unfold onShardRespawnTick. destruct (map_get _ shardId) as [r|]; [|done]. destruct (negb _); [done|].
  destruct (_ || _) eqn:E; [done|]. rewrite orb_false_iff, !negb_false_iff, set_has_true in E. destruct E as [_ Hl].
  set (c1 := put_failure _ _ c). set (c2 := flushBuffer _ _ _ _). assert (H : homes c2 = homes c).
  { unfold c2. erewrite homes_served by apply served_flushBuffer. erewrite homes_served by (by apply served_ensureShard). done. }
  destruct (rememberEntities config); [|done]. by rewrite (homes_profile c2) by (by apply quiet_tellCoordinator).
Qed.

(** Where shards live, and which live here, is the coordinator's to say: a
    frame whose authenticated peer is not the coordinator's node, a message,
    a timer or a leader change moves none. *)
Theorem only_the_coordinator_moves_shards c e : authorised c e = false → homes (handle config v e c) = homes c.
Proof.
  intros Ha. destruct e; cbn [handle]; try done; cbn in Ha.
  - by apply homes_frame.
  - eapply homes_served, served_routeMessage.
  - apply homes_profile, quiet_handlePassivate.
  - eapply homes_served, served_onEntityRecoveryTick.
  - apply homes_profile, quiet_onPassivationSweepTick.
  - apply homes_respawn.
  - eapply homes_served, served_declined.
  - apply homes_ensureRegistered.
  - apply homes_profile, quiet_sendRegionHeartbeat.
  - unfold onLeaderChanged. rewrite homes_ensureRegistered. by destruct (registerRefused _).
  - apply homes_ensureRegistered.
Qed.

(** ** Hand-offs *)

Definition count (s : Z) (l : list Z) : nat := length (filter (λ x, x = s) l).

Lemma count_app s l k : count s (l ++ k) = (count s l + count s k)%nat.
Proof. unfold count. by rewrite filter_app, length_app. Qed.

Lemma count_set_add s l x : (count s (set_add l x) ≤ count s l + count s [x])%nat.
Proof. unfold set_add. destruct (set_has l x); [lia|]. by rewrite count_app. Qed.

Lemma count_set_delete s l x : count s (set_delete l x) = if decide (s = x) then O else count s l.
Proof.
  unfold count, set_delete. induction l as [|y l IH]; [by case_decide|]. rewrite !filter_cons.
  destruct (decide (y ≠ x)) as [Hne|Heq%dec_stable]; rewrite ?filter_cons; repeat case_decide; cbn [length]; congruence || lia.
Qed.

Lemma count_member l x : x ∈ l → (1 ≤ count x l)%nat.
Proof.
  intros Hx. unfold count. assert (x ∈ filter (λ y, y = x) l) as Hin by (by apply list_elem_of_filter).
  destruct (filter _ l); [by apply elem_of_nil in Hin|cbn; lia].
Qed.

(** The hand-offs of a shard that were answered, or that the region still owes an answer. *)
Definition owed s c : nat :=
  (count s (completions c) + count s (handingOff (own c)) + count s (handOffsAwaitingRelease (own c)))%nat.

Definition asked s e : nat := match e with Frame (HandOff shardId) _ _ => count s [shardId] | _ => O end.

Definition debts c := (completions c, handingOff (own c), handOffsAwaitingRelease (own c)).

Lemma owed_debts s c c' : debts c' = debts c → owed s c' = owed s c.
Proof. unfold debts, owed. by intros [= -> -> ->]. Qed.

Lemma debts_wards c c' : wards c' = wards c → debts c' = debts c.
Proof. unfold wards, debts. cbv zeta. by intros [= _ _ _ -> _ -> _ ->]. Qed.

Lemma debts_served new c c' : served config new c c' → debts c' = debts c.
Proof. intros H. by eapply debts_wards, sv_wards. Qed.

Lemma debts_profile c c' : profile config c' = profile config c → debts c' = debts c.
Proof. intros H. by eapply debts_served, served_profile. Qed.

Lemma debts_emit (x : Effect Message Ref) c : completed x = [] → debts (emit x c) = debts c.
Proof. intros He. unfold debts, completions. cbn. rewrite bind_app. cbn. by rewrite He, !app_nil_r. Qed.

Lemma owed_emit s (x : Effect Message Ref) c : completed x = [] → owed s (emit x c) = owed s c.
Proof. intros Hx. by apply owed_debts, debts_emit. Qed.

(** Talking to the coordinator leaves the ownership alone. *)
Lemma own_ensureRegistered c : own (ensureRegistered config v c) = own c.
Proof.
  unfold ensureRegistered. destruct (leader v) as [node|]; [|done]. destruct (if equals node _ then _ else _) as [ref|]; [|done].
  destruct (registerRefused _); [done|]. unfold register, scheduleRegisterRetry. cbn.
  match goal with |- own (foldl ?f ?x ?y) = _ => assert (H : ∀ l c0, own (foldl f c0 l) = own c0) end; [|by rewrite H].
  clear. intros l. induction l as [|a l IH]; intros c0; [done|]. cbn. rewrite IH. by destruct (registerRefused _).
Qed.

Lemma own_tellCoordinator m c : own (tellCoordinator config v m c) = own c.
Proof. unfold tellCoordinator. destruct (coordinatorRef _); [done|apply own_ensureRegistered]. Qed.

Lemma own_askCoordinator shardId c : own (askCoordinator config v shardId c) = own c.
Proof. unfold askCoordinator. destruct (registerRefused _); [done|apply own_tellCoordinator]. Qed.

Lemma tellHandOffComplete_says shardId c : ∃ said, (said = [] ∨ said = [shardId]) ∧
  completions (tellHandOffComplete config v shardId c) = completions c ++ said.
Proof.
  unfold tellHandOffComplete, tellCoordinator. destruct (coordinatorRef _) as [ref|].
  - exists [shardId]. split; [by right|]. unfold completions, tellCoordinatorRef. cbn. by rewrite bind_app.
  - exists []. split; [by left|]. rewrite app_nil_r.
    pose proof (debts_profile _ _ (quiet_ensureRegistered config v c)) as [= Hd _ _]. done.
Qed.

Lemma completeHandOff_spec shardId c : let c' := completeHandOff config v shardId c in
  (∃ said, (said = [] ∨ said = [shardId]) ∧ completions c' = completions c ++ said) ∧
  handingOff (own c') = set_delete (handingOff (own c)) shardId ∧
  handOffsAwaitingRelease (own c') = handOffsAwaitingRelease (own c) ∧
  shards (own c') = map_delete (shards (own c)) shardId ∧
  localShards (own c') = set_delete (localShards (own c)) shardId ∧
  releasingShards (own c') = releasingShards (own c).
Proof.
  cbv zeta. unfold completeHandOff. set (c1 := set_shardState _ _). set (c2 := tellHandOffComplete _ _ _ _).
  assert (Hsaid : ∃ said, (said = [] ∨ said = [shardId]) ∧ completions c2 = completions c ++ said).
  { destruct (tellHandOffComplete_says shardId c1) as (said & Hs & Hc). by exists said. }
  assert (Hown : own c2 = own c1) by apply own_tellCoordinator.
  destruct (map_has _ _).
  - destruct Hsaid as (said & Hs & Hc). split.
    + exists said. split; [done|]. rewrite <- Hc. pose proof (debts_profile _ _ (quiet_askCoordinator config v shardId c2)) as [= Hd _ _]. done.
    + rewrite own_askCoordinator, Hown. done.
  - split; [done|]. rewrite Hown. done.
Qed.

(** *** What is owed *)

Lemma owed_completeHandOff s shardId c n : shardId ∈ handingOff (own c) ∨ (1 ≤ n)%nat ∧ s = shardId ∨ s ≠ shardId →
  (owed s (completeHandOff config v shardId c) ≤ owed s c + n)%nat.
Proof.
  intros Hn. destruct (completeHandOff_spec shardId c) as ((said & Hs & Hc) & Hh & Ha & _). unfold owed. rewrite Hc, Hh, Ha.
  rewrite count_app, count_set_delete. assert (count s said ≤ if decide (s = shardId) then 1 else 0)%nat as Hsaid.
  { destruct Hs as [->| ->]; unfold count; cbn; rewrite ?filter_cons; repeat case_decide; cbn; congruence || lia. }
  revert Hsaid. destruct (decide (s = shardId)) as [->|]; intros Hsaid; [|lia]. destruct Hn as [Hin|[[Hn _]|Hne]]; [|lia|done].
  apply count_member in Hin. lia.
Qed.

Lemma owed_completeShardRelease s shardId c : (owed s (completeShardRelease config v shardId c) ≤ owed s c)%nat.
Proof.
  unfold completeShardRelease. set (c1 := set_handOffsAwaitingRelease _ _). set (b := set_has (handOffsAwaitingRelease _) shardId).
  assert (H1 : owed s c1 = (count s (completions c) + count s (handingOff (own c)) +
                            count s (set_delete (handOffsAwaitingRelease (own c)) shardId))%nat) by done.
  rewrite count_set_delete in H1. destruct (b && _) eqn:E.
  - apply andb_true_iff in E as [Hb%set_has_true _]. destruct (tellHandOffComplete_says shardId c1) as (said & Hs & Hc).
    unfold owed in *. rewrite Hc, count_app. unfold tellHandOffComplete at 1 2. rewrite own_tellCoordinator.
    apply (count_member (handOffsAwaitingRelease (own c))) in Hb. assert (count s said ≤ if decide (s = shardId) then 1 else 0)%nat as Hsaid.
    { destruct Hs as [->| ->]; unfold count; cbn; rewrite ?filter_cons; repeat case_decide; cbn; congruence || lia. }
    revert Hsaid H1. destruct (decide (s = shardId)) as [->|]; intros; lia.
  - rewrite H1. unfold owed. case_decide; lia.
Qed.

Lemma debts_handleTerminated_rest shardId c : debts (backOffShard config v shardId (forgetShardEntities shardId
  (set_shards (map_delete (shards (own c)) shardId) c))) = debts c.
Proof.
  unfold backOffShard. set (c1 := forgetShardEntities shardId _). assert (H1 : debts c1 = debts c)
    by (unfold c1; by rewrite (debts_profile _ _ (quiet_forgetShardEntities config shardId _))).
  destruct (negb _); [done|]. destruct (map_get _ shardId); by rewrite debts_emit.
Qed.

Lemma debts_completeShardPassivation shardId c : debts (completeShardPassivation config v shardId c) = debts c.
Proof.
  unfold completeShardPassivation. erewrite debts_served by apply served_startRegistry.
  erewrite debts_served by apply served_flushBuffer. set (c1 := forgetShardEntities shardId _).
  assert (H1 : debts c1 = debts c) by (unfold c1; by rewrite (debts_profile _ _ (quiet_forgetShardEntities config shardId _))).
  by destruct (set_has _ _).
Qed.

Lemma owed_handleShardTerminated s actor c : (owed s (handleShardTerminated config v actor c) ≤ owed s c)%nat.
Proof.
  unfold handleShardTerminated. destruct (List.find _ _) as [[shardId path]|]; [|done].
  destruct (set_has _ _); [apply owed_completeShardRelease|]. destruct (set_has _ _) eqn:Hh.
  - rewrite <- (Nat.add_0_r (owed s c)). apply owed_completeHandOff. left. by apply set_has_true.
  - clear Hh. destruct (set_has _ _); apply Nat.eq_le_incl, owed_debts; [apply debts_completeShardPassivation|apply debts_handleTerminated_rest].
Qed.

Lemma owed_releaseEverything s c : (owed s (releaseEverything c) ≤ owed s c)%nat.
Proof.
  unfold releaseEverything. set (c1 := foldl _ (set_registriesHeldThroughPassivation _ _) _).
  assert (H1 : debts c1 = debts c) by (unfold c1; rewrite (fold_same debts); [done|by intros ? ?]).
  rewrite <- (owed_debts s _ _ H1). clear H1. clearbody c1. generalize (shards (own c1)) as l. intros l. revert c1.
  induction l as [|[shardId path] l IH]; intros c1; [done|]. cbn [foldl]. etrans; [apply IH|].
  unfold release_shard. rewrite owed_emit by done.
  rewrite (owed_debts s _ _ (debts_profile _ _ (quiet_forgetShardEntities config shardId _))).
  change (owed s _) with (count s (completions c1) + count s (set_delete (handingOff (own c1)) shardId) +
                          count s (handOffsAwaitingRelease (own c1)))%nat at 1.
  rewrite count_set_delete. unfold owed. case_decide; lia.
Qed.

Lemma owed_onHandOff s peer shardId c : (owed s (onHandOff config v peer shardId c) ≤ owed s c + count s [shardId])%nat.
Proof.
  assert (Hone : count s [shardId] = if decide (s = shardId) then 1%nat else 0%nat)
    by (unfold count; rewrite filter_cons; repeat case_decide; cbn; congruence || done).
  unfold onHandOff. destruct (negb _); [lia|]. destruct (registerRefused _).
  { unfold answerHandOffWhileRefused. destruct (set_has _ _).
    - change (owed s _) with (count s (completions c) + count s (handingOff (own c)) +
                              count s (set_add (handOffsAwaitingRelease (own c)) shardId))%nat at 1. unfold owed.
      pose proof (count_set_add s (handOffsAwaitingRelease (own c)) shardId). lia.
    - destruct (tellHandOffComplete_says shardId c) as (said & Hs & Hc). unfold owed. rewrite Hc, count_app.
      unfold tellHandOffComplete. rewrite own_tellCoordinator. destruct Hs as [->| ->]; [cbn; lia|lia]. }
  destruct (negb _); [lia|]. destruct (negb _); [lia|]. cbv zeta. set (c1 := forgetShardEntities shardId _).
  assert (H1 : debts c1 = debts c).
  { unfold c1. rewrite (debts_profile _ _ (quiet_forgetShardEntities config shardId _)).
    by erewrite debts_profile by (by apply quiet_tellCoordinator). }
  rewrite <- (owed_debts s _ _ H1), Hone. destruct (map_get _ shardId).
  - rewrite owed_emit by done. unfold owed at 1.
    change (completions (set_handingOff _ c1)) with (completions c1). unfold owed.
    change (handingOff (own (set_handingOff ?x c1))) with x.
    change (handOffsAwaitingRelease (own (set_handingOff _ c1))) with (handOffsAwaitingRelease (own c1)).
    pose proof (count_set_add s (handingOff (own c1)) shardId). rewrite Hone in H. lia.
  - apply owed_completeHandOff. destruct (decide (s = shardId)); [right; left; split; [lia|done]|by right; right].
Qed.

Lemma debts_ensureShard shardId c : debts (ensureShard config v shardId c).1 = debts c.
Proof.
  unfold ensureShard. destruct (map_get _ shardId); [done|]. cbn [fst].
  by rewrite <- (debts_emit (SpawnShard shardId (shardPath (self_path config) shardId)) c).
Qed.

Lemma debts_respawn shardId record c : debts (onShardRespawnTick config v shardId record c) = debts c.
Proof.
  unfold onShardRespawnTick. destruct (map_get _ shardId) as [r|]; [|done]. destruct (negb _); [done|].
  destruct (_ || _); [done|]. set (c2 := flushBuffer _ _ _ _). assert (H : debts c2 = debts c).
  { unfold c2. erewrite debts_served by apply served_flushBuffer. by rewrite debts_ensureShard. }
  destruct (rememberEntities config); [|done]. by rewrite (debts_profile c2) by (by apply quiet_tellCoordinator).
Qed.

Lemma debts_onShardHome peer shardId region node c : debts (onShardHome config v peer shardId region node c) = debts c.
Proof.
  unfold onShardHome. destruct (negb _); [done|]. destruct (registerRefused _); [done|]. destruct (negb _); [done|]. cbv zeta.
  assert (Hloc : ∀ c0, debts c0 = debts c → debts (flushLocationAsks config v shardId c0) = debts c).
  { intros c0 H0. by erewrite debts_served by apply served_flushLocationAsks. }
  destruct (_ && _).
  - destruct (bool_decide _); [by apply Hloc|]. destruct (set_has _ _); [by apply Hloc|].
    erewrite debts_served by apply served_flushBuffer. apply Hloc. destruct (proxy config); [done|]. by rewrite debts_ensureShard.
  - erewrite debts_served by apply served_flushBuffer. by apply Hloc.
Qed.

Lemma debts_ensureRegistered c : debts (ensureRegistered config v c) = debts c.
Proof. apply debts_profile, quiet_ensureRegistered. Qed.

Lemma owed_handle s e c : (owed s (handle config v e c) ≤ owed s c + asked s e)%nat.
Proof.
  assert (Hsame : ∀ c', debts c' = debts c → (owed s c' ≤ owed s c + 0)%nat) by (intros c' H; rewrite (owed_debts s _ _ H); lia).
  destruct e as [m peer sender| | | | | | | | | | | |node|]; cbn [asked handle].
  - destruct m; cbn [handleShardingMessage]; try exact (owed_onHandOff s peer shardId c).
    + unfold onRegisterAcknowledgment. destruct (negb _); [by apply Hsame|]. cbv zeta.
      set (c1 := askAgainForPendingQueries _ _ _).
      assert (H1 : debts c1 = debts c) by (unfold c1; by rewrite (debts_profile _ _ (quiet_askAgain config v _))).
      destruct (registrationAnnounced _); apply Hsame; [done|by rewrite debts_emit].
    + unfold onRegisterRefused. destruct (negb _); [by apply Hsame|]. cbv zeta. etrans; [apply owed_releaseEverything|].
      apply Hsame. by rewrite debts_emit.
    + unfold onRegistrationRequest. destruct (negb _); apply Hsame; [done|apply debts_ensureRegistered].
    + unfold onRegionEvicted. destruct (negb _); [by apply Hsame|]. cbv zeta.
      rewrite (owed_debts s _ _ (debts_ensureRegistered _)), owed_emit by done.
      pose proof (owed_releaseEverything s c) as H. revert H. generalize (releaseEverything c). intros c1 H.
      change (owed s (set_registrationAnnounced false c1)) with (owed s c1). lia.
    + apply Hsame, debts_onShardHome.
    + eapply Hsame, debts_served, served_onRememberedEntities.
    + eapply Hsame, debts_served, served_routeMessage.
    + apply Hsame. unfold onShardReply. destruct (map_get _ _) as [[? ?]|]; [|done]. by rewrite debts_emit.
    + eapply Hsame, debts_served, served_routeMessage.
    + eapply Hsame, debts_served, served_onToShard.
    + apply Hsame, debts_profile, quiet_onEntityStarted.
    + apply Hsame, debts_profile, quiet_onEntityStopped.
    + eapply Hsame, debts_served, served_onGetShards.
    + eapply Hsame, debts_served, served_onGetShardLocation.
    + apply Hsame. unfold onGetShardRegionStats. by rewrite debts_emit.
    + eapply Hsame, debts_served, served_onClusterShardingStats.
    + apply Hsame. unfold onShardMapUpdate. destruct (negb _); [done|]. by rewrite debts_emit.
    + apply Hsame. by rewrite debts_emit.
  - eapply Hsame, debts_served, served_routeMessage.
  - etrans; [apply owed_handleShardTerminated|lia].
  - apply Hsame, debts_profile, quiet_handlePassivate.
  - eapply Hsame, debts_served, served_onEntityRecoveryTick.
  - apply Hsame, debts_profile, quiet_onPassivationSweepTick.
  - by apply Hsame.
  - apply Hsame, debts_respawn.
  - eapply Hsame, debts_served, served_declined.
  - apply Hsame, debts_ensureRegistered.
  - apply Hsame, debts_profile, quiet_sendRegionHeartbeat.
  - apply Hsame. unfold onLeaderChanged. rewrite debts_ensureRegistered. destruct (registerRefused _); [by rewrite debts_emit|done].
  - apply Hsame. unfold onMemberRemoved. rewrite debts_ensureRegistered. unfold invalidateHomesOnNode.
    apply (fold_same debts). intros c' [x n]. cbn. by destruct (equals n node).
  - apply Hsame, debts_ensureRegistered.
Qed.

(** ** Nothing is left *)

(** A refused region hosts nothing but what it is letting go. *)
Definition refused_ok c : Prop := registerRefused (registration c) = true →
  localShards (own c) = [] ∧ ∀ s, is_Some (map_get (shards (own c)) s) → s ∈ releasingShards (own c).

Definition gone s c : Prop := map_get (shards (own c)) s = None ∧ s ∉ localShards (own c).

(** What a step says to be complete is gone when the step is over. *)
Definition honest c c' : Prop :=
  ∃ said, completions c' = completions c ++ said ∧ ∀ s, s ∈ said → gone s c'.

Definition sound c c' : Prop := refused_ok c → refused_ok c' ∧ honest c c'.

Definition estate c := (localShards (own c), shards (own c), releasingShards (own c), registerRefused (registration c)).

Lemma estate_emit (x : Effect Message Ref) c : estate (emit x c) = estate c.
Proof. done. Qed.

Lemma refused_ok_estate c c' : estate c' = estate c → refused_ok c → refused_ok c'.
Proof. unfold estate, refused_ok. by intros [= -> -> -> ->]. Qed.

Lemma refused_ok_served new c c' : served config new c c' → refused_ok c → refused_ok c'.
Proof.
  intros [Hw Hg _] Hc Hr. unfold wards in Hw. cbv zeta in Hw. injection Hw as _ _ Hl _ Hrel _ Href _.
  rewrite Href in Hr. destruct (Hc Hr) as [Hnil Hall]. rewrite Hl, Hrel. split; [done|]. intros s Hs. apply Hall.
  destruct (Hg s) as [He|(_ & Hin & _)]; [by rewrite <- He|]. rewrite Hnil in Hin. by apply elem_of_nil in Hin.
Qed.

Lemma refused_ok_registered c : registerRefused (registration c) = false → refused_ok c.
Proof. intros H. unfold refused_ok. by rewrite H. Qed.

Lemma honest_silent c c' : completions c' = completions c → honest c c'.
Proof. intros H. exists []. rewrite app_nil_r. split; [done|]. by intros s ?%elem_of_nil. Qed.

Lemma completions_debts c c' : debts c' = debts c → completions c' = completions c.
Proof. by intros [= -> _ _]. Qed.

Lemma sound_served new c c' : served config new c c' → sound c c'.
Proof.
  intros H Hc. split; [by eapply refused_ok_served|]. apply honest_silent. by eapply completions_debts, debts_served.
Qed.

Lemma sound_profile c c' : profile config c' = profile config c → sound c c'.
Proof. intros H. by eapply sound_served, served_profile. Qed.

Lemma sound_silent c c' : debts c' = debts c → (refused_ok c → refused_ok c') → sound c c'.
Proof. intros Hd Hr Hc. split; [by apply Hr|by apply honest_silent, completions_debts]. Qed.

Lemma estate_profile c c' : profile config c' = profile config c → estate c' = estate c.
Proof. unfold profile, estate. cbv zeta. by intros [= _ _ -> -> _ -> _ -> _ _ _ _ _]. Qed.

Lemma refused_ok_fewer c shardId : refused_ok c → ∀ c', estate c' = (localShards (own c), map_delete (shards (own c)) shardId,
  releasingShards (own c), registerRefused (registration c)) → refused_ok c'.
Proof.
  intros Hc c'. unfold estate, refused_ok. intros [= -> -> -> ->] Hr. destruct (Hc Hr) as [Hl Ha]. split; [done|].
  intros s. rewrite map_get_delete. case_decide; [by intros []|apply Ha].
Qed.

Lemma completeHandOff_refused shardId c :
  registerRefused (registration (completeHandOff config v shardId c)) = registerRefused (registration c).
Proof.
  unfold completeHandOff. set (c1 := set_shardState _ _).
  assert (H : ∀ m c0, registerRefused (registration (tellCoordinator config v m c0)) = registerRefused (registration c0)).
  { clear. intros m c. unfold tellCoordinator. destruct (coordinatorRef _); [done|].
    by pose proof (estate_profile _ _ (quiet_ensureRegistered config v c)) as [= _ _ _ ->]. }
  unfold tellHandOffComplete. destruct (map_has _ _); [|by rewrite H]. unfold askCoordinator. case_match; by rewrite ?H.
Qed.

Lemma sound_completeHandOff shardId c0 c : completions c = completions c0 → (refused_ok c0 → refused_ok c) →
  sound c0 (completeHandOff config v shardId c).
Proof.
  intros Hco H0 Hc%H0. destruct (completeHandOff_spec shardId c) as ((said & Hs & Hsaid) & _ & _ & Hsh & Hl & Hrel).
  split.
  - intros Hr. rewrite completeHandOff_refused in Hr. destruct (Hc Hr) as [Hnil Ha]. rewrite Hl, Hsh, Hrel, Hnil.
    split; [done|]. intros s. rewrite map_get_delete. case_decide; [by intros []|apply Ha].
  - exists said. rewrite Hsaid, Hco. split; [done|]. intros s Hin. assert (s = shardId) as ->.
    { destruct Hs as [->| ->]; [by apply elem_of_nil in Hin|by apply list_elem_of_singleton in Hin]. }
    split; [rewrite Hsh, map_get_delete; by rewrite decide_True|]. rewrite Hl. by intros [_ ?]%elem_of_set_delete.
Qed.

Lemma sound_completeShardRelease shardId c : sound c (completeShardRelease config v shardId c).
Proof.
  intros Hc. unfold completeShardRelease. set (c1 := set_handOffsAwaitingRelease _ _).
  assert (Hc1 : refused_ok c1).
  { intros Hr. destruct (Hc Hr) as [Hl Ha]. split; [done|]. intros s.
    change (shards (own c1)) with (map_delete (shards (own c)) shardId).
    change (releasingShards (own c1)) with (set_delete (releasingShards (own c)) shardId).
    rewrite map_get_delete, elem_of_set_delete. case_decide; [by intros []|]. intros Hs. split; [by apply Ha|done]. }
  destruct (_ && _) eqn:E; [|split; [done|by apply honest_silent]].
  apply andb_true_iff in E as [_ Hr]. destruct (tellHandOffComplete_says shardId c1) as (said & Hs & Hsaid).
  unfold tellHandOffComplete in *. split.
  - intros _. rewrite own_tellCoordinator. by apply Hc1.
  - exists said. split; [by rewrite Hsaid|]. intros s Hin. unfold gone. rewrite own_tellCoordinator.
    assert (s = shardId) as -> by (destruct Hs as [->| ->]; [by apply elem_of_nil in Hin|by apply list_elem_of_singleton in Hin]).
    split.
    + change (shards (own c1)) with (map_delete (shards (own c)) shardId). rewrite map_get_delete. by rewrite decide_True.
    + destruct (Hc1 Hr) as [-> _]. by apply not_elem_of_nil.
Qed.

Lemma estate_forgotten shardId c : estate (forgetShardEntities shardId (set_shards (map_delete (shards (own c)) shardId) c)) =
  (localShards (own c), map_delete (shards (own c)) shardId, releasingShards (own c), registerRefused (registration c)).
Proof. by rewrite (estate_profile _ _ (quiet_forgetShardEntities config shardId _)). Qed.

Lemma sound_handleShardTerminated actor c : sound c (handleShardTerminated config v actor c).
Proof.
  unfold handleShardTerminated. destruct (List.find _ _) as [[shardId path]|]; [|by apply sound_profile].
  destruct (set_has (releasingShards _) _); [apply sound_completeShardRelease|].
  destruct (set_has (handingOff _) _); [by apply sound_completeHandOff|].
  destruct (set_has (passivatingShards _) _); (apply sound_silent; [|intros Hc]).
  - apply debts_completeShardPassivation.
  - unfold completeShardPassivation. eapply refused_ok_served; [apply served_startRegistry|].
    eapply refused_ok_served; [apply served_flushBuffer|].
    apply (refused_ok_fewer c shardId Hc). rewrite <- (estate_forgotten shardId c).
    set (c0 := set_shards _ _). set (c1 := set_shards (map_delete (shards (own c)) shardId) c).
    trans (estate (forgetShardEntities shardId c0)); [by destruct (set_has _ _)|].
    rewrite !(estate_profile _ _ (quiet_forgetShardEntities config shardId _)). done.
  - apply debts_handleTerminated_rest.
  - unfold backOffShard. apply (refused_ok_fewer c shardId Hc). rewrite <- estate_forgotten.
    destruct (negb _); [done|]. by destruct (map_get _ shardId).
Qed.

Lemma releaseEverything_spec c : let c' := releaseEverything c in
  localShards (own c') = [] ∧ (∀ s, is_Some (map_get (shards (own c')) s) → s ∈ releasingShards (own c')) ∧
  completions c' = completions c.
Proof.
  cbv zeta. unfold releaseEverything. set (c1 := foldl _ (set_registriesHeldThroughPassivation _ _) _).
  assert (H1 : debts c1 = debts c ∧ estate c1 = ([], shards (own c), releasingShards (own c), registerRefused (registration c))).
  { unfold c1. set (c0 := set_registriesHeldThroughPassivation _ _).
    generalize (shardFailures (own c0)).*1 as l. intros l.
    assert (H : ∀ c0, debts (foldl (λ c s, dropShardFailure s c) c0 l) = debts c0 ∧
                      estate (foldl (λ c s, dropShardFailure s c) c0 l) = estate c0).
    { clear. induction l as [|a l IH]; intros c0; [done|]. cbn. by destruct (IH (dropShardFailure a c0)) as [-> ->]. }
    destruct (H c0) as [-> ->]. done. }
  destruct H1 as [Hd [= Hl Hs Hr _]].
  assert (Hfold : ∀ (l : list (Z * string)) c0, localShards (own (foldl release_shard c0 l)) = localShards (own c0) ∧
    shards (own (foldl release_shard c0 l)) = shards (own c0) ∧ completions (foldl release_shard c0 l) = completions c0 ∧
    ∀ s, s ∈ l.*1 ∨ s ∈ releasingShards (own c0) → s ∈ releasingShards (own (foldl release_shard c0 l))).
  { clear -config. intros l. induction l as [|[shardId path] l IH]; intros c0.
    - split_and!; [done..|]. intros s [?%elem_of_nil|?]; done.
    - cbn [foldl]. destruct (IH (release_shard c0 (shardId, path))) as (-> & -> & -> & H). set (c2 := set_releasingShards
        (set_add (releasingShards (own c0)) shardId) (set_passivatingShards (set_delete (passivatingShards (own c0)) shardId)
          (set_handingOff (set_delete (handingOff (own c0)) shardId) c0))).
      assert (E : estate (release_shard c0 (shardId, path)) = estate c2).
      { unfold release_shard. fold c2. rewrite estate_emit. apply estate_profile, quiet_forgetShardEntities. }
      pose proof (f_equal (λ t, t.1.1.1) E) as El. pose proof (f_equal (λ t, t.1.1.2) E) as Es.
      pose proof (f_equal (λ t, t.1.2) E) as Er. unfold estate in El, Es, Er. cbn [fst snd] in El, Es, Er.
      split_and!; [by rewrite El|by rewrite Es| |].
      + unfold release_shard. fold c2. trans (completions (forgetShardEntities shardId c2)).
        * by apply completions_debts, debts_emit.
        * change (completions c0) with (completions c2). apply completions_debts, (debts_profile _ _), quiet_forgetShardEntities.
      + intros s Hin. apply H. rewrite Er. change (releasingShards (own c2)) with (set_add (releasingShards (own c0)) shardId).
        rewrite elem_of_set_add. cbn [fmap list_fmap] in Hin. rewrite elem_of_cons in Hin. cbn in Hin. naive_solver. }
  destruct (Hfold (shards (own c1)) c1) as (-> & -> & -> & Hin). split_and!; [done| |by apply completions_debts].
  intros s [p Hp]. apply Hin. left. destruct (decide (s ∈ (shards (own c1)).*1)) as [|Hn]; [done|].
  apply map_get_None in Hn. congruence.
Qed.

Lemma refused_ok_released c : refused_ok (releaseEverything c).
Proof. destruct (releaseEverything_spec c) as (Hl & Hs & _). by intros _. Qed.

Lemma sound_ensureRegistered c0 c : completions c = completions c0 → (refused_ok c0 → refused_ok c) →
  sound c0 (ensureRegistered config v c).
Proof.
  intros Hco H0 Hc%H0. split.
  - apply (refused_ok_estate c); [by apply estate_profile, quiet_ensureRegistered|done].
  - apply honest_silent. rewrite <- Hco. apply completions_debts, debts_ensureRegistered.
Qed.

Lemma registered_profile c c' : profile config c' = profile config c →
  registerRefused (registration c') = registerRefused (registration c).
Proof. intros H%estate_profile. by injection H. Qed.

Lemma registered_served new c c' : served config new c c' → registerRefused (registration c') = registerRefused (registration c).
Proof. intros [Hw _ _]. unfold wards in Hw. cbv zeta in Hw. by injection Hw. Qed.

Lemma sound_onShardHome peer shardId region node c : sound c (onShardHome config v peer shardId region node c).
Proof.
  apply sound_silent; [apply debts_onShardHome|]. intros Hc. unfold onShardHome. destruct (negb _); [done|].
  destruct (registerRefused (registration c)) eqn:Hr; [done|]. destruct (negb _); [done|]. cbv zeta. apply refused_ok_registered.
  assert (Hens : ∀ s c0, registerRefused (registration (ensureShard config v s c0).1) = registerRefused (registration c0))
    by (intros s c0; unfold ensureShard; by destruct (map_get _ s)).
  destruct (_ && _).
  - destruct (bool_decide _); [by erewrite registered_served by apply served_flushLocationAsks|].
    destruct (set_has _ _); [by erewrite registered_served by apply served_flushLocationAsks|].
    erewrite registered_served by apply served_flushBuffer. erewrite registered_served by apply served_flushLocationAsks.
    destruct (proxy config); [done|]. by rewrite Hens.
  - erewrite registered_served by apply served_flushBuffer. by erewrite registered_served by apply served_flushLocationAsks.
Qed.

Lemma sound_onHandOff peer shardId c : sound c (onHandOff config v peer shardId c).
Proof.
  unfold onHandOff. destruct (negb _); [by apply sound_profile|]. destruct (registerRefused (registration c)) eqn:Hr.
  - intros Hc. destruct (Hc Hr) as [Hl Ha]. unfold answerHandOffWhileRefused. destruct (set_has _ _) eqn:Hrel.
    { split; [done|by apply honest_silent]. }
    destruct (tellHandOffComplete_says shardId c) as (said & Hs & Hsaid). unfold tellHandOffComplete in *. split.
    + intros _. by rewrite own_tellCoordinator.
    + exists said. split; [done|]. intros s Hin. unfold gone. rewrite own_tellCoordinator, Hl.
      assert (s = shardId) as -> by (destruct Hs as [->| ->]; [by apply elem_of_nil in Hin|by apply list_elem_of_singleton in Hin]).
      split; [|by apply not_elem_of_nil]. apply eq_None_not_Some. intros Hsome%Ha%set_has_true. congruence.
  - destruct (negb _); [by apply sound_profile|]. destruct (negb _); [by apply sound_profile|]. cbv zeta.
    set (c1 := forgetShardEntities shardId _).
    assert (H1 : completions c1 = completions c ∧ registerRefused (registration c1) = false).
    { unfold c1. set (c0 := set_shardState _ c). set (c2 := tellCoordinator config v _ c0).
      assert (Hp : profile config c2 = profile config c0) by (by apply quiet_tellCoordinator).
      pose proof (quiet_forgetShardEntities config shardId c2) as Hq. rewrite Hp in Hq. split.
      - exact (completions_debts _ _ (debts_profile _ _ Hq)).
      - by rewrite (registered_profile _ _ Hq). }
    destruct H1 as [Hco Hr1]. destruct (map_get _ shardId).
    + intros _. split; [by apply refused_ok_registered|]. apply honest_silent. rewrite <- Hco.
      unfold completions. cbn. by rewrite bind_app, app_nil_r.
    + apply sound_completeHandOff; [done|]. intros _. by apply refused_ok_registered.
Qed.

Lemma sound_handle e c : sound c (handle config v e c).
Proof.
  assert (Hemit : ∀ (x : Effect Message Ref) c0, completed x = [] → completions (emit x c0) = completions c0)
    by (intros; by apply completions_debts, debts_emit).
  destruct e as [m peer sender| | | | | | |s r| | | | |node|]; cbn [handle].
  - destruct m; cbn [handleShardingMessage]; try exact (sound_onHandOff peer shardId c).
    + unfold onRegisterAcknowledgment. destruct (negb _); [by apply sound_profile|]. cbv zeta.
      set (c0 := set_registerTimer _ _). assert (Hq : profile config (askAgainForPendingQueries config v c0) = profile config c0)
        by apply quiet_askAgain. set (c1 := askAgainForPendingQueries _ _ _) in *.
      assert (Hr : registerRefused (registration c1) = false) by (by rewrite (registered_profile _ _ Hq)).
      assert (Hco : completions c1 = completions c) by exact (completions_debts _ _ (debts_profile _ _ Hq)).
      intros _. destruct (registrationAnnounced _); (split; [by apply refused_ok_registered|apply honest_silent]); [done|by rewrite Hemit].
    + unfold onRegisterRefused. destruct (negb _); [by apply sound_profile|]. cbv zeta. intros _.
      split; [apply refused_ok_released|]. apply honest_silent. destruct (releaseEverything_spec (emit
        (Publish (ShardRegionRegistrationRefused regionNumShards governed)) (set_registerTimer false
          (set_registrationAnnounced false (set_registerRefused true c))))) as (_ & _ & ->). by rewrite Hemit.
    + unfold onRegistrationRequest. destruct (negb _); [by apply sound_profile|by apply sound_ensureRegistered].
    + unfold onRegionEvicted. destruct (negb _); [by apply sound_profile|]. cbv zeta. apply sound_ensureRegistered.
      * rewrite Hemit by done. destruct (releaseEverything_spec c) as (_ & _ & <-). by generalize (releaseEverything c).
      * intros _. pose proof (refused_ok_released c) as Hr. revert Hr. by generalize (releaseEverything c).
    + apply sound_onShardHome.
    + eapply sound_served, served_onRememberedEntities.
    + eapply sound_served, served_routeMessage.
    + apply sound_profile, quiet_onShardReply.
    + eapply sound_served, served_routeMessage.
    + eapply sound_served, served_onToShard.
    + apply sound_profile, quiet_onEntityStarted.
    + apply sound_profile, quiet_onEntityStopped.
    + eapply sound_served, served_onGetShards.
    + eapply sound_served, served_onGetShardLocation.
    + by apply sound_profile, profile_emit.
    + eapply sound_served, served_onClusterShardingStats.
    + unfold onShardMapUpdate. destruct (negb _); apply sound_profile; [done|by apply profile_emit].
    + by apply sound_profile, profile_emit.
  - eapply sound_served, served_routeMessage.
  - apply sound_handleShardTerminated.
  - apply sound_profile, quiet_handlePassivate.
  - eapply sound_served, served_onEntityRecoveryTick.
  - apply sound_profile, quiet_onPassivationSweepTick.
  - by apply sound_profile.
  - apply sound_silent; [apply debts_respawn|]. unfold onShardRespawnTick. destruct (map_get _ s) as [record|]; [|done].
    destruct (negb _); [done|]. destruct (_ || _) eqn:E; [done|]. rewrite orb_false_iff, !negb_false_iff, set_has_true in E.
    destruct E as [_ Hl]. intros Hc. cbv zeta. set (c1 := set_shardState _ _).
    assert (Hc1 : refused_ok c1) by done. set (c2 := flushBuffer _ _ _ _).
    assert (Hc2 : refused_ok c2).
    { eapply refused_ok_served; [apply served_flushBuffer|]. eapply refused_ok_served; [by apply served_ensureShard|done]. }
    destruct (rememberEntities config); [|done].
    eapply refused_ok_estate; [|done]. eapply estate_profile. by apply quiet_tellCoordinator.
  - eapply sound_served, served_declined.
  - by apply sound_ensureRegistered.
  - apply sound_profile, quiet_sendRegionHeartbeat.
  - unfold onLeaderChanged. destruct (registerRefused _); apply sound_ensureRegistered; (done || by rewrite Hemit).
  - unfold onMemberRemoved. assert (H : (estate (invalidateHomesOnNode node c), completions (invalidateHomesOnNode node c)) =
                                        (estate c, completions c)).
    { unfold invalidateHomesOnNode. apply (fold_same (λ c, (estate c, completions c))). intros c' [x n]. cbn. by destruct (equals n node). }
    injection H as He Hco. apply sound_ensureRegistered; [done|]. apply refused_ok_estate. unfold estate. congruence.
  - by apply sound_ensureRegistered.
Qed.

(** ** The shard actors themselves *)

(** Whether an event is the end of the actor at [path]. *)
Definition ends e (path : string) : bool :=
  match e with Terminated actor => bool_decide (path = actor) | _ => false end.

(** The shard actors of this region that have not ended, after a step: those
    before it less the one whose end it is, and those the step spawned.  A path
    names one actor at a time. *)
Definition survivors e c c' (alive : list (Z * string)) : list (Z * string) :=
  filter (λ x, ends e x.2 = false) alive ++ drop (length (spawns c)) (spawns c').

(** Every actor that lives is one the region tells of. *)
Definition tended (alive : list (Z * string)) c : Prop :=
  (∀ x, x ∈ alive → x ∈ shards (own c)) ∧
  (∀ x, x ∈ shards (own c) → x.2 = shardPath (self_path config) x.1).

(** [keeps], but for one shard. *)
Definition loses shardId c c' : Prop := ∃ new, spawns c' = spawns c ++ new ∧
  (∀ x, x ∈ new → x ∈ shards (own c')) ∧
  (∀ x, x ∈ shards (own c) → x.1 ≠ shardId → x ∈ shards (own c')) ∧
  (∀ x, x ∈ shards (own c') → x ∈ shards (own c) ∨ x.2 = shardPath (self_path config) x.1).

Lemma keeps_served new c c' : served config new c c' → keeps config c c'.
Proof. by intros []. Qed.

Lemma keeps_profile c c' : profile config c' = profile config c → keeps config c c'.
Proof. intros H. by eapply keeps_served, served_profile. Qed.

Lemma keeps_refl c : keeps config c c.
Proof. by apply keeps_unmoved. Qed.

Lemma keeps_emit (x : Effect Message Ref) c : spawned x = [] → keeps config c (emit x c).
Proof. intros Hx. apply keeps_unmoved; [done|]. unfold spawns. cbn. rewrite bind_app. cbn. by rewrite Hx, !app_nil_r. Qed.

Lemma loses_keeps shardId c1 c2 c3 : loses shardId c1 c2 → keeps config c2 c3 → loses shardId c1 c3.
Proof.
  intros (n1 & E1 & N1 & K1 & P1) (n2 & E2 & N2 & K2 & P2). exists (n1 ++ n2). rewrite E2, E1, <- app_assoc.
  split_and!; [done| |auto|].
  - intros x [Hx|Hx]%elem_of_app; auto.
  - intros x [Hx|Hx]%P2; auto.
Qed.

Lemma loses_deleted shardId c c' : shards (own c') = map_delete (shards (own c)) shardId → spawns c' = spawns c → loses shardId c c'.
Proof.
  intros Hs Hn. exists []. rewrite Hs, Hn, app_nil_r. unfold map_delete. split_and!; [done| | |].
  - by intros x ?%elem_of_nil.
  - intros x Hx Hne. by apply list_elem_of_filter.
  - intros x [_ Hx]%list_elem_of_filter. by left.
Qed.

Lemma loses_none shardId c c' : map_get (shards (own c)) shardId = None → loses shardId c c' → keeps config c c'.
Proof.
  intros Hn (new & E & N & K & P). exists new. split_and!; [done..| |done]. intros x Hx. apply K; [done|]. intros <-.
  apply map_get_None in Hn. apply Hn, list_elem_of_fmap. by exists x.
Qed.

Lemma keeps_tellCoordinator m c : keeps config c (tellCoordinator config v m c).
Proof.
  unfold tellCoordinator. destruct (coordinatorRef _); [by apply keeps_emit|apply keeps_profile, quiet_ensureRegistered].
Qed.

Lemma keeps_ensureRegistered c : keeps config c (ensureRegistered config v c).
Proof. apply keeps_profile, quiet_ensureRegistered. Qed.

Lemma keeps_then c1 c2 c3 : keeps config c1 c2 → profile config c3 = profile config c2 → keeps config c1 c3.
Proof. intros H1 H2%keeps_profile. by eapply keeps_trans. Qed.

Lemma loses_completeHandOff shardId c : loses shardId c (completeHandOff config v shardId c).
Proof.
  unfold completeHandOff, tellHandOffComplete. set (c1 := set_shardState _ _).
  apply (loses_keeps _ _ c1); [by apply loses_deleted|]. destruct (map_has _ _); [|apply keeps_tellCoordinator].
  eapply keeps_then; [apply keeps_tellCoordinator|apply quiet_askCoordinator].
Qed.

Lemma loses_completeShardRelease shardId c : loses shardId c (completeShardRelease config v shardId c).
Proof.
  unfold completeShardRelease, tellHandOffComplete. set (c1 := set_handOffsAwaitingRelease _ _).
  apply (loses_keeps _ _ c1); [by apply loses_deleted|]. destruct (_ && _); [apply keeps_tellCoordinator|apply keeps_refl].
Qed.

Lemma loses_forgotten shardId c0 c : shards (own c0) = map_delete (shards (own c)) shardId → spawns c0 = spawns c →
  loses shardId c (forgetShardEntities shardId c0).
Proof.
  intros Hs Hn. eapply loses_keeps; [by apply loses_deleted|]. apply keeps_profile, quiet_forgetShardEntities.
Qed.

Lemma loses_completeShardPassivation shardId c : loses shardId c (completeShardPassivation config v shardId c).
Proof.
  unfold completeShardPassivation. eapply loses_keeps; [|eapply keeps_served, served_startRegistry].
  eapply loses_keeps; [|eapply keeps_served, served_flushBuffer].
  set (c1 := forgetShardEntities shardId _). apply (loses_keeps _ _ c1); [by apply loses_forgotten|].
  by destruct (set_has _ _); apply keeps_unmoved.
Qed.

Lemma keeps_backOffShard shardId c : keeps config c (backOffShard config v shardId c).
Proof.
  unfold backOffShard. destruct (negb _); [by apply keeps_unmoved|].
  destruct (map_get _ shardId); (eapply keeps_trans; [|by apply keeps_emit]); by apply keeps_unmoved.
Qed.

(** Only the shard of the actor that ended is dropped. *)
Lemma loses_handleShardTerminated actor c : let c' := handleShardTerminated config v actor c in
  keeps config c c' ∨ ∃ shardId, (shardId, actor) ∈ shards (own c) ∧ loses shardId c c'.
Proof.
  cbv zeta. unfold handleShardTerminated. destruct (List.find _ _) as [[shardId path]|] eqn:E; [right|left; apply keeps_refl].
  apply List.find_some in E as [Hin%list_elem_of_In Hp%bool_decide_eq_true]. cbn in Hp. subst path. exists shardId. split; [done|].
  destruct (set_has (releasingShards _) _); [apply loses_completeShardRelease|].
  destruct (set_has (handingOff _) _); [apply loses_completeHandOff|].
  destruct (set_has (passivatingShards _) _); [apply loses_completeShardPassivation|].
  eapply loses_keeps; [|apply keeps_backOffShard]. by apply loses_forgotten.
Qed.

Lemma keeps_fold {A} (f : ShardRegion → A → ShardRegion) : (∀ c a, keeps config c (f c a)) → ∀ l c, keeps config c (foldl f c l).
Proof.
  intros Hf l. induction l as [|a l IH]; intros c; [apply keeps_refl|]. cbn. eapply keeps_trans; [apply Hf|apply IH].
Qed.

Lemma keeps_releaseEverything c : keeps config c (releaseEverything c).
Proof.
  unfold releaseEverything. set (c0 := set_registriesHeldThroughPassivation _ _). apply (keeps_trans _ _ c0); [by apply keeps_unmoved|].
  eapply keeps_trans; [|apply keeps_fold]; [apply keeps_fold; intros; by apply keeps_unmoved|].
  intros c' [s path]. unfold release_shard. eapply keeps_trans; [|by apply keeps_emit].
  set (c1 := set_releasingShards _ _). apply (keeps_trans _ _ c1); [by apply keeps_unmoved|]. apply keeps_profile, quiet_forgetShardEntities.
Qed.

Lemma keeps_ensureShard shardId c : keeps config c (ensureShard config v shardId c).1.
Proof.
  unfold ensureShard. destruct (map_get _ shardId) eqn:E; [apply keeps_refl|]. cbn [fst].
  eapply keeps_trans; [by apply keeps_spawn|]. by apply keeps_unmoved.
Qed.

Lemma keeps_respawn shardId record c : keeps config c (onShardRespawnTick config v shardId record c).
Proof.
  unfold onShardRespawnTick. destruct (map_get _ shardId) as [r|]; [|apply keeps_refl]. destruct (negb _); [apply keeps_refl|].
  destruct (_ || _); [apply keeps_refl|]. cbv zeta. set (c1 := set_shardState _ _).
  apply (keeps_trans _ _ c1); [by apply keeps_unmoved|]. apply (keeps_trans _ _ (ensureShard config v shardId c1).1); [apply keeps_ensureShard|].
  assert (Hf : keeps config (ensureShard config v shardId c1).1 (flushBuffer config v shardId (ensureShard config v shardId c1).1))
    by (eapply keeps_served, served_flushBuffer).
  destruct (rememberEntities config); [|done]. eapply keeps_trans; [done|apply keeps_tellCoordinator].
Qed.

Lemma keeps_onShardHome peer shardId region node c : keeps config c (onShardHome config v peer shardId region node c).
Proof.
  unfold onShardHome. destruct (negb _); [apply keeps_refl|]. destruct (registerRefused _); [apply keeps_refl|].
  destruct (negb _); [apply keeps_refl|]. cbv zeta.
  assert (Hloc : ∀ c0, keeps config c c0 → keeps config c (flushLocationAsks config v shardId c0)).
  { intros c0 H0. eapply keeps_trans; [done|]. eapply keeps_served, served_flushLocationAsks. }
  assert (Hboth : ∀ c0, keeps config c c0 → keeps config c (flushBuffer config v shardId (flushLocationAsks config v shardId c0))).
  { intros c0 H0. eapply keeps_trans; [by apply Hloc|]. eapply keeps_served, served_flushBuffer. }
  destruct (_ && _); [|apply Hboth; by apply keeps_unmoved]. destruct (bool_decide _); [apply Hloc; by apply keeps_unmoved|].
  destruct (set_has _ _); [apply Hloc; by apply keeps_unmoved|]. apply Hboth.
  destruct (proxy config); [by apply keeps_unmoved|]. eapply keeps_trans; [|apply keeps_ensureShard]. by apply keeps_unmoved.
Qed.

Lemma keeps_onHandOff peer shardId c : keeps config c (onHandOff config v peer shardId c).
Proof.
  unfold onHandOff, answerHandOffWhileRefused, tellHandOffComplete. destruct (negb _); [apply keeps_refl|].
  destruct (registerRefused _); [destruct (set_has _ _); [by apply keeps_unmoved|apply keeps_tellCoordinator]|].
  destruct (negb _); [apply keeps_refl|]. destruct (negb _); [apply keeps_refl|]. cbv zeta.
  set (c0 := set_shardState _ c). set (c1 := forgetShardEntities shardId _).
  assert (H1 : keeps config c c1).
  { apply (keeps_trans _ _ c0); [by apply keeps_unmoved|]. eapply keeps_then; [apply keeps_tellCoordinator|apply quiet_forgetShardEntities]. }
  eapply keeps_trans; [done|]. destruct (map_get (shards (own c1)) shardId) eqn:E.
  - eapply keeps_trans; [|by apply keeps_emit]. by apply keeps_unmoved.
  - apply (loses_none shardId); [done|apply loses_completeHandOff].
Qed.

Lemma keeps_event e c : (∀ actor, e ≠ Terminated actor) → keeps config c (handle config v e c).
Proof.
  intros Ht. destruct e as [m peer sender| | | | | | |s r| | | | |node|]; cbn [handle].
  - destruct m; cbn [handleShardingMessage].
    + unfold onRegisterAcknowledgment. destruct (negb _); [apply keeps_refl|]. cbv zeta. set (c0 := set_registerTimer _ _).
      assert (H1 : keeps config c (askAgainForPendingQueries config v c0)).
      { apply (keeps_trans _ _ c0); [by apply keeps_unmoved|]. apply keeps_profile, quiet_askAgain. }
      destruct (registrationAnnounced _); [done|]. eapply keeps_trans; [done|]. by eapply keeps_trans; [|apply keeps_emit]; [apply keeps_unmoved|].
    + unfold onRegisterRefused. destruct (negb _); [apply keeps_refl|]. cbv zeta. eapply keeps_trans; [|apply keeps_releaseEverything].
      eapply keeps_trans; [|by apply keeps_emit]. by apply keeps_unmoved.
    + unfold onRegistrationRequest. destruct (negb _); [apply keeps_refl|apply keeps_ensureRegistered].
    + unfold onRegionEvicted. destruct (negb _); [apply keeps_refl|]. cbv zeta. eapply keeps_trans; [|apply keeps_ensureRegistered].
      eapply keeps_trans; [|by apply keeps_emit]. eapply keeps_trans; [apply keeps_releaseEverything|by apply keeps_unmoved].
    + apply keeps_onShardHome.
    + apply keeps_onHandOff.
    + eapply keeps_served, served_onRememberedEntities.
    + eapply keeps_served, served_routeMessage.
    + apply keeps_profile, quiet_onShardReply.
    + eapply keeps_served, served_routeMessage.
    + eapply keeps_served, served_onToShard.
    + apply keeps_profile, quiet_onEntityStarted.
    + apply keeps_profile, quiet_onEntityStopped.
    + eapply keeps_served, served_onGetShards.
    + eapply keeps_served, served_onGetShardLocation.
    + by apply keeps_emit.
    + eapply keeps_served, served_onClusterShardingStats.
    + unfold onShardMapUpdate. destruct (negb _); [apply keeps_refl|by apply keeps_emit].
    + by apply keeps_emit.
  - eapply keeps_served, served_routeMessage.
  - by destruct (Ht actor).
  - apply keeps_profile, quiet_handlePassivate.
  - eapply keeps_served, served_onEntityRecoveryTick.
  - apply keeps_profile, quiet_onPassivationSweepTick.
  - by apply keeps_profile.
  - apply keeps_respawn.
  - eapply keeps_served, served_declined.
  - apply keeps_ensureRegistered.
  - apply keeps_profile, quiet_sendRegionHeartbeat.
  - unfold onLeaderChanged. eapply keeps_trans; [|apply keeps_ensureRegistered].
    destruct (registerRefused _); [|by apply keeps_unmoved]. by eapply keeps_trans; [|apply keeps_emit]; [apply keeps_unmoved|].
  - unfold onMemberRemoved, invalidateHomesOnNode. eapply keeps_trans; [|apply keeps_ensureRegistered].
    apply keeps_fold. intros c' [x n]. cbn. destruct (equals n node); [|apply keeps_refl]. by apply keeps_unmoved.
  - apply keeps_ensureRegistered.
Qed.

(** Every step tends the actors that live. *)
Lemma tended_handle e c alive : tended alive c → tended (survivors e c (handle config v e c) alive) (handle config v e c).
Proof.
  intros [Ha Hp]. assert (H : keeps config c (handle config v e c) ∨
      ∃ shardId, ends e (shardPath (self_path config) shardId) = true ∧ loses shardId c (handle config v e c)).
  { assert ((∃ actor, e = Terminated actor) ∨ ∀ actor, e ≠ Terminated actor) as [[actor ->]|Hn]
      by (destruct e; (by left; eexists) || by right).
    - destruct (loses_handleShardTerminated actor c) as [H|(s & Hin & H)]; [by left|]. right. exists s. split; [|done].
      apply Hp in Hin. cbn in Hin |- *. by apply bool_decide_eq_true.
    - left. by apply keeps_event. }
  assert (∃ new, spawns (handle config v e c) = spawns c ++ new ∧ (∀ x, x ∈ new → x ∈ shards (own (handle config v e c))) ∧
    (∀ x, x ∈ shards (own c) → ends e x.2 = false → x ∈ shards (own (handle config v e c))) ∧
    (∀ x, x ∈ shards (own (handle config v e c)) → x ∈ shards (own c) ∨ x.2 = shardPath (self_path config) x.1)) as (new & E & N & K & P).
  { destruct H as [(new & E & N & K & P)|(s & Hs & new & E & N & K & P)]; exists new; split_and!; auto.
    intros x Hx He. apply K; [done|]. intros <-. rewrite (Hp x Hx) in He. congruence. }
  unfold survivors. rewrite E, drop_app_length. split.
  - intros x [[He Hx]%list_elem_of_filter|Hx]%elem_of_app; auto.
  - intros x [Hx|Hx]%P; auto.
Qed.

End region.

Section runs.
Context {Message Ref : Type} (config : ShardRegionConfig Message) (v : View).

Implicit Types (events : list (View * Event Message Ref)).

(** The coordinator hears of a hand-off's end at most once for each time it
    asked for the hand-off. *)
Theorem handoffs_answered_once events s :
  (count s (completions (run config v events)) ≤ sum_list_with (λ e, asked s e.2) events)%nat.
Proof.
  etrans; [|apply (Nat.le_trans _ (owed s (run config v events)))]; [done|unfold owed; lia|]. unfold run.
  assert (H0 : owed s (preStart config v (construct : ShardRegion Message Ref)) = O).
  { unfold preStart. by rewrite (owed_debts s _ _ (debts_ensureRegistered config v _)). }
  rewrite <- (Nat.add_0_l (sum_list_with _ _)), <- H0. generalize (preStart config v (construct : ShardRegion Message Ref)).
  induction events as [|[w e] events IH]; intros c; cbn; [lia|]. etrans; [apply IH|]. pose proof (owed_handle config w s e c). lia.
Qed.

End runs.

(** A run, with the shard actors that live. *)
Definition hosted {Message Ref} (config : ShardRegionConfig Message) (v : View) (events : list (View * Event Message Ref)) :
    ShardRegion Message Ref * list (Z * string) :=
  foldl (λ '(c, alive) '(w, e), let c' := handle config w e c in (c', survivors e c c' alive))
    (preStart config v construct, []) events.

Lemma hosted_step {Message Ref} (config : ShardRegionConfig Message) v w (events : list (View * Event Message Ref)) e :
  hosted config v (events ++ [(w, e)]) =
    let '(c, alive) := hosted config v events in let c' := handle config w e c in (c', survivors e c c' alive).
Proof. unfold hosted. rewrite foldl_app. cbn. by destruct (foldl _ _ events). Qed.

Lemma hosted_run {Message Ref} (config : ShardRegionConfig Message) v (events : list (View * Event Message Ref)) :
  (hosted config v events).1 = run config v events.
Proof.
  induction events as [|[w e] events IH] using rev_ind; [done|]. rewrite hosted_step. unfold run in *. rewrite foldl_app. cbn.
  rewrite <- IH. by destruct (hosted config v events).
Qed.

(** Along every run the region tends the actors that live and, refused, hosts
    only what it is letting go. *)
Lemma hosted_tended {Message Ref} (config : ShardRegionConfig Message) v (events : list (View * Event Message Ref)) :
  tended config (hosted config v events).2 (hosted config v events).1 ∧ refused_ok (hosted config v events).1.
Proof.
  induction events as [|[w e] events [Ht Hr]] using rev_ind.
  - cbn. assert (Hn : shards (own (preStart config v (construct : ShardRegion Message Ref))) = []).
    { unfold preStart. by rewrite own_ensureRegistered. }
    split; [|by apply (sound_ensureRegistered config v construct)]. split; [by intros x ?%elem_of_nil|]. rewrite Hn. by intros x ?%elem_of_nil.
  - rewrite hosted_step. destruct (hosted config v events) as [c alive]. cbn in *. split; [by apply tended_handle|].
    by apply sound_handle.
Qed.

(** C10. When a region reports a hand-off complete, no actor it started for the
    shard is left: each has ended, whatever happened before.  Nor is the shard
    among those it routes to itself: the next owner is the only one. *)
Theorem handoff_completes_after_shard_is_gone {Message Ref} (config : ShardRegionConfig Message) (v w : View)
    (events : list (View * Event Message Ref)) (e : Event Message Ref) :
  let '(c, _) := hosted config v events in
  let '(c', alive) := hosted config v (events ++ [(w, e)]) in
  ∃ said, completions c' = completions c ++ said ∧
    ∀ s, s ∈ said → (∀ path, (s, path) ∉ alive) ∧ s ∉ localShards (own c').
Proof.
  destruct (hosted_tended config v events) as [Ht Hr]. rewrite hosted_step. destruct (hosted config v events) as [c alive]. cbn in *.
  destruct (sound_handle config w e c Hr) as [_ (said & Hs & Hg)]. exists said. split; [done|]. intros s Hin.
  destruct (Hg s Hin) as [Hn Hl]. split; [|done]. intros path Hp. apply (tended_handle config w) with (e := e) in Ht as [Ha _].
  apply Ha in Hp. apply map_get_None in Hn. apply Hn, list_elem_of_fmap. by exists (s, path).
Qed.
