(* ===== verification/ShardRegionFindings.v ===== *)
(** * Two ways a region loses track of a shard, and runs of a concrete one

    A region on node [a] of two, led by node [b], with a single shard, so that
    every entity is in it. *)

From Stdlib Require Import Ascii String.
From stdpp Require Import pretty.
From S2P Require Import Prelude Float Double Backoff Member BidirectionalMap MapContents ShardAllocation ShardAllocator Passivation.
From S2P Require Import ShardRegion ShardRegionTheorems ShardRegionOwnership.
Import NodeAddress.

Local Open Scope Z_scope.

Definition node_a : NodeAddress := mkAddress "sys" "a" 1 None.
Definition node_b : NodeAddress := mkAddress "sys" "b" 1 None.
Definition region_path : string := "/system/region-t".

(** Two entities at most, least recently used first; remembered ones are
    recovered two at a time.  An entity is named by the first letter of its
    messages. *)
Definition region_config : ShardRegionConfig string :=
  mkRegionConfig region_path node_a 1 false true 0 0 (example_config 2 least_recently_used filter_off (Integral 0)) 2 true 2
    (λ _ _, Fin 0) 1000 5000 (String.substring 0 1) (λ m, m).

Definition view_at (t : Z) : View := mkView (Some node_b) false t t (Fin 0).

Abbreviation event := (Event string nat).

Definition at_times (l : list event) : list (View * event) := imap (λ i e, (view_at (Z.of_nat i), e)) l.
Definition region_run (l : list event) := run region_config (view_at 0) (at_times l).

Definition from_b (m : ShardingMessage string) : event := Frame m (Some node_b) None.
Definition placed : event := from_b (ShardHome 0 region_path node_a).
Definition shard_path : string := shardPath region_path 0.

(** What happened to the shard actor, in order. *)
Definition shard_story (l : list event) : list (string * string) :=
  effects (region_run l) ≫= λ e, match e with
    | SpawnShard _ path => [("spawn", path)]
    | StopShard _ path => [("stop", path)]
    | TellShard _ path (Deliver entityId m) _ => [(m, path)]
    | _ => []
    end.

Example a_message_waits_for_its_home :
  shard_story [from_b RegisterAcknowledgment; Routed (Bare "e1") None; placed; Routed (Bare "e2") None] =
    [("spawn", shard_path); ("e1", shard_path); ("e2", shard_path)].
Proof. vm_compute. reflexivity. Qed.

Example a_handoff_is_answered :
  completions (region_run [from_b RegisterAcknowledgment; placed; from_b (HandOff 0); Routed (Bare "e1") None;
    Terminated shard_path]) = [0].
Proof. vm_compute. reflexivity. Qed.

Lemma only_the_coordinator_moves_shards_witness :
  let c := region_run [from_b RegisterAcknowledgment; placed] in
  homes (handle region_config (view_at 9) (Frame (HandOff 0) (Some node_a) None) c) = ([(0, region_path)], [(0, node_a)], [0]).
Proof.
  intros c. rewrite (only_the_coordinator_moves_shards region_config (view_at 9) c (Frame (HandOff 0) (Some node_a) None))
    by (vm_compute; reflexivity). vm_compute. reflexivity.
Defined.

(** ** A shard that is placed here again while it is being let go *)

Definition evicted_and_back : list event :=
  [from_b RegisterAcknowledgment; placed; Routed (Bare "e1") None; from_b RegionEvicted; Routed (Bare "e2") None; placed].

(** An eviction stops the shard's actor; the message that comes meanwhile waits
    in the buffer; and the placement that follows sends it to the actor that
    was told to stop, not to a new one. *)
Theorem replaced_shard_feeds_a_stopping_actor :
  shard_story evicted_and_back = [("spawn", shard_path); ("e1", shard_path); ("stop", shard_path); ("e2", shard_path)] ∧
  releasingShards (own (region_run evicted_and_back)) = [0].
Proof. vm_compute. done. Qed.

(** A hand-off asked for in that time is never answered: the actor's end counts
    for the release, and the shard stays marked as handing off, so that a later
    directive is taken for a duplicate. *)
Theorem handoff_behind_a_release_is_lost :
  let c := region_run (evicted_and_back ++ [from_b (HandOff 0); Terminated shard_path; from_b (HandOff 0)]) in
  completions c = [] ∧ handingOff (own c) = [0] ∧ shards (own c) = [] ∧ localShards (own c) = [0].
Proof. vm_compute. done. Qed.

(** ** An entity that starts behind a hand-off *)

Definition started_behind_handoff : list event :=
  [from_b RegisterAcknowledgment; placed; Routed (Bare "e1") None; from_b (HandOff 0);
   Frame (EntityStarted 0 "e") None None; Terminated shard_path].

(** The report of a start that the shard sent before it stopped comes back
    after the region forgot the shard's entities, and nothing forgets them
    again: the entity keeps its place under the cap, and when the shard
    returns its recovery is skipped. *)
Theorem entity_outlives_its_handed_off_shard :
  let c := region_run started_behind_handoff in
  completions c = [0] ∧ shards (own c) = [] ∧ entities_of 0 c = ["e"] ∧ map_has (entityActivity (ents c)) "e" = true ∧
  let c' := region_run (started_behind_handoff ++ [placed; from_b (RememberedEntities 0 ["e"; "f"])]) in
  effects c' ≫= (λ e, match e with TellShard _ _ (StartEntity entityId) _ => [entityId] | _ => [] end) = ["f"].
Proof. vm_compute. done. Qed.
