(* ===== verification/Singleton.v ===== *)
(** * The singleton manager: [src/cluster/singleton/ClusterSingletonManager.ts]

    The actor that runs on every node of a cluster and hosts the one instance
    of a singleton while its node is the elected host.  Before it hosts it asks
    every other eligible node to stand down, and with a lease it hosts only
    while it holds that lease.

    A handler is a function on the state; what leaves the manager is logged in
    [effects], among it the moments an instance is spawned and is known to be
    gone.  A message to itself is an effect, and its arrival an event that may
    come at any time, as timers may.  A turn that awaits the release of the
    lease is one step: nothing but the mailbox changes the manager under a
    lease, and the mailbox waits.  The validation of options, logging and the
    name of the child are left out.  Also [WarmHandOver.ts], the size limits
    of a snapshot. *)

From Stdlib Require Import Ascii String.
From S2P Require Import Prelude Member Downing BidirectionalMap ShardAllocation.
Import NodeAddress.

Local Open Scope Z_scope.

Definition bytes : Type := list Z.
Definition byteLength (state : bytes) : Z := Z.of_nat (length state).

Definition SINGLETON_HAND_OVER_BUFFER_SIZE : Z := 1000.
Definition HAND_OVER_FRAME_RESERVE_BYTES : Z := 1024.

(** [Math.ceil(byteLength * (4 / 3))]: the nearest double of the product is
    off by less than its distance to the next integer. *)
Definition onTheWire (n : Z) : Z := (4 * n + 2) / 3.

Definition handOverStateFitsFrame (n : Z) (maxFrameBytes : option Z) : bool :=
  match maxFrameBytes with
  | None => true
  | Some limit => onTheWire n + HAND_OVER_FRAME_RESERVE_BYTES <=? limit
  end.

Section manager.
Context {Body : Type}.

(** ** Data *)

Inductive LeaseState := none | acquiring | held_.

#[export] Instance LeaseState_eq_dec : EqDecision LeaseState.
Proof. solve_decision. Defined.

(** [awaiting] holds addresses as strings. *)
Record PendingHandOver := mkPending {
  awaiting : list string;
  held : list Body;
  state : option bytes;
}.

(** What reading the stopped instance gives. *)
Inductive Snapshot := NotWarm | SerializeThrew | Serialized (state : option bytes).

Inductive Effect :=
| SpawnChild (ref : nat) (warmState : option bytes)
| StopChild (ref : nat)
| ChildGone (ref : nat)
| TellChild (ref : nat) (body : Body)
| DeadLetter (body : Body)
| SendHandOverRequest (peer : NodeAddress)
| SendHandOverAcknowledgment (peer : NodeAddress) (state : option bytes)
| AcquireLease
| ReleaseLease (stale : bool)
| TellSelfReconcile
| Unhandled.

Record ManagerOptions := mkOptions {
  typeName : string;
  selfAddress : NodeAddress;
  role : option string;
  lease : bool;
  restartOnTermination : bool;
  maxHandOverStateBytes : Z;
  maxFrameBytes : option Z;
}.

(** The cluster, as a handler finds it: addresses of its members. *)
Record View := mkView {
  leader : option NodeAddress;
  upMembers : list NodeAddress;
  upMembersWithRole : string → list NodeAddress;
  getMembers : list NodeAddress;
}.

Definition singletonHost (v : View) (role : option string) : option NodeAddress :=
  match role with None => leader v | Some r => head (upMembersWithRole v r) end.

Record Manager := mkManager {
  child : option nat;
  pendingStop : option nat;
  nextRef : nat;
  leaseState : LeaseState;
  handOver : option PendingHandOver;
  handOverRequesters : list (string * NodeAddress);
  hostDisagreementHold : list Body;
  hostDisagreementHoldTimer : bool;
  retainedHandOverState : option bytes;
  releaseLeaseWhenChildStops : bool;
  terminallyStopped : bool;
  warnedNotHosted : bool;
  retryTimer : bool;
  restartTimer : bool;
  effects : list Effect;
}.

Implicit Types (c : Manager).

(** Assignments to one field. *)
Definition set_child (x : option nat) c : Manager := mkManager x (pendingStop c) (nextRef c) (leaseState c)
  (handOver c) (handOverRequesters c) (hostDisagreementHold c) (hostDisagreementHoldTimer c) (retainedHandOverState
  c) (releaseLeaseWhenChildStops c) (terminallyStopped c) (warnedNotHosted c) (retryTimer c) (restartTimer c)
  (effects c).
Definition set_pendingStop (x : option nat) c : Manager := mkManager (child c) x (nextRef c) (leaseState c)
  (handOver c) (handOverRequesters c) (hostDisagreementHold c) (hostDisagreementHoldTimer c) (retainedHandOverState
  c) (releaseLeaseWhenChildStops c) (terminallyStopped c) (warnedNotHosted c) (retryTimer c) (restartTimer c)
  (effects c).
Definition set_nextRef (x : nat) c : Manager := mkManager (child c) (pendingStop c) x (leaseState c) (handOver c)
  (handOverRequesters c) (hostDisagreementHold c) (hostDisagreementHoldTimer c) (retainedHandOverState c)
  (releaseLeaseWhenChildStops c) (terminallyStopped c) (warnedNotHosted c) (retryTimer c) (restartTimer c) (effects
  c).
Definition set_leaseState (x : LeaseState) c : Manager := mkManager (child c) (pendingStop c) (nextRef c) x
  (handOver c) (handOverRequesters c) (hostDisagreementHold c) (hostDisagreementHoldTimer c) (retainedHandOverState
  c) (releaseLeaseWhenChildStops c) (terminallyStopped c) (warnedNotHosted c) (retryTimer c) (restartTimer c)
  (effects c).
Definition set_handOver (x : option PendingHandOver) c : Manager := mkManager (child c) (pendingStop c) (nextRef c)
  (leaseState c) x (handOverRequesters c) (hostDisagreementHold c) (hostDisagreementHoldTimer c)
  (retainedHandOverState c) (releaseLeaseWhenChildStops c) (terminallyStopped c) (warnedNotHosted c) (retryTimer c)
  (restartTimer c) (effects c).
Definition set_handOverRequesters (x : list (string * NodeAddress)) c : Manager := mkManager (child c) (pendingStop
  c) (nextRef c) (leaseState c) (handOver c) x (hostDisagreementHold c) (hostDisagreementHoldTimer c)
  (retainedHandOverState c) (releaseLeaseWhenChildStops c) (terminallyStopped c) (warnedNotHosted c) (retryTimer c)
  (restartTimer c) (effects c).
Definition set_hostDisagreementHold (x : list Body) c : Manager := mkManager (child c) (pendingStop c) (nextRef c)
  (leaseState c) (handOver c) (handOverRequesters c) x (hostDisagreementHoldTimer c) (retainedHandOverState c)
  (releaseLeaseWhenChildStops c) (terminallyStopped c) (warnedNotHosted c) (retryTimer c) (restartTimer c) (effects
  c).
Definition set_hostDisagreementHoldTimer (x : bool) c : Manager := mkManager (child c) (pendingStop c) (nextRef c)
  (leaseState c) (handOver c) (handOverRequesters c) (hostDisagreementHold c) x (retainedHandOverState c)
  (releaseLeaseWhenChildStops c) (terminallyStopped c) (warnedNotHosted c) (retryTimer c) (restartTimer c) (effects
  c).
Definition set_retainedHandOverState (x : option bytes) c : Manager := mkManager (child c) (pendingStop c) (nextRef
  c) (leaseState c) (handOver c) (handOverRequesters c) (hostDisagreementHold c) (hostDisagreementHoldTimer c) x
  (releaseLeaseWhenChildStops c) (terminallyStopped c) (warnedNotHosted c) (retryTimer c) (restartTimer c) (effects
  c).
Definition set_releaseLeaseWhenChildStops (x : bool) c : Manager := mkManager (child c) (pendingStop c) (nextRef c)
  (leaseState c) (handOver c) (handOverRequesters c) (hostDisagreementHold c) (hostDisagreementHoldTimer c)
  (retainedHandOverState c) x (terminallyStopped c) (warnedNotHosted c) (retryTimer c) (restartTimer c) (effects c).
Definition set_terminallyStopped (x : bool) c : Manager := mkManager (child c) (pendingStop c) (nextRef c)
  (leaseState c) (handOver c) (handOverRequesters c) (hostDisagreementHold c) (hostDisagreementHoldTimer c)
  (retainedHandOverState c) (releaseLeaseWhenChildStops c) x (warnedNotHosted c) (retryTimer c) (restartTimer c)
  (effects c).
Definition set_warnedNotHosted (x : bool) c : Manager := mkManager (child c) (pendingStop c) (nextRef c) (leaseState
  c) (handOver c) (handOverRequesters c) (hostDisagreementHold c) (hostDisagreementHoldTimer c)
  (retainedHandOverState c) (releaseLeaseWhenChildStops c) (terminallyStopped c) x (retryTimer c) (restartTimer c)
  (effects c).
Definition set_retryTimer (x : bool) c : Manager := mkManager (child c) (pendingStop c) (nextRef c) (leaseState c)
  (handOver c) (handOverRequesters c) (hostDisagreementHold c) (hostDisagreementHoldTimer c) (retainedHandOverState
  c) (releaseLeaseWhenChildStops c) (terminallyStopped c) (warnedNotHosted c) x (restartTimer c) (effects c).
Definition set_restartTimer (x : bool) c : Manager := mkManager (child c) (pendingStop c) (nextRef c) (leaseState c)
  (handOver c) (handOverRequesters c) (hostDisagreementHold c) (hostDisagreementHoldTimer c) (retainedHandOverState
  c) (releaseLeaseWhenChildStops c) (terminallyStopped c) (warnedNotHosted c) (retryTimer c) x (effects c).
Definition emit (e : Effect) c : Manager := mkManager (child c) (pendingStop c) (nextRef c) (leaseState c) (handOver
  c) (handOverRequesters c) (hostDisagreementHold c) (hostDisagreementHoldTimer c) (retainedHandOverState c)
  (releaseLeaseWhenChildStops c) (terminallyStopped c) (warnedNotHosted c) (retryTimer c) (restartTimer c) (effects
  c ++ [e]).

Definition construct : Manager := mkManager None None 0 none None [] [] false None false false false false false [].

Context `{LocaleCompare} (options : ManagerOptions) (v : View).

Implicit Types (body : Body) (peer : NodeAddress).

(** ** Who hosts *)

Definition wantHosted c : bool :=
  if terminallyStopped c then false
  else match singletonHost v (role options) with
       | Some host => equals host (selfAddress options)
       | None => false
       end.

Definition handOverPeers : list NodeAddress :=
  let eligible := match role options with None => upMembers v | Some r => upMembersWithRole v r end in
  filter (λ a, equals a (selfAddress options) = false) eligible.

(** ** Messages that wait *)

Definition warnNotHostedOnce c : Manager := if warnedNotHosted c then c else set_warnedNotHosted true c.

Definition dropHeld (bodies : list Body) c : Manager := foldl (λ c body, emit (DeadLetter body) c) c bodies.

Definition holdUntilHandOverCompletes body c : option Manager :=
  match handOver c with
  | None => None
  | Some pending =>
      if Z.of_nat (length (held pending)) >=? SINGLETON_HAND_OVER_BUFFER_SIZE then None
      else Some (set_handOver (Some (mkPending (awaiting pending) (held pending ++ [body]) (state pending))) c)
  end.

Definition holdWhileHostingIsUndecided body c : option Manager :=
  if terminallyStopped c then None
  else if Z.of_nat (length (hostDisagreementHold c)) >=? SINGLETON_HAND_OVER_BUFFER_SIZE then None
  else Some (set_hostDisagreementHoldTimer true (set_hostDisagreementHold (hostDisagreementHold c ++ [body]) c)).

Definition flushHostDisagreementHold c : Manager :=
  let c := set_hostDisagreementHoldTimer false c in
  let bodies := hostDisagreementHold c in
  let c := set_hostDisagreementHold [] c in
  match child c with
  | Some ref => foldl (λ c body, emit (TellChild ref body) c) c bodies
  | None => c
  end.

Definition dropHostDisagreementHold c : Manager :=
  let c := set_hostDisagreementHoldTimer false c in
  match hostDisagreementHold c with
  | [] => c
  | bodies => dropHeld bodies (warnNotHostedOnce (set_hostDisagreementHold [] c))
  end.

Definition onHostDisagreementHoldExpired c : Manager := dropHostDisagreementHold c.

Definition onSingletonDeliver body c : Manager :=
  match child c with
  | Some ref => emit (TellChild ref body) c
  | None =>
      match holdUntilHandOverCompletes body c with
      | Some c => c
      | None =>
          match holdWhileHostingIsUndecided body c with
          | Some c => c
          | None => emit (DeadLetter body) (warnNotHostedOnce c)
          end
      end
  end.

(** ** The snapshot kept for a successor *)

Definition dropRetainedHandOverState c : Manager := set_retainedHandOverState None c.
Definition retainHandOverState (s : bytes) c : Manager := set_retainedHandOverState (Some s) c.
Definition takeRetainedHandOverState c : Manager * option bytes :=
  match retainedHandOverState c with
  | None => (c, None)
  | Some s => (dropRetainedHandOverState c, Some s)
  end.
Definition onHandOverStateExpired c : Manager := dropRetainedHandOverState c.

Definition withinHandOverStateBudget (s : bytes) : bool :=
  if byteLength s >? maxHandOverStateBytes options then false
  else handOverStateFitsFrame (byteLength s) (maxFrameBytes options).

Definition captureWarmState (s : Snapshot) : option bytes :=
  match s with
  | Serialized (Some s) =>
      if byteLength s =? 0 then None else if withinHandOverStateBudget s then Some s else None
  | _ => None
  end.

Definition acceptWarmState (pending : PendingHandOver) (s : option bytes) : PendingHandOver :=
  match s with
  | None => pending
  | Some s =>
      if byteLength s =? 0 then pending
      else match state pending with
           | Some _ => pending
           | None => mkPending (awaiting pending) (held pending) (Some s)
           end
  end.

(** ** The instance *)

Definition spawn (warmState : option bytes) c : Manager :=
  match child c, pendingStop c with
  | None, None =>
      let ref := nextRef c in
      let c := emit (SpawnChild ref warmState) (set_nextRef (S ref) c) in
      let c := dropRetainedHandOverState (set_child (Some ref) c) in
      set_warnedNotHosted false (flushHostDisagreementHold c)
  | _, _ => c
  end.

Definition stopChild c : Manager :=
  match child c with
  | None => c
  | Some ref => set_child None (emit (StopChild ref) (set_pendingStop (Some ref) c))
  end.

(** ** Taking over *)

Definition sendHandOverRequestTo (peers : list NodeAddress) c : Manager :=
  foldl (λ c peer, emit (SendHandOverRequest peer) c) c peers.

Definition takeOverHosting c : Manager :=
  match child c, pendingStop c, handOver c with
  | None, None, None =>
      match handOverPeers with
      | [] => spawn None c
      | peers => sendHandOverRequestTo peers
                   (set_handOver (Some (mkPending (set_of (toString <$> peers)) [] None)) c)
      end
  | _, _, _ => c
  end.

Definition completeHandOver c : Manager :=
  match handOver c with
  | None => c
  | Some pending =>
      let c := set_handOver None c in
      if negb (wantHosted c) then dropHeld (held pending) c
      else if lease options && negb (bool_decide (leaseState c = held_)) then dropHeld (held pending) c
      else
        let c := spawn (state pending) c in
        match child c with
        | None => dropHeld (held pending) c
        | Some ref => foldl (λ c body, emit (TellChild ref body) c) c (held pending)
        end
  end.

Definition abandonHandOver c : Manager :=
  match handOver c with
  | None => c
  | Some pending => dropHeld (held pending) (set_handOver None c)
  end.

Definition onHandOverTimeout c : Manager := completeHandOver c.

Definition onHandOverRetry c : Manager :=
  match handOver c with
  | None => c
  | Some pending =>
      let eligible := handOverPeers in
      let left := filter (λ a, a ∈ toString <$> eligible) (awaiting pending) in
      let c := set_handOver (Some (mkPending left (held pending) (state pending))) c in
      if bool_decide (left = []) then completeHandOver c
      else sendHandOverRequestTo (filter (λ a, toString a ∈ left) eligible) c
  end.

Definition onHandOverAcknowledgment (name : string) (s : option bytes) peer c : Manager :=
  match handOver c with
  | None => c
  | Some pending =>
      if negb (bool_decide (name = typeName options)) then c
      else if negb (set_has (awaiting pending) (toString peer)) then c
      else
        let pending := mkPending (set_delete (awaiting pending) (toString peer)) (held pending) (state pending) in
        let pending := acceptWarmState pending s in
        let c := set_handOver (Some pending) c in
        if bool_decide (awaiting pending = []) then completeHandOver c else c
  end.

(** ** Standing down *)

Definition answerHandOver peer (s : option bytes) c : Manager :=
  let '(c, warmState) := match s with Some s => (c, Some s) | None => takeRetainedHandOverState c end in
  emit (SendHandOverAcknowledgment peer warmState) c.

(** [true] when somebody was waiting for the answer. *)
Definition answerHandOverRequesters (s : option bytes) c : Manager * bool :=
  match handOverRequesters c, child c, pendingStop c with
  | [], _, _ => (c, false)
  | requesters, None, None =>
      let c := set_handOverRequesters [] c in
      (fst (foldl (λ '(c, offer) e, (answerHandOver e.2 offer c, None)) (c, s) requesters), true)
  | _, _, _ => (c, false)
  end.

Definition admitsHandOverFrom peer c : bool :=
  if negb (existsb (λ a, equals a peer) (getMembers v)) then false
  else negb (wantHosted c && negb (locale_le (toString peer) (toString (selfAddress options)))).

Definition onHandOverRequest (name : string) peer c : Manager :=
  if negb (bool_decide (name = typeName options)) then c
  else if negb (admitsHandOverFrom peer c) then c
  else match child c, pendingStop c with
       | Some _, _ => stopChild (set_handOverRequesters (map_set (handOverRequesters c) (toString peer) peer) c)
       | None, Some _ => set_handOverRequesters (map_set (handOverRequesters c) (toString peer) peer) c
       | None, None => answerHandOver peer None c
       end.

(** ** Reconciling *)

Definition releaseLease c : Manager :=
  if lease options && bool_decide (leaseState c = held_)
  then emit (ReleaseLease false) (set_leaseState none c) else c.

Definition reconcileSync c : Manager :=
  match wantHosted c, child c with
  | true, None => takeOverHosting c
  | false, Some _ => stopChild c
  | _, _ => c
  end.

Definition handleReconcile c : Manager :=
  if negb (lease options) then reconcileSync c
  else if wantHosted c then
    match leaseState c with
    | held_ => takeOverHosting c
    | acquiring => c
    | none => emit AcquireLease (set_leaseState acquiring (set_retryTimer false c))
    end
  else
    match leaseState c with
    | held_ =>
        let c := stopChild c in
        match pendingStop c with
        | Some _ => set_releaseLeaseWhenChildStops true c
        | None => releaseLease c
        end
    | acquiring => c
    | none => set_retryTimer false c
    end.

(** [self.tell(reconcile)] with a lease, [reconcileSync()] without. *)
Definition onClusterMembershipChanged c : Manager :=
  if lease options then emit TellSelfReconcile c else reconcileSync c.

Definition scheduleAcquireRetry c : Manager := set_retryTimer true c.

Definition onLeaseAcquireResult (got : bool) c : Manager :=
  if negb (bool_decide (leaseState c = acquiring)) then if got then emit (ReleaseLease true) c else c
  else if negb got then scheduleAcquireRetry (set_leaseState none c)
  else if negb (wantHosted c) then set_leaseState none (emit (ReleaseLease true) c)
  else takeOverHosting (set_leaseState held_ c).

Definition onLeaseLost c : Manager :=
  if negb (bool_decide (leaseState c = held_)) then c
  else
    let c := set_leaseState none (stopChild c) in
    match pendingStop c with Some _ => c | None => emit TellSelfReconcile c end.

Definition onRestartChild c : Manager :=
  let c := set_restartTimer false c in
  if negb (wantHosted c) then c
  else match child c, pendingStop c with
       | None, None =>
           if lease options && negb (bool_decide (leaseState c = held_)) then emit TellSelfReconcile c else spawn None c
       | _, _ => c
       end.

Definition onChildDiedUnexpectedly c : Manager :=
  let c := set_child None c in
  if restartOnTermination options then set_restartTimer true c
  else releaseLease (dropHostDisagreementHold (set_terminallyStopped true c)).

Definition handleTerminated (actor : nat) (s : Snapshot) c : Manager :=
  if bool_decide (pendingStop c = Some actor) then
    let warmState := captureWarmState s in
    let c := emit (ChildGone actor) (set_pendingStop None c) in
    let '(c, answered) := answerHandOverRequesters warmState c in
    let c := match answered, warmState with
             | false, Some s => retainHandOverState s c
             | _, _ => c
             end in
    let c := if releaseLeaseWhenChildStops c then releaseLease (set_releaseLeaseWhenChildStops false c) else c in
    if lease options then emit TellSelfReconcile c else reconcileSync c
  else if bool_decide (child c = Some actor) then
    fst (answerHandOverRequesters None (onChildDiedUnexpectedly (emit (ChildGone actor) c)))
  else c.

(** ** The actor *)

Definition preStart c : Manager := if lease options then emit TellSelfReconcile c else reconcileSync c.

Definition postStop c : Manager :=
  let c := set_restartTimer false (set_retryTimer false c) in
  let c := match child c with Some ref => set_child None (emit (StopChild ref) c) | None => c end in
  let c := dropHostDisagreementHold (abandonHandOver (set_pendingStop None c)) in
  releaseLease (fst (answerHandOverRequesters None (dropRetainedHandOverState c))).

Inductive Event :=
| ClusterChanged
| SingletonDeliver (body : Body)
| Reconcile
| AcquireRetry
| LeaseAcquireResult (got : bool)
| LeaseLost
| RestartChild
| HandOverTimeout
| HandOverRetry
| HostDisagreementHoldExpired
| HandOverStateExpired
| Terminated (actor : nat) (snapshot : Snapshot)
| HandOverRequest (name : string) (peer : NodeAddress)
| HandOverAcknowledgment (name : string) (state : option bytes) (peer : NodeAddress)
| UnknownMessage.

Definition handle (e : Event) c : Manager :=
  match e with
  | ClusterChanged => onClusterMembershipChanged c
  | SingletonDeliver body => onSingletonDeliver body c
  | Reconcile | AcquireRetry => handleReconcile c
  | LeaseAcquireResult got => onLeaseAcquireResult got c
  | LeaseLost => onLeaseLost c
  | RestartChild => onRestartChild c
  | HandOverTimeout => onHandOverTimeout c
  | HandOverRetry => onHandOverRetry c
  | HostDisagreementHoldExpired => onHostDisagreementHoldExpired c
  | HandOverStateExpired => onHandOverStateExpired c
  | Terminated actor snapshot => handleTerminated actor snapshot c
  | HandOverRequest name peer => onHandOverRequest name peer c
  | HandOverAcknowledgment name s peer => onHandOverAcknowledgment name s peer c
  | UnknownMessage => emit Unhandled c
  end.

End manager.

Arguments Manager : clear implicits.
Arguments Effect : clear implicits.
Arguments Event : clear implicits.
Arguments PendingHandOver : clear implicits.

(** A run from [preStart]: each event with the cluster it finds. *)
Definition run `{LocaleCompare} {Body} (options : ManagerOptions) (v : View) (events : list (View * Event Body)) : Manager Body :=
  foldl (λ c e, handle options e.1 e.2 c) (preStart options v construct) events.
