(* ===== verification/SingletonTheorems.v ===== *)
(** * One instance, asked for and accounted for

    What a singleton manager guarantees on its own node: never two instances,
    an answer to a peer and a release of the lease only when none runs, no
    hosting past a peer that has not answered, and no message lost. *)

From Stdlib Require Import Ascii String.
From S2P Require Import Prelude Member Downing BidirectionalMap ShardAllocation.
From S2P Require Import Singleton.
Import NodeAddress.

Local Open Scope Z_scope.

Section manager.
Context `{LocaleCompare} {Body : Type} (options : ManagerOptions) (v : View).

#[local] Abbreviation Manager := (Manager Body).
#[local] Abbreviation Effect := (Effect Body).

Implicit Types (c : Manager) (e : Effect) (l : list Effect).

(** ** The instances that run *)

Definition step_alive (a : list nat) e : list nat :=
  match e with
  | SpawnChild ref _ => a ++ [ref]
  | ChildGone ref => filter (λ x, x ≠ ref) a
  | _ => a
  end.

(** The instances that were spawned and are not known to be gone. *)
Definition alive l : list nat := foldl step_alive [] l.

(** What may be done only while no instance runs. *)
Definition needs_silence e : bool :=
  match e with
  | SpawnChild _ _ | SendHandOverAcknowledgment _ _ | ReleaseLease false => true
  | _ => false
  end.

Definition live c : list nat := option_list (child c) ++ option_list (pendingStop c).

Definition quiet_when_it_must l : Prop := ∀ l1 e l2, l = l1 ++ e :: l2 → needs_silence e = true → alive l1 = [].

Record manager_ok c : Prop := {
  mo_alive : alive (effects c) = live c;
  mo_one : child c = None ∨ pendingStop c = None;
  mo_quiet : quiet_when_it_must (effects c);
  mo_lease : lease options = true → is_Some (child c) → leaseState c = held_;
}.

Lemma alive_snoc l e : alive (l ++ [e]) = step_alive (alive l) e.
Proof. unfold alive. by rewrite foldl_app. Qed.

Lemma quiet_snoc l e : quiet_when_it_must l → (needs_silence e = true → alive l = []) → quiet_when_it_must (l ++ [e]).
Proof.
  intros Hl He l1 e' l2 Heq Hn. destruct l2 as [|x l2 _] using rev_ind.
  - apply app_inj_tail in Heq as [<- <-]. by apply He.
  - rewrite app_comm_cons, app_assoc in Heq. apply app_inj_tail in Heq as [-> _]. by eapply Hl.
Qed.

(** The part of the state the invariant is about. *)
Definition core c := (child c, pendingStop c, leaseState c, effects c).

Lemma ok_core c c' : core c' = core c → manager_ok c → manager_ok c'.
Proof. unfold core. intros [= E1 E2 E3 E4] [H1 H2 H3 H4]. split; unfold live; rewrite ?E1, ?E2, ?E3, ?E4; done. Qed.

Lemma ok_emit e c : step_alive (live c) e = live c → (needs_silence e = true → live c = []) → manager_ok c → manager_ok (emit e c).
Proof.
  intros Ha Hn [H1 H2 H3 H4]. split; cbn; [by rewrite alive_snoc, H1, Ha|done| |done].
  apply quiet_snoc; [done|]. by rewrite H1.
Qed.

Lemma ok_emit_plain e c : step_alive (live c) e = live c → needs_silence e = false → manager_ok c → manager_ok (emit e c).
Proof. intros Ha Hn. apply ok_emit; [done|]. by rewrite Hn. Qed.

Lemma ok_fold {A} (f : Manager → A → Manager) : (∀ c a, manager_ok c → manager_ok (f c a)) →
  ∀ (k : list A) c, manager_ok c → manager_ok (foldl f c k).
Proof. intros Hf k. induction k as [|a k IH]; intros c Hc; [done|]. apply IH, Hf, Hc. Qed.

Lemma ok_dropHeld bodies c : manager_ok c → manager_ok (dropHeld bodies c).
Proof. apply ok_fold. intros c' b. by apply ok_emit_plain. Qed.

Lemma ok_tellAll ref (bodies : list Body) c : manager_ok c → manager_ok (foldl (λ c body, emit (TellChild ref body) c) c bodies).
Proof. apply ok_fold. intros c' b. by apply ok_emit_plain. Qed.

Lemma ok_flush c : manager_ok c → manager_ok (flushHostDisagreementHold c).
Proof.
  intros Hc. unfold flushHostDisagreementHold. set (c0 := set_hostDisagreementHold [] _).
  assert (manager_ok c0) by (by apply (ok_core c)). destruct (child c0); [by apply ok_tellAll|done].
Qed.

Lemma ok_dropHold c : manager_ok c → manager_ok (dropHostDisagreementHold c).
Proof.
  intros Hc. unfold dropHostDisagreementHold. destruct (hostDisagreementHold _); [by apply (ok_core c)|].
  apply ok_dropHeld. unfold warnNotHostedOnce. destruct (warnedNotHosted _); by apply (ok_core c).
Qed.

Lemma ok_spawn w c : (lease options = true → leaseState c = held_) → manager_ok c → manager_ok (spawn w c).
Proof.
  intros Hl Hc. unfold spawn. destruct (child c) eqn:Ec; [done|]. destruct (pendingStop c) eqn:Ep; [done|].
  set (c1 := dropRetainedHandOverState _). assert (Hc1 : manager_ok c1).
  { destruct Hc as [H1 H2 H3 H4]. unfold live in H1. rewrite Ec, Ep in H1. cbn in H1. split; cbn; [|by right| |by intros Hlease _; apply Hl].
    - rewrite alive_snoc, H1. unfold live. cbn. by rewrite Ep.
    - by apply quiet_snoc. }
  apply (ok_core (flushHostDisagreementHold c1)); [done|]. by apply ok_flush.
Qed.

Lemma ok_stopChild c : manager_ok c → manager_ok (stopChild c).
Proof.
  intros Hc. unfold stopChild. destruct (child c) as [ref|] eqn:E; [|done]. destruct Hc as [H1 H2 H3 H4].
  destruct H2 as [?|Hp]; [congruence|]. unfold live in H1. rewrite E, Hp in H1.
  split; cbn; [by rewrite alive_snoc|by left|by apply quiet_snoc|by intros _ []].
Qed.

Lemma ok_sendRequests peers c : manager_ok c → manager_ok (sendHandOverRequestTo peers c).
Proof. apply ok_fold. intros c' p. by apply ok_emit_plain. Qed.

Lemma ok_takeOver c : (lease options = true → leaseState c = held_) → manager_ok c → manager_ok (takeOverHosting options v c).
Proof.
  intros Hl Hc. unfold takeOverHosting. destruct (child c), (pendingStop c), (handOver c); try done.
  destruct (handOverPeers options v); [by apply ok_spawn|]. apply ok_sendRequests. by apply (ok_core c).
Qed.

Lemma ok_completeHandOver c : manager_ok c → manager_ok (completeHandOver options v c).
Proof.
  intros Hc. unfold completeHandOver. destruct (handOver c) as [p|]; [|done].
  assert (H0 : manager_ok (set_handOver None c)) by (by apply (ok_core c)).
  destruct (negb _); [by apply ok_dropHeld|]. destruct (_ && _) eqn:E; [by apply ok_dropHeld|].
  set (c2 := spawn _ _). assert (manager_ok c2).
  { apply ok_spawn; [|done]. intros Hl. rewrite Hl in E. cbn in E. rewrite negb_false_iff in E. by apply bool_decide_eq_true in E. }
  destruct (child c2); [by apply ok_tellAll|by apply ok_dropHeld].
Qed.

Lemma ok_onHandOverRetry c : manager_ok c → manager_ok (onHandOverRetry options v c).
Proof.
  intros Hc. unfold onHandOverRetry. destruct (handOver c) as [p|]; [|done]. case_bool_decide.
  - apply ok_completeHandOver. by apply (ok_core c).
  - apply ok_sendRequests. by apply (ok_core c).
Qed.

Lemma ok_onAck name s peer c : manager_ok c → manager_ok (onHandOverAcknowledgment options v name s peer c).
Proof.
  intros Hc. unfold onHandOverAcknowledgment. destruct (handOver c) as [p|]; [|done]. destruct (negb _); [done|].
  destruct (negb _); [done|]. case_bool_decide; [apply ok_completeHandOver|]; by apply (ok_core c).
Qed.

Lemma core_answer peer s c : let c' := answerHandOver peer s c in
  ∃ w, core c' = (child c, pendingStop c, leaseState c, effects c ++ [SendHandOverAcknowledgment peer w]).
Proof.
  cbv zeta. unfold answerHandOver, takeRetainedHandOverState, core. destruct s as [s|]; [by exists (Some s)|].
  destruct (retainedHandOverState c) as [s|]; [by exists (Some s)|by exists None].
Qed.

Lemma ok_answer peer s c : live c = [] → manager_ok c → manager_ok (answerHandOver peer s c) ∧ live (answerHandOver peer s c) = [].
Proof.
  intros Hl Hc. destruct (core_answer peer s c) as [w [= E1 E2 E3 E4]]. split.
  - apply (ok_core (emit (SendHandOverAcknowledgment peer w) c)); [unfold core; by rewrite E1, E2, E3, E4|]. by apply ok_emit.
  - unfold live. by rewrite E1, E2.
Qed.

Lemma ok_answerRequesters s c : manager_ok c → manager_ok (answerHandOverRequesters s c).1.
Proof.
  intros Hc. unfold answerHandOverRequesters. destruct (handOverRequesters c) as [|r rs]; [done|].
  destruct (child c) eqn:Ec; [done|]. destruct (pendingStop c) eqn:Ep; [done|]. cbn [fst].
  set (c0 := set_handOverRequesters [] c). assert (H0 : manager_ok c0 ∧ live c0 = []).
  { split; [by apply (ok_core c)|]. unfold live. cbn. by rewrite Ec, Ep. }
  clearbody c0. generalize (r :: rs) as k. intros k. revert c0 H0 s. induction k as [|x k IH]; intros c0 [H0 Hl] s; [done|].
  cbn [foldl]. apply IH. by apply ok_answer.
Qed.

Lemma core_answerRequesters s c : let c' := (answerHandOverRequesters s c).1 in
  child c' = child c ∧ pendingStop c' = pendingStop c ∧ leaseState c' = leaseState c ∧
  releaseLeaseWhenChildStops c' = releaseLeaseWhenChildStops c.
Proof.
  cbv zeta. unfold answerHandOverRequesters. destruct (handOverRequesters c) as [|r rs]; [done|].
  destruct (child c) eqn:Ec; [done|]. destruct (pendingStop c) eqn:Ep; [done|]. cbn [fst].
  set (c0 := set_handOverRequesters [] c). assert (H0 : child c0 = None ∧ pendingStop c0 = None ∧
    leaseState c0 = leaseState c ∧ releaseLeaseWhenChildStops c0 = releaseLeaseWhenChildStops c) by done.
  clearbody c0. generalize (r :: rs) as k. intros k. revert c0 H0 s. induction k as [|x k IH]; intros c0 H0 s; [done|].
  cbn [foldl]. apply IH. unfold answerHandOver, takeRetainedHandOverState.
  destruct s as [s|]; [done|]. by destruct (retainedHandOverState c0).
Qed.

Lemma ok_onHandOverRequest name peer c : manager_ok c → manager_ok (onHandOverRequest options v name peer c).
Proof.
  intros Hc. unfold onHandOverRequest. destruct (negb _); [done|]. destruct (negb _); [done|].
  destruct (child c) eqn:Ec; [apply ok_stopChild; by apply (ok_core c)|].
  destruct (pendingStop c) eqn:Ep; [by apply (ok_core c)|]. apply ok_answer; [|done]. unfold live. by rewrite Ec, Ep.
Qed.

Lemma ok_releaseLease c : live c = [] → manager_ok c → manager_ok (releaseLease options c).
Proof.
  intros Hl Hc. unfold releaseLease. destruct (_ && _); [|done]. apply ok_emit; [done..|].
  assert (Hn : child c = None) by (unfold live in Hl; by destruct (child c)).
  destruct Hc as [H1 H2 H3 H4]. split; try done. cbn. rewrite Hn. by intros _ [].
Qed.

Lemma ok_reconcileSync c : lease options = false → manager_ok c → manager_ok (reconcileSync options v c).
Proof.
  intros Hl Hc. unfold reconcileSync. destruct (wantHosted _ _ _), (child c); try done; [|by apply ok_stopChild].
  apply ok_takeOver; [|done]. by rewrite Hl.
Qed.

Lemma stopChild_none c : child (stopChild c) = None.
Proof. unfold stopChild. by destruct (child c) eqn:E. Qed.

Lemma ok_handleReconcile c : manager_ok c → manager_ok (handleReconcile options v c).
Proof.
  intros Hc. unfold handleReconcile. destruct (lease options) eqn:Hl; cbn [negb]; [|by apply ok_reconcileSync].
  destruct (wantHosted _ _ _).
  - destruct (leaseState c) eqn:E; [|done|by apply ok_takeOver].
    apply ok_emit_plain; [done..|]. destruct Hc as [H1 H2 H3 H4]. split; try done. cbn. intros _ Hs.
    rewrite (H4 Hl Hs) in E. done.
  - destruct (leaseState c) eqn:E; [by apply (ok_core c)|done|]. pose proof (ok_stopChild c Hc) as H1.
    pose proof (stopChild_none c) as Hn. destruct (pendingStop (stopChild c)) eqn:Ep; [by apply (ok_core (stopChild c))|].
    apply ok_releaseLease; [|done]. unfold live. by rewrite Hn, Ep.
Qed.

Lemma ok_onLeaseAcquireResult got c : manager_ok c → manager_ok (onLeaseAcquireResult options v got c).
Proof.
  intros Hc. unfold onLeaseAcquireResult. case_bool_decide as Ha; cbn [negb]; [|destruct got; [by apply ok_emit_plain|done]].
  assert (Hno : lease options = true → ¬ is_Some (child c)) by (intros Hl Hs; rewrite (mo_lease c Hc Hl Hs) in Ha; done).
  assert (Hset : ∀ s c0, core c0 = core c → manager_ok (set_leaseState s c0)).
  { intros s c0. unfold core. intros [= E1 E2 E3 E4]. destruct Hc as [H1 H2 H3 H4]. split; unfold live; cbn; rewrite ?E1, ?E2, ?E4; try done.
    intros Hl Hs. by destruct (Hno Hl). }
  destruct got; cbn [negb]; [|by apply (ok_core (set_leaseState none c)), Hset].
  destruct (wantHosted _ _ _); cbn [negb]; [apply ok_takeOver; [done|by apply Hset]|].
  apply (ok_core (emit (ReleaseLease true) (set_leaseState none c))); [done|]. apply ok_emit_plain; [done..|by apply Hset].
Qed.

Lemma ok_onLeaseLost c : manager_ok c → manager_ok (onLeaseLost c).
Proof.
  intros Hc. unfold onLeaseLost. destruct (negb _); [done|]. pose proof (ok_stopChild c Hc) as H1.
  set (c1 := set_leaseState none (stopChild c)). assert (Hc1 : manager_ok c1).
  { destruct H1 as [A1 A2 A3 A4]. split; try done. cbn. rewrite stopChild_none. by intros _ []. }
  destruct (pendingStop c1); [done|by apply ok_emit_plain].
Qed.

Lemma ok_onRestartChild c : manager_ok c → manager_ok (onRestartChild options v c).
Proof.
  intros Hc. unfold onRestartChild. set (c0 := set_restartTimer false c). assert (H0 : manager_ok c0) by (by apply (ok_core c)).
  destruct (negb _); [done|]. destruct (child c0), (pendingStop c0); try done. destruct (_ && _) eqn:E; [by apply ok_emit_plain|].
  apply ok_spawn; [|done]. intros Hl. rewrite Hl in E. cbn in E. rewrite negb_false_iff in E. by apply bool_decide_eq_true in E.
Qed.

Lemma ok_gone_stopping ref c : pendingStop c = Some ref → manager_ok c →
  let c' := emit (ChildGone ref) (set_pendingStop None c) in manager_ok c' ∧ live c' = [].
Proof.
  intros Hp [H1 H2 H3 H4]. destruct H2 as [Hn|?]; [|congruence]. unfold live in H1. rewrite Hn, Hp in H1. cbn in H1.
  split; [split; cbn|unfold live; cbn; by rewrite Hn].
  - rewrite alive_snoc, H1. unfold live. cbn. rewrite Hn. by rewrite decide_False by naive_solver.
  - by right.
  - by apply quiet_snoc.
  - rewrite Hn. by intros _ [].
Qed.

Lemma ok_gone_child ref c : child c = Some ref → manager_ok c →
  let c' := set_child None (emit (ChildGone ref) c) in manager_ok c' ∧ live c' = [].
Proof.
  intros Hp [H1 H2 H3 H4]. destruct H2 as [?|Hn]; [congruence|]. unfold live in H1. rewrite Hn, Hp in H1. cbn in H1.
  split; [split; cbn|unfold live; cbn; by rewrite Hn].
  - rewrite alive_snoc, H1. unfold live. cbn. rewrite Hn. by rewrite decide_False by naive_solver.
  - by left.
  - by apply quiet_snoc.
  - by intros _ [].
Qed.

Lemma core_dropHold c : child (dropHostDisagreementHold c) = child c ∧ pendingStop (dropHostDisagreementHold c) = pendingStop c.
Proof.
  assert (Hd : ∀ (l : list Body) c, child (dropHeld l c) = child c ∧ pendingStop (dropHeld l c) = pendingStop c).
  { intros l. induction l as [|b l IH]; intros c0; [done|]. destruct (IH (emit (DeadLetter b) c0)) as [E1 E2]. split; [exact E1|exact E2]. }
  unfold dropHostDisagreementHold. destruct (hostDisagreementHold _); [done|]. destruct (Hd (b :: l)
    (warnNotHostedOnce (set_hostDisagreementHold [] (set_hostDisagreementHoldTimer false c)))) as [-> ->].
  unfold warnNotHostedOnce. by destruct (warnedNotHosted _).
Qed.

Lemma ok_handleTerminated actor s c : manager_ok c → manager_ok (handleTerminated options v actor s c).
Proof.
  intros Hc. unfold handleTerminated. case_bool_decide as Hp.
  - destruct (ok_gone_stopping actor c Hp Hc) as [H1 Hl1]. set (c1 := emit _ _) in *.
    pose proof (ok_answerRequesters (captureWarmState options s) c1 H1) as H2.
    destruct (core_answerRequesters (captureWarmState options s) c1) as (E1 & E2 & E3 & E4).
    destruct (answerHandOverRequesters (captureWarmState options s) c1) as [c2 answered]. cbn [fst] in *.
    set (c3 := match answered, captureWarmState options s with false, Some s => _ | _, _ => c2 end).
    assert (H3 : manager_ok c3 ∧ live c3 = []).
    { assert (core c3 = core c2) as Hcore by (unfold c3; by destruct answered, (captureWarmState options s)). split; [by apply (ok_core c2)|].
      unfold core in Hcore. injection Hcore as F1 F2 _ _. unfold live. by rewrite F1, F2, E1, E2. }
    destruct H3 as [H3 Hl3]. set (c4 := if releaseLeaseWhenChildStops c3 then _ else c3).
    assert (H4 : manager_ok c4).
    { unfold c4. destruct (releaseLeaseWhenChildStops c3); [|done]. apply ok_releaseLease; [done|]. by apply (ok_core c3). }
    destruct (lease options) eqn:Hl; [by apply ok_emit_plain|by apply ok_reconcileSync].
  - case_bool_decide as Hch; [|done]. apply ok_answerRequesters. unfold onChildDiedUnexpectedly.
    destruct (ok_gone_child actor c Hch Hc) as [H1 Hl1]. set (c1 := set_child None _) in *.
    destruct (restartOnTermination options); [by apply (ok_core c1)|].
    set (c2 := set_terminallyStopped true c1). assert (H2 : manager_ok c2) by (by apply (ok_core c1)).
    apply ok_releaseLease; [|by apply ok_dropHold]. unfold live. destruct (core_dropHold c2) as [-> ->]. done.
Qed.

Lemma ok_onSingletonDeliver body c : manager_ok c → manager_ok (onSingletonDeliver body c).
Proof.
  intros Hc. unfold onSingletonDeliver, holdUntilHandOverCompletes, holdWhileHostingIsUndecided, warnNotHostedOnce.
  destruct (child c); [by apply ok_emit_plain|].
  assert (Hrest : manager_ok (match (if terminallyStopped c then None
    else if Z.of_nat (length (hostDisagreementHold c)) >=? SINGLETON_HAND_OVER_BUFFER_SIZE then None
    else Some (set_hostDisagreementHoldTimer true (set_hostDisagreementHold (hostDisagreementHold c ++ [body]) c))) with
    Some c => c | None => emit (DeadLetter body) (if warnedNotHosted c then c else set_warnedNotHosted true c) end)).
  { destruct (terminallyStopped c); [|destruct (_ >=? _); [|by apply (ok_core c)]];
      (apply ok_emit_plain; [done..|destruct (warnedNotHosted c); by apply (ok_core c)]). }
  destruct (handOver c) as [p|]; [|done]. destruct (Z.of_nat (length (held p)) >=? _); [done|by apply (ok_core c)].
Qed.

Lemma handle_ok (e : Event Body) c : manager_ok c → manager_ok (handle options v e c).
Proof.
  intros Hc. destruct e; cbn [handle].
  - unfold onClusterMembershipChanged. destruct (lease options) eqn:Hl; [by apply ok_emit_plain|by apply ok_reconcileSync].
  - by apply ok_onSingletonDeliver.
  - by apply ok_handleReconcile.
  - by apply ok_handleReconcile.
  - by apply ok_onLeaseAcquireResult.
  - by apply ok_onLeaseLost.
  - by apply ok_onRestartChild.
  - by apply ok_completeHandOver.
  - by apply ok_onHandOverRetry.
  - by apply ok_dropHold.
  - by apply (ok_core c).
  - by apply ok_handleTerminated.
  - by apply ok_onHandOverRequest.
  - by apply ok_onAck.
  - by apply ok_emit_plain.
Qed.

Lemma construct_manager_ok : manager_ok construct.
Proof. split; cbn; [done|by left| |by intros _ []]. intros l1 e l2 Heq. by destruct l1. Qed.

Lemma preStart_ok : manager_ok (preStart options v construct).
Proof.
  pose proof construct_manager_ok as H0. unfold preStart. destruct (lease options) eqn:Hl; [by apply ok_emit_plain|by apply ok_reconcileSync].
Qed.

(** ** Messages *)

Definition spoken e : list Body := match e with TellChild _ body | DeadLetter body => [body] | _ => [] end.

(** What was told to an instance or dead-lettered, and what waits. *)
Definition said c : list Body := effects c ≫= spoken.
Definition held_of (p : option (PendingHandOver Body)) : list Body := match p with Some p => held p | None => [] end.
Definition kept c : list Body := held_of (handOver c) ++ hostDisagreementHold c.

Definition capped c : Prop := Z.of_nat (length (held_of (handOver c))) ≤ SINGLETON_HAND_OVER_BUFFER_SIZE ∧
  Z.of_nat (length (hostDisagreementHold c)) ≤ SINGLETON_HAND_OVER_BUFFER_SIZE.

Definition settled (new : list Body) c c' : Prop :=
  said c' ++ kept c' ≡ₚ said c ++ kept c ++ new ∧ (capped c → capped c').

Definition pouch c := (held_of (handOver c), hostDisagreementHold c, said c).

Lemma settled_pouch c c' : pouch c' = pouch c → settled [] c c'.
Proof. unfold pouch. intros [= E1 E2 E3]. unfold settled, kept, capped. rewrite E1, E2, E3. split; [solve_Permutation|done]. Qed.

Lemma settled_trans new1 new2 c1 c2 c3 : settled new1 c1 c2 → settled new2 c2 c3 → settled (new1 ++ new2) c1 c3.
Proof. intros [P1 B1] [P2 B2]. split; [|tauto]. rewrite P2, app_assoc, P1. solve_Permutation. Qed.

Lemma settled_then new c1 c2 c3 : settled new c1 c2 → pouch c3 = pouch c2 → settled new c1 c3.
Proof. intros H1 H2%settled_pouch. rewrite <- (app_nil_r new). by eapply settled_trans. Qed.

Lemma settled_after new c1 c2 c3 : pouch c2 = pouch c1 → settled new c2 c3 → settled new c1 c3.
Proof. intros H1%settled_pouch H2. exact (settled_trans [] new _ _ _ H1 H2). Qed.

Lemma pouch_emit e c : spoken e = [] → pouch (emit e c) = pouch c.
Proof. intros He. unfold pouch, said. cbn. rewrite bind_app. cbn. by rewrite He, !app_nil_r. Qed.

Lemma pouch_fold {A} (f : Manager → A → Manager) : (∀ c a, pouch (f c a) = pouch c) → ∀ (k : list A) c, pouch (foldl f c k) = pouch c.
Proof. intros Hf k. induction k as [|a k IH]; intros c; [done|]. cbn. by rewrite IH. Qed.

(** Saying all of a list, and nothing else. *)
Lemma said_all (f : Body → Effect) (bodies : list Body) c : (∀ b, spoken (f b) = [b]) →
  let c' := foldl (λ c body, emit (f body) c) c bodies in
  said c' = said c ++ bodies ∧ handOver c' = handOver c ∧ hostDisagreementHold c' = hostDisagreementHold c.
Proof.
  intros Hf. revert c. induction bodies as [|b bodies IH]; intros c; cbn; [by rewrite app_nil_r|].
  destruct (IH (emit (f b) c)) as (-> & -> & ->). split_and!; [|done..]. unfold said. cbn. rewrite bind_app. cbn. rewrite Hf.
  cbn. by rewrite <- app_assoc.
Qed.

(** Emptying one of the two holds by saying what is in it. *)
Lemma settled_empty_hold (f : Body → Effect) c c' : (∀ b, spoken (f b) = [b]) →
  pouch c' = (held_of (handOver c), [], said c) →
  settled [] c (foldl (λ c body, emit (f body) c) c' (hostDisagreementHold c)).
Proof.
  intros Hf [= E1 E2 E3]. destruct (said_all f (hostDisagreementHold c) c' Hf) as (F1 & F2 & F3).
  unfold settled, kept, capped. rewrite F1, F2, F3, E1, E2, E3. split; [solve_Permutation|].
  intros [Hb _]. split; [done|]. cbn. unfold SINGLETON_HAND_OVER_BUFFER_SIZE. lia.
Qed.

Lemma settled_flush c : is_Some (child c) → settled [] c (flushHostDisagreementHold c).
Proof. intros [ref Hr]. unfold flushHostDisagreementHold. cbn. rewrite Hr. by apply (settled_empty_hold (TellChild ref)). Qed.

Lemma settled_dropHold c : settled [] c (dropHostDisagreementHold c).
Proof.
  unfold dropHostDisagreementHold. change (hostDisagreementHold (set_hostDisagreementHoldTimer false c)) with (hostDisagreementHold c).
  destruct (hostDisagreementHold c) as [|b l] eqn:E; [by apply settled_pouch|]. rewrite <- E. apply (settled_empty_hold DeadLetter); [done|]. unfold warnNotHostedOnce. by destruct (warnedNotHosted _).
Qed.

Lemma settled_spawn w c : settled [] c (spawn w c).
Proof.
  unfold spawn. destruct (child c); [by apply settled_pouch|]. destruct (pendingStop c); [by apply settled_pouch|].
  set (c1 := dropRetainedHandOverState _). eapply (settled_after _ _ c1); [by rewrite <- (pouch_emit (SpawnChild (nextRef c) w) c)|].
  eapply settled_then; [apply settled_flush; by eexists|done].
Qed.

Lemma pouch_stopChild c : pouch (stopChild c) = pouch c.
Proof. unfold stopChild. destruct (child c); [|done]. by rewrite <- (pouch_emit (StopChild n) c). Qed.

Lemma pouch_sendRequests peers c : pouch (sendHandOverRequestTo peers c) = pouch c.
Proof. apply pouch_fold. intros. by apply pouch_emit. Qed.

Lemma settled_takeOver c : settled [] c (takeOverHosting options v c).
Proof.
  unfold takeOverHosting. destruct (child c), (pendingStop c), (handOver c) eqn:Eh; try by apply settled_pouch.
  destruct (handOverPeers options v); [apply settled_spawn|]. apply settled_pouch. rewrite pouch_sendRequests. unfold pouch. cbn.
  by rewrite Eh.
Qed.

(** Leaving the wait by saying all that it held. *)
Lemma settled_wait_over (f : Body → Effect) (p : PendingHandOver Body) c c' : (∀ b, spoken (f b) = [b]) → handOver c = Some p →
  settled [] (set_handOver None c) c' → handOver c' = None → settled [] c (foldl (λ c body, emit (f body) c) c' (held p)).
Proof.
  intros Hf Hp [P B] Hn. destruct (said_all f (held p) c' Hf) as (F1 & F2 & F3).
  unfold settled, kept, capped in *. rewrite F1, F2, F3, Hn in *. cbn [held_of] in *. rewrite Hp. cbn in *.
  change (said (set_handOver None c)) with (said c) in P. split.
  - transitivity ((said c' ++ hostDisagreementHold c') ++ held p); [solve_Permutation|]. rewrite P. solve_Permutation.
  - intros [_ Hb]. destruct B as [_ B]; [split; [unfold SINGLETON_HAND_OVER_BUFFER_SIZE; lia|done]|].
    split; [unfold SINGLETON_HAND_OVER_BUFFER_SIZE; lia|done].
Qed.

Lemma handOver_spawn w c : handOver (spawn w c) = handOver c.
Proof.
  unfold spawn. destruct (child c); [done|]. destruct (pendingStop c); [done|]. cbn. unfold flushHostDisagreementHold. cbn.
  destruct (said_all (TellChild (nextRef c)) (hostDisagreementHold c) (set_hostDisagreementHold [] (set_hostDisagreementHoldTimer false
    (dropRetainedHandOverState (set_child (Some (nextRef c)) (emit (SpawnChild (nextRef c) w) (set_nextRef (S (nextRef c)) c))))))
    ltac:(done)) as (_ & E & _). exact E.
Qed.

Lemma settled_completeHandOver c : settled [] c (completeHandOver options v c).
Proof.
  unfold completeHandOver. destruct (handOver c) as [p|] eqn:Eh; [|by apply settled_pouch]. set (c0 := set_handOver None c).
  assert (H0 : settled [] c0 c0) by by apply settled_pouch.
  destruct (negb _); [by apply (settled_wait_over DeadLetter)|]. destruct (_ && _); [by apply (settled_wait_over DeadLetter)|].
  set (c2 := spawn _ _). assert (H2 : settled [] c0 c2) by apply settled_spawn.
  assert (handOver c2 = None) by (unfold c2; by rewrite handOver_spawn).
  destruct (child c2) as [ref|]; [by apply (settled_wait_over (TellChild ref))|by apply (settled_wait_over DeadLetter)].
Qed.

Lemma settled_onHandOverRetry c : settled [] c (onHandOverRetry options v c).
Proof.
  unfold onHandOverRetry. destruct (handOver c) as [p|] eqn:Eh; [|by apply settled_pouch]. set (c0 := set_handOver _ c).
  assert (H0 : pouch c0 = pouch c) by (unfold pouch; cbn; by rewrite Eh). case_bool_decide.
  - eapply settled_after; [done|apply settled_completeHandOver].
  - apply settled_pouch. by rewrite pouch_sendRequests.
Qed.

Lemma settled_onAck name s peer c : settled [] c (onHandOverAcknowledgment options v name s peer c).
Proof.
  unfold onHandOverAcknowledgment. destruct (handOver c) as [p|] eqn:Eh; [|by apply settled_pouch].
  destruct (negb _); [by apply settled_pouch|]. destruct (negb _); [by apply settled_pouch|].
  set (p0 := mkPending _ _ _). set (p1 := acceptWarmState p0 s). set (c0 := set_handOver (Some p1) c).
  assert (H1 : held p1 = held p).
  { unfold p1, acceptWarmState. destruct s as [s|]; [|done]. destruct (_ =? _); [done|]. by destruct (state p0). }
  assert (H0 : pouch c0 = pouch c) by (unfold pouch; cbn; by rewrite Eh, H1).
  case_bool_decide; [eapply settled_after; [done|apply settled_completeHandOver]|by apply settled_pouch].
Qed.

Lemma pouch_answer peer s c : pouch (answerHandOver peer s c) = pouch c.
Proof.
  unfold answerHandOver, takeRetainedHandOverState. destruct s; [by apply pouch_emit|].
  destruct (retainedHandOverState c); by rewrite pouch_emit.
Qed.

Lemma pouch_answerRequesters s c : pouch (answerHandOverRequesters s c).1 = pouch c.
Proof.
  unfold answerHandOverRequesters. destruct (handOverRequesters c) as [|r rs]; [done|].
  destruct (child c); [done|]. destruct (pendingStop c); [done|]. cbn [fst]. trans (pouch (set_handOverRequesters [] c)); [|done].
  generalize (r :: rs), (set_handOverRequesters [] c). intros k c0. revert c0 s. induction k as [|x k IH]; intros c0 s; [done|].
  cbn [foldl]. rewrite IH. apply pouch_answer.
Qed.

Lemma pouch_releaseLease c : pouch (releaseLease options c) = pouch c.
Proof. unfold releaseLease. destruct (_ && _); [|done]. by rewrite pouch_emit. Qed.

Lemma settled_reconcileSync c : settled [] c (reconcileSync options v c).
Proof.
  unfold reconcileSync. destruct (wantHosted _ _ _), (child c); try by apply settled_pouch.
  - apply settled_takeOver.
  - apply settled_pouch, pouch_stopChild.
Qed.

Lemma settled_handleReconcile c : settled [] c (handleReconcile options v c).
Proof.
  unfold handleReconcile. destruct (negb _); [apply settled_reconcileSync|]. destruct (wantHosted _ _ _).
  - destruct (leaseState c); [apply settled_pouch; by rewrite pouch_emit|by apply settled_pouch|apply settled_takeOver].
  - destruct (leaseState c); [by apply settled_pouch..|]. apply settled_pouch. rewrite <- (pouch_stopChild c).
    destruct (pendingStop _); [done|]. by rewrite pouch_releaseLease.
Qed.

Lemma settled_handleTerminated actor s c : settled [] c (handleTerminated options v actor s c).
Proof.
  unfold handleTerminated. case_bool_decide as Hst.
  - set (c1 := emit _ _). assert (H1 : pouch c1 = pouch c) by (by rewrite <- (pouch_emit (ChildGone actor) c)).
    pose proof (pouch_answerRequesters (captureWarmState options s) c1) as H2.
    destruct (answerHandOverRequesters _ c1) as [c2 answered]. cbn [fst] in H2.
    set (c3 := match answered, captureWarmState options s with false, Some s => _ | _, _ => c2 end).
    assert (H3 : pouch c3 = pouch c2) by (unfold c3; by destruct answered, (captureWarmState options s)).
    set (c4 := if releaseLeaseWhenChildStops c3 then _ else c3).
    assert (H4 : pouch c4 = pouch c3) by (unfold c4; destruct (releaseLeaseWhenChildStops c3); [by rewrite pouch_releaseLease|done]).
    apply (settled_after _ _ c4); [congruence|]. destruct (lease options); [by apply settled_pouch, pouch_emit|apply settled_reconcileSync].
  - case_bool_decide as Hch; [|by apply settled_pouch]. eapply settled_then; [|apply pouch_answerRequesters].
    unfold onChildDiedUnexpectedly. set (c1 := set_child None _). assert (H1 : pouch c1 = pouch c) by (by rewrite <- (pouch_emit (ChildGone actor) c)).
    apply (settled_after _ _ c1); [done|]. destruct (restartOnTermination options); [by apply settled_pouch|].
    eapply settled_then; [|apply pouch_releaseLease]. by eapply settled_after; [|apply settled_dropHold].
Qed.

Lemma settled_onSingletonDeliver body c : settled [body] c (onSingletonDeliver body c).
Proof.
  assert (Hsay : ∀ e c0, spoken e = [body] → pouch c0 = pouch c → settled [body] c (emit e c0)).
  { intros e c0 He [= E1 E2 E3]. unfold settled, kept, capped, said in *. cbn. rewrite bind_app, E1, E2, E3. cbn. rewrite He.
    split; [solve_Permutation|done]. }
  unfold onSingletonDeliver. destruct (child c); [by apply Hsay|].
  destruct (holdUntilHandOverCompletes body c) as [c1|] eqn:E1.
  { unfold holdUntilHandOverCompletes in E1. destruct (handOver c) as [p|] eqn:Eh; [|done].
    destruct (Z.geb_spec (Z.of_nat (length (held p))) SINGLETON_HAND_OVER_BUFFER_SIZE); [done|]. injection E1 as <-.
    unfold settled, kept, capped. cbn. rewrite Eh. cbn. split; [change (said _) with (said c); solve_Permutation|].
    rewrite length_app. cbn. lia. }
  destruct (holdWhileHostingIsUndecided body c) as [c1|] eqn:E2.
  { unfold holdWhileHostingIsUndecided in E2. destruct (terminallyStopped c); [done|].
    destruct (Z.geb_spec (Z.of_nat (length (hostDisagreementHold c))) SINGLETON_HAND_OVER_BUFFER_SIZE); [done|]. injection E2 as <-.
    unfold settled, kept, capped. cbn. split; [change (said _) with (said c); solve_Permutation|]. rewrite length_app. cbn. lia. }
  apply Hsay; [done|]. unfold warnNotHostedOnce. by destruct (warnedNotHosted c).
Qed.

Definition arrived (e : Event Body) : list Body := match e with SingletonDeliver body => [body] | _ => [] end.

Lemma settled_handle (e : Event Body) c : settled (arrived e) c (handle options v e c).
Proof.
  destruct e; cbn [handle arrived].
  - unfold onClusterMembershipChanged. destruct (lease options); [by apply settled_pouch, pouch_emit|apply settled_reconcileSync].
  - apply settled_onSingletonDeliver.
  - apply settled_handleReconcile.
  - apply settled_handleReconcile.
  - unfold onLeaseAcquireResult. destruct (negb (bool_decide _)); [destruct got; [apply settled_pouch; by rewrite pouch_emit|by apply settled_pouch]|].
    destruct (negb got); [by apply settled_pouch|]. destruct (negb _).
    + apply settled_pouch. by rewrite <- (pouch_emit (ReleaseLease true) c).
    + by eapply settled_after; [|apply settled_takeOver].
  - unfold onLeaseLost. destruct (negb _); [by apply settled_pouch|]. apply settled_pouch. rewrite <- (pouch_stopChild c).
    destruct (pendingStop _); [done|]. by rewrite pouch_emit.
  - unfold onRestartChild. set (c0 := set_restartTimer false c). destruct (negb _); [by apply settled_pouch|].
    destruct (child c0), (pendingStop c0); try by apply settled_pouch. destruct (_ && _); [apply settled_pouch; by rewrite pouch_emit|].
    by eapply (settled_after _ _ c0); [|apply settled_spawn].
  - apply settled_completeHandOver.
  - apply settled_onHandOverRetry.
  - apply settled_dropHold.
  - by apply settled_pouch.
  - apply settled_handleTerminated.
  - unfold onHandOverRequest. destruct (negb _); [by apply settled_pouch|]. destruct (negb _); [by apply settled_pouch|].
    apply settled_pouch. destruct (child c); [by rewrite pouch_stopChild|]. destruct (pendingStop c); [done|]. apply pouch_answer.
  - apply settled_onAck.
  - by apply settled_pouch, pouch_emit.
Qed.

Lemma settled_preStart : settled [] construct (preStart options v construct).
Proof. unfold preStart. destruct (lease options); [by apply settled_pouch|apply settled_reconcileSync]. Qed.

(** ** Nobody hosts past a peer that has not answered *)

Definition spawned_by e : list nat := match e with SpawnChild ref _ => [ref] | _ => [] end.
Definition spawned c : list nat := effects c ≫= spawned_by.

Definition gate c := (handOver c, spawned c).

Lemma gate_emit e c : spawned_by e = [] → gate (emit e c) = gate c.
Proof. intros He. unfold gate, spawned. cbn. rewrite bind_app. cbn. by rewrite He, !app_nil_r. Qed.

Lemma gate_fold {A} (f : Manager → A → Manager) : (∀ c a, gate (f c a) = gate c) → ∀ (k : list A) c, gate (foldl f c k) = gate c.
Proof. intros Hf k. induction k as [|a k IH]; intros c; [done|]. cbn. by rewrite IH. Qed.

Lemma gate_dropHeld bodies c : gate (dropHeld bodies c) = gate c.
Proof. apply gate_fold. intros. by apply gate_emit. Qed.

Lemma gate_dropHold c : gate (dropHostDisagreementHold c) = gate c.
Proof.
  unfold dropHostDisagreementHold. destruct (hostDisagreementHold _); [done|]. rewrite gate_dropHeld.
  unfold warnNotHostedOnce. by destruct (warnedNotHosted _).
Qed.

Lemma gate_stopChild c : gate (stopChild c) = gate c.
Proof. unfold stopChild. destruct (child c) as [ref|]; [|done]. by rewrite <- (gate_emit (StopChild ref) c). Qed.

Lemma gate_releaseLease c : gate (releaseLease options c) = gate c.
Proof. unfold releaseLease. destruct (_ && _); [|done]. by rewrite gate_emit. Qed.

Lemma gate_answer peer s c : gate (answerHandOver peer s c) = gate c.
Proof.
  unfold answerHandOver, takeRetainedHandOverState. destruct s; [by apply gate_emit|].
  destruct (retainedHandOverState c); by rewrite gate_emit.
Qed.

Lemma gate_answerRequesters s c : gate (answerHandOverRequesters s c).1 = gate c.
Proof.
  unfold answerHandOverRequesters. destruct (handOverRequesters c) as [|r rs]; [done|].
  destruct (child c); [done|]. destruct (pendingStop c); [done|]. cbn [fst]. trans (gate (set_handOverRequesters [] c)); [|done].
  generalize (r :: rs), (set_handOverRequesters [] c). intros k c0. revert c0 s. induction k as [|x k IH]; intros c0 s; [done|].
  cbn [foldl]. rewrite IH. apply gate_answer.
Qed.

Lemma gate_sendRequests peers c : gate (sendHandOverRequestTo peers c) = gate c.
Proof. apply gate_fold. intros. by apply gate_emit. Qed.

(** A wait that is on is not started again, and not passed by. *)
Lemma takeOver_waits c p : handOver c = Some p → takeOverHosting options v c = c.
Proof. intros Hp. unfold takeOverHosting. rewrite Hp. by destruct (child c), (pendingStop c). Qed.

Lemma gate_reconcileSync c p : handOver c = Some p → gate (reconcileSync options v c) = gate c.
Proof.
  intros Hp. unfold reconcileSync. destruct (wantHosted _ _ _), (child c); try done; [by erewrite takeOver_waits|apply gate_stopChild].
Qed.

Lemma gate_handOver c c' p : gate c' = gate c → handOver c = Some p → handOver c' = Some p.
Proof. unfold gate. by intros [= -> _]. Qed.

Lemma gate_handleReconcile c p : handOver c = Some p → gate (handleReconcile options v c) = gate c.
Proof.
  intros Hp. unfold handleReconcile. destruct (negb _); [by eapply gate_reconcileSync|]. destruct (wantHosted _ _ _).
  - destruct (leaseState c); [by rewrite gate_emit|done|by erewrite takeOver_waits].
  - destruct (leaseState c); [done..|]. rewrite <- (gate_stopChild c). destruct (pendingStop _); [done|apply gate_releaseLease].
Qed.

Lemma gate_handleTerminated actor s c p : handOver c = Some p → gate (handleTerminated options v actor s c) = gate c.
Proof.
  intros Hp. unfold handleTerminated. case_bool_decide as Hst.
  - set (c1 := emit _ _). assert (H1 : gate c1 = gate c) by (by rewrite <- (gate_emit (ChildGone actor) c)).
    pose proof (gate_answerRequesters (captureWarmState options s) c1) as H2.
    destruct (answerHandOverRequesters _ c1) as [c2 answered]. cbn [fst] in H2.
    set (c3 := match answered, captureWarmState options s with false, Some s => _ | _, _ => c2 end).
    assert (H3 : gate c3 = gate c2) by (unfold c3; by destruct answered, (captureWarmState options s)).
    set (c4 := if releaseLeaseWhenChildStops c3 then _ else c3).
    assert (H4 : gate c4 = gate c3) by (unfold c4; destruct (releaseLeaseWhenChildStops c3); [by rewrite gate_releaseLease|done]).
    assert (H5 : gate c4 = gate c) by congruence. rewrite <- H5. destruct (lease options); [by rewrite gate_emit|].
    eapply gate_reconcileSync. by eapply gate_handOver.
  - case_bool_decide as Hch; [|done]. rewrite gate_answerRequesters. unfold onChildDiedUnexpectedly.
    set (c1 := set_child None _). assert (H1 : gate c1 = gate c) by (by rewrite <- (gate_emit (ChildGone actor) c)).
    rewrite <- H1. destruct (restartOnTermination options); [done|]. by rewrite gate_releaseLease, gate_dropHold.
Qed.

Lemma spawned_onSingletonDeliver body c : spawned (onSingletonDeliver body c) = spawned c.
Proof.
  assert (Hemit : ∀ e c0, spawned_by e = [] → spawned (emit e c0) = spawned c0) by (intros e c0 He; by apply (f_equal snd (gate_emit e c0 He))).
  unfold onSingletonDeliver, holdUntilHandOverCompletes, holdWhileHostingIsUndecided, warnNotHostedOnce.
  destruct (child c); [by apply Hemit|]. destruct (handOver c) as [p|].
  - destruct (_ >=? _); [|done]. destruct (terminallyStopped c); [rewrite Hemit by done; by destruct (warnedNotHosted c)|].
    destruct (_ >=? _); [rewrite Hemit by done; by destruct (warnedNotHosted c)|done].
  - destruct (terminallyStopped c); [rewrite Hemit by done; by destruct (warnedNotHosted c)|].
    destruct (_ >=? _); [rewrite Hemit by done; by destruct (warnedNotHosted c)|done].
Qed.

Lemma spawned_gate c c' : gate c' = gate c → spawned c' = spawned c.
Proof. by intros [= _ ->]. Qed.

(** What may end the wait for peer [a]: its answer, its leaving the eligible
    set, the deadline - and the restart of an instance that died. *)
Definition ends_wait_for (a : string) (e : Event Body) : Prop :=
  match e with
  | HandOverAcknowledgment name _ peer => name = typeName options ∧ toString peer = a
  | HandOverRetry => a ∉ toString <$> handOverPeers options v
  | HandOverTimeout | RestartChild => True
  | _ => False
  end.

Lemma unanswered_blocks (e : Event Body) c p a : handOver c = Some p → a ∈ awaiting p → ¬ ends_wait_for a e →
  spawned (handle options v e c) = spawned c.
Proof.
  intros Hp Ha Hn. destruct e as [| | | | | | | | | | | | |name s0 peer|]; cbn [handle ends_wait_for] in *; try done; try (by destruct Hn).
  - unfold onClusterMembershipChanged. destruct (lease options); apply spawned_gate; [by apply gate_emit|by eapply gate_reconcileSync].
  - apply spawned_onSingletonDeliver.
  - by eapply spawned_gate, gate_handleReconcile.
  - by eapply spawned_gate, gate_handleReconcile.
  - unfold onLeaseAcquireResult. destruct (negb (bool_decide _)); [destruct got; [by apply spawned_gate, gate_emit|done]|].
    destruct (negb got); [done|]. destruct (negb _).
    + apply spawned_gate. by rewrite <- (gate_emit (ReleaseLease true) c).
    + by erewrite takeOver_waits.
  - unfold onLeaseLost. destruct (negb _); [done|]. apply spawned_gate. rewrite <- (gate_stopChild c).
    destruct (pendingStop _); [done|]. by rewrite gate_emit.
  - unfold onHandOverRetry. rewrite Hp. rewrite bool_decide_eq_false_2.
    + by rewrite (spawned_gate _ _ (gate_sendRequests _ _)).
    + intros Hnil. destruct (decide (a ∈ toString <$> handOverPeers options v)) as [Hin|]; [|done].
      assert (a ∈ filter (λ y, y ∈ toString <$> handOverPeers options v) (awaiting p)) as Hf by (by apply list_elem_of_filter).
      rewrite Hnil in Hf. by apply elem_of_nil in Hf.
  - apply spawned_gate, gate_dropHold.
  - by eapply spawned_gate, gate_handleTerminated.
  - unfold onHandOverRequest. destruct (negb _); [done|]. destruct (negb _); [done|]. apply spawned_gate.
    destruct (child c); [by rewrite gate_stopChild|]. destruct (pendingStop c); [done|]. apply gate_answer.
  - unfold onHandOverAcknowledgment. rewrite Hp. case_bool_decide as Hname; cbn [negb]; [|done].
    destruct (negb _); [done|]. set (p0 := mkPending _ _ _). set (p1 := acceptWarmState p0 s0).
    assert (H1 : awaiting p1 = set_delete (awaiting p) (toString peer)).
    { unfold p1, acceptWarmState. destruct s0 as [s|]; [|done]. destruct (_ =? _); [done|]. by destruct (state p0). }
    rewrite bool_decide_eq_false_2; [done|]. rewrite H1. intros Hnil.
    assert (a ∈ set_delete (awaiting p) (toString peer)) as Hf by (apply elem_of_set_delete; split; [done|]; intros ->; by apply Hn).
    rewrite Hnil in Hf. by apply elem_of_nil in Hf.
  - by apply spawned_gate, gate_emit.
Qed.

End manager.

Section runs.
Context `{LocaleCompare} {Body : Type} (options : ManagerOptions) (v : View).

Lemma run_manager_ok (events : list (View * Event Body)) : manager_ok options (run options v events).
Proof.
  unfold run. pose proof (preStart_ok (Body := Body) options v) as H0. revert H0. generalize (preStart options v (construct (Body := Body))).
  induction events as [|[w e] events IH]; intros c Hc; [done|]. apply IH. by apply handle_ok.
Qed.

Lemma run_settled (events : list (View * Event Body)) : settled (events ≫= λ e, arrived e.2) construct (run options v events).
Proof.
  unfold run. rewrite <- (app_nil_l (events ≫= _)). eapply settled_trans; [apply (settled_preStart options v)|].
  generalize (preStart options v (construct (Body := Body))). induction events as [|[w e] events IH]; intros c; [by apply settled_pouch|].
  rewrite bind_cons. eapply settled_trans; [apply (settled_handle options w)|apply IH].
Qed.

(** C11. Whatever the cluster, the lease and the peers do, the manager never runs
    two instances: an instance is spawned, a peer is told that this node has
    stood down, and a lease that was held is given back only when every
    instance spawned before is known to be gone; and under a lease the node
    hosts only while it holds the lease. *)
Theorem one_instance_at_a_time (events : list (View * Event Body)) :
  let c := run options v events in
  (∀ l1 e l2, effects c = l1 ++ e :: l2 → needs_silence e = true → alive l1 = []) ∧
  alive (effects c) = option_list (child c) ++ option_list (pendingStop c) ∧
  (length (alive (effects c)) ≤ 1)%nat ∧
  (lease options = true → is_Some (child c) → leaseState c = held_).
Proof.
  cbv zeta. destruct (run_manager_ok events) as [H1 H2 H3 H4]. split_and!; [exact H3|exact H1| |exact H4].
  rewrite H1. unfold live. destruct H2 as [-> | ->]; [by destruct (pendingStop _); cbn; lia|by destruct (child _); cbn; lia].
Qed.


(** While a hand-over waits for the answer of a peer, the node spawns no
    instance: only that peer's answer, its leaving the eligible set, or the
    deadline ends the wait for it - or the timer that restarts an instance of
    this node that died. *)
Theorem unanswered_peer_blocks_hosting (c : Manager Body) (e : Event Body) (p : PendingHandOver Body) (a : string) :
  handOver c = Some p → a ∈ awaiting p → spawned (handle options v e c) ≠ spawned c →
  match e with
  | HandOverAcknowledgment name _ peer => name = typeName options ∧ toString peer = a
  | HandOverRetry => a ∉ toString <$> handOverPeers options v
  | HandOverTimeout | RestartChild => True
  | _ => False
  end.
Proof.
  intros Hp Ha Hs. assert (Hd : Decision (ends_wait_for options v a e)) by (unfold ends_wait_for; destruct e; apply _).
  destruct (decide (ends_wait_for options v a e)) as [He|Hne]; [exact He|]. destruct Hs. by eapply unanswered_blocks.
Qed.

End runs.

(** ** Runs of a concrete manager *)

Definition node_a : NodeAddress := mkAddress "sys" "a" 1 None.
Definition node_b : NodeAddress := mkAddress "sys" "b" 1 None.

Definition manager_options (with_lease : bool) : ManagerOptions := mkOptions "job" node_a None with_lease true 1000 None.

(** Both nodes are up; who leads changes. *)
Definition led_by (node : NodeAddress) : View := mkView (Some node) [node_a; node_b] (λ _, []) [node_a; node_b].
Definition alone : View := mkView (Some node_a) [node_a] (λ _, []) [node_a].

#[local] Existing Instance code_point_compare.

Definition singleton_run (with_lease : bool) (v : View) (events : list (View * Event nat)) :=
  run (manager_options with_lease) v events.

Example hand_over_and_host : effects (singleton_run false (led_by node_a)
    [(led_by node_a, SingletonDeliver 7%nat); (led_by node_a, HandOverAcknowledgment "job" (Some [1; 2]) node_b)]) =
  [SendHandOverRequest node_b; SpawnChild 0 (Some [1; 2]); TellChild 0 7%nat].
Proof. vm_compute. reflexivity. Qed.

Example stand_down_and_answer : effects (singleton_run false alone
    [(led_by node_b, HandOverRequest "job" node_b); (led_by node_b, Terminated 0 (Serialized (Some [9])))]) =
  [SpawnChild 0 None; StopChild 0; ChildGone 0; SendHandOverAcknowledgment node_b (Some [9])].
Proof. vm_compute. reflexivity. Qed.

Lemma unanswered_peer_blocks_hosting_witness :
  let c := singleton_run false (led_by node_a) [] in
  toString node_b = "sys@b:1"%string ∧ spawned (handle (manager_options false) alone HandOverRetry c) = [0%nat].
Proof.
  split; [|vm_compute; reflexivity].
  refine (match unanswered_peer_blocks_hosting (manager_options false) (led_by node_a) (singleton_run false (led_by node_a) [])
    (HandOverAcknowledgment "job" None node_b) (mkPending ["sys@b:1"%string] [] None) "sys@b:1" _ _ _ with conj _ H => H end).
  - vm_compute. reflexivity.
  - by left.
  - vm_compute. discriminate.
Defined.

(** The restart of an instance that died does not look at a hand-over that is
    under way: the leadership went to [b] and came back while the timer ran,
    [b] was told that nothing runs here and has not answered yet, and the node
    hosts; the state that [b] hands over later finds an instance that started
    without it. *)
Theorem restart_hosts_past_a_hand_over :
  effects (singleton_run false alone
    [(alone, Terminated 0 NotWarm); (led_by node_b, HandOverRequest "job" node_b); (led_by node_a, ClusterChanged);
     (led_by node_a, RestartChild); (led_by node_a, HandOverAcknowledgment "job" (Some [5]) node_b)]) =
  [SpawnChild 0 None; ChildGone 0; SendHandOverAcknowledgment node_b None; SendHandOverRequest node_b; SpawnChild 1 None].
Proof. vm_compute. reflexivity. Qed.

(** Past the size of the hand-over buffer a message is not dead-lettered but
    held with those that came before the hand-over, and overtakes all that the
    buffer holds. *)
Theorem overflow_overtakes_the_hand_over_buffer :
  said (singleton_run false (led_by node_a) (((λ n, (led_by node_a, SingletonDeliver n)) <$> seq 0 1001)
    ++ [(led_by node_a, HandOverAcknowledgment "job" None node_b)])) = 1000%nat :: seq 0 1000.
Proof. vm_compute. reflexivity. Qed.

(** A lease that was lost is acquired again on a membership change while the
    instance is still stopping; when the leadership has moved by the time the
    answer comes, it is given back at once, with the instance running. *)
Theorem lease_given_back_under_a_live_instance :
  ∃ l1 l2, effects (singleton_run true alone
    [(alone, Reconcile); (alone, LeaseAcquireResult true); (alone, LeaseLost); (alone, ClusterChanged); (alone, Reconcile);
     (led_by node_b, LeaseAcquireResult true)]) = l1 ++ ReleaseLease true :: l2 ∧ alive l1 = [0%nat].
Proof.
  exists [TellSelfReconcile; AcquireLease; SpawnChild 0 None; StopChild 0; TellSelfReconcile; AcquireLease], [].
  vm_compute. done.
Qed.
