(* ===== verification/SingletonProxy.v ===== *)
(** * The singleton proxy: [src/cluster/singleton/ClusterSingletonProxy.ts]

    The ref an application sends to: it forwards to the elected host, buffers
    while there is none, and may learn late to which role the singleton is
    restricted.  A handler is a function on the state; what leaves the proxy is
    logged in [sent].  The drain that the constructor queues is the event
    [QueuedDrain], which may come at any time. *)

From Stdlib Require Import Ascii String.
From S2P Require Import Prelude Member Downing.
From S2P Require Import Singleton.
Import NodeAddress.

Local Open Scope Z_scope.

Section proxy.
Context {Body : Type}.

Inductive SingletonRoleOrigin := explicit | configured.

#[export] Instance SingletonRoleOrigin_eq_dec : EqDecision SingletonRoleOrigin.
Proof. solve_decision. Defined.

Inductive ProxyEffect :=
| SendEnvelope (host : NodeAddress) (body : Body)
| TellManager (body : Body)
| DeadLettered (body : Body).

Record ClusterSingletonProxy := mkProxy {
  buffer : list Body;
  forwarding : bool;
  warnedMissingHost : bool;
  warnedBufferFull : bool;
  droppedCount : Z;
  proxyRole : option string;
  roleOrigin : SingletonRoleOrigin;
  sent : list ProxyEffect;
}.

Implicit Types (c : ClusterSingletonProxy) (body : Body).

Definition log (e : ProxyEffect) c : ClusterSingletonProxy :=
  mkProxy (buffer c) (forwarding c) (warnedMissingHost c) (warnedBufferFull c) (droppedCount c) (proxyRole c) (roleOrigin c)
    (sent c ++ [e]).
Definition set_buffer (x : list Body) c : ClusterSingletonProxy :=
  mkProxy x (forwarding c) (warnedMissingHost c) (warnedBufferFull c) (droppedCount c) (proxyRole c) (roleOrigin c) (sent c).
Definition set_role (r : option string) (o : SingletonRoleOrigin) c : ClusterSingletonProxy :=
  mkProxy (buffer c) (forwarding c) (warnedMissingHost c) (warnedBufferFull c) (droppedCount c) r o (sent c).
Definition set_warnings (missing full : bool) c : ClusterSingletonProxy :=
  mkProxy (buffer c) (forwarding c) missing full (droppedCount c) (proxyRole c) (roleOrigin c) (sent c).
Definition count_drop c : ClusterSingletonProxy :=
  mkProxy (buffer c) (forwarding c) (warnedMissingHost c) true (droppedCount c + 1) (proxyRole c) (roleOrigin c) (sent c).

(** [bufferSize] of the constructor, and this node's address. *)
Context (bufferSize : Z) (selfAddress : NodeAddress).

Definition construct_proxy (role : option string) (origin : SingletonRoleOrigin) : ClusterSingletonProxy :=
  mkProxy [] true false false 0 role origin [].

Section view.
(** The cluster, and whether [localManager()] finds one. *)
Context (v : View) (localManager : bool).

Definition onMissingHost body c : ClusterSingletonProxy :=
  log (DeadLettered body) (set_warnings true (warnedBufferFull c) c).

Definition deliver (hostAddress : NodeAddress) c body : ClusterSingletonProxy :=
  if negb (equals hostAddress selfAddress) then log (SendEnvelope hostAddress body) c
  else if localManager then log (TellManager body) c
  else onMissingHost body c.

Definition bufferUntilHosted body c : ClusterSingletonProxy :=
  if Z.of_nat (length (buffer c)) >=? bufferSize then log (DeadLettered body) (count_drop c)
  else set_buffer (buffer c ++ [body]) c.

Definition tell body c : ClusterSingletonProxy :=
  if negb (forwarding c) then c
  else match singletonHost v (proxyRole c) with
       | None => bufferUntilHosted body c
       | Some host => deliver host c body
       end.

Definition drainBuffer c : ClusterSingletonProxy :=
  match singletonHost v (proxyRole c), buffer c with
  | Some host, (_ :: _) as drained => foldl (deliver host) (set_warnings (warnedMissingHost c) false (set_buffer [] c)) drained
  | _, _ => c
  end.

Definition onSingletonHostMayHaveChanged c : ClusterSingletonProxy := if forwarding c then drainBuffer c else c.

End view.

Definition adoptRole (role : option string) (origin : SingletonRoleOrigin) c : ClusterSingletonProxy :=
  match role with
  | None => c
  | Some r =>
      if bool_decide (proxyRole c = Some r)
      then if bool_decide (origin = explicit) then set_role (proxyRole c) explicit c else c
      else if bool_decide (proxyRole c = None) then set_role role origin c
      else if bool_decide (origin = roleOrigin c) then c
      else if bool_decide (origin = explicit) then set_role role explicit c else c
  end.

Definition stopForwarding c : ClusterSingletonProxy :=
  mkProxy (buffer c) false (warnedMissingHost c) (warnedBufferFull c) (droppedCount c) (proxyRole c) (roleOrigin c) (sent c).

Definition hasPending c : bool := negb (bool_decide (buffer c = [])).

(** [HostMayHaveChanged] reaches the proxy while it is subscribed. *)
Inductive ProxyEvent :=
| Tell (body : Body)
| QueuedDrain
| HostMayHaveChanged
| AdoptRole (role : option string) (origin : SingletonRoleOrigin)
| StopForwarding.

Definition proxy_step (v : View) (localManager : bool) (e : ProxyEvent) c : ClusterSingletonProxy :=
  match e with
  | Tell body => tell v localManager body c
  | QueuedDrain => drainBuffer v localManager c
  | HostMayHaveChanged => onSingletonHostMayHaveChanged v localManager c
  | AdoptRole role origin => adoptRole role origin c
  | StopForwarding => stopForwarding c
  end.

(** ** Where the messages go *)

Definition body_of (e : ProxyEffect) : list Body :=
  match e with SendEnvelope _ body | TellManager body | DeadLettered body => [body] end.

Definition away c : list Body := sent c ≫= body_of.

(** What a step brings: nothing once forwarding has stopped. *)
Definition offered c (e : ProxyEvent) : list Body :=
  match e with Tell body => if forwarding c then [body] else [] | _ => [] end.

Lemma away_log e c : away (log e c) = away c ++ body_of e.
Proof. unfold away. cbn. rewrite bind_app. cbn. by rewrite app_nil_r. Qed.

Lemma deliver_spec (m : bool) host c body : away (deliver m host c body) = away c ++ [body] ∧
  buffer (deliver m host c body) = buffer c ∧ forwarding (deliver m host c body) = forwarding c.
Proof.
  unfold deliver. destruct (negb _); [by rewrite away_log|]. destruct m; [by rewrite away_log|].
  unfold onMissingHost. by rewrite away_log.
Qed.

Lemma drain_spec v (m : bool) c : let c' := drainBuffer v m c in
  away c' ++ buffer c' = away c ++ buffer c ∧ (length (buffer c') ≤ length (buffer c))%nat ∧ forwarding c' = forwarding c.
Proof.
  assert (Hall : ∀ host l c, away (foldl (deliver m host) c l) = away c ++ l ∧
    buffer (foldl (deliver m host) c l) = buffer c ∧ forwarding (foldl (deliver m host) c l) = forwarding c).
  { clear c. intros host l. induction l as [|b l IH]; intros c; cbn; [by rewrite app_nil_r|].
    destruct (deliver_spec m host c b) as (E1 & E2 & E3). destruct (IH (deliver m host c b)) as (-> & -> & ->).
    rewrite E1, E2, E3. split_and!; [|done..]. by rewrite <- app_assoc. }
  cbv zeta. unfold drainBuffer. destruct (singletonHost v (proxyRole c)) as [host|]; [|done]. destruct (buffer c) as [|b l] eqn:E; [by rewrite E|].
  destruct (Hall host (b :: l) (set_warnings (warnedMissingHost c) false (set_buffer [] c))) as (-> & -> & ->).
  cbn [buffer set_warnings set_buffer]. rewrite app_nil_r. split_and!; [done|cbn; lia|done].
Qed.

Lemma step_accounts v m e c : let c' := proxy_step v m e c in
  away c' ++ buffer c' ≡ₚ away c ++ buffer c ++ offered c e ∧
  (Z.of_nat (length (buffer c)) ≤ Z.max 0 bufferSize → Z.of_nat (length (buffer c')) ≤ Z.max 0 bufferSize) ∧
  forwarding c' = match e with StopForwarding => false | _ => forwarding c end.
Proof.
  cbv zeta. destruct e as [body| | |r o|]; cbn [proxy_step offered].
  - unfold tell. destruct (forwarding c) eqn:Ef; cbn [negb]; [|by rewrite app_nil_r].
    destruct (singletonHost v (proxyRole c)) as [host|].
    + destruct (deliver_spec m host c body) as (-> & -> & ->). split_and!; [solve_Permutation|done..].
    + unfold bufferUntilHosted. destruct (Z.geb_spec (Z.of_nat (length (buffer c))) bufferSize).
      * rewrite away_log. cbn. change (away (count_drop c)) with (away c). split_and!; [solve_Permutation|done..].
      * cbn. change (away (set_buffer _ c)) with (away c). split_and!; [solve_Permutation| |done]. rewrite length_app. cbn. lia.
  - destruct (drain_spec v m c) as (-> & Hl & ->). rewrite app_nil_r. split_and!; [done|lia|done].
  - rewrite app_nil_r. unfold onSingletonHostMayHaveChanged. destruct (forwarding c) eqn:Ef; [|done].
    destruct (drain_spec v m c) as (-> & Hl & ->). split_and!; [done|lia|done].
  - unfold adoptRole. rewrite app_nil_r. by repeat case_match.
  - by rewrite app_nil_r.
Qed.

(** What was told to the proxy while it forwarded. *)
Fixpoint told_before_stop (events : list (View * bool * ProxyEvent)) : list Body :=
  match events with
  | [] => []
  | (_, Tell body) :: rest => body :: told_before_stop rest
  | (_, StopForwarding) :: _ => []
  | _ :: rest => told_before_stop rest
  end.

End proxy.

Arguments ClusterSingletonProxy : clear implicits.
Arguments ProxyEvent : clear implicits.

Definition run_proxy {Body} (bufferSize : Z) (selfAddress : NodeAddress) (c : ClusterSingletonProxy Body)
    (events : list (View * bool * ProxyEvent Body)) : ClusterSingletonProxy Body :=
  foldl (λ c e, proxy_step bufferSize selfAddress e.1.1 e.1.2 e.2 c) c events.

Lemma silent_after_stop {Body} (bufferSize : Z) (selfAddress : NodeAddress) (events : list (View * bool * ProxyEvent Body)) c :
  forwarding c = false → let c' := run_proxy bufferSize selfAddress c events in
  away c' ++ buffer c' ≡ₚ away c ++ buffer c ∧
  (Z.of_nat (length (buffer c)) ≤ Z.max 0 bufferSize → Z.of_nat (length (buffer c')) ≤ Z.max 0 bufferSize).
Proof.
  cbv zeta. revert c. induction events as [|[[v m] e] events IH]; intros c Hf; [done|]. cbn [run_proxy foldl].
  destruct (step_accounts bufferSize selfAddress v m e c) as (Hp & Hb & Hf').
  assert (Ho : offered c e = []) by (unfold offered; rewrite Hf; by destruct e). rewrite Ho, app_nil_r in Hp.
  assert (Hf2 : forwarding (proxy_step bufferSize selfAddress v m e c) = false) by (rewrite Hf'; by destruct e).
  destruct (IH _ Hf2) as [Hp2 Hb2]. split; [by rewrite <- Hp|]. intros H. by apply Hb2, Hb.
Qed.

(** Everything told to the proxy before it stops forwarding is sent to the
    host, told to the manager of this node, dead-lettered or buffered, once;
    and the buffer stays within its size. *)
Theorem proxy_messages_accounted {Body} (bufferSize : Z) (selfAddress : NodeAddress) (role : option string)
    (origin : SingletonRoleOrigin) (events : list (View * bool * ProxyEvent Body)) :
  let c := run_proxy bufferSize selfAddress (construct_proxy role origin) events in
  away c ++ buffer c ≡ₚ told_before_stop events ∧
  Z.of_nat (length (buffer c)) ≤ Z.max 0 bufferSize.
Proof.
  cbv zeta. set (c0 := construct_proxy role origin).
  change (told_before_stop events) with ((away c0 ++ buffer c0) ++ told_before_stop events).
  assert (Hf : forwarding c0 = true) by done. assert (Hb : Z.of_nat (length (buffer c0)) ≤ Z.max 0 bufferSize) by (cbn; lia).
  clearbody c0. revert c0 Hf Hb. induction events as [|[[v m] e] events IH]; intros c Hf Hb; [by rewrite app_nil_r|].
  destruct (step_accounts bufferSize selfAddress v m e c) as (Hp & Hl & Hf'). specialize (Hl Hb).
  assert (Hgo : forwarding (proxy_step bufferSize selfAddress v m e c) = true →
    away (run_proxy bufferSize selfAddress c ((v, m, e) :: events)) ++ buffer (run_proxy bufferSize selfAddress c ((v, m, e) :: events)) ≡ₚ
      (away c ++ buffer c ++ offered c e) ++ told_before_stop events ∧
    Z.of_nat (length (buffer (run_proxy bufferSize selfAddress c ((v, m, e) :: events)))) ≤ Z.max 0 bufferSize).
  { intros Hg. destruct (IH _ Hg Hl) as [Hp2 Hb2]. split; [|done]. etrans; [exact Hp2|]. by rewrite Hp. }
  destruct e as [body| | |r o|]; cbn [told_before_stop].
  - destruct Hgo as [Hp2 Hb2]; [by rewrite Hf'|]. split; [|done]. rewrite Hp2. cbn [offered]. rewrite Hf. solve_Permutation.
  - destruct Hgo as [Hp2 Hb2]; [by rewrite Hf'|]. split; [|done]. rewrite Hp2. cbn [offered]. by rewrite app_nil_r.
  - destruct Hgo as [Hp2 Hb2]; [by rewrite Hf'|]. split; [|done]. rewrite Hp2. cbn [offered]. by rewrite app_nil_r.
  - destruct Hgo as [Hp2 Hb2]; [by rewrite Hf'|]. split; [|done]. rewrite Hp2. cbn [offered]. by rewrite app_nil_r.
  - destruct (silent_after_stop bufferSize selfAddress events (stopForwarding c) eq_refl) as [Hp2 Hb2].
    rewrite app_nil_r. split; [exact Hp2|by apply Hb2].
Qed.

(** ** A role learnt late *)

Definition here : NodeAddress := mkAddress "sys" "a" 1 None.
Definition there : NodeAddress := mkAddress "sys" "b" 1 None.

(** No leader yet, and [there] carries the role. *)
Definition leaderless : View := mkView None [] (λ r, if bool_decide (r = "worker"%string) then [there] else []) [].

(** A proxy that learns its role finds a host without any cluster event: the
    messages it buffered stay behind, and what is told next overtakes them. *)
Theorem late_role_strands_the_buffer :
  let c := run_proxy 10 here (construct_proxy None explicit)
    [(leaderless, false, QueuedDrain); (leaderless, false, Tell 1%nat); (leaderless, false, AdoptRole (Some "worker") explicit);
     (leaderless, false, Tell 2%nat)] in
  sent c = [SendEnvelope there 2%nat] ∧ buffer c = [1%nat].
Proof. vm_compute. done. Qed.

(** A proxy that stops forwarding keeps what it buffered: it is neither sent
    nor dead-lettered, whatever the cluster does next. *)
Theorem stopped_proxy_keeps_its_buffer :
  let c := run_proxy 10 here (construct_proxy (Some "other") explicit)
    [(leaderless, false, QueuedDrain); (leaderless, false, Tell 1%nat); (leaderless, false, StopForwarding);
     (mkView (Some there) [there] (λ _, [there]) [there], false, HostMayHaveChanged)] in
  sent c = [] ∧ buffer c = [1%nat].
Proof. vm_compute. done. Qed.
