(* ===== verification/Journal.v ===== *)
(** * Journals and snapshot stores: [src/persistence/]

    What is stored ([JournalTypes.ts], [migration/Envelope.ts]), the rules for
    ids and tags ([storage/PersistenceIdValidator.ts],
    [storage/TagValidator.ts]), and the two in-memory back ends
    ([journals/InMemoryJournal.ts], [snapshot-stores/InMemorySnapshotStore.ts])
    behind the interfaces that a persistent actor is verified against
    ([JournalLaws], [SnapshotLaws]; [Journal.ts], [SnapshotStore.ts]).

    A payload goes through [encodePayload] and [decodePayload] on its way into
    a store; the two together are the argument [stored], [None] where one of
    them throws.  The clock is an argument.  Subscribers of the event bus are
    outside: what they are told is the log [published]. *)

From Stdlib Require Import Ascii String.
From S2P Require Import Prelude BidirectionalMap.

Local Open Scope Z_scope.

(** ** Names of streams and tags *)

Definition MAX_PERSISTENCE_ID_LENGTH : nat := 255.
Definition MAX_TAG_LENGTH : nat := 255.
Definition MAX_TAGS_PER_EVENT : nat := 64.

Definition hasControlCharacter (s : string) : bool :=
  existsb (λ c, (nat_of_ascii c <=? 31)%nat || (nat_of_ascii c =? 127)%nat) (list_ascii_of_string s).

Definition includes (s : string) (c : ascii) : bool := existsb (Ascii.eqb c) (list_ascii_of_string s).

Inductive Rejection := EmptyId | IdTooLong | PathSeparator | PathTraversal | ControlCharacter.

Definition persistenceIdRejection (persistenceId : string) : option Rejection :=
  if (String.length persistenceId =? 0)%nat then Some EmptyId
  else if (MAX_PERSISTENCE_ID_LENGTH <? String.length persistenceId)%nat then Some IdTooLong
  else if includes persistenceId "/" || includes persistenceId "\" then Some PathSeparator
  else if bool_decide (persistenceId ∈ ["."; ".."]%string) then Some PathTraversal
  else if hasControlCharacter persistenceId then Some ControlCharacter
  else None.

Inductive TagRejection := TooManyTags | EmptyTag | TagTooLong | CommaInTag | ControlInTag | RepeatedTag.

(** The loop of [assertValidTags] over the tags left, with those [seen]. *)
Fixpoint checkTags (seen tags : list string) : result TagRejection unit :=
  match tags with
  | [] => Ok ()
  | tag :: rest =>
    throw_if (String.length tag =? 0)%nat EmptyTag;;
    throw_if (MAX_TAG_LENGTH <? String.length tag)%nat TagTooLong;;
    throw_if (includes tag ",") CommaInTag;;
    throw_if (hasControlCharacter tag) ControlInTag;;
    throw_if (bool_decide (tag ∈ seen)) RepeatedTag;;
    checkTags (tag :: seen) rest
  end.

Definition assertValidTags (tags : option (list string)) : result TagRejection unit :=
  match tags with
  | None => Ok ()
  | Some tags => throw_if (MAX_TAGS_PER_EVENT <? length tags)%nat TooManyTags;; checkTags [] tags
  end.

(** ** What is stored *)

Record PersistentEvent (P : Type) := mkEvent {
  event_id : string;
  sequenceNr : number;
  event : P;
  event_timestamp : Z;
  event_tags : option (list string);
}.
Arguments mkEvent {P}. Arguments event_id {P}. Arguments sequenceNr {P}. Arguments event {P}.
Arguments event_timestamp {P}. Arguments event_tags {P}.

Record JournalEntry (P : Type) := mkEntry { entry_event : P; entry_tags : option (list string) }.
Arguments mkEntry {P}. Arguments entry_event {P}. Arguments entry_tags {P}.

Record Snapshot (P : Type) := mkSnapshot {
  snapshot_id : string;
  snapshot_seq : number;
  snapshot_state : P;
  snapshot_timestamp : Z;
}.
Arguments mkSnapshot {P}. Arguments snapshot_id {P}. Arguments snapshot_seq {P}.
Arguments snapshot_state {P}. Arguments snapshot_timestamp {P}.

Inductive JournalFault :=
| InvalidPersistenceId (reason : Rejection)
| InvalidTags (reason : TagRejection)
| Unencodable
| JournalConcurrencyError (expectedSeq actualSeq : Z).

Definition assertValidPersistenceId (persistenceId : string) : result JournalFault unit :=
  match persistenceIdRejection persistenceId with None => Ok () | Some reason => Err (InvalidPersistenceId reason) end.

Fixpoint assertValidEntryTags {P} (entries : list (JournalEntry P)) : result JournalFault unit :=
  match entries with
  | [] => Ok ()
  | entry :: rest =>
    match assertValidTags (entry_tags entry) with
    | Ok _ => assertValidEntryTags rest
    | Err reason => Err (InvalidTags reason)
    end
  end.

(** [entries.map((entry) => decodePayload(encodePayload(entry.event)))] *)
Definition roundTripAll {P} (stored : P → option P) (entries : list (JournalEntry P)) : result JournalFault (list P) :=
  match mapM (λ e, stored (entry_event e)) entries with Some payloads => Ok payloads | None => Err Unencodable end.

(** ** The in-memory journal *)

Record InMemoryJournal (P : Type) := mkJournal {
  streams : list (string * list (PersistentEvent P));
  highWater : gmap string Z;
  published : list (PersistentEvent P);
}.
Arguments mkJournal {P}. Arguments streams {P}. Arguments highWater {P}. Arguments published {P}.

Section journal.
Context {P : Type} (stored : P → option P).

Implicit Types (j : InMemoryJournal P) (persistenceId : string) (entries : list (JournalEntry P)).

Definition emptyJournal : InMemoryJournal P := mkJournal [] ∅ [].

Definition highestSeq j persistenceId : Z := default 0 (highWater j !! persistenceId).

Fixpoint number_from persistenceId (now seq : Z) entries : list (PersistentEvent P) :=
  match entries with
  | [] => []
  | entry :: rest =>
    mkEvent persistenceId (Num (seq + 1)) (entry_event entry) now (entry_tags entry) :: number_from persistenceId now (seq + 1) rest
  end.

Definition append (now : Z) j persistenceId entries (expectedSeq : Z) :
    result JournalFault (InMemoryJournal P * list (PersistentEvent P)) :=
  assertValidPersistenceId persistenceId;;
  assertValidEntryTags entries;;
  if decide (entries = []) then Ok (j, []) else
  let stream := default [] (map_get (streams j) persistenceId) in
  let actualSeq := default 0 (highWater j !! persistenceId) in
  throw_if (negb (actualSeq =? expectedSeq)) (JournalConcurrencyError expectedSeq actualSeq);;
  roundTripped ← roundTripAll stored entries;
  let appended := number_from persistenceId now actualSeq entries in
  let kept := number_from persistenceId now actualSeq (zip_with mkEntry roundTripped (entry_tags <$> entries)) in
  let seq := actualSeq + Z.of_nat (length entries) in
  Ok (mkJournal (map_set (streams j) persistenceId (stream ++ kept)) (<[persistenceId := seq]> (highWater j))
        (published j ++ appended), appended).

Definition read j persistenceId (fromSeq : Z) (toSeq : option Z) : list (PersistentEvent P) :=
  match map_get (streams j) persistenceId with
  | None => []
  | Some stream =>
    let to := default (default 0 (highWater j !! persistenceId)) toSeq in
    List.filter (λ e, number_le (Num fromSeq) (sequenceNr e) && number_le (sequenceNr e) (Num to)) stream
  end.

Definition deleteEvents j persistenceId (toSeq : Z) : InMemoryJournal P :=
  match map_get (streams j) persistenceId with
  | None => j
  | Some stream =>
    mkJournal (map_set (streams j) persistenceId (List.filter (λ e, number_lt (Num toSeq) (sequenceNr e)) stream))
      (highWater j) (published j)
  end.

Definition raiseCompactionMark j persistenceId (throughSeq : Z) : InMemoryJournal P :=
  let current := default 0 (highWater j !! persistenceId) in
  let marks := if current <? throughSeq then <[persistenceId := throughSeq]> (highWater j) else highWater j in
  mkJournal (if map_has (streams j) persistenceId then streams j else map_set (streams j) persistenceId []) marks (published j).

Definition persistenceIds j : list string := (streams j).*1.

Definition closeJournal j : InMemoryJournal P := mkJournal [] ∅ (published j).

Definition _remapForMigration j persistenceId (transform : P → P) : InMemoryJournal P :=
  match map_get (streams j) persistenceId with
  | None => j
  | Some stream =>
    mkJournal (map_set (streams j) persistenceId
      ((λ pe, mkEvent (event_id pe) (sequenceNr pe) (transform (event pe)) (event_timestamp pe) (event_tags pe)) <$> stream))
      (highWater j) (published j)
  end.

End journal.

(** [sort()] of an array of strings, and [persistenceIdPage]. *)
Definition text_le (a b : string) : Prop := String.leb a b = true.
#[export] Instance text_le_dec : RelDecision text_le := λ a b, decide (String.leb a b = true).

Definition persistenceIdPage (all : list string) (afterPersistenceId : option string) (limit : nat) : list string :=
  let sorted := merge_sort text_le (remove_dups all) in
  match afterPersistenceId with
  | None => take limit sorted
  | Some after =>
    match list_find (λ persistenceId, String.ltb after persistenceId = true) sorted with
    | None => []
    | Some (start, _) => take limit (drop start sorted)
    end
  end.

Definition persistenceIdsPaginated {P} (j : InMemoryJournal P) (afterPersistenceId : option string) (limit : nat) : list string :=
  persistenceIdPage (persistenceIds j) afterPersistenceId limit.

(** ** The in-memory snapshot store *)

Record InMemorySnapshotStore (Q : Type) := mkStore { store : gmap string (list (Snapshot Q)); keepN : Z }.
Arguments mkStore {Q}. Arguments store {Q}. Arguments keepN {Q}.

Section snapshots.
Context {Q : Type} (stored : Q → option Q).

Implicit Types (t : InMemorySnapshotStore Q) (persistenceId : string).

Definition constructStore (keepN : option Z) : InMemorySnapshotStore Q := mkStore ∅ (default 0 keepN).

(** [a.sequenceNr - b.sequenceNr] is not positive. *)
Definition row_le (a b : Snapshot Q) : Prop := number_lt (snapshot_seq b) (snapshot_seq a) = false.
#[export] Instance row_le_dec : RelDecision row_le := λ a b, decide (number_lt (snapshot_seq b) (snapshot_seq a) = false).

Definition save (now : Z) t persistenceId (seq : Z) (state : Q) : option (InMemorySnapshotStore Q * Snapshot Q) :=
  wire ← stored state;
  let list := default [] (store t !! persistenceId) in
  let snap := mkSnapshot persistenceId (Num seq) state now in
  let row := mkSnapshot persistenceId (Num seq) wire now in
  let list := match list_find (λ s, snapshot_seq s = Num seq) list with
    | Some (sameSeq, _) => <[sameSeq := row]> list
    | None => merge_sort row_le (list ++ [row])
    end in
  let list := if (0 <? keepN t) && (keepN t <? Z.of_nat (length list))
    then drop (length list - Z.to_nat (keepN t)) list else list in
  Some (mkStore (<[persistenceId := list]> (store t)) (keepN t), snap).

Definition loadLatest t persistenceId : option (Snapshot Q) := last (default [] (store t !! persistenceId)).

Definition loadBefore t persistenceId (seq : Z) : option (Snapshot Q) :=
  last (List.filter (λ s, number_lt (snapshot_seq s) (Num seq)) (default [] (store t !! persistenceId))).

Definition deleteSnapshots t persistenceId (toSeq : Z) : InMemorySnapshotStore Q :=
  match store t !! persistenceId with
  | None => t
  | Some list => mkStore (<[persistenceId := List.filter (λ s, number_lt (Num toSeq) (snapshot_seq s)) list]> (store t)) (keepN t)
  end.

Definition closeStore t : InMemorySnapshotStore Q := mkStore ∅ (keepN t).

End snapshots.

(** ** Adapters: events and states in versioned envelopes

    [U] is what a store holds; [raw] and [cast] are the unchecked casts between
    it and the domain type, [wrap] and [isEnvelope] the object with the three
    marked fields and the check for them. *)

Record StoredFrame (U : Type) := mkFrame { manifest : string; version : number; payload : U }.
Arguments mkFrame {U}. Arguments manifest {U}. Arguments version {U}. Arguments payload {U}.

Record JournalEnvelope (U : Type) := mkEnvelope { _v : number; _t : string; _e : U }.
Arguments mkEnvelope {U}. Arguments _v {U}. Arguments _t {U}. Arguments _e {U}.

Record Adapter (E U : Type) := mkAdapter { toJournal : E → StoredFrame U; fromJournal : StoredFrame U → option E }.
Arguments mkAdapter {E U}. Arguments toJournal {E U}. Arguments fromJournal {E U}.

Section envelope.
Context {E U : Type} (wrap : JournalEnvelope U → U) (isEnvelope : U → option (JournalEnvelope U)).
Context (raw : E → U) (cast : U → E).

Definition toFrame (env : JournalEnvelope U) : StoredFrame U := mkFrame (_t env) (_v env) (_e env).

Definition encodeEvent (e : E) (adapter : Adapter E U) : JournalEnvelope U :=
  let frame := toJournal adapter e in mkEnvelope (version frame) (manifest frame) (payload frame).

(** [adapter ? encodeEvent(e, adapter) : e], as the actors write it. *)
Definition encodeWith (adapter : option (Adapter E U)) (e : E) : U :=
  match adapter with Some a => wrap (encodeEvent e a) | None => raw e end.

(** [decodeEvent], and [decodeState], which is the same function; [None] is a
    throw, of [MigrationError] or by the adapter. *)
Definition decodeEvent (adapter : option (Adapter E U)) (u : U) : option E :=
  match adapter with
  | None => Some (cast u)
  | Some a => env ← isEnvelope u; fromJournal a (toFrame env)
  end.

End envelope.

(** ** What a persistent actor relies on *)

(** Payloads with the sequence numbers that follow [n]. *)
Fixpoint numbered {P} (n : nat) (payloads : list P) : list (number * P) :=
  match payloads with [] => [] | p :: rest => (Num (Z.of_nat n + 1), p) :: numbered (S n) rest end.

Definition stamped {P} (e : PersistentEvent P) : number * P := (sequenceNr e, event e).

Class Journal (J P : Type) := {
  journal_append : Z → J → string → list (JournalEntry P) → Z → result JournalFault (J * list (PersistentEvent P));
  journal_read : J → string → Z → option Z → list (PersistentEvent P);
  journal_highestSeq : J → string → Z;
  journal_delete : J → string → Z → J;
}.

(** [keeps j id compacted log]: every payload written under [id], oldest first,
    is [log], and the first [compacted] of them have been deleted.  An append
    succeeds at the head only, and a deletion takes a prefix. *)
Class JournalLaws (J P : Type) `{Journal J P} (stored : P → option P) := {
  keeps : J → string → nat → list P → Prop;
  keeps_highest j id compacted log : keeps j id compacted log → journal_highestSeq j id = Z.of_nat (length log);
  keeps_read j id compacted log (n : nat) (toSeq : option nat) : keeps j id compacted log →
    stamped <$> journal_read j id (Z.of_nat n + 1) (Z.of_nat <$> toSeq) =
      numbered (n `max` compacted) (drop (n `max` compacted) (take (default (length log) toSeq) log));
  keeps_append now j id compacted log entries expectedSeq j' written : keeps j id compacted log → entries ≠ [] →
    journal_append now j id entries expectedSeq = Ok (j', written) →
    expectedSeq = Z.of_nat (length log) ∧
    ∃ payloads, mapM (λ e, stored (entry_event e)) entries = Some payloads ∧ keeps j' id compacted (log ++ payloads) ∧
      stamped <$> written = numbered (length log) (entry_event <$> entries);
  keeps_refused now j id compacted log entries expectedSeq expected actual : keeps j id compacted log →
    journal_append now j id entries expectedSeq = Err (JournalConcurrencyError expected actual) →
    expected = expectedSeq ∧ actual = Z.of_nat (length log) ∧ expected ≠ actual;
  keeps_delete j id compacted log (toSeq : Z) : keeps j id compacted log →
    keeps (journal_delete j id toSeq) id (compacted `max` (Z.to_nat toSeq `min` length log)) log;
}.

Class SnapshotStore (T Q : Type) := {
  snapshot_save : Z → T → string → Z → Q → option (T * Snapshot Q);
  snapshot_loadLatest : T → string → option (Snapshot Q);
  snapshot_loadBefore : T → string → Z → option (Snapshot Q);
  snapshot_delete : T → string → Z → T;
}.

(** [rows t id]: the snapshots of [id].  Pruning may drop rows, never the
    newest one. *)
Class SnapshotLaws (T Q : Type) `{SnapshotStore T Q} (stored : Q → option Q) := {
  rows : T → string → list (Snapshot Q);
  orderly : T → string → Prop;
  save_orderly now t id seq state t' row : orderly t id → snapshot_save now t id seq state = Some (t', row) → orderly t' id;
  delete_orderly t id toSeq : orderly t id → orderly (snapshot_delete t id toSeq) id;
  save_rows now t id seq state t' row : orderly t id → snapshot_save now t id seq state = Some (t', row) →
    ∃ wire, stored state = Some wire ∧
    ∀ r, r ∈ rows t' id → (r ∈ rows t id ∧ snapshot_seq r ≠ Num seq) ∨ (snapshot_seq r = Num seq ∧ snapshot_state r = wire);
  delete_rows t id toSeq r : orderly t id → r ∈ rows (snapshot_delete t id toSeq) id →
    r ∈ rows t id ∧ number_lt (Num toSeq) (snapshot_seq r) = true;
  loadLatest_newest t id : orderly t id →
    match snapshot_loadLatest t id with
    | None => rows t id = []
    | Some r => r ∈ rows t id ∧ ∀ r', r' ∈ rows t id → number_le (snapshot_seq r') (snapshot_seq r) = true
    end;
  loadBefore_newest t id seq : orderly t id →
    match snapshot_loadBefore t id seq with
    | None => ∀ r, r ∈ rows t id → number_lt (snapshot_seq r) (Num seq) = false
    | Some r => r ∈ rows t id ∧ number_lt (snapshot_seq r) (Num seq) = true ∧
        ∀ r', r' ∈ rows t id → number_lt (snapshot_seq r') (Num seq) = true → number_le (snapshot_seq r') (snapshot_seq r) = true
    end;
}.

#[export] Instance InMemoryJournal_journal {P} (stored : P → option P) : Journal (InMemoryJournal P) P := {
  journal_append := append stored;
  journal_read := read;
  journal_highestSeq := highestSeq;
  journal_delete := deleteEvents;
}.

#[export] Instance InMemorySnapshotStore_store {Q} (stored : Q → option Q) : SnapshotStore (InMemorySnapshotStore Q) Q := {
  snapshot_save := save stored;
  snapshot_loadLatest := loadLatest;
  snapshot_loadBefore := loadBefore;
  snapshot_delete := deleteSnapshots;
}.
