(* ===== verification/JournalTheorems.v ===== *)
(** * The in-memory back ends keep the contract

    The journal and the snapshot store of [Journal.v] are instances of the
    interfaces a persistent actor relies on, and the pages of persistence ids
    are the sorted list of ids, cut. *)

From Stdlib Require Import Ascii String.
From S2P Require Import Prelude BidirectionalMap Journal.

Local Open Scope Z_scope.

Lemma number_le_Num a b : number_le (Num a) (Num b) = (a <=? b).
Proof.
  unfold number_le, number_lt, number_eqb. case_bool_decide as Heq.
  - injection Heq as ->. by rewrite orb_true_r, Z.leb_refl.
  - rewrite orb_false_r. destruct (Z.ltb_spec a b), (Z.leb_spec a b); try done; try lia. destruct Heq. f_equal. lia.
Qed.

(** ** Numbered payloads *)

Lemma numbered_app {P} n (k l : list P) : numbered n (k ++ l) = numbered n k ++ numbered (n + length k) l.
Proof.
  revert n. induction k as [|x k IH]; intros n; cbn; [by rewrite Nat.add_0_r|]. rewrite IH. by rewrite <- Nat.add_succ_comm.
Qed.

Lemma number_from_stamped {P} id now n (entries : list (JournalEntry P)) :
  stamped <$> number_from id now (Z.of_nat n) entries = numbered n (entry_event <$> entries).
Proof.
  revert n. induction entries as [|e entries IH]; intros n; [done|]. cbn. f_equal.
  replace (Z.of_nat n + 1) with (Z.of_nat (S n)) by lia. apply IH.
Qed.

(** The rows of a slice, seen through the filter of [read] or [delete]. *)
Lemma filter_stamped {P} (f : number → bool) (l : list (PersistentEvent P)) :
  stamped <$> List.filter (λ e, f (sequenceNr e)) l = List.filter (λ s, f s.1) (stamped <$> l).
Proof. induction l as [|e l IH]; [done|]. cbn. destruct (f (sequenceNr e)); cbn; by rewrite IH. Qed.

Lemma filter_numbered_above {P} (f : number → bool) (m n : nat) (l : list P) :
  (∀ k : nat, (n < k ≤ n + length l)%nat → f (Num (Z.of_nat k)) = bool_decide (m < k)%nat) → (n ≤ m)%nat →
  List.filter (λ s, f s.1) (numbered n l) = numbered m (drop (m - n) l).
Proof.
  revert m n. induction l as [|x l IH]; intros m n Hf Hn; [by rewrite drop_nil|].
  cbn [numbered List.filter fst]. replace (Z.of_nat n + 1) with (Z.of_nat (S n)) by lia.
  rewrite (Hf (S n)) by (cbn; lia). case_bool_decide as Hm.
  - replace (m - n)%nat with 0%nat by lia. assert (n = m) as -> by lia. cbn. f_equal; [f_equal; f_equal; lia|].
    assert (Hall : List.filter (λ s, f s.1) (numbered (S m) l) = numbered (S m) (drop (S m - S m) l)).
    { apply IH; [|lia]. intros k Hk. rewrite (Hf k) by (cbn; lia). rewrite !bool_decide_eq_true_2; [done|lia..]. }
    by rewrite Hall, Nat.sub_diag.
  - replace (m - n)%nat with (S (m - S n)) by lia. cbn. apply IH; [|lia]. intros k Hk. apply Hf. cbn. lia.
Qed.

Lemma filter_numbered_upto {P} (f : number → bool) (h n : nat) (l : list P) :
  (∀ k : nat, (n < k ≤ n + length l)%nat → f (Num (Z.of_nat k)) = bool_decide (k ≤ h)%nat) →
  List.filter (λ s, f s.1) (numbered n l) = numbered n (take (h - n) l).
Proof.
  revert n. induction l as [|x l IH]; intros n Hf; [by rewrite take_nil|].
  cbn [numbered List.filter fst]. replace (Z.of_nat n + 1) with (Z.of_nat (S n)) by lia.
  rewrite (Hf (S n)) by (cbn; lia). rewrite IH by (intros k Hk; apply Hf; cbn; lia). case_bool_decide.
  - replace (h - n)%nat with (S (h - S n)) by lia. cbn. f_equal. f_equal. f_equal. lia.
  - replace (h - n)%nat with 0%nat by lia. by replace (h - S n)%nat with 0%nat by lia.
Qed.

Lemma filter_stream_upto {P} (f : number → bool) (h n : nat) (stream : list (PersistentEvent P)) (l : list P) :
  stamped <$> stream = numbered n l → (∀ k : nat, (n < k ≤ n + length l)%nat → f (Num (Z.of_nat k)) = bool_decide (k ≤ h)%nat) →
  stamped <$> List.filter (λ e, f (sequenceNr e)) stream = numbered n (take (h - n) l).
Proof. intros Hs Hf. rewrite filter_stamped, Hs. by apply filter_numbered_upto. Qed.

Lemma filter_filter_andb {A} (f g : A → bool) (l : list A) : List.filter (λ x, f x && g x) l = List.filter f (List.filter g l).
Proof. induction l as [|x l IH]; [done|]. cbn. destruct (f x) eqn:Hf, (g x) eqn:Hg; cbn; rewrite ?Hf, ?IH; done. Qed.

Lemma filter_stream {P} (f : number → bool) (m n : nat) (stream : list (PersistentEvent P)) (l : list P) :
  stamped <$> stream = numbered n l → (n ≤ m)%nat →
  (∀ k : nat, (n < k ≤ n + length l)%nat → f (Num (Z.of_nat k)) = bool_decide (m < k)%nat) →
  stamped <$> List.filter (λ e, f (sequenceNr e)) stream = numbered m (drop (m - n) l).
Proof. intros Hs Hn Hf. rewrite filter_stamped, Hs. by apply filter_numbered_above. Qed.

(** ** The journal *)

Section journal.
Context {P : Type} (stored : P → option P).

#[local] Existing Instance InMemoryJournal_journal.

Implicit Types (j : InMemoryJournal P) (pid : string).

Definition stream_of j pid : list (PersistentEvent P) := default [] (map_get (streams j) pid).

Definition journal_keeps j pid (compacted : nat) (log : list P) : Prop :=
  (compacted ≤ length log)%nat ∧ highestSeq j pid = Z.of_nat (length log) ∧
  stamped <$> stream_of j pid = numbered compacted (drop compacted log).

Lemma read_stamped j pid n (toSeq : option nat) compacted log : journal_keeps j pid compacted log →
  stamped <$> read j pid (Z.of_nat n + 1) (Z.of_nat <$> toSeq) =
    numbered (n `max` compacted) (drop (n `max` compacted) (take (default (length log) toSeq) log)).
Proof.
  intros (Hc & Hh & Hs). unfold read, stream_of in *. destruct (map_get (streams j) pid) as [stream|]; cbn [from_option id] in *.
  - assert (default (default 0 (highWater j !! pid)) (Z.of_nat <$> toSeq) = Z.of_nat (default (length log) toSeq)) as ->.
    { by destruct toSeq. }
    set (h := default (length log) toSeq). rewrite filter_filter_andb.
    assert (Hup : stamped <$> List.filter (λ e, number_le (sequenceNr e) (Num (Z.of_nat h))) stream = numbered compacted (drop compacted (take h log))).
    { etrans; [apply (filter_stream_upto (λ q, number_le q (Num (Z.of_nat h))) h _ _ _ Hs)|by rewrite skipn_firstn_comm].
      intros k Hk. rewrite number_le_Num. case_bool_decide; [apply Z.leb_le|apply Z.leb_gt]; lia. }
    etrans; [apply (filter_stream (λ q, number_le (Num (Z.of_nat n + 1)) q) (n `max` compacted) _ _ _ Hup); [lia|]|].
    + intros k Hk. rewrite number_le_Num. case_bool_decide; [apply Z.leb_le|apply Z.leb_gt]; lia.
    + rewrite drop_drop. do 2 f_equal. lia.
  - cbn in Hs. destruct (drop compacted log) eqn:Hd; [|done]. rewrite drop_ge; [done|].
    apply (f_equal length) in Hd. rewrite length_drop in Hd. cbn in Hd. rewrite length_take. lia.
Qed.

Lemma roundTripAll_Ok entries payloads : roundTripAll stored entries = Ok payloads →
  mapM (λ e, stored (entry_event e)) entries = Some payloads.
Proof. unfold roundTripAll. destruct (mapM _ _); [by intros [= ->]|done]. Qed.

Lemma append_Ok now j pid entries expectedSeq j' written : entries ≠ [] → append stored now j pid entries expectedSeq = Ok (j', written) →
  expectedSeq = highestSeq j pid ∧
  ∃ payloads, roundTripAll stored entries = Ok payloads ∧
    stream_of j' pid = stream_of j pid ++ number_from pid now expectedSeq (zip_with mkEntry payloads (entry_tags <$> entries)) ∧
    highestSeq j' pid = expectedSeq + Z.of_nat (length entries) ∧
    written = number_from pid now expectedSeq entries ∧ published j' = published j ++ written.
Proof.
  intros Hne Ha. unfold append in Ha. unbind. rewrite decide_False in Ha by done. unbind.
  apply negb_false_iff, Z.eqb_eq in Hok1. subst. split; [done|].
  eexists. split; [exact Hok2|]. unfold stream_of, highestSeq. cbn. rewrite map_get_set, decide_True by done.
  by rewrite lookup_insert_eq.
Qed.

Lemma mapM_entries entries payloads : mapM (λ e : JournalEntry P, stored (entry_event e)) entries = Some payloads →
  length payloads = length entries ∧ entry_event <$> zip_with mkEntry payloads (entry_tags <$> entries) = payloads.
Proof.
  intros Hm. assert (length payloads = length entries) as Hl by (by apply mapM_Some in Hm; apply Forall2_length in Hm). split; [done|].
  clear Hm. revert payloads Hl. induction entries as [|e entries IH]; intros [|p payloads] [=]; cbn; [done|].
  f_equal. by apply IH.
Qed.

#[export] Program Instance InMemoryJournal_laws : @JournalLaws (InMemoryJournal P) P (InMemoryJournal_journal stored) stored := {
  keeps := journal_keeps;
}.
Next Obligation. by intros j pid compacted log (_ & Hh & _). Qed.
Next Obligation. intros. by apply read_stamped. Qed.
Next Obligation.
  intros now j pid compacted log entries expectedSeq j' written (Hc & Hh & Hs) Hne Ha.
  apply append_Ok in Ha as (He & payloads & Hr & Hst & Hh' & Hw & _); [|done]. rewrite Hh in He. subst expectedSeq.
  split; [done|]. exists payloads. apply roundTripAll_Ok in Hr. split; [done|].
  apply mapM_entries in Hr as [Hl Hz]. unfold journal_keeps. split_and!.
  - rewrite length_app. lia.
  - rewrite Hh', length_app, Hl. lia.
  - rewrite Hst, fmap_app, Hs, number_from_stamped, Hz, drop_app_le by done.
    rewrite numbered_app, length_drop. do 2 f_equal. lia.
  - by rewrite Hw, number_from_stamped.
Qed.
Next Obligation.
  intros now j pid compacted log entries expectedSeq expected actual (Hc & Hh & Hs) Ha. cbn in Ha. unfold append in Ha.
  unfold highestSeq in Hh. unfold assertValidPersistenceId in Ha. destruct (persistenceIdRejection pid); [done|]. cbn in Ha.
  assert (Htags : ∀ l : list (JournalEntry P), assertValidEntryTags l ≠ Err (JournalConcurrencyError expected actual)).
  { induction l as [|e l IH]; cbn; [done|]. by destruct (assertValidTags (entry_tags e)). }
  pose proof (Htags entries) as Ht. destruct (assertValidEntryTags entries) as [|fault]; cbn in Ha; [|congruence].
  destruct (decide (entries = [])); [done|]. rewrite Hh in Ha.
  destruct (Z.eqb_spec (Z.of_nat (length log)) expectedSeq) as [->|Hn]; cbn in Ha.
  - unfold roundTripAll in Ha. by destruct (mapM _ _).
  - by inversion Ha; subst.
Qed.
Next Obligation.
  intros j pid compacted log toSeq (Hc & Hh & Hs). cbn. unfold deleteEvents, journal_keeps, stream_of, highestSeq in *.
  destruct (map_get (streams j) pid) as [stream|] eqn:Hg; cbn [from_option id] in *.
  - cbn [streams highWater]. rewrite map_get_set, decide_True by done. cbn [from_option id]. split_and!; [lia|done|].
    etrans; [apply (filter_stream (λ q, number_lt (Num toSeq) q) (compacted `max` (Z.to_nat toSeq `min` length log)) _ _ _ Hs); [lia|]|].
    + intros k Hk. rewrite length_drop in Hk. cbn. case_bool_decide; [apply Z.ltb_lt|apply Z.ltb_ge]; lia.
    + rewrite drop_drop. do 2 f_equal. lia.
  - rewrite Hg. cbn. assert (compacted = length log) as ->.
    { cbn in Hs. destruct (drop compacted log) eqn:Hd; [|done]. apply (f_equal length) in Hd. rewrite length_drop in Hd. cbn in Hd. lia. }
    rewrite Nat.max_l by lia. by rewrite drop_all.
Qed.

End journal.

(** ** The snapshot store *)

Section snapshots.
Context {Q : Type} (stored : Q → option Q).

#[local] Existing Instance InMemorySnapshotStore_store.

Implicit Types (t : InMemorySnapshotStore Q) (r : Snapshot Q) (l : list (Snapshot Q)).

Definition rows_of t (pid : string) : list (Snapshot Q) := default [] (store t !! pid).

Definition key r : Z := match snapshot_seq r with Num z => z | _ => 0 end.
Definition key_le r r' : Prop := key r ≤ key r'.

(** Ascending, one row per sequence number. *)
Definition ascending l : Prop :=
  StronglySorted key_le l ∧ NoDup (snapshot_seq <$> l) ∧ ∀ r, r ∈ l → snapshot_seq r = Num (key r).

#[local] Instance row_le_total : Total (row_le (Q := Q)).
Proof.
  intros a b. unfold row_le. destruct (snapshot_seq a), (snapshot_seq b); cbn; auto.
  destruct (Z.ltb_spec z0 z); [right|by left]. apply Z.ltb_ge. lia.
Qed.
#[local] Instance key_le_trans : Transitive key_le.
Proof. intros a b c. unfold key_le. lia. Qed.

Lemma ascending_nil : ascending [].
Proof. split_and!; [constructor|constructor|]. intros r Hr. by apply elem_of_nil in Hr. Qed.

Lemma ascending_sublist l k : sublist l k → ascending k → ascending l.
Proof.
  intros Hs (H1 & H2 & H3). split_and!.
  - by eapply StronglySorted_sublist.
  - eapply sublist_NoDup; [exact H2|]. clear -Hs. induction Hs; cbn; by constructor.
  - intros r Hr. apply H3. by eapply elem_of_sublist.
Qed.

Lemma Sorted_keys l : (∀ r, r ∈ l → snapshot_seq r = Num (key r)) → Sorted row_le l → Sorted key_le l.
Proof.
  intros Hn. induction 1 as [|a l Hl IH Hh]; constructor.
  - apply IH. intros r Hr. apply Hn. by right.
  - destruct Hh as [|b l Hab]; constructor. unfold row_le in Hab. unfold key_le.
    rewrite (Hn a), (Hn b) in Hab by (repeat constructor). cbn in Hab. apply Z.ltb_ge in Hab. lia.
Qed.

Lemma ascending_sort l : NoDup (snapshot_seq <$> l) → (∀ r, r ∈ l → snapshot_seq r = Num (key r)) →
  ascending (merge_sort row_le l).
Proof.
  intros Hd Hn. assert (Hp : merge_sort row_le l ≡ₚ l) by apply merge_sort_Permutation. split_and!.
  - apply Sorted_StronglySorted; [apply _|]. apply Sorted_keys; [intros r; rewrite Hp; apply Hn|by apply (Sorted_merge_sort row_le)].
  - by rewrite Hp.
  - intros r. rewrite Hp. apply Hn.
Qed.

Lemma ascending_insert l i r r' : ascending l → l !! i = Some r → snapshot_seq r' = snapshot_seq r → ascending (<[i := r']> l).
Proof.
  intros (H1 & H2 & H3) Hi Hr. assert (Hk : key <$> <[i := r']> l = key <$> l).
  { rewrite list_fmap_insert. apply list_insert_id. rewrite list_lookup_fmap, Hi. cbn. unfold key. by rewrite Hr. }
  split_and!.
  - assert (Hg : ∀ k, StronglySorted key_le k ↔ StronglySorted Z.le (key <$> k)).
    { induction k as [|a k IH]; cbn; split; intros Hs; try constructor; inversion Hs; subst; try (by apply IH);
        rewrite ?Forall_fmap in *; done. }
    apply Hg. rewrite Hk. by apply Hg.
  - rewrite list_fmap_insert, list_insert_id; [done|]. by rewrite list_lookup_fmap, Hi, Hr.
  - intros q [n Hq]%list_elem_of_lookup. destruct (decide (n = i)) as [->|Hn].
    2: { rewrite list_lookup_insert_ne in Hq by done. apply H3. by eapply list_elem_of_lookup_2. }
    rewrite list_lookup_insert_eq in Hq by (by eapply lookup_lt_Some). injection Hq as <-.
    assert (snapshot_seq r = Num (key r)) as Hs by (apply H3; by eapply list_elem_of_lookup_2).
    rewrite Hr, Hs. unfold key. by rewrite Hr, Hs.
Qed.

Lemma save_list pid seq (row : Snapshot Q) l : ascending l → snapshot_seq row = Num seq → snapshot_id row = pid →
  let l' := match list_find (λ s, snapshot_seq s = Num seq) l with
    | Some (i, _) => <[i := row]> l
    | None => merge_sort row_le (l ++ [row])
    end in
  ascending l' ∧ ∀ r, r ∈ l' → (r ∈ l ∧ snapshot_seq r ≠ Num seq) ∨ r = row.
Proof.
  intros Hl Hrow _. cbv zeta. destruct (list_find _ l) as [[i q]|] eqn:Hf.
  - apply list_find_Some in Hf as (Hi & Hq & _). split; [by eapply ascending_insert; [..|rewrite Hq]|].
    intros r [n Hr]%list_elem_of_lookup. destruct (decide (n = i)) as [->|Hn].
    + rewrite list_lookup_insert_eq in Hr by (by eapply lookup_lt_Some). injection Hr as <-. by right.
    + rewrite list_lookup_insert_ne in Hr by done. left. split; [by eapply list_elem_of_lookup_2|]. intros Hs.
      destruct Hl as (_ & Hd & _). apply Hn. eapply NoDup_lookup; [exact Hd|..]; rewrite list_lookup_fmap.
      * by rewrite Hr; cbn; rewrite Hs.
      * by rewrite Hi; cbn; rewrite Hq.
  - apply list_find_None in Hf. rewrite Forall_forall in Hf. destruct Hl as (H1 & H2 & H3). split.
    + apply ascending_sort.
      * rewrite fmap_app. apply NoDup_app. split_and!; [done| |apply NoDup_singleton].
        intros x (r & -> & Hr)%list_elem_of_fmap. cbn. rewrite list_elem_of_singleton, Hrow. by apply Hf.
      * intros r [Hr|Hr]%elem_of_app; [by apply H3|]. apply list_elem_of_singleton in Hr as ->. unfold key. by rewrite Hrow.
    + intros r. rewrite (merge_sort_Permutation row_le), elem_of_app, list_elem_of_singleton.
      intros [Hr|Hr]; [left|by right]. split; [done|by apply Hf].
Qed.

Lemma ascending_last l r : ascending l → last l = Some r → r ∈ l ∧ ∀ r', r' ∈ l → number_le (snapshot_seq r') (snapshot_seq r) = true.
Proof.
  intros (H1 & _ & H3) Hl. apply last_Some in Hl as [k ->]. assert (r ∈ k ++ [r]) as Hr by (apply elem_of_app; right; by left).
  split; [done|]. intros r' Hr'. rewrite (H3 r), (H3 r'), number_le_Num by done. apply Z.leb_le.
  apply elem_of_app in Hr' as [Hr'|Hr']; [|apply list_elem_of_singleton in Hr' as ->; lia].
  apply StronglySorted_app in H1 as (Hx & _ & _). apply (Hx r' r); [done|by left].
Qed.

Lemma sublist_List_filter (f : Snapshot Q → bool) l : sublist (List.filter f l) l.
Proof. induction l as [|x l IH]; cbn; [done|]. destruct (f x); by constructor. Qed.

#[export] Program Instance InMemorySnapshotStore_laws : @SnapshotLaws (InMemorySnapshotStore Q) Q (InMemorySnapshotStore_store stored) stored := {
  rows := rows_of;
  orderly := λ t pid, ascending (rows_of t pid);
}.
Next Obligation.
  intros now t pid seq state t' row Ho Hs. cbn in Hs. unfold save in Hs.
  destruct (stored state) as [wire|]; [|done]. cbn in Hs. injection Hs as <- _. unfold rows_of. cbn. rewrite lookup_insert_eq. cbn [from_option id].
  eapply ascending_sublist; [|eapply (save_list pid seq (mkSnapshot pid (Num seq) wire now) _ Ho); done].
  destruct (_ && _); [apply sublist_drop|done].
Qed.
Next Obligation.
  intros t pid toSeq Ho. cbn. unfold deleteSnapshots, rows_of in *. destruct (store t !! pid) as [l|] eqn:Hl.
  - cbn. rewrite lookup_insert_eq. eapply ascending_sublist; [apply sublist_List_filter|done].
  - by rewrite Hl.
Qed.
Next Obligation.
  intros now t pid seq state t' row Ho Hs. cbn in Hs. unfold save in Hs.
  destruct (stored state) as [wire|]; [|done]. cbn in Hs. injection Hs as <- _. exists wire. split; [done|].
  unfold rows_of. cbn. rewrite lookup_insert_eq. cbn [from_option id]. intros r Hr.
  destruct (save_list pid seq (mkSnapshot pid (Num seq) wire now) _ Ho) as [_ Hin]; [done..|].
  destruct (Hin r) as [?| ->]; [|by left|by right]. revert Hr. destruct (_ && _); [|done].
  intros Hr. eapply elem_of_sublist; [exact Hr|apply sublist_drop].
Qed.
Next Obligation.
  intros t pid toSeq r Ho Hr. cbn in Hr. unfold deleteSnapshots, rows_of in *. destruct (store t !! pid) as [l|] eqn:Hl.
  - cbn in Hr. rewrite lookup_insert_eq in Hr. cbn in Hr |- *. apply list_elem_of_In, filter_In in Hr as [Hr Hf].
    by apply list_elem_of_In in Hr.
  - rewrite Hl in Hr. by apply elem_of_nil in Hr.
Qed.
Next Obligation.
  intros t pid Ho. cbn. unfold loadLatest. fold (rows_of t pid). destruct (last (rows_of t pid)) as [r|] eqn:Hl.
  - by apply ascending_last.
  - by apply last_None.
Qed.
Next Obligation.
  intros t pid seq Ho. cbn. unfold loadBefore. fold (rows_of t pid).
  set (f := λ s, number_lt (snapshot_seq s) (Num seq)).
  assert (Hin : ∀ r, r ∈ List.filter f (rows_of t pid) ↔ r ∈ rows_of t pid ∧ f r = true).
  { intros r. by rewrite !list_elem_of_In, filter_In. }
  destruct (last (List.filter f (rows_of t pid))) as [r|] eqn:Hl.
  - apply ascending_last in Hl as [Hr Hm]; [|eapply ascending_sublist; [apply sublist_List_filter|done]].
    apply Hin in Hr as [Hr Hf]. split_and!; [done..|]. intros r' Hr' Hf'. apply Hm. by apply Hin.
  - apply last_None in Hl. intros r Hr. apply not_true_iff_false. intros Hf.
    assert (r ∈ List.filter f (rows_of t pid)) as Hx by (by apply Hin). rewrite Hl in Hx. by apply elem_of_nil in Hx.
Qed.

End snapshots.

(** ** Pages of persistence ids *)

Section pages.
Implicit Types (s all : list string) (limit : nat).

#[local] Instance text_le_trans : Transitive text_le.
Proof.
  intros a b c Hab Hbc. unfold text_le in *. assert (String.le a c) as Hac; [|unfold String.le in Hac; by destruct (String.leb a c)].
  transitivity b; unfold String.le; [by rewrite Hab|by rewrite Hbc].
Qed.
#[local] Instance text_le_total : Total text_le.
Proof. intros a b. apply String.leb_total. Qed.

Lemma ltb_leb a b : String.ltb a b = negb (String.leb b a).
Proof. unfold String.ltb, String.leb. rewrite String.compare_antisym. by destruct (String.compare b a). Qed.

(** The ids in the order of the pages. *)
Definition in_order all : list string := merge_sort text_le (remove_dups all).

Lemma in_order_ascending all : StronglySorted text_le (in_order all) ∧ NoDup (in_order all).
Proof.
  split; [apply Sorted_StronglySorted; [apply _|]; apply (Sorted_merge_sort text_le)|].
  unfold in_order. rewrite (merge_sort_Permutation text_le). apply NoDup_remove_dups.
Qed.

(** The cursor is the last id of the page before. *)
Lemma page_after all s1 (a : string) s2 limit : in_order all = s1 ++ a :: s2 →
  persistenceIdPage all (Some a) limit = take limit s2.
Proof.
  intros Hs. destruct (in_order_ascending all) as [Ho Hd]. rewrite Hs in Ho, Hd. unfold persistenceIdPage. fold (in_order all). rewrite Hs.
  assert (Hle : ∀ x, x ∈ s1 ++ [a] → ¬ String.ltb a x = true).
  { intros x Hx. rewrite ltb_leb. intros Hn%negb_true_iff. assert (text_le x a) as Hxa; [|unfold text_le in Hxa; congruence].
    apply elem_of_app in Hx as [Hx|Hx]; [|apply list_elem_of_singleton in Hx as ->; unfold text_le; by destruct (String.leb_total a a)].
    apply StronglySorted_app in Ho as (Hx1 & _ & _). apply Hx1; [done|by left]. }
  assert (Hgt : ∀ x, x ∈ s2 → String.ltb a x = true).
  { intros x Hx. rewrite ltb_leb. apply negb_true_iff, not_true_iff_false. intros Hxa.
    apply StronglySorted_app in Ho as (_ & _ & Ho). inversion Ho as [|? ? _ Hall]; subst. rewrite Forall_forall in Hall.
    assert (x = a) as -> by (apply String.leb_antisym; [done|by apply Hall]).
    apply NoDup_app in Hd as (_ & _ & Hd). by apply NoDup_cons in Hd as [Hd _]. }
  replace (s1 ++ a :: s2) with ((s1 ++ [a]) ++ s2) by (by rewrite <- app_assoc).
  destruct s2 as [|b s2].
  - rewrite app_nil_r. replace (list_find _ (s1 ++ [a])) with (@None (nat * string)); [by rewrite take_nil|].
    symmetry. apply list_find_None, Forall_forall. exact Hle.
  - replace (list_find _ ((s1 ++ [a]) ++ b :: s2)) with (Some (length (s1 ++ [a]), b)); [by rewrite drop_app_length|].
    symmetry. apply list_find_Some. split_and!.
    + by rewrite lookup_app_r, Nat.sub_diag by done.
    + apply Hgt. by left.
    + intros j y Hj Hl. apply Hle. rewrite lookup_app_l in Hj by done. by eapply list_elem_of_lookup_2.
Qed.

(** A walk over the pages until one comes back short. *)
Fixpoint sweep (fuel : nat) all limit (after : option string) : list string :=
  match fuel with
  | O => []
  | S fuel =>
    let page := persistenceIdPage all after limit in
    page ++ (if (length page <? limit)%nat then [] else sweep fuel all limit (last page))
  end.

Lemma sweep_rest all limit s1 s2 (after : option string) fuel : (0 < limit)%nat → in_order all = s1 ++ s2 → last s1 = after →
  (length s2 < fuel)%nat → sweep fuel all limit after = s2.
Proof.
  intros Hl. revert s1 s2 after. induction fuel as [|fuel IH]; intros s1 s2 after Hs Ha Hf; [lia|]. cbn [sweep].
  assert (persistenceIdPage all after limit = take limit s2) as ->.
  { destruct after as [a|].
    - apply last_Some in Ha as [k ->]. apply (page_after all k a). by rewrite Hs, <- app_assoc.
    - apply last_None in Ha as ->. cbn in Hs. unfold persistenceIdPage. fold (in_order all). by rewrite Hs. }
  destruct (Nat.ltb_spec (length (take limit s2)) limit) as [Hlt|Hge]; rewrite length_take in *.
  - rewrite app_nil_r. apply take_ge. lia.
  - rewrite (IH (s1 ++ take limit s2) (drop limit s2)); [by rewrite take_drop| |..].
    + by rewrite <- app_assoc, take_drop.
    + destruct (take limit s2) as [|x k] eqn:Ht; [apply (f_equal length) in Ht; rewrite length_take in Ht; cbn in Ht; lia|].
      rewrite last_app. by destruct (last (x :: k)) eqn:Hlast; [|by apply last_None in Hlast].
    + rewrite length_drop. lia.
Qed.

(** Walking the pages, each from the last id of the one before, visits every id
    of the journal once, in ascending order, whatever the order and the
    repetitions of the enumeration they are cut from. *)
Theorem pages_visit_every_id_once all limit : (0 < limit)%nat →
  let walked := sweep (S (length all)) all limit None in
  StronglySorted text_le walked ∧ NoDup walked ∧ ∀ id, id ∈ walked ↔ id ∈ all.
Proof.
  intros Hl. cbv zeta. rewrite (sweep_rest all limit [] (in_order all)); [|done..|].
  - destruct (in_order_ascending all) as [Ho Hd]. split_and!; [done..|]. intros id. unfold in_order.
    rewrite (merge_sort_Permutation text_le). apply elem_of_remove_dups.
  - unfold in_order. rewrite (Permutation_length (merge_sort_Permutation text_le _)).
    assert (length (remove_dups all) ≤ length all)%nat; [|lia]. clear. induction all; cbn; [done|]. case_decide; cbn; lia.
Qed.

End pages.

Lemma pages_visit_every_id_once_witness :
  (0 < 2)%nat ∧ NoDup (sweep 5 ["b"; "a"; "c"; "a"]%string 2 None).
Proof. split; [lia|]. apply (pages_visit_every_id_once ["b"; "a"; "c"; "a"]%string 2). lia. Defined.
