(* ===== verification/Replay.v ===== *)
(** * Folding a journal back into state: [src/persistence/Replay.ts]

    The phases of a replay, the checks on what the two stores return, and what
    a replay computes.  [decodeE] and [decodeS] are [decodeEvent] and
    [decodeState] under the adapters of the request, [fold] is its fold; each
    is [None] where it throws. *)

From Stdlib Require Import Ascii String.
From S2P Require Import Prelude Journal.

Local Open Scope Z_scope.

(** What a replay rejects with.  A store that rejects does so with a
    [SnapshotIntegrityError] of its own, or with any other error. *)
Inductive ReplayFault :=
| SnapshotIntegrityError (sequenceNr : number)
| JournalIntegrityError (sequenceNr : number)
| StoreError
| DecodeError
| FoldError.

Definition Number_isInteger (n : number) : bool := match n with Num _ => true | _ => false end.

(** The integer a checked sequence number is. *)
Definition value_of (n : number) : Z := match n with Num z => z | _ => 0 end.

(** [protection] says whether the actor's options carry an encryption or an
    integrity mode other than none. *)
Definition snapshotTolerated (snapshotIsOptional protection : bool) : bool := snapshotIsOptional && negb protection.

Definition loadSnapshotOrNull {A} (load : result ReplayFault (option A)) (snapshotIsOptional protection : bool) :
    result ReplayFault (option A) :=
  if negb (snapshotTolerated snapshotIsOptional protection) then load
  else match load with
  | Ok snapshot => Ok snapshot
  | Err (SnapshotIntegrityError n) => Err (SnapshotIntegrityError n)
  | Err _ => Ok None
  end.

(** [highest] is what [journal.highestSeq] answers; a malformed claim is
    refused before it is asked. *)
Definition assertTrustworthySnapshot (highest : Z) (claimed : number) : result ReplayFault unit :=
  throw_if (negb (Number_isInteger claimed) || number_lt claimed (Num 0)) (SnapshotIntegrityError claimed);;
  throw_if ((0 <? highest) && number_lt (Num highest) claimed) (SnapshotIntegrityError claimed).

(** The loop of [assertTrustworthyHistory]; [first] is [index === 0]. *)
Fixpoint checkHistory {U} (toSequenceNr : option Z) (allowCompactedPrefix first : bool) (previous : Z)
    (events : list (PersistentEvent U)) : result ReplayFault unit :=
  match events with
  | [] => Ok ()
  | e :: rest =>
    let n := sequenceNr e in
    throw_if (negb (Number_isSafeInteger n) || number_lt n (Num 1)) (JournalIntegrityError n);;
    throw_if (number_le n (Num previous)) (JournalIntegrityError n);;
    throw_if (number_lt (Num (previous + 1)) n && negb (first && allowCompactedPrefix)) (JournalIntegrityError n);;
    throw_if (match toSequenceNr with Some to => number_lt (Num to) n | None => false end) (JournalIntegrityError n);;
    checkHistory toSequenceNr allowCompactedPrefix false (value_of n) rest
  end.

Definition assertTrustworthyHistory {U} (events : list (PersistentEvent U)) (fromSequenceNr : Z) (toSequenceNr : option Z)
    (allowCompactedPrefix : bool) : result ReplayFault unit :=
  checkHistory toSequenceNr allowCompactedPrefix true fromSequenceNr events.

Record ReplayHistory (U Q : Type) := mkHistory {
  history_snapshot : option (Snapshot Q);
  history_events : list (PersistentEvent U);
  history_seq : number;
}.
Arguments mkHistory {U Q}. Arguments history_snapshot {U Q}. Arguments history_events {U Q}. Arguments history_seq {U Q}.

Record ReplayResult (S : Type) := mkResult {
  result_state : S;
  result_seq : number;
  fromSnapshotSequenceNr : option number;
  eventsApplied : nat;
}.
Arguments mkResult {S}. Arguments result_state {S}. Arguments result_seq {S}.
Arguments fromSnapshotSequenceNr {S}. Arguments eventsApplied {S}.

Section replay.
Context {U Q E S : Type}.
Context (initialState : S) (fold : S → E → option S) (decodeE : U → option E) (decodeS : Q → option S).

Definition fromSequenceNr (snapshot : option (Snapshot Q)) : Z :=
  match snapshot with None => 0 | Some s => value_of (snapshot_seq s) end.

(** [readReplayHistory] once the journal has answered: [highest] is read only
    under a snapshot. *)
Definition assembleHistory (snapshot : option (Snapshot Q)) (events : list (PersistentEvent U)) : ReplayHistory U Q :=
  mkHistory snapshot events
    match last events with
    | Some e => sequenceNr e
    | None => match snapshot with None => Num 0 | Some s => snapshot_seq s end
    end.

Definition checkSnapshot (highest : Z) (snapshot : option (Snapshot Q)) : result ReplayFault unit :=
  match snapshot with None => Ok () | Some s => assertTrustworthySnapshot highest (snapshot_seq s) end.

Fixpoint foldEvents (state : S) (events : list (PersistentEvent U)) : result ReplayFault S :=
  match events with
  | [] => Ok state
  | entry :: rest =>
    match decodeE (event entry) with
    | None => Err DecodeError
    | Some e => match fold state e with None => Err FoldError | Some state => foldEvents state rest end
    end
  end.

Definition foldReplayHistory (history : ReplayHistory U Q) : result ReplayFault (ReplayResult S) :=
  state ← match history_snapshot history with
    | None => Ok initialState
    | Some s => match decodeS (snapshot_state s) with None => Err DecodeError | Some state => Ok state end
    end;
  state ← foldEvents state (history_events history);
  Ok (mkResult state (history_seq history) (snapshot_seq <$> history_snapshot history) (length (history_events history))).

(** [replayState] over stores that nobody else touches meanwhile and that
    answer, as the time-travel panel runs it and, without [toSequenceNr], an
    actor. *)
Definition loadReplaySnapshot {T} `{SnapshotStore T Q} (store : option T) (id : string) (toSequenceNr : option Z) : option (Snapshot Q) :=
  match store with
  | None => None
  | Some store =>
    match toSequenceNr with
    | None => snapshot_loadLatest store id
    | Some to => snapshot_loadBefore store id (to + 1)
    end
  end.

Definition readReplayHistory {J} `{Journal J U} (journal : J) (id : string) (toSequenceNr : option Z) (allowCompactedPrefix : bool)
    (snapshot : option (Snapshot Q)) : result ReplayFault (ReplayHistory U Q) :=
  checkSnapshot (journal_highestSeq journal id) snapshot;;
  let events := journal_read journal id (fromSequenceNr snapshot + 1) toSequenceNr in
  assertTrustworthyHistory events (fromSequenceNr snapshot) toSequenceNr allowCompactedPrefix;;
  Ok (assembleHistory snapshot events).

Definition replayState {J T} `{Journal J U} `{SnapshotStore T Q} (journal : J) (store : option T) (id : string)
    (toSequenceNr : option Z) (allowCompactedPrefix : bool) : result ReplayFault (ReplayResult S) :=
  history ← readReplayHistory journal id toSequenceNr allowCompactedPrefix (loadReplaySnapshot store id toSequenceNr);
  foldReplayHistory history.

End replay.
