(* ===== verification/ReplayTheorems.v ===== *)
(** * What a replay computes

    Which histories are accepted, that a replay never ends in a state the
    events did not lead to, and that it does not matter from which snapshot it
    starts. *)

From Stdlib Require Import Ascii String.
From S2P Require Import Prelude BidirectionalMap Journal JournalTheorems Replay.

Local Open Scope Z_scope.

(** ** Which histories are accepted *)

Lemma number_lt_Num a b : number_lt (Num a) (Num b) = (a <? b).
Proof. done. Qed.

(** One round of the loop lets exactly the next number through, or any later
    one at the very start of a prefix that may be compacted. *)
Lemma checkHistory_cons {U} to allow first previous (e : PersistentEvent U) rest : 0 ≤ previous →
  checkHistory to allow first previous (e :: rest) = Ok () ↔
  ∃ n, sequenceNr e = Num n ∧ previous < n ≤ MAX_SAFE_INTEGER ∧ (first && allow = false → n = previous + 1) ∧
    (∀ t, to = Some t → n ≤ t) ∧ checkHistory to allow false n rest = Ok ().
Proof.
  intros Hp. cbn [checkHistory]. destruct (sequenceNr e) as [| | |n] eqn:Hn; try (split; [done|by intros (? & ? & _)]).
  rewrite number_le_Num, !number_lt_Num. cbn [Number_isSafeInteger value_of]. split.
  - intros Hc. exists n. split; [done|]. unbind.
    apply orb_false_iff in Hok as [H1 H2]. apply negb_false_iff, andb_true_iff in H1 as [_ H1].
    apply Z.leb_le in H1. apply Z.leb_gt in Hok0. apply Z.ltb_ge in H2. split_and!; [lia|lia| | |done].
    + intros Hf. rewrite Hf, andb_true_r in Hok1. apply Z.ltb_ge in Hok1. lia.
    + intros t ->. by apply Z.ltb_ge in Hok2.
  - intros (n' & [= <-] & Hr & Hs & Ht & Hc).
    replace (_ || _) with false; [|symmetry; apply orb_false_iff; split; [apply negb_false_iff, andb_true_iff; rewrite !Z.leb_le; unfold MAX_SAFE_INTEGER in *; lia|apply Z.ltb_ge; lia]].
    replace (n <=? previous) with false by (symmetry; apply Z.leb_gt; lia).
    replace (_ && _) with false; [|symmetry; destruct (first && allow); cbn; [by rewrite andb_false_r|rewrite andb_true_r, Hs by done; apply Z.ltb_ge; lia]].
    replace (match to with Some t => number_lt (Num t) (Num n) | None => false end) with false; [exact Hc|].
    destruct to as [t|]; [|done]. symmetry. apply Z.ltb_ge. by apply Ht.
Qed.

Lemma checkHistory_rest {U} to allow previous (events : list (PersistentEvent U)) : 0 ≤ previous →
  checkHistory to allow false previous events = Ok () ↔
  sequenceNr <$> events = Num <$> seqZ (previous + 1) (Z.of_nat (length events)) ∧
  (events ≠ [] → previous + Z.of_nat (length events) ≤ MAX_SAFE_INTEGER ∧
     ∀ t, to = Some t → previous + Z.of_nat (length events) ≤ t).
Proof.
  revert previous. induction events as [|e rest IH]; intros previous Hp; [by split|].
  rewrite checkHistory_cons by done. cbn [length fmap list_fmap].
  rewrite (seqZ_cons (previous + 1)) by lia. cbn [fmap list_fmap].
  replace (Z.succ (previous + 1)) with (previous + 1 + 1) by lia.
  replace (Z.pred (Z.of_nat (S (length rest)))) with (Z.of_nat (length rest)) by lia. split.
  - intros (n & Hn & Hr & Hs & Ht & Hc). rewrite (Hs eq_refl) in *. apply IH in Hc as [Hc Hb]; [|lia].
    split; [by rewrite Hn, Hc|]. intros _. destruct rest as [|e' rest].
    + cbn. split; [lia|]. intros t ->. specialize (Ht t eq_refl). lia.
    + destruct (Hb ltac:(done)) as [H1 H2]. cbn [length] in *. split; [lia|]. intros t ->. specialize (H2 t eq_refl). lia.
  - intros [[= Hn Hc] Hb]. destruct (Hb ltac:(done)) as [H1 H2]. exists (previous + 1). split_and!; [done|lia|lia|done| |].
    + intros t ->. specialize (H2 t eq_refl). lia.
    + apply IH; [lia|]. split; [done|]. intros _. split; [lia|]. intros t ->. specialize (H2 t eq_refl). lia.
Qed.

(** C31. A history is accepted exactly when its numbers are consecutive safe
    integers that start right after the point the fold starts at - or anywhere
    after it, where a compacted prefix is tolerated - and stay within the
    bound that was asked for. *)
Theorem history_accepted_exactly {U} (events : list (PersistentEvent U)) (from : Z) (to : option Z) (allow : bool) : 0 ≤ from →
  assertTrustworthyHistory events from to allow = Ok () ↔
  events = [] ∨ ∃ start, from ≤ start ∧ (allow = false → start = from) ∧
    sequenceNr <$> events = Num <$> seqZ (start + 1) (Z.of_nat (length events)) ∧
    start + Z.of_nat (length events) ≤ MAX_SAFE_INTEGER ∧ (∀ t, to = Some t → start + Z.of_nat (length events) ≤ t).
Proof.
  intros Hp. unfold assertTrustworthyHistory. destruct events as [|e rest]; [split; [by left|done]|].
  rewrite checkHistory_cons by done. split.
  - intros (n & Hn & Hr & Hs & Ht & Hc). right. exists (n - 1).
    assert (Hstrict : checkHistory to allow false (n - 1) (e :: rest) = Ok ()).
    { apply checkHistory_cons; [lia|]. exists n. split_and!; [done|lia|lia|intros; lia|done|done]. }
    apply checkHistory_rest in Hstrict as [Hm Hb]; [|lia]. destruct (Hb ltac:(done)) as [H1 H2].
    split_and!; [lia| |done|done|done]. intros ->. rewrite Hs; [lia|done].
  - intros [?|(start & Hf & Ha & Hm & H1 & H2)]; [done|].
    assert (Hstrict : checkHistory to allow false start (e :: rest) = Ok ()).
    { apply checkHistory_rest; [lia|]. split; [done|]. intros _. by split. }
    apply checkHistory_cons in Hstrict as (n & Hn & Hr & Hs & Ht & Hc); [|lia]. exists n.
    split_and!; [done|lia|lia| |done|done]. intros Hx. rewrite (Hs eq_refl), Ha; [done|].
    by destruct allow.
Qed.

Lemma history_accepted_exactly_witness :
  0 ≤ 4 ∧ assertTrustworthyHistory [mkEvent "a" (Num 5) 1 0 None; mkEvent "a" (Num 6) 2 0 None] 4 None false = Ok ().
Proof.
  split; [lia|]. apply (history_accepted_exactly [mkEvent "a" (Num 5) 1 0 None; mkEvent "a" (Num 6) 2 0 None] 4 None false); [lia|].
  right. exists 4. split_and!; try done.
Defined.

(** ** Folds *)

Section folds.
Context {E S : Type} (fold : S → E → option S).

(** The fold of the source, which stops where the user's function throws. *)
Fixpoint foldAll (state : S) (events : list E) : option S :=
  match events with [] => Some state | e :: rest => fold state e ≫= λ state, foldAll state rest end.

Lemma foldAll_app s k l : foldAll s (k ++ l) = foldAll s k ≫= λ s, foldAll s l.
Proof. revert s. induction k as [|e k IH]; intros s; [done|]. cbn. destruct (fold s e); cbn; [apply IH|done]. Qed.

Lemma foldAll_take s (n m : nat) l s' : foldAll s (take n l) = Some s' → (n ≤ m)%nat →
  foldAll s (take m l) = foldAll s' (drop n (take m l)).
Proof.
  intros Hs Hn. rewrite <- (take_drop n (take m l)) at 1. rewrite foldAll_app, take_take, Nat.min_l by done. by rewrite Hs.
Qed.

End folds.

Lemma foldEvents_spec {U E S} (fold : S → E → option S) (decodeE : U → option E) s n (events : list (PersistentEvent U)) us es :
  stamped <$> events = numbered n us → Forall2 (λ u e, decodeE u = Some e) us es →
  foldEvents fold decodeE s events = match foldAll fold s es with Some s' => Ok s' | None => Err FoldError end.
Proof.
  intros Hs Hd. revert s n events Hs. induction Hd as [|u e us es Hu _ IH]; intros s n [|x events]; try done.
  cbn. intros [= Hn He Hs]. unfold stamped in *. rewrite He, Hu. cbn. destruct (fold s e); cbn; [by eapply IH|done].
Qed.

Lemma numbered_seqZ {P} n (us : list P) : (numbered n us).*1 = Num <$> seqZ (Z.of_nat n + 1) (Z.of_nat (length us)).
Proof.
  revert n. induction us as [|u us IH]; intros n; [done|]. cbn [numbered fmap list_fmap length fst].
  rewrite (seqZ_cons (Z.of_nat n + 1)) by lia. cbn [fmap list_fmap]. rewrite IH. f_equal. f_equal. f_equal; lia.
Qed.

Lemma stamped_seqs {P} (events : list (PersistentEvent P)) n us : stamped <$> events = numbered n us →
  sequenceNr <$> events = Num <$> seqZ (Z.of_nat n + 1) (Z.of_nat (length events)) ∧ length events = length us.
Proof.
  intros Hs. assert (length events = length us) as Hl.
  { apply (f_equal length) in Hs. rewrite length_fmap in Hs. rewrite Hs. clear. revert n. by induction us; intros; cbn; f_equal. }
  split; [|done]. rewrite Hl, <- numbered_seqZ, <- Hs, <- list_fmap_compose. done.
Qed.

Lemma stamped_last {P} (events : list (PersistentEvent P)) n us : stamped <$> events = numbered n us →
  match last events with Some e => sequenceNr e | None => Num (Z.of_nat n) end = Num (Z.of_nat (n + length us)).
Proof.
  intros Hs. apply stamped_seqs in Hs as [Hs Hl]. rewrite <- Hl. clear Hl. destruct events as [|x events _] using rev_ind; [cbn; do 2 f_equal; lia|].
  rewrite last_snoc. rewrite fmap_app, length_app in Hs. cbn in Hs.
  replace (Z.of_nat (length events + 1)) with (Z.of_nat (length events) + 1) in Hs by lia.
  rewrite seqZ_app, fmap_app in Hs by lia. apply app_inj_2 in Hs as [_ Hs]; [|done].
  rewrite (seqZ_cons _ 1) in Hs by lia. cbn in Hs. injection Hs as ->. rewrite length_app. cbn. f_equal. lia.
Qed.

(** ** Replays *)

Section replay.
Context {J T U Q E S : Type}.
Context `{JournalLaws J U storedU} `{SnapshotLaws T Q storedQ}.
Context (initialState : S) (fold : S → E → option S) (decodeE : U → option E) (decodeS : Q → option S).
Context (journal : J) (pid : string) (compacted : nat) (wire : list U) (log : list E).

(** [log] is everything ever written under [pid]. *)
Context (Hkeeps : keeps journal pid compacted wire) (Hwire : Forall2 (λ u e, decodeE u = Some e) wire log).

#[local] Abbreviation folded n := (foldAll fold initialState (take n log)).

(** A snapshot that holds the state after the events it claims. *)
Definition honest (r : Snapshot Q) : Prop :=
  ∃ n : nat, snapshot_seq r = Num (Z.of_nat n) ∧ (n ≤ length log)%nat ∧
    ∃ s, decodeS (snapshot_state r) = Some s ∧ folded n = Some s.

(** What a replay starts from. *)
Definition starts_at (snapshot : option (Snapshot Q)) (n : nat) : Prop :=
  match snapshot with None => n = 0%nat | Some r => snapshot_seq r = Num (Z.of_nat n) ∧ (n ≤ length log)%nat end.

Lemma wire_length : length wire = length log.
Proof. by apply Forall2_length in Hwire. Qed.

Lemma honest_start snapshot : (∀ r, snapshot = Some r → honest r) → ∃ n s, starts_at snapshot n ∧ (n ≤ length log)%nat ∧
  match snapshot with None => Some initialState | Some r => decodeS (snapshot_state r) end = Some s ∧ folded n = Some s.
Proof.
  destruct snapshot as [r|]; intros Hr.
  - destruct (Hr r eq_refl) as (n & Hn & Hl & s & Hs & Hf). by exists n, s.
  - exists 0%nat, initialState. split_and!; [done|lia|done|done].
Qed.

Lemma starts_at_from snapshot n : starts_at snapshot n → fromSequenceNr snapshot = Z.of_nat n.
Proof. destruct snapshot as [r|]; cbn; [by intros [-> _]|by intros ->]. Qed.

Lemma starts_at_trusted snapshot n : starts_at snapshot n → checkSnapshot (journal_highestSeq journal pid) snapshot = Ok ().
Proof.
  destruct snapshot as [r|]; [|done]. cbn. intros [Hn Hl]. rewrite (keeps_highest _ _ _ _ Hkeeps), wire_length, Hn.
  unfold assertTrustworthySnapshot. cbn [Number_isInteger negb orb]. rewrite !number_lt_Num.
  replace (Z.of_nat n <? 0) with false by (symmetry; apply Z.ltb_ge; lia).
  replace (Z.of_nat (length log) <? Z.of_nat n) with false by (symmetry; apply Z.ltb_ge; lia). by rewrite andb_false_r.
Qed.

(** The events read after a start at [n], accepted: nothing is missing. *)
Lemma read_contiguous snapshot n (to : option nat) : starts_at snapshot n →
  let events := journal_read journal pid (fromSequenceNr snapshot + 1) (Z.of_nat <$> to) in
  assertTrustworthyHistory events (fromSequenceNr snapshot) (Z.of_nat <$> to) false = Ok () →
  ∃ m, (n ≤ m ≤ length log)%nat ∧ stamped <$> events = numbered n (drop n (take m wire)) ∧ (∀ t, to = Some t → (m ≤ n `max` t)%nat) .
Proof.
  intros Hn. cbv zeta. rewrite (starts_at_from _ _ Hn).
  pose proof (keeps_read _ _ _ _ n to Hkeeps) as Hr. set (events := journal_read _ _ _ _) in *.
  set (t := default (length wire) to) in *. rewrite history_accepted_exactly by lia.
  destruct (drop (n `max` compacted) (take t wire)) as [|u us] eqn:Hd.
  - intros _. exists n. rewrite Hr. split_and!; [lia| |by rewrite drop_ge by (rewrite length_take; lia)|intros; lia].
    destruct snapshot as [r|]; cbn in Hn; [apply Hn|lia].
  - intros [He|(start & Hs1 & Hs2 & Hs3 & _)]; [by rewrite He in Hr|].
    assert (Hlen : length (drop (n `max` compacted) (take t wire)) = Datatypes.S (length us)) by (by rewrite Hd).
    rewrite length_drop, length_take in Hlen.
    rewrite Hs2 in Hs3 by done. destruct (stamped_seqs _ _ _ Hr) as [Hs Hl]. rewrite Hs3, Hl in Hs. cbn [length] in Hs.
    assert (n `max` compacted = n)%nat as Hm.
    { rewrite !(seqZ_cons _ (Z.of_nat (Datatypes.S _))) in Hs by lia. injection Hs as Hs _. lia. }
    rewrite Hm in *. exists (t `min` length wire)%nat. rewrite <- wire_length. split_and!; [lia|lia| |].
    + rewrite Hr. f_equal. destruct (Nat.min_spec t (length wire)) as [[_ ->]|[Hx ->]]; [by rewrite <- Hd|].
      rewrite firstn_all. rewrite <- Hd. by rewrite take_ge.
    + intros t' ->. cbn in t. lia.
Qed.

Lemma wire_slice n m : Forall2 (λ u e, decodeE u = Some e) (drop n (take m wire)) (drop n (take m log)).
Proof. by apply Forall2_drop, Forall2_take. Qed.

Lemma history_seq_slice (snapshot : option (Snapshot Q)) n (events : list (PersistentEvent U)) us : starts_at snapshot n → stamped <$> events = numbered n us →
  history_seq (assembleHistory snapshot events) = Num (Z.of_nat (n + length us)).
Proof.
  intros Hn He. rewrite <- (stamped_last _ _ _ He). unfold assembleHistory. cbn. destruct (last events); [done|].
  destruct snapshot as [r|]; cbn in Hn; [by destruct Hn|by rewrite Hn].
Qed.

(** The fold of a slice that begins where the snapshot stands. *)
Lemma fold_from (snapshot : option (Snapshot Q)) n s m (events : list (PersistentEvent U)) : starts_at snapshot n → (n ≤ m ≤ length log)%nat →
  match snapshot with None => Some initialState | Some r => decodeS (snapshot_state r) end = Some s →
  stamped <$> events = numbered n (drop n (take m wire)) →
  foldReplayHistory initialState fold decodeE decodeS (assembleHistory snapshot events) =
  match foldAll fold s (drop n (take m log)) with
  | None => Err FoldError
  | Some s' => Ok (mkResult s' (Num (Z.of_nat m)) (snapshot_seq <$> snapshot) (length events))
  end.
Proof.
  intros Hn Hm Hs He. unfold foldReplayHistory. rewrite (history_seq_slice _ _ _ _ Hn He).
  assert (n + length (drop n (take m wire)) = m)%nat as -> by (rewrite length_drop, length_take, wire_length; lia).
  cbn [assembleHistory history_snapshot history_events].
  assert (∀ A (k : S → result ReplayFault A), (match snapshot with
    | None => Ok initialState
    | Some s => match decodeS (snapshot_state s) with None => Err DecodeError | Some state => Ok state end end ≫= k) = k s) as ->.
  { intros A k. destruct snapshot as [r|]; [by rewrite Hs|by injection Hs as ->]. }
  rewrite (foldEvents_spec _ _ _ _ _ _ _ He (wire_slice n m)). destruct (foldAll fold s (drop n (take m log))); reflexivity.
Qed.

Lemma fold_slice (snapshot : option (Snapshot Q)) n s m (events : list (PersistentEvent U)) : starts_at snapshot n → (n ≤ m ≤ length log)%nat →
  match snapshot with None => Some initialState | Some r => decodeS (snapshot_state r) end = Some s → folded n = Some s →
  stamped <$> events = numbered n (drop n (take m wire)) →
  foldReplayHistory initialState fold decodeE decodeS (assembleHistory snapshot events) =
  match folded m with
  | None => Err FoldError
  | Some s' => Ok (mkResult s' (Num (Z.of_nat m)) (snapshot_seq <$> snapshot) (length events))
  end.
Proof. intros Hn Hm Hs Hf He. rewrite (foldAll_take _ _ n m log s) by (done || lia). by apply fold_from. Qed.

(** A store, if there is one, whose snapshots are honest. *)
Definition honest_store (store : option T) : Prop :=
  ∀ t, store = Some t → orderly t pid ∧ ∀ r, r ∈ rows t pid → honest r.

Lemma load_honest store (to : option nat) : honest_store store →
  let snapshot := loadReplaySnapshot store pid (Z.of_nat <$> to) in
  (∀ r, snapshot = Some r → honest r ∧ ∀ t n, to = Some t → snapshot_seq r = Num (Z.of_nat n) → (n ≤ t)%nat).
Proof.
  intros Hst. cbv zeta. intros r Hr. destruct store as [st|]; [|done]. destruct (Hst st eq_refl) as [Ho Hrows].
  destruct to as [t|]; cbn in Hr.
  - pose proof (loadBefore_newest st pid (Z.of_nat t + 1) Ho) as Hl. rewrite Hr in Hl. destruct Hl as (Hin & Hlt & _).
    split; [by apply Hrows|]. intros t' n [= <-] Hn. rewrite Hn in Hlt. apply Z.ltb_lt in Hlt. lia.
  - pose proof (loadLatest_newest st pid Ho) as Hl. rewrite Hr in Hl. destruct Hl as [Hin _]. split; [by apply Hrows|done].
Qed.

(** Whatever the snapshots and however much of the journal was deleted: a
    replay that succeeds ends in the state that the events up to its sequence
    number lead to, and not past the bound that was asked for. *)
Theorem replay_never_invents store (to : option nat) r : honest_store store →
  replayState initialState fold decodeE decodeS journal store pid (Z.of_nat <$> to) false = Ok r →
  ∃ n : nat, result_seq r = Num (Z.of_nat n) ∧ (n ≤ length log)%nat ∧ (∀ t, to = Some t → (n ≤ t)%nat) ∧ folded n = Some (result_state r).
Proof.
  intros Hst Hr. unfold replayState, readReplayHistory in Hr. pose proof (load_honest store to Hst) as Hload.
  set (snapshot := loadReplaySnapshot _ _ _) in *. apply result_bind_Ok in Hr as (history & Hh & Hr). unbind. subst history.
  destruct (honest_start snapshot) as (n & s & Hn & Hl & Hs & Hf); [intros row Hrow; by apply Hload|].
  destruct (read_contiguous snapshot n to Hn) as (m & Hm & He & Ht); [by destruct a0|].
  rewrite (fold_slice snapshot n s m _ Hn Hm Hs Hf He) in Hr. destruct (folded m) as [s'|] eqn:Hfm; [|done]. injection Hr as <-.
  exists m. cbn. split_and!; [done|lia| |done]. intros t Hto. specialize (Ht t Hto).
  assert (n ≤ t)%nat; [|lia]. destruct snapshot as [row|] eqn:Hsn; cbn in Hn; [|lia].
  destruct Hn as [Hn _]. by eapply (proj2 (Hload row eq_refl)).
Qed.

(** The point a replay can reach, and what it needs: nothing before the
    snapshot it may start from was deleted beyond it. *)
Definition target (to : option nat) : nat := default (length log) to `min` length log.

Definition covered (store : option T) (to : option nat) : Prop :=
  compacted = 0%nat ∨
  ∃ t r n, store = Some t ∧ r ∈ rows t pid ∧ snapshot_seq r = Num (Z.of_nat n) ∧ (compacted ≤ n ≤ target to)%nat.

Lemma covered_start store (to : option nat) : honest_store store → covered store to →
  ∃ n s, let snapshot := loadReplaySnapshot store pid (Z.of_nat <$> to) in
  starts_at snapshot n ∧ (compacted ≤ n ≤ target to)%nat ∧
  match snapshot with None => Some initialState | Some r => decodeS (snapshot_state r) end = Some s ∧ folded n = Some s.
Proof.
  intros Hst Hc. pose proof (load_honest store to Hst) as Hload. cbv zeta in *.
  destruct (loadReplaySnapshot store pid (Z.of_nat <$> to)) as [row|] eqn:Hl.
  - destruct (Hload row eq_refl) as [(n & Hn & Hle & s & Hs & Hf) Hto]. exists n, s. split; [by split|]. split_and!; [| |done|done].
    + destruct Hc as [->|(t & r & n' & -> & Hr & Hn' & Hc & Htar)]; [lia|]. destruct (Hst t eq_refl) as [Ho _].
      assert (number_le (Num (Z.of_nat n')) (Num (Z.of_nat n)) = true) as Hnn; [|rewrite number_le_Num in Hnn; lia].
      rewrite <- Hn, <- Hn'. destruct to as [t'|]; cbn in Hl.
      * pose proof (loadBefore_newest t pid (Z.of_nat t' + 1) Ho) as Hb. rewrite Hl in Hb. apply Hb; [done|].
        rewrite Hn', number_lt_Num. unfold target in Htar. cbn in Htar. apply Z.ltb_lt. lia.
      * pose proof (loadLatest_newest t pid Ho) as Hb. rewrite Hl in Hb. by apply Hb.
    + unfold target. destruct to as [t|]; cbn; [|lia]. specialize (Hto t n eq_refl Hn). lia.
  - exists 0%nat, initialState. split_and!; [done| |lia|done|done].
    destruct Hc as [->|(t & r & n' & -> & Hr & Hn' & Hc & Htar)]; [lia|]. destruct (Hst t eq_refl) as [Ho _]. exfalso.
    destruct to as [t'|]; cbn in Hl.
    + pose proof (loadBefore_newest t pid (Z.of_nat t' + 1) Ho) as Hb. rewrite Hl in Hb. specialize (Hb r Hr).
      rewrite Hn', number_lt_Num in Hb. unfold target in Htar. cbn in Htar. apply Z.ltb_ge in Hb. lia.
    + pose proof (loadLatest_newest t pid Ho) as Hb. rewrite Hl in Hb. rewrite Hb in Hr. by apply elem_of_nil in Hr.
Qed.

(** C30. As long as the newest snapshot within the bound is not older than the last
    deletion, the replay succeeds, and the state is that of a fold over all the
    events from the first one: it does not matter from which snapshot it
    started, nor what was deleted behind it. *)
Theorem replay_reconstructs store (to : option nat) allow s : honest_store store → covered store to →
  Z.of_nat (length log) ≤ MAX_SAFE_INTEGER → folded (target to) = Some s →
  ∃ r, replayState initialState fold decodeE decodeS journal store pid (Z.of_nat <$> to) allow = Ok r ∧
    result_state r = s ∧ result_seq r = Num (Z.of_nat (target to)).
Proof.
  intros Hst Hc Hmax Hs. destruct (covered_start store to Hst Hc) as (n & s0 & Hn & Hl & Hs0 & Hf).
  unfold replayState, readReplayHistory. set (snapshot := loadReplaySnapshot _ _ _) in *.
  rewrite (starts_at_trusted snapshot n Hn). cbn [mbind result_bind].
  set (events := journal_read _ _ _ _).
  assert (He : stamped <$> events = numbered n (drop n (take (target to) wire))).
  { unfold events. rewrite (starts_at_from _ _ Hn), (keeps_read _ _ _ _ _ _ Hkeeps), Nat.max_l by lia. do 2 f_equal.
    unfold target. rewrite <- wire_length. destruct to as [t|]; cbn; [|by rewrite Nat.min_id].
    destruct (Nat.min_spec t (length wire)) as [[_ ->]|[Hx ->]]; [done|]. by rewrite firstn_all, take_ge. }
  destruct (stamped_seqs _ _ _ He) as [Hq Hlen]. rewrite length_drop, length_take, wire_length in Hlen.
  assert (assertTrustworthyHistory events (fromSequenceNr snapshot) (Z.of_nat <$> to) allow = Ok ()) as ->.
  { rewrite (starts_at_from _ _ Hn). apply history_accepted_exactly; [lia|]. right. exists (Z.of_nat n).
    split_and!; [lia|done|done|unfold target in *; lia|]. intros t Ht. destruct to as [t'|]; [|done]. injection Ht as <-.
    unfold target in *. cbn [from_option id] in *. lia. }
  cbn [mbind result_bind]. rewrite (fold_slice snapshot n s0 (target to) events); try done.
  - rewrite Hs. by eexists.
  - unfold target in *. lia.
Qed.

End replay.

(** ** A journal of five events, compacted behind a snapshot *)

Definition plain {A} : A → option A := Some.
Definition add (s e : nat) : option nat := Some (s + e)%nat.

#[local] Instance sample_journal_ops : Journal (InMemoryJournal nat) nat := InMemoryJournal_journal plain.
#[local] Instance sample_store_ops : SnapshotStore (InMemorySnapshotStore nat) nat := InMemorySnapshotStore_store plain.

Definition sample_journal : InMemoryJournal nat :=
  match append plain 7 emptyJournal "acc" ((λ n, mkEntry n None) <$> [1; 2; 3; 4; 5]%nat) 0 with
  | Ok (j, _) => deleteEvents j "acc" 3
  | Err _ => emptyJournal
  end.

Definition sample_store : InMemorySnapshotStore nat :=
  match save plain 7 (constructStore (Some 2)) "acc" 3 6%nat with
  | Some (t, _) => match save plain 8 t "acc" 4 10%nat with Some (t, _) => t | None => t end
  | None => constructStore None
  end.

Lemma sample_keeps : keeps (JournalLaws := InMemoryJournal_laws plain) sample_journal "acc" 3 [1; 2; 3; 4; 5]%nat.
Proof. split_and!; [cbn; lia|reflexivity|reflexivity]. Qed.

Lemma sample_rows : rows_of sample_store "acc" = [mkSnapshot "acc" (Num 3) 6%nat 7; mkSnapshot "acc" (Num 4) 10%nat 8].
Proof. vm_compute. reflexivity. Qed.

Lemma sample_honest : honest_store (H2 := InMemorySnapshotStore_laws plain) 0%nat add plain "acc" [1; 2; 3; 4; 5]%nat (Some sample_store).
Proof.
  intros t [= <-]. unfold rows, orderly, InMemorySnapshotStore_laws. rewrite sample_rows. split.
  - split_and!.
    + repeat constructor; unfold key_le; cbn; lia.
    + repeat constructor; rewrite ?list_elem_of_singleton; [done|apply not_elem_of_nil].
    + intros r Hr. apply elem_of_cons in Hr as [->|Hr]; [done|]. by apply list_elem_of_singleton in Hr as ->.
  - intros r Hr. apply elem_of_cons in Hr as [->|Hr]; [|apply list_elem_of_singleton in Hr as ->].
    + exists 3%nat. split_and!; [done|cbn; lia|by exists 6%nat].
    + exists 4%nat. split_and!; [done|cbn; lia|by exists 10%nat].
Qed.

Lemma replay_never_invents_witness :
  let r := replayState 0%nat add plain plain sample_journal (Some sample_store) "acc" (Some 3) false in
  r = Ok (mkResult 6%nat (Num 3) (Some (Num 3)) 0) ∧ foldAll add 0%nat (take 3 [1; 2; 3; 4; 5]%nat) = Some 6%nat.
Proof.
  split; [reflexivity|].
  destruct (replay_never_invents (H0 := InMemoryJournal_laws plain) (H2 := InMemorySnapshotStore_laws plain)
    0%nat add plain plain sample_journal "acc" 3 [1; 2; 3; 4; 5]%nat [1; 2; 3; 4; 5]%nat sample_keeps
    ltac:(repeat constructor) (Some sample_store) (Some 3%nat) (mkResult 6%nat (Num 3) (Some (Num 3)) 0) sample_honest eq_refl)
    as (n & Hn & _ & _ & Hf).
  cbn in Hn. injection Hn as Hn. assert (n = 3%nat) as -> by lia. exact Hf.
Defined.

Lemma replay_reconstructs_witness :
  ∃ r, replayState 0%nat add plain plain sample_journal (Some sample_store) "acc" None false = Ok r ∧ result_state r = 15%nat ∧ result_seq r = Num 5.
Proof.
  apply (replay_reconstructs (H0 := InMemoryJournal_laws plain) (H2 := InMemorySnapshotStore_laws plain)
    0%nat add plain plain sample_journal "acc" 3 [1; 2; 3; 4; 5]%nat [1; 2; 3; 4; 5]%nat sample_keeps
    ltac:(repeat constructor) (Some sample_store) None false 15%nat sample_honest).
  - right. exists sample_store, (mkSnapshot "acc" (Num 4) 10%nat 8), 4%nat. split_and!; [done| |done|lia|cbn; lia].
    unfold rows, InMemorySnapshotStore_laws. rewrite sample_rows. by right; left.
  - unfold MAX_SAFE_INTEGER. cbn. lia.
  - reflexivity.
Defined.
