(* ===== verification/PersistentActor.v ===== *)
(** * Event-sourced actors: [src/persistence/PersistentActor.ts]

    The actor, one definition per stretch of a method between two awaits, and
    the world it lives in: any number of instances of one actor class with one
    persistence id, over one journal and one snapshot store, whose calls are
    under way at the same time.  [step] is one stretch of one instance, or the
    moment a call takes effect in a store, so every interleaving is a sequence
    of events.

    The hooks a subclass overrides are the record [Behavior]; what it does in
    its own code is arbitrary: it may persist, save a snapshot or delete
    history at any time once its state is recovered.  [None] is a throw of a
    hook.  The cell (stash, supervision, turns) is outside: what the actor asks
    of it is logged in [effects].  The circuit breakers and the recovery
    permits appear as answers that may come late, or as failures. *)

From Stdlib Require Import Ascii String.
From S2P Require Import Prelude Journal Replay.

Local Open Scope Z_scope.

Section actor.
Context {Command E S U Q : Type}.

Record Behavior := mkBehavior {
  persistenceId : string;
  initialState : S;
  onEvent : S → E → option S;
  snapshotPolicy : Z → S → E → bool;
  (** [tagsFor] and the event adapter, or the event itself. *)
  entryOf : E → option (JournalEntry U);
  decodeE : U → option E;
  (** The snapshot adapter. *)
  encodeS : S → option Q;
  decodeS : Q → option S;
  (** [encryption()] or [integrity()] ask for a mode other than none. *)
  protection : bool;
  optionsSupported : bool;
  snapshotIsOptional : bool;
  (** [lease()] returns one; [onLeaseLost] stops the actor; [onRecoveryFailure]
      returns instead of rethrowing. *)
  withLease : bool;
  stopsOnLeaseLost : bool;
  swallowsRecoveryFailure : bool;
}.

(** [everyNEvents]; [None] is its exception. *)
Definition everyNEvents (n : Z) : option (Z → S → E → bool) :=
  if n <=? 0 then None else Some (λ seq _ _, (0 <? seq) && (seq mod n =? 0)).

Inductive RecoveryFault := ReplayFailed (fault : ReplayFault) | RecoveryTimeoutError.

Inductive PersistError := NotLeaseHolder | EncodingThrew | LostAppend (expected actual : Z) | StoreRefused | FoldThrew | SnapshotNotSaved | CallbackThrew.

Inductive Effect :=
| InitializationFailed
| RecoveryFailure (fault : RecoveryFault)
| OnRecoveryComplete (state : option S)
| Stashed (command : Command)
| UnstashAll
| OnCommand (state : option S) (command : Command)
| AfterPersist (state : option S)
| PersistThrew (error : PersistError)
| OnLeaseLost
| ReleaseLease
| StopSelf.

(** What [preStart] awaits. *)
Inductive Stage :=
| Constructed
| AwaitLease
| AwaitPermit
| AwaitSnapshot
| AwaitHead (snapshot : Snapshot Q)
| AwaitEvents (snapshot : option (Snapshot Q))
| AwaitProbe (history : ReplayHistory U Q)
| AwaitComplete
| Ended.

Record PersistentActor := mkActor {
  _state : option S;
  _seq : Z;
  _recovering : bool;
  _persisting : bool;
  _lease : bool;
  _isLeaseHolder : bool;
  _leaseUnsubscribeLost : bool;
  (** Where [preStart] stands, and whether the recovery deadline has passed. *)
  stage : Stage;
  gaveUp : bool;
  effects : list Effect;
}.

Implicit Types (b : Behavior) (c : PersistentActor).

Definition construct : PersistentActor := mkActor None 0 true false false true false Constructed false [].

Definition emit (e : Effect) c : PersistentActor :=
  mkActor (_state c) (_seq c) (_recovering c) (_persisting c) (_lease c) (_isLeaseHolder c) (_leaseUnsubscribeLost c)
    (stage c) (gaveUp c) (effects c ++ [e]).
Definition at_stage (s : Stage) c : PersistentActor :=
  mkActor (_state c) (_seq c) (_recovering c) (_persisting c) (_lease c) (_isLeaseHolder c) (_leaseUnsubscribeLost c)
    s (gaveUp c) (effects c).
Definition set_lease (lease holder subscribed : bool) c : PersistentActor :=
  mkActor (_state c) (_seq c) (_recovering c) (_persisting c) lease holder subscribed (stage c) (gaveUp c) (effects c).
Definition set_persisting (p : bool) c : PersistentActor :=
  mkActor (_state c) (_seq c) (_recovering c) p (_lease c) (_isLeaseHolder c) (_leaseUnsubscribeLost c)
    (stage c) (gaveUp c) (effects c).
Definition set_state (state : S) (seq : Z) c : PersistentActor :=
  mkActor (Some state) seq (_recovering c) (_persisting c) (_lease c) (_isLeaseHolder c) (_leaseUnsubscribeLost c)
    (stage c) (gaveUp c) (effects c).
Definition set_gaveUp c : PersistentActor :=
  mkActor (_state c) (_seq c) (_recovering c) (_persisting c) (_lease c) (_isLeaseHolder c) (_leaseUnsubscribeLost c)
    (stage c) true (effects c).
Definition recovered c : PersistentActor :=
  mkActor (_state c) (_seq c) false (_persisting c) (_lease c) (_isLeaseHolder c) (_leaseUnsubscribeLost c)
    (stage c) (gaveUp c) (effects c).

(** ** [preStart] *)

Definition preStart b c : PersistentActor :=
  match assertValidPersistenceId (persistenceId b) with
  | Err _ => at_stage Ended (emit InitializationFailed c)
  | Ok _ =>
    if negb (optionsSupported b) then at_stage Ended (emit InitializationFailed c)
    else if withLease b then at_stage AwaitLease (set_lease true (_isLeaseHolder c) (_leaseUnsubscribeLost c) c)
    else at_stage AwaitPermit c
  end.

(** [acquireLeaseIfConfigured] after [acquire()], which may throw. *)
Definition onLeaseAcquired (got : option bool) c : PersistentActor :=
  match got with
  | None => at_stage Ended (emit InitializationFailed c)
  | Some false => at_stage AwaitPermit (set_lease (_lease c) false (_leaseUnsubscribeLost c) c)
  | Some true => at_stage AwaitPermit (set_lease (_lease c) true true c)
  end.

(** The [catch] of [preStart]. *)
Definition recoveryFailure b (fault : RecoveryFault) c : PersistentActor :=
  let c := emit (RecoveryFailure fault) c in
  if swallowsRecoveryFailure b then emit StopSelf c else emit InitializationFailed c.

(** A replay that is over: nobody waits for it any more once the deadline has
    passed. *)
Definition replayFails b (fault : ReplayFault) c : PersistentActor :=
  let c := at_stage Ended c in
  if gaveUp c then c else recoveryFailure b (ReplayFailed fault) c.

Definition onPermit c : PersistentActor := at_stage AwaitSnapshot c.

Definition onSnapshotLoaded b (load : result ReplayFault (option (Snapshot Q))) c : PersistentActor :=
  match loadSnapshotOrNull load (snapshotIsOptional b) (protection b) with
  | Err fault => replayFails b fault c
  | Ok None => at_stage (AwaitEvents None) c
  | Ok (Some snapshot) =>
    if negb (Number_isInteger (snapshot_seq snapshot)) || number_lt (snapshot_seq snapshot) (Num 0)
    then replayFails b (SnapshotIntegrityError (snapshot_seq snapshot)) c
    else at_stage (AwaitHead snapshot) c
  end.

Definition onHead b (highest : Z) c : PersistentActor :=
  match stage c with
  | AwaitHead snapshot =>
    match assertTrustworthySnapshot highest (snapshot_seq snapshot) with
    | Err fault => replayFails b fault c
    | Ok _ => at_stage (AwaitEvents (Some snapshot)) c
    end
  | _ => c
  end.

(** [replayIntoState] once the history is there, and the end of [preStart]'s
    [try] when somebody still waits for it. *)
Definition finishReplay b (history : ReplayHistory U Q) (sequenceNr : Z) c : PersistentActor :=
  match foldReplayHistory (initialState b) (onEvent b) (decodeE b) (decodeS b) history with
  | Err fault => replayFails b fault c
  | Ok r =>
    let c := set_state (result_state r) sequenceNr c in
    if gaveUp c then at_stage Ended c
    else at_stage AwaitComplete (emit (OnRecoveryComplete (_state c)) (recovered c))
  end.

Definition onEvents b (events : list (PersistentEvent U)) c : PersistentActor :=
  match stage c with
  | AwaitEvents snapshot =>
    match assertTrustworthyHistory events (fromSequenceNr snapshot) None false with
    | Err fault => replayFails b fault c
    | Ok _ =>
      let history := assembleHistory snapshot events in
      if bool_decide (history_seq history = Num 0) then at_stage (AwaitProbe history) c
      else finishReplay b history (value_of (history_seq history)) c
    end
  | _ => c
  end.

Definition onProbe b (highest : Z) c : PersistentActor :=
  match stage c with AwaitProbe history => finishReplay b history highest c | _ => c end.

Definition replaying (s : Stage) : bool :=
  match s with AwaitSnapshot | AwaitHead _ | AwaitEvents _ | AwaitProbe _ => true | _ => false end.

(** The deadline of [withRecoveryDeadline]; what it gives up on runs on. *)
Definition onRecoveryDeadline b c : PersistentActor :=
  if replaying (stage c) && negb (gaveUp c) then recoveryFailure b RecoveryTimeoutError (set_gaveUp c) else c.

Definition onRecoveryCompleted (ok : bool) c : PersistentActor :=
  let c := at_stage Ended (emit UnstashAll c) in
  if ok then c else emit InitializationFailed c.

(** ** The lease, the end *)

Definition onLost b c : PersistentActor :=
  let c := emit OnLeaseLost (set_lease (_lease c) false (_leaseUnsubscribeLost c) c) in
  if stopsOnLeaseLost b then emit StopSelf c else c.

Definition postStop c : PersistentActor :=
  let held := _lease c && _isLeaseHolder c in
  let c := set_lease false (_isLeaseHolder c) false c in
  if held then emit ReleaseLease c else c.

(** ** Commands and persisting *)

Definition onReceive (command : Command) c : PersistentActor :=
  if _recovering c || _persisting c then emit (Stashed command) c else emit (OnCommand (_state c) command) c.

(** What a call of [persistAll] waits for next. *)
Inductive Next :=
| AwaitAppend (entries : list (JournalEntry U)) (expectedSeq : Z)
| AwaitSave (seq : Z) (wire : Q)
| AwaitCallback
| Returned.

Definition persistFinally c : PersistentActor := emit UnstashAll (set_persisting false c).
Definition persistThrows (error : PersistError) c : PersistentActor := emit (PersistThrew error) (persistFinally c).

Definition persistAll b (events : list E) c : PersistentActor * Next :=
  if decide (events = []) then (emit (AfterPersist (_state c)) c, Returned)
  else if _lease c && negb (_isLeaseHolder c) then (emit (PersistThrew NotLeaseHolder) c, Returned)
  else
    let c := set_persisting true c in
    match mapM (entryOf b) events with
    | None => (persistThrows EncodingThrew c, Returned)
    | Some entries => (c, AwaitAppend entries (_seq c))
    end.

Definition onSecondWriterDetected c : PersistentActor :=
  emit StopSelf (set_lease (_lease c) false (_leaseUnsubscribeLost c) c).

(** [saveSnapshotNow] up to the store's [save]. *)
Definition saveSnapshotNow b c : option (Z * Q) :=
  state ← _state c; wire ← encodeS b state; Some (_seq c, wire).

(** The loop over what was written: [false] when a hook threw on the way. *)
Fixpoint applyWritten b (written : list (PersistentEvent U)) (events : list E) (shouldSnapshot : bool) c :
    PersistentActor * bool * bool :=
  match written, events with
  | pe :: written, domainEvent :: events =>
    match _state c ≫= λ state, onEvent b state domainEvent with
    | None => (c, shouldSnapshot, false)
    | Some state =>
      let seq := value_of (sequenceNr pe) in
      applyWritten b written events (shouldSnapshot || snapshotPolicy b seq state domainEvent) (set_state state seq c)
    end
  | _, _ => (c, shouldSnapshot, true)
  end.

Definition afterPersist c : PersistentActor * Next := (emit (AfterPersist (_state c)) c, AwaitCallback).

(** [persistAll] after the append: [None] is a refusal that is not a lost
    race. *)
Definition onAppended b (events : list E) (answer : option (result JournalFault (list (PersistentEvent U)))) c : PersistentActor * Next :=
  match answer with
  | Some (Err (JournalConcurrencyError expected actual)) =>
    (persistThrows (LostAppend expected actual) (onSecondWriterDetected c), Returned)
  | None | Some (Err _) => (persistThrows StoreRefused c, Returned)
  | Some (Ok written) =>
    let '(c, shouldSnapshot, completed) := applyWritten b written events false c in
    if negb completed then (persistThrows FoldThrew c, Returned)
    else if shouldSnapshot then
      match saveSnapshotNow b c with
      | None => (persistThrows EncodingThrew c, Returned)
      | Some (seq, wire) => (c, AwaitSave seq wire)
      end
    else afterPersist c
  end.

Definition onSaved (ok : bool) c : PersistentActor * Next :=
  if ok then afterPersist c else (persistThrows SnapshotNotSaved c, Returned).

Definition onCallbackDone (ok : bool) c : PersistentActor :=
  if ok then persistFinally c else persistThrows CallbackThrew c.

End actor.

Arguments Behavior : clear implicits.
Arguments Effect : clear implicits.
Arguments Stage : clear implicits.
Arguments PersistentActor : clear implicits.
Arguments Next : clear implicits.

(** ** Instances, stores and calls under way *)

(** A call of [persistAll]. *)
Inductive Progress (U : Type) :=
| InFlight
| Answered (answer : result JournalFault (list (PersistentEvent U)))
| Abandoned
| Saving (save : nat)
| InCallback
| Over.
Arguments InFlight {U}. Arguments Answered {U}. Arguments Abandoned {U}. Arguments Saving {U}.
Arguments InCallback {U}. Arguments Over {U}.

Record PersistCall (E U : Type) := mkCall {
  caller : nat;
  batch : list E;
  call_entries : list (JournalEntry U);
  call_expected : Z;
  progress : Progress U;
}.
Arguments mkCall {E U}. Arguments caller {E U}. Arguments batch {E U}. Arguments call_entries {E U}.
Arguments call_expected {E U}. Arguments progress {E U}.

Record SaveCall (Q : Type) := mkSave { save_seq : Z; save_wire : Q; landed : bool }.
Arguments mkSave {Q}. Arguments save_seq {Q}. Arguments save_wire {Q}. Arguments landed {Q}.

(** A call of [deleteHistory]: which of its two deletions comes next. *)
Inductive DeletionStage := SnapshotsFirst | EventsNext | Deleted.

(** [log] is every event ever written, and [blank_starts] the heads that a
    recovery resumed from after it had found neither snapshot nor event; only
    theorems read the two. *)
Record World (Command E S U Q J T : Type) := mkWorld {
  journal : J;
  store : T;
  actors : list (PersistentActor Command S U Q);
  calls : list (PersistCall E U);
  saves : list (SaveCall Q);
  deletions : list (Z * DeletionStage);
  log : list E;
  blank_starts : list nat;
}.
Arguments mkWorld {Command E S U Q J T}. Arguments journal {Command E S U Q J T}. Arguments store {Command E S U Q J T}.
Arguments actors {Command E S U Q J T}. Arguments calls {Command E S U Q J T}. Arguments saves {Command E S U Q J T}.
Arguments deletions {Command E S U Q J T}. Arguments log {Command E S U Q J T}. Arguments blank_starts {Command E S U Q J T}.

Section world.
Context {Command E S U Q J T : Type} `{Journal J U} `{SnapshotStore T Q}.
Context (b : Behavior E S U Q).

#[local] Abbreviation PersistentActor := (PersistentActor Command S U Q).
#[local] Abbreviation World := (World Command E S U Q J T).

Implicit Types (w : World) (c : PersistentActor) (i k : nat).

Definition with_actors (l : list PersistentActor) w : World :=
  mkWorld (journal w) (store w) l (calls w) (saves w) (deletions w) (log w) (blank_starts w).
Definition with_calls (l : list (PersistCall E U)) w : World :=
  mkWorld (journal w) (store w) (actors w) l (saves w) (deletions w) (log w) (blank_starts w).
Definition with_saves (l : list (SaveCall Q)) w : World :=
  mkWorld (journal w) (store w) (actors w) (calls w) l (deletions w) (log w) (blank_starts w).
Definition with_deletions (l : list (Z * DeletionStage)) w : World :=
  mkWorld (journal w) (store w) (actors w) (calls w) (saves w) l (log w) (blank_starts w).
Definition with_journal (j : J) w : World :=
  mkWorld j (store w) (actors w) (calls w) (saves w) (deletions w) (log w) (blank_starts w).
Definition with_store (t : T) w : World :=
  mkWorld (journal w) t (actors w) (calls w) (saves w) (deletions w) (log w) (blank_starts w).
Definition written_to_log (events : list E) w : World :=
  mkWorld (journal w) (store w) (actors w) (calls w) (saves w) (deletions w) (log w ++ events) (blank_starts w).
Definition note_blank_start (n : nat) w : World :=
  mkWorld (journal w) (store w) (actors w) (calls w) (saves w) (deletions w) (log w) (n :: blank_starts w).

Definition on_actor i (f : PersistentActor → PersistentActor) w : World := with_actors (alter f i (actors w)) w.

Definition set_progress k (p : Progress U) w : World :=
  with_calls (alter (λ x, mkCall (caller x) (batch x) (call_entries x) (call_expected x) p) k (calls w)) w.

Inductive Event :=
| Start
| LeaseAnswered i (got : option bool)
| PermitGranted i
| SnapshotAnswered i
| SnapshotFailed i (fault : ReplayFault)
| HeadAnswered i
| EventsAnswered i
| ProbeAnswered i
| JournalFailed i
| DeadlinePassed i
| RecoveryCompleted i (ok : bool)
| Received i (command : Command)
| Persist i (events : list E)
| AppendLands k (now : Z)
| AppendAnswered k
| AppendFails k
| SaveSnapshot i
| SaveLands (save : nat) (now : Z)
| SaveAnswered k
| SaveFails k
| CallbackDone k (ok : bool)
| DeleteHistory i (toSeq : Z)
| SnapshotsDeleted (deletion : nat)
| EventsDeleted (deletion : nat)
| LeaseLost i
| PostStopped i.

(** A handler that runs while instance [i] waits for this very answer. *)
Definition when_at i (waits : Stage U Q → bool) (f : PersistentActor → PersistentActor) w : World :=
  match actors w !! i with
  | Some c => if waits (stage c) then on_actor i f w else w
  | None => w
  end.

(** The code of a subclass runs on a recovered state. *)
Definition when_recovered i (f : PersistentActor → World) w : World :=
  match actors w !! i with Some c => if _recovering c then w else f c | None => w end.

(** The rest of a [persistAll] that knows what it waits for. *)
Definition proceed k i (step : PersistentActor * Next U Q) w : World :=
  let '(c, next) := step in
  let w := on_actor i (λ _, c) w in
  match next with
  | AwaitSave seq wire =>
    set_progress k (Saving (length (saves w))) (with_saves (saves w ++ [mkSave seq wire false]) w)
  | AwaitCallback => set_progress k InCallback w
  | AwaitAppend _ _ | Returned => set_progress k Over w
  end.

(** The continuation of call [k], when it is where [waits] says. *)
Definition resume k (waits : PersistCall E U → PersistentActor → option (PersistentActor * Next U Q)) w : World :=
  match calls w !! k with
  | Some x => match actors w !! caller x with
              | Some c => match waits x c with Some step => proceed k (caller x) step w | None => w end
              | None => w
              end
  | None => w
  end.

Definition persist i (events : list E) w : World :=
  when_recovered i (λ c,
    let '(c, next) := persistAll b events c in
    let w := on_actor i (λ _, c) w in
    match next with
    | AwaitAppend entries expectedSeq => with_calls (calls w ++ [mkCall i events entries expectedSeq InFlight]) w
    | _ => w
    end) w.

(** An append takes effect, or is refused, in the journal. *)
Definition append_lands k (now : Z) w : World :=
  match calls w !! k with
  | Some x =>
    let waiting := match progress x with InFlight => true | _ => false end in
    if match progress x with InFlight | Abandoned => true | _ => false end then
      match journal_append now (journal w) (persistenceId b) (call_entries x) (call_expected x) with
      | Ok (j, written) =>
        set_progress k (if waiting then Answered (Ok written) else Over) (written_to_log (batch x) (with_journal j w))
      | Err fault => set_progress k (if waiting then Answered (Err fault) else Over) w
      end
    else w
  | None => w
  end.

Definition save_lands n (now : Z) w : World :=
  match saves w !! n with
  | Some x =>
    if landed x then w else
    match snapshot_save now (store w) (persistenceId b) (save_seq x) (save_wire x) with
    | Some (t, _) => with_saves (<[n := mkSave (save_seq x) (save_wire x) true]> (saves w)) (with_store t w)
    | None => w
    end
  | None => w
  end.

Definition deletion_step n (at_events : bool) w : World :=
  match deletions w !! n, at_events with
  | Some (toSeq, SnapshotsFirst), false =>
    with_deletions (<[n := (toSeq, EventsNext)]> (deletions w))
      (with_store (snapshot_delete (store w) (persistenceId b) (toSeq - 1)) w)
  | Some (toSeq, EventsNext), true =>
    with_deletions (<[n := (toSeq, Deleted)]> (deletions w))
      (with_journal (journal_delete (journal w) (persistenceId b) toSeq) w)
  | _, _ => w
  end.

Definition deleteHistory i (toSeq : Z) w : World :=
  when_recovered i (λ _, if toSeq <=? 0 then w else with_deletions (deletions w ++ [(toSeq, SnapshotsFirst)]) w) w.

(** The probe finds a head that the replay saw nothing of. *)
Definition probe i w : World :=
  let head := journal_highestSeq (journal w) (persistenceId b) in
  let w' := when_at i (λ s, match s with AwaitProbe _ => true | _ => false end) (onProbe b head) w in
  match actors w !! i with
  | Some c => match stage c with
              | AwaitProbe _ => if 0 <? head then note_blank_start (Z.to_nat head) w' else w'
              | _ => w'
              end
  | None => w'
  end.

Definition step w (e : Event) : World :=
  match e with
  | Start => with_actors (actors w ++ [preStart b construct]) w
  | LeaseAnswered i got => when_at i (λ s, match s with AwaitLease => true | _ => false end) (onLeaseAcquired got) w
  | PermitGranted i => when_at i (λ s, match s with AwaitPermit => true | _ => false end) onPermit w
  | SnapshotAnswered i =>
    when_at i (λ s, match s with AwaitSnapshot => true | _ => false end)
      (onSnapshotLoaded b (Ok (snapshot_loadLatest (store w) (persistenceId b)))) w
  | SnapshotFailed i fault =>
    when_at i (λ s, match s with AwaitSnapshot => true | _ => false end) (onSnapshotLoaded b (Err fault)) w
  | HeadAnswered i => when_at i (λ _, true) (onHead b (journal_highestSeq (journal w) (persistenceId b))) w
  | EventsAnswered i =>
    match actors w !! i with
    | Some c => match stage c with
                | AwaitEvents snapshot =>
                  on_actor i (onEvents b (journal_read (journal w) (persistenceId b) (fromSequenceNr snapshot + 1) None)) w
                | _ => w
                end
    | None => w
    end
  | ProbeAnswered i => probe i w
  | JournalFailed i =>
    when_at i (λ s, match s with AwaitHead _ | AwaitEvents _ | AwaitProbe _ => true | _ => false end) (replayFails b StoreError) w
  | DeadlinePassed i => when_at i (λ _, true) (onRecoveryDeadline b) w
  | RecoveryCompleted i ok => when_at i (λ s, match s with AwaitComplete => true | _ => false end) (onRecoveryCompleted ok) w
  | Received i command => on_actor i (onReceive command) w
  | Persist i events => persist i events w
  | AppendLands k now => append_lands k now w
  | AppendAnswered k =>
    resume k (λ x c, match progress x with Answered answer => Some (onAppended b (batch x) (Some answer) c) | _ => None end) w
  | AppendFails k =>
    match calls w !! k with
    | Some x =>
      match progress x with
      | InFlight => set_progress k Abandoned (resume k (λ x c, Some (onAppended b (batch x) None c)) w)
      | Answered _ => resume k (λ x c, Some (onAppended b (batch x) None c)) w
      | _ => w
      end
    | None => w
    end
  | SaveSnapshot i =>
    when_recovered i (λ c, match saveSnapshotNow b c with
      | Some (seq, wire) => with_saves (saves w ++ [mkSave seq wire false]) w
      | None => w
      end) w
  | SaveLands n now => save_lands n now w
  | SaveAnswered k =>
    resume k (λ x c, match progress x with
      | Saving n => if default false (landed <$> saves w !! n) then Some (onSaved true c) else None
      | _ => None
      end) w
  | SaveFails k => resume k (λ x c, match progress x with Saving _ => Some (onSaved false c) | _ => None end) w
  | CallbackDone k ok =>
    resume k (λ x c, match progress x with InCallback => Some (onCallbackDone ok c, Returned) | _ => None end) w
  | DeleteHistory i toSeq => deleteHistory i toSeq w
  | SnapshotsDeleted n => deletion_step n false w
  | EventsDeleted n => deletion_step n true w
  | LeaseLost i =>
    match actors w !! i with Some c => if _leaseUnsubscribeLost c then on_actor i (onLost b) w else w | None => w end
  | PostStopped i => on_actor i postStop w
  end.

Definition start (j : J) (t : T) : World := mkWorld j t [] [] [] [] [] [].

Definition run (j : J) (t : T) (events : list Event) : World := foldl step (start j t) events.

End world.
Arguments Event : clear implicits.
