(* ===== verification/PersistentActorTheorems.v ===== *)
(** * Recovered states, and who may write

    Over every interleaving of any number of instances of one persistent
    actor: the state an instance works on is the fold of the events that were
    written, and an append is accepted only from an instance that has seen all
    of them.  At the end, runs of a concrete actor. *)

From Stdlib Require Import Ascii String.
From S2P Require Import Prelude BidirectionalMap Journal JournalTheorems Replay ReplayTheorems PersistentActor.

Local Open Scope Z_scope.

(** What goes into a store through the adapters and the payload codec comes
    out as it was. *)
Class Codec {E S U Q} (b : Behavior E S U Q) (storedU : U → option U) (storedQ : Q → option Q) := {
  event_codec e entry u : entryOf b e = Some entry → storedU (entry_event entry) = Some u → decodeE b u = Some e;
  state_codec s wire q : encodeS b s = Some wire → storedQ wire = Some q → decodeS b q = Some s;
}.

Section world.
Context {Command E S U Q J T : Type}.
Context `{JournalLaws J U storedU} `{SnapshotLaws T Q storedQ} (b : Behavior E S U Q) `{!Codec b storedU storedQ}.

#[local] Abbreviation PersistentActor := (PersistentActor Command S U Q).
#[local] Abbreviation World := (World Command E S U Q J T).
#[local] Abbreviation step := (step (Command := Command) b).

Implicit Types (w : World) (c : PersistentActor) (i k n : nat) (s : S).

(** ** The invariant *)

(** [s] is the state after the first [n] events, counted from an origin. *)
Definition good w n s : Prop :=
  ∃ k, k ∈ 0%nat :: blank_starts w ∧ (k ≤ n ≤ length (log w))%nat ∧
    foldAll (onEvent b) (initialState b) (drop k (take n (log w))) = Some s.

Definition row_ok w (r : Snapshot Q) : Prop :=
  ∃ n s, snapshot_seq r = Num (Z.of_nat n) ∧ decodeS b (snapshot_state r) = Some s ∧ good w n s.

Definition stage_ok w (st : Stage U Q) : Prop :=
  match st with
  | AwaitHead r | AwaitEvents (Some r) => row_ok w r
  | AwaitProbe h => history_events h = [] ∧ history_seq h = Num 0 ∧
      ∀ r, history_snapshot h = Some r → row_ok w r ∧ snapshot_seq r = Num 0
  | _ => True
  end.

Definition unfinished (st : Stage U Q) : bool := match st with AwaitComplete | Ended => false | _ => true end.

Definition actor_ok w c : Prop :=
  (∀ s, _state c = Some s → ∃ n, _seq c = Z.of_nat n ∧ good w n s) ∧
  stage_ok w (stage c) ∧ (_recovering c = false → is_Some (_state c)) ∧ (unfinished (stage c) = true → _recovering c = true).

Definition journal_ok w : Prop :=
  ∃ compacted wire, keeps (journal w) (persistenceId b) compacted wire ∧ Forall2 (λ u e, decodeE b u = Some e) wire (log w).

Definition store_ok w : Prop :=
  orderly (store w) (persistenceId b) ∧ ∀ r, r ∈ rows (store w) (persistenceId b) → row_ok w r.

Definition save_ok w (x : SaveCall Q) : Prop :=
  ∃ n s, save_seq x = Z.of_nat n ∧ encodeS b s = Some (save_wire x) ∧ good w n s.

Definition accepted (x : PersistCall E U) : bool := match progress x with Answered (Ok _) => true | _ => false end.

Definition call_ok w (x : PersistCall E U) : Prop :=
  ∃ c, actors w !! caller x = Some c ∧ _recovering c = false ∧ mapM (entryOf b) (batch x) = Some (call_entries x) ∧ batch x ≠ [] ∧
  match progress x with
  | InFlight | Abandoned => call_expected x ≤ _seq c
  | Answered (Ok written) => ∃ n, _seq c = Z.of_nat n ∧ (n + length (batch x) ≤ length (log w))%nat ∧
      take (length (batch x)) (drop n (log w)) = batch x ∧ stamped <$> written = numbered n (entry_event <$> call_entries x)
  | _ => True
  end.

Record world_ok w : Prop := {
  ok_journal : journal_ok w;
  ok_store : store_ok w;
  ok_saves x : x ∈ saves w → save_ok w x;
  ok_actors i c : actors w !! i = Some c → actor_ok w c;
  ok_calls k x : calls w !! k = Some x → call_ok w x;
  ok_unique k x k' x' : calls w !! k = Some x → calls w !! k' = Some x' → accepted x = true → accepted x' = true →
    caller x = caller x' → k = k';
}.

(** ** More events, more origins *)

Definition grows w w' : Prop := log w `prefix_of` log w' ∧ blank_starts w ⊆ blank_starts w'.

Lemma good_grows w w' n s : grows w w' → good w n s → good w' n s.
Proof.
  intros [[l Hl] Hb] (k & Hk & Hn & Hf). exists k. split_and!; [|lia|rewrite Hl, length_app; lia|].
  - apply elem_of_cons in Hk as [->|Hk]; [by left|right; by apply Hb].
  - by rewrite Hl, take_app_le by lia.
Qed.

Lemma row_grows w w' r : grows w w' → row_ok w r → row_ok w' r.
Proof. intros Hg (n & s & Hn & Hs & Hgood). exists n, s. split_and!; [done..|by eapply good_grows]. Qed.

Lemma stage_grows w w' st : grows w w' → stage_ok w st → stage_ok w' st.
Proof.
  intros Hg. destruct st as [| | | |r|[r|]|h| |]; cbn; try done; try by apply row_grows.
  intros (H1' & H2' & Hr). split_and!; [done..|]. intros r Hsn. destruct (Hr r Hsn). split; [by eapply row_grows|done].
Qed.

Lemma actor_grows w w' c : grows w w' → actor_ok w c → actor_ok w' c.
Proof.
  intros Hg (H1' & H2' & H3 & H4). split_and!; [|by eapply stage_grows|done|done].
  intros s Hs. destruct (H1' s Hs) as (n & Hn & Hgood). exists n. split; [done|by eapply good_grows].
Qed.

Lemma save_grows w w' x : grows w w' → save_ok w x → save_ok w' x.
Proof. intros Hg (n & s & Hn & Hs & Hgood). exists n, s. split_and!; [done..|by eapply good_grows]. Qed.

Lemma call_grows w w' x : grows w w' → actors w' = actors w → call_ok w x → call_ok w' x.
Proof.
  intros [[l Hl] Hb] Ha (c & Hc & Hr & Hm & Hne & Hp). exists c. rewrite Ha. split_and!; try done.
  destruct (progress x) as [|[written|]| | | |]; try done. destruct Hp as (n & Hn & Hlen & Ht & Hw). exists n.
  split_and!; [done|rewrite Hl, length_app; lia| |done]. rewrite Hl, drop_app_le by lia. rewrite take_app_le; [done|]. rewrite length_drop. lia.
Qed.

Lemma grows_refl w w' : log w' = log w → blank_starts w' = blank_starts w → grows w w'.
Proof. intros Hl Hb. split; [by rewrite Hl|by rewrite Hb]. Qed.

(** The parts of a world that an instance's own state is judged by. *)
Lemma world_ok_frame w w' : world_ok w → grows w w' → actors w' = actors w → calls w' = calls w →
  journal_ok w' → store_ok w' → (∀ x, x ∈ saves w' → save_ok w' x) → world_ok w'.
Proof.
  intros Hw Hg Ha Hc Hj Hs Hv. split; [done..| | |].
  - intros i c. rewrite Ha. intros Hi. eapply actor_grows; [done|by eapply ok_actors].
  - intros k x. rewrite Hc. intros Hk. eapply call_grows; [done..|by eapply ok_calls].
  - rewrite Hc. by apply ok_unique.
Qed.

Lemma store_grows w w' : grows w w' → store w' = store w → store_ok w → store_ok w'.
Proof. intros Hg Hs [Ho Hr]. split; rewrite Hs; [done|]. intros r Hin. by eapply row_grows, Hr. Qed.

Lemma saves_grow w w' : grows w w' → saves w' = saves w → (∀ x, x ∈ saves w → save_ok w x) → ∀ x, x ∈ saves w' → save_ok w' x.
Proof. intros Hg Hs Hall x. rewrite Hs. intros Hx. by eapply save_grows, Hall. Qed.

Lemma seq_within w i c : world_ok w → actors w !! i = Some c → _recovering c = false →
  ∃ n s, _seq c = Z.of_nat n ∧ _state c = Some s ∧ good w n s.
Proof.
  intros Hw Hi Hr. destruct (ok_actors w Hw i c Hi) as (H1' & _ & H3 & _). destruct (H3 Hr) as [s Hs].
  destruct (H1' s Hs) as (n & Hn & Hg). by exists n, s.
Qed.

(** ** One instance moves *)

Definition keeps_calls c c' : Prop := _recovering c = false → _recovering c' = false ∧ _seq c' = _seq c.

Lemma ok_actor_moves w i c c' : world_ok w → actors w !! i = Some c → actor_ok w c' → keeps_calls c c' →
  world_ok (with_actors (<[i := c']> (actors w)) w).
Proof.
  intros Hw Hi Hc' Hk. set (w' := with_actors _ _). assert (grows w w') as Hg by by apply grows_refl.
  assert (i < length (actors w))%nat as Hlt by by eapply lookup_lt_Some. split.
  - apply Hw.
  - eapply store_grows; [done..|apply Hw].
  - eapply saves_grow; [done..|apply Hw].
  - intros j d Hj. cbn in Hj. eapply actor_grows; [done|]. apply list_lookup_insert_Some in Hj as [(-> & <- & _)|(_ & Hj)]; [done|].
    by eapply ok_actors.
  - intros k x Hx. destruct (ok_calls w Hw k x Hx) as (d & Hd & Hr & Hm & Hne & Hp). destruct (decide (caller x = i)) as [<-|Hne'].
    + rewrite Hi in Hd. injection Hd as <-. destruct (Hk Hr) as [Hr' Hs']. exists c'. cbn. rewrite list_lookup_insert_eq by done.
      split_and!; try done. destruct (progress x) as [|[written|]| | | |]; try done; by rewrite Hs'.
    + exists d. cbn. rewrite list_lookup_insert_ne by done. done.
  - apply Hw.
Qed.

Lemma on_actor_insert w i f c : actors w !! i = Some c → on_actor i f w = with_actors (<[i := f c]> (actors w)) w.
Proof. intros Hi. unfold on_actor. f_equal. by apply alter_Some. Qed.

Lemma on_actor_none w i f : actors w !! i = None → on_actor i f w = w.
Proof.
  intros Hi. unfold on_actor. rewrite alter_None by done. by destruct w.
Qed.

(** ** A call of [persistAll] goes on *)

Definition resumed w k (x : PersistCall E U) c' (p : Progress U) (sv : list (SaveCall Q)) : World :=
  mkWorld (journal w) (store w) (<[caller x := c']> (actors w))
    (<[k := mkCall (caller x) (batch x) (call_entries x) (call_expected x) p]> (calls w)) sv (deletions w) (log w) (blank_starts w).

Lemma ok_resumed w k x c c' p sv : world_ok w → calls w !! k = Some x → actors w !! caller x = Some c →
  actor_ok w c' → _recovering c' = false → (accepted x = true ∨ _seq c' = _seq c) → _seq c ≤ _seq c' →
  match p with InFlight | Answered _ => False | Abandoned => call_expected x ≤ _seq c' | _ => True end →
  (∀ y, y ∈ sv → save_ok w y) → world_ok (resumed w k x c' p sv).
Proof.
  intros Hw Hx Hc Hc' Hr' Hacc Hle Hp Hsv. set (w' := resumed _ _ _ _ _ _). assert (grows w w') as Hg by by apply grows_refl.
  assert (caller x < length (actors w))%nat as Hlt by by eapply lookup_lt_Some.
  assert (Hbelow : ∀ k' y, k' ≠ k → calls w !! k' = Some y → caller y = caller x → accepted y = true → _seq c' = _seq c).
  { intros k' y Hk Hy Heq Hay. destruct Hacc as [Hacc|?]; [|done]. destruct Hk. by eapply (ok_unique w Hw). }
  split.
  - apply Hw.
  - eapply store_grows; [done..|apply Hw].
  - intros y Hy. eapply save_grows; [done|by apply Hsv].
  - intros j d Hj. cbn in Hj. eapply actor_grows; [done|]. apply list_lookup_insert_Some in Hj as [(_ & <- & _)|(_ & Hj)]; [done|].
    by eapply ok_actors.
  - intros k' y Hy. cbn in Hy. apply list_lookup_insert_Some in Hy as [(-> & <- & _)|(Hne & Hy)].
    + destruct (ok_calls w Hw _ x Hx) as (d & _ & _ & Hm & Hne & _). exists c'. cbn. rewrite list_lookup_insert_eq by done.
      split_and!; try done. by destruct p as [|[]| | | |].
    + destruct (ok_calls w Hw k' y Hy) as (d & Hd & Hr & Hm & Hnb & Hpy). destruct (decide (caller y = caller x)) as [Heq|Hne'].
      * rewrite Heq, Hc in Hd. injection Hd as <-. exists c'. cbn. rewrite Heq, list_lookup_insert_eq by done. split_and!; try done.
        destruct (progress y) as [|[written|]| | | |] eqn:Hpr; try done; try lia.
        rewrite (Hbelow k' y); [done..|]. unfold accepted. by rewrite Hpr.
      * exists d. cbn. by rewrite list_lookup_insert_ne.
  - intros k1 x1 k2 x2 Hx1 Hx2 Ha1 Ha2 Heq. cbn in Hx1, Hx2.
    assert (Hno : accepted (mkCall (caller x) (batch x) (call_entries x) (call_expected x) p) = false) by (unfold accepted; by destruct p).
    apply list_lookup_insert_Some in Hx1 as [(-> & <- & _)|(_ & Hx1)]; [congruence|].
    apply list_lookup_insert_Some in Hx2 as [(-> & <- & _)|(_ & Hx2)]; [congruence|]. by eapply (ok_unique w Hw).
Qed.

Lemma set_progress_insert w k x p : calls w !! k = Some x →
  set_progress k p w = with_calls (<[k := mkCall (caller x) (batch x) (call_entries x) (call_expected x) p]> (calls w)) w.
Proof. intros Hx. unfold set_progress. f_equal. exact (alter_Some _ _ _ _ Hx). Qed.

Lemma proceed_resumed w k x c c' next : calls w !! k = Some x → actors w !! caller x = Some c →
  proceed k (caller x) (c', next) w =
  match next with
  | AwaitSave seq wire => resumed w k x c' (Saving (length (saves w))) (saves w ++ [mkSave seq wire false])
  | AwaitCallback => resumed w k x c' InCallback (saves w)
  | AwaitAppend _ _ | Returned => resumed w k x c' Over (saves w)
  end.
Proof.
  intros Hx Hc. unfold proceed. rewrite (on_actor_insert _ _ _ _ Hc).
  destruct next; unfold resumed; cbn; by erewrite set_progress_insert.
Qed.

Lemma ok_proceed w k x c c' next : world_ok w → calls w !! k = Some x → actors w !! caller x = Some c →
  actor_ok w c' → _recovering c' = false → (accepted x = true ∨ _seq c' = _seq c) → _seq c ≤ _seq c' →
  (∀ seq wire, next = AwaitSave seq wire → save_ok w (mkSave seq wire false)) →
  world_ok (proceed k (caller x) (c', next) w).
Proof.
  intros Hw Hx Hc Hc' Hr' Hacc Hle Hnext. rewrite (proceed_resumed w k x c c' next Hx Hc).
  destruct next as [| seq wire| |]; eapply ok_resumed; try done; try apply Hw.
  intros y [Hy|Hy]%elem_of_app; [by apply Hw|]. apply list_elem_of_singleton in Hy as ->. by apply Hnext.
Qed.

(** ** The handlers of one instance *)

(** Nothing that the invariant judges has changed. *)
Definition same_core c c' : Prop :=
  _state c' = _state c ∧ _seq c' = _seq c ∧ _recovering c' = _recovering c ∧ stage c' = stage c.

Lemma same_core_ok w c c' : same_core c c' → actor_ok w c → actor_ok w c' ∧ keeps_calls c c'.
Proof.
  intros (H1' & H2' & H3 & H4) (Ha & Hb & Hc & Hd). split; [|by intros Hr; rewrite H3, H2'].
  unfold actor_ok. by rewrite H1', H2', H3, H4.
Qed.

(** Only what [preStart] waits for has changed, to something that holds. *)
Lemma stage_moves w c c' : actor_ok w c → _state c' = _state c → _seq c' = _seq c → _recovering c' = _recovering c →
  stage_ok w (stage c') → (unfinished (stage c') = true → _recovering c = true) → actor_ok w c' ∧ keeps_calls c c'.
Proof.
  intros (Ha & Hb & Hc & Hd) H1' H2' H3 H4 H5. split; [|by intros Hr; rewrite H3, H2'].
  unfold actor_ok. rewrite H1', H2', H3. done.
Qed.

Definition moves w c c' : Prop := actor_ok w c' ∧ keeps_calls c c'.

Lemma moves_replayFails w c fault : actor_ok w c → moves w c (replayFails b fault c).
Proof.
  intros Hc. unfold replayFails, recoveryFailure. cbn [gaveUp at_stage].
  destruct (gaveUp c), (swallowsRecoveryFailure b); by apply (stage_moves w c).
Qed.

Lemma moves_onLeaseAcquired w c got : actor_ok w c → stage c = AwaitLease → moves w c (onLeaseAcquired got c).
Proof.
  intros Hc Hst. assert (_recovering c = true) as Hr by (apply Hc; by rewrite Hst).
  destruct got as [[]|]; by apply (stage_moves w c).
Qed.

Lemma moves_onPermit w c : actor_ok w c → stage c = AwaitPermit → moves w c (onPermit c).
Proof. intros Hc Hst. assert (_recovering c = true) as Hr by (apply Hc; by rewrite Hst). by apply (stage_moves w c). Qed.

Lemma moves_onSnapshotLoaded w c load : actor_ok w c → stage c = AwaitSnapshot →
  (∀ r, load = Ok (Some r) → row_ok w r) → moves w c (onSnapshotLoaded b load c).
Proof.
  intros Hc Hst Hrow. assert (_recovering c = true) as Hr by (apply Hc; by rewrite Hst). unfold onSnapshotLoaded.
  destruct (loadSnapshotOrNull _ _ _) as [[r|]|] eqn:Hl.
  - assert (load = Ok (Some r)) as Hload.
    { revert Hl. unfold loadSnapshotOrNull. destruct (negb _); [done|]. by destruct load as [|[]]. }
    destruct (_ || _); [by apply moves_replayFails|]. apply (stage_moves w c); try done. by apply Hrow.
  - by apply (stage_moves w c).
  - by apply moves_replayFails.
Qed.

Lemma moves_onHead w c highest : actor_ok w c → moves w c (onHead b highest c).
Proof.
  intros Hc. unfold onHead. destruct (stage c) eqn:Hst; try by apply same_core_ok.
  assert (_recovering c = true) as Hr by (apply Hc; by rewrite Hst).
  destruct (assertTrustworthySnapshot _ _); [|by apply moves_replayFails].
  apply (stage_moves w c); try done. cbn. destruct Hc as (_ & Hs & _). by rewrite Hst in Hs.
Qed.

Lemma moves_finishReplay w c history (seq : Z) : actor_ok w c → unfinished (stage c) = true →
  (∀ r, foldReplayHistory (initialState b) (onEvent b) (decodeE b) (decodeS b) history = Ok r →
     ∃ n, seq = Z.of_nat n ∧ good w n (result_state r)) →
  moves w c (finishReplay b history seq c).
Proof.
  intros Hc Hu Hgood. assert (_recovering c = true) as Hr by (by apply Hc). unfold finishReplay.
  destruct (foldReplayHistory _ _ _ _ _) as [r|] eqn:Hf; [|by apply moves_replayFails].
  split; [|intros Hr'; congruence]. cbn [gaveUp set_state]. destruct (gaveUp c); split_and!; cbn; try done; intros ? [= <-]; by apply Hgood.
Qed.

(** What follows a good state is good. *)
Lemma good_extends w n m s s' : good w n s → (n ≤ m ≤ length (log w))%nat →
  foldAll (onEvent b) s (drop n (take m (log w))) = Some s' → good w m s'.
Proof.
  intros (k & Hk & Hn & Hf) Hm Hs. exists k. split_and!; [done|lia|lia|].
  rewrite <- (take_drop n (take m (log w))), take_take, Nat.min_l, drop_app_le by (rewrite ?length_take; lia).
  rewrite foldAll_app, Hf. exact Hs.
Qed.

Lemma good_init w : good w 0 (initialState b).
Proof. exists 0%nat. split_and!; [by left|lia|lia|done]. Qed.

Lemma row_start w snapshot : (∀ r, snapshot = Some r → row_ok w r) → ∃ n s, starts_at (log w) snapshot n ∧
  match snapshot with None => Some (initialState b) | Some r => decodeS b (snapshot_state r) end = Some s ∧ good w n s.
Proof.
  destruct snapshot as [r|]; intros Hr.
  - destruct (Hr r eq_refl) as (n & s & Hn & Hs & Hg). exists n, s. split_and!; [|done|done]. split; [done|].
    destruct Hg as (k & _ & Hk & _). lia.
  - exists 0%nat, (initialState b). split_and!; [done|done|apply good_init].
Qed.

Lemma moves_onEvents w c snapshot : world_ok w → actor_ok w c → stage c = AwaitEvents snapshot →
  moves w c (onEvents b (journal_read (journal w) (persistenceId b) (fromSequenceNr snapshot + 1) None) c).
Proof.
  intros Hw Hc Hst. assert (_recovering c = true) as Hr by (apply Hc; by rewrite Hst). unfold onEvents. rewrite Hst.
  set (events := journal_read _ _ _ _). destruct (assertTrustworthyHistory _ _ _ _) eqn:Ht; [|by apply moves_replayFails].
  assert (Hrow : ∀ r, snapshot = Some r → row_ok w r).
  { intros r ->. destruct Hc as (_ & Hs & _). by rewrite Hst in Hs. }
  destruct (ok_journal w Hw) as (compacted & wire & Hk & Hwire). destruct (row_start w snapshot Hrow) as (n & s & Hn & Hs & Hg).
  destruct (read_contiguous (decodeE b) (journal w) (persistenceId b) compacted wire (log w) Hk Hwire snapshot n None Hn) as (m & Hm & He & _).
  { by destruct a. }
  change (stamped <$> events = numbered n (drop n (take m wire))) in He.
  pose proof (history_seq_slice (log w) snapshot n events _ Hn He) as Hseq.
  assert (n + length (drop n (take m wire)) = m)%nat as Hmm.
  { rewrite length_drop, length_take, (Forall2_length _ _ _ Hwire). lia. }
  rewrite Hmm in Hseq. case_bool_decide as Hz.
  - apply (stage_moves w c); try done. cbn. rewrite Hz in Hseq. injection Hseq as Hm0. assert (m = 0%nat) as -> by lia.
    assert (n = 0%nat) as -> by lia. split_and!; [|done|].
    + by destruct events.
    + intros r ->. split; [by apply Hrow|]. by destruct Hn.
  - apply moves_finishReplay; [done|by rewrite Hst|]. rewrite Hseq. intros r Hf. exists m. split; [done|].
    rewrite (fold_from (initialState b) (onEvent b) (decodeE b) (decodeS b) wire (log w) Hwire snapshot n s m events Hn Hm Hs He) in Hf.
    destruct (foldAll _ _ _) as [s'|] eqn:Hfold; [|done]. injection Hf as <-. by eapply good_extends.
Qed.

(** A history with nothing in it folds to the initial state. *)
Lemma empty_history w h r : stage_ok w (AwaitProbe h) →
  foldReplayHistory (initialState b) (onEvent b) (decodeE b) (decodeS b) h = Ok r → result_state r = initialState b.
Proof.
  intros (He & _ & Hr). unfold foldReplayHistory. rewrite He. destruct (history_snapshot h) as [row|]; cbn; [|by intros [= <-]].
  destruct (Hr row eq_refl) as [(n & s & Hn & Hs & k & _ & Hk & Hf) Hz]. rewrite Hs. cbn. intros [= <-]. cbn.
  rewrite Hn in Hz. injection Hz as Hz. assert (n = 0%nat) as -> by lia. rewrite take_0, drop_nil in Hf. by injection Hf.
Qed.

Lemma moves_onProbe w c h n : actor_ok w c → stage c = AwaitProbe h → good w n (initialState b) →
  moves w c (onProbe b (Z.of_nat n) c).
Proof.
  intros Hc Hst Hg. unfold onProbe. rewrite Hst. apply moves_finishReplay; [done|by rewrite Hst|].
  intros r Hf. exists n. split; [done|]. destruct Hc as (_ & Hs & _). rewrite Hst in Hs. by rewrite (empty_history w h r Hs Hf).
Qed.

Lemma moves_onRecoveryDeadline w c : actor_ok w c → moves w c (onRecoveryDeadline b c).
Proof.
  intros Hc. unfold onRecoveryDeadline, recoveryFailure. destruct (_ && _); [|by apply same_core_ok].
  destruct (swallowsRecoveryFailure b); by apply same_core_ok.
Qed.

Lemma moves_onRecoveryCompleted w c ok : actor_ok w c → moves w c (onRecoveryCompleted ok c).
Proof. intros Hc. destruct ok; by apply (stage_moves w c). Qed.

Lemma moves_onReceive w c command : actor_ok w c → moves w c (onReceive command c).
Proof. intros Hc. unfold onReceive. destruct (_ || _); by apply same_core_ok. Qed.

Lemma moves_onLost w c : actor_ok w c → moves w c (onLost b c).
Proof. intros Hc. unfold onLost. destruct (stopsOnLeaseLost b); by apply same_core_ok. Qed.

Lemma moves_postStop w c : actor_ok w c → moves w c (postStop c).
Proof. intros Hc. unfold postStop. destruct (_ && _); by apply same_core_ok. Qed.

Lemma moves_preStart w : actor_ok w (preStart (Command := Command) b construct).
Proof.
  unfold preStart. destruct (assertValidPersistenceId _); [|by split_and!].
  destruct (negb _); [by split_and!|]. destruct (withLease b); by split_and!.
Qed.

Lemma moves_persistAll w c events c' next : actor_ok w c → persistAll b events c = (c', next) →
  moves w c c' ∧ (∀ entries expected, next = AwaitAppend entries expected →
    mapM (entryOf b) events = Some entries ∧ events ≠ [] ∧ expected = _seq c').
Proof.
  intros Hc. unfold persistAll. destruct (decide (events = [])) as [->|Hne].
  { intros [= <- <-]. split; [by apply same_core_ok|done]. }
  destruct (_ && _). { intros [= <- <-]. split; [by apply same_core_ok|done]. }
  destruct (mapM _ _) as [entries|] eqn:Hm; intros [= <- <-]; (split; [by apply same_core_ok|]); [|done].
  intros ? ? [= <- <-]. done.
Qed.

(** ** What was written is applied *)

Lemma applyWritten_ok w n written us events flag c c' flag' completed :
  applyWritten b written events flag c = (c', flag', completed) → actor_ok w c → _recovering c = false → _seq c = Z.of_nat n →
  stamped <$> written = numbered n us → (n + length events ≤ length (log w))%nat → take (length events) (drop n (log w)) = events →
  actor_ok w c' ∧ _recovering c' = false ∧ _seq c ≤ _seq c'.
Proof.
  revert n us events flag c. induction written as [|pe written IH]; intros n us events flag c Ha Hc Hr Hn Hst Hlen Hev.
  { cbn in Ha. injection Ha as <- _ _. done. }
  destruct events as [|e events]; cbn in Ha; [injection Ha as <- _ _; done|].
  destruct us as [|u us]; [done|]. injection Hst as Hseq _ Hst.
  destruct (_state c ≫= _) as [state|] eqn:Hstate; [|injection Ha as <- _ _; done].
  destruct (_state c) as [s|] eqn:Hs; [|done]. cbn in Hstate.
  assert (drop n (log w) = e :: drop (Datatypes.S n) (log w)) as Hdrop.
  { cbn in Hev. destruct (drop n (log w)) as [|e' l] eqn:Hd; [done|]. injection Hev as -> _. f_equal.
    rewrite <- Nat.add_1_r, <- drop_drop, Hd. done. }
  assert (good w (Datatypes.S n) state) as Hg.
  { destruct Hc as (H1' & _). destruct (H1' s Hs) as (n' & Hn' & Hgood). assert (n' = n) as -> by lia.
    eapply good_extends; [exact Hgood|cbn in Hlen; lia|]. rewrite <- Nat.add_1_r, <- take_drop_commute, Hdrop. cbn. by rewrite Hstate. }
  rewrite Hseq in Ha. cbn [value_of] in Ha. replace (Z.of_nat n + 1) with (Z.of_nat (Datatypes.S n)) in Ha by lia.
  eapply (IH (Datatypes.S n)) in Ha as (Ha1 & Ha2 & Ha3).
  - split_and!; [done|done|cbn in Ha3; lia].
  - destruct Hc as (H1' & H2' & H3 & H4). split_and!; cbn; [|done|done|done]. intros ? [= <-]. by exists (Datatypes.S n).
  - done.
  - done.
  - exact Hst.
  - cbn in Hlen. lia.
  - rewrite Hdrop in Hev. cbn in Hev. by injection Hev.
Qed.

Lemma save_now_ok w c seq wire : actor_ok w c → saveSnapshotNow b c = Some (seq, wire) → save_ok w (mkSave seq wire false).
Proof.
  intros (H1' & _) Hs. unfold saveSnapshotNow in Hs. destruct (_state c) as [s|] eqn:Hst; [|done]. cbn in Hs.
  destruct (encodeS b s) as [q|] eqn:He; [|done]. injection Hs as <- <-. destruct (H1' s eq_refl) as (n & Hn & Hg). by exists n, s.
Qed.

(** The conclusion about a continuation that [ok_proceed] needs. *)
Definition goes_on w c (x : PersistCall E U) (r : PersistentActor * Next U Q) : Prop :=
  actor_ok w r.1 ∧ _recovering r.1 = false ∧ (accepted x = true ∨ _seq r.1 = _seq c) ∧ _seq c ≤ _seq r.1 ∧
  ∀ seq wire, r.2 = AwaitSave seq wire → save_ok w (mkSave seq wire false).

Lemma goes_on_same w c x c' next : same_core c c' → actor_ok w c → _recovering c = false →
  (∀ seq wire, next = AwaitSave seq wire → save_ok w (mkSave seq wire false)) → goes_on w c x (c', next).
Proof.
  intros Hsame Hc Hr Hnext. destruct (same_core_ok w c c' Hsame Hc) as [Hc' Hk]. destruct (Hk Hr) as [Hr' Hs'].
  split_and!; cbn; [done|done|by right|lia|done].
Qed.

Lemma goes_on_appended w c x answer : world_ok w → call_ok w x → actors w !! caller x = Some c → actor_ok w c →
  (answer = None ∨ ∃ a, progress x = Answered a ∧ answer = Some a) → goes_on w c x (onAppended b (batch x) answer c).
Proof.
  intros Hw Hx Hi Hc Hans. destruct Hx as (d & Hd & Hr & _ & _ & Hp). rewrite Hi in Hd. injection Hd as <-.
  destruct answer as [[written|fault]|].
  - destruct Hans as [|(a & Ha & [= <-])]; [done|]. rewrite Ha in Hp. destruct Hp as (n & Hn & Hlen & Hev & Hst).
    unfold onAppended. destruct (applyWritten b written (batch x) false c) as [[c' flag] completed] eqn:Hap.
    destruct (applyWritten_ok w n _ _ _ _ _ _ _ _ Hap Hc Hr Hn Hst Hlen Hev) as (Hc' & Hr' & Hle).
    assert (Hacc : accepted x = true) by (unfold accepted; by rewrite Ha).
    assert (Hfinal : ∀ c'' next, same_core c' c'' → (∀ seq wire, next = AwaitSave seq wire → save_ok w (mkSave seq wire false)) → goes_on w c x (c'', next)).
    { intros c'' next Hsame Hnext. destruct (same_core_ok w c' c'' Hsame Hc') as [Hc'' Hk]. destruct (Hk Hr') as [Hr'' Hs''].
      split_and!; cbn; [done|done|by left|lia|done]. }
    destruct (negb completed); [by apply Hfinal|]. destruct flag; [|by apply Hfinal].
    destruct (saveSnapshotNow b c') as [[seq wire]|] eqn:Hsv; [|by apply Hfinal].
    apply Hfinal; [done|]. intros ? ? [= <- <-]. by eapply save_now_ok.
  - destruct fault; by apply goes_on_same.
  - by apply goes_on_same.
Qed.

Lemma ok_resume w k waits : world_ok w →
  (∀ x c r, calls w !! k = Some x → actors w !! caller x = Some c → waits x c = Some r → goes_on w c x r) →
  world_ok (resume k waits w).
Proof.
  intros Hw Hwaits. unfold resume. destruct (calls w !! k) as [x|] eqn:Hx; [|done].
  destruct (actors w !! caller x) as [c|] eqn:Hc; [|done]. destruct (waits x c) as [[c' next]|] eqn:Hr; [|done].
  destruct (Hwaits x c (c', next) eq_refl Hc Hr) as (H1' & H2' & H3 & H4 & H5). by eapply ok_proceed.
Qed.

(** ** What takes effect in a store *)

Lemma codec_batch events entries payloads : mapM (entryOf b) events = Some entries →
  mapM (λ e, storedU (entry_event e)) entries = Some payloads → Forall2 (λ u e, decodeE b u = Some e) payloads events.
Proof.
  rewrite !mapM_Some. intros He. revert payloads. induction He as [|e entry events entries Hee _ IH]; intros payloads Hp.
  - inversion Hp; subst. constructor.
  - inversion Hp as [|? u ? us Hu Hus]; subst. constructor; [by eapply event_codec|by apply IH].
Qed.

(** An accepted append comes from an instance that stands at the head. *)
Lemma accepted_at_head w k now x j written : world_ok w → calls w !! k = Some x → progress x = InFlight ∨ progress x = Abandoned →
  journal_append now (journal w) (persistenceId b) (call_entries x) (call_expected x) = Ok (j, written) →
  ∃ c, actors w !! caller x = Some c ∧ _recovering c = false ∧ _seq c = Z.of_nat (length (log w)) ∧
    journal_ok (written_to_log (batch x) (with_journal j w)) ∧
    stamped <$> written = numbered (length (log w)) (entry_event <$> call_entries x).
Proof.
  intros Hw Hx Hp Ha. destruct (ok_calls w Hw k x Hx) as (c & Hc & Hr & Hm & Hne & Hprog).
  destruct (ok_journal w Hw) as (compacted & wire & Hk & Hwire).
  assert (call_entries x ≠ []) as Hne'.
  { intros Hnil. rewrite Hnil in Hm. apply mapM_Some in Hm. inversion Hm. congruence. }
  destruct (keeps_append _ _ _ _ _ _ _ _ _ Hk Hne' Ha) as (He & payloads & Hpay & Hk' & Hst).
  destruct (seq_within w _ c Hw Hc Hr) as (n & s & Hn & _ & (k0 & _ & Hk0 & _)).
  pose proof (Forall2_length _ _ _ Hwire) as Hlen. exists c. split_and!; [done|done| | |by rewrite <- Hlen].
  - destruct Hp as [Hp|Hp]; rewrite Hp in Hprog; lia.
  - exists compacted, (wire ++ payloads). split; [exact Hk'|]. apply Forall2_app; [done|]. by eapply codec_batch.
Qed.

Lemma ok_accepted w k x c j written p : world_ok w → calls w !! k = Some x → actors w !! caller x = Some c → _recovering c = false →
  _seq c = Z.of_nat (length (log w)) → journal_ok (written_to_log (batch x) (with_journal j w)) →
  stamped <$> written = numbered (length (log w)) (entry_event <$> call_entries x) → p = Answered (Ok written) ∨ p = Over →
  world_ok (set_progress k p (written_to_log (batch x) (with_journal j w))).
Proof.
  intros Hw Hx Hc Hr Hs Hj Hst Hp. set (w1 := written_to_log _ _).
  assert (grows w w1) as Hg by (split; [by eexists|done]). rewrite (set_progress_insert w1 k x p Hx). set (w2 := with_calls _ _).
  assert (Hold : ∀ k' y, calls w !! k' = Some y → call_ok w2 y).
  { intros k' y Hy. destruct (call_grows w w1 y Hg eq_refl (ok_calls w Hw k' y Hy)) as (d & Hd). by exists d. }
  assert (Hno : ∀ k' y, calls w !! k' = Some y → accepted y = true → caller y ≠ caller x).
  { intros k' y Hy Hay Heq. destruct (ok_calls w Hw k' y Hy) as (d & Hd & _ & _ & Hnb & Hpy). rewrite Heq, Hc in Hd. injection Hd as <-.
    unfold accepted in Hay. destruct (progress y) as [|[written'|]| | | |]; try done. destruct Hpy as (n & Hn & Hlen & _).
    destruct (batch y); [done|]. cbn in Hlen. lia. }
  split.
  - exact Hj.
  - apply (store_grows w w2 Hg eq_refl), Hw.
  - apply (saves_grow w w2 Hg eq_refl), Hw.
  - intros i d Hi. apply (actor_grows w w2 d Hg). by eapply (ok_actors w Hw).
  - intros k' y Hy. cbn in Hy. apply list_lookup_insert_Some in Hy as [(<- & <- & _)|(_ & Hy)]; [|by eapply Hold].
    destruct (ok_calls w Hw _ x Hx) as (d & Hd & _ & Hm & Hne & _). exists c. cbn. split_and!; try done.
    destruct Hp as [-> | ->]; [|done]. exists (length (log w)). rewrite length_app, drop_app_length, firstn_all. split_and!; done || lia.
  - intros k1 x1 k2 x2 Hx1 Hx2 Ha1 Ha2 Heq. cbn in Hx1, Hx2.
    apply list_lookup_insert_Some in Hx1 as [(<- & <- & _)|(_ & Hx1)]; apply list_lookup_insert_Some in Hx2 as [(<- & <- & _)|(_ & Hx2)].
    + done.
    + by destruct (Hno k2 x2 Hx2 Ha2).
    + by destruct (Hno k1 x1 Hx1 Ha1).
    + by eapply (ok_unique w Hw).
Qed.

Lemma ok_settled w k x p : world_ok w → calls w !! k = Some x →
  match p with InFlight | Answered (Ok _) => False | Abandoned => progress x = InFlight ∨ progress x = Abandoned | _ => True end →
  world_ok (set_progress k p w).
Proof.
  intros Hw Hx Hp. destruct (ok_calls w Hw k x Hx) as (c & Hc & Hr & Hm & Hne & Hprog).
  rewrite (set_progress_insert w k x p Hx). split; try apply Hw.
  - intros k' y Hy. cbn in Hy. apply list_lookup_insert_Some in Hy as [(<- & <- & _)|(_ & Hy)]; [|by apply (ok_calls w Hw k')].
    exists c. cbn. split_and!; try done. destruct p as [|[]| | | |]; try done. destruct Hp as [Hp|Hp]; by rewrite Hp in Hprog.
  - intros k1 x1 k2 x2 Hx1 Hx2 Ha1 Ha2 Heq. cbn in Hx1, Hx2.
    assert (Hno : accepted (mkCall (caller x) (batch x) (call_entries x) (call_expected x) p) = false) by (unfold accepted; by destruct p as [|[]| | | |]).
    apply list_lookup_insert_Some in Hx1 as [(<- & <- & _)|(_ & Hx1)]; [congruence|].
    apply list_lookup_insert_Some in Hx2 as [(<- & <- & _)|(_ & Hx2)]; [congruence|]. by eapply (ok_unique w Hw).
Qed.

Lemma ok_append_lands w k now : world_ok w → world_ok (append_lands b k now w).
Proof.
  intros Hw. unfold append_lands. destruct (calls w !! k) as [x|] eqn:Hx; [|done].
  destruct (match progress x with InFlight | Abandoned => true | _ => false end) eqn:Hp; [|done].
  assert (progress x = InFlight ∨ progress x = Abandoned) as Hprog by (destruct (progress x); auto; done).
  destruct (journal_append _ _ _ _ _) as [[j written]|fault] eqn:Ha.
  - destruct (accepted_at_head w k now x j written Hw Hx Hprog Ha) as (c & Hc & Hr & Hs & Hj & Hst).
    eapply ok_accepted; try done. destruct Hprog as [-> | ->]; auto.
  - apply (ok_settled w k x); [done..|]. by destruct Hprog as [-> | ->].
Qed.

Lemma ok_save_lands w n now : world_ok w → world_ok (save_lands b n now w).
Proof.
  intros Hw. unfold save_lands. destruct (saves w !! n) as [x|] eqn:Hx; [|done]. destruct (landed x); [done|].
  destruct (snapshot_save _ _ _ _ _) as [[t row]|] eqn:Hs; [|done].
  assert (save_ok w x) as (m & s & Hm & He & Hg) by (apply Hw; by eapply list_elem_of_lookup_2).
  destruct (ok_store w Hw) as [Ho Hrows]. set (w' := with_saves _ _). assert (grows w w') as Hgr by by apply grows_refl.
  eapply (world_ok_frame w w'); try done; [apply Hw| |].
  - split; [by eapply save_orderly|]. intros r Hr. destruct (save_rows _ _ _ _ _ _ _ Ho Hs) as (q & Hq & Hin).
    destruct (Hin r Hr) as [[Hold _]|[Hseq Hst]]; [by eapply row_grows, Hrows|].
    exists m, s. rewrite Hseq, Hm, Hst. split_and!; [done|by eapply state_codec|by eapply good_grows].
  - intros y Hy. cbn in Hy. apply list_elem_of_lookup in Hy as [j Hy].
    apply list_lookup_insert_Some in Hy as [(_ & <- & _)|(_ & Hy)].
    + exists m, s. split_and!; [done|done|by eapply good_grows].
    + eapply save_grows; [done|]. apply Hw. by eapply list_elem_of_lookup_2.
Qed.

Lemma ok_deletion_step w n at_events : world_ok w → world_ok (deletion_step b n at_events w).
Proof.
  intros Hw. unfold deletion_step. destruct (deletions w !! n) as [[toSeq []]|]; [destruct at_events; [done|]|destruct at_events; [|done]|done..].
  - set (w' := with_deletions _ _). assert (grows w w') as Hg by by apply grows_refl.
    eapply (world_ok_frame w w'); try done; [apply Hw| |eapply saves_grow; [done..|apply Hw]].
    destruct (ok_store w Hw) as [Ho Hrows]. split; [by apply delete_orderly|]. intros r Hr.
    apply delete_rows in Hr as [Hr _]; [|done]. by eapply row_grows, Hrows.
  - set (w' := with_deletions _ _). assert (grows w w') as Hg by by apply grows_refl.
    eapply (world_ok_frame w w'); try done; [|eapply store_grows; [done..|apply Hw]|eapply saves_grow; [done..|apply Hw]].
    destruct (ok_journal w Hw) as (compacted & wire & Hk & Hwire). eexists _, wire. split; [by apply keeps_delete|done].
Qed.

(** ** Every step *)

Lemma ok_when_at w i waits f : world_ok w →
  (∀ c, actors w !! i = Some c → actor_ok w c → waits (stage c) = true → moves w c (f c)) → world_ok (when_at i waits f w).
Proof.
  intros Hw Hf. unfold when_at. destruct (actors w !! i) as [c|] eqn:Hi; [|done]. destruct (waits (stage c)) eqn:Hst; [|done].
  rewrite (on_actor_insert _ _ _ _ Hi). destruct (Hf c eq_refl (ok_actors w Hw i c Hi) Hst) as [Hc Hk]. by eapply ok_actor_moves.
Qed.

Lemma ok_on_actor w i f : world_ok w → (∀ c, actor_ok w c → moves w c (f c)) → world_ok (on_actor i f w).
Proof.
  intros Hw Hf. destruct (actors w !! i) as [c|] eqn:Hi; [|by rewrite on_actor_none].
  rewrite (on_actor_insert _ _ _ _ Hi). destruct (Hf c (ok_actors w Hw i c Hi)) as [Hc Hk]. by eapply ok_actor_moves.
Qed.

Lemma ok_blank w n : world_ok w → world_ok (note_blank_start n w).
Proof.
  intros Hw. set (w' := note_blank_start n w). assert (grows w w') as Hg by (split; [done|intros k Hk; by right]).
  eapply (world_ok_frame w w'); try done; [apply Hw|eapply store_grows; [done..|apply Hw]|eapply saves_grow; [done..|apply Hw]].
Qed.

Lemma ok_probe w i : world_ok w → world_ok (probe b i w).
Proof.
  intros Hw. unfold probe. destruct (ok_journal w Hw) as (compacted & wire & Hk & Hwire).
  rewrite (keeps_highest _ _ _ _ Hk), (Forall2_length _ _ _ Hwire). set (n := length (log w)).
  destruct (actors w !! i) as [c|] eqn:Hi; [|by unfold when_at; rewrite Hi].
  destruct (stage c) as [| | | | | |h| |] eqn:Hst; try (by unfold when_at; rewrite Hi, Hst).
  assert (Hrun : ∀ w1, world_ok w1 → actors w1 !! i = Some c → good w1 n (initialState b) →
    world_ok (when_at i (λ st, match st with AwaitProbe _ => true | _ => false end) (onProbe b (Z.of_nat n)) w1)).
  { intros w1 Hw1 Hi1 Hg. apply ok_when_at; [done|]. intros d Hd Hdok _. rewrite Hi1 in Hd. injection Hd as <-.
    by eapply moves_onProbe. }
  destruct (Z.ltb_spec 0 (Z.of_nat n)) as [Hpos|Hzero].
  - assert (note_blank_start n (when_at i (λ st, match st with AwaitProbe _ => true | _ => false end) (onProbe b (Z.of_nat n)) w) =
      when_at i (λ st, match st with AwaitProbe _ => true | _ => false end) (onProbe b (Z.of_nat n)) (note_blank_start n w)) as Heq.
    { unfold when_at. cbn. rewrite Hi. by destruct (match stage c with AwaitProbe _ => true | _ => false end). }
    rewrite Nat2Z.id, Heq. apply Hrun; [by apply ok_blank|done|]. exists n. split_and!; [right; by left|done|done|].
    cbn. by rewrite drop_ge by (rewrite length_take; lia).
  - apply Hrun; [done|done|]. replace n with 0%nat by lia. apply good_init.
Qed.

Lemma ok_persist w i events : world_ok w → world_ok (persist b i events w).
Proof.
  intros Hw. unfold persist, when_recovered. destruct (actors w !! i) as [c|] eqn:Hi; [|done].
  destruct (_recovering c) eqn:Hr; [done|]. destruct (persistAll b events c) as [c' next] eqn:Hp.
  destruct (moves_persistAll w c events c' next (ok_actors w Hw i c Hi) Hp) as [[Hc' Hk] Happ].
  rewrite (on_actor_insert _ _ _ _ Hi). set (w1 := with_actors _ w).
  assert (world_ok w1) as Hw1 by (by eapply ok_actor_moves). destruct next as [entries expected| | |]; try done.
  destruct (Happ entries expected eq_refl) as (Hm & Hne & He). destruct (Hk Hr) as [Hr' _].
  assert (i < length (actors w))%nat as Hlt by by eapply lookup_lt_Some.
  split; try apply Hw1.
  - intros k x Hx. cbn in Hx. apply lookup_app_Some in Hx as [Hx|[_ Hx]]; [by apply (ok_calls w1 Hw1 k)|].
    apply list_lookup_singleton_Some in Hx as [_ <-]. exists c'. cbn. rewrite list_lookup_insert_eq by done. split_and!; try done. lia.
  - intros k1 x1 k2 x2 Hx1 Hx2 Ha1 Ha2 Heq. cbn in Hx1, Hx2.
    apply lookup_app_Some in Hx1 as [Hx1|[_ Hx1]]; [|apply list_lookup_singleton_Some in Hx1 as [_ <-]; done].
    apply lookup_app_Some in Hx2 as [Hx2|[_ Hx2]]; [|apply list_lookup_singleton_Some in Hx2 as [_ <-]; done].
    by eapply (ok_unique w1 Hw1).
Qed.

Lemma ok_append_fails w k : world_ok w → world_ok (step w (AppendFails k)).
Proof.
  intros Hw. cbn. destruct (calls w !! k) as [x|] eqn:Hx; [|done].
  assert (Hres : ∀ w1, world_ok w1 → calls w1 !! k = Some x → world_ok (resume k (λ x c, Some (onAppended b (batch x) None c)) w1)).
  { intros w1 Hw1 Hx1. apply ok_resume; [done|]. intros y c r Hy Hc [= <-]. rewrite Hx1 in Hy. injection Hy as <-.
    apply (goes_on_appended w1 c x None); [done|by apply (ok_calls w1 Hw1 k)|done|by eapply ok_actors|by left]. }
  destruct (progress x) eqn:Hp; try done; [|by apply Hres].
  destruct (ok_calls w Hw k x Hx) as (c & Hc & Hr & Hm & Hne & Hprog). rewrite Hp in Hprog.
  unfold resume. rewrite Hx, Hc. set (c' := persistThrows StoreRefused c).
  assert (moves w c c') as [Hc' Hk] by (apply same_core_ok; [done|by eapply ok_actors]). destruct (Hk Hr) as [Hr' Hs'].
  change (onAppended b (batch x) None c) with (c', @Returned U Q). rewrite (proceed_resumed w k x c c' Returned Hx Hc).
  assert (set_progress k Abandoned (resumed w k x c' Over (saves w)) = resumed w k x c' Abandoned (saves w)) as ->.
  { assert (k < length (calls w))%nat by (by eapply lookup_lt_Some).
    erewrite (set_progress_insert _ k); [|cbn; by rewrite list_lookup_insert_eq]. unfold resumed. cbn.
    by rewrite list_insert_insert_eq. }
  eapply ok_resumed; try done; [by right|apply Hw].
Qed.

Lemma ok_step w e : world_ok w → world_ok (step w e).
Proof.
  intros Hw. destruct e as [|i got|i|i|i fault|i|i|i|i|i|i ok|i command|i events|k now|k|k|i|n now|k|k|k ok|i toSeq|n|n|i|i].
  - cbn. split; try apply Hw.
    + intros j c Hj. cbn in Hj. apply lookup_app_Some in Hj as [Hj|[_ Hj]]; [by apply (ok_actors w Hw j)|].
      apply list_lookup_singleton_Some in Hj as [_ <-]. apply moves_preStart.
    + intros k x Hx. destruct (ok_calls w Hw k x Hx) as (c & Hc & Hrest). exists c. cbn. split; [|done].
      rewrite lookup_app_l; [done|by eapply lookup_lt_Some].
  - apply ok_when_at; [done|]. intros c _ Hc Hst. apply moves_onLeaseAcquired; [done|]. by destruct (stage c).
  - apply ok_when_at; [done|]. intros c _ Hc Hst. apply moves_onPermit; [done|]. by destruct (stage c).
  - apply ok_when_at; [done|]. intros c _ Hc Hst. apply moves_onSnapshotLoaded; [done|by destruct (stage c)|].
    intros r [= Hr]. destruct (ok_store w Hw) as [Ho Hrows]. pose proof (loadLatest_newest _ _ Ho) as Hl. rewrite Hr in Hl.
    by apply Hrows, Hl.
  - apply ok_when_at; [done|]. intros c _ Hc Hst. apply moves_onSnapshotLoaded; [done|by destruct (stage c)|done].
  - apply ok_when_at; [done|]. intros c _ Hc Hst. by apply moves_onHead.
  - cbn. destruct (actors w !! i) as [c|] eqn:Hi; [|done]. destruct (stage c) eqn:Hst; try done.
    rewrite (on_actor_insert _ _ _ _ Hi).
    destruct (moves_onEvents w c snapshot Hw (ok_actors w Hw i c Hi) Hst) as [Hc Hk]. by eapply ok_actor_moves.
  - by apply ok_probe.
  - apply ok_when_at; [done|]. intros c _ Hc _. by apply moves_replayFails.
  - apply ok_when_at; [done|]. intros c _ Hc _. by apply moves_onRecoveryDeadline.
  - apply ok_when_at; [done|]. intros c _ Hc _. by apply moves_onRecoveryCompleted.
  - apply ok_on_actor; [done|]. intros c Hc. by apply moves_onReceive.
  - by apply ok_persist.
  - by apply ok_append_lands.
  - apply ok_resume; [done|]. intros x c r Hx Hc Hr. destruct (progress x) as [|a| | | |] eqn:Hp; try done.
    assert (r = onAppended b (batch x) (Some a) c) as -> by congruence.
    apply goes_on_appended; [done|by apply (ok_calls w Hw k)|done|by eapply ok_actors|]. right. by exists a.
  - by apply ok_append_fails.
  - cbn. unfold when_recovered. destruct (actors w !! i) as [c|] eqn:Hi; [|done]. destruct (_recovering c); [done|].
    destruct (saveSnapshotNow b c) as [[seq wire]|] eqn:Hs; [|done]. set (w' := with_saves _ w).
    assert (grows w w') as Hg by by apply grows_refl.
    eapply (world_ok_frame w w'); try done; [apply Hw|apply Hw|].
    intros x [Hx|Hx]%elem_of_app; [by apply Hw|]. apply list_elem_of_singleton in Hx as ->.
    eapply save_now_ok; [by eapply (ok_actors w Hw)|done].
  - by apply ok_save_lands.
  - apply ok_resume; [done|]. intros x c r Hx Hc Hr. destruct (progress x) eqn:Hp; try done. destruct (default _ _); [|done].
    injection Hr as <-. destruct (ok_calls w Hw k x Hx) as (d & Hd & Hrec & _). rewrite Hc in Hd. injection Hd as <-.
    apply goes_on_same; [done|by eapply ok_actors|done|done].
  - apply ok_resume; [done|]. intros x c r Hx Hc Hr. destruct (progress x) eqn:Hp; try done.
    injection Hr as <-. destruct (ok_calls w Hw k x Hx) as (d & Hd & Hrec & _). rewrite Hc in Hd. injection Hd as <-.
    apply goes_on_same; [done|by eapply ok_actors|done|done].
  - apply ok_resume; [done|]. intros x c r Hx Hc Hr. destruct (progress x) eqn:Hp; try done.
    injection Hr as <-. destruct (ok_calls w Hw k x Hx) as (d & Hd & Hrec & _). rewrite Hc in Hd. injection Hd as <-.
    destruct ok; (apply goes_on_same; [done|by eapply ok_actors|done|done]).
  - cbn. unfold deleteHistory, when_recovered. destruct (actors w !! i) as [c|]; [|done]. destruct (_recovering c); [done|].
    destruct (_ <=? _); [done|]. set (w' := with_deletions _ w). assert (grows w w') as Hg by by apply grows_refl.
    eapply (world_ok_frame w w'); try done; apply Hw.
  - by apply ok_deletion_step.
  - by apply ok_deletion_step.
  - cbn. destruct (actors w !! i) as [c|]; [|done]. destruct (_leaseUnsubscribeLost c); [|done].
    apply ok_on_actor; [done|]. intros d Hd. by apply moves_onLost.
  - apply ok_on_actor; [done|]. intros c Hc. by apply moves_postStop.
Qed.

End world.

Section runs.
Context {Command E S U Q J T : Type}.
Context `{JournalLaws J U storedU} `{SnapshotLaws T Q storedQ} (b : Behavior E S U Q) `{!Codec b storedU storedQ}.
Context (j : J) (t : T).

(** Stores that hold nothing under the id of the actor. *)
Context (Hj : keeps j (persistenceId b) 0 []) (Ho : orderly t (persistenceId b)) (Ht : rows t (persistenceId b) = []).

#[local] Abbreviation run := (run (Command := Command) b j t).

Lemma run_ok events : world_ok b (run events).
Proof.
  unfold run. assert (world_ok b (start (Command := Command) (E := E) j t)) as Hstart.
  { split; cbn; try done.
    - exists 0%nat, []. split; [exact Hj|constructor].
    - split; [exact Ho|]. intros r Hr. change (r ∈ rows t (persistenceId b)) in Hr. rewrite Ht in Hr. by apply elem_of_nil in Hr.
    - intros x Hx. by apply elem_of_nil in Hx. }
  revert Hstart. generalize (start (Command := Command) (E := E) (U := U) (S := S) (Q := Q) j t).
  induction events as [|e events IH]; intros w Hw; [done|]. apply IH. by apply ok_step.
Qed.

(** C4. However the instances of a persistence id, their snapshots, deletions,
    late answers and failures interleave: the state of every instance, and of
    every stored snapshot, is the fold of the events up to its sequence
    number, from the first one on, or from a point at which some recovery
    found neither a snapshot nor an event behind a head above zero. *)
Theorem recovered_state_is_the_history events :
  let w := run events in
  let history k n s := k ∈ 0%nat :: blank_starts w ∧ (k ≤ n ≤ length (log w))%nat ∧
    foldAll (onEvent b) (initialState b) (drop k (take n (log w))) = Some s in
  (∀ i c s, actors w !! i = Some c → _state c = Some s → ∃ k n, _seq c = Z.of_nat n ∧ history k n s) ∧
  (∀ r, r ∈ rows (store w) (persistenceId b) → ∃ k n s, snapshot_seq r = Num (Z.of_nat n) ∧ decodeS b (snapshot_state r) = Some s ∧ history k n s).
Proof.
  cbv zeta. pose proof (run_ok events) as Hw. split.
  - intros i c s Hi Hs. destruct (ok_actors b _ Hw i c Hi) as (Hstate & _). destruct (Hstate s Hs) as (n & Hn & k & Hg). by exists k, n.
  - intros r Hr. destruct (ok_store b _ Hw) as [_ Hrows]. destruct (Hrows r Hr) as (n & s & Hn & Hs & k & Hg). by exists k, n, s.
Qed.

(** C12. An append that the journal accepts was asked for by an instance that
    stands at the head of the log, and whose state is the fold of every event
    written so far, as long as no recovery found neither a snapshot nor an event
    behind a head above zero; where one did, the state is the fold of every
    event, or of every one since such a recovery ([blank_starts]), which is
    what [probe_hides_the_events_of_a_rival] comes from. *)
Theorem accepted_writer_has_seen_everything events k now :
  let w := run events in
  log (step b w (AppendLands k now)) ≠ log w →
  ∃ x c s o, calls w !! k = Some x ∧ log (step b w (AppendLands k now)) = log w ++ batch x ∧
    actors w !! caller x = Some c ∧ _seq c = Z.of_nat (length (log w)) ∧ _state c = Some s ∧
    o ∈ 0%nat :: blank_starts w ∧ foldAll (onEvent b) (initialState b) (drop o (log w)) = Some s ∧
    (blank_starts w = [] → foldAll (onEvent b) (initialState b) (log w) = Some s).
Proof.
  cbv zeta. pose proof (run_ok events) as Hw. set (w := run events) in *. cbn [step]. unfold append_lands.
  destruct (calls w !! k) as [x|] eqn:Hx; [|done].
  destruct (match progress x with InFlight | Abandoned => true | _ => false end) eqn:Hp; [|done].
  assert (progress x = InFlight ∨ progress x = Abandoned) as Hprog by (destruct (progress x); auto; done).
  destruct (journal_append _ _ _ _ _) as [[j' written]|fault] eqn:Ha; [|done]. intros _.
  destruct (accepted_at_head b w k now x j' written Hw Hx Hprog Ha) as (c & Hc & Hr & Hs & _).
  destruct (seq_within b w _ c Hw Hc Hr) as (n & s & Hn & Hst & o & Ho' & Hle & Hf).
  assert (n = length (log w)) as -> by lia. rewrite firstn_all in Hf.
  exists x, c, s, o. split_and!; try done. intros Hblank. rewrite Hblank in Ho'.
  by apply list_elem_of_singleton in Ho' as ->.
Qed.

End runs.

(** ** A recovery is a replay *)

Section recovery.
Context {Command E S U Q J T : Type} `{Journal J U} `{SnapshotStore T Q} (b : Behavior E S U Q).

Implicit Types (w : World Command E S U Q J T) (c : PersistentActor Command S U Q).

(** The four answers, as they change one instance. *)
Definition answered_events w c : PersistentActor Command S U Q :=
  match stage c with
  | AwaitEvents snapshot => onEvents b (journal_read (journal w) (persistenceId b) (fromSequenceNr snapshot + 1) None) c
  | _ => c
  end.

Definition four_answers w c : PersistentActor Command S U Q :=
  onProbe b (journal_highestSeq (journal w) (persistenceId b))
    (answered_events w
      (onHead b (journal_highestSeq (journal w) (persistenceId b))
        (onSnapshotLoaded b (Ok (snapshot_loadLatest (store w) (persistenceId b))) c))).

(** What a handler of instance [i] leaves as it was. *)
Definition touches_only i c' w w' : Prop := actors w' !! i = Some c' ∧ journal w' = journal w ∧ store w' = store w.

Lemma touches_when_at w i c (waits : Stage U Q → bool) f : actors w !! i = Some c → (waits (stage c) = false → f c = c) →
  touches_only i (f c) w (when_at i waits f w).
Proof.
  intros Hi Hf. unfold when_at. rewrite Hi. destruct (waits (stage c)).
  - split_and!; [|done|done]. unfold on_actor. cbn. by rewrite list_lookup_alter_eq, Hi.
  - split_and!; [|done|done]. by rewrite Hf.
Qed.

Lemma touches_events w i c : actors w !! i = Some c → touches_only i (answered_events w c) w (step b w (EventsAnswered i)).
Proof.
  intros Hi. cbn. rewrite Hi. unfold answered_events. destruct (stage c); try (by split_and!).
  split_and!; [|done|done]. unfold on_actor. cbn. by rewrite list_lookup_alter_eq, Hi.
Qed.

Lemma touches_probe w i c : actors w !! i = Some c →
  touches_only i (onProbe b (journal_highestSeq (journal w) (persistenceId b)) c) w (step b w (ProbeAnswered i)).
Proof.
  intros Hi. cbn. unfold probe. rewrite Hi.
  assert (Hw : touches_only i (onProbe b (journal_highestSeq (journal w) (persistenceId b)) c) w
    (when_at i (λ st, match st with AwaitProbe _ => true | _ => false end) (onProbe b (journal_highestSeq (journal w) (persistenceId b))) w)).
  { apply touches_when_at; [done|]. unfold onProbe. by destruct (stage c). }
  destruct (stage c); try exact Hw. by destruct (_ <? _).
Qed.

Lemma four_steps w i c : actors w !! i = Some c → stage c = AwaitSnapshot →
  actors (foldl (step b) w [SnapshotAnswered i; HeadAnswered i; EventsAnswered i; ProbeAnswered i]) !! i = Some (four_answers w c).
Proof.
  intros Hi Hst. cbn [foldl].
  destruct (touches_when_at w i c (λ st, match st with AwaitSnapshot => true | _ => false end)
    (onSnapshotLoaded b (Ok (snapshot_loadLatest (store w) (persistenceId b)))) Hi) as (Hi1 & Hj1 & Hs1); [by rewrite Hst|].
  change (when_at i _ _ w) with (step b w (SnapshotAnswered i)) in *. set (w1 := step b w (SnapshotAnswered i)) in *.
  destruct (touches_when_at w1 i _ (λ _, true) (onHead b (journal_highestSeq (journal w1) (persistenceId b))) Hi1) as (Hi2 & Hj2 & Hs2); [done|].
  change (when_at i _ _ w1) with (step b w1 (HeadAnswered i)) in *. set (w2 := step b w1 (HeadAnswered i)) in *.
  destruct (touches_events w2 i _ Hi2) as (Hi3 & Hj3 & Hs3). set (w3 := step b w2 (EventsAnswered i)) in *.
  destruct (touches_probe w3 i _ Hi3) as (Hi4 & _ & _). rewrite Hi4. unfold four_answers, answered_events.
  by rewrite Hj3, Hj2, Hj1.
Qed.

(** A replay that fails while somebody waits for it. *)
Lemma fails_loudly fault c : gaveUp c = false →
  let c' := replayFails b fault c in
  stage c' = Ended ∧ _state c' = _state c ∧ RecoveryFailure (ReplayFailed fault) ∈ effects c'.
Proof.
  intros Hg. unfold replayFails, recoveryFailure. cbn [gaveUp at_stage]. rewrite Hg.
  destruct (swallowsRecoveryFailure b); cbn; (split_and!; [done|done|]); apply elem_of_app; left; apply elem_of_app; right; by left.
Qed.

Lemma finish_either history seq c : gaveUp c = false →
  let c' := finishReplay b history seq c in
  match foldReplayHistory (initialState b) (onEvent b) (decodeE b) (decodeS b) history with
  | Ok r => stage c' = AwaitComplete ∧ _state c' = Some (result_state r) ∧ _recovering c' = false ∧ _seq c' = seq
  | Err fault => stage c' = Ended ∧ _state c' = _state c ∧ RecoveryFailure (ReplayFailed fault) ∈ effects c'
  end.
Proof.
  intros Hg. cbv zeta. unfold finishReplay. destruct (foldReplayHistory _ _ _ _ _); [|by apply fails_loudly].
  cbn [gaveUp set_state]. rewrite Hg. done.
Qed.

Lemma onProbe_ended highest c : match stage c with AwaitProbe _ => False | _ => True end → onProbe b highest c = c.
Proof. unfold onProbe. by destruct (stage c). Qed.

(** From the answer of the journal on. *)
Lemma events_then_probe w c snapshot highest : gaveUp c = false → stage c = AwaitEvents snapshot →
  let events := journal_read (journal w) (persistenceId b) (fromSequenceNr snapshot + 1) None in
  let c' := onProbe b highest (answered_events w c) in
  match (assertTrustworthyHistory events (fromSequenceNr snapshot) None false;; Ok (assembleHistory snapshot events)) ≫=
        foldReplayHistory (initialState b) (onEvent b) (decodeE b) (decodeS b) with
  | Ok r => stage c' = AwaitComplete ∧ _state c' = Some (result_state r) ∧ _recovering c' = false ∧
      _seq c' = (if bool_decide (result_seq r = Num 0) then highest else value_of (result_seq r))
  | Err fault => stage c' = Ended ∧ _state c' = _state c ∧ RecoveryFailure (ReplayFailed fault) ∈ effects c'
  end.
Proof.
  intros Hg Hst. cbv zeta. unfold answered_events, onEvents. rewrite Hst. set (events := journal_read _ _ _ _).
  destruct (assertTrustworthyHistory _ _ _ _) as [|fault]; cbn [mbind result_bind].
  2: { destruct (fails_loudly fault c Hg) as (H1 & H2 & H3). rewrite onProbe_ended by (by rewrite H1). done. }
  set (history := assembleHistory snapshot events).
  assert (Hseq : ∀ r, foldReplayHistory (initialState b) (onEvent b) (decodeE b) (decodeS b) history = Ok r → result_seq r = history_seq history).
  { intros r. unfold foldReplayHistory. intros Hr. unbind. by subst. }
  case_bool_decide as Hz.
  - unfold onProbe. cbn [stage at_stage]. pose proof (finish_either history highest (at_stage (AwaitProbe history) c) Hg) as Hf. cbv zeta in Hf.
    destruct (foldReplayHistory _ _ _ _ _) as [r|fault]; [|exact Hf]. rewrite (Hseq r eq_refl), bool_decide_eq_true_2 by done. exact Hf.
  - pose proof (finish_either history (value_of (history_seq history)) c Hg) as Hf. cbv zeta in Hf.
    destruct (foldReplayHistory _ _ _ _ _) as [r|fault].
    + destruct Hf as (H1 & H2 & H3 & H4). rewrite onProbe_ended by (by rewrite H1).
      rewrite (Hseq r eq_refl), bool_decide_eq_false_2 by done. done.
    + destruct Hf as (H1 & H2 & H3). rewrite onProbe_ended by (by rewrite H1). done.
Qed.

(** C25. A recovery that nobody disturbs is the replay that the time-travel panel
    runs, [replayState]: four answers of the stores bring the instance to the
    state of the replay and to its sequence number - to the journal's head
    where the replay found nothing - or to the failure of the replay. *)
Theorem undisturbed_recovery_is_replayState w i c : actors w !! i = Some c → stage c = AwaitSnapshot → gaveUp c = false →
  ∃ c', actors (foldl (step b) w [SnapshotAnswered i; HeadAnswered i; EventsAnswered i; ProbeAnswered i]) !! i = Some c' ∧
  match replayState (initialState b) (onEvent b) (decodeE b) (decodeS b) (journal w) (Some (store w)) (persistenceId b) None false with
  | Ok r => stage c' = AwaitComplete ∧ _state c' = Some (result_state r) ∧ _recovering c' = false ∧
      _seq c' = (if bool_decide (result_seq r = Num 0) then journal_highestSeq (journal w) (persistenceId b) else value_of (result_seq r))
  | Err fault => stage c' = Ended ∧ _state c' = _state c ∧ RecoveryFailure (ReplayFailed fault) ∈ effects c'
  end.
Proof.
  intros Hi Hst Hg. exists (four_answers w c). split; [by apply four_steps|]. unfold four_answers, replayState, readReplayHistory.
  cbn [loadReplaySnapshot]. set (highest := journal_highestSeq _ _).
  assert (Hload : ∀ r, loadSnapshotOrNull (A := Snapshot Q) (Ok r) (snapshotIsOptional b) (protection b) = Ok r).
  { intros r. unfold loadSnapshotOrNull. by destruct (negb _). }
  unfold onSnapshotLoaded. rewrite Hload. destruct (snapshot_loadLatest _ _) as [snapshot|]; cbn [checkSnapshot].
  2: { pose proof (events_then_probe w (at_stage (AwaitEvents None) c) None highest Hg eq_refl) as Hf. exact Hf. }
  assert (Hfail : ∀ fault, let c' := replayFails b fault c in
    let c'' := onProbe b highest (answered_events w (onHead b highest c')) in
    stage c'' = Ended ∧ _state c'' = _state c ∧ RecoveryFailure (ReplayFailed fault) ∈ effects c'').
  { intros fault. cbv zeta. destruct (fails_loudly fault c Hg) as (H1 & H2 & H3). unfold onHead. rewrite H1. unfold answered_events.
    rewrite H1. rewrite onProbe_ended by (by rewrite H1). done. }
  destruct (negb (Number_isInteger (snapshot_seq snapshot)) || number_lt (snapshot_seq snapshot) (Num 0)) eqn:Hm.
  { unfold assertTrustworthySnapshot. rewrite Hm. cbn. apply Hfail. }
  unfold onHead. cbn [stage at_stage]. destruct (assertTrustworthySnapshot highest (snapshot_seq snapshot)) as [|fault]; cbn [mbind result_bind].
  - pose proof (events_then_probe w (at_stage (AwaitEvents (Some snapshot)) (at_stage (AwaitHead snapshot) c)) (Some snapshot) highest Hg eq_refl) as Hf.
    exact Hf.
  - destruct (fails_loudly fault (at_stage (AwaitHead snapshot) c) Hg) as (H1 & H2 & H3). unfold answered_events. rewrite H1.
    rewrite onProbe_ended by (by rewrite H1). done.
Qed.

End recovery.

(** ** Runs of a concrete actor: a counter that its events add to *)

Definition counter (withLease : bool) : Behavior nat nat nat nat :=
  mkBehavior "acc" 0%nat add (λ _ _ _, false) (λ e, Some (mkEntry e None)) plain plain plain
    false true false withLease true false.

#[local] Instance counter_journal : Journal (InMemoryJournal nat) nat := InMemoryJournal_journal plain.
#[local] Instance counter_store : SnapshotStore (InMemorySnapshotStore nat) nat := InMemorySnapshotStore_store plain.

#[local] Instance counter_journal_laws : JournalLaws (InMemoryJournal nat) nat plain := InMemoryJournal_laws plain.
#[local] Instance counter_store_laws : SnapshotLaws (InMemorySnapshotStore nat) nat plain := InMemorySnapshotStore_laws plain.

#[export] Instance counter_codec withLease : Codec (counter withLease) plain plain.
Proof. split; [by intros e entry u [= <-] [= <-]|by intros s wire q [= <-] [= <-]]. Qed.

Definition counter_run (withLease : bool) (store : InMemorySnapshotStore nat) (events : list (Event string nat)) :=
  run (Command := string) (counter withLease) emptyJournal store events.

Definition no_snapshots : InMemorySnapshotStore nat := constructStore None.

(** Instance [i], from its start to the end of a recovery nobody disturbs. *)
Definition recovers (i : nat) : list (Event string nat) :=
  [Start; PermitGranted i; SnapshotAnswered i; HeadAnswered i; EventsAnswered i; ProbeAnswered i; RecoveryCompleted i true].

(** Call [k] of instance [i], undisturbed. *)
Definition writes (i k : nat) (events : list nat) : list (Event string nat) :=
  [Persist i events; AppendLands k 0; AppendAnswered k; CallbackDone k true].

(** What an instance did and where it stands. *)
Definition view (w : World string nat nat nat nat (InMemoryJournal nat) (InMemorySnapshotStore nat)) (i : nat) :=
  (λ c, (_state c, _seq c, effects c)) <$> actors w !! i.

Lemma counter_starts : keeps (emptyJournal (P := nat)) "acc" 0 [].
Proof. split_and!; [cbn; lia|reflexivity|reflexivity]. Qed.

Lemma counter_orderly : orderly no_snapshots "acc".
Proof. change (ascending (rows_of no_snapshots "acc")). replace (rows_of no_snapshots "acc") with (@nil (Snapshot nat)) by reflexivity. apply ascending_nil. Qed.

Definition two_instances : list (Event string nat) := recovers 0 ++ writes 0 0 [1; 2]%nat ++ recovers 1.

Lemma recovered_state_is_the_history_witness :
  let w := run (Command := string) (counter false) emptyJournal no_snapshots two_instances in
  actors w !! 1%nat ≫= _state = Some 3%nat ∧ ∃ k n, (n ≤ length (log w))%nat ∧ foldAll add 0%nat (drop k (take n (log w))) = Some 3%nat.
Proof.
  cbv zeta. split; [vm_compute; reflexivity|].
  destruct (recovered_state_is_the_history (Command := string) (counter false) emptyJournal no_snapshots counter_starts counter_orderly eq_refl
    two_instances) as [Hstate _].
  assert (Hs : actors (run (Command := string) (counter false) emptyJournal no_snapshots two_instances) !! 1%nat ≫= _state = Some 3%nat)
    by (vm_compute; reflexivity).
  revert Hstate Hs. generalize (run (Command := string) (counter false) emptyJournal no_snapshots two_instances). intros w Hstate Hs.
  destruct (actors w !! 1%nat) as [c|] eqn:Hc; [|discriminate Hs].
  destruct (Hstate 1%nat c 3%nat Hc Hs) as (k & n & _ & _ & Hn & Hf). exists k, n. split; [apply Hn|exact Hf].
Defined.

Lemma accepted_writer_has_seen_everything_witness :
  let w := counter_run false no_snapshots (recovers 0 ++ [Persist 0 [1; 2]%nat]) in
  ∃ x, calls w !! 0%nat = Some x ∧ log (step (counter false) w (AppendLands 0 0)) = log w ++ batch x.
Proof.
  cbv zeta.
  destruct (accepted_writer_has_seen_everything (Command := string)
    (counter false) emptyJournal no_snapshots counter_starts counter_orderly eq_refl (recovers 0 ++ [Persist 0 [1; 2]%nat]) 0 0)
    as (x & c & s & o & Hx & Hl & _).
  - vm_compute. discriminate.
  - exists x. split; [exact Hx|exact Hl].
Defined.

Lemma undisturbed_recovery_is_replayState_witness :
  let w := run (Command := string) (counter false) emptyJournal no_snapshots (recovers 0 ++ writes 0 0 [1; 2]%nat ++ [Start; PermitGranted 1]) in
  ∃ c, actors (foldl (step (counter false)) w [SnapshotAnswered 1; HeadAnswered 1; EventsAnswered 1; ProbeAnswered 1]) !! 1%nat = Some c ∧
    _state c = Some 3%nat.
Proof.
  cbv zeta. set (w := run _ _ _ _).
  assert (Hw : actors w !! 1%nat = Some (at_stage AwaitSnapshot construct)) by (vm_compute; reflexivity).
  assert (Hr : replayState 0%nat add plain plain (journal w) (Some (store w)) "acc" None false = Ok (mkResult 3%nat (Num 2) None 2))
    by (vm_compute; reflexivity).
  destruct (undisturbed_recovery_is_replayState (counter false) w 1 _ Hw eq_refl eq_refl) as (c & Hc & Hf).
  exists c. split; [exact Hc|]. cbn [initialState onEvent decodeE decodeS persistenceId counter] in Hf. rewrite Hr in Hf. apply Hf.
Defined.

(** ** What else happens *)

(** An instance whose lease is held elsewhere recovers all the same, and
    handles commands on what it read. *)
Theorem non_holder_recovers_and_serves :
  let w := counter_run true no_snapshots
    (Start :: LeaseAnswered 0 (Some false) :: tl (recovers 0) ++ [Received 0 "query"; Persist 0 [1]%nat]) in
  view w 0 = Some (Some 0%nat, 0, [OnRecoveryComplete (Some 0%nat); UnstashAll; OnCommand (Some 0%nat) "query"%string; PersistThrew NotLeaseHolder]).
Proof. vm_compute. reflexivity. Qed.

(** The head is probed after the read: events that another instance writes in
    between are taken for compacted ones, and the instance goes on from the
    initial state at their sequence number.  Its own appends are accepted. *)
Theorem probe_hides_the_events_of_a_rival :
  let w := counter_run false no_snapshots
    (recovers 0 ++ [Start; PermitGranted 1; SnapshotAnswered 1; HeadAnswered 1; EventsAnswered 1] ++ writes 0 0 [1; 2]%nat ++
     [ProbeAnswered 1; RecoveryCompleted 1 true] ++ writes 1 1 [5]%nat) in
  log w = [1; 2; 5]%nat ∧ blank_starts w = [2%nat] ∧ actors w !! 1%nat ≫= _state = Some 5%nat.
Proof. cbv zeta. split_and?; vm_compute; reflexivity. Qed.

(** The same without a rival: history deleted up to the head, with no snapshot
    of it, recovers to the initial state without an error; deleted up to one
    event before the head, it is refused. *)
Theorem compacted_head_recovers_blank :
  let compacted_to n := counter_run false no_snapshots
    (recovers 0 ++ writes 0 0 [1; 2; 3]%nat ++ [DeleteHistory 0 n; SnapshotsDeleted 0; EventsDeleted 0] ++ recovers 1) in
  view (compacted_to 3) 1 = Some (Some 0%nat, 3, [OnRecoveryComplete (Some 0%nat); UnstashAll]) ∧
  view (compacted_to 2) 1 = Some (None, 0, [RecoveryFailure (ReplayFailed (JournalIntegrityError (Num 3))); InitializationFailed]).
Proof. cbv zeta. split_and?; vm_compute; reflexivity. Qed.

(** Two calls of one instance that overlap: the second is taken for another
    writer's, and the instance asks to be stopped; but without a lease the flag
    that is cleared is not looked at, and it goes on writing. *)
Theorem second_writer_of_its_own :
  let w := counter_run false no_snapshots
    (recovers 0 ++ [Persist 0 [1]%nat; Persist 0 [2]%nat; AppendLands 0 0; AppendLands 1 0; AppendAnswered 0; CallbackDone 0 true; AppendAnswered 1] ++
     writes 0 2 [3]%nat) in
  log w = [1; 3]%nat ∧
  view w 0 = Some (Some 4%nat, 2, [OnRecoveryComplete (Some 0%nat); UnstashAll; AfterPersist (Some 1%nat); UnstashAll;
    StopSelf; UnstashAll; PersistThrew (LostAppend 0 1); AfterPersist (Some 4%nat); UnstashAll]).
Proof. cbv zeta. split_and?; vm_compute; reflexivity. Qed.

(** An append that takes effect after its caller gave up on it makes the
    caller's own next append look like a second writer's. *)
Theorem late_append_looks_like_a_second_writer :
  let w := counter_run false no_snapshots
    (recovers 0 ++ [Persist 0 [1]%nat; AppendFails 0; AppendLands 0 0; Persist 0 [2]%nat; AppendLands 1 0; AppendAnswered 1]) in
  log w = [1]%nat ∧
  view w 0 = Some (Some 0%nat, 0, [OnRecoveryComplete (Some 0%nat); UnstashAll; UnstashAll; PersistThrew StoreRefused;
    StopSelf; UnstashAll; PersistThrew (LostAppend 0 1)]).
Proof. cbv zeta. split_and?; vm_compute; reflexivity. Qed.

(** A replay that answers after the recovery deadline is not dropped: it sets
    the state of the instance that was given up. *)
Theorem late_replay_is_assigned :
  let w := counter_run false no_snapshots
    (recovers 0 ++ writes 0 0 [1; 2]%nat ++ [Start; PermitGranted 1; SnapshotAnswered 1; DeadlinePassed 1; EventsAnswered 1]) in
  view w 1 = Some (Some 3%nat, 2, [RecoveryFailure RecoveryTimeoutError; InitializationFailed]).
Proof. cbv zeta. split_and?; vm_compute; reflexivity. Qed.

(** A snapshot over a journal that knows nothing is believed, and the first
    append of the actor is refused for good. *)
Theorem snapshot_without_journal_never_writes :
  let w := counter_run false (match save plain 0 no_snapshots "acc" 5 9%nat with Some (t, _) => t | None => no_snapshots end)
    (recovers 0 ++ writes 0 0 [1]%nat) in
  log w = [] ∧
  view w 0 = Some (Some 9%nat, 5, [OnRecoveryComplete (Some 9%nat); UnstashAll; StopSelf; UnstashAll; PersistThrew (LostAppend 5 0)]).
Proof. cbv zeta. split_and?; vm_compute; reflexivity. Qed.

(** A snapshot that cannot be saved keeps the callback from running, after the
    events were written and applied. *)
Theorem failed_snapshot_skips_the_callback :
  let b := mkBehavior "acc" 0%nat add (λ _ _ _, true) (λ e, Some (mkEntry e None)) plain plain plain false true false false true false in
  let w := run (Command := string) b emptyJournal no_snapshots (recovers 0 ++ [Persist 0 [1]%nat; AppendLands 0 0; AppendAnswered 0; SaveFails 0]) in
  log w = [1]%nat ∧
  view w 0 = Some (Some 1%nat, 1, [OnRecoveryComplete (Some 0%nat); UnstashAll; UnstashAll; PersistThrew SnapshotNotSaved]).
Proof. cbv zeta. split_and?; vm_compute; reflexivity. Qed.
