(* ===== verification/RecoveryPermits.v ===== *)
(** * The cap on concurrent recoveries: [src/persistence/RecoveryPermits.ts]

    A counting semaphore with a queue, held for one recovery.  A caller is a
    number; [run] is cut at its two awaits: the permit, and the work, which
    settles at any time. *)

From S2P Require Import Prelude.

Record RecoveryPermits := mkPermits {
  permits : nat;
  available : nat;
  waiting : list nat;
  _peakInFlight : nat;
}.

Implicit Types (p : RecoveryPermits).

Definition construct (permits : Z) : option RecoveryPermits :=
  if (permits <? 1)%Z then None else Some (mkPermits (Z.to_nat permits) (Z.to_nat permits) [] 0).

Definition inFlight p : nat := permits p - available p.
Definition queued p : nat := length (waiting p).
Definition peakInFlight p : nat := _peakInFlight p.

(** The end of [acquire], which a caller that waited reaches later. *)
Definition notePeak p : RecoveryPermits :=
  if (_peakInFlight p <? inFlight p)%nat then mkPermits (permits p) (available p) (waiting p) (inFlight p) else p.

(** [true]: the permit is taken at once. *)
Definition acquire (caller : nat) p : RecoveryPermits * bool :=
  if (0 <? available p)%nat then (notePeak (mkPermits (permits p) (available p - 1) (waiting p) (_peakInFlight p)), true)
  else (mkPermits (permits p) (available p) (waiting p ++ [caller]) (_peakInFlight p), false).

(** Whom the permit is handed to. *)
Definition release p : RecoveryPermits * option nat :=
  match waiting p with
  | next :: rest => (mkPermits (permits p) (available p) rest (_peakInFlight p), Some next)
  | [] => (mkPermits (permits p) (available p + 1) [] (_peakInFlight p), None)
  end.

(** ** Callers of [run] *)

(** The callers in the order they came and in the order they got a permit, and
    those that hold one. *)
Record Gate := mkGate { gate : RecoveryPermits; arrived : list nat; granted : list nat; running : list nat }.

Inductive Event :=
| Run (caller : nat)
| Resumes
| Settles (holder : nat).

Definition step (g : Gate) (e : Event) : Gate :=
  match e with
  | Run caller =>
    let '(p, now) := acquire caller (gate g) in
    mkGate p (arrived g ++ [caller]) (if now then granted g ++ [caller] else granted g)
      (if now then running g ++ [caller] else running g)
  | Resumes => mkGate (notePeak (gate g)) (arrived g) (granted g) (running g)
  | Settles holder =>
    if (holder <? length (running g))%nat then
      let '(p, next) := release (gate g) in
      mkGate p (arrived g) (granted g ++ option_list next) (delete holder (running g) ++ option_list next)
    else g
  end.

Record gate_ok (cap : nat) (g : Gate) : Prop := {
  ok_permits : permits (gate g) = cap;
  ok_available : (available (gate g) + length (running g))%nat = cap;
  ok_waiting : waiting (gate g) ≠ [] → available (gate g) = 0%nat;
  ok_order : granted g ++ waiting (gate g) = arrived g;
  ok_peak : (_peakInFlight (gate g) ≤ cap)%nat;
}.

Lemma gate_ok_notePeak cap g : gate_ok cap g → gate_ok cap (mkGate (notePeak (gate g)) (arrived g) (granted g) (running g)).
Proof.
  intros [H1 H2 H3 H4 H5]. unfold notePeak. destruct (_ <? _)%nat; split; cbn; try done. unfold inFlight. lia.
Qed.

Lemma gate_ok_step cap g e : gate_ok cap g → gate_ok cap (step g e).
Proof.
  intros Hg. pose proof Hg as [H1 H2 H3 H4 H5]. destruct e as [caller| |holder]; cbn [step].
  - unfold acquire. destruct (Nat.ltb_spec 0 (available (gate g))) as [Hav|Hav].
    + assert (waiting (gate g) = []) as Hw by (destruct (waiting (gate g)); [done|]; rewrite H3 in Hav by done; lia).
      apply (gate_ok_notePeak cap (mkGate (mkPermits (permits (gate g)) (available (gate g) - 1) (waiting (gate g)) (_peakInFlight (gate g)))
        (arrived g ++ [caller]) (granted g ++ [caller]) (running g ++ [caller]))).
      split; cbn; [done|rewrite length_app; cbn; lia|by rewrite Hw|by rewrite Hw, app_nil_r, <- H4, Hw, app_nil_r|done].
    + split; cbn; [done|done|intros _; lia|by rewrite app_assoc, H4|done].
  - by apply gate_ok_notePeak.
  - destruct (Nat.ltb_spec holder (length (running g))) as [Hl|]; [|done]. unfold release.
    pose proof (length_delete (running g) holder) as Hd.
    destruct (waiting (gate g)) as [|next rest] eqn:Hw; cbn.
    + split; cbn; [done| |done|by rewrite app_nil_r, <- H4|done]. rewrite app_nil_r, Hd by (by apply lookup_lt_is_Some). lia.
    + split; cbn; [done| |intros _; by apply H3| |done].
      * rewrite length_app, Hd by (by apply lookup_lt_is_Some). cbn. lia.
      * by rewrite <- app_assoc, <- H4.
Qed.

Definition start (p : RecoveryPermits) : Gate := mkGate p [] [] [].

(** However recoveries are asked for and settle: never more of them hold a
    permit than there are permits, a permit is free only when nobody waits, and
    permits are granted in the order they were asked for. *)
Theorem permits_cap_recoveries (cap : Z) p (events : list Event) : construct cap = Some p →
  let g := foldl step (start p) events in
  (Z.of_nat (length (running g)) ≤ cap)%Z ∧ inFlight (gate g) = length (running g) ∧ (Z.of_nat (peakInFlight (gate g)) ≤ cap)%Z ∧
  (waiting (gate g) ≠ [] → Z.of_nat (length (running g)) = cap) ∧ granted g ++ waiting (gate g) = arrived g.
Proof.
  unfold construct. destruct (Z.ltb_spec cap 1) as [|Hcap]; [done|]. intros [= <-]. cbv zeta.
  assert (Hok : gate_ok (Z.to_nat cap) (foldl step (start (mkPermits (Z.to_nat cap) (Z.to_nat cap) [] 0)) events)).
  { assert (gate_ok (Z.to_nat cap) (start (mkPermits (Z.to_nat cap) (Z.to_nat cap) [] 0))) as Hs by (split; cbn; (done || lia)).
    revert Hs. generalize (start (mkPermits (Z.to_nat cap) (Z.to_nat cap) [] 0)).
    induction events as [|e events IH]; intros g Hg; [done|]. by apply IH, gate_ok_step. }
  destruct Hok as [H1 H2 H3 H4 H5]. unfold inFlight, peakInFlight. split_and!; [lia|lia|lia| |done]. intros Hw. specialize (H3 Hw). lia.
Qed.

Lemma permits_cap_recoveries_witness :
  let g := foldl step (start (mkPermits 1 1 [] 0)) [Run 7; Run 8; Run 9; Settles 0; Resumes] in
  running g = [8%nat] ∧ granted g ++ waiting (gate g) = [7; 8; 9]%nat.
Proof.
  split; [reflexivity|]. apply (permits_cap_recoveries 1 (mkPermits 1 1 [] 0) [Run 7; Run 8; Run 9; Settles 0; Resumes]). reflexivity.
Defined.
