(* ===== verification/DurableState.v ===== *)
(** * Durable state: [src/persistence/DurableStateActor.ts] and its store

    An actor that persists one value under optimistic revisions
    ([durable-state-stores/InMemoryDurableStateStore.ts]), as any number of
    instances over one store with their calls under way.  [encode] and [decode]
    are the state adapter, [stored] the payload codec, each [None] where it
    throws. *)

From Stdlib Require Import Ascii String.
From S2P Require Import Prelude.

Local Open Scope Z_scope.

Record DurableStateRecord (Q : Type) := mkRecord { record_id : string; revision_of : Z; record_state : Q; record_timestamp : Z }.
Arguments mkRecord {Q}. Arguments record_id {Q}. Arguments revision_of {Q}. Arguments record_state {Q}. Arguments record_timestamp {Q}.

Inductive DurableFault := MalformedRevision | Unencodable | DurableStateConcurrencyError (expected actual : number).

(** ** The store *)

Abbreviation InMemoryDurableStateStore Q := (gmap string (DurableStateRecord Q)).

Section store.
Context {Q : Type} (stored : Q → option Q).

Implicit Types (records : InMemoryDurableStateStore Q).

Definition upsert (now : Z) records (persistenceId : string) (expectedRevision : number) (state : Q) :
    result DurableFault (InMemoryDurableStateStore Q * DurableStateRecord Q) :=
  throw_if (match expectedRevision with Num z => z <? 0 | _ => true end) MalformedRevision;;
  let actual := match records !! persistenceId with Some current => revision_of current | None => 0 end in
  throw_if (negb (bool_decide (Num actual = expectedRevision))) (DurableStateConcurrencyError expectedRevision (Num actual));;
  let record := mkRecord persistenceId (actual + 1) state now in
  match stored state with
  | None => Err Unencodable
  | Some kept => Ok (<[persistenceId := mkRecord persistenceId (actual + 1) kept now]> records, record)
  end.

Definition load records (persistenceId : string) : option (DurableStateRecord Q) := records !! persistenceId.
Definition deleteStored records (persistenceId : string) : InMemoryDurableStateStore Q := delete persistenceId records.

End store.

(** ** The actor *)

Section actor.
Context {Command S Q : Type}.

Record DurableOptions := mkDurableOptions {
  persistenceId : string;
  emptyState : S;
  encode : S → option Q;
  decode : Q → option S;
  optionsSupported : bool;
}.

Inductive DurableEffect :=
| InitializationFailed
| OnCommand (state : S) (command : Command)
| Waits (command : Command)
| PersistRefused (fault : option DurableFault)
| PersistReturned (revision : Z).

Inductive Stage := AwaitLoad | Ready | Failed.

Record DurableStateActor := mkDurableActor {
  _record : option (DurableStateRecord S);
  (** The promise of the last [persist] that has begun and not returned. *)
  _persisting : option nat;
  stage : Stage;
  effects : list DurableEffect;
}.

Implicit Types (o : DurableOptions) (c : DurableStateActor).

Definition emit (e : DurableEffect) c : DurableStateActor := mkDurableActor (_record c) (_persisting c) (stage c) (effects c ++ [e]).
Definition at_stage (s : Stage) c : DurableStateActor := mkDurableActor (_record c) (_persisting c) s (effects c).
Definition set_record (r : option (DurableStateRecord S)) c : DurableStateActor := mkDurableActor r (_persisting c) (stage c) (effects c).
Definition set_persisting (p : option nat) c : DurableStateActor := mkDurableActor (_record c) p (stage c) (effects c).

Definition state o c : S := match _record c with None => emptyState o | Some r => record_state r end.
Definition revision c : Z := match _record c with None => 0 | Some r => revision_of r end.

Definition preStart o : DurableStateActor :=
  let c := mkDurableActor None None AwaitLoad [] in
  if negb (optionsSupported o) then at_stage Failed (emit InitializationFailed c) else c.

(** [preStart] after [store.load]; [None] outside is a rejection. *)
Definition onLoaded o (loaded : option (option (DurableStateRecord Q))) c : DurableStateActor :=
  match loaded with
  | None => at_stage Failed (emit InitializationFailed c)
  | Some None => at_stage Ready (set_record None c)
  | Some (Some r) =>
    match decode o (record_state r) with
    | None => at_stage Failed (emit InitializationFailed c)
    | Some s => at_stage Ready (set_record (Some (mkRecord (record_id r) (revision_of r) s (record_timestamp r))) c)
    end
  end.

(** A command that finds a [persist] under way waits for it, and is handled
    then, whatever is under way by that time. *)
Definition onReceive o (command : Command) c : DurableStateActor :=
  match _persisting c with Some _ => emit (Waits command) c | None => emit (OnCommand (state o c) command) c end.

Definition afterWait o (command : Command) c : DurableStateActor := emit (OnCommand (state o c) command) c.

(** [persist] up to its await: the revision it expects and what it writes. *)
Definition persist o (call : nat) (next : S) c : DurableStateActor * option (Z * Q) :=
  let expected := revision c in
  match encode o next with
  | None => (emit (PersistRefused None) c, None)
  | Some wire => (set_persisting (Some call) c, Some (expected, wire))
  end.

Definition onUpserted (next : S) (answer : option (result DurableFault (DurableStateRecord Q))) c : DurableStateActor :=
  match answer with
  | Some (Ok r) =>
    emit (PersistReturned (revision_of r)) (set_persisting None
      (set_record (Some (mkRecord (record_id r) (revision_of r) next (record_timestamp r))) c))
  | Some (Err fault) => emit (PersistRefused (Some fault)) (set_persisting None c)
  | None => emit (PersistRefused None) (set_persisting None c)
  end.

Definition onDeleted c : DurableStateActor := set_record None c.

End actor.

Arguments DurableOptions : clear implicits.
Arguments DurableStateActor : clear implicits.

(** ** Instances over one store *)

Inductive Progress (Q : Type) := InFlight | Answered (answer : result DurableFault (DurableStateRecord Q)) | Abandoned | Over.
Arguments InFlight {Q}. Arguments Answered {Q}. Arguments Abandoned {Q}. Arguments Over {Q}.

Record UpsertCall (S Q : Type) := mkUpsert { caller : nat; next : S; wire : Q; expected : Z; progress : Progress Q }.
Arguments mkUpsert {S Q}. Arguments caller {S Q}. Arguments next {S Q}. Arguments wire {S Q}. Arguments expected {S Q}. Arguments progress {S Q}.

(** [versions]: every state an upsert has stored, oldest first; only theorems
    read it. *)
Record World (Command S Q : Type) := mkWorld {
  records : InMemoryDurableStateStore Q;
  actors : list (DurableStateActor Command S);
  calls : list (UpsertCall S Q);
  (** Calls of [deleteRecord]: whose, and whether the store has done it. *)
  deletions : list (nat * bool);
  versions : list S;
}.
Arguments mkWorld {Command S Q}. Arguments records {Command S Q}. Arguments actors {Command S Q}. Arguments calls {Command S Q}.
Arguments deletions {Command S Q}. Arguments versions {Command S Q}.

Section world.
Context {Command S Q : Type} (stored : Q → option Q) (o : DurableOptions S Q).

#[local] Abbreviation Actor := (DurableStateActor Command S).
#[local] Abbreviation World := (World Command S Q).

Implicit Types (w : World) (c : Actor) (i k : nat).

Inductive Event :=
| Start
| Loaded i
| LoadFails i
| Received i (command : Command)
| Waited i (command : Command)
| Persist i (next : S)
| UpsertLands k (now : Z)
| UpsertAnswered k
| UpsertFails k
| DeleteRecord i
| DeleteLands (deletion : nat)
| DeleteAnswered (deletion : nat).

Definition on_actor i (f : Actor → Actor) w : World := mkWorld (records w) (alter f i (actors w)) (calls w) (deletions w) (versions w).
Definition set_progress k (p : Progress Q) w : World :=
  mkWorld (records w) (actors w) (alter (λ x, mkUpsert (caller x) (next x) (wire x) (expected x) p) k (calls w)) (deletions w) (versions w).

Definition when_at i (f : Actor → World) (waits : Stage → bool) w : World :=
  match actors w !! i with Some c => if waits (stage c) then f c else w | None => w end.

Definition awaiting (s : Stage) : bool := match s with AwaitLoad => true | _ => false end.
Definition ready (s : Stage) : bool := match s with Ready => true | _ => false end.

Definition upsert_lands k (now : Z) w : World :=
  match calls w !! k with
  | Some x =>
    let waiting := match progress x with InFlight => true | _ => false end in
    if match progress x with InFlight | Abandoned => true | _ => false end then
      match upsert stored now (records w) (persistenceId o) (Num (expected x)) (wire x) with
      | Ok (records, r) =>
        set_progress k (if waiting then Answered (Ok r) else Over)
          (mkWorld records (actors w) (calls w) (deletions w) (versions w ++ [next x]))
      | Err fault => set_progress k (if waiting then Answered (Err fault) else Over) w
      end
    else w
  | None => w
  end.

Definition step w (e : Event) : World :=
  match e with
  | Start => mkWorld (records w) (actors w ++ [preStart o]) (calls w) (deletions w) (versions w)
  | Loaded i => when_at i (λ _, on_actor i (onLoaded o (Some (load (records w) (persistenceId o)))) w) awaiting w
  | LoadFails i => when_at i (λ _, on_actor i (onLoaded o None) w) awaiting w
  | Received i command => when_at i (λ _, on_actor i (onReceive o command) w) ready w
  | Waited i command => when_at i (λ _, on_actor i (afterWait o command) w) ready w
  | Persist i s =>
    when_at i (λ c,
      let '(c, call) := persist o (length (calls w)) s c in
      let w := on_actor i (λ _, c) w in
      match call with
      | Some (expected, wire) => mkWorld (records w) (actors w) (calls w ++ [mkUpsert i s wire expected InFlight]) (deletions w) (versions w)
      | None => w
      end) ready w
  | UpsertLands k now => upsert_lands k now w
  | UpsertAnswered k =>
    match calls w !! k with
    | Some x => match progress x with
                | Answered answer => set_progress k Over (on_actor (caller x) (onUpserted (next x) (Some answer)) w)
                | _ => w
                end
    | None => w
    end
  | UpsertFails k =>
    match calls w !! k with
    | Some x => match progress x with
                | InFlight => set_progress k Abandoned (on_actor (caller x) (onUpserted (Q := Q) (next x) None) w)
                | _ => w
                end
    | None => w
    end
  | DeleteRecord i => when_at i (λ _, mkWorld (records w) (actors w) (calls w) (deletions w ++ [(i, false)]) (versions w)) ready w
  | DeleteLands n =>
    match deletions w !! n with
    | Some (i, false) =>
      mkWorld (deleteStored (records w) (persistenceId o)) (actors w) (calls w) (<[n := (i, true)]> (deletions w)) (versions w)
    | _ => w
    end
  | DeleteAnswered n =>
    match deletions w !! n with
    | Some (i, true) => on_actor i onDeleted (mkWorld (records w) (actors w) (calls w) (delete n (deletions w)) (versions w))
    | _ => w
    end
  end.

Definition run (events : list Event) : World := foldl step (mkWorld ∅ [] [] [] []) events.

End world.
Arguments Event : clear implicits.

(** ** What the store keeps *)

Definition kept {Q} (records : InMemoryDurableStateStore Q) (id : string) : Z :=
  match records !! id with Some r => revision_of r | None => 0 end.

Section store_theorems.
Context {Q : Type} (stored : Q → option Q).

Implicit Types (rs : InMemoryDurableStateStore Q).

(** An upsert is accepted exactly at the revision that is stored, raises it by
    one and touches no other record; otherwise nothing changes and the fault
    says why. *)
Lemma upsert_exact now rs id (expectedRevision : number) q :
  match upsert stored now rs id expectedRevision q with
  | Ok (rs', r) => expectedRevision = Num (kept rs id) ∧ revision_of r = kept rs id + 1 ∧ record_state r = q ∧
      ∃ q', stored q = Some q' ∧ rs' !! id = Some (mkRecord id (kept rs id + 1) q' now) ∧ ∀ id', id' ≠ id → rs' !! id' = rs !! id'
  | Err MalformedRevision => match expectedRevision with Num z => z < 0 | _ => True end
  | Err (DurableStateConcurrencyError expected actual) => expected = expectedRevision ∧ actual = Num (kept rs id) ∧ expected ≠ actual
  | Err Unencodable => stored q = None ∧ expectedRevision = Num (kept rs id)
  end.
Proof.
  unfold upsert. fold (kept rs id). destruct (match expectedRevision with Num z => z <? 0 | _ => true end) eqn:Hm; cbn.
  { destruct expectedRevision; try done. by apply Z.ltb_lt. }
  case_bool_decide as He; cbn; [|by split_and!]. destruct (stored q) as [q'|]; cbn; [|done].
  split_and!; [done..|]. exists q'. split_and!; [done|by rewrite lookup_insert_eq|]. intros id' Hid. by rewrite lookup_insert_ne.
Qed.

End store_theorems.
