(* ===== verification/DurableStateTheorems.v ===== *)
(** * Durable state: no update is lost, as long as nothing is deleted

    Over every interleaving of the instances of one persistence id, and the
    run in which a deletion lets a stale writer through. *)

From Stdlib Require Import Ascii String.
From S2P Require Import Prelude DurableState.

Local Open Scope Z_scope.

(** The state adapter and the payload codec lose nothing. *)
Class DurableCodec {S Q} (o : DurableOptions S Q) (stored : Q → option Q) := {
  durable_codec s wire q : encode o s = Some wire → stored wire = Some q → decode o q = Some s;
}.

Section world.
Context {Command S Q : Type} (stored : Q → option Q) (o : DurableOptions S Q) `{!DurableCodec o stored}.

#[local] Abbreviation Actor := (DurableStateActor Command S).
#[local] Abbreviation World := (World Command S Q).

Implicit Types (w : World) (c : Actor) (i k n : nat).

(** The state after [n] upserts. *)
Definition version w n : option S := match n with O => Some (emptyState o) | Datatypes.S m => versions w !! m end.

Definition record_ok w c : Prop := ∃ n, revision c = Z.of_nat n ∧ version w n = Some (state o c).

Definition store_ok w : Prop :=
  match records w !! persistenceId o with
  | None => versions w = []
  | Some r => ∃ n s, revision_of r = Z.of_nat (Datatypes.S n) ∧ length (versions w) = Datatypes.S n ∧ versions w !! n = Some s ∧ decode o (record_state r) = Some s
  end.

Definition accepted (x : UpsertCall S Q) : bool := match progress x with Answered (Ok _) => true | _ => false end.

Definition call_ok w (x : UpsertCall S Q) : Prop :=
  encode o (next x) = Some (wire x) ∧
  ∃ c, actors w !! caller x = Some c ∧ stage c = Ready ∧
  match progress x with
  | InFlight | Abandoned => expected x ≤ revision c
  | Answered (Ok r) => ∃ n, revision c = Z.of_nat n ∧ revision_of r = Z.of_nat (Datatypes.S n) ∧ versions w !! n = Some (next x)
  | _ => True
  end.

Record world_ok w : Prop := {
  ok_store : store_ok w;
  ok_actors i c : actors w !! i = Some c → record_ok w c;
  ok_calls k x : calls w !! k = Some x → call_ok w x;
  ok_unique k x k' x' : calls w !! k = Some x → calls w !! k' = Some x' → accepted x = true → accepted x' = true →
    caller x = caller x' → k = k';
  ok_deletions : deletions w = [];
}.

Lemma version_within w n s : version w n = Some s → (n ≤ length (versions w))%nat.
Proof. destruct n as [|n]; cbn; [lia|]. intros H%lookup_lt_Some. lia. Qed.

(** The stored revision counts the versions. *)
Lemma stored_revision w : store_ok w → kept (records w) (persistenceId o) = Z.of_nat (length (versions w)).
Proof. unfold store_ok, kept. destruct (_ !! _) as [r|]; [intros (n & s & -> & -> & _); done|by intros ->]. Qed.

(** ** One instance, and perhaps one call, moves *)

Definition quiet c c' : Prop := (stage c = Ready → stage c' = Ready ∧ revision c' = revision c).

Definition move i c' w : World := mkWorld (records w) (<[i := c']> (actors w)) (calls w) (deletions w) (versions w).

Lemma ok_moves w i c c' : world_ok w → actors w !! i = Some c → record_ok w c' → quiet c c' → world_ok (move i c' w).
Proof.
  intros Hw Hi Hc' Hq. assert (i < length (actors w))%nat as Hlt by by eapply lookup_lt_Some. split; try apply Hw.
  - intros j d Hj. cbn in Hj. apply list_lookup_insert_Some in Hj as [(_ & <- & _)|(_ & Hj)]; [done|]. by apply (ok_actors w Hw j).
  - intros k x Hx. destruct (ok_calls w Hw k x Hx) as (He & d & Hd & Hr & Hp). split; [done|]. destruct (decide (caller x = i)) as [<-|Hne].
    + rewrite Hi in Hd. injection Hd as <-. destruct (Hq Hr) as [Hr' Hs]. exists c'. cbn. rewrite list_lookup_insert_eq by done.
      split_and!; [done|done|]. by destruct (progress x) as [|[]| |]; rewrite ?Hs.
    + exists d. cbn. by rewrite list_lookup_insert_ne.
Qed.

Definition settle k x (p : Progress Q) w : World :=
  mkWorld (records w) (actors w) (<[k := mkUpsert (caller x) (next x) (wire x) (expected x) p]> (calls w)) (deletions w) (versions w).

Lemma set_progress_settle w k x p : calls w !! k = Some x → set_progress k p w = settle k x p w.
Proof. intros Hx. unfold set_progress, settle. f_equal. exact (alter_Some _ _ _ _ Hx). Qed.

Lemma ok_settle w k x p : world_ok w → calls w !! k = Some x →
  match p with InFlight | Answered (Ok _) => False | Abandoned => progress x = InFlight ∨ progress x = Abandoned | _ => True end →
  world_ok (settle k x p w).
Proof.
  intros Hw Hx Hp. destruct (ok_calls w Hw k x Hx) as (He & c & Hc & Hr & Hprog). split; try apply Hw.
  - intros k' y Hy. cbn in Hy. apply list_lookup_insert_Some in Hy as [(_ & <- & _)|(_ & Hy)]; [|by apply (ok_calls w Hw k')].
    split; [done|]. exists c. cbn. split_and!; [done..|]. destruct p as [|[]| |]; try done. destruct Hp as [Hp|Hp]; by rewrite Hp in Hprog.
  - intros k1 x1 k2 x2 Hx1 Hx2 Ha1 Ha2 Heq. cbn in Hx1, Hx2.
    assert (Hno : accepted (mkUpsert (caller x) (next x) (wire x) (expected x) p) = false) by (unfold accepted; by destruct p as [|[]| |]).
    apply list_lookup_insert_Some in Hx1 as [(_ & <- & _)|(_ & Hx1)]; [congruence|].
    apply list_lookup_insert_Some in Hx2 as [(_ & <- & _)|(_ & Hx2)]; [congruence|]. by eapply (ok_unique w Hw).
Qed.

(** An accepted call returns to its caller. *)
Lemma ok_returns w k x c c' r : world_ok w → calls w !! k = Some x → progress x = Answered (Ok r) → actors w !! caller x = Some c →
  stage c' = stage c → revision c' = revision_of r → state o c' = next x → world_ok (settle k x Over (move (caller x) c' w)).
Proof.
  intros Hw Hx Hp Hc Hst Hrev Hs. destruct (ok_calls w Hw k x Hx) as (He & d & Hd & Hr & Hprog). rewrite Hc in Hd. injection Hd as <-.
  rewrite Hp in Hprog. destruct Hprog as (n & Hn & Hrn & Hv). assert (caller x < length (actors w))%nat as Hlt by by eapply lookup_lt_Some.
  split; try apply Hw.
  - intros j d Hj. cbn in Hj. apply list_lookup_insert_Some in Hj as [(_ & <- & _)|(_ & Hj)]; [|by apply (ok_actors w Hw j)].
    exists (Datatypes.S n). split; [by rewrite Hrev|]. by rewrite Hs.
  - intros k' y Hy. cbn in Hy. apply list_lookup_insert_Some in Hy as [(_ & <- & _)|(Hne & Hy)].
    + split; [done|]. exists c'. cbn. by rewrite list_lookup_insert_eq, Hst.
    + destruct (ok_calls w Hw k' y Hy) as (He' & d & Hd & Hr' & Hpy). split; [done|]. destruct (decide (caller y = caller x)) as [Heq|Hne'].
      * rewrite Heq, Hc in Hd. injection Hd as <-. exists c'. cbn. rewrite Heq, list_lookup_insert_eq, Hst by done. split_and!; [done..|].
        destruct (progress y) as [|[r'|]| |] eqn:Hpr; try done; try (rewrite Hrev, Hrn; lia).
        destruct Hne. eapply (ok_unique w Hw); try done; unfold accepted; by rewrite ?Hp, ?Hpr.
      * exists d. cbn. by rewrite list_lookup_insert_ne.
  - intros k1 x1 k2 x2 Hx1 Hx2 Ha1 Ha2 Heq. cbn in Hx1, Hx2.
    apply list_lookup_insert_Some in Hx1 as [(_ & <- & _)|(_ & Hx1)]; [done|].
    apply list_lookup_insert_Some in Hx2 as [(_ & <- & _)|(_ & Hx2)]; [done|]. by eapply (ok_unique w Hw).
Qed.

(** ** An upsert takes effect *)

Lemma durable_at_head w k now x rs r : world_ok w → calls w !! k = Some x → progress x = InFlight ∨ progress x = Abandoned →
  upsert stored now (records w) (persistenceId o) (Num (expected x)) (wire x) = Ok (rs, r) →
  ∃ c, actors w !! caller x = Some c ∧ stage c = Ready ∧ revision c = Z.of_nat (length (versions w)) ∧
    revision_of r = Z.of_nat (Datatypes.S (length (versions w))) ∧
    ∃ q, decode o q = Some (next x) ∧ rs !! persistenceId o = Some (mkRecord (persistenceId o) (revision_of r) q now).
Proof.
  intros Hw Hx Hp Hu. destruct (ok_calls w Hw k x Hx) as (He & c & Hc & Hr & Hprog).
  pose proof (upsert_exact stored now (records w) (persistenceId o) (Num (expected x)) (wire x)) as Hex. rewrite Hu in Hex.
  destruct Hex as (Hexp & Hrev & _ & q & Hq & Hrs & _). injection Hexp as Hexp. rewrite (stored_revision w (ok_store w Hw)) in *.
  destruct (ok_actors w Hw _ c Hc) as (n & Hn & Hv). apply version_within in Hv. exists c. split_and!; [done|done| |lia|].
  - destruct Hp as [Hp|Hp]; rewrite Hp in Hprog; lia.
  - exists q. split; [by eapply durable_codec|]. by rewrite Hrs, Hrev.
Qed.

Lemma ok_upsert_lands w k now : world_ok w → world_ok (upsert_lands stored o k now w).
Proof.
  intros Hw. unfold upsert_lands. destruct (calls w !! k) as [x|] eqn:Hx; [|done].
  destruct (match progress x with InFlight | Abandoned => true | _ => false end) eqn:Hp; [|done].
  assert (progress x = InFlight ∨ progress x = Abandoned) as Hprog by (destruct (progress x); auto; done).
  destruct (upsert _ _ _ _ _ _) as [[rs r]|fault] eqn:Hu.
  2: { rewrite (set_progress_settle w k x _ Hx). apply ok_settle; [done..|]. by destruct Hprog as [-> | ->]. }
  destruct (durable_at_head w k now x rs r Hw Hx Hprog Hu) as (c & Hc & Hr & Hrev & Hrn & q & Hq & Hrs).
  set (p := if match progress x with InFlight => true | _ => false end then Answered (Ok r) else Over). set (w1 := mkWorld rs _ _ _ _). rewrite (set_progress_settle w1 k x p Hx).
  assert (Hv : ∀ n s, version w n = Some s → version w1 n = Some s).
  { intros [|n] s Hn; [done|]. cbn in *. by apply lookup_app_l_Some. }
  assert (Hno : ∀ k' y, calls w !! k' = Some y → accepted y = true → caller y ≠ caller x).
  { intros k' y Hy Hay Heq. destruct (ok_calls w Hw k' y Hy) as (_ & d & Hd & _ & Hpy). rewrite Heq, Hc in Hd. injection Hd as <-.
    unfold accepted in Hay. destruct (progress y) as [|[r'|]| |]; try done. destruct Hpy as (n & Hn & _ & Hl). apply lookup_lt_Some in Hl. lia. }
  split.
  - unfold store_ok. cbn. rewrite Hrs. exists (length (versions w)), (next x). cbn. rewrite length_app. cbn.
    split_and!; [done|lia|by rewrite lookup_app_r, Nat.sub_diag by done|done].
  - intros i d Hi. destruct (ok_actors w Hw i d Hi) as (n & Hn & Hs). exists n. split; [done|by apply Hv].
  - intros k' y Hy. cbn in Hy. apply list_lookup_insert_Some in Hy as [(_ & <- & _)|(_ & Hy)].
    + destruct (ok_calls w Hw k x Hx) as (He & _). split; [done|]. exists c. split_and!; [done..|]. unfold p. cbn.
      destruct Hprog as [-> | ->]; [|done]. exists (length (versions w)). split_and!; [done|done|]. by rewrite lookup_app_r, Nat.sub_diag by done.
    + destruct (ok_calls w Hw k' y Hy) as (He & d & Hd & Hr' & Hpy). split; [done|]. exists d. split_and!; [done..|].
      destruct (progress y) as [|[r'|]| |]; try done. destruct Hpy as (n & Hn & Hrn' & Hl). exists n. split_and!; [done..|]. by apply lookup_app_l_Some.
  - intros k1 x1 k2 x2 Hx1 Hx2 Ha1 Ha2 Heq. cbn in Hx1, Hx2.
    apply list_lookup_insert_Some in Hx1 as [(<- & <- & _)|(_ & Hx1)]; apply list_lookup_insert_Some in Hx2 as [(<- & <- & _)|(_ & Hx2)].
    + done.
    + by destruct (Hno k2 x2 Hx2 Ha2).
    + by destruct (Hno k1 x1 Hx1 Ha1).
    + by eapply (ok_unique w Hw).
  - apply Hw.
Qed.

(** ** Every step *)

Lemma on_actor_move w i f c : actors w !! i = Some c → on_actor i f w = move i (f c) w.
Proof. intros Hi. unfold on_actor, move. f_equal. by apply alter_Some. Qed.

(** A handler that keeps the record and the stage. *)
Definition same_record c c' : Prop := _record c' = _record c ∧ stage c' = stage c.

Lemma ok_same w i c c' : world_ok w → actors w !! i = Some c → same_record c c' → world_ok (move i c' w).
Proof.
  intros Hw Hi [Hr Hs]. eapply ok_moves; [done..| |].
  - destruct (ok_actors w Hw i c Hi) as (n & Hn & Hv). exists n. unfold revision, state in *. by rewrite Hr.
  - intros Hst. unfold revision. by rewrite Hr, Hs.
Qed.

Lemma durable_when_at w i f waits : world_ok w → (∀ c, actors w !! i = Some c → waits (stage c) = true → world_ok (f c)) →
  world_ok (when_at i f waits w).
Proof. intros Hw Hf. unfold when_at. destruct (actors w !! i) as [c|] eqn:Hi; [|done]. destruct (waits (stage c)) eqn:Hs; [by apply Hf|done]. Qed.

Lemma loaded_ok w : store_ok w → ∀ c, record_ok w c → record_ok w (onLoaded o (Some (load (records w) (persistenceId o))) c).
Proof.
  unfold store_ok, load. intros Hs c Hc. destruct (records w !! persistenceId o) as [r|]; cbn.
  - destruct Hs as (n & s & Hn & Hl & Hv & Hd). rewrite Hd. exists (Datatypes.S n). done.
  - by exists 0%nat.
Qed.

Lemma loaded_quiet c loaded : stage c = AwaitLoad → quiet c (onLoaded o loaded c).
Proof. intros Hs Hr. congruence. Qed.

Lemma durable_ok_persist w i s : world_ok w → world_ok (step stored o w (Persist i s)).
Proof.
  intros Hw. cbn [step]. apply durable_when_at; [done|]. intros c Hi Hst. assert (stage c = Ready) as Hr by (by destruct (stage c)).
  unfold persist. destruct (encode o s) as [q|] eqn:He; [|by rewrite (on_actor_move _ _ _ _ Hi); eapply ok_same].
  rewrite (on_actor_move _ _ _ _ Hi). set (c' := set_persisting _ c). set (w1 := move i c' w).
  assert (world_ok w1) as Hw1 by (by eapply ok_same). assert (i < length (actors w))%nat as Hlt by by eapply lookup_lt_Some.
  split; try apply Hw1.
  - intros k x Hx. cbn in Hx. apply lookup_app_Some in Hx as [Hx|[_ Hx]]; [by apply (ok_calls w1 Hw1 k)|].
    apply list_lookup_singleton_Some in Hx as [_ <-]. split; [done|]. exists c'. cbn. by rewrite list_lookup_insert_eq.
  - intros k1 x1 k2 x2 Hx1 Hx2 Ha1 Ha2 Heq. cbn in Hx1, Hx2.
    apply lookup_app_Some in Hx1 as [Hx1|[_ Hx1]]; [|apply list_lookup_singleton_Some in Hx1 as [_ <-]; done].
    apply lookup_app_Some in Hx2 as [Hx2|[_ Hx2]]; [|apply list_lookup_singleton_Some in Hx2 as [_ <-]; done].
    by eapply (ok_unique w1 Hw1).
Qed.

Lemma durable_ok_step w (e : Event Command S) : world_ok w → match e with DeleteRecord _ => False | _ => True end → world_ok (step stored o w e).
Proof.
  intros Hw He. destruct e as [|i|i|i command|i command|i s|k now|k|k|i|n|n]; try done.
  - cbn. split; try apply Hw.
    + intros j c Hj. cbn in Hj. apply lookup_app_Some in Hj as [Hj|[_ Hj]]; [by apply (ok_actors w Hw j)|].
      apply list_lookup_singleton_Some in Hj as [_ <-]. exists 0%nat. unfold preStart. by destruct (negb _).
    + intros k x Hx. destruct (ok_calls w Hw k x Hx) as (Hen & c & Hc & Hrest). split; [done|]. exists c. cbn. split; [|done].
      rewrite lookup_app_l; [done|by eapply lookup_lt_Some].
  - apply durable_when_at; [done|]. intros c Hi Hst. rewrite (on_actor_move _ _ _ _ Hi).
    eapply ok_moves; [done..|apply loaded_ok; [apply Hw|by apply (ok_actors w Hw i)]|apply loaded_quiet; by destruct (stage c)].
  - apply durable_when_at; [done|]. intros c Hi Hst. rewrite (on_actor_move _ _ _ _ Hi).
    eapply ok_moves; [done..|by apply (ok_actors w Hw i c)|apply loaded_quiet; by destruct (stage c)].
  - apply durable_when_at; [done|]. intros c Hi Hst. rewrite (on_actor_move _ _ _ _ Hi). eapply ok_same; [done..|].
    unfold onReceive. by destruct (_persisting c).
  - apply durable_when_at; [done|]. intros c Hi Hst. rewrite (on_actor_move _ _ _ _ Hi). by eapply ok_same.
  - by apply durable_ok_persist.
  - by apply ok_upsert_lands.
  - cbn. destruct (calls w !! k) as [x|] eqn:Hx; [|done]. destruct (progress x) as [|answer| |] eqn:Hp; try done.
    destruct (ok_calls w Hw k x Hx) as (_ & c & Hc & Hr & Hprog). rewrite (on_actor_move _ _ _ _ Hc).
    rewrite (set_progress_settle (move (caller x) _ w) k x Over Hx). destruct answer as [r|fault].
    + by eapply ok_returns.
    + apply ok_settle; [by eapply ok_same|done..].
  - cbn. destruct (calls w !! k) as [x|] eqn:Hx; [|done]. destruct (progress x) as [|answer| |] eqn:Hp; try done.
    destruct (ok_calls w Hw k x Hx) as (_ & c & Hc & Hr & Hprog). rewrite (on_actor_move _ _ _ _ Hc).
    rewrite (set_progress_settle (move (caller x) _ w) k x Abandoned Hx). apply ok_settle; [by eapply ok_same|done|by left].
  - cbn. by rewrite (ok_deletions w Hw).
  - cbn. by rewrite (ok_deletions w Hw).
Qed.

Lemma durable_run_ok events : (∀ i, DeleteRecord i ∉ events) → world_ok (run (Command := Command) stored o events).
Proof.
  intros Hno. unfold run. assert (world_ok (mkWorld ∅ [] [] [] [])) as Hw.
  { by split. }
  revert Hw Hno. generalize (mkWorld (Command := Command) (S := S) (Q := Q) ∅ [] [] [] []).
  induction events as [|e events IH]; intros w Hw Hno; [done|]. apply IH.
  - apply durable_ok_step; [done|]. destruct e as [| | | | | | | | |i| |]; try done. apply (Hno i). by left.
  - intros i Hi. apply (Hno i). by right.
Qed.

(** C24. As long as no record is deleted, an upsert that the store accepts was asked
    for by an instance that held the latest version: no update is lost, however
    the instances, their answers and their failures interleave. *)
Theorem durable_writer_saw_the_latest (events : list (Event Command S)) k now : (∀ i, DeleteRecord i ∉ events) →
  let w := run stored o events in
  let w' := step stored o w (UpsertLands k now) in
  versions w' ≠ versions w →
  ∃ x c, calls w !! k = Some x ∧ versions w' = versions w ++ [next x] ∧ actors w !! caller x = Some c ∧
    state o c = default (emptyState o) (last (versions w)) ∧ revision c = Z.of_nat (length (versions w)).
Proof.
  intros Hno. cbv zeta. pose proof (durable_run_ok events Hno) as Hw. set (w := run stored o events) in *. cbn [step]. unfold upsert_lands.
  destruct (calls w !! k) as [x|] eqn:Hx; [|done].
  destruct (match progress x with InFlight | Abandoned => true | _ => false end) eqn:Hp; [|done].
  assert (progress x = InFlight ∨ progress x = Abandoned) as Hprog by (destruct (progress x); auto; done).
  destruct (upsert _ _ _ _ _ _) as [[rs r]|fault] eqn:Hu; [|done]. intros _.
  destruct (durable_at_head w k now x rs r Hw Hx Hprog Hu) as (c & Hc & _ & Hrev & _). exists x, c. split_and!; [done|done|done| |done].
  destruct (ok_actors w Hw _ c Hc) as (n & Hn & Hv). assert (n = length (versions w)) as -> by lia. unfold version in Hv.
  destruct (versions w) as [|v l _] using rev_ind; [by injection Hv|]. rewrite length_app, Nat.add_1_r in Hv. rewrite last_snoc. cbn.
  rewrite lookup_app_r, Nat.sub_diag in Hv by done. by injection Hv.
Qed.

End world.

(** ** Runs of a concrete actor *)

Definition register : DurableOptions nat nat := mkDurableOptions "reg" 0%nat Some Some true.

#[export] Instance register_codec : DurableCodec register Some.
Proof. split. by intros s wire q [= <-] [= <-]. Qed.

Definition register_run (events : list (Event string nat)) := run (Command := string) Some register events.

Definition first_write : list (Event string nat) := [Start; Loaded 0; Persist 0 5%nat; UpsertLands 0 0; UpsertAnswered 0].

Lemma durable_writer_saw_the_latest_witness :
  let w := register_run (first_write ++ [Start; Loaded 1; Persist 1 6%nat]) in
  versions (step Some register w (UpsertLands 1 0)) = [5; 6]%nat ∧ ∃ i c, actors w !! i = Some c ∧ state register c = 5%nat.
Proof.
  split; [vm_compute; reflexivity|].
  destruct (durable_writer_saw_the_latest (Command := string) Some register (first_write ++ [Start; Loaded 1; Persist 1 6%nat]) 1 0)
    as (x & c & _ & _ & Hc & Hs & _).
  - intros i Hi. repeat (apply elem_of_cons in Hi as [Hi|Hi]; [discriminate Hi|]). by apply elem_of_nil in Hi.
  - vm_compute. discriminate.
  - exists (caller x), c. split; [exact Hc|]. rewrite Hs. vm_compute. reflexivity.
Defined.

(** A deletion sets the revision back: an instance that knew revision 1 of the
    record before writes over revision 1 of the one created since, which it
    never saw. *)
Theorem recreated_record_is_overwritten :
  let w := register_run (first_write ++ [Start; Loaded 1; DeleteRecord 1; DeleteLands 0; DeleteAnswered 0;
    Persist 1 7%nat; UpsertLands 1 0; UpsertAnswered 1; Persist 0 6%nat; UpsertLands 2 0; UpsertAnswered 2]) in
  versions w = [5; 7; 6]%nat ∧ (effects <$> actors w !! 0%nat) = Some [PersistReturned 1; PersistReturned 2].
Proof. split; vm_compute; reflexivity. Qed.
