(* ===== verification/Supervision.v ===== *)
(** * Supervision: [src/Supervision.ts]

    Directives, strategies and the restart budget of one supervisor.  A
    strategy carries the identity of the object it is, because a supervisor
    compares strategies by reference. *)

From S2P Require Import Prelude.

Local Open Scope Z_scope.

Inductive Directive := Resume | Restart | Stop | Escalate.
#[export] Instance Directive_eq_dec : EqDecision Directive.
Proof. solve_decision. Defined.

Inductive Scope_ := one_for_one | all_for_one.
#[export] Instance Scope_eq_dec : EqDecision Scope_.
Proof. solve_decision. Defined.

(** [Decider]: user code, so it may throw ([None]). *)
Definition Decider (E : Type) : Type := E → option Directive.

Record SupervisorStrategy (E : Type) := mkStrategy {
  identity : nat;
  scope : Scope_;
  decider : Decider E;
  maxRetries : Z;
  withinTimeRangeMs : Z;
}.
Arguments mkStrategy {E}.
Arguments identity {E}.
Arguments scope {E}.
Arguments decider {E}.
Arguments maxRetries {E}.
Arguments withinTimeRangeMs {E}.

Record StrategyOptions := mkStrategyOptions {
  maxRetries_option : option Z;
  withinTimeRangeMs_option : option Z;
}.

Definition OneForOneStrategy {E} (ident : nat) (d : Decider E) (o : StrategyOptions) : SupervisorStrategy E :=
  mkStrategy ident one_for_one d (default (-1) (maxRetries_option o)) (default 0 (withinTimeRangeMs_option o)).

Definition AllForOneStrategy {E} (ident : nat) (d : Decider E) (o : StrategyOptions) : SupervisorStrategy E :=
  mkStrategy ident all_for_one d (default (-1) (maxRetries_option o)) (default 0 (withinTimeRangeMs_option o)).

(** The three module-level strategies are the objects 0, 1 and 2. *)
Definition defaultStrategy {E} : SupervisorStrategy E :=
  OneForOneStrategy 0 (λ _, Some Restart) (mkStrategyOptions (Some 10) (Some 60000)).
Definition stoppingStrategy {E} : SupervisorStrategy E :=
  OneForOneStrategy 1 (λ _, Some Stop) (mkStrategyOptions None None).
Definition escalatingStrategy {E} : SupervisorStrategy E :=
  OneForOneStrategy 2 (λ _, Some Escalate) (mkStrategyOptions None None).

(** [decideBy]: the first matching case decides. *)
Fixpoint decideBy {E} (cases : list ((E → bool) * Directive)) (fallback : Directive) (err : E) : Directive :=
  match cases with
  | [] => fallback
  | (matches, directive) :: cases => if matches err then directive else decideBy cases fallback err
  end.

(** ** [RestartBudget] *)

Record RestartBudget := mkBudget {
  allowance : Z;
  window : Z;
  failureTimes : list Z;
}.

(** The constructor reads the two allowance fields of a strategy. *)
Definition new_budget {E} (s : SupervisorStrategy E) : RestartBudget :=
  mkBudget (maxRetries s) (withinTimeRangeMs s) [].

Definition registerRestart (now : Z) (b : RestartBudget) : bool * RestartBudget :=
  if allowance b <? 0 then (true, b)
  else
    let kept := if window b >? 0 then filter (λ t, t >= now - window b) (failureTimes b) else failureTimes b in
    if Z.of_nat (length kept) >=? allowance b then (false, mkBudget (allowance b) (window b) kept)
    else (true, mkBudget (allowance b) (window b) (kept ++ [now])).

Definition recordedRestarts (b : RestartBudget) : Z := Z.of_nat (length (failureTimes b)).

(** The answers to a sequence of requests. *)
Fixpoint answers (b : RestartBudget) (requests : list Z) : list bool :=
  match requests with
  | [] => []
  | now :: requests => (registerRestart now b).1 :: answers (registerRestart now b).2 requests
  end.

(** ** The reference: the whole history, nothing forgotten *)

(** Does a grant at [t] still count at [now]? *)
Definition counts (w now t : Z) : Prop := w > 0 → now - w <= t.
#[export] Instance counts_dec w now t : Decision (counts w now t).
Proof. unfold counts. solve_decision. Defined.

Definition granted_ref (limit w : Z) (grants : list Z) (now : Z) : bool :=
  (limit <? 0) || (Z.of_nat (length (filter (counts w now) grants)) <? limit).

Fixpoint answers_ref (limit w : Z) (grants requests : list Z) : list bool :=
  match requests with
  | [] => []
  | now :: requests =>
      granted_ref limit w grants now ::
      answers_ref limit w (if granted_ref limit w grants now then grants ++ [now] else grants) requests
  end.

(** The times at which a sequence of answers granted. *)
Fixpoint granted_times (requests : list Z) (given : list bool) : list Z :=
  match requests, given with
  | now :: requests, true :: given => now :: granted_times requests given
  | _ :: requests, false :: given => granted_times requests given
  | _, _ => []
  end.

Lemma counts_weaken w now later (l : list Z) : now <= later →
  filter (counts w later) (filter (counts w now) l) = filter (counts w later) l.
Proof.
  intros Hle. induction l as [|t l IH]; [done|].
  rewrite !filter_cons. destruct (decide (counts w now t)) as [H|H].
  - rewrite filter_cons. by rewrite IH.
  - rewrite IH. destruct (decide (counts w later t)) as [H'|]; [|done].
    exfalso. apply H. unfold counts in *. lia.
Qed.

(** The budget keeps what still counts. *)
Definition remembers (b : RestartBudget) (last : Z) (grants : list Z) : Prop :=
  0 <= allowance b →
  ∀ now, last <= now → filter (counts (window b) now) (failureTimes b) = filter (counts (window b) now) grants.

Lemma kept_counts b now :
  (if window b >? 0 then filter (λ t, t >= now - window b) (failureTimes b) else failureTimes b)
  = filter (counts (window b) now) (failureTimes b).
Proof.
  destruct (Z.gtb_spec (window b) 0) as [H|H].
  - apply list_filter_iff. intros t. unfold counts. lia.
  - symmetry. apply filter_all. intros t _. unfold counts. lia.
Qed.

Lemma registerRestart_ref b last grants now :
  remembers b last grants → last <= now →
  (registerRestart now b).1 = granted_ref (allowance b) (window b) grants now ∧
  remembers (registerRestart now b).2 now
    (if granted_ref (allowance b) (window b) grants now then grants ++ [now] else grants) ∧
  allowance (registerRestart now b).2 = allowance b ∧ window (registerRestart now b).2 = window b.
Proof.
  intros Hr Hle. unfold registerRestart, granted_ref.
  destruct (Z.ltb_spec (allowance b) 0) as [Hneg|Hpos]; simpl.
  { split_and!; try done. intros H. lia. }
  rewrite kept_counts. rewrite (Hr Hpos now Hle).
  destruct (Z.geb_spec (Z.of_nat (length (filter (counts (window b) now) grants))) (allowance b)) as [Hfull|Hroom];
    [rewrite (proj2 (Z.ltb_ge _ _)) by lia|rewrite (proj2 (Z.ltb_lt _ _)) by lia]; simpl.
  - split_and!; try done. intros _ later Hl. simpl. by apply counts_weaken.
  - split_and!; try done. intros _ later Hl. simpl. rewrite !filter_app. by rewrite counts_weaken.
Qed.

Lemma answers_are_ref requests b last grants :
  remembers b last grants → Forall (λ t, last <= t) requests → StronglySorted Z.le requests →
  answers b requests = answers_ref (allowance b) (window b) grants requests.
Proof.
  revert b last grants. induction requests as [|now requests IH]; intros b last grants Hr Hall Hs; [done|].
  apply Forall_cons in Hall as [Hnow _]. apply StronglySorted_inv in Hs as [Hs Hhd].
  destruct (registerRestart_ref b last grants now Hr Hnow) as (H1 & H2 & H3 & H4).
  simpl. rewrite H1. f_equal. by rewrite (IH _ now _ H2), H3, H4.
Qed.

(** At most [limit] of the grants made so far lie in a window, and this stays. *)
Lemma window_bounded limit w t requests : 0 <= limit → w > 0 → ∀ grants,
  Forall (λ g, Forall (λ r, g <= r) requests) grants → StronglySorted Z.le requests →
  Z.of_nat (length (filter (λ g, t <= g <= t + w) grants)) <= limit →
  Z.of_nat (length (filter (λ g, t <= g <= t + w)
    (grants ++ granted_times requests (answers_ref limit w grants requests)))) <= limit.
Proof.
  intros Hl Hw. induction requests as [|now requests IH]; intros grants Hall Hs Hb; simpl.
  { by rewrite app_nil_r. }
  apply StronglySorted_inv in Hs as [Hs Hhd].
  assert (Hall' : Forall (λ g, Forall (λ r, g <= r) requests) grants).
  { eapply Forall_impl; [exact Hall|]. intros g Hg. by apply Forall_cons in Hg as [_ ?]. }
  destruct (granted_ref limit w grants now) eqn:Eg; [|by apply IH].
  rewrite cons_middle, (assoc_L (++)). apply IH; [|done|].
  { apply Forall_app. split; [done|]. by repeat constructor. }
  rewrite filter_app, length_app, filter_cons. destruct (decide (t <= now <= t + w)) as [Hin|Hout];
    [|simpl; lia].
  apply orb_true_iff in Eg as [Eg%Z.ltb_lt|Eg%Z.ltb_lt]; [lia|].
  assert (Z.of_nat (length (filter (λ g, t <= g <= t + w) grants)) <= Z.of_nat (length (filter (counts w now) grants))).
  { apply inj_le, sublist_length. clear -Hin Hall Hw. induction grants as [|g grants IH]; [done|].
    apply Forall_cons in Hall as [Hg Hall]. apply Forall_cons in Hg as [Hg _].
    rewrite !filter_cons. destruct (decide (t <= g <= t + w)), (decide (counts w now g)) as [|Hno].
    - by apply sublist_skip, IH.
    - exfalso. apply Hno. unfold counts. lia.
    - apply sublist_cons. by apply IH.
    - by apply IH. }
  simpl. lia.
Qed.

(** C36. A restart is granted exactly when fewer than [maxRetries] of all the grants
    made before lie within the last [withinTimeRangeMs] (or at all, without a
    window), although the budget forgets the older ones; so no closed window of
    that length ever holds more than [maxRetries] restarts. *)
Theorem restart_budget_exact {E} (s : SupervisorStrategy E) (requests : list Z) :
  StronglySorted Z.le requests →
  answers (new_budget s) requests = answers_ref (maxRetries s) (withinTimeRangeMs s) [] requests ∧
  (0 <= maxRetries s → withinTimeRangeMs s > 0 → ∀ t,
   Z.of_nat (length (filter (λ g, t <= g <= t + withinTimeRangeMs s)
     (granted_times requests (answers (new_budget s) requests)))) <= maxRetries s).
Proof.
  intros Hs.
  assert (Ha : answers (new_budget s) requests = answers_ref (maxRetries s) (withinTimeRangeMs s) [] requests).
  { destruct requests as [|now requests]; [done|].
    apply (answers_are_ref _ (new_budget s) now []); [by intros ???| |done].
    apply StronglySorted_inv in Hs as [_ Hs]. by constructor. }
  split; [done|]. intros Hl Hw t. rewrite Ha.
  apply (window_bounded (maxRetries s) (withinTimeRangeMs s) t requests Hl Hw []); [done|done|]. done.
Qed.

Lemma restart_budget_exact_witness :
  StronglySorted Z.le [0; 10; 20; 61000] ∧
  answers (new_budget (E := unit) (OneForOneStrategy 3 (λ _, Some Restart) (mkStrategyOptions (Some 2) (Some 60000))))
    [0; 10; 20; 61000] = [true; true; false; true].
Proof.
  assert (Hs : StronglySorted Z.le [0; 10; 20; 61000]) by (repeat constructor; lia).
  split; [done|].
  rewrite (proj1 (restart_budget_exact (E := unit)
    (OneForOneStrategy 3 (λ _, Some Restart) (mkStrategyOptions (Some 2) (Some 60000))) _ Hs)).
  reflexivity.
Defined.

Example decide_first_match :
  decideBy [(λ n, n >? 10, Stop); (λ n, n >? 5, Escalate)] Restart <$> [20; 7; 1] = [Stop; Escalate; Restart].
Proof. reflexivity. Qed.
