(* ===== verification/TokenBucket.v ===== *)
(** * The token bucket: [src/util/TokenBucket.ts]

    Balances are rationals, so refills are exact; the clock is read once per
    call and is an argument of it.  Nothing is assumed of the clock: it may
    stand still or run backwards. *)

From Stdlib Require Import Qround.
From S2P Require Import Prelude Float.

Local Open Scope Q_scope.

Record TokenBucket := mkBucket {
  qps : Q;
  capacity : Q;
  tokens : Q;
  lastRefillAt : Q;
}.

Inductive BucketError := QpsNotPositive | BurstNotPositive.

(** The constructor; a rate that is not finite is refused with the negative ones. *)
Definition construct (rate : float) (burst : option float) (now : Q) : result BucketError TokenBucket :=
  match rate with
  | Fin q =>
      throw_if (Qle_bool q 0) QpsNotPositive;;
      match burst with
      | None => Ok (mkBucket q q q now)
      | Some (Fin b) => throw_if (Qle_bool b 0) BurstNotPositive;; Ok (mkBucket q b b now)
      | Some _ => Err BurstNotPositive
      end
  | _ => Err QpsNotPositive
  end.

Definition refill (now : Q) (b : TokenBucket) : TokenBucket :=
  let elapsedMs := now - lastRefillAt b in
  if Qle_bool elapsedMs 0 then b
  else
    let earned := elapsedMs / 1000 * qps b in
    mkBucket (qps b) (capacity b) (Qmin (capacity b) (tokens b + earned)) now.

Definition tryConsume (n now : Q) (b : TokenBucket) : bool * TokenBucket :=
  if Qle_bool n 0 then (true, b)
  else
    let b := refill now b in
    if Qltb (tokens b) n then (false, b)
    else (true, mkBucket (qps b) (capacity b) (tokens b - n) (lastRefillAt b)).

Definition timeUntilNext (n now : Q) (b : TokenBucket) : Z * TokenBucket :=
  let b := refill now b in
  if Qle_bool n (tokens b) then (0%Z, b)
  else
    let deficit := n - tokens b in
    let ms := deficit / qps b * 1000 in
    (Qceiling ms, b).

Definition currentTokens (now : Q) (b : TokenBucket) : Q * TokenBucket :=
  let b := refill now b in (tokens b, b).

Definition resetToFull (now : Q) (b : TokenBucket) : TokenBucket :=
  mkBucket (qps b) (capacity b) (capacity b) now.

(** ** Invariant *)

Record sane (b : TokenBucket) : Prop := {
  sane_qps : 0 < qps b;
  sane_capacity : 0 < capacity b;
  sane_tokens : 0 <= tokens b <= capacity b;
}.

Lemma Qle_bool_false x y : Qle_bool x y = false → y < x.
Proof.
  intros H. apply Qnot_le_lt. intros Hle%Qle_bool_iff. by rewrite Hle in H.
Qed.

Lemma construct_sane rate burst now b : construct rate burst now = Ok b →
  sane b ∧ tokens b = capacity b ∧ lastRefillAt b = now.
Proof.
  unfold construct. intros H. destruct rate as [q| |]; [|done..].
  apply result_bind_Ok in H as (? & Hq%throw_if_Ok%Qle_bool_false & H).
  destruct burst as [[p| |]|]; [|done..|].
  - apply result_bind_Ok in H as (? & Hp%throw_if_Ok%Qle_bool_false & [= <-]).
    split_and!; [constructor; simpl; lra|done..].
  - injection H as <-. split_and!; [constructor; simpl; lra|done..].
Qed.

Lemma earned_positive b now : sane b → lastRefillAt b < now → 0 <= (now - lastRefillAt b) / 1000 * qps b.
Proof.
  intros [Hq _ _] Hn. apply Qmult_le_0_compat; [|lra]. apply Qle_shift_div_l; lra.
Qed.

(** What a refill does, in the one figure the limits are stated in: the
    tokens, less what the clock has brought. *)
Definition credit (b : TokenBucket) : Q := tokens b - lastRefillAt b / 1000 * qps b.

Lemma refill_facts now b : sane b →
  sane (refill now b) ∧ qps (refill now b) = qps b ∧ capacity (refill now b) = capacity b ∧
  lastRefillAt b <= lastRefillAt (refill now b) ∧
  (lastRefillAt (refill now b) <= lastRefillAt b ∨ lastRefillAt (refill now b) = now) ∧
  tokens b <= tokens (refill now b) ∧ credit (refill now b) <= credit b.
Proof.
  intros Hs. unfold refill. destruct (Qle_bool (now - lastRefillAt b) 0) eqn:E.
  { repeat split; try apply Hs; lra. }
  apply Qle_bool_false in E. pose proof (earned_positive b now Hs ltac:(lra)) as He.
  destruct Hs as [Hq Hc Ht]. cbn [qps capacity tokens lastRefillAt].
  pose proof (Q.le_min_l (capacity b) (tokens b + (now - lastRefillAt b) / 1000 * qps b)).
  pose proof (Q.le_min_r (capacity b) (tokens b + (now - lastRefillAt b) / 1000 * qps b)) as Hr.
  assert (tokens b <= Qmin (capacity b) (tokens b + (now - lastRefillAt b) / 1000 * qps b))
    by (apply Q.min_glb; lra).
  split_and!; [constructor; simpl; lra|done|done|lra|by right|done|].
  - unfold credit. cbn [qps capacity tokens lastRefillAt].
    assert ((now - lastRefillAt b) / 1000 * qps b
      == now / 1000 * qps b - lastRefillAt b / 1000 * qps b) as Heq by (field).
    rewrite Heq in Hr |- *. lra.
Qed.

Lemma tryConsume_facts n now b : sane b →
  let '(ok, b') := tryConsume n now b in
  sane b' ∧ qps b' = qps b ∧ capacity b' = capacity b ∧
  (lastRefillAt b' <= lastRefillAt b ∨ lastRefillAt b' = now) ∧
  credit b' + (if ok then Qmax 0 n else 0) <= credit b.
Proof.
  intros Hs. unfold tryConsume. destruct (Qle_bool n 0) eqn:En.
  { apply Qle_bool_iff in En. split_and!; try done; [left; lra|].
    rewrite Q.max_l by done. lra. }
  apply Qle_bool_false in En.
  destruct (refill_facts now b Hs) as (Hs' & Hq & Hc & _ & Hl & _ & Hcr).
  destruct (Qltb _ n) eqn:El.
  { split_and!; try done. lra. }
  apply Qltb_false in El. destruct Hs' as [Hq' Hc' Ht'].
  cbn [qps capacity tokens lastRefillAt]. split_and!; try done.
  - constructor; simpl; lra.
  - unfold credit in *. cbn [qps capacity tokens lastRefillAt]. rewrite Q.max_r by lra. lra.
Qed.

(** ** Histories *)

(** The tokens handed out over a history of calls [tryConsume(n)] at [now]. *)
Fixpoint consumed (history : list (Q * Q)) (b : TokenBucket) : Q * TokenBucket :=
  match history with
  | [] => (0, b)
  | (n, now) :: history =>
      let '(ok, b) := tryConsume n now b in
      let '(total, b) := consumed history b in
      ((if ok then Qmax 0 n else 0) + total, b)
  end.

Lemma consumed_facts history b latest : sane b → lastRefillAt b <= latest →
  Forall (λ e, e.2 <= latest) history →
  sane (consumed history b).2 ∧ qps (consumed history b).2 = qps b ∧
  lastRefillAt (consumed history b).2 <= latest ∧
  credit (consumed history b).2 + (consumed history b).1 <= credit b.
Proof.
  revert b. induction history as [|[n now] history IH]; intros b Hs Hl Hall.
  { simpl. split_and!; try done. lra. }
  apply Forall_cons in Hall as [Hn Hall]. simpl in Hn. simpl.
  pose proof (tryConsume_facts n now b Hs) as Ht. destruct (tryConsume n now b) as [ok b1].
  destruct Ht as (Hs1 & Hq1 & _ & Hl1 & Hc1).
  assert (lastRefillAt b1 <= latest) as Hl1' by (destruct Hl1 as [?| ->]; lra).
  specialize (IH b1 Hs1 Hl1' Hall). destruct (consumed history b1) as [total b2].
  cbn [fst snd] in *. destruct IH as (? & ? & ? & ?). split_and!; [done|congruence|done|lra].
Qed.

(** However it is called and whatever its clock does, a bucket made at [start]
    hands out at most its capacity plus [qps] tokens per second up to the
    latest reading of the clock. *)
Theorem bucket_rate_bounded (rate : float) (burst : option float) (start latest : Q) (b : TokenBucket)
    (history : list (Q * Q)) :
  construct rate burst start = Ok b → start <= latest → Forall (λ e, e.2 <= latest) history →
  (consumed history b).1 <= capacity b + (latest - start) / 1000 * qps b ∧
  0 <= tokens (consumed history b).2 <= capacity (consumed history b).2.
Proof.
  intros (Hs & Ht & Hstart)%construct_sane Hle Hall. subst start.
  destruct (consumed_facts history b latest Hs Hle Hall) as ([Hq Hc Htk] & Hqq & Hl & Hcr).
  split; [|done]. unfold credit in Hcr. rewrite Ht, Hqq in Hcr. rewrite Hqq in Hq.
  assert (Hm : lastRefillAt (consumed history b).2 / 1000 * qps b <= latest / 1000 * qps b).
  { apply Qmult_le_compat_r; [|lra]. apply Qmult_le_compat_r; [done|]. by compute. }
  assert (Heq : (latest - lastRefillAt b) / 1000 * qps b
    == latest / 1000 * qps b - lastRefillAt b / 1000 * qps b) by field.
  rewrite Heq. lra.
Qed.

Definition ten_per_second : TokenBucket := mkBucket 10 2 2 0.

Lemma bucket_rate_bounded_witness :
  (consumed [(1, 0); (1, 0); (1, 0); (1, 100)] ten_per_second).1 <= 2 + (100 - 0) / 1000 * 10.
Proof.
  apply (bucket_rate_bounded (Fin 10) (Some (Fin 2)) 0 100 ten_per_second
    [(1, 0); (1, 0); (1, 0); (1, 100)]); [reflexivity|lra|].
  repeat constructor; simpl; lra.
Defined.

(** ** Waiting *)

Lemma tryConsume_answer n now b : 0 < n →
  (tryConsume n now b).1 = negb (Qltb (tokens (refill now b)) n).
Proof.
  intros Hn. unfold tryConsume. destruct (Qle_bool n 0) eqn:E; [apply Qle_bool_iff in E; lra|].
  by destruct (Qltb _ n).
Qed.

Lemma refill_clock now b : lastRefillAt b <= now → lastRefillAt (refill now b) == now.
Proof.
  intros Hle. unfold refill. destruct (Qle_bool (now - lastRefillAt b) 0) eqn:E; [|done].
  apply Qle_bool_iff in E. lra.
Qed.

(** A deficit [d] at the rate [q] takes [d / q] seconds. *)
Lemma deficit_time d q : 0 < q → d / q * 1000 / 1000 * q == d.
Proof. intros Hq. field. lra. Qed.

Lemma deficit_positive d q : 0 < q → 0 < d → 0 < d / q * 1000.
Proof. intros Hq Hd. apply Qmult_lt_0_compat; [|lra]. apply Qlt_shift_div_l; lra. Qed.

Lemma refill_after_wait n later b : sane b → n <= capacity b → tokens b < n →
  lastRefillAt b + (n - tokens b) / qps b * 1000 <= later → n <= tokens (refill later b).
Proof.
  intros [Hq Hc Ht] Hcap Hlt Hlater. pose proof (deficit_positive (n - tokens b) (qps b) Hq ltac:(lra)) as Hpos.
  unfold refill. destruct (Qle_bool (later - lastRefillAt b) 0) eqn:E.
  { apply Qle_bool_iff in E. lra. }
  cbn [tokens]. apply Q.min_glb; [done|].
  assert ((n - tokens b) / qps b * 1000 / 1000 * qps b <= (later - lastRefillAt b) / 1000 * qps b) as Hm.
  { apply Qmult_le_compat_r; [|lra]. apply Qmult_le_compat_r; [lra|by compute]. }
  rewrite deficit_time in Hm by done. lra.
Qed.

(** Waiting as long as [timeUntilNext] says is enough for any request the
    bucket can hold; a request above the capacity is refused for ever, although
    [timeUntilNext] always names a delay for it. *)
Theorem bucket_wait_suffices (n now later : Q) (b : TokenBucket) : sane b → 0 < n →
  (n <= capacity b → lastRefillAt b <= now → now + inject_Z (timeUntilNext n now b).1 <= later →
   (tryConsume n later (timeUntilNext n now b).2).1 = true) ∧
  (capacity b < n → (tryConsume n later b).1 = false ∧ (0 < (timeUntilNext n now b).1)%Z).
Proof.
  intros Hs Hn. pose proof (refill_facts now b Hs) as (Hs1 & _ & Hc1 & _).
  assert (Hwait : ¬ n <= tokens (refill now b) →
    0 < (n - tokens (refill now b)) / qps (refill now b) * 1000
      <= inject_Z (Qceiling ((n - tokens (refill now b)) / qps (refill now b) * 1000))).
  { intros H. split; [apply deficit_positive; [apply Hs1|lra]|apply Qle_ceiling]. }
  unfold timeUntilNext. split.
  - intros Hcap Hnow. pose proof (refill_clock now b Hnow) as Hl.
    rewrite tryConsume_answer by done.
    destruct (Qle_bool n _) eqn:E; cbn [fst snd]; intros Hlater;
      rewrite negb_true_iff; apply Qltb_false.
    + apply Qle_bool_iff in E. pose proof (refill_facts later _ Hs1) as (_ & _ & _ & _ & _ & ? & _). lra.
    + apply Qle_bool_false in E. apply refill_after_wait; [done|rewrite Hc1; done|done|].
      specialize (Hwait ltac:(lra)). lra.
  - intros Hcap. pose proof (refill_facts later b Hs) as ([_ _ Ht] & _ & Hc & _).
    rewrite tryConsume_answer, negb_false_iff by done. split; [apply Qltb_true; rewrite <-Hc in Hcap; lra|].
    destruct Hs1 as [_ _ Ht1]. rewrite <-Hc1 in Hcap.
    destruct (Qle_bool n _) eqn:E; cbn [fst].
    + apply Qle_bool_iff in E. lra.
    + apply Qle_bool_false in E. specialize (Hwait ltac:(lra)). rewrite Zlt_Qlt.
      change (inject_Z 0) with 0. lra.
Qed.

Lemma bucket_wait_suffices_witness :
  (tryConsume 1 50 (timeUntilNext 1 0 (mkBucket 10 2 (1#2) 0)).2).1 = true ∧
  (tryConsume 1 1000000 (mkBucket (1#2) (1#2) (1#2) 0)).1 = false.
Proof.
  split.
  - apply (bucket_wait_suffices 1 0 50 (mkBucket 10 2 (1#2) 0)); [|lra|simpl; lra|simpl; lra|by compute].
    constructor; simpl; lra.
  - apply (bucket_wait_suffices 1 0 1000000 (mkBucket (1#2) (1#2) (1#2) 0)); [|lra|simpl; lra].
    constructor; simpl; lra.
Defined.

(** A rate below one token per second with the default burst is such a bucket:
    it holds less than one token and gives none out, ever. *)
Theorem slow_rate_never_gives (q start : Q) : 0 < q → q < 1 →
  ∃ b, construct (Fin q) None start = Ok b ∧
  ∀ history, Forall (λ e, e.1 == 1) history → (consumed history b).1 == 0.
Proof.
  intros Hq H1. unfold construct. destruct (Qle_bool q 0) eqn:E; [apply Qle_bool_iff in E; lra|].
  eexists. split; [reflexivity|]. intros history.
  assert (sane (mkBucket q q q start) ∧ capacity (mkBucket q q q start) < 1) as [Hs Hc]
    by (split; [constructor|]; simpl; lra).
  revert Hs Hc. generalize (mkBucket q q q start). induction history as [|[n now] history IH];
    intros b Hs Hc Hall; [done|].
  apply Forall_cons in Hall as [Hn Hall]. simpl in Hn. simpl.
  pose proof (tryConsume_facts n now b Hs) as Hf. pose proof (tryConsume_answer n now b ltac:(lra)) as Ha.
  pose proof (refill_facts now b Hs) as ([_ _ Ht] & _ & Hc' & _).
  destruct (tryConsume n now b) as [ok b1]. destruct Hf as (Hs1 & _ & Hc1 & _). cbn [fst] in Ha.
  rewrite Hc' in Ht.
  replace (Qltb (tokens (refill now b)) n) with true in Ha by (symmetry; apply Qltb_true; lra).
  subst ok. simpl. specialize (IH b1 Hs1 ltac:(rewrite Hc1; done) Hall).
  destruct (consumed history b1) as [total b2]. cbn [fst] in *. lra.
Qed.

Lemma slow_rate_never_gives_witness :
  ∃ b, construct (Fin (1#2)) None 0 = Ok b ∧
  ∀ history, Forall (λ e, e.1 == 1) history → (consumed history b).1 == 0.
Proof. apply (slow_rate_never_gives (1#2) 0); reflexivity. Defined.
