(* ===== verification/ActorMailbox.v ===== *)
(** * What an actor cell asks of its mailbox

    [ActorCell] is written against the public methods of [Mailbox], which
    every bounded mailbox overrides.  [CellMailbox] is that interface, with the
    three constructors the cell itself calls; [CellMailboxLaws] is what it
    promises: the two lanes stay apart, the system lane is first in, first out
    and loses nothing, a user message is queued, handed out once or reported
    as dropped, an undroppable one is never dropped, and a call that throws
    leaves the mailbox as it was.  The last clause is what [unstashAll] relies
    on when it puts a refused batch back; of the mailboxes of the repository
    only a priority mailbox under [reject] breaks it
    ([priority_unstash_duplicates]). *)

From S2P Require Import Prelude RingBuffer Mailbox.

Local Open Scope Z_scope.

(** [MailboxBound] of [ActorCell.ts]. *)
Record MailboxBound := mkMailboxBound {
  bound_capacity : Z;
  bound_overflow : BoundedMailboxOverflow;
}.

Class CellMailbox (T M : Type) := {
  mb_plain : M;
  mb_bounded : MailboxBound → M;
  mb_controlAware : (T → bool) → option MailboxBound → M;
  mb_enqueue : Envelope T → M → call M;
  mb_enqueueSignal : Envelope T → M → M;
  mb_prependUser : list (Envelope T) → M → call M;
  mb_enqueueSystem : Envelope T → M → M;
  mb_dequeueUser : M → option (Envelope T) * M;
  mb_dequeueSystem : M → option (Envelope T) * M;
  mb_hasMessages : M → bool;
  mb_hasSystemMessages : M → bool;
  mb_suspended : M → bool;
  mb_suspend : M → M;
  mb_resume : M → M;
  mb_drainUser : M → list (Envelope T) * M;
  mb_drainSystem : M → list (Envelope T) * M;
  (** Does it dead-letter what it drops, and what did it report so far? *)
  mb_deadLetterDrops : M → bool;
  mb_reported : M → list (Envelope T);
}.

(** Both lanes, the flag and the reports of a mailbox in one view. *)
Record view (T : Type) := mkView {
  v_users : list (Envelope T);
  v_systems : list (Envelope T);
  v_suspended : bool;
  v_reported : list (Envelope T);
}.
Arguments mkView {T}.
Arguments v_users {T}.
Arguments v_systems {T}.
Arguments v_suspended {T}.
Arguments v_reported {T}.

(** [admits l v v']: the envelopes [l] arrive; some droppable messages, new or
    old, are reported instead of being queued. *)
Record admits {T} (l : list (Envelope T)) (v v' : view T) : Prop := {
  admits_systems : v_systems v' = v_systems v;
  admits_suspended : v_suspended v' = v_suspended v;
  admits_reported : v_reported v `prefix_of` v_reported v';
  admits_all : v_users v' ++ v_reported v' ≡ₚ l ++ v_users v ++ v_reported v;
  admits_signals : ∀ e, e ∈ v_users v → undroppable e = true → e ∈ v_users v';
}.

Class CellMailboxLaws (T M : Type) `{!CellMailbox T M} := {
  mb_users : M → list (Envelope T);
  mb_systems : M → list (Envelope T);
  mb_view m := mkView (mb_users m) (mb_systems m) (mb_suspended m) (mb_reported m);
  mb_plain_ok : mb_view mb_plain = mkView [] [] false [];
  mb_bounded_ok : ∀ b, mb_view (mb_bounded b) = mkView [] [] false [];
  mb_controlAware_ok : ∀ p b, mb_view (mb_controlAware p b) = mkView [] [] false [];
  mb_enqueue_ok : ∀ env m,
    match mb_enqueue env m with
    | (m', Some _) => mb_view m' = mb_view m
    | (m', None) => admits [env] (mb_view m) (mb_view m')
    end;
  mb_enqueueSignal_ok : ∀ env m,
    mb_users (mb_enqueueSignal env m) ≡ₚ env :: mb_users m ∧
    mb_view (mb_enqueueSignal env m) =
      mkView (mb_users (mb_enqueueSignal env m)) (mb_systems m) (mb_suspended m) (mb_reported m);
  mb_prependUser_ok : ∀ envs m,
    match mb_prependUser envs m with
    | (m', Some _) => mb_view m' = mb_view m
    | (m', None) =>
        admits envs (mb_view m) (mb_view m') ∧
        (∀ e, e ∈ envs → undroppable e = true → e ∈ mb_users m')
    end;
  mb_enqueueSystem_ok : ∀ env m,
    mb_view (mb_enqueueSystem env m) = mkView (mb_users m) (mb_systems m ++ [env]) (mb_suspended m) (mb_reported m);
  mb_dequeueUser_ok : ∀ m,
    match mb_dequeueUser m with
    | (None, m') => (mb_suspended m = true ∨ mb_users m = []) ∧ mb_view m' = mb_view m
    | (Some e, m') => mb_suspended m = false ∧ mb_users m ≡ₚ e :: mb_users m' ∧
        mb_view m' = mkView (mb_users m') (mb_systems m) (mb_suspended m) (mb_reported m)
    end;
  mb_dequeueSystem_ok : ∀ m,
    (mb_dequeueSystem m).1 = head (mb_systems m) ∧
    mb_view (mb_dequeueSystem m).2 = mkView (mb_users m) (tail (mb_systems m)) (mb_suspended m) (mb_reported m);
  mb_hasSystemMessages_ok : ∀ m, mb_hasSystemMessages m = negb (bool_decide (mb_systems m = []));
  mb_hasMessages_ok : ∀ m, mb_hasMessages m =
    mb_hasSystemMessages m || (negb (mb_suspended m) && negb (bool_decide (mb_users m = [])));
  mb_suspend_ok : ∀ m, mb_view (mb_suspend m) = mkView (mb_users m) (mb_systems m) true (mb_reported m);
  mb_resume_ok : ∀ m, mb_view (mb_resume m) = mkView (mb_users m) (mb_systems m) false (mb_reported m);
  mb_drainUser_ok : ∀ m, (mb_drainUser m).1 ≡ₚ mb_users m ∧
    mb_view (mb_drainUser m).2 = mkView [] (mb_systems m) (mb_suspended m) (mb_reported m);
  mb_drainSystem_ok : ∀ m, (mb_drainSystem m).1 = mb_systems m ∧
    mb_view (mb_drainSystem m).2 = mkView (mb_users m) [] (mb_suspended m) (mb_reported m);
}.
