(* ===== verification/ActorMailboxes.v ===== *)
(** * The mailboxes a cell is built with

    [AnyMailbox] is what [ActorCell._buildMailbox] and [_adoptControlLane]
    choose from: the plain mailbox, a bounded one, a control-aware one, or any
    of the three handed in by the blueprint, or a priority mailbox that it hands
    in.  It discharges [CellMailbox] and its laws, so what is proved of cells
    holds for the mailboxes of [src/mailbox/], with one exception: a priority
    mailbox with a capacity under [reject] queues part of a replay that it
    refuses ([priority_unstash_duplicates]), keeps no such law, and is left out
    ([never_refuses]). *)

From S2P Require Import Prelude RingBuffer Mailbox ControlAwareMailbox PriorityMailbox ActorMailbox.
Import DroppingMailbox.

Local Open Scope Z_scope.

(** The list interface holds whatever the size. *)
Definition list_laws (max : Z) : FifoLaws list.
Proof. by refine {| fifo_view A l := l; fifo_wf A l := True; fifo_max := max |}. Defined.

Section any.
Context {T : Type}.

Inductive RawMailbox :=
| Plain (m : Mailbox.Mailbox list T)
| Bounded (m : BoundedMailbox.BoundedMailbox list T)
| ControlAware (m : ControlAwareMailbox.ControlAwareMailbox list T)
| Ranked (m : PriorityMailbox.PriorityMailbox T) (systems : list (Envelope T)) (letters : bool).

(** A priority mailbox in another state of suspension. *)
Definition with_suspended (b : bool) (m : PriorityMailbox.PriorityMailbox T) : PriorityMailbox.PriorityMailbox T :=
  PriorityMailbox.mkPriority (PriorityMailbox.priorityFor m) (PriorityMailbox.capacity m) (PriorityMailbox.overflow m)
    (PriorityMailbox.nextSequence m) (PriorityMailbox.ordered m) b (PriorityMailbox.droppedCount m)
    (PriorityMailbox.drops m) (PriorityMailbox.priorityErrors m).

(** The base class of each, and a copy with another one; the user queue that a
    priority mailbox inherits stays empty. *)
Definition base_of (r : RawMailbox) : Mailbox.Mailbox list T :=
  match r with
  | Plain m => m
  | Bounded m => BoundedMailbox.base_of m
  | ControlAware m => ControlAwareMailbox.base_of m
  | Ranked m systems _ => Mailbox.mkMailbox [] systems (PriorityMailbox.suspended m)
  end.

Definition with_base_of (b : Mailbox.Mailbox list T) (r : RawMailbox) : RawMailbox :=
  match r with
  | Plain _ => Plain b
  | Bounded m => Bounded (BoundedMailbox.with_dropping m (with_base (BoundedMailbox.dropping m) b))
  | ControlAware m =>
      ControlAware (ControlAwareMailbox.with_dropping m (with_base (ControlAwareMailbox.dropping m) b))
  | Ranked m _ letters => Ranked (with_suspended (Mailbox.suspended b) m) (Mailbox.systemQueue b) letters
  end.

Definition raw_users (r : RawMailbox) : list (Envelope T) :=
  match r with
  | ControlAware m => ControlAwareMailbox.controlQueue m ++ Mailbox.userQueue (base_of r)
  | Ranked m _ _ => PriorityMailbox.envelopes m
  | _ => Mailbox.userQueue (base_of r)
  end.

Definition raw_drops (r : RawMailbox) : list (MailboxDropReason * Envelope T) :=
  match r with
  | Plain _ => []
  | Bounded m => drops (BoundedMailbox.dropping m)
  | ControlAware m => drops (ControlAwareMailbox.dropping m)
  | Ranked m _ _ => PriorityMailbox.drops m
  end.

(** No capacity, or an overflow that drops. *)
Definition never_refuses (m : PriorityMailbox.PriorityMailbox T) : bool :=
  match PriorityMailbox.capacity m, PriorityMailbox.overflow m with Some _, Reject => false | _, _ => true end.

Definition raw_accounted (r : RawMailbox) : bool :=
  match r with
  | Plain _ => true
  | Bounded m => droppedCount (BoundedMailbox.dropping m) =? Z.of_nat (length (raw_drops r))
  | ControlAware m => droppedCount (ControlAwareMailbox.dropping m) =? Z.of_nat (length (raw_drops r))
  | Ranked m _ _ => never_refuses m
  end.

Definition raw_as_view (r : RawMailbox) : view T :=
  mkView (raw_users r) (Mailbox.systemQueue (base_of r)) (Mailbox.suspended (base_of r)) (raw_drops r).*2.

Definition lift_call {A} (f : A → RawMailbox) (c : call A) : call RawMailbox := (f c.1, c.2).
Definition lift_pair {A B} (f : A → RawMailbox) (c : B * A) : B * RawMailbox := (c.1, f c.2).

Definition raw_enqueue (env : Envelope T) (r : RawMailbox) : call RawMailbox :=
  match r with
  | Plain m => (Plain (Mailbox.enqueue env m), None)
  | Bounded m => lift_call Bounded (BoundedMailbox.enqueue env m)
  | ControlAware m => lift_call ControlAware (ControlAwareMailbox.enqueue env m)
  | Ranked m systems letters => lift_call (λ m, Ranked m systems letters) (PriorityMailbox.enqueue env m)
  end.

Definition raw_enqueueSignal (env : Envelope T) (r : RawMailbox) : RawMailbox :=
  match r with
  | Plain m => Plain (Mailbox.enqueueSignal env m)
  | Bounded m => Bounded (BoundedMailbox.enqueueSignal env m)
  | ControlAware m => ControlAware (ControlAwareMailbox.enqueueSignal env m)
  | Ranked m systems letters => Ranked (PriorityMailbox.enqueueSignal env m) systems letters
  end.

Definition raw_prependUser (envs : list (Envelope T)) (r : RawMailbox) : call RawMailbox :=
  match r with
  | Plain m => (Plain (Mailbox.prependUser envs m), None)
  | Bounded m => lift_call Bounded (BoundedMailbox.prependUser envs m)
  | ControlAware m => lift_call ControlAware (ControlAwareMailbox.prependUser envs m)
  | Ranked m systems letters => lift_call (λ m, Ranked m systems letters) (PriorityMailbox.prependUser envs m)
  end.

Definition raw_dequeueUser (r : RawMailbox) : option (Envelope T) * RawMailbox :=
  match r with
  | Plain m => lift_pair Plain (Mailbox.dequeueUser m)
  | Bounded m => lift_pair Bounded (BoundedMailbox.dequeueUser m)
  | ControlAware m => lift_pair ControlAware (ControlAwareMailbox.dequeueUser m)
  | Ranked m systems letters => lift_pair (λ m, Ranked m systems letters) (PriorityMailbox.dequeueUser m)
  end.

Definition raw_drainUser (r : RawMailbox) : list (Envelope T) * RawMailbox :=
  match r with
  | Plain m => lift_pair Plain (Mailbox.drainUser m)
  | Bounded m => lift_pair Bounded (BoundedMailbox.drainUser m)
  | ControlAware m => lift_pair ControlAware (ControlAwareMailbox.drainUser m)
  | Ranked m systems letters => lift_pair (λ m, Ranked m systems letters) (PriorityMailbox.drainUser m)
  end.

Definition raw_hasMessages (r : RawMailbox) : bool :=
  match r with
  | ControlAware m => ControlAwareMailbox.hasMessages m
  | Ranked m _ _ => Mailbox.hasSystemMessages (base_of r) || negb (PriorityMailbox.suspended m) && PriorityMailbox.hasUserMessages m
  | _ => Mailbox.hasMessages (base_of r)
  end.

Definition raw_deadLetterDrops (r : RawMailbox) : bool :=
  match r with
  | Plain _ => false
  | Bounded m => deadLetterDrops (BoundedMailbox.dropping m)
  | ControlAware m => deadLetterDrops (ControlAwareMailbox.dropping m)
  | Ranked _ _ letters => letters
  end.

(** ** What each operation does to the view *)

Lemma admits_nil (v : view T) : admits [] v v.
Proof. by constructor. Qed.

Lemma raw_dropping_accounted r d :
  raw_accounted r = true → (∃ m, r = Bounded m ∧ d = BoundedMailbox.dropping m) ∨
    (∃ m, r = ControlAware m ∧ d = ControlAwareMailbox.dropping m) → accounted d.
Proof. unfold accounted. intros Ha [(m & -> & ->)|(m & -> & ->)]; simpl in Ha; lia. Qed.

(** An arrival at a bounded queue, as [enqueue_ref] describes it. *)
Lemma enqueue_admits cap ovf env (l l' : list (Envelope T)) log dr sys su :
  BoundedMailbox.enqueue_ref cap ovf env l = (l', log, None) →
  admits [env] (mkView l sys su dr.*2) (mkView l' sys su (dr ++ log).*2).
Proof.
  intros He. pose proof (BoundedMailbox.enqueue_ref_conserves cap ovf env l) as Hc. rewrite He in Hc.
  destruct Hc as [Hp Hs]. constructor; simpl; try done.
  - rewrite fmap_app. by apply prefix_app_r.
  - rewrite fmap_app. rewrite (Permutation_app_comm dr.*2), (assoc_L (++)), <-Hp.
    rewrite (Permutation_app_comm l [env]). by rewrite <-(assoc_L (++)).
  - intros e Hin Hu. destruct Hs as [->|[Hl Hsig]].
    + unfold BoundedMailbox.enqueue_ref in He. destruct (_ >=? _); [|simplify_eq].
      destruct ovf; simplify_eq; [|done].
      destruct (take_first_droppable l).1; simplify_eq.
    + assert (e ∈ signals l') as Hin'.
      { rewrite Hsig. apply elem_of_app. left. by apply list_elem_of_filter. }
      by apply list_elem_of_filter in Hin' as [_ ?].
Qed.

(** A replay into a bounded queue, as [replay_step] describes it. *)
Lemma replay_admits envs adm (l kept : list (Envelope T)) log dr sys su :
  BoundedMailbox.replay_step envs adm l kept log →
  admits envs (mkView l sys su dr.*2) (mkView (adm ++ kept) sys su (dr ++ log).*2) ∧
  (∀ e, e ∈ envs → undroppable e = true → e ∈ adm ++ kept).
Proof.
  intros Hstep. pose proof (BoundedMailbox.replay_step_signals _ _ _ _ _ Hstep) as [Hsn Hso].
  destruct Hstep as (ln & lo & _ & He & _ & Hl & _ & Hlog).
  assert (Hin : ∀ e (a b : list (Envelope T)), signals a = signals b → e ∈ b → undroppable e = true → e ∈ a).
  { intros e a b Heq Hb Hu. assert (e ∈ signals a) as Ha by (rewrite Heq; by apply list_elem_of_filter).
    by apply list_elem_of_filter in Ha as [_ ?]. }
  split; [constructor; simpl; try done|].
  - rewrite fmap_app. by apply prefix_app_r.
  - rewrite fmap_app, Hlog, fmap_app, <-!list_fmap_compose, He, Hl.
    change (snd ∘ pair drop_new) with (id : Envelope T → Envelope T).
    change (snd ∘ pair drop_head) with (id : Envelope T → Envelope T). rewrite !list_fmap_id.
    solve_Permutation.
  - intros e Hi Hu. apply elem_of_app. right. by apply (Hin e kept l).
  - intros e Hi Hu. apply elem_of_app. left. by apply (Hin e adm envs).
Qed.

(** The two bounded mailboxes have room for anything on lists. *)
Definition room (l : list (Envelope T)) (m : Mailbox.Mailbox list T) : FifoLaws list :=
  list_laws (Z.of_nat (length (Mailbox.userQueue m)) + Z.of_nat (length l)).

(** A base operation that touches the user lane only. *)
Definition same_lanes (b b' : Mailbox.Mailbox list T) : Prop :=
  Mailbox.systemQueue b' = Mailbox.systemQueue b ∧ Mailbox.suspended b' = Mailbox.suspended b.

#[local] Instance same_lanes_preorder : PreOrder same_lanes.
Proof. split; [done|]. intros a b c [H1 H2] [H3 H4]. split; congruence. Qed.

Lemma removeOldest_lanes b : same_lanes b (Mailbox.removeOldest b).2.
Proof. unfold Mailbox.removeOldest. by destruct (Mailbox.oldest_loop _ _ _). Qed.

Lemma removeNewest_lanes b : same_lanes b (Mailbox.removeNewest b).2.
Proof. unfold Mailbox.removeNewest. by destruct (Mailbox.newest_loop _ _ _). Qed.

Lemma replay_loop_lanes cap ovf envs adm d :
  same_lanes (base d) (base (BoundedMailbox.replay_loop cap ovf envs adm d).2.1).
Proof.
  revert adm d. induction envs as [|e envs IH]; intros adm d; [done|]. simpl.
  destruct (_ || _); [apply IH|]. destruct ovf; [| |done].
  - pose proof (removeNewest_lanes (base d)) as Hl. destruct (Mailbox.removeNewest (base d)) as [[ev|] b];
      (etrans; [exact Hl|]); match goal with |- same_lanes _ (base (_ _ _ _ _ ?d').2.1) => apply (IH _ d') end.
  - apply (IH _ (reportDrop drop_new e d)).
Qed.

Lemma bounded_enqueue_lanes env (m : BoundedMailbox.BoundedMailbox list T) :
  same_lanes (BoundedMailbox.base_of m) (BoundedMailbox.base_of (BoundedMailbox.enqueue env m).1).
Proof.
  unfold BoundedMailbox.enqueue. destruct (_ >=? _); [|done]. destruct (BoundedMailbox.overflow m); [|done..].
  pose proof (removeOldest_lanes (BoundedMailbox.base_of m)) as Hl.
  by destruct (Mailbox.removeOldest (BoundedMailbox.base_of m)) as [[e|] b].
Qed.

(** What an arrival does to the ordinary class of either bounded mailbox. *)
Lemma bounded_enqueue_raw env (m : BoundedMailbox.BoundedMailbox list T) :
  accounted (BoundedMailbox.dropping m) →
  let '(m', err) := BoundedMailbox.enqueue env m in
  accounted (BoundedMailbox.dropping m') ∧
  match err with
  | Some _ => raw_as_view (Bounded m') = raw_as_view (Bounded m)
  | None => admits [env] (raw_as_view (Bounded m)) (raw_as_view (Bounded m'))
  end.
Proof.
  intros Ha.
  pose proof (@BoundedMailbox.enqueue_spec list _ (room [env] (BoundedMailbox.base_of m)) T env m) as Hs.
  pose proof (BoundedMailbox.enqueue_ref_conserves (BoundedMailbox.capacity m) (BoundedMailbox.overflow m) env
    (Mailbox.userQueue (BoundedMailbox.base_of m))) as Hc.
  pose proof (bounded_enqueue_lanes env m) as Hsys.
  destruct (BoundedMailbox.enqueue env m) as [m' err]. destruct Hsys as [H1 H2]. cbn [fst] in H1, H2.
  destruct (BoundedMailbox.enqueue_ref (BoundedMailbox.capacity m) (BoundedMailbox.overflow m) env
    (Mailbox.userQueue (BoundedMailbox.base_of m))) as [[l log] er] eqn:Er.
  change (@BoundedMailbox.users list _ (room [env] (BoundedMailbox.base_of m)) T m)
    with (Mailbox.userQueue (BoundedMailbox.base_of m)) in Hs. rewrite Er in Hs.
  destruct Hs as ([_ Ha'] & Hu & Hd & -> & _ & _).
  { by split. } { unfold Mailbox.fits. simpl. lia. }
  change (Mailbox.userQueue (BoundedMailbox.base_of m') = l) in Hu.
  split; [done|]. unfold raw_as_view, raw_users, raw_drops. cbn [base_of]. rewrite H1, H2, Hu, Hd.
  destruct er as [er|].
  - destruct Hc as (_ & _ & -> & ->). by rewrite app_nil_r.
  - by eapply enqueue_admits.
Qed.

Lemma bounded_prepend_raw envs (m : BoundedMailbox.BoundedMailbox list T) :
  accounted (BoundedMailbox.dropping m) →
  let '(m', err) := BoundedMailbox.prependUser envs m in
  accounted (BoundedMailbox.dropping m') ∧
  match err with
  | Some _ => raw_as_view (Bounded m') = raw_as_view (Bounded m)
  | None => admits envs (raw_as_view (Bounded m)) (raw_as_view (Bounded m')) ∧
      (∀ e, e ∈ envs → undroppable e = true → e ∈ raw_users (Bounded m'))
  end.
Proof.
  intros Ha.
  pose proof (@BoundedMailbox.prependUser_spec list _ (room envs (BoundedMailbox.base_of m)) T envs m) as Hs.
  assert (Hsys : same_lanes (BoundedMailbox.base_of m) (BoundedMailbox.base_of (BoundedMailbox.prependUser envs m).1)).
  { unfold BoundedMailbox.prependUser. destruct envs as [|e envs]; [done|].
    pose proof (replay_loop_lanes (BoundedMailbox.capacity m) (BoundedMailbox.overflow m) (e :: envs) []
      (BoundedMailbox.dropping m)) as Hl.
    destruct (BoundedMailbox.overflow m); [| |by destruct (BoundedMailbox.replay_refused _ _ _)];
      by destruct (BoundedMailbox.replay_loop _ _ _ _ _) as [adm [d [err|]]]. }
  destruct (BoundedMailbox.prependUser envs m) as [m' [[c]|]]; cbn [fst] in Hsys.
  - destruct Hs as (-> & _); [by split|unfold Mailbox.fits; simpl; lia|done].
  - destruct Hs as (adm & kept & log & [_ Ha'] & Hu & _ & Hd & Hstep & _);
      [by split|unfold Mailbox.fits; simpl; lia|].
    change (Mailbox.userQueue (BoundedMailbox.base_of m') = adm ++ kept) in Hu. destruct Hsys as [H1 H2].
    split; [done|]. unfold raw_as_view, raw_users, raw_drops. cbn [base_of]. rewrite H1, H2, Hu, Hd.
    by apply replay_admits.
Qed.

(** A class in front that takes its share [k] of the arrivals. *)
Lemma admits_front (k l l' c c' u u' : list (Envelope T)) sys sys' su su' r r' :
  admits l (mkView u sys su r) (mkView u' sys' su' r') → c' ≡ₚ k ++ c → l' ≡ₚ k ++ l →
  admits l' (mkView (c ++ u) sys su r) (mkView (c' ++ u') sys' su' r').
Proof.
  intros [Hy Hu Hr Ha Hs] Hc Hl. simpl in *. constructor; simpl; try done.
  - rewrite Hc, Hl, <-!(assoc_L (++)), Ha. solve_Permutation.
  - intros e [Hin|Hin]%elem_of_app Hd; apply elem_of_app; [left; rewrite Hc; set_solver|right; auto].
Qed.

Lemma admits_push env (u : list (Envelope T)) sys su r : admits [env] (mkView u sys su r) (mkView (u ++ [env]) sys su r).
Proof. constructor; simpl; try done; [solve_Permutation|set_solver]. Qed.

Lemma control_enqueue_raw env (m : ControlAwareMailbox.ControlAwareMailbox list T) :
  accounted (ControlAwareMailbox.dropping m) →
  let '(m', err) := ControlAwareMailbox.enqueue env m in
  accounted (ControlAwareMailbox.dropping m') ∧
  match err with
  | Some _ => raw_as_view (ControlAware m') = raw_as_view (ControlAware m)
  | None => admits [env] (raw_as_view (ControlAware m)) (raw_as_view (ControlAware m'))
  end.
Proof.
  intros Ha. destruct (ControlAwareMailbox.is_control m (message env)) eqn:Ec.
  - destruct (ControlAwareMailbox.classesAsControl_spec (message env) m) as [Hb [errs Hm]].
    unfold ControlAwareMailbox.enqueue. destruct (ControlAwareMailbox.classesAsControl (message env) m) as [c m'].
    simpl in Hb, Hm. subst c m'. rewrite Ec. simpl. split; [done|]. unfold raw_as_view, raw_users. simpl.
    apply (admits_front [env] [] [env]); [apply admits_nil|solve_Permutation|done].
  - destruct (ControlAwareMailbox.capacity m) as [cap|] eqn:Ecap.
    + destruct (ControlAwareMailbox.enqueue_ordinary env m cap Ec Ecap) as [errs ->].
      pose proof (bounded_enqueue_raw env (ControlAwareMailbox.as_bounded cap m) Ha) as Hs.
      destruct (BoundedMailbox.enqueue env (ControlAwareMailbox.as_bounded cap m)) as [m' err].
      destruct Hs as [Ha' Hs]. cbn [fst snd]. split; [done|]. destruct err.
      * injection Hs as H1 H2 H3 H4. unfold raw_as_view.
        f_equal; [unfold raw_users; f_equal; exact H1|exact H2|exact H3|exact H4].
      * apply (admits_front [] [env]); [exact Hs|done..].
    + destruct (ControlAwareMailbox.classesAsControl_spec (message env) m) as [Hb [errs Hm]].
      unfold ControlAwareMailbox.enqueue. destruct (ControlAwareMailbox.classesAsControl (message env) m) as [c m'].
      simpl in Hb, Hm. subst c m'. rewrite Ec. simpl. rewrite Ecap. split; [done|].
      unfold raw_as_view, raw_users. simpl. apply (admits_front [] [env]); [apply admits_push|done..].
Qed.

Lemma control_signal_raw env (m : ControlAwareMailbox.ControlAwareMailbox list T) :
  let m' := ControlAwareMailbox.enqueueSignal env m in
  raw_accounted (ControlAware m') = raw_accounted (ControlAware m) ∧
  raw_users (ControlAware m') ≡ₚ env :: raw_users (ControlAware m) ∧
  same_lanes (base_of (ControlAware m)) (base_of (ControlAware m')) ∧
  raw_drops (ControlAware m') = raw_drops (ControlAware m).
Proof.
  destruct (ControlAwareMailbox.classesAsControl_spec (message env) m) as [Hb [errs Hm]].
  unfold ControlAwareMailbox.enqueueSignal.
  destruct (ControlAwareMailbox.classesAsControl (message env) m) as [c m'].
  simpl in Hb, Hm. subst m'. destruct c; simpl; split_and!; try done; solve_Permutation.
Qed.

Lemma control_prepend_raw envs (m : ControlAwareMailbox.ControlAwareMailbox list T) :
  accounted (ControlAwareMailbox.dropping m) →
  let '(m', err) := ControlAwareMailbox.prependUser envs m in
  accounted (ControlAwareMailbox.dropping m') ∧
  match err with
  | Some _ => raw_as_view (ControlAware m') = raw_as_view (ControlAware m)
  | None => admits envs (raw_as_view (ControlAware m)) (raw_as_view (ControlAware m')) ∧
      (∀ e, e ∈ envs → undroppable e = true → e ∈ raw_users (ControlAware m'))
  end.
Proof.
  intros Ha. destruct envs as [|e0 envs0].
  { split; [done|]. split; [apply admits_nil|]. intros e He. by apply elem_of_nil in He. }
  unfold ControlAwareMailbox.prependUser. set (envs := e0 :: envs0).
  change (match envs with [] => (m, None) | _ :: _ => ?b end) with b.
  destruct (ControlAwareMailbox.split_classes_spec envs [] [] m) as [errs ->]. cbn [app].
  pose proof (ControlAwareMailbox.classes_partition m envs) as Hp.
  set (control := filter _ envs) in *. set (ordinary := filter (λ e, _ = false) envs) in *.
  clearbody control ordinary envs.
  set (m1 := ControlAwareMailbox.with_errors m errs).
  pose proof (@ControlAwareMailbox.admitOrdinaryReplay_spec list _ (room ordinary (ControlAwareMailbox.base_of m)) T
    ordinary m1) as Hs.
  assert (Hl : same_lanes (ControlAwareMailbox.base_of m1)
    (ControlAwareMailbox.base_of (ControlAwareMailbox.admitOrdinaryReplay ordinary m1).2.1)).
  { unfold ControlAwareMailbox.admitOrdinaryReplay. destruct (ControlAwareMailbox.capacity m1) as [cap|]; [|done].
    destruct ordinary as [|o os]; [done|].
    pose proof (replay_loop_lanes cap (ControlAwareMailbox.overflow m1) (o :: os) []
      (ControlAwareMailbox.dropping m1)) as Hl.
    destruct (ControlAwareMailbox.overflow m1); [| |by destruct (BoundedMailbox.replay_refused _ _ _)];
      by destruct (BoundedMailbox.replay_loop _ _ _ _ _) as [adm [d err]]. }
  destruct (ControlAwareMailbox.admitOrdinaryReplay ordinary m1) as [adm [m2 [err|]]].
  - destruct Hs as [-> _]; [done..|unfold Mailbox.fits, m1; simpl; reflexivity|]. done.
  - destruct Hs as (d' & log & -> & _ & Ha' & Hd & Hstep & _); [done..|unfold Mailbox.fits, m1; simpl; reflexivity|].
    split; [done|]. destruct Hl as [H1 H2]. simpl in H1, H2.
    destruct (replay_admits ordinary adm (Mailbox.userQueue (ControlAwareMailbox.base_of m))
      (Mailbox.userQueue (base d')) log (drops (ControlAwareMailbox.dropping m))
      (Mailbox.systemQueue (ControlAwareMailbox.base_of m)) (Mailbox.suspended (ControlAwareMailbox.base_of m)))
      as [Hadm Hsig]; [exact Hstep|].
    split.
    + change (drops d' = drops (ControlAwareMailbox.dropping m) ++ log) in Hd. rewrite <-Hd in Hadm. destruct Hadm as [? ? ? ? ?]. apply (admits_front control ordinary); [|done..].
      constructor; done.
    + intros e He Hu. unfold raw_users. simpl. rewrite Hp in He. apply elem_of_app in He as [He|He].
      * set_solver.
      * specialize (Hsig e He Hu). set_solver.
Qed.

(** ** The priority mailbox *)

Lemma admits_trans l1 l2 (v v1 v2 : view T) : admits l1 v v1 → admits l2 v1 v2 → admits (l1 ++ l2) v v2.
Proof.
  intros [Y1 S1 R1 A1 G1] [Y2 S2 R2 A2 G2]. constructor; [congruence..|by transitivity (v_reported v1)| |auto].
  rewrite A2, A1. solve_Permutation.
Qed.

(** What an operation of the class leaves alone, and what a priority mailbox
    shows a cell. *)
Definition ranked_view (m : PriorityMailbox.PriorityMailbox T) (systems : list (Envelope T)) : view T :=
  mkView (PriorityMailbox.envelopes m) systems (PriorityMailbox.suspended m) (PriorityMailbox.drops m).*2.

Lemma ranked_insert env (m : PriorityMailbox.PriorityMailbox T) :
  PriorityMailbox.envelopes (PriorityMailbox.insert env m) ≡ₚ env :: PriorityMailbox.envelopes m ∧
  PriorityMailbox.suspended (PriorityMailbox.insert env m) = PriorityMailbox.suspended m ∧
  PriorityMailbox.drops (PriorityMailbox.insert env m) = PriorityMailbox.drops m ∧
  never_refuses (PriorityMailbox.insert env m) = never_refuses m.
Proof.
  unfold PriorityMailbox.insert, never_refuses.
  destruct (PriorityMailbox.priorityOf_spec (message env) m) as (_ & _ & Ho & _ & _ & Hd & _ & Hc & Hv & Hs).
  destruct (PriorityMailbox.priorityOf (message env) m) as [p m']. cbn [snd] in *.
  split_and!; [|done..|by cbn; rewrite Hc, Hv]. unfold PriorityMailbox.envelopes. cbn [PriorityMailbox.ordered]. rewrite Ho.
  set (k := PriorityMailbox.search _ _ _ _ _). rewrite <-(take_drop k (PriorityMailbox.ordered m)) at 3.
  rewrite !fmap_app. cbn [fmap list_fmap PriorityMailbox.envelope]. solve_Permutation.
Qed.

Lemma ranked_insert_admits env (m : PriorityMailbox.PriorityMailbox T) systems :
  admits [env] (ranked_view m systems) (ranked_view (PriorityMailbox.insert env m) systems) ∧
  env ∈ PriorityMailbox.envelopes (PriorityMailbox.insert env m).
Proof.
  destruct (ranked_insert env m) as (Hu & Hs & Hd & _). split; [|rewrite Hu; set_solver]. unfold ranked_view.
  constructor; cbn; [done|done|by rewrite Hd|by rewrite Hu, Hd|]. intros e He _. rewrite Hu. set_solver.
Qed.

(** What is shed was queued or arrived, and may be dropped. *)
Lemma ranked_shed_admits env (m : PriorityMailbox.PriorityMailbox T) systems :
  admits [env] (ranked_view m systems) (ranked_view (PriorityMailbox.shedLeastImportant env m) systems) ∧
  never_refuses (PriorityMailbox.shedLeastImportant env m) = never_refuses m.
Proof.
  destruct (ranked_insert env m) as (Hu & Hs & Hd & Hn). destruct (ranked_insert_admits env m systems) as [Ha _].
  unfold PriorityMailbox.shedLeastImportant, PriorityMailbox.removeOldest.
  pose proof (PriorityMailbox.splice_spec (PriorityMailbox.ordered (PriorityMailbox.insert env m))) as Hsp.
  destruct (PriorityMailbox.splice_last_droppable _) as [[shed|] l].
  - destruct Hsp as (Hdrop & Hp & _). split; [|exact Hn]. apply (fmap_Permutation PriorityMailbox.envelope) in Hp.
    unfold PriorityMailbox.envelopes in Hu. rewrite Hp in Hu. cbn [fmap list_fmap] in Hu.
    unfold ranked_view. constructor; cbn; [done|done| | |].
    + rewrite Hd, fmap_app. by apply prefix_app_r.
    + rewrite Hd, fmap_app. cbn. unfold PriorityMailbox.envelopes in *. cbn.
      transitivity ((PriorityMailbox.envelope shed :: (PriorityMailbox.envelope <$> l)) ++ (PriorityMailbox.drops m).*2);
        [solve_Permutation|by rewrite Hu].
    + intros e He Hue. unfold PriorityMailbox.envelopes in *. cbn. assert (Hin : e ∈ env :: (PriorityMailbox.envelope <$> PriorityMailbox.ordered m)) by set_solver.
      rewrite <-Hu in Hin. apply elem_of_cons in Hin as [->|Hin]; [congruence|done].
  - destruct Hsp as [-> _]. destruct (PriorityMailbox.insert env m). by split.
Qed.

Lemma ranked_enqueue env (m : PriorityMailbox.PriorityMailbox T) systems : never_refuses m = true →
  let r := PriorityMailbox.enqueue env m in
  r.2 = None ∧ never_refuses r.1 = true ∧ admits [env] (ranked_view m systems) (ranked_view r.1 systems).
Proof.
  intros Hn. destruct (ranked_insert env m) as (_ & _ & _ & Hni). destruct (ranked_insert_admits env m systems) as [Ha _].
  destruct (ranked_shed_admits env m systems) as [Hsa Hsn]. unfold PriorityMailbox.enqueue.
  assert (Hi : never_refuses (PriorityMailbox.insert env m) = true) by congruence.
  destruct (PriorityMailbox.capacity m) as [cap|] eqn:Ec; [|done]. destruct (_ >=? cap); [|done].
  destruct (PriorityMailbox.overflow m) eqn:Eo.
  - cbn. split_and!; [done|congruence|done].
  - cbn. split_and!; [done|by unfold never_refuses in *|]. constructor; cbn; try done.
    + rewrite fmap_app. by apply prefix_app_r.
    + rewrite fmap_app. cbn. unfold PriorityMailbox.envelopes. cbn. solve_Permutation.
  - unfold never_refuses in Hn. by rewrite Ec, Eo in Hn.
Qed.

(** A replay of a batch, envelope by envelope. *)
Lemma ranked_prepend envs (m : PriorityMailbox.PriorityMailbox T) systems : never_refuses m = true →
  let r := PriorityMailbox.prependUser envs m in
  r.2 = None ∧ never_refuses r.1 = true ∧ admits envs (ranked_view m systems) (ranked_view r.1 systems) ∧
  ∀ e, e ∈ envs → undroppable e = true → e ∈ PriorityMailbox.envelopes r.1.
Proof.
  revert m. induction envs as [|e envs IH]; intros m Hn.
  { cbn. split_and!; [done|done|by constructor|]. by intros ? ?%elem_of_nil. }
  cbn [PriorityMailbox.prependUser]. destruct (undroppable e) eqn:Eu.
  - destruct (ranked_insert e m) as (_ & _ & _ & Hni). destruct (ranked_insert_admits e m systems) as [Ha Hin].
    change (PriorityMailbox.enqueueSignal e m) with (PriorityMailbox.insert e m).
    destruct (IH (PriorityMailbox.insert e m)) as (-> & Hn' & Ha' & Hs'); [congruence|].
    split_and!; [done|done|exact (admits_trans [e] envs _ _ _ Ha Ha')|].
    intros e' [->|He']%elem_of_cons Hu; [exact (admits_signals _ _ _ Ha' e Hin Hu)|by apply Hs'].
  - destruct (ranked_enqueue e m systems Hn) as (Hr & Hn1 & Ha).
    destruct (PriorityMailbox.enqueue e m) as [m1 err]. cbn [fst snd] in *. subst err.
    destruct (IH m1 Hn1) as (-> & Hn' & Ha' & Hs').
    split_and!; [done|done|exact (admits_trans [e] envs _ _ _ Ha Ha')|].
    intros e' [->|He']%elem_of_cons Hu; [congruence|by apply Hs'].
Qed.

(** ** The four together *)

Lemma accounted_raw (r : RawMailbox) : raw_accounted r = true ↔
  match r with
  | Plain _ => True
  | Bounded m => accounted (BoundedMailbox.dropping m)
  | ControlAware m => accounted (ControlAwareMailbox.dropping m)
  | Ranked m _ _ => never_refuses m = true
  end.
Proof. destruct r; simpl; unfold accounted; done || lia. Qed.

Lemma raw_enqueue_ok env r : raw_accounted r = true →
  raw_accounted (raw_enqueue env r).1 = true ∧
  match (raw_enqueue env r).2 with
  | Some _ => raw_as_view (raw_enqueue env r).1 = raw_as_view r
  | None => admits [env] (raw_as_view r) (raw_as_view (raw_enqueue env r).1)
  end.
Proof.
  intros Ha%accounted_raw. rewrite accounted_raw. destruct r as [m|m|m|m systems letters]; simpl.
  - split; [done|apply admits_push].
  - pose proof (bounded_enqueue_raw env m Ha). by destruct (BoundedMailbox.enqueue env m).
  - pose proof (control_enqueue_raw env m Ha). by destruct (ControlAwareMailbox.enqueue env m).
  - destruct (ranked_enqueue env m systems Ha) as (-> & Hn & Hadm). by split.
Qed.

Lemma raw_prependUser_ok envs r : raw_accounted r = true →
  raw_accounted (raw_prependUser envs r).1 = true ∧
  match (raw_prependUser envs r).2 with
  | Some _ => raw_as_view (raw_prependUser envs r).1 = raw_as_view r
  | None => admits envs (raw_as_view r) (raw_as_view (raw_prependUser envs r).1) ∧
      (∀ e, e ∈ envs → undroppable e = true → e ∈ raw_users (raw_prependUser envs r).1)
  end.
Proof.
  intros Ha%accounted_raw. rewrite accounted_raw. destruct r as [m|m|m|m systems letters]; simpl.
  - split; [done|]. split; [|unfold raw_users; simpl; set_solver].
    constructor; simpl; try done; unfold raw_users; simpl; [by rewrite (assoc_L (++))|set_solver].
  - pose proof (bounded_prepend_raw envs m Ha). by destruct (BoundedMailbox.prependUser envs m).
  - pose proof (control_prepend_raw envs m Ha). by destruct (ControlAwareMailbox.prependUser envs m).
  - destruct (ranked_prepend envs m systems Ha) as (-> & Hn & Hadm). by split.
Qed.

Lemma raw_enqueueSignal_ok env r :
  raw_accounted (raw_enqueueSignal env r) = raw_accounted r ∧
  raw_users (raw_enqueueSignal env r) ≡ₚ env :: raw_users r ∧
  raw_as_view (raw_enqueueSignal env r) =
    mkView (raw_users (raw_enqueueSignal env r)) (v_systems (raw_as_view r)) (v_suspended (raw_as_view r))
      (v_reported (raw_as_view r)).
Proof.
  destruct r as [m|m|m|m systems letters].
  - split_and!; [done| |done]. unfold raw_users. simpl. solve_Permutation.
  - split_and!; [done| |done]. unfold raw_users. simpl. solve_Permutation.
  - destruct (control_signal_raw env m) as (H1 & H2 & [H3 H4] & H5). split_and!; [done|done|].
    unfold raw_as_view. simpl raw_enqueueSignal. by rewrite H3, H4, H5.
  - destruct (ranked_insert env m) as (Hu & Hs & Hd & Hn). split_and!; [exact Hn|exact Hu|].
    unfold raw_as_view. cbn. change (PriorityMailbox.enqueueSignal env m) with (PriorityMailbox.insert env m). by rewrite Hs, Hd.
Qed.

Lemma raw_dequeueUser_ok r :
  raw_accounted (raw_dequeueUser r).2 = raw_accounted r ∧
  match (raw_dequeueUser r).1 with
  | None => (v_suspended (raw_as_view r) = true ∨ raw_users r = []) ∧
      raw_as_view (raw_dequeueUser r).2 = raw_as_view r
  | Some e => v_suspended (raw_as_view r) = false ∧ raw_users r ≡ₚ e :: raw_users (raw_dequeueUser r).2 ∧
      raw_as_view (raw_dequeueUser r).2 =
        mkView (raw_users (raw_dequeueUser r).2) (v_systems (raw_as_view r)) (v_suspended (raw_as_view r))
          (v_reported (raw_as_view r))
  end.
Proof.
  destruct r as [[u y su]|[[[u y su] o n d nt dl] c ov]|[[[u y su] o n d nt dl] q p c ov er]|[p c ov ns q su dc d er] y dl];
    unfold raw_as_view, raw_users, raw_drops; simpl.
  - unfold Mailbox.dequeueUser. destruct su; simpl; [auto|]. destruct u; simpl; auto.
  - unfold BoundedMailbox.dequeueUser, Mailbox.dequeueUser. simpl. destruct su; simpl; [auto|].
    destruct u; simpl; auto.
  - unfold ControlAwareMailbox.dequeueUser, Mailbox.dequeueUser. simpl. destruct su; simpl; [auto|].
    destruct q; simpl; [destruct u; simpl; auto|auto].
  - unfold PriorityMailbox.dequeueUser, PriorityMailbox.envelopes. simpl. destruct su; simpl; [auto|]. destruct q; simpl; auto.
Qed.

Lemma raw_drainUser_ok r :
  raw_accounted (raw_drainUser r).2 = raw_accounted r ∧ (raw_drainUser r).1 = raw_users r ∧
  raw_as_view (raw_drainUser r).2 =
    mkView [] (v_systems (raw_as_view r)) (v_suspended (raw_as_view r)) (v_reported (raw_as_view r)).
Proof. by destruct r. Qed.

Lemma raw_hasMessages_ok r : raw_hasMessages r =
  Mailbox.hasSystemMessages (base_of r) ||
  (negb (v_suspended (raw_as_view r)) && negb (bool_decide (raw_users r = []))).
Proof.
  destruct r as [[u y su]|[[[u y su] o n d nt dl] c ov]|[[[u y su] o n d nt dl] q p c ov er]|[p c ov ns q su dc d er] y dl];
    unfold raw_as_view, raw_users; simpl.
  - by destruct u.
  - by destruct u.
  - unfold ControlAwareMailbox.hasMessages, Mailbox.hasMessages, Mailbox.hasUserMessages. simpl.
    destruct su; simpl; [by rewrite orb_false_r|]. by destruct (Mailbox.hasSystemMessages _), q, u.
  - unfold PriorityMailbox.hasUserMessages, PriorityMailbox.envelopes. simpl. by destruct q.
Qed.

(** A mailbox whose drop counter is right, as every mailbox built is, or a
    priority mailbox that never refuses. *)
Record AnyMailbox := mkAny {
  raw : RawMailbox;
  raw_ok : raw_accounted raw = true;
}.

#[export] Instance AnyMailbox_cell : CellMailbox T AnyMailbox.
Proof.
  refine {|
    mb_plain := mkAny (Plain Mailbox.empty) eq_refl;
    mb_bounded b := mkAny (Bounded (BoundedMailbox.construct (bound_capacity b) (Some (bound_overflow b)) None None)) eq_refl;
    mb_controlAware p b := mkAny (ControlAware (ControlAwareMailbox.construct (λ m, Answered (p m))
        (bound_capacity <$> b) (bound_overflow <$> b) None None)) eq_refl;
    mb_enqueue env m := (mkAny (raw_enqueue env (raw m)).1 _, (raw_enqueue env (raw m)).2);
    mb_enqueueSignal env m := mkAny (raw_enqueueSignal env (raw m)) _;
    mb_prependUser envs m := (mkAny (raw_prependUser envs (raw m)).1 _, (raw_prependUser envs (raw m)).2);
    mb_enqueueSystem env m := mkAny (with_base_of (Mailbox.enqueueSystem env (base_of (raw m))) (raw m)) _;
    mb_dequeueUser m := ((raw_dequeueUser (raw m)).1, mkAny (raw_dequeueUser (raw m)).2 _);
    mb_dequeueSystem m := ((Mailbox.dequeueSystem (base_of (raw m))).1,
      mkAny (with_base_of (Mailbox.dequeueSystem (base_of (raw m))).2 (raw m)) _);
    mb_hasMessages m := raw_hasMessages (raw m);
    mb_hasSystemMessages m := Mailbox.hasSystemMessages (base_of (raw m));
    mb_suspended m := Mailbox.suspended (base_of (raw m));
    mb_suspend m := mkAny (with_base_of (Mailbox.suspend (base_of (raw m))) (raw m)) _;
    mb_resume m := mkAny (with_base_of (Mailbox.resume (base_of (raw m))) (raw m)) _;
    mb_drainUser m := ((raw_drainUser (raw m)).1, mkAny (raw_drainUser (raw m)).2 _);
    mb_drainSystem m := ((Mailbox.drainSystem (base_of (raw m))).1,
      mkAny (with_base_of (Mailbox.drainSystem (base_of (raw m))).2 (raw m)) _);
    mb_deadLetterDrops m := raw_deadLetterDrops (raw m);
    mb_reported m := (raw_drops (raw m)).*2;
  |}.
  - apply raw_enqueue_ok, raw_ok.
  - rewrite (proj1 (raw_enqueueSignal_ok env (raw m))). apply raw_ok.
  - apply raw_prependUser_ok, raw_ok.
  - destruct m as [[]]; done.
  - rewrite (proj1 (raw_dequeueUser_ok (raw m))). apply raw_ok.
  - destruct m as [[]]; done.
  - destruct m as [[]]; done.
  - destruct m as [[]]; done.
  - rewrite (proj1 (raw_drainUser_ok (raw m))). apply raw_ok.
  - destruct m as [[]]; done.
Defined.

(** The mailboxes of the repository keep what the cell relies on. *)
#[export] Instance AnyMailbox_laws : CellMailboxLaws T AnyMailbox.
Proof.
  refine {| mb_users m := raw_users (raw m); mb_systems m := Mailbox.systemQueue (base_of (raw m)) |}.
  - done.
  - done.
  - done.
  - intros env [r Hr]. pose proof (raw_enqueue_ok env r Hr) as [_ H]. simpl. by destruct (raw_enqueue env r).2.
  - intros env [r Hr]. pose proof (raw_enqueueSignal_ok env r) as (_ & H1 & H2). by split.
  - intros envs [r Hr]. pose proof (raw_prependUser_ok envs r Hr) as [_ H]. simpl.
    by destruct (raw_prependUser envs r).2.
  - intros env [[] Hr]; done.
  - intros [r Hr]. pose proof (raw_dequeueUser_ok r) as [_ H]. simpl. by destruct (raw_dequeueUser r).1.
  - intros [r Hr]. destruct r; simpl; split; done.
  - intros [r Hr]. change (Mailbox.hasSystemMessages (base_of r) = negb (bool_decide (Mailbox.systemQueue (base_of r) = []))).
    unfold Mailbox.hasSystemMessages. simpl. by destruct (Mailbox.systemQueue (base_of r)).
  - intros [r Hr]. apply raw_hasMessages_ok.
  - intros [[] Hr]; done.
  - intros [[] Hr]; done.
  - intros [r Hr]. pose proof (raw_drainUser_ok r) as (_ & H1 & H2). simpl. by rewrite H1.
  - intros [r Hr]. destruct r; simpl; split; done.
Defined.

End any.
