(* ===== verification/ActorCell.v ===== *)
(** * The actor cell: [src/internal/ActorCell.ts]

    A cell owns an actor's mailbox, children, watches, stash and throttle, and
    takes the actor through its life.  Cells form a tree; [ActorSystem] is the
    array of all cells ever built, a [CellId] an index into it.

    Cells run in turns.  [schedule] hands a turn to the dispatcher, where it is
    [Armed]; the dispatcher starts it, and from then on it is at the head of
    the loop of [run] ([Loop]) or waits for user code to end ([Running]).  One
    event is one step of one turn, up to the next [await] or call of user code,
    so other cells, timers and senders may act in between.  User code is
    arbitrary: while it runs, and after, it may call any method of its context
    ([Context]); how it ends is part of the event ([Finish]).

    Left out: logging, metrics, tracing, display names, the explain plan, the
    development check of message boundaries, the timers of [CellTimerScheduler], remote death watch beyond the refs it
    registers, and the message a failure carries, which nothing reads. *)

From Stdlib Require Import Ascii String QArith.
From stdpp Require Import pretty.
From S2P Require Import Prelude Mailbox ActorMailbox Supervision Float TokenBucket.

Local Open Scope Z_scope.

(** ** Paths and refs *)

(** [ActorPath]: the names from the root down, and the incarnation. *)
Record ActorPath := mkPath {
  elements : list string;
  uid : Z;
}.
#[export] Instance ActorPath_eq_dec : EqDecision ActorPath.
Proof. solve_decision. Defined.

Definition RESERVED_NAME_PREFIX : string := "$".
Definition USER_GUARDIAN_NAME : string := "user".
Definition GUARDIAN_SHUTDOWN_ORDER : list string := ["user"; "system"].
Definition DEFAULT_STASH_CAPACITY : Z := 1024.
Definition DEFAULT_MAILBOX_OVERFLOW : BoundedMailboxOverflow := OverflowDropHead.

Definition isControlCharacter (a : ascii) : bool :=
  let code := nat_of_ascii a in (code <? 32)%nat || (code =? 127)%nat.

Definition hasControlCharacter (name : string) : bool := existsb isControlCharacter (list_ascii_of_string name).

Definition includes (name : string) (c : ascii) : bool := existsb (Ascii.eqb c) (list_ascii_of_string name).

(** [assertValidName] below the root, where it decides whether a path is built. *)
Definition validName (name : string) : bool :=
  negb (bool_decide (name = "")) && negb (includes name "/" || includes name "\")
  && negb (bool_decide (name ∈ ["."; ".."])) && negb (hasControlCharacter name).

Definition userAssignable (name : string) : bool := negb (String.prefix RESERVED_NAME_PREFIX name).

Abbreviation CellId := nat.

(** [cell] is the cell behind a [LocalActorRef], [None] for any other ref. *)
Record ActorRef := mkRef {
  ref_path : ActorPath;
  cell : option CellId;
}.
#[export] Instance ActorRef_eq_dec : EqDecision ActorRef.
Proof. solve_decision. Defined.

(** ** Messages and commands *)

Inductive Cause_ (E : Type) :=
| UserError (e : E)
| ActorKilledError
| ActorInitializationError (e : E).
Arguments UserError {E}.
Arguments ActorKilledError {E}.
Arguments ActorInitializationError {E}.

Inductive SystemCommand_ (E : Type) :=
| create
| terminate
| recreate (cause : Cause_ E)
| suspend
| resume
| failure (cause : Cause_ E) (child : ActorRef)
| childTerminated (child : ActorRef)
| watchNotify (target : ActorRef) (existenceConfirmed addressTerminated : bool)
| receiveTimeout.
Arguments create {E}.
Arguments terminate {E}.
Arguments recreate {E}.
Arguments suspend {E}.
Arguments resume {E}.
Arguments failure {E}.
Arguments childTerminated {E}.
Arguments watchNotify {E}.
Arguments receiveTimeout {E}.

(** [framework]: the signal carries the brand of [frameworkTerminated]. *)
Record Terminated_ := mkTerminated {
  actor_of : ActorRef;
  existenceConfirmed : bool;
  addressTerminated : bool;
  framework : bool;
}.

(** What travels in either lane of a mailbox. *)
Inductive Message_ (T E : Type) :=
| User (m : T)
| PoisonPill
| Kill
| ReceiveTimeout
| Terminated (t : Terminated_)
| Command (c : SystemCommand_ E).
Arguments User {T E}.
Arguments PoisonPill {T E}.
Arguments Kill {T E}.
Arguments ReceiveTimeout {T E}.
Arguments Terminated {T E}.
Arguments Command {T E}.

#[export] Instance Cause_eq_dec {E} `{EqDecision E} : EqDecision (Cause_ E).
Proof. solve_decision. Defined.
#[export] Instance SystemCommand_eq_dec {E} `{EqDecision E} : EqDecision (SystemCommand_ E).
Proof. solve_decision. Defined.
#[export] Instance Terminated_eq_dec : EqDecision Terminated_.
Proof. solve_decision. Defined.
#[export] Instance Message_eq_dec {T E} `{EqDecision T, EqDecision E} : EqDecision (Message_ T E).
Proof. solve_decision. Defined.

Inductive CellState := creating | running | suspended | terminating | terminated.
#[export] Instance CellState_eq_dec : EqDecision CellState.
Proof. solve_decision. Defined.

Inductive ThrottleOnExcess := pause | discard.

(** [watchKeyOf]: the rendered path and the uid; the uid is the text after the
    last [#], so the pair is that key. *)
Definition WatchKey : Type := string * Z.

(** [Map] operations on insertion-ordered entries. *)
Section entries.
Context {K V : Type} `{EqDecision K}.

Definition entry_get (l : list (K * V)) (k : K) : option V :=
  snd <$> find (λ e, bool_decide (e.1 = k)) l.
Definition entry_delete (l : list (K * V)) (k : K) : list (K * V) := filter (λ e, e.1 ≠ k) l.
Definition entry_set (l : list (K * V)) (k : K) (v : V) : list (K * V) :=
  match entry_get l k with
  | Some _ => (λ e, if bool_decide (e.1 = k) then (k, v) else e) <$> l
  | None => l ++ [(k, v)]
  end.
End entries.

(** [Set.add], [Set.delete]. *)
Definition ref_add (l : list ActorRef) (r : ActorRef) : list ActorRef :=
  if bool_decide (r ∈ l) then l else l ++ [r].
Definition ref_delete (l : list ActorRef) (r : ActorRef) : list ActorRef := filter (λ q, q ≠ r) l.

Inductive ContextError :=
| ReservedName
| InvalidName
| NameNotUnique
| SpawnFromStopping
| StashOutsideHandlerError
| StashOverflowError (capacity : Z)
| MailboxRefused (e : MailboxError)
| ReleasePending
| ThrottleRefused.

Section cells.
Context {T E M : Type} `{EqDecision T, EqDecision E} `{!CellMailbox (Message_ T E) M}.
Context (systemName : string).

Abbreviation Message := (Message_ T E).
Abbreviation SystemCommand := (SystemCommand_ E).
Abbreviation Cause := (Cause_ E).
Abbreviation Env := (Envelope Message).

(** [ActorPath.toString]. *)
Definition toString (p : ActorPath) : string :=
  "actor-ts://" +:+ systemName +:+ "/" +:+ String.concat "/" (tail (elements p)).

Definition watchKeyOf (r : ActorRef) : WatchKey := (toString (ref_path r), uid (ref_path r)).

(** [ActorRef.equals] compares addresses, not incarnations. *)
Definition ref_equals (r q : ActorRef) : bool := bool_decide (toString (ref_path r) = toString (ref_path q)).

(** ** What user code supplies *)

(** An instance, by the answers its plain methods give; [None] is a throw. *)
Record Actor := mkActor {
  stopChildrenOnRestart : option bool;
  controlMessages : option (Message → bool);
}.

(** [ActorBlueprint]: the options the cell reads.  [bp_mailbox] is what the
    mailbox factory returned. *)
Record ActorBlueprint := mkBlueprint {
  bp_throughput : option Z;
  bp_supervisorStrategy : option (SupervisorStrategy Cause);
  bp_mailbox : option M;
  bp_mailboxCapacity : option Z;
  bp_mailboxOverflow : option BoundedMailboxOverflow;
  bp_applicationOwned : bool;
}.

Record DeploymentEntry := mkDeployment {
  dp_throughput : option Z;
  dp_mailboxCapacity : option Z;
  dp_mailboxOverflow : option BoundedMailboxOverflow;
}.

(** What a cell reads of its system. *)
Record Settings := mkSettings {
  actorThroughput : Z;
  defaultCapacity : option Z;
  defaultOverflow : option BoundedMailboxOverflow;
  deployment_lookup : list string → option DeploymentEntry;
}.

(** The user code a turn may be waiting for. *)
Inductive UserCode :=
| CallFactory
| CallPreStart
| CallReceive (delivered : Message)
| CallPreRestart (cause : Cause)
| CallRestartFactory (cause : Cause)
| CallPostRestart (cause : Cause)
| CallPostStop
| CallStrategy (cause : Cause) (child : CellId).

(** How it ends. *)
Inductive Outcome :=
| Returns
| Throws (e : E)
| Creates (a : Actor)
| Answers (s : SupervisorStrategy Cause).

(** Where [run] goes on after it: with the next system command, or with the
    next user message. *)
Inductive Origin := FromSystem | FromUser.

Inductive Turn :=
| Armed
| Loop (handled : Z)
| Running (u : UserCode) (o : Origin) (handled : Z).

Inductive Flow := Done | Await (u : UserCode) | Threw.

(** ** State *)

(** Fixed at construction. *)
Record Identity := mkIdentity {
  path : ActorPath;
  parent : option CellId;
  blueprint : ActorBlueprint;
  userGuardian : bool;
  applicationTree : bool;
  throughput : Z;
}.

(** What became of every user message, as (message, sender): handed to the
    cell, handled, dead-lettered by the cell, discarded by the throttle,
    dropped by the mailbox, dead-lettered because the mailbox asked for it; and
    the releases that fired. *)
Definition Entry : Type := Message * option string.
Definition entry (e : Env) : Entry := (message e, sender e).

Record Ledger := mkLedger {
  accepted : list Entry;
  completed : list Entry;
  deadLetters : list Entry;
  discarded : list Entry;
  dropped : list Entry;
  dropLetters : list Entry;
  released : list nat;
}.

Record Cell := mkCell {
  fixed : Identity;
  mailbox : M;
  state : CellState;
  processing : bool;
  turns : list Turn;
  actor : option Actor;
  children : list (string * CellId);
  pendingRecreate : option Cause;
  anonChildCounter : Z;
  childUidCounter : Z;
  currentSender : option string;
  currentEnvelope : option Env;
  behaviorStack : list nat;
  watchers : list ActorRef;
  watching : list (WatchKey * ActorRef);
  watchWithMessages : list (WatchKey * Message);
  restartBudget : option (nat * RestartBudget);
  receiveTimeoutMs : Z;
  receiveTimeoutHandle : option bool;
  stashBuffer : list Env;
  throttleBucket : option TokenBucket;
  throttleOnExcess : ThrottleOnExcess;
  throttleResumeTimer : bool;
  pendingReleases : list (Message * nat);
  terminationOrder : option (list string);
  terminationGroupIndex : nat;
  ledger : Ledger;
}.

Definition set_fixed (v : Identity) (x : Cell) : Cell :=
  mkCell v (mailbox x) (state x) (processing x) (turns x) (actor x) (children x) (pendingRecreate x)
    (anonChildCounter x) (childUidCounter x) (currentSender x) (currentEnvelope x) (behaviorStack x)
    (watchers x) (watching x) (watchWithMessages x) (restartBudget x) (receiveTimeoutMs x)
    (receiveTimeoutHandle x) (stashBuffer x) (throttleBucket x) (throttleOnExcess x) (throttleResumeTimer x)
    (pendingReleases x) (terminationOrder x) (terminationGroupIndex x) (ledger x).
Definition set_mailbox (v : M) (x : Cell) : Cell :=
  mkCell (fixed x) v (state x) (processing x) (turns x) (actor x) (children x) (pendingRecreate x)
    (anonChildCounter x) (childUidCounter x) (currentSender x) (currentEnvelope x) (behaviorStack x)
    (watchers x) (watching x) (watchWithMessages x) (restartBudget x) (receiveTimeoutMs x)
    (receiveTimeoutHandle x) (stashBuffer x) (throttleBucket x) (throttleOnExcess x) (throttleResumeTimer x)
    (pendingReleases x) (terminationOrder x) (terminationGroupIndex x) (ledger x).
Definition set_state (v : CellState) (x : Cell) : Cell :=
  mkCell (fixed x) (mailbox x) v (processing x) (turns x) (actor x) (children x) (pendingRecreate x)
    (anonChildCounter x) (childUidCounter x) (currentSender x) (currentEnvelope x) (behaviorStack x)
    (watchers x) (watching x) (watchWithMessages x) (restartBudget x) (receiveTimeoutMs x)
    (receiveTimeoutHandle x) (stashBuffer x) (throttleBucket x) (throttleOnExcess x) (throttleResumeTimer x)
    (pendingReleases x) (terminationOrder x) (terminationGroupIndex x) (ledger x).
Definition set_processing (v : bool) (x : Cell) : Cell :=
  mkCell (fixed x) (mailbox x) (state x) v (turns x) (actor x) (children x) (pendingRecreate x)
    (anonChildCounter x) (childUidCounter x) (currentSender x) (currentEnvelope x) (behaviorStack x)
    (watchers x) (watching x) (watchWithMessages x) (restartBudget x) (receiveTimeoutMs x)
    (receiveTimeoutHandle x) (stashBuffer x) (throttleBucket x) (throttleOnExcess x) (throttleResumeTimer x)
    (pendingReleases x) (terminationOrder x) (terminationGroupIndex x) (ledger x).
Definition set_turns (v : list Turn) (x : Cell) : Cell :=
  mkCell (fixed x) (mailbox x) (state x) (processing x) v (actor x) (children x) (pendingRecreate x)
    (anonChildCounter x) (childUidCounter x) (currentSender x) (currentEnvelope x) (behaviorStack x)
    (watchers x) (watching x) (watchWithMessages x) (restartBudget x) (receiveTimeoutMs x)
    (receiveTimeoutHandle x) (stashBuffer x) (throttleBucket x) (throttleOnExcess x) (throttleResumeTimer x)
    (pendingReleases x) (terminationOrder x) (terminationGroupIndex x) (ledger x).
Definition set_actor (v : option Actor) (x : Cell) : Cell :=
  mkCell (fixed x) (mailbox x) (state x) (processing x) (turns x) v (children x) (pendingRecreate x)
    (anonChildCounter x) (childUidCounter x) (currentSender x) (currentEnvelope x) (behaviorStack x)
    (watchers x) (watching x) (watchWithMessages x) (restartBudget x) (receiveTimeoutMs x)
    (receiveTimeoutHandle x) (stashBuffer x) (throttleBucket x) (throttleOnExcess x) (throttleResumeTimer x)
    (pendingReleases x) (terminationOrder x) (terminationGroupIndex x) (ledger x).
Definition set_children (v : list (string * CellId)) (x : Cell) : Cell :=
  mkCell (fixed x) (mailbox x) (state x) (processing x) (turns x) (actor x) v (pendingRecreate x)
    (anonChildCounter x) (childUidCounter x) (currentSender x) (currentEnvelope x) (behaviorStack x)
    (watchers x) (watching x) (watchWithMessages x) (restartBudget x) (receiveTimeoutMs x)
    (receiveTimeoutHandle x) (stashBuffer x) (throttleBucket x) (throttleOnExcess x) (throttleResumeTimer x)
    (pendingReleases x) (terminationOrder x) (terminationGroupIndex x) (ledger x).
Definition set_pendingRecreate (v : option Cause) (x : Cell) : Cell :=
  mkCell (fixed x) (mailbox x) (state x) (processing x) (turns x) (actor x) (children x) v (anonChildCounter x)
    (childUidCounter x) (currentSender x) (currentEnvelope x) (behaviorStack x) (watchers x) (watching x)
    (watchWithMessages x) (restartBudget x) (receiveTimeoutMs x) (receiveTimeoutHandle x) (stashBuffer x)
    (throttleBucket x) (throttleOnExcess x) (throttleResumeTimer x) (pendingReleases x) (terminationOrder x)
    (terminationGroupIndex x) (ledger x).
Definition set_anonChildCounter (v : Z) (x : Cell) : Cell :=
  mkCell (fixed x) (mailbox x) (state x) (processing x) (turns x) (actor x) (children x) (pendingRecreate x) v
    (childUidCounter x) (currentSender x) (currentEnvelope x) (behaviorStack x) (watchers x) (watching x)
    (watchWithMessages x) (restartBudget x) (receiveTimeoutMs x) (receiveTimeoutHandle x) (stashBuffer x)
    (throttleBucket x) (throttleOnExcess x) (throttleResumeTimer x) (pendingReleases x) (terminationOrder x)
    (terminationGroupIndex x) (ledger x).
Definition set_childUidCounter (v : Z) (x : Cell) : Cell :=
  mkCell (fixed x) (mailbox x) (state x) (processing x) (turns x) (actor x) (children x) (pendingRecreate x)
    (anonChildCounter x) v (currentSender x) (currentEnvelope x) (behaviorStack x) (watchers x) (watching x)
    (watchWithMessages x) (restartBudget x) (receiveTimeoutMs x) (receiveTimeoutHandle x) (stashBuffer x)
    (throttleBucket x) (throttleOnExcess x) (throttleResumeTimer x) (pendingReleases x) (terminationOrder x)
    (terminationGroupIndex x) (ledger x).
Definition set_currentSender (v : option string) (x : Cell) : Cell :=
  mkCell (fixed x) (mailbox x) (state x) (processing x) (turns x) (actor x) (children x) (pendingRecreate x)
    (anonChildCounter x) (childUidCounter x) v (currentEnvelope x) (behaviorStack x) (watchers x) (watching x)
    (watchWithMessages x) (restartBudget x) (receiveTimeoutMs x) (receiveTimeoutHandle x) (stashBuffer x)
    (throttleBucket x) (throttleOnExcess x) (throttleResumeTimer x) (pendingReleases x) (terminationOrder x)
    (terminationGroupIndex x) (ledger x).
Definition set_currentEnvelope (v : option Env) (x : Cell) : Cell :=
  mkCell (fixed x) (mailbox x) (state x) (processing x) (turns x) (actor x) (children x) (pendingRecreate x)
    (anonChildCounter x) (childUidCounter x) (currentSender x) v (behaviorStack x) (watchers x) (watching x)
    (watchWithMessages x) (restartBudget x) (receiveTimeoutMs x) (receiveTimeoutHandle x) (stashBuffer x)
    (throttleBucket x) (throttleOnExcess x) (throttleResumeTimer x) (pendingReleases x) (terminationOrder x)
    (terminationGroupIndex x) (ledger x).
Definition set_behaviorStack (v : list nat) (x : Cell) : Cell :=
  mkCell (fixed x) (mailbox x) (state x) (processing x) (turns x) (actor x) (children x) (pendingRecreate x)
    (anonChildCounter x) (childUidCounter x) (currentSender x) (currentEnvelope x) v (watchers x) (watching x)
    (watchWithMessages x) (restartBudget x) (receiveTimeoutMs x) (receiveTimeoutHandle x) (stashBuffer x)
    (throttleBucket x) (throttleOnExcess x) (throttleResumeTimer x) (pendingReleases x) (terminationOrder x)
    (terminationGroupIndex x) (ledger x).
Definition set_watchers (v : list ActorRef) (x : Cell) : Cell :=
  mkCell (fixed x) (mailbox x) (state x) (processing x) (turns x) (actor x) (children x) (pendingRecreate x)
    (anonChildCounter x) (childUidCounter x) (currentSender x) (currentEnvelope x) (behaviorStack x) v
    (watching x) (watchWithMessages x) (restartBudget x) (receiveTimeoutMs x) (receiveTimeoutHandle x)
    (stashBuffer x) (throttleBucket x) (throttleOnExcess x) (throttleResumeTimer x) (pendingReleases x)
    (terminationOrder x) (terminationGroupIndex x) (ledger x).
Definition set_watching (v : list (WatchKey * ActorRef)) (x : Cell) : Cell :=
  mkCell (fixed x) (mailbox x) (state x) (processing x) (turns x) (actor x) (children x) (pendingRecreate x)
    (anonChildCounter x) (childUidCounter x) (currentSender x) (currentEnvelope x) (behaviorStack x)
    (watchers x) v (watchWithMessages x) (restartBudget x) (receiveTimeoutMs x) (receiveTimeoutHandle x)
    (stashBuffer x) (throttleBucket x) (throttleOnExcess x) (throttleResumeTimer x) (pendingReleases x)
    (terminationOrder x) (terminationGroupIndex x) (ledger x).
Definition set_watchWithMessages (v : list (WatchKey * Message)) (x : Cell) : Cell :=
  mkCell (fixed x) (mailbox x) (state x) (processing x) (turns x) (actor x) (children x) (pendingRecreate x)
    (anonChildCounter x) (childUidCounter x) (currentSender x) (currentEnvelope x) (behaviorStack x)
    (watchers x) (watching x) v (restartBudget x) (receiveTimeoutMs x) (receiveTimeoutHandle x) (stashBuffer x)
    (throttleBucket x) (throttleOnExcess x) (throttleResumeTimer x) (pendingReleases x) (terminationOrder x)
    (terminationGroupIndex x) (ledger x).
Definition set_restartBudget (v : option (nat * RestartBudget)) (x : Cell) : Cell :=
  mkCell (fixed x) (mailbox x) (state x) (processing x) (turns x) (actor x) (children x) (pendingRecreate x)
    (anonChildCounter x) (childUidCounter x) (currentSender x) (currentEnvelope x) (behaviorStack x)
    (watchers x) (watching x) (watchWithMessages x) v (receiveTimeoutMs x) (receiveTimeoutHandle x)
    (stashBuffer x) (throttleBucket x) (throttleOnExcess x) (throttleResumeTimer x) (pendingReleases x)
    (terminationOrder x) (terminationGroupIndex x) (ledger x).
Definition set_receiveTimeoutMs (v : Z) (x : Cell) : Cell :=
  mkCell (fixed x) (mailbox x) (state x) (processing x) (turns x) (actor x) (children x) (pendingRecreate x)
    (anonChildCounter x) (childUidCounter x) (currentSender x) (currentEnvelope x) (behaviorStack x)
    (watchers x) (watching x) (watchWithMessages x) (restartBudget x) v (receiveTimeoutHandle x) (stashBuffer x)
    (throttleBucket x) (throttleOnExcess x) (throttleResumeTimer x) (pendingReleases x) (terminationOrder x)
    (terminationGroupIndex x) (ledger x).
Definition set_receiveTimeoutHandle (v : option bool) (x : Cell) : Cell :=
  mkCell (fixed x) (mailbox x) (state x) (processing x) (turns x) (actor x) (children x) (pendingRecreate x)
    (anonChildCounter x) (childUidCounter x) (currentSender x) (currentEnvelope x) (behaviorStack x)
    (watchers x) (watching x) (watchWithMessages x) (restartBudget x) (receiveTimeoutMs x) v (stashBuffer x)
    (throttleBucket x) (throttleOnExcess x) (throttleResumeTimer x) (pendingReleases x) (terminationOrder x)
    (terminationGroupIndex x) (ledger x).
Definition set_stashBuffer (v : list Env) (x : Cell) : Cell :=
  mkCell (fixed x) (mailbox x) (state x) (processing x) (turns x) (actor x) (children x) (pendingRecreate x)
    (anonChildCounter x) (childUidCounter x) (currentSender x) (currentEnvelope x) (behaviorStack x)
    (watchers x) (watching x) (watchWithMessages x) (restartBudget x) (receiveTimeoutMs x)
    (receiveTimeoutHandle x) v (throttleBucket x) (throttleOnExcess x) (throttleResumeTimer x)
    (pendingReleases x) (terminationOrder x) (terminationGroupIndex x) (ledger x).
Definition set_throttleBucket (v : option TokenBucket) (x : Cell) : Cell :=
  mkCell (fixed x) (mailbox x) (state x) (processing x) (turns x) (actor x) (children x) (pendingRecreate x)
    (anonChildCounter x) (childUidCounter x) (currentSender x) (currentEnvelope x) (behaviorStack x)
    (watchers x) (watching x) (watchWithMessages x) (restartBudget x) (receiveTimeoutMs x)
    (receiveTimeoutHandle x) (stashBuffer x) v (throttleOnExcess x) (throttleResumeTimer x) (pendingReleases x)
    (terminationOrder x) (terminationGroupIndex x) (ledger x).
Definition set_throttleOnExcess (v : ThrottleOnExcess) (x : Cell) : Cell :=
  mkCell (fixed x) (mailbox x) (state x) (processing x) (turns x) (actor x) (children x) (pendingRecreate x)
    (anonChildCounter x) (childUidCounter x) (currentSender x) (currentEnvelope x) (behaviorStack x)
    (watchers x) (watching x) (watchWithMessages x) (restartBudget x) (receiveTimeoutMs x)
    (receiveTimeoutHandle x) (stashBuffer x) (throttleBucket x) v (throttleResumeTimer x) (pendingReleases x)
    (terminationOrder x) (terminationGroupIndex x) (ledger x).
Definition set_throttleResumeTimer (v : bool) (x : Cell) : Cell :=
  mkCell (fixed x) (mailbox x) (state x) (processing x) (turns x) (actor x) (children x) (pendingRecreate x)
    (anonChildCounter x) (childUidCounter x) (currentSender x) (currentEnvelope x) (behaviorStack x)
    (watchers x) (watching x) (watchWithMessages x) (restartBudget x) (receiveTimeoutMs x)
    (receiveTimeoutHandle x) (stashBuffer x) (throttleBucket x) (throttleOnExcess x) v (pendingReleases x)
    (terminationOrder x) (terminationGroupIndex x) (ledger x).
Definition set_pendingReleases (v : list (Message * nat)) (x : Cell) : Cell :=
  mkCell (fixed x) (mailbox x) (state x) (processing x) (turns x) (actor x) (children x) (pendingRecreate x)
    (anonChildCounter x) (childUidCounter x) (currentSender x) (currentEnvelope x) (behaviorStack x)
    (watchers x) (watching x) (watchWithMessages x) (restartBudget x) (receiveTimeoutMs x)
    (receiveTimeoutHandle x) (stashBuffer x) (throttleBucket x) (throttleOnExcess x) (throttleResumeTimer x) v
    (terminationOrder x) (terminationGroupIndex x) (ledger x).
Definition set_terminationOrder (v : option (list string)) (x : Cell) : Cell :=
  mkCell (fixed x) (mailbox x) (state x) (processing x) (turns x) (actor x) (children x) (pendingRecreate x)
    (anonChildCounter x) (childUidCounter x) (currentSender x) (currentEnvelope x) (behaviorStack x)
    (watchers x) (watching x) (watchWithMessages x) (restartBudget x) (receiveTimeoutMs x)
    (receiveTimeoutHandle x) (stashBuffer x) (throttleBucket x) (throttleOnExcess x) (throttleResumeTimer x)
    (pendingReleases x) v (terminationGroupIndex x) (ledger x).
Definition set_terminationGroupIndex (v : nat) (x : Cell) : Cell :=
  mkCell (fixed x) (mailbox x) (state x) (processing x) (turns x) (actor x) (children x) (pendingRecreate x)
    (anonChildCounter x) (childUidCounter x) (currentSender x) (currentEnvelope x) (behaviorStack x)
    (watchers x) (watching x) (watchWithMessages x) (restartBudget x) (receiveTimeoutMs x)
    (receiveTimeoutHandle x) (stashBuffer x) (throttleBucket x) (throttleOnExcess x) (throttleResumeTimer x)
    (pendingReleases x) (terminationOrder x) v (ledger x).
Definition set_ledger (v : Ledger) (x : Cell) : Cell :=
  mkCell (fixed x) (mailbox x) (state x) (processing x) (turns x) (actor x) (children x) (pendingRecreate x)
    (anonChildCounter x) (childUidCounter x) (currentSender x) (currentEnvelope x) (behaviorStack x)
    (watchers x) (watching x) (watchWithMessages x) (restartBudget x) (receiveTimeoutMs x)
    (receiveTimeoutHandle x) (stashBuffer x) (throttleBucket x) (throttleOnExcess x) (throttleResumeTimer x)
    (pendingReleases x) (terminationOrder x) (terminationGroupIndex x) v.


Implicit Types x : Cell.

Definition set_accepted (v : list Entry) l : Ledger := mkLedger v (completed l) (deadLetters l) (discarded l) (dropped l) (dropLetters l) (released l).
Definition set_completed (v : list Entry) l : Ledger := mkLedger (accepted l) v (deadLetters l) (discarded l) (dropped l) (dropLetters l) (released l).
Definition set_deadLetters (v : list Entry) l : Ledger := mkLedger (accepted l) (completed l) v (discarded l) (dropped l) (dropLetters l) (released l).
Definition set_discarded (v : list Entry) l : Ledger := mkLedger (accepted l) (completed l) (deadLetters l) v (dropped l) (dropLetters l) (released l).
Definition set_dropped (v : list Entry) l : Ledger := mkLedger (accepted l) (completed l) (deadLetters l) (discarded l) v (dropLetters l) (released l).
Definition set_dropLetters (v : list Entry) l : Ledger := mkLedger (accepted l) (completed l) (deadLetters l) (discarded l) (dropped l) v (released l).
Definition set_released (v : list nat) l : Ledger := mkLedger (accepted l) (completed l) (deadLetters l) (discarded l) (dropped l) (dropLetters l) v.

Definition note_accepted (es : list Entry) x : Cell := set_ledger (set_accepted (accepted (ledger x) ++ es) (ledger x)) x.
Definition note_completed (es : list Entry) x : Cell := set_ledger (set_completed (completed (ledger x) ++ es) (ledger x)) x.
Definition note_deadLetters (es : list Entry) x : Cell := set_ledger (set_deadLetters (deadLetters (ledger x) ++ es) (ledger x)) x.
Definition note_discarded (es : list Entry) x : Cell := set_ledger (set_discarded (discarded (ledger x) ++ es) (ledger x)) x.
Definition note_dropped (es : list Entry) x : Cell := set_ledger (set_dropped (dropped (ledger x) ++ es) (ledger x)) x.
Definition note_dropLetters (es : list Entry) x : Cell := set_ledger (set_dropLetters (dropLetters (ledger x) ++ es) (ledger x)) x.
Definition note_released (es : list nat) x : Cell := set_ledger (set_released (released (ledger x) ++ es) (ledger x)) x.

Definition self (i : CellId) x : ActorRef := mkRef (path (fixed x)) (Some i).

(** ** One cell: scheduling and arrivals *)

Definition hasDispatchableWork x : bool :=
  if throttleResumeTimer x then mb_hasSystemMessages (mailbox x) else mb_hasMessages (mailbox x).

(** [schedule]: [dispatcher.execute] queues the turn. *)
Definition schedule x : Cell :=
  if processing x || bool_decide (state x = terminated) then x
  else if negb (hasDispatchableWork x) then x
  else set_turns (turns x ++ [Armed]) (set_processing true x).

(** [_onMailboxDrop]: the mailbox becomes [m], and what it reported meanwhile
    goes to the dead letters if it asked for that. *)
Definition with_mailbox (m : M) x : Cell :=
  let lost := entry <$> drop (length (mb_reported (mailbox x))) (mb_reported m) in
  note_dropLetters (if mb_deadLetterDrops m then lost else []) (note_dropped lost (set_mailbox m x)).

Definition enqueueSystem (command : SystemCommand) x : Cell :=
  schedule (set_mailbox (mb_enqueueSystem (mkEnvelope (Command command) None false false) (mailbox x)) x).

Definition enqueueUser (env : Env) (exemptFromBound : bool) x : Cell * option ContextError :=
  if exemptFromBound then
    (schedule (note_accepted [entry env] (with_mailbox (mb_enqueueSignal env (mailbox x)) x)), None)
  else match mb_enqueue env (mailbox x) with
       | (m, Some err) => (with_mailbox m x, Some (MailboxRefused err))
       | (m, None) => (schedule (note_accepted [entry env] (with_mailbox m x)), None)
       end.

(** A message that arrives at a terminated cell. *)
Definition deadLetter (e : Entry) x : Cell := note_deadLetters [e] (note_accepted [e] x).

Definition postUserEnvelope (env : Env) x : Cell * option ContextError :=
  if bool_decide (state x = terminated) then (deadLetter (entry env) x, None) else enqueueUser env false x.

Definition postUserMessage (m : Message) (from : option string) x : Cell * option ContextError :=
  postUserEnvelope (mkEnvelope m from false false) x.

Definition holdRelease (m : Message) (release : nat) x : Cell * option ContextError :=
  match entry_get (pendingReleases x) m with
  | Some _ => (x, Some ReleasePending)
  | None => (set_pendingReleases (entry_set (pendingReleases x) m release) x, None)
  end.

Definition takeRelease (m : Message) x : option nat * Cell :=
  match entry_get (pendingReleases x) m with
  | None => (None, x)
  | Some r => (Some r, set_pendingReleases (entry_delete (pendingReleases x) m) x)
  end.

(** A release may throw; the message is handed over regardless. *)
Definition releaseBeforeHandOver (m : Message) x : Cell :=
  match takeRelease m x with
  | (Some r, x) => note_released [r] x
  | (None, x) => x
  end.

(** The exempt door of the mailbox never throws, so neither does [enqueueUser]. *)
Definition postSignalEnvelope (env : Env) (release : option nat) x : Cell * option ContextError :=
  if bool_decide (state x = terminated) then (deadLetter (entry env) x, None)
  else
    let '(x, refused) := match release with
                         | Some r => holdRelease (message env) r x
                         | None => (x, None)
                         end in
    match refused with
    | Some e => (x, Some e)
    | None => enqueueUser (mkEnvelope (message env) (sender env) (replayed env) true) true x
    end.

(** ** One cell: the methods of its context *)

Definition become (behavior : nat) (discardOld : bool) x : Cell :=
  set_behaviorStack
    (match behaviorStack x with
     | _ :: rest => if discardOld then behavior :: rest else behavior :: behaviorStack x
     | [] => [behavior]
     end) x.

Definition unbecome x : Cell :=
  match behaviorStack x with
  | _ :: ((_ :: _) as rest) => set_behaviorStack rest x
  | _ => x
  end.

Definition clearReceiveTimer x : Cell := set_receiveTimeoutHandle None x.

(** [Some true]: armed; [Some false]: it has fired. *)
Definition resetReceiveTimer x : Cell :=
  if receiveTimeoutMs x <=? 0 then clearReceiveTimer x
  else set_receiveTimeoutHandle (Some true) (clearReceiveTimer x).

Definition setReceiveTimeout (ms : Z) x : Cell := resetReceiveTimer (set_receiveTimeoutMs ms x).
Definition cancelReceiveTimeout x : Cell := clearReceiveTimer (set_receiveTimeoutMs 0 x).

Definition stash x : Cell * option ContextError :=
  match currentEnvelope x with
  | None => (x, Some StashOutsideHandlerError)
  | Some env =>
      if Z.of_nat (length (stashBuffer x)) >=? DEFAULT_STASH_CAPACITY
      then (x, Some (StashOverflowError DEFAULT_STASH_CAPACITY))
      else (set_currentEnvelope None (set_stashBuffer (stashBuffer x ++ [env]) x), None)
  end.

Definition replay (env : Env) : Env := mkEnvelope (message env) (sender env) true (undroppable env).

Definition unstashAll x : Cell * option ContextError :=
  match stashBuffer x with
  | [] => (x, None)
  | drained =>
      match mb_prependUser (replay <$> drained) (mailbox x) with
      | (m, None) => (schedule (with_mailbox m (set_stashBuffer [] x)), None)
      | (m, Some e) => (set_stashBuffer drained (with_mailbox m (set_stashBuffer [] x)), Some (MailboxRefused e))
      end
  end.

Definition bare (m : Message) : Env := mkEnvelope m None false false.

(** [deadLetterMessages]. *)
Definition deadLetterMessages (ms : list Message) x : Cell :=
  foldl (λ x m, deadLetter (m, None) x) x ms.

Definition prependUserMessages (ms : list Message) x : Cell * option ContextError :=
  match ms with
  | [] => (x, None)
  | _ =>
      if bool_decide (state x = terminated) then (deadLetterMessages ms x, None)
      else match mb_prependUser (bare <$> ms) (mailbox x) with
           | (m, None) => (schedule (note_accepted ((λ m, (m, None)) <$> ms) (with_mailbox m x)), None)
           | (m, Some e) => (deadLetterMessages ms (with_mailbox m x), Some (MailboxRefused e))
           end
  end.

Definition deadLetterStash x : Cell :=
  note_deadLetters (entry <$> stashBuffer x) (set_stashBuffer [] x).

Definition deadLetterQueuedMessages x : Cell :=
  note_deadLetters (entry <$> (mb_drainUser (mailbox x)).1) (set_mailbox (mb_drainUser (mailbox x)).2 x).

(** The wake-up shared by [throttle], [cancelThrottle] and the resume timer. *)
Definition rescheduleIfRunning x : Cell :=
  if bool_decide (state x = running) && mb_hasMessages (mailbox x) then schedule x else x.

Definition cancelThrottle x : Cell :=
  rescheduleIfRunning (set_throttleResumeTimer false (set_throttleBucket None x)).

(** [throttle]: an infinite rate removes the throttle; the validator refuses
    any other that is not positive and finite. *)
Definition throttle (rate : float) (burst : option float) (onExcess : option ThrottleOnExcess) (now : Q) x
    : Cell * option ContextError :=
  let burst_ok := match burst with
                  | None => true
                  | Some (Fin b) => negb (Qle_bool b 0)
                  | Some _ => false
                  end in
  match rate with
  | Inf false => if burst_ok then (cancelThrottle x, None) else (x, Some ThrottleRefused)
  | _ =>
      match TokenBucket.construct rate burst now with
      | Err _ => (x, Some ThrottleRefused)
      | Ok b =>
          (rescheduleIfRunning
             (set_throttleResumeTimer false
                (set_throttleOnExcess (default pause onExcess) (set_throttleBucket (Some b) x))), None)
      end
  end.

(** The resume timer fires. *)
Definition throttleResume x : Cell :=
  if throttleResumeTimer x then rescheduleIfRunning (set_throttleResumeTimer false x) else x.

(** [handleThrottleExcess], for a bucket that just refused one message.  A
    queue over its capacity may refuse the re-park, and the message is gone. *)
Definition handleThrottleExcess (env : Env) (b : TokenBucket) (now : Q) x : Cell * option ContextError :=
  match throttleOnExcess x with
  | discard => (note_discarded [entry env] x, None)
  | pause =>
      match mb_prependUser [env] (mailbox x) with
      | (m, Some e) => (note_discarded [entry env] (with_mailbox m x), Some (MailboxRefused e))
      | (m, None) =>
          let x := with_mailbox m x in
          if throttleResumeTimer x then (x, None)
          else (set_throttleResumeTimer true (set_throttleBucket (Some (timeUntilNext 1 now b).2) x), None)
      end
  end.

(** [_addWatcher], [_removeWatcher]: the first reports whether the watcher has
    to be told at once. *)
Definition addWatcher (watcher : ActorRef) x : Cell * bool :=
  if bool_decide (state x = terminated) then (x, true)
  else (set_watchers (ref_add (watchers x) watcher) x, false).

Definition removeWatcher (watcher : ActorRef) x : Cell := set_watchers (ref_delete (watchers x) watcher) x.

(** ** Construction *)

Definition resolveMailboxBound (settings : Settings) (bp : ActorBlueprint) (dep : option DeploymentEntry)
    (inTree : bool) : option MailboxBound :=
  let capacity :=
    match bp_mailboxCapacity bp, dep ≫= dp_mailboxCapacity with
    | Some c, _ => Some c
    | None, Some c => Some c
    | None, None => if inTree then defaultCapacity settings else None
    end in
  match capacity with
  | None => None
  | Some c =>
      if c =? 0 then None
      else Some (mkMailboxBound c
        (match bp_mailboxOverflow bp, dep ≫= dp_mailboxOverflow, defaultOverflow settings with
         | Some o, _, _ | None, Some o, _ | None, None, Some o => o
         | None, None, None => DEFAULT_MAILBOX_OVERFLOW
         end))
  end.

Definition buildMailbox (settings : Settings) (bp : ActorBlueprint) (dep : option DeploymentEntry)
    (inTree : bool) : M :=
  match bp_mailbox bp with
  | Some m => m
  | None => match resolveMailboxBound settings bp dep inTree with
            | None => mb_plain
            | Some b => mb_bounded b
            end
  end.

Definition deploymentEntry (settings : Settings) (inTree : bool) (p : ActorPath) : option DeploymentEntry :=
  if inTree then deployment_lookup settings (elements p) else None.

(** [new ActorCell(system, blueprint, parent, name)], its last line included. *)
Definition construct (settings : Settings) (bp : ActorBlueprint) (parent_cell : option (CellId * Cell))
    (name : string) (u : Z) : Cell :=
  let p := match parent_cell with
           | Some (_, x) => mkPath (elements (path (fixed x)) ++ [name]) u
           | None => mkPath [name] u
           end in
  let guardian := match parent_cell with
                  | Some (_, x) => bool_decide (parent (fixed x) = None) && bool_decide (name = USER_GUARDIAN_NAME)
                  | None => false
                  end in
  let inTree := negb guardian && (bp_applicationOwned bp
                  || match parent_cell with
                     | Some (_, x) => applicationTree (fixed x) || userGuardian (fixed x)
                     | None => false
                     end) in
  let dep := deploymentEntry settings inTree p in
  let budget := match bp_throughput bp, dep ≫= dp_throughput with
                | Some n, _ | None, Some n => n
                | None, None => actorThroughput settings
                end in
  enqueueSystem create
    (mkCell (mkIdentity p (fst <$> parent_cell) bp guardian inTree (Z.max 1 budget))
       (buildMailbox settings bp dep inTree) creating false [] None [] None 0 0 None None [] [] [] []
       None 0 None [] None pause false [] None 0 (mkLedger [] [] [] [] [] [] [])).

(** [_adoptControlLane]: the queue built at spawn is exchanged, with all it
    holds, for one that serves control messages. *)
Definition adoptControlLane (settings : Settings) (a : Actor) x : Cell :=
  match bp_mailbox (blueprint (fixed x)), controlMessages a with
  | None, Some isControl =>
      let bound := resolveMailboxBound settings (blueprint (fixed x))
                     (deploymentEntry settings (applicationTree (fixed x)) (path (fixed x)))
                     (applicationTree (fixed x)) in
      let previous := mailbox x in
      let next := foldl (λ n e, mb_enqueueSystem e n) (mb_controlAware isControl bound) (mb_drainSystem previous).1 in
      let previous := (mb_drainSystem previous).2 in
      let next := foldl (λ n e, mb_enqueueSignal e n) next (mb_drainUser previous).1 in
      set_mailbox (if mb_suspended previous then mb_suspend next else next) x
  | _, _ => x
  end.

(** ** The system *)

(** What can be seen from outside: the hooks of each instance as they are
    called, the events published, the turns that failed. *)
Inductive Note :=
| Called (i : CellId) (u : UserCode)
| Started (i : CellId)
| Stopped (i : CellId)
| Restarted (i : CellId) (cause : Cause)
| DispatcherError (i : CellId)
| RootTerminated.

Record ActorSystem := mkSystem {
  cells : list Cell;
  notes : list Note;
  foreign : list (ActorRef * Message);
}.

Implicit Types s : ActorSystem.

Definition set_cells (v : list Cell) s := mkSystem v (notes s) (foreign s).
Definition publish (n : Note) s := mkSystem (cells s) (notes s ++ [n]) (foreign s).

Definition upd (i : CellId) (f : Cell → Cell) s : ActorSystem := set_cells (alter f i (cells s)) s.

(** Reads cell [i]; every id the system hands out exists. *)
Definition reading {A} (i : CellId) s (absent : A) (f : Cell → A) : A :=
  match cells s !! i with Some x => f x | None => absent end.

(** A call into cell [i] that may throw. *)
Definition upd_err (i : CellId) (f : Cell → Cell * option ContextError) s : ActorSystem * option ContextError :=
  reading i s (s, None) (λ x, (upd i (λ _, (f x).1) s, (f x).2)).

(** [for (const child of this._children.values()) child.enqueueSystem(command)]. *)
Definition tellAll (command : SystemCommand) (ids : list CellId) s : ActorSystem :=
  foldl (λ s i, upd i (enqueueSystem command) s) s ids.

Definition childIds x : list CellId := (children x).*2.

(** [ref.tell(message)]. *)
Definition tell (r : ActorRef) (m : Message) (from : option string) s : ActorSystem * option ContextError :=
  match cell r with
  | Some i => upd_err i (postUserMessage m from) s
  | None => (mkSystem (cells s) (notes s) (foreign s ++ [(r, m)]), None)
  end.

(** [_notifyWatcher]; the exempt door of a local watcher does not throw. *)
Definition notifyWatcher (watcher : ActorRef) (t : Terminated_) s : ActorSystem :=
  match cell watcher with
  | Some i => (upd_err i (postSignalEnvelope (mkEnvelope (Terminated t) None false false) None) s).1
  | None => (tell watcher (Terminated t) None s).1
  end.

Definition frameworkTerminated (r : ActorRef) : Terminated_ := mkTerminated r true false true.

(** [_addWatcher] on the target's cell. *)
Definition addWatcherTo (target : CellId) (watcher : ActorRef) s : ActorSystem :=
  reading target s s (λ x,
    let '(x', at_once) := addWatcher watcher x in
    let s := upd target (λ _, x') s in
    if at_once then notifyWatcher watcher (frameworkTerminated (self target x)) s else s).

Definition registerWatch (i : CellId) (r : ActorRef) (key : WatchKey) s : ActorSystem :=
  reading i s s (λ x,
    match entry_get (watching x) key with
    | Some _ => s
    | None =>
        let s := upd i (set_watching (entry_set (watching x) key r)) s in
        match cell r with
        | Some target => addWatcherTo target (self i x) s
        | None => s
        end
    end).

Definition watch (i : CellId) (r : ActorRef) s : ActorSystem :=
  let key := watchKeyOf r in
  registerWatch i r key (upd i (λ x, set_watchWithMessages (entry_delete (watchWithMessages x) key) x) s).

Definition watchWith (i : CellId) (r : ActorRef) (m : Message) s : ActorSystem :=
  let key := watchKeyOf r in
  registerWatch i r key (upd i (λ x, set_watchWithMessages (entry_set (watchWithMessages x) key m) x) s).

Definition unwatch (i : CellId) (r : ActorRef) s : ActorSystem :=
  let key := watchKeyOf r in
  let s := upd i (λ x, set_watchWithMessages (entry_delete (watchWithMessages x) key) x) s in
  reading i s s (λ x,
    match entry_get (watching x) key with
    | None => s
    | Some _ =>
        let s := upd i (set_watching (entry_delete (watching x) key)) s in
        match cell r with
        | Some target => upd target (removeWatcher (self i x)) s
        | None => s
        end
    end).

(** [_createChild]; the uid is drawn before the path is validated. *)
Definition createChild (settings : Settings) (i : CellId) (bp : ActorBlueprint) (name : string)
    (fromCaller : bool) s : ActorSystem * option ContextError :=
  reading i s (s, None) (λ x,
    if fromCaller && negb (userAssignable name) then (s, Some ReservedName)
    else if bool_decide (state x = terminated) || bool_decide (state x = terminating) then (s, Some SpawnFromStopping)
    else match entry_get (children x) name with
         | Some _ => (s, Some NameNotUnique)
         | None =>
             let u := childUidCounter x + 1 in
             let x := set_childUidCounter u x in
             let s := upd i (λ _, x) s in
             if negb (validName name) then (s, Some InvalidName)
             else
               let id := length (cells s) in
               let child := construct settings bp (Some (i, x)) name u in
               (upd i (set_children (children x ++ [(name, id)])) (set_cells (cells s ++ [child]) s), None)
         end).

(** [spawnAnonymous]; [suffix] is what [randomId] drew. *)
Definition spawnAnonymous (settings : Settings) (i : CellId) (bp : ActorBlueprint) (suffix : string) s
    : ActorSystem * option ContextError :=
  reading i s (s, None) (λ x,
    let n := anonChildCounter x + 1 in
    createChild settings i bp ("$anonymous-" +:+ pretty n +:+ "-" +:+ suffix) false
      (upd i (set_anonChildCounter n) s)).

(** ** Failures *)

(** [failToParent]. *)
Definition failToParent (i : CellId) (cause : Cause) s : ActorSystem :=
  reading i s s (λ x,
    let s := upd i (λ x,
      let x := set_mailbox (mb_suspend (mailbox x)) x in
      if bool_decide (state x = running) then set_state suspended x else x) s in
    let s := tellAll suspend (childIds x) s in
    match parent (fixed x) with
    | Some p => upd p (enqueueSystem (failure cause (self i x))) s
    | None => upd i (enqueueSystem terminate) s
    end).

Definition findChildByRef x s (r : ActorRef) : option CellId :=
  find (λ c, match cells s !! c with Some y => ref_equals (self c y) r | None => false end) (childIds x).

(** [registerRestart]: a budget belongs to the strategy object it was made for. *)
Definition registerRestart (strategy : SupervisorStrategy Cause) (now : Z) x : bool * Cell :=
  let b := match restartBudget x with
           | Some (ident, b) => if bool_decide (ident = identity strategy) then b else new_budget strategy
           | None => new_budget strategy
           end in
  let '(granted, b) := Supervision.registerRestart now b in
  (granted, set_restartBudget (Some (identity strategy, b)) x).

(** [onFailure], from the decider on. *)
Definition applyDirective (i child : CellId) (cause : Cause) (strategy : SupervisorStrategy Cause) (now : Z) s
    : ActorSystem * Flow :=
  reading i s (s, Done) (λ x,
    match decider strategy cause with
    | None => (s, Threw)
    | Some directive =>
        let affected := match scope strategy with all_for_one => childIds x | one_for_one => [child] end in
        match directive with
        | Resume => (tellAll resume affected s, Done)
        | Restart =>
            let '(withinLimit, x) := registerRestart strategy now x in
            let s := upd i (λ _, x) s in
            (tellAll (if withinLimit then recreate cause else terminate) affected s, Done)
        | Stop => (tellAll terminate affected s, Done)
        | Escalate => (failToParent i cause s, Done)
        end
    end).

Definition onFailure (i : CellId) (cause : Cause) (childRef : ActorRef) (now : Z) s : ActorSystem * Flow :=
  reading i s (s, Done) (λ x,
    match findChildByRef x s childRef with
    | None => (s, Done)
    | Some c =>
        match cells s !! c ≫= λ y, bp_supervisorStrategy (blueprint (fixed y)) with
        | Some strategy => applyDirective i c cause strategy now s
        | None =>
            match actor x with
            | Some _ => (publish (Called i (CallStrategy cause c)) s, Await (CallStrategy cause c))
            | None => applyDirective i c cause defaultStrategy now s
            end
        end
    end).

(** ** Termination *)

(** [finalizeTermination] up to [postStop]; without an instance there is still
    an [await]. *)
Definition finalizeTermination (i : CellId) s : ActorSystem * Flow :=
  reading i s (s, Done) (λ x,
    let s := upd i (set_throttleResumeTimer false) s in
    (match actor x with Some _ => publish (Called i CallPostStop) s | None => s end, Await CallPostStop)).

(** And from there on. *)
Definition stopped x : Cell :=
  set_pendingReleases [] (deadLetterQueuedMessages (set_state terminated
    (deadLetterQueuedMessages (deadLetterStash x)))).

Definition unwatchLocal (i : CellId) x (r : ActorRef) s : ActorSystem :=
  match cell r with Some target => upd target (removeWatcher (self i x)) s | None => s end.

Definition completeTermination (i : CellId) s : ActorSystem * Flow :=
  reading i s (s, Done) (λ x,
    let s := publish (Stopped i) (upd i stopped s) in
    let s := foldl (λ s w, notifyWatcher w (frameworkTerminated (self i x)) s) s (watchers x) in
    let s := upd i (set_watchers []) s in
    let s := foldl (λ s r, unwatchLocal i x r s) s (watching x).*2 in
    let s := upd i (λ x, set_watchWithMessages [] (set_watching [] x)) s in
    (match parent (fixed x) with
     | Some p => upd p (enqueueSystem (childTerminated (self i x))) s
     | None => publish RootTerminated s
     end, Done)).

(** [terminateNextGroup]: the loop runs over what is left of the order. *)
Fixpoint next_group (order : list string) (index : nat) (kids : list (string * CellId)) : nat * option CellId :=
  match order with
  | [] => (index, None)
  | name :: order =>
      match entry_get kids name with
      | Some c => (S index, Some c)
      | None => next_group order (S index) kids
      end
  end.

Definition terminateNextGroup (i : CellId) s : ActorSystem * Flow :=
  reading i s (s, Done) (λ x,
    let order := default [] (terminationOrder x) in
    let '(index, found) := next_group (drop (terminationGroupIndex x) order) (terminationGroupIndex x) (children x) in
    let s := upd i (set_terminationGroupIndex index) s in
    match found with
    | Some c => (upd c (enqueueSystem terminate) s, Done)
    | None =>
        let s := tellAll terminate (childIds x) s in
        match children x with
        | [] => finalizeTermination i s
        | _ => (s, Done)
        end
    end).

Definition onTerminate (i : CellId) s : ActorSystem * Flow :=
  reading i s (s, Done) (λ x,
    if bool_decide (state x = terminated) || bool_decide (state x = terminating) then (s, Done)
    else
      let s := upd i (λ x, clearReceiveTimer (set_state terminating x)) s in
      match terminationOrder x with
      | Some _ => terminateNextGroup i s
      | None =>
          let s := tellAll terminate (childIds x) s in
          match children x with
          | [] => finalizeTermination i s
          | _ => (s, Done)
          end
      end).

(** ** Start and restart *)

Definition onCreate (i : CellId) s : ActorSystem * Flow :=
  (publish (Called i CallFactory) s, Await CallFactory).

(** [onCreate] once the factory returned. *)
Definition attachFirst (settings : Settings) (i : CellId) (a : Actor) s : ActorSystem * Flow :=
  let s := upd i (λ x,
    set_state running (set_behaviorStack [0%nat] (adoptControlLane settings a (set_actor (Some a) x)))) s in
  (publish (Called i CallPreStart) s, Await CallPreStart).

(** The [catch] of [onCreate] and of [completeRecreate]. *)
Definition initializationFailed (i : CellId) (e : E) s : ActorSystem * Flow :=
  (failToParent i (ActorInitializationError e) s, Done).

Definition onRecreate (i : CellId) (cause : Cause) s : ActorSystem * Flow :=
  reading i s (s, Done) (λ x,
    match actor x with
    | None => (s, Done)
    | Some _ =>
        (publish (Called i (CallPreRestart cause)) (upd i deadLetterStash s), Await (CallPreRestart cause))
    end).

Definition completeRecreate (i : CellId) (cause : Cause) s : ActorSystem * Flow :=
  (publish (Called i (CallRestartFactory cause)) s, Await (CallRestartFactory cause)).

(** [onRecreate] after [preRestart], whether or not it threw. *)
Definition afterPreRestart (i : CellId) (cause : Cause) s : ActorSystem * Flow :=
  reading i s (s, Done) (λ x,
    match actor x ≫= stopChildrenOnRestart with
    | None => (s, Threw)
    | Some stops =>
        if stops && negb (bool_decide (children x = [])) then
          (upd i (set_pendingRecreate (Some cause)) (tellAll terminate (childIds x) s), Done)
        else completeRecreate i cause s
    end).

(** [completeRecreate] once the factory returned. *)
Definition attachNext (i : CellId) (a : Actor) (cause : Cause) s : ActorSystem * Flow :=
  let s := upd i (λ x, set_behaviorStack [0%nat] (set_actor (Some a) x)) s in
  (publish (Called i (CallPostRestart cause)) s, Await (CallPostRestart cause)).

(** And once [postRestart] returned. *)
Definition restarted (i : CellId) (cause : Cause) s : ActorSystem * Flow :=
  reading i s (s, Done) (λ x,
    let s := upd i (λ x, set_mailbox (mb_resume (mailbox x)) x) s in
    let s := tellAll resume (childIds x) s in
    (publish (Restarted i cause) (upd i (set_state running) s), Done)).

(** ** System commands *)

Definition onSuspend (i : CellId) s : ActorSystem * Flow :=
  reading i s (s, Done) (λ x,
    let s := upd i (λ x,
      let x := set_mailbox (mb_suspend (mailbox x)) x in
      if bool_decide (state x = running) then set_state suspended x else x) s in
    (tellAll suspend (childIds x) s, Done)).

Definition onResume (i : CellId) s : ActorSystem * Flow :=
  reading i s (s, Done) (λ x,
    let s := upd i (λ x,
      let x := set_mailbox (mb_resume (mailbox x)) x in
      if bool_decide (state x = suspended) then set_state running x else x) s in
    (tellAll resume (childIds x) s, Done)).

Definition onChildTerminated (i : CellId) (r : ActorRef) s : ActorSystem * Flow :=
  let s := upd i (λ x, set_children (entry_delete (children x) (default "" (last (elements (ref_path r))))) x) s in
  reading i s (s, Done) (λ x,
    let goes_on s :=
      if negb (bool_decide (state x = terminating)) then (s, Done)
      else match terminationOrder x with
           | Some _ => terminateNextGroup i s
           | None => match children x with [] => finalizeTermination i s | _ => (s, Done) end
           end in
    match pendingRecreate x with
    | Some parked =>
        if bool_decide (children x = []) then
          let s := upd i (set_pendingRecreate None) s in
          if negb (bool_decide (state x = terminating)) && negb (bool_decide (state x = terminated))
          then completeRecreate i parked s
          else goes_on s
        else goes_on s
    | None => goes_on s
    end).

Definition onWatchNotify (i : CellId) (target : ActorRef) (ec atd : bool) s : ActorSystem * Flow :=
  ((upd_err i (postSignalEnvelope
      (mkEnvelope (Terminated (mkTerminated target ec atd true)) None false false) None) s).1, Done).

(** ** User messages *)

(** [_dispatchEpilogue]: what the behavior did not stash is handled. *)
Definition dispatchEpilogue x : Cell :=
  let done := match currentEnvelope x with Some e => [entry e] | None => [] end in
  set_currentEnvelope None (set_currentSender None (note_completed done x)).

(** A [Terminated] that is not honoured goes to the dead letters. *)
Definition consume (env : Env) x : Cell :=
  let x := note_deadLetters [entry env] x in
  let x := (takeRelease (message env) x).2 in
  set_currentEnvelope None (set_currentSender None x).

(** The head of [_dispatchToBehavior]: [None] when the message was consumed,
    otherwise what the behavior is handed. *)
Definition openEnvelope (env : Env) x : Cell * option Message :=
  let x := set_currentEnvelope (Some env) (set_currentSender (sender env) x) in
  match message env with
  | Terminated t =>
      if negb (framework t) then (consume env x, None)
      else
        let key := watchKeyOf (actor_of t) in
        match entry_get (watching x) key with
        | None => (consume env x, None)
        | Some _ =>
            let x := set_watching (entry_delete (watching x) key) x in
            match entry_get (watchWithMessages x) key with
            | None => (x, Some (message env))
            | Some m =>
                let x := set_watchWithMessages (entry_delete (watchWithMessages x) key) x in
                let swapped := mkEnvelope m (sender env) (replayed env) (undroppable env) in
                (note_accepted [entry swapped] (note_completed [entry env] (set_currentEnvelope (Some swapped) x)),
                 Some m)
            end
        end
  | m => (x, Some m)
  end.

Definition dispatchToBehavior (i : CellId) (env : Env) s : ActorSystem * Flow :=
  reading i s (s, Done) (λ x,
    match openEnvelope env x with
    | (x, None) => (upd i (λ _, x) s, Done)
    | (x, Some delivered) =>
        (publish (Called i (CallReceive delivered)) (upd i (λ _, releaseBeforeHandOver (message env) x) s),
         Await (CallReceive delivered))
    end).

Definition handleUserMessage (i : CellId) (env : Env) s : ActorSystem * Flow :=
  match message env with
  | PoisonPill => onTerminate i (upd i (note_completed [entry env]) s)
  | Kill => (failToParent i ActorKilledError (upd i (note_completed [entry env]) s), Done)
  | _ => dispatchToBehavior i env s
  end.

Definition onReceiveTimeout (i : CellId) s : ActorSystem * Flow :=
  reading i s (s, Done) (λ x,
    if bool_decide (state x = running)
    then handleUserMessage i (bare ReceiveTimeout) (upd i (note_accepted [entry (bare ReceiveTimeout)]) s)
    else (s, Done)).

Definition handleSystemCommand (i : CellId) (command : SystemCommand) (now : Z) s : ActorSystem * Flow :=
  match command with
  | create => onCreate i s
  | terminate => onTerminate i s
  | recreate cause => onRecreate i cause s
  | suspend => onSuspend i s
  | resume => onResume i s
  | failure cause child => onFailure i cause child now s
  | childTerminated child => onChildTerminated i child s
  | watchNotify target ec atd => onWatchNotify i target ec atd s
  | receiveTimeout => onReceiveTimeout i s
  end.

(** ** Turns *)

(** The [finally] of [run]; the turn is over. *)
Definition endTurn (n : nat) x : Cell :=
  let x := set_processing false (set_turns (delete n (turns x)) x) in
  if negb (bool_decide (state x = terminated)) && hasDispatchableWork x then schedule x else x.

Definition set_turn (n : nat) (t : Turn) x : Cell := set_turns (<[n := t]> (turns x)) x.

(** What [run] does with the result of a handler. *)
Definition settle (i : CellId) (n : nat) (o : Origin) (handled : Z) (r : ActorSystem * Flow) : ActorSystem :=
  let '(s, flow) := r in
  match flow with
  | Await u => upd i (set_turn n (Running u o handled)) s
  | Threw => upd i (endTurn n) (publish (DispatcherError i) s)
  | Done =>
      upd i (λ x,
        match o with
        | FromSystem => if bool_decide (state x = terminated) then endTurn n x else set_turn n (Loop handled) x
        | FromUser => if handled + 1 <? throughput (fixed x) then set_turn n (Loop (handled + 1)) x else endTurn n x
        end) s
  end.

(** The throttle gate; [Some] ends the batch, and says whether by a throw. *)
Definition throttleGate (env : Env) (now : Q) x : Cell * option (option ContextError) :=
  match throttleBucket x with
  | None => (x, None)
  | Some b =>
      if undroppable env then (x, None)
      else
        let '(ok, b) := tryConsume 1 now b in
        let x := set_throttleBucket (Some b) x in
        if ok then (x, None)
        else let '(x, e) := handleThrottleExcess env b now x in (x, Some e)
  end.

(** The body of the [for] loop after the system lane is empty. *)
Definition runUser (i : CellId) (n : nat) (handled : Z) (now : Q) s : ActorSystem :=
  reading i s s (λ x,
    if negb (bool_decide (state x = running)) then upd i (endTurn n) s
    else
      let '(next, m) := mb_dequeueUser (mailbox x) in
      let x := set_mailbox m x in
      match next with
      | None => upd i (λ _, endTurn n x) s
      | Some env =>
          match throttleGate env now x with
          | (x, Some None) => upd i (λ _, endTurn n x) s
          | (x, Some (Some _)) => upd i (λ _, endTurn n x) (publish (DispatcherError i) s)
          | (x, None) => settle i n FromUser handled (handleUserMessage i env (upd i (λ _, x) s))
          end
      end).

(** One iteration of the inner [while], or the rest of the [for]. *)
Definition runLoop (i : CellId) (n : nat) (handled : Z) (clock : Z) (now : Q) s : ActorSystem :=
  reading i s s (λ x,
    if mb_hasSystemMessages (mailbox x) then
      let '(next, m) := mb_dequeueSystem (mailbox x) in
      let s := upd i (set_mailbox m) s in
      match next with
      | Some (mkEnvelope (Command command) _ _ _) =>
          settle i n FromSystem handled (handleSystemCommand i command clock s)
      | _ => s
      end
    else runUser i n handled now s).

(** The user code [u] ends with [outcome]. *)
Definition continue_ (settings : Settings) (i : CellId) (u : UserCode) (outcome : Outcome) (clock : Z) s
    : option (ActorSystem * Flow) :=
  match u, outcome with
  | CallFactory, Creates a => Some (attachFirst settings i a s)
  | CallFactory, Throws e => Some (initializationFailed i e s)
  | CallPreStart, Returns => Some (publish (Started i) s, Done)
  | CallPreStart, Throws e => Some (initializationFailed i e s)
  | CallReceive _, Returns => Some (upd i (λ x, dispatchEpilogue (resetReceiveTimer x)) s, Done)
  | CallReceive _, Throws e => Some (upd i dispatchEpilogue (failToParent i (UserError e) s), Done)
  | CallPreRestart cause, (Returns | Throws _) => Some (afterPreRestart i cause s)
  | CallRestartFactory cause, Creates a => Some (attachNext i a cause s)
  | CallRestartFactory cause, Throws e => Some (initializationFailed i e s)
  | CallPostRestart cause, Returns => Some (restarted i cause s)
  | CallPostRestart cause, Throws e => Some (initializationFailed i e s)
  | CallPostStop, (Returns | Throws _) => Some (completeTermination i s)
  | CallStrategy cause c, Answers strategy => Some (applyDirective i c cause strategy clock s)
  | CallStrategy _ _, Throws _ => Some (s, Threw)
  | _, _ => None
  end.

(** ** Events *)

(** The methods of an actor's context, and of its ref. *)
Inductive ContextOp :=
| OpTell (r : ActorRef) (m : Message) (from : option string)
| OpSpawn (bp : ActorBlueprint) (name : string)
| OpSpawnAnonymous (bp : ActorBlueprint) (suffix : string)
| OpSpawnWithGeneratedName (bp : ActorBlueprint) (name : string)
| OpStop (r : ActorRef)
| OpStopSelf
| OpWatch (r : ActorRef)
| OpWatchWith (r : ActorRef) (m : Message)
| OpUnwatch (r : ActorRef)
| OpBecome (behavior : nat) (discardOld : bool)
| OpUnbecome
| OpSetReceiveTimeout (ms : Z)
| OpCancelReceiveTimeout
| OpStash
| OpUnstashAll
| OpPrependUserMessages (ms : list Message)
| OpThrottle (rate : float) (burst : option float) (onExcess : option ThrottleOnExcess) (now : Q)
| OpCancelThrottle.

Definition context (settings : Settings) (i : CellId) (op : ContextOp) s : ActorSystem * option ContextError :=
  match op with
  | OpTell r m from => tell r m from s
  | OpSpawn bp name => createChild settings i bp name true s
  | OpSpawnAnonymous bp suffix => spawnAnonymous settings i bp suffix s
  | OpSpawnWithGeneratedName bp name => createChild settings i bp name false s
  | OpStop r => tell r PoisonPill None s
  | OpStopSelf => (upd i (enqueueSystem terminate) s, None)
  | OpWatch r => (watch i r s, None)
  | OpWatchWith r m => (watchWith i r m s, None)
  | OpUnwatch r => (unwatch i r s, None)
  | OpBecome b d => (upd i (become b d) s, None)
  | OpUnbecome => (upd i unbecome s, None)
  | OpSetReceiveTimeout ms => (upd i (setReceiveTimeout ms) s, None)
  | OpCancelReceiveTimeout => (upd i cancelReceiveTimeout s, None)
  | OpStash => upd_err i stash s
  | OpUnstashAll => upd_err i unstashAll s
  | OpPrependUserMessages ms => upd_err i (prependUserMessages ms) s
  | OpThrottle rate burst onExcess now => upd_err i (throttle rate burst onExcess now) s
  | OpCancelThrottle => (upd i cancelThrottle s, None)
  end.

Inductive Event :=
| Step (i : CellId) (n : nat) (clock : Z) (now : Q)
| Finish (i : CellId) (n : nat) (outcome : Outcome) (clock : Z)
| Context (i : CellId) (op : ContextOp)
| Signal (i : CellId) (m : Message) (release : option nat)
| WatchNotify (i : CellId) (target : ActorRef) (ec atd : bool)
| RemoteWatch (i : CellId) (watcher : ActorRef)
| RemoteUnwatch (i : CellId) (watcher : ActorRef)
| ReceiveTimeoutFires (i : CellId)
| ThrottleResumes (i : CellId).

(** The receive timer fires once. *)
Definition receiveTimeoutFires x : Cell :=
  match receiveTimeoutHandle x with
  | Some true => enqueueSystem receiveTimeout (set_receiveTimeoutHandle (Some false) x)
  | _ => x
  end.

Definition step (settings : Settings) (e : Event) s : ActorSystem :=
  match e with
  | Step i n clock now =>
      match cells s !! i ≫= λ x, turns x !! n with
      | Some Armed => upd i (set_turn n (Loop 0)) s
      | Some (Loop handled) => runLoop i n handled clock now s
      | _ => s
      end
  | Finish i n outcome clock =>
      match cells s !! i ≫= λ x, turns x !! n with
      | Some (Running u o handled) =>
          match continue_ settings i u outcome clock s with
          | Some r => settle i n o handled r
          | None => s
          end
      | _ => s
      end
  | Context i op => (context settings i op s).1
  | Signal i m release => (upd_err i (postSignalEnvelope (bare m) release) s).1
  | WatchNotify i target ec atd => upd i (enqueueSystem (watchNotify target ec atd)) s
  | RemoteWatch i watcher => addWatcherTo i watcher s
  | RemoteUnwatch i watcher => upd i (removeWatcher watcher) s
  | ReceiveTimeoutFires i => upd i receiveTimeoutFires s
  | ThrottleResumes i => upd i throttleResume s
  end.

(** The supervisor chain of [ActorSystem]: the root and the two guardians. *)
Definition guardianBlueprint : ActorBlueprint := mkBlueprint None None None None None false.

Definition initial (settings : Settings) : ActorSystem :=
  let s := mkSystem [construct settings guardianBlueprint None "" 0] [] [] in
  let s := (createChild settings 0%nat guardianBlueprint USER_GUARDIAN_NAME true s).1 in
  let s := (createChild settings 0%nat guardianBlueprint "system" true s).1 in
  upd 0%nat (set_terminationOrder (Some GUARDIAN_SHUTDOWN_ORDER)) s.

Definition run (settings : Settings) (es : list Event) s : ActorSystem := foldl (λ s e, step settings e s) s es.

End cells.
