(* ===== verification/ActorCellInvariants.v ===== *)
(** * What holds of every cell in every reachable state

    Two invariants of [ActorCell]: the turns of a cell ([scheduled]: one at
    most, and one whenever there is work) and its ledger ([balanced]: every
    user message is in exactly one place). *)

From Stdlib Require Import QArith.
From S2P Require Import Prelude Mailbox ActorMailbox Supervision Float TokenBucket ActorCell.

Local Open Scope Z_scope.

Section invariants.
Context {T E M : Type} `{EqDecision T, EqDecision E} `{!CellMailbox (Message_ T E) M, !CellMailboxLaws (Message_ T E) M}.
Context (systemName : string).

Abbreviation Message := (Message_ T E).
Abbreviation Env := (Envelope Message).
Abbreviation Cell := (@Cell T E M).
Abbreviation ActorSystem := (@ActorSystem T E M).
Implicit Types (x y z : Cell) (s : ActorSystem) (m : M).

(** ** The mailbox laws, field by field *)

Lemma enqueueSystem_fields e m : mb_users (mb_enqueueSystem e m) = mb_users m ∧
  mb_systems (mb_enqueueSystem e m) = mb_systems m ++ [e] ∧ mb_suspended (mb_enqueueSystem e m) = mb_suspended m.
Proof. by pose proof (mb_enqueueSystem_ok e m) as [= -> -> -> _]. Qed.

Lemma suspend_fields m : mb_users (mb_suspend m) = mb_users m ∧ mb_systems (mb_suspend m) = mb_systems m.
Proof. by pose proof (mb_suspend_ok m) as [= -> -> _ _]. Qed.

Lemma resume_fields m : mb_users (mb_resume m) = mb_users m ∧ mb_systems (mb_resume m) = mb_systems m.
Proof. by pose proof (mb_resume_ok m) as [= -> -> _ _]. Qed.

Lemma dequeueSystem_fields m : mb_users (mb_dequeueSystem m).2 = mb_users m ∧
  mb_systems (mb_dequeueSystem m).2 = tail (mb_systems m) ∧
  mb_suspended (mb_dequeueSystem m).2 = mb_suspended m.
Proof. by pose proof (mb_dequeueSystem_ok m) as [_ [= -> -> -> _]]. Qed.

Lemma signal_fields e m : mb_users (mb_enqueueSignal e m) ≡ₚ e :: mb_users m ∧
  mb_systems (mb_enqueueSignal e m) = mb_systems m ∧ mb_suspended (mb_enqueueSignal e m) = mb_suspended m ∧
  mb_reported (mb_enqueueSignal e m) = mb_reported m.
Proof. pose proof (mb_enqueueSignal_ok e m) as [Hp [= H1 H2 H3]]. by rewrite H1, H2, H3. Qed.

Lemma drainUser_fields m : (mb_drainUser m).1 ≡ₚ mb_users m ∧ mb_users (mb_drainUser m).2 = [] ∧
  mb_systems (mb_drainUser m).2 = mb_systems m.
Proof. by pose proof (mb_drainUser_ok m) as [? [= -> -> _ _]]. Qed.

(** ** Where a user message is *)

Definition current x : list Entry := match currentEnvelope x with Some e => [entry e] | None => [] end.

Definition held x : list (Entry (T := T) (E := E)) :=
  (entry <$> mb_users (mailbox x)) ++ (entry <$> stashBuffer x) ++ current x ++
  completed (ledger x) ++ deadLetters (ledger x) ++ discarded (ledger x) ++ dropped (ledger x).

(** Everything handed to the cell is in exactly one place. *)
Definition balanced x : Prop := accepted (ledger x) ≡ₚ held x.

(** [y] comes from [x] and the messages [hand], which [x] did not hold. *)
Definition conserves (hand : list Entry) x y : Prop :=
  accepted (ledger y) ++ hand ++ held x ≡ₚ accepted (ledger x) ++ held y.

Lemma conserves_refl x : conserves [] x x.
Proof. unfold conserves. done. Qed.

Lemma conserves_trans h k x y z : conserves h x y → conserves k y z → conserves (h ++ k) x z.
Proof.
  unfold conserves. intros H1 H2.
  apply (Permutation_app_inv_l (accepted (ledger y) ++ held y)).
  transitivity ((accepted (ledger y) ++ h ++ held x) ++ (accepted (ledger z) ++ k ++ held y)); [solve_Permutation|].
  rewrite H1, H2. solve_Permutation.
Qed.

Lemma conserves_balanced x y : conserves [] x y → balanced x → balanced y.
Proof.
  unfold conserves, balanced. simpl. intros H Hx. rewrite Hx in H.
  rewrite (Permutation_app_comm (accepted (ledger y))) in H. by apply Permutation_app_inv_l in H.
Qed.

(** ** Work *)

(** There is something this cell could do now. *)
Definition useful x : Prop :=
  state x ≠ terminated ∧
  (mb_systems (mailbox x) ≠ [] ∨
   (state x = running ∧ mb_suspended (mailbox x) = false ∧ mb_users (mailbox x) ≠ [] ∧ throttleResumeTimer x = false)).

(** One turn at most, and one whenever there is work. *)
Record scheduled (x : Cell) : Prop := {
  one_turn : length (turns x) = if processing x then 1%nat else 0%nat;
  awake : useful x → processing x = true;
}.

Definition commands_only x : Prop := Forall (λ e, ∃ c, message e = Command c) (mb_systems (mailbox x)).

(** Nothing is left behind in a stopped cell. *)
Definition buried x : Prop := state x = terminated → 
  mb_users (mailbox x) = [] ∧ stashBuffer x = [] ∧ currentEnvelope x = None.

Lemma useful_work x : useful x → hasDispatchableWork x = true.
Proof.
  intros [_ Hw]. unfold hasDispatchableWork. rewrite mb_hasMessages_ok, mb_hasSystemMessages_ok.
  destruct Hw as [Hs|(_ & -> & Hu & ->)].
  - rewrite (bool_decide_false _ Hs). by destruct (throttleResumeTimer x).
  - rewrite (bool_decide_false _ Hu). simpl. by rewrite orb_true_r.
Qed.

(** ** What others may do to a cell *)

(** The turn of a cell is its own: others may at most arm one. *)
Definition same_turn x y : Prop :=
  (processing y = processing x ∧ turns y = turns x) ∨
  (state x ≠ terminated ∧ processing x = false ∧ processing y = true ∧ turns y = turns x ++ [Armed]).

Record quiet (x y : Cell) : Prop := {
  quiet_fixed : fixed y = fixed x;
  quiet_state : state y = state x;
  quiet_turn : same_turn x y;
  quiet_awake : useful y → processing y = true ∨ useful x;
  quiet_conserves : conserves [] x y;
  quiet_current : currentEnvelope y = None ∨ currentEnvelope y = currentEnvelope x;
  quiet_commands : commands_only x → commands_only y;
  quiet_buried : buried x → buried y;
}.

#[export] Instance quiet_preorder : PreOrder quiet.
Proof.
  split.
  - intros x. constructor; auto using conserves_refl. by left.
  - intros x y z [f1 s1 t1 a1 c1 e1 k1 b1] [f2 s2 t2 a2 c2 e2 k2 b2]. constructor; try congruence; auto.
    + destruct t1 as [[? ?]|(? & ? & ? & ?)], t2 as [[? ?]|(? & ? & ? & ?)]; try congruence;
        [left; split; congruence|right|right]; split_and!; congruence.
    + intros Hz. destruct (a2 Hz) as [?|Hy]; [by left|]. destruct (a1 Hy) as [Hp|]; [|by right].
      left. destruct t2 as [[Hp' _]|(_ & _ & Hp' & _)]; congruence.
    + apply (conserves_trans [] [] _ y); done.
    + destruct e2 as [?| ->]; [by left|]. done.
Qed.

(** [schedule] is how work gets its turn. *)
Lemma schedule_fields x :
  fixed (schedule x) = fixed x ∧ state (schedule x) = state x ∧ mailbox (schedule x) = mailbox x ∧
  ledger (schedule x) = ledger x ∧ stashBuffer (schedule x) = stashBuffer x ∧
  currentEnvelope (schedule x) = currentEnvelope x ∧ throttleResumeTimer (schedule x) = throttleResumeTimer x.
Proof. unfold schedule. destruct (_ || _); [done|]. by destruct (negb _). Qed.

Lemma schedule_turn x : same_turn x (schedule x) ∧ (useful (schedule x) → processing (schedule x) = true).
Proof.
  destruct (schedule_fields x) as (_ & Hs & Hm & _ & _ & _ & Ht).
  assert (Hu : useful (schedule x) → useful x) by (unfold useful; by rewrite Hs, Hm, Ht).
  unfold schedule in *. destruct (processing x) eqn:Ep; simpl in *; [split; [by left|done]|].
  destruct (bool_decide (state x = terminated)) eqn:Ed; simpl in *.
  { split; [by left|]. intros [Hne _]. by apply bool_decide_eq_true in Ed. }
  apply bool_decide_eq_false in Ed.
  destruct (hasDispatchableWork x) eqn:Ew; simpl in *; [split; [by right|done]|].
  split; [by left|]. intros H%Hu%useful_work. congruence.
Qed.

(** An operation that ends in [schedule] is quiet if it is so for the rest. *)
Lemma quiet_schedule x y :
  fixed y = fixed x → state y = state x → processing y = processing x → turns y = turns x →
  conserves [] x y → currentEnvelope y = None ∨ currentEnvelope y = currentEnvelope x →
  (commands_only x → commands_only y) → (buried x → buried y) → quiet x (schedule y).
Proof.
  intros Hf Hs Hp Ht Hc He Hk Hb. destruct (schedule_fields y) as (F & S & Mb & L & St & C & Th).
  destruct (schedule_turn y) as [Htn Hu]. constructor.
  - congruence.
  - congruence.
  - unfold same_turn in *. by rewrite <-Hp, <-Ht, <-Hs.
  - intros H. left. by apply Hu.
  - unfold conserves, held, current in *. by rewrite Mb, L, St, C.
  - by rewrite C.
  - unfold commands_only in *. by rewrite Mb.
  - unfold buried in *. by rewrite S, Mb, St, C.
Qed.

(** An operation without it, which brings no work. *)
Lemma quiet_still x y :
  fixed y = fixed x → state y = state x → processing y = processing x → turns y = turns x →
  conserves [] x y → currentEnvelope y = None ∨ currentEnvelope y = currentEnvelope x →
  (commands_only x → commands_only y) → (buried x → buried y) →
  (useful y → useful x) → quiet x y.
Proof. intros. constructor; try done; auto. by left. Qed.

(** ** Each operation of a cell is quiet *)

Ltac weigh := unfold conserves, held, current, deadLetter; simpl; rewrite ?fmap_app; simpl; solve_Permutation.

(** Arrivals at the mailbox, with what it drops for them. *)
Lemma with_mailbox_fields m x :
  fixed (with_mailbox m x) = fixed x ∧ state (with_mailbox m x) = state x ∧
  processing (with_mailbox m x) = processing x ∧ turns (with_mailbox m x) = turns x ∧
  mailbox (with_mailbox m x) = m ∧ stashBuffer (with_mailbox m x) = stashBuffer x ∧
  currentEnvelope (with_mailbox m x) = currentEnvelope x ∧
  throttleResumeTimer (with_mailbox m x) = throttleResumeTimer x.
Proof. done. Qed.

Lemma with_mailbox_admits l m x : admits l (mb_view (mailbox x)) (mb_view m) →
  conserves (entry <$> l) x (with_mailbox m x).
Proof.
  intros [_ _ [new Hr] Ha _]. simpl in Hr, Ha. unfold conserves, held, current, with_mailbox. simpl.
  rewrite Hr, drop_app_length. rewrite Hr, (Permutation_app_comm (mb_reported _)), !(assoc_L (++)) in Ha.
  apply Permutation_app_inv_r in Ha. apply (fmap_Permutation entry) in Ha. rewrite !fmap_app in Ha.
  transitivity (accepted (ledger x) ++ ((entry <$> l) ++ (entry <$> mb_users (mailbox x))) ++
    (entry <$> stashBuffer x) ++ current x ++ completed (ledger x) ++ deadLetters (ledger x)
    ++ discarded (ledger x) ++ dropped (ledger x)); [solve_Permutation|].
  rewrite <-Ha. unfold current. solve_Permutation.
Qed.

Lemma with_mailbox_same m x : mb_view m = mb_view (mailbox x) → conserves [] x (with_mailbox m x).
Proof.
  intros [= H1 _ _ H4]. unfold conserves, held, current, with_mailbox. simpl.
  rewrite H1, H4, drop_all. simpl. by rewrite app_nil_r.
Qed.

Lemma quiet_enqueueSystem c x : quiet x (enqueueSystem c x).
Proof.
  destruct (enqueueSystem_fields (mkEnvelope (Command c) None false false) (mailbox x)) as (Hu & Hs & _).
  apply quiet_schedule; try done.
  - unfold conserves, held, current. simpl. by rewrite Hu.
  - by right.
  - unfold commands_only. simpl. rewrite Hs. intros Hc. apply Forall_app. split; [done|]. repeat constructor. by exists c.
  - unfold buried. simpl. by rewrite Hu.
Qed.

(** A mailbox of the same view instead. *)
Lemma quiet_with_mailbox_same m x : mb_view m = mb_view (mailbox x) → quiet x (with_mailbox m x).
Proof.
  intros Hm. pose proof Hm as [= H1 H2 H3 _]. apply quiet_still; try done.
  - by apply with_mailbox_same.
  - by right.
  - unfold commands_only. simpl. by rewrite H2.
  - unfold buried. simpl. by rewrite H1.
  - unfold useful. simpl. by rewrite H1, H2, H3.
Qed.

(** Arrivals that fit, noted as accepted, and a turn for them. *)
Lemma quiet_admitted l m x : state x ≠ terminated → admits l (mb_view (mailbox x)) (mb_view m) →
  quiet x (schedule (note_accepted (entry <$> l) (with_mailbox m x))).
Proof.
  intros Hs Ha. apply quiet_schedule; try done.
  - pose proof (with_mailbox_admits l m x Ha) as Hc. unfold conserves in *. simpl in *.
    rewrite <-(assoc_L (++)). rewrite <-Hc. unfold held. simpl. solve_Permutation.
  - by right.
  - pose proof (admits_systems _ _ _ Ha) as Hy. simpl in Hy. unfold commands_only. simpl. by rewrite Hy.
Qed.

Lemma signal_admits e m : admits [e] (mb_view m) (mb_view (mb_enqueueSignal e m)).
Proof.
  destruct (signal_fields e m) as (H1 & H2 & H3 & H4). constructor; simpl; try done.
  - by rewrite H4.
  - by rewrite H4, H1.
  - intros e' Hin _. rewrite H1. set_solver.
Qed.

Lemma quiet_enqueueUser env b x : state x ≠ terminated → quiet x (enqueueUser env b x).1.
Proof.
  intros Hs. unfold enqueueUser. destruct b; [apply (quiet_admitted [env]); [done|apply signal_admits]|].
  pose proof (mb_enqueue_ok env (mailbox x)) as H. destruct (mb_enqueue env (mailbox x)) as [m [e|]]; simpl.
  - by apply quiet_with_mailbox_same.
  - by apply (quiet_admitted [env]).
Qed.

Lemma quiet_deadLetter e x : quiet x (deadLetter e x).
Proof. apply quiet_still; try done; [weigh|by right]. Qed.

Lemma quiet_post env x : quiet x (postUserEnvelope env x).1.
Proof.
  unfold postUserEnvelope. destruct (bool_decide _) eqn:E1; [apply quiet_deadLetter|].
  apply bool_decide_eq_false in E1. by apply quiet_enqueueUser.
Qed.

(** Fields no invariant looks at. *)
Record aside (x y : Cell) : Prop := {
  aside_fixed : fixed y = fixed x;
  aside_state : state y = state x;
  aside_mailbox : mailbox y = mailbox x;
  aside_processing : processing y = processing x;
  aside_turns : turns y = turns x;
  aside_current : currentEnvelope y = currentEnvelope x;
  aside_stash : stashBuffer y = stashBuffer x;
  aside_timer : throttleResumeTimer y = throttleResumeTimer x;
  aside_accepted : accepted (ledger y) = accepted (ledger x);
  aside_held : held y = held x;
}.

Lemma quiet_aside x y : aside x y → quiet x y.
Proof.
  intros [F S Mb P Tn C St Ti A H]. apply quiet_still; try done.
  - unfold conserves. by rewrite A, H.
  - by right.
  - unfold commands_only. by rewrite Mb.
  - unfold buried. by rewrite S, Mb, St, C.
  - unfold useful. by rewrite S, Mb, Ti.
Qed.

Lemma holdRelease_aside (k : Message) r x : aside x (holdRelease k r x).1.
Proof. unfold holdRelease. by destruct (entry_get _ _). Qed.

Lemma quiet_signal env r x : quiet x (postSignalEnvelope env r x).1.
Proof.
  unfold postSignalEnvelope. destruct (bool_decide _) eqn:E1; [apply quiet_deadLetter|].
  apply bool_decide_eq_false in E1. destruct r as [r|].
  - pose proof (holdRelease_aside (message env) r x) as Ha. destruct (holdRelease _ r x) as [y [e|]].
    + by apply quiet_aside.
    + etrans; [by apply quiet_aside|]. apply quiet_enqueueUser. pose proof (aside_state _ _ Ha) as Hy; simpl in Hy; by rewrite Hy.
  - by apply quiet_enqueueUser.
Qed.

Lemma quiet_reschedule x y : aside x y ∨ (fixed y = fixed x ∧ state y = state x ∧ mailbox y = mailbox x ∧
    processing y = processing x ∧ turns y = turns x ∧ currentEnvelope y = currentEnvelope x ∧
    stashBuffer y = stashBuffer x ∧ ledger y = ledger x) → quiet x (rescheduleIfRunning y).
Proof.
  intros H. unfold rescheduleIfRunning.
  assert (Hq : fixed y = fixed x ∧ state y = state x ∧ mailbox y = mailbox x ∧
    processing y = processing x ∧ turns y = turns x ∧ currentEnvelope y = currentEnvelope x ∧
    stashBuffer y = stashBuffer x ∧ conserves [] x y).
  { destruct H as [[? ? ? ? ? ? ? ? Ha Hh]|(? & ? & Hm & ? & ? & Hc & Hst & Hl)].
    - split_and!; try done. unfold conserves. by rewrite Ha, Hh.
    - split_and!; try done. unfold conserves, held, current. by rewrite Hm, Hc, Hst, Hl. }
  destruct Hq as (F & S & Mb & P & Tn & C & St & Hc). clear H.
  destruct (bool_decide (state y = running) && mb_hasMessages (mailbox y)) eqn:E1.
  - apply quiet_schedule; try done; [by right|unfold commands_only; by rewrite Mb|unfold buried; by rewrite S, Mb, St, C].
  - apply quiet_still; try done; [by right|unfold commands_only; by rewrite Mb|unfold buried; by rewrite S, Mb, St, C|].
    unfold useful. rewrite S, Mb. intros [Hne [Hw|(Hr & Hs & Hu & _)]]; split; auto.
    exfalso. apply andb_false_iff in E1 as [E1|E1].
    + apply bool_decide_eq_false in E1. congruence.
    + rewrite Mb, mb_hasMessages_ok, Hs, (bool_decide_false _ Hu), orb_true_r in E1. done.
Qed.

Lemma quiet_cancelThrottle x : quiet x (cancelThrottle x).
Proof. apply quiet_reschedule. by right. Qed.

Lemma quiet_throttle rate burst oe now x : quiet x (throttle rate burst oe now x).1.
Proof.
  unfold throttle. destruct rate as [q|[]|].
  - destruct (TokenBucket.construct _ _ _); [apply quiet_reschedule; by right|done].
  - destruct (TokenBucket.construct _ _ _); [apply quiet_reschedule; by right|done].
  - destruct burst as [[b| |]|]; try destruct (negb _); try done; apply quiet_cancelThrottle.
  - destruct (TokenBucket.construct _ _ _); [apply quiet_reschedule; by right|done].
Qed.

Lemma quiet_throttleResume x : quiet x (throttleResume x).
Proof. unfold throttleResume. destruct (throttleResumeTimer x); [|done]. apply quiet_reschedule. by right. Qed.

Lemma quiet_stash x : quiet x (stash x).1.
Proof.
  unfold stash. destruct (currentEnvelope x) as [e|] eqn:Ec; [|done]. destruct (_ >=? _); [done|].
  apply quiet_still; try done.
  - unfold conserves, held, current. simpl. rewrite Ec, fmap_app. simpl. solve_Permutation.
  - by left.
  - intros Hb Ht. destruct (Hb Ht) as (_ & _ & Hn). simpl in Hn. congruence.
Qed.

Lemma entry_replay (l : list Env) : entry <$> (replay <$> l) = entry <$> l.
Proof. by rewrite <-list_fmap_compose. Qed.

Lemma entry_bare (l : list Message) : entry <$> (bare <$> l) = (λ m : Message, (m, None)) <$> l.
Proof. by rewrite <-list_fmap_compose. Qed.

Lemma quiet_unstashAll x : quiet x (unstashAll x).1.
Proof.
  unfold unstashAll. destruct (stashBuffer x) as [|e0 l0] eqn:Est; [done|].
  set (l := e0 :: l0) in *. assert (Hl : l ≠ []) by done. clearbody l.
  pose proof (mb_prependUser_ok (replay <$> l) (mailbox x)) as H.
  destruct (mb_prependUser (replay <$> l) (mailbox x)) as [m [e|]]; simpl.
  - pose proof H as [= H1 H2 H3 _]. apply quiet_still; try done.
    + pose proof (with_mailbox_same m x H) as Hc. unfold conserves, held, current in *. simpl in *. by rewrite <-Est.
    + by right.
    + unfold commands_only. simpl. by rewrite H2.
    + unfold buried. simpl. by rewrite H1, Est.
    + unfold useful. simpl. by rewrite H1, H2, H3.
  - destruct H as [Ha _]. apply quiet_schedule; try done.
    + pose proof (with_mailbox_admits _ m (set_stashBuffer [] x) Ha) as Hc.
      rewrite entry_replay in Hc. unfold conserves, held, current in *. simpl in *. rewrite Est. rewrite <-Hc.
      solve_Permutation.
    + by right.
    + pose proof (admits_systems _ _ _ Ha) as Hy. simpl in Hy. unfold commands_only. simpl. by rewrite Hy.
    + intros Hb Ht. destruct (Hb Ht) as (_ & Hn & _). simpl in Hn. congruence.
Qed.

Lemma quiet_deadLetterMessages ms x : quiet x (deadLetterMessages ms x).
Proof.
  unfold deadLetterMessages. revert x. induction ms as [|m ms IH]; intros x; [done|]. simpl.
  etrans; [apply (quiet_deadLetter (m, None))|]. apply IH.
Qed.

Lemma quiet_prependUserMessages ms x : quiet x (prependUserMessages ms x).1.
Proof.
  unfold prependUserMessages. destruct ms as [|m0 ms0]; [done|]. set (ms := m0 :: ms0). clearbody ms.
  destruct (bool_decide _) eqn:E1; [apply quiet_deadLetterMessages|]. apply bool_decide_eq_false in E1.
  pose proof (mb_prependUser_ok (bare <$> ms) (mailbox x)) as H.
  destruct (mb_prependUser (bare <$> ms) (mailbox x)) as [m [e|]]; simpl.
  - etrans; [by apply quiet_with_mailbox_same|]. apply quiet_deadLetterMessages.
  - destruct H as [Ha _]. rewrite <-entry_bare. by apply quiet_admitted.
Qed.

Lemma quiet_receiveTimeoutFires x : quiet x (receiveTimeoutFires x).
Proof.
  unfold receiveTimeoutFires. destruct (receiveTimeoutHandle x) as [[]|]; [|done..].
  etrans; [|apply quiet_enqueueSystem]. by apply quiet_aside.
Qed.

Lemma become_aside b d x : aside x (become b d x).
Proof. done. Qed.
Lemma unbecome_aside x : aside x (unbecome x).
Proof. unfold unbecome. by destruct (behaviorStack x) as [|? []]. Qed.
Lemma setReceiveTimeout_aside ms x : aside x (setReceiveTimeout ms x).
Proof. unfold setReceiveTimeout, resetReceiveTimer. simpl. by destruct (ms <=? 0). Qed.
Lemma resetReceiveTimer_aside x : aside x (resetReceiveTimer x).
Proof. unfold resetReceiveTimer. by destruct (_ <=? 0). Qed.
Lemma addWatcher_aside w x : aside x (addWatcher w x).1.
Proof. unfold addWatcher. by destruct (bool_decide _). Qed.
Lemma releaseBeforeHandOver_aside (k : Message) x : aside x (releaseBeforeHandOver k x).
Proof. unfold releaseBeforeHandOver, takeRelease. by destruct (entry_get _ _). Qed.

(** ** The invariant of a cell *)

(** The envelope in hand is the one its behavior is working on. *)
Definition in_hand x : Prop :=
  currentEnvelope x ≠ None → ∃ d o h, turns x = [Running (CallReceive d) o h].

Record ok (x : Cell) : Prop := {
  ok_scheduled : scheduled x;
  ok_balanced : balanced x;
  ok_commands : commands_only x;
  ok_buried : buried x;
  ok_in_hand : in_hand x;
}.

Lemma quiet_ok x y : ok x → quiet x y → ok y.
Proof.
  intros [[Hl Ha] Hb Hc Hd Hh] [F S Tn A C E' K B]. constructor; auto.
  - constructor.
    + destruct Tn as [[-> ->]|(_ & H1 & -> & ->)]; [done|]. rewrite length_app, Hl, H1. done.
    + intros Hy. destruct (A Hy) as [|Hx]; [done|]. specialize (Ha Hx).
      destruct Tn as [[-> _]|(_ & _ & ? & _)]; done.
  - by apply (conserves_balanced x).
  - intros Hne. destruct E' as [?|E']; [done|]. rewrite E' in Hne. destruct (Hh Hne) as (d & o & h & Ht).
    destruct Tn as [[_ ->]|(_ & Hp & _)]; [by exists d, o, h|]. rewrite Ht, Hp in Hl. done.
Qed.

(** ** Systems *)

(** Every cell goes on quietly; the new ones are in order. *)
Definition calm s s' : Prop :=
  (∀ j x, cells s !! j = Some x → ∃ y, cells s' !! j = Some y ∧ quiet x y) ∧
  (∀ j y, cells s' !! j = Some y → cells s !! j = None → ok y).

#[export] Instance calm_preorder : PreOrder calm.
Proof.
  split.
  - intros s. split; [intros j x Hx; by exists x|]. intros. congruence.
  - intros s1 s2 s3 [H1 N1] [H2 N2]. split.
    + intros j x Hx. destruct (H1 j x Hx) as (y & Hy & Hq). destruct (H2 j y Hy) as (z & Hz & Hq').
      exists z. split; [done|by etrans].
    + intros j z Hz Hn. destruct (cells s2 !! j) as [y|] eqn:Hy; [|by apply (N2 j)].
      destruct (H2 j y Hy) as (z' & Hz' & Hq). simplify_eq. apply (quiet_ok y); [by apply (N1 j)|done].
Qed.

Lemma calm_same_cells s s' : cells s' = cells s → calm s s'.
Proof. intros H. split; rewrite H; [intros j x Hx; by exists x|]. intros. congruence. Qed.

Lemma upd_lookup i f s j : cells (upd i f s) !! j = (if decide (j = i) then f else id) <$> cells s !! j.
Proof.
  unfold upd. simpl. rewrite list_lookup_alter. destruct (decide (j = i)) as [->|Hne].
  - by rewrite decide_True.
  - rewrite decide_False by congruence. by rewrite option_fmap_id.
Qed.

(** An update of one cell, by an operation that is quiet where it is applied. *)
Lemma calm_upd i f s : (∀ x, cells s !! i = Some x → quiet x (f x)) → calm s (upd i f s).
Proof.
  intros Hf. split.
  - intros j x Hx. exists ((if decide (j = i) then f else id) x). rewrite upd_lookup, Hx.
    split; [done|]. destruct (decide (j = i)) as [->|]; [by apply Hf|done].
  - intros j y Hy Hn. by rewrite upd_lookup, Hn in Hy.
Qed.

Lemma calm_upd_aside i f s : (∀ x, aside x (f x)) → calm s (upd i f s).
Proof. intros Hf. apply calm_upd. intros x _. by apply quiet_aside. Qed.

Lemma calm_foldl {A} (f : ActorSystem → A → ActorSystem) (l : list A) s :
  (∀ s a, calm s (f s a)) → calm s (foldl f s l).
Proof.
  intros Hf. revert s. induction l as [|a l IH]; intros s; [done|]. simpl. etrans; [apply Hf|apply IH].
Qed.

Lemma calm_reading i s (f : Cell → ActorSystem) :
  (∀ x, cells s !! i = Some x → calm s (f x)) → calm s (reading i s s f).
Proof. intros Hf. unfold reading. destruct (cells s !! i) as [x|]; [by apply Hf|done]. Qed.

Lemma calm_upd_err i f s : (∀ x, quiet x (f x).1) → calm s (upd_err i f s).1.
Proof.
  intros Hf. unfold upd_err, reading. destruct (cells s !! i) as [x|] eqn:Hx; [|done]. simpl.
  apply calm_upd. intros y Hy. rewrite Hx in Hy. injection Hy as <-. apply Hf.
Qed.

Lemma calm_tellAll c ids s : calm s (tellAll c ids s).
Proof. apply calm_foldl. intros s' i. apply calm_upd. intros x _. apply quiet_enqueueSystem. Qed.

Lemma calm_tell r k from s : calm s (tell r k from s).1.
Proof.
  unfold tell. destruct (cell r) as [i|]; [|by apply calm_same_cells].
  apply calm_upd_err. intros x. apply quiet_post.
Qed.

Lemma calm_notifyWatcher w t s : calm s (notifyWatcher w t s).
Proof.
  unfold notifyWatcher. destruct (cell w) as [i|]; [|apply calm_tell].
  apply calm_upd_err. intros x. apply quiet_signal.
Qed.

Lemma calm_addWatcherTo i w s : calm s (addWatcherTo i w s).
Proof.
  apply calm_reading. intros x Hx. pose proof (addWatcher_aside w x) as Ha.
  destruct (addWatcher w x) as [y b]. simpl in Ha.
  assert (calm s (upd i (λ _, y) s)) as Hc.
  { apply calm_upd. intros z Hz. rewrite Hx in Hz. injection Hz as <-. by apply quiet_aside. }
  destruct b; [etrans; [exact Hc|apply calm_notifyWatcher]|exact Hc].
Qed.

Lemma calm_registerWatch i r k s : calm s (registerWatch i r k s).
Proof.
  apply calm_reading. intros x Hx. destruct (entry_get _ _); [done|].
  etrans; [by apply (calm_upd_aside i (set_watching (entry_set (watching x) k r)))|].
  destruct (cell r); [apply calm_addWatcherTo|done].
Qed.

Lemma calm_watch i r s : calm s (watch systemName i r s).
Proof. etrans; [|apply calm_registerWatch]. by apply calm_upd_aside. Qed.

Lemma calm_watchWith i r k s : calm s (watchWith systemName i r k s).
Proof. etrans; [|apply calm_registerWatch]. by apply calm_upd_aside. Qed.

Lemma calm_unwatch i r s : calm s (unwatch systemName i r s).
Proof.
  unfold unwatch. etrans; [by apply (calm_upd_aside i (λ x, set_watchWithMessages
    (entry_delete (watchWithMessages x) (watchKeyOf systemName r)) x))|].
  apply calm_reading. intros x Hx. destruct (entry_get _ _); [|done].
  etrans; [by apply (calm_upd_aside i (set_watching (entry_delete (watching x) (watchKeyOf systemName r))))|].
  destruct (cell r); [by apply calm_upd_aside|done].
Qed.

(** ** New cells *)

(** A blueprint whose mailbox factory makes new mailboxes. *)
Definition fresh_blueprint (bp : @ActorBlueprint E M) : Prop :=
  ∀ m, bp_mailbox bp = Some m → mb_view m = mkView [] [] false [].

Lemma buildMailbox_view settings bp dep b : fresh_blueprint bp →
  mb_view (buildMailbox settings bp dep b) = mkView [] [] false [].
Proof.
  intros Hf. unfold buildMailbox. destruct (bp_mailbox bp) as [m|] eqn:E1; [by apply Hf|].
  destruct (resolveMailboxBound _ _ _ _); [apply mb_bounded_ok|apply mb_plain_ok].
Qed.

Lemma construct_ok settings bp p name u : fresh_blueprint bp → ok (construct settings bp p name u).
Proof.
  intros Hf. unfold construct. eapply quiet_ok; [|apply quiet_enqueueSystem].
  match goal with |- ok (mkCell ?id (buildMailbox _ _ ?dep ?b) _ _ _ _ _ _ _ _ _ _ _ _ _ _ _ _ _ _ _ _ _ _ _ _ _) =>
    pose proof (buildMailbox_view settings bp dep b Hf) as [= H1 H2 H3 H4] end.
  constructor.
  - constructor; [done|]. intros [_ [Hs|[Hr _]]]; simpl in *; [congruence|done].
  - unfold balanced, held, current. simpl. by rewrite H1.
  - unfold commands_only. simpl. by rewrite H2.
  - intros Ht. simpl in Ht. done.
  - intros Hn. simpl in Hn. done.
Qed.

Lemma calm_createChild settings i bp name b s : fresh_blueprint bp → calm s (createChild settings i bp name b s).1.
Proof.
  intros Hf. unfold createChild, reading. destruct (cells s !! i) as [x|] eqn:Hx; [|done].
  destruct (b && _); [done|]. destruct (_ || _); [done|]. destruct (entry_get _ _); [done|].
  set (y := set_childUidCounter _ x).
  assert (calm s (upd i (λ _, y) s)) as Hc.
  { apply calm_upd. intros z Hz. rewrite Hx in Hz. injection Hz as <-. by apply quiet_aside. }
  destruct (negb _); [exact Hc|]. cbn [fst]. etrans; [exact Hc|].
  set (s1 := upd i (λ _, y) s) in *. clearbody s1.
  etrans; [|by apply (calm_upd_aside i (set_children (children y ++ [(name, length (cells s1))])))].
  split; simpl.
  - intros j z Hz. exists z. split; [by apply lookup_app_l_Some|done].
  - intros j z Hz Hn. rewrite lookup_app_r in Hz by (by apply lookup_ge_None_1).
    apply list_lookup_singleton_Some in Hz as [_ <-]. by apply construct_ok.
Qed.

Lemma calm_spawnAnonymous settings i bp suffix s : fresh_blueprint bp →
  calm s (spawnAnonymous settings i bp suffix s).1.
Proof.
  intros Hf. unfold spawnAnonymous, reading. destruct (cells s !! i) as [x|] eqn:Hx; [|done].
  etrans; [|by apply calm_createChild]. by apply calm_upd_aside.
Qed.

(** ** Calls from outside a turn *)

Definition fresh_op (op : @ContextOp T E M) : Prop :=
  match op with
  | OpSpawn bp _ | OpSpawnAnonymous bp _ | OpSpawnWithGeneratedName bp _ => fresh_blueprint bp
  | _ => True
  end.

Lemma calm_context settings i op s : fresh_op op → calm s (context systemName settings i op s).1.
Proof.
  intros Hf. destruct op; simpl in *; try (by apply calm_createChild); try (by apply calm_spawnAnonymous).
  - apply calm_tell.
  - apply calm_tell.
  - apply calm_upd. intros x _. apply quiet_enqueueSystem.
  - apply calm_watch.
  - apply calm_watchWith.
  - apply calm_unwatch.
  - by apply calm_upd_aside.
  - apply calm_upd_aside. intros x. apply unbecome_aside.
  - apply calm_upd_aside. intros x. apply setReceiveTimeout_aside.
  - by apply calm_upd_aside.
  - apply calm_upd_err. intros x. apply quiet_stash.
  - apply calm_upd_err. intros x. apply quiet_unstashAll.
  - apply calm_upd_err. intros x. apply quiet_prependUserMessages.
  - apply calm_upd_err. intros x. apply quiet_throttle.
  - apply calm_upd. intros x _. apply quiet_cancelThrottle.
Qed.

(** ** A cell during its own turn *)

(** In its turn a cell may change state, take a message in hand ([hand] are
    those it holds outside of [held]) and start user code ([flow]). *)
Record turning (hand : list Entry) (flow : @Flow T E) (x y : Cell) : Prop := {
  turning_fixed : fixed y = fixed x;
  turning_processing : processing y = processing x;
  turning_turns : turns y = turns x;
  turning_conserves : conserves hand x y;
  turning_current : currentEnvelope y = None ∨ currentEnvelope y = currentEnvelope x ∨
    ∃ d, flow = Await (CallReceive d);
  turning_commands : commands_only x → commands_only y;
  turning_buried : buried x → buried y;
}.

Lemma quiet_turning x y : processing x = true → quiet x y → turning [] Done x y.
Proof.
  intros Hp [F S Tn A C E' K B]. destruct Tn as [[Hp' Ht]|(_ & Hp' & _)]; [|congruence].
  constructor; try done. destruct E'; auto.
Qed.

Lemma turning_trans_l k h flow x y z : turning k Done x y → turning h flow y z → turning (k ++ h) flow x z.
Proof.
  intros [F1 P1 T1 C1 E1 K1 B1] [F2 P2 T2 C2 E2 K2 B2]. constructor; try congruence; auto.
  - apply (conserves_trans k h x y z C1 C2).
  - destruct E2 as [?|[Hz|?]]; [by left| |by right; right]. rewrite Hz.
    destruct E1 as [?|[?|[? ?]]]; [by left|by right; left|done].
Qed.

Lemma turning_trans_r h flow x y z : turning h flow x y → turning [] Done y z → turning h flow x z.
Proof.
  intros [F1 P1 T1 C1 E1 K1 B1] [F2 P2 T2 C2 E2 K2 B2]. constructor; try congruence; auto.
  - pose proof (conserves_trans h [] x y z C1 C2) as H. by rewrite app_nil_r in H.
  - destruct E2 as [?|[Hz|[? ?]]]; [by left| |done]. rewrite Hz. done.
Qed.

(** [i] has its turn; all other cells go on quietly. *)
Record evolves (i : CellId) (hand : list Entry) (flow : @Flow T E) (s s' : ActorSystem) : Prop := {
  evolves_others : ∀ j x, j ≠ i → cells s !! j = Some x → ∃ y, cells s' !! j = Some y ∧ quiet x y;
  evolves_self : ∀ x, cells s !! i = Some x → processing x = true → ∃ y, cells s' !! i = Some y ∧ turning hand flow x y;
  evolves_new : ∀ j y, j ≠ i → cells s' !! j = Some y → cells s !! j = None → ok y;
}.

Lemma evolves_trans_hands i k h flow s1 s2 s3 :
  evolves i k Done s1 s2 → evolves i h flow s2 s3 → evolves i (k ++ h) flow s1 s3.
Proof.
  intros [O1 S1 N1] [O2 S2 N2]. constructor.
  - intros j x Hj Hx. destruct (O1 j x Hj Hx) as (y & Hy & Hq). destruct (O2 j y Hj Hy) as (z & Hz & Hq').
    exists z. split; [done|by etrans].
  - intros x Hx Hp. destruct (S1 x Hx Hp) as (y & Hy & Ht).
    destruct (S2 y Hy) as (z & Hz & Ht'); [by rewrite (turning_processing _ _ _ _ Ht)|].
    exists z. split; [done|by eapply turning_trans_l].
  - intros j z Hj Hz Hn. destruct (cells s2 !! j) as [y|] eqn:Hy; [|by apply (N2 j)].
    destruct (O2 j y Hj Hy) as (z' & Hz' & Hq). simplify_eq. apply (quiet_ok y); [by apply (N1 j)|done].
Qed.

Lemma evolves_trans_l i h flow s1 s2 s3 : evolves i [] Done s1 s2 → evolves i h flow s2 s3 → evolves i h flow s1 s3.
Proof. apply (evolves_trans_hands i []). Qed.

Lemma evolves_trans_hand i h flow s1 s2 s3 : evolves i h Done s1 s2 → evolves i [] flow s2 s3 → evolves i h flow s1 s3.
Proof. intros H1 H2. pose proof (evolves_trans_hands i h [] _ _ _ _ H1 H2) as H. by rewrite app_nil_r in H. Qed.

Lemma evolves_trans_r i h flow s1 s2 s3 : evolves i h flow s1 s2 → evolves i [] Done s2 s3 → evolves i h flow s1 s3.
Proof.
  intros [O1 S1 N1] [O2 S2 N2]. constructor.
  - intros j x Hj Hx. destruct (O1 j x Hj Hx) as (y & Hy & Hq). destruct (O2 j y Hj Hy) as (z & Hz & Hq').
    exists z. split; [done|by etrans].
  - intros x Hx Hp. destruct (S1 x Hx Hp) as (y & Hy & Ht).
    destruct (S2 y Hy) as (z & Hz & Ht'); [by rewrite (turning_processing _ _ _ _ Ht)|].
    exists z. split; [done|by eapply turning_trans_r].
  - intros j z Hj Hz Hn. destruct (cells s2 !! j) as [y|] eqn:Hy; [|by apply (N2 j)].
    destruct (O2 j y Hj Hy) as (z' & Hz' & Hq). simplify_eq. apply (quiet_ok y); [by apply (N1 j)|done].
Qed.

Lemma evolves_flow i h flow s s' : evolves i h Done s s' → evolves i h flow s s'.
Proof.
  intros [O S N]. constructor; [done| |done]. intros x Hx Hp. destruct (S x Hx Hp) as (y & Hy & [F P Tn C E' K B]).
  exists y. split; [done|]. constructor; try done. destruct E' as [|[|[d ?]]]; [by left|by right; left|done].
Qed.

Lemma evolves_calm i s s' : calm s s' → evolves i [] Done s s'.
Proof.
  intros [H N]. constructor; [auto| |eauto]. intros x Hx Hp. destruct (H i x Hx) as (y & Hy & Hq).
  exists y. split; [done|by apply quiet_turning].
Qed.

Lemma evolves_refl i s : evolves i [] Done s s.
Proof. by apply evolves_calm. Qed.

(** An update of the cell itself. *)
Lemma evolves_upd i h flow f s : (∀ x, cells s !! i = Some x → turning h flow x (f x)) → evolves i h flow s (upd i f s).
Proof.
  intros Hf. constructor.
  - intros j x Hj Hx. exists x. rewrite upd_lookup, decide_False by done. by rewrite option_fmap_id.
  - intros x Hx _. exists (f x). rewrite upd_lookup, decide_True, Hx by done. split; [done|by apply Hf].
  - intros j y Hj Hy Hn. rewrite upd_lookup, Hn in Hy. done.
Qed.

Lemma evolves_step i h flow s1 s2 s3 : evolves i h flow s1 s2 → calm s2 s3 → evolves i h flow s1 s3.
Proof. intros H1 H2. eapply evolves_trans_r; [exact H1|by apply evolves_calm]. Qed.

(** The result of a handler. *)
Definition handles (i : CellId) (h : list Entry) (s : ActorSystem) (r : ActorSystem * @Flow T E) : Prop :=
  evolves i h r.2 s r.1.

Lemma handles_reading i j s (f : Cell → ActorSystem * Flow) :
  (∀ x, cells s !! j = Some x → handles i [] s (f x)) → handles i [] s (reading j s (s, Done) f).
Proof.
  intros Hf. unfold reading. destruct (cells s !! j) as [x|]; [by apply Hf|apply evolves_refl].
Qed.

Lemma handles_after i s1 s2 r : evolves i [] Done s1 s2 → handles i [] s2 r → handles i [] s1 r.
Proof. apply evolves_trans_l. Qed.

Lemma handles_flow i h flow s s' : evolves i h Done s s' → handles i h s (s', flow).
Proof. apply evolves_flow. Qed.

(** ** The handlers *)

(** Own fields that carry no message and no turn. *)
Record inner (x y : Cell) : Prop := {
  inner_fixed : fixed y = fixed x;
  inner_processing : processing y = processing x;
  inner_turns : turns y = turns x;
  inner_users : mb_users (mailbox y) = mb_users (mailbox x);
  inner_systems : mb_systems (mailbox y) = mb_systems (mailbox x);
  inner_stash : stashBuffer y = stashBuffer x;
  inner_current : currentEnvelope y = currentEnvelope x;
  inner_ledger : ledger y = ledger x;
  inner_state : state y = terminated → state x = terminated;
}.

Lemma turning_inner x y : inner x y → turning [] Done x y.
Proof.
  intros [F P Tn U Sy St C L S]. constructor; try done.
  - unfold conserves, held, current. by rewrite L, U, St, C.
  - by right; left.
  - unfold commands_only. by rewrite Sy.
  - intros Hb Ht. rewrite U, St, C. by apply Hb, S.
Qed.

Lemma evolves_inner i f s : (∀ x, inner x (f x)) → evolves i [] Done s (upd i f s).
Proof. intros Hf. apply evolves_upd. intros x _. by apply turning_inner. Qed.

Lemma inner_suspend x (b : bool) : inner x
  (let x := set_mailbox (mb_suspend (mailbox x)) x in if b then set_state suspended x else x).
Proof. destruct (suspend_fields (mailbox x)) as [Hu Hs]. by destruct b; constructor. Qed.

Lemma inner_resume x (b : bool) : inner x
  (let x := set_mailbox (mb_resume (mailbox x)) x in if b then set_state running x else x).
Proof. destruct (resume_fields (mailbox x)) as [Hu Hs]. by destruct b; constructor. Qed.

Lemma evolves_failToParent i c s : evolves i [] Done s (failToParent i c s).
Proof.
  unfold failToParent, reading. destruct (cells s !! i) as [x|]; [|apply evolves_refl].
  eapply evolves_trans_l; [apply evolves_inner; intros y; apply inner_suspend|].
  apply evolves_calm. etrans; [apply calm_tellAll|].
  destruct (parent (fixed x)); (apply calm_upd; intros y _; apply quiet_enqueueSystem).
Qed.

Lemma handles_applyDirective i c cause st now s : handles i [] s (applyDirective i c cause st now s).
Proof.
  apply handles_reading. intros x Hx. destruct (decider st cause) as [d|]; [|apply handles_flow, evolves_refl].
  destruct d.
  - apply evolves_calm, calm_tellAll.
  - destruct (registerRestart st now x) as [b y] eqn:Er. apply (handles_after i s (upd i (λ _, y) s)).
    + apply evolves_calm, calm_upd. intros z Hz. rewrite Hx in Hz. injection Hz as <-. apply quiet_aside.
      unfold registerRestart in Er. destruct (Supervision.registerRestart _ _). by injection Er as <- <-.
    + apply evolves_calm, calm_tellAll.
  - apply evolves_calm, calm_tellAll.
  - apply evolves_failToParent.
Qed.

Lemma handles_onFailure i cause r now s : handles i [] s (onFailure systemName i cause r now s).
Proof.
  apply handles_reading. intros x Hx. destruct (findChildByRef _ _ _ _) as [c|]; [|apply evolves_refl].
  destruct (cells s !! c ≫= _); [apply handles_applyDirective|].
  destruct (actor x); [|apply handles_applyDirective].
  by apply handles_flow, evolves_calm, calm_same_cells.
Qed.

Lemma handles_finalizeTermination i s : handles i [] s (finalizeTermination i s).
Proof.
  apply handles_reading. intros x Hx. apply handles_flow.
  eapply evolves_trans_l; [by apply (evolves_inner i (set_throttleResumeTimer false))|].
  apply evolves_calm. destruct (actor x); by apply calm_same_cells.
Qed.

Lemma handles_terminateNextGroup i s : handles i [] s (terminateNextGroup i s).
Proof.
  apply handles_reading. intros x Hx. cbv zeta. destruct (next_group _ _ _) as [k found].
  eapply handles_after; [by apply (evolves_inner i (set_terminationGroupIndex k))|].
  destruct found as [c|].
  - apply evolves_calm, calm_upd. intros y _. apply quiet_enqueueSystem.
  - eapply handles_after; [apply evolves_calm, calm_tellAll|].
    destruct (children x); [apply handles_finalizeTermination|apply evolves_refl].
Qed.

Lemma handles_onTerminate i s : handles i [] s (onTerminate i s).
Proof.
  apply handles_reading. intros x Hx. destruct (_ || _); [apply evolves_refl|].
  eapply handles_after; [by apply (evolves_inner i (λ x, clearReceiveTimer (set_state terminating x)))|].
  destruct (terminationOrder x); [apply handles_terminateNextGroup|].
  eapply handles_after; [apply evolves_calm, calm_tellAll|].
  destruct (children x); [apply handles_finalizeTermination|apply evolves_refl].
Qed.

Lemma handles_completeRecreate i cause s : handles i [] s (completeRecreate i cause s).
Proof. by apply handles_flow, evolves_calm, calm_same_cells. Qed.

Lemma handles_onChildTerminated i r s : handles i [] s (onChildTerminated i r s).
Proof.
  unfold onChildTerminated. set (f := λ x : Cell, set_children _ x). eapply handles_after; [by apply (evolves_inner i f)|].
  set (s1 := upd i f s). clearbody s1. clear s f.
  assert (Hgo : ∀ x s2, handles i [] s2
    (if negb (bool_decide (state x = terminating)) then (s2, Done)
     else match terminationOrder x with
          | Some _ => terminateNextGroup i s2
          | None => match children x with [] => finalizeTermination i s2 | _ => (s2, Done) end
          end)).
  { intros x s2. destruct (negb _); [apply evolves_refl|].
    destruct (terminationOrder x); [apply handles_terminateNextGroup|].
    destruct (children x); [apply handles_finalizeTermination|apply evolves_refl]. }
  apply handles_reading. intros x Hx. destruct (pendingRecreate x); [|apply Hgo].
  destruct (bool_decide (children x = [])); [|apply Hgo].
  eapply handles_after; [by apply (evolves_inner i (set_pendingRecreate None))|].
  destruct (_ && _); [apply handles_completeRecreate|apply Hgo].
Qed.

Lemma handles_onSuspend i s : handles i [] s (onSuspend i s).
Proof.
  apply handles_reading. intros x Hx. eapply handles_after; [apply evolves_inner; intros y; apply inner_suspend|].
  apply evolves_calm, calm_tellAll.
Qed.

Lemma handles_onResume i s : handles i [] s (onResume i s).
Proof.
  apply handles_reading. intros x Hx. eapply handles_after; [apply evolves_inner; intros y; apply inner_resume|].
  apply evolves_calm, calm_tellAll.
Qed.

(** A change of the cell before the handler runs: [g] puts [h] in its hands. *)
Lemma evolves_before i h h' flow g s s' :
  (∀ x, cells s !! i = Some x → processing (g x) = processing x) →
  (∀ x y, cells s !! i = Some x → turning h flow (g x) y → turning h' flow x y) →
  evolves i h flow (upd i g s) s' → evolves i h' flow s s'.
Proof.
  intros Hp Hg [O S N]. constructor.
  - intros j x Hj Hx. apply O; [done|]. rewrite upd_lookup, decide_False by done. by rewrite option_fmap_id.
  - intros x Hx Hpx. destruct (S (g x)) as (y & Hy & Ht).
    + rewrite upd_lookup, decide_True, Hx; done.
    + by rewrite Hp.
    + exists y. split; [done|by apply Hg].
  - intros j y Hj Hy Hn. apply (N j y Hj Hy). by rewrite upd_lookup, Hn.
Qed.

(** The message is handed to the behavior, or consumed. *)
Lemma takeRelease_aside (k : Message) x : aside x (takeRelease k x).2.
Proof. unfold takeRelease. by destruct (entry_get _ _). Qed.

Lemma consume_turning env x : state x = running → (currentEnvelope x = Some env ∨ currentEnvelope x = None) →
  fixed (consume env x) = fixed x ∧ processing (consume env x) = processing x ∧ turns (consume env x) = turns x ∧
  accepted (ledger (consume env x)) = accepted (ledger x) ∧ mailbox (consume env x) = mailbox x ∧
  state (consume env x) = state x ∧ currentEnvelope (consume env x) = None ∧
  held (consume env x) ≡ₚ [entry env] ++ held (set_currentEnvelope None x).
Proof.
  intros Hs Hc. unfold consume, takeRelease. simpl.
  destruct (entry_get _ _); simpl; split_and!; try done; unfold held, current; simpl; solve_Permutation.
Qed.

Lemma openEnvelope_turning env x : state x = running → currentEnvelope x = None →
  let r := openEnvelope systemName env x in
  turning [entry env] (match r.2 with Some d => Await (CallReceive d) | None => Done end) x r.1 ∧
  (r.2 = None → currentEnvelope r.1 = None).
Proof.
  intros Hs Hc. unfold openEnvelope.
  set (x0 := set_currentEnvelope (Some env) (set_currentSender (sender env) x)).
  assert (Hopen : ∀ d, turning [entry env] (Await (CallReceive d)) x x0).
  { intros d. constructor; try done.
    - unfold conserves, held, current. simpl. rewrite Hc. solve_Permutation.
    - right. right. by exists d.
    - intros _ Ht. simpl in Ht. congruence. }
  assert (Hcons : turning [entry env] Done x (consume env x0) ∧ currentEnvelope (consume env x0) = None).
  { destruct (consume_turning env x0) as (F & P & Tn & A & Mb & S & C & H); [done|by left|].
    split; [|done]. constructor; try done.
    - unfold conserves. rewrite A, H. unfold held, current. simpl. rewrite Hc. solve_Permutation.
    - by left.
    - unfold commands_only. by rewrite Mb.
    - intros _ Ht. rewrite S in Ht. simpl in Ht. congruence. }
  destruct (message env) as [k| | | |t|c] eqn:Em; try (split; [apply Hopen|done]).
  destruct (negb (framework t)); [split; [apply Hcons|intros _; apply Hcons]|].
  destruct (entry_get (watching x0) _); [|split; [apply Hcons|intros _; apply Hcons]].
  simpl. destruct (entry_get (watchWithMessages x) _) as [k|]; (split; [|done]).
  - constructor; try done.
    + unfold conserves, held, current. simpl. rewrite Hc. simpl. solve_Permutation.
    + right. right. by exists k.
    + intros _ Ht. simpl in Ht. congruence.
  - destruct (Hopen (Terminated t)). by constructor.
Qed.

(** The cell is about to take a user message. *)
Definition receptive (i : CellId) s : Prop :=
  ∀ x, cells s !! i = Some x → state x = running ∧ currentEnvelope x = None.

Lemma handles_dispatch i env s : receptive i s → is_Some (cells s !! i) →
  handles i [entry env] s (dispatchToBehavior systemName i env s).
Proof.
  intros Hr [x Hx]. destruct (Hr x Hx) as [Hs Hc]. unfold dispatchToBehavior, reading. rewrite Hx.
  pose proof (openEnvelope_turning env x Hs Hc) as [Ht _].
  destruct (openEnvelope systemName env x) as [y [d|]]; cbn [fst snd] in *.
  - apply (evolves_step _ _ _ _ (upd i (λ _, releaseBeforeHandOver (message env) y) s)); [|by apply calm_same_cells].
    apply evolves_upd. intros x' Hx'. rewrite Hx in Hx'. injection Hx' as <-.
    pose proof (releaseBeforeHandOver_aside (message env) y) as [F S Mb P Tn C St Ti A H].
    destruct Ht as [F1 P1 T1 C1 E1 K1 B1]. constructor; try congruence.
    + unfold conserves in *. by rewrite A, H.
    + by rewrite C.
    + unfold commands_only in *. by rewrite Mb.
    + unfold buried in *. by rewrite S, Mb, St, C.
  - apply evolves_upd. intros x' Hx'. rewrite Hx in Hx'. by injection Hx' as <-.
Qed.

Lemma turning_completed env x : turning [entry env] Done x (note_completed [entry env] x).
Proof.
  constructor; try done.
  - unfold conserves, held, current. simpl. solve_Permutation.
  - by right; left.
Qed.

Lemma handles_userMessage i env s : receptive i s → is_Some (cells s !! i) →
  handles i [entry env] s (handleUserMessage systemName i env s).
Proof.
  intros Hr Hi. unfold handleUserMessage.
  destruct (message env); try (by apply handles_dispatch).
  - eapply evolves_trans_hand; [|apply handles_onTerminate]. apply evolves_upd. intros x _. apply turning_completed.
  - apply handles_flow. eapply evolves_trans_hand; [|apply evolves_failToParent].
    apply evolves_upd. intros x _. apply turning_completed.
Qed.

Lemma turning_accept h flow x y : turning h flow (note_accepted h x) y → turning [] flow x y.
Proof.
  intros [F P Tn C E' K B]. constructor; try done. unfold conserves in *. simpl in *.
  rewrite <-!(assoc_L (++)) in C. rewrite (Permutation_app_comm h (held y)) in C.
  apply (Permutation_app_inv_l h). rewrite (Permutation_app_comm h (accepted (ledger x) ++ _)), <-(assoc_L (++)), <-C.
  unfold held. simpl. solve_Permutation.
Qed.

Lemma receptive_upd i f s : receptive i s → (∀ x, state (f x) = state x ∧ currentEnvelope (f x) = currentEnvelope x) →
  receptive i (upd i f s).
Proof.
  intros Hr Hf x Hx. rewrite upd_lookup, decide_True in Hx by done. apply fmap_Some in Hx as (y & Hy & ->).
  destruct (Hf y) as [-> ->]. by apply Hr.
Qed.

Lemma is_Some_upd i f s : is_Some (cells s !! i) → is_Some (cells (upd i f s) !! i).
Proof. intros [x Hx]. exists (f x). by rewrite upd_lookup, decide_True, Hx. Qed.

Lemma handles_onReceiveTimeout i s : (∀ x, cells s !! i = Some x → currentEnvelope x = None) →
  handles i [] s (onReceiveTimeout systemName i s).
Proof.
  intros Hc. unfold onReceiveTimeout, reading. destruct (cells s !! i) as [x|] eqn:Hx; [|apply evolves_refl].
  destruct (bool_decide (state x = running)) eqn:E1; [|apply evolves_refl]. apply bool_decide_eq_true in E1.
  apply (evolves_before i [entry (bare ReceiveTimeout)] [] _ (note_accepted [entry (bare ReceiveTimeout)])).
  - done.
  - intros x' y _. apply turning_accept.
  - apply (handles_userMessage i (bare ReceiveTimeout)).
    + apply receptive_upd; [|done]. intros x' Hx'. simplify_eq. auto.
    + by apply is_Some_upd.
Qed.

Lemma handles_onWatchNotify i r a b s : handles i [] s (onWatchNotify i r a b s).
Proof. apply evolves_calm, calm_upd_err. intros x. apply quiet_signal. Qed.

(** ** Start, restart, stop *)

Lemma deadLetterStash_turning x : turning [] Done x (deadLetterStash x).
Proof.
  constructor; try done.
  - unfold conserves, held, current. simpl. solve_Permutation.
  - by right; left.
  - intros Hb Ht. destruct (Hb Ht) as (? & ? & ?). done.
Qed.

Lemma handles_onRecreate i c s : handles i [] s (onRecreate i c s).
Proof.
  apply handles_reading. intros x Hx. destruct (actor x); [|apply evolves_refl].
  apply handles_flow. apply (evolves_step _ _ _ _ (upd i deadLetterStash s)); [|by apply calm_same_cells].
  apply evolves_upd. intros y _. apply deadLetterStash_turning.
Qed.

Lemma handles_afterPreRestart i c s : handles i [] s (afterPreRestart i c s).
Proof.
  apply handles_reading. intros x Hx. destruct (actor x ≫= _) as [b|]; [|apply handles_flow, evolves_refl].
  destruct (b && _); [|apply handles_completeRecreate].
  eapply handles_after; [apply evolves_calm, calm_tellAll|].
  by apply (evolves_inner i (set_pendingRecreate (Some c))).
Qed.

Lemma handles_attachNext i a c s : handles i [] s (attachNext i a c s).
Proof.
  apply handles_flow. apply (evolves_step _ _ _ _ (upd i (λ x, set_behaviorStack [0%nat] (set_actor (Some a) x)) s)).
  - by apply (evolves_inner i (λ x, set_behaviorStack [0%nat] (set_actor (Some a) x))).
  - by apply calm_same_cells.
Qed.

Lemma handles_initializationFailed i e s : handles i [] s (initializationFailed i e s).
Proof. apply evolves_failToParent. Qed.

Lemma handles_restarted i c s : handles i [] s (restarted i c s).
Proof.
  apply handles_reading. intros x Hx.
  eapply handles_after; [apply evolves_inner; intros y; apply (inner_resume y false)|].
  eapply handles_after; [apply evolves_calm, calm_tellAll|].
  apply (evolves_step _ _ _ _ (upd i (set_state running) (tellAll resume (childIds x)
    (upd i (λ x, set_mailbox (mb_resume (mailbox x)) x) s)))); [|by apply calm_same_cells].
  by apply (evolves_inner i (set_state running)).
Qed.

(** Moving a queue into another mailbox. *)
Lemma move_systems (l : list Env) m :
  let n := foldl (λ n e, mb_enqueueSystem e n) m l in
  mb_users n = mb_users m ∧ mb_systems n = mb_systems m ++ l ∧ mb_suspended n = mb_suspended m.
Proof.
  revert m. induction l as [|e l IH]; intros m; simpl; [by rewrite app_nil_r|].
  destruct (enqueueSystem_fields e m) as (H1 & H2 & H3). destruct (IH (mb_enqueueSystem e m)) as (-> & -> & ->).
  by rewrite H1, H2, H3, <-(assoc_L (++)).
Qed.

Lemma move_users (l : list Env) m :
  let n := foldl (λ n e, mb_enqueueSignal e n) m l in
  mb_users n ≡ₚ l ++ mb_users m ∧ mb_systems n = mb_systems m ∧ mb_suspended n = mb_suspended m.
Proof.
  revert m. induction l as [|e l IH]; intros m; simpl; [done|].
  destruct (signal_fields e m) as (H1 & H2 & H3 & _). destruct (IH (mb_enqueueSignal e m)) as (-> & -> & ->).
  rewrite H1, H2, H3. split; [|done]. by rewrite <-Permutation_middle.
Qed.

Lemma adoptControlLane_turning settings a x : turning [] Done x (set_state running (adoptControlLane settings a x)).
Proof.
  assert (Hrefl : turning [] Done x (set_state running x)) by (by apply turning_inner).
  unfold adoptControlLane. destruct (bp_mailbox _); [done|]. destruct (controlMessages a) as [p|]; [|done].
  set (b := resolveMailboxBound _ _ _ _). clearbody b.
  destruct (mb_drainSystem_ok (mailbox x)) as [Hd [= D1 D2 D3 _]].
  destruct (mb_drainUser_ok (mb_drainSystem (mailbox x)).2) as [Hu _].
  pose proof (mb_controlAware_ok p b) as [= P1 P2 P3 _].
  destruct (move_systems (mb_drainSystem (mailbox x)).1 (mb_controlAware p b)) as (M1 & M2 & M3).
  set (n1 := foldl _ (mb_controlAware p b) _) in *.
  destruct (move_users (mb_drainUser (mb_drainSystem (mailbox x)).2).1 n1) as (N1 & N2 & N3).
  set (n2 := foldl _ n1 _) in *. cbv zeta.
  assert (Hl : ∀ n, mb_users n = mb_users n2 → mb_systems n = mb_systems n2 →
    turning [] Done x (set_state running (set_mailbox n x))).
  { intros n Hnu Hns. constructor; try done.
    - unfold conserves, held, current. simpl. rewrite Hnu, N1, Hu, D1, M1, P1, app_nil_r. done.
    - by right; left.
    - unfold commands_only. simpl. by rewrite Hns, N2, M2, P2, Hd. }
  destruct (mb_suspended _); [|by apply Hl]. destruct (suspend_fields n2) as [? ?]. by apply Hl.
Qed.

Lemma handles_attachFirst settings i a s : handles i [] s (attachFirst settings i a s).
Proof.
  apply handles_flow.
  set (f := λ x, set_state running (set_behaviorStack [0%nat] (adoptControlLane settings a (set_actor (Some a) x)))).
  apply (evolves_step _ _ _ _ (upd i f s)); [|by apply calm_same_cells].
  apply evolves_upd. intros x Hx. apply (turning_trans_l [] [] Done x (set_actor (Some a) x)); [by apply turning_inner|].
  eapply (turning_trans_l [] []); [apply (adoptControlLane_turning settings a)|].
  by apply turning_inner.
Qed.

(** The two drains of the final stop. *)
Lemma drain_turning x : state x ≠ terminated ∨ currentEnvelope x = None ∧ stashBuffer x = [] →
  turning [] Done x (deadLetterQueuedMessages x) ∧ mb_users (mailbox (deadLetterQueuedMessages x)) = [].
Proof.
  intros Hs. destruct (drainUser_fields (mailbox x)) as (H1 & H2 & H3).
  unfold deadLetterQueuedMessages. simpl. split; [|done]. constructor; try done.
  - unfold conserves, held, current. simpl. rewrite H1, H2. simpl. solve_Permutation.
  - by right; left.
  - unfold commands_only. simpl. by rewrite H3.
  - intros _ Ht. simpl in *. destruct Hs as [?|[? ?]]; [done|]. done.
Qed.

(** Marking a drained cell as stopped. *)
Lemma mark_turning x : mb_users (mailbox x) = [] → stashBuffer x = [] → currentEnvelope x = None →
  turning [] Done x (set_state terminated x).
Proof.
  intros Hu Hs Hc. constructor; try reflexivity.
  - unfold conserves, held, current. reflexivity.
  - by left.
  - done.
  - intros _ _. by split_and!.
Qed.

Lemma stopped_turning x : currentEnvelope x = None → turning [] Done x (stopped x).
Proof.
  intros Hc. unfold stopped.
  eapply (turning_trans_l [] []); [apply deadLetterStash_turning|].
  destruct (drain_turning (deadLetterStash x)) as [Hd He]; [by right|].
  eapply (turning_trans_l [] []); [exact Hd|]. revert He.
  assert (currentEnvelope (deadLetterQueuedMessages (deadLetterStash x)) = None ∧
    stashBuffer (deadLetterQueuedMessages (deadLetterStash x)) = []) as [Hc' Hs'] by done.
  revert Hc' Hs'. generalize (deadLetterQueuedMessages (deadLetterStash x)). intros y Hc' Hs' Hu.
  eapply (turning_trans_l [] []); [by apply mark_turning|].
  destruct (drain_turning (set_state terminated y)) as [Hd' _]; [by right|].
  eapply (turning_trans_l [] []); [exact Hd'|]. by apply turning_inner.
Qed.

Lemma handles_completeTermination i s : (∀ x, cells s !! i = Some x → currentEnvelope x = None) →
  handles i [] s (completeTermination i s).
Proof.
  intros Hc. apply handles_reading. intros x Hx.
  assert (H1 : evolves i [] Done s (publish (Stopped i) (upd i stopped s))).
  { apply (evolves_step _ _ _ _ (upd i stopped s)); [|by apply calm_same_cells].
    apply evolves_upd. intros y Hy. apply stopped_turning. auto. }
  eapply handles_after; [exact H1|]. cbv zeta. set (s1 := publish _ _). clearbody s1.
  apply evolves_calm. etrans; [apply (calm_foldl (λ s w, notifyWatcher w (frameworkTerminated (self i x)) s)); intros; apply calm_notifyWatcher|].
  etrans; [by apply (calm_upd_aside i (set_watchers []))|].
  etrans; [apply (calm_foldl (λ s r, unwatchLocal i x r s))|].
  { intros s2 r. unfold unwatchLocal. destruct (cell r); [by apply calm_upd_aside|done]. }
  etrans; [by apply (calm_upd_aside i (λ x, set_watchWithMessages [] (set_watching [] x)))|].
  destruct (parent (fixed x)); [|by apply calm_same_cells].
  apply calm_upd. intros y _. apply quiet_enqueueSystem.
Qed.

Lemma dispatchEpilogue_turning x : turning [] Done x (dispatchEpilogue x).
Proof.
  unfold dispatchEpilogue. constructor; try done.
  - unfold conserves, held, current. simpl. destruct (currentEnvelope x); simpl; solve_Permutation.
  - by left.
  - intros Hb Ht. destruct (Hb Ht) as (? & ? & ?). done.
Qed.

(** ** One step *)

Lemma handles_systemCommand i c now s : (∀ x, cells s !! i = Some x → currentEnvelope x = None) →
  handles i [] s (handleSystemCommand systemName i c now s).
Proof.
  intros Hc. destruct c; simpl.
  - by apply handles_flow, evolves_calm, calm_same_cells.
  - apply handles_onTerminate.
  - apply handles_onRecreate.
  - apply handles_onSuspend.
  - apply handles_onResume.
  - apply handles_onFailure.
  - apply handles_onChildTerminated.
  - apply handles_onWatchNotify.
  - by apply handles_onReceiveTimeout.
Qed.

(** What user code that ends leaves behind: only a behavior had an envelope. *)
Lemma handles_continue settings i u o now s r :
  (∀ x, cells s !! i = Some x → (∀ d, u ≠ CallReceive d) → currentEnvelope x = None) →
  continue_ settings i u o now s = Some r →
  handles i [] s r ∧ (∀ d x, u = CallReceive d → cells r.1 !! i = Some x → currentEnvelope x = None).
Proof.
  intros Hc Hr.
  assert (Hepi : ∀ (f : Cell → Cell) s' x, (∀ y, currentEnvelope (f y) = None) → cells (upd i f s') !! i = Some x →
    currentEnvelope x = None).
  { intros f s' x Hf Hx. rewrite upd_lookup, decide_True in Hx by done. by apply fmap_Some in Hx as (y & _ & ->). }
  assert (Hn : ∀ r', handles i [] s r' → (∀ d, u ≠ CallReceive d) →
    handles i [] s r' ∧ (∀ d x, u = CallReceive d → cells r'.1 !! i = Some x → currentEnvelope x = None)).
  { intros r' Hh Hu. split; [done|]. intros d x ->. by destruct (Hu d). }
  assert (Hpub : ∀ n, handles i [] s (publish n s, Done)) by (intros n; by apply evolves_calm, calm_same_cells).
  destruct u, o; simpl in Hr; try done; injection Hr as <-; try (apply Hn; [|done]).
  - apply handles_initializationFailed.
  - apply handles_attachFirst.
  - apply Hpub.
  - apply handles_initializationFailed.
  - split.
    + apply evolves_upd. intros x _. eapply (turning_trans_l [] []); [|apply dispatchEpilogue_turning].
      pose proof (resetReceiveTimer_aside x) as [F S Mb P Tn C St Ti A H]. constructor; try done.
      * unfold conserves. by rewrite A, H.
      * by right; left.
      * unfold commands_only. by rewrite Mb.
      * unfold buried. by rewrite S, Mb, St, C.
    + intros d x _. by apply (Hepi (λ x, dispatchEpilogue (resetReceiveTimer x))).
  - split.
    + eapply evolves_trans_l; [apply evolves_failToParent|].
      apply evolves_upd. intros x _. apply dispatchEpilogue_turning.
    + intros d x _. by apply (Hepi dispatchEpilogue).
  - apply handles_afterPreRestart.
  - apply handles_afterPreRestart.
  - apply handles_initializationFailed.
  - apply handles_attachNext.
  - apply handles_restarted.
  - apply handles_initializationFailed.
  - apply handles_completeTermination. intros x Hx. by apply Hc.
  - apply handles_completeTermination. intros x Hx. by apply Hc.
  - apply handles_flow, evolves_refl.
  - apply handles_applyDirective.
Qed.

(** ** The end of a step *)

(** The turn of [i] is over, or goes on where [settle] says. *)
Definition all_ok s : Prop := ∀ i x, cells s !! i = Some x → ok x.

Lemma all_ok_calm s s' : all_ok s → calm s s' → all_ok s'.
Proof.
  intros Hs [H N] j y Hy. destruct (cells s !! j) as [x|] eqn:Hx; [|by apply (N j)].
  destruct (H j x Hx) as (y' & Hy' & Hq). simplify_eq. apply (quiet_ok x); [by apply (Hs j)|done].
Qed.

(** A cell whose turn has index [n]: there is no other. *)
Lemma only_turn x n t : ok x → turns x !! n = Some t → processing x = true ∧ turns x = [t] ∧ n = 0%nat.
Proof.
  intros Hok Ht. pose proof (one_turn _ (ok_scheduled _ Hok)) as Hl. pose proof (lookup_lt_Some _ _ _ Ht) as Hlt.
  destruct (processing x); [|lia]. destruct (turns x) as [|t' [|? ?]]; simpl in *; [lia| |lia].
  assert (n = 0%nat) as -> by lia. by simplify_eq/=.
Qed.

(** The cell in mid-turn, its handler done: all but where the turn goes on. *)
Record done_ok (t : Turn) (y : Cell) : Prop := {
  done_turn : turns y = [t];
  done_processing : processing y = true;
  done_balanced : balanced y;
  done_commands : commands_only y;
  done_buried : buried y;
}.

Lemma done_ok_turning t h flow x y : turns x = [t] → processing x = true → commands_only x → buried x →
  (accepted (ledger x) ≡ₚ h ++ held x) → turning h flow x y → done_ok t y.
Proof.
  intros Ht Hp Hc Hb Ha [F P Tn C E' K B]. constructor; [congruence|congruence| |auto|auto].
  unfold conserves, balanced in *. rewrite <-Ha in C.
  rewrite (Permutation_app_comm (accepted (ledger y))) in C. by apply Permutation_app_inv_l in C.
Qed.

Lemma ok_set_turn t u y : done_ok t y → (currentEnvelope y ≠ None → ∃ d o h, u = Running (CallReceive d) o h) →
  ok (set_turn 0 u y).
Proof.
  intros [Ht Hp Ha Hc Hb] Hh. unfold set_turn. rewrite Ht. simpl. constructor; try done.
  - constructor; simpl; [by rewrite Hp|by rewrite Hp].
  - intros Hne. destruct (Hh Hne) as (d & o & h & ->). by exists d, o, h.
Qed.

Lemma ok_endTurn t y : done_ok t y → currentEnvelope y = None → ok (endTurn 0 y).
Proof.
  intros [Ht Hp Ha Hc Hb] Hn. unfold endTurn. rewrite Ht. cbn [delete list_delete].
  set (z := set_processing false (set_turns [] y)).
  assert (Hz : scheduled z → ok z) by (intros Hz; constructor; try done; intros Hne; simpl in Hne; congruence).
  destruct (negb (bool_decide (state z = terminated)) && hasDispatchableWork z) eqn:Ew.
  - destruct (schedule_fields z) as (F & S & Mb & L & St & C & Th). destruct (schedule_turn z) as [Htn Hu].
    constructor.
    + constructor; [|done]. by destruct Htn as [[-> ->]|(_ & _ & -> & ->)].
    + unfold balanced, held, current in *. by rewrite Mb, L, St, C.
    + unfold commands_only. by rewrite Mb.
    + unfold buried. by rewrite S, Mb, St, C.
    + intros Hne. rewrite C in Hne. simpl in Hne. congruence.
  - apply Hz. constructor; [done|]. intros Hu. pose proof (useful_work _ Hu) as Hw.
    rewrite Hw, andb_true_r in Ew. apply negb_false_iff, bool_decide_eq_true in Ew. by destruct Hu as [? _].
Qed.

(** [settle] after a handler that kept everything in order. *)
Lemma settle_ok i n o h s r :
  (∀ j x, j ≠ i → cells r.1 !! j = Some x → ok x) →
  (∀ y, cells r.1 !! i = Some y → ∃ t, n = 0%nat ∧ done_ok t y ∧
    (currentEnvelope y ≠ None → ∃ d, r.2 = Await (CallReceive d))) →
  all_ok (settle i n o h r).
Proof.
  intros Hothers Hself. destruct r as [s' flow]. cbn [fst snd] in *.
  assert (Hupd : ∀ f s'', cells s'' = cells s' →
    (∀ t y, n = 0%nat → done_ok t y → (currentEnvelope y ≠ None → ∃ d, flow = Await (CallReceive d)) → ok (f y)) →
    all_ok (upd i f s'')).
  { intros f s'' He Hf j y Hy. rewrite upd_lookup, He in Hy. apply fmap_Some in Hy as (y0 & Hy0 & ->).
    destruct (decide (j = i)) as [->|Hj]; [|by apply (Hothers j)].
    destruct (Hself y0 Hy0) as (t & Hn & Hd & Hc). by apply (Hf t). }
  destruct flow as [|u|]; simpl.
  - apply Hupd; [done|]. intros t y -> Hd Hc.
    assert (Hnone : currentEnvelope y = None).
    { destruct (currentEnvelope y); [|done]. by destruct Hc as [? ?]. }
    destruct o.
    + destruct (bool_decide _); [by apply (ok_endTurn t)|apply (ok_set_turn t); [done|congruence]].
    + destruct (_ <? _); [apply (ok_set_turn t); [done|congruence]|by apply (ok_endTurn t)].
  - apply Hupd; [done|]. intros t y -> Hd Hc. apply (ok_set_turn t); [done|].
    intros Hne. destruct (Hc Hne) as [d [= ->]]. by exists d, o, h.
  - apply Hupd; [done|]. intros t y -> Hd Hc. apply (ok_endTurn t); [done|].
    destruct (currentEnvelope y); [|done]. by destruct Hc as [? ?].
Qed.

(** A handler run on a system in order. *)
Lemma settle_handles i n o h t s r x : all_ok s → cells s !! i = Some x → turns x !! n = Some t →
  handles i [] s r →
  (∀ y, cells r.1 !! i = Some y → currentEnvelope y ≠ None → ∃ d, r.2 = Await (CallReceive d)) →
  all_ok (settle i n o h r).
Proof.
  intros Hs Hx Ht [O Sf N] Hc. destruct (only_turn x n t (Hs i x Hx) Ht) as (Hp & Htn & ->).
  destruct (Hs i x Hx) as [Hsch Hb Hco Hbu Hh].
  apply settle_ok; [done| |].
  - intros j y Hj Hy. destruct (cells s !! j) as [z|] eqn:Hz; [|by apply (N j)].
    destruct (O j z Hj Hz) as (y' & Hy' & Hq). simplify_eq. apply (quiet_ok z); [by apply (Hs j)|done].
  - intros y Hy. destruct (Sf x Hx Hp) as (y' & Hy' & Htu). simplify_eq. exists t. split; [done|]. split; [|by apply Hc].
    by apply (done_ok_turning t [] r.2 x).
Qed.

(** ** The turn of a cell *)

Lemma all_ok_upd i f s : all_ok s → (∀ x, cells s !! i = Some x → ok (f x)) → all_ok (upd i f s).
Proof.
  intros Hs Hf j y Hy. rewrite upd_lookup in Hy. apply fmap_Some in Hy as (x & Hx & ->).
  destruct (decide (j = i)) as [->|]; [by apply Hf|by apply (Hs j)].
Qed.

Lemma not_in_hand x t : ok x → turns x = [t] → (∀ d o h, t ≠ Running (CallReceive d) o h) → currentEnvelope x = None.
Proof.
  intros Hok Ht Hn. destruct (currentEnvelope x) eqn:Ec; [|done].
  destruct (ok_in_hand _ Hok) as (d & o & h & Ht'); [by rewrite Ec|].
  rewrite Ht in Ht'. injection Ht' as ->. by destruct (Hn d o h).
Qed.

(** Only a call of the behavior leaves an envelope in hand. *)
Lemma handles_current i s r x : processing x = true → cells s !! i = Some x → currentEnvelope x = None →
  handles i [] s r → ∀ y, cells r.1 !! i = Some y → currentEnvelope y ≠ None → ∃ d, r.2 = Await (CallReceive d).
Proof.
  intros Hp Hx Hc [_ Sf _] y Hy Hne. destruct (Sf x Hx Hp) as (y' & Hy' & Ht). simplify_eq.
  destruct (turning_current _ _ _ _ Ht) as [?|[?|?]]; [done|congruence|done].
Qed.

(** Taking the next system command off its lane. *)
Lemma turning_dequeueSystem x : turning [] Done x (set_mailbox (mb_dequeueSystem (mailbox x)).2 x).
Proof.
  destruct (dequeueSystem_fields (mailbox x)) as (H1 & H2 & H3). constructor; try done.
  - unfold conserves, held, current. simpl. by rewrite H1.
  - by right; left.
  - unfold commands_only. simpl. rewrite H2. intros Hc. by destruct (mb_systems (mailbox x)); [|apply Forall_cons in Hc as [_ ?]].
  - unfold buried. simpl. by rewrite H1.
Qed.

Lemma handles_command i clock s x e m c : cells s !! i = Some x → currentEnvelope x = None →
  mb_dequeueSystem (mailbox x) = (Some e, m) → message e = Command c →
  handles i [] s (handleSystemCommand systemName i c clock (upd i (set_mailbox m) s)).
Proof.
  intros Hx Hcur Hm Hc. eapply handles_after.
  - apply evolves_upd. intros x' Hx'. simplify_eq. pose proof (turning_dequeueSystem x) as Hd. by rewrite Hm in Hd.
  - apply handles_systemCommand. intros y Hy. rewrite upd_lookup, decide_True, Hx in Hy by done. by simplify_eq/=.
Qed.

Lemma ok_runSystem i n h clock s x e m c : all_ok s → cells s !! i = Some x → turns x !! n = Some (Loop h) →
  mb_dequeueSystem (mailbox x) = (Some e, m) → message e = Command c →
  all_ok (settle i n FromSystem h (handleSystemCommand systemName i c clock (upd i (set_mailbox m) s))).
Proof.
  intros Hs Hx Ht Hm Hc. destruct (only_turn x n _ (Hs i x Hx) Ht) as (Hp & Htn & ->).
  assert (Hcur : currentEnvelope x = None) by (by apply (not_in_hand x (Loop h)); [apply (Hs i)| |]).
  assert (Hh : handles i [] s (handleSystemCommand systemName i c clock (upd i (set_mailbox m) s))).
  { by apply (handles_command i clock s x e). }
  by apply (settle_handles i 0 FromSystem h (Loop h) s _ x); [| | | |apply (handles_current i s _ x)].
Qed.

(** Taking the next user message. *)
Lemma turning_take env flow m x x2 y :
  mb_users (mailbox x) ≡ₚ env :: mb_users m → mb_systems m = mb_systems (mailbox x) →
  aside (set_mailbox m x) x2 → state x = running → turning [entry env] flow x2 y → turning [] flow x y.
Proof.
  intros Hu Hs [F S Mb P Tn C St Ti A H] Hr [F' P' T' C' E' K' B']. simpl in *.
  constructor; try congruence.
  - unfold conserves in *. rewrite A, H in C'. simpl in C'.
    unfold held in C' at 1. simpl in C'. unfold held. rewrite Hu. simpl. rewrite <-C'. unfold current. simpl. solve_Permutation.
  - unfold commands_only in *. by rewrite Mb, Hs in K'.
  - unfold buried in *. intros _. apply B'. intros Ht. congruence.
Qed.

(** The gate lets the message through, or parks or discards it and the batch
    is over. *)
Lemma throttleGate_spec env now x :
  match throttleGate env now x with
  | (y, None) => aside x y
  | (y, Some _) => conserves [entry env] x y ∧ state y = state x ∧ processing y = processing x ∧ turns y = turns x ∧
      currentEnvelope y = currentEnvelope x ∧ mb_systems (mailbox y) = mb_systems (mailbox x)
  end.
Proof.
  unfold throttleGate. destruct (throttleBucket x) as [b|]; [|done]. destruct (undroppable env); [done|].
  destruct (tryConsume 1 now b) as [ok' b']. destruct ok'; [done|].
  unfold handleThrottleExcess. simpl. destruct (throttleOnExcess x).
  - pose proof (mb_prependUser_ok [env] (mailbox x)) as H.
    destruct (mb_prependUser [env] (mailbox x)) as [m [e|]].
    + pose proof (with_mailbox_same m x H) as Hc. pose proof H as [= _ H2 _ _].
      split_and!; try done. unfold conserves, held, current in *. simpl in *.
      rewrite (Permutation_app_comm _ [entry env]), <-!(assoc_L (++)) in *. 
      transitivity ([entry env] ++ accepted (ledger x) ++ (entry <$> mb_users (mailbox x)) ++ (entry <$> stashBuffer x)
        ++ current x ++ completed (ledger x) ++ deadLetters (ledger x) ++ discarded (ledger x) ++ dropped (ledger x));
        [unfold current; solve_Permutation|]. unfold current. rewrite Hc. solve_Permutation.
    + destruct H as [Ha _]. pose proof (with_mailbox_admits _ m x Ha) as Hc.
      pose proof (admits_systems _ _ _ Ha) as H2. simpl in H2.
      destruct (throttleResumeTimer x); split_and!; try done; unfold conserves, held, current in *; simpl in *; exact Hc.
  - split_and!; try done. unfold conserves, held, current. simpl. solve_Permutation.
Qed.

Lemma handles_taken i env m s x x2 : cells s !! i = Some x → state x = running → currentEnvelope x = None →
  mb_users (mailbox x) ≡ₚ env :: mb_users m → mb_systems m = mb_systems (mailbox x) → aside (set_mailbox m x) x2 →
  handles i [] s (handleUserMessage systemName i env (upd i (λ _, x2) s)).
Proof.
  intros Hx Er Hcur Hu H2 Hg. pose proof (aside_processing _ _ Hg) as Hpr. pose proof (aside_state _ _ Hg) as Hst.
  pose proof (aside_current _ _ Hg) as Hcu. simpl in *.
  apply (evolves_before i [entry env] [] _ (λ _, x2)).
  - intros x' Hx'. by simplify_eq.
  - intros x' y Hx'. simplify_eq. by apply (turning_take env _ m).
  - apply handles_userMessage.
    + intros y Hy. rewrite upd_lookup, decide_True, Hx in Hy by done. simplify_eq/=. split; congruence.
    + apply is_Some_upd. by exists x.
Qed.

Lemma ok_runUser i n h now s x : all_ok s → cells s !! i = Some x → turns x !! n = Some (Loop h) →
  all_ok (runUser systemName i n h now s).
Proof.
  intros Hs Hx Ht. pose proof (Hs i x Hx) as Hok. destruct (only_turn x n _ Hok Ht) as (Hp & Htn & ->).
  assert (Hcur : currentEnvelope x = None) by (by apply (not_in_hand x (Loop h))).
  pose proof Hok as [_ Hb Hco Hbu _].
  unfold runUser, reading. rewrite Hx. destruct (bool_decide (state x = running)) eqn:Er; simpl negb; cbv iota.
  2:{ apply all_ok_upd; [done|]. intros y Hy. simplify_eq. apply (ok_endTurn (Loop h)); [by constructor|done]. }
  apply bool_decide_eq_true in Er. pose proof (mb_dequeueUser_ok (mailbox x)) as Hd.
  destruct (mb_dequeueUser (mailbox x)) as [[env|] m].
  2:{ destruct Hd as [_ Hv]. pose proof Hv as [= H1 H2 H3 _]. apply all_ok_upd; [done|]. intros y Hy. simplify_eq.
      apply (ok_endTurn (Loop h)); [|done]. constructor; [done..| | |].
      - unfold balanced, held, current in *. simpl. by rewrite H1.
      - unfold commands_only in *. simpl. by rewrite H2.
      - unfold buried in *. simpl. by rewrite H1. }
  destruct Hd as (_ & Hu & [= H2 H3 _]).
  pose proof (throttleGate_spec env now (set_mailbox m x)) as Hg.
  destruct (throttleGate env now (set_mailbox m x)) as [x2 [e|]].
  - destruct Hg as (Hc & Hst & Hpr & Htu & Hcu & Hsy). simpl in *.
    assert (Hdone : ok (endTurn 0 x2)).
    { apply (ok_endTurn (Loop h)); [constructor; try congruence|congruence].
      - unfold conserves, balanced in *. simpl in Hc. rewrite Hb in Hc. unfold held in Hc at 1 2. simpl in Hc.
        rewrite Hu in Hc. simpl in Hc.
        apply (Permutation_app_inv_r (entry env :: (entry <$> mb_users m) ++ (entry <$> stashBuffer x) ++
          current x ++ completed (ledger x) ++ deadLetters (ledger x) ++ discarded (ledger x) ++ dropped (ledger x))).
        transitivity (accepted (ledger x2) ++ entry env :: (entry <$> mb_users m) ++ (entry <$> stashBuffer x) ++
          current (set_mailbox m x) ++ completed (ledger x) ++ deadLetters (ledger x) ++ discarded (ledger x) ++ dropped (ledger x));
          [done|]. rewrite Hc. solve_Permutation.
      - unfold commands_only in *. by rewrite Hsy, H2. }
    destruct e; (apply all_ok_upd; [done|]); intros y Hy; by simplify_eq.
  - assert (Hh : handles i [] s (handleUserMessage systemName i env (upd i (λ _, x2) s))).
    { by apply (handles_taken i env m s x). }
    by apply (settle_handles i 0 FromUser h (Loop h) s _ x); [| | | |apply (handles_current i s _ x)].
Qed.

Lemma ok_runLoop i n h clock now s x : all_ok s → cells s !! i = Some x → turns x !! n = Some (Loop h) →
  all_ok (runLoop systemName i n h clock now s).
Proof.
  intros Hs Hx Ht. unfold runLoop, reading. rewrite Hx. destruct (mb_hasSystemMessages (mailbox x)) eqn:Eh.
  2:{ by apply (ok_runUser i n h now s x). }
  rewrite mb_hasSystemMessages_ok in Eh. apply negb_true_iff, bool_decide_eq_false in Eh.
  destruct (mb_dequeueSystem_ok (mailbox x)) as [Hd _].
  pose proof (ok_commands _ (Hs i x Hx)) as Hco. unfold commands_only in Hco.
  destruct (mb_systems (mailbox x)) as [|e l]; [done|]. apply Forall_cons in Hco as [[c Hc] _].
  destruct (mb_dequeueSystem (mailbox x)) as [next m] eqn:Em. simpl in Hd. subst next.
  destruct e as [k sd rp ud]. simpl in Hc. subst k. by apply (ok_runSystem i n h clock s x _ m c) in Em.
Qed.

(** Events that bring new mailboxes only. *)
Definition fresh_event (e : @Event T E M) : Prop :=
  match e with Context _ op => fresh_op op | _ => True end.

Lemma cell_step_ok settings e s : fresh_event e → all_ok s → all_ok (step systemName settings e s).
Proof.
  intros Hf Hs. destruct e; simpl in *.
  - destruct (cells s !! i) as [x|] eqn:Hx; [|done]. simpl. destruct (turns x !! n) as [t|] eqn:Ht; [|done].
    destruct (only_turn x n t (Hs i x Hx) Ht) as (Hp & Htn & ->).
    destruct t as [|h|]; [|by apply (ok_runLoop i 0 h clock now s x)|done].
    apply all_ok_upd; [done|]. intros y Hy. simplify_eq. pose proof (Hs i _ Hx) as Hok.
    pose proof Hok as [_ Hb Hc Hbu _]. apply (ok_set_turn Armed); [by constructor|].
    by rewrite (not_in_hand _ Armed).
  - destruct (cells s !! i) as [x|] eqn:Hx; [|done]. simpl. destruct (turns x !! n) as [t|] eqn:Ht; [|done].
    destruct (only_turn x n t (Hs i x Hx) Ht) as (Hp & Htn & ->).
    destruct t as [| |u o h]; [done..|]. destruct (continue_ _ _ _ _ _ _) as [r|] eqn:Er; [|done].
    assert (Hcur : (∀ d, u ≠ CallReceive d) → currentEnvelope x = None).
    { intros Hu. apply (not_in_hand x (Running u o h)); [by apply (Hs i)|done|]. intros d o' h' [= ->]. by destruct (Hu d). }
    destruct (handles_continue settings i u outcome clock s r) as [Hh Hrec]; [|done|].
    { intros x' Hx'. by simplify_eq. }
    apply (settle_handles i 0 o h (Running u o h) s r x); try done.
    intros y Hy Hne. assert (Hd : (∃ d, u = CallReceive d) ∨ ∀ d, u ≠ CallReceive d).
    { destruct u; first [by right|by left; eexists]. }
    destruct Hd as [[d Hd]|Hn].
    + by rewrite (Hrec d y) in Hne.
    + apply (handles_current i s r x Hp Hx) with y; try done. by apply Hcur.
  - by apply (all_ok_calm s); [|apply calm_context].
  - apply (all_ok_calm s); [done|]. apply calm_upd_err. intros x. apply quiet_signal.
  - apply (all_ok_calm s); [done|]. apply calm_upd. intros x _. apply quiet_enqueueSystem.
  - apply (all_ok_calm s); [done|]. apply calm_addWatcherTo.
  - apply (all_ok_calm s); [done|]. by apply calm_upd_aside.
  - apply (all_ok_calm s); [done|]. apply calm_upd. intros x _. apply quiet_receiveTimeoutFires.
  - apply (all_ok_calm s); [done|]. apply calm_upd. intros x _. apply quiet_throttleResume.
Qed.

(** ** Reachable systems *)

Inductive reachable (settings : Settings) : ActorSystem → Prop :=
| reachable_initial : reachable settings (initial settings)
| reachable_step e s : reachable settings s → fresh_event e → reachable settings (step systemName settings e s).

Lemma initial_ok settings : all_ok (initial settings).
Proof.
  assert (Hf : fresh_blueprint guardianBlueprint) by (intros m; done).
  unfold initial. eapply all_ok_calm; [|by apply calm_upd_aside].
  eapply all_ok_calm; [|by apply calm_createChild]. eapply all_ok_calm; [|by apply calm_createChild].
  intros i x Hx. simpl in Hx. apply list_lookup_singleton_Some in Hx as [_ <-]. by apply construct_ok.
Qed.

Lemma reachable_cells_ok settings s : reachable settings s → all_ok s.
Proof. induction 1; [apply initial_ok|by apply cell_step_ok]. Qed.

Lemma reachable_run settings es : Forall fresh_event es → reachable settings (run systemName settings es (initial settings)).
Proof.
  assert (H : ∀ s, reachable settings s → Forall fresh_event es → reachable settings (run systemName settings es s)).
  { induction es as [|e es IH]; intros s Hs Hes; [done|]. apply Forall_cons in Hes as [He Hes].
    apply IH; [by constructor|done]. }
  apply H. constructor.
Qed.

End invariants.
