(* ===== verification/ActorCellLifecycle.v ===== *)
(** * The life of a cell

    A second pass over the handlers of [ActorCell], for what the first leaves
    open: which cell changes its state, from what to what, and whose children
    go.  [shifts] says it of one handler; [lifecycle] of one event. *)

From Stdlib Require Import QArith.
From S2P Require Import Prelude Mailbox ActorMailbox Supervision Float TokenBucket ActorCell ActorCellInvariants.

Local Open Scope Z_scope.

Section lifecycle.
Context {T E M : Type} `{EqDecision T, EqDecision E} `{!CellMailbox (Message_ T E) M, !CellMailboxLaws (Message_ T E) M}.
Context (systemName : string).

Abbreviation Message := (Message_ T E).
Abbreviation Env := (Envelope Message).
Abbreviation Cell := (@Cell T E M).
Abbreviation ActorSystem := (@ActorSystem T E M).
Abbreviation UserCode := (@UserCode T E).
Abbreviation Flow := (@Flow T E).
Implicit Types (x y z : Cell) (s : ActorSystem).

(** ** What stays as it is *)

Definition anatomy x := (fixed x, state x, children x, childUidCounter x).

Definition still s s' : Prop := anatomy <$> cells s' = anatomy <$> cells s.

#[local] Instance still_preorder : PreOrder still.
Proof. split; [done|]. intros s1 s2 s3 H1 H2. unfold still in *. congruence. Qed.

Lemma still_upd i f s : (∀ x, anatomy (f x) = anatomy x) → still s (upd i f s).
Proof.
  intros Hf. unfold still. apply list_eq. intros j. rewrite !list_lookup_fmap, upd_lookup.
  destruct (cells s !! j) as [x|]; [|done]. simpl. destruct (decide (j = i)); simpl; by rewrite ?Hf.
Qed.

Lemma still_upd_err i f s : (∀ x, anatomy (f x).1 = anatomy x) → still s (upd_err i f s).1.
Proof.
  intros Hf. unfold upd_err, reading. destruct (cells s !! i) as [x|] eqn:Hx; [|done]. simpl.
  unfold still. apply list_eq. intros j. rewrite !list_lookup_fmap, upd_lookup.
  destruct (decide (j = i)) as [->|]; [rewrite Hx; simpl; by rewrite Hf|by rewrite option_fmap_id].
Qed.

Lemma still_foldl {A} (f : ActorSystem → A → ActorSystem) (l : list A) s :
  (∀ s a, still s (f s a)) → still s (foldl f s l).
Proof.
  intros Hf. revert s. induction l as [|a l IH]; intros s; [done|]. simpl. etrans; [apply Hf|apply IH].
Qed.

Lemma still_reading i s (f : Cell → ActorSystem) :
  (∀ x, cells s !! i = Some x → still s (f x)) → still s (reading i s s f).
Proof. intros Hf. unfold reading. destruct (cells s !! i) as [x|]; [by apply Hf|done]. Qed.

Lemma still_length s s' : still s s' → length (cells s') = length (cells s).
Proof. intros H. apply (f_equal length) in H. by rewrite !length_fmap in H. Qed.

Lemma still_lookup s s' j x : still s s' → cells s !! j = Some x →
  ∃ y, cells s' !! j = Some y ∧ anatomy y = anatomy x.
Proof.
  intros H Hx. apply (f_equal (.!! j)) in H. rewrite !list_lookup_fmap, Hx in H.
  destruct (cells s' !! j) as [y|]; [|done]. exists y. split; [done|]. simpl in H. congruence.
Qed.

(** ** Operations of one cell *)

Lemma anatomy_schedule x : anatomy (schedule x) = anatomy x.
Proof. unfold schedule. destruct (_ || _); [done|]. by destruct (negb _). Qed.

Lemma anatomy_enqueueUser env b x : anatomy (enqueueUser env b x).1 = anatomy x.
Proof.
  unfold enqueueUser. destruct b; [cbn [fst]; by rewrite anatomy_schedule|].
  destruct (mb_enqueue env (mailbox x)) as [m [e|]]; [done|cbn [fst]; by rewrite anatomy_schedule].
Qed.

Lemma anatomy_post env x : anatomy (postUserEnvelope env x).1 = anatomy x.
Proof. unfold postUserEnvelope. destruct (bool_decide _); [done|apply anatomy_enqueueUser]. Qed.

Lemma anatomy_signal env r x : anatomy (postSignalEnvelope env r x).1 = anatomy x.
Proof.
  unfold postSignalEnvelope. destruct (bool_decide _); [done|]. destruct r as [r|].
  - unfold holdRelease. destruct (entry_get _ _); [done|]. cbn [fst]; by rewrite anatomy_enqueueUser.
  - apply anatomy_enqueueUser.
Qed.

Lemma anatomy_deadLetterMessages ms x : anatomy (deadLetterMessages ms x) = anatomy x.
Proof. unfold deadLetterMessages. revert x. induction ms as [|m ms IH]; intros x; [done|]. simpl. by rewrite IH. Qed.

Lemma anatomy_prepend ms x : anatomy (prependUserMessages ms x).1 = anatomy x.
Proof.
  unfold prependUserMessages. destruct ms as [|m ms]; [done|].
  destruct (bool_decide _); [apply anatomy_deadLetterMessages|].
  destruct (mb_prependUser _ _) as [m' [e|]]; [cbn [fst]; by rewrite anatomy_deadLetterMessages|].
  cbn [fst]; by rewrite anatomy_schedule.
Qed.

Lemma anatomy_stash x : anatomy (stash x).1 = anatomy x.
Proof. unfold stash. destruct (currentEnvelope x); [|done]. by destruct (_ >=? _). Qed.

Lemma anatomy_unstashAll x : anatomy (unstashAll x).1 = anatomy x.
Proof.
  unfold unstashAll. destruct (stashBuffer x); [done|].
  destruct (mb_prependUser _ _) as [m [e'|]]; [done|cbn [fst]; by rewrite anatomy_schedule].
Qed.

Lemma anatomy_reschedule x : anatomy (rescheduleIfRunning x) = anatomy x.
Proof. unfold rescheduleIfRunning. destruct (_ && _); [cbn [fst]; by rewrite anatomy_schedule|done]. Qed.

Lemma anatomy_throttle rate burst o now x : anatomy (throttle rate burst o now x).1 = anatomy x.
Proof.
  unfold throttle, cancelThrottle. destruct rate as [q|[]|]; simpl;
    repeat case_match; simpl; rewrite ?anatomy_reschedule; done.
Qed.

Lemma anatomy_throttleResume x : anatomy (throttleResume x) = anatomy x.
Proof. unfold throttleResume. destruct (throttleResumeTimer x); [|done]. by rewrite anatomy_reschedule. Qed.

Lemma anatomy_timeout x : anatomy (receiveTimeoutFires x) = anatomy x.
Proof.
  unfold receiveTimeoutFires, enqueueSystem. destruct (receiveTimeoutHandle x) as [[]|]; try done. cbn [fst]; by rewrite anatomy_schedule.
Qed.

Lemma anatomy_resetReceiveTimer x : anatomy (resetReceiveTimer x) = anatomy x.
Proof. unfold resetReceiveTimer. by destruct (_ <=? _). Qed.

Lemma anatomy_unbecome x : anatomy (unbecome x) = anatomy x.
Proof. unfold unbecome. by destruct (behaviorStack x) as [|? [|? ?]]. Qed.

Lemma anatomy_addWatcher w x : anatomy (addWatcher w x).1 = anatomy x.
Proof. unfold addWatcher. by destruct (bool_decide _). Qed.

Lemma anatomy_endTurn n x : anatomy (endTurn n x) = anatomy x.
Proof. unfold endTurn. cbv zeta. destruct (_ && _); by rewrite ?anatomy_schedule. Qed.

(** ** Operations of the system *)

Lemma still_enqueueSystem i c s : still s (upd i (enqueueSystem c) s).
Proof. apply still_upd. intros x. unfold enqueueSystem. cbn [fst]; by rewrite anatomy_schedule. Qed.

Lemma still_tellAll c ids s : still s (tellAll c ids s).
Proof. apply still_foldl. intros s' i. apply still_enqueueSystem. Qed.

Lemma still_tell r k from s : still s (tell r k from s).1.
Proof. unfold tell. destruct (cell r); [|done]. apply still_upd_err. intros x. apply anatomy_post. Qed.

Lemma still_notifyWatcher w t s : still s (notifyWatcher w t s).
Proof.
  unfold notifyWatcher. destruct (cell w); [|apply still_tell]. apply still_upd_err. intros x. apply anatomy_signal.
Qed.

Lemma still_addWatcherTo i w s : still s (addWatcherTo i w s).
Proof.
  apply still_reading. intros x Hx. pose proof (anatomy_addWatcher w x) as Ha.
  destruct (addWatcher w x) as [y b]. simpl in Ha.
  assert (Hu : still s (upd i (λ _, y) s)).
  { unfold still. apply list_eq. intros j. rewrite !list_lookup_fmap, upd_lookup.
    destruct (decide (j = i)) as [->|]; [rewrite Hx; simpl; by rewrite Ha|by rewrite option_fmap_id]. }
  destruct b; [|done]. etrans; [exact Hu|apply still_notifyWatcher].
Qed.

Lemma still_registerWatch i r k s : still s (registerWatch i r k s).
Proof.
  apply still_reading. intros x Hx. destruct (entry_get _ _); [done|].
  etrans; [by apply (still_upd i (set_watching (entry_set (watching x) k r)))|].
  destruct (cell r); [apply still_addWatcherTo|done].
Qed.

Lemma still_unwatch i r s : still s (unwatch systemName i r s).
Proof.
  unfold unwatch. etrans; [by apply (still_upd i (λ x, set_watchWithMessages
    (entry_delete (watchWithMessages x) (watchKeyOf systemName r)) x))|].
  apply still_reading. intros x Hx. destruct (entry_get _ _); [|done].
  etrans; [by apply (still_upd i (set_watching (entry_delete (watching x) (watchKeyOf systemName r))))|].
  destruct (cell r); [by apply still_upd|done].
Qed.

(** ** What a handler of [i] does *)

(** The state of [i] goes as [R] says; its children may go; nothing else of
    any anatomy changes. *)
Record shifts (i : CellId) (R : CellState → CellState → Prop) s s' : Prop := {
  shifts_length : length (cells s') = length (cells s);
  shifts_others : ∀ j x, j ≠ i → cells s !! j = Some x → ∃ y, cells s' !! j = Some y ∧ anatomy y = anatomy x;
  shifts_self : ∀ x, cells s !! i = Some x → ∃ y, cells s' !! i = Some y ∧ fixed y = fixed x ∧
    childUidCounter y = childUidCounter x ∧ children y `sublist_of` children x ∧ R (state x) (state y);
}.

Lemma shifts_weaken i (R Q : CellState → CellState → Prop) s s' : (∀ a b, R a b → Q a b) → shifts i R s s' → shifts i Q s s'.
Proof.
  intros H [L O Sf]. constructor; [done|done|]. intros x Hx. destruct (Sf x Hx) as (y & ? & ? & ? & ? & ?). eauto 8.
Qed.

Lemma shifts_still i s s' : still s s' → shifts i eq s s'.
Proof.
  intros H. constructor; [by apply still_length|intros j x _; by apply still_lookup|].
  intros x Hx. destruct (still_lookup _ _ _ _ H Hx) as (y & Hy & [= F S C U]). exists y.
  split_and!; try done. by rewrite C.
Qed.

Lemma shifts_after i R s1 s2 s3 : still s1 s2 → shifts i R s2 s3 → shifts i R s1 s3.
Proof.
  intros H [L O Sf]. constructor.
  - rewrite L. by apply still_length.
  - intros j x Hj Hx. destruct (still_lookup _ _ _ _ H Hx) as (y & Hy & Ha).
    destruct (O j y Hj Hy) as (z & Hz & Ha'). exists z. split; [done|congruence].
  - intros x Hx. destruct (still_lookup _ _ _ _ H Hx) as (y & Hy & [= F S C U]).
    destruct (Sf y Hy) as (z & Hz & Fz & Uz & Cz & Rz). rewrite S in Rz. rewrite C in Cz.
    exists z. split_and!; try done; congruence.
Qed.

Lemma shifts_then i R s1 s2 s3 : shifts i R s1 s2 → still s2 s3 → shifts i R s1 s3.
Proof.
  intros [L O Sf] H. constructor.
  - rewrite <-L. by apply still_length.
  - intros j x Hj Hx. destruct (O j x Hj Hx) as (y & Hy & Ha).
    destruct (still_lookup _ _ _ _ H Hy) as (z & Hz & Ha'). exists z. split; [done|congruence].
  - intros x Hx. destruct (Sf x Hx) as (y & Hy & Fy & Uy & Cy & Ry).
    destruct (still_lookup _ _ _ _ H Hy) as (z & Hz & [= F S C U]). exists z.
    rewrite S, C. split_and!; try done; congruence.
Qed.

Lemma shifts_upd i (R : CellState → CellState → Prop) f s :
  (∀ x, cells s !! i = Some x → fixed (f x) = fixed x ∧ childUidCounter (f x) = childUidCounter x ∧
    children (f x) `sublist_of` children x ∧ R (state x) (state (f x))) →
  shifts i R s (upd i f s).
Proof.
  intros Hf. constructor.
  - unfold upd. simpl. by rewrite length_alter.
  - intros j x Hj Hx. exists x. by rewrite upd_lookup, decide_False, Hx by done.
  - intros x Hx. exists (f x). rewrite upd_lookup, decide_True, Hx by done. split; [done|by apply Hf].
Qed.

(** A failing cell is suspended, if it was running. *)
Definition dims (a b : CellState) : Prop := b = a ∨ (a = running ∧ b = suspended).

(** The edges of the life cycle; [ended] is the user code that just ended.  A
    cell is started or restarted from any state. *)
Definition edge (ended : option UserCode) (a b : CellState) : bool :=
  match a, b with
  | running, suspended | suspended, running => true
  | (creating | running | suspended), terminating => true
  | terminating, terminated => match ended with Some CallPostStop => true | _ => false end
  | (creating | terminating | terminated), running =>
      match ended with Some (CallFactory | CallPostRestart _) => true | _ => false end
  | _, _ => bool_decide (a = b)
  end.

(** How a handler that answers [flow] may change the state. *)
Record edges (ended : option UserCode) (a : CellState) (flow : Flow) (b : CellState) : Prop := {
  edges_edge : edge ended a b = true;
  edges_stop : flow = Await CallPostStop → b = terminating;
  edges_stopped : a ≠ terminated → b = terminated → flow = Done;
}.

Definition moves (ended : option UserCode) (i : CellId) s (r : ActorSystem * Flow) : Prop :=
  shifts i (λ a b, edges ended a r.2 b) s r.1.

Lemma edge_refl ended a : edge ended a a = true.
Proof. by destruct a. Qed.

Lemma edges_refl ended a flow : flow ≠ Await CallPostStop → edges ended a flow a.
Proof. intros Hf. constructor; [apply edge_refl|done|congruence]. Qed.

Lemma moves_still ended i s s' flow : flow ≠ Await CallPostStop → still s s' → moves ended i s (s', flow).
Proof. intros Hf H. eapply shifts_weaken; [|by apply shifts_still]. intros a b ->. by apply edges_refl. Qed.

Lemma moves_refl ended i s flow : flow ≠ Await CallPostStop → moves ended i s (s, flow).
Proof. intros Hf. by apply moves_still. Qed.

Lemma moves_dims ended i s s' : shifts i dims s s' → moves ended i s (s', Done).
Proof.
  apply shifts_weaken. intros a b [->|[-> ->]]; [by apply edges_refl|]. by constructor.
Qed.

Lemma moves_reading ended i j s f : (∀ x, cells s !! j = Some x → moves ended i s (f x)) →
  moves ended i s (reading j s (s, Done) f).
Proof. intros Hf. unfold reading. destruct (cells s !! j) as [x|]; [by apply Hf|by apply moves_refl]. Qed.

Lemma moves_after ended i s1 s2 r : still s1 s2 → moves ended i s2 r → moves ended i s1 r.
Proof. apply shifts_after. Qed.

(** ** The handlers *)

Lemma shifts_failToParent i c s : shifts i dims s (failToParent i c s).
Proof.
  unfold failToParent, reading. destruct (cells s !! i) as [x|].
  2:{ eapply shifts_weaken; [|by apply shifts_still]. intros a b ->. by left. }
  eapply shifts_then.
  2:{ etrans; [apply still_tellAll|]. destruct (parent (fixed x)); apply still_enqueueSystem. }
  apply shifts_upd. intros y _. simpl. destruct (bool_decide_reflect (state y = running)) as [Hr|Hr]; simpl;
    split_and!; try done; [by right|by left].
Qed.

Lemma moves_applyDirective ended i c cause st now s : moves ended i s (applyDirective i c cause st now s).
Proof.
  apply moves_reading. intros x Hx. destruct (decider st cause) as [d|]; [|by apply moves_refl].
  destruct d.
  - apply moves_still; [done|]. apply still_tellAll.
  - destruct (registerRestart st now x) as [w y] eqn:Er. apply moves_still; [done|].
    etrans; [|apply still_tellAll]. unfold registerRestart in Er.
    destruct (Supervision.registerRestart _ _) as [g b]. injection Er as <- <-.
    unfold still. apply list_eq. intros j. rewrite !list_lookup_fmap, upd_lookup.
    destruct (decide (j = i)) as [->|]; [by rewrite Hx|by rewrite option_fmap_id].
  - apply moves_still; [done|]. apply still_tellAll.
  - apply moves_dims, shifts_failToParent.
Qed.

Lemma moves_onFailure ended i cause r now s : moves ended i s (onFailure systemName i cause r now s).
Proof.
  apply moves_reading. intros x Hx. destruct (findChildByRef _ _ _ _) as [c|]; [|by apply moves_refl].
  destruct (cells s !! c ≫= _); [apply moves_applyDirective|].
  destruct (actor x); [by apply moves_still|apply moves_applyDirective].
Qed.

(** Is [i] in the state [a]? *)
Definition at_state i a s : Prop := ∀ x, cells s !! i = Some x → state x = a.

Lemma at_state_still i a s s' : still s s' → at_state i a s → at_state i a s'.
Proof.
  intros H Ha y Hy. assert (H' : still s' s) by (unfold still in *; congruence).
  destruct (still_lookup _ _ _ _ H' Hy) as (x & Hx & [= F S C U]). rewrite <-S. by apply Ha.
Qed.

(** Handlers that leave the state alone. *)
Definition keeps (i : CellId) s (r : ActorSystem * Flow) : Prop :=
  shifts i (λ a b, b = a ∧ (r.2 = Await CallPostStop → a = terminating)) s r.1.

Lemma keeps_moves ended i s r : keeps i s r → moves ended i s r.
Proof.
  apply shifts_weaken. intros a b [-> Hf]. constructor; [apply edge_refl|done|congruence].
Qed.

Lemma keeps_still i s s' flow : flow ≠ Await CallPostStop → still s s' → keeps i s (s', flow).
Proof. intros Hf H. eapply shifts_weaken; [|by apply shifts_still]. by intros a b ->. Qed.

Lemma keeps_after i s1 s2 r : still s1 s2 → keeps i s2 r → keeps i s1 r.
Proof. apply shifts_after. Qed.

Lemma keeps_reading i j s f : (∀ x, cells s !! j = Some x → keeps i s (f x)) → keeps i s (reading j s (s, Done) f).
Proof. intros Hf. unfold reading. destruct (cells s !! j) as [x|]; [by apply Hf|by apply keeps_still]. Qed.

Lemma keeps_waiting i s s' : at_state i terminating s → still s s' → keeps i s (s', Await CallPostStop).
Proof.
  intros Ha H. pose proof (shifts_still i _ _ H) as [L O Sf]. constructor; [done|done|].
  intros x Hx. destruct (Sf x Hx) as (y & Hy & Fy & Uy & Cy & Sy). exists y. split_and!; try done.
  intros _. by apply Ha.
Qed.

Lemma keeps_finalizeTermination i s : at_state i terminating s → keeps i s (finalizeTermination i s).
Proof.
  intros Ha. apply keeps_reading. intros x Hx. apply keeps_waiting; [done|].
  transitivity (upd i (set_throttleResumeTimer false) s); [by apply still_upd|by destruct (actor x)].
Qed.

Lemma keeps_children i s1 s2 : at_state i terminating s1 → still s1 s2 → ∀ x,
  keeps i s1 (match children x with [] => finalizeTermination i s2 | _ => (s2, Done) end).
Proof.
  intros Ha H x. destruct (children x); [|by apply keeps_still].
  eapply keeps_after; [exact H|]. apply keeps_finalizeTermination. by apply (at_state_still i _ s1).
Qed.

Lemma keeps_terminateNextGroup i s : at_state i terminating s → keeps i s (terminateNextGroup i s).
Proof.
  intros Ha. apply keeps_reading. intros x Hx. cbv zeta. destruct (next_group _ _ _) as [k found].
  assert (H1 : still s (upd i (set_terminationGroupIndex k) s)) by (by apply still_upd).
  destruct found as [c|].
  - apply keeps_still; [done|]. etrans; [exact H1|]. apply still_enqueueSystem.
  - apply keeps_children; [done|]. etrans; [exact H1|apply still_tellAll].
Qed.

(** The state moves to [b], and the rest of the handler keeps it there. *)
Lemma moves_to ended i b f s r : b ≠ terminated →
  (∀ x, cells s !! i = Some x → anatomy (f x) = (fixed x, b, children x, childUidCounter x)
    ∧ edge ended (state x) b = true) →
  (at_state i b (upd i f s) → keeps i (upd i f s) r) → moves ended i s r.
Proof.
  intros Hb Hf Hm.
  destruct Hm as [L O Sf].
  { intros y Hy. rewrite upd_lookup, decide_True in Hy by done. apply fmap_Some in Hy as (x & Hx & ->).
    by pose proof (Hf x Hx) as [[= _ ? _ _] _]. }
  constructor.
  - rewrite L. unfold upd. simpl. by rewrite length_alter.
  - intros j x Hj Hx. apply O; [done|]. by rewrite upd_lookup, decide_False, Hx by done.
  - intros x Hx. destruct (Sf (f x)) as (y & Hy & Fy & Uy & Cy & Sy & Hw);
      [by rewrite upd_lookup, decide_True, Hx by done|].
    destruct (Hf x Hx) as [[= F S C U] He]. exists y. rewrite <-C. rewrite S in *. rewrite Sy.
    split_and!; [done|congruence|congruence|done|]. by constructor.
Qed.

Lemma moves_onTerminate ended i s : moves ended i s (onTerminate i s).
Proof.
  apply moves_reading. intros x Hx. destruct (_ || _) eqn:Eo; [by apply moves_refl|].
  apply orb_false_iff in Eo as [E1%bool_decide_eq_false E2%bool_decide_eq_false].
  apply (moves_to _ i terminating (λ x, clearReceiveTimer (set_state terminating x))); [done| |].
  { intros y Hy. simplify_eq. split; [done|]. by destruct (state x). }
  intros Ha. destruct (terminationOrder x); [by apply keeps_terminateNextGroup|].
  apply keeps_children; [done|apply still_tellAll].
Qed.

Lemma keeps_onChildTerminated i r s : keeps i s (onChildTerminated i r s).
Proof.
  set (name := default "" (last (elements (ref_path r)))).
  set (f := λ x : Cell, set_children (entry_delete (children x) name) x).
  assert (Hk : ∀ s1, keeps i (upd i f s1) (onChildTerminated i r s1)).
  { intros s1. unfold onChildTerminated. fold name. fold f. generalize (upd i f s1). clear s1 s. intros s.
    apply keeps_reading. intros x Hx.
    set (goes_on := λ s : ActorSystem,
      if negb (bool_decide (state x = terminating)) then (s, Done)
      else match terminationOrder x with
           | Some _ => terminateNextGroup i s
           | None => match children x with [] => finalizeTermination i s | _ => (s, Done) end
           end).
    assert (Hg : ∀ s', still s s' → keeps i s (goes_on s')).
    { intros s' H. unfold goes_on. destruct (bool_decide_reflect (state x = terminating)) as [Ht|]; simpl;
        [|by apply keeps_still].
      assert (Ha : at_state i terminating s) by (intros y Hy; congruence).
      destruct (terminationOrder x); [|by apply keeps_children].
      eapply keeps_after; [exact H|]. apply keeps_terminateNextGroup. by apply (at_state_still i _ s). }
    destruct (pendingRecreate x) as [c|]; [|by apply Hg]. destruct (bool_decide (children x = [])); [|by apply Hg].
    assert (H : still s (upd i (set_pendingRecreate None) s)) by (by apply still_upd).
    destruct (_ && _); [by apply keeps_still|by apply Hg]. }
  destruct (Hk s) as [L O Sf]. constructor.
  - rewrite L. unfold upd. simpl. by rewrite length_alter.
  - intros j x Hj Hx. apply O; [done|]. by rewrite upd_lookup, decide_False, Hx by done.
  - intros x Hx. destruct (Sf (f x)) as (y & Hy & Fy & Uy & Cy & Sy & Hw);
      [by rewrite upd_lookup, decide_True, Hx by done|].
    exists y. split_and!; try done. etrans; [exact Cy|]. simpl. unfold entry_delete. apply list.sublist_filter.
Qed.

(** An update of [i] that keeps its anatomy, where it is applied. *)
Lemma still_set i x y s : cells s !! i = Some x → anatomy y = anatomy x → still s (upd i (λ _, y) s).
Proof.
  intros Hx Ha. unfold still. apply list_eq. intros j. rewrite !list_lookup_fmap, upd_lookup.
  destruct (decide (j = i)) as [->|]; [rewrite Hx; simpl; by rewrite Ha|by rewrite option_fmap_id].
Qed.

Lemma anatomy_openEnvelope env x : anatomy (openEnvelope systemName env x).1 = anatomy x.
Proof.
  unfold openEnvelope, consume, takeRelease. cbv zeta.
  repeat case_match; simplify_eq/=; repeat case_match; simplify_eq/=; done.
Qed.

Lemma anatomy_handOver m x : anatomy (releaseBeforeHandOver m x) = anatomy x.
Proof. unfold releaseBeforeHandOver, takeRelease. by destruct (entry_get _ _). Qed.

Lemma moves_userMessage ended i env s : moves ended i s (handleUserMessage systemName i env s).
Proof.
  unfold handleUserMessage.
  assert (Hn : still s (upd i (note_completed [entry env]) s)) by (by apply still_upd).
  assert (Hd : moves ended i s (dispatchToBehavior systemName i env s)).
  { apply moves_reading. intros x Hx. pose proof (anatomy_openEnvelope env x) as Ha.
    destruct (openEnvelope systemName env x) as [y [d|]]; (apply moves_still; [done|]); simpl in Ha.
    - apply (still_set i x _ s); [done|]. by rewrite anatomy_handOver.
    - by apply (still_set i x). }
  destruct (message env); try done.
  - eapply moves_after; [exact Hn|]. apply moves_onTerminate.
  - eapply moves_after; [exact Hn|]. apply moves_dims, shifts_failToParent.
Qed.

Lemma moves_onSuspend ended i s : moves ended i s (onSuspend i s).
Proof.
  apply moves_reading. intros x Hx. apply moves_dims. eapply shifts_then; [|apply still_tellAll].
  apply shifts_upd. intros y _. simpl. destruct (bool_decide_reflect (state y = running)); simpl;
    split_and!; try done; [by right|by left].
Qed.

(** From [suspended] to [running]. *)
Lemma moves_onResume ended i s : moves ended i s (onResume i s).
Proof.
  apply moves_reading. intros x Hx. eapply shifts_then; [|apply still_tellAll].
  apply shifts_upd. intros y _. simpl. destruct (bool_decide_reflect (state y = suspended)) as [Hs|]; simpl;
    split_and!; try done; [|by apply edges_refl]. rewrite Hs. by constructor.
Qed.

Lemma moves_systemCommand ended i c now s : moves ended i s (handleSystemCommand systemName i c now s).
Proof.
  destruct c; simpl.
  - by apply moves_still.
  - apply moves_onTerminate.
  - apply moves_reading. intros x Hx. destruct (actor x); [|by apply moves_refl].
    apply moves_still; [done|]. by apply (still_upd i deadLetterStash).
  - apply moves_onSuspend.
  - apply moves_onResume.
  - apply moves_onFailure.
  - apply keeps_moves, keeps_onChildTerminated.
  - apply moves_still; [done|]. apply still_upd_err. intros x. apply anatomy_signal.
  - apply moves_reading. intros x Hx. destruct (bool_decide _); [|by apply moves_refl].
    eapply moves_after; [|apply moves_userMessage]. by apply still_upd.
Qed.

(** ** After user code *)

(** The cell is running again, whatever it was. *)
Lemma moves_running u i s s' :
  (u = CallFactory ∨ ∃ c, u = CallPostRestart c) → ∀ flow, flow ≠ Await CallPostStop →
  shifts i (λ _ b, b = running) s s' → moves (Some u) i s (s', flow).
Proof.
  intros Hu flow Hf. apply shifts_weaken. intros a b ->. constructor; [|done|done].
  destruct Hu as [->|[c ->]]; by destruct a.
Qed.

Lemma anatomy_adopt settings a x : anatomy (adoptControlLane settings a x) = anatomy x.
Proof. unfold adoptControlLane. by destruct (bp_mailbox _), (controlMessages a). Qed.

Lemma moves_attachFirst settings i a s : moves (Some CallFactory) i s (attachFirst settings i a s).
Proof.
  apply moves_running; [by left|done|].
  apply (shifts_then i _ _ (upd i (λ x, set_state running
    (set_behaviorStack [0%nat] (adoptControlLane settings a (set_actor (Some a) x)))) s)); [|done].
  apply shifts_upd. intros x _. pose proof (anatomy_adopt settings a (set_actor (Some a) x)) as [= F S C U].
  simpl. split_and!; try done. by rewrite C.
Qed.

Lemma moves_restarted i c s : moves (Some (CallPostRestart c)) i s (restarted i c s).
Proof.
  apply moves_reading. intros x Hx. apply moves_running; [right; by exists c|done|].
  eapply shifts_after; [by apply (still_upd i (λ x, set_mailbox (mb_resume (mailbox x)) x))|].
  eapply shifts_after; [apply still_tellAll|]. 
  eapply shifts_then; [by apply (shifts_upd i _ (set_state running))|done].
Qed.

Lemma moves_completeTermination i s : at_state i terminating s →
  moves (Some CallPostStop) i s (completeTermination i s).
Proof.
  intros Ha. apply moves_reading. intros x Hx. unfold moves. cbn [fst snd].
  set (s1 := upd i stopped s).
  assert (H1 : shifts i (λ a b, edges (Some CallPostStop) a Done b) s s1).
  { apply shifts_upd. intros y Hy. split_and!; try done. simpl. rewrite (Ha y Hy). by constructor. }
  eapply shifts_then; [exact H1|].
  set (s2 := foldl _ (publish (Stopped i) s1) _).
  assert (H2 : still s1 s2).
  { etrans; [|apply still_foldl; intros s' w; apply still_notifyWatcher]. done. }
  etrans; [exact H2|]. etrans; [by apply (still_upd i (set_watchers []))|].
  etrans; [apply (still_foldl (λ s r, unwatchLocal i x r s))|].
  { intros s' r. unfold unwatchLocal. destruct (cell r); [by apply still_upd|done]. }
  etrans; [by apply (still_upd i (λ x, set_watchWithMessages [] (set_watching [] x)))|].
  destruct (parent (fixed x)); [apply still_enqueueSystem|done].
Qed.

Lemma moves_continue settings i u o now s r : (u = CallPostStop → at_state i terminating s) →
  continue_ settings i u o now s = Some r → moves (Some u) i s r.
Proof.
  intros Hs Hr.
  assert (Hi : ∀ e, moves (Some u) i s (initializationFailed i e s)).
  { intros e. apply moves_dims, shifts_failToParent. }
  destruct u, o; simpl in Hr; try done; injection Hr as <-; try apply Hi.
  - apply moves_attachFirst.
  - by apply moves_still.
  - apply moves_still; [done|]. apply still_upd. intros x. unfold dispatchEpilogue.
    pose proof (anatomy_resetReceiveTimer x) as [= F S C U]. unfold anatomy. simpl. by rewrite F, S, C, U.
  - apply moves_dims. eapply shifts_then; [apply shifts_failToParent|]. by apply still_upd.
  - apply moves_reading. intros x Hx. destruct (actor x ≫= _) as [b|]; [|by apply moves_refl].
    destruct (b && _); [|by apply moves_still]. apply moves_still; [done|].
    etrans; [apply still_tellAll|by apply still_upd].
  - apply moves_reading. intros x Hx. destruct (actor x ≫= _) as [b|]; [|by apply moves_refl].
    destruct (b && _); [|by apply moves_still]. apply moves_still; [done|].
    etrans; [apply still_tellAll|by apply still_upd].
  - apply moves_still; [done|].
    by apply (still_upd i (λ x, set_behaviorStack [0%nat] (set_actor (Some a) x))).
  - apply moves_restarted.
  - by apply moves_completeTermination, Hs.
  - by apply moves_completeTermination, Hs.
  - by apply moves_refl.
  - apply moves_applyDirective.
Qed.

(** ** Spawning *)

(** A child that [i] spawned: a name that was free, and the next uid; an
    invalid name costs the uid. *)
Definition spawns (settings : Settings) (i : CellId) (bp : ActorBlueprint) (name : string) s s' : Prop :=
  ∃ x, cells s !! i = Some x ∧ entry_get (children x) name = None ∧ state x ≠ terminated ∧ state x ≠ terminating ∧
  let x1 := set_childUidCounter (childUidCounter x + 1) x in
  (cells s' = <[i := x1]> (cells s) ∨
   validName name = true ∧
   cells s' = <[i := set_children (children x ++ [(name, length (cells s))]) x1]> (cells s)
     ++ [construct settings bp (Some (i, x1)) name (childUidCounter x + 1)]).

Definition grows (settings : Settings) s s' : Prop :=
  still s s' ∨ ∃ s1 i bp name, still s s1 ∧ spawns settings i bp name s1 s'.

Lemma alter_insert {A} (f : A → A) (l : list A) (i : nat) (a : A) : l !! i = Some a → alter f i l = <[i := f a]> l.
Proof.
  intros Hx. apply list_eq. intros j. pose proof (lookup_lt_Some _ _ _ Hx).
  rewrite list_lookup_alter, list_lookup_insert. destruct (decide (i = j)) as [<-|].
  - by rewrite decide_True, Hx by done.
  - by rewrite decide_False by naive_solver.
Qed.

Lemma grows_createChild settings i bp name b s : grows settings s (createChild settings i bp name b s).1.
Proof.
  unfold createChild, reading. destruct (cells s !! i) as [x|] eqn:Hx; [|by left].
  destruct (b && _); [by left|]. destruct (_ || _) eqn:Es; [by left|].
  apply orb_false_iff in Es as [E1%bool_decide_eq_false E2%bool_decide_eq_false].
  destruct (entry_get (children x) name) eqn:Ec; [by left|].
  right. exists s, i, bp, name. split; [done|]. exists x. split_and!; try done.
  destruct (validName name) eqn:Ev; simpl.
  - right. split; [done|].
    pose proof (lookup_lt_Some _ _ _ Hx) as Hlt. rewrite length_alter, (alter_insert _ (cells s) i x) by done.
    rewrite (alter_insert _ _ i (set_childUidCounter (childUidCounter x + 1) x)).
    + by rewrite insert_app_l, list_insert_insert_eq by (by rewrite length_insert).
    + rewrite lookup_app_l by (by rewrite length_insert). by rewrite list_lookup_insert, decide_True by done.
  - left. by rewrite (alter_insert _ _ _ x).
Qed.

Lemma grows_context settings i op s : grows settings s (context systemName settings i op s).1.
Proof.
  destruct op; simpl; try (by apply grows_createChild).
  - left. apply still_tell.
  - unfold spawnAnonymous, reading. destruct (cells s !! i) as [x|] eqn:Hx; [|by left].
    set (s1 := upd i (set_anonChildCounter (anonChildCounter x + 1)) s).
    assert (H1 : still s s1) by (by apply still_upd).
    cbv zeta. fold s1. match goal with |- context [createChild _ _ _ ?n] => generalize n end. intros nm.
    destruct (grows_createChild settings i bp nm false s1)
      as [H|(s2 & j & b & nm' & H2 & Hsp)]; [left; by etrans|].
    right. exists s2, j, b, nm'. split; [by etrans|done].
  - left. apply still_tell.
  - left. apply still_enqueueSystem.
  - left. etrans; [|apply still_registerWatch]. by apply still_upd.
  - left. etrans; [|apply still_registerWatch]. by apply still_upd.
  - left. apply still_unwatch.
  - left. by apply still_upd.
  - left. apply still_upd, anatomy_unbecome.
  - left. apply still_upd. intros x. unfold setReceiveTimeout. by rewrite anatomy_resetReceiveTimer.
  - left. by apply still_upd.
  - left. apply still_upd_err, anatomy_stash.
  - left. apply still_upd_err, anatomy_unstashAll.
  - left. apply still_upd_err, anatomy_prepend.
  - left. apply still_upd_err. intros x. apply anatomy_throttle.
  - left. apply still_upd. intros x. unfold cancelThrottle. by rewrite anatomy_reschedule.
Qed.

(** ** One event *)

(** The others go on quietly, and [i] is still at the same point of its turn. *)
Record touches (i : CellId) s s' : Prop := {
  touches_others : ∀ j x, j ≠ i → cells s !! j = Some x → ∃ y, cells s' !! j = Some y ∧ quiet x y;
  touches_self : ∀ x, cells s !! i = Some x → processing x = true → ∃ y, cells s' !! i = Some y ∧ turns y = turns x;
}.

Lemma touches_handles i h s r : handles i h s r → touches i s r.1.
Proof.
  intros [O Sf N]. constructor; [done|]. intros x Hx Hp. destruct (Sf x Hx Hp) as (y & Hy & Ht).
  exists y. split; [done|by eapply turning_turns].
Qed.

Lemma touches_set i x y s : cells s !! i = Some x → turns y = turns x → touches i s (upd i (λ _, y) s).
Proof.
  intros Hx Ht. constructor.
  - intros j z Hj Hz. exists z. rewrite upd_lookup, decide_False, Hz by done. split; [done|reflexivity].
  - intros z Hz _. simplify_eq. exists y. by rewrite upd_lookup, decide_True, Hx by done.
Qed.

(** Where a turn stands, and the user code it waits for. *)
Definition turn_handled (t : @Turn T E) : Z :=
  match t with Armed => 0 | Loop h => h | Running _ _ h => h end.
Definition turn_code (t : @Turn T E) : option UserCode :=
  match t with Running u _ _ => Some u | _ => None end.

(** [acts i t s s']: cell [i] takes the next step of its turn, which is at [t]. *)
Inductive acts (i : CellId) (t : @Turn T E) s s' : Prop :=
| acts_begins : t = Armed → cells s' = cells (upd i (set_turn 0 (Loop 0)) s) → acts i t s s'
| acts_settles o r : t ≠ Armed → touches i s r.1 → moves (turn_code t) i s r →
    cells s' = cells (settle i 0 o (turn_handled t) r) → acts i t s s'.

Lemma anatomy_throttleGate env now x : anatomy (throttleGate env now x).1 = anatomy x.
Proof.
  unfold throttleGate, handleThrottleExcess. destruct (throttleBucket x) as [b|]; [|done].
  destruct (undroppable env); [done|]. destruct (tryConsume 1 now b) as [[] b']; [done|]. simpl.
  destruct (throttleOnExcess x); [|done]. destruct (mb_prependUser [env] (mailbox x)) as [m [e|]]; [done|].
  by destruct (throttleResumeTimer x).
Qed.

Lemma acts_runUser i h now s x : ok x → cells s !! i = Some x → turns x = [Loop h] →
  acts i (Loop h) s (runUser systemName i 0 h now s).
Proof.
  intros Hok Hx Ht.
  assert (Hcur : currentEnvelope x = None) by (by apply (not_in_hand x (Loop h))).
  unfold runUser, reading. rewrite Hx. destruct (bool_decide (state x = running)) eqn:Er; simpl negb; cbv iota.
  2:{ apply (acts_settles _ _ _ _ FromUser (s, Threw)); [done| |by apply moves_refl|done].
      constructor; [intros j y _ Hy; by exists y|intros y Hy _; by exists y]. }
  apply bool_decide_eq_true in Er. pose proof (mb_dequeueUser_ok (mailbox x)) as Hd.
  assert (Hend : ∀ y, turns y = turns x → anatomy y = anatomy x → ∀ s', cells s' = cells (upd i (λ _, endTurn 0 y) s) →
    acts i (Loop h) s s').
  { intros y Hty Hay s' Hs'. apply (acts_settles _ _ _ _ FromUser (upd i (λ _, y) s, Threw)); [done| | |].
    - by apply (touches_set i x).
    - apply moves_still; [done|]. by apply (still_set i x).
    - rewrite Hs'. simpl. apply list_eq. intros j.
      rewrite !list_lookup_alter. destruct (decide _) as [e|]; [|done]. rewrite decide_True by done. by destruct (cells s !! i). }
  destruct (mb_dequeueUser (mailbox x)) as [[env|] m]; [|by apply (Hend (set_mailbox m x))].
  destruct Hd as (_ & Hu & [= H2 H3 _]).
  pose proof (throttleGate_spec env now (set_mailbox m x)) as Hg.
  pose proof (anatomy_throttleGate env now (set_mailbox m x)) as Hag.
  destruct (throttleGate env now (set_mailbox m x)) as [x2 [e|]]; simpl in Hag.
  - destruct Hg as (_ & _ & _ & Htu & _). apply (Hend x2); [done|done|]. by destruct e.
  - eapply (acts_settles _ _ _ _ FromUser); [done|eapply touches_handles, (handles_taken systemName i env m s x x2); done| |done].
    eapply moves_after; [|apply moves_userMessage]. by apply (still_set i x).
Qed.

Lemma acts_runLoop i h clock now s x : ok x → cells s !! i = Some x → turns x = [Loop h] →
  acts i (Loop h) s (runLoop systemName i 0 h clock now s).
Proof.
  intros Hok Hx Ht. unfold runLoop, reading. rewrite Hx. destruct (mb_hasSystemMessages (mailbox x)) eqn:Eh.
  2:{ by apply (acts_runUser i h now s x). }
  assert (Hcur : currentEnvelope x = None) by (by apply (not_in_hand x (Loop h))).
  rewrite mb_hasSystemMessages_ok in Eh. apply negb_true_iff, bool_decide_eq_false in Eh.
  destruct (mb_dequeueSystem_ok (mailbox x)) as [Hd _].
  pose proof (ok_commands _ Hok) as Hco. unfold commands_only in Hco.
  destruct (mb_systems (mailbox x)) as [|e l]; [done|]. apply Forall_cons in Hco as [[c Hc] _].
  destruct (mb_dequeueSystem (mailbox x)) as [next m] eqn:Em. simpl in Hd. subst next.
  destruct e as [k sd rp ud]. simpl in Hc. subst k.
  eapply (acts_settles _ _ _ _ FromSystem); [done|by eapply touches_handles, (handles_command systemName i clock s x)| |done].
  eapply moves_after; [|apply moves_systemCommand]. by apply still_upd.
Qed.

(** What the turns of a cell are known to be. *)
Record tame x : Prop := {
  tame_handled : ∀ t, t ∈ turns x → 0 <= turn_handled t;
  tame_stop : ∀ o h, Running CallPostStop o h ∈ turns x → state x = terminating;
  tame_stopped : throughput (fixed x) <= 1 → state x = terminated → turns x = [];
}.

Definition all_tame s : Prop := ∀ i x, cells s !! i = Some x → tame x.

(** Every event is calm, or the next step of one turn. *)
Lemma step_effect settings e s : fresh_event e → all_ok s → all_tame s →
  (calm s (step systemName settings e s) ∧ grows settings s (step systemName settings e s)) ∨
  ∃ i x t, cells s !! i = Some x ∧ turns x = [t] ∧ acts i t s (step systemName settings e s) ∧
    match e with
    | Step j n _ _ => j = i ∧ n = 0%nat ∧ turn_code t = None
    | Finish j n _ _ => j = i ∧ n = 0%nat ∧ is_Some (turn_code t)
    | _ => False
    end.
Proof.
  intros Hf Hs Htm. destruct e; simpl in *.
  - destruct (cells s !! i) as [x|] eqn:Hx; [|by left; split; [|left]]. simpl. destruct (turns x !! n) as [t|] eqn:Ht; [|by left; split; [|left]].
    destruct (only_turn x n t (Hs i x Hx) Ht) as (Hp & Htn & ->).
    destruct t as [|h|]; [| |by left; split; [|left]]; right; exists i, x; eexists; split_and!; try done.
    + by apply acts_begins.
    + by apply (acts_runLoop i h clock now s x); [apply (Hs i)| |].
  - destruct (cells s !! i) as [x|] eqn:Hx; [|by left; split; [|left]]. simpl. destruct (turns x !! n) as [t|] eqn:Ht; [|by left; split; [|left]].
    destruct (only_turn x n t (Hs i x Hx) Ht) as (Hp & Htn & ->).
    destruct t as [| |u o h]; [by left; split; [|left]..|]. destruct (continue_ _ _ _ _ _ _) as [r|] eqn:Er; [|by left; split; [|left]].
    right. exists i, x, (Running u o h). split_and!; try done.
    assert (Hcur : (∀ d, u ≠ CallReceive d) → currentEnvelope x = None).
    { intros Hu. apply (not_in_hand x (Running u o h)); [by apply (Hs i)|done|]. intros d o' h' [= ->]. by destruct (Hu d). }
    destruct (handles_continue settings i u outcome clock s r) as [Hh _]; [|done|].
    { intros x' Hx'. by simplify_eq. }
    apply (acts_settles _ _ _ _ o r); [done|by eapply touches_handles| |done].
    eapply moves_continue; [|done]. intros -> y Hy. simplify_eq. apply (tame_stop _ (Htm i _ Hx) o h).
    rewrite Htn. by left.
  - left. split; [by apply calm_context|apply grows_context].
  - left. split; [apply calm_upd_err; intros x; apply quiet_signal|left; apply still_upd_err; intros x; apply anatomy_signal].
  - left. split; [apply calm_upd; intros x _; apply quiet_enqueueSystem|left; apply still_enqueueSystem].
  - left. split; [apply calm_addWatcherTo|left; apply still_addWatcherTo].
  - left. split; [by apply calm_upd_aside|left; by apply still_upd].
  - left. split; [apply calm_upd; intros x _; apply quiet_receiveTimeoutFires|left; apply still_upd, anatomy_timeout].
  - left. split; [apply calm_upd; intros x _; apply quiet_throttleResume|left; apply still_upd, anatomy_throttleResume].
Qed.

(** ** Turns in every reachable state *)

Lemma tame_quiet x y : tame x → quiet x y → tame y.
Proof.
  intros [H1 H2 H3] [F S Tn _ _ _ _ _]. constructor.
  - intros t Ht. destruct Tn as [[_ Tn]|(_ & _ & _ & Tn)]; rewrite Tn in Ht; [by apply H1|].
    apply elem_of_app in Ht as [Ht| ->%list_elem_of_singleton]; [by apply H1|done].
  - intros o h Ht. rewrite S. apply (H2 o h). destruct Tn as [[_ Tn]|(_ & _ & _ & Tn)]; rewrite Tn in Ht; [done|].
    apply elem_of_app in Ht as [Ht|Ht%list_elem_of_singleton]; done.
  - rewrite F, S. intros Hl Ht. destruct Tn as [[_ ->]|(Hn & _)]; [by apply H3|done].
Qed.

Lemma tame_construct settings bp p name u : tame (construct settings bp p name u).
Proof.
  unfold construct. eapply tame_quiet; [|apply quiet_enqueueSystem].
  constructor; simpl; [intros t Ht|intros o h Ht|done]; by apply not_elem_of_nil in Ht.
Qed.

Lemma spawns_new settings i bp name s s' j y : spawns settings i bp name s s' → cells s' !! j = Some y → cells s !! j = None →
  ∃ x, cells s !! i = Some x ∧ j = length (cells s) ∧
    y = construct settings bp (Some (i, set_childUidCounter (childUidCounter x + 1) x)) name (childUidCounter x + 1).
Proof.
  intros (x & Hx & _ & _ & _ & Hs) Hy Hn. exists x. apply lookup_ge_None_1 in Hn. cbv zeta in Hs.
  destruct Hs as [Hs|[_ Hs]]; rewrite Hs in Hy.
  - apply lookup_lt_Some in Hy. rewrite length_insert in Hy. lia.
  - rewrite lookup_app_r in Hy by (by rewrite length_insert).
    apply list_lookup_singleton_Some in Hy as [Hj <-]. rewrite length_insert in Hj. split_and!; [done|lia|done].
Qed.

Lemma tame_calm settings s s' : all_tame s → calm s s' → grows settings s s' → all_tame s'.
Proof.
  intros Hs [H _] Hg j y Hy. destruct (cells s !! j) as [x|] eqn:Hx.
  { destruct (H j x Hx) as (y' & Hy' & Hq). simplify_eq. apply (tame_quiet x); [by apply (Hs j)|done]. }
  apply lookup_ge_None_1 in Hx. destruct Hg as [Hst|(s1 & i & bp & name & Hst & Hsp)]; apply still_length in Hst.
  - apply lookup_lt_Some in Hy. lia.
  - destruct (spawns_new _ _ _ _ _ _ _ _ Hsp Hy) as (x & _ & _ & ->); [apply lookup_ge_None_2; lia|apply tame_construct].
Qed.

(** The step of a turn, for its own cell: where it goes on. *)
Lemma acts_self i t s s' x : cells s !! i = Some x → turns x = [t] → processing x = true → tame x → acts i t s s' →
  ∃ y, cells s' !! i = Some y ∧ fixed y = fixed x ∧ edge (turn_code t) (state x) (state y) = true ∧
    childUidCounter y = childUidCounter x ∧ children y `sublist_of` children x ∧ tame y.
Proof.
  intros Hx Ht Hp [T1 T2 T3] [-> Hs'|o r Hn Hto Hm Hs'].
  - exists (set_turn 0 (Loop 0) x). rewrite Hs', upd_lookup, decide_True, Hx by done. split; [done|].
    unfold set_turn. rewrite Ht. simpl. split_and!; try done; [apply edge_refl|].
    constructor; simpl.
    + intros t ->%list_elem_of_singleton. done.
    + intros o h Hw%list_elem_of_singleton. done.
    + intros Hl Hst. specialize (T3 Hl Hst). congruence.
  - destruct (touches_self _ _ _ Hto x Hx Hp) as (y & Hy & Hty).
    destruct (shifts_self _ _ _ _ Hm x Hx) as (y' & Hy' & Fy & Uy & Cy & [Ey Sy Dy]). simplify_eq.
    assert (Hh : 0 <= turn_handled t) by (apply T1; rewrite Ht; by left).
    assert (Hlive : throughput (fixed y) <= 1 → state x ≠ terminated).
    { rewrite Fy. intros Hl Hst. specialize (T3 Hl Hst). congruence. }
    assert (Hgo : ∃ z, cells s' !! i = Some z ∧ anatomy z = anatomy y ∧ tame z).
    { rewrite Ht in Hty. clear Hm Hto T1 T2 T3 Hx Hp Ht. destruct r as [s1 flow]. rewrite Hs'. unfold settle. cbn [fst snd] in *.
      assert (Hend : anatomy (endTurn 0 y) = anatomy y ∧ tame (endTurn 0 y)).
      { split; [apply anatomy_endTurn|]. unfold endTurn. rewrite Hty. cbn [delete list_delete].
        set (z := set_processing false (set_turns [] y)).
        assert (Hz : tame z) by (constructor; simpl; [intros ? []%not_elem_of_nil|intros ?? []%not_elem_of_nil|done]).
        destruct (_ && _); [|done]. apply (tame_quiet z); [done|].
        apply quiet_schedule; try done; [apply conserves_refl|by right]. }
      assert (Hset : ∀ u, 0 <= turn_handled u → (∀ o h, u = Running CallPostStop o h → state y = terminating) →
        (throughput (fixed y) <= 1 → state y ≠ terminated) → anatomy (set_turn 0 u y) = anatomy y ∧ tame (set_turn 0 u y)).
      { intros u H1 H2 H3. split; [done|]. unfold set_turn. rewrite Hty. simpl. constructor; simpl.
        - intros ? ->%list_elem_of_singleton. done.
        - intros o' h' Hw%list_elem_of_singleton. by eapply H2.
        - intros Hl Hst. by destruct (H3 Hl). }
      destruct flow as [|u|]; rewrite upd_lookup, decide_True by done; cbn [cells publish]; rewrite Hy; simpl; eexists; (split; [done|]); try done.
      - destruct o.
        + destruct (bool_decide_reflect (state y = terminated)); [done|]. by apply Hset.
        + destruct (Z.ltb_spec (turn_handled t + 1) (throughput (fixed y))) as [Hl|]; [|done].
          apply Hset; [simpl; lia|done|lia].
      - apply Hset; [done| |].
        + intros o' h' [= ->]. by apply Sy.
        + intros Hl Hst. specialize (Dy (Hlive Hl) Hst). done. }
    destruct Hgo as (z & Hz & [= F S C U] & Htz). exists z. rewrite S, C. split_and!; try done; congruence.
Qed.

Lemma settle_lookup i n o h r j : j ≠ i → cells (settle i n o h r) !! j = cells r.1 !! j.
Proof.
  intros Hj. destruct r as [s []]; unfold settle; rewrite upd_lookup, decide_False by done; by rewrite option_fmap_id.
Qed.

Lemma settle_length i n o h r : length (cells (settle i n o h r)) = length (cells r.1).
Proof. destruct r as [s []]; unfold settle, upd; simpl; by rewrite length_alter. Qed.

(** For the other cells: quiet, and not a bone moved. *)
Lemma acts_others i t s s' j x : j ≠ i → cells s !! j = Some x → acts i t s s' →
  ∃ y, cells s' !! j = Some y ∧ quiet x y ∧ anatomy y = anatomy x.
Proof.
  intros Hj Hx [-> Hs'|o r Hn Hto Hm Hs']; rewrite Hs'.
  - exists x. rewrite upd_lookup, decide_False, Hx by done. split_and!; [done|reflexivity|done].
  - rewrite settle_lookup by done. destruct (touches_others _ _ _ Hto j x Hj Hx) as (y & Hy & Hq).
    destruct (shifts_others _ _ _ _ Hm j x Hj Hx) as (y' & Hy' & Ha). simplify_eq. eexists; split_and!; [done|exact Hq|unfold anatomy; congruence].
Qed.

Lemma acts_length i t s s' : acts i t s s' → length (cells s') = length (cells s).
Proof.
  intros [-> Hs'|o r Hn Hto Hm Hs']; rewrite Hs'; [unfold upd; simpl; by rewrite length_alter|].
  rewrite settle_length. apply (shifts_length _ _ _ _ Hm).
Qed.

Lemma step_tame settings e s : fresh_event e → all_ok s → all_tame s → all_tame (step systemName settings e s).
Proof.
  intros Hf Hs Ht. destruct (step_effect settings e s Hf Hs Ht) as [[Hc Hg]|(i & x & t & Hx & Htn & Ha & _)].
  { by apply (tame_calm settings s). }
  intros j y Hy. destruct (decide (j = i)) as [->|Hj].
  - destruct (only_turn x 0 t (Hs i x Hx)) as (Hp & _ & _); [by rewrite Htn|].
    destruct (acts_self i t _ _ x Hx Htn Hp (Ht i x Hx) Ha) as (y' & Hy' & _ & _ & _ & _ & Htame). by simplify_eq.
  - destruct (cells s !! j) as [z|] eqn:Hz.
    + destruct (acts_others i t _ _ j z Hj Hz Ha) as (y' & Hy' & Hq & _). simplify_eq.
      apply (tame_quiet z); [by apply (Ht j)|done].
    + apply lookup_lt_Some in Hy. apply lookup_ge_None_1 in Hz. rewrite (acts_length _ _ _ _ Ha) in Hy. lia.
Qed.

Lemma initial_tame settings : all_tame (initial settings).
Proof.
  assert (Hf : fresh_blueprint (E := E) (M := M) guardianBlueprint) by (intros m; done).
  unfold initial.
  set (s0 := mkSystem [construct settings guardianBlueprint None "" 0] [] []).
  set (s1 := (createChild settings 0%nat guardianBlueprint USER_GUARDIAN_NAME true s0).1).
  set (s2 := (createChild settings 0%nat guardianBlueprint "system" true s1).1).
  assert (H0 : all_tame s0).
  { intros i x Hx. simpl in Hx. apply list_lookup_singleton_Some in Hx as [_ <-]. apply tame_construct. }
  assert (H1 : all_tame s1) by (apply (tame_calm settings s0); [done|by apply calm_createChild|apply grows_createChild]).
  assert (H2 : all_tame s2) by (apply (tame_calm settings s1); [done|by apply calm_createChild|apply grows_createChild]).
  apply (tame_calm settings s2); [done|by apply calm_upd_aside|left; by apply still_upd].
Qed.

Lemma reachable_tame settings s : reachable systemName settings s → all_tame s.
Proof.
  induction 1 as [|e s Hr IH Hf]; [apply initial_tame|]. apply step_tame; [done| |done].
  by eapply reachable_cells_ok.
Qed.

(** ** Actors form a tree *)

(** [i] is a child of [p] under [name]; [latest] is the last uid [p] gave. *)
Record child_of s (p : CellId) (latest : Z) (name : string) (i : CellId) : Prop := {
  child_younger : (p < i)%nat;
  child_valid : validName name = true;
  child_cell : ∃ px x, cells s !! p = Some px ∧ cells s !! i = Some x ∧ parent (fixed x) = Some p ∧
    elements (path (fixed x)) = elements (path (fixed px)) ++ [name] ∧ 0 < uid (path (fixed x)) <= latest;
}.

Record tree s : Prop := {
  tree_children : ∀ p px name i, cells s !! p = Some px → (name, i) ∈ children px →
    child_of s p (childUidCounter px) name i;
  tree_names : ∀ p px, cells s !! p = Some px → NoDup (children px).*1;
  tree_parent : ∀ i x, cells s !! i = Some x →
    match parent (fixed x) with
    | None => i = 0%nat
    | Some p => ∃ px name, cells s !! p = Some px ∧ child_of s p (childUidCounter px) name i
    end;
  tree_counters : ∀ p px, cells s !! p = Some px → 0 <= childUidCounter px;
  tree_uids : ∀ i j x y, cells s !! i = Some x → cells s !! j = Some y →
    parent (fixed x) = parent (fixed y) → uid (path (fixed x)) = uid (path (fixed y)) → i = j;
}.

Lemma child_of_mono s s' p l l' name i :
  (∀ j x, cells s !! j = Some x → ∃ y, cells s' !! j = Some y ∧ fixed y = fixed x) → l <= l' →
  child_of s p l name i → child_of s' p l' name i.
Proof.
  intros Hs Hl [Hlt Hv (px & x & Hpx & Hx & Hp & He & Hu)]. constructor; [done|done|].
  destruct (Hs p px Hpx) as (py & Hpy & Fp). destruct (Hs i x Hx) as (y & Hy & F).
  exists py, y. rewrite F, Fp. split_and!; try done; lia.
Qed.

(** Nothing but children that go. *)
Record shrinks s s' : Prop := {
  shrinks_length : length (cells s') = length (cells s);
  shrinks_cells : ∀ j x, cells s !! j = Some x → ∃ y, cells s' !! j = Some y ∧ fixed y = fixed x ∧
    childUidCounter y = childUidCounter x ∧ children y `sublist_of` children x;
}.

Lemma shrinks_still s s' : still s s' → shrinks s s'.
Proof.
  intros H. constructor; [by apply still_length|]. intros j x Hx.
  destruct (still_lookup _ _ _ _ H Hx) as (y & Hy & [= F S C U]). exists y. by rewrite C.
Qed.

Lemma shrinks_acts i t s s' : all_ok s → all_tame s → (∀ x, cells s !! i = Some x → turns x = [t]) →
  is_Some (cells s !! i) → acts i t s s' → shrinks s s'.
Proof.
  intros Hs Htm Htn [x Hx] Ha. constructor; [by eapply acts_length|]. intros j z Hz.
  destruct (decide (j = i)) as [->|Hj].
  - destruct (only_turn z 0 t (Hs i z Hz)) as (Hp & _ & _); [by rewrite (Htn z Hz)|].
    destruct (acts_self i t _ _ z Hz (Htn z Hz) Hp (Htm i z Hz) Ha) as (y & Hy & F & _ & U & C & _). by exists y.
  - destruct (acts_others i t _ _ j z Hj Hz Ha) as (y & Hy & _ & [= F S C U]). exists y. by rewrite C.
Qed.

(** What a cell may become, and what a new one must be. *)
Definition grown s' (j : CellId) x y : Prop :=
  fixed y = fixed x ∧ childUidCounter x <= childUidCounter y ∧ NoDup (children y).*1 ∧
  ∀ name c, (name, c) ∈ children y → (name, c) ∈ children x ∨ child_of s' j (childUidCounter y) name c.

Definition newborn s' (j : CellId) y : Prop :=
  children y = [] ∧ childUidCounter y = 0 ∧ ∃ p py name, parent (fixed y) = Some p ∧ cells s' !! p = Some py ∧
  child_of s' p (childUidCounter py) name j ∧
  ∀ i z, cells s' !! i = Some z → i ≠ j → parent (fixed z) = Some p → uid (path (fixed z)) ≠ uid (path (fixed y)).

Lemma tree_extend s s' : tree s →
  (∀ j x, cells s !! j = Some x → ∃ y, cells s' !! j = Some y ∧ grown s' j x y) →
  (∀ j y, cells s' !! j = Some y → cells s !! j = None → newborn s' j y) → tree s'.
Proof.
  intros [Tc Tn Tp Tz Tu] Ho Hn.
  assert (Hm : ∀ j x, cells s !! j = Some x → ∃ y, cells s' !! j = Some y ∧ fixed y = fixed x).
  { intros j x Hx. destruct (Ho j x Hx) as (y & ? & ? & _). eauto. }
  assert (Hb : ∀ j y, cells s' !! j = Some y → (∃ x, cells s !! j = Some x ∧ grown s' j x y) ∨ newborn s' j y).
  { intros j y Hy. destruct (cells s !! j) as [x|] eqn:Hx; [left|right; by apply Hn].
    destruct (Ho j x Hx) as (y' & Hy' & Hg). simplify_eq. by exists x. }
  constructor.
  - intros p py name i Hpy Hin. destruct (Hb p py Hpy) as [(px & Hpx & F & U & _ & C)|[Hnil _]].
    + destruct (C name i Hin) as [Hin'|]; [|done].
      apply (child_of_mono s s' p (childUidCounter px)); [done|done|]. by apply (Tc p px).
    + rewrite Hnil in Hin. by apply not_elem_of_nil in Hin.
  - intros p py Hpy. destruct (Hb p py Hpy) as [(px & Hpx & F & U & Hd & C)|[Hnil _]]; [done|].
    rewrite Hnil. constructor.
  - intros i y Hy. destruct (Hb i y Hy) as [(x & Hx & F & _)|(_ & _ & p & py & name & -> & Hpy & Hch & _)]; [|eauto].
    specialize (Tp i x Hx). rewrite F. destruct (parent (fixed x)) as [p|]; [|done].
    destruct Tp as (px & name & Hpx & Hch). destruct (Ho p px Hpx) as (py & Hpy & _ & U & _).
    exists py, name. split; [done|]. by apply (child_of_mono s s' p (childUidCounter px)).
  - intros p py Hpy. destruct (Hb p py Hpy) as [(px & Hpx & F & U & _)|(_ & -> & _)]; [|done].
    specialize (Tz p px Hpx). lia.
  - intros i j y z Hy Hz Hp Hu. destruct (decide (i = j)) as [|Hij]; [done|]. exfalso.
    destruct (Hb i y Hy) as [(y' & Hy' & Fy & _)|(_ & _ & p & py & name & Hpp & _ & _ & Hne)].
    2:{ apply (Hne j z); [done|done|congruence|done]. }
    destruct (Hb j z Hz) as [(z' & Hz' & Fz & _)|(_ & _ & p & py & name & Hpp & _ & _ & Hne)].
    2:{ apply (Hne i y); [done|done|congruence|done]. }
    rewrite Fy, Fz in *. by apply Hij, (Tu i j y' z').
Qed.

Lemma tree_shrinks s s' : tree s → shrinks s s' → tree s'.
Proof.
  intros Ht [L H]. apply (tree_extend s); [done| |].
  - intros j x Hx. destruct (H j x Hx) as (y & Hy & F & U & C). exists y. split; [done|]. split; [done|].
    rewrite U. split_and!; [done| |].
    + eapply sublist_NoDup; [by apply (tree_names _ Ht j x)|by apply fmap_sublist].
    + intros name c Hin. left. by eapply elem_of_submseteq; [exact Hin|apply sublist_submseteq].
  - intros j y Hy Hx. apply lookup_ge_None_1 in Hx. apply lookup_lt_Some in Hy. lia.
Qed.

Lemma construct_anatomy settings bp p px name u :
  parent (fixed (construct settings bp (Some (p, px)) name u)) = Some p ∧
  path (fixed (construct settings bp (Some (p, px)) name u)) = mkPath (elements (path (fixed px)) ++ [name]) u ∧
  children (construct settings bp (Some (p, px)) name u) = [] ∧
  childUidCounter (construct settings bp (Some (p, px)) name u) = 0.
Proof.
  unfold construct, enqueueSystem. cbv zeta.
  match goal with |- parent (fixed (schedule ?z)) = _ ∧ _ =>
    pose proof (anatomy_schedule z) as H; revert H; generalize (schedule z) end.
  intros y H. unfold anatomy in H. simpl in H. injection H as F S C U. by rewrite F, C, U.
Qed.

Lemma entry_get_None {V} (l : list (string * V)) k : entry_get l k = None → k ∉ l.*1.
Proof.
  unfold entry_get. intros H Hin. apply fmap_None in H. apply list_elem_of_fmap in Hin as ([k' v] & -> & Hin).
  eapply find_none in H; [|by apply list_elem_of_In]. simpl in H. by apply bool_decide_eq_false in H.
Qed.

(** A new child, or an invalid name. *)
Lemma tree_spawns settings i bp name s s' : tree s → spawns settings i bp name s s' → tree s'.
Proof.
  intros Htr (x & Hx & Hfree & _ & _ & Hs). cbv zeta in Hs. pose proof (lookup_lt_Some _ _ _ Hx) as Hi.
  set (u := childUidCounter x + 1) in *. pose proof (tree_counters _ Htr i x Hx) as Hu.
  set (x1 := set_childUidCounter u x) in *.
  assert (Hgrown : ∀ x' j y, fixed x' = fixed x → childUidCounter x' = u → <[i := x']> (cells s) !! j = Some y →
    grown s' i x x' → ∀ z, cells s !! j = Some z → grown s' j z y).
  { intros x' j y F U Hy Hg z Hz. rewrite list_lookup_insert in Hy. destruct (decide (i = j ∧ _)) as [[<- _]|Hj].
    - by simplify_eq.
    - simplify_eq. split; [done|]. split; [lia|]. split; [by apply (tree_names _ Htr j)|]. by left. }
  destruct Hs as [Hs|[Hv Hs]].
  - apply (tree_extend s); [done| |].
    + intros j z Hz. rewrite Hs. destruct (lookup_lt_is_Some_2 (<[i := x1]> (cells s)) j) as [y Hy];
        [rewrite length_insert; by eapply lookup_lt_Some|].
      exists y. split; [done|]. apply (Hgrown x1 j y); try done. split; [done|]. split; [simpl; lia|].
      split; [by apply (tree_names _ Htr i x)|]. by left.
    + intros j y Hy Hn. apply lookup_ge_None_1 in Hn. apply lookup_lt_Some in Hy.
      rewrite Hs, length_insert in Hy. lia.
  - set (x' := set_children (children x ++ [(name, length (cells s))]) x1) in *.
    set (k := construct settings bp (Some (i, x1)) name u) in *.
    destruct (construct_anatomy settings bp i x1 name u) as (Kp & Ka & Kc & Ku). fold k in Kp, Ka, Kc, Ku.
    assert (Hi' : cells s' !! i = Some x').
    { rewrite Hs, lookup_app_l, list_lookup_insert by (by rewrite length_insert). by rewrite decide_True. }
    assert (Hk : cells s' !! length (cells s) = Some k).
    { rewrite Hs, lookup_app_r by (by rewrite length_insert). by rewrite length_insert, Nat.sub_diag. }
    assert (Hch : child_of s' i u name (length (cells s))).
    { constructor; [done|done|]. exists x', k. split_and!; try done; rewrite Ka; simpl; [done|lia|lia]. }
    apply (tree_extend s); [done| |].
    + intros j z Hz. rewrite Hs. destruct (lookup_lt_is_Some_2 (<[i := x']> (cells s)) j) as [y Hy];
        [rewrite length_insert; by eapply lookup_lt_Some|].
      exists y. split; [by apply lookup_app_l_Some|]. apply (Hgrown x' j y); try done.
      split; [done|]. split; [simpl; lia|]. split.
      * simpl. rewrite fmap_app. apply NoDup_app. split_and!; [by apply (tree_names _ Htr i x)| |apply NoDup_singleton].
        intros n Hn ->%list_elem_of_singleton. by apply (entry_get_None _ _ Hfree).
      * intros n c [Hin|Hin%list_elem_of_singleton]%elem_of_app; [by left|]. right. by simplify_eq.
    + intros j y Hy Hn. apply lookup_ge_None_1 in Hn. assert (j = length (cells s)) as ->.
      { apply lookup_lt_Some in Hy. rewrite Hs, length_app, length_insert in Hy. simpl in Hy. lia. }
      rewrite Hk in Hy. injection Hy as <-. split_and!; [done|done|]. exists i, x', name. split_and!; [done|done|done|].
      intros j z Hz Hj Hp. rewrite Ka. simpl. intros Hzu.
      assert (Hold : ∃ z0, cells s !! j = Some z0 ∧ fixed z = fixed z0).
      { rewrite Hs in Hz. apply lookup_app_Some in Hz as [Hz|[Hge Hz]].
        - rewrite list_lookup_insert in Hz. destruct (decide (i = j ∧ _)) as [[<- _]|_]; [|eauto].
          simplify_eq. exists x. done.
        - rewrite length_insert in *. apply list_lookup_singleton_Some in Hz as [Hz _]. lia. }
      destruct Hold as (z0 & Hz0 & F). pose proof (tree_parent _ Htr j z0 Hz0) as Hpar.
      rewrite F in Hp, Hzu. rewrite Hp in Hpar. destruct Hpar as (px & nm & Hpx & [_ _ (px' & z1 & _ & Hz1 & _ & _ & Hle)]).
      simplify_eq. lia.
Qed.

Lemma tree_grows settings s s' : tree s → grows settings s s' → tree s'.
Proof.
  intros Ht [H|(s1 & i & bp & name & H & Hsp)]; [by apply (tree_shrinks s), shrinks_still|].
  apply (tree_spawns settings i bp name s1); [|done]. by apply (tree_shrinks s), shrinks_still.
Qed.

Lemma step_tree settings e s : fresh_event e → all_ok s → all_tame s → tree s → tree (step systemName settings e s).
Proof.
  intros Hf Hs Htm Ht. destruct (step_effect settings e s Hf Hs Htm) as [[_ Hg]|(i & x & t & Hx & Htn & Ha & _)].
  - by apply (tree_grows settings s).
  - apply (tree_shrinks s); [done|]. apply (shrinks_acts i t); [done|done| |by exists x|done].
    intros y Hy. by simplify_eq.
Qed.

Lemma tree_root settings bp : tree (mkSystem [construct settings bp None "" 0] [] []).
Proof.
  set (r := construct settings bp None "" 0).
  assert (Hr : children r = [] ∧ childUidCounter r = 0 ∧ parent (fixed r) = None).
  { unfold r, construct, enqueueSystem. cbv zeta.
    match goal with |- children (schedule ?z) = _ ∧ _ =>
      pose proof (anatomy_schedule z) as H; revert H; generalize (schedule z) end.
    intros y H. unfold anatomy in H. simpl in H. injection H as F S C U. by rewrite F, C, U. }
  destruct Hr as (Hc & Hu & Hp).
  assert (H1 : ∀ i x, [r] !! i = Some x → i = 0%nat ∧ x = r) by (by intros i x [-> <-]%list_lookup_singleton_Some).
  constructor; simpl.
  - intros p px name i [-> ->]%H1 Hin. rewrite Hc in Hin. by apply not_elem_of_nil in Hin.
  - intros p px [-> ->]%H1. rewrite Hc. constructor.
  - intros i x [-> ->]%H1. by rewrite Hp.
  - intros p px [-> ->]%H1. by rewrite Hu.
  - by intros i j x y [-> ->]%H1 [-> ->]%H1.
Qed.

Lemma reachable_tree settings s : reachable systemName settings s → tree s.
Proof.
  induction 1 as [|e s Hr IH Hf].
  - unfold initial. cbv zeta. eapply (tree_grows settings); [|left; by apply still_upd].
    eapply tree_grows; [|apply grows_createChild]. eapply tree_grows; [|apply grows_createChild]. apply tree_root.
  - apply step_tree; [done|by eapply reachable_cells_ok|by eapply reachable_tame|done].
Qed.

End lifecycle.
