(* ===== verification/ActorCellTheorems.v ===== *)
(** * What an actor system promises

    The properties of [ActorCell] in every reachable system, over any mailbox
    that keeps [CellMailboxLaws], then the same on concrete runs with the
    mailboxes of the repository, and the runs where the cell departs from its
    documentation.  [AnyMailbox_laws] says which mailboxes keep the laws: all
    four classes, but for a priority mailbox that rejects over a capacity. *)

From Stdlib Require Import QArith.
From S2P Require Import Prelude Mailbox ActorMailbox ActorMailboxes Supervision Float TokenBucket ActorCell.
From S2P Require Import ActorCellInvariants ActorCellLifecycle.

Local Open Scope Z_scope.

Section theorems.
Context {T E M : Type} `{EqDecision T, EqDecision E} `{!CellMailbox (Message_ T E) M, !CellMailboxLaws (Message_ T E) M}.
Context (systemName : string).

Abbreviation Message := (Message_ T E).
Abbreviation Env := (Envelope Message).
Abbreviation Cell := (@Cell T E M).
Abbreviation ActorSystem := (@ActorSystem T E M).
Abbreviation Event := (@Event T E M).
Implicit Types (x y z : Cell) (s : ActorSystem) (settings : @Settings).

(** ** Messages and turns *)

(** C1. No message is lost or handled twice, over mailboxes that refuse a replay
    as a whole or not at all ([CellMailboxLaws]; the plain, the bounded and the
    control-aware mailbox do, and the priority mailbox unless it rejects over a
    capacity, [AnyMailbox_laws]): what a cell was ever handed is queued,
    stashed, being handled, handled, dead-lettered, discarded by its throttle
    or reported as dropped by its mailbox, each message in one of these
    places; and a stopped cell has nothing queued, stashed or in hand. *)
Theorem messages_accounted_for settings s i x : reachable systemName settings s → cells s !! i = Some x →
  accepted (ledger x) ≡ₚ
    (entry <$> mb_users (mailbox x)) ++ (entry <$> stashBuffer x) ++
    match currentEnvelope x with Some env => [entry env] | None => [] end ++
    completed (ledger x) ++ deadLetters (ledger x) ++ discarded (ledger x) ++ dropped (ledger x) ∧
  (state x = terminated →
   accepted (ledger x) ≡ₚ completed (ledger x) ++ deadLetters (ledger x) ++ discarded (ledger x) ++ dropped (ledger x)).
Proof.
  intros Hr Hx. destruct (reachable_cells_ok systemName settings s Hr i x Hx) as [_ Hb _ Hd _]. split; [exact Hb|].
  intros Ht. destruct (Hd Ht) as (Hu & Hs & Hc). unfold balanced, held, current in Hb. by rewrite Hu, Hs, Hc in Hb.
Qed.

(** C8. Never two turns of one cell at a time, and no lost wake-up: a live cell
    with a command waiting, or a running one with a message it may read, has
    its turn. *)
Theorem one_turn_and_awake settings s i x : reachable systemName settings s → cells s !! i = Some x →
  (length (turns x) <= 1)%nat ∧ (processing x = true ↔ ∃ t, turns x = [t]) ∧
  (state x ≠ terminated →
   mb_systems (mailbox x) ≠ [] ∨
   (state x = running ∧ mb_suspended (mailbox x) = false ∧ throttleResumeTimer x = false ∧ mb_users (mailbox x) ≠ []) →
   ∃ t, turns x = [t]).
Proof.
  intros Hr Hx. destruct (reachable_cells_ok systemName settings s Hr i x Hx) as [[Hl Ha] _ _ _ _].
  assert (Ht : processing x = true ↔ ∃ t, turns x = [t]).
  { destruct (processing x); split; try done.
    - intros _. destruct (turns x) as [|t [|? ?]]; simpl in Hl; [lia|by exists t|lia].
    - intros [t Ht]. by rewrite Ht in Hl. }
  split_and!; [rewrite Hl; destruct (processing x); lia|done|].
  intros Hs Hw. apply Ht, Ha. split; [done|]. destruct Hw as [?|(? & ? & ? & ?)]; [by left|by right].
Qed.

(** C29. A waiting command is handled next: a turn that is not waiting for user code
    gets to it within two steps, whatever else is in the mailbox. *)
Theorem commands_first settings s i x env rest clock now : reachable systemName settings s → cells s !! i = Some x →
  mb_systems (mailbox x) = env :: rest → turns x = [Armed] ∨ (∃ h, turns x = [Loop h]) →
  ∃ c h s1 x1, message env = Command c ∧
    (s1 = s ∨ s1 = step systemName settings (Step i 0 clock now) s) ∧
    cells s1 !! i = Some x1 ∧ turns x1 = [Loop h] ∧
    mb_systems (mailbox (set_mailbox (mb_dequeueSystem (mailbox x1)).2 x1)) = rest ∧
    step systemName settings (Step i 0 clock now) s1 =
      settle i 0 FromSystem h
        (handleSystemCommand systemName i c clock (upd i (set_mailbox (mb_dequeueSystem (mailbox x1)).2) s1)).
Proof.
  intros Hr Hx Hsys Ht. pose proof (reachable_cells_ok systemName settings s Hr i x Hx) as Hok.
  pose proof (ok_commands _ Hok) as Hco. unfold commands_only in Hco. rewrite Hsys in Hco.
  apply Forall_cons in Hco as [[c Hc] _].
  assert (Hgo : ∀ s1 x1 h, cells s1 !! i = Some x1 → turns x1 = [Loop h] → mailbox x1 = mailbox x →
    mb_systems (mb_dequeueSystem (mailbox x1)).2 = rest ∧
    step systemName settings (Step i 0 clock now) s1 =
      settle i 0 FromSystem h
        (handleSystemCommand systemName i c clock (upd i (set_mailbox (mb_dequeueSystem (mailbox x1)).2) s1))).
  { intros s1 x1 h Hx1 Ht1 Hm. rewrite Hm. destruct (dequeueSystem_fields (mailbox x)) as (_ & -> & _).
    split; [by rewrite Hsys|]. simpl. rewrite Hx1. simpl. rewrite Ht1. simpl.
    unfold runLoop, reading. rewrite Hx1, Hm, mb_hasSystemMessages_ok, bool_decide_false by (by rewrite Hsys). simpl.
    destruct (mb_dequeueSystem_ok (mailbox x)) as [Hd _]. rewrite Hsys in Hd.
    destruct (mb_dequeueSystem (mailbox x)) as [next m]. simpl in *. subst next.
    destruct env as [k sd rp ud]. simpl in Hc. by subst k. }
  destruct Ht as [Ht|[h Ht]].
  - set (s1 := step systemName settings (Step i 0 clock now) s).
    assert (Hs1 : s1 = upd i (set_turn 0 (Loop 0)) s) by (unfold s1; simpl; rewrite Hx; simpl; by rewrite Ht).
    exists c, 0, s1, (set_turn 0 (Loop 0) x).
    assert (H1 : cells s1 !! i = Some (set_turn 0 (Loop 0) x)).
    { rewrite Hs1, upd_lookup, decide_True, Hx by done. done. }
    assert (H2 : turns (set_turn 0 (Loop 0) x) = [Loop 0]) by (unfold set_turn; simpl; by rewrite Ht).
    destruct (Hgo s1 _ 0 H1 H2 eq_refl) as [H3 H4]. split_and!; try done. by right.
  - destruct (Hgo s x h Hx Ht eq_refl) as [H3 H4]. exists c, h, s, x. split_and!; try done. by left.
Qed.

(** ** The life cycle *)

(** The user code whose end [e] reports to cell [i]. *)
Definition ended_code (e : Event) (i : CellId) x : option UserCode :=
  match e with
  | Finish j n _ _ => if bool_decide (j = i) then turns x !! n ≫= turn_code else None
  | _ => None
  end.

(** The cell whose turn [e] steps. *)
Definition acting (e : Event) : option CellId :=
  match e with Step i _ _ _ | Finish i _ _ _ => Some i | _ => None end.

(** C16. A cell changes its state only in its own turn, along the edges of the life
    cycle: it stops through [terminating] and [postStop], and it becomes
    running only when its factory, a restart's [postRestart] or a [resume] says
    so.  Its identity never changes. *)
Theorem lifecycle settings s e i x : reachable systemName settings s → fresh_event e → cells s !! i = Some x →
  ∃ y, cells (step systemName settings e s) !! i = Some y ∧ fixed y = fixed x ∧
    edge (ended_code e i x) (state x) (state y) = true ∧
    (state y = state x ∨ acting e = Some i).
Proof.
  intros Hr Hf Hx. pose proof (reachable_cells_ok systemName settings s Hr) as Hok.
  pose proof (reachable_tame systemName settings s Hr) as Htm.
  destruct (step_effect systemName settings e s Hf Hok Htm) as [[[Hc _] _]|(j & z & t & Hz & Htn & Ha & He)].
  - destruct (Hc i x Hx) as (y & Hy & [F S _ _ _ _ _ _]). exists y. rewrite S. split_and!; try done; [|by left].
    apply edge_refl.
  - destruct (decide (i = j)) as [->|Hj].
    + simplify_eq. destruct (only_turn x 0 t (Hok j x Hx)) as (Hp & _ & _); [by rewrite Htn|].
      destruct (acts_self j t _ _ x Hx Htn Hp (Htm j x Hx) Ha) as (y & Hy & F & Ed & _).
      exists y. split_and!; [done|done| |].
      * replace (ended_code e j x) with (turn_code t); [done|]. destruct e; try done; simpl.
        -- by destruct He as (_ & _ & ->).
        -- destruct He as (-> & -> & _). by rewrite bool_decide_true, Htn by done.
      * right. by destruct e; try done; destruct He as (-> & _).
    + destruct (acts_others j t _ _ i x Hj Hx Ha) as (y & Hy & _ & [= F S C U]).
      exists y. rewrite S. split_and!; try done; [apply edge_refl|by left].
Qed.

(** A cell that has stopped and has no turn stays so, whatever happens
    afterwards: without a turn no code of it runs again.  With a throughput of
    one a stopped cell never has a turn. *)
Theorem stopped_stays_stopped settings s i x es : reachable systemName settings s → cells s !! i = Some x →
  state x = terminated → turns x = [] ∨ throughput (fixed x) = 1 → Forall fresh_event es →
  ∃ y, cells (run systemName settings es s) !! i = Some y ∧ state y = terminated ∧ turns y = [] ∧
    mb_users (mailbox y) = [] ∧ stashBuffer y = [].
Proof.
  intros Hr Hx Hst Hth Hes.
  assert (Ht : turns x = []).
  { destruct Hth as [|Hth]; [done|]. apply (tame_stopped x); [by apply (reachable_tame systemName settings s Hr i)|lia|done]. }
  clear Hth. revert s x Hr Hx Hst Ht. induction Hes as [|e es He Hes IH]; intros s x Hr Hx Hst Ht.
  { exists x. destruct (reachable_cells_ok systemName settings s Hr i x Hx) as [_ _ _ Hd _].
    destruct (Hd Hst) as (? & ? & _). done. }
  pose proof (reachable_cells_ok systemName settings s Hr) as Hok.
  pose proof (reachable_tame systemName settings s Hr) as Htm.
  assert (Hq : ∃ y, cells (step systemName settings e s) !! i = Some y ∧ quiet x y).
  { destruct (step_effect systemName settings e s He Hok Htm) as [[[Hc _] _]|(j & z & t & Hz & Htn & Ha & _)]; [by apply Hc|].
    destruct (decide (i = j)) as [->|Hj]; [simplify_eq; congruence|].
    destruct (acts_others j t _ _ i x Hj Hx Ha) as (y & Hy & Hq & _). by exists y. }
  destruct Hq as (y & Hy & [_ S Tn _ _ _ _ _]). apply (IH (step systemName settings e s) y); [by constructor|done|congruence|].
  destruct Tn as [[_ ->]|(Hn & _)]; [done|congruence].
Qed.

(** C17. Actors form a tree: every cell but the root was spawned by its parent,
    under a valid name and a path that extends the parent's; the names a parent
    has in use are distinct, and it never gives one uid twice. *)
Theorem actors_form_a_tree settings s : reachable systemName settings s → tree s.
Proof. apply reachable_tree. Qed.

(** ** Supervision *)

(** A command for a cell: the last of its system lane, and nothing else of what
    the cell holds changes. *)
Definition gets (c : SystemCommand_ E) x y : Prop :=
  mb_systems (mailbox y) = mb_systems (mailbox x) ++ [mkEnvelope (Command c) None false false] ∧
  mb_users (mailbox y) = mb_users (mailbox x) ∧ anatomy y = anatomy x.

Lemma gets_enqueueSystem c x : gets c x (enqueueSystem c x).
Proof.
  destruct (enqueueSystem_fields (mkEnvelope (Command c) None false false) (mailbox x)) as (Hu & Hs & _).
  unfold gets, enqueueSystem. rewrite anatomy_schedule.
  destruct (schedule_fields (set_mailbox (mb_enqueueSystem (mkEnvelope (Command c) None false false) (mailbox x)) x))
    as (_ & _ & -> & _). done.
Qed.

Lemma tellAll_lookup c ids s j : NoDup ids →
  cells (tellAll c ids s) !! j = (if bool_decide (j ∈ ids) then enqueueSystem c else id) <$> cells s !! j.
Proof.
  intros Hn. revert s. induction Hn as [|i ids Hi Hn IH]; intros s.
  { change (tellAll c [] s) with s. rewrite bool_decide_false by (by intros ?%not_elem_of_nil). by rewrite option_fmap_id. }
  change (tellAll c (i :: ids) s) with (tellAll c ids (upd i (enqueueSystem c) s)). rewrite IH, upd_lookup.
  destruct (decide (j = i)) as [->|Hj].
  - rewrite bool_decide_false, bool_decide_true by (done || by left). by destruct (cells s !! i).
  - rewrite option_fmap_id. by rewrite (bool_decide_ext (j ∈ i :: ids) (j ∈ ids)) by (rewrite elem_of_cons; naive_solver).
Qed.

(** The children of a cell are distinct cells. *)
Lemma childIds_NoDup s i x : tree s → cells s !! i = Some x → NoDup (childIds x).
Proof.
  intros Ht Hx. unfold childIds. pose proof (tree_names _ Ht i x Hx) as Hn.
  assert (Hc : ∀ name c, (name, c) ∈ children x → ∃ y, cells s !! c = Some y ∧
    elements (path (fixed y)) = elements (path (fixed x)) ++ [name]).
  { intros name c Hin. destruct (tree_children _ Ht i x name c Hx Hin) as [_ _ (px & y & Hpx & Hy & _ & He & _)].
    simplify_eq. eauto. }
  clear Hx Ht. induction (children x) as [|[name c] l IH]; simpl in *; [constructor|].
  apply NoDup_cons in Hn as [Hnm Hn]. constructor; [|apply IH; [done|]; intros n d Hin; apply Hc; by right].
  intros ([name' c'] & Hcc & Hin)%list_elem_of_fmap. simpl in Hcc. subst c'.
  destruct (Hc name c) as (y & Hy & E1); [by left|]. destruct (Hc name' c) as (y' & Hy' & E2); [by right|].
  simplify_eq. rewrite E1 in E2. apply app_inv_head in E2 as [= ->]. apply Hnm, list_elem_of_fmap. by exists (name', c).
Qed.

Lemma child_not_self s i x c : tree s → cells s !! i = Some x → c ∈ childIds x → (i < c)%nat ∧ is_Some (cells s !! c).
Proof.
  intros Ht Hx ([name c'] & -> & Hin)%list_elem_of_fmap. simpl.
  destruct (tree_children _ Ht i x name c' Hx Hin) as [Hlt _ (px & y & _ & Hy & _)]. eauto.
Qed.

(** The command a directive stands for. *)
Definition directive_command (d : Directive) (withinLimit : bool) (cause : Cause_ E) : SystemCommand_ E :=
  match d with
  | Resume => resume
  | Restart => if withinLimit then recreate cause else terminate
  | _ => terminate
  end.

(** C27. A directive other than [Escalate] is one command for each cell it affects:
    the failed child, or with all-for-one every child, once; a restart the
    budget refuses stops them instead.  Nobody else hears of it. *)
Theorem directive_obeyed settings s i x name c cause strategy now d : reachable systemName settings s →
  cells s !! i = Some x → (name, c) ∈ children x → decider strategy cause = Some d → d ≠ Escalate →
  let affected := match scope strategy with all_for_one => childIds x | one_for_one => [c] end in
  let command := directive_command d (registerRestart strategy now x).1 cause in
  let r := applyDirective i c cause strategy now s in
  r.2 = Done ∧ c ∈ affected ∧
  (∀ j, j ∈ affected → ∃ y y', cells s !! j = Some y ∧ cells r.1 !! j = Some y' ∧ gets command y y') ∧
  (∀ j, j ∉ affected → j ≠ i → cells r.1 !! j = cells s !! j) ∧
  cells r.1 !! i = Some (if bool_decide (d = Restart) then (registerRestart strategy now x).2 else x).
Proof.
  intros Hr Hx Hin Hd Hne. cbv zeta. pose proof (reachable_tree systemName settings s Hr) as Ht.
  set (affected := match scope strategy with all_for_one => childIds x | one_for_one => [c] end).
  set (command := directive_command d (registerRestart strategy now x).1 cause).
  set (x' := if bool_decide (d = Restart) then (registerRestart strategy now x).2 else x).
  assert (Hc : c ∈ childIds x) by (apply list_elem_of_fmap; by exists (name, c)).
  assert (Hsub : ∀ j, j ∈ affected → j ∈ childIds x).
  { intros j. unfold affected. destruct (scope strategy); [|done]. by intros ->%list_elem_of_singleton. }
  assert (Hnd : NoDup affected).
  { unfold affected. destruct (scope strategy); [apply NoDup_singleton|by apply (childIds_NoDup s i)]. }
  assert (Hr' : applyDirective i c cause strategy now s =
    (tellAll command affected (if bool_decide (d = Restart) then upd i (λ _, x') s else s), Done)).
  { unfold applyDirective, reading. rewrite Hx, Hd. fold affected. unfold command, x'.
    destruct d; try done. simpl. by destruct (registerRestart strategy now x). }
  rewrite Hr'. cbn [fst snd]. split; [done|].
  assert (Hi : i ∉ affected).
  { intros H%Hsub. destruct (child_not_self s i x i Ht Hx H) as [? _]. lia. }
  assert (Hl : ∀ j, j ≠ i → cells (if bool_decide (d = Restart) then upd i (λ _, x') s else s) !! j = cells s !! j).
  { intros j Hj. destruct (bool_decide _); [|done]. rewrite upd_lookup, decide_False by done. by rewrite option_fmap_id. }
  split_and!.
  - unfold affected. destruct (scope strategy); [by left|done].
  - intros j Hj. destruct (child_not_self s i x j Ht Hx (Hsub j Hj)) as [Hlt [y Hy]].
    exists y, (enqueueSystem command y). rewrite tellAll_lookup, bool_decide_true, Hl, Hy by (done || lia).
    split_and!; [done|done|]. apply gets_enqueueSystem.
  - intros j Hj Hji. rewrite tellAll_lookup, bool_decide_false, Hl by done. by rewrite option_fmap_id.
  - rewrite tellAll_lookup, bool_decide_false by done. rewrite option_fmap_id. unfold x'.
    destruct (bool_decide _); [|done]. by rewrite upd_lookup, decide_True, Hx by done.
Qed.

(** Cell [j] gets [c] between [s] and [s']. *)
Definition told s s' (j : CellId) (c : SystemCommand_ E) : Prop :=
  ∃ y y', cells s !! j = Some y ∧ cells s' !! j = Some y' ∧ gets c y y'.

(** A cell that suspends itself. *)
Definition halted x : Cell :=
  let x := set_mailbox (mb_suspend (mailbox x)) x in if bool_decide (state x = running) then set_state suspended x else x.

Lemma failToParent_spec s i x p cause : tree s → cells s !! i = Some x → parent (fixed x) = Some p →
  told s (failToParent i cause s) p (failure cause (self i x)) ∧
  (∀ c, c ∈ childIds x → told s (failToParent i cause s) c suspend) ∧
  cells (failToParent i cause s) !! i = Some (halted x) ∧
  (∀ j, j ≠ i → j ≠ p → j ∉ childIds x → cells (failToParent i cause s) !! j = cells s !! j).
Proof.
  intros Ht Hx Hp. pose proof (childIds_NoDup s i x Ht Hx) as Hnd.
  pose proof (tree_parent _ Ht i x Hx) as Hpar. rewrite Hp in Hpar. destruct Hpar as (px & name & Hpx & [Hlt _ _]).
  assert (Hl : ∀ j, cells (failToParent i cause s) !! j =
    (if decide (j = p) then enqueueSystem (failure cause (self i x)) else id) <$>
      ((if bool_decide (j ∈ childIds x) then enqueueSystem suspend else id) <$>
        ((if decide (j = i) then halted else id) <$> cells s !! j))).
  { intros j. unfold failToParent, reading. rewrite Hx, Hp, upd_lookup, tellAll_lookup by done. by rewrite upd_lookup. }
  assert (Hc : ∀ c, c ∈ childIds x → (i < c)%nat ∧ is_Some (cells s !! c)).
  { intros c. by apply child_not_self. }
  split_and!.
  - exists px, (enqueueSystem (failure cause (self i x)) px). split_and!; [done| |apply gets_enqueueSystem].
    rewrite Hl, decide_True, bool_decide_false, decide_False, Hpx by (done || lia || intros [??]%Hc; lia). done.
  - intros c Hin. destruct (Hc c Hin) as [Hic [y Hy]].
    exists y, (enqueueSystem suspend y). split_and!; [done| |apply gets_enqueueSystem].
    by rewrite Hl, decide_False, bool_decide_true, decide_False, Hy by (done || lia).
  - rewrite Hl, decide_False, bool_decide_false, decide_True, Hx by (done || lia || intros [??]%Hc; lia). done.
  - intros j Hji Hjp Hjc. rewrite Hl, decide_False, bool_decide_false, decide_False by done. by rewrite !option_fmap_id.
Qed.

(** A handler that throws: the actor reads no further message, its children are
    told to suspend, and its parent alone is told of the failure. *)
Theorem failure_reported settings s i x p m o h e clock : reachable systemName settings s → cells s !! i = Some x →
  parent (fixed x) = Some p → turns x = [Running (CallReceive m) o h] →
  let s' := step systemName settings (Finish i 0 (Throws e) clock) s in
  told s s' p (failure (UserError e) (self i x)) ∧
  (∀ c, c ∈ childIds x → told s s' c suspend) ∧
  (∃ y, cells s' !! i = Some y ∧ mb_suspended (mailbox y) = true ∧ currentEnvelope y = None ∧
    state y = (if bool_decide (state x = running) then suspended else state x)) ∧
  (∀ j, j ≠ i → j ≠ p → j ∉ childIds x → cells s' !! j = cells s !! j).
Proof.
  intros Hr Hx Hp Htn. cbv zeta. pose proof (reachable_tree systemName settings s Hr) as Ht.
  destruct (failToParent_spec s i x p (UserError e) Ht Hx Hp) as (H1 & H2 & H3 & H4).
  pose proof (tree_parent _ Ht i x Hx) as Hpar. rewrite Hp in Hpar. destruct Hpar as (px & name & Hpx & [Hlt _ _]).
  set (s1 := failToParent i (UserError e) s) in *.
  set (s' := step systemName settings (Finish i 0 (Throws e) clock) s).
  assert (Hs' : s' = settle i 0 o h (upd i dispatchEpilogue s1, Done)).
  { unfold s'. simpl. rewrite Hx. simpl. by rewrite Htn. }
  assert (Ho : ∀ j, j ≠ i → cells s' !! j = cells s1 !! j).
  { intros j Hj. rewrite Hs', settle_lookup by done. simpl fst. rewrite upd_lookup, decide_False by done.
    by rewrite option_fmap_id. }
  split_and!.
  - destruct H1 as (y & y' & Hy & Hy' & Hg). exists y, y'. by rewrite Ho by lia.
  - intros c Hc. destruct (child_not_self s i x c Ht Hx Hc) as [Hic _].
    destruct (H2 c Hc) as (y & y' & Hy & Hy' & Hg). exists y, y'. by rewrite Ho by lia.
  - set (y := dispatchEpilogue (halted x)).
    assert (Hy : cells (upd i dispatchEpilogue s1) !! i = Some y) by (by rewrite upd_lookup, decide_True, H3 by done).
    set (P := λ z, mb_suspended (mailbox z) = true ∧ currentEnvelope z = None ∧
      state z = (if bool_decide (state x = running) then suspended else state x)).
    assert (Hf : P y).
    { pose proof (mb_suspend_ok (mailbox x)) as [= _ _ Hsus _]. unfold P, y, halted. simpl.
      by destruct (bool_decide (state x = running)). }
    assert (Hend : ∀ z, P z → P (endTurn 0 z)).
    { intros z Hz. unfold endTurn. cbv zeta.
      set (w := set_processing false (set_turns (delete 0%nat (turns z)) z)).
      destruct (schedule_fields w) as (_ & S & Mb & _ & _ & C & _).
      destruct (negb (bool_decide (state w = terminated)) && hasDispatchableWork w); [|done].
      unfold P. by rewrite S, Mb, C. }
    rewrite Hs'. unfold settle. rewrite upd_lookup, decide_True, Hy by done. cbn [fmap option_fmap option_map].
    eexists. split; [done|]. change (P (match o with
      | FromSystem => if bool_decide (state y = terminated) then endTurn 0 y else set_turn 0 (Loop h) y
      | FromUser => if h + 1 <? throughput (fixed y) then set_turn 0 (Loop (h + 1)) y else endTurn 0 y end)).
    destruct o; [destruct (bool_decide (state y = terminated))|destruct (h + 1 <? throughput (fixed y))];
      first [by apply Hend|exact Hf].
  - intros j Hji Hjp Hjc. by rewrite Ho, H4 by done.
Qed.

(** The budget of a supervisor: one request after another, none from another
    strategy in between. *)
Fixpoint cell_answers (strategy : SupervisorStrategy (Cause_ E)) x (requests : list Z) : list bool :=
  match requests with
  | [] => []
  | now :: requests =>
      (registerRestart strategy now x).1 :: cell_answers strategy (registerRestart strategy now x).2 requests
  end.

(** A cell meters the restarts of one strategy object exactly as a budget made
    for it does, however long it goes on; a request under another object, equal
    or not, starts again with a full budget. *)
Theorem budget_per_strategy_object strategy x requests : (∀ b, restartBudget x ≠ Some (identity strategy, b)) →
  cell_answers strategy x requests = answers (new_budget strategy) requests.
Proof.
  intros Hn. assert (Hgo : ∀ requests b y, restartBudget y = Some (identity strategy, b) →
    cell_answers strategy y requests = answers b requests).
  { clear. intros requests. induction requests as [|now requests IH]; intros b y Hy; [done|].
    simpl. unfold registerRestart. rewrite Hy, bool_decide_true by done.
    destruct (Supervision.registerRestart now b) as [g b'] eqn:Eb. simpl. f_equal. by apply IH. }
  destruct requests as [|now requests]; [done|]. simpl.
  assert (Hb : match restartBudget x with
    | Some (ident, b) => if bool_decide (ident = identity strategy) then b else new_budget strategy
    | None => new_budget strategy end = new_budget strategy).
  { destruct (restartBudget x) as [[ident b]|]; [|done].
    rewrite bool_decide_false; [done|]. intros ->. by apply (Hn b). }
  unfold registerRestart. rewrite Hb. destruct (Supervision.registerRestart now (new_budget strategy)) as [g b'] eqn:Eb.
  simpl. f_equal. by apply Hgo.
Qed.

(** ** Death watch *)

(** No cell changes its state or loses a queued message. *)
Definition adds s s' : Prop :=
  ∀ j z, cells s !! j = Some z → ∃ z', cells s' !! j = Some z' ∧ state z' = state z ∧
    mb_users (mailbox z) ⊆ mb_users (mailbox z').

#[local] Instance adds_preorder : PreOrder adds.
Proof.
  split; [intros s j z Hz; by exists z|]. intros s1 s2 s3 H1 H2 j z Hz.
  destruct (H1 j z Hz) as (y & Hy & S1 & U1). destruct (H2 j y Hy) as (w & Hw & S2 & U2).
  exists w. split_and!; [done|congruence|set_solver].
Qed.

Lemma adds_upd i f s : (∀ z, state (f z) = state z ∧ mb_users (mailbox z) ⊆ mb_users (mailbox (f z))) → adds s (upd i f s).
Proof.
  intros Hf j z Hz. exists ((if decide (j = i) then f else id) z). rewrite upd_lookup, Hz. split; [done|].
  by destruct (decide _).
Qed.

Lemma adds_enqueueSystem i c s : adds s (upd i (enqueueSystem c) s).
Proof.
  apply adds_upd. intros z. destruct (gets_enqueueSystem c z) as (_ & -> & Ha). split; [|done]. by injection Ha.
Qed.

Lemma signal_arrives env z : state z ≠ terminated →
  mb_users (mailbox (postSignalEnvelope env None z).1) ≡ₚ
    mkEnvelope (message env) (sender env) (replayed env) true :: mb_users (mailbox z).
Proof.
  intros Hz. unfold postSignalEnvelope. rewrite bool_decide_false by done. cbn [fst enqueueUser].
  set (e := mkEnvelope _ _ _ _). destruct (schedule_fields (note_accepted [entry e]
    (with_mailbox (mb_enqueueSignal e (mailbox z)) z))) as (_ & _ & -> & _). apply signal_fields.
Qed.

Lemma adds_notifyWatcher w t s : adds s (notifyWatcher w t s).
Proof.
  unfold notifyWatcher. destruct (cell w) as [i|] eqn:Hw.
  2:{ intros j z Hz. exists z. unfold tell. by rewrite Hw. }
  unfold upd_err, reading. destruct (cells s !! i) as [x|] eqn:Hx; [|done]. cbn [fst].
  intros j z Hz. rewrite upd_lookup, Hz. destruct (decide (j = i)) as [->|]; [|by exists z].
  rewrite Hx in Hz. injection Hz as <-. eexists. split; [done|].
  pose proof (anatomy_signal (mkEnvelope (Terminated t) None false false) None x) as [= _ S _ _].
  split; [done|]. destruct (decide (state x = terminated)) as [Hd|Hd].
  - unfold postSignalEnvelope. by rewrite bool_decide_true.
  - rewrite signal_arrives by done. set_solver.
Qed.

(** The signal waits, exempt from every bound, in the queue of [j]. *)
Definition waits_for (j : CellId) (t : Terminated_) s : Prop :=
  ∃ z env, cells s !! j = Some z ∧ env ∈ mb_users (mailbox z) ∧ message env = Terminated t ∧ undroppable env = true.

Lemma adds_waits_for j t s s' : adds s s' → waits_for j t s → waits_for j t s'.
Proof.
  intros H (z & env & Hz & He & Hm). destruct (H j z Hz) as (z' & Hz' & _ & U). exists z', env.
  split_and!; [done|by apply U|apply Hm..].
Qed.

Lemma notified (ws : list ActorRef) t s w j z : w ∈ ws → cell w = Some j → cells s !! j = Some z → state z ≠ terminated →
  waits_for j t (foldl (λ s w, notifyWatcher w t s) s ws).
Proof.
  revert s z. induction ws as [|w' ws IH]; intros s z Hin Hw Hz Hst; [by apply not_elem_of_nil in Hin|]. simpl.
  apply elem_of_cons in Hin as [<-|Hin].
  - assert (H : waits_for j t (notifyWatcher w t s)).
    { unfold notifyWatcher. rewrite Hw. unfold upd_err, reading. rewrite Hz. cbn [fst].
      eexists _, (mkEnvelope (Terminated t) None false true). rewrite upd_lookup, decide_True, Hz by done.
      split; [done|]. split; [|done]. rewrite signal_arrives by done. by left. }
    revert H. generalize (notifyWatcher w t s). clear. intros s. revert s. induction ws as [|w ws IH]; intros s H; [done|].
    simpl. apply IH. eapply adds_waits_for; [apply adds_notifyWatcher|done].
  - destruct (adds_notifyWatcher w' t s j z Hz) as (z' & Hz' & S & _). apply (IH _ z'); try done. congruence.
Qed.

Lemma adds_foldl {A} (f : ActorSystem → A → ActorSystem) (l : list A) s : (∀ s a, adds s (f s a)) → adds s (foldl f s l).
Proof.
  intros Hf. revert s. induction l as [|a l IH]; intros s; [done|]. simpl. etrans; [apply Hf|apply IH].
Qed.

(** C18. When [postStop] is over, however it ended, each watcher in this system that
    is still alive has the [Terminated] signal in its queue, the parent has the
    [childTerminated] command, and nobody watches the cell any more. *)
Theorem watchers_told settings s i x o h outcome clock : reachable systemName settings s → cells s !! i = Some x →
  turns x = [Running CallPostStop o h] → outcome = Returns ∨ (∃ e, outcome = Throws e) →
  let s' := step systemName settings (Finish i 0 outcome clock) s in
  (∀ w j z, w ∈ watchers x → cell w = Some j → j ≠ i → cells s !! j = Some z → state z ≠ terminated →
    waits_for j (frameworkTerminated (self i x)) s') ∧
  (∀ p, parent (fixed x) = Some p → ∃ z', cells s' !! p = Some z' ∧
    last (mb_systems (mailbox z')) = Some (mkEnvelope (Command (childTerminated (self i x))) None false false)) ∧
  ∃ y, cells s' !! i = Some y ∧ state y = terminated ∧ watching y = [].
Proof.
  intros Hr Hx Htn Hout. cbv zeta.
  pose proof (tree_parent _ (reachable_tree systemName settings s Hr) i x Hx) as Hpar.
  set (t := frameworkTerminated (self i x)).
  set (s1 := publish (Stopped i) (upd i stopped s)).
  set (s2 := foldl (λ s w, notifyWatcher w t s) s1 (watchers x)).
  set (s3 := upd i (set_watchers []) s2).
  set (s4 := foldl (λ s r, unwatchLocal i x r s) s3 (watching x).*2).
  set (s5 := upd i (λ x, set_watchWithMessages [] (set_watching [] x)) s4).
  set (s6 := match parent (fixed x) with
             | Some p => upd p (enqueueSystem (childTerminated (self i x))) s5
             | None => publish RootTerminated s5
             end).
  assert (Hs' : step systemName settings (Finish i 0 outcome clock) s = settle i 0 o h (s6, Done)).
  { simpl. rewrite Hx. simpl. rewrite Htn. simpl.
    assert (Hc : completeTermination i s = (s6, Done)) by (unfold completeTermination, reading; by rewrite Hx).
    destruct Hout as [->|[e ->]]; simpl; by rewrite Hc. }
  rewrite Hs'.
  assert (H25 : adds s2 s5).
  { transitivity s3; [by apply adds_upd|]. transitivity s4; [|by apply adds_upd].
    apply adds_foldl. intros s0 r. unfold unwatchLocal. destruct (cell r); [by apply adds_upd|done]. }
  assert (H15 : adds s1 s5).
  { transitivity s2; [|done]. apply (adds_foldl (λ s w, notifyWatcher w t s)). intros s0 w. apply adds_notifyWatcher. }
  assert (H56 : adds s5 s6) by (unfold s6; destruct (parent (fixed x)); [apply adds_enqueueSystem|intros j z Hz; by exists z]).
  assert (H1 : cells s1 !! i = Some (stopped x)).
  { unfold s1. cbn [cells publish]. by rewrite upd_lookup, decide_True, Hx by done. }
  split_and!.
  - intros w j z Hw Hj Hji Hz Hst.
    assert (H6 : waits_for j t s6).
    { apply (adds_waits_for j t s2); [by etrans|]. apply (notified _ t s1 w j z); try done.
      unfold s1. cbn [cells publish]. rewrite upd_lookup, decide_False by done. by rewrite option_fmap_id. }
    destruct H6 as (y & env & Hy & H). exists y, env. by rewrite settle_lookup.
  - intros p Hp. rewrite Hp in Hpar. destruct Hpar as (px & name & Hpx & [Hlt _ _]).
    rewrite settle_lookup by lia. cbn [fst]. unfold s6. rewrite Hp, upd_lookup, decide_True by done.
    destruct (H15 p px) as (y & Hy & _).
    { unfold s1. cbn [cells publish]. rewrite upd_lookup, decide_False by lia. by rewrite option_fmap_id. }
    rewrite Hy. eexists. split; [done|]. destruct (gets_enqueueSystem (childTerminated (self i x)) y) as (-> & _).
    by rewrite last_snoc.
  - assert (H5 : ∃ y, cells s6 !! i = Some y ∧ state y = terminated ∧ watching y = []).
    { destruct (H15 i _ H1) as (y & Hy & S & _). exists y. split_and!; [|done|].
      - unfold s6. destruct (parent (fixed x)) as [p|]; [|done].
        destruct Hpar as (px & name & Hpx & [Hlt _ _]). rewrite upd_lookup, decide_False by lia. by rewrite option_fmap_id.
      - unfold s5 in Hy. rewrite upd_lookup, decide_True in Hy by done. by apply fmap_Some in Hy as (y' & _ & ->). }
    destruct H5 as (y & Hy & S & W). unfold settle. rewrite upd_lookup, decide_True, Hy by done.
    cbn [fmap option_fmap option_map]. eexists. split; [done|].
    assert (He : state (endTurn 0 y) = terminated ∧ watching (endTurn 0 y) = []).
    { unfold endTurn. simpl. by rewrite S. }
    destruct o; [by rewrite bool_decide_true|]. by destruct (_ <? _).
Qed.

(** ** Spawning *)

Lemma construct_starts settings bp p name u : fresh_blueprint bp →
  state (construct settings bp p name u) = creating ∧ turns (construct settings bp p name u) = [Armed] ∧
  mb_systems (mailbox (construct settings bp p name u)) = [mkEnvelope (Command create) None false false].
Proof.
  intros Hf. unfold construct.
  match goal with |- state (enqueueSystem _ (mkCell ?id (buildMailbox _ _ ?dep ?b) _ _ _ _ _ _ _ _ _ _ _ _ _ _ _ _ _ _ _ _ _ _ _ _ _)) = _ ∧ _ =>
    pose proof (buildMailbox_view settings bp dep b Hf) as [= H1 H2 H3 H4]; set (m := buildMailbox settings bp dep b) in * end.
  clearbody m. destruct (enqueueSystem_fields (T := T) (E := E) (mkEnvelope (Command create) None false false) m) as (Hu & Hs & Hd).
  rewrite H2 in Hs. simpl in Hs.
  unfold enqueueSystem, schedule, hasDispatchableWork. simpl. rewrite mb_hasMessages_ok, mb_hasSystemMessages_ok, Hs.
  simpl. by rewrite Hs.
Qed.

(** C39. [spawn] does all of it or nothing: a refusal leaves every cell as it was,
    except that an invalid name costs the parent one uid; a success adds one
    cell, about to be created, and one entry to the parent's children. *)
Theorem spawn_all_or_nothing settings s i x bp name : reachable systemName settings s → cells s !! i = Some x →
  fresh_blueprint bp →
  let r := context systemName settings i (OpSpawn bp name) s in
  match r.2 with
  | Some e =>
      (cells r.1 = cells s ∧
       (e = ReservedName ∧ userAssignable name = false ∨
        e = SpawnFromStopping ∧ (state x = terminating ∨ state x = terminated) ∨
        e = NameNotUnique ∧ name ∈ (children x).*1)) ∨
      (cells r.1 = <[i := set_childUidCounter (childUidCounter x + 1) x]> (cells s) ∧ e = InvalidName ∧ validName name = false)
  | None =>
      userAssignable name = true ∧ validName name = true ∧ (name ∉ (children x).*1) ∧
      state x ≠ terminating ∧ state x ≠ terminated ∧
      (∃ x', cells r.1 !! i = Some x' ∧ children x' = children x ++ [(name, length (cells s))] ∧
         childUidCounter x' = childUidCounter x + 1 ∧ state x' = state x) ∧
      (∃ y, cells r.1 !! length (cells s) = Some y ∧ parent (fixed y) = Some i ∧
         path (fixed y) = mkPath (elements (path (fixed x)) ++ [name]) (childUidCounter x + 1) ∧
         state y = creating ∧ turns y = [Armed] ∧ mb_systems (mailbox y) = [mkEnvelope (Command create) None false false]) ∧
      (∀ j, j ≠ i → (j < length (cells s))%nat → cells r.1 !! j = cells s !! j)
  end.
Proof.
  intros Hr Hx Hf. cbv zeta. simpl. unfold createChild, reading. rewrite Hx. simpl andb.
  pose proof (lookup_lt_Some _ _ _ Hx) as Hlt.
  destruct (userAssignable name) eqn:Ea; simpl negb; cbv iota; [|left; split; [done|by left]].
  destruct (_ || _) eqn:Es; cbn [fst snd].
  { left. split; [done|]. right; left. split; [done|].
    apply orb_true_iff in Es as [H%bool_decide_eq_true|H%bool_decide_eq_true]; [by right|by left]. }
  apply orb_false_iff in Es as [Es1%bool_decide_eq_false Es2%bool_decide_eq_false].
  destruct (entry_get (children x) name) as [c|] eqn:Ec; cbn [fst snd].
  { left. split; [done|]. right; right. split; [done|]. unfold entry_get in Ec.
    apply fmap_Some in Ec as ([n' c'] & Hfind & _). apply find_some in Hfind as [Hin Hn%bool_decide_eq_true].
    simpl in Hn. subst n'. apply list_elem_of_fmap. exists (name, c'). split; [done|]. by apply list_elem_of_In. }
  set (x1 := set_childUidCounter (childUidCounter x + 1) x).
  destruct (validName name) eqn:Ev; cbn [negb fst snd].
  2:{ right. split; [|done]. unfold upd. cbn [cells set_cells]. by apply (alter_insert (λ _, x1) (cells s) i x). }
  set (k := construct settings bp (Some (i, x1)) name (childUidCounter x + 1)).
  destruct (construct_anatomy settings bp i x1 name (childUidCounter x + 1)) as (Kp & Ka & _).
  destruct (construct_starts settings bp (Some (i, x1)) name (childUidCounter x + 1) Hf) as (Ks & Kt & Km).
  fold k in Kp, Ka, Ks, Kt, Km.
  set (s1 := upd i (λ _, x1) s).
  assert (Hl1 : length (cells s1) = length (cells s)) by (unfold s1, upd; simpl; by rewrite length_alter).
  assert (Hl : ∀ j, (j < length (cells s))%nat → cells (set_cells (cells s1 ++ [k]) s1) !! j =
    (if decide (j = i) then λ _, x1 else id) <$> cells s !! j).
  { intros j Hj. cbn [cells set_cells]. rewrite lookup_app_l by (by rewrite Hl1). unfold s1. by rewrite upd_lookup. }
  rewrite Hl1. split_and!; try done; [by apply entry_get_None| | |].
  - eexists. rewrite upd_lookup, decide_True, Hl, decide_True, Hx by done. done.
  - exists k. rewrite upd_lookup, decide_False by lia. cbn [cells set_cells].
    rewrite lookup_app_r, Hl1, Nat.sub_diag by (by rewrite Hl1). done.
  - intros j Hj Hlj. rewrite upd_lookup, decide_False, Hl, decide_False by done. by rewrite !option_fmap_id.
Qed.

End theorems.

(** ** Concrete runs *)

Module Runs.

Abbreviation Msg := (Message_ nat nat).
Abbreviation Mailbox := (AnyMailbox (T := Msg)).
Abbreviation System := (@ActorSystem nat nat Mailbox).
Abbreviation AnEvent := (@Event nat nat Mailbox).
Abbreviation ACell := (@Cell nat nat Mailbox).

Definition settings : Settings := mkSettings 16 None None (λ _, None).
Definition plainActor : @Actor nat nat := mkActor (Some true) None.
Definition plain : @ActorBlueprint nat Mailbox := mkBlueprint None None None None None false.

Definition go (i : nat) : AnEvent := Step i 0 0 0%Q.
Definition ends (i : nat) (o : Outcome) : AnEvent := Finish i 0 o 0.
Definition ask (i : nat) (op : ContextOp) : AnEvent := Context i op.

(** A cell is created and its turn ends. *)
Definition start (i : nat) : list AnEvent := [go i; go i; ends i (Creates plainActor); ends i Returns; go i].

Definition ref (names : list string) (u : Z) (i : nat) : ActorRef := mkRef (mkPath names u) (Some i).

(** The guardians 0 to 2, a parent 3 and its children 4 and 5. *)
Definition a : ActorRef := ref [""; "user"; "p"; "a"] 1 4.
Definition b : ActorRef := ref [""; "user"; "p"; "b"] 2 5.
Definition setup : list AnEvent :=
  start 0 ++ start 1 ++ start 2 ++ [ask 1 (OpSpawn plain "p")] ++ start 3 ++
  [ask 3 (OpSpawn plain "a"); ask 3 (OpSpawn plain "b")] ++ start 4 ++ start 5.

Definition after (es : list AnEvent) : System := run "sys" settings es (initial settings).
Definition root : ACell := construct settings plain None "" 0.
Definition cell_at (i : nat) (s : System) : ACell := default root (cells s !! i).
Definition states (s : System) : list CellState := state <$> cells s.

Lemma after_reachable es : Forall fresh_event es → reachable "sys" settings (after es).
Proof. apply reachable_run. Qed.

Ltac reached := apply after_reachable; repeat constructor; intros ? [=].

(** A message to [b], whose handler throws. *)
Definition failing : list AnEvent := setup ++ [ask 3 (OpTell b (User 1%nat) None); go 5; go 5].

Definition allRestart : SupervisorStrategy (Cause_ nat) :=
  AllForOneStrategy 9 (λ _, Some Restart) (mkStrategyOptions None None).

(** [a] is told to stop, through the system lane, and stops. *)
Definition stopping : list AnEvent := setup ++ [ask 3 (OpWatch a); ask 4 OpStopSelf; go 4; go 4].
Definition stopped_a : list AnEvent := stopping ++ [ends 4 Returns].

(** [a] is sent a poison pill; while its [postStop] runs, [b] fails and the
    supervisor restarts all its children; then [postStop] ends. *)
Definition poisoned : list AnEvent :=
  setup ++ [ask 3 (OpStop a); go 4; go 4; ask 3 (OpTell b (User 1%nat) None); go 5; go 5; ends 5 (Throws 7%nat);
    go 3; go 3; ends 3 (Answers allRestart); ends 4 Returns].
Definition revived : list AnEvent :=
  poisoned ++ [go 4; ends 4 Returns; ends 4 (Creates plainActor); ends 4 Returns; go 3; go 3].

(** An actor that keeps its children over restarts fails and is told to stop,
    before its supervisor's [Restart] arrives. *)
Definition keepsChildren : @Actor nat nat := mkActor (Some false) None.
Definition lost_stop : list AnEvent :=
  start 0 ++ start 1 ++ start 2 ++ [ask 1 (OpSpawn plain "p")] ++
  [go 3; go 3; ends 3 (Creates keepsChildren); ends 3 Returns; go 3] ++ [ask 3 (OpSpawn plain "a")] ++ start 4 ++
  [ask 1 (OpTell (ref [""; "user"; "p"] 1 3) (User 1%nat) None); go 3; go 3; ends 3 (Throws 7%nat);
   ask 3 OpStopSelf; go 1; go 1; ends 1 (Answers defaultStrategy); go 1; go 3; go 3;
   ends 3 Returns; ends 3 (Creates keepsChildren); ends 3 Returns; go 3; go 4; go 4; go 4; ends 4 Returns; go 4;
   go 3; go 3; go 3].

(** [b] has a child; [a] fails and all-for-one restarts [b] too. *)
Definition old_instance : list AnEvent :=
  setup ++ [ask 5 (OpSpawn plain "k")] ++ start 6 ++
  [ask 3 (OpTell a (User 1%nat) None); go 4; go 4; ends 4 (Throws 7%nat); go 3; go 3; ends 3 (Answers allRestart);
   ask 3 (OpTell b (User 2%nat) None); go 5; go 5; ends 5 Returns; go 5].

(** The factory of the new child [c] throws; its supervisor answers [Restart]. *)
Definition never_created : list AnEvent :=
  setup ++ [ask 3 (OpSpawn plain "c"); go 6; go 6; ends 6 (Throws 7%nat); go 6;
    go 3; go 3; ends 3 (Answers defaultStrategy); go 3; go 6; go 6; go 6].

(** [w] watches [p/a]; [p] stops, is spawned anew and has a new child [a],
    which [w] watches before it reads that the first one stopped. *)
Definition hidden : list AnEvent :=
  start 0 ++ start 1 ++ start 2 ++ [ask 1 (OpSpawn plain "w"); ask 1 (OpSpawn plain "p")] ++ start 3 ++ start 4 ++
  [ask 4 (OpSpawn plain "a")] ++ start 5 ++
  [ask 3 (OpWatch (ref [""; "user"; "p"; "a"] 1 5)); ask 4 OpStopSelf; go 4; go 4; go 4; go 5; go 5; ends 5 Returns;
   go 4; go 4; ends 4 Returns; go 1; go 1; go 1; ask 1 (OpSpawn plain "p")] ++ start 6 ++
  [ask 6 (OpSpawn plain "a")] ++ start 7 ++
  [ask 3 (OpWatch (ref [""; "user"; "p"; "a"] 1 7)); go 3; go 3; ends 3 Returns; go 3].

(** The parent is told to stop with a message still in its queue. *)
Definition spinning : list AnEvent :=
  setup ++ [ask 1 (OpTell (ref [""; "user"; "p"] 1 3) (User 1%nat) None); ask 3 OpStopSelf; go 3; go 3; go 3].

End Runs.

Section witnesses.
Import Runs.

Lemma messages_accounted_for_witness :
  accepted (ledger (cell_at 5 (after failing))) = [(User 1%nat, None)] ∧
  accepted (ledger (cell_at 5 (after failing))) ≡ₚ
    (entry <$> mb_users (mailbox (cell_at 5 (after failing)))) ++ (entry <$> stashBuffer (cell_at 5 (after failing))) ++
    match currentEnvelope (cell_at 5 (after failing)) with Some env => [entry env] | None => [] end ++
    completed (ledger (cell_at 5 (after failing))) ++ deadLetters (ledger (cell_at 5 (after failing))) ++
    discarded (ledger (cell_at 5 (after failing))) ++ dropped (ledger (cell_at 5 (after failing))).
Proof.
  split; [vm_compute; reflexivity|].
  assert (Hr : reachable "sys" settings (after failing)) by reached.
  assert (Hx : cells (after failing) !! 5%nat = Some (cell_at 5 (after failing))) by (vm_compute; reflexivity).
  exact (proj1 (messages_accounted_for "sys" settings _ 5 _ Hr Hx)).
Defined.

Lemma one_turn_and_awake_witness :
  mb_systems (mailbox (cell_at 4 (after (setup ++ [ask 4 OpStopSelf])))) ≠ [] ∧
  ∃ t, turns (cell_at 4 (after (setup ++ [ask 4 OpStopSelf]))) = [t].
Proof.
  set (es := setup ++ [ask 4 OpStopSelf]).
  assert (Hr : reachable "sys" settings (after es)) by reached.
  assert (Hx : cells (after es) !! 4%nat = Some (cell_at 4 (after es))) by (vm_compute; reflexivity).
  assert (Hs : state (cell_at 4 (after es)) ≠ terminated) by (vm_compute; discriminate).
  assert (Hm : mb_systems (mailbox (cell_at 4 (after es))) ≠ []) by (vm_compute; discriminate).
  split; [exact Hm|].
  exact (proj2 (proj2 (one_turn_and_awake "sys" settings _ 4 _ Hr Hx)) Hs (or_introl Hm)).
Defined.

Lemma commands_first_witness :
  ∃ c h s1 x1, message (mkEnvelope (Command terminate) None false false : Envelope Msg) = Command c ∧
    (s1 = after (setup ++ [ask 4 OpStopSelf]) ∨
     s1 = step "sys" settings (Step 4 0 0 0%Q) (after (setup ++ [ask 4 OpStopSelf]))) ∧
    cells s1 !! 4%nat = Some x1 ∧ turns x1 = [Loop h] ∧
    mb_systems (mailbox (set_mailbox (mb_dequeueSystem (mailbox x1)).2 x1)) = [] ∧
    step "sys" settings (Step 4 0 0 0%Q) s1 =
      settle 4 0 FromSystem h
        (handleSystemCommand "sys" 4 c 0 (upd 4 (set_mailbox (mb_dequeueSystem (mailbox x1)).2) s1)).
Proof.
  set (es := setup ++ [ask 4 OpStopSelf]).
  assert (Hr : reachable "sys" settings (after es)) by reached.
  assert (Hx : cells (after es) !! 4%nat = Some (cell_at 4 (after es))) by (vm_compute; reflexivity).
  assert (Hs : mb_systems (mailbox (cell_at 4 (after es))) = [mkEnvelope (Command terminate) None false false])
    by (vm_compute; reflexivity).
  assert (Ht : turns (cell_at 4 (after es)) = [Armed]) by (vm_compute; reflexivity).
  exact (commands_first "sys" settings _ 4 _ _ _ 0 0%Q Hr Hx Hs (or_introl Ht)).
Defined.

Lemma lifecycle_witness :
  ∃ y, cells (step "sys" settings (ends 5 (Throws 7%nat)) (after failing)) !! 5%nat = Some y ∧
    fixed y = fixed (cell_at 5 (after failing)) ∧
    edge (ended_code (ends 5 (Throws 7%nat)) 5 (cell_at 5 (after failing)))
      (state (cell_at 5 (after failing))) (state y) = true ∧
    (state y = state (cell_at 5 (after failing)) ∨ acting (ends 5 (Throws 7%nat)) = Some 5%nat).
Proof.
  assert (Hr : reachable "sys" settings (after failing)) by reached.
  assert (Hx : cells (after failing) !! 5%nat = Some (cell_at 5 (after failing))) by (vm_compute; reflexivity).
  exact (lifecycle "sys" settings _ (ends 5 (Throws 7%nat)) 5 _ Hr I Hx).
Defined.

Lemma stopped_stays_stopped_witness :
  ∃ y, cells (run "sys" settings [ask 3 (OpTell a (User 3%nat) None); go 4; go 4] (after stopped_a)) !! 4%nat = Some y ∧
    state y = terminated ∧ turns y = [] ∧ mb_users (mailbox y) = [] ∧ stashBuffer y = [].
Proof.
  assert (Hr : reachable "sys" settings (after stopped_a)) by reached.
  assert (Hx : cells (after stopped_a) !! 4%nat = Some (cell_at 4 (after stopped_a))) by (vm_compute; reflexivity).
  assert (Hs : state (cell_at 4 (after stopped_a)) = terminated) by (vm_compute; reflexivity).
  assert (Ht : turns (cell_at 4 (after stopped_a)) = []) by (vm_compute; reflexivity).
  apply (stopped_stays_stopped "sys" settings _ 4 _ _ Hr Hx Hs (or_introl Ht)). repeat constructor.
Defined.

Lemma actors_form_a_tree_witness : (children (cell_at 3 (after setup))).*1 = ["a"; "b"] ∧ tree (after setup).
Proof.
  split; [vm_compute; reflexivity|].
  assert (Hr : reachable "sys" settings (after setup)) by reached.
  exact (actors_form_a_tree "sys" settings _ Hr).
Defined.

Lemma directive_obeyed_witness :
  ∃ y y', cells (after setup) !! 4%nat = Some y ∧
    cells (applyDirective 3 5 (UserError 7%nat) allRestart 0 (after setup)).1 !! 4%nat = Some y' ∧
    gets (recreate (UserError 7%nat)) y y'.
Proof.
  assert (Hr : reachable "sys" settings (after setup)) by reached.
  assert (Hx : cells (after setup) !! 3%nat = Some (cell_at 3 (after setup))) by (vm_compute; reflexivity).
  assert (Hc : ("b", 5%nat) ∈ children (cell_at 3 (after setup))) by (vm_compute; right; left).
  destruct (directive_obeyed "sys" settings _ 3 _ "b" 5 (UserError 7%nat) allRestart 0 Restart Hr Hx Hc)
    as (_ & _ & H & _); [reflexivity|discriminate|].
  apply (H 4%nat). vm_compute. left.
Defined.

Lemma failure_reported_witness :
  told (after failing) (step "sys" settings (ends 5 (Throws 7%nat)) (after failing)) 3
    (failure (UserError 7%nat) (self 5 (cell_at 5 (after failing)))).
Proof.
  assert (Hr : reachable "sys" settings (after failing)) by reached.
  assert (Hx : cells (after failing) !! 5%nat = Some (cell_at 5 (after failing))) by (vm_compute; reflexivity).
  assert (Hp : parent (fixed (cell_at 5 (after failing))) = Some 3%nat) by (vm_compute; reflexivity).
  assert (Ht : turns (cell_at 5 (after failing)) = [Running (CallReceive (User 1%nat)) FromUser 0])
    by (vm_compute; reflexivity).
  exact (proj1 (failure_reported "sys" settings _ 5 _ 3 _ _ _ 7%nat 0 Hr Hx Hp Ht)).
Defined.

Lemma budget_per_strategy_object_witness :
  cell_answers (OneForOneStrategy 3 (λ _, Some Restart) (mkStrategyOptions (Some 1) (Some 60000)))
    (cell_at 3 (after setup)) [0; 10; 20] = [true; false; false].
Proof.
  rewrite budget_per_strategy_object; [reflexivity|]. vm_compute. discriminate.
Defined.

Lemma watchers_told_witness :
  waits_for 3 (frameworkTerminated (self 4 (cell_at 4 (after stopping)))) (step "sys" settings (ends 4 Returns) (after stopping)).
Proof.
  assert (Hr : reachable "sys" settings (after stopping)) by reached.
  assert (Hx : cells (after stopping) !! 4%nat = Some (cell_at 4 (after stopping))) by (vm_compute; reflexivity).
  assert (Ht : turns (cell_at 4 (after stopping)) = [Running CallPostStop FromSystem 0]) by (vm_compute; reflexivity).
  destruct (watchers_told "sys" settings _ 4 _ _ _ Returns 0 Hr Hx Ht (or_introl eq_refl)) as (H & _ & _).
  apply (H (ref [""; "user"; "p"] 1 3) 3%nat (cell_at 3 (after stopping))).
  - vm_compute. left.
  - reflexivity.
  - discriminate.
  - vm_compute. reflexivity.
  - vm_compute. discriminate.
Defined.

Lemma spawn_all_or_nothing_witness :
  validName "c" = true ∧ ∃ y, cells (context "sys" settings 3 (OpSpawn plain "c") (after setup)).1 !! 6%nat = Some y ∧
    turns y = [Armed].
Proof.
  assert (Hr : reachable "sys" settings (after setup)) by reached.
  assert (Hx : cells (after setup) !! 3%nat = Some (cell_at 3 (after setup))) by (vm_compute; reflexivity).
  assert (Hf : fresh_blueprint plain) by (intros m [=]).
  pose proof (spawn_all_or_nothing "sys" settings _ 3 _ plain "c" Hr Hx Hf) as H. cbv zeta in H.
  assert (He : (context "sys" settings 3 (OpSpawn plain "c") (after setup)).2 = None) by (vm_compute; reflexivity).
  rewrite He in H. destruct H as (_ & Hv & _ & _ & _ & _ & (y & Hy & _ & _ & _ & Ht & _) & _).
  split; [exact Hv|]. exists y. split; [|exact Ht].
  assert (Hl : length (cells (after setup)) = 6%nat) by (vm_compute; reflexivity). rewrite Hl in Hy. exact Hy.
Defined.

(** ** Departures *)

(** A poison pill is handled from the user lane, after which the loop of [run]
    looks at the system lane once more: the [recreate] that waits there
    restarts the stopped actor, which its parent no longer knows. *)
Example stopped_actor_revived :
  state (cell_at 4 (after poisoned)) = terminated ∧ state (cell_at 4 (after revived)) = running ∧
  "a" ∉ (children (cell_at 3 (after revived))).*1.
Proof. split_and!; vm_compute; [reflexivity..|]. intros H. inversion H as [|? ? ? H']; subst. inversion H'. Qed.

(** With [stopChildrenOnRestart] off a restart does not look at the state: the
    cell was stopping, is running again, and stays although its children, told
    to stop, are gone. *)
Example stop_lost_in_restart :
  state (cell_at 3 (after lost_stop)) = running ∧ children (cell_at 3 (after lost_stop)) = [] ∧
  turns (cell_at 3 (after lost_stop)) = [] ∧ state (cell_at 4 (after lost_stop)) = terminated.
Proof. split_and!; vm_compute; reflexivity. Qed.

(** A strategy object made anew for each failure: the limit of one restart is
    never reached. *)
Example fresh_object_never_limits :
  let strategy n := OneForOneStrategy n (λ _, Some Restart) (mkStrategyOptions (Some 1) (Some 60000)) in
  let x := cell_at 3 (after setup) in
  let '(g1, x) := registerRestart (strategy 3%nat) 0 x in
  let '(g2, x) := registerRestart (strategy 4%nat) 10 x in
  let '(g3, x) := registerRestart (strategy 5%nat) 20 x in
  [g1; g2; g3] = [true; true; true].
Proof. vm_compute. reflexivity. Qed.

(** A sibling restarted by all-for-one is not suspended: after its
    [preRestart], while its children stop, the old instance reads on. *)
Example old_instance_reads_on :
  drop 21 (notes (after old_instance)) =
    [Called 4 (CallReceive (User 1%nat)); Called 3 (CallStrategy (UserError 7%nat) 4);
     Called 5 (CallPreRestart (UserError 7%nat)); Called 5 (CallReceive (User 2%nat))].
Proof. vm_compute. reflexivity. Qed.

(** A cell whose first factory call threw is never created: [recreate] does
    nothing without an instance, and the parent keeps the child. *)
Example never_created_stays :
  state (cell_at 6 (after never_created)) = creating ∧ turns (cell_at 6 (after never_created)) = [] ∧
  mb_systems (mailbox (cell_at 6 (after never_created))) = [] ∧
  (children (cell_at 3 (after never_created))).*1 = ["a"; "b"; "c"].
Proof. split_and!; vm_compute; reflexivity. Qed.

(** The second [p/a] has the path and the uid of the first, so the watch is
    taken for the one that exists, and goes when the first one's death is read:
    nobody watches the second. *)
Example second_incarnation_unwatched :
  path (fixed (cell_at 5 (after hidden))) = path (fixed (cell_at 7 (after hidden))) ∧
  state (cell_at 7 (after hidden)) = running ∧ watchers (cell_at 7 (after hidden)) = [] ∧
  watching (cell_at 3 (after hidden)) = [].
Proof. split_and!; vm_compute; reflexivity. Qed.

(** A stopping cell with a message in its queue takes turn after turn until its
    children are gone, and none of them does anything. *)
Example stopping_cell_spins :
  state (cell_at 3 (after spinning)) = terminating ∧ turns (cell_at 3 (after spinning)) = [Armed] ∧
  run "sys" settings [go 3; go 3] (after spinning) = after spinning.
Proof. split_and!; vm_compute; reflexivity. Qed.

End witnesses.
